(* ===== verification/_CoqProject ===== *)
-Q . S2P
Prelude.v
Order.v
Bytes.v
Epoch.v
Bits.v
Bitmap.v
BitmapSpec.v
BitmapAlgebra.v
BitmapIterSpec.v
Vnode.v
Mapping.v
Placement.v
PlacementSpec.v
RowId.v
Key.v
KeySpec.v
KeyOrder.v
KeyRange.v
Watermark.v
WatermarkSpec.v
WatermarkRange.v
WatermarkIndex.v
Sst.v
SstSpec.v
Level.v
LevelHandler.v
Split.v
SplitSpec.v
LevelsSpec.v
Block.v
BlockSpec.v
BlockIterSpec.v
Iter.v
IterSpec.v
MemTable.v
MemTableSpec.v
ConcatSpec.v
UserIter.v
UserIterSpec.v
BackwardIterSpec.v
SkipWatermarkSpec.v
SharedBuffer.v
SharedBufferSpec.v
MergeImm.v
MergeImmSpec.v
SstMeta.v
SstMetaSpec.v
SstIter.v
SstIterSpec.v
ReadPath.v
Version.v
StateTableSpec.v
ChangeLogSpec.v
VersionSpec.v
StateStore.v
StateStoreSpec.v
ReadVersion.v
VersionReader.v
VersionReaderSpec.v
VersionScanSpec.v
ReadVersionSpec.v
LocalStorage.v
LocalStorageSpec.v
UploadSpec.v
MemoryLimiter.v
MemoryLimiterSpec.v
Exchange.v
ExchangeSpec.v
