(* ===== verification/Prelude.v ===== *)
(** * RisingWave: storage, data distribution and exchange

    A verification of the parts of the streaming database under
    [src/06-spark-risingwave-example-ingestion-framework/] that decide where rows live, in
    which order they are stored, what a version of the storage contains, and how actors pass
    messages on.  Paths below are relative to the [src/] directory of that project.  The other
    projects of the repository (Spark, Kafka and Delta Lake tutorials and a copy of Delta Lake)
    are not modelled.

    ** The program

    Rows are hashed to virtual nodes; a vnode mapping assigns each vnode to an actor or worker
    slot; bitmaps are the sets of vnodes and the visibility of chunk rows.  A stored key is
    table id, vnode, payload and epoch.  Keys are written in blocks, blocks make sorted tables
    (sstables), and sorted tables make the levels of a compaction group.  A Hummock version
    holds the levels of all groups, the state tables with their committed epochs, table
    watermarks and change logs; the meta service changes it by deltas that commit epochs, apply
    compactions, split and merge groups.  A client writes to a table through a local handle: writes
    gather in a mem-table, a flush turns them into a batch of the shared buffer, batches are uploaded
    as tables and tables are committed.  A read version is what the handle reads of all these:
    batches, uploaded tables, committed version.  Readers merge iterators over batches and tables,
    take the newest version of every key visible at their epoch, and narrow their ranges by
    watermarks.  Actors exchange chunks and barriers over channels with permits.

    ** Files

    - [Prelude.v] (this file): panics as the monad [outcome], loops, lemmas on lists and sorted
      lists, tactics.  [Order.v]: total orders ([Ord]) as the class
      [TotalCmp].  [Bytes.v]: machine integers, wrap-around, big- and little-endian encodings, with
      the hint database [uint].
    - [Epoch.v]: [common/src/util/epoch.rs] and [EpochWithGap] of
      [storage/hummock_sdk/src/lib.rs].  [RowId.v]: [common/src/util/row_id.rs].
    - [Bits.v], [Bitmap.v]: [common/src/bitmap.rs]; theorems in [BitmapSpec.v],
      [BitmapAlgebra.v], [BitmapIterSpec.v].
    - [Vnode.v]: [common/src/hash/consistent_hash/] ([vnode.rs], [vnode_count.rs],
      [bitmap.rs], [mapping.rs]) and [common/src/util/compress.rs]; theorems in [Mapping.v].
    - [Placement.v]: [common/src/vnode_mapping/vnode_placement.rs]; theorems in
      [PlacementSpec.v].
    - [Key.v]: [storage/hummock_sdk/src/key.rs], [key_cmp.rs]; theorems in [KeySpec.v],
      [KeyOrder.v].  [KeyRange.v]: [key_range.rs].
    - [Watermark.v]: [table_watermark.rs] of [hummock_sdk]; theorems in [WatermarkSpec.v],
      [WatermarkRange.v], [WatermarkIndex.v].
    - [Sst.v]: [sstable_info.rs], the concatenation tests of [lib.rs], and
      [meta/src/hummock/compaction/overlap_strategy.rs]; theorems in [SstSpec.v].
    - [Level.v]: [level.rs] and the protobuf conversions of [sstable_info.rs].
      [LevelHandler.v]: [meta/src/hummock/level_handler.rs].
    - [Split.v]: [compaction_group/mod.rs] ([group_split]) and the level operations of
      [compaction_group/hummock_version_ext.rs]; theorems in [SplitSpec.v], [LevelsSpec.v].
    - [Block.v]: [storage/src/hummock/sstable/block.rs], [block_iterator.rs] and the helpers
      of [utils.rs]; theorems in [BlockSpec.v] (building, decoding), [BlockIterSpec.v].
    - [Iter.v]: [storage/src/hummock/iterator/mod.rs], [merge_inner.rs], [concat_inner.rs] and
      [value.rs]; the contract of iterators and its implementations in [IterSpec.v],
      [ConcatSpec.v].  [UserIter.v]: [forward_user.rs], [backward_user.rs], [skip_watermark.rs];
      lemmas in [UserIterSpec.v], [BackwardIterSpec.v], [SkipWatermarkSpec.v].
    - [SharedBuffer.v]: [shared_buffer/shared_buffer_batch.rs]; lemmas in [SharedBufferSpec.v].
      [MergeImm.v]: [merge_imms_in_memory] of [compactor/shared_buffer_compact.rs]; theorem in
      [MergeImmSpec.v].
    - [SstMeta.v]: [sstable/mod.rs], [block_stream.rs]; theorems in [SstMetaSpec.v].
      [SstIter.v]: [forward_sstable_iterator.rs], [backward_sstable_iterator.rs]; theorem in
      [SstIterSpec.v].  [ReadPath.v]: the theorems of the read path.
    - [Version.v]: [version.rs], [change_log.rs], [apply_version_delta],
      [apply_change_log_delta] and [validate_version]; theorems in [StateTableSpec.v],
      [ChangeLogSpec.v], [VersionSpec.v].
    - [MemTable.v]: [MemTable] of [storage/src/mem_table.rs], [FromRustIterator] of
      [iterator/mod.rs], [KvSize] of [common/estimate_size/src/lib.rs] and the consistency levels of
      [storage/src/store.rs]; theorems in [MemTableSpec.v].  [StateStore.v]: [merge_stream] and
      [MemtableLocalStateStore] of [mem_table.rs] and the sanity checks of [hummock/utils.rs];
      theorems in [StateStoreSpec.v].
    - [ReadVersion.v]: the staging part of [hummock/store/version.rs],
      [local_version/pinned_version.rs] and the pruning of [hummock/utils.rs]; lemmas in
      [ReadVersionSpec.v].  [VersionReader.v]: [HummockVersionReader] of [store/version.rs],
      [get_from_sstable_info] of [hummock/mod.rs] and the iterator factories of
      [store/local_hummock_storage.rs]; theorems in [VersionReaderSpec.v] (lookups) and
      [VersionScanSpec.v] (scans).
    - [LocalStorage.v]: [LocalHummockStorage] of [store/local_hummock_storage.rs]; theorems in
      [LocalStorageSpec.v] (the client) and [UploadSpec.v] (uploads and commits).
    - [MemoryLimiter.v]: [MemoryLimiter] and [MemoryTracker] of [hummock/utils.rs], one atomic
      operation per step; theorems in [MemoryLimiterSpec.v].
    - [Exchange.v]: [stream/src/executor/exchange/permit.rs], [RemoteInput] of [input.rs], and
      [get_stream_impl] of [compute/src/rpc/service/exchange_service.rs]; theorems in
      [ExchangeSpec.v].

    A Rust [struct] is a [Record] named [t] in a [Module] with the name of the type, an [enum]
    an [Inductive], a method a definition of that module.  [&mut self] is state passing: the
    new value is returned.

    ** Conventions

    The production profile is modelled: integer arithmetic wraps, [debug_assert!] is not there;
    [assert!], [unwrap], [expect], out-of-range indexing and [panic!] are the outcome [Panic].
    [usize] has 64 bits.  Lengths, indexes and positions are [nat]; words, epochs, ids and
    sizes are [Z] with [wrap] where they can overflow.  Bytes are the Standard Library's
    [byte].  Logging and metrics are left out.  A [HashMap] is a finite map; where its iteration
    order could matter the order is a parameter (a permutation of the entries; the class
    [HashOrder] in [Version.v]), and the theorems hold for every order.  Clocks are lists of
    readings.  Code of other packages is a parameter with its documented behaviour: checksum and
    compressors of blocks ([Codec] in [BlockSpec.v]), semaphores and queues ([Semaphore],
    [Fifo] in [Exchange.v]), the binary heap ([BinaryHeap] in [Iter.v]), the stores that open
    tables and fetch blocks (hypotheses of the theorems that use them); each has an instance,
    which the witnesses use.  The store under a [MemtableLocalStateStore] is the class [StateStore]
    with its laws [StateStoreLaws].  The channel to the event handler is the list of the events
    sent; for the local storage the memory limiter is a function of the size asked for.  Threads
    interleave by atomic operation, all operations in one order unless a definition says that a store
    is seen late ([weak] in [MemoryLimiter.v]).  A [BTreeMap] is a sorted list.  An [async] operation
    of an iterator is a function to the iterator it leaves and its result ([step] in [Iter.v]); cancelling [next] is an operation of its own.

    Loops without a structural measure have fuel.  Scanning loops of blocks get the length of
    the data plus two: every iteration advances at least a byte, and running out would be a
    panic, which the theorems exclude.  The selection loop of the placement gets the number of
    workers and slots plus one, its rebalancing loop the number of entries plus one.  Loops over an
    inner iterator get more than the number of its entries, the merge of batches the number of
    their versions plus one, the iterator of a local handle more than the entries of its read version
    and mem-table together.  The loops waiting for a clock recurse on the readings.

    ** What is proved

    - Epochs and row ids: [Epoch::next] ends once the clock passes and increases the epoch; row
      ids never repeat, carry their vnode, and the generator only waits for the clock.
    - Bitmaps: builder and bitmap refine boolean lists in every operation, panics included; the
      operators are pointwise; the iterators enumerate the set bits.
    - Vnode mappings: the compressed mapping represents its vector, splitting it into bitmaps
      and joining them is the identity; placement is total, covers every vnode and is balanced.
    - Keys: encodings round-trip and are ordered like the keys; neighbours, prefix and vnode
      ranges are exact; the key tracker accepts exactly ordered sequences; overlap of key ranges
      is exact.
    - Watermarks: the index invariant, monotonicity, what clearing and committing preserve for
      readers, and which keys a narrowed range keeps.
    - Sorted tables and levels: the binary searches for overlapping tables are complete;
      compaction results replace exactly what they name and panic exactly on overlap; a group
      split divides a level exactly at the table and consumes the reserved ids; level handlers
      keep their index.
    - Blocks: what is added, built, compressed and decoded comes out by iteration in both
      directions; seeks are exact; damaged blocks are reported.
    - The read path: iterators that keep the contract of [IterSpec.v] are merged, concatenated and
      filtered by watermarks without losing or reordering an entry, in both directions and with
      failing stores; SST iterators and forward batch iterators keep it; a user iterator over any of
      them returns exactly the rows of its snapshot; merging batches is invisible to readers.
      SST metadata round-trips and damaged metadata is reported.
    - Version readers: a point lookup, which stops at the first of batches, uploaded tables and
      levels that has the key, and a scan, which merges all of them with the mem-table, return
      exactly the rows of the snapshot; pruning by key range, table and filter loses none.
    - Mem-tables and local stores: a mem-table is the difference between the stored table and what
      the writer sees, rejects exactly what contradicts it, and counts its size exactly; a local
      store over any lawful store reads as the table its client wrote, across flushes.
    - Local Hummock storage: after any consistent writes, flushes, spills and commits to later
      epochs, [get] and [iter] of a handle return the table with the writes applied; an upload
      of the oldest batches and a commit that compacts the uploads leave every read as it was.
      Reads here have no retention and no watermark, and an epoch has room for its flushes: the
      spill offset is a 16-bit number that [try_flush] guards and an explicit [flush] does not.
    - The memory limiter: in every interleaving of requests, growing and dropped trackers and
      cancelled waiters, the total is the memory of the trackers that exist and exceeds the quota by
      at most a request and what was forced; some thread can always go on, and when none is
      active nobody waits unless more than the quota is in use.
    - Versions: every version reached by deltas is well-formed, for every kind of group delta
      and iteration order; the state-table index, change logs and watermarks follow the deltas
      table by table; what [validate_version] reports.
    - Exchange: permits are conserved, messages stay in order, the exchange never deadlocks, a
      dropped receiver fails the sender at once.

    Some theorems show behaviour the code does not intend: an open range is not narrowed by a
    descending watermark ([rewrite_range_descending_open_end]), the sizes of a parent group are
    stale after a split ([split_leaves_parent_sizes]), [validate_version] tests the order of
    the sub-level ids the wrong way round ([validate_version_exact]), watermarks of removed
    tables stay ([removed_table_watermarks_stay]), a backward scan over a batch misses its end key
    and reads old versions ([backward_scan_of_batch_differs]), a second seek of a prefetching
    SST iterator may not return ([sstable_seek_past_stream_never_returns]), a commit takes the
    watermarks of the version before it, so that a watermark goes back
    ([commit_forgets_watermark]), a rejected write stays in the mem-table but is no longer counted
    ([rejected_write_loses_size]), a local store flushes at the old consistency level after a switch
    ([switched_level_is_not_flushed]), a waiter is forgotten for good when its store of [has_waiter],
    made with [Release], is seen late ([release_store_loses_wakeup]), and an update of a missing row panics or is yielded depending
    on the other rows ([unpaired_update_depends_on_rows]).

    ** Not modelled

    Of the files above: size estimates, [Debug] and [Display] output, timestamps, block cache
    counters, conversions that only copy fields, conversions of whole versions to protobuf, the
    collections of object ids and the statistics derived from deltas, the protobuf form of
    exchanged messages, statistics of iterators, the iterators over change logs.  Of the program: the
    rest of the storage engine (builders and writers of tables, event handler, uploader, caches,
    object stores; what an upload and a commit bring to a read version are hypotheses,
    [upload_ok] and [commit_ok] in [UploadSpec.v]), the meta service (catalog, barriers,
    scheduling), stream and batch executors, SQL frontend, expressions and connectors.  These are asynchronous I/O,
    database access or clients of external systems, or large collections of rules over data
    types of external packages; no definition stands for them. *)

From Stdlib Require Import ZArith Lia.
From Stdlib Require Strings.Byte.
From Stdlib Require Export Sorted.
From stdpp Require Export base tactics list numbers option sorting.

#[export] Set Default Goal Selector "!".
#[global] Arguments Nat.div : simpl never.
#[global] Arguments Nat.modulo : simpl never.

(** ** Fallible code

    A Rust function that can reach [panic!], a failing [assert!], an
    out-of-range index or an [unwrap] of [None] returns an [outcome]. *)

Inductive outcome (A : Type) : Type :=
| Ret (a : A)
| Panic.
Arguments Ret {A} a.
Arguments Panic {A}.

#[global] Instance outcome_ret : MRet outcome := @Ret.
#[global] Instance outcome_bind : MBind outcome :=
  λ A B f m, match m with Ret a => f a | Panic => Panic end.
#[global] Instance outcome_fmap : FMap outcome :=
  λ A B f m, match m with Ret a => Ret (f a) | Panic => Panic end.

#[global] Instance outcome_eq_dec `{EqDecision A} : EqDecision (outcome A).
Proof. solve_decision. Defined.

#[global] Instance Ret_inj {A} : Inj (=) (=) (@Ret A).
Proof. by intros x y [= ->]. Qed.

(** [assert!(b)] *)
Definition rassert (b : bool) : outcome unit := if b then Ret tt else Panic.

(** [o.unwrap()], [o.expect(..)] and checked indexing *)
Definition unwrap {A} (o : option A) : outcome A :=
  match o with Some a => Ret a | None => Panic end.

(** A [for] loop whose body may panic. *)
Fixpoint rfold {A B} (f : B → A → outcome B) (l : list A) (acc : B) : outcome B :=
  match l with
  | [] => Ret acc
  | x :: l' => f acc x ≫= rfold f l'
  end.

(** [iter.map(f).collect()] with a body that may panic. *)
Fixpoint rmap {A B} (f : A → outcome B) (l : list A) : outcome (list B) :=
  match l with
  | [] => Ret []
  | x :: l' => y ← f x; ys ← rmap f l'; Ret (y :: ys)
  end.

Lemma bind_Ret {A B} (f : A → outcome B) (m : outcome A) b :
  m ≫= f = Ret b ↔ ∃ a, m = Ret a ∧ f a = Ret b.
Proof. destruct m; simpl; naive_solver. Qed.

Lemma bind_assoc_outcome {A B C} (m : outcome A) (f : A → outcome B) (g : B → outcome C) :
  (m ≫= f) ≫= g = m ≫= (λ x, f x ≫= g).
Proof. by destruct m. Qed.

Lemma rassert_Ret b u : rassert b = Ret u ↔ b = true.
Proof. destruct b, u; naive_solver. Qed.

Lemma unwrap_Ret {A} (o : option A) a : unwrap o = Ret a ↔ o = Some a.
Proof. destruct o; naive_solver. Qed.

Lemma rfold_app {A B} (f : B → A → outcome B) l1 l2 acc :
  rfold f (l1 ++ l2) acc = rfold f l1 acc ≫= rfold f l2.
Proof.
  revert acc; induction l1 as [|x l1 IH]; intros acc; [done|].
  simpl. rewrite bind_assoc_outcome. destruct (f acc x); [apply IH|done].
Qed.

Lemma rfold_pure {A B} (f : B → A → B) l acc :
  rfold (λ b a, Ret (f b a)) l acc = Ret (foldl f acc l).
Proof. revert acc; induction l as [|x l IH]; intros acc; [done|apply IH]. Qed.

Lemma rfold_id {A B} (f : B → A → outcome B) l acc : (∀ x, x ∈ l → ∀ b, f b x = Ret b) → rfold f l acc = Ret acc.
Proof.
  induction l as [|x l IH]; intros Hf; [done|]. cbn [rfold]. rewrite (Hf x) by left. apply IH. intros y Hy. apply Hf. by right.
Qed.

(** Loop rule: an invariant of the accumulator that every iteration preserves
    (without panicking) holds at the end, and the loop does not panic. *)
Lemma rfold_inv {A B} (f : B → A → outcome B) (I : list A → B → Prop) l acc :
  I [] acc →
  (∀ done x todo b, l = done ++ x :: todo → I done b →
     ∃ b', f b x = Ret b' ∧ I (done ++ [x]) b') →
  ∃ b, rfold f l acc = Ret b ∧ I l b.
Proof.
  intros Hinit Hstep.
  cut (∀ todo done b, l = done ++ todo → I done b →
         ∃ b', rfold f todo b = Ret b' ∧ I l b').
  { intros Hcut. by apply (Hcut l [] acc). }
  induction todo as [|x todo IH]; intros done b -> HI.
  - exists b. by rewrite app_nil_r.
  - destruct (Hstep done x todo b eq_refl HI) as (b' & Hf & HI').
    simpl. rewrite Hf. simpl. apply (IH (done ++ [x])); [by rewrite <-app_assoc|done].
Qed.

(** ** Filters and sorted lists *)

Lemma Forall_filter_keep {A} (R : A → Prop) (Q : A → Prop) `{!∀ x, Decision (Q x)} (l : list A) :
  Forall R l → Forall R (filter Q l).
Proof. rewrite !Forall_forall. intros Hl x [_ Hx]%list_elem_of_filter. auto. Qed.

Lemma filter_all {A} (Q : A → Prop) `{!∀ x, Decision (Q x)} (l : list A) :
  (∀ x, x ∈ l → Q x) → filter Q l = l.
Proof.
  induction l as [|x l IH]; intros Hl; [done|]. rewrite filter_cons_True by (apply Hl; by left).
  f_equal. apply IH. intros y Hy. apply Hl. by right.
Qed.

Lemma filter_none {A} (Q : A → Prop) `{!∀ x, Decision (Q x)} (l : list A) :
  (∀ x, x ∈ l → ¬ Q x) → filter Q l = [].
Proof.
  induction l as [|x l IH]; intros Hl; [done|]. rewrite filter_cons_False by (apply Hl; by left).
  apply IH. intros y Hy. apply Hl. by right.
Qed.

Lemma sublist_fmap {A B} (f : A → B) (l k : list A) : l `sublist_of` k → f <$> l `sublist_of` f <$> k.
Proof. induction 1; cbn; by constructor. Qed.

Lemma sorted_sublist {A} (R : A → A → Prop) l k : l `sublist_of` k → StronglySorted R k → StronglySorted R l.
Proof.
  induction 1 as [|x l k Hlk IH|x l k Hlk IH]; [done| |]; intros [Hf Hs]%StronglySorted_cons; [|auto]. constructor; [auto|].
  rewrite Forall_forall in Hf |- *. intros y Hy. by eapply Hf, elem_of_submseteq, sublist_submseteq.
Qed.

Lemma sorted_filter {A} (R : A → A → Prop) (Q : A → Prop) `{!∀ x, Decision (Q x)} (l : list A) :
  StronglySorted R l → StronglySorted R (filter Q l).
Proof.
  induction 1 as [|x l Hs IH Hf]; [constructor|]. rewrite filter_cons. case_decide; [|done].
  constructor; [done|]. by apply Forall_filter_keep.
Qed.

Lemma sorted_lookup {A} (R : A → A → Prop) (xs : list A) i j x y :
  StronglySorted R xs → i < j → xs !! i = Some x → xs !! j = Some y → R x y.
Proof.
  intros Hs. revert i j. induction Hs as [|z xs Hs IH Hf]; intros i j Hij Hi Hj; [done|].
  destruct j as [|j]; [lia|]. destruct i as [|i]; simpl in *.
  - injection Hi as <-. rewrite Forall_lookup in Hf. by apply (Hf j).
  - apply (IH i j); [lia|done..].
Qed.

Lemma filter_reverse {A} (P : A → Prop) `{!∀ a, Decision (P a)} (l : list A) : filter P (reverse l) = reverse (filter P l).
Proof.
  induction l as [|x l IH]; [done|]. rewrite reverse_cons, filter_app, IH, !filter_cons.
  case_decide; [by rewrite reverse_cons|]. by rewrite app_nil_r.
Qed.

Lemma sorted_back_reverse {A} (R : A → A → Prop) (l : list A) : StronglySorted R l → StronglySorted (flip R) (reverse l).
Proof.
  induction 1 as [|a l Hs IH Hf]; [constructor|]. rewrite reverse_cons. apply StronglySorted_app.
  split; [|split; [done|by repeat constructor]]. intros x y Hx ->%list_elem_of_singleton. rewrite elem_of_reverse in Hx.
  rewrite Forall_forall in Hf. by apply Hf.
Qed.

Lemma filter_suffix {A} (R : A → A → Prop) (P : A → Prop) `{!∀ x, Decision (P x)} (l : list A) :
  StronglySorted R l → (∀ x y, R x y → P x → P y) → filter P l `suffix_of` l.
Proof.
  intros Hs HP. induction Hs as [|x l Hs IH Hf]; [done|]. rewrite filter_cons. case_decide as Hx.
  - rewrite filter_all; [done|]. intros y Hy. rewrite Forall_forall in Hf. by apply (HP x); [apply Hf|].
  - by apply suffix_cons_r.
Qed.

(** The same rule when the loop is known to have returned. *)
Lemma rfold_inv_Ret {A B} (f : B → A → outcome B) (I : list A → B → Prop) l acc res :
  rfold f l acc = Ret res →
  I [] acc →
  (∀ done x todo b b', l = done ++ x :: todo → I done b → f b x = Ret b' →
     I (done ++ [x]) b') →
  I l res.
Proof.
  intros Hrun Hinit Hstep.
  cut (∀ todo done b, l = done ++ todo → I done b → rfold f todo b = Ret res → I l res).
  { intros Hcut. by apply (Hcut l [] acc). }
  induction todo as [|x todo IH]; intros done b -> HI Hf.
  - simpl in Hf. simplify_eq. by rewrite app_nil_r.
  - simpl in Hf. apply bind_Ret in Hf as (b' & Hb' & Hf).
    apply (IH (done ++ [x]) b'); [by rewrite <-app_assoc| |done].
    by eapply Hstep.
Qed.

Lemma rmap_Ret {A B} (f : A → outcome B) l ys :
  rmap f l = Ret ys ↔ Forall2 (λ x y, f x = Ret y) l ys.
Proof.
  revert ys; induction l as [|x l IH]; intros ys; simpl.
  - split; [intros [= <-]; constructor|intros H; by inversion H].
  - rewrite bind_Ret. setoid_rewrite bind_Ret. split.
    + intros (y & Hy & ys' & Hys & [= <-]). constructor; [done|by apply IH].
    + intros H. inversion H as [|? y ? ys' ? Hys]; subst.
      exists y. split; [done|]. exists ys'. split; [by apply IH|done].
Qed.

Ltac outcome_inv :=
  repeat match goal with
  | H : _ ≫= _ = Ret _ |- _ => apply bind_Ret in H as (? & ? & ?)
  | H : rassert _ = Ret _ |- _ => apply rassert_Ret in H
  | H : unwrap _ = Ret _ |- _ => apply unwrap_Ret in H
  | H : Ret _ = Ret _ |- _ => injection H as H
  | H : Panic = Ret _ |- _ => discriminate H
  | H : Ret _ = Panic |- _ => discriminate H
  | H : mret _ = Ret _ |- _ => injection H as H
  end.

(** Closed arithmetic and boolean goals, by evaluation. *)
Ltac ground :=
  solve [vm_compute; reflexivity | vm_compute; congruence
        | vm_compute; repeat split; congruence ].
