(* ===== verification/Order.v ===== *)
(** * Total orders given by a comparison function

    Rust's [Ord] trait: a type comes with [cmp : A → A → Ordering], derived
    ([#[derive(Ord)]], fields in declaration order), lexicographic on slices, or
    written by hand ([FullKey], [KeyRange]).  [TotalCmp] states the laws a client
    of [Ord] relies on; the components prove it for their own [cmp]. *)

From Stdlib Require Import ZArith Lia.
From S2P Require Import Prelude.

Class TotalCmp {A : Type} (cmp : A → A → comparison) : Prop := {
  cmp_eq_iff : ∀ x y, cmp x y = Eq ↔ x = y;
  cmp_antisym : ∀ x y, cmp y x = CompOpp (cmp x y);
  cmp_lt_trans : ∀ x y z, cmp x y = Lt → cmp y z = Lt → cmp x z = Lt;
}.
#[global] Arguments cmp_eq_iff {A} cmp {_} x y.
#[global] Arguments cmp_antisym {A} cmp {_} x y.
#[global] Arguments cmp_lt_trans {A} cmp {_} x y z.
#[global] Hint Mode TotalCmp - ! : typeclass_instances.

(** [a < b], [a <= b], [a == b] as the code's boolean tests. *)
Definition cmp_ltb {A} (cmp : A → A → comparison) (x y : A) : bool :=
  match cmp x y with Lt => true | _ => false end.
Definition cmp_leb {A} (cmp : A → A → comparison) (x y : A) : bool :=
  match cmp x y with Gt => false | _ => true end.
Definition cmp_eqb {A} (cmp : A → A → comparison) (x y : A) : bool :=
  match cmp x y with Eq => true | _ => false end.

Section laws.
Context {A : Type} (cmp : A → A → comparison) `{!TotalCmp cmp}.
Implicit Types x y z : A.

Lemma cmp_refl x : cmp x x = Eq.
Proof. by apply cmp_eq_iff. Qed.

Lemma cmp_gt_lt x y : cmp x y = Gt ↔ cmp y x = Lt.
Proof. rewrite (cmp_antisym cmp x y). destruct (cmp x y); simpl; naive_solver. Qed.

Lemma cmp_le_not_lt x y : cmp x y ≠ Gt ↔ cmp y x ≠ Lt.
Proof. by rewrite cmp_gt_lt. Qed.

Lemma cmp_le_cases x y : cmp x y ≠ Gt ↔ cmp x y = Lt ∨ x = y.
Proof. rewrite <-(cmp_eq_iff cmp x y). destruct (cmp x y); naive_solver. Qed.

Lemma cmp_lt_le_trans x y z : cmp x y = Lt → cmp y z ≠ Gt → cmp x z = Lt.
Proof.
  intros H1 [H2| ->]%cmp_le_cases; [|done]. by eapply (cmp_lt_trans cmp).
Qed.

Lemma cmp_le_lt_trans x y z : cmp x y ≠ Gt → cmp y z = Lt → cmp x z = Lt.
Proof.
  intros [H1| ->]%cmp_le_cases H2; [|done]. by eapply (cmp_lt_trans cmp).
Qed.

Lemma cmp_le_trans x y z : cmp x y ≠ Gt → cmp y z ≠ Gt → cmp x z ≠ Gt.
Proof.
  intros [H1| ->]%cmp_le_cases H2; [|done].
  rewrite (cmp_lt_le_trans x y z); done.
Qed.

Lemma cmp_gt_trans x y z : cmp x y = Gt → cmp y z = Gt → cmp x z = Gt.
Proof. rewrite !cmp_gt_lt. intros. by eapply (cmp_lt_trans cmp). Qed.

Lemma cmp_ltb_lt x y : cmp_ltb cmp x y = true ↔ cmp x y = Lt.
Proof. unfold cmp_ltb. destruct (cmp x y); naive_solver. Qed.

Lemma cmp_leb_le x y : cmp_leb cmp x y = true ↔ cmp x y ≠ Gt.
Proof. unfold cmp_leb. destruct (cmp x y); naive_solver. Qed.

Lemma cmp_leb_nlt x y : cmp_leb cmp x y = negb (cmp_ltb cmp y x).
Proof. unfold cmp_leb, cmp_ltb. rewrite (cmp_antisym cmp x y). by destruct (cmp x y). Qed.

Lemma cmp_eqb_eq x y : cmp_eqb cmp x y = true ↔ x = y.
Proof. unfold cmp_eqb. rewrite <-(cmp_eq_iff cmp x y). destruct (cmp x y); naive_solver. Qed.

End laws.

(** ** Instances *)

#[global] Instance Z_compare_total : TotalCmp Z.compare.
Proof.
  split.
  - apply Z.compare_eq_iff.
  - intros x y. by rewrite Z.compare_antisym.
  - intros x y z. rewrite !Z.compare_lt_iff. lia.
Qed.

#[global] Instance nat_compare_total : TotalCmp Nat.compare.
Proof.
  split.
  - apply Nat.compare_eq_iff.
  - intros x y. by rewrite Nat.compare_antisym.
  - intros x y z. rewrite !Nat.compare_lt_iff. lia.
Qed.

(** A key extracted by an injective function. *)
Definition on_cmp {A B} (f : A → B) (cmp : B → B → comparison) (x y : A) : comparison :=
  cmp (f x) (f y).

Lemma on_cmp_total {A B} (f : A → B) (cmp : B → B → comparison) :
  Inj (=) (=) f → TotalCmp cmp → TotalCmp (on_cmp f cmp).
Proof.
  intros Hinj Hcmp. unfold on_cmp. split.
  - intros x y. rewrite (cmp_eq_iff cmp). split; [apply Hinj|by intros ->].
  - intros x y. apply (cmp_antisym cmp).
  - intros x y z. apply (cmp_lt_trans cmp).
Qed.

(** [self.cmp(other).then_with(|| ..)] *)
Definition then_with (c1 c2 : comparison) : comparison :=
  match c1 with Eq => c2 | _ => c1 end.

(** Derived [Ord] on a pair of fields: the first field decides first. *)
Definition pair_cmp {A B} (ca : A → A → comparison) (cb : B → B → comparison)
    (x y : A * B) : comparison :=
  then_with (ca x.1 y.1) (cb x.2 y.2).

#[global] Instance pair_cmp_total {A B} (ca : A → A → comparison) (cb : B → B → comparison) :
  TotalCmp ca → TotalCmp cb → TotalCmp (pair_cmp ca cb).
Proof.
  intros Ha Hb. unfold pair_cmp, then_with. split.
  - intros [x1 x2] [y1 y2]; simpl.
    pose proof (cmp_eq_iff ca x1 y1). pose proof (cmp_eq_iff cb x2 y2).
    destruct (ca x1 y1); naive_solver.
  - intros [x1 x2] [y1 y2]; simpl. rewrite (cmp_antisym ca x1 y1), (cmp_antisym cb x2 y2).
    by destruct (ca x1 y1).
  - intros [x1 x2] [y1 y2] [z1 z2]; simpl.
    destruct (ca x1 y1) eqn:E1; try done.
    + apply (cmp_eq_iff ca) in E1 as ->. destruct (ca y1 z1); [|done..]. apply (cmp_lt_trans cb).
    + intros _. destruct (ca y1 z1) eqn:E2; intros; try done.
      * apply (cmp_eq_iff ca) in E2 as <-. by rewrite E1.
      * by rewrite (cmp_lt_trans ca x1 y1 z1).
Qed.

(** [Reverse]: the larger value comes first. *)
Definition rev_cmp {A} (cmp : A → A → comparison) (x y : A) : comparison := cmp y x.

#[global] Instance rev_cmp_total {A} (cmp : A → A → comparison) :
  TotalCmp cmp → TotalCmp (rev_cmp cmp).
Proof.
  intros H. unfold rev_cmp. split.
  - intros x y. rewrite (cmp_eq_iff cmp). naive_solver.
  - intros x y. apply (cmp_antisym cmp).
  - intros x y z H1 H2. by eapply (cmp_lt_trans cmp).
Qed.

(** [false < true] *)
Definition bool_cmp (x y : bool) : comparison :=
  match x, y with
  | false, true => Lt
  | true, false => Gt
  | _, _ => Eq
  end.

#[global] Instance bool_cmp_total : TotalCmp bool_cmp.
Proof. split; [intros [] []; split; done|intros [] []; done|intros [] [] []; done]. Qed.

(** ** Lexicographic order on slices *)

Fixpoint list_cmp {A} (cmp : A → A → comparison) (l1 l2 : list A) : comparison :=
  match l1, l2 with
  | [], [] => Eq
  | [], _ :: _ => Lt
  | _ :: _, [] => Gt
  | x :: l1', y :: l2' => then_with (cmp x y) (list_cmp cmp l1' l2')
  end.

#[global] Instance list_cmp_total {A} (cmp : A → A → comparison) :
  TotalCmp cmp → TotalCmp (list_cmp cmp).
Proof.
  intros Hc. split.
  - induction x as [|x xs IH]; intros [|y ys]; simpl; try naive_solver.
    pose proof (cmp_eq_iff cmp x y). specialize (IH ys).
    destruct (cmp x y); naive_solver.
  - induction x as [|x xs IH]; intros [|y ys]; simpl; try done.
    rewrite (cmp_antisym cmp x y), IH. by destruct (cmp x y).
  - induction x as [|x xs IH]; intros [|y ys] [|z zs]; simpl; try done.
    destruct (cmp x y) eqn:E1; simpl; try done.
    + apply (cmp_eq_iff cmp) in E1 as ->. destruct (cmp y z); simpl; [apply IH|done..].
    + intros _. destruct (cmp y z) eqn:E2; simpl; intros; try done.
      * apply (cmp_eq_iff cmp) in E2 as <-. by rewrite E1.
      * by rewrite (cmp_lt_trans cmp x y z).
Qed.

Section list_cmp_facts.
Context {A : Type} (cmp : A → A → comparison) `{!TotalCmp cmp}.
Implicit Types l p k : list A.

Lemma list_cmp_app p l1 l2 : list_cmp cmp (p ++ l1) (p ++ l2) = list_cmp cmp l1 l2.
Proof. induction p as [|x p IH]; [done|]. simpl. by rewrite (cmp_refl cmp). Qed.

Lemma list_cmp_nil_l l : list_cmp cmp [] l ≠ Gt.
Proof. by destruct l. Qed.

Lemma list_cmp_prefix p l : list_cmp cmp p (p ++ l) ≠ Gt.
Proof.
  rewrite <-(app_nil_r p) at 1. rewrite list_cmp_app. apply list_cmp_nil_l.
Qed.

(** On slices of one length a common suffix decides only on equal heads. *)
Lemma list_cmp_app_same_length l1 l2 r1 r2 :
  length l1 = length l2 →
  list_cmp cmp (l1 ++ r1) (l2 ++ r2) = then_with (list_cmp cmp l1 l2) (list_cmp cmp r1 r2).
Proof.
  revert l2; induction l1 as [|x l1 IH]; intros [|y l2] Hlen; try done.
  simpl. rewrite IH by (simpl in Hlen; lia). by destruct (cmp x y).
Qed.

(** A common prefix up to the first differing element. *)
Lemma list_cmp_lt_cases l1 l2 :
  list_cmp cmp l1 l2 = Lt ↔
  (∃ x r, l2 = l1 ++ x :: r) ∨
  (∃ p x y r1 r2, l1 = p ++ x :: r1 ∧ l2 = p ++ y :: r2 ∧ cmp x y = Lt).
Proof.
  split.
  - revert l2; induction l1 as [|x l1 IH]; intros [|y l2]; simpl; try done.
    { intros _. left. by eexists _, _. }
    destruct (cmp x y) eqn:E; simpl; try done.
    + apply (cmp_eq_iff cmp) in E as ->. intros [(z & r & ->)|(p & a & b & r1 & r2 & -> & -> & ?)]%IH.
      * left. by eexists _, _.
      * right. by exists (y :: p), a, b, r1, r2.
    + intros _. right. by exists [], x, y, l1, l2.
  - intros [(x & r & ->)|(p & x & y & r1 & r2 & -> & -> & E)].
    + rewrite <-(app_nil_r l1) at 1. by rewrite list_cmp_app.
    + rewrite list_cmp_app. simpl. by rewrite E.
Qed.

End list_cmp_facts.

