(* ===== verification/Bytes.v ===== *)
(** * Bytes, machine integers and their encodings

    [u8] is the Standard Library's [byte]; [u16]/[u32]/[u64]/[usize]/[i64] are
    integers in [Z] kept in range by [is_uint]; arithmetic that can leave the range
    is written with [wrap].  [be_bytes]/[be_val] are [to_be_bytes], [put_u32],
    [put_u64] and [get_u32], [get_u64] of the big-endian buffers. *)

From Stdlib Require Import ZArith Lia.
From Stdlib Require Strings.Byte.
From S2P Require Import Prelude Order.
Local Open Scope Z_scope.

Abbreviation byte := Byte.byte.

#[global] Instance byte_eq_dec : EqDecision byte := Byte.byte_eq_dec.

(** [b as u64] and [z as u8] *)
Definition b2z (b : byte) : Z := Z.of_N (Byte.to_N b).
Definition z2b (z : Z) : byte := default Byte.x00 (Byte.of_N (Z.to_N (z mod 256))).

Lemma b2z_range b : 0 ≤ b2z b < 256.
Proof. unfold b2z. pose proof (Byte.to_N_bounded b). lia. Qed.

Lemma z2b_b2z b : z2b (b2z b) = b.
Proof.
  unfold z2b. rewrite Z.mod_small by apply b2z_range.
  unfold b2z. by rewrite N2Z.id, Byte.of_to_N.
Qed.

Lemma b2z_z2b z : b2z (z2b z) = z mod 256.
Proof.
  unfold z2b. pose proof (Z.mod_pos_bound z 256 ltac:(lia)) as Hb.
  destruct (Byte.of_N (Z.to_N (z mod 256))) as [b|] eqn:E; simpl.
  - apply Byte.to_of_N in E. unfold b2z. rewrite E, Z2N.id; lia.
  - apply Byte.of_N_None_iff in E. lia.
Qed.

#[global] Instance b2z_inj : Inj (=) (=) b2z.
Proof. intros x y H. by rewrite <-(z2b_b2z x), H, z2b_b2z. Qed.

Definition byte_cmp : byte → byte → comparison := on_cmp b2z Z.compare.

#[global] Instance byte_cmp_total : TotalCmp byte_cmp.
Proof. apply on_cmp_total; apply _. Qed.

Abbreviation bytes_cmp := (list_cmp byte_cmp).

Abbreviation bytes_ltb := (cmp_ltb bytes_cmp).
Abbreviation bytes_leb := (cmp_leb bytes_cmp).

(** ** Machine integers *)

Definition is_uint (w : Z) (z : Z) : Prop := 0 ≤ z < 2 ^ w.

#[global] Instance is_uint_dec w z : Decision (is_uint w z).
Proof. unfold is_uint. apply _. Defined.

(** Wrapping arithmetic of the production profile (overflow checks off). *)
Definition wrap (w z : Z) : Z := z mod 2 ^ w.

Definition u64_max : Z := 2 ^ 64 - 1.
Definition u32_max : Z := 2 ^ 32 - 1.

Lemma wrap_small w z : is_uint w z → wrap w z = z.
Proof. unfold is_uint, wrap. intros. by rewrite Z.mod_small. Qed.

Lemma wrap_is_uint w z : 0 ≤ w → is_uint w (wrap w z).
Proof. unfold is_uint, wrap. intros. apply Z.mod_pos_bound. lia. Qed.

(** ** Big-endian encoding *)

Fixpoint be_bytes (n : nat) (z : Z) : list byte :=
  match n with
  | O => []
  | S n' => z2b (z / 256 ^ Z.of_nat n') :: be_bytes n' z
  end.

Fixpoint be_val (l : list byte) : Z :=
  match l with
  | [] => 0
  | b :: l' => b2z b * 256 ^ Z.of_nat (length l') + be_val l'
  end.

Lemma length_be_bytes n z : length (be_bytes n z) = n.
Proof. induction n as [|n IH]; simpl; [done|by rewrite IH]. Qed.

Lemma be_val_range l : 0 ≤ be_val l < 256 ^ Z.of_nat (length l).
Proof.
  induction l as [|b l IH]; [done|].
  cbn [be_val length]. rewrite Nat2Z.inj_succ, Z.pow_succ_r by lia.
  pose proof (b2z_range b). nia.
Qed.

Lemma be_val_bytes n z : be_val (be_bytes n z) = z mod 256 ^ Z.of_nat n.
Proof.
  induction n as [|n IH]; [by rewrite Z.mod_1_r|].
  cbn [be_val be_bytes]. rewrite length_be_bytes, IH, b2z_z2b, Nat2Z.inj_succ, Z.pow_succ_r by lia.
  rewrite (Z.mul_comm 256), Z.rem_mul_r by lia. lia.
Qed.

Lemma be_val_bytes_small n z :
  0 ≤ z < 256 ^ Z.of_nat n → be_val (be_bytes n z) = z.
Proof. intros. by rewrite be_val_bytes, Z.mod_small. Qed.

Lemma be_val_inj l1 l2 : length l1 = length l2 → be_val l1 = be_val l2 → l1 = l2.
Proof.
  revert l2; induction l1 as [|x l1 IH]; intros [|y l2] Hlen Hv; try done.
  injection Hlen as Hlen. cbn [be_val] in Hv. rewrite Hlen in Hv.
  pose proof (be_val_range l1) as H1. pose proof (be_val_range l2) as H2.
  rewrite Hlen in H1. pose proof (b2z_range x). pose proof (b2z_range y).
  assert (b2z x = b2z y) as Hxy by nia.
  apply (inj b2z) in Hxy as ->. f_equal. apply IH; [done|nia].
Qed.

Lemma be_bytes_val l : be_bytes (length l) (be_val l) = l.
Proof.
  apply be_val_inj; [apply length_be_bytes|].
  rewrite be_val_bytes. apply Z.mod_small, be_val_range.
Qed.

(** Big-endian strings of one length compare like the numbers they encode. *)
Lemma bytes_cmp_be_val l1 l2 :
  length l1 = length l2 → bytes_cmp l1 l2 = Z.compare (be_val l1) (be_val l2).
Proof.
  revert l2; induction l1 as [|x l1 IH]; intros [|y l2] Hlen; try done.
  injection Hlen as Hlen. cbn [be_val list_cmp]. rewrite IH, Hlen by done.
  pose proof (be_val_range l1) as H1. pose proof (be_val_range l2) as H2.
  rewrite Hlen in H1. unfold byte_cmp, on_cmp, then_with.
  destruct (Z.compare_spec (b2z x) (b2z y)) as [->|Hlt|Hgt]; symmetry.
  - destruct (Z.compare_spec (be_val l1) (be_val l2));
      [apply Z.compare_eq_iff|apply Z.compare_lt_iff|apply Z.compare_gt_iff]; lia.
  - apply Z.compare_lt_iff. nia.
  - apply Z.compare_gt_iff. nia.
Qed.

Lemma bytes_cmp_be_bytes n x y :
  0 ≤ x < 256 ^ Z.of_nat n → 0 ≤ y < 256 ^ Z.of_nat n →
  bytes_cmp (be_bytes n x) (be_bytes n y) = Z.compare x y.
Proof.
  intros. rewrite bytes_cmp_be_val by (by rewrite !length_be_bytes).
  by rewrite !be_val_bytes_small.
Qed.

(** [buf.get_u32()], [buf.get_u64()]: panics on a short buffer, advances it. *)
Definition get_be (n : nat) (buf : list byte) : outcome (Z * list byte) :=
  if decide (n ≤ length buf)%nat then Ret (be_val (take n buf), drop n buf) else Panic.

Lemma get_be_put n z rest :
  0 ≤ z < 256 ^ Z.of_nat n → get_be n (be_bytes n z ++ rest) = Ret (z, rest).
Proof.
  intros. unfold get_be. rewrite decide_True by (rewrite length_app, length_be_bytes; lia).
  rewrite take_app_length', drop_app_length' by (by rewrite length_be_bytes).
  by rewrite be_val_bytes_small.
Qed.

Lemma pow256_of_u32 z : is_uint 32 z → 0 ≤ z < 256 ^ Z.of_nat 4.
Proof. done. Qed.

Lemma pow256_of_u64 z : is_uint 64 z → 0 ≤ z < 256 ^ Z.of_nat 8.
Proof. done. Qed.

Create HintDb uint.
#[export] Hint Resolve pow256_of_u32 pow256_of_u64 wrap_small wrap_is_uint : uint.

(** ** Little-endian encoding (the memory layout of [usize] words) *)

Fixpoint le_bytes (n : nat) (z : Z) : list byte :=
  match n with
  | O => []
  | S n' => z2b z :: le_bytes n' (z / 256)
  end.

Fixpoint le_val (l : list byte) : Z :=
  match l with
  | [] => 0
  | b :: l' => b2z b + 256 * le_val l'
  end.

Lemma length_le_bytes n z : length (le_bytes n z) = n.
Proof. revert z; induction n as [|n IH]; intros z; simpl; [done|by rewrite IH]. Qed.

Lemma le_val_range l : 0 ≤ le_val l < 256 ^ Z.of_nat (length l).
Proof.
  induction l as [|b l IH]; [done|].
  cbn [le_val length]. rewrite Nat2Z.inj_succ, Z.pow_succ_r by lia.
  pose proof (b2z_range b). lia.
Qed.

Lemma le_val_bytes n z : le_val (le_bytes n z) = z mod 256 ^ Z.of_nat n.
Proof.
  revert z; induction n as [|n IH]; intros z; [by rewrite Z.mod_1_r|].
  cbn [le_val le_bytes]. rewrite IH, b2z_z2b, Nat2Z.inj_succ, Z.pow_succ_r by lia.
  rewrite Z.rem_mul_r by lia. lia.
Qed.

Lemma le_bytes_val l : le_bytes (length l) (le_val l) = l.
Proof.
  induction l as [|b l IH]; [done|]. cbn [le_val le_bytes length].
  pose proof (b2z_range b).
  replace ((b2z b + 256 * le_val l) / 256) with (le_val l).
  2: { rewrite Z.mul_comm, Z.div_add by lia. rewrite Z.div_small by lia. lia. }
  rewrite IH. f_equal. apply (inj b2z). rewrite b2z_z2b.
  rewrite Z.mul_comm, Z.mod_add by lia. by apply Z.mod_small.
Qed.
