(* ===== verification/Epoch.v ===== *)
(** * Epochs

    [src/common/src/util/epoch.rs] and [EpochWithGap] of
    [src/storage/hummock_sdk/src/lib.rs].  An epoch is a [u64] whose high 48 bits
    are milliseconds since 2021-04-01 and whose low 16 bits number the spills of a
    mem-table between two barriers.  The system clock is the list of readings that
    successive calls of [physical_now] return. *)

From Stdlib Require Import ZArith Lia.
From S2P Require Import Prelude Order Bytes.
Local Open Scope Z_scope.

(** Bitwise complement of a [u64]. *)
Definition u64_not (z : Z) : Z := Z.lxor u64_max z.

(** [x << n] of a [u64]: the bits shifted out are lost. *)
Definition u64_shl (x n : Z) : Z := wrap 64 (Z.shiftl x n).

Module Epoch.

Definition UNIX_RISINGWAVE_DATE_SEC : Z := 1617235200.
Definition INVALID_EPOCH : Z := 0.
Definition EPOCH_PHYSICAL_SHIFT_BITS : Z := 16.

Definition physical_time (e : Z) : Z := Z.shiftr e EPOCH_PHYSICAL_SHIFT_BITS.

Definition from_physical_time (time : Z) : Z := u64_shl time EPOCH_PHYSICAL_SHIFT_BITS.

(** [Epoch::now()], given the reading of [physical_now]. *)
Definition now (physical_now : Z) : Z := u64_shl physical_now EPOCH_PHYSICAL_SHIFT_BITS.

(** The [loop] of [Epoch::next]: read the clock until it passes [prev].  [None]: all
    the given readings were used up while still spinning. *)
Fixpoint spin (prev_physical_time : Z) (clock : list Z) : option (Z * list Z) :=
  match clock with
  | [] => None
  | physical_now :: clock' =>
      if physical_now >? prev_physical_time then Some (physical_now, clock')
      else spin prev_physical_time clock'
  end.

Definition next (self : Z) (clock : list Z) : option (outcome Z * list Z) :=
  '(physical_now, clock') ← spin (physical_time self) clock;
  let next_epoch := from_physical_time physical_now in
  Some (rassert (next_epoch >? self) ≫= λ _, Ret next_epoch, clock').

Definition from_unix_millis (mi : Z) : Z :=
  u64_shl (wrap 64 (mi - UNIX_RISINGWAVE_DATE_SEC * 1000)) EPOCH_PHYSICAL_SHIFT_BITS.

Definition from_unix_millis_or_earliest (mi : Z) : Z :=
  u64_shl (Z.max 0 (mi - UNIX_RISINGWAVE_DATE_SEC * 1000)) EPOCH_PHYSICAL_SHIFT_BITS.

Definition as_unix_millis (e : Z) : Z :=
  wrap 64 (UNIX_RISINGWAVE_DATE_SEC * 1000 + physical_time e).

Definition as_unix_secs (e : Z) : Z :=
  wrap 64 (UNIX_RISINGWAVE_DATE_SEC + physical_time e / 1000).

Definition subtract_ms (e relative_time_ms : Z) : Z :=
  let physical_time := physical_time e in
  if physical_time <? relative_time_ms then INVALID_EPOCH
  else u64_shl (physical_time - relative_time_ms) EPOCH_PHYSICAL_SHIFT_BITS.

Definition EPOCH_AVAILABLE_BITS : Z := 16.
Definition MAX_SPILL_TIMES : Z := wrap 16 (Z.shiftl 1 EPOCH_AVAILABLE_BITS - 1).
Definition EPOCH_SPILL_TIME_MASK : Z := Z.shiftl 1 EPOCH_AVAILABLE_BITS - 1.
Definition EPOCH_MASK : Z := u64_not EPOCH_SPILL_TIME_MASK.
Definition MAX_EPOCH : Z := Z.land u64_max EPOCH_MASK.

Definition is_max_epoch (epoch : Z) : bool := epoch >=? MAX_EPOCH.
Definition is_compatibility_max_epoch (epoch : Z) : bool := epoch =? MAX_EPOCH.

Definition test_epoch (value_millis : Z) : Z := u64_shl value_millis EPOCH_AVAILABLE_BITS.
Definition EPOCH_INC_MIN_STEP_FOR_TEST : Z := test_epoch 1.

Definition inc_epoch (self : Z) : Z := wrap 64 (self + EPOCH_INC_MIN_STEP_FOR_TEST).
Definition dec_epoch (self : Z) : Z := wrap 64 (self - EPOCH_INC_MIN_STEP_FOR_TEST).

End Epoch.

Module EpochPair.
Import Epoch.

Record t := mk { curr : Z; prev : Z }.

Definition new (curr prev : Z) : outcome t :=
  rassert (curr >? prev) ≫= λ _, Ret (mk curr prev).

Definition inc_for_test (self : t) : t :=
  mk (wrap 64 (curr self + EPOCH_INC_MIN_STEP_FOR_TEST)) (curr self).

Definition new_test_epoch (curr : Z) : outcome t :=
  (if negb (is_max_epoch curr) then
     rassert (curr >=? EPOCH_INC_MIN_STEP_FOR_TEST) ≫= λ _,
     rassert (Z.land curr EPOCH_SPILL_TIME_MASK =? 0)
   else Ret tt) ≫= λ _,
  new curr (wrap 64 (curr - EPOCH_INC_MIN_STEP_FOR_TEST)).

End EpochPair.

Module EpochWithGap.
Import Epoch.

(** The wrapped [u64]. *)
Definition new_max_epoch : Z := u64_max.
Definition new_min_epoch : Z := 0.

Definition new (epoch spill_offset : Z) : Z :=
  if is_max_epoch epoch then new_max_epoch else wrap 64 (epoch + spill_offset).

Definition new_from_epoch (epoch : Z) : Z := new epoch 0.

Definition pure_epoch (self : Z) : Z := Z.land self (u64_not EPOCH_SPILL_TIME_MASK).
Definition offset (self : Z) : Z := Z.land self EPOCH_SPILL_TIME_MASK.

End EpochWithGap.

(** ** Arithmetic reading of the bit operations *)

Lemma u64_shl_small x n :
  0 ≤ n → 0 ≤ x → x * 2 ^ n < 2 ^ 64 → u64_shl x n = x * 2 ^ n.
Proof.
  intros. unfold u64_shl. rewrite Z.shiftl_mul_pow2 by done.
  apply wrap_small. unfold is_uint. nia.
Qed.

Lemma physical_time_div e : Epoch.physical_time e = e / 65536.
Proof. unfold Epoch.physical_time. by rewrite Z.shiftr_div_pow2. Qed.

Lemma physical_time_range e : is_uint 64 e → 0 ≤ Epoch.physical_time e < 2 ^ 48.
Proof.
  unfold is_uint. intros [??]. rewrite physical_time_div.
  split; [apply Z.div_pos; lia|apply Z.div_lt_upper_bound; lia].
Qed.

Lemma from_physical_time_mul t :
  0 ≤ t < 2 ^ 48 → Epoch.from_physical_time t = t * 65536.
Proof.
  intros. unfold Epoch.from_physical_time, Epoch.EPOCH_PHYSICAL_SHIFT_BITS.
  apply u64_shl_small; lia.
Qed.

Lemma offset_mod e : EpochWithGap.offset e = e mod 65536.
Proof. apply (Z.land_ones e 16). lia. Qed.

Lemma u64_not_land x m :
  is_uint 64 x → Z.land x (u64_not m) = Z.ldiff x m.
Proof.
  intros Hx. apply Z.bits_inj'. intros n Hn.
  unfold u64_not, u64_max.
  rewrite Z.land_spec, Z.lxor_spec, Z.ldiff_spec.
  replace (2 ^ 64 - 1) with (Z.ones 64) by done.
  destruct (decide (n < 64)).
  - rewrite Z.ones_spec_low by lia. by rewrite xorb_true_l.
  - rewrite <-(Z.mod_small x (2 ^ 64)) by done.
    by rewrite Z.mod_pow2_bits_high by lia.
Qed.

Lemma pure_epoch_sub e :
  is_uint 64 e → EpochWithGap.pure_epoch e = e - e mod 65536.
Proof.
  intros He. unfold EpochWithGap.pure_epoch. rewrite u64_not_land by done.
  change Epoch.EPOCH_SPILL_TIME_MASK with (Z.ones 16).
  rewrite Z.ldiff_ones_r by lia. rewrite Z.shiftl_mul_pow2, Z.shiftr_div_pow2 by lia.
  change (2 ^ 16) with 65536. pose proof (Z.div_mod e 65536). lia.
Qed.

Lemma max_epoch_value : Epoch.MAX_EPOCH = 65536 * (2 ^ 48 - 1).
Proof. done. Qed.

Lemma is_max_epoch_false e : Epoch.is_max_epoch e = false ↔ e < Epoch.MAX_EPOCH.
Proof. unfold Epoch.is_max_epoch. rewrite Z.geb_leb, Z.leb_gt. done. Qed.

(** An epoch below the maximum with an empty spill part leaves room for every offset. *)
Lemma new_gap_value e o :
  0 ≤ e → e mod 65536 = 0 → Epoch.is_max_epoch e = false → is_uint 16 o →
  EpochWithGap.new e o = e + o ∧ e + o < Epoch.MAX_EPOCH.
Proof.
  unfold is_uint. intros He Hpure Hmax [??].
  unfold EpochWithGap.new. rewrite Hmax. apply is_max_epoch_false in Hmax.
  rewrite max_epoch_value in *.
  pose proof (Z.div_mod e 65536 ltac:(lia)). assert (e + o < 65536 * (2 ^ 48 - 1)) by lia.
  split; [|done]. apply wrap_small. unfold is_uint. lia.
Qed.

(** ** Theorems *)

Lemma spin_first prev clock r :
  r ∈ clock → prev < r →
  ∃ skipped now rest, clock = skipped ++ now :: rest ∧ prev < now ∧
    Forall (λ t, t ≤ prev) skipped ∧ Epoch.spin prev clock = Some (now, rest).
Proof.
  intros Hin Hlt. induction clock as [|t clock IH]; [by apply not_elem_of_nil in Hin|].
  simpl. destruct (Z.gtb_spec t prev) as [Hgt|Hle].
  - exists [], t, clock. by repeat split.
  - apply elem_of_cons in Hin as [->|Hin]; [lia|].
    destruct (IH Hin) as (sk & now & rest & -> & ? & ? & ?).
    exists (t :: sk), now, rest. repeat split; try done. by constructor.
Qed.

(** [Epoch::next] returns as soon as a clock reading passes the previous epoch's
    physical time: it takes the first such reading, its [assert!] does not fail, the
    new epoch has an empty spill part and is larger than the previous epoch with any
    spill offset added to it. *)
Theorem epoch_next_advances (self r : Z) (clock : list Z) :
  is_uint 64 self →
  Forall (λ t, 0 ≤ t < 2 ^ 48) clock →
  r ∈ clock → Epoch.physical_time self < r →
  ∃ skipped now rest e,
    clock = skipped ++ now :: rest ∧
    Forall (λ t, t ≤ Epoch.physical_time self) skipped ∧
    Epoch.next self clock = Some (Ret e, rest) ∧
    Epoch.physical_time e = now ∧ is_uint 64 e ∧ EpochWithGap.offset e = 0 ∧
    self < e ∧
    ∀ o, is_uint 16 o → EpochWithGap.new (EpochWithGap.pure_epoch self) o < e.
Proof.
  intros Hself Hclock Hin Hlt.
  destruct (spin_first _ _ _ Hin Hlt) as (sk & now & rest & -> & Hnow & Hsk & Hspin).
  assert (0 ≤ now < 2 ^ 48) as Hrange.
  { apply Forall_app in Hclock as [_ Hclock]. by inversion Hclock. }
  rewrite physical_time_div in *. pose proof Hself as [Hs0 Hs1].
  pose proof (Z.div_mod self 65536 ltac:(lia)) as Hdm.
  pose proof (Z.mod_pos_bound self 65536 ltac:(lia)) as Hmod.
  exists sk, now, rest, (now * 65536). unfold Epoch.next. rewrite physical_time_div, Hspin. simpl.
  rewrite from_physical_time_mul by done. destruct (Z.gtb_spec (now * 65536) self); [|lia].
  rewrite physical_time_div, offset_mod, Z.div_mul, Z.mod_mul by done.
  repeat split; try done; try lia. intros o Ho.
  rewrite pure_epoch_sub by done.
  destruct (new_gap_value (self - self mod 65536) o) as [-> _]; try done; try lia.
  - replace (self - self mod 65536) with (self / 65536 * 65536) by lia. by apply Z.mod_mul.
  - apply is_max_epoch_false. rewrite max_epoch_value. lia.
  - unfold is_uint in Ho. lia.
Qed.

Lemma epoch_next_advances_witness :
  is_uint 64 131073 ∧
  ∃ e rest, Epoch.next 131073 [1; 2; 5; 9] = Some (Ret e, rest) ∧ 131073 < e.
Proof.
  assert (is_uint 64 131073) as H by (vm_compute; split; congruence).
  split; [exact H|].
  destruct (epoch_next_advances 131073 5 [1; 2; 5; 9] H) as (? & ? & rest & e & _ & _ & Hn & _ & _ & _ & Hlt & _).
  - repeat constructor; vm_compute; congruence.
  - do 2 right. left.
  - vm_compute. reflexivity.
  - exists e, rest. split; [exact Hn|exact Hlt].
Defined.

(** [EpochWithGap] keeps an epoch and its spill offset apart: for epochs with an
    empty spill part below the maximum epoch, [pure_epoch] and [offset] recover both
    parts of [EpochWithGap::new], and the combined [u64]s compare by epoch first and
    by offset second. *)
Theorem epoch_with_gap_lexicographic (e1 e2 o1 o2 : Z) :
  0 ≤ e1 → e1 mod 65536 = 0 → Epoch.is_max_epoch e1 = false → is_uint 16 o1 →
  0 ≤ e2 → e2 mod 65536 = 0 → Epoch.is_max_epoch e2 = false → is_uint 16 o2 →
  EpochWithGap.pure_epoch (EpochWithGap.new e1 o1) = e1 ∧
  EpochWithGap.offset (EpochWithGap.new e1 o1) = o1 ∧
  EpochWithGap.new e1 o1 < EpochWithGap.new_max_epoch ∧
  Z.compare (EpochWithGap.new e1 o1) (EpochWithGap.new e2 o2)
    = then_with (Z.compare e1 e2) (Z.compare o1 o2).
Proof.
  intros H1 P1 M1 U1 H2 P2 M2 U2.
  destruct (new_gap_value e1 o1 H1 P1 M1 U1) as [-> L1].
  destruct (new_gap_value e2 o2 H2 P2 M2 U2) as [-> L2].
  rewrite max_epoch_value in L1, L2. unfold is_uint in U1, U2.
  assert ((e1 + o1) mod 65536 = o1) as Hmod.
  { rewrite Z.add_mod, P1, Z.add_0_l, Z.mod_mod by lia. apply Z.mod_small. lia. }
  rewrite pure_epoch_sub, offset_mod, Hmod by (unfold is_uint; lia).
  repeat split; [lia|unfold EpochWithGap.new_max_epoch, u64_max; lia|].
  pose proof (Z.div_mod e1 65536 ltac:(lia)). pose proof (Z.div_mod e2 65536 ltac:(lia)).
  destruct (Z.compare_spec e1 e2); simpl.
  - destruct (Z.compare_spec o1 o2);
      [apply Z.compare_eq_iff|apply Z.compare_lt_iff|apply Z.compare_gt_iff]; lia.
  - apply Z.compare_lt_iff. nia.
  - apply Z.compare_gt_iff. nia.
Qed.

Lemma epoch_with_gap_lexicographic_witness :
  EpochWithGap.pure_epoch (EpochWithGap.new 131072 7) = 131072 ∧
  Z.compare (EpochWithGap.new 131072 7) (EpochWithGap.new 196608 3) = Lt.
Proof.
  destruct (epoch_with_gap_lexicographic 131072 196608 7 3 ltac:(ground) ltac:(ground)
    ltac:(ground) ltac:(ground) ltac:(ground) ltac:(ground) ltac:(ground) ltac:(ground))
    as (H & _ & _ & Hc).
  split; [exact H|]. rewrite Hc. reflexivity.
Defined.

(** [subtract_ms] moves the physical time back by exactly [relative_time_ms], stops at
    the invalid epoch when there is less time than that, never yields a later epoch and
    clears the spill part. *)
Theorem epoch_subtract_ms_saturates (e ms : Z) :
  is_uint 64 e → 0 ≤ ms →
  Epoch.physical_time (Epoch.subtract_ms e ms) = Z.max 0 (Epoch.physical_time e - ms) ∧
  Epoch.subtract_ms e ms ≤ e ∧ EpochWithGap.offset (Epoch.subtract_ms e ms) = 0.
Proof.
  intros He Hms. pose proof (physical_time_range e He) as Hr.
  unfold Epoch.subtract_ms. rewrite offset_mod. unfold is_uint in He.
  destruct (Z.ltb_spec (Epoch.physical_time e) ms).
  - unfold Epoch.INVALID_EPOCH. rewrite Z.max_l by lia. repeat split; try done; lia.
  - rewrite u64_shl_small by (unfold Epoch.EPOCH_PHYSICAL_SHIFT_BITS; lia).
    change (2 ^ Epoch.EPOCH_PHYSICAL_SHIFT_BITS) with 65536.
    rewrite (physical_time_div (_ * _)), Z.div_mul, Z.mod_mul, Z.max_r by lia.
    rewrite physical_time_div in *. pose proof (Z.div_mod e 65536 ltac:(lia)).
    pose proof (Z.mod_pos_bound e 65536 ltac:(lia)). repeat split; nia.
Qed.

Lemma epoch_subtract_ms_saturates_witness :
  is_uint 64 655360 ∧ Epoch.subtract_ms 655360 3 ≤ 655360.
Proof.
  assert (is_uint 64 655360) as H by (vm_compute; split; congruence).
  split; [exact H|].
  apply (epoch_subtract_ms_saturates 655360 3 H). vm_compute. congruence.
Defined.

(** Unix milliseconds survive the conversion to an epoch and back. *)
Lemma unix_millis_round_trip mi :
  Epoch.UNIX_RISINGWAVE_DATE_SEC * 1000 ≤ mi < Epoch.UNIX_RISINGWAVE_DATE_SEC * 1000 + 2 ^ 48 →
  Epoch.as_unix_millis (Epoch.from_unix_millis mi) = mi ∧
  Epoch.from_unix_millis mi = Epoch.from_unix_millis_or_earliest mi.
Proof.
  intros Hmi. unfold Epoch.as_unix_millis, Epoch.from_unix_millis,
    Epoch.from_unix_millis_or_earliest, Epoch.EPOCH_PHYSICAL_SHIFT_BITS,
    Epoch.UNIX_RISINGWAVE_DATE_SEC in *.
  rewrite (wrap_small 64 (mi - _)) by (unfold is_uint; lia).
  rewrite Z.max_r by lia. split; [|done].
  rewrite u64_shl_small by lia. rewrite physical_time_div. change (2 ^ 16) with 65536.
  rewrite Z.div_mul by lia. rewrite wrap_small; unfold is_uint; lia.
Qed.
