(* ===== verification/Bits.v ===== *)
(** * Bit strings packed in 64-bit words

    The representation shared by the bitmap operations: a slice of [usize] words read
    as a bit string, least significant bit of the first word first. *)

From Stdlib Require Import ZArith Lia.
From S2P Require Import Prelude Order Bytes Epoch.
Local Open Scope Z_scope.

(** ** Range and bits of a word *)

Lemma is_uint_bits w z :
  0 ≤ w → is_uint w z ↔ 0 ≤ z ∧ ∀ n, w ≤ n → Z.testbit z n = false.
Proof.
  intros Hw. unfold is_uint. split.
  - intros [? ?]. split; [done|]. intros n Hn.
    rewrite <-(Z.mod_small z (2 ^ w)) by done. apply Z.mod_pow2_bits_high. lia.
  - intros [Hz Hb]. split; [done|].
    replace z with (z mod 2 ^ w); [apply Z.mod_pos_bound; lia|].
    apply Z.bits_inj'. intros n Hn. destruct (decide (n < w)).
    + by rewrite Z.mod_pow2_bits_low.
    + rewrite Z.mod_pow2_bits_high by lia. rewrite Hb; [done|lia].
Qed.

Section closure.
Context (w : Z) (Hw : 0 ≤ w).

Lemma is_uint_0 : is_uint w 0.
Proof. unfold is_uint. lia. Qed.

Lemma is_uint_lor x y : is_uint w x → is_uint w y → is_uint w (Z.lor x y).
Proof.
  rewrite !is_uint_bits by done. intros [? H1] [? H2]. split; [by apply Z.lor_nonneg|].
  intros n Hn. by rewrite Z.lor_spec, H1, H2.
Qed.

Lemma is_uint_land x y : is_uint w x → 0 ≤ y → is_uint w (Z.land x y).
Proof.
  rewrite !is_uint_bits by done. intros [? H1] ?. split; [apply Z.land_nonneg; by right|].
  intros n Hn. by rewrite Z.land_spec, H1.
Qed.

Lemma is_uint_lxor x y : is_uint w x → is_uint w y → is_uint w (Z.lxor x y).
Proof.
  rewrite !is_uint_bits by done. intros [? H1] [? H2]. split.
  - apply Z.lxor_nonneg. done.
  - intros n Hn. by rewrite Z.lxor_spec, H1, H2.
Qed.

Lemma is_uint_pow2 n : 0 ≤ n < w → is_uint w (2 ^ n).
Proof. unfold is_uint. intros. split; [lia|]. apply Z.pow_lt_mono_r; lia. Qed.

End closure.

Lemma u64_not_is_uint x : is_uint 64 x → is_uint 64 (u64_not x).
Proof. intros. apply is_uint_lxor; done. Qed.

Lemma u64_not_spec x n :
  is_uint 64 x → 0 ≤ n < 64 → Z.testbit (u64_not x) n = negb (Z.testbit x n).
Proof.
  intros. unfold u64_not. change u64_max with (Z.ones 64).
  rewrite Z.lxor_spec, Z.ones_spec_low by lia. apply xorb_true_l.
Qed.

Lemma u64_not_high x n : is_uint 64 x → 64 ≤ n → Z.testbit (u64_not x) n = false.
Proof. intros Hx Hn. apply u64_not_is_uint, is_uint_bits in Hx as [_ Hx]; [auto|done]. Qed.

Lemma ones_sub n : 0 ≤ n → Z.shiftl 1 n - 1 = Z.ones n.
Proof. intros. unfold Z.ones. rewrite Z.sub_1_r. done. Qed.

(** [w != 0] as used by the bit tests of the code. *)
(** Joining a high part and a low part of [n] bits. *)
Lemma lor_shiftl_add h l n :
  0 ≤ n → 0 ≤ l < 2 ^ n → Z.lor (Z.shiftl h n) l = h * 2 ^ n + l.
Proof.
  intros Hn Hl. rewrite <-Z.shiftl_mul_pow2 by done. symmetry. rewrite Z.add_nocarry_lxor.
  - apply Z.bits_inj'. intros i Hi. rewrite Z.lxor_spec, Z.lor_spec.
    destruct (decide (i < n)); [by rewrite Z.shiftl_spec_low by done|].
    assert (Z.testbit l i = false) as ->; [|by rewrite xorb_false_r, orb_false_r].
    rewrite <-(Z.mod_small l (2 ^ n)) by done. apply Z.mod_pow2_bits_high. lia.
  - apply Z.bits_inj'. intros i Hi. rewrite Z.land_spec, Z.bits_0.
    destruct (decide (i < n)); [by rewrite Z.shiftl_spec_low by done|].
    rewrite <-(Z.mod_small l (2 ^ n)), Z.mod_pow2_bits_high by lia. apply andb_false_r.
Qed.

Lemma land_pow2_nonzero w n :
  0 ≤ n → negb (Z.land w (Z.shiftl 1 n) =? 0) = Z.testbit w n.
Proof.
  intros Hn. rewrite Z.shiftl_1_l. destruct (Z.testbit w n) eqn:E.
  - apply negb_true_iff, Z.eqb_neq. intros H0.
    assert (Z.testbit (Z.land w (2 ^ n)) n = false) as Hf by by rewrite H0, Z.bits_0.
    by rewrite Z.land_spec, E, Z.pow2_bits_true in Hf.
  - apply negb_false_iff, Z.eqb_eq. apply Z.bits_inj'. intros m Hm.
    rewrite Z.land_spec, Z.bits_0, Z.pow2_bits_eqb by done.
    destruct (Z.eqb_spec n m) as [->|]; [by rewrite E|by rewrite andb_false_r].
Qed.

(** ** Slices of words as bit strings *)

Definition word (data : list Z) (k : nat) : Z := default 0 (data !! k).

Definition bit_of (data : list Z) (i : nat) : bool :=
  Z.testbit (word data (i `div` 64)) (Z.of_nat (i `mod` 64)).

(** The first [len] bits of the slice. *)
Definition bits_list (len : nat) (data : list Z) : list bool := bit_of data <$> seq 0 len.

Definition words_ok (data : list Z) : Prop := Forall (is_uint 64) data.

Lemma length_bits_list len data : length (bits_list len data) = len.
Proof. unfold bits_list. by rewrite length_fmap, length_seq. Qed.

Lemma lookup_bits_list len data i :
  (i < len)%nat → bits_list len data !! i = Some (bit_of data i).
Proof. intros. unfold bits_list. by rewrite list_lookup_fmap, lookup_seq_lt. Qed.

Lemma word_ok data k : words_ok data → is_uint 64 (word data k).
Proof.
  intros H. unfold word. destruct (data !! k) eqn:E; simpl; [|by apply is_uint_0].
  by eapply Forall_lookup_1 in H.
Qed.

Lemma bit_of_beyond data i : (64 * length data ≤ i)%nat → bit_of data i = false.
Proof.
  intros. unfold bit_of, word. rewrite lookup_ge_None_2.
  - apply Z.bits_0.
  - apply Nat.div_le_lower_bound; lia.
Qed.

Lemma bit_of_word data k j :
  (j < 64)%nat → bit_of data (64 * k + j) = Z.testbit (word data k) (Z.of_nat j).
Proof.
  intros. unfold bit_of. rewrite Nat.mul_comm, Nat.div_add_l by lia.
  rewrite Nat.div_small, Nat.add_0_r by lia.
  by rewrite Nat.add_comm, Nat.Div0.mod_add, Nat.mod_small by lia.
Qed.

Lemma div_mod_64 i : i = (64 * (i `div` 64) + i `mod` 64)%nat ∧ (i `mod` 64 < 64)%nat.
Proof. split; [apply Nat.div_mod; lia|apply Nat.mod_upper_bound; lia]. Qed.

(** Slices of one length with the same bits are the same slice. *)
Lemma words_ext d1 d2 :
  words_ok d1 → words_ok d2 → length d1 = length d2 →
  (∀ i, (i < 64 * length d1)%nat → bit_of d1 i = bit_of d2 i) → d1 = d2.
Proof.
  intros H1 H2 Hlen Hbits. apply (list_eq_same_length _ _ _ eq_refl); [done|].
  intros k x y Hk Hx Hy.
  assert (is_uint 64 x) as Ux by (by eapply Forall_lookup_1 in H1).
  assert (is_uint 64 y) as Uy by (by eapply Forall_lookup_1 in H2).
  apply Z.bits_inj'. intros n Hn. destruct (decide (n < 64)).
  - specialize (Hbits (64 * k + Z.to_nat n)%nat ltac:(lia)).
    rewrite !bit_of_word in Hbits by lia. unfold word in Hbits.
    rewrite Hx, Hy in Hbits. simpl in Hbits. by rewrite Z2Nat.id in Hbits by done.
  - apply is_uint_bits in Ux as [_ Hx0]; [|done]. apply is_uint_bits in Uy as [_ Hy0]; [|done].
    rewrite Hx0, Hy0; [done|lia..].
Qed.

Lemma word_insert data k w j :
  (k < length data)%nat →
  word (<[k:=w]> data) j = if decide (k = j) then w else word data j.
Proof.
  intros. unfold word. destruct (decide (k = j)) as [->|].
  - by rewrite list_lookup_insert_eq.
  - by rewrite list_lookup_insert_ne.
Qed.

Lemma bit_of_insert data k w i :
  (k < length data)%nat →
  bit_of (<[k:=w]> data) i =
  if decide (k = i `div` 64)%nat then Z.testbit w (Z.of_nat (i `mod` 64)) else bit_of data i.
Proof. intros. unfold bit_of. rewrite word_insert by done. by case_decide. Qed.

Lemma bit_of_app_l d1 d2 i : (i < 64 * length d1)%nat → bit_of (d1 ++ d2) i = bit_of d1 i.
Proof.
  intros. unfold bit_of, word. rewrite lookup_app_l; [done|].
  apply Nat.Div0.div_lt_upper_bound. lia.
Qed.

Lemma bit_of_app_r d1 d2 i : bit_of (d1 ++ d2) (64 * length d1 + i) = bit_of d2 i.
Proof.
  unfold bit_of, word. rewrite Nat.mul_comm, Nat.div_add_l by lia.
  rewrite lookup_app_r by lia.
  replace (length d1 + i `div` 64 - length d1)%nat with (i `div` 64)%nat by lia.
  by rewrite Nat.add_comm, Nat.Div0.mod_add.
Qed.

Lemma bit_of_replicate_0 n i : bit_of (replicate n 0) i = false.
Proof.
  unfold bit_of, word. destruct (replicate n 0 !! _) eqn:E; simpl; [|apply Z.bits_0].
  apply lookup_replicate in E as [-> _]. apply Z.bits_0.
Qed.

Lemma bit_of_replicate_max n i : (i < 64 * n)%nat → bit_of (replicate n u64_max) i = true.
Proof.
  intros. unfold bit_of, word. rewrite lookup_replicate_2.
  - simpl. change u64_max with (Z.ones 64). destruct (div_mod_64 i).
    apply Z.ones_spec_low. lia.
  - apply Nat.Div0.div_lt_upper_bound. lia.
Qed.

(** ** Counting *)

Definition count_true (l : list bool) : nat := length (filter (λ b, b = true) l).

Lemma count_true_cons b l : count_true (b :: l) = ((if b then 1 else 0) + count_true l)%nat.
Proof. unfold count_true. rewrite filter_cons. by destruct b. Qed.

Lemma count_true_app l1 l2 : count_true (l1 ++ l2) = (count_true l1 + count_true l2)%nat.
Proof. unfold count_true. by rewrite filter_app, length_app. Qed.

Lemma count_true_le l : (count_true l ≤ length l)%nat.
Proof. apply length_filter. Qed.

Lemma count_true_replicate n b : count_true (replicate n b) = (if b then n else 0)%nat.
Proof.
  induction n as [|n IH]; [by destruct b|].
  simpl. rewrite count_true_cons, IH. by destruct b.
Qed.

Lemma count_true_0 l : count_true l = 0%nat ↔ l = replicate (length l) false.
Proof.
  split; [|intros ->; by rewrite count_true_replicate].
  induction l as [|b l IH]; [done|]. rewrite count_true_cons. destruct b; [done|].
  simpl. intros. by rewrite <-IH.
Qed.

Lemma count_true_full l : count_true l = length l ↔ l = replicate (length l) true.
Proof.
  split; [|intros ->; by rewrite count_true_replicate, length_replicate].
  induction l as [|b l IH]; [done|]. rewrite count_true_cons. simpl.
  pose proof (count_true_le l). destruct b; [|lia].
  intros. rewrite <-IH; [done|lia].
Qed.

(** [w.count_ones()] *)
Definition popcount (w : Z) : nat := count_true ((λ j, Z.testbit w (Z.of_nat j)) <$> seq 0 64).

(** [data.iter().map(|&x| x.count_ones()).sum()] *)
Definition count_ones_words (data : list Z) : nat := foldr (λ w n, popcount w + n)%nat 0%nat data.

Lemma bits_list_app n m data :
  bits_list (n + m) data = bits_list n data ++ (bit_of data <$> seq n m).
Proof. unfold bits_list. by rewrite seq_app, fmap_app. Qed.

Lemma bits_list_cons w data n :
  bits_list (64 + n) (w :: data) =
  ((λ j, Z.testbit w (Z.of_nat j)) <$> seq 0 64) ++ bits_list n data.
Proof.
  rewrite bits_list_app. f_equal.
  unfold bits_list.
  replace (seq 64 n) with (Nat.add 64 <$> seq 0 n) by (by rewrite fmap_add_seq).
  rewrite <-list_fmap_compose.
  apply list_fmap_ext. intros ? j Hj. simpl. by apply (bit_of_app_r [w] data).
Qed.

Lemma count_ones_words_bits data :
  count_ones_words data = count_true (bits_list (64 * length data) data).
Proof.
  induction data as [|w data IH]; [done|].
  replace (64 * length (w :: data))%nat with (64 + 64 * length data)%nat by (simpl; lia).
  rewrite bits_list_cons, count_true_app. simpl. by rewrite IH.
Qed.

Lemma bits_list_padding len n data :
  (len ≤ n)%nat → (∀ i, (len ≤ i)%nat → bit_of data i = false) →
  bits_list n data = bits_list len data ++ replicate (n - len) false.
Proof.
  intros Hle Hpad. replace n with (len + (n - len))%nat at 1 by lia.
  rewrite bits_list_app. f_equal. apply list_eq_same_length with (n - len)%nat.
  - by rewrite length_replicate.
  - by rewrite length_fmap, length_seq.
  - intros i x y Hi. rewrite list_lookup_fmap, lookup_seq_lt, lookup_replicate_2 by done.
    simpl. intros [= <-] [= <-]. apply Hpad. lia.
Qed.

Lemma count_ones_words_padding len data :
  (len ≤ 64 * length data)%nat → (∀ i, (len ≤ i)%nat → bit_of data i = false) →
  count_ones_words data = count_true (bits_list len data).
Proof.
  intros Hle Hpad. rewrite count_ones_words_bits, (bits_list_padding len) by done.
  rewrite count_true_app, count_true_replicate. lia.
Qed.

(** Pointwise operations on bit strings. *)
Lemma bits_list_ext len d1 d2 :
  (∀ i, (i < len)%nat → bit_of d1 i = bit_of d2 i) → bits_list len d1 = bits_list len d2.
Proof.
  intros H. unfold bits_list. apply list_fmap_ext. intros ? i Hi.
  apply lookup_seq in Hi as [-> ?]. apply H. lia.
Qed.

Lemma bits_list_eq len data l :
  length l = len → (∀ i, (i < len)%nat → l !! i = Some (bit_of data i)) → bits_list len data = l.
Proof.
  intros Hlen H. apply (list_eq_same_length _ _ len); [by rewrite Hlen|by rewrite length_bits_list|].
  intros i x y Hi. rewrite lookup_bits_list, H by done. naive_solver.
Qed.
