(* ===== verification/Bitmap.v ===== *)
(** * Bitmaps

    [src/common/src/bitmap.rs]: [BitmapBuilder] and the immutable [Bitmap] that vnode
    sets and chunk visibility are made of.  [Bitmap] drops its words when all bits are
    equal.  [usize] has 64 bits.  The abstract view of both types is a list of
    booleans, and each operation is proved to refine the operation on that list. *)

From Stdlib Require Import ZArith Lia.
From S2P Require Import Prelude Order Bytes Epoch Bits.
Local Open Scope Z_scope.

Definition BITS : nat := 64.

(** [Bitmap::vec_len]: [num_bits.div_ceil(BITS)] *)
Definition vec_len (num_bits : nat) : nat := ((num_bits + (BITS - 1)) `div` BITS)%nat.

(** [(1 << (n % BITS)) - 1] *)
Definition low_mask (n : nat) : Z := Z.shiftl 1 (Z.of_nat (n `mod` BITS)%nat) - 1.

(** Update through [data.last_mut().unwrap()]. *)
Definition update_last (f : Z → Z) (data : list Z) : outcome (list Z) :=
  w ← unwrap (last data);
  Ret (<[(length data - 1)%nat := f w]> data).

(** [data[k] = w]: out of range panics. *)
Definition set_at (data : list Z) (k : nat) (w : Z) : outcome (list Z) :=
  _ ← rassert (k <? length data)%nat;
  Ret (<[k := w]> data).

Module Bitmap.

(** The immutable bitmap. *)
Record t := mk {
  num_bits : nat;
  count_ones : nat;
  bits : option (list Z);
}.

Definition len (self : t) : nat := num_bits self.
Definition is_empty (self : t) : bool := (num_bits self =? 0)%nat.
Definition any (self : t) : bool := negb (count_ones self =? 0)%nat.
Definition all (self : t) : bool := (count_ones self =? len self)%nat.

Definition zeros (num_bits : nat) : t := mk num_bits 0 None.
Definition ones (num_bits : nat) : t := mk num_bits num_bits None.

Definition from_vec_with_len (buf : list Z) (num_bits : nat) : t :=
  let count_ones := count_ones_words buf in
  mk num_bits count_ones
     (if negb (count_ones =? 0)%nat && negb (count_ones =? num_bits)%nat
      then Some buf else None).

(** [get_unchecked] of an index in range. *)
Definition is_set_unchecked (self : t) (idx : nat) : bool :=
  match bits self with
  | None => negb (count_ones self =? 0)%nat
  | Some bits =>
      negb (Z.land (word bits (idx `div` BITS)%nat) (Z.shiftl 1 (Z.of_nat (idx `mod` BITS)%nat)) =? 0)
  end.

Definition is_set (self : t) (idx : nat) : outcome bool :=
  _ ← rassert (idx <? len self)%nat;
  Ret (is_set_unchecked self idx).

(** [(bit_idx..self.len()).find(..)] *)
Definition next_set_bit (self : t) (bit_idx : nat) : option nat :=
  snd <$> list_find (λ idx, is_set_unchecked self idx = true)
            (seq bit_idx (len self - bit_idx)).

(** A chunk of at most [BITS] booleans as a word: the loop over the remainder; a full
    chunk goes through [Mask::to_bitmask], which gives the same word. *)
Definition bitmask (chunk : list bool) : Z :=
  foldl Z.lor 0 (imap (λ i b, Z.shiftl (Z.b2z b) (Z.of_nat i)) chunk).

Definition from_bool_slice (bools : list bool) : t :=
  let n := length bools in
  let full := (λ k, bitmask (take BITS (drop (k * BITS) bools))) <$> seq 0 (n `div` BITS) in
  let remainder := drop (n `div` BITS * BITS) bools in
  let data := match remainder with [] => full | _ => full ++ [bitmask remainder] end in
  from_vec_with_len data n.

(** [data[a..b].fill(w)] *)
Definition fill_range (data : list Z) (a b : nat) (w : Z) : outcome (list Z) :=
  _ ← rassert ((a <=? b)%nat && (b <=? length data)%nat);
  Ret (take a data ++ replicate (b - a) w ++ drop b data).

Definition from_range (num_bits : nat) (start_ end_ : nat) : outcome t :=
  _ ← rassert (start_ <=? end_)%nat;
  _ ← rassert (end_ <=? num_bits)%nat;
  if (start_ =? end_)%nat then Ret (zeros num_bits)
  else if (start_ =? 0)%nat && (end_ =? num_bits)%nat then Ret (ones num_bits)
  else
    let bits := replicate (vec_len num_bits) 0 in
    let start := (start_ `div` BITS)%nat in
    let end' := (end_ `div` BITS)%nat in
    let start_offset := (start_ `mod` BITS)%nat in
    let end_offset := (end_ `mod` BITS)%nat in
    bits ←
      (if (start =? end')%nat then
         set_at bits start
           (u64_shl (Z.shiftl 1 (Z.of_nat (end_offset - start_offset)) - 1) (Z.of_nat start_offset))
       else
         bits ← set_at bits start (u64_shl u64_max (Z.of_nat start_offset));
         bits ← fill_range bits (start + 1) end' u64_max;
         if negb (end_offset =? 0)%nat then
           set_at bits end' (Z.shiftl 1 (Z.of_nat end_offset) - 1)
         else Ret bits);
    Ret (mk num_bits (end_ - start_) (Some bits)).

Definition bitand (self rhs : t) : outcome t :=
  _ ← rassert (num_bits self =? num_bits rhs)%nat;
  if (count_ones self =? 0)%nat || (count_ones rhs =? 0)%nat then Ret (zeros (num_bits self))
  else match bits self, bits rhs with
       | _, None => Ret self
       | None, _ => Ret rhs
       | Some lbits, Some rbits =>
           Ret (from_vec_with_len (zip_with Z.land lbits rbits) (num_bits self))
       end.

Definition bitor (self rhs : t) : outcome t :=
  _ ← rassert (num_bits self =? num_bits rhs)%nat;
  if (count_ones self =? num_bits self)%nat || (count_ones rhs =? num_bits self)%nat
  then Ret (ones (num_bits self))
  else match bits self, bits rhs with
       | _, None => Ret self
       | None, _ => Ret rhs
       | Some lbits, Some rbits =>
           Ret (from_vec_with_len (zip_with Z.lor lbits rbits) (num_bits self))
       end.

Definition not (self : t) : outcome t :=
  match bits self with
  | None => if (count_ones self =? 0)%nat then Ret (ones (num_bits self))
            else Ret (zeros (num_bits self))
  | Some bits =>
      let bits := u64_not <$> bits in
      bits' ← (if negb (num_bits self `mod` BITS =? 0)%nat then
                 w ← unwrap (bits !! (num_bits self `div` BITS)%nat);
                 Ret (<[(num_bits self `div` BITS)%nat := Z.land w (low_mask (num_bits self))]> bits)
               else Ret bits);
      Ret (mk (num_bits self) (num_bits self - count_ones self) (Some bits'))
  end.

Definition bitxor (self rhs : t) : outcome t :=
  _ ← rassert (num_bits self =? num_bits rhs)%nat;
  match bits self, bits rhs with
  | _, None => if (count_ones rhs =? 0)%nat then Ret self else not self
  | None, _ => if (count_ones self =? 0)%nat then Ret rhs else not rhs
  | Some lbits, Some rbits =>
      Ret (from_vec_with_len (zip_with Z.lxor lbits rbits) (num_bits self))
  end.

End Bitmap.

(** [Bitmap::iter()]: one call of [next] per element. *)
Module BitmapIter.

Record t := mk {
  bits : option (list Z);
  idx : nat;
  num_bits : nat;
  current_usize : Z;
  all_ones : bool;
}.

Definition iter (b : Bitmap.t) : t :=
  mk (Bitmap.bits b) 0 (Bitmap.num_bits b) 0
     (Bitmap.count_ones b =? Bitmap.num_bits b)%nat.

Definition next_always_load_usize (self : t) : option bool * t :=
  if (num_bits self <=? idx self)%nat then (None, self)
  else match bits self with
  | None =>
      (Some (all_ones self), mk None (idx self + 1) (num_bits self) (current_usize self) (all_ones self))
  | Some bs =>
      let usize_offset := (idx self `mod` BITS)%nat in
      let usize_index := (idx self `div` BITS)%nat in
      let cur := word bs usize_index in
      let bit_mask := Z.shiftl 1 (Z.of_nat usize_offset) in
      let bit_flag := negb (Z.land cur bit_mask =? 0) in
      (Some bit_flag, mk (Some bs) (idx self + 1) (num_bits self) cur (all_ones self))
  end.

Definition next (self : t) : option bool * t :=
  if (num_bits self <=? idx self)%nat then (None, self)
  else match bits self with
  | None =>
      (Some (all_ones self), mk None (idx self + 1) (num_bits self) (current_usize self) (all_ones self))
  | Some bs =>
      let usize_offset := (idx self `mod` BITS)%nat in
      let cur := if (usize_offset =? 0)%nat then word bs (idx self `div` BITS)
                 else current_usize self in
      let bit_mask := Z.shiftl 1 (Z.of_nat usize_offset) in
      let bit_flag := negb (Z.land cur bit_mask =? 0) in
      (Some bit_flag, mk (Some bs) (idx self + 1) (num_bits self) cur (all_ones self))
  end.

Definition nth (self : t) (n : nat) : option bool * t :=
  next_always_load_usize
    (mk (bits self) (idx self + n) (num_bits self) (current_usize self) (all_ones self)).

(** Drain the iterator: what a [for] loop or [collect] sees.  Every call but the last
    yields an element, so [num_bits] calls are enough. *)
Fixpoint collect (fuel : nat) (self : t) : list bool :=
  match fuel with
  | O => []
  | S fuel' => match next self with
               | (Some b, self') => b :: collect fuel' self'
               | (None, _) => []
               end
  end.

Definition iter_all (b : Bitmap.t) : list bool := collect (S (Bitmap.num_bits b)) (iter b).

End BitmapIter.

Module BitmapBuilder.

Record t := mk { len : nat; data : list Z }.

Definition with_capacity : t := mk 0 [].

Definition zeroed (len : nat) : t := mk len (replicate (vec_len len) 0).

Definition filled (len : nat) : t :=
  let data := replicate (vec_len len) u64_max in
  mk len (if (1 <=? vec_len len)%nat && negb (len `mod` BITS =? 0)%nat
          then <[(vec_len len - 1)%nat := low_mask len]> data else data).

Definition set (self : t) (n : nat) (val : bool) : outcome t :=
  _ ← rassert (n <? len self)%nat;
  w ← unwrap (data self !! (n `div` BITS)%nat);
  let mask := Z.shiftl 1 (Z.of_nat (n `mod` BITS)%nat) in
  let w' := if val then Z.lor w mask else Z.land w (u64_not mask) in
  Ret (mk (len self) (<[(n `div` BITS)%nat := w']> (data self))).

Definition is_set (self : t) (n : nat) : outcome bool :=
  _ ← rassert (n <? len self)%nat;
  w ← unwrap (data self !! (n `div` BITS)%nat);
  let mask := Z.shiftl 1 (Z.of_nat (n `mod` BITS)%nat) in
  Ret (negb (Z.land w mask =? 0)).

Definition append (self : t) (bit_set : bool) : outcome t :=
  let d := if (len self `mod` BITS =? 0)%nat then data self ++ [0] else data self in
  w ← unwrap (d !! (len self `div` BITS)%nat);
  let w' := Z.lor w (Z.shiftl (Z.b2z bit_set) (Z.of_nat (len self `mod` BITS)%nat)) in
  Ret (mk (len self + 1) (<[(len self `div` BITS)%nat := w']> d)).

(** The [while] loop of [append_n]: append bits until the length is aligned. *)
Fixpoint append_align (self : t) (n : nat) (bit_set : bool) : outcome (t * nat) :=
  match n with
  | O => Ret (self, O)
  | S n' =>
      if negb (len self `mod` BITS =? 0)%nat then
        self' ← append self bit_set; append_align self' n' bit_set
      else Ret (self, n)
  end.

Definition append_n (self : t) (n : nat) (bit_set : bool) : outcome t :=
  '(self, n) ← append_align self n bit_set;
  let len' := (len self + n)%nat in
  let d := resize (vec_len len') (if bit_set then u64_max else 0) (data self) in
  d' ← (if bit_set && negb (len' `mod` BITS =? 0)%nat
        then update_last (λ w, Z.land w (low_mask len')) d else Ret d);
  Ret (mk len' d').

(** [None]: the builder was empty. *)
Definition pop (self : t) : outcome (option t) :=
  if (len self =? 0)%nat then Ret None
  else
    let len' := (len self - 1)%nat in
    let d := take (vec_len len') (data self) in
    d' ← (if negb (len' `mod` BITS =? 0)%nat
          then update_last (λ w, Z.land w (low_mask len')) d else Ret d);
    Ret (Some (mk len' d')).

(** The slow path of [append_bitmap]: the bits one by one. *)
Definition append_bits (self : t) (bs : list bool) : outcome t := rfold append bs self.

Definition append_bitmap (self : t) (other : Bitmap.t) : outcome t :=
  if (len self `mod` BITS =? 0)%nat then
    let len' := (len self + Bitmap.len other)%nat in
    match Bitmap.bits other with
    | Some bits => Ret (mk len' (data self ++ bits))
    | None =>
        if (Bitmap.count_ones other =? 0)%nat then
          Ret (mk len' (resize (vec_len len') 0 (data self)))
        else
          let d := resize (vec_len len') u64_max (data self) in
          d' ← (if negb (len' `mod` BITS =? 0)%nat
                then update_last (λ _, low_mask len') d else Ret d);
          Ret (mk len' d')
    end
  else append_bits self (BitmapIter.iter_all other).

Definition finish (self : t) : Bitmap.t :=
  let count_ones := count_ones_words (data self) in
  Bitmap.mk (len self) count_ones
    (if negb (count_ones =? 0)%nat && negb (count_ones =? len self)%nat
     then Some (data self) else None).

(** [impl From<Bitmap> for BitmapBuilder] *)
Definition from_bitmap (bitmap : Bitmap.t) : t :=
  match Bitmap.bits bitmap with
  | Some bits => mk (Bitmap.len bitmap) bits
  | None => if (Bitmap.count_ones bitmap =? 0)%nat then zeroed (Bitmap.len bitmap)
            else filled (Bitmap.len bitmap)
  end.

End BitmapBuilder.

(** [Bitmap::high_ranges()]: the closure's [start] is threaded through the iteration. *)
Module HighRanges.

Fixpoint go (i : nat) (start : option nat) (bits : list bool) : list (nat * nat) :=
  match bits with
  | [] => []
  | bit :: bits' =>
      match bit, start with
      | true, None => go (i + 1) (Some i) bits'
      | false, Some s => (s, (i - 1)%nat) :: go (i + 1) None bits'
      | _, _ => go (i + 1) start bits'
      end
  end.

Definition high_ranges (b : Bitmap.t) : list (nat * nat) :=
  go 0 None (BitmapIter.iter_all b ++ [false]).

End HighRanges.

(** [Bitmap::iter_ones()] *)
Module BitmapOnesIter.

Inductive t :=
| Range (start end_ : nat)
| Buffer (bits : list Z) (cur_idx : nat) (cur_bits : option Z).

Definition iter_ones (b : Bitmap.t) : t :=
  match Bitmap.bits b with
  | Some bits => Buffer bits 0 (head bits)
  | None => Range 0 (Bitmap.count_ones b)
  end.

(** [w.trailing_zeros()] of a word; 64 on zero. *)
Fixpoint trailing_zeros_from (n i : nat) (w : Z) : nat :=
  match n with
  | O => i
  | S n' => if Z.testbit w (Z.of_nat i) then i else trailing_zeros_from n' (S i) w
  end.
Definition trailing_zeros (w : Z) : nat := trailing_zeros_from 64 0 w.

(** The [while] loop: skip exhausted words.  Each iteration moves [cur_idx] forward, so
    [length bits + 1] iterations are enough. *)
Fixpoint skip_zero (fuel : nat) (bits : list Z) (cur_idx : nat) (cur_bits : option Z)
  : nat * option Z :=
  match fuel with
  | O => (cur_idx, cur_bits)
  | S fuel' =>
      match cur_bits with
      | Some 0 =>
          let cur_idx' := (cur_idx + 1)%nat in
          skip_zero fuel' bits cur_idx'
            (if (length bits <=? cur_idx')%nat then None else bits !! cur_idx')
      | _ => (cur_idx, cur_bits)
      end
  end.

Definition next (self : t) : option nat * t :=
  match self with
  | Range start end_ =>
      if (end_ <=? start)%nat then (None, self) else (Some start, Range (start + 1) end_)
  | Buffer bits cur_idx cur_bits =>
      let '(cur_idx, cur_bits) := skip_zero (S (length bits)) bits cur_idx cur_bits in
      match cur_bits with
      | None => (None, Buffer bits cur_idx None)
      | Some w =>
          let low_bit := Z.land w (wrap 64 (- w)) in
          let low_bit_idx := trailing_zeros w in
          (Some (cur_idx * BITS + low_bit_idx)%nat,
           Buffer bits cur_idx (Some (Z.lxor w low_bit)))
      end
  end.

Fixpoint collect (fuel : nat) (self : t) : list nat :=
  match fuel with
  | O => []
  | S fuel' => match next self with
               | (Some i, self') => i :: collect fuel' self'
               | (None, _) => []
               end
  end.

Definition iter_ones_all (b : Bitmap.t) : list nat :=
  collect (S (Bitmap.num_bits b)) (iter_ones b).

End BitmapOnesIter.

(** ** Protobuf form *)
Module BitmapPb.

(** The bytes of a slice of words as they lie in memory (little endian). *)
Definition bytes_of_words (data : list Z) : list byte := mjoin (le_bytes 8 <$> data).

Definition words_of_bytes (n : nat) (buf : list byte) : list Z :=
  (λ k, le_val (take 8 (drop (8 * k) buf))) <$> seq 0 n.

Definition from_bytes_with_len (buf : list byte) (num_bits : nat) : outcome Bitmap.t :=
  let slice_len := (vec_len num_bits * 8)%nat in
  _ ← rassert (length buf <=? slice_len)%nat;
  let slice := buf ++ replicate (slice_len - length buf) Byte.x00 in
  Ret (Bitmap.from_vec_with_len (words_of_bytes (vec_len num_bits) slice) num_bits).

Definition from_bytes (buf : list byte) : outcome Bitmap.t :=
  from_bytes_with_len buf (length buf * 8).

(** The [body] of the [PbBuffer]. *)
Definition to_protobuf (self : Bitmap.t) : list byte :=
  let num_bits := Bitmap.num_bits self in
  let body_len := ((num_bits + 7) `div` 8 + 1)%nat in
  let body := [z2b (Z.of_nat (num_bits `mod` 8))] in
  match Bitmap.bits self with
  | None =>
      if (Bitmap.count_ones self =? 0)%nat then resize body_len Byte.x00 body
      else
        let body := resize body_len Byte.xff body in
        if negb (num_bits `mod` 8 =? 0)%nat then
          <[(body_len - 1)%nat := z2b (Z.shiftl 1 (Z.of_nat (num_bits `mod` 8)) - 1)]> body
        else body
  | Some bits => body ++ take ((num_bits + 7) `div` 8) (bytes_of_words bits)
  end.

Definition from_protobuf (body : list byte) : outcome Bitmap.t :=
  last_byte_num_bits ← unwrap (head body);
  let num_bits :=
    wrap 64 (Z.of_nat (length body - 1) * 8 - wrap 8 (8 - b2z last_byte_num_bits) mod 8) in
  from_bytes_with_len (drop 1 body) (Z.to_nat num_bits).

End BitmapPb.
