(* ===== verification/BitmapSpec.v ===== *)
(** * Bitmaps refine boolean lists

    The invariant of [Bitmap.v]'s two types, their abstract value (a list of booleans)
    and the refinement lemma of each operation. *)

From Stdlib Require Import ZArith Lia.
From S2P Require Import Prelude Order Bytes Epoch Bits Bitmap.

(** A slice of words holding [len] bits: right length, words in range, padding zero. *)
Definition data_ok (len : nat) (d : list Z) : Prop :=
  words_ok d ∧ length d = vec_len len ∧ ∀ i, len ≤ i → bit_of d i = false.

Definition builder_ok (b : BitmapBuilder.t) : Prop :=
  data_ok (BitmapBuilder.len b) (BitmapBuilder.data b).

Definition builder_view (b : BitmapBuilder.t) : list bool :=
  bits_list (BitmapBuilder.len b) (BitmapBuilder.data b).

(** The invariant of [Bitmap]: the count is right and the words are absent exactly when
    all bits are equal. *)
Definition bitmap_ok (b : Bitmap.t) : Prop :=
  match Bitmap.bits b with
  | None => Bitmap.count_ones b = 0 ∨ Bitmap.count_ones b = Bitmap.num_bits b
  | Some d =>
      data_ok (Bitmap.num_bits b) d ∧
      Bitmap.count_ones b = count_true (bits_list (Bitmap.num_bits b) d) ∧
      0 < Bitmap.count_ones b < Bitmap.num_bits b
  end.

Definition view (b : Bitmap.t) : list bool :=
  match Bitmap.bits b with
  | None => replicate (Bitmap.num_bits b) (Bitmap.any b)
  | Some d => bits_list (Bitmap.num_bits b) d
  end.

Ltac bits64 := change BITS with 64 in *.

(** ** Arithmetic of words and offsets *)

Lemma vec_len_bounds n : n ≤ 64 * vec_len n ∧ 64 * vec_len n < n + 64.
Proof.
  unfold vec_len, BITS. pose proof (Nat.div_mod (n + (64 - 1)) 64 ltac:(lia)).
  pose proof (Nat.mod_upper_bound (n + (64 - 1)) 64 ltac:(lia)). lia.
Qed.

Lemma vec_len_unique n k : n ≤ 64 * k → 64 * k < n + 64 → vec_len n = k.
Proof. pose proof (vec_len_bounds n). lia. Qed.

Lemma div_64_lt n k : n < 64 * k → n `div` 64 < k.
Proof. intros. apply Nat.Div0.div_lt_upper_bound. lia. Qed.

Lemma data_ok_index len d n :
  data_ok len d → n < len → n `div` 64 < length d.
Proof. intros (_ & -> & _) ?. apply div_64_lt. pose proof (vec_len_bounds len). lia. Qed.

Lemma data_ok_lookup len d n :
  data_ok len d → n < len →
  d !! (n `div` 64) = Some (word d (n `div` 64)).
Proof.
  intros Hd Hn. unfold word.
  destruct (lookup_lt_is_Some_2 d (n `div` 64)) as [w ->]; [|done].
  by eapply data_ok_index.
Qed.

Lemma low_mask_spec n j :
  Z.testbit (low_mask n) (Z.of_nat j) = bool_decide (j < n `mod` 64).
Proof.
  unfold low_mask, BITS. rewrite ones_sub by lia. case_bool_decide.
  - apply Z.ones_spec_low. lia.
  - apply Z.ones_spec_high. lia.
Qed.

Lemma low_mask_nonneg n : (0 ≤ low_mask n)%Z.
Proof. unfold low_mask. rewrite ones_sub, Z.ones_equiv by lia. lia. Qed.

Lemma low_mask_is_uint n : is_uint 64 (low_mask n).
Proof.
  unfold low_mask, BITS, is_uint. pose proof (Nat.mod_upper_bound n 64 ltac:(lia)).
  rewrite Z.shiftl_1_l.
  pose proof (Z.pow_lt_mono_r 2 (Z.of_nat (n `mod` 64)) 64). lia.
Qed.

(** ** The abstract value *)

Lemma length_view b : length (view b) = Bitmap.num_bits b.
Proof.
  unfold view. destruct (Bitmap.bits b); [apply length_bits_list|apply length_replicate].
Qed.

Lemma bit_test_word d i :
  negb (Z.land (word d (i `div` BITS)) (Z.shiftl 1 (Z.of_nat (i `mod` BITS))) =? 0)%Z
  = bit_of d i.
Proof. rewrite land_pow2_nonzero by lia. done. Qed.

Lemma lookup_view b i :
  i < Bitmap.num_bits b → view b !! i = Some (Bitmap.is_set_unchecked b i).
Proof.
  intros Hi. unfold view, Bitmap.is_set_unchecked. destruct (Bitmap.bits b) as [d|].
  - by rewrite lookup_bits_list, bit_test_word.
  - by rewrite lookup_replicate_2.
Qed.

Lemma view_ext b l :
  length l = Bitmap.num_bits b →
  (∀ i, i < Bitmap.num_bits b → l !! i = Some (Bitmap.is_set_unchecked b i)) → view b = l.
Proof.
  intros Hlen H. apply (list_eq_same_length _ _ (Bitmap.num_bits b)); [done|apply length_view|].
  intros i x y Hi. rewrite lookup_view, H by done. naive_solver.
Qed.

Lemma count_ones_view b : bitmap_ok b → Bitmap.count_ones b = count_true (view b).
Proof.
  unfold bitmap_ok, view. destruct (Bitmap.bits b) as [d|]; [by intros (_ & -> & _)|].
  rewrite count_true_replicate. unfold Bitmap.any.
  destruct (Nat.eqb_spec (Bitmap.count_ones b) 0); simpl; lia.
Qed.

(** [PartialEq] of [Bitmap] is derived: it compares the three fields.  On valid bitmaps
    it decides equality of the abstract values. *)
Lemma bitmap_canonical a b : bitmap_ok a → bitmap_ok b → view a = view b → a = b.
Proof.
  intros Ha Hb Hv.
  assert (Bitmap.num_bits a = Bitmap.num_bits b) as Hn by by rewrite <-!length_view, Hv.
  assert (Bitmap.count_ones a = Bitmap.count_ones b) as Hc
    by by rewrite !count_ones_view, Hv.
  destruct a as [n c da], b as [n' c' db]; simpl in *. subst n' c'.
  unfold bitmap_ok in *; simpl in *. f_equal.
  destruct da as [da|], db as [db|]; try (exfalso; lia); [|done].
  destruct Ha as ((Wa & La & Pa) & _), Hb as ((Wb & Lb & Pb) & _). f_equal.
  apply words_ext; [done|done|congruence|]. intros i Hi. destruct (decide (i < n)).
  - unfold view in Hv; simpl in Hv. apply (f_equal (.!! i)) in Hv.
    rewrite !lookup_bits_list in Hv by done. congruence.
  - rewrite Pa, Pb; [done|lia..].
Qed.

(** ** Building from words *)

Lemma data_ok_count len d :
  data_ok len d → count_ones_words d = count_true (bits_list len d).
Proof.
  intros (_ & Hl & Hp). apply count_ones_words_padding; [|done].
  rewrite Hl. apply vec_len_bounds.
Qed.

Lemma from_vec_ok len d :
  data_ok len d →
  bitmap_ok (Bitmap.from_vec_with_len d len) ∧
  view (Bitmap.from_vec_with_len d len) = bits_list len d.
Proof.
  intros Hd. pose proof (data_ok_count _ _ Hd) as Hc.
  pose proof (count_true_le (bits_list len d)) as Hle. rewrite length_bits_list in Hle.
  unfold bitmap_ok, view, Bitmap.from_vec_with_len, Bitmap.any; simpl.
  destruct (Nat.eqb_spec (count_ones_words d) 0) as [E0|N0]; simpl.
  - split; [by left|]. rewrite Hc in E0. apply count_true_0 in E0.
    by rewrite length_bits_list in E0.
  - destruct (Nat.eqb_spec (count_ones_words d) len) as [E1|N1]; simpl.
    + split; [by right|]. rewrite Hc in E1.
      rewrite <-(length_bits_list len d) in E1 at 2. apply count_true_full in E1.
      rewrite length_bits_list in E1. by rewrite E1.
    + split; [|done]. repeat split; [apply Hd..|done|lia|lia].
Qed.

Lemma finish_ok b :
  builder_ok b →
  bitmap_ok (BitmapBuilder.finish b) ∧ view (BitmapBuilder.finish b) = builder_view b.
Proof. apply from_vec_ok. Qed.

(** ** The builder *)

Lemma data_ok_intro len d :
  words_ok d → length d = vec_len len → (∀ i, len ≤ i → bit_of d i = false) → data_ok len d.
Proof. done. Qed.

Lemma zeroed_ok n :
  builder_ok (BitmapBuilder.zeroed n) ∧
  builder_view (BitmapBuilder.zeroed n) = replicate n false.
Proof.
  unfold builder_ok, builder_view; simpl. split.
  - apply data_ok_intro.
    + by apply Forall_replicate.
    + apply length_replicate.
    + intros. apply bit_of_replicate_0.
  - apply bits_list_eq; [apply length_replicate|]. intros i Hi.
    by rewrite lookup_replicate_2, bit_of_replicate_0.
Qed.

Lemma words_ok_insert d k w : words_ok d → is_uint 64 w → words_ok (<[k:=w]> d).
Proof. intros. by apply Forall_insert. Qed.

(** Bits of a word list in which the last, partial word has been masked. *)
Lemma bit_of_masked d n k w :
  k = n `div` 64 → k < length d →
  (∀ j, j < n `mod` 64 → Z.testbit w (Z.of_nat j) = bit_of d (64 * k + j)) →
  (∀ j, n `mod` 64 ≤ j < 64 → Z.testbit w (Z.of_nat j) = false) →
  (∀ i, i < n → bit_of (<[k:=w]> d) i = bit_of d i) ∧
  (∀ i, n ≤ i < 64 * (k + 1) → bit_of (<[k:=w]> d) i = false).
Proof.
  intros -> Hk Hlow Hhigh.
  destruct (div_mod_64 n) as [Hn Hm]. set (q := n `div` 64) in *. set (r := n `mod` 64) in *.
  split; intros i Hi; rewrite bit_of_insert by done;
    destruct (div_mod_64 i) as [Hi' Hm']; set (q' := i `div` 64) in *; set (r' := i `mod` 64) in *.
  - case_decide as Hq; [|done]. rewrite Hlow by lia. f_equal. lia.
  - case_decide as Hq; [apply Hhigh; lia|exfalso; lia].
Qed.

Lemma bits_list_set d n w val :
  n `div` 64 < length d →
  (∀ j, j < 64 → Z.testbit w (Z.of_nat j) =
     if decide (j = n `mod` 64) then val else bit_of d (64 * (n `div` 64) + j)) →
  (∀ i, bit_of (<[n `div` 64 := w]> d) i = if decide (i = n) then val else bit_of d i).
Proof.
  intros Hk Hw i. rewrite bit_of_insert by done.
  destruct (div_mod_64 n) as [Hn' Hm]. destruct (div_mod_64 i) as [Hi' Hm'].
  case_decide as Hq.
  - rewrite Hw by done. rewrite Hq. rewrite <-Hi'.
    destruct (decide (i `mod` 64 = n `mod` 64)), (decide (i = n)); try done; exfalso; lia.
  - rewrite decide_False; [done|]. intros ->. done.
Qed.

Lemma set_ok b n val :
  builder_ok b → n < BitmapBuilder.len b →
  ∃ b', BitmapBuilder.set b n val = Ret b' ∧ builder_ok b' ∧
        BitmapBuilder.len b' = BitmapBuilder.len b ∧
        builder_view b' = <[n:=val]> (builder_view b).
Proof.
  intros Hb Hn. unfold BitmapBuilder.set. destruct (Nat.ltb_spec n (BitmapBuilder.len b)); [|lia].
  simpl. bits64. rewrite (data_ok_lookup _ _ _ Hb Hn). simpl.
  eexists; split; [done|].
  destruct b as [len d]. unfold builder_ok, builder_view in *; simpl in *.
  set (mask := Z.shiftl 1 (Z.of_nat (n `mod` 64))). set (w := word d (n `div` 64)).
  set (w' := if val then _ else _).
  destruct (div_mod_64 n) as [Hn' Hm].
  assert (is_uint 64 mask) as Umask.
  { unfold mask. rewrite Z.shiftl_1_l. apply is_uint_pow2; lia. }
  assert (is_uint 64 w) as Uw by apply word_ok, Hb.
  assert (∀ i, bit_of (<[n `div` 64 := w']> d) i = if decide (i = n) then val else bit_of d i) as Hbits.
  { apply bits_list_set; [by eapply data_ok_index|].
    intros j Hj. rewrite bit_of_word by done. fold w.
    assert (Z.testbit mask (Z.of_nat j) = bool_decide (j = n `mod` 64)) as Hmask.
    { unfold mask. rewrite Z.shiftl_1_l, Z.pow2_bits_eqb by lia.
      case_bool_decide; [apply Z.eqb_eq|apply Z.eqb_neq]; lia. }
    unfold w'. destruct val.
    - rewrite Z.lor_spec, Hmask. case_bool_decide; case_decide; try done.
      + apply orb_true_r. + apply orb_false_r.
    - rewrite Z.land_spec, u64_not_spec, Hmask by (done || lia).
      case_bool_decide; case_decide; try done. + apply andb_false_r. + apply andb_true_r. }
  split; [|split; [done|]].
  - apply data_ok_intro.
    + apply words_ok_insert; [apply Hb|]. unfold w'. destruct val; [by apply is_uint_lor|].
      apply is_uint_land; try done. apply u64_not_is_uint. done.
    + rewrite length_insert. apply Hb.
    + intros i Hi. rewrite Hbits. rewrite decide_False by lia. by apply Hb.
  - apply bits_list_eq; [by rewrite length_insert, length_bits_list|].
    intros i Hi. rewrite Hbits. case_decide; subst.
    + apply list_lookup_insert_eq. by rewrite length_bits_list.
    + rewrite list_lookup_insert_ne by done. by apply lookup_bits_list.
Qed.

Lemma is_set_ok b n :
  builder_ok b → n < BitmapBuilder.len b →
  ∃ v, BitmapBuilder.is_set b n = Ret v ∧ builder_view b !! n = Some v.
Proof.
  intros Hb Hn. unfold BitmapBuilder.is_set. destruct (Nat.ltb_spec n (BitmapBuilder.len b)); [|lia].
  simpl. bits64. rewrite (data_ok_lookup _ _ _ Hb Hn). simpl. eexists; split; [done|].
  unfold builder_view. rewrite lookup_bits_list by done. by rewrite bit_test_word.
Qed.

(** A slice extended with a constant word [w] all of whose bits are [v]. *)
Definition const_word (v : bool) : Z := if v then u64_max else 0%Z.

Lemma const_word_bits n v i :
  i < 64 * n → bit_of (replicate n (const_word v)) i = v.
Proof. destruct v; [apply bit_of_replicate_max|intros; apply bit_of_replicate_0]. Qed.

Lemma const_word_is_uint v : is_uint 64 (const_word v).
Proof. destruct v; done. Qed.

Lemma aligned_vec_len n : n `mod` 64 = 0 → 64 * vec_len n = n.
Proof.
  intros H. destruct (div_mod_64 n) as [Hn _].
  rewrite (vec_len_unique n (n `div` 64)); lia.
Qed.

Lemma unaligned_vec_len n : n `mod` 64 ≠ 0 → vec_len n = n `div` 64 + 1.
Proof. intros H. destruct (div_mod_64 n) as [Hn Hm]. apply vec_len_unique; lia. Qed.

(** Storing [w] into the last word of a slice that holds [n] bits, [n] not aligned. *)
Lemma store_last_ok n d w :
  words_ok d → length d = vec_len n → n `mod` 64 ≠ 0 → is_uint 64 w →
  (∀ j, j < n `mod` 64 → Z.testbit w (Z.of_nat j) = bit_of d (64 * (n `div` 64) + j)) →
  (∀ j, n `mod` 64 ≤ j < 64 → Z.testbit w (Z.of_nat j) = false) →
  data_ok n (<[length d - 1 := w]> d) ∧
  ∀ i, i < n → bit_of (<[length d - 1 := w]> d) i = bit_of d i.
Proof.
  intros Wd Hl Hn Uw Hlow Hhigh. pose proof (unaligned_vec_len n Hn) as Hv.
  replace (length d - 1) with (n `div` 64) by lia.
  destruct (bit_of_masked d n (n `div` 64) w) as [H1 H2]; [done|lia|done..|].
  split; [|done]. apply data_ok_intro.
  - by apply words_ok_insert.
  - by rewrite length_insert.
  - intros i Hi. destruct (decide (i < 64 * (n `div` 64 + 1))); [by apply H2|].
    apply bit_of_beyond. rewrite length_insert. lia.
Qed.

Lemma last_word (d : list Z) : 0 < length d → last d = Some (word d (length d - 1)).
Proof.
  intros Hl. rewrite last_lookup. unfold word.
  replace (pred (length d)) with (length d - 1) by lia.
  destruct (lookup_lt_is_Some_2 d (length d - 1)) as [w ->]; [lia|done].
Qed.

Lemma mask_last_ok n d :
  words_ok d → length d = vec_len n → n `mod` 64 ≠ 0 →
  ∃ d', update_last (λ w, Z.land w (low_mask n)) d = Ret d' ∧ data_ok n d' ∧
        ∀ i, i < n → bit_of d' i = bit_of d i.
Proof.
  intros Wd Hl Hn. pose proof (unaligned_vec_len n Hn) as Hv.
  unfold update_last. rewrite last_word by lia. simpl. eexists; split; [done|].
  assert (length d - 1 = n `div` 64) as Hk by lia.
  assert (is_uint 64 (word d (length d - 1))) as Uw by by apply word_ok.
  apply store_last_ok; try done.
  - apply is_uint_land; [done|done|apply low_mask_nonneg].
  - intros j Hj. rewrite Z.land_spec, low_mask_spec, bool_decide_true, andb_true_r by done.
    destruct (div_mod_64 n). rewrite bit_of_word by lia. by rewrite Hk.
  - intros j Hj. rewrite Z.land_spec, low_mask_spec, bool_decide_false by lia. apply andb_false_r.
Qed.

(** The builder state after appending [n] copies of [v] to an aligned one. *)
Lemma extend_bits d k v i :
  length d ≤ k →
  bit_of (resize k (const_word v) d) i =
  if decide (i < 64 * length d) then bit_of d i else if decide (i < 64 * k) then v else false.
Proof.
  intros Hk. rewrite resize_ge by done.
  case_decide; [by apply bit_of_app_l|].
  replace i with (64 * length d + (i - 64 * length d)) by lia. rewrite bit_of_app_r.
  case_decide; [apply const_word_bits; lia|].
  apply bit_of_beyond. rewrite length_replicate. lia.
Qed.

Lemma extend_words_ok d k v : words_ok d → words_ok (resize k (const_word v) d).
Proof. intros. apply Forall_resize; [apply const_word_is_uint|done]. Qed.

Lemma view_snoc len d d' m (v : bool) :
  len ≤ m → (∀ i, i < len → bit_of d' i = bit_of d i) →
  (∀ i, len ≤ i < m → bit_of d' i = v) →
  bits_list m d' = bits_list len d ++ replicate (m - len) v.
Proof.
  intros Hm H1 H2. apply bits_list_eq; [rewrite length_app, length_bits_list, length_replicate; lia|].
  intros i Hi. destruct (decide (i < len)).
  - rewrite lookup_app_l by (by rewrite length_bits_list). rewrite lookup_bits_list by done.
    by rewrite H1.
  - rewrite lookup_app_r by (rewrite length_bits_list; lia). rewrite length_bits_list.
    rewrite lookup_replicate_2 by lia. by rewrite H2 by lia.
Qed.

Lemma append_ok b v :
  builder_ok b →
  ∃ b', BitmapBuilder.append b v = Ret b' ∧ builder_ok b' ∧
        BitmapBuilder.len b' = BitmapBuilder.len b + 1 ∧
        builder_view b' = builder_view b ++ [v].
Proof.
  intros Hb. destruct b as [len d]. unfold BitmapBuilder.append; simpl. bits64.
  unfold builder_ok, builder_view in *; simpl in *. destruct Hb as (Wd & Ld & Pd).
  set (d0 := if (len `mod` 64 =? 0) then _ else _).
  pose proof (vec_len_bounds len) as Hvb. destruct (div_mod_64 len) as [Hlen Hm].
  assert (words_ok d0 ∧ length d0 = vec_len (len + 1) ∧ ∀ i, bit_of d0 i = bit_of d i) as (W0 & L0 & B0).
  { unfold d0. destruct (Nat.eqb_spec (len `mod` 64) 0) as [E|E].
    - pose proof (aligned_vec_len len E) as Hal. split; [|split].
      + apply Forall_app; split; [done|]. by repeat constructor.
      + rewrite length_app. simpl. symmetry. apply vec_len_unique; lia.
      + intros i. destruct (decide (i < 64 * length d)); [by apply bit_of_app_l|].
        rewrite (bit_of_beyond d) by lia.
        replace i with (64 * length d + (i - 64 * length d)) by lia. rewrite bit_of_app_r.
        apply (bit_of_replicate_0 1).
    - pose proof (unaligned_vec_len len E) as Hal. split; [done|split; [|done]].
      rewrite Ld. symmetry. apply vec_len_unique; lia. }
  pose proof (vec_len_bounds (len + 1)) as Hvb1.
  assert (len `div` 64 < length d0) as Hk by (apply div_64_lt; lia).
  assert (d0 !! (len `div` 64) = Some (word d0 (len `div` 64))) as Hlk.
  { unfold word. by destruct (lookup_lt_is_Some_2 d0 _ Hk) as [w ->]. }
  rewrite Hlk. simpl. eexists; split; [done|]. simpl.
  set (w' := Z.lor _ _).
  assert (∀ i, bit_of (<[len `div` 64 := w']> d0) i = if decide (i = len) then v else bit_of d i) as Hbits.
  { intros i. rewrite <-B0. revert i. apply bits_list_set; [done|]. intros j Hj. unfold w'.
    rewrite Z.lor_spec, Z.shiftl_spec, <-bit_of_word by lia. case_decide as E.
    - subst j. rewrite B0, Pd by lia. rewrite Z.sub_diag. by destruct v.
    - replace (Z.testbit (Z.b2z v) (Z.of_nat j - Z.of_nat (len `mod` 64))) with false; [apply orb_false_r|].
      destruct (decide (j < len `mod` 64)); [by rewrite Z.testbit_neg_r by lia|].
      destruct v; simpl; [|by rewrite Z.bits_0].
      rewrite Z.bits_above_log2; [done|lia|simpl; lia]. }
  split; [|split; [done|]].
  - apply data_ok_intro.
    + apply words_ok_insert; [done|]. apply is_uint_lor; [done|by apply word_ok|].
      destruct v; simpl; [|rewrite Z.shiftl_0_l; by apply is_uint_0].
      rewrite Z.shiftl_1_l. apply is_uint_pow2; lia.
    + by rewrite length_insert.
    + intros i Hi. rewrite Hbits, decide_False by lia. apply Pd. lia.
  - rewrite (view_snoc len d _ _ v); [f_equal; by replace (len + 1 - len) with 1 by lia|lia|..].
    + intros i Hi. by rewrite Hbits, decide_False by lia.
    + intros i Hi. by rewrite Hbits, decide_True by lia.
Qed.

Lemma append_align_ok b n v :
  builder_ok b →
  ∃ b' n', BitmapBuilder.append_align b n v = Ret (b', n') ∧ builder_ok b' ∧ n' ≤ n ∧
    (n' = 0 ∨ BitmapBuilder.len b' `mod` 64 = 0) ∧
    BitmapBuilder.len b' + n' = BitmapBuilder.len b + n ∧
    builder_view b' = builder_view b ++ replicate (n - n') v.
Proof.
  revert b; induction n as [|n IH]; intros b Hb; simpl; bits64.
  { exists b, 0. rewrite app_nil_r. split_and!; auto. }
  destruct (Nat.eqb_spec (BitmapBuilder.len b `mod` 64) 0) as [E|E]; simpl.
  - exists b, (S n). rewrite Nat.sub_diag, app_nil_r. split_and!; auto.
  - destruct (append_ok b v Hb) as (b1 & -> & Hb1 & Hl1 & Hv1). simpl.
    destruct (IH b1 Hb1) as (b' & n' & -> & ? & ? & ? & ? & Hv').
    exists b', n'. split_and!; try done; try lia.
    rewrite Hv', Hv1, <-app_assoc. f_equal. by replace (S n - n') with (S (n - n')) by lia.
Qed.

(** Bits of a resized and re-masked slice; the tail of [append_n]. *)
Lemma extend_ok len n d v :
  data_ok len d → (n = 0 ∨ len `mod` 64 = 0) →
  ∃ d', (if v && negb ((len + n) `mod` 64 =? 0)
         then update_last (λ w, Z.land w (low_mask (len + n))) (resize (vec_len (len + n)) (const_word v) d)
         else Ret (resize (vec_len (len + n)) (const_word v) d)) = Ret d' ∧
        data_ok (len + n) d' ∧
        bits_list (len + n) d' = bits_list len d ++ replicate n v.
Proof.
  intros (Wd & Ld & Pd) Hal. pose proof (vec_len_bounds len). pose proof (vec_len_bounds (len + n)).
  assert (length d ≤ vec_len (len + n)) as Hle by lia.
  set (r := resize _ _ _).
  assert (words_ok r) as Wr by by apply extend_words_ok.
  assert (length r = vec_len (len + n)) as Lr by apply length_resize.
  assert (∀ i, i < len → bit_of r i = bit_of d i) as Blow.
  { intros i Hi. unfold r. rewrite extend_bits by done. by rewrite decide_True by lia. }
  assert (∀ i, len ≤ i < len + n → bit_of r i = v) as Bmid.
  { intros i Hi. unfold r. rewrite extend_bits by done.
    destruct Hal as [->|Hal]; [lia|]. pose proof (aligned_vec_len len Hal).
    rewrite decide_False by lia. by rewrite decide_True by lia. }
  assert (∀ d', (∀ i, i < len + n → bit_of d' i = bit_of r i) →
            bits_list (len + n) d' = bits_list len d ++ replicate n v) as Hview.
  { intros d' Hd'. rewrite (view_snoc len d d' (len + n) v).
    - by replace (len + n - len) with n by lia. - lia.
    - intros i Hi. rewrite Hd' by lia. by apply Blow.
    - intros i Hi. rewrite Hd' by lia. by apply Bmid. }
  destruct (Nat.eqb_spec ((len + n) `mod` 64) 0) as [E|E]; simpl.
  - rewrite andb_false_r. exists r. split; [done|]. split; [|by apply Hview].
    apply data_ok_intro; [done..|]. intros i Hi. pose proof (aligned_vec_len _ E).
    apply bit_of_beyond. lia.
  - rewrite andb_true_r. destruct v.
    + destruct (mask_last_ok (len + n) r) as (d' & -> & Hd' & Hb'); [done..|].
      exists d'. split; [done|]. split; [done|]. by apply Hview.
    + exists r. split; [done|]. split; [|by apply Hview].
      apply data_ok_intro; [done..|]. intros i Hi. unfold r. rewrite extend_bits by done.
      case_decide; [apply Pd; lia|by case_decide].
Qed.

Lemma append_n_ok b n v :
  builder_ok b →
  ∃ b', BitmapBuilder.append_n b n v = Ret b' ∧ builder_ok b' ∧
        BitmapBuilder.len b' = BitmapBuilder.len b + n ∧
        builder_view b' = builder_view b ++ replicate n v.
Proof.
  intros Hb. unfold BitmapBuilder.append_n.
  destruct (append_align_ok b n v Hb) as (b1 & n1 & -> & Hb1 & Hn1 & Hal & Hsum & Hv1). simpl. bits64.
  destruct (extend_ok _ n1 _ v Hb1 Hal) as (d' & Hrun & Hd' & Hv').
  change (if v then u64_max else 0%Z) with (const_word v). rewrite Hrun. simpl.
  eexists; split; [done|]. split; [done|]. split; [done|].
  unfold builder_view at 1; simpl. rewrite Hv'. fold (builder_view b1). rewrite Hv1, <-app_assoc.
  f_equal. rewrite <-replicate_add. f_equal. lia.
Qed.

Lemma pop_ok b :
  builder_ok b → 0 < BitmapBuilder.len b →
  ∃ b', BitmapBuilder.pop b = Ret (Some b') ∧ builder_ok b' ∧
        BitmapBuilder.len b' = BitmapBuilder.len b - 1 ∧
        builder_view b' = take (BitmapBuilder.len b - 1) (builder_view b).
Proof.
  intros Hb Hpos. destruct b as [len d]. unfold BitmapBuilder.pop; simpl in *. bits64.
  unfold builder_ok, builder_view in *; simpl in *. destruct Hb as (Wd & Ld & Pd).
  destruct (Nat.eqb_spec len 0) as [|_]; [lia|].
  pose proof (vec_len_bounds len). pose proof (vec_len_bounds (len - 1)).
  set (t := take _ _).
  assert (words_ok t) as Wt by by apply Forall_take.
  assert (length t = vec_len (len - 1)) as Lt by (unfold t; rewrite length_take; lia).
  assert (∀ i, i < len - 1 → bit_of t i = bit_of d i) as Bt.
  { intros i Hi. rewrite <-(take_drop (vec_len (len - 1)) d). fold t. symmetry.
    apply bit_of_app_l. lia. }
  assert (∀ d', (∀ i, i < len - 1 → bit_of d' i = bit_of t i) →
            bits_list (len - 1) d' = take (len - 1) (bits_list len d)) as Hview.
  { intros d' Hd'. apply bits_list_eq; [rewrite length_take, length_bits_list; lia|].
    intros i Hi. rewrite lookup_take_lt, lookup_bits_list by lia. by rewrite Hd', Bt. }
  destruct (Nat.eqb_spec ((len - 1) `mod` 64) 0) as [E|E]; simpl.
  - eexists; split; [done|]. simpl. split; [|split; [done|by apply Hview]].
    apply data_ok_intro; [done..|]. intros i Hi. pose proof (aligned_vec_len _ E).
    apply bit_of_beyond. lia.
  - destruct (mask_last_ok (len - 1) t) as (d' & -> & Hd' & Hb'); [done..|]. simpl.
    eexists; split; [done|]. simpl. split; [done|]. split; [done|]. by apply Hview.
Qed.

Lemma store_low_mask_ok n d :
  words_ok d → length d = vec_len n → n `mod` 64 ≠ 0 →
  (∀ j, j < n `mod` 64 → bit_of d (64 * (n `div` 64) + j) = true) →
  data_ok n (<[length d - 1 := low_mask n]> d) ∧
  ∀ i, i < n → bit_of (<[length d - 1 := low_mask n]> d) i = bit_of d i.
Proof.
  intros Wd Hl Hn Hones. apply store_last_ok; try done.
  - apply low_mask_is_uint.
  - intros j Hj. rewrite low_mask_spec, Hones by done. by apply bool_decide_true.
  - intros j Hj. rewrite low_mask_spec. apply bool_decide_false. lia.
Qed.

Lemma filled_ok n :
  builder_ok (BitmapBuilder.filled n) ∧
  builder_view (BitmapBuilder.filled n) = replicate n true.
Proof.
  unfold BitmapBuilder.filled, builder_ok, builder_view.
  cbn [BitmapBuilder.len BitmapBuilder.data]. bits64.
  pose proof (vec_len_bounds n). destruct (div_mod_64 n).
  assert (words_ok (replicate (vec_len n) u64_max)) as Wr by by apply Forall_replicate.
  assert (length (replicate (vec_len n) u64_max) = vec_len n) as Lr by apply length_replicate.
  assert (∀ d, (∀ i, i < n → bit_of d i = bit_of (replicate (vec_len n) u64_max) i) →
            bits_list n d = replicate n true) as Hview.
  { intros d Hd. apply bits_list_eq; [apply length_replicate|]. intros i Hi.
    rewrite lookup_replicate_2 by done. rewrite Hd, bit_of_replicate_max by lia. done. }
  destruct (Nat.eqb_spec (n `mod` 64) 0) as [E|E]; cbn [negb].
  - rewrite andb_false_r. split; [|by apply Hview].
    apply data_ok_intro; [done..|]. intros i Hi. pose proof (aligned_vec_len _ E).
    apply bit_of_beyond. lia.
  - pose proof (unaligned_vec_len n E) as Hv.
    destruct (Nat.leb_spec 1 (vec_len n)); [cbn [andb]|lia].
    destruct (store_low_mask_ok n (replicate (vec_len n) u64_max)) as [K1 K2]; try done.
    { intros j Hj. apply bit_of_replicate_max. lia. }
    rewrite length_replicate in K1, K2. split; [exact K1|by apply Hview].
Qed.

(** ** Iteration *)

(** The invariant between two calls of [next]: the word that is being read is loaded. *)
Definition iter_inv (b : Bitmap.t) (it : BitmapIter.t) : Prop :=
  BitmapIter.bits it = Bitmap.bits b ∧
  BitmapIter.num_bits it = Bitmap.num_bits b ∧
  BitmapIter.all_ones it = (Bitmap.count_ones b =? Bitmap.num_bits b) ∧
  match Bitmap.bits b with
  | Some d => BitmapIter.idx it < Bitmap.num_bits b → BitmapIter.idx it `mod` 64 ≠ 0 →
              BitmapIter.current_usize it = word d (BitmapIter.idx it `div` 64)
  | None => True
  end.

Lemma succ_div_64 i : (i + 1) `mod` 64 ≠ 0 → (i + 1) `div` 64 = i `div` 64.
Proof. destruct (div_mod_64 i), (div_mod_64 (i + 1)). lia. Qed.

Lemma all_ones_any b i :
  bitmap_ok b → Bitmap.bits b = None → i < Bitmap.num_bits b →
  (Bitmap.count_ones b =? Bitmap.num_bits b) = Bitmap.any b.
Proof.
  unfold bitmap_ok, Bitmap.any. intros Hb E Hi. rewrite E in Hb.
  destruct (Nat.eqb_spec (Bitmap.count_ones b) (Bitmap.num_bits b)),
    (Nat.eqb_spec (Bitmap.count_ones b) 0); simpl; try done; lia.
Qed.

Lemma iter_next_ok b it :
  bitmap_ok b → iter_inv b it → BitmapIter.idx it < Bitmap.num_bits b →
  ∃ v it', BitmapIter.next it = (Some v, it') ∧ iter_inv b it' ∧
           BitmapIter.idx it' = BitmapIter.idx it + 1 ∧
           view b !! BitmapIter.idx it = Some v.
Proof.
  intros Hb (Hbits & Hn & Hall & Hcur) Hi. unfold BitmapIter.next.
  rewrite Hn. destruct (Nat.leb_spec (Bitmap.num_bits b) (BitmapIter.idx it)); [lia|].
  rewrite lookup_view by done. rewrite Hbits. destruct (Bitmap.bits b) as [d|] eqn:E.
  - eexists _, _. split; [done|]. simpl. bits64. set (cur := if (BitmapIter.idx it `mod` 64 =? 0) then _ else _).
    assert (cur = word d (BitmapIter.idx it `div` 64)) as ->.
    { unfold cur. destruct (Nat.eqb_spec (BitmapIter.idx it `mod` 64) 0); [done|by apply Hcur]. }
    split; [|split; [done|]].
    + unfold iter_inv; simpl. rewrite E. split_and!; try done. intros. by rewrite succ_div_64.
    + unfold Bitmap.is_set_unchecked. by rewrite E.
  - eexists _, _. split; [done|]. simpl. split; [|split; [done|]].
    + unfold iter_inv; simpl. by rewrite E.
    + rewrite Hall. unfold Bitmap.is_set_unchecked. rewrite E. f_equal.
      by erewrite all_ones_any.
Qed.

Lemma iter_collect_ok b it fuel :
  bitmap_ok b → iter_inv b it → Bitmap.num_bits b - BitmapIter.idx it < fuel →
  BitmapIter.collect fuel it = drop (BitmapIter.idx it) (view b).
Proof.
  intros Hb. revert it; induction fuel as [|fuel IH]; intros it Hit Hf; [lia|].
  simpl. destruct (decide (BitmapIter.idx it < Bitmap.num_bits b)) as [Hi|Hi].
  - destruct (iter_next_ok b it Hb Hit Hi) as (v & it' & -> & Hit' & Hidx & Hv).
    rewrite IH by (done || lia). rewrite Hidx. rewrite (drop_S _ _ _ Hv). f_equal. f_equal. lia.
  - unfold BitmapIter.next. destruct Hit as (_ & -> & _).
    destruct (Nat.leb_spec (Bitmap.num_bits b) (BitmapIter.idx it)); [|lia].
    rewrite drop_ge; [done|]. rewrite length_view. lia.
Qed.

Lemma iter_all_ok b : bitmap_ok b → BitmapIter.iter_all b = view b.
Proof.
  intros Hb. unfold BitmapIter.iter_all. rewrite (iter_collect_ok b); [done|done| |simpl; lia].
  unfold iter_inv, BitmapIter.iter; simpl. split_and!; try done. by destruct (Bitmap.bits b).
Qed.

(** [nth] skips [n] elements, whatever the position. *)
Lemma iter_nth_ok b it n :
  bitmap_ok b → iter_inv b it →
  fst (BitmapIter.nth it n) = view b !! (BitmapIter.idx it + n) ∧
  iter_inv b (snd (BitmapIter.nth it n)).
Proof.
  intros Hb (Hbits & Hn & Hall & Hcur). unfold BitmapIter.nth, BitmapIter.next_always_load_usize; simpl.
  rewrite Hn. destruct (Nat.leb_spec (Bitmap.num_bits b) (BitmapIter.idx it + n)) as [Hle|Hlt]; simpl.
  - rewrite lookup_ge_None_2 by (by rewrite length_view). split; [done|].
    unfold iter_inv; simpl. split_and!; try done. by destruct (Bitmap.bits b); [lia|].
  - rewrite lookup_view by done. rewrite Hbits. destruct (Bitmap.bits b) as [d|] eqn:E; simpl.
    + split; [unfold Bitmap.is_set_unchecked; by rewrite E|].
      unfold iter_inv; simpl. rewrite E. split_and!; try done. intros. by rewrite succ_div_64.
    + split; [|unfold iter_inv; simpl; by rewrite E].
      unfold Bitmap.is_set_unchecked. rewrite E, Hall. f_equal. by erewrite all_ones_any.
Qed.

(** ** Appending whole bitmaps *)

Lemma append_bits_ok b bs :
  builder_ok b →
  ∃ b', BitmapBuilder.append_bits b bs = Ret b' ∧ builder_ok b' ∧
        builder_view b' = builder_view b ++ bs.
Proof.
  intros Hb. unfold BitmapBuilder.append_bits.
  apply (rfold_inv _ (λ done b', builder_ok b' ∧ builder_view b' = builder_view b ++ done)).
  - by rewrite app_nil_r.
  - intros sofar x todo b' _ [Hb' Hv']. destruct (append_ok b' x Hb') as (b'' & -> & Hb'' & _ & Hv'').
    exists b''. split; [done|]. split; [done|]. by rewrite Hv'', Hv', app_assoc.
Qed.

Lemma append_words_ok len d m bs :
  len `mod` 64 = 0 → data_ok len d → data_ok m bs →
  data_ok (len + m) (d ++ bs) ∧ bits_list (len + m) (d ++ bs) = bits_list len d ++ bits_list m bs.
Proof.
  intros Hal (Wd & Ld & Pd) (Wb & Lb & Pb). pose proof (aligned_vec_len len Hal) as Hl.
  rewrite <-Ld in Hl. pose proof (vec_len_bounds m).
  assert (∀ i, bit_of (d ++ bs) (len + i) = bit_of bs i) as Hr.
  { intros i. rewrite <-Hl. apply bit_of_app_r. }
  split.
  - apply data_ok_intro.
    + by apply Forall_app.
    + rewrite length_app. symmetry. apply vec_len_unique; lia.
    + intros i Hi. replace i with (len + (i - len)) by lia. rewrite Hr. apply Pb. lia.
  - apply bits_list_eq; [by rewrite length_app, !length_bits_list|]. intros i Hi.
    destruct (decide (i < len)).
    + rewrite lookup_app_l, lookup_bits_list by (by rewrite ?length_bits_list).
      rewrite bit_of_app_l by lia. done.
    + rewrite lookup_app_r, length_bits_list, lookup_bits_list by (rewrite ?length_bits_list; lia).
      rewrite <-Hr. do 2 f_equal. lia.
Qed.

Lemma append_bitmap_ok b other :
  builder_ok b → bitmap_ok other →
  ∃ b', BitmapBuilder.append_bitmap b other = Ret b' ∧ builder_ok b' ∧
        builder_view b' = builder_view b ++ view other.
Proof.
  intros Hb Ho. unfold BitmapBuilder.append_bitmap. bits64.
  destruct (Nat.eqb_spec (BitmapBuilder.len b `mod` 64) 0) as [Hal|Hal].
  2: { rewrite iter_all_ok by done. by apply append_bits_ok. }
  unfold bitmap_ok, view, Bitmap.any, Bitmap.len in *.
  destruct (Bitmap.bits other) as [bits|].
  - destruct Ho as (Ho & _ & _). destruct (append_words_ok _ _ _ _ Hal Hb Ho) as [H1 H2].
    eexists; split; [done|]. by split.
  - set (n := Bitmap.num_bits other) in *.
    destruct (Nat.eqb_spec (Bitmap.count_ones other) 0) as [E0|N0]; simpl.
    + destruct (extend_ok _ n _ false Hb (or_intror Hal)) as (d' & Hd & H1 & H2). simpl in Hd.
      injection Hd as <-. eexists; split; [done|]. by split.
    + destruct (extend_ok _ n _ true Hb (or_intror Hal)) as (d' & Hd & H1 & H2). simpl in Hd.
      destruct (Nat.eqb_spec ((BitmapBuilder.len b + n) `mod` 64) 0) as [E|E]; simpl in *.
      * injection Hd as <-. eexists; split; [done|]. by split.
      * (* storing the mask or masking the word is the same on a word of ones *)
        clear Hd d' H1 H2. set (m := BitmapBuilder.len b + n) in *.
        pose proof (unaligned_vec_len m E) as Hv. destruct (div_mod_64 m).
        destruct Hb as (Wd & Ld & Pd). pose proof (aligned_vec_len _ Hal) as Hl.
        pose proof (vec_len_bounds m).
        set (r := resize _ _ _). assert (length r = vec_len m) as Lr by apply length_resize.
        assert (words_ok r) as Wr by by apply (extend_words_ok _ _ true).
        assert (∀ i, BitmapBuilder.len b ≤ i < 64 * vec_len m → bit_of r i = true) as Br.
        { intros i Hi. unfold r. rewrite (extend_bits _ _ true) by lia.
          rewrite decide_False by lia. by rewrite decide_True by lia. }
        destruct (store_low_mask_ok m r) as [K1 K2]; [done..| |].
        { intros j Hj. apply Br. split; [|lia].
          destruct (div_mod_64 (BitmapBuilder.len b)). unfold m in *. lia. }
        unfold update_last. rewrite last_word by lia. simpl.
        eexists; split; [done|]. split; [exact K1|]. unfold builder_view; simpl.
        rewrite (view_snoc (BitmapBuilder.len b) (BitmapBuilder.data b) _ m true).
        -- f_equal. f_equal. lia. -- lia.
        -- intros i Hi. rewrite K2 by lia. unfold r. rewrite (extend_bits _ _ true) by lia.
           by rewrite decide_True by lia.
        -- intros i Hi. rewrite K2 by lia. apply Br. lia.
Qed.

Lemma from_bitmap_ok b :
  bitmap_ok b →
  builder_ok (BitmapBuilder.from_bitmap b) ∧ builder_view (BitmapBuilder.from_bitmap b) = view b.
Proof.
  intros Hb. unfold BitmapBuilder.from_bitmap, bitmap_ok, view, Bitmap.any, Bitmap.len in *.
  destruct (Bitmap.bits b); [split; [apply Hb|done]|].
  destruct (Nat.eqb_spec (Bitmap.count_ones b) 0); [apply zeroed_ok|apply filled_ok].
Qed.

(** ** The builder as an abstract machine on boolean lists *)

Inductive builder_op :=
| OpSet (n : nat) (val : bool)
| OpAppend (bit_set : bool)
| OpAppendN (n : nat) (bit_set : bool)
| OpAppendBitmap (other : Bitmap.t)
| OpPop.

(** The code. *)
Definition builder_step (b : BitmapBuilder.t) (op : builder_op) : outcome BitmapBuilder.t :=
  match op with
  | OpSet n val => BitmapBuilder.set b n val
  | OpAppend v => BitmapBuilder.append b v
  | OpAppendN n v => BitmapBuilder.append_n b n v
  | OpAppendBitmap other => BitmapBuilder.append_bitmap b other
  | OpPop => o ← BitmapBuilder.pop b; Ret (default b o)
  end.

(** The specification: what the caller of the builder sees. *)
Definition spec_step (l : list bool) (op : builder_op) : outcome (list bool) :=
  match op with
  | OpSet n val => if n <? length l then Ret (<[n:=val]> l) else Panic
  | OpAppend v => Ret (l ++ [v])
  | OpAppendN n v => Ret (l ++ replicate n v)
  | OpAppendBitmap other => Ret (l ++ view other)
  | OpPop => Ret (take (length l - 1) l)
  end.

Definition op_ok (op : builder_op) : Prop :=
  match op with OpAppendBitmap other => bitmap_ok other | _ => True end.

Lemma length_builder_view b : length (builder_view b) = BitmapBuilder.len b.
Proof. apply length_bits_list. Qed.

Lemma builder_step_refines b op l' :
  builder_ok b → op_ok op → spec_step (builder_view b) op = Ret l' →
  ∃ b', builder_step b op = Ret b' ∧ builder_ok b' ∧ builder_view b' = l'.
Proof.
  intros Hb Hop Hs. destruct op as [n v|v|n v|other|]; simpl in *.
  - rewrite length_builder_view in Hs. destruct (Nat.ltb_spec n (BitmapBuilder.len b)); [|done].
    injection Hs as <-. destruct (set_ok b n v) as (b' & ? & ? & _ & ?); [done..|]. eauto.
  - injection Hs as <-. destruct (append_ok b v) as (b' & ? & ? & _ & ?); [done|]. eauto.
  - injection Hs as <-. destruct (append_n_ok b n v) as (b' & ? & ? & _ & ?); [done|]. eauto.
  - injection Hs as <-. by apply append_bitmap_ok.
  - injection Hs as <-. rewrite length_builder_view.
    destruct (decide (BitmapBuilder.len b = 0)) as [E|E].
    + unfold BitmapBuilder.pop. rewrite E. simpl. exists b. split_and!; [done..|].
      pose proof (length_builder_view b) as Hl. rewrite E in Hl.
      by apply nil_length_inv in Hl as ->.
    + destruct (pop_ok b) as (b' & -> & ? & _ & ?); [done|lia|]. simpl. eauto.
Qed.

Lemma builder_step_panics b op :
  builder_ok b → op_ok op → spec_step (builder_view b) op = Panic → builder_step b op = Panic.
Proof.
  intros Hb Hop Hs. destruct op as [n v|v|n v|other|]; simpl in *; try done.
  rewrite length_builder_view in Hs. unfold BitmapBuilder.set.
  by destruct (n <? BitmapBuilder.len b).
Qed.


