(* ===== verification/BitmapAlgebra.v ===== *)
(** * Boolean algebra, ranges and conversions of bitmaps

    [&], [|], [^], [!], [from_range] and [from_bool_slice] of
    [src/common/src/bitmap.rs] against their pointwise meaning. *)

From Stdlib Require Import ZArith Lia.
From S2P Require Import Prelude Order Bytes Epoch Bits Bitmap BitmapSpec.

(** ** Word-wise binary operations *)

Section pointwise.
Context (fz : Z → Z → Z) (fb : bool → bool → bool).
Hypothesis fz_spec : ∀ x y n, Z.testbit (fz x y) n = fb (Z.testbit x n) (Z.testbit y n).
Hypothesis fz_uint : ∀ x y, is_uint 64 x → is_uint 64 y → is_uint 64 (fz x y).
Hypothesis fb_false : fb false false = false.

Lemma zip_words_ok a b : words_ok a → words_ok b → words_ok (zip_with fz a b).
Proof.
  intros Ha. revert b. induction Ha as [|x a Hx Ha IH]; intros b Hb; [constructor|].
  destruct Hb as [|y b Hy Hb]; constructor; [by apply fz_uint|by apply IH].
Qed.

Lemma bit_of_zip a b i :
  length a = length b → bit_of (zip_with fz a b) i = fb (bit_of a i) (bit_of b i).
Proof.
  intros Hl. unfold bit_of, word. rewrite lookup_zip_with.
  destruct (a !! (i `div` 64)) as [x|] eqn:Ea; simpl.
  - destruct (lookup_lt_is_Some_2 b (i `div` 64)) as [y Ey].
    { rewrite <-Hl. by eapply lookup_lt_Some. }
    rewrite Ey. simpl. apply fz_spec.
  - rewrite (lookup_ge_None_2 b); [simpl|rewrite <-Hl; by apply lookup_ge_None].
    by rewrite !Z.bits_0, fb_false.
Qed.

Lemma zip_data_ok n a b :
  data_ok n a → data_ok n b →
  data_ok n (zip_with fz a b) ∧
  bits_list n (zip_with fz a b) = zip_with fb (bits_list n a) (bits_list n b).
Proof.
  intros (Wa & La & Pa) (Wb & Lb & Pb).
  assert (length a = length b) as Hl by congruence. split.
  - apply data_ok_intro.
    + by apply zip_words_ok.
    + rewrite length_zip_with. lia.
    + intros i Hi. rewrite bit_of_zip, Pa, Pb by done. done.
  - apply bits_list_eq; [rewrite length_zip_with, !length_bits_list; lia|].
    intros i Hi. rewrite lookup_zip_with, !lookup_bits_list by done. simpl.
    by rewrite bit_of_zip.
Qed.

End pointwise.

Lemma zip_with_replicate_const_l (f : bool → bool → bool) n b l :
  length l = n → zip_with f (replicate n b) l = f b <$> l.
Proof. intros <-. induction l as [|x l IH]; [done|]. csimpl. by rewrite IH. Qed.

Lemma zip_with_replicate_const_r (f : bool → bool → bool) n b l :
  length l = n → zip_with f l (replicate n b) = (λ x, f x b) <$> l.
Proof. intros <-. induction l as [|x l IH]; [done|]. csimpl. by rewrite IH. Qed.

Lemma fmap_const_replicate (f : bool → bool) c (l : list bool) :
  (∀ x, f x = c) → f <$> l = replicate (length l) c.
Proof. intros H. induction l as [|x l IH]; [done|]. csimpl. by rewrite IH, H. Qed.

Lemma fmap_id_bool (f : bool → bool) (l : list bool) : (∀ x, f x = x) → f <$> l = l.
Proof. intros H. induction l as [|x l IH]; [done|]. csimpl. by rewrite IH, H. Qed.

(** A bitmap with no words is constant. *)
Lemma view_none b :
  bitmap_ok b → Bitmap.bits b = None →
  (Bitmap.count_ones b = 0 ∧ view b = replicate (Bitmap.num_bits b) false) ∨
  (Bitmap.count_ones b = Bitmap.num_bits b ∧ Bitmap.count_ones b ≠ 0 ∧
   view b = replicate (Bitmap.num_bits b) true).
Proof.
  unfold bitmap_ok, view, Bitmap.any. intros Hb E. rewrite E in *.
  destruct (Nat.eqb_spec (Bitmap.count_ones b) 0); [by left|right]. destruct Hb; [lia|done].
Qed.

Lemma view_zero b : bitmap_ok b → Bitmap.count_ones b = 0 → view b = replicate (Bitmap.num_bits b) false.
Proof.
  intros Hb Hc. rewrite count_ones_view in Hc by done. apply count_true_0 in Hc.
  by rewrite length_view in Hc.
Qed.

Lemma view_full b :
  bitmap_ok b → Bitmap.count_ones b = Bitmap.num_bits b → view b = replicate (Bitmap.num_bits b) true.
Proof.
  intros Hb Hc. rewrite count_ones_view, <-length_view in Hc by done. apply count_true_full in Hc.
  by rewrite length_view in Hc.
Qed.

Lemma zeros_ok n : bitmap_ok (Bitmap.zeros n) ∧ view (Bitmap.zeros n) = replicate n false.
Proof. split; [by left|done]. Qed.

Lemma ones_ok n : bitmap_ok (Bitmap.ones n) ∧ view (Bitmap.ones n) = replicate n true.
Proof.
  split; [by right|]. unfold view, Bitmap.any; simpl. by destruct n.
Qed.

Lemma bitand_ok a b :
  bitmap_ok a → bitmap_ok b → Bitmap.num_bits a = Bitmap.num_bits b →
  ∃ c, Bitmap.bitand a b = Ret c ∧ bitmap_ok c ∧ view c = zip_with andb (view a) (view b).
Proof.
  intros Ha Hb Hn. unfold Bitmap.bitand. rewrite Hn, Nat.eqb_refl. simpl.
  pose proof (length_view a) as La. pose proof (length_view b) as Lb. rewrite Hn in La.
  destruct (Nat.eqb_spec (Bitmap.count_ones a) 0) as [E|Na]; simpl.
  { eexists; split; [done|]. split; [apply zeros_ok|]. rewrite (view_zero a), Hn by done.
    rewrite zip_with_replicate_const_l by done. rewrite (fmap_const_replicate _ false), Lb by done. done. }
  destruct (Nat.eqb_spec (Bitmap.count_ones b) 0) as [E|Nb]; simpl.
  { eexists; split; [done|]. split; [apply zeros_ok|]. rewrite (view_zero b) by done.
    rewrite zip_with_replicate_const_r by done.
    rewrite (fmap_const_replicate _ false), La by apply andb_false_r. done. }
  destruct (Bitmap.bits b) as [db|] eqn:Eb.
  - destruct (Bitmap.bits a) as [da|] eqn:Ea.
    + eexists; split; [done|]. unfold bitmap_ok in Ha, Hb. rewrite Ea in Ha. rewrite Eb in Hb.
      rewrite Hn in Ha.
      destruct (zip_data_ok Z.land andb Z.land_spec) with (n := Bitmap.num_bits b) (a := da) (b := db)
        as [Hd Hv]; [|done|apply Ha|apply Hb|].
      { intros x y Hx Hy. apply is_uint_land; [done|done|apply Hy]. }
      destruct (from_vec_ok _ _ Hd) as [Hok Hview]. split; [done|].
      rewrite Hview, Hv. unfold view. by rewrite Ea, Eb, Hn.
    + exists b. split; [done|]. split; [done|]. destruct (view_none a Ha Ea) as [[? _]|(_ & _ & ->)]; [done|].
      rewrite zip_with_replicate_const_l by congruence. symmetry. by apply fmap_id_bool.
  - exists a. split; [by destruct (Bitmap.bits a)|]. split; [done|]. destruct (view_none b Hb Eb) as [[? _]|(_ & _ & ->)]; [done|].
    rewrite zip_with_replicate_const_r by congruence. symmetry. apply fmap_id_bool, andb_true_r.
Qed.

Lemma bitor_ok a b :
  bitmap_ok a → bitmap_ok b → Bitmap.num_bits a = Bitmap.num_bits b →
  ∃ c, Bitmap.bitor a b = Ret c ∧ bitmap_ok c ∧ view c = zip_with orb (view a) (view b).
Proof.
  intros Ha Hb Hn. unfold Bitmap.bitor. rewrite Hn, Nat.eqb_refl. simpl.
  pose proof (length_view a) as La. pose proof (length_view b) as Lb. rewrite Hn in La.
  destruct (Nat.eqb_spec (Bitmap.count_ones a) (Bitmap.num_bits b)) as [E|Na]; simpl.
  { eexists; split; [done|]. split; [apply ones_ok|]. rewrite <-Hn in E.
    rewrite (view_full a), Hn by done.
    rewrite zip_with_replicate_const_l by done. rewrite (fmap_const_replicate _ true), Lb by done.
    apply ones_ok. }
  destruct (Nat.eqb_spec (Bitmap.count_ones b) (Bitmap.num_bits b)) as [E|Nb]; simpl.
  { eexists; split; [done|]. split; [apply ones_ok|]. rewrite (view_full b) by done.
    rewrite zip_with_replicate_const_r by done.
    rewrite (fmap_const_replicate _ true), La by apply orb_true_r. apply ones_ok. }
  destruct (Bitmap.bits b) as [db|] eqn:Eb.
  - destruct (Bitmap.bits a) as [da|] eqn:Ea.
    + eexists; split; [done|]. unfold bitmap_ok in Ha, Hb. rewrite Ea in Ha. rewrite Eb in Hb.
      rewrite Hn in Ha.
      destruct (zip_data_ok Z.lor orb Z.lor_spec) with (n := Bitmap.num_bits b) (a := da) (b := db)
        as [Hd Hv]; [|done|apply Ha|apply Hb|].
      { intros x y Hx Hy. by apply is_uint_lor. }
      destruct (from_vec_ok _ _ Hd) as [Hok Hview]. split; [done|].
      rewrite Hview, Hv. unfold view. by rewrite Ea, Eb, Hn.
    + exists b. split; [done|]. split; [done|].
      destruct (view_none a Ha Ea) as [[_ ->]|(? & _ & _)]; [|congruence].
      rewrite zip_with_replicate_const_l by congruence. symmetry. by apply fmap_id_bool.
  - exists a. split; [by destruct (Bitmap.bits a)|]. split; [done|].
    destruct (view_none b Hb Eb) as [[_ ->]|(? & _ & _)]; [|done].
    rewrite zip_with_replicate_const_r by congruence. symmetry. apply fmap_id_bool, orb_false_r.
Qed.

(** ** Complement *)

Lemma count_true_negb l : count_true (negb <$> l) = length l - count_true l.
Proof.
  induction l as [|x l IH]; [done|]. csimpl. rewrite !count_true_cons, IH.
  pose proof (count_true_le l). destruct x; simpl; lia.
Qed.

Lemma bit_of_not d i :
  words_ok d → i < 64 * length d → bit_of (u64_not <$> d) i = negb (bit_of d i).
Proof.
  intros Wd Hi. unfold bit_of, word. rewrite list_lookup_fmap.
  destruct (lookup_lt_is_Some_2 d (i `div` 64)) as [w Ew]; [by apply div_64_lt|].
  rewrite Ew. simpl. destruct (div_mod_64 i). apply u64_not_spec; [|lia].
  by eapply Forall_lookup_1 in Wd.
Qed.

Lemma not_words_ok d : words_ok d → words_ok (u64_not <$> d).
Proof. intros. apply Forall_fmap. eapply Forall_impl; [done|]. intros. by apply u64_not_is_uint. Qed.

Lemma not_ok a :
  bitmap_ok a → ∃ c, Bitmap.not a = Ret c ∧ bitmap_ok c ∧
                     Bitmap.num_bits c = Bitmap.num_bits a ∧ view c = negb <$> view a.
Proof.
  intros Ha. unfold Bitmap.not. destruct (Bitmap.bits a) as [d|] eqn:E.
  2: { destruct (view_none a Ha E) as [[-> ->]|(_ & N & ->)]; simpl.
       - eexists; split; [done|]. split; [apply ones_ok|split; [done|]].
         rewrite fmap_replicate. apply ones_ok.
       - destruct (Nat.eqb_spec (Bitmap.count_ones a) 0); [done|].
         eexists; split; [done|]. split; [apply zeros_ok|split; [done|]].
         by rewrite fmap_replicate. }
  unfold bitmap_ok in Ha. rewrite E in Ha. destruct Ha as ((Wd & Ld & Pd) & Hc & Hlt). bits64.
  set (n := Bitmap.num_bits a) in *. pose proof (vec_len_bounds n) as Hvb.
  assert (∃ d', (if negb (n `mod` 64 =? 0)
            then w ← unwrap ((u64_not <$> d) !! (n `div` 64));
                 Ret (<[n `div` 64:=Z.land w (low_mask n)]> (u64_not <$> d))
            else Ret (u64_not <$> d)) = Ret d' ∧ data_ok n d' ∧
            ∀ i, i < n → bit_of d' i = negb (bit_of d i)) as (d' & -> & Hd' & Hb').
  { destruct (Nat.eqb_spec (n `mod` 64) 0) as [Hal|Hal]; simpl.
    - eexists; split; [done|]. split.
      + apply data_ok_intro; [by apply not_words_ok|by rewrite length_fmap|].
        intros i Hi. apply bit_of_beyond. rewrite length_fmap. pose proof (aligned_vec_len _ Hal). lia.
      + intros i Hi. apply bit_of_not; [done|lia].
    - destruct (mask_last_ok n (u64_not <$> d)) as (d' & Hrun & Hd' & Hb');
        [by apply not_words_ok|by rewrite length_fmap|done|].
      pose proof (unaligned_vec_len n Hal). unfold update_last in Hrun.
      rewrite last_lookup in Hrun. rewrite !length_fmap in Hrun.
      replace (pred (length d)) with (n `div` 64) in Hrun by lia.
      replace (length d - 1) with (n `div` 64) in Hrun by lia.
      exists d'. split; [done|]. split; [done|]. intros i Hi. rewrite Hb' by done.
      apply bit_of_not; [done|lia]. }
  simpl. eexists; split; [done|]. unfold bitmap_ok, view; simpl. rewrite E. fold n.
  assert (bits_list n d' = negb <$> bits_list n d) as Hv.
  { apply bits_list_eq; [by rewrite length_fmap, length_bits_list|]. intros i Hi.
    by rewrite list_lookup_fmap, lookup_bits_list, Hb' by done. }
  split; [|done]. split; [done|]. rewrite Hv, count_true_negb, length_bits_list, Hc.
  split; [done|lia].
Qed.

Lemma zip_with_xorb_comm l1 l2 : zip_with xorb l1 l2 = zip_with xorb l2 l1.
Proof.
  revert l2; induction l1 as [|x l1 IH]; intros [|y l2]; try done.
  simpl. by rewrite IH, xorb_comm.
Qed.

Lemma bitxor_const a b :
  bitmap_ok a → bitmap_ok b → Bitmap.num_bits a = Bitmap.num_bits b → Bitmap.bits b = None →
  ∃ c, (if Bitmap.count_ones b =? 0 then Ret a else Bitmap.not a) = Ret c ∧ bitmap_ok c ∧
       view c = zip_with xorb (view a) (view b).
Proof.
  intros Ha Hb Hn E. destruct (view_none b Hb E) as [[-> ->]|(_ & N & ->)]; simpl.
  - exists a. split; [by destruct (Bitmap.bits a)|]. split; [done|].
    rewrite zip_with_replicate_const_r by (by rewrite length_view).
    symmetry. apply fmap_id_bool, xorb_false_r.
  - destruct (Nat.eqb_spec (Bitmap.count_ones b) 0); [done|].
    destruct (not_ok a Ha) as (c & Hc & Hok & _ & Hv). exists c. split; [done|]. split; [done|].
    rewrite zip_with_replicate_const_r by (by rewrite length_view). rewrite Hv.
    apply list_fmap_ext. intros _ x _. by destruct x.
Qed.

Lemma bitxor_ok a b :
  bitmap_ok a → bitmap_ok b → Bitmap.num_bits a = Bitmap.num_bits b →
  ∃ c, Bitmap.bitxor a b = Ret c ∧ bitmap_ok c ∧ view c = zip_with xorb (view a) (view b).
Proof.
  intros Ha Hb Hn. unfold Bitmap.bitxor. rewrite Hn, Nat.eqb_refl. simpl.
  destruct (Bitmap.bits b) as [db|] eqn:Eb; [destruct (Bitmap.bits a) as [da|] eqn:Ea|].
  - eexists; split; [done|]. unfold bitmap_ok in Ha, Hb. rewrite Ea in Ha. rewrite Eb in Hb.
    rewrite Hn in Ha.
    destruct (zip_data_ok Z.lxor xorb Z.lxor_spec) with (n := Bitmap.num_bits b) (a := da) (b := db)
      as [Hd Hv]; [|done|apply Ha|apply Hb|].
    { intros x y Hx Hy. by apply is_uint_lxor. }
    destruct (from_vec_ok _ _ Hd) as [Hok Hview]. split; [done|].
    rewrite Hview, Hv. unfold view. by rewrite Ea, Eb, Hn.
  - rewrite zip_with_xorb_comm. by apply bitxor_const.
  - destruct (Bitmap.bits a); by apply bitxor_const.
Qed.

(** The operators [&], [|], [^] and [!] of [Bitmap], with their shortcuts for constant
    operands, compute the pointwise boolean operations on operands of one length, keep
    the representation invariant (count of ones right, words dropped exactly when all
    bits are equal), and do not panic. *)
Theorem bitmap_operators_pointwise (a b : Bitmap.t) :
  bitmap_ok a → bitmap_ok b → Bitmap.num_bits a = Bitmap.num_bits b →
  (∃ c, Bitmap.bitand a b = Ret c ∧ bitmap_ok c ∧ view c = zip_with andb (view a) (view b)) ∧
  (∃ c, Bitmap.bitor a b = Ret c ∧ bitmap_ok c ∧ view c = zip_with orb (view a) (view b)) ∧
  (∃ c, Bitmap.bitxor a b = Ret c ∧ bitmap_ok c ∧ view c = zip_with xorb (view a) (view b)) ∧
  (∃ c, Bitmap.not a = Ret c ∧ bitmap_ok c ∧ view c = negb <$> view a).
Proof.
  intros Ha Hb Hn. split_and!; [by apply bitand_ok|by apply bitor_ok|by apply bitxor_ok|].
  destruct (not_ok a Ha) as (c & ? & ? & _ & ?). eauto.
Qed.

Lemma bitmap_operators_pointwise_witness :
  ∃ c, Bitmap.bitand (Bitmap.ones 70) (Bitmap.zeros 70) = Ret c ∧ bitmap_ok c.
Proof.
  destruct (bitmap_operators_pointwise (Bitmap.ones 70) (Bitmap.zeros 70)
    (proj1 (ones_ok 70)) (proj1 (zeros_ok 70)) eq_refl) as ((c & Hc & Hok & _) & _).
  exists c. split; [exact Hc|exact Hok].
Defined.

(** ** Ranges *)

Lemma set_at_in d k w : k < length d → set_at d k w = Ret (<[k:=w]> d).
Proof. intros H. unfold set_at. by destruct (Nat.ltb_spec k (length d)); [|lia]. Qed.

Lemma fill_range_in d a b w :
  a ≤ b → b ≤ length d →
  Bitmap.fill_range d a b w = Ret (take a d ++ replicate (b - a) w ++ drop b d).
Proof.
  intros H1 H2. unfold Bitmap.fill_range.
  destruct (Nat.leb_spec a b); [|lia]. by destruct (Nat.leb_spec b (length d)); [|lia].
Qed.

Lemma fill_range_word d a b w k :
  a ≤ b → b ≤ length d →
  word (take a d ++ replicate (b - a) w ++ drop b d) k =
  if decide (a ≤ k < b) then w else word d k.
Proof.
  intros H1 H2. unfold word. case_decide as H.
  - rewrite lookup_app_r by (rewrite length_take; lia). rewrite length_take.
    rewrite lookup_app_l by (rewrite length_replicate; lia).
    by rewrite lookup_replicate_2 by lia.
  - destruct (decide (k < a)).
    + rewrite lookup_app_l by (rewrite length_take; lia). by rewrite lookup_take_lt by done.
    + rewrite lookup_app_r by (rewrite length_take; lia). rewrite length_take.
      rewrite lookup_app_r by (rewrite length_replicate; lia). rewrite length_replicate.
      rewrite lookup_drop. do 2 f_equal. lia.
Qed.

Lemma shl_ones_bits m o j :
  m + o ≤ 64 →
  Z.testbit (u64_shl (Z.shiftl 1 (Z.of_nat m) - 1) (Z.of_nat o)) (Z.of_nat j)
  = bool_decide (o ≤ j < o + m).
Proof.
  intros Hm. unfold u64_shl, wrap. rewrite ones_sub by lia. case_bool_decide.
  - rewrite Z.mod_pow2_bits_low, Z.shiftl_spec by lia. apply Z.ones_spec_low. lia.
  - destruct (decide (j < 64)).
    + rewrite Z.mod_pow2_bits_low, Z.shiftl_spec by lia. destruct (decide (j < o)).
      * apply Z.testbit_neg_r. lia.
      * apply Z.ones_spec_high. lia.
    + apply Z.mod_pow2_bits_high. lia.
Qed.

Lemma shl_max_bits o j :
  o < 64 → j < 64 →
  Z.testbit (u64_shl u64_max (Z.of_nat o)) (Z.of_nat j) = bool_decide (o ≤ j).
Proof.
  intros Ho Hj. unfold u64_shl, wrap. change u64_max with (Z.ones 64).
  rewrite Z.mod_pow2_bits_low, Z.shiftl_spec by lia. case_bool_decide.
  - apply Z.ones_spec_low. lia.
  - apply Z.testbit_neg_r. lia.
Qed.

Lemma u64_shl_is_uint x n : is_uint 64 (u64_shl x n).
Proof. apply wrap_is_uint. done. Qed.

(** The words [from_range] writes: bit [i] is set iff [start <= i < end]. *)
Definition range_words (d : list Z) (a b : nat) : Prop :=
  words_ok d ∧ ∀ i, bit_of d i = bool_decide (a ≤ i < b).

Lemma shl_ones_is_uint m : m < 64 → is_uint 64 (Z.shiftl 1 (Z.of_nat m) - 1).
Proof.
  intros Hm. unfold is_uint. rewrite Z.shiftl_1_l.
  pose proof (Z.pow_lt_mono_r 2 (Z.of_nat m) 64). lia.
Qed.

Lemma word_zeros n k : word (replicate n 0%Z) k = 0%Z.
Proof. unfold word. destruct (replicate _ _ !! k) eqn:E; [|done]. by apply lookup_replicate in E as [-> _]. Qed.

(** The words of a range up to its last one. *)
Lemma from_range_body a b n :
  a < b → b ≤ n → a `div` 64 ≠ b `div` 64 →
  ∃ z1 z2, set_at (replicate (vec_len n) 0%Z) (a `div` 64) (u64_shl u64_max (Z.of_nat (a `mod` 64))) = Ret z1 ∧
    Bitmap.fill_range z1 (a `div` 64 + 1) (b `div` 64) u64_max = Ret z2 ∧ length z2 = vec_len n ∧ words_ok z2 ∧
    (∀ i, i `div` 64 ≠ b `div` 64 → bit_of z2 i = bool_decide (a ≤ i < b)) ∧ word z2 (b `div` 64) = 0%Z.
Proof.
  intros Hab Hbn E. pose proof (vec_len_bounds n) as Hvb.
  destruct (div_mod_64 a) as [Ha Hma], (div_mod_64 b) as [Hb Hmb].
  set (qa := a `div` 64) in *. set (ra := a `mod` 64) in *.
  set (qb := b `div` 64) in *. set (rb := b `mod` 64) in *.
  set (z := replicate (vec_len n) 0%Z).
  assert (length z = vec_len n) as Lz by apply length_replicate.
  assert (words_ok z) as Wz by by apply Forall_replicate.
  rewrite set_at_in by lia. set (z1 := <[qa:=_]> z).
  assert (length z1 = vec_len n) as L1 by by unfold z1; rewrite length_insert.
  exists z1. rewrite fill_range_in by lia. set (z2 := take _ _ ++ _). exists z2. split; [done|]. split; [done|].
  assert (words_ok z1) as W1 by (apply words_ok_insert; [done|apply u64_shl_is_uint]).
  split; [unfold z2; rewrite !length_app, length_take, length_replicate, length_drop; lia|]. split.
  { unfold z2. apply Forall_app; split; [by apply Forall_take|].
    apply Forall_app; split; [by apply Forall_replicate|by apply Forall_drop]. }
  split.
  - intros i Hiq. destruct (div_mod_64 i) as [Hi Hmi]. unfold bit_of, z2.
    rewrite fill_range_word by lia. case_decide.
    { change u64_max with (Z.ones 64). rewrite Z.ones_spec_low by lia. symmetry. apply bool_decide_true. lia. }
    unfold z1. rewrite word_insert by lia. case_decide as Hq.
    + rewrite shl_max_bits by lia. apply bool_decide_ext. lia.
    + unfold z. rewrite word_zeros, Z.bits_0. symmetry. apply bool_decide_false. lia.
  - unfold z2. rewrite fill_range_word by lia. rewrite decide_False by lia.
    unfold z1. rewrite word_insert by lia. rewrite decide_False by done. apply word_zeros.
Qed.

Lemma from_range_words a b n :
  a < b → b ≤ n →
  ∃ d, (if a `div` 64 =? b `div` 64 then
          set_at (replicate (vec_len n) 0%Z) (a `div` 64)
            (u64_shl (Z.shiftl 1 (Z.of_nat (b `mod` 64 - a `mod` 64)) - 1) (Z.of_nat (a `mod` 64)))
        else
          bits ← set_at (replicate (vec_len n) 0%Z) (a `div` 64) (u64_shl u64_max (Z.of_nat (a `mod` 64)));
          bits ← Bitmap.fill_range bits (a `div` 64 + 1) (b `div` 64) u64_max;
          if negb (b `mod` 64 =? 0) then
            set_at bits (b `div` 64) (Z.shiftl 1 (Z.of_nat (b `mod` 64)) - 1)
          else Ret bits) = Ret d ∧ length d = vec_len n ∧ range_words d a b.
Proof.
  intros Hab Hbn. pose proof (vec_len_bounds n) as Hvb.
  destruct (div_mod_64 a) as [Ha Hma], (div_mod_64 b) as [Hb Hmb].
  assert (length (replicate (vec_len n) 0%Z) = vec_len n) as Lz by apply length_replicate.
  assert (words_ok (replicate (vec_len n) 0%Z)) as Wz by by apply Forall_replicate.
  destruct (Nat.eqb_spec (a `div` 64) (b `div` 64)) as [E|E].
  - rewrite set_at_in by lia. eexists; split; [done|]. rewrite length_insert. split; [done|].
    split; [apply words_ok_insert; [done|apply u64_shl_is_uint]|].
    intros i. destruct (div_mod_64 i) as [Hi Hmi]. rewrite bit_of_insert by lia.
    unfold bit_of. rewrite word_zeros, Z.bits_0.
    case_decide; [rewrite shl_ones_bits by lia; apply bool_decide_ext; lia|].
    symmetry. apply bool_decide_false. lia.
  - destruct (from_range_body a b n Hab Hbn E) as (z1 & z2 & -> & Hf & L2 & W2 & B2 & Hqb).
    cbn [mbind outcome_bind]. rewrite Hf. cbn [mbind outcome_bind].
    destruct (Nat.eqb_spec (b `mod` 64) 0) as [E0|E0]; simpl.
    + eexists; split; [done|]. split; [done|]. split; [done|]. intros i.
      destruct (decide (i `div` 64 = b `div` 64)) as [Hq|]; [|by apply B2].
      destruct (div_mod_64 i). unfold bit_of. rewrite Hq, Hqb, Z.bits_0.
      symmetry. apply bool_decide_false. lia.
    + rewrite set_at_in by lia. eexists; split; [done|]. rewrite length_insert. split; [done|].
      split; [apply words_ok_insert; [done|by apply shl_ones_is_uint]|]. intros i.
      destruct (div_mod_64 i) as [Hi Hmi]. rewrite bit_of_insert by lia.
      case_decide; [|by apply B2]. rewrite ones_sub by lia.
      destruct (decide (i `mod` 64 < b `mod` 64)).
      * rewrite Z.ones_spec_low by lia. symmetry. apply bool_decide_true. lia.
      * rewrite Z.ones_spec_high by lia. symmetry. apply bool_decide_false. lia.
Qed.

Definition range_bools (n a b : nat) : list bool :=
  replicate a false ++ replicate (b - a) true ++ replicate (n - b) false.

Lemma lookup_range_bools n a b i :
  a ≤ b → b ≤ n → i < n → range_bools n a b !! i = Some (bool_decide (a ≤ i < b)).
Proof.
  intros. unfold range_bools. destruct (decide (i < a)).
  { rewrite lookup_app_l, lookup_replicate_2, bool_decide_false; rewrite ?length_replicate; done || lia. }
  rewrite lookup_app_r, length_replicate by (rewrite length_replicate; lia). destruct (decide (i < b)).
  { rewrite lookup_app_l, lookup_replicate_2, bool_decide_true; rewrite ?length_replicate; done || lia. }
  rewrite lookup_app_r, length_replicate by (rewrite length_replicate; lia).
  rewrite lookup_replicate_2, bool_decide_false by lia. done.
Qed.

Lemma length_range_bools n a b : a ≤ b → b ≤ n → length (range_bools n a b) = n.
Proof. intros. unfold range_bools. rewrite !length_app, !length_replicate. lia. Qed.

Lemma range_words_ok n a b d :
  a < b → b ≤ n → ¬ (a = 0 ∧ b = n) → length d = vec_len n → range_words d a b →
  bitmap_ok (Bitmap.mk n (b - a) (Some d)) ∧ view (Bitmap.mk n (b - a) (Some d)) = range_bools n a b.
Proof.
  intros Hab Hbn Hpart Ld [Wd Bd].
  assert (bits_list n d = range_bools n a b) as Hv.
  { apply bits_list_eq; [apply length_range_bools; lia|]. intros i Hi.
    rewrite Bd. apply lookup_range_bools; lia. }
  unfold bitmap_ok, view; simpl. split; [|done]. split.
  - apply data_ok_intro; [done..|]. intros i Hi. rewrite Bd. apply bool_decide_false. lia.
  - rewrite Hv. unfold range_bools. rewrite !count_true_app, !count_true_replicate. lia.
Qed.

Lemma from_range_ok n a b :
  a ≤ b → b ≤ n →
  ∃ c, Bitmap.from_range n a b = Ret c ∧ bitmap_ok c ∧ view c = range_bools n a b.
Proof.
  intros Hab Hbn. unfold Bitmap.from_range. bits64.
  destruct (Nat.leb_spec a b); [|lia]. destruct (Nat.leb_spec b n); [|lia]. simpl.
  destruct (Nat.eqb_spec a b) as [->|Hne].
  { eexists; split; [done|]. split; [apply zeros_ok|]. unfold range_bools.
    rewrite Nat.sub_diag. simpl. rewrite <-replicate_add.
    replace (b + (n - b)) with n by lia. apply zeros_ok. }
  destruct (decide (a = 0 ∧ b = n)) as [[-> ->]|Hpart].
  { rewrite !Nat.eqb_refl. eexists; split; [done|]. split; [apply ones_ok|]. unfold range_bools.
    rewrite Nat.sub_diag, Nat.sub_0_r, app_nil_r. apply ones_ok. }
  assert ((a =? 0) && (b =? n) = false) as ->.
  { apply andb_false_iff. destruct (Nat.eqb_spec a 0), (Nat.eqb_spec b n); auto; lia. }
  destruct (from_range_words a b n) as (d & -> & Ld & Hd); [lia..|]. simpl.
  eexists; split; [done|]. apply range_words_ok; [lia|done..].
Qed.

(** ** Conversion from booleans *)

Lemma bitmask_snoc l x :
  Bitmap.bitmask (l ++ [x]) =
  Z.lor (Bitmap.bitmask l) (Z.shiftl (Z.b2z x) (Z.of_nat (length l))).
Proof.
  unfold Bitmap.bitmask. rewrite imap_app, foldl_app. simpl. by rewrite Nat.add_0_r.
Qed.

Lemma bitmask_bits l j : Z.testbit (Bitmap.bitmask l) (Z.of_nat j) = default false (l !! j).
Proof.
  induction l as [|x l IH] using rev_ind; [apply Z.bits_0|].
  rewrite bitmask_snoc, Z.lor_spec, IH, Z.shiftl_spec by lia.
  destruct (decide (j < length l)).
  - rewrite lookup_app_l, (Z.testbit_neg_r _ (_ - _)), orb_false_r by lia. done.
  - rewrite (lookup_ge_None_2 l) by lia. rewrite lookup_app_r by lia. simpl.
    destruct (decide (j = length l)) as [->|].
    + rewrite Z.sub_diag, Nat.sub_diag. by destruct x.
    + rewrite (lookup_ge_None_2 [x]) by (simpl; lia). destruct x; simpl; [|apply Z.bits_0].
      rewrite Z.bits_above_log2; [done|lia|simpl; lia].
Qed.

Lemma bitmask_nonneg l : (0 ≤ Bitmap.bitmask l)%Z.
Proof.
  induction l as [|x l IH] using rev_ind; [done|]. rewrite bitmask_snoc.
  apply Z.lor_nonneg. split; [done|]. apply Z.shiftl_nonneg. by destruct x.
Qed.

Lemma bitmask_is_uint l : length l ≤ 64 → is_uint 64 (Bitmap.bitmask l).
Proof.
  intros Hl. apply is_uint_bits; [done|]. split; [apply bitmask_nonneg|]. intros n Hn.
  replace n with (Z.of_nat (Z.to_nat n)) by lia. rewrite bitmask_bits.
  by rewrite lookup_ge_None_2 by lia.
Qed.

(** All words in one formula: word [k] holds booleans [64 k .. 64 k + 63]. *)
Definition bool_words (l : list bool) : list Z :=
  (λ k, Bitmap.bitmask (take 64 (drop (k * 64) l))) <$> seq 0 (vec_len (length l)).

Lemma from_bool_slice_words l :
  Bitmap.from_bool_slice l = Bitmap.from_vec_with_len (bool_words l) (length l).
Proof.
  unfold Bitmap.from_bool_slice, bool_words. bits64. f_equal.
  destruct (div_mod_64 (length l)) as [Hl Hm]. set (q := length l `div` 64) in *.
  destruct (drop (q * 64) l) as [|x r] eqn:E.
  - apply (f_equal length) in E. rewrite length_drop in E. simpl in E.
    by rewrite (vec_len_unique _ q) by lia.
  - assert (length (drop (q * 64) l) = S (length r)) as Hr by by rewrite E.
    rewrite length_drop in Hr. rewrite (vec_len_unique _ (q + 1)), seq_app, fmap_app by lia.
    simpl. do 3 f_equal. rewrite E. symmetry. apply take_ge. simpl. lia.
Qed.

Lemma bool_words_ok l :
  data_ok (length l) (bool_words l) ∧ bits_list (length l) (bool_words l) = l.
Proof.
  pose proof (vec_len_bounds (length l)).
  assert (length (bool_words l) = vec_len (length l)) as Lw.
  { unfold bool_words. by rewrite length_fmap, length_seq. }
  assert (∀ i, bit_of (bool_words l) i = default false (l !! i)) as Bw.
  { intros i. destruct (decide (i < 64 * vec_len (length l))) as [Hi|Hi].
    - destruct (div_mod_64 i) as [Hi' Hm]. unfold bit_of, word, bool_words.
      rewrite list_lookup_fmap, lookup_seq_lt by (by apply div_64_lt). simpl.
      rewrite bitmask_bits, lookup_take_lt, lookup_drop by done. do 2 f_equal. lia.
    - rewrite bit_of_beyond by lia. by rewrite lookup_ge_None_2 by lia. }
  split.
  - apply data_ok_intro; [|done|].
    + apply Forall_fmap, Forall_forall. intros k _. apply bitmask_is_uint.
      rewrite length_take. lia.
    + intros i Hi. rewrite Bw. by rewrite lookup_ge_None_2.
  - apply bits_list_eq; [done|]. intros i Hi. rewrite Bw.
    by destruct (lookup_lt_is_Some_2 l i Hi) as [x ->].
Qed.

Lemma from_bool_slice_ok l :
  bitmap_ok (Bitmap.from_bool_slice l) ∧ view (Bitmap.from_bool_slice l) = l.
Proof.
  rewrite from_bool_slice_words. destruct (bool_words_ok l) as [Hd Hv].
  destruct (from_vec_ok _ _ Hd) as [H1 H2]. split; [done|congruence].
Qed.

(** The constructors of [Bitmap] build valid bitmaps with the documented bits:
    [from_range(n, a..b)] sets exactly the bits [a <= i < b] (and does not panic for
    [a <= b <= n]), [from_bool_slice] keeps the slice, and a [Bitmap] is determined by its
    bits: valid bitmaps with the same bits are equal field by field. *)
Theorem bitmap_constructors_correct (n a b : nat) (l : list bool) :
  a ≤ b → b ≤ n →
  (∃ c, Bitmap.from_range n a b = Ret c ∧ bitmap_ok c ∧ Bitmap.count_ones c = b - a ∧
        view c = replicate a false ++ replicate (b - a) true ++ replicate (n - b) false) ∧
  bitmap_ok (Bitmap.from_bool_slice l) ∧ view (Bitmap.from_bool_slice l) = l ∧
  (∀ c, bitmap_ok c → view c = l → c = Bitmap.from_bool_slice l).
Proof.
  intros Hab Hbn. destruct (from_bool_slice_ok l) as [Hok Hv]. split; [|split_and!; [done..|]].
  - destruct (from_range_ok n a b Hab Hbn) as (c & Hc & Hokc & Hvc). exists c.
    split_and!; [done..| |done]. rewrite count_ones_view, Hvc by done. unfold range_bools.
    rewrite !count_true_app, !count_true_replicate. lia.
  - intros c Hc Hvc. apply bitmap_canonical; [done..|congruence].
Qed.

Lemma bitmap_constructors_correct_witness :
  ∃ c, Bitmap.from_range 200 100 180 = Ret c ∧ Bitmap.count_ones c = 80.
Proof.
  destruct (bitmap_constructors_correct 200 100 180 [true] ltac:(lia) ltac:(lia))
    as ((c & Hc & _ & Hn & _) & _).
  exists c. split; [exact Hc|exact Hn].
Defined.
