(* ===== verification/BitmapIterSpec.v ===== *)
(** * Iterating over bitmaps and their protobuf form

    [iter], [iter_ones], [high_ranges], [next_set_bit] and the [PbBuffer] conversions of
    [src/common/src/bitmap.rs]. *)

From Stdlib Require Import ZArith Lia.
From S2P Require Import Prelude Order Bytes Epoch Bits Bitmap BitmapSpec BitmapAlgebra.

(** Reference: the indices of the set bits, in order. *)
Fixpoint ones_at (i : nat) (l : list bool) : list nat :=
  match l with
  | [] => []
  | b :: l' => (if b then [i] else []) ++ ones_at (S i) l'
  end.

Lemma ones_at_app i l1 l2 : ones_at i (l1 ++ l2) = ones_at i l1 ++ ones_at (i + length l1) l2.
Proof.
  revert i; induction l1 as [|x l1 IH]; intros i; simpl; [by rewrite Nat.add_0_r|].
  rewrite IH, <-app_assoc. do 3 f_equal. lia.
Qed.

Lemma ones_at_replicate_false i n : ones_at i (replicate n false) = [].
Proof. revert i; induction n as [|n IH]; intros i; [done|apply IH]. Qed.

Lemma ones_at_replicate_true i n : ones_at i (replicate n true) = seq i n.
Proof. revert i; induction n as [|n IH]; intros i; simpl; [done|]. by rewrite IH. Qed.

Lemma elem_of_ones_at i l k : k ∈ ones_at i l ↔ i ≤ k ∧ l !! (k - i) = Some true.
Proof.
  revert i; induction l as [|b l IH]; intros i; simpl.
  { rewrite elem_of_nil. naive_solver. }
  rewrite elem_of_app, IH. destruct (decide (k = i)) as [->|Hne].
  - rewrite Nat.sub_diag. simpl. destruct b; [rewrite list_elem_of_singleton|rewrite elem_of_nil]; naive_solver lia.
  - assert (k ∈ (if b then [i] else []) ↔ False) as ->.
    { destruct b; [rewrite list_elem_of_singleton|rewrite elem_of_nil]; naive_solver. }
    destruct (decide (i < k)).
    + replace (k - i) with (S (k - S i)) by lia. simpl. naive_solver lia.
    + split; [naive_solver lia|]. intros [? _]. lia.
Qed.

Lemma NoDup_ones_at i l : NoDup (ones_at i l).
Proof.
  revert i; induction l as [|b l IH]; intros i; simpl; [constructor|].
  destruct b; [|apply IH]. constructor; [|apply IH]. rewrite elem_of_ones_at. lia.
Qed.

Lemma length_ones_at i l : length (ones_at i l) = count_true l.
Proof.
  revert i; induction l as [|b l IH]; intros i; [done|].
  rewrite count_true_cons. simpl. rewrite length_app, IH. by destruct b.
Qed.

(** ** The lowest set bit of a word *)

Lemma trailing_zeros_from_ok n i w :
  (∃ j, i ≤ j < i + n ∧ Z.testbit w (Z.of_nat j) = true) →
  let t := BitmapOnesIter.trailing_zeros_from n i w in
  i ≤ t < i + n ∧ Z.testbit w (Z.of_nat t) = true ∧
  ∀ j, i ≤ j < t → Z.testbit w (Z.of_nat j) = false.
Proof.
  revert i; induction n as [|n IH]; intros i (j & Hj & Hw); [lia|]. simpl.
  destruct (Z.testbit w (Z.of_nat i)) eqn:E; [split_and!; [lia..|done|lia]|].
  destruct (IH (S i)) as (H1 & H2 & H3).
  { exists j. split; [|done]. destruct (decide (j = i)); [congruence|lia]. }
  split_and!; [lia..|done|]. intros k Hk. destruct (decide (k = i)) as [->|]; [done|].
  apply H3. lia.
Qed.

Lemma trailing_zeros_ok w :
  is_uint 64 w → w ≠ 0%Z →
  let t := BitmapOnesIter.trailing_zeros w in
  t < 64 ∧ Z.testbit w (Z.of_nat t) = true ∧ ∀ j, j < t → Z.testbit w (Z.of_nat j) = false.
Proof.
  intros Uw Hw. destruct (trailing_zeros_from_ok 64 0 w) as (H1 & H2 & H3).
  { pose proof Uw as [H0 _]. exists (Z.to_nat (Z.log2 w)).
    assert (0 < w)%Z as Hpos by lia. pose proof (Z.log2_nonneg w).
    assert (Z.log2 w < 64)%Z by (apply Z.log2_lt_pow2; [done|apply Uw]).
    split; [lia|]. rewrite Z2Nat.id by done. by apply Z.bit_log2. }
  unfold BitmapOnesIter.trailing_zeros. split_and!; [apply H1|exact H2|].
  intros j Hj. apply H3. split; [lia|exact Hj].
Qed.

(** [bits & bits.wrapping_neg()] isolates the lowest set bit. *)
Lemma low_bit_pow2 w t :
  is_uint 64 w → (0 ≤ t < 64)%Z → Z.testbit w t = true →
  (∀ j, (0 ≤ j < t)%Z → Z.testbit w j = false) →
  Z.land w (wrap 64 (- w)) = (2 ^ t)%Z.
Proof.
  intros Uw Ht Hbit Hlow.
  assert (w mod 2 ^ (t + 1) = 2 ^ t)%Z as Hmod.
  { apply Z.bits_inj'. intros n Hn. rewrite Z.pow2_bits_eqb by lia.
    destruct (decide (n < t + 1)%Z).
    - rewrite Z.mod_pow2_bits_low by lia. destruct (Z.eqb_spec t n) as [->|]; [done|].
      apply Hlow. lia.
    - rewrite Z.mod_pow2_bits_high by lia. symmetry. apply Z.eqb_neq. lia. }
  assert (0 < 2 ^ t)%Z as Hpt by (apply Z.pow_pos_nonneg; lia).
  assert (2 ^ (t + 1) = 2 * 2 ^ t)%Z as Hp1 by (rewrite Z.pow_add_r; lia).
  pose proof (Z.div_mod w (2 ^ (t + 1)) ltac:(lia)) as Hdm. rewrite Hmod in Hdm.
  assert ((w - 1) / 2 ^ (t + 1) = w / 2 ^ (t + 1))%Z as Hq.
  { symmetry. apply (Z.div_unique_pos _ _ _ (2 ^ t - 1)); lia. }
  assert ((w - 1) mod 2 ^ (t + 1) = 2 ^ t - 1)%Z as Hr.
  { symmetry. apply (Z.mod_unique_pos _ _ (w / 2 ^ (t + 1))); lia. }
  apply Z.bits_inj'. intros n Hn. rewrite Z.land_spec, Z.pow2_bits_eqb by lia.
  destruct (decide (64 <= n)%Z).
  { apply is_uint_bits in Uw as [_ ->]; [|done..]. symmetry. apply Z.eqb_neq. lia. }
  unfold wrap. rewrite Z.mod_pow2_bits_low by lia.
  replace (- w)%Z with (Z.lnot (w - 1)) by (unfold Z.lnot; lia). rewrite Z.lnot_spec by done.
  destruct (Z.eqb_spec t n) as [->|Hne].
  - rewrite Hbit. simpl. rewrite <-(Z.mod_pow2_bits_low _ (n + 1)), Hr by lia.
    replace (2 ^ n - 1)%Z with (Z.ones n) by (rewrite Z.ones_equiv; lia).
    by rewrite Z.ones_spec_high by lia.
  - destruct (decide (n < t)%Z); [by rewrite Hlow|].
    replace n with ((n - (t + 1)) + (t + 1))%Z by lia.
    rewrite <-!Z.shiftr_spec, !Z.shiftr_div_pow2, Hq by lia.
    apply andb_negb_r.
Qed.

(** ** [iter_ones] *)

Definition wbits (w : Z) : list bool := (λ j, Z.testbit w (Z.of_nat j)) <$> seq 0 64.
Arguments wbits : simpl never.

Lemma length_wbits w : length (wbits w) = 64.
Proof. done. Qed.

Lemma wbits_split w t :
  t < 64 → (∀ j, j < t → Z.testbit w (Z.of_nat j) = false) →
  wbits w = replicate t false ++ Z.testbit w (Z.of_nat t) ::
            ((λ j, Z.testbit w (Z.of_nat j)) <$> seq (S t) (63 - t)).
Proof.
  intros Ht Hlow. unfold wbits. replace 64 with (t + S (63 - t)) by lia.
  rewrite seq_app, fmap_app. simpl. f_equal.
  apply (list_eq_same_length _ _ t); [by rewrite length_replicate|by rewrite length_fmap, length_seq|].
  intros j x y Hj. rewrite list_lookup_fmap, lookup_seq_lt, lookup_replicate_2 by done. simpl.
  intros [= <-] [= <-]. by apply Hlow.
Qed.

Lemma take_low_bit base w :
  is_uint 64 w → w ≠ 0%Z →
  let w' := Z.lxor w (Z.land w (wrap 64 (- w))) in
  is_uint 64 w' ∧
  ones_at base (wbits w) = (base + BitmapOnesIter.trailing_zeros w) :: ones_at base (wbits w').
Proof.
  intros Uw Hw. destruct (trailing_zeros_ok w Uw Hw) as (Ht & Hbit & Hlow).
  set (t := BitmapOnesIter.trailing_zeros w) in *.
  rewrite (low_bit_pow2 w (Z.of_nat t)); [|done|lia|done|].
  2: { intros j Hj. replace j with (Z.of_nat (Z.to_nat j)) by lia. apply Hlow. lia. }
  cbv zeta. assert (is_uint 64 (2 ^ Z.of_nat t)) by (apply is_uint_pow2; lia).
  split; [by apply is_uint_lxor|].
  assert (∀ j, Z.testbit (Z.lxor w (2 ^ Z.of_nat t)) (Z.of_nat j) =
               xorb (Z.testbit w (Z.of_nat j)) (bool_decide (j = t))) as Hx.
  { intros j. rewrite Z.lxor_spec, Z.pow2_bits_eqb by lia. f_equal.
    case_bool_decide; [apply Z.eqb_eq|apply Z.eqb_neq]; lia. }
  rewrite (wbits_split w t Ht Hlow), (wbits_split (Z.lxor _ _) t Ht).
  2: { intros j Hj. rewrite Hx, Hlow by done. by rewrite bool_decide_false by lia. }
  rewrite Hx, Hbit, bool_decide_true by done. rewrite !ones_at_app, !ones_at_replicate_false.
  rewrite length_replicate. simpl. do 2 f_equal.
  apply list_fmap_ext. intros _ j Hj%list_elem_of_lookup_2%elem_of_seq. rewrite Hx.
  rewrite bool_decide_false by lia. by rewrite xorb_false_r.
Qed.

Lemma wbits_zero base : ones_at base (wbits 0) = [].
Proof. done. Qed.

(** What is still to be produced when word [k] has been reduced to [cur]. *)
Definition rest_ones (d : list Z) (k : nat) : list nat :=
  ones_at (64 * k) (bits_list (64 * (length d - k)) (drop k d)).

Definition remaining (d : list Z) (k : nat) (cur : option Z) : list nat :=
  match cur with
  | None => []
  | Some w => ones_at (64 * k) (wbits w) ++ rest_ones d (k + 1)
  end.

Lemma rest_ones_unfold d k :
  rest_ones d k = remaining d k (d !! k).
Proof.
  unfold rest_ones, remaining. destruct (d !! k) as [w|] eqn:E.
  - rewrite (drop_S _ _ _ E). apply lookup_lt_Some in E.
    replace (64 * (length d - k)) with (64 + 64 * (length d - (k + 1))) by lia.
    rewrite bits_list_cons, ones_at_app. fold (wbits w). rewrite length_wbits.
    replace (64 * k + 64) with (64 * (k + 1)) by lia. by replace (S k) with (k + 1) by lia.
  - apply lookup_ge_None in E. by replace (length d - k) with 0 by lia.
Qed.

Definition cursor_ok (d : list Z) (k : nat) (cur : option Z) : Prop :=
  match cur with Some w => k < length d ∧ is_uint 64 w | None => True end.

Lemma skip_zero_ok d fuel k cur :
  words_ok d → cursor_ok d k cur → length d - k < fuel →
  ∃ k' cur', BitmapOnesIter.skip_zero fuel d k cur = (k', cur') ∧
    remaining d k' cur' = remaining d k cur ∧ cursor_ok d k' cur' ∧ cur' ≠ Some 0%Z.
Proof.
  intros Wd. revert k cur; induction fuel as [|fuel IH]; intros k cur Hc Hf; [lia|].
  simpl. destruct cur as [w|]; [|by exists k, None].
  destruct (decide (w = 0%Z)) as [->|Hw].
  - destruct Hc as [Hk _].
    assert ((if length d <=? k + 1 then None else d !! (k + 1)) = d !! (k + 1)) as ->.
    { destruct (Nat.leb_spec (length d) (k + 1)); [|done]. by rewrite lookup_ge_None_2. }
    destruct (IH (k + 1) (d !! (k + 1))) as (k' & cur' & Hrun & Hrem & Hok & Hne).
    + destruct (d !! (k + 1)) eqn:E; simpl; [|done]. split; [by eapply lookup_lt_Some|].
      by eapply Forall_lookup_1 in Wd.
    + lia.
    + exists k', cur'. split_and!; try done. rewrite Hrem, <-rest_ones_unfold. cbn [remaining].
      by rewrite wbits_zero.
  - exists k, (Some w). split_and!; try done; [by destruct w|congruence].
Qed.

Lemma ones_buffer_collect d fuel k cur :
  words_ok d → cursor_ok d k cur → length (remaining d k cur) < fuel →
  BitmapOnesIter.collect fuel (BitmapOnesIter.Buffer d k cur) = remaining d k cur.
Proof.
  intros Wd. revert k cur; induction fuel as [|fuel IH]; intros k cur Hc Hf; [lia|].
  cbn [BitmapOnesIter.collect BitmapOnesIter.next].
  destruct (skip_zero_ok d (S (length d)) k cur Wd Hc) as (k' & cur' & -> & Hrem & Hok & Hne); [lia|].
  rewrite <-Hrem in *. destruct cur' as [w|]; [|done].
  destruct Hok as [Hk Uw]. destruct (take_low_bit (64 * k') w Uw) as [Uw' Hones]; [congruence|].
  cbn [remaining] in *. rewrite Hones in *. cbn [app length] in *.
  rewrite IH; [|by split|cbn [remaining]; lia].
  cbn [remaining]. f_equal. unfold BITS. lia.
Qed.

Lemma ones_range_collect fuel s e :
  e - s < fuel → BitmapOnesIter.collect fuel (BitmapOnesIter.Range s e) = seq s (e - s).
Proof.
  revert s; induction fuel as [|fuel IH]; intros s Hf; [lia|]. simpl.
  destruct (Nat.leb_spec e s).
  - by replace (e - s) with 0 by lia.
  - rewrite IH by lia. replace (e - s) with (S (e - (s + 1))) by lia. simpl.
    by replace (S s) with (s + 1) by lia.
Qed.

Lemma iter_ones_ok b : bitmap_ok b → BitmapOnesIter.iter_ones_all b = ones_at 0 (view b).
Proof.
  intros Hb. unfold BitmapOnesIter.iter_ones_all, BitmapOnesIter.iter_ones.
  destruct (Bitmap.bits b) as [d|] eqn:E.
  - unfold bitmap_ok, view in *. rewrite E in *. destruct Hb as ((Wd & Ld & Pd) & _ & Hlt).
    assert (remaining d 0 (head d) = ones_at 0 (bits_list (Bitmap.num_bits b) d)) as Hrem.
    { rewrite head_lookup, <-rest_ones_unfold. unfold rest_ones. rewrite drop_0, Nat.sub_0_r.
      pose proof (vec_len_bounds (Bitmap.num_bits b)).
      rewrite (bits_list_padding (Bitmap.num_bits b)) by (done || lia).
      by rewrite ones_at_app, ones_at_replicate_false, app_nil_r. }
    rewrite ones_buffer_collect; [done|done| |].
    + destruct d as [|w d]; simpl; [done|]. split; [lia|]. by inversion Wd.
    + rewrite Hrem, length_ones_at. pose proof (count_true_le (bits_list (Bitmap.num_bits b) d)) as H.
      rewrite length_bits_list in H. lia.
  - unfold bitmap_ok, view, Bitmap.any in *. rewrite E in *.
    rewrite ones_range_collect, Nat.sub_0_r by lia.
    destruct Hb as [-> | ->]; [by rewrite ones_at_replicate_false|].
    destruct (Nat.eqb_spec (Bitmap.num_bits b) 0) as [->|_]; [done|].
    by rewrite ones_at_replicate_true.
Qed.

(** ** [high_ranges] *)

(** The indices of a list of inclusive ranges. *)
Definition range_members (rs : list (nat * nat)) : list nat :=
  mjoin ((λ r, seq r.1 (S r.2 - r.1)) <$> rs).

Lemma range_members_cons s e rs :
  range_members ((s, e) :: rs) = seq s (S e - s) ++ range_members rs.
Proof. done. Qed.

(** Non-empty ranges from [lo] on, no two of them adjacent. *)
Fixpoint separated (lo : nat) (rs : list (nat * nat)) : Prop :=
  match rs with
  | [] => True
  | (s, e) :: rs' => lo ≤ s ≤ e ∧ separated (e + 2) rs'
  end.

Lemma separated_weaken lo lo' rs : lo ≤ lo' → separated lo' rs → separated lo rs.
Proof. destruct rs as [|[s e] rs]; simpl; intuition lia. Qed.

Lemma high_ranges_go_ok i start l :
  match start with Some s => s < i | None => True end →
  let rs := HighRanges.go i start (l ++ [false]) in
  let lo := default i start in
  range_members rs = seq lo (i - lo) ++ ones_at i l ∧ separated lo rs.
Proof.
  revert i start; induction l as [|b l IH]; intros i start Hs.
  - destruct start as [s|]; simpl; unfold range_members; simpl.
    + rewrite !app_nil_r. split; [f_equal; lia|lia].
    + by rewrite Nat.sub_diag.
  - destruct b, start as [s|]; simpl in *.
    + destruct (IH (i + 1) (Some s)) as [-> H]; [simpl; lia|]. simpl in *. split; [|done].
      replace (i + 1 - s) with ((i - s) + 1) by lia. rewrite seq_app, <-app_assoc. simpl.
      replace (s + (i - s)) with i by lia. by replace (i + 1) with (S i) by lia.
    + destruct (IH (i + 1) (Some i)) as [-> H]; [simpl; lia|]. simpl in *. split; [|done].
      rewrite Nat.sub_diag. replace (i + 1 - i) with 1 by lia. simpl.
      by replace (i + 1) with (S i) by lia.
    + destruct (IH (i + 1) None) as [Hm H]; [done|]. simpl in *. split.
      * rewrite range_members_cons, Hm, Nat.sub_diag.
        replace (S (i - 1) - s) with (i - s) by lia. by replace (i + 1) with (S i) by lia.
      * split; [lia|]. eapply separated_weaken; [|exact H]. lia.
    + destruct (IH (i + 1) None) as [-> H]; [done|]. simpl in *. rewrite !Nat.sub_diag. split.
      * by replace (i + 1) with (S i) by lia.
      * eapply separated_weaken; [|exact H]. lia.
Qed.

Lemma high_ranges_ok b :
  bitmap_ok b →
  range_members (HighRanges.high_ranges b) = ones_at 0 (view b) ∧
  separated 0 (HighRanges.high_ranges b).
Proof.
  intros Hb. unfold HighRanges.high_ranges. rewrite iter_all_ok by done.
  apply (high_ranges_go_ok 0 None). done.
Qed.

(** ** [next_set_bit] *)

Lemma next_set_bit_ok b i r :
  Bitmap.next_set_bit b i = Some r ↔
  i ≤ r ∧ view b !! r = Some true ∧ ∀ j, i ≤ j < r → view b !! j = Some false.
Proof.
  unfold Bitmap.next_set_bit, Bitmap.len. split.
  - intros ([k x] & (Hk & Ht & Hmin)%list_find_Some & Hx)%fmap_Some. simpl in Hx. subst x.
    apply lookup_seq in Hk as [-> Hk].
    split_and!; [lia| |].
    + rewrite lookup_view by lia. by rewrite Ht.
    + intros j Hj. rewrite lookup_view by lia. f_equal.
      apply not_true_is_false. apply (Hmin (j - i)); [|lia].
      apply lookup_seq. lia.
  - intros (Hi & Hr & Hmin). pose proof (lookup_lt_Some _ _ _ Hr) as Hlt.
    rewrite length_view in Hlt. apply fmap_Some. exists (r - i, r). split; [|done].
    rewrite lookup_view in Hr by done. injection Hr as Hr.
    apply list_find_Some. split_and!; [apply lookup_seq; lia|done|].
    intros j y [-> Hj]%lookup_seq Hlt' Ht. specialize (Hmin (i + j) ltac:(lia)).
    rewrite lookup_view in Hmin by lia. congruence.
Qed.

(** The iterators of a bitmap enumerate its set bits.  For every bitmap satisfying its
    invariant, [iter_ones] (which walks the words, isolating the lowest set bit of each)
    produces exactly the indices of the set bits in increasing order; [high_ranges] covers
    the same indices with non-empty, pairwise non-adjacent inclusive ranges; and
    [next_set_bit i] is the least set index that is at least [i], [None] when there is none. *)
Theorem bitmap_iterators_enumerate_ones b :
  bitmap_ok b →
  BitmapOnesIter.iter_ones_all b = ones_at 0 (view b) ∧
  range_members (HighRanges.high_ranges b) = ones_at 0 (view b) ∧
  separated 0 (HighRanges.high_ranges b) ∧
  ∀ i r, Bitmap.next_set_bit b i = Some r ↔
    i ≤ r ∧ view b !! r = Some true ∧ ∀ j, i ≤ j < r → view b !! j = Some false.
Proof.
  intros Hb. destruct (high_ranges_ok b Hb). split_and!; [by apply iter_ones_ok|done..|].
  intros i r. apply next_set_bit_ok.
Qed.

Lemma bitmap_iterators_enumerate_ones_witness :
  let b := Bitmap.from_bool_slice [true; true; false; true] in
  BitmapOnesIter.iter_ones_all b = [0; 1; 3] ∧
  HighRanges.high_ranges b = [(0, 1); (3, 3)] ∧ Bitmap.next_set_bit b 2 = Some 3.
Proof.
  destruct (bitmap_iterators_enumerate_ones (Bitmap.from_bool_slice [true; true; false; true]))
    as (H1 & _ & _ & H4).
  { apply from_bool_slice_ok. }
  split_and!; [rewrite H1; by vm_compute|by vm_compute|].
  apply H4. split_and!; [lia|by vm_compute|].
  intros j Hj. assert (j = 2) as -> by lia. by vm_compute.
Defined.

(** ** Protobuf round trip *)

(** Bit [i] of a byte string, little endian in each byte; 0 beyond its end. *)
Definition byte_bit (bs : list byte) (i : nat) : bool :=
  Z.testbit (b2z (default Byte.x00 (bs !! (i `div` 8)))) (Z.of_nat (i `mod` 8)).

Lemma div_mod_8 i : i = 8 * (i `div` 8) + i `mod` 8 ∧ i `mod` 8 < 8.
Proof. split; [apply Nat.div_mod_eq|by apply Nat.mod_upper_bound]. Qed.

Lemma byte_bit_at bs k j :
  j < 8 → byte_bit bs (8 * k + j) = Z.testbit (b2z (default Byte.x00 (bs !! k))) (Z.of_nat j).
Proof.
  intros Hj. unfold byte_bit. pose proof (div_mod_8 (8 * k + j)).
  by replace ((8 * k + j) `div` 8) with k by lia; replace ((8 * k + j) `mod` 8) with j by lia.
Qed.

Lemma byte_bit_app_l bs bs' i : i < 8 * length bs → byte_bit (bs ++ bs') i = byte_bit bs i.
Proof.
  intros Hi. unfold byte_bit. rewrite lookup_app_l; [done|]. pose proof (div_mod_8 i). lia.
Qed.

Lemma byte_bit_app_r bs bs' i :
  byte_bit (bs ++ bs') (8 * length bs + i) = byte_bit bs' i.
Proof.
  pose proof (div_mod_8 i) as [Hi Hlt]. rewrite Hi at 1.
  replace (8 * length bs + _) with (8 * (length bs + i `div` 8) + i `mod` 8) by lia.
  rewrite byte_bit_at by done. rewrite lookup_app_r by lia.
  by replace (length bs + i `div` 8 - length bs) with (i `div` 8) by lia.
Qed.

Lemma byte_bit_beyond bs i : 8 * length bs ≤ i → byte_bit bs i = false.
Proof.
  intros Hi. unfold byte_bit. rewrite lookup_ge_None_2; [simpl; apply Z.bits_0|].
  pose proof (div_mod_8 i). lia.
Qed.

Lemma byte_bit_take m bs i :
  byte_bit (take m bs) i = if decide (i < 8 * m) then byte_bit bs i else false.
Proof.
  pose proof (div_mod_8 i). unfold byte_bit. case_decide.
  - by rewrite lookup_take_lt by lia.
  - rewrite lookup_take_ge by lia. apply Z.bits_0.
Qed.

Lemma byte_bit_drop m bs i : byte_bit (drop m bs) i = byte_bit bs (8 * m + i).
Proof.
  pose proof (div_mod_8 i) as [Hi Hlt]. rewrite Hi at 2.
  replace (8 * m + _) with (8 * (m + i `div` 8) + i `mod` 8) by lia.
  rewrite byte_bit_at by done. by rewrite <-lookup_drop.
Qed.

Lemma testbit_byte_cons b v i :
  (0 ≤ v)%Z → (0 ≤ i)%Z →
  Z.testbit (b2z b + 256 * v) i = if decide (i < 8)%Z then Z.testbit (b2z b) i else Z.testbit v (i - 8).
Proof.
  intros Hv Hi. pose proof (b2z_range b).
  change 256%Z with (2 ^ 8)%Z in *. case_decide.
  - rewrite <-(Z.mod_pow2_bits_low (_ + _) 8) by lia.
    rewrite Z.mul_comm, Z.mod_add by lia. by rewrite Z.mod_pow2_bits_low by lia.
  - replace i with (i - 8 + 8)%Z at 1 by lia. rewrite <-Z.shiftr_spec, Z.shiftr_div_pow2 by lia.
    rewrite Z.mul_comm, Z.div_add, Z.div_small by lia. by rewrite Z.add_0_l.
Qed.

Lemma testbit_le_val bs i : Z.testbit (le_val bs) (Z.of_nat i) = byte_bit bs i.
Proof.
  revert i; induction bs as [|b bs IH]; intros i; cbn [le_val].
  { rewrite byte_bit_beyond by (simpl; lia). apply Z.bits_0. }
  rewrite testbit_byte_cons by (apply le_val_range || lia).
  pose proof (div_mod_8 i). case_decide.
  - replace i with (8 * 0 + i) at 2 by lia. by rewrite byte_bit_at by lia.
  - replace (Z.of_nat i - 8)%Z with (Z.of_nat (i - 8)) by lia. rewrite IH.
    replace i with (8 * length [b] + (i - 8)) at 2 by (simpl; lia).
    by rewrite <-(byte_bit_app_r [b] bs).
Qed.

Lemma bytes_of_words_cons w d :
  BitmapPb.bytes_of_words (w :: d) = le_bytes 8 w ++ BitmapPb.bytes_of_words d.
Proof. done. Qed.

Lemma length_bytes_of_words d : length (BitmapPb.bytes_of_words d) = 8 * length d.
Proof.
  induction d as [|w d IH]; [done|].
  rewrite bytes_of_words_cons, length_app, IH, length_le_bytes. simpl. lia.
Qed.

Lemma byte_bit_words d i : words_ok d → byte_bit (BitmapPb.bytes_of_words d) i = bit_of d i.
Proof.
  intros Wd. revert i; induction Wd as [|w d Uw Wd IH]; intros i.
  { rewrite byte_bit_beyond by (simpl; lia). by rewrite bit_of_beyond by (simpl; lia). }
  rewrite bytes_of_words_cons.
  assert (length (le_bytes 8 w) = 8) as Hlen by apply length_le_bytes.
  assert (le_val (le_bytes 8 w) = w) as Hval.
  { rewrite le_val_bytes. apply Z.mod_small. exact Uw. }
  destruct (decide (i < 64)).
  - rewrite byte_bit_app_l by lia. rewrite <-testbit_le_val, Hval.
    change (w :: d) with ([w] ++ d). rewrite bit_of_app_l by (simpl; lia).
    replace i with (64 * 0 + i) at 2 by lia. by rewrite bit_of_word by lia.
  - replace i with (8 * length (le_bytes 8 w) + (i - 64)) at 1 by lia.
    rewrite byte_bit_app_r, IH. replace i with (64 * length [w] + (i - 64)) at 2 by (simpl; lia).
    symmetry. apply (bit_of_app_r [w] d).
Qed.

Lemma words_of_bytes_ok n buf : words_ok (BitmapPb.words_of_bytes n buf).
Proof.
  apply Forall_fmap, Forall_true. intros k. pose proof (le_val_range (take 8 (drop (8 * k) buf))).
  rewrite length_take in *. split; [lia|]. eapply Z.lt_le_trans; [apply H|].
  change (2 ^ 64)%Z with (256 ^ 8)%Z. apply Z.pow_le_mono_r; lia.
Qed.

Lemma bit_of_words_of_bytes n buf i :
  bit_of (BitmapPb.words_of_bytes n buf) i = if decide (i < 64 * n) then byte_bit buf i else false.
Proof.
  assert (length (BitmapPb.words_of_bytes n buf) = n) as Hlen.
  { unfold BitmapPb.words_of_bytes. by rewrite length_fmap, length_seq. }
  case_decide; [|apply bit_of_beyond; lia].
  pose proof (div_mod_64 i) as [Hi Hm]. assert (i `div` 64 < n) as Hk by lia.
  unfold bit_of, word, BitmapPb.words_of_bytes.
  rewrite list_lookup_fmap, lookup_seq_lt by done. simpl default.
  rewrite testbit_le_val, byte_bit_take, decide_True, byte_bit_drop by lia.
  f_equal. lia.
Qed.

(** [Bitmap::from_bytes_with_len] reads the first [n] bits of the buffer. *)
Lemma from_bytes_with_len_ok buf n :
  length buf ≤ 8 * vec_len n → (∀ i, n ≤ i → byte_bit buf i = false) →
  ∃ b, BitmapPb.from_bytes_with_len buf n = Ret b ∧ bitmap_ok b ∧
       Bitmap.num_bits b = n ∧ view b = byte_bit buf <$> seq 0 n.
Proof.
  intros Hlen Hpad. unfold BitmapPb.from_bytes_with_len.
  rewrite (proj2 (Nat.leb_le _ _)) by lia. simpl.
  set (slice := buf ++ _). set (d := BitmapPb.words_of_bytes _ _).
  pose proof (vec_len_bounds n).
  assert (∀ i, bit_of d i = byte_bit buf i) as Hbits.
  { intros i. unfold d. rewrite bit_of_words_of_bytes. case_decide; [|rewrite Hpad by lia; done].
    destruct (decide (i < 8 * length buf)); [by apply byte_bit_app_l|].
    rewrite (byte_bit_beyond buf) by lia.
    replace i with (8 * length buf + (i - 8 * length buf)) by lia. unfold slice.
    rewrite byte_bit_app_r. unfold byte_bit. pose proof (div_mod_8 (i - 8 * length buf)).
    rewrite lookup_replicate_2 by lia. apply Z.bits_0. }
  destruct (from_vec_ok n d) as [Hok Hv].
  { split_and!; [apply words_of_bytes_ok| |].
    - unfold d, BitmapPb.words_of_bytes. by rewrite length_fmap, length_seq.
    - intros i Hi. rewrite Hbits. by apply Hpad. }
  eexists. split_and!; [done|done| |].
  - rewrite <-length_view, Hv. apply length_bits_list.
  - rewrite Hv. apply list_fmap_ext. intros _ i _. apply Hbits.
Qed.

Lemma byte_bit_replicate m c i :
  byte_bit (replicate m c) i =
  if decide (i < 8 * m) then Z.testbit (b2z c) (Z.of_nat (i `mod` 8)) else false.
Proof.
  pose proof (div_mod_8 i). unfold byte_bit. case_decide.
  - by rewrite lookup_replicate_2 by lia.
  - rewrite lookup_ge_None_2; [apply Z.bits_0|]. rewrite length_replicate. lia.
Qed.

Lemma byte_bit_ones c k i :
  k ≤ 8 → i < 8 → b2z c = Z.ones (Z.of_nat k) → Z.testbit (b2z c) (Z.of_nat i) = bool_decide (i < k).
Proof.
  intros Hk Hi ->. case_bool_decide; [apply Z.ones_spec_low|apply Z.ones_spec_high]; lia.
Qed.

(** The all-ones body: full bytes, the last one masked. *)
Lemma ones_body_ok n :
  let m := (n + 7) `div` 8 in
  let body := replicate m Byte.xff in
  let body' := if negb (n `mod` 8 =? 0)
               then <[(m - 1)%nat := z2b (Z.shiftl 1 (Z.of_nat (n `mod` 8)) - 1)]> body else body in
  ∀ i, byte_bit body' i = bool_decide (i < n).
Proof.
  intros m body body' i. pose proof (div_mod_8 n) as [Hn Hlt].
  pose proof (div_mod_8 (n + 7)) as [Hm Hmlt]. fold m in Hm.
  pose proof (div_mod_8 i) as [Hi Hilt]. subst body'.
  destruct (Nat.eqb_spec (n `mod` 8) 0) as [H0|H0]; simpl negb; cbv iota.
  - unfold body. rewrite byte_bit_replicate. case_decide; case_bool_decide; try lia; try done.
    by rewrite (byte_bit_ones Byte.xff 8), bool_decide_true by (done || lia).
  - unfold byte_bit, body. destruct (decide (i `div` 8 = m - 1)) as [He|He].
    + rewrite He, list_lookup_insert_eq by (rewrite length_replicate; lia). simpl default.
      rewrite (byte_bit_ones _ (n `mod` 8)); [apply bool_decide_ext; lia|lia|lia|].
      assert (is_uint 8 (Z.ones (Z.of_nat (n `mod` 8)))) as U.
      { assert (2 ^ Z.of_nat (n `mod` 8) ≤ 2 ^ 8)%Z by (apply Z.pow_le_mono_r; lia).
        assert (0 < 2 ^ Z.of_nat (n `mod` 8))%Z by (apply Z.pow_pos_nonneg; lia).
        rewrite Z.ones_equiv. split; lia. }
      rewrite ones_sub, b2z_z2b by lia. apply Z.mod_small. exact U.
    + rewrite list_lookup_insert_ne by done. destruct (decide (i `div` 8 < m)).
      * rewrite lookup_replicate_2 by done. simpl default.
        rewrite (byte_bit_ones Byte.xff 8), !bool_decide_true by (done || lia). done.
      * rewrite lookup_ge_None_2 by (rewrite length_replicate; lia). simpl default.
        rewrite bool_decide_false by lia. apply Z.bits_0.
Qed.

(** What [to_protobuf] writes: the number of bits in the last byte, then the bits. *)
Lemma to_protobuf_ok b :
  bitmap_ok b →
  ∃ body, BitmapPb.to_protobuf b = z2b (Z.of_nat (Bitmap.num_bits b `mod` 8)) :: body ∧
    length body = (Bitmap.num_bits b + 7) `div` 8 ∧
    ∀ i, byte_bit body i = default false (view b !! i).
Proof.
  intros Hb. unfold BitmapPb.to_protobuf. set (n := Bitmap.num_bits b).
  pose proof (div_mod_8 n) as [Hn Hlt]. pose proof (div_mod_8 (n + 7)) as [Hm Hmlt].
  pose proof (ones_body_ok n) as Hones. cbv zeta in Hones. set (m := (n + 7) `div` 8) in *.
  replace (m + 1) with (S m) by lia. unfold bitmap_ok, view, Bitmap.any in *.
  fold n in Hb |- *. destruct (Bitmap.bits b) as [d|].
  - destruct Hb as ((Wd & Ld & Pd) & _). eexists. split; [done|].
    pose proof (vec_len_bounds n). split.
    { rewrite length_take, length_bytes_of_words, Ld. lia. }
    intros i. rewrite byte_bit_take, byte_bit_words by done.
    destruct (decide (i < n)); [by rewrite lookup_bits_list, decide_True by lia|].
    rewrite lookup_ge_None_2 by (rewrite length_bits_list; lia). rewrite Pd by lia. by case_decide.
  - destruct (Nat.eqb_spec (Bitmap.count_ones b) 0) as [H0|H0]; simpl; rewrite resize_nil.
    + eexists. split; [done|]. split; [apply length_replicate|]. intros i.
      rewrite byte_bit_replicate. rewrite Z.bits_0. replace (if decide _ then false else false) with false by (by case_decide).
      destruct (decide (i < n)); [by rewrite lookup_replicate_2|].
      by rewrite lookup_ge_None_2 by (rewrite length_replicate; lia).
    + eexists. split; [|split; [|intros i; rewrite Hones; symmetry]].
      * destruct (Nat.eqb_spec (n `mod` 8) 0); simpl negb; [done|]. cbv iota.
        by replace (m - 0) with (S (m - 1)) by lia.
      * destruct (negb _); [rewrite length_insert|]; apply length_replicate.
      * case_bool_decide; [by rewrite lookup_replicate_2|].
        by rewrite lookup_ge_None_2 by (rewrite length_replicate; lia).
Qed.

(** [((body.len() - 1) * 8) - ((8 - last_byte_num_bits) % 8) as usize] recovers the length. *)
Lemma pb_num_bits_ok n :
  (Z.of_nat n + 7 < 2 ^ 64)%Z →
  Z.to_nat (wrap 64 (Z.of_nat ((n + 7) `div` 8) * 8 -
    wrap 8 (8 - b2z (z2b (Z.of_nat (n `mod` 8)))) mod 8)) = n.
Proof.
  intros Hsize. pose proof (div_mod_8 n) as [Hn Hlt].
  pose proof (div_mod_8 (n + 7)) as [Hm Hmlt]. set (q := (n + 7) `div` 8) in *.
  rewrite b2z_z2b. unfold wrap.
  rewrite (Z.mod_small (Z.of_nat _) 256), (Z.mod_small (8 - _)) by lia.
  destruct (decide (n `mod` 8 = 0)) as [H0|H0].
  - rewrite H0. change ((8 - Z.of_nat 0) mod 8)%Z with 0%Z. rewrite Z.mod_small; lia.
  - rewrite (Z.mod_small (8 - _)), Z.mod_small; lia.
Qed.

Lemma from_to_protobuf b :
  bitmap_ok b → (Z.of_nat (Bitmap.num_bits b) + 7 < 2 ^ 64)%Z →
  BitmapPb.from_protobuf (BitmapPb.to_protobuf b) = Ret b.
Proof.
  intros Hb Hsize. destruct (to_protobuf_ok b Hb) as (body & -> & Hlen & Hbits).
  set (n := Bitmap.num_bits b) in *.
  apply bind_Ret. eexists. split; [done|].
  cbn [length]. simpl drop. rewrite ?drop_0.
  replace (S (length body) - 1) with ((n + 7) `div` 8) by lia.
  rewrite pb_num_bits_ok by done. pose proof (vec_len_bounds n) as [Hv _].
  destruct (from_bytes_with_len_ok body n) as (b' & -> & Hb' & Hn' & Hv').
  - pose proof (div_mod_8 (n + 7)). lia.
  - intros i Hi. rewrite Hbits, lookup_ge_None_2; [done|]. rewrite length_view. done.
  - f_equal. apply bitmap_canonical; [done..|]. rewrite Hv'.
    apply (list_eq_same_length _ _ n); [apply length_view|by rewrite length_fmap, length_seq|].
    intros i x y Hi. rewrite list_lookup_fmap, lookup_seq_lt by done. simpl.
    rewrite Hbits. by intros [= <-] ->.
Qed.

(** The protobuf form of a bitmap is lossless.  Decoding the [PbBuffer] body written by
    [Bitmap::to_protobuf] succeeds and gives back the very same bitmap (length, count and
    words), whether the bitmap stores its words or is the compact all-zeros or all-ones form. *)
Theorem bitmap_protobuf_round_trip b :
  bitmap_ok b → (Z.of_nat (Bitmap.num_bits b) + 7 < 2 ^ 64)%Z →
  BitmapPb.from_protobuf (BitmapPb.to_protobuf b) = Ret b.
Proof. apply from_to_protobuf. Qed.

Lemma bitmap_protobuf_round_trip_witness :
  BitmapPb.to_protobuf (Bitmap.from_bool_slice [true; false; true]) = [Byte.x03; Byte.x05] ∧
  BitmapPb.from_protobuf [Byte.x03; Byte.x05] =
    Ret (Bitmap.from_bool_slice [true; false; true]).
Proof.
  assert (BitmapPb.to_protobuf (Bitmap.from_bool_slice [true; false; true]) =
          [Byte.x03; Byte.x05]) as E by ground.
  split; [exact E|]. rewrite <-E. apply bitmap_protobuf_round_trip; [|by vm_compute].
  apply from_bool_slice_ok.
Defined.
