(* ===== verification/Vnode.v ===== *)
(** * Virtual nodes and vnode mappings

    [src/common/src/hash/consistent_hash/] ([vnode.rs], [vnode_count.rs], [bitmap.rs],
    [mapping.rs]) and [src/common/src/util/compress.rs]: definitions.  The theorems about
    mappings are in [Mapping.v]. *)

From Stdlib Require Import ZArith Lia.
From stdpp Require Import gmap.
From S2P Require Import Prelude Order Bytes Epoch Bits Bitmap.

Local Open Scope Z_scope.

(** ** [VirtualNode]: a [u16], kept as its index *)
Module VirtualNode.

Definition t := nat.

Definition COUNT_FOR_COMPAT : nat := 256.
Definition COUNT_FOR_TEST : nat := COUNT_FOR_COMPAT.
Definition MAX_COUNT : nat := Z.to_nat (Z.shiftl 1 (16 - 1)).
Definition SIZE : nat := 2.

Definition from_index (index : nat) : t := Z.to_nat (wrap 16 (Z.of_nat index)).
Definition to_index (self : t) : nat := self.

Definition ZERO : t := from_index 0.
Definition MAX_FOR_TEST : t := from_index (COUNT_FOR_TEST - 1).
Definition MAX_REPRESENTABLE : t := from_index (MAX_COUNT - 1).

(** [i16] scalars: the cast to [i16] reads the top bit as the sign. *)
Definition to_scalar (self : t) : Z :=
  let v := Z.of_nat self in if v <? 2 ^ 15 then v else v - 2 ^ 16.
Definition from_scalar (scalar : Z) : t := Z.to_nat (wrap 16 scalar).

Definition to_be_bytes (self : t) : list byte := be_bytes SIZE (Z.of_nat self).
Definition from_be_bytes (bytes : list byte) : t := Z.to_nat (be_val bytes).

Definition all (vnode_count : nat) : list t := from_index <$> seq 0 vnode_count.

(** [Crc32HashCode::to_vnode]; the remainder by zero panics. *)
Definition to_vnode (hash_code : Z) (vnode_count : nat) : outcome t :=
  if (vnode_count =? 0)%nat then Panic
  else Ret (Z.to_nat (wrap 16 (hash_code mod Z.of_nat vnode_count))).

End VirtualNode.

Definition SINGLETON_VNODE : VirtualNode.t := VirtualNode.ZERO.

(** ** [VnodeBitmapExt] *)
Module VnodeBitmapExt.

Definition iter_vnodes (b : Bitmap.t) : list VirtualNode.t :=
  VirtualNode.from_index <$> BitmapOnesIter.iter_ones_all b.

Definition iter_vnodes_scalar (b : Bitmap.t) : list Z := VirtualNode.to_scalar <$> iter_vnodes b.

Definition vnode_ranges (b : Bitmap.t) : list (VirtualNode.t * VirtualNode.t) :=
  prod_map VirtualNode.from_index VirtualNode.from_index <$> HighRanges.high_ranges b.

Definition is_singleton (b : Bitmap.t) : outcome bool :=
  if (Bitmap.count_ones b =? 1)%nat then
    v ← unwrap (head (iter_vnodes b)); Ret (v =? SINGLETON_VNODE)%nat
  else Ret false.

Definition singleton : outcome Bitmap.t :=
  builder ← BitmapBuilder.set (BitmapBuilder.zeroed 1) (VirtualNode.to_index SINGLETON_VNODE) true;
  Ret (BitmapBuilder.finish builder).

End VnodeBitmapExt.

(** ** [VnodeCount] *)
Module VnodeCount.

Inductive t :=
| Placeholder
| Singleton
| Set_ (v : nat)
| CompatHash.

#[global] Instance t_eq_dec : EqDecision t.
Proof. solve_decision. Defined.

Definition set (v : Z) : outcome t :=
  if (1 <=? v) && (v <=? Z.of_nat VirtualNode.MAX_COUNT) then Ret (Set_ (Z.to_nat v)) else Panic.

Definition for_test : outcome t := set (Z.of_nat VirtualNode.COUNT_FOR_TEST).

Definition from_protobuf (v : option Z) (is_singleton : bool) : outcome t :=
  match v with
  | Some 0 => Ret Placeholder
  | _ => if is_singleton then Ret Singleton
         else match v with None => Ret CompatHash | Some v => set v end
  end.

Definition value_opt (self : t) : option nat :=
  match self with
  | Placeholder => None
  | Singleton => Some 1%nat
  | Set_ v => Some v
  | CompatHash => Some VirtualNode.COUNT_FOR_COMPAT
  end.

Definition to_protobuf (self : t) : option Z :=
  match value_opt self with
  | None => Some 0
  | Some v => Some (wrap 32 (Z.of_nat v))
  end.

Definition value (self : t) : outcome nat := unwrap (value_opt self).

End VnodeCount.

(** ** [util/compress.rs] *)
Module Compress.
Section compress.
Context {T : Type} `{EqDecision T}.

(** Iteration [i] of the loop: what it pushes on the two vectors. *)
Definition compress_step (original_data : list T) (i : nat) : list (Z * T) :=
  match original_data !! (i - 1)%nat, original_data !! i with
  | Some x, Some y =>
      if bool_decide (x = y) then [] else [(wrap 32 (wrap 32 (Z.of_nat i) - 1), x)]
  | _, _ => []
  end.

Definition compress_data (original_data : list T) : list Z * list T :=
  let pushed :=
    mjoin (compress_step original_data <$> seq 1 (length original_data - 1)) ++
    match last original_data with
    | Some x => [(wrap 32 (wrap 32 (Z.of_nat (length original_data)) - 1), x)]
    | None => []
    end in
  (pushed.*1, pushed.*2).

(** [zip_eq_fast] asserts equal lengths. *)
Definition decompress_data (original_indices : list Z) (data : list T) : outcome (list T) :=
  match last original_indices with
  | Some _ =>
      _ ← rassert (length original_indices =? length data)%nat;
      Ret (foldl (λ acc '(idx, x), resize (Z.to_nat idx + 1) x acc) []
             (zip original_indices data))
  | None => Ret []
  end.

End compress.
End Compress.

(** ** [VnodeMapping] *)
Module VnodeMapping.
Section mapping.
Context {Item : Type} `{Countable Item}.

Record t := mk { original_indices : list Z; data : list Item }.

Fixpoint uniform_indices (items : list Item) (hash_shard_size one_more_count init_bound : nat)
  : list Z :=
  match items with
  | [] => []
  | _ :: items' =>
      let '(count, one_more_count) :=
        if (0 <? one_more_count)%nat then ((hash_shard_size + 1)%nat, (one_more_count - 1)%nat)
        else (hash_shard_size, one_more_count) in
      let init_bound := (init_bound + count)%nat in
      wrap 32 (wrap 32 (Z.of_nat init_bound) - 1)
        :: uniform_indices items' hash_shard_size one_more_count init_bound
  end.

Definition new_uniform (items : list Item) (vnode_count : nat) : outcome t :=
  _ ← rassert (length items <=? vnode_count)%nat;
  if (length items =? 0)%nat then Panic
  else
    let hash_shard_size := (vnode_count `div` length items)%nat in
    let one_more_count := (vnode_count `mod` length items)%nat in
    Ret (mk (uniform_indices items hash_shard_size one_more_count 0) items).

Definition new_single (item : Item) : outcome t := new_uniform [item] 1.

Definition len (self : t) : nat :=
  match last (original_indices self) with
  | Some i => (Z.to_nat i + 1)%nat
  | None => 0
  end.

(** [partition_point] on a slice partitioned by the predicate: the length of its prefix
    satisfying it. *)
Fixpoint partition_point {A} (P : A → bool) (l : list A) : nat :=
  match l with
  | [] => 0
  | x :: l' => if P x then S (partition_point P l') else 0
  end.

Definition index (self : t) (vnode : VirtualNode.t) : outcome Item :=
  unwrap (data self !!
    partition_point (λ i, i <? wrap 32 (Z.of_nat (VirtualNode.to_index vnode)))
      (original_indices self)).

Definition get (self : t) (vnode : VirtualNode.t) : outcome Item := index self vnode.

Definition get_matched (self : t) (bitmap : Bitmap.t) : outcome (option Item) :=
  match head (VnodeBitmapExt.iter_vnodes bitmap) with
  | Some v => Some <$> get self v
  | None => Ret None
  end.

(** The differences of consecutive bounds, [tuple_windows]. *)
Fixpoint window_lens (prev : Z) (bounds : list Z) : list nat :=
  match bounds with
  | [] => []
  | b :: bounds' => Z.to_nat (wrap 32 (b - prev)) :: window_lens b bounds'
  end.

Definition iter (self : t) : list Item :=
  mjoin (zip_with (λ item c, replicate c item) (data self)
           (window_lens 0 ((λ i, wrap 32 (i + 1)) <$> original_indices self))).

Definition to_expanded (self : t) : list Item := iter self.

Definition iter_with_vnode (self : t) : list (VirtualNode.t * Item) :=
  imap (λ v item, (VirtualNode.from_index v, item)) (iter self).

(** Consecutive duplicates removed ([Itertools::dedup]). *)
Fixpoint dedup (l : list Item) : list Item :=
  match l with
  | [] => []
  | x :: l' => match l' with
               | y :: _ => if bool_decide (x = y) then dedup l' else x :: dedup l'
               | [] => [x]
               end
  end.

Definition to_single (self : t) : option Item :=
  match dedup (data self) with [x] => Some x | _ => None end.

Definition from_expanded (items : list Item) : t :=
  let '(original_indices, data) := Compress.compress_data items in mk original_indices data.

(** One vnode of the loop of [to_bitmaps]: the entry of its item, created on demand. *)
Definition to_bitmaps_step (vnode_count : nat) (m : gmap Item BitmapBuilder.t)
    (e : VirtualNode.t * Item) : outcome (gmap Item BitmapBuilder.t) :=
  let '(vnode, item) := e in
  let b := default (BitmapBuilder.zeroed vnode_count) (m !! item) in
  b ← BitmapBuilder.set b (VirtualNode.to_index vnode) true;
  Ret (<[item := b]> m).

Definition to_bitmaps (self : t) : outcome (gmap Item Bitmap.t) :=
  rfold (to_bitmaps_step (len self)) (iter_with_vnode self) ∅ ≫=
  λ m : gmap Item BitmapBuilder.t, Ret (fmap (M := gmap Item) BitmapBuilder.finish m).

(** Writing [item] at the set bits of its bitmap. *)
Definition place_bit (item : Item) (items : list (option Item)) (idx : nat)
  : outcome (list (option Item)) :=
  match items !! idx with
  | Some None => Ret (<[idx := Some item]> items)
  | _ => Panic
  end.

Definition from_bitmaps_step (vnode_count : nat) (items : list (option Item))
    (e : Item * Bitmap.t) : outcome (list (option Item)) :=
  let '(item, bitmap) := e in
  _ ← rassert (Bitmap.len bitmap =? vnode_count)%nat;
  rfold (place_bit item) (BitmapOnesIter.iter_ones_all bitmap) items.

(** [bitmaps]: the entries of the hash map in its iteration order. *)
Definition from_bitmaps (bitmaps : list (Item * Bitmap.t)) : outcome t :=
  first ← unwrap (head bitmaps);
  let vnode_count := Bitmap.len first.2 in
  items ← rfold (from_bitmaps_step vnode_count) bitmaps (replicate vnode_count None);
  items ← rmap unwrap items;
  Ret (from_expanded items).

End mapping.
Arguments t : clear implicits.

(** [transform]; indexing the map with a missing key panics. *)
Definition transform {Item Item2} (self : t Item) (to_map : Item → option Item2)
  : outcome (t Item2) :=
  data ← rmap (λ item, unwrap (to_map item)) (data self);
  Ret (mk (original_indices self) data).

End VnodeMapping.

(** ** [WorkerSlotId] *)
Module WorkerSlotId.

Abbreviation t := Z.

Definition worker_id (self : t) : Z := wrap 32 (Z.shiftr self 32).
Definition slot_idx (self : t) : Z := wrap 32 self.
Definition new (worker_id : Z) (slot_idx : nat) : t :=
  Z.lor (u64_shl worker_id 32) (Z.of_nat slot_idx).

End WorkerSlotId.

(** ** [ActorMapping] and [WorkerSlotMapping] *)
Module ActorMapping.

Definition t := VnodeMapping.t Z.

(** [BTreeSet::insert] on the sorted list of the members. *)
Fixpoint btree_insert (x : Z) (l : list Z) : list Z :=
  match l with
  | [] => [x]
  | y :: l' => if x <? y then x :: l else if x =? y then l else y :: btree_insert x l'
  end.

(** [iter_unique]: sorted and deduplicated. *)
Definition iter_unique (self : t) : list Z :=
  VnodeMapping.dedup (merge_sort Z.le (VnodeMapping.data self)).

Definition group_actors (actor_to_worker : gmap Z Z) (actors : list Z)
  : outcome (gmap Z (list Z)) :=
  rfold (λ worker_actors actor_id,
    worker_id ← unwrap (actor_to_worker !! actor_id);
    let actors := default [] (worker_actors !! worker_id) in
    Ret (<[worker_id := btree_insert actor_id actors]> worker_actors)) actors ∅.

Definition locate_worker (loc : gmap Z WorkerSlotId.t) (e : Z * list Z) : gmap Z WorkerSlotId.t :=
  let '(worker, actors) := e in
  foldl (λ loc '(idx, actor), <[actor := WorkerSlotId.new worker idx]> loc) loc
    (imap pair actors).

(** [order] is the iteration order of the hash map of workers. *)
Definition to_worker_slot (order : gmap Z (list Z) → list (Z * list Z)) (self : t)
    (actor_to_worker : gmap Z Z) : outcome (VnodeMapping.t WorkerSlotId.t) :=
  worker_actors ← group_actors actor_to_worker (iter_unique self);
  let actor_location := foldl locate_worker ∅ (order worker_actors) in
  VnodeMapping.transform self (λ actor, actor_location !! actor).

(** The protobuf form has the same two vectors. *)
Definition from_protobuf (indices data : list Z) : outcome t :=
  _ ← rassert (length indices =? length data)%nat;
  Ret (VnodeMapping.mk indices data).

Definition to_protobuf (self : t) : list Z * list Z :=
  (VnodeMapping.original_indices self, VnodeMapping.data self).

End ActorMapping.

Module WorkerSlotMapping.

Definition t := VnodeMapping.t WorkerSlotId.t.

Definition build_from_ids (worker_slot_ids : list WorkerSlotId.t) (vnode_count : nat) : outcome t :=
  VnodeMapping.new_uniform worker_slot_ids vnode_count.

Definition to_actor (self : t) (to_map : gmap WorkerSlotId.t Z) : outcome ActorMapping.t :=
  VnodeMapping.transform self (λ slot, to_map !! slot).

End WorkerSlotMapping.
