(* ===== verification/Mapping.v ===== *)
(** * Vnode mappings: the compressed form represents a vector of items

    The invariant of [VnodeMapping] and the expansion it denotes; lookups by binary
    search, iteration, compression, uniform mappings, bitmaps per item and worker slots
    ([src/common/src/hash/consistent_hash/mapping.rs], [src/common/src/util/compress.rs]). *)

From Stdlib Require Import ZArith Lia.
From stdpp Require Import gmap.
From S2P Require Import Prelude Order Bytes Epoch Bits Bitmap BitmapSpec BitmapAlgebra.
From S2P Require Import BitmapIterSpec Vnode.

Section runs.
Context {Item : Type}.
Implicit Types (ps : list (Z * Item)).

(** A run-length list from position [prev] on: each pair ends a run at its index. *)
Fixpoint expand (prev : nat) ps : list Item :=
  match ps with
  | [] => []
  | (i, x) :: ps' => replicate (Z.to_nat i + 1 - prev) x ++ expand (Z.to_nat i + 1) ps'
  end.

(** Runs are non-empty, in order, and their ends (plus one) fit in [u32]. *)
Fixpoint runs_ok (prev : nat) ps : Prop :=
  match ps with
  | [] => True
  | (i, _) :: ps' =>
      (0 ≤ i < 2 ^ 32 - 1)%Z ∧ prev ≤ Z.to_nat i ∧ runs_ok (Z.to_nat i + 1) ps'
  end.

Definition pairs (m : VnodeMapping.t Item) : list (Z * Item) :=
  zip (VnodeMapping.original_indices m) (VnodeMapping.data m).

Definition mapping_ok (m : VnodeMapping.t Item) : Prop :=
  length (VnodeMapping.original_indices m) = length (VnodeMapping.data m) ∧ runs_ok 0 (pairs m).

(** The vector of items the mapping stands for. *)
Definition contents (m : VnodeMapping.t Item) : list Item := expand 0 (pairs m).

Lemma pairs_fst m : mapping_ok m → (pairs m).*1 = VnodeMapping.original_indices m.
Proof. intros [H _]. apply fst_zip. lia. Qed.

Lemma pairs_snd m : mapping_ok m → (pairs m).*2 = VnodeMapping.data m.
Proof. intros [H _]. apply snd_zip. lia. Qed.

Lemma expand_app prev ps1 ps2 :
  expand prev (ps1 ++ ps2) =
  expand prev ps1 ++ expand (default prev ((λ p, Z.to_nat p.1 + 1) <$> last ps1)) ps2.
Proof.
  revert prev; induction ps1 as [|[i x] ps1 IH]; intros prev; [done|].
  cbn [expand app]. rewrite IH, <-app_assoc, last_cons. by destruct (last ps1).
Qed.

Lemma runs_ok_app prev ps1 ps2 :
  runs_ok prev (ps1 ++ ps2) ↔
  runs_ok prev ps1 ∧ runs_ok (default prev ((λ p, Z.to_nat p.1 + 1) <$> last ps1)) ps2.
Proof.
  revert prev; induction ps1 as [|[i x] ps1 IH]; intros prev; [simpl; tauto|].
  cbn [runs_ok app]. rewrite IH, last_cons. destruct (last ps1); simpl; tauto.
Qed.

Lemma length_expand prev ps :
  runs_ok prev ps →
  prev + length (expand prev ps) = default prev ((λ p, Z.to_nat p.1 + 1) <$> last ps).
Proof.
  revert prev; induction ps as [|[i x] ps IH]; intros prev; cbn [runs_ok expand]; [simpl; lia|].
  intros (_ & Hle & Hok). specialize (IH _ Hok).
  rewrite length_app, length_replicate, last_cons. destruct (last ps); simpl in *; lia.
Qed.

Lemma last_zip_fst {A B} (l : list A) (k : list B) :
  length l = length k → (λ p, p.1) <$> last (zip l k) = last l.
Proof. intros H. rewrite <-fmap_last. by rewrite fst_zip by lia. Qed.

Lemma mapping_len_ok m : mapping_ok m → VnodeMapping.len m = length (contents m).
Proof.
  intros Hm. destruct Hm as [Hlen Hok]. pose proof (length_expand _ _ Hok) as H.
  unfold VnodeMapping.len, contents. simpl in H. rewrite H. unfold pairs.
  rewrite <-(last_zip_fst _ _ Hlen).
  by destruct (last (zip _ _)) as [[]|].
Qed.

(** [iter] enumerates the expansion. *)
Lemma window_lens_expand prev js ds :
  length js = length ds → runs_ok prev (zip js ds) → (Z.of_nat prev < 2 ^ 32)%Z →
  mjoin (zip_with (λ item c, replicate c item) ds
    (VnodeMapping.window_lens (Z.of_nat prev) ((λ i, wrap 32 (i + 1)) <$> js))) =
  expand prev (zip js ds).
Proof.
  revert prev ds; induction js as [|i js IH]; intros prev [|x ds]; try done.
  simpl. intros [= Hlen] (Hi & Hle & Hok) Hp. f_equal.
  - f_equal. rewrite (wrap_small 32 (i + 1)) by (split; lia). rewrite wrap_small by (split; lia). lia.
  - rewrite (wrap_small 32 (i + 1)) by (split; lia).
    replace (i + 1)%Z with (Z.of_nat (Z.to_nat i + 1)) by lia. apply IH; [done..|lia].
Qed.

Lemma mapping_iter_ok m : mapping_ok m → VnodeMapping.iter m = contents m.
Proof. intros [Hlen Hok]. by apply (window_lens_expand 0). Qed.

(** The binary search finds the run of a position. *)
Lemma partition_point_expand prev ps v :
  runs_ok prev ps → prev ≤ v →
  ps.*2 !! VnodeMapping.partition_point (λ i, i <? Z.of_nat v)%Z ps.*1 = expand prev ps !! (v - prev).
Proof.
  revert prev; induction ps as [|[i x] ps IH]; intros prev; [done|].
  csimpl. intros (Hi & Hle & Hok) Hv. destruct (Z.ltb_spec i (Z.of_nat v)).
  - rewrite lookup_app_r by (rewrite length_replicate; lia). rewrite length_replicate.
    csimpl. rewrite (IH (Z.to_nat i + 1)) by (done || lia). f_equal. lia.
  - rewrite lookup_app_l by (rewrite length_replicate; lia).
    by rewrite lookup_replicate_2 by lia.
Qed.

Lemma mapping_index_ok m v :
  mapping_ok m → (Z.of_nat v < 2 ^ 32)%Z → VnodeMapping.index m v = unwrap (contents m !! v).
Proof.
  intros Hm Hv. unfold VnodeMapping.index, VirtualNode.to_index, contents.
  rewrite wrap_small by (split; lia). rewrite <-(pairs_fst m), <-(pairs_snd m) by done.
  rewrite (partition_point_expand 0) by (apply Hm || lia). by rewrite Nat.sub_0_r.
Qed.

End runs.

(** ** [compress_data] and [decompress_data] *)

Section compress.
Context {T : Type} `{EqDecision T}.
Implicit Types l : list T.

Definition emitted l : list (Z * T) :=
  mjoin (Compress.compress_step l <$> seq 1 (length l - 1)).

Lemma wrap_pred n : 0 < n → (Z.of_nat n < 2 ^ 32)%Z →
  wrap 32 (wrap 32 (Z.of_nat n) - 1) = Z.of_nat (n - 1).
Proof. intros. rewrite (wrap_small 32 (Z.of_nat n)), wrap_small by (split; lia). lia. Qed.

Lemma emitted_snoc l a x :
  last l = Some a → (Z.of_nat (length l) < 2 ^ 32)%Z →
  emitted (l ++ [x]) =
  emitted l ++ (if bool_decide (a = x) then [] else [(Z.of_nat (length l - 1), a)]).
Proof.
  intros Hl Hlen. assert (0 < length l) by (destruct l; [done|simpl; lia]).
  unfold emitted. rewrite length_app. simpl length.
  replace (length l + 1 - 1) with ((length l - 1) + 1) by lia.
  rewrite seq_app, fmap_app, join_app. f_equal.
  - f_equal. apply list_fmap_ext. intros _ i Hi%list_elem_of_lookup_2%elem_of_seq.
    unfold Compress.compress_step. by rewrite !lookup_app_l by lia.
  - simpl. rewrite app_nil_r. replace (S (length l - 1)) with (length l) by lia.
    unfold Compress.compress_step. rewrite (list_lookup_middle l [] x (length l)) by done.
    rewrite last_lookup, <-Nat.sub_1_r in Hl. rewrite lookup_app_l, Hl by lia.
    by rewrite wrap_pred by lia.
Qed.

(** Loop invariant: what was pushed covers the input up to the current run. *)
Lemma emitted_ok l a :
  last l = Some a → (Z.of_nat (length l) < 2 ^ 32)%Z →
  ∃ k, 0 < k ∧ runs_ok 0 (emitted l) ∧ l = expand 0 (emitted l) ++ replicate k a.
Proof.
  revert a; induction l as [|x l IH] using rev_ind; intros a; [done|].
  rewrite last_snoc, length_app. intros [= ->] Hlen. simpl in Hlen.
  destruct (last l) as [b|] eqn:Hl.
  2: { apply last_None in Hl as ->. exists 1. split_and!; [lia|done|done]. }
  destruct (IH b) as (k & Hk & Hok & Heq); [done|lia|].
  rewrite (emitted_snoc l b) by (done || lia). case_bool_decide as Hb; subst.
  - exists (k + 1). rewrite app_nil_r. split_and!; [lia|done|].
    rewrite replicate_add, app_assoc. by rewrite <-Heq.
  - exists 1. pose proof (length_expand _ _ Hok) as Hle. simpl in Hle.
    assert (length l = length (expand 0 (emitted l)) + k) as Hll.
    { rewrite Heq at 1. by rewrite length_app, length_replicate. }
    split_and!; [lia| |].
    + apply runs_ok_app. split; [done|]. rewrite <-Hle. simpl. split_and!; lia.
    + rewrite expand_app. rewrite <-Hle. simpl. rewrite app_nil_r, Nat2Z.id.
      f_equal. rewrite Heq at 1. f_equal. f_equal. lia.
Qed.

Lemma compress_data_pairs l :
  (Z.of_nat (length l) < 2 ^ 32)%Z →
  ∃ ps, Compress.compress_data l = (ps.*1, ps.*2) ∧ runs_ok 0 ps ∧ expand 0 ps = l ∧
        (l ≠ [] → ps ≠ []).
Proof.
  intros Hlen. unfold Compress.compress_data. fold (emitted l).
  destruct (last l) as [a|] eqn:Hl.
  - destruct (emitted_ok l a Hl Hlen) as (k & Hk & Hok & Heq).
    pose proof (length_expand _ _ Hok) as Hle. simpl in Hle.
    assert (length l = length (expand 0 (emitted l)) + k) as Hll.
    { rewrite Heq at 1. by rewrite length_app, length_replicate. }
    rewrite wrap_pred by lia. eexists. split_and!; [done| | |].
    + apply runs_ok_app. split; [done|]. rewrite <-Hle. simpl. split_and!; lia.
    + rewrite expand_app, <-Hle. simpl. rewrite app_nil_r, Nat2Z.id.
      etrans; [|symmetry; exact Heq]. do 2 f_equal. lia.
    + intros _. by destruct (emitted l).
  - apply last_None in Hl as ->. by exists [].
Qed.

Lemma foldl_resize_expand prev (ps : list (Z * T)) acc :
  runs_ok prev ps → length acc = prev →
  foldl (λ acc '(idx, x), resize (Z.to_nat idx + 1) x acc) acc ps = acc ++ expand prev ps.
Proof.
  revert prev acc; induction ps as [|[i x] ps IH]; intros prev acc; simpl.
  { by rewrite app_nil_r. }
  intros (Hi & Hle & Hok) Hacc. rewrite (IH (Z.to_nat i + 1)); [|done|apply length_resize].
  rewrite resize_spec, take_ge by lia. by rewrite <-app_assoc, Hacc.
Qed.

Lemma decompress_pairs (ps : list (Z * T)) :
  runs_ok 0 ps → Compress.decompress_data ps.*1 ps.*2 = Ret (expand 0 ps).
Proof.
  intros Hok. unfold Compress.decompress_data.
  destruct ps as [|p ps]; [done|]. set (l := p :: ps) in *.
  destruct (last l.*1) eqn:E; [|by apply last_None in E].
  rewrite !length_fmap, Nat.eqb_refl. cbn [rassert mbind outcome_bind].
  rewrite zip_fst_snd. f_equal. by apply (foldl_resize_expand 0).
Qed.

End compress.

(** ** Mappings built from vectors, uniformly and from bitmaps *)

Section mapping.
Context {Item : Type} `{Countable Item}.
Implicit Types (m : VnodeMapping.t Item) (items : list Item).

Lemma from_expanded_ok items :
  (Z.of_nat (length items) < 2 ^ 32)%Z →
  mapping_ok (VnodeMapping.from_expanded items) ∧
  contents (VnodeMapping.from_expanded items) = items.
Proof.
  intros Hlen. destruct (compress_data_pairs items Hlen) as (ps & Hps & Hok & Hex & _).
  unfold VnodeMapping.from_expanded, mapping_ok, contents, pairs. rewrite Hps. simpl.
  rewrite zip_fst_snd, !length_fmap. done.
Qed.

(** The run-length list of a uniform mapping: run [k] gets one more while [k < more]. *)
Lemma uniform_indices_ok items shard more bound :
  0 < shard → more ≤ length items →
  (Z.of_nat (bound + shard * length items + more) < 2 ^ 32)%Z →
  let js := VnodeMapping.uniform_indices items shard more bound in
  length js = length items ∧ runs_ok bound (zip js items) ∧
  expand bound (zip js items) =
    mjoin (imap (λ k x, replicate (shard + if (k <? more)%nat then 1 else 0) x) items).
Proof.
  intros Hs. revert more bound; induction items as [|x items IH]; intros more bound Hm Hb; [done|].
  simpl in Hm, Hb. cbn [VnodeMapping.uniform_indices].
  set (c := shard + if 0 <? more then 1 else 0).
  assert ((if 0 <? more then (shard + 1, more - 1) else (shard, more)) = (c, more - 1)) as ->.
  { unfold c. destruct (Nat.ltb_spec 0 more); f_equal; lia. }
  assert (shard ≤ c ∧ c + (more - 1) ≤ shard + more) as Hc.
  { unfold c. destruct (Nat.ltb_spec 0 more); lia. }
  destruct (IH (more - 1) (bound + c)) as (H1 & H2 & H3); [lia|lia|].
  rewrite wrap_pred by lia. simpl. split_and!; [by rewrite H1|lia|lia|lia| |].
  - by replace (Z.to_nat (Z.of_nat (bound + c - 1)) + 1) with (bound + c) by lia.
  - replace (Z.to_nat (Z.of_nat (bound + c - 1)) + 1) with (bound + c) by lia.
    rewrite H3. f_equal; [f_equal; lia|]. f_equal. apply imap_ext. intros k y _. simpl.
    do 2 f_equal. destruct (Nat.ltb_spec k (more - 1)), (Nat.ltb_spec (S k) more); lia.
Qed.

Lemma length_uniform_runs q r items :
  r ≤ length items →
  length (mjoin (imap (λ k x, replicate (q + if (k <? r)%nat then 1 else 0) x) items)) =
  q * length items + r.
Proof.
  revert r; induction items as [|x items IH]; intros r Hr; simpl; [simpl in Hr; lia|].
  rewrite length_app, length_replicate.
  rewrite (imap_ext _ (λ k y, replicate (q + if k <? r - 1 then 1 else 0) y)).
  - simpl in Hr. rewrite IH by lia. destruct (Nat.ltb_spec 0 r); lia.
  - intros k y _. simpl. do 2 f_equal.
    destruct (Nat.ltb_spec k (r - 1)), (Nat.ltb_spec (S k) r); lia.
Qed.

Lemma new_uniform_ok items vnode_count :
  0 < length items ≤ vnode_count → (Z.of_nat vnode_count < 2 ^ 32)%Z →
  let n := length items in
  ∃ m, VnodeMapping.new_uniform items vnode_count = Ret m ∧ mapping_ok m ∧
    VnodeMapping.len m = vnode_count ∧
    contents m = mjoin (imap (λ k x, replicate
      (vnode_count `div` n + if (k <? vnode_count `mod` n)%nat then 1 else 0) x) items).
Proof.
  intros Hn Hc n. unfold VnodeMapping.new_uniform.
  rewrite (proj2 (Nat.leb_le _ _)), (proj2 (Nat.eqb_neq _ _)) by lia. simpl.
  pose proof (Nat.div_mod_eq vnode_count n) as Hdm.
  pose proof (Nat.mod_upper_bound vnode_count n ltac:(lia)) as Hmod.
  assert (0 < vnode_count `div` n) by (apply Nat.div_str_pos; lia).
  destruct (uniform_indices_ok items (vnode_count `div` n) (vnode_count `mod` n) 0)
    as (H1 & H2 & H3); [lia..|].
  eexists. split; [done|]. split; [done|]. split; [|exact H3].
  rewrite mapping_len_ok by done. etrans; [exact (f_equal length H3)|].
  rewrite length_uniform_runs by lia. fold n. lia.
Qed.

(** [place_bit] over the set bits of one bitmap. *)
Lemma place_bits_ok item idxs (cur : list (option Item)) :
  NoDup idxs → (∀ i, i ∈ idxs → cur !! i = Some None) →
  ∃ cur', rfold (VnodeMapping.place_bit item) idxs cur = Ret cur' ∧ length cur' = length cur ∧
    ∀ i, cur' !! i = if decide (i ∈ idxs) then Some (Some item) else cur !! i.
Proof.
  intros Hnd. revert cur; induction Hnd as [|i idxs Hi Hnd IH]; intros cur Hcur.
  { exists cur. split_and!; [done..|]. intros i. by rewrite decide_False by (by apply not_elem_of_nil). }
  simpl.
  assert (VnodeMapping.place_bit item cur i = Ret (<[i:=Some item]> cur)) as ->.
  { unfold VnodeMapping.place_bit. by rewrite (Hcur i) by left. }
  cbn [mbind outcome_bind].
  destruct (IH (<[i:=Some item]> cur)) as (cur' & -> & Hlen & Hl).
  { intros j Hj. rewrite list_lookup_insert_ne by (intros ->; done). apply Hcur. by right. }
  assert (i < length cur) as Hlt by (eapply lookup_lt_Some, (Hcur i); left).
  exists cur'. split_and!; [done|by rewrite Hlen, length_insert|]. intros j. rewrite Hl.
  destruct (decide (j = i)) as [->|Hne].
  - rewrite decide_False by done. rewrite decide_True by left. by apply list_lookup_insert_eq.
  - rewrite list_lookup_insert_ne by done.
    destruct (decide (j ∈ idxs)), (decide (j ∈ i :: idxs)) as [Hin|Hin]; try done.
    + exfalso. apply Hin. by right.
    + by apply elem_of_cons in Hin as [|].
Qed.

(** The bits of [item]: the positions it occupies. *)
Definition item_bits (item : Item) items : list bool := (λ x, bool_decide (x = item)) <$> items.

Definition placed (ks : list Item) items : list (option Item) :=
  (λ x, if decide (x ∈ ks) then Some x else None) <$> items.

Lemma from_bitmaps_step_ok ks items item b :
  item ∉ ks → bitmap_ok b → view b = item_bits item items →
  VnodeMapping.from_bitmaps_step (length items) (placed ks items) (item, b) =
    Ret (placed (ks ++ [item]) items).
Proof.
  intros Hk Hb Hv. unfold VnodeMapping.from_bitmaps_step, Bitmap.len.
  rewrite <-length_view, Hv. unfold item_bits at 1. rewrite length_fmap, Nat.eqb_refl.
  cbn [rassert mbind outcome_bind]. rewrite iter_ones_ok, Hv by done.
  assert (∀ i, i ∈ ones_at 0 (item_bits item items) ↔ items !! i = Some item) as Hin.
  { intros i. rewrite elem_of_ones_at, Nat.sub_0_r. unfold item_bits. rewrite list_lookup_fmap.
    destruct (items !! i); simpl; [|naive_solver]. case_bool_decide; naive_solver lia. }
  destruct (place_bits_ok item (ones_at 0 (item_bits item items)) (placed ks items))
    as (cur & -> & Hlen & Hl).
  - apply NoDup_ones_at.
  - intros i Hi%Hin. unfold placed. rewrite list_lookup_fmap, Hi. simpl.
    by rewrite decide_False.
  - f_equal. apply list_eq. intros i. rewrite Hl. unfold placed. rewrite !list_lookup_fmap.
    destruct (items !! i) as [x|] eqn:Ex; simpl.
    + destruct (decide (i ∈ _)) as [Hi%Hin|Hn].
      { assert (x = item) as -> by congruence. rewrite decide_True; [done|]. apply elem_of_app. right. by left. }
      do 2 f_equal. destruct (decide (x ∈ ks)) as [Hx|Hx], (decide (x ∈ ks ++ [item])) as [Hy|Hy]; try done.
      * exfalso. apply Hy, elem_of_app. by left.
      * exfalso. apply elem_of_app in Hy as [|Hy]; [done|].
        apply list_elem_of_singleton in Hy as ->. by apply Hn, Hin.
    + rewrite decide_False; [done|]. rewrite Hin, Ex. done.
Qed.

Lemma from_bitmaps_ok entries items :
  entries ≠ [] → NoDup entries.*1 → (∀ x, x ∈ items → x ∈ entries.*1) →
  Forall (λ e : Item * Bitmap.t, bitmap_ok e.2 ∧ view e.2 = item_bits e.1 items) entries →
  VnodeMapping.from_bitmaps entries = Ret (VnodeMapping.from_expanded items).
Proof.
  intros Hne Hnd Hcov Hall. unfold VnodeMapping.from_bitmaps.
  destruct entries as [|e0 entries']; [done|]. set (entries := e0 :: entries') in *.
  assert (Bitmap.len e0.2 = length items) as Hlen.
  { inversion Hall as [|? ? [Hb Hv] _]; subst. unfold Bitmap.len. rewrite <-length_view, Hv.
    apply length_fmap. }
  change (unwrap (head entries)) with (Ret e0). cbn [mbind outcome_bind]. rewrite Hlen.
  destruct (rfold_inv (VnodeMapping.from_bitmaps_step (length items))
    (λ dn cur, cur = placed dn.*1 items) entries (replicate (length items) None))
    as (cur & Hrun & ->).
  - unfold placed. simpl. apply list_eq. intros i. rewrite list_lookup_fmap.
    destruct (items !! i) eqn:E; simpl.
    + apply lookup_replicate_2. by eapply lookup_lt_Some.
    + apply lookup_ge_None_2. rewrite length_replicate. by apply lookup_ge_None.
  - intros dn [item b] todo cur Heq ->. exists (placed (dn ++ [(item, b)]).*1 items).
    split; [|done]. rewrite fmap_app. rewrite Heq in Hall, Hnd.
    apply Forall_app in Hall as [_ [[Hb Hv] _]%Forall_cons].
    rewrite fmap_app in Hnd. apply NoDup_app in Hnd as (_ & Hd & _).
    apply from_bitmaps_step_ok; [|done..]. intros Hin. apply (Hd item Hin). left.
  - rewrite Hrun. cbn [mbind outcome_bind].
    assert (rmap unwrap (placed entries.*1 items) = Ret items) as ->; [|done].
    apply rmap_Ret. apply Forall2_fmap_l, Forall_Forall2_diag, Forall_forall.
    intros x Hx. unfold compose. by rewrite decide_True by (by apply Hcov).
Qed.

(** Loop invariant of [to_bitmaps] after the first [k] vnodes. *)
Definition bitmaps_inv items (k : nat) (bm : gmap Item BitmapBuilder.t) : Prop :=
  ∀ item,
    match bm !! item with
    | None => item ∉ take k items
    | Some b => item ∈ take k items ∧ builder_ok b ∧ BitmapBuilder.len b = length items ∧
        builder_view b = item_bits item (take k items) ++ replicate (length items - k) false
    end.

Lemma item_bits_snoc item items k x :
  items !! k = Some x →
  item_bits item (take (S k) items) ++ replicate (length items - S k) false =
  <[k := bool_decide (x = item)]>
    (item_bits item (take k items) ++ replicate (length items - k) false).
Proof.
  intros Hk. pose proof (lookup_lt_Some _ _ _ Hk).
  rewrite (take_S_r _ _ _ Hk). unfold item_bits. rewrite fmap_app, <-app_assoc. simpl.
  rewrite insert_app_r_alt; rewrite length_fmap, length_take, Nat.min_l by lia; [|lia].
  rewrite Nat.sub_diag. f_equal. by replace (length items - k) with (S (length items - S k)) by lia.
Qed.

Lemma to_bitmaps_step_ok items k x bm :
  items !! k = Some x → (Z.of_nat (length items) ≤ 2 ^ 16)%Z → bitmaps_inv items k bm →
  ∃ bm', VnodeMapping.to_bitmaps_step (length items) bm (VirtualNode.from_index k, x) = Ret bm' ∧
         bitmaps_inv items (S k) bm'.
Proof.
  intros Hk Hlen Hinv. pose proof (lookup_lt_Some _ _ _ Hk) as Hlt.
  unfold VnodeMapping.to_bitmaps_step, VirtualNode.to_index, VirtualNode.from_index.
  rewrite wrap_small, Nat2Z.id by (split; lia).
  set (b0 := default _ (bm !! x)).
  assert (builder_ok b0 ∧ BitmapBuilder.len b0 = length items ∧
    builder_view b0 = item_bits x (take k items) ++ replicate (length items - k) false)
    as (Hb0 & Hl0 & Hv0).
  { specialize (Hinv x). unfold b0. destruct (bm !! x) as [b|]; simpl; [naive_solver|].
    destruct (zeroed_ok (length items)) as [H1 H2]. split_and!; [done..|]. rewrite H2.
    replace (length items) with (k + (length items - k)) at 1 by lia. rewrite replicate_add. f_equal.
    apply (list_eq_same_length _ _ k);
      [unfold item_bits; rewrite length_fmap, length_take; lia|apply length_replicate|].
    intros i a c Hi. rewrite lookup_replicate_2 by done. unfold item_bits.
    rewrite list_lookup_fmap. intros [= <-] (y & Hy & ->)%fmap_Some.
    symmetry. apply bool_decide_eq_false. intros ->. apply Hinv. by eapply list_elem_of_lookup_2. }
  destruct (set_ok b0 k true) as (b' & -> & Hb' & Hl' & Hv'); [done|lia|].
  eexists. split; [done|]. intros item. rewrite (take_S_r _ _ _ Hk).
  destruct (decide (item = x)) as [->|Hne].
  - rewrite lookup_insert_eq. split_and!; [apply elem_of_app; right; by left|done|congruence|].
    rewrite <-(take_S_r _ _ _ Hk), (item_bits_snoc _ _ _ _ Hk), Hv', Hv0.
    by rewrite bool_decide_true.
  - rewrite lookup_insert_ne by done. specialize (Hinv item).
    destruct (bm !! item) as [b|].
    + destruct Hinv as (H1 & H2 & H3 & H4). split_and!; [apply elem_of_app; by left|done..|].
      rewrite <-(take_S_r _ _ _ Hk), (item_bits_snoc _ _ _ _ Hk), H4, list_insert_id; [done|].
      assert (length (item_bits item (take k items)) = k) as Hlk
        by (unfold item_bits; rewrite length_fmap, length_take; lia).
      rewrite lookup_app_r, Hlk, Nat.sub_diag, lookup_replicate_2 by lia.
      by rewrite bool_decide_false by congruence.
    + rewrite elem_of_app, list_elem_of_singleton. naive_solver.
Qed.

Lemma to_bitmaps_ok m :
  mapping_ok m → (Z.of_nat (length (contents m)) ≤ 2 ^ 16)%Z →
  ∃ bm, VnodeMapping.to_bitmaps m = Ret bm ∧
    ∀ item, match bm !! item with
            | None => item ∉ contents m
            | Some b => item ∈ contents m ∧ bitmap_ok b ∧ view b = item_bits item (contents m)
            end.
Proof.
  intros Hm Hlen. unfold VnodeMapping.to_bitmaps, VnodeMapping.iter_with_vnode.
  rewrite mapping_iter_ok, mapping_len_ok by done. set (items := contents m) in *.
  destruct (rfold_inv (VnodeMapping.to_bitmaps_step (length items))
    (λ dn bm, bitmaps_inv items (length dn) bm)
    (imap (λ v item, (VirtualNode.from_index v, item)) items) ∅) as (bm & -> & Hbm).
  - intros item. rewrite lookup_empty. apply not_elem_of_nil.
  - intros dn x todo bm Heq Hinv.
    assert (imap (λ v item, (VirtualNode.from_index v, item)) items !! length dn = Some x) as Hx.
    { rewrite Heq. by apply list_lookup_middle. }
    rewrite list_lookup_imap in Hx. apply fmap_Some in Hx as (item & Hk & ->).
    rewrite length_app, Nat.add_1_r. by apply to_bitmaps_step_ok.
  - eexists. split; [done|]. intros item. rewrite length_imap in Hbm. specialize (Hbm item).
    rewrite lookup_fmap. destruct (bm !! item) as [b|]; simpl; rewrite take_ge in Hbm by done; [|done].
    destruct Hbm as (H1 & H2 & H3 & H4). destruct (finish_ok b H2) as [H5 H6].
    split_and!; [done..|]. rewrite H6, H4, Nat.sub_diag. apply app_nil_r.
Qed.

End mapping.

(** ** Worker slots *)

Lemma worker_slot_parts w k :
  is_uint 32 w → (Z.of_nat k < 2 ^ 32)%Z →
  WorkerSlotId.worker_id (WorkerSlotId.new w k) = w ∧
  WorkerSlotId.slot_idx (WorkerSlotId.new w k) = Z.of_nat k.
Proof.
  intros [Hw0 Hw] Hk. unfold WorkerSlotId.new, u64_shl.
  rewrite wrap_small by (rewrite Z.shiftl_mul_pow2 by lia; split; lia).
  rewrite lor_shiftl_add by lia. unfold WorkerSlotId.worker_id, WorkerSlotId.slot_idx.
  rewrite Z.shiftr_div_pow2 by lia. rewrite Z.div_add_l, Z.div_small, Z.add_0_r by lia.
  split; [by apply wrap_small|]. unfold wrap. rewrite Z.add_comm, Z.mod_add by lia.
  apply Z.mod_small. lia.
Qed.

Lemma elem_of_btree_insert x y l : y ∈ ActorMapping.btree_insert x l ↔ y = x ∨ y ∈ l.
Proof.
  induction l as [|z l IH]; simpl.
  { rewrite list_elem_of_singleton, elem_of_nil. tauto. }
  destruct (Z.ltb_spec x z); [by rewrite elem_of_cons|].
  destruct (Z.eqb_spec x z) as [->|]; rewrite ?elem_of_cons, ?IH; tauto.
Qed.

Lemma btree_insert_sorted x l :
  StronglySorted Z.lt l → StronglySorted Z.lt (ActorMapping.btree_insert x l).
Proof.
  induction 1 as [|z l Hl IH Hz]; simpl; [repeat constructor|].
  destruct (Z.ltb_spec x z).
  - constructor; [by constructor|]. constructor; [done|]. eapply Forall_impl; [exact Hz|]. lia.
  - destruct (Z.eqb_spec x z); [by constructor|]. constructor; [done|].
    apply Forall_forall. intros y [->|Hy]%elem_of_btree_insert; [lia|].
    rewrite Forall_forall in Hz. by apply Hz.
Qed.

Lemma sorted_lt_NoDup (l : list Z) : StronglySorted Z.lt l → NoDup l.
Proof.
  induction 1 as [|z l Hl IH Hz]; constructor; [|done].
  rewrite Forall_forall in Hz. intros Hin. specialize (Hz _ Hin). lia.
Qed.

(** The actors of each worker after grouping [actors]. *)
Definition groups_ok (a2w : gmap Z Z) (actors : list Z) (g : gmap Z (list Z)) : Prop :=
  ∀ w, let l := default [] (g !! w) in
       StronglySorted Z.lt l ∧ ∀ a, a ∈ l ↔ a ∈ actors ∧ a2w !! a = Some w.

Lemma group_actors_ok a2w actors :
  (∀ a, a ∈ actors → is_Some (a2w !! a)) →
  ∃ g, ActorMapping.group_actors a2w actors = Ret g ∧ groups_ok a2w actors g.
Proof.
  intros Hdef. apply rfold_inv.
  - intros w. rewrite lookup_empty. split; [constructor|]. intros a. simpl.
    rewrite !elem_of_nil. tauto.
  - intros dn a todo g -> Hg. destruct (Hdef a) as [w Hw].
    { apply elem_of_app. right. by left. }
    rewrite Hw. simpl. eexists. split; [done|]. intros w'.
    destruct (Hg w') as [Hs He]. destruct (decide (w' = w)) as [->|Hne].
    + rewrite lookup_insert_eq. simpl. split; [by apply btree_insert_sorted|]. intros b.
      rewrite elem_of_btree_insert, He, elem_of_app, list_elem_of_singleton. naive_solver.
    + rewrite lookup_insert_ne by done. split; [done|]. intros b.
      rewrite He, elem_of_app, list_elem_of_singleton. naive_solver.
Qed.

(** One worker's actors get consecutive slots; the others keep theirs. *)
Lemma locate_worker_ok w l loc :
  NoDup l →
  (∀ k a, l !! k = Some a → ActorMapping.locate_worker loc (w, l) !! a = Some (WorkerSlotId.new w k)) ∧
  (∀ a, a ∉ l → ActorMapping.locate_worker loc (w, l) !! a = loc !! a).
Proof.
  induction l as [|x l IH] using rev_ind; [done|]. intros (Hnd & Hx & _)%NoDup_app.
  destruct (IH Hnd) as [H1 H2]. unfold ActorMapping.locate_worker in *.
  rewrite imap_app, foldl_app. simpl. rewrite Nat.add_0_r. split.
  - intros k a Hk. destruct (decide (k < length l)).
    + rewrite lookup_app_l in Hk by done. rewrite lookup_insert_ne; [by apply H1|].
      intros ->. apply (Hx a); [by eapply list_elem_of_lookup_2|by left].
    + rewrite lookup_app_r in Hk by lia. apply list_lookup_singleton_Some in Hk as [Hk <-].
      rewrite lookup_insert_eq. do 2 f_equal. lia.
  - intros a Ha. rewrite elem_of_app, list_elem_of_singleton in Ha.
    rewrite lookup_insert_ne by naive_solver. apply H2. naive_solver.
Qed.

Lemma locate_all_ok es w l k a :
  NoDup es.*1 → Forall (λ e : Z * list Z, NoDup e.2) es →
  (∀ w1 l1 w2 l2 b, (w1, l1) ∈ es → (w2, l2) ∈ es → b ∈ l1 → b ∈ l2 → w1 = w2) →
  (w, l) ∈ es → l !! k = Some a →
  foldl ActorMapping.locate_worker ∅ es !! a = Some (WorkerSlotId.new w k).
Proof.
  intros Hnd Hl Hdisj Hin Hk. induction es as [|[w' l'] es IH] using rev_ind; [by apply elem_of_nil in Hin|].
  rewrite fmap_app in Hnd. apply NoDup_app in Hnd as (Hnd & Hnd' & _).
  apply Forall_app in Hl as [Hl [Hl' _]%Forall_cons]. rewrite foldl_app. simpl.
  destruct (locate_worker_ok w' l' (foldl ActorMapping.locate_worker ∅ es) Hl') as [H1 H2].
  rewrite elem_of_app, list_elem_of_singleton in Hin. destruct Hin as [Hin|[= <- <-]]; [|by apply H1].
  assert (a ∈ l) as Hal by (by eapply list_elem_of_lookup_2).
  rewrite H2.
  - apply IH; [done..| |done]. intros w1 l1 w2 l2 b Hb1 Hb2. apply Hdisj; apply elem_of_app; by left.
  - intros Ha. assert (w = w') as ->.
    { eapply (Hdisj w l w' l'); [apply elem_of_app; by left|apply elem_of_app; right; by left|done..]. }
    apply (Hnd' w'); [|by left]. apply list_elem_of_fmap. by exists (w', l).
Qed.

Lemma elem_of_dedup `{Countable Item} (x : Item) l : x ∈ VnodeMapping.dedup l ↔ x ∈ l.
Proof.
  induction l as [|y l IH]; [done|]. cbn [VnodeMapping.dedup]. destruct l as [|z l].
  - done.
  - case_bool_decide as Hyz; rewrite ?elem_of_cons, IH, !elem_of_cons; naive_solver.
Qed.

Lemma elem_of_iter_unique m a : a ∈ ActorMapping.iter_unique m ↔ a ∈ VnodeMapping.data m.
Proof. unfold ActorMapping.iter_unique. by rewrite elem_of_dedup, merge_sort_Permutation. Qed.

Lemma expand_fmap {A B} (f : A → B) prev ps :
  expand prev (prod_map id f <$> ps) = f <$> expand prev ps.
Proof.
  revert prev; induction ps as [|[i x] ps IH]; intros prev; [done|].
  csimpl. by rewrite IH, fmap_app, fmap_replicate.
Qed.

Lemma runs_ok_fmap {A B} (f : A → B) prev ps :
  runs_ok prev ps → runs_ok prev (prod_map id f <$> ps).
Proof. revert prev; induction ps as [|[i x] ps IH]; intros prev; [done|]. csimpl. naive_solver. Qed.

(** [transform] applies the map to every element of the vector. *)
Lemma transform_ok {A B} (m : VnodeMapping.t A) (to_map : A → option B) (f : A → B) :
  mapping_ok m → (∀ a, a ∈ VnodeMapping.data m → to_map a = Some (f a)) →
  ∃ m', VnodeMapping.transform m to_map = Ret m' ∧ mapping_ok m' ∧ contents m' = f <$> contents m.
Proof.
  intros [Hlen Hok] Hf. unfold VnodeMapping.transform.
  assert (rmap (λ item, unwrap (to_map item)) (VnodeMapping.data m) = Ret (f <$> VnodeMapping.data m)) as ->.
  { apply rmap_Ret, Forall2_fmap_r, Forall_Forall2_diag, Forall_forall. intros a Ha.
    unfold compose. by rewrite Hf. }
  eexists. split; [done|]. unfold mapping_ok, contents, pairs in *. simpl.
  assert (zip (VnodeMapping.original_indices m) (f <$> VnodeMapping.data m) =
    prod_map id f <$> zip (VnodeMapping.original_indices m) (VnodeMapping.data m)) as ->.
  { generalize (VnodeMapping.original_indices m) as js, (VnodeMapping.data m) as ds.
    induction js as [|j js IH]; intros [|d ds]; [done..|]. csimpl. by rewrite IH. }
  rewrite length_fmap, expand_fmap. split_and!; [done|by apply runs_ok_fmap|done].
Qed.

(** The slot table: every actor of a group has its worker and its rank. *)
Lemma actor_location_ok a2w actors g order a w :
  groups_ok a2w actors g → order ≡ₚ map_to_list g → a ∈ actors → a2w !! a = Some w →
  ∃ l k, g !! w = Some l ∧ l !! k = Some a ∧
    foldl ActorMapping.locate_worker ∅ order !! a = Some (WorkerSlotId.new w k).
Proof.
  intros Hg Hord Ha Hw. destruct (Hg w) as [_ He].
  destruct (g !! w) as [l|] eqn:Hl; simpl in He; 
    [|exfalso; apply (not_elem_of_nil a), He; done].
  destruct (list_elem_of_lookup_1 l a) as [k Hk]; [by apply He|].
  exists l, k. split_and!; [done..|]. apply (locate_all_ok _ _ l).
  - rewrite Hord. apply NoDup_fst_map_to_list.
  - rewrite Hord. apply Forall_forall. intros [w' l'] Hin%elem_of_map_to_list.
    destruct (Hg w') as [Hs _]. rewrite Hin in Hs. by apply sorted_lt_NoDup.
  - intros w1 l1 w2 l2 b. rewrite Hord, !elem_of_map_to_list. intros H1 H2 Hb1 Hb2.
    destruct (Hg w1) as [_ E1], (Hg w2) as [_ E2]. rewrite H1 in E1. rewrite H2 in E2.
    apply E1 in Hb1 as [_ Hb1]. apply E2 in Hb2 as [_ Hb2]. congruence.
  - by rewrite Hord, elem_of_map_to_list.
  - done.
Qed.

Lemma groups_length a2w actors g w l :
  groups_ok a2w actors g → g !! w = Some l → length l ≤ length actors.
Proof.
  intros Hg Hl. destruct (Hg w) as [Hs He]. rewrite Hl in Hs, He. simpl in *.
  apply submseteq_length, NoDup_submseteq; [by apply sorted_lt_NoDup|].
  intros a Ha. by apply He.
Qed.

Lemma dedup_length `{Countable Item} (l : list Item) : length (VnodeMapping.dedup l) ≤ length l.
Proof.
  induction l as [|y l IH]; [done|]. cbn [VnodeMapping.dedup]. destruct l as [|z l]; [done|].
  case_bool_decide; simpl in *; lia.
Qed.

(** ** Properties *)

(** A [VnodeMapping] built from a vector represents that vector.  For every vector of
    fewer than 2^32 items, compressing it into runs and reading it back is the identity
    ([to_expanded], [decompress_data]), [len] is its length, and the binary search of
    [index] returns the item at each position and panics exactly beyond the end. *)
Theorem vnode_mapping_represents_vector `{Countable Item} (items : list Item) :
  (Z.of_nat (length items) < 2 ^ 32)%Z →
  let m := VnodeMapping.from_expanded items in
  VnodeMapping.to_expanded m = items ∧
  VnodeMapping.len m = length items ∧
  (∀ v, (Z.of_nat v < 2 ^ 32)%Z → VnodeMapping.index m v = unwrap (items !! v)) ∧
  Compress.decompress_data (VnodeMapping.original_indices m) (VnodeMapping.data m) = Ret items.
Proof.
  intros Hlen m. destruct (from_expanded_ok items Hlen) as [Hok Hc]. fold m in Hok, Hc.
  split_and!.
  - unfold VnodeMapping.to_expanded. by rewrite mapping_iter_ok.
  - by rewrite mapping_len_ok, Hc.
  - intros v Hv. by rewrite mapping_index_ok, Hc.
  - rewrite <-(pairs_fst m), <-(pairs_snd m), decompress_pairs by (done || apply Hok).
    f_equal. exact Hc.
Qed.

Lemma vnode_mapping_represents_vector_witness :
  VnodeMapping.to_expanded (VnodeMapping.from_expanded [14; 14; 14; 27; 27]) = [14; 14; 14; 27; 27].
Proof. apply (vnode_mapping_represents_vector [14; 14; 14; 27; 27]). by vm_compute. Defined.

(** Uniform mappings are balanced.  [new_uniform] panics exactly when there are no items
    or more items than vnodes; otherwise the mapping covers all the vnodes in contiguous
    blocks in the order of the items, the first [vnode_count mod n] blocks having
    [vnode_count / n + 1] vnodes and the others [vnode_count / n]. *)
Theorem new_uniform_balanced `{Countable Item} (items : list Item) (vnode_count : nat) :
  (Z.of_nat vnode_count < 2 ^ 32)%Z →
  let n := length items in
  if decide (0 < n ≤ vnode_count) then
    ∃ m, VnodeMapping.new_uniform items vnode_count = Ret m ∧
      VnodeMapping.len m = vnode_count ∧
      VnodeMapping.to_expanded m = mjoin (imap (λ k x, replicate
        (vnode_count `div` n + if (k <? vnode_count `mod` n)%nat then 1 else 0) x) items)
  else VnodeMapping.new_uniform items vnode_count = Panic.
Proof.
  intros Hc n. case_decide as Hn.
  - destruct (new_uniform_ok items vnode_count Hn Hc) as (m & Hm & Hok & Hlen & Hcont).
    exists m. split_and!; [done..|]. unfold VnodeMapping.to_expanded. by rewrite mapping_iter_ok.
  - unfold VnodeMapping.new_uniform. fold n.
    destruct (Nat.leb_spec n vnode_count); [|done]. simpl.
    by destruct (Nat.eqb_spec n 0); [|lia].
Qed.

Lemma new_uniform_balanced_witness :
  ∃ m, VnodeMapping.new_uniform [0; 1; 2] 10 = Ret m ∧
    VnodeMapping.to_expanded m = [0; 0; 0; 0; 1; 1; 1; 2; 2; 2].
Proof.
  destruct (new_uniform_balanced [0; 1; 2] 10 ltac:(by vm_compute)) as (m & H1 & _ & H2).
  exists m. split; [exact H1|]. rewrite H2. by vm_compute.
Defined.



(** [ActorMapping::to_worker_slot] assigns worker slots faithfully.  When every actor of
    the mapping has a worker, the result maps each vnode to a slot of the worker of its
    actor, two vnodes get the same slot exactly when they have the same actor, and this
    holds for any iteration order of the hash map of workers. *)
Theorem to_worker_slot_faithful (m : ActorMapping.t) (a2w : gmap Z Z) order :
  mapping_ok m → (∀ g, order g ≡ₚ map_to_list g) →
  (∀ a, a ∈ VnodeMapping.data m → ∃ w, a2w !! a = Some w ∧ is_uint 32 w) →
  (Z.of_nat (length (VnodeMapping.data m)) < 2 ^ 32)%Z →
  ∃ (m' : VnodeMapping.t WorkerSlotId.t) (slot : Z → WorkerSlotId.t),
    ActorMapping.to_worker_slot order m a2w = Ret m' ∧
    contents m' = slot <$> contents m ∧
    (∀ a, a ∈ VnodeMapping.data m → a2w !! a = Some (WorkerSlotId.worker_id (slot a))) ∧
    (∀ a b, a ∈ VnodeMapping.data m → b ∈ VnodeMapping.data m → slot a = slot b → a = b).
Proof.
  intros Hm Hord Hdef Hsize. unfold ActorMapping.to_worker_slot.
  set (actors := ActorMapping.iter_unique m).
  destruct (group_actors_ok a2w actors) as (g & -> & Hg).
  { intros a Ha%elem_of_iter_unique. destruct (Hdef a Ha) as (w & -> & _). done. }
  cbn [mbind outcome_bind]. set (loc := foldl _ _ _).
  assert (length actors ≤ length (VnodeMapping.data m)) as Hactors.
  { unfold actors, ActorMapping.iter_unique. etrans; [apply dedup_length|].
    by rewrite merge_sort_Permutation. }
  assert (∀ a, a ∈ VnodeMapping.data m → ∃ w l k, a2w !! a = Some w ∧ is_uint 32 w ∧
    g !! w = Some l ∧ l !! k = Some a ∧ (Z.of_nat k < 2 ^ 32)%Z ∧
    loc !! a = Some (WorkerSlotId.new w k)) as Hloc.
  { intros a Ha. destruct (Hdef a Ha) as (w & Hw & Uw).
    destruct (actor_location_ok a2w actors g (order g) a w) as (l & k & H1 & H2 & H3);
      [done|done|by apply elem_of_iter_unique|done|].
    pose proof (groups_length _ _ _ _ _ Hg H1). pose proof (lookup_lt_Some _ _ _ H2).
    exists w, l, k. split_and!; try done. lia. }
  set (slot := λ a, default (WorkerSlotId.new 0 0) (loc !! a)).
  destruct (transform_ok m (λ a, loc !! a) slot Hm)
    as (m' & Hrun & _ & Hc).
  { intros a Ha. destruct (Hloc a Ha) as (w & l & k & _ & _ & _ & _ & _ & Hl). unfold slot. by rewrite Hl. }
  exists m', slot. split_and!; [done..| |].
  - intros a Ha. unfold slot. destruct (Hloc a Ha) as (w & l & k & Hw & Uw & _ & _ & Hk & ->). simpl.
    by rewrite (proj1 (worker_slot_parts w k Uw Hk)).
  - intros a b Ha Hb. unfold slot. destruct (Hloc a Ha) as (w & l & k & _ & Uw & Hl & Hka & Hk & ->).
    destruct (Hloc b Hb) as (w' & l' & k' & _ & Uw' & Hl' & Hkb & Hk' & ->). simpl. intros Heq.
    destruct (worker_slot_parts w k Uw Hk) as [E1 E2].
    destruct (worker_slot_parts w' k' Uw' Hk') as [E1' E2']. rewrite Heq in E1, E2.
    assert (w = w') as -> by congruence. assert (k = k') as -> by lia. congruence.
Qed.

Lemma to_worker_slot_faithful_witness :
  ∃ m', ActorMapping.to_worker_slot map_to_list (VnodeMapping.from_expanded [11; 11; 12; 13]%Z)
          {[ 11 := 1; 12 := 2; 13 := 1 ]}%Z = Ret m' ∧ length (contents m') = 4.
Proof.
  destruct (to_worker_slot_faithful (VnodeMapping.from_expanded [11; 11; 12; 13]%Z)
    {[ 11 := 1; 12 := 2; 13 := 1 ]}%Z map_to_list) as (m' & slot & H1 & H2 & _).
  - apply from_expanded_ok. by vm_compute.
  - done.
  - intros a Ha. vm_compute in Ha.
    repeat (apply elem_of_cons in Ha as [->|Ha]; [eexists; split; [by vm_compute|split; lia]|]).
    by apply elem_of_nil in Ha.
  - by vm_compute.
  - exists m'. split; [exact H1|]. rewrite H2, length_fmap. by vm_compute.
Defined.
