(* ===== verification/Placement.v ===== *)
(** * Placing vnodes on serving workers

    [src/common/src/vnode_mapping/vnode_placement.rs]: [place_vnode] selects worker slots in
    round-robin order, gives each an equal share of the vnodes (up to one) and takes
    from the slots of a hint only the vnodes beyond their share.  The theorems are in
    [PlacementSpec.v]. *)

From Stdlib Require Import ZArith Lia.
From stdpp Require Import gmap.
From S2P Require Import Prelude Order Bytes Epoch Bits Bitmap Vnode.

Local Open Scope Z_scope.

(** [WorkerNode] of [common.proto], the fields the placement reads. *)
Module WorkerNode.

Inductive WorkerType := Unspecified | Frontend | ComputeNode | RiseCtl | Compactor | Meta.

#[global] Instance WorkerType_eq_dec : EqDecision WorkerType.
Proof. solve_decision. Defined.

Record Property := mk_property { is_serving : bool; parallelism : nat }.

Record t := mk { id : Z; type : WorkerType; property : option Property }.

Definition compute_node_parallelism (self : t) : outcome nat :=
  _ ← rassert (bool_decide (type self = ComputeNode));
  p ← unwrap (property self);
  Ret (parallelism p).

End WorkerNode.

(** [sorted_by_key]: the stable sort by an integer key. *)
Section sorted_by_key.
Context {A : Type} (key : A → Z).

Fixpoint insert_by_key (x : A) (l : list A) : list A :=
  match l with
  | [] => [x]
  | y :: l' => if key x <=? key y then x :: l else y :: insert_by_key x l'
  end.

Definition sorted_by_key (l : list A) : list A := foldr insert_by_key [] l.
End sorted_by_key.

Module Placement.

(** [i32] arithmetic wraps. *)
Definition i32 (x : Z) : Z := wrap 32 (x + 2 ^ 31) - 2 ^ 31.

Record Balance := mk {
  slot : WorkerSlotId.t;
  balance : Z;
  builder : BitmapBuilder.t;
  is_temp : bool
}.

Definition serving (w : WorkerNode.t) : bool :=
  match WorkerNode.property w with Some p => WorkerNode.is_serving p | None => false end.

(** The slots of each serving worker, workers ordered by id. *)
Definition worker_slots (workers : list WorkerNode.t) : outcome (list (list WorkerSlotId.t)) :=
  rmap (λ w, n ← WorkerNode.compute_node_parallelism w;
             Ret (WorkerSlotId.new (WorkerNode.id w) <$> seq 0 n))
    (sorted_by_key WorkerNode.id (filter (λ w, serving w = true) workers)).

(** One [extract_if] pass: the next slot of every worker; exhausted workers are removed. *)
Definition round (slots : list (list WorkerSlotId.t)) : list (list WorkerSlotId.t) * list WorkerSlotId.t :=
  (omap (λ l, match l with [] => None | _ :: l' => Some l' end) slots,
   omap head slots).

Fixpoint round_robin (fuel : nat) (slots : list (list WorkerSlotId.t)) : list WorkerSlotId.t :=
  match fuel with
  | O => []
  | S fuel => match slots with
              | [] => []
              | _ => let '(slots', selected) := round slots in selected ++ round_robin fuel slots'
              end
  end.

(** Each pass shortens every remaining list or removes it. *)
Definition select_fuel (slots : list (list WorkerSlotId.t)) : nat :=
  S (length slots + sum_list (length <$> slots)).

(** [unwrap_or(usize::MAX)] has no effect under the minimum with [vnode_count]. *)
Definition selected_slots (workers : list WorkerNode.t) (max_parallelism : option nat)
    (vnode_count : nat) : outcome (list WorkerSlotId.t) :=
  slots ← worker_slots workers;
  let serving_parallelism :=
    (sum_list (length <$> slots) `min`
     match max_parallelism with Some m => m `min` vnode_count | None => vnode_count end)%nat in
  let all := round_robin (select_fuel slots) slots in
  _ ← rassert (serving_parallelism <=? length all)%nat;
  Ret (take serving_parallelism all).

(** The balances of the selected slots and of the temporary slot. *)
Abbreviation balances := (gmap WorkerSlotId.t Balance).

Definition init_step (vnode_count expected : nat) (acc : balances * nat) (s : WorkerSlotId.t)
  : balances * nat :=
  let '(m, remain) := acc in
  let b := i32 (- i32 (Z.of_nat expected)) in
  if (0 <? remain)%nat
  then (<[ s := mk s (i32 (b - 1)) (BitmapBuilder.zeroed vnode_count) false ]> m, (remain - 1)%nat)
  else (<[ s := mk s b (BitmapBuilder.zeroed vnode_count) false ]> m, remain).

Definition init_balances (selected : list WorkerSlotId.t) (vnode_count : nat) : balances :=
  let expected := (vnode_count `div` length selected)%nat in
  let remain := (vnode_count `mod` length selected)%nat in
  (foldl (init_step vnode_count expected) (∅, remain) selected).1.

(** Its slot id is [WorkerSlotId::new(0, usize::MAX)]. *)
Definition temp_slot (vnode_count : nat) : Balance :=
  mk u64_max 0 (BitmapBuilder.zeroed vnode_count) true.

(** Give a vnode to a balance. *)
Definition take_vnode (b : Balance) (vnode : VirtualNode.t) : outcome Balance :=
  bs ← BitmapBuilder.set (builder b) (VirtualNode.to_index vnode) true;
  Ret (mk (slot b) (i32 (balance b + 1)) bs (is_temp b)).

Definition hint_step (selected : list WorkerSlotId.t) (acc : balances * Balance)
    (e : VirtualNode.t * WorkerSlotId.t) : outcome (balances * Balance) :=
  let '(m, temp) := acc in
  let '(vnode, worker_slot) := e in
  if bool_decide (worker_slot ∈ selected)
  then b ← unwrap (m !! worker_slot); b ← take_vnode b vnode; Ret (<[ worker_slot := b ]> m, temp)
  else temp ← take_vnode temp vnode; Ret (m, temp).

Definition assign_all (hint : option WorkerSlotMapping.t) (selected : list WorkerSlotId.t)
    (vnode_count : nat) (acc : balances * Balance) : outcome (balances * Balance) :=
  match hint with
  | Some hint => rfold (hint_step selected) (VnodeMapping.iter_with_vnode hint) acc
  | None =>
      rfold (λ '(m, temp) vnode, temp ← take_vnode temp vnode; Ret (m, temp))
        (VirtualNode.all vnode_count) acc
  end.

(** Move up to [n] vnodes from one builder to another, in index order. *)
Fixpoint move_vnodes (n moved : Z) (idxs : list nat) (src dst : BitmapBuilder.t)
  : outcome (BitmapBuilder.t * BitmapBuilder.t) :=
  match idxs with
  | [] => Ret (src, dst)
  | idx :: idxs' =>
      if n <=? moved then Ret (src, dst)
      else
        set ← BitmapBuilder.is_set src idx;
        if (set : bool) then
          src ← BitmapBuilder.set src idx false;
          taken ← BitmapBuilder.is_set dst idx;
          _ ← rassert (negb taken);
          dst ← BitmapBuilder.set dst idx true;
          move_vnodes n (i32 (moved + 1)) idxs' src dst
        else move_vnodes n moved idxs' src dst
  end.

Abbreviation results := (gmap WorkerSlotId.t Bitmap.t).

Definition record_result (b : Balance) (res : results) : results :=
  if is_temp b then res else <[ slot b := BitmapBuilder.finish (builder b) ]> res.

(** The loop over the double-ended queue; [fuel] bounds the iterations. *)
Fixpoint rebalance (fuel vnode_count : nat) (deque : list Balance) (res : results)
  : outcome results :=
  match fuel with
  | O => Panic
  | S fuel =>
      match deque with
      | [] => Ret res
      | [single] => _ ← rassert (balance single =? 0); Ret (record_result single res)
      | src :: rest =>
          dst ← unwrap (last rest);
          let mid := take (length rest - 1) rest in
          let n := i32 (Z.abs (balance src)) `min` i32 (Z.abs (balance dst)) in
          '(sb, db) ← move_vnodes n 0 (seq 0 vnode_count) (builder src) (builder dst);
          let src := mk (slot src) (i32 (balance src - n)) sb (is_temp src) in
          let dst := mk (slot dst) (i32 (balance dst + n)) db (is_temp dst) in
          let '(mid, res) := if balance src =? 0 then (mid, record_result src res) else (src :: mid, res) in
          let '(mid, res) := if balance dst =? 0 then (mid, record_result dst res) else (mid ++ [dst], res) in
          rebalance fuel vnode_count mid res
      end
  end.

(** [entry(slot).or_insert(zeros).bitor_assign(bitmap)] for every result. *)
Definition merge_step (vnode_count : nat) (m : results) (e : WorkerSlotId.t * Bitmap.t)
  : outcome results :=
  bm ← Bitmap.bitor (default (Bitmap.zeros vnode_count) (m !! e.1)) e.2;
  Ret (<[ e.1 := bm ]> m).

Section place_vnode.
(** The iteration orders of the hash maps. *)
Context (into_values : balances → list Balance).
Context (into_iter : results → list (WorkerSlotId.t * Bitmap.t)).

Definition place_vnode (hint_worker_slot_mapping : option WorkerSlotMapping.t)
    (workers : list WorkerNode.t) (max_parallelism : option nat) (vnode_count : nat)
  : outcome (option WorkerSlotMapping.t) :=
  _ ← match hint_worker_slot_mapping with
      | Some mapping => rassert (VnodeMapping.len mapping =? vnode_count)%nat
      | None => Ret tt
      end;
  selected ← selected_slots workers max_parallelism vnode_count;
  if bool_decide (selected = []) then Ret None
  else
    '(m, temp) ← assign_all hint_worker_slot_mapping selected vnode_count
                   (init_balances selected vnode_count, temp_slot vnode_count);
    let deque := reverse (sorted_by_key balance (into_values m ++ [temp])) in
    res ← rebalance (S (length deque)) vnode_count deque ∅;
    worker_result ← rfold (merge_step vnode_count) (into_iter res) ∅;
    mapping ← VnodeMapping.from_bitmaps (into_iter worker_result);
    Ret (Some mapping).
End place_vnode.

End Placement.
