(* ===== verification/PlacementSpec.v ===== *)
(** * Vnode placement is total, balanced and keeps locality

    Theorems about [place_vnode] ([Placement.v]): for any iteration order of the hash maps it
    returns without panicking, gives every vnode to a selected slot, shares the vnodes
    equally up to one, and leaves the hinted vnodes of a slot in place up to its share. *)

From Stdlib Require Import ZArith Lia.
From stdpp Require Import gmap sorting.
From S2P Require Import Prelude Order Bytes Epoch Bits Bitmap BitmapSpec BitmapAlgebra.
From S2P Require Import BitmapIterSpec Vnode Mapping Placement.
Import Placement.

(** ** Sorting and round-robin selection *)

Section sort.
Context {A : Type} (key : A → Z).

Lemma insert_by_key_perm x l : insert_by_key key x l ≡ₚ x :: l.
Proof.
  induction l as [|y l IH]; [done|]. simpl. destruct (_ <=? _)%Z; [done|].
  rewrite IH. apply Permutation_swap.
Qed.

Lemma sorted_by_key_perm l : sorted_by_key key l ≡ₚ l.
Proof. induction l as [|x l IH]; [done|]. simpl. by rewrite insert_by_key_perm, IH. Qed.

Lemma insert_by_key_sorted x l :
  StronglySorted (λ x y, key x ≤ key y)%Z l →
  StronglySorted (λ x y, key x ≤ key y)%Z (insert_by_key key x l).
Proof.
  induction 1 as [|y l Hs IH Hf]; [by repeat constructor|]. simpl.
  destruct (Z.leb_spec (key x) (key y)) as [Hle|Hlt].
  - constructor; [by constructor|]. constructor; [done|].
    eapply Forall_impl; [exact Hf|]. simpl. lia.
  - constructor; [done|]. rewrite insert_by_key_perm. constructor; [lia|done].
Qed.

Lemma sorted_by_key_sorted l : StronglySorted (λ x y, key x ≤ key y)%Z (sorted_by_key key l).
Proof. induction l as [|x l IH]; [constructor|]. by apply insert_by_key_sorted. Qed.

End sort.

Lemma round_perm slots : (round slots).2 ++ concat (round slots).1 ≡ₚ concat slots.
Proof.
  unfold round. simpl. induction slots as [|[|x l] slots IH]; [done|done|]. simpl.
  rewrite (app_assoc _ l), (Permutation_app_comm _ l), <-app_assoc. by rewrite IH.
Qed.

Lemma round_measure slots :
  slots ≠ [] → select_fuel (round slots).1 < select_fuel slots.
Proof.
  unfold select_fuel, round. simpl.
  assert (length (omap (λ l : list WorkerSlotId.t, match l with [] => None | _ :: l' => Some l' end) slots)
    + sum_list (length <$> omap (λ l : list WorkerSlotId.t, match l with [] => None | _ :: l' => Some l' end) slots)
    + length slots ≤ length slots + sum_list (length <$> slots)) as H.
  { induction slots as [|[|x l] slots IH]; csimpl; lia. }
  destruct slots; [done|]. csimpl in *. lia.
Qed.

(** The fuel is enough: every slot is selected once. *)
Lemma round_robin_perm fuel slots :
  select_fuel slots ≤ fuel → round_robin fuel slots ≡ₚ concat slots.
Proof.
  revert slots. induction fuel as [|fuel IH]; intros slots Hf; [unfold select_fuel in Hf; lia|].
  destruct slots as [|l slots]; [done|]. cbn [round_robin].
  pose proof (round_measure (l :: slots) ltac:(done)) as Hm.
  pose proof (round_perm (l :: slots)) as Hp.
  destruct (round (l :: slots)) as [slots' selected]. cbn [fst snd] in *.
  rewrite IH by lia. done.
Qed.

(** ** Owners *)

(** The slot of a balance; the temporary one has none. *)
Definition key (b : Balance) : option Z := if is_temp b then None else Some (slot b).

Implicit Types (own : list (option Z)) (k ks kd : option Z) (b src dst : Balance).

(** The vnodes of an owner. *)
Definition owned k own : list bool := (λ o, bool_decide (o = k)) <$> own.
Definition cnt k own : Z := Z.of_nat (count_true (owned k own)).

Lemma cnt_cons k o own : cnt k (o :: own) = ((if decide (o = k) then 1 else 0) + cnt k own)%Z.
Proof.
  unfold cnt, owned. rewrite fmap_cons, count_true_cons.
  case_decide; [rewrite bool_decide_true by done|rewrite bool_decide_false by done]; lia.
Qed.

(** Give the first [m] vnodes of [ks] to [kd]. *)
Fixpoint reassign (m : nat) ks kd own : list (option Z) :=
  match m, own with
  | S m', o :: own' => if decide (o = ks) then kd :: reassign m' ks kd own' else o :: reassign m ks kd own'
  | _, _ => own
  end.

Lemma reassign_0 ks kd own : reassign 0 ks kd own = own.
Proof. by destruct own. Qed.

Lemma reassign_length m ks kd own : length (reassign m ks kd own) = length own.
Proof.
  revert m. induction own as [|o own IH]; intros [|m]; [done..|]. simpl.
  case_decide; simpl; by rewrite IH.
Qed.

Lemma reassign_other m ks kd own k : k ≠ ks → k ≠ kd → owned k (reassign m ks kd own) = owned k own.
Proof.
  intros H1 H2. revert m. induction own as [|o own IH]; intros [|m]; [done..|]. simpl.
  case_decide; simpl; unfold owned in *; rewrite IH; [|done].
  f_equal. rewrite !bool_decide_false by congruence. done.
Qed.

Lemma reassign_cnt m ks kd own :
  ks ≠ kd → (Z.of_nat m ≤ cnt ks own)%Z →
  cnt ks (reassign m ks kd own) = (cnt ks own - Z.of_nat m)%Z ∧
  cnt kd (reassign m ks kd own) = (cnt kd own + Z.of_nat m)%Z.
Proof.
  intros Hne. revert m. induction own as [|o own IH]; intros [|m] Hm.
  1,3: rewrite reassign_0; lia.
  { by exfalso. }
  rewrite cnt_cons in Hm. cbn [reassign]. destruct (decide (o = ks)) as [->|Ho].
  - destruct (IH m) as [H1 H2]; [lia|]. rewrite !cnt_cons, H1, H2.
    rewrite (decide_False (P := kd = ks)), (decide_False (P := ks = kd)) by congruence.
    rewrite !decide_True by done. lia.
  - destruct (IH (S m)) as [H1 H2]; [lia|]. rewrite !cnt_cons, H1, H2.
    rewrite (decide_False (P := o = ks)) by done. lia.
Qed.

(** An owner changes only from [ks] to [kd]. *)
Lemma reassign_lookup m ks kd own i o :
  reassign m ks kd own !! i = Some o →
  own !! i = Some o ∨ (own !! i = Some ks ∧ o = kd).
Proof.
  revert m i. induction own as [|x own IH]; intros [|m] i; [by auto..|]. cbn [reassign].
  destruct (decide (x = ks)) as [->|]; destruct i as [|i]; simpl; eauto. intros [= <-]. by right.
Qed.

Lemma reassign_keep m ks kd own i o :
  own !! i = Some o → o ≠ ks → reassign m ks kd own !! i = Some o.
Proof.
  revert m i. induction own as [|x own IH]; intros [|m] i; [by auto..|]. cbn [reassign].
  destruct (decide (x = ks)) as [->|]; destruct i as [|i]; simpl; eauto. congruence.
Qed.

(** ** Moving vnodes *)

Lemma i32_small x : (- 2 ^ 31 ≤ x < 2 ^ 31)%Z → i32 x = x.
Proof. intros. unfold i32. rewrite wrap_small by (split; lia). lia. Qed.

Definition builds (n : nat) (own : list (option Z)) k (bb : BitmapBuilder.t) : Prop :=
  builder_ok bb ∧ BitmapBuilder.len bb = n ∧ builder_view bb = owned k own.

Lemma owned_insert k own i o :
  owned k (<[i := o]> own) = <[i := bool_decide (o = k)]> (owned k own).
Proof. unfold owned. by rewrite list_fmap_insert. Qed.

Lemma lookup_owned k own i o : own !! i = Some o → owned k own !! i = Some (bool_decide (o = k)).
Proof. intros Hi. unfold owned. by rewrite list_lookup_fmap, Hi. Qed.

(** Moving one vnode. *)
Lemma builds_set n own k bb i x o :
  builds n own k bb → own !! i = Some x → i < n →
  ∃ bb', BitmapBuilder.set bb i (bool_decide (o = k)) = Ret bb' ∧ builds n (<[i := o]> own) k bb'.
Proof.
  intros (Hok & Hlen & Hv) Hx Hi. destruct (set_ok bb i (bool_decide (o = k))) as (bb' & Hs & Hok' & Hlen' & Hv');
    [done|lia|].
  exists bb'. split; [done|]. split_and!; [done|congruence|]. by rewrite Hv', Hv, owned_insert.
Qed.

Lemma builds_is_set n own k bb i x :
  builds n own k bb → own !! i = Some x → i < n → BitmapBuilder.is_set bb i = Ret (bool_decide (x = k)).
Proof.
  intros (Hok & Hlen & Hv) Hx Hi. destruct (is_set_ok bb i) as (y & -> & Hy); [done|lia|].
  rewrite Hv, (lookup_owned _ _ _ _ Hx) in Hy. congruence.
Qed.

Lemma move_vnodes_ok n ks kd (m moved : Z) post pre sb db :
  ks ≠ kd → length (pre ++ post) = n → (0 ≤ moved)%Z → (moved ≤ m)%Z → (m < 2 ^ 31)%Z →
  builds n (pre ++ post) ks sb → builds n (pre ++ post) kd db →
  ∃ sb' db', move_vnodes m moved (seq (length pre) (length post)) sb db = Ret (sb', db') ∧
    builds n (pre ++ reassign (Z.to_nat (m - moved)) ks kd post) ks sb' ∧
    builds n (pre ++ reassign (Z.to_nat (m - moved)) ks kd post) kd db'.
Proof.
  intros Hne. revert pre moved sb db.
  induction post as [|o post IH]; intros pre moved sb db Hlen H0 Hm H31 Hs Hd.
  { eexists _, _. split; [done|]. by destruct (Z.to_nat _). }
  cbn [length seq move_vnodes]. destruct (Z.leb_spec m moved) as [Hle|Hlt].
  { replace (Z.to_nat (m - moved)) with 0 by lia. rewrite reassign_0. by eexists _, _. }
  assert ((pre ++ o :: post) !! length pre = Some o) as Ho by (apply list_lookup_middle; lia).
  assert (length pre < n) as Hlt' by (rewrite <-Hlen, length_app; simpl; lia).
  rewrite (builds_is_set _ _ _ _ _ _ Hs Ho Hlt'). cbn [mbind outcome_bind].
  destruct (Z.to_nat (m - moved)) as [|mv] eqn:Emv; [lia|]. cbn [reassign].
  case_bool_decide as Hk.
  - subst o. rewrite decide_True by done.
    destruct (builds_set _ _ _ _ _ _ kd Hs Ho Hlt') as (sb' & Hset & Hs').
    rewrite bool_decide_false in Hset by congruence. rewrite Hset. cbn [mbind outcome_bind].
    rewrite (builds_is_set _ _ _ _ _ _ Hd Ho Hlt'). cbn [mbind outcome_bind].
    rewrite bool_decide_false by done. cbn [negb rassert mbind outcome_bind].
    destruct (builds_set _ _ _ _ _ _ kd Hd Ho Hlt') as (db' & Hset' & Hd').
    rewrite bool_decide_true in Hset' by done. rewrite Hset'. cbn [mbind outcome_bind].
    assert (<[length pre := kd]> (pre ++ ks :: post) = (pre ++ [kd]) ++ post) as Hins.
    { rewrite insert_app_r_alt by lia. by rewrite Nat.sub_diag, <-app_assoc. }
    rewrite Hins in Hs', Hd'. rewrite i32_small by lia.
    destruct (IH (pre ++ [kd]) (moved + 1)%Z sb' db') as (s2 & d2 & Hrun & H2); try done; [|lia..|].
    + rewrite <-Hlen, !length_app. simpl. lia.
    + rewrite length_app, Nat.add_1_r in Hrun. exists s2, d2. split; [done|].
      rewrite <-!app_assoc in H2. replace (Z.to_nat (m - (moved + 1))) with mv in H2 by lia. done.
  - rewrite decide_False by done.
    destruct (IH (pre ++ [o]) moved sb db) as (s2 & d2 & Hrun & H2); rewrite <-?app_assoc; try done.
    rewrite length_app, Nat.add_1_r in Hrun. exists s2, d2. split; [done|].
    rewrite <-!app_assoc, Emv in H2. done.
Qed.

(** ** The invariant of the queue *)

Definition sumZ (l : list Z) : Z := foldr Z.add 0%Z l.

#[global] Instance sumZ_perm : Proper ((≡ₚ) ==> (=)) sumZ.
Proof. intros l1 l2 H. induction H; simpl; lia. Qed.

Lemma sumZ_app l1 l2 : sumZ (l1 ++ l2) = (sumZ l1 + sumZ l2)%Z.
Proof. induction l1 as [|x l1 IH]; simpl; [done|lia]. Qed.

Lemma sumZ_zero (bs : list Balance) : Forall (λ b, balance b = 0%Z) bs → sumZ (balance <$> bs) = 0%Z.
Proof. induction 1 as [|b bs Hb _ IH]; [done|]. csimpl. lia. Qed.

Section queue.
Context (n : nat) (quota : option Z → Z) (own0 : list (option Z)).
Context (Hn : (Z.of_nat n ≤ 2 ^ 16)%Z).
Context (Hquota : ∀ k, (0 ≤ quota k ≤ 2 ^ 17)%Z).

(** A slot that was hinted more than its share only loses vnodes; one that was hinted less
    only gains. *)
Definition local_ok own b : Prop :=
  ((quota (key b) ≤ cnt (key b) own0)%Z →
     (0 ≤ balance b)%Z ∧ ∀ i, own !! i = Some (key b) → own0 !! i = Some (key b)) ∧
  ((cnt (key b) own0 ≤ quota (key b))%Z →
     (balance b ≤ 0)%Z ∧ ∀ i, own0 !! i = Some (key b) → own !! i = Some (key b)).

Definition bal_ok own b : Prop :=
  builds n own (key b) (builder b) ∧ balance b = (cnt (key b) own - quota (key b))%Z ∧ local_ok own b.

Definition queue_inv own (bs : list Balance) : Prop :=
  length own = n ∧ NoDup (key <$> bs) ∧ Forall (λ o, o ∈ key <$> bs) own ∧
  Forall (bal_ok own) bs ∧ sumZ (balance <$> bs) = 0%Z.

#[global] Instance queue_inv_perm own : Proper ((≡ₚ) ==> iff) (queue_inv own).
Proof.
  assert (∀ bs1 bs2, bs1 ≡ₚ bs2 → queue_inv own bs1 → queue_inv own bs2) as H.
  { intros bs1 bs2 Hp (H1 & H2 & H3 & H4 & H5). pose proof (fmap_Permutation key _ _ Hp) as Hk.
    split; [done|]. split; [by rewrite <-Hk|]. split; [|split].
    - eapply Forall_impl; [exact H3|]. intros o Ho. by rewrite <-Hk.
    - by rewrite <-Hp.
    - by rewrite <-(fmap_Permutation balance _ _ Hp). }
  intros bs1 bs2 Hp. split; apply H; [done|by symmetry].
Qed.

Lemma cnt_bounds k own : length own = n → (0 ≤ cnt k own ≤ Z.of_nat n)%Z.
Proof.
  intros <-. unfold cnt. pose proof (count_true_le (owned k own)) as H. unfold owned in H at 2.
  rewrite length_fmap in H. lia.
Qed.

Lemma bal_range own b : length own = n → bal_ok own b → (- 2 ^ 18 ≤ balance b ≤ 2 ^ 18)%Z.
Proof using Hn Hquota.
  intros Hl (_ & -> & _). pose proof (cnt_bounds (key b) own Hl). pose proof (Hquota (key b)). lia.
Qed.

(** Balances of other owners are not affected by a move. *)
Lemma bal_ok_other m ks kd own b :
  key b ≠ ks → key b ≠ kd → bal_ok own b → bal_ok (reassign m ks kd own) b.
Proof.
  intros H1 H2 ((Hok & Hlen & Hv) & Hb & Hl1 & Hl2). split; [|split; [|split]].
  - split; [done|]. split; [done|]. by rewrite reassign_other.
  - unfold cnt. rewrite reassign_other by done. done.
  - intros Hq. destruct (Hl1 Hq) as [H3 H4]. split; [done|]. intros i Hi. apply H4.
    apply reassign_lookup in Hi as [?|[_ ?]]; [done|by exfalso].
  - intros Hq. destruct (Hl2 Hq) as [H3 H4]. split; [done|]. intros i Hi.
    apply reassign_keep; [by apply H4|done].
Qed.

Definition with_balance b (x : Z) (bb : BitmapBuilder.t) : Balance := mk (slot b) x bb (is_temp b).

Lemma move_queue_ok own src dst others (m : Z) :
  queue_inv own (src :: dst :: others) →
  (0 ≤ m)%Z → (m ≤ balance src)%Z → (m ≤ - balance dst)%Z →
  ∃ own' sb db, move_vnodes m 0 (seq 0 n) (builder src) (builder dst) = Ret (sb, db) ∧
    queue_inv own' (with_balance src (balance src - m) sb :: with_balance dst (balance dst + m) db :: others).
Proof using Hn Hquota.
  intros (Hlen & Hnd & Hown & Hall & Hsum) H0 Hsrc Hdst.
  apply Forall_cons in Hall as [Hs Hall]. apply Forall_cons in Hall as [Hd Hall].
  pose proof (bal_range _ _ Hlen Hs) as Hr. pose proof Hnd as Hnd'. csimpl in Hnd.
  apply NoDup_cons in Hnd as [Hks Hnd]. apply NoDup_cons in Hnd as [Hkd Hnd].
  apply not_elem_of_cons in Hks as [Hne Hks].
  destruct Hs as (Hsb & Hsbal & Hs1 & Hs2), Hd as (Hdb & Hdbal & Hd1 & Hd2).
  destruct (move_vnodes_ok n (key src) (key dst) m 0 own [] (builder src) (builder dst))
    as (sb & db & Hrun & Hsb' & Hdb'); try done; [lia|].
  simpl in Hrun, Hsb', Hdb'. rewrite Hlen in Hrun. rewrite Z.sub_0_r in Hsb', Hdb'.
  set (own' := reassign (Z.to_nat m) (key src) (key dst) own) in *.
  assert (Z.of_nat (Z.to_nat m) ≤ cnt (key src) own)%Z as Hm by (pose proof (Hquota (key src)); lia).
  destruct (reassign_cnt (Z.to_nat m) (key src) (key dst) own Hne Hm) as [Hc1 Hc2].
  fold own' in Hc1, Hc2. rewrite Z2Nat.id in Hc1, Hc2 by done.
  exists own', sb, db. split; [done|]. split_and!.
  - unfold own'. by rewrite reassign_length.
  - done.
  - apply Forall_forall. intros o [i Hi]%list_elem_of_lookup. rewrite Forall_forall in Hown.
    apply reassign_lookup in Hi as [Hi|[Hi ->]].
    + apply Hown. by eapply list_elem_of_lookup_2.
    + right. by left.
  - constructor; [|constructor].
    + split; [done|]. split; [change (key (with_balance _ _ _)) with (key src); simpl; rewrite Hc1; lia|]. split; cbn [balance with_balance].
      * intros Hq. destruct (Hs1 Hq) as [_ H4]. split; [lia|]. intros i Hi. apply H4.
        apply reassign_lookup in Hi as [?|[_ ?]]; [done|by exfalso].
      * intros Hq. destruct (Hs2 Hq) as [H3 H4]. assert (m = 0)%Z as Hm0 by lia.
        split; [lia|]. unfold own'. rewrite Hm0, reassign_0. done.
    + split; [done|]. split; [change (key (with_balance _ _ _)) with (key dst); simpl; rewrite Hc2; lia|]. split; cbn [balance with_balance].
      * intros Hq. destruct (Hd1 Hq) as [H3 H4]. assert (m = 0)%Z as Hm0 by lia.
        split; [lia|]. unfold own'. rewrite Hm0, reassign_0. done.
      * intros Hq. destruct (Hd2 Hq) as [H3 H4]. split; [lia|]. intros i Hi.
        apply reassign_keep; [by apply H4|by apply not_eq_sym].
    + rewrite Forall_forall in Hall |- *. intros b Hb. apply bal_ok_other; [..|by apply Hall].
      * intros E. apply Hks. rewrite <-E. by apply list_elem_of_fmap_2.
      * intros E. apply Hkd. rewrite <-E. by apply list_elem_of_fmap_2.
  - csimpl in *. lia.
Qed.

(** ** The loop *)

Definition by_sign (a b : Balance) : Prop := (Z.sgn (balance b) ≤ Z.sgn (balance a))%Z.

Definition results_ok (res : results) (dn : list Balance) : Prop :=
  ∀ s bm, res !! s = Some bm ↔ ∃ b, b ∈ dn ∧ key b = Some s ∧ bm = BitmapBuilder.finish (builder b).

Lemma record_ok res dn b :
  results_ok res dn → key b ∉ key <$> dn → results_ok (record_result b res) (b :: dn).
Proof.
  intros Hres Hb s bm. unfold record_result, key in Hb |- *. destruct (is_temp b) eqn:Et.
  - rewrite (Hres s bm). split; intros (b' & Hin & Hk & Hbm).
    + exists b'. split; [by right|done].
    + apply elem_of_cons in Hin as [->|Hin]; [by rewrite Et in Hk|]. by exists b'.
  - destruct (decide (s = slot b)) as [->|Hne].
    + rewrite lookup_insert_eq. split.
      * intros [= <-]. exists b. rewrite Et. split; [by left|done].
      * intros (b' & Hin & Hk & ->). apply elem_of_cons in Hin as [->|Hin]; [done|]. exfalso. apply Hb.
        apply list_elem_of_fmap. exists b'. by unfold key.
    + rewrite lookup_insert_ne by done. rewrite (Hres s bm). split; intros (b' & Hin & Hk & Hbm).
      * exists b'. split; [by right|done].
      * apply elem_of_cons in Hin as [->|Hin]; [rewrite Et in Hk; congruence|]. by exists b'.
Qed.

Lemma sum_sign (bs : list Balance) :
  (Forall (λ b, (balance b < 0)%Z) bs → bs ≠ [] → (sumZ (balance <$> bs) < 0)%Z) ∧
  (Forall (λ b, (0 < balance b)%Z) bs → bs ≠ [] → (0 < sumZ (balance <$> bs))%Z).
Proof.
  split; induction 1 as [|b bs Hb Hbs IH]; [done| |done|]; intros _; csimpl;
    (destruct bs; [simpl; lia|]); specialize (IH ltac:(done)); lia.
Qed.

(** The front has no negative balance and the back no positive one. *)
Lemma ends_signs src mid dst :
  StronglySorted by_sign (src :: mid ++ [dst]) → sumZ (balance <$> src :: mid ++ [dst]) = 0%Z →
  (0 ≤ balance src)%Z ∧ (balance dst ≤ 0)%Z.
Proof.
  intros Hs Hsum. destruct (sum_sign (src :: mid ++ [dst])) as [Hneg Hpos]. split.
  - destruct (Z.le_gt_cases 0 (balance src)) as [|Hlt]; [done|]. exfalso.
    apply StronglySorted_cons in Hs as [Hf _].
    assert (sumZ (balance <$> src :: mid ++ [dst]) < 0)%Z; [|lia]. apply Hneg; [|done].
    constructor; [lia|]. eapply Forall_impl; [exact Hf|]. unfold by_sign. intros b Hb. simpl in Hb. lia.
  - destruct (Z.le_gt_cases (balance dst) 0) as [|Hlt]; [done|]. exfalso.
    assert (0 < sumZ (balance <$> src :: mid ++ [dst]))%Z; [|lia]. apply Hpos; [|done].
    rewrite app_comm_cons in Hs |- *. apply Forall_app. split; [|by repeat constructor].
    apply Forall_forall. intros b Hb.
    pose proof (StronglySorted_app_1_elem_of by_sign _ _ b dst Hs Hb ltac:(by left)) as Hsg.
    unfold by_sign in Hsg. lia.
Qed.

(** Replacing the ends of the queue by balances of the same sign, or removing them. *)
Lemma ends_sorted src mid dst src' dst' :
  StronglySorted by_sign (src :: mid ++ [dst]) →
  Z.sgn (balance src') = Z.sgn (balance src) → Z.sgn (balance dst') = Z.sgn (balance dst) →
  StronglySorted by_sign mid ∧ StronglySorted by_sign (src' :: mid) ∧
  StronglySorted by_sign (mid ++ [dst']).
Proof.
  intros Hs Hsrc Hdst. apply StronglySorted_cons in Hs as [Hf Hs].
  assert (StronglySorted by_sign mid) as Hmid by (by apply StronglySorted_app_1_l in Hs).
  split_and!; [done| |].
  - constructor; [done|]. apply Forall_app in Hf as [Hf _]. eapply Forall_impl; [exact Hf|].
    unfold by_sign. intros b Hb. by rewrite Hsrc.
  - apply StronglySorted_app_2; [|done|by repeat constructor].
    intros a b Ha ->%list_elem_of_singleton. unfold by_sign. rewrite Hdst.
    by apply (StronglySorted_app_1_elem_of by_sign mid [dst] a dst Hs Ha ltac:(by left)).
Qed.

(** What one iteration does, as balances: a transfer that leaves at least one end at zero. *)
Lemma rebalance_step own src mid dst dn :
  queue_inv own (src :: mid ++ [dst] ++ dn) → Forall (λ b, balance b = 0%Z) dn →
  StronglySorted by_sign (src :: mid ++ [dst]) →
  let m := (i32 (Z.abs (balance src)) `min` i32 (Z.abs (balance dst)))%Z in
  ∃ own' sb db, move_vnodes m 0 (seq 0 n) (builder src) (builder dst) = Ret (sb, db) ∧
    let src' := with_balance src (i32 (balance src - m)) sb in
    let dst' := with_balance dst (i32 (balance dst + m)) db in
    queue_inv own' (src' :: dst' :: mid ++ dn) ∧
    (balance src' = 0%Z ∨ balance dst' = 0%Z) ∧
    (balance src' ≠ 0%Z → Z.sgn (balance src') = Z.sgn (balance src)) ∧
    (balance dst' ≠ 0%Z → Z.sgn (balance dst') = Z.sgn (balance dst)).
Proof using Hn Hquota.
  intros Hinv Hdn Hs m. pose proof Hinv as (Hlen & _ & _ & Hall & Hsum).
  assert (sumZ (balance <$> src :: mid ++ [dst]) = 0%Z) as Hsum'.
  { rewrite app_assoc, app_comm_cons, fmap_app, sumZ_app, (sumZ_zero dn Hdn) in Hsum. lia. }
  destruct (ends_signs _ _ _ Hs Hsum') as [H0 H1].
  apply Forall_cons in Hall as [Hsrc Hall]. apply Forall_app in Hall as [_ Hall].
  apply Forall_cons in Hall as [Hdst _].
  pose proof (bal_range _ _ Hlen Hsrc). pose proof (bal_range _ _ Hlen Hdst).
  unfold m. clear m. rewrite !i32_small by lia.
  set (m := (Z.abs (balance src) `min` Z.abs (balance dst))%Z).
  assert (src :: mid ++ [dst] ++ dn ≡ₚ src :: dst :: mid ++ dn) as Hp.
  { constructor. simpl. symmetry. apply Permutation_middle. }
  rewrite Hp in Hinv.
  destruct (move_queue_ok own src dst (mid ++ dn) m Hinv) as (own' & sb & db & Hrun & Hinv'); [lia..|].
  exists own', sb, db. split; [done|]. cbn zeta.
  split; [done|]. cbn [balance with_balance]. lia.
Qed.

Lemma rebalance_ok fuel deque dn res own :
  length deque < fuel → queue_inv own (deque ++ dn) → Forall (λ b, balance b = 0%Z) dn →
  StronglySorted by_sign deque → results_ok res dn →
  ∃ res' own' dn', rebalance fuel n deque res = Ret res' ∧ queue_inv own' dn' ∧
    Forall (λ b, balance b = 0%Z) dn' ∧ results_ok res' dn' ∧ key <$> dn' ≡ₚ key <$> deque ++ dn.
Proof using Hn Hquota.
  revert deque dn res own. induction fuel as [|fuel IH]; intros deque dn res own Hf Hinv Hdn Hs Hres; [lia|].
  destruct deque as [|src rest]; [by exists res, own, dn|].
  destruct rest as [|dst mid _] using rev_ind.
  { exists (record_result src res), own, (src :: dn). simpl in *. pose proof Hinv as (_ & Hnd & _ & _ & Hsum).
    csimpl in *. rewrite (sumZ_zero dn Hdn) in Hsum. assert (balance src = 0%Z) as E by lia.
    rewrite E. split_and!; try done; [by constructor|]. apply record_ok; [done|].
    by apply NoDup_cons in Hnd as [? _]. }
  cbn [rebalance]. destruct (mid ++ [dst]) as [|x y] eqn:E; [by destruct mid|]. rewrite <-E in *. clear E x y.
  rewrite last_snoc. cbn [unwrap mbind outcome_bind].
  rewrite length_app. cbn [length]. replace (length mid + 1 - 1) with (length mid) by lia.
  rewrite take_app_length. cbn [app] in Hinv. rewrite <-app_assoc in Hinv.
  destruct (rebalance_step own src mid dst dn Hinv Hdn Hs) as (own' & sb & db & -> & Hinv' & Hz & Hsg1 & Hsg2).
  cbn [mbind outcome_bind].
  fold (with_balance src (i32 (balance src - i32 (Z.abs (balance src)) `min` i32 (Z.abs (balance dst)))) sb).
  fold (with_balance dst (i32 (balance dst + i32 (Z.abs (balance src)) `min` i32 (Z.abs (balance dst)))) db).
  set (src' := with_balance src _ sb) in *. set (dst' := with_balance dst _ db) in *.
  pose proof Hinv' as (_ & Hnd & _). csimpl in Hnd.
  apply NoDup_cons in Hnd as [Hks Hnd]. apply NoDup_cons in Hnd as [Hkd Hnd].
  apply not_elem_of_cons in Hks as [Hne Hks]. rewrite fmap_app, not_elem_of_app in Hks, Hkd.
  assert (∀ deque' dn' res', deque' ++ dn' ≡ₚ src' :: dst' :: mid ++ dn →
    length deque' < fuel → Forall (λ b, balance b = 0%Z) dn' → StronglySorted by_sign deque' →
    results_ok res' dn' →
    ∃ res'' own'' dn'', rebalance fuel n deque' res' = Ret res'' ∧ queue_inv own'' dn'' ∧
      Forall (λ b, balance b = 0%Z) dn'' ∧ results_ok res'' dn'' ∧
      key <$> dn'' ≡ₚ key <$> src :: (mid ++ [dst]) ++ dn) as Hnext.
  { intros deque' dn' res' Hp Hl Hz' Hs' Hr'. rewrite <-Hp in Hinv'.
    destruct (IH deque' dn' res' own' Hl Hinv' Hz' Hs' Hr') as (r & o & d & H1 & H2 & H3 & H4 & H5).
    exists r, o, d. split_and!; try done. rewrite H5, Hp. csimpl. apply perm_skip.
    rewrite !fmap_app. simpl. rewrite <-app_assoc. simpl. apply Permutation_middle. }
  cbn [length] in Hf. rewrite length_app in Hf. cbn [length] in Hf.
  destruct (Z.eqb_spec (balance src') 0) as [Es|Es], (Z.eqb_spec (balance dst') 0) as [Ed|Ed].
  - apply (Hnext mid (dst' :: src' :: dn)); [|lia|by repeat constructor| |].
    + rewrite <-!Permutation_middle. apply Permutation_swap.
    + by apply (ends_sorted src mid dst src dst).
    + apply record_ok; [apply record_ok; [done|apply Hks]|]. csimpl. apply not_elem_of_cons.
      split; [by apply not_eq_sym|apply Hkd].
  - apply (Hnext (mid ++ [dst']) (src' :: dn)); [|rewrite length_app; simpl; lia|by constructor| |].
    + rewrite <-app_assoc. simpl. by rewrite <-!Permutation_middle, Permutation_swap.
    + apply (ends_sorted src mid dst src dst'); auto.
    + apply record_ok; [done|apply Hks].
  - apply (Hnext (src' :: mid) (dst' :: dn)); [|simpl; lia|by constructor| |].
    + simpl. by rewrite <-Permutation_middle.
    + apply (ends_sorted src mid dst src' dst); auto.
    + apply record_ok; [done|apply Hkd].
  - by destruct Hz.
Qed.

End queue.

(** ** Shares *)

Section init.
Context (n : nat) (selected : list Z).
Context (Hn : (Z.of_nat n ≤ 2 ^ 16)%Z).
Context (Hsel : NoDup selected).
Context (Hne : selected ≠ []).

(** The share of the [i]-th selected slot. *)
Definition share (i : nat) : nat :=
  n `div` length selected + (if i <? n `mod` length selected then 1 else 0).

Definition quota_of (k : option Z) : Z :=
  match k with
  | None => 0
  | Some s => match list_find (s =.) selected with Some (i, _) => Z.of_nat (share i) | None => 0 end
  end.

Lemma quota_of_lookup i s : selected !! i = Some s → quota_of (Some s) = Z.of_nat (share i).
Proof using Hsel.
  intros Hi. simpl. destruct (list_find (s =.) selected) as [[j x]|] eqn:E.
  - apply list_find_Some in E as (Hj & -> & _). by rewrite (NoDup_lookup _ _ _ _ Hsel Hi Hj).
  - apply list_find_None in E. rewrite Forall_forall in E. exfalso. eapply E; [|done].
    by eapply list_elem_of_lookup_2.
Qed.

Lemma share_bound i : (0 ≤ Z.of_nat (share i) ≤ 2 ^ 17)%Z.
Proof using Hn.
  unfold share. assert (n `div` length selected ≤ n).
  { destruct (decide (length selected = 0)) as [->|]; [rewrite Nat.div_0_r; lia|]. apply Nat.Div0.div_le_upper_bound. nia. }
  destruct (_ <? _); lia.
Qed.

Lemma quota_of_bound k : (0 ≤ quota_of k ≤ 2 ^ 17)%Z.
Proof using Hn.
  destruct k as [s|]; simpl; [|lia]. destruct (list_find _ _) as [[i ?]|]; [apply share_bound|lia].
Qed.

(** The shares add up to the number of vnodes. *)
Lemma sum_shares : sumZ ((λ s, quota_of (Some s)) <$> selected) = Z.of_nat n.
Proof using Hsel Hne.
  assert ((λ s, quota_of (Some s)) <$> selected = (λ i, Z.of_nat (share i)) <$> seq 0 (length selected)) as ->.
  { apply list_eq. intros i. rewrite !list_lookup_fmap.
    destruct (selected !! i) as [s|] eqn:E.
    - rewrite lookup_seq_lt by (by eapply lookup_lt_Some). simpl. f_equal. by apply quota_of_lookup.
    - rewrite lookup_seq_ge; [done|]. by apply lookup_ge_None_1. }
  unfold share. set (q := n `div` length selected). set (r := n `mod` length selected).
  assert (∀ l, sumZ ((λ i, Z.of_nat (q + (if i <? r then 1 else 0))) <$> seq 0 l) =
    Z.of_nat (l * q + l `min` r)) as Hsum.
  { induction l as [|l IH]; [done|]. rewrite seq_S, fmap_app, sumZ_app, IH.
    rewrite Nat.mul_succ_l. unfold sumZ. simpl foldr. rewrite Z.add_0_r.
    destruct (Nat.ltb_spec l r); lia. }
  rewrite Hsum. assert (length selected ≠ 0) as Hl by (by destruct selected).
  pose proof (Nat.mod_upper_bound n (length selected) Hl). pose proof (Nat.div_mod_eq n (length selected)).
  f_equal. unfold q, r. lia.
Qed.

(** ** The initial balances *)

Lemma init_step_ok e r l (m : balances) :
  NoDup l → (Z.of_nat e ≤ 2 ^ 20)%Z →
  let m' := (foldl (init_step n e) (m, r) l).1 in
  (∀ s, s ∉ l → m' !! s = m !! s) ∧
  ∀ i s, l !! i = Some s →
    m' !! s = Some (mk s (- Z.of_nat (e + (if i <? r then 1 else 0))) (BitmapBuilder.zeroed n) false).
Proof.
  intros Hl He. revert m r. induction l as [|x l IH]; intros m r; [done|].
  apply NoDup_cons in Hl as [Hx Hl]. cbn [foldl]. unfold init_step at 2 4.
  rewrite (i32_small (Z.of_nat e)) by lia. rewrite (i32_small (- Z.of_nat e)), (i32_small (_ - 1)) by lia.
  assert (∀ b r1,
    (∀ s, s ∉ x :: l → (foldl (init_step n e) (<[x := b]> m, r1) l).1 !! s = m !! s) ∧
    (foldl (init_step n e) (<[x := b]> m, r1) l).1 !! x = Some b ∧
    ∀ i s, l !! i = Some s → (foldl (init_step n e) (<[x := b]> m, r1) l).1 !! s =
      Some (mk s (- Z.of_nat (e + (if i <? r1 then 1 else 0))) (BitmapBuilder.zeroed n) false)) as Hstep.
  { intros b r1. destruct (IH Hl (<[x := b]> m) r1) as [H1 H2]. split_and!; [| |done].
    - intros s [Hs1 Hs2]%not_elem_of_cons. rewrite H1 by done. by rewrite lookup_insert_ne.
    - rewrite H1 by done. apply lookup_insert_eq. }
  destruct (Nat.ltb_spec 0 r) as [Hr|Hr].
  - destruct (Hstep (mk x (- Z.of_nat e - 1) (BitmapBuilder.zeroed n) false) (r - 1)) as (H1 & H2 & H3).
    split; [done|]. intros [|i] s Hi; simpl in Hi.
    + injection Hi as <-. rewrite H2. rewrite (proj2 (Nat.ltb_lt _ _)) by done. do 2 f_equal. lia.
    + rewrite (H3 i s Hi). do 2 f_equal.
      destruct (Nat.ltb_spec i (r - 1)), (Nat.ltb_spec (S i) r); lia.
  - destruct (Hstep (mk x (- Z.of_nat e) (BitmapBuilder.zeroed n) false) r) as (H1 & H2 & H3).
    split; [done|]. intros [|i] s Hi; simpl in Hi.
    + injection Hi as <-. rewrite H2. rewrite (proj2 (Nat.ltb_ge _ _)) by done. do 2 f_equal. lia.
    + rewrite (H3 i s Hi). do 2 f_equal.
      destruct (Nat.ltb_spec i r), (Nat.ltb_spec (S i) r); lia.
Qed.

Lemma init_balances_ok (s : Z) :
  init_balances selected n !! s =
  if decide (s ∈ selected)
  then Some (mk s (- quota_of (Some s)) (BitmapBuilder.zeroed n) false) else None.
Proof using Hn Hsel.
  unfold init_balances. pose proof (share_bound 0) as Hb. unfold share in Hb.
  destruct (init_step_ok (n `div` length selected) (n `mod` length selected) selected ∅ Hsel) as [H1 H2];
    [lia|].
  case_decide as Hs.
  - apply list_elem_of_lookup in Hs as [i Hi]. rewrite (quota_of_lookup i s Hi). apply (H2 i s Hi).
  - etransitivity; [by apply H1|]. apply lookup_empty.
Qed.

(** ** Following the hint *)

(** A balance when the first vnodes have been given to the owners [own]. *)
Definition partial_ok own b : Prop :=
  builder_ok (builder b) ∧ BitmapBuilder.len (builder b) = n ∧
  builder_view (builder b) = owned (key b) own ++ replicate (n - length own) false ∧
  balance b = (cnt (key b) own - quota_of (key b))%Z.

Lemma cnt_snoc k o own : cnt k (own ++ [o]) = (cnt k own + (if decide (o = k) then 1 else 0))%Z.
Proof.
  unfold cnt, owned. rewrite fmap_app, count_true_app, fmap_cons, count_true_cons.
  change (count_true ((λ o0, bool_decide (o0 = k)) <$> [])) with 0.
  case_decide; [rewrite bool_decide_true by done|rewrite bool_decide_false by done]; lia.
Qed.

Lemma partial_other own b o :
  key b ≠ o → length own < n → partial_ok own b → partial_ok (own ++ [o]) b.
Proof.
  intros Hk Hlt (H1 & H2 & H3 & H4). split_and!; [done..| |].
  - rewrite H3, length_app. unfold owned. rewrite fmap_app. csimpl.
    rewrite bool_decide_false, <-app_assoc by congruence. f_equal.
    replace (n - length own) with (S (n - (length own + 1))) by lia. done.
  - rewrite cnt_snoc, decide_False by congruence. lia.
Qed.

Lemma take_vnode_ok own b :
  length own < n → partial_ok own b →
  ∃ b', take_vnode b (length own) = Ret b' ∧ key b' = key b ∧ partial_ok (own ++ [key b]) b'.
Proof using Hn.
  intros Hlt (H1 & H2 & H3 & H4). unfold take_vnode, VirtualNode.to_index.
  destruct (set_ok (builder b) (length own) true) as (bb & -> & Hok & Hlen & Hv); [done|lia|].
  eexists. split; [done|]. split; [done|]. split_and!; cbn [builder balance].
  - done.
  - by rewrite Hlen.
  - rewrite Hv, H3. change (key (mk _ _ _ _)) with (key b). rewrite length_app. unfold owned.
    rewrite fmap_app. csimpl. rewrite bool_decide_true, <-app_assoc by done.
    replace (n - length own) with (S (n - (length own + 1))) by lia.
    rewrite insert_app_r_alt by (rewrite length_fmap; lia). by rewrite length_fmap, Nat.sub_diag.
  - change (key (mk _ _ _ _)) with (key b). rewrite cnt_snoc, decide_True by done.
    pose proof (quota_of_bound (key b)). pose proof (count_true_le (owned (key b) own)) as Hc.
    unfold owned in Hc at 2. rewrite length_fmap in Hc. unfold cnt in *. rewrite i32_small; lia.
Qed.

Definition owner (s : Z) : option Z := if decide (s ∈ selected) then Some s else None.

Definition assign_ok own (acc : balances * Balance) : Prop :=
  key acc.2 = None ∧ partial_ok own acc.2 ∧
  (∀ s, is_Some (acc.1 !! s) ↔ s ∈ selected) ∧
  ∀ s b, acc.1 !! s = Some b → key b = Some s ∧ partial_ok own b.

Lemma assign_init : assign_ok [] (init_balances selected n, temp_slot n).
Proof using Hn Hsel.
  assert (∀ b, builder b = BitmapBuilder.zeroed n → balance b = (- quota_of (key b))%Z → partial_ok [] b) as Hz.
  { intros b Hb Hbal. destruct (zeroed_ok n) as [H1 H2]. unfold partial_ok. rewrite Hb, Hbal.
    split_and!; [done..| |change (cnt (key b) []) with 0%Z; lia]. by rewrite H2, Nat.sub_0_r. }
  split_and!; [done|by apply Hz| |].
  - intros s. simpl. rewrite init_balances_ok. case_decide; [by split|]. by split; [intros [? ?]|].
  - intros s b. simpl. rewrite init_balances_ok. case_decide; [|done]. intros [= <-].
    split; [done|]. by apply Hz.
Qed.

(** Giving the next vnode to the temporary slot. *)
Lemma assign_temp own m temp :
  assign_ok own (m, temp) → length own < n →
  ∃ temp', take_vnode temp (length own) = Ret temp' ∧ assign_ok (own ++ [None]) (m, temp').
Proof using Hn.
  intros (H1 & H2 & H3 & H4) Hlt. simpl in *.
  destruct (take_vnode_ok own temp Hlt H2) as (temp' & -> & Hk & Hp). rewrite H1 in *.
  exists temp'. split; [done|]. split_and!; [done..|]. intros s b Hb. destruct (H4 s b Hb) as [Hkb Hpb].
  split; [done|]. apply partial_other; [by rewrite Hkb|done..].
Qed.

Lemma hint_step_ok own acc s :
  assign_ok own acc → length own < n →
  ∃ acc', hint_step selected acc (length own, s) = Ret acc' ∧ assign_ok (own ++ [owner s]) acc'.
Proof using Hn.
  destruct acc as [m temp]. intros Hacc Hlt. pose proof Hacc as (H1 & H2 & H3 & H4). simpl in *.
  unfold owner. case_bool_decide as Hs; [rewrite decide_True by done|rewrite decide_False by done].
  - apply H3 in Hs as [b Hb]. rewrite Hb. destruct (H4 s b Hb) as [Hk Hp]. simpl.
    destruct (take_vnode_ok own b Hlt Hp) as (b' & -> & Hk' & Hp'). rewrite Hk in *.
    eexists. split; [done|]. split_and!; simpl; [done| | |].
    + apply partial_other; [by rewrite H1|done..].
    + intros x. rewrite <-H3. destruct (decide (x = s)) as [->|].
      * rewrite lookup_insert_eq, Hb. by split; intros _; eexists.
      * by rewrite lookup_insert_ne.
    + intros x c. destruct (decide (x = s)) as [->|Hne'].
      * rewrite lookup_insert_eq. by intros [= <-].
      * rewrite lookup_insert_ne by done. intros Hc. destruct (H4 x c Hc) as [Hkc Hpc].
        split; [done|]. apply partial_other; [rewrite Hkc; congruence|done..].
  - destruct (assign_temp own m temp Hacc Hlt) as (temp' & -> & Ht). by eexists.
Qed.

(** The owners before rebalancing. *)
Definition hinted (hint : option WorkerSlotMapping.t) : list (option Z) :=
  match hint with Some h => owner <$> contents h | None => replicate n None end.

Definition hint_ok (hint : option WorkerSlotMapping.t) : Prop :=
  match hint with Some h => mapping_ok h ∧ length (contents h) = n | None => True end.

Lemma length_hinted hint : hint_ok hint → length (hinted hint) = n.
Proof using.
  clear. destruct hint as [h|]; simpl; [intros [_ <-]; apply length_fmap|intros _; apply length_replicate].
Qed.

Lemma assign_all_ok hint acc :
  hint_ok hint → assign_ok [] acc →
  ∃ acc', assign_all hint selected n acc = Ret acc' ∧ assign_ok (hinted hint) acc'.
Proof using Hn.
  intros Hh Hacc. destruct hint as [h|]; simpl.
  - destruct Hh as [Hm Hlen]. unfold VnodeMapping.iter_with_vnode. rewrite mapping_iter_ok by done.
    set (es := imap _ (contents h)).
    assert (∀ i e, es !! i = Some e → e.1 = i ∧ contents h !! i = Some e.2) as Hes.
    { intros i e He. unfold es in He. rewrite list_lookup_imap in He.
      destruct (contents h !! i) as [x|] eqn:Ex; [|done]. injection He as <-. split; [|done].
      apply lookup_lt_Some in Ex. simpl. unfold VirtualNode.from_index.
      rewrite wrap_small by (split; lia). lia. }
    assert (snd <$> es = contents h) as Hsnd.
    { apply list_eq. intros i. unfold es. rewrite list_lookup_fmap, list_lookup_imap.
      by destruct (contents h !! i). }
    destruct (rfold_inv (hint_step selected)
      (λ dn acc, assign_ok (owner <$> dn.*2) acc) es acc) as (acc' & Hrun & Hacc'); [done| |].
    + intros dn e todo a Hsplit Ha.
      destruct (Hes (length dn) e) as [E1 E2]; [rewrite Hsplit; by apply list_lookup_middle|].
      apply lookup_lt_Some in E2.
      destruct (hint_step_ok (owner <$> dn.*2) a e.2) as (a' & Hs & Ha'); [done|rewrite !length_fmap; lia|].
      exists a'. rewrite !length_fmap in Hs. rewrite <-E1 in Hs. rewrite <-surjective_pairing in Hs.
      split; [done|]. by rewrite !fmap_app.
    + exists acc'. split; [done|]. by rewrite Hsnd in Hacc'.
  - destruct (rfold_inv (λ '(m, temp) vnode, temp ← take_vnode temp vnode; Ret (m, temp))
      (λ dn acc, assign_ok (replicate (length dn) None) acc) (VirtualNode.all n) acc) as (acc' & Hrun & Hacc');
      [done| |].
    + intros dn v todo [m temp] Hsplit Ha.
      assert (length (VirtualNode.all n) = n) as Hl by (unfold VirtualNode.all; by rewrite length_fmap, length_seq).
      assert (length dn < n) as Hlt by (rewrite Hsplit, length_app in Hl; simpl in Hl; lia).
      assert (VirtualNode.all n !! length dn = Some v) as Hv by (rewrite Hsplit; by apply list_lookup_middle).
      unfold VirtualNode.all in Hv. rewrite list_lookup_fmap, lookup_seq_lt in Hv by done. simpl in Hv.
      injection Hv as <-. unfold VirtualNode.from_index. rewrite wrap_small by (split; lia). rewrite Nat2Z.id.
      destruct (assign_temp _ m temp Ha) as (temp' & Ht & Ha'); [by rewrite length_replicate|].
      rewrite length_replicate in Ht. rewrite Ht. eexists. split; [done|].
      rewrite length_app, replicate_add. done.
    + exists acc'. split; [done|]. unfold VirtualNode.all in Hacc'. by rewrite length_fmap, length_seq in Hacc'.
Qed.

Lemma sum_one (ks : list (option Z)) o :
  NoDup ks → o ∈ ks → sumZ ((λ k, if decide (o = k) then 1 else 0)%Z <$> ks) = 1%Z.
Proof.
  assert (∀ ks : list (option Z), o ∉ ks → sumZ ((λ k, if decide (o = k) then 1 else 0)%Z <$> ks) = 0%Z) as Hnone.
  { clear ks. induction ks as [|k l IH]; [done|]. intros [Hk Hl]%not_elem_of_cons. csimpl.
    rewrite decide_False, IH by done. done. }
  induction 1 as [|k l Hk Hl IH]; [by intros ?%elem_of_nil|]. csimpl.
  intros [->|Ho]%elem_of_cons.
  - rewrite decide_True, Hnone by done. done.
  - rewrite decide_False, IH; [done..|]. by intros ->.
Qed.

Lemma sum_cnt (ks : list (option Z)) own :
  NoDup ks → Forall (λ o, o ∈ ks) own → sumZ ((λ k, cnt k own) <$> ks) = Z.of_nat (length own).
Proof.
  intros Hks. induction 1 as [|o own Ho Hown IH].
  - induction ks as [|k l IHk]; [done|]. apply NoDup_cons in Hks as [_ Hks]. csimpl.
    rewrite IHk by done. done.
  - transitivity (sumZ ((λ k, if decide (o = k) then 1 else 0)%Z <$> ks) + sumZ ((λ k, cnt k own) <$> ks))%Z.
    + clear. induction ks as [|k l IH]; [done|]. csimpl. rewrite cnt_cons, IH. lia.
    + rewrite sum_one, IH by done. simpl length. lia.
Qed.

Lemma assign_keys own m temp vals :
  assign_ok own (m, temp) → vals ≡ₚ (map_to_list m).*2 →
  key <$> vals ++ [temp] ≡ₚ None :: (Some <$> selected).
Proof using Hsel.
  intros (H1 & _ & H3 & H4) Hp. simpl in *. rewrite fmap_app. csimpl. rewrite H1, Permutation_app_comm. simpl.
  apply perm_skip. rewrite Hp.
  assert (key <$> (map_to_list m).*2 = Some <$> (map_to_list m).*1) as ->.
  { apply list_eq. intros i. rewrite !list_lookup_fmap.
    destruct (map_to_list m !! i) as [[s b]|] eqn:E; [|done]. simpl. f_equal.
    apply list_elem_of_lookup_2, elem_of_map_to_list in E. by apply H4. }
  apply fmap_Permutation. apply NoDup_Permutation; [apply NoDup_fst_map_to_list|done|].
  intros s. rewrite <-H3. split.
  - intros ([s' b] & -> & Hin)%list_elem_of_fmap. apply elem_of_map_to_list in Hin. by eexists.
  - intros [b Hb]. apply list_elem_of_fmap. exists (s, b). split; [done|]. by apply elem_of_map_to_list.
Qed.

Lemma partial_full own b :
  length own = n → partial_ok own b → bal_ok n quota_of own own b.
Proof.
  intros Hl (H1 & H2 & H3 & H4). split; [|split; [done|]].
  - split_and!; [done..|]. by rewrite H3, Hl, Nat.sub_diag, app_nil_r.
  - unfold local_ok. rewrite H4. split; intros; (split; [lia|done]).
Qed.

Lemma queue_init own m temp vals :
  assign_ok own (m, temp) → vals ≡ₚ (map_to_list m).*2 → length own = n →
  Forall (λ o, o ∈ None :: (Some <$> selected)) own →
  queue_inv n quota_of own own (vals ++ [temp]).
Proof using Hsel Hne.
  intros Hacc Hp Hlen Hown. pose proof (assign_keys own m temp vals Hacc Hp) as Hk.
  assert (NoDup (key <$> vals ++ [temp])) as Hnd.
  { rewrite Hk. apply NoDup_cons. split; [by intros (? & ? & _)%list_elem_of_fmap|].
    by apply NoDup_fmap; [apply _|]. }
  assert (Forall (λ o, o ∈ key <$> vals ++ [temp]) own) as Hin.
  { eapply Forall_impl; [exact Hown|]. intros o Ho. by rewrite Hk. }
  assert (Forall (partial_ok own) (vals ++ [temp])) as Hpart.
  { destruct Hacc as (_ & H2 & _ & H4). apply Forall_app. split; [|by apply Forall_singleton].
    apply Forall_forall. intros b Hb. rewrite Hp in Hb. apply list_elem_of_fmap in Hb as ([s b'] & -> & Hb).
    apply elem_of_map_to_list in Hb. by apply (H4 s). }
  split; [done|]. split; [done|]. split; [done|]. split.
  { eapply Forall_impl; [exact Hpart|]. intros b Hb. by apply partial_full. }
  transitivity (sumZ ((λ k, cnt k own) <$> (key <$> vals ++ [temp])) -
                sumZ (quota_of <$> (key <$> vals ++ [temp])))%Z.
  - clear -Hpart. induction Hpart as [|b bs (_ & _ & _ & Hb) _ IH]; [done|]. csimpl. rewrite Hb, IH. lia.
  - rewrite sum_cnt by done. rewrite Hk. csimpl. rewrite <-list_fmap_compose.
    change (sumZ (quota_of ∘ Some <$> selected)) with (sumZ ((λ s, quota_of (Some s)) <$> selected)).
    rewrite sum_shares. lia.
Qed.

End init.

(** ** Collecting the results *)

Lemma merge_results_ok n (res : results) entries :
  entries ≡ₚ map_to_list res →
  (∀ s bm, res !! s = Some bm → bitmap_ok bm ∧ Bitmap.num_bits bm = n) →
  rfold (merge_step n) entries ∅ = Ret res.
Proof.
  intros Hp Hres. assert (NoDup entries.*1) as Hnd by (rewrite Hp; apply NoDup_fst_map_to_list).
  assert (list_to_map entries = res) as Hmap.
  { rewrite (list_to_map_proper entries (map_to_list res)) by done. apply list_to_map_to_list. }
  destruct (rfold_inv (merge_step n) (λ dn (m : results), m = list_to_map dn) entries ∅) as (m & -> & ->);
    [done| |by rewrite Hmap].
  intros dn [s bm] todo m Hsplit ->.
  assert (res !! s = Some bm) as Hs.
  { apply elem_of_map_to_list. rewrite <-Hp, Hsplit. apply elem_of_app. right. by left. }
  destruct (Hres s bm Hs) as [Hok Hlen].
  assert (s ∉ dn.*1) as Hnot.
  { rewrite Hsplit, fmap_app in Hnd. apply NoDup_app in Hnd as (_ & Hd & _). intros Hin.
    apply (Hd s Hin). by left. }
  unfold merge_step. simpl. rewrite (not_elem_of_list_to_map_1 _ _ Hnot). simpl.
  destruct (zeros_ok n) as [Hz1 Hz2].
  destruct (bitor_ok (Bitmap.zeros n) bm) as (r & Hr & Hrok & Hrv); [done..| |].
  - by rewrite Hlen.
  - rewrite Hr. simpl. exists (<[s := bm]> (list_to_map dn : results)). split.
    + do 2 f_equal. apply bitmap_canonical; [done..|]. rewrite Hrv, Hz2.
      rewrite <-Hlen, <-length_view. clear. induction (view bm) as [|x l IH]; [done|]. simpl. by f_equal.
    + rewrite list_to_map_snoc by done. done.
Qed.

(** ** Selected slots *)

(** Worker ids are distinct [u32]s, serving workers are compute nodes, and their parallelism
    is a [u32]. *)
Definition workers_ok (workers : list WorkerNode.t) : Prop :=
  NoDup (WorkerNode.id <$> workers) ∧
  Forall (λ w, is_uint 32 (WorkerNode.id w) ∧
    ∀ p, WorkerNode.property w = Some p → WorkerNode.is_serving p = true →
      WorkerNode.type w = WorkerNode.ComputeNode ∧ (Z.of_nat (WorkerNode.parallelism p) ≤ 2 ^ 32)%Z) workers.

(** A slot of a serving worker. *)
Definition serving_slot (workers : list WorkerNode.t) (s : Z) : Prop :=
  ∃ w p (k : nat), w ∈ workers ∧ WorkerNode.property w = Some p ∧ WorkerNode.is_serving p = true ∧
    k < WorkerNode.parallelism p ∧ s = WorkerSlotId.new (WorkerNode.id w) k.

Lemma length_concat_sum {A} (ls : list (list A)) : length (concat ls) = sum_list (length <$> ls).
Proof. induction ls as [|l ls IH]; [done|]. csimpl. by rewrite length_app, IH. Qed.

Definition slots_of (w : WorkerNode.t) : list Z :=
  match WorkerNode.property w with
  | Some p => WorkerSlotId.new (WorkerNode.id w) <$> seq 0 (WorkerNode.parallelism p)
  | None => []
  end.

Lemma NoDup_slots ws :
  NoDup (WorkerNode.id <$> ws) →
  Forall (λ w, is_uint 32 (WorkerNode.id w) ∧
    ∀ p, WorkerNode.property w = Some p → (Z.of_nat (WorkerNode.parallelism p) ≤ 2 ^ 32)%Z) ws →
  NoDup (concat (slots_of <$> ws)).
Proof.
  assert (∀ w s, is_uint 32 (WorkerNode.id w) →
    (∀ p, WorkerNode.property w = Some p → (Z.of_nat (WorkerNode.parallelism p) ≤ 2 ^ 32)%Z) →
    s ∈ slots_of w → WorkerSlotId.worker_id s = WorkerNode.id w) as Hid.
  { intros w s Hw Hp Hs. unfold slots_of in Hs. destruct (WorkerNode.property w) as [p|]; [|by apply elem_of_nil in Hs].
    apply list_elem_of_fmap in Hs as (k & -> & Hk%elem_of_seq). specialize (Hp p eq_refl).
    by apply worker_slot_parts; [|lia]. }
  intros Hnd Hws. induction Hws as [|w ws [Hw Hp] Hws IH]; [constructor|]. csimpl in *.
  apply NoDup_cons in Hnd as [Hnot Hnd]. apply NoDup_app. split_and!; [| |by apply IH].
  - unfold slots_of. destruct (WorkerNode.property w) as [p|] eqn:E; [|constructor]. specialize (Hp p eq_refl).
    apply NoDup_fmap_2_strong; [|apply NoDup_seq]. intros j k Hj%elem_of_seq Hk%elem_of_seq Heq.
    destruct (worker_slot_parts (WorkerNode.id w) j Hw) as [_ Ej]; [lia|].
    destruct (worker_slot_parts (WorkerNode.id w) k Hw) as [_ Ek]; [lia|]. rewrite Heq in Ej. lia.
  - intros s Hs Hin. apply Hnot. apply list_elem_of_In, in_concat in Hin as (l & Hl & Hin).
    apply list_elem_of_In, list_elem_of_fmap in Hl as (w' & -> & Hw'). apply list_elem_of_In in Hin.
    rewrite Forall_forall in Hws. destruct (Hws w' Hw') as [Hu' Hp'].
    apply list_elem_of_fmap. exists w'. split; [|done]. rewrite <-(Hid w s), <-(Hid w' s) by done. done.
Qed.

Lemma worker_slots_ok workers :
  workers_ok workers →
  ∃ slots, worker_slots workers = Ret slots ∧ NoDup (concat slots) ∧
    ∀ s, s ∈ concat slots ↔ serving_slot workers s.
Proof.
  intros [Hnd Hws]. unfold worker_slots.
  set (ws := sorted_by_key WorkerNode.id (filter (λ w, serving w = true) workers)).
  assert (ws ≡ₚ filter (λ w, serving w = true) workers) as Hperm by apply sorted_by_key_perm.
  rewrite Forall_forall in Hws.
  assert (∀ w, w ∈ ws ↔ w ∈ workers ∧ ∃ p, WorkerNode.property w = Some p ∧ WorkerNode.is_serving p = true) as Hin.
  { intros w. rewrite Hperm, list_elem_of_filter. unfold serving.
    destruct (WorkerNode.property w) as [p|]; naive_solver. }
  exists (slots_of <$> ws). split_and!.
  - apply rmap_Ret. apply Forall2_fmap_r. apply Forall_Forall2_diag, Forall_forall. intros w (Hw & p & Hp & Hs)%Hin.
    destruct (Hws w Hw) as [_ Hc]. destruct (Hc p Hp Hs) as [Ht _].
    unfold WorkerNode.compute_node_parallelism, slots_of. rewrite Ht, Hp. rewrite bool_decide_true by done. cbn. by rewrite Hp.
  - apply NoDup_slots.
    + rewrite Hperm. eapply sublist_NoDup; [exact Hnd|]. apply fmap_sublist, sublist_filter.
    + apply Forall_forall. intros w (Hw & p & Hp & Hs)%Hin. destruct (Hws w Hw) as [Hu Hc].
      split; [done|]. intros p' Hp'. assert (p' = p) as -> by congruence. by apply (Hc p).
  - intros s. rewrite list_elem_of_In, in_concat. split.
    + intros (l & Hl & Hs). apply list_elem_of_In, list_elem_of_fmap in Hl as (w & -> & (Hw & p & Hp & Hsv)%Hin).
      apply list_elem_of_In in Hs. unfold slots_of in Hs. rewrite Hp in Hs.
      apply list_elem_of_fmap in Hs as (k & -> & Hk%elem_of_seq). exists w, p, k. split_and!; try done. lia.
    + intros (w & p & k & Hw & Hp & Hs & Hk & ->). exists (slots_of w). rewrite <-!list_elem_of_In. split.
      * apply list_elem_of_fmap. exists w. split; [done|]. apply Hin. eauto.
      * unfold slots_of. rewrite Hp. apply list_elem_of_fmap. exists k. split; [done|]. apply elem_of_seq. lia.
Qed.

(** The number of slots selected. *)
Definition serving_parallelism (slots : nat) (max_parallelism : option nat) (n : nat) : nat :=
  slots `min` match max_parallelism with Some m => m `min` n | None => n end.

Lemma selected_slots_ok workers max_parallelism n :
  workers_ok workers →
  ∃ sel total, selected_slots workers max_parallelism n = Ret sel ∧ NoDup sel ∧
    NoDup total ∧ (∀ s, s ∈ total ↔ serving_slot workers s) ∧
    length sel = serving_parallelism (length total) max_parallelism n ∧
    ∀ s, s ∈ sel → serving_slot workers s.
Proof.
  intros (slots & Hrun & Hnd & Hin)%worker_slots_ok. unfold selected_slots. rewrite Hrun.
  cbn [mbind outcome_bind]. pose proof (round_robin_perm (select_fuel slots) slots ltac:(lia)) as Hp.
  set (all := round_robin (select_fuel slots) slots) in *.
  assert (sum_list (length <$> slots) = length all) as -> by (by rewrite Hp, length_concat_sum).
  assert (∀ x, length all `min` x ≤ length all) as Hmin by lia.
  rewrite (proj2 (Nat.leb_le _ _)) by apply Hmin. cbn [rassert mbind outcome_bind].
  eexists _, all. split; [done|]. split_and!.
  - eapply sublist_NoDup; [|apply sublist_take]. by rewrite Hp.
  - by rewrite Hp.
  - intros s. by rewrite Hp.
  - rewrite length_take. apply Nat.min_l, Hmin.
  - intros s Hs. apply Hin. rewrite <-Hp. apply elem_of_take in Hs as (i & Hi & _).
    by eapply list_elem_of_lookup_2.
Qed.

(** ** The mapping returned *)

Section place.
Context (into_values : balances → list Balance) (into_iter : results → list (Z * Bitmap.t)).
Context (Hvalues : ∀ m, into_values m ≡ₚ (map_to_list m).*2).
Context (Hiter : ∀ m, into_iter m ≡ₚ map_to_list m).
Context (n : nat) (selected : list Z) (hint : option WorkerSlotMapping.t).
Context (Hn : (Z.of_nat n ≤ 2 ^ 16)%Z) (Hsel : NoDup selected) (Hne : selected ≠ []).
Context (Hhint : hint_ok n hint).

(** The final owners, as a vector of selected slots. *)
Lemma final_owners own dn :
  queue_inv n (quota_of n selected) (hinted n selected hint) own dn →
  Forall (λ b, balance b = 0%Z) dn → key <$> dn ≡ₚ None :: (Some <$> selected) →
  ∃ items : list Z, own = Some <$> items ∧ Forall (λ s, s ∈ selected) items.
Proof using.
  intros (Hlen & Hnd & Hown & Hall & _) Hz Hk.
  assert (None ∉ own) as Hnone.
  { intros Hin. assert (None ∈ key <$> dn) as Ht by (rewrite Hk; by left).
    apply list_elem_of_fmap in Ht as (b & Hb & Hbin). rewrite Forall_forall in Hall, Hz.
    destruct (Hall b Hbin) as (_ & Hbal & _). rewrite (Hz b Hbin), <-Hb in Hbal. simpl in Hbal.
    assert (cnt None own = 0%Z) as Hc by lia. unfold cnt in Hc.
    assert (count_true (owned None own) = 0) as Hc0 by lia. apply count_true_0 in Hc0.
    apply list_elem_of_lookup in Hin as [i Hi]. pose proof (lookup_owned None _ _ _ Hi) as Hl.
    rewrite Hc0 in Hl. apply lookup_replicate in Hl as [Hl _]. by rewrite bool_decide_true in Hl. }
  exists ((λ o, default 0%Z o) <$> own). split.
  - rewrite <-list_fmap_compose. rewrite <-(list_fmap_id own) at 1. apply list_fmap_ext.
    intros i [s|] Hi; [done|]. exfalso. apply Hnone. by eapply list_elem_of_lookup_2.
  - apply Forall_fmap. rewrite Forall_forall in Hown |- *. intros [s|] Ho; [|done]. simpl.
    specialize (Hown _ Ho). rewrite Hk in Hown. apply elem_of_cons in Hown as [|Hown]; [done|].
    by apply list_elem_of_fmap in Hown as (s' & [= ->] & ?).
Qed.

Lemma owned_items s items : owned (Some s) (Some <$> items) = item_bits s items.
Proof.
  unfold owned, item_bits. rewrite <-list_fmap_compose. apply list_fmap_ext. intros i x _. simpl.
  apply bool_decide_ext. naive_solver.
Qed.

Lemma deque_sorted bs : StronglySorted by_sign (reverse (sorted_by_key balance bs)).
Proof using.
  clear. induction (sorted_by_key_sorted balance bs) as [|b l Hs IH Hf]; [constructor|].
  rewrite reverse_cons. apply StronglySorted_app_2; [|done|repeat constructor].
  intros x y Hx ->%list_elem_of_singleton. rewrite elem_of_reverse in Hx. rewrite Forall_forall in Hf.
  specialize (Hf x Hx). unfold by_sign. simpl in Hf. lia.
Qed.

Lemma hinted_owners : Forall (λ o, o ∈ None :: (Some <$> selected)) (hinted n selected hint).
Proof using.
  clear Hhint. apply Forall_forall. intros o Ho. destruct hint as [h|]; simpl in Ho.
  - apply list_elem_of_fmap in Ho as (s & -> & _). unfold owner. case_decide as Hs; [|by left].
    right. by apply list_elem_of_fmap_2.
  - apply elem_of_replicate in Ho as [-> _]. by left.
Qed.

(** The vnodes of the [i]-th selected slot: its share, and its hinted ones as far as possible. *)
Definition slot_ok (items : list Z) (i : nat) (s : Z) : Prop :=
  count_true (item_bits s items) = share n selected i ∧
  ∀ h, hint = Some h →
    (share n selected i ≤ count_true (item_bits s (contents h)) →
     ∀ v : nat, items !! v = Some s → contents h !! v = Some s) ∧
    (count_true (item_bits s (contents h)) ≤ share n selected i →
     ∀ v : nat, contents h !! v = Some s → items !! v = Some s).

Lemma owner_items (h : WorkerSlotMapping.t) s :
  s ∈ selected → owned (Some s) (owner selected <$> contents h) = item_bits s (contents h) ∧
  ∀ v : nat, (owner selected <$> contents h) !! v = Some (Some s) ↔ contents h !! v = Some s.
Proof using.
  clear Hne. intros Hs. assert (∀ x, owner selected x = Some s ↔ x = s) as Ho.
  { intros x. unfold owner. case_decide; naive_solver. }
  split.
  - unfold owned, item_bits. rewrite <-list_fmap_compose. apply list_fmap_ext. intros i x _. simpl.
    apply bool_decide_ext, Ho.
  - intros v. rewrite list_lookup_fmap. destruct (contents h !! v) as [x|]; simpl; [|done].
    split; [intros [= Hx]; f_equal; by apply Ho|intros [= ->]; f_equal; by apply Ho].
Qed.

Lemma final_slots own dn items i s :
  queue_inv n (quota_of n selected) (hinted n selected hint) own dn →
  Forall (λ b, balance b = 0%Z) dn → key <$> dn ≡ₚ None :: (Some <$> selected) →
  own = Some <$> items → selected !! i = Some s → slot_ok items i s.
Proof using Hsel.
  intros (_ & _ & _ & Hall & _) Hz Hk -> Hi.
  assert (s ∈ selected) as Hs by (by eapply list_elem_of_lookup_2).
  assert (Some s ∈ key <$> dn) as Ht by (rewrite Hk; right; by apply list_elem_of_fmap_2).
  apply list_elem_of_fmap in Ht as (b & Hb & Hbin). rewrite Forall_forall in Hall, Hz.
  destruct (Hall b Hbin) as (_ & Hbal & Hl1 & Hl2). rewrite (Hz b Hbin), <-Hb in *.
  rewrite (quota_of_lookup n selected Hsel i s Hi) in *. unfold cnt in *. rewrite owned_items in Hbal.
  split; [lia|]. intros h Hh. rewrite Hh in Hl1, Hl2. cbn [hinted] in Hl1, Hl2.
  destruct (owner_items h s Hs) as [Ho1 Ho2]. rewrite Ho1 in Hl1, Hl2.
  split; intros Hle v Hv.
  - apply Ho2. apply Hl1; [lia|]. by rewrite list_lookup_fmap, Hv.
  - apply Ho2 in Hv. apply Hl2 in Hv; [|lia]. rewrite list_lookup_fmap in Hv.
    destruct (items !! v) as [x|]; [|done]. by injection Hv as ->.
Qed.

Lemma place_body_ok :
  ∃ items,
    ('(m, temp) ← assign_all hint selected n (init_balances selected n, temp_slot n);
     res ← rebalance (S (length (reverse (sorted_by_key balance (into_values m ++ [temp]))))) n
             (reverse (sorted_by_key balance (into_values m ++ [temp]))) ∅;
     worker_result ← rfold (merge_step n) (into_iter res) ∅;
     mapping ← VnodeMapping.from_bitmaps (into_iter worker_result);
     Ret (Some mapping)) = Ret (Some (VnodeMapping.from_expanded items)) ∧
    length items = n ∧ Forall (λ s, s ∈ selected) items ∧
    ∀ i s, selected !! i = Some s → slot_ok items i s.
Proof using All.
  destruct (assign_all_ok n selected Hn hint _ Hhint (assign_init n selected Hn Hsel)) as ([m temp] & -> & Hacc).
  cbn [mbind outcome_bind].
  pose proof (queue_init n selected Hsel Hne _ _ _ _ Hacc (Hvalues m) (length_hinted n selected hint Hhint)
    hinted_owners) as Hq.
  pose proof (assign_keys n selected Hsel _ _ _ _ Hacc (Hvalues m)) as Hk.
  set (bs := into_values m ++ [temp]) in *. set (deque := reverse (sorted_by_key balance bs)).
  assert (deque ≡ₚ bs) as Hp by (unfold deque; by rewrite reverse_Permutation, sorted_by_key_perm).
  rewrite <-Hp in Hq, Hk. rewrite <-(app_nil_r deque) in Hq.
  destruct (rebalance_ok n (quota_of n selected) (hinted n selected hint) Hn (quota_of_bound n selected Hn)
    (S (length deque)) deque [] ∅ _ ltac:(lia) Hq) as (res & own & dn & Hrun & Hinv & Hz & Hres & Hk');
    [by apply Forall_nil_2|apply deque_sorted| |].
  { intros s bm. rewrite lookup_empty. split; [done|]. by intros (b & ?%elem_of_nil & _). }
  rewrite app_nil_r, Hk in Hk'. rewrite Hrun. cbn [mbind outcome_bind].
  destruct (final_owners own dn Hinv Hz Hk') as (items & Hown & Hitems).
  pose proof Hinv as (Hlen & Hnd & _ & Hall & _). rewrite Forall_forall in Hall.
  assert (∀ s bm, res !! s = Some bm → bitmap_ok bm ∧ Bitmap.num_bits bm = n ∧ view bm = item_bits s items) as Hbm.
  { intros s bm (b & Hb & Hkb & ->)%Hres. destruct (Hall b Hb) as ((Hok & Hbl & Hv) & _).
    destruct (finish_ok _ Hok) as [H1 H2]. rewrite Hkb, Hown, owned_items in Hv.
    split_and!; [done| |by rewrite H2]. by rewrite <-length_view, H2, length_builder_view. }
  rewrite (merge_results_ok n res) by (apply Hiter || (intros s bm (? & ? & _)%Hbm; done)).
  cbn [mbind outcome_bind].
  assert (∀ s, s ∈ selected → s ∈ (into_iter res).*1) as Hcover.
  { intros s Hs. assert (Some s ∈ key <$> dn) as Ht by (rewrite Hk'; right; by apply list_elem_of_fmap_2).
    apply list_elem_of_fmap in Ht as (b & Hb & Hbin). apply list_elem_of_fmap.
    exists (s, BitmapBuilder.finish (builder b)). split; [done|]. rewrite Hiter. apply elem_of_map_to_list.
    apply Hres. by exists b. }
  rewrite (from_bitmaps_ok (into_iter res) items).
  - exists items. split; [done|]. split; [by rewrite <-Hlen, Hown, length_fmap|]. split; [done|].
    intros i s. by apply (final_slots own dn).
  - destruct selected as [|s0 ?]; [done|]. intros E. rewrite E in Hcover.
    by apply (elem_of_nil (A := Z) s0), Hcover; left.
  - rewrite Hiter. apply NoDup_fst_map_to_list.
  - rewrite Forall_forall in Hitems. auto.
  - apply Forall_forall. intros [s bm] Hin. rewrite Hiter in Hin. apply elem_of_map_to_list in Hin.
    apply Hbm in Hin. tauto.
Qed.

End place.

(** ** The property *)

(** C32: vnode placement is total, balanced and keeps locality.  For serving compute nodes with
    distinct ids, a vnode count within the maximum, an optional well-formed hint of that
    length, and any iteration order of the hash maps, [place_vnode] returns without
    panicking.  It selects distinct slots of serving workers, as many as slots, the given
    parallelism and the vnode count allow, and returns no mapping exactly when that is none.
    Otherwise every vnode is given to a selected slot, the [i]-th slot getting the quotient
    and one of the remainder; a slot hinted at most its share keeps all its hinted vnodes,
    and one hinted at least its share gets no other vnode. *)
Theorem place_vnode_balanced into_values into_iter hint workers max_parallelism (n : nat) :
  (∀ m : gmap Z Balance, into_values m ≡ₚ (map_to_list m).*2) →
  (∀ m : gmap Z Bitmap.t, into_iter m ≡ₚ map_to_list m) →
  workers_ok workers → n ≤ VirtualNode.MAX_COUNT → hint_ok n hint →
  ∃ sel total, NoDup sel ∧ NoDup total ∧ (∀ s, s ∈ total ↔ serving_slot workers s) ∧
    (∀ s, s ∈ sel → serving_slot workers s) ∧
    length sel = serving_parallelism (length total) max_parallelism n ∧
    if decide (sel = [])
    then place_vnode into_values into_iter hint workers max_parallelism n = Ret None
    else ∃ m, place_vnode into_values into_iter hint workers max_parallelism n = Ret (Some m) ∧
      mapping_ok m ∧ length (contents m) = n ∧ Forall (λ s, s ∈ sel) (contents m) ∧
      ∀ i s, sel !! i = Some s → slot_ok n sel hint (contents m) i s.
Proof.
  intros Hvalues Hiter Hw Hmax Hhint.
  assert (Z.of_nat n ≤ 2 ^ 15)%Z as Hn by (apply Nat2Z.inj_le in Hmax; exact Hmax). clear Hmax.
  destruct (selected_slots_ok workers max_parallelism n Hw) as (sel & total & Hsel & Hnd & Hndt & Hin & Hlen & Hs).
  exists sel, total. split; [done|]. split; [done|]. split; [done|]. split; [done|]. split; [done|].
  assert (∀ A (k : outcome A), (match hint with
    | Some mapping => rassert (VnodeMapping.len mapping =? n) | None => Ret tt end ≫= λ _, k) = k) as Hassert.
  { intros A k. destruct hint as [h|]; [|done]. destruct Hhint as [H1 H2].
    rewrite mapping_len_ok, H2, Nat.eqb_refl by done. done. }
  unfold place_vnode. rewrite Hassert, Hsel. cbn [mbind outcome_bind]. case_decide as He.
  { by rewrite bool_decide_true. }
  rewrite bool_decide_false by done.
  destruct (place_body_ok into_values into_iter Hvalues Hiter n sel hint ltac:(lia) Hnd He Hhint)
    as (items & Hrun & Hl & Hitems & Hslots).
  exists (VnodeMapping.from_expanded items).
  destruct (from_expanded_ok items) as [Hok Hc]; [rewrite Hl; lia|]. rewrite Hc.
  split; [exact Hrun|]. by split_and!.
Qed.

Lemma place_vnode_balanced_witness :
  let workers := [WorkerNode.mk 2 WorkerNode.ComputeNode (Some (WorkerNode.mk_property true 1));
                  WorkerNode.mk 1 WorkerNode.ComputeNode (Some (WorkerNode.mk_property true 2))] in
  ∃ m, place_vnode (λ m, (map_to_list m).*2) map_to_list None workers None 8 = Ret (Some m) ∧
    mapping_ok m ∧ length (contents m) = 8.
Proof.
  intros workers.
  destruct (place_vnode_balanced (λ m, (map_to_list m).*2) map_to_list None workers None 8)
    as (sel & total & _ & _ & _ & _ & Hlen & H).
  - done.
  - done.
  - split.
    + repeat constructor; [by intros [=]%list_elem_of_singleton|by intros ?%elem_of_nil].
    + repeat constructor; try done; simpl in *; intros; simplify_eq; done.
  - by apply (Nat.leb_le 8 VirtualNode.MAX_COUNT); vm_compute.
  - done.
  - case_decide as He.
    + exfalso. vm_compute in H. discriminate H.
    + destruct H as (m & H1 & H2 & H3 & _). exists m.
      split; [exact H1|]. split; [exact H2|exact H3].
Defined.
