(* ===== verification/RowId.v ===== *)
(** * Row ids

    [src/common/src/util/row_id.rs]: the snowflake generator of row ids and the vnode of a
    row id.  The clock is the list of the milliseconds that the calls of
    [base.elapsed()] read, in order.  Theorems: row ids never repeat, the generator never
    panics and only waits for the clock, and the vnode is recovered from the id. *)

From Stdlib Require Import ZArith Lia.
From stdpp Require Import sorting.
From S2P Require Import Prelude Order Bytes Epoch Bits Bitmap Vnode.

Local Open Scope Z_scope.

(** ** Computations that read the clock *)

(** A finished computation with the readings left, one still spinning when the readings were
    used up, or a panic. *)
Inductive run (A : Type) : Type :=
| Done (a : A) (clock : list Z)
| Spinning
| Panicked.
Arguments Done {A} a clock.
Arguments Spinning {A}.
Arguments Panicked {A}.

Definition clocked (A : Type) : Type := list Z → run A.

#[global] Instance clocked_ret : MRet clocked := λ A a clock, Done a clock.
#[global] Instance clocked_bind : MBind clocked := λ A B f m clock,
  match m clock with
  | Done a clock' => f a clock'
  | Spinning => Spinning
  | Panicked => Panicked
  end.

Definition lift {A} (o : outcome A) : clocked A :=
  λ clock, match o with Ret a => Done a clock | Panic => Panicked end.

(** [base.elapsed().unwrap().as_millis() as i64] *)
Definition get_current_timestamp_ms : clocked Z :=
  λ clock, match clock with t :: clock' => Done t clock' | [] => Spinning end.

(** ** The layout of row ids *)

Definition TIMESTAMP_SHIFT_BITS : Z := 22.
Definition COMPAT_VNODE_BITS : Z := 10.

(** [i64] results wrap. *)
Definition i64 (x : Z) : Z := wrap 64 (x + 2 ^ 63) - 2 ^ 63.

Definition next_power_of_two (n : Z) : Z := 2 ^ Z.log2_up n.

Definition bit_for_vnode (vnode_count : nat) : Z :=
  if Z.of_nat vnode_count <=? Z.shiftl 1 COMPAT_VNODE_BITS then COMPAT_VNODE_BITS
  else Z.log2 (next_power_of_two (Z.of_nat vnode_count)).

Definition compute_vnode_from_row_id (id : Z) (vnode_count : nat) : outcome VirtualNode.t :=
  let vnode_bit := bit_for_vnode vnode_count in
  let sequence_bit := TIMESTAMP_SHIFT_BITS - vnode_bit in
  let vnode_part := Z.to_nat (Z.land (Z.shiftr id sequence_bit) (Z.shiftl 1 vnode_bit - 1)) in
  _ ← rassert (negb (vnode_count =? 0)%nat);
  Ret (VirtualNode.from_index (vnode_part `mod` vnode_count)%nat).

(** ** The generator *)
Module RowIdGenerator.

Record t := mk {
  last_timestamp_ms : Z;
  vnode_bit : Z;
  vnodes : list VirtualNode.t;
  vnodes_index : nat;
  sequence : Z
}.

Definition new (vnodes : list VirtualNode.t) (vnode_count : nat) : clocked t :=
  last_timestamp_ms ← get_current_timestamp_ms;
  mret (mk last_timestamp_ms (bit_for_vnode vnode_count) vnodes 0 0).

Definition sequence_upper_bound (self : t) : Z :=
  wrap 16 (Z.shiftl 1 (TIMESTAMP_SHIFT_BITS - vnode_bit self)).

(** The [loop] of [try_update_timestamp], started with the reading [current]. *)
Fixpoint wait_past (last current : Z) (clock : list Z) : run Z :=
  if last <? current then Done current clock
  else match clock with
       | [] => Spinning
       | current :: clock' => wait_past last current clock'
       end.

Definition try_update_timestamp (self : t) : clocked t :=
  current_timestamp_ms ← get_current_timestamp_ms;
  let to_update := match current_timestamp_ms ?= last_timestamp_ms self with
                   | Lt => true
                   | Eq => sequence self =? sequence_upper_bound self
                   | Gt => true
                   end in
  if (to_update : bool) then
    current_timestamp_ms ← wait_past (last_timestamp_ms self) current_timestamp_ms;
    mret (mk current_timestamp_ms (vnode_bit self) (vnodes self) (vnodes_index self) 0)
  else mret self.

Definition next_row_id_in_current_timestamp (self : t) : outcome (option Z * t) :=
  if sequence_upper_bound self <=? sequence self then Ret (None, self)
  else
    v ← unwrap (vnodes self !! vnodes_index self);
    let vnode := VirtualNode.to_index v in
    let len := wrap 16 (Z.of_nat (length (vnodes self))) in
    _ ← rassert (negb (len =? 0));
    let index := Z.to_nat (wrap 16 (Z.of_nat (vnodes_index self) + 1) mod len) in
    let seq := if (index =? 0)%nat then wrap 16 (sequence self + 1) else sequence self in
    let id :=
      Z.lor (Z.lor (i64 (Z.shiftl (last_timestamp_ms self) TIMESTAMP_SHIFT_BITS))
                   (i64 (wrap 64 (Z.shiftl (Z.of_nat vnode) (TIMESTAMP_SHIFT_BITS - vnode_bit self)))))
            (sequence self) in
    Ret (Some id, mk (last_timestamp_ms self) (vnode_bit self) (vnodes self) index seq).

(** One step of the iterator of [gen_iter]. *)
Definition gen_next (self : t) : clocked (Z * t) :=
  '(next, self) ← lift (next_row_id_in_current_timestamp self);
  match next with
  | Some next => mret (next, self)
  | None =>
      self ← try_update_timestamp self;
      '(next, self) ← lift (next_row_id_in_current_timestamp self);
      next ← lift (unwrap next);
      mret (next, self)
  end.

(** [gen_iter().take(length)] *)
Fixpoint gen_take (length : nat) (self : t) : clocked (list Z * t) :=
  match length with
  | O => mret ([], self)
  | S length =>
      '(id, self) ← gen_next self;
      '(ids, self) ← gen_take length self;
      mret (id :: ids, self)
  end.

Definition next_batch (self : t) (length : nat) : clocked (list Z * t) :=
  self ← try_update_timestamp self;
  '(ret, self) ← gen_take length self;
  _ ← lift (rassert (List.length ret =? length)%nat);
  mret (ret, self).

Definition next (self : t) : clocked (Z * t) :=
  self ← try_update_timestamp self; gen_next self.

End RowIdGenerator.

(** ** The layout *)

Lemma bit_for_vnode_ok vnode_count :
  Z.of_nat vnode_count ≤ 2 ^ 15 →
  10 ≤ bit_for_vnode vnode_count ≤ 15 ∧ Z.of_nat vnode_count ≤ 2 ^ bit_for_vnode vnode_count.
Proof.
  intros Hmax. unfold bit_for_vnode, COMPAT_VNODE_BITS, next_power_of_two.
  change (Z.shiftl 1 10) with 1024. destruct (Z.leb_spec (Z.of_nat vnode_count) 1024); [lia|].
  rewrite Z.log2_pow2 by apply Z.log2_up_nonneg.
  pose proof (Z.log2_up_spec (Z.of_nat vnode_count) ltac:(lia)) as [_ Hup].
  pose proof (Z.log2_up_le_mono (Z.of_nat vnode_count) (2 ^ 15) Hmax) as Hle.
  rewrite Z.log2_up_pow2 in Hle by lia.
  pose proof (Z.log2_up_le_mono 1024 (Z.of_nat vnode_count) ltac:(lia)) as Hge.
  change (Z.log2_up 1024) with 10 in Hge. lia.
Qed.

(** A row id of timestamp [ts], vnode [v] and sequence number [seq], [b] bits for the vnode. *)
Definition layout (b ts : Z) (v : nat) (seq : Z) : Z := ts * 2 ^ 22 + Z.of_nat v * 2 ^ (22 - b) + seq.

Section layout.
Context (b : Z) (Hb : 10 ≤ b ≤ 15).

Lemma split_22 : 2 ^ 22 = 2 ^ b * 2 ^ (22 - b).
Proof. rewrite <-Z.pow_add_r by lia. f_equal. lia. Qed.

Lemma layout_lor ts v seq :
  0 ≤ ts < 2 ^ 41 → Z.of_nat v < 2 ^ b → 0 ≤ seq < 2 ^ (22 - b) →
  Z.lor (Z.lor (i64 (Z.shiftl ts 22)) (i64 (wrap 64 (Z.shiftl (Z.of_nat v) (22 - b))))) seq = layout b ts v seq.
Proof.
  intros Hts Hv Hseq. pose proof split_22 as H22.
  assert (0 < 2 ^ (22 - b)) as Hp by (apply Z.pow_pos_nonneg; lia).
  assert (0 ≤ Z.of_nat v * 2 ^ (22 - b)) by nia.
  assert (Z.of_nat v * 2 ^ (22 - b) < 2 ^ 22) by nia.
  rewrite !Z.shiftl_mul_pow2 by lia. rewrite (wrap_small 64) by (split; lia).
  unfold i64. rewrite !wrap_small by (split; lia). unfold layout.
  replace (ts * 2 ^ 22 + 2 ^ 63 - 2 ^ 63) with (Z.shiftl ts 22) by (rewrite Z.shiftl_mul_pow2; lia).
  replace (Z.of_nat v * 2 ^ (22 - b) + 2 ^ 63 - 2 ^ 63) with (Z.of_nat v * 2 ^ (22 - b)) by lia.
  rewrite lor_shiftl_add by lia.
  replace (ts * 2 ^ 22 + Z.of_nat v * 2 ^ (22 - b)) with (Z.shiftl (ts * 2 ^ b + Z.of_nat v) (22 - b)).
  - rewrite lor_shiftl_add by lia. by rewrite Z.shiftl_mul_pow2 by lia.
  - rewrite Z.shiftl_mul_pow2 by lia. rewrite H22. ring.
Qed.

Lemma layout_parts ts v seq :
  Z.of_nat v < 2 ^ b → 0 ≤ seq < 2 ^ (22 - b) →
  layout b ts v seq / 2 ^ (22 - b) = ts * 2 ^ b + Z.of_nat v ∧
  layout b ts v seq mod 2 ^ (22 - b) = seq ∧
  (layout b ts v seq / 2 ^ (22 - b)) mod 2 ^ b = Z.of_nat v ∧
  (layout b ts v seq / 2 ^ (22 - b)) / 2 ^ b = ts.
Proof.
  intros Hv Hseq. assert (0 < 2 ^ (22 - b)) as Hp by (apply Z.pow_pos_nonneg; lia).
  assert (0 < 2 ^ b) as Hpb by (apply Z.pow_pos_nonneg; lia).
  assert (layout b ts v seq = (ts * 2 ^ b + Z.of_nat v) * 2 ^ (22 - b) + seq) as E.
  { unfold layout. rewrite split_22. ring. }
  assert (layout b ts v seq / 2 ^ (22 - b) = ts * 2 ^ b + Z.of_nat v) as Hd.
  { rewrite E, Z.div_add_l, Z.div_small by lia. lia. }
  split; [done|]. rewrite Hd. split_and!.
  - rewrite E, Z.add_comm, Z.mod_add, Z.mod_small by lia. done.
  - rewrite Z.add_comm, Z.mod_add, Z.mod_small by lia. done.
  - rewrite Z.div_add_l, Z.div_small by lia. lia.
Qed.

Lemma layout_inj ts v seq ts' v' seq' :
  Z.of_nat v < 2 ^ b → 0 ≤ seq < 2 ^ (22 - b) → Z.of_nat v' < 2 ^ b → 0 ≤ seq' < 2 ^ (22 - b) →
  layout b ts v seq = layout b ts' v' seq' → ts = ts' ∧ v = v' ∧ seq = seq'.
Proof.
  intros Hv Hs Hv' Hs' E. destruct (layout_parts ts v seq Hv Hs) as (_ & H1 & H2 & H3).
  destruct (layout_parts ts' v' seq' Hv' Hs') as (_ & H1' & H2' & H3').
  rewrite E in *. split_and!; [congruence| |congruence]. apply Nat2Z.inj. congruence.
Qed.
End layout.

(** The vnode of a generated row id, under the same vnode count. *)
Lemma compute_vnode_layout vnode_count ts v seq :
  Z.of_nat vnode_count ≤ 2 ^ 15 → (v < vnode_count)%nat →
  0 ≤ seq < 2 ^ (22 - bit_for_vnode vnode_count) →
  compute_vnode_from_row_id (layout (bit_for_vnode vnode_count) ts v seq) vnode_count = Ret v.
Proof.
  intros Hmax Hv Hseq. destruct (bit_for_vnode_ok vnode_count Hmax) as [Hb Hc].
  unfold compute_vnode_from_row_id, TIMESTAMP_SHIFT_BITS. set (b := bit_for_vnode vnode_count) in *.
  rewrite Z.shiftr_div_pow2 by lia.
  replace (Z.shiftl 1 b - 1) with (Z.ones b) by (rewrite Z.ones_equiv, Z.shiftl_1_l; lia).
  rewrite Z.land_ones by lia.
  destruct (layout_parts b Hb ts v seq) as (_ & _ & -> & _); [lia|done|].
  rewrite Nat2Z.id, (proj2 (Nat.eqb_neq _ _)) by lia. cbn [negb rassert mbind outcome_bind].
  rewrite Nat.mod_small by done. unfold VirtualNode.from_index. rewrite wrap_small by (split; lia).
  by rewrite Nat2Z.id.
Qed.

(** ** Positions *)

(** A position in the enumeration of ids: timestamp, sequence number, index of the vnode. *)
Definition position : Type := Z * Z * nat.

Definition pos_lt (p q : position) : Prop :=
  let '(t1, s1, i1) := p in let '(t2, s2, i2) := q in
  t1 < t2 ∨ (t1 = t2 ∧ (s1 < s2 ∨ (s1 = s2 ∧ (i1 < i2)%nat))).
Definition pos_le (p q : position) : Prop := pos_lt p q ∨ p = q.

Lemma pos_lt_trans p q r : pos_lt p q → pos_lt q r → pos_lt p r.
Proof. destruct p as [[??]?], q as [[??]?], r as [[??]?]. simpl. lia. Qed.

Lemma pos_lt_le_trans p q r : pos_lt p q → pos_le q r → pos_lt p r.
Proof. intros H [H'| ->]; [by eapply pos_lt_trans|done]. Qed.

Lemma pos_le_lt_trans p q r : pos_le p q → pos_lt q r → pos_lt p r.
Proof. intros [H| ->] H'; [by eapply pos_lt_trans|done]. Qed.

Lemma pos_le_trans p q r : pos_le p q → pos_le q r → pos_le p r.
Proof. intros [H| ->] H'; [left; by eapply pos_lt_le_trans|done]. Qed.

Lemma pos_lt_irrefl p : ¬ pos_lt p p.
Proof. destruct p as [[??]?]. simpl. lia. Qed.

(** The number of times the clock passes its previous maximum. *)
Fixpoint ticks (last : Z) (clock : list Z) : nat :=
  match clock with
  | [] => 0
  | t :: clock' => if last <? t then S (ticks t clock') else ticks last clock'
  end.

Section generator.
Context (vnode_count : nat) (vs : list VirtualNode.t).
Context (Hmax : Z.of_nat vnode_count ≤ 2 ^ 15).
Context (Hvs : Forall (λ v, (v < vnode_count)%nat) vs).
Context (Hne : vs ≠ []) (Hlen : Z.of_nat (length vs) ≤ 2 ^ 15).

Abbreviation b := (bit_for_vnode vnode_count).
Abbreviation bound := (2 ^ (22 - b)).

Definition cursor (g : RowIdGenerator.t) : position :=
  (RowIdGenerator.last_timestamp_ms g, RowIdGenerator.sequence g, RowIdGenerator.vnodes_index g).

Definition gen_ok (g : RowIdGenerator.t) : Prop :=
  RowIdGenerator.vnode_bit g = b ∧ RowIdGenerator.vnodes g = vs ∧
  (RowIdGenerator.vnodes_index g < length vs)%nat ∧
  0 ≤ RowIdGenerator.sequence g ≤ bound ∧ 0 ≤ RowIdGenerator.last_timestamp_ms g < 2 ^ 41.

Definition clock_ok (clock : list Z) : Prop := Forall (λ t, 0 ≤ t < 2 ^ 41) clock.

(** The id at a position. *)
Definition pos_ok (p : position) : Prop :=
  0 ≤ p.1.1 < 2 ^ 41 ∧ 0 ≤ p.1.2 < bound ∧ (p.2 < length vs)%nat.
Definition id_at (p : position) : Z := layout b p.1.1 (default (0%nat : VirtualNode.t) (vs !! p.2)) p.1.2.

Lemma bound_range : 2 ^ 7 ≤ bound ≤ 2 ^ 12.
Proof using Hmax.
  clear -Hmax. destruct (bit_for_vnode_ok vnode_count Hmax) as [Hb _]. split; apply Z.pow_le_mono_r; lia.
Qed.

Lemma upper_bound_ok g : gen_ok g → RowIdGenerator.sequence_upper_bound g = bound.
Proof using Hmax.
  intros (Hb & _). unfold RowIdGenerator.sequence_upper_bound, TIMESTAMP_SHIFT_BITS.
  rewrite Hb, Z.shiftl_1_l. pose proof bound_range. apply wrap_small. split; lia.
Qed.

Lemma next_row_id_ok g :
  gen_ok g → RowIdGenerator.sequence g < bound →
  ∃ g', RowIdGenerator.next_row_id_in_current_timestamp g = Ret (Some (id_at (cursor g)), g') ∧
    gen_ok g' ∧ pos_lt (cursor g) (cursor g') ∧ pos_ok (cursor g) ∧
    RowIdGenerator.last_timestamp_ms g' = RowIdGenerator.last_timestamp_ms g.
Proof using Hmax Hvs Hlen.
  intros Hg Hseq. pose proof Hg as (Hb & Hv & Hi & Hs & Ht). pose proof bound_range as Hbr.
  unfold RowIdGenerator.next_row_id_in_current_timestamp.
  rewrite upper_bound_ok by done. rewrite (proj2 (Z.leb_gt _ _)) by done. rewrite Hv.
  destruct (lookup_lt_is_Some_2 vs (RowIdGenerator.vnodes_index g) Hi) as [v Hlookup].
  rewrite Hlookup. cbn [unwrap mbind outcome_bind].
  rewrite (wrap_small 16 (Z.of_nat (length vs))) by (split; lia).
  rewrite (proj2 (Z.eqb_neq _ _)) by lia. cbn [negb rassert mbind outcome_bind].
  rewrite (wrap_small 16 (Z.of_nat _ + 1)) by (split; lia).
  rewrite (wrap_small 16 (_ + 1)) by (split; lia).
  assert ((v < vnode_count)%nat) as Hvc.
  { rewrite Forall_forall in Hvs. apply Hvs. by eapply list_elem_of_lookup_2. }
  destruct (bit_for_vnode_ok vnode_count Hmax) as [Hb' Hc].
  unfold TIMESTAMP_SHIFT_BITS, VirtualNode.to_index. rewrite Hb, layout_lor by lia.
  eexists. split.
  { unfold id_at, cursor. cbn [fst snd]. rewrite Hlookup. reflexivity. }
  set (k := RowIdGenerator.vnodes_index g) in *. set (n := length vs) in *.
  assert ((Z.of_nat k + 1) mod Z.of_nat n = if (S k =? n)%nat then 0 else Z.of_nat k + 1) as Hmod.
  { destruct (Nat.eqb_spec (S k) n); [|apply Z.mod_small; lia].
    replace (Z.of_nat k + 1) with (Z.of_nat n) by lia. apply Z.mod_same. lia. }
  unfold cursor, pos_ok, gen_ok. cbn [RowIdGenerator.last_timestamp_ms RowIdGenerator.vnode_bit
    RowIdGenerator.vnodes RowIdGenerator.vnodes_index RowIdGenerator.sequence fst snd].
  fold k n. rewrite Hmod. destruct (Nat.eqb_spec (S k) n) as [Hwrap|Hwrap].
  - change (Z.to_nat 0 =? 0)%nat with true. split_and!; try done; cbn [pos_lt]; lia.
  - rewrite (proj2 (Nat.eqb_neq _ _)) by lia. split_and!; try done; cbn [pos_lt]; lia.
Qed.
(** ** Waiting for the clock *)

Lemma wait_past_ok last current clock :
  clock_ok (current :: clock) →
  match RowIdGenerator.wait_past last current clock with
  | Done now clock' => last < now ∧ 0 ≤ now < 2 ^ 41 ∧ clock_ok clock' ∧
      ticks last (current :: clock) = S (ticks now clock')
  | Spinning => ticks last (current :: clock) = 0%nat
  | Panicked => False
  end.
Proof using.
  revert current. induction clock as [|t clock IH]; intros current Hc;
    apply Forall_cons in Hc as [H1 H2]; cbn [RowIdGenerator.wait_past]; cbn [ticks];
    destruct (Z.ltb_spec last current); try done.
  apply (IH t H2).
Qed.

(** [try_update_timestamp] returns with room for at least one id, or is still waiting for a
    clock that has not advanced. *)
Lemma try_update_ok g clock :
  gen_ok g → clock_ok clock →
  match RowIdGenerator.try_update_timestamp g clock with
  | Done g' clock' => gen_ok g' ∧ clock_ok clock' ∧ pos_le (cursor g) (cursor g') ∧
      RowIdGenerator.sequence g' < bound ∧
      (ticks (RowIdGenerator.last_timestamp_ms g) clock ≤
       S (ticks (RowIdGenerator.last_timestamp_ms g') clock'))%nat
  | Spinning => ticks (RowIdGenerator.last_timestamp_ms g) clock = 0%nat
  | Panicked => False
  end.
Proof using Hmax.
  intros Hg Hc. pose proof Hg as (Hb & Hv & Hi & Hs & Ht). pose proof bound_range as Hbr.
  unfold RowIdGenerator.try_update_timestamp, mbind, clocked_bind, get_current_timestamp_ms.
  destruct clock as [|t clock]; [done|]. rewrite upper_bound_ok by done.
  set (last := RowIdGenerator.last_timestamp_ms g) in *.
  destruct (match (t ?= last)%Z with Eq => _ | Lt => true | Gt => true end) eqn:Eu.
  - pose proof (wait_past_ok last t clock Hc) as Hw.
    destruct (RowIdGenerator.wait_past last t clock) as [now clock'| |]; [|done..].
    destruct Hw as (H1 & H2 & H3 & H4). unfold mret, clocked_ret, gen_ok, cursor.
    cbn [RowIdGenerator.last_timestamp_ms RowIdGenerator.vnode_bit RowIdGenerator.vnodes
      RowIdGenerator.vnodes_index RowIdGenerator.sequence].
    split_and!; try done; try lia. left. unfold pos_lt. fold last. lia.
  - destruct (Z.compare_spec t last) as [Heq|?|?]; try done. apply Z.eqb_neq in Eu.
    apply Forall_cons in Hc as [_ Hc]. subst t.
    split_and!; try done; [by right|lia|]. cbn [ticks]. rewrite Z.ltb_irrefl. fold last. lia.
Qed.

Lemma gen_next_ok g clock :
  gen_ok g → clock_ok clock →
  match RowIdGenerator.gen_next g clock with
  | Done (id, g') clock' => gen_ok g' ∧ clock_ok clock' ∧
      (∃ p, id = id_at p ∧ pos_ok p ∧ pos_le (cursor g) p ∧ pos_lt p (cursor g')) ∧
      (ticks (RowIdGenerator.last_timestamp_ms g) clock ≤
       S (ticks (RowIdGenerator.last_timestamp_ms g') clock'))%nat
  | Spinning => ticks (RowIdGenerator.last_timestamp_ms g) clock = 0%nat
  | Panicked => False
  end.
Proof using Hmax Hvs Hlen.
  intros Hg Hc. pose proof Hg as (_ & _ & _ & Hs & _).
  unfold RowIdGenerator.gen_next, mbind, clocked_bind, lift.
  destruct (Z.lt_ge_cases (RowIdGenerator.sequence g) bound) as [Hlt|Hge].
  - destruct (next_row_id_ok g Hg Hlt) as (g' & -> & Hg' & Hp & Hpok & Hts). simpl.
    split_and!; try done; [|rewrite Hts; lia]. exists (cursor g). split_and!; try done. by right.
  - assert (RowIdGenerator.next_row_id_in_current_timestamp g = Ret (None, g)) as ->.
    { unfold RowIdGenerator.next_row_id_in_current_timestamp. rewrite upper_bound_ok by done.
      by rewrite (proj2 (Z.leb_le _ _)) by lia. }
    pose proof (try_update_ok g clock Hg Hc) as Hu.
    destruct (RowIdGenerator.try_update_timestamp g clock) as [g1 clock1| |]; [|done..].
    destruct Hu as (Hg1 & Hc1 & Hle & Hlt & Hticks).
    destruct (next_row_id_ok g1 Hg1 Hlt) as (g' & -> & Hg' & Hp & Hpok & Hts). simpl.
    split_and!; try done; [|by rewrite Hts]. exists (cursor g1). by split_and!.
Qed.

(** The ids of a batch, at strictly increasing positions. *)
Definition ids_between (ids : list Z) (p q : position) : Prop :=
  ∃ ps, ids = id_at <$> ps ∧ Forall pos_ok ps ∧ StronglySorted pos_lt ps ∧
    Forall (λ r, pos_le p r ∧ pos_lt r q) ps.

Lemma ids_between_nil p q : ids_between [] p q.
Proof using. exists []. split_and!; [done|by apply Forall_nil_2|constructor|by apply Forall_nil_2]. Qed.

Lemma ids_between_app ids1 ids2 p q r :
  ids_between ids1 p q → ids_between ids2 q r → pos_le p q → pos_le q r →
  ids_between (ids1 ++ ids2) p r.
Proof using.
  clear. intros (ps1 & -> & Hok1 & Hs1 & Hf1) (ps2 & -> & Hok2 & Hs2 & Hf2) Hpq Hqr.
  exists (ps1 ++ ps2). rewrite fmap_app. split_and!; [done|by apply Forall_app| |].
  - apply StronglySorted_app_2; [|done..]. intros x y Hx Hy. rewrite Forall_forall in Hf1, Hf2.
    eapply pos_lt_le_trans; [by apply Hf1|by apply Hf2].
  - apply Forall_app. split; (eapply Forall_impl; [eassumption|]); simpl; intros x [H1 H2]; split;
      eauto using pos_le_trans, pos_lt_le_trans.
Qed.

Lemma gen_take_ok n g clock :
  gen_ok g → clock_ok clock →
  match RowIdGenerator.gen_take n g clock with
  | Done (ids, g') clock' => gen_ok g' ∧ clock_ok clock' ∧ length ids = n ∧
      ids_between ids (cursor g) (cursor g') ∧ pos_le (cursor g) (cursor g') ∧
      (ticks (RowIdGenerator.last_timestamp_ms g) clock ≤
       n + ticks (RowIdGenerator.last_timestamp_ms g') clock')%nat
  | Spinning => (ticks (RowIdGenerator.last_timestamp_ms g) clock < n)%nat
  | Panicked => False
  end.
Proof using Hmax Hvs Hlen.
  revert g clock. induction n as [|n IH]; intros g clock Hg Hc.
  { simpl. split_and!; try done; [apply ids_between_nil|by right]. }
  cbn [RowIdGenerator.gen_take]. unfold mbind, clocked_bind.
  pose proof (gen_next_ok g clock Hg Hc) as Hn.
  destruct (RowIdGenerator.gen_next g clock) as [[id g1] clock1| |]; [|lia|done].
  destruct Hn as (Hg1 & Hc1 & (p & -> & Hpok & Hle & Hlt) & Ht).
  specialize (IH g1 clock1 Hg1 Hc1).
  destruct (RowIdGenerator.gen_take n g1 clock1) as [[ids g'] clock'| |]; [|lia|done].
  destruct IH as (Hg' & Hc' & Hl & Hids & Hle' & Ht').
  assert (pos_le (cursor g) (cursor g1)) as Hgg1 by (left; by eapply pos_le_lt_trans).
  simpl. split_and!; try done; [lia| |by eapply pos_le_trans|lia].
  apply (ids_between_app [id_at p] ids (cursor g) (cursor g1)); [|done..].
  exists [p]. split_and!; [done|by apply Forall_singleton|repeat constructor|by apply Forall_singleton].
Qed.

Lemma next_batch_ok n g clock :
  gen_ok g → clock_ok clock →
  match RowIdGenerator.next_batch g n clock with
  | Done (ids, g') clock' => gen_ok g' ∧ clock_ok clock' ∧ length ids = n ∧
      ids_between ids (cursor g) (cursor g') ∧ pos_le (cursor g) (cursor g') ∧
      (ticks (RowIdGenerator.last_timestamp_ms g) clock ≤
       S n + ticks (RowIdGenerator.last_timestamp_ms g') clock')%nat
  | Spinning => (ticks (RowIdGenerator.last_timestamp_ms g) clock ≤ n)%nat
  | Panicked => False
  end.
Proof using Hmax Hvs Hlen.
  intros Hg Hc. unfold RowIdGenerator.next_batch, mbind, clocked_bind.
  pose proof (try_update_ok g clock Hg Hc) as Hu.
  destruct (RowIdGenerator.try_update_timestamp g clock) as [g1 clock1| |]; [|lia|done].
  destruct Hu as (Hg1 & Hc1 & Hle & _ & Ht).
  pose proof (gen_take_ok n g1 clock1 Hg1 Hc1) as Hn.
  destruct (RowIdGenerator.gen_take n g1 clock1) as [[ids g'] clock'| |]; [|lia|done].
  destruct Hn as (Hg' & Hc' & Hl & Hids & Hle' & Ht'). unfold lift. rewrite Hl, Nat.eqb_refl. simpl.
  split_and!; try done; [|by eapply pos_le_trans|lia].
  apply (ids_between_app [] ids (cursor g) (cursor g1)); [apply ids_between_nil|done..].
Qed.

(** ** Sequences of calls *)

Inductive call := Next | NextBatch (length : nat).

Definition requested (c : call) : nat := match c with Next => 1 | NextBatch length => length end.

Definition perform (c : call) (g : RowIdGenerator.t) : clocked (list Z * RowIdGenerator.t) :=
  match c with
  | Next => '(id, g) ← RowIdGenerator.next g; mret ([id], g)
  | NextBatch length => RowIdGenerator.next_batch g length
  end.

Fixpoint perform_all (cs : list call) (g : RowIdGenerator.t) : clocked (list Z * RowIdGenerator.t) :=
  match cs with
  | [] => mret ([], g)
  | c :: cs' =>
      '(ids, g) ← perform c g;
      '(ids', g) ← perform_all cs' g;
      mret (ids ++ ids', g)
  end.

(** The calls of one id is a batch of one. *)
Lemma perform_next g clock : perform Next g clock = RowIdGenerator.next_batch g 1 clock.
Proof using.
  clear. unfold perform, RowIdGenerator.next, RowIdGenerator.next_batch, mbind, clocked_bind.
  destruct (RowIdGenerator.try_update_timestamp g clock) as [g1 clock1| |]; [|done..].
  cbn [RowIdGenerator.gen_take]. unfold mbind, clocked_bind.
  by destruct (RowIdGenerator.gen_next g1 clock1) as [[id g2] clock2| |].
Qed.

Lemma perform_all_ok cs g clock :
  gen_ok g → clock_ok clock →
  match perform_all cs g clock with
  | Done (ids, g') clock' => gen_ok g' ∧ length ids = sum_list (requested <$> cs) ∧
      ids_between ids (cursor g) (cursor g') ∧ pos_le (cursor g) (cursor g')
  | Spinning => (ticks (RowIdGenerator.last_timestamp_ms g) clock ≤ sum_list ((λ c, S (requested c)) <$> cs))%nat
  | Panicked => False
  end.
Proof using Hmax Hvs Hlen.
  revert g clock. induction cs as [|c cs IH]; intros g clock Hg Hc.
  { simpl. split_and!; try done; [apply ids_between_nil|by right]. }
  cbn [perform_all]. unfold mbind, clocked_bind.
  assert (perform c g clock = RowIdGenerator.next_batch g (requested c) clock) as ->.
  { destruct c; [apply perform_next|done]. }
  pose proof (next_batch_ok (requested c) g clock Hg Hc) as Hn. csimpl.
  destruct (RowIdGenerator.next_batch g (requested c) clock) as [[ids g1] clock1| |]; [|lia|done].
  destruct Hn as (Hg1 & Hc1 & Hl1 & Hids1 & Hle1 & Ht1). specialize (IH g1 clock1 Hg1 Hc1).
  destruct (perform_all cs g1 clock1) as [[ids' g'] clock'| |]; [|lia|done].
  destruct IH as (Hg' & Hl & Hids & Hle). unfold mret, clocked_ret.
  split_and!; [done|rewrite length_app; lia|by eapply ids_between_app|by eapply pos_le_trans].
Qed.

Lemma ids_between_NoDup ids p q :
  NoDup vs → ids_between ids p q → NoDup ids.
Proof using Hmax Hvs.
  intros Hnd (ps & -> & Hok & Hs & _).
  assert (∀ p q, pos_ok p → pos_ok q → id_at p = id_at q → p = q) as Hinj.
  { intros [[t1 s1] i1] [[t2 s2] i2] (_ & Hs1 & Hi1) (_ & Hs2 & Hi2). unfold id_at. cbn [fst snd] in *.
    destruct (lookup_lt_is_Some_2 vs i1 Hi1) as [v1 E1], (lookup_lt_is_Some_2 vs i2 Hi2) as [v2 E2].
    rewrite E1, E2. cbn [default from_option id]. destruct (bit_for_vnode_ok vnode_count Hmax) as [Hb Hc].
    assert (∀ i v, vs !! i = Some v → Z.of_nat v < 2 ^ b) as Hv.
    { intros i v Hi. rewrite Forall_forall in Hvs. specialize (Hvs v (list_elem_of_lookup_2 _ _ _ Hi)).
      simpl in Hvs. lia. }
    intros (-> & -> & ->)%(layout_inj _ Hb); try done; [|by eapply Hv..].
    by rewrite (NoDup_lookup _ _ _ _ Hnd E1 E2). }
  induction Hs as [|r ps Hs IH Hf]; [constructor|]. apply Forall_cons in Hok as [Hr Hok]. csimpl.
  constructor; [|by apply IH]. intros (r' & E & Hr')%list_elem_of_fmap.
  rewrite Forall_forall in Hok, Hf. rewrite <-(Hinj r r') in Hr' by (done || by apply Hok).
  by apply (pos_lt_irrefl r), Hf.
Qed.

Lemma id_at_ok p :
  pos_ok p → 0 ≤ id_at p < 2 ^ 63 ∧
  ∃ v, v ∈ vs ∧ compute_vnode_from_row_id (id_at p) vnode_count = Ret v.
Proof using Hmax Hvs.
  intros (Ht & Hs & Hi). unfold id_at. destruct (lookup_lt_is_Some_2 vs p.2 Hi) as [v E]. rewrite E.
  cbn [default from_option id]. destruct (bit_for_vnode_ok vnode_count Hmax) as [Hb Hc].
  pose proof (list_elem_of_lookup_2 _ _ _ E) as Hin. rewrite Forall_forall in Hvs. pose proof (Hvs v Hin) as Hv.
  simpl in Hv. split; [|exists v; split; [done|by apply compute_vnode_layout]].
  pose proof bound_range. pose proof (split_22 b Hb) as H22. unfold layout. nia.
Qed.

End generator.


