(* ===== verification/Key.v ===== *)
(** * Keys of the storage engine

    [src/storage/hummock_sdk/src/key.rs] and [key_cmp.rs]: table keys, user keys, full
    keys, their byte encodings and orders, key ranges and prefixes, and the key tracker of
    the iterators.  The theorems are in [KeySpec.v]. *)

From Stdlib Require Import ZArith Lia.
From S2P Require Import Prelude Order Bytes Epoch Bits Bitmap Vnode.

Local Open Scope Z_scope.

(** ** Bounds ([std::ops::Bound]) *)
Inductive Bound (A : Type) : Type :=
| Included (a : A)
| Excluded (a : A)
| Unbounded.
Arguments Included {A} a.
Arguments Excluded {A} a.
Arguments Unbounded {A}.

#[global] Instance Bound_eq_dec `{EqDecision A} : EqDecision (Bound A).
Proof. solve_decision. Defined.

#[global] Instance Bound_fmap : FMap Bound := λ A B f b,
  match b with Included a => Included (f a) | Excluded a => Excluded (f a) | Unbounded => Unbounded end.

(** [RangeBounds::contains] *)
Definition above {A} (cmp : A → A → comparison) (lo : Bound A) (k : A) : bool :=
  match lo with
  | Included a => cmp_leb cmp a k
  | Excluded a => cmp_ltb cmp a k
  | Unbounded => true
  end.
Definition below {A} (cmp : A → A → comparison) (hi : Bound A) (k : A) : bool :=
  match hi with
  | Included a => cmp_leb cmp k a
  | Excluded a => cmp_ltb cmp k a
  | Unbounded => true
  end.
Definition contains {A} (cmp : A → A → comparison) (range : Bound A * Bound A) (k : A) : bool :=
  above cmp range.1 k && below cmp range.2 k.

(** [iter().rposition(..)]: the last position satisfying the predicate. *)
Fixpoint rposition {A} (P : A → bool) (l : list A) : option nat :=
  match l with
  | [] => None
  | x :: l' => match rposition P l' with
               | Some i => Some (S i)
               | None => if P x then Some 0%nat else None
               end
  end.

(** ** [TableKey]: the user's key, vnode first *)
Module TableKey.

Definition t := list byte.

Definition split_vnode (self : t) : outcome (VirtualNode.t * list byte) :=
  _ ← rassert (VirtualNode.SIZE <=? length self)%nat;
  Ret (VirtualNode.from_be_bytes (take VirtualNode.SIZE self), drop VirtualNode.SIZE self).

Definition vnode_part (self : t) : outcome VirtualNode.t := fst <$> split_vnode self.
Definition key_part (self : t) : outcome (list byte) := snd <$> split_vnode self.

End TableKey.

Definition TableKeyRange : Type := Bound TableKey.t * Bound TableKey.t.

(** ** Free functions of [key.rs] *)
Module Key.

Definition EPOCH_LEN : nat := 8.
Definition TABLE_PREFIX_LEN : nat := 4.

Definition is_empty_key_range (key_range : TableKeyRange) : bool :=
  match key_range with
  | (Included start, Excluded end_) => bool_decide (start = end_)
  | _ => false
  end.

Definition vnode_range (range : TableKeyRange) : outcome (nat * nat) :=
  let '(left_, right_) := range in
  l ← match left_ with
         | Included key | Excluded key => VirtualNode.to_index <$> TableKey.vnode_part key
         | Unbounded => Ret 0%nat
         end;
  r ← match right_ with
          | Included key => v ← TableKey.vnode_part key; Ret (VirtualNode.to_index v + 1)%nat
          | Excluded key =>
              '(vnode, inner_key) ← TableKey.split_vnode key;
              if bool_decide (inner_key = []) then Ret (VirtualNode.to_index vnode)
              else Ret (VirtualNode.to_index vnode + 1)%nat
          | Unbounded => Ret (VirtualNode.to_index VirtualNode.MAX_REPRESENTABLE + 1)%nat
          end;
  Ret (l, r).

(** The subtraction of [usize] wraps, so [right < left] fails the assertion as well. *)
Definition vnode (range : TableKeyRange) : outcome VirtualNode.t :=
  '(l, r_exclusive) ← vnode_range range;
  _ ← rassert (wrap 64 (Z.of_nat r_exclusive - Z.of_nat l) =? 1);
  Ret (VirtualNode.from_index l).

Definition key_with_epoch (user_key : list byte) (epoch : Z) : list byte :=
  user_key ++ be_bytes EPOCH_LEN epoch.

Definition split_key_epoch (full_key : list byte) : outcome (list byte * list byte) :=
  if (length full_key <? EPOCH_LEN)%nat then Panic
  else let pos := (length full_key - EPOCH_LEN)%nat in Ret (take pos full_key, drop pos full_key).

Definition user_key (full_key : list byte) : outcome (list byte) :=
  fst <$> split_key_epoch full_key.

Definition table_key (user_key : list byte) : outcome (list byte) :=
  _ ← rassert (TABLE_PREFIX_LEN <=? length user_key)%nat; Ret (drop TABLE_PREFIX_LEN user_key).

Definition get_user_key (full_key : list byte) : outcome (list byte) :=
  if bool_decide (full_key = []) then Ret [] else user_key full_key.

Definition get_table_id (full_key : list byte) : outcome Z := fst <$> get_be 4 full_key.

Definition next_key_no_alloc (key : list byte) : option (list byte * byte) :=
  pos ← rposition (λ b, negb (bool_decide (b = Byte.xff))) key;
  b ← key !! pos;
  Some (take pos key, z2b (b2z b + 1)).

Definition next_key (key : list byte) : list byte :=
  match next_key_no_alloc key with
  | Some (s, e) => s ++ [e]
  | None => []
  end.

Definition prev_key (key : list byte) : list byte :=
  match rposition (λ b, negb (bool_decide (b = Byte.x00))) key with
  | Some pos =>
      take pos key ++ [z2b (b2z (default Byte.x00 (key !! pos)) - 1)]
        ++ (if (pos + 1 <? length key)%nat then [Byte.xff] else [])
  | None => replicate (length key) Byte.xff
  end.

Definition next_epoch (epoch : list byte) : list byte :=
  match rposition (λ b, negb (bool_decide (b = Byte.xff))) epoch with
  | Some pos =>
      take pos epoch ++ [z2b (b2z (default Byte.x00 (epoch !! pos)) + 1)]
        ++ replicate (length epoch - (pos + 1)) Byte.x00
  | None => replicate (length epoch) Byte.x00
  end.

Definition prev_epoch (epoch : list byte) : list byte :=
  match rposition (λ b, negb (bool_decide (b = Byte.x00))) epoch with
  | Some pos =>
      take pos epoch ++ [z2b (b2z (default Byte.x00 (epoch !! pos)) - 1)]
        ++ replicate (length epoch - (pos + 1)) Byte.xff
  | None => replicate (length epoch) Byte.xff
  end.

Definition next_full_key (full_key : list byte) : outcome (list byte) :=
  '(user_key, epoch) ← split_key_epoch full_key;
  let prev_epoch := prev_epoch epoch in
  if cmp_eqb bytes_cmp prev_epoch (replicate (length prev_epoch) Byte.xff) then
    let next_user_key := next_key user_key in
    if bool_decide (next_user_key = []) then Ret []
    else Ret (next_user_key ++ prev_epoch)
  else Ret (user_key ++ prev_epoch).

Definition prev_full_key (full_key : list byte) : outcome (list byte) :=
  '(user_key, epoch) ← split_key_epoch full_key;
  let next_epoch := next_epoch epoch in
  if cmp_eqb bytes_cmp next_epoch (replicate (length next_epoch) Byte.x00) then
    let prev_user_key := prev_key user_key in
    if cmp_eqb bytes_cmp prev_user_key (replicate (length prev_user_key) Byte.xff) then Ret []
    else Ret (prev_user_key ++ next_epoch)
  else Ret (user_key ++ next_epoch).

Definition end_bound_of_vnode (vnode : VirtualNode.t) : Bound (list byte) :=
  if (vnode =? VirtualNode.MAX_REPRESENTABLE)%nat then Unbounded
  else
    let end_bound_index := (VirtualNode.to_index vnode + 1)%nat in
    Excluded (VirtualNode.to_be_bytes (VirtualNode.from_index end_bound_index)).

Definition end_bound_of_prefix (prefix : list byte) : Bound (list byte) :=
  match next_key_no_alloc prefix with
  | Some (s, e) => Excluded (s ++ [e])
  | None => Unbounded
  end.

Definition start_bound_of_excluded_prefix (prefix : list byte) : outcome (Bound (list byte)) :=
  match next_key_no_alloc prefix with
  | Some (s, e) => Ret (Included (s ++ [e]))
  | None => Panic
  end.

Definition range_of_prefix (prefix : list byte) : Bound (list byte) * Bound (list byte) :=
  if bool_decide (prefix = []) then (Unbounded, Unbounded)
  else (Included prefix, end_bound_of_prefix prefix).

Definition prefix_slice_with_vnode (vnode : VirtualNode.t) (slice : list byte) : list byte :=
  VirtualNode.to_be_bytes vnode ++ slice.

Definition prefixed_range_with_vnode (range : Bound (list byte) * Bound (list byte))
    (vnode : VirtualNode.t) : outcome TableKeyRange :=
  let prefixed := prefix_slice_with_vnode vnode in
  start ← match range.1 with
          | Included b => Ret (Included (prefixed b))
          | Excluded b => _ ← rassert (negb (bool_decide (b = []))); Ret (Excluded (prefixed b))
          | Unbounded => Ret (Included (VirtualNode.to_be_bytes vnode))
          end;
  end_ ← match range.2 with
         | Included b => Ret (Included (prefixed b))
         | Excluded b => _ ← rassert (negb (bool_decide (b = []))); Ret (Excluded (prefixed b))
         | Unbounded => Ret (end_bound_of_vnode vnode)
         end;
  Ret (start, end_).

Definition gen_key_from_bytes (vnode : VirtualNode.t) (payload : list byte) : TableKey.t :=
  VirtualNode.to_be_bytes vnode ++ payload.

End Key.

(** ** [UserKey]: table id, then table key *)
Module UserKey.

Record t := mk { table_id : Z; table_key : TableKey.t }.

#[global] Instance t_eq_dec : EqDecision t.
Proof. solve_decision. Defined.

(** The derived order: fields in declaration order. *)
Definition cmp (x y : t) : comparison :=
  then_with (table_id x ?= table_id y) (bytes_cmp (table_key x) (table_key y)).

Definition encode (self : t) : list byte := be_bytes 4 (table_id self) ++ table_key self.

Definition is_empty (self : t) : bool := bool_decide (table_key self = []).
Definition encoded_len (self : t) : nat := (length (table_key self) + Key.TABLE_PREFIX_LEN)%nat.

Definition get_vnode_id (self : t) : outcome nat :=
  VirtualNode.to_index <$> TableKey.vnode_part (table_key self).

Definition decode (slice : list byte) : outcome t :=
  '(table_id, rest) ← get_be 4 slice;
  table_key ← Key.table_key slice;
  Ret (mk table_id table_key).

(** [set]: overwrite with another key. *)
Definition set (self other : t) : t := mk (table_id other) (table_key other).

(** The length-prefixed form of [range_delete_backward_compatibility_serde_struct]. *)
Definition encode_length_prefixed (self : t) : list byte :=
  be_bytes 4 (table_id self) ++ be_bytes 4 (wrap 32 (Z.of_nat (length (table_key self))))
    ++ table_key self.

Definition decode_length_prefixed (buf : list byte) : outcome (t * list byte) :=
  '(table_id, buf) ← get_be 4 buf;
  '(len, buf) ← get_be 4 buf;
  _ ← rassert (Z.to_nat len <=? length buf)%nat;
  Ret (mk table_id (take (Z.to_nat len) buf), drop (Z.to_nat len) buf).

End UserKey.

(** ** [FullKey]: user key with an epoch, newest first *)
Module FullKey.

Record t := mk { user_key : UserKey.t; epoch_with_gap : Z }.

#[global] Instance t_eq_dec : EqDecision t.
Proof. solve_decision. Defined.

Definition new (table_id : Z) (table_key : TableKey.t) (epoch : Z) : t :=
  mk (UserKey.mk table_id table_key) (EpochWithGap.new epoch 0).

Definition new_with_gap_epoch (table_id : Z) (table_key : TableKey.t) (epoch_with_gap : Z) : t :=
  mk (UserKey.mk table_id table_key) epoch_with_gap.

Definition from_user_key (user_key : UserKey.t) (epoch : Z) : t :=
  mk user_key (EpochWithGap.new_from_epoch epoch).

Definition encode (self : t) : list byte :=
  UserKey.encode (user_key self) ++ be_bytes 8 (epoch_with_gap self).

Definition encode_into_without_table_id (self : t) : list byte :=
  UserKey.table_key (user_key self) ++ be_bytes 8 (epoch_with_gap self).

Definition encode_reverse_epoch (self : t) : list byte :=
  UserKey.encode (user_key self) ++ be_bytes 8 (wrap 64 (u64_max - epoch_with_gap self)).

Definition is_empty (self : t) : bool := UserKey.is_empty (user_key self).
Definition encoded_len (self : t) : nat :=
  (UserKey.encoded_len (user_key self) + Key.EPOCH_LEN)%nat.

(** The split at [slice.len() - EPOCH_LEN]; on a shorter slice the subtraction wraps and
    the slicing panics. *)
Definition split_epoch (slice : list byte) : outcome (list byte * Z) :=
  '(rest, e) ← Key.split_key_epoch slice;
  '(epoch, _) ← get_be 8 e;
  Ret (rest, epoch).

Definition decode (slice : list byte) : outcome t :=
  '(rest, epoch) ← split_epoch slice;
  user_key ← UserKey.decode rest;
  Ret (mk user_key epoch).

Definition from_slice_without_table_id (table_id : Z) (slice : list byte) : outcome t :=
  '(rest, epoch) ← split_epoch slice;
  Ret (mk (UserKey.mk table_id rest) epoch).

Definition decode_reverse_epoch (slice : list byte) : outcome t :=
  '(rest, epoch) ← split_epoch slice;
  user_key ← UserKey.decode rest;
  Ret (mk user_key (wrap 64 (u64_max - epoch))).

Definition set (self other : t) : t :=
  mk (UserKey.set (user_key self) (user_key other)) (epoch_with_gap other).

(** When [user_key] is the same, greater epoch comes first. *)
Definition cmp (x y : t) : comparison :=
  then_with (UserKey.cmp (user_key x) (user_key y)) (epoch_with_gap y ?= epoch_with_gap x).

End FullKey.

(** ** [KeyComparator] ([key_cmp.rs]) *)
Module KeyComparator.

Definition compare_encoded_full_key (lhs rhs : list byte) : outcome comparison :=
  '(l_p, l_s) ← Key.split_key_epoch lhs;
  '(r_p, r_s) ← Key.split_key_epoch rhs;
  Ret (then_with (bytes_cmp l_p r_p) (bytes_cmp r_s l_s)).

Definition encoded_full_key_less_than (lhs rhs : list byte) : outcome bool :=
  c ← compare_encoded_full_key lhs rhs;
  Ret (match c with Lt => true | _ => false end).

Definition compare_user_key_cross_format (encoded : list byte) (unencoded : UserKey.t)
  : outcome comparison :=
  k ← UserKey.decode encoded; Ret (UserKey.cmp k unencoded).

Definition encoded_less_than_unencoded (encoded : list byte) (unencoded : UserKey.t) : outcome bool :=
  c ← compare_user_key_cross_format encoded unencoded;
  Ret (match c with Lt => true | _ => false end).

Definition encoded_less_equal_unencoded (encoded : list byte) (unencoded : UserKey.t) : outcome bool :=
  c ← compare_user_key_cross_format encoded unencoded;
  Ret (match c with Gt => false | _ => true end).

Definition encoded_greater_than_unencoded (encoded : list byte) (unencoded : UserKey.t)
  : outcome bool :=
  c ← compare_user_key_cross_format encoded unencoded;
  Ret (match c with Gt => true | _ => false end).

End KeyComparator.

(** ** [bound_table_key_range] *)
Definition bound_table_key_range (table_id : Z) (table_key_range : TableKeyRange)
  : Bound UserKey.t * Bound UserKey.t :=
  let start := match table_key_range.1 with
               | Included b => Included (UserKey.mk table_id b)
               | Excluded b => Excluded (UserKey.mk table_id b)
               | Unbounded => Included (UserKey.mk table_id [])
               end in
  let end_ := match table_key_range.2 with
              | Included b => Included (UserKey.mk table_id b)
              | Excluded b => Excluded (UserKey.mk table_id b)
              | Unbounded =>
                  if table_id + 1 <=? u32_max then Excluded (UserKey.mk (table_id + 1) [])
                  else Unbounded
              end in
  (start, end_).

(** ** [FullKeyTracker] *)
Module FullKeyTracker.

Record t := mk { latest_full_key : FullKey.t; last_observed_epoch_with_gap : Z }.

Definition new (init_full_key : FullKey.t) : t :=
  mk init_full_key (FullKey.epoch_with_gap init_full_key).

(** [SKIP_DEDUP] is the const parameter of the type.  Returns the tracker and whether a new
    user key was observed. *)
Definition observe_multi_version (SKIP_DEDUP : bool) (self : t) (user_key : UserKey.t)
    (epochs : list Z) : outcome (t * bool) :=
  max_epoch_with_gap ← unwrap (head epochs);
  min_epoch_with_gap ← rfold (λ prev curr, _ ← rassert (prev >? curr); Ret curr)
    (tail epochs) max_epoch_with_gap;
  match UserKey.cmp (FullKey.user_key (latest_full_key self)) user_key with
  | Lt => Ret (mk (FullKey.set (latest_full_key self) (FullKey.mk user_key min_epoch_with_gap))
                  min_epoch_with_gap, true)
  | Eq =>
      if (max_epoch_with_gap >? last_observed_epoch_with_gap self)
         || (negb SKIP_DEDUP && (max_epoch_with_gap =? last_observed_epoch_with_gap self))
      then Panic
      else Ret (mk (latest_full_key self) min_epoch_with_gap, false)
  | Gt => Panic
  end.

Definition observe (SKIP_DEDUP : bool) (self : t) (key : FullKey.t) : outcome (t * bool) :=
  observe_multi_version SKIP_DEDUP self (FullKey.user_key key) [FullKey.epoch_with_gap key].

Definition latest_user_key (self : t) : UserKey.t := FullKey.user_key (latest_full_key self).

End FullKeyTracker.
