(* ===== verification/KeySpec.v ===== *)
(** * Keys: encodings, orders, prefixes and ranges

    Theorems about [Key.v]: the encodings round-trip and are ordered like the keys, a
    prefix range contains exactly the keys with that prefix, vnode and table ranges confine
    keys to their vnode and table, neighbouring full keys, and the key tracker accepts
    exactly the strictly increasing sequences. *)

From Stdlib Require Import ZArith Lia.
From S2P Require Import Prelude Order Bytes Epoch Bits Bitmap Vnode Key.

(** ** [rposition] *)

Lemma rposition_spec {A} (P : A → bool) l :
  match rposition P l with
  | Some i => ∃ p x s, l = p ++ x :: s ∧ length p = i ∧ P x = true ∧ Forall (λ y, P y = false) s
  | None => Forall (λ y, P y = false) l
  end.
Proof.
  induction l as [|x l IH]; simpl; [constructor|].
  destruct (rposition P l) as [i|].
  - destruct IH as (p & y & s & -> & <- & Hy & Hs). by exists (x :: p), y, s.
  - destruct (P x) eqn:E; [by exists [], x, l|by constructor].
Qed.

(** The last byte different from [c]: what follows it is a run of [c]. *)
Lemma rposition_byte c (l : list byte) :
  match rposition (λ b, negb (bool_decide (b = c))) l with
  | Some i => ∃ p x n, l = p ++ x :: replicate n c ∧ length p = i ∧ x ≠ c
  | None => l = replicate (length l) c
  end.
Proof.
  assert (∀ s, Forall (λ y, negb (bool_decide (y = c)) = false) s → s = replicate (length s) c) as Hrep.
  { intros s Hs. symmetry. apply replicate_as_Forall_2; [done|]. eapply Forall_impl; [exact Hs|].
    intros y Hy. simpl in Hy. apply negb_false_iff, bool_decide_eq_true in Hy. done. }
  pose proof (rposition_spec (λ b, negb (bool_decide (b = c))) l) as H.
  destruct (rposition _ l) as [i|]; [|by apply Hrep].
  destruct H as (p & x & s & -> & <- & Hx & Hs). exists p, x, (length s).
  rewrite <-(Hrep s Hs). split_and!; [done..|]. apply negb_true_iff, bool_decide_eq_false in Hx. done.
Qed.

(** ** Prefixes *)

Lemma next_key_no_alloc_spec key :
  match Key.next_key_no_alloc key with
  | Some (s, e) => ∃ x n, key = s ++ x :: replicate n Byte.xff ∧ b2z e = (b2z x + 1)%Z
  | None => key = replicate (length key) Byte.xff
  end.
Proof.
  unfold Key.next_key_no_alloc. pose proof (rposition_byte Byte.xff key) as H.
  destruct (rposition _ key) as [i|]; simpl; [|done].
  destruct H as (p & x & n & -> & <- & Hx). rewrite list_lookup_middle by done. simpl.
  rewrite take_app_length. exists x, n. split; [done|]. rewrite b2z_z2b.
  pose proof (b2z_range x). apply Z.mod_small.
  assert (b2z x ≠ 255%Z); [|lia]. intros E. apply Hx, (inj b2z). by rewrite E.
Qed.

Lemma byte_cmp_ff b : byte_cmp Byte.xff b = Lt → False.
Proof.
  unfold byte_cmp, on_cmp. rewrite Z.compare_lt_iff. pose proof (b2z_range b).
  change (b2z Byte.xff) with 255%Z. lia.
Qed.

(** A run of 0xff is below exactly the keys it is a prefix of. *)
Lemma ff_run_le n k : bytes_cmp (replicate n Byte.xff) k ≠ Gt ↔ replicate n Byte.xff `prefix_of` k.
Proof.
  revert k; induction n as [|n IH]; intros k; simpl.
  - split; [intros _; apply prefix_nil|intros _; apply (list_cmp_nil_l byte_cmp)].
  - destruct k as [|b k]; simpl.
    { split; [done|intros H; by apply prefix_nil_not in H]. }
    destruct (byte_cmp Byte.xff b) eqn:E; simpl.
    + apply (cmp_eq_iff byte_cmp) in E as <-. rewrite IH. split; [apply prefix_cons|apply prefix_cons_inv_2].
    + by apply byte_cmp_ff in E.
    + split; [done|]. intros <-%prefix_cons_inv_1. by rewrite (cmp_refl byte_cmp) in E.
Qed.

Lemma byte_cmp_val x y : byte_cmp x y = (b2z x ?= b2z y)%Z.
Proof. done. Qed.

(** Between [s ++ a] and [s ++ b] there are only keys that start with [s]. *)
Lemma between_common_prefix s a b k :
  bytes_cmp (s ++ a) k ≠ Gt → bytes_cmp k (s ++ b) = Lt →
  ∃ k', k = s ++ k' ∧ bytes_cmp a k' ≠ Gt ∧ bytes_cmp k' b = Lt.
Proof.
  revert k; induction s as [|x s IH]; intros k H1 H2; [by exists k|].
  destruct k as [|y k]; simpl in *; [done|].
  destruct (byte_cmp x y) eqn:E.
  - apply (cmp_eq_iff byte_cmp) in E as <-. rewrite (cmp_refl byte_cmp) in H2. simpl in *.
    destruct (IH k H1 H2) as (k' & -> & ?). by exists k'.
  - exfalso. apply (cmp_gt_lt byte_cmp) in E. by rewrite E in H2.
  - done.
Qed.

Lemma prefix_interval s x e n k :
  b2z e = (b2z x + 1)%Z →
  bytes_cmp (s ++ x :: replicate n Byte.xff) k ≠ Gt ∧ bytes_cmp k (s ++ [e]) = Lt ↔
  (s ++ x :: replicate n Byte.xff) `prefix_of` k.
Proof.
  intros He. split.
  - intros [H1 H2]. destruct (between_common_prefix _ _ _ _ H1 H2) as (k' & -> & H3 & H4).
    apply prefix_app. destruct k' as [|y k']; [done|]. simpl in *.
    rewrite byte_cmp_val in H3, H4. destruct (Z.compare_spec (b2z x) (b2z y)) as [Hxy|Hxy|Hxy]; [| |done].
    + apply (inj b2z) in Hxy as <-. by apply prefix_cons, ff_run_le.
    + exfalso. destruct (Z.compare_spec (b2z y) (b2z e)); simpl in *; [by destruct k'|lia|done].
  - intros [r ->]. split; [apply (list_cmp_prefix byte_cmp)|].
    rewrite <-app_assoc, (list_cmp_app byte_cmp). simpl. rewrite byte_cmp_val.
    by rewrite (proj2 (Z.compare_lt_iff _ _)) by lia.
Qed.

Lemma range_of_prefix_contains prefix k :
  contains bytes_cmp (Key.range_of_prefix prefix) k = true ↔ prefix `prefix_of` k.
Proof.
  unfold Key.range_of_prefix. case_bool_decide as Hp; subst.
  { split; [intros _; apply prefix_nil|done]. }
  unfold contains, Key.end_bound_of_prefix. simpl. rewrite andb_true_iff, (cmp_leb_le bytes_cmp).
  pose proof (next_key_no_alloc_spec prefix) as H.
  destruct (Key.next_key_no_alloc prefix) as [[s e]|]; simpl.
  - destruct H as (x & n & -> & He). rewrite (cmp_ltb_lt bytes_cmp). by apply prefix_interval.
  - rewrite H, <-ff_run_le. tauto.
Qed.

(** ** Encodings *)

Definition user_key_ok (k : UserKey.t) : Prop := is_uint 32 (UserKey.table_id k).
Definition full_key_ok (k : FullKey.t) : Prop :=
  user_key_ok (FullKey.user_key k) ∧ is_uint 64 (FullKey.epoch_with_gap k).

Lemma split_key_epoch_app a e :
  length e = 8 → Key.split_key_epoch (a ++ e) = Ret (a, e).
Proof.
  intros He. unfold Key.split_key_epoch, Key.EPOCH_LEN. rewrite length_app, He.
  destruct (Nat.ltb_spec (length a + 8) 8); [lia|].
  replace (length a + 8 - 8) with (length a) by lia.
  by rewrite take_app_length, drop_app_length.
Qed.

Lemma split_key_epoch_inv k u e :
  Key.split_key_epoch k = Ret (u, e) → k = u ++ e ∧ length e = 8.
Proof.
  unfold Key.split_key_epoch, Key.EPOCH_LEN. destruct (Nat.ltb_spec (length k) 8); [done|].
  intros [= <- <-]. rewrite take_drop, length_drop. split; [done|lia].
Qed.

Lemma split_epoch_encoded a e :
  is_uint 64 e → FullKey.split_epoch (a ++ be_bytes 8 e) = Ret (a, e).
Proof.
  intros He. unfold FullKey.split_epoch.
  rewrite split_key_epoch_app by apply length_be_bytes. cbn [mbind outcome_bind].
  rewrite <-(app_nil_r (be_bytes 8 e)), get_be_put by by apply pow256_of_u64. done.
Qed.

Lemma user_key_decode_encode k : user_key_ok k → UserKey.decode (UserKey.encode k) = Ret k.
Proof.
  intros Hk. unfold UserKey.decode, UserKey.encode.
  rewrite get_be_put by by apply pow256_of_u32. cbn [mbind outcome_bind].
  unfold Key.table_key, Key.TABLE_PREFIX_LEN. rewrite length_app, length_be_bytes.
  destruct (Nat.leb_spec 4 (4 + length (UserKey.table_key k))); [|lia]. cbn [rassert mbind outcome_bind].
  rewrite drop_app_length' by (by rewrite length_be_bytes). by destruct k.
Qed.

Lemma full_key_decode_encode k : full_key_ok k → FullKey.decode (FullKey.encode k) = Ret k.
Proof.
  intros [Hu He]. unfold FullKey.decode, FullKey.encode. rewrite split_epoch_encoded by done.
  cbn [mbind outcome_bind]. rewrite user_key_decode_encode by done. by destruct k.
Qed.

Lemma reverse_epoch_involutive e :
  is_uint 64 e → is_uint 64 (wrap 64 (u64_max - e)) ∧ wrap 64 (u64_max - wrap 64 (u64_max - e)) = e.
Proof.
  intros He. split; [by apply wrap_is_uint|]. unfold is_uint in He.
  change u64_max with (2 ^ 64 - 1)%Z.
  rewrite (wrap_small 64 (2 ^ 64 - 1 - e)), wrap_small; unfold is_uint; lia.
Qed.

Lemma full_key_decode_reverse k :
  full_key_ok k → FullKey.decode_reverse_epoch (FullKey.encode_reverse_epoch k) = Ret k.
Proof.
  intros [Hu He]. destruct (reverse_epoch_involutive _ He) as [Hr Hi].
  unfold FullKey.decode_reverse_epoch, FullKey.encode_reverse_epoch.
  rewrite split_epoch_encoded by done. cbn [mbind outcome_bind].
  rewrite user_key_decode_encode by done. cbn [mbind outcome_bind]. rewrite Hi. by destruct k.
Qed.

Lemma length_prefixed_round_trip k rest :
  user_key_ok k → (Z.of_nat (length (UserKey.table_key k)) < 2 ^ 32)%Z →
  UserKey.decode_length_prefixed (UserKey.encode_length_prefixed k ++ rest) = Ret (k, rest).
Proof.
  intros Hk Hlen. unfold UserKey.decode_length_prefixed, UserKey.encode_length_prefixed.
  rewrite <-!app_assoc. rewrite get_be_put by by apply pow256_of_u32. cbn [mbind outcome_bind].
  rewrite wrap_small by (split; lia).
  rewrite get_be_put by (apply pow256_of_u32; split; lia). cbn [mbind outcome_bind].
  rewrite Nat2Z.id, length_app, (proj2 (Nat.leb_le _ _)) by lia. cbn [rassert mbind outcome_bind].
  rewrite take_app_length, drop_app_length. by destruct k.
Qed.

(** ** Orders *)

#[global] Instance user_key_cmp_total : TotalCmp UserKey.cmp.
Proof.
  pose (f := λ k, (UserKey.table_id k, UserKey.table_key k)).
  assert (Inj (=) (=) f) as Hf by (intros [] [] [= -> ->]; done).
  exact (on_cmp_total f _ Hf (pair_cmp_total Z.compare bytes_cmp _ _)).
Qed.

#[global] Instance full_key_cmp_total : TotalCmp FullKey.cmp.
Proof.
  pose (f := λ k, (FullKey.user_key k, FullKey.epoch_with_gap k)).
  assert (Inj (=) (=) f) as Hf by (intros [] [] [= -> ->]; done).
  exact (on_cmp_total f _ Hf (pair_cmp_total UserKey.cmp (rev_cmp Z.compare) _ _)).
Qed.

Lemma user_key_encode_cmp a b :
  user_key_ok a → user_key_ok b →
  bytes_cmp (UserKey.encode a) (UserKey.encode b) = UserKey.cmp a b.
Proof.
  intros Ha Hb. unfold UserKey.encode, UserKey.cmp.
  rewrite (list_cmp_app_same_length byte_cmp) by (by rewrite !length_be_bytes).
  by rewrite bytes_cmp_be_bytes by by apply pow256_of_u32.
Qed.

Lemma compare_encoded_full_key_ok a b :
  full_key_ok a → full_key_ok b →
  KeyComparator.compare_encoded_full_key (FullKey.encode a) (FullKey.encode b) =
    Ret (FullKey.cmp a b).
Proof.
  intros [Hua Hea] [Hub Heb]. unfold KeyComparator.compare_encoded_full_key, FullKey.encode.
  rewrite !split_key_epoch_app by apply length_be_bytes. cbn [mbind outcome_bind].
  rewrite user_key_encode_cmp by done. by rewrite bytes_cmp_be_bytes by by apply pow256_of_u64.
Qed.

(** The byte encodings of keys are lossless.  For every full key with a [u32] table id
    and a [u64] epoch, [decode] inverts [encode], [decode_reverse_epoch] inverts
    [encode_reverse_epoch], [from_slice_without_table_id] inverts the encoding without table
    id, and the user key inside round-trips plainly and (below 4 GiB) with a length prefix,
    leaving the rest of the buffer. *)
Theorem full_key_encodings_round_trip (k : FullKey.t) (rest : list byte) :
  full_key_ok k →
  let uk := FullKey.user_key k in
  FullKey.decode (FullKey.encode k) = Ret k ∧
  FullKey.decode_reverse_epoch (FullKey.encode_reverse_epoch k) = Ret k ∧
  FullKey.from_slice_without_table_id (UserKey.table_id uk)
    (FullKey.encode_into_without_table_id k) = Ret k ∧
  UserKey.decode (UserKey.encode uk) = Ret uk ∧
  length (FullKey.encode k) = FullKey.encoded_len k ∧
  ((Z.of_nat (length (UserKey.table_key uk)) < 2 ^ 32)%Z →
   UserKey.decode_length_prefixed (UserKey.encode_length_prefixed uk ++ rest) = Ret (uk, rest)).
Proof.
  intros Hk uk. pose proof Hk as [Hu He]. split_and!.
  - by apply full_key_decode_encode.
  - by apply full_key_decode_reverse.
  - unfold FullKey.from_slice_without_table_id, FullKey.encode_into_without_table_id.
    rewrite split_epoch_encoded by done. by destruct k as [[]].
  - by apply user_key_decode_encode.
  - unfold FullKey.encode, UserKey.encode, FullKey.encoded_len, UserKey.encoded_len.
    rewrite !length_app, !length_be_bytes. fold uk. unfold Key.TABLE_PREFIX_LEN, Key.EPOCH_LEN. lia.
  - intros Hlen. by apply length_prefixed_round_trip.
Qed.

Lemma full_key_encodings_round_trip_witness :
  let k := FullKey.new 1 [Byte.x61; Byte.x62] (Epoch.test_epoch 3) in
  FullKey.decode (FullKey.encode k) = Ret k.
Proof.
  apply (full_key_encodings_round_trip (FullKey.new 1 [Byte.x61; Byte.x62] (Epoch.test_epoch 3)) []).
  split; vm_compute; done.
Defined.

(** C22: comparing encoded keys is comparing keys.  [FullKey::cmp] is a total order (user keys
    ascending, epochs descending); [compare_encoded_full_key] on two encodings returns
    exactly that comparison, the encoded user keys compare as byte strings like the user
    keys, and comparing an encoded with a decoded user key agrees. *)
Theorem encoded_order_is_key_order (a b : FullKey.t) :
  full_key_ok a → full_key_ok b →
  TotalCmp FullKey.cmp ∧
  KeyComparator.compare_encoded_full_key (FullKey.encode a) (FullKey.encode b) =
    Ret (FullKey.cmp a b) ∧
  bytes_cmp (UserKey.encode (FullKey.user_key a)) (UserKey.encode (FullKey.user_key b)) =
    UserKey.cmp (FullKey.user_key a) (FullKey.user_key b) ∧
  KeyComparator.compare_user_key_cross_format (UserKey.encode (FullKey.user_key a))
    (FullKey.user_key b) = Ret (UserKey.cmp (FullKey.user_key a) (FullKey.user_key b)).
Proof.
  intros Ha Hb. split_and!.
  - apply _.
  - by apply compare_encoded_full_key_ok.
  - apply user_key_encode_cmp; [apply Ha|apply Hb].
  - unfold KeyComparator.compare_user_key_cross_format.
    rewrite user_key_decode_encode by apply Ha. done.
Qed.

Lemma encoded_order_is_key_order_witness :
  let a := FullKey.new 1 [Byte.x61] (Epoch.test_epoch 3) in
  let b := FullKey.new 1 [Byte.x61] (Epoch.test_epoch 2) in
  KeyComparator.compare_encoded_full_key (FullKey.encode a) (FullKey.encode b) = Ret Lt.
Proof.
  destruct (encoded_order_is_key_order (FullKey.new 1 [Byte.x61] (Epoch.test_epoch 3))
    (FullKey.new 1 [Byte.x61] (Epoch.test_epoch 2))) as (_ & H & _).
  - split; vm_compute; done.
  - split; vm_compute; done.
  - exact H.
Defined.

(** A prefix range contains exactly the keys with that prefix.  For every prefix, the
    empty one and the ones made of 0xff bytes included, a key lies in [range_of_prefix]
    exactly when it starts with the prefix; and the start bound past an excluded prefix,
    when there is one, is the end bound of the prefix. *)
Theorem range_of_prefix_exact (prefix : list byte) :
  (∀ k, contains bytes_cmp (Key.range_of_prefix prefix) k = true ↔ prefix `prefix_of` k) ∧
  match Key.start_bound_of_excluded_prefix prefix with
  | Ret (Included b) => Key.end_bound_of_prefix prefix = Excluded b
  | Ret _ => False
  | Panic => ∀ k, bytes_cmp prefix k ≠ Gt → prefix `prefix_of` k
  end.
Proof.
  split; [intros k; apply range_of_prefix_contains|].
  unfold Key.start_bound_of_excluded_prefix, Key.end_bound_of_prefix.
  pose proof (next_key_no_alloc_spec prefix) as H.
  destruct (Key.next_key_no_alloc prefix) as [[s e]|]; [done|].
  intros k. rewrite H. apply ff_run_le.
Qed.

(** ** Vnodes in table keys *)

(** A vnode below [MAX_COUNT], as all vnodes of the system are. *)
Definition vnode_ok (v : VirtualNode.t) : Prop := v < VirtualNode.MAX_COUNT.

Lemma max_count_val : Z.of_nat VirtualNode.MAX_COUNT = (2 ^ 15)%Z.
Proof. unfold VirtualNode.MAX_COUNT. by rewrite Z2Nat.id. Qed.
#[global] Opaque VirtualNode.MAX_COUNT.
Ltac vlia := unfold vnode_ok, VirtualNode.to_index in *; pose proof max_count_val; lia.

Lemma from_index_small i : i ≤ VirtualNode.MAX_COUNT → VirtualNode.from_index i = i.
Proof.
  pose proof max_count_val. intros Hi. unfold VirtualNode.from_index.
  rewrite wrap_small by (split; lia). apply Nat2Z.id.
Qed.

Lemma vnode_bytes_range v : v ≤ VirtualNode.MAX_COUNT → (0 ≤ Z.of_nat v < 256 ^ Z.of_nat 2)%Z.
Proof. pose proof max_count_val. change (256 ^ Z.of_nat 2)%Z with 65536%Z. lia. Qed.

Lemma vnode_bytes_cmp v w k l :
  (Z.of_nat v < 2 ^ 16)%Z → (Z.of_nat w < 2 ^ 16)%Z →
  bytes_cmp (VirtualNode.to_be_bytes v ++ k) (VirtualNode.to_be_bytes w ++ l) =
  then_with (Nat.compare v w) (bytes_cmp k l).
Proof.
  intros Hv Hw. unfold VirtualNode.to_be_bytes, VirtualNode.SIZE.
  rewrite (list_cmp_app_same_length byte_cmp) by (by rewrite !length_be_bytes).
  rewrite bytes_cmp_be_bytes by (change (256 ^ Z.of_nat 2)%Z with (2 ^ 16)%Z; lia).
  by rewrite Nat2Z.inj_compare.
Qed.

Lemma vnode_cmp v w k l :
  v ≤ VirtualNode.MAX_COUNT → w ≤ VirtualNode.MAX_COUNT →
  bytes_cmp (VirtualNode.to_be_bytes v ++ k) (VirtualNode.to_be_bytes w ++ l) =
  then_with (Nat.compare v w) (bytes_cmp k l).
Proof. intros. pose proof max_count_val. apply vnode_bytes_cmp; lia. Qed.

Lemma split_vnode_gen v k :
  vnode_ok v → TableKey.split_vnode (Key.gen_key_from_bytes v k) = Ret (v, k).
Proof.
  intros Hv. unfold TableKey.split_vnode, Key.gen_key_from_bytes, VirtualNode.to_be_bytes.
  rewrite length_app, length_be_bytes, (proj2 (Nat.leb_le _ _)) by lia.
  cbn [rassert mbind outcome_bind].
  rewrite take_app_length', drop_app_length' by (by rewrite length_be_bytes).
  unfold VirtualNode.from_be_bytes. rewrite be_val_bytes_small, Nat2Z.id; [done|].
  apply vnode_bytes_range. unfold vnode_ok in Hv. lia.
Qed.

Lemma vnode_part_gen v k :
  vnode_ok v → TableKey.vnode_part (Key.gen_key_from_bytes v k) = Ret v.
Proof. intros Hv. unfold TableKey.vnode_part. by rewrite split_vnode_gen. Qed.

Lemma max_representable_val : VirtualNode.MAX_REPRESENTABLE = VirtualNode.MAX_COUNT - 1.
Proof. apply from_index_small. lia. Qed.
#[global] Opaque VirtualNode.MAX_REPRESENTABLE.

Lemma end_bound_of_vnode_below v w k :
  vnode_ok v → vnode_ok w →
  below bytes_cmp (Key.end_bound_of_vnode v) (Key.gen_key_from_bytes w k) = (w <=? v).
Proof.
  unfold vnode_ok. intros Hv Hw. unfold Key.end_bound_of_vnode, Key.gen_key_from_bytes.
  rewrite max_representable_val. destruct (Nat.eqb_spec v (VirtualNode.MAX_COUNT - 1)); cbn [below].
  { symmetry. apply Nat.leb_le. lia. }
  unfold VirtualNode.to_index. rewrite from_index_small by lia.
  rewrite <-(app_nil_r (VirtualNode.to_be_bytes (v + 1))). unfold cmp_ltb.
  rewrite vnode_cmp by lia.
  destruct (Nat.compare_spec w (v + 1)); destruct (Nat.leb_spec w v); simpl; try lia; try done.
  by destruct k.
Qed.

Lemma cmp_leb_vnode v w k l :
  vnode_ok v → vnode_ok w →
  cmp_leb bytes_cmp (Key.gen_key_from_bytes v k) (Key.gen_key_from_bytes w l) =
  (v <? w) || ((v =? w) && cmp_leb bytes_cmp k l).
Proof.
  unfold vnode_ok. intros Hv Hw. unfold cmp_leb, Key.gen_key_from_bytes. rewrite vnode_cmp by lia.
  destruct (Nat.compare_spec v w), (Nat.ltb_spec v w), (Nat.eqb_spec v w); simpl; try lia; done.
Qed.

Lemma cmp_ltb_vnode v w k l :
  vnode_ok v → vnode_ok w →
  cmp_ltb bytes_cmp (Key.gen_key_from_bytes v k) (Key.gen_key_from_bytes w l) =
  (v <? w) || ((v =? w) && cmp_ltb bytes_cmp k l).
Proof.
  unfold vnode_ok. intros Hv Hw. unfold cmp_ltb, Key.gen_key_from_bytes. rewrite vnode_cmp by lia.
  destruct (Nat.compare_spec v w), (Nat.ltb_spec v w), (Nat.eqb_spec v w); simpl; try lia; done.
Qed.

Lemma cmp_leb_nil_l k : cmp_leb bytes_cmp [] k = true.
Proof. by destruct k. Qed.

(** Bounds that [prefixed_range_with_vnode] accepts: no excluded empty key. *)
Definition prefixable (b : Bound (list byte)) : bool :=
  match b with Excluded b => negb (bool_decide (b = [])) | _ => true end.

Definition prefixed_start v (b : Bound (list byte)) : Bound (list byte) :=
  match b with
  | Included b => Included (Key.gen_key_from_bytes v b)
  | Excluded b => Excluded (Key.gen_key_from_bytes v b)
  | Unbounded => Included (Key.gen_key_from_bytes v [])
  end.

Definition prefixed_end v (b : Bound (list byte)) : Bound (list byte) :=
  match b with
  | Included b => Included (Key.gen_key_from_bytes v b)
  | Excluded b => Excluded (Key.gen_key_from_bytes v b)
  | Unbounded => Key.end_bound_of_vnode v
  end.

Lemma prefixed_range_eval r v :
  Key.prefixed_range_with_vnode r v =
  if prefixable r.1 && prefixable r.2 then Ret (prefixed_start v r.1, prefixed_end v r.2) else Panic.
Proof.
  destruct r as [[a|a|] [b|b|]]; unfold Key.prefixed_range_with_vnode, Key.gen_key_from_bytes,
    prefixed_start, Key.gen_key_from_bytes; simpl; rewrite ?app_nil_r;
    try (destruct (bool_decide (a = [])); simpl); try (destruct (bool_decide (b = [])); simpl); done.
Qed.

Lemma prefixed_start_above v w b k :
  vnode_ok v → vnode_ok w →
  above bytes_cmp (prefixed_start v b) (Key.gen_key_from_bytes w k) =
  (v <? w) || ((v =? w) && above bytes_cmp b k).
Proof.
  intros Hv Hw. destruct b; simpl; rewrite ?cmp_leb_vnode, ?cmp_ltb_vnode by done; [done..|].
  by rewrite cmp_leb_nil_l.
Qed.

Lemma prefixed_end_below v w b k :
  vnode_ok v → vnode_ok w →
  below bytes_cmp (prefixed_end v b) (Key.gen_key_from_bytes w k) =
  (w <? v) || ((v =? w) && below bytes_cmp b k).
Proof.
  intros Hv Hw. rewrite (Nat.eqb_sym v w).
  destruct b; simpl; rewrite ?cmp_leb_vnode, ?cmp_ltb_vnode, ?end_bound_of_vnode_below by done; [done..|].
  destruct (Nat.leb_spec w v), (Nat.ltb_spec w v), (Nat.eqb_spec w v); simpl; try lia; done.
Qed.

Lemma contains_prefixed v w r k :
  vnode_ok v → vnode_ok w →
  contains bytes_cmp (prefixed_start v r.1, prefixed_end v r.2) (Key.gen_key_from_bytes w k) =
  bool_decide (w = v) && contains bytes_cmp r k.
Proof.
  intros Hv Hw. unfold contains. simpl. rewrite prefixed_start_above, prefixed_end_below by done.
  destruct (Nat.ltb_spec v w), (Nat.ltb_spec w v), (Nat.eqb_spec v w); simpl; try lia;
    by (rewrite bool_decide_true by lia) || by (rewrite bool_decide_false by lia).
Qed.

(** Prefixing a range with a vnode selects exactly that vnode's keys.
    [prefixed_range_with_vnode] panics exactly on an excluded empty bound; otherwise a table
    key of vnode [w] and payload [k] lies in the result exactly when [w] is the given vnode
    and [k] lies in the given range, also for the last representable vnode. *)
Theorem prefixed_range_with_vnode_exact (range : Bound (list byte) * Bound (list byte)) v :
  vnode_ok v →
  if prefixable range.1 && prefixable range.2 then
    ∃ r, Key.prefixed_range_with_vnode range v = Ret r ∧
      ∀ w k, vnode_ok w →
        contains bytes_cmp r (Key.gen_key_from_bytes w k) =
        bool_decide (w = v) && contains bytes_cmp range k
  else Key.prefixed_range_with_vnode range v = Panic.
Proof.
  intros Hv. rewrite prefixed_range_eval. destruct (_ && _); [|done].
  eexists. split; [done|]. intros w k Hw. by apply contains_prefixed.
Qed.

Lemma prefixed_range_with_vnode_exact_witness :
  ∃ r, Key.prefixed_range_with_vnode (Included [Byte.x31], Unbounded) 233 = Ret r ∧
    contains bytes_cmp r (Key.gen_key_from_bytes 233 [Byte.x32]) = true ∧
    contains bytes_cmp r (Key.gen_key_from_bytes 234 [Byte.x32]) = false.
Proof.
  assert (∀ w, w < 235 → vnode_ok w) as Hok.
  { intros w Hw. unfold vnode_ok. pose proof max_count_val. lia. }
  destruct (prefixed_range_with_vnode_exact (Included [Byte.x31], Unbounded) 233) as (r & H1 & H2).
  { apply Hok. lia. }
  exists r. split; [exact H1|]. rewrite !H2 by (apply Hok; lia). by vm_compute.
Defined.

(** A table key splits into its vnode bytes and its payload. *)
Lemma split_vnode_inv key v k :
  TableKey.split_vnode key = Ret (v, k) →
  key = VirtualNode.to_be_bytes v ++ k ∧ (Z.of_nat v < 2 ^ 16)%Z.
Proof.
  unfold TableKey.split_vnode. intros H. outcome_inv. simplify_eq.
  rename select ((_ <=? _) = true) into Hlen. apply Nat.leb_le in Hlen.
  assert (length (take VirtualNode.SIZE key) = VirtualNode.SIZE) as Ht by (rewrite length_take; lia).
  unfold VirtualNode.from_be_bytes, VirtualNode.to_be_bytes.
  pose proof (be_val_range (take VirtualNode.SIZE key)) as Hr. rewrite Ht in Hr.
  change (256 ^ Z.of_nat VirtualNode.SIZE)%Z with (2 ^ 16)%Z in Hr.
  rewrite Z2Nat.id by lia. split; [|lia].
  pose proof (be_bytes_val (take VirtualNode.SIZE key)) as Hb. rewrite Ht in Hb.
  by rewrite Hb, take_drop.
Qed.

Lemma above_vnode_ge lo l w k :
  vnode_ok w →
  (match lo with
   | Included key | Excluded key => VirtualNode.to_index <$> TableKey.vnode_part key
   | Unbounded => Ret 0
   end) = Ret l →
  above bytes_cmp lo (Key.gen_key_from_bytes w k) = true → l ≤ w.
Proof.
  intros Hw.
  assert (∀ key, VirtualNode.to_index <$> TableKey.vnode_part key = Ret l →
    bytes_cmp key (Key.gen_key_from_bytes w k) ≠ Gt → l ≤ w) as Hkey.
  { intros key. unfold TableKey.vnode_part. destruct (TableKey.split_vnode key) as [[v k']|] eqn:E; [|done].
    intros [= <-]. apply split_vnode_inv in E as [-> Hv]. unfold VirtualNode.to_index, Key.gen_key_from_bytes.
    rewrite vnode_bytes_cmp by vlia. destruct (Nat.compare_spec v w); simpl; [lia|lia|congruence]. }
  destruct lo; simpl; intros Hl; rewrite ?(cmp_leb_le bytes_cmp), ?(cmp_ltb_lt bytes_cmp).
  - by apply Hkey.
  - intros H'. apply (Hkey _ Hl). by rewrite H'.
  - injection Hl as <-. lia.
Qed.

Lemma below_vnode_lt key w k v k' :
  vnode_ok w → TableKey.split_vnode key = Ret (v, k') →
  (bytes_cmp (Key.gen_key_from_bytes w k) key ≠ Gt → w ≤ v) ∧
  (bytes_cmp (Key.gen_key_from_bytes w k) key = Lt → k' = [] → w < v).
Proof.
  intros Hw [-> Hv]%split_vnode_inv.
  unfold Key.gen_key_from_bytes. rewrite vnode_bytes_cmp by vlia.
  destruct (Nat.compare_spec w v); simpl; split; intros Hc; intros; subst; try lia; try congruence.
  by destruct k.
Qed.

Lemma vnode_range_bound range l r :
  Key.vnode_range range = Ret (l, r) → (Z.of_nat r ≤ 2 ^ 16)%Z.
Proof.
  destruct range as [lo hi]. unfold Key.vnode_range. intros Hr.
  apply bind_Ret in Hr as (l' & _ & Hr). apply bind_Ret in Hr as (r' & Hr & [= _ ->]).
  destruct hi as [key|key|].
  - unfold TableKey.vnode_part in Hr. destruct (TableKey.split_vnode key) as [[v k']|] eqn:E; [|done].
    injection Hr as <-. apply split_vnode_inv in E as [_ E]. simpl. vlia.
  - destruct (TableKey.split_vnode key) as [[v k']|] eqn:E; [|done]. cbn [mbind outcome_bind] in Hr.
    apply split_vnode_inv in E as [_ E].
    case_bool_decide; injection Hr as <-; vlia.
  - apply (inj Ret) in Hr as <-. rewrite max_representable_val. vlia.
Qed.

(** [vnode_range] bounds the vnodes of a key range.  Whenever it returns, every table key
    of a representable vnode in the range has its vnode between the two results (left
    inclusive, right exclusive); so when [vnode] returns, all those keys have that vnode. *)
Theorem vnode_range_sound (range : TableKeyRange) w k :
  vnode_ok w → contains bytes_cmp range (Key.gen_key_from_bytes w k) = true →
  (∀ l r, Key.vnode_range range = Ret (l, r) → l ≤ w < r) ∧
  (∀ v, Key.vnode range = Ret v → w = v).
Proof.
  intros Hw Hin.
  assert (∀ l r, Key.vnode_range range = Ret (l, r) → l ≤ w < r) as Hrange.
  { intros l r Hr. destruct range as [lo hi]. unfold contains in Hin. simpl in Hin.
    apply andb_true_iff in Hin as [Hlo Hhi]. unfold Key.vnode_range in Hr.
    apply bind_Ret in Hr as (l' & Hl & Hr). apply bind_Ret in Hr as (r' & Hr' & [= -> ->]).
    pose proof (above_vnode_ge _ _ _ _ Hw Hl Hlo) as Hle. split; [done|].
    destruct hi as [key|key|]; simpl in Hhi.
    - unfold TableKey.vnode_part in Hr'. destruct (TableKey.split_vnode key) as [[v k']|] eqn:E; [|done].
      injection Hr' as <-. apply (cmp_leb_le bytes_cmp) in Hhi.
      pose proof (proj1 (below_vnode_lt _ _ k _ _ Hw E) Hhi). simpl. vlia.
    - destruct (TableKey.split_vnode key) as [[v k']|] eqn:E; [|done]. cbn [mbind outcome_bind] in Hr'.
      apply (cmp_ltb_lt bytes_cmp) in Hhi. destruct (below_vnode_lt _ _ k _ _ Hw E) as [H1 H2].
      case_bool_decide; injection Hr' as <-; unfold VirtualNode.to_index; [by apply H2|].
      assert (w ≤ v); [|lia]. apply H1. by rewrite Hhi.
    - apply (inj Ret) in Hr' as <-. rewrite max_representable_val. vlia. }
  split; [done|]. intros v Hv. unfold Key.vnode in Hv. apply bind_Ret in Hv as ([l r] & Hr & Hv).
  destruct (Hrange l r Hr) as [H1 H2]. outcome_inv. simplify_eq.
  rename select ((wrap 64 _ =? _) = true)%Z into Hd. apply Z.eqb_eq in Hd.
  pose proof (vnode_range_bound _ _ _ Hr). rewrite wrap_small in Hd by (split; lia).
  rewrite from_index_small; vlia.
Qed.

Lemma vnode_range_sound_witness :
  let range := (Included (Key.gen_key_from_bytes 7 []), Excluded (Key.gen_key_from_bytes 8 [])) in
  Key.vnode range = Ret 7 ∧ contains bytes_cmp range (Key.gen_key_from_bytes 7 [Byte.x61]) = true.
Proof.
  intros range. assert (∀ w, w < 235 → vnode_ok w) as Hok.
  { intros w Hw. vlia. }
  assert (contains bytes_cmp range (Key.gen_key_from_bytes 7 [Byte.x61]) = true) as Hin by by vm_compute.
  destruct (Key.vnode range) as [v|] eqn:E.
  - destruct (vnode_range_sound range 7 [Byte.x61] (Hok 7 ltac:(lia)) Hin) as [_ H].
    rewrite <-(H v E). split; [reflexivity|exact Hin].
  - vm_compute in E. discriminate E.
Defined.
