(* ===== verification/KeyOrder.v ===== *)
(** * Neighbouring keys, table ranges and the key tracker

    More theorems about [Key.v]: epoch successors and predecessors on bytes, next and
    previous full keys, the user-key range of a table, and [FullKeyTracker]. *)

From Stdlib Require Import ZArith Lia.
From S2P Require Import Prelude Order Bytes Epoch Bits Bitmap Vnode Key KeySpec.

(** ** Epoch arithmetic on big-endian bytes *)

Lemma be_val_app a b : be_val (a ++ b) = (be_val a * 256 ^ Z.of_nat (length b) + be_val b)%Z.
Proof.
  induction a as [|x a IH]; [done|]. cbn [app be_val]. rewrite IH, length_app, Nat2Z.inj_add.
  rewrite Z.pow_add_r by lia. ring.
Qed.

Lemma be_val_zeros n : be_val (replicate n Byte.x00) = 0%Z.
Proof. induction n as [|n IH]; [done|]. cbn [replicate be_val]. by rewrite IH. Qed.

Lemma be_val_ffs n : be_val (replicate n Byte.xff) = (256 ^ Z.of_nat n - 1)%Z.
Proof.
  induction n as [|n IH]; [done|]. cbn [replicate be_val]. rewrite IH, length_replicate.
  rewrite Nat2Z.inj_succ, Z.pow_succ_r by lia. change (b2z Byte.xff) with 255%Z. ring.
Qed.

Lemma byte_incr x : x ≠ Byte.xff → b2z (z2b (b2z x + 1)) = (b2z x + 1)%Z.
Proof.
  intros Hx. rewrite b2z_z2b. pose proof (b2z_range x). apply Z.mod_small.
  assert (b2z x ≠ 255%Z); [|lia]. intros E. apply Hx, (inj b2z). by rewrite E.
Qed.

Lemma byte_decr x : x ≠ Byte.x00 → b2z (z2b (b2z x - 1)) = (b2z x - 1)%Z.
Proof.
  intros Hx. rewrite b2z_z2b. pose proof (b2z_range x). apply Z.mod_small.
  assert (b2z x ≠ 0%Z); [|lia]. intros E. apply Hx, (inj b2z). by rewrite E.
Qed.

Lemma pow256_pos n : (0 < 256 ^ Z.of_nat n)%Z.
Proof. apply Z.pow_pos_nonneg; lia. Qed.

Lemma tail_length {A} (p : list A) x n c :
  length (p ++ x :: replicate n c) - (length p + 1) = n.
Proof. rewrite length_app. simpl. rewrite length_replicate. lia. Qed.

Lemma next_epoch_ok e :
  length (Key.next_epoch e) = length e ∧
  be_val (Key.next_epoch e) = ((be_val e + 1) mod 256 ^ Z.of_nat (length e))%Z.
Proof.
  unfold Key.next_epoch. pose proof (rposition_byte Byte.xff e) as H.
  destruct (rposition _ e) as [i|].
  - destruct H as (p & x & n & -> & <- & Hx).
    rewrite list_lookup_middle, take_app_length, tail_length by done. simpl default. split.
    { rewrite !length_app. simpl. rewrite !length_replicate. lia. }
    assert (be_val (p ++ [z2b (b2z x + 1)] ++ replicate n Byte.x00) =
            be_val (p ++ x :: replicate n Byte.xff) + 1)%Z as Hv.
    { rewrite !be_val_app. cbn [app be_val length]. rewrite byte_incr by done.
      rewrite be_val_zeros, be_val_ffs, !length_replicate. change (256 ^ Z.of_nat 0)%Z with 1%Z. ring. }
    rewrite Hv. symmetry. apply Z.mod_small. rewrite <-Hv.
    pose proof (be_val_range (p ++ [z2b (b2z x + 1)] ++ replicate n Byte.x00)) as Hr.
    rewrite !length_app in *. simpl in Hr |- *. by rewrite !length_replicate in *.
  - rewrite length_replicate. split; [done|]. rewrite be_val_zeros. rewrite H at 1.
    rewrite be_val_ffs, Z.sub_add, Z.mod_same; [done|]. pose proof (pow256_pos (length e)). lia.
Qed.

Lemma prev_epoch_ok e :
  length (Key.prev_epoch e) = length e ∧
  be_val (Key.prev_epoch e) = ((be_val e - 1) mod 256 ^ Z.of_nat (length e))%Z.
Proof.
  unfold Key.prev_epoch. pose proof (rposition_byte Byte.x00 e) as H.
  destruct (rposition _ e) as [i|].
  - destruct H as (p & x & n & -> & <- & Hx).
    rewrite list_lookup_middle, take_app_length, tail_length by done. simpl default. split.
    { rewrite !length_app. simpl. rewrite !length_replicate. lia. }
    assert (be_val (p ++ [z2b (b2z x - 1)] ++ replicate n Byte.xff) =
            be_val (p ++ x :: replicate n Byte.x00) - 1)%Z as Hv.
    { rewrite !be_val_app. cbn [app be_val length]. rewrite byte_decr by done.
      rewrite be_val_zeros, be_val_ffs, !length_replicate. change (256 ^ Z.of_nat 0)%Z with 1%Z. ring. }
    rewrite Hv. symmetry. apply Z.mod_small. rewrite <-Hv.
    pose proof (be_val_range (p ++ [z2b (b2z x - 1)] ++ replicate n Byte.xff)) as Hr.
    rewrite !length_app in *. simpl in Hr |- *. by rewrite !length_replicate in *.
  - rewrite length_replicate. split; [done|]. rewrite be_val_ffs, H, be_val_zeros.
    rewrite length_replicate. change (0 - 1)%Z with (-1)%Z. pose proof (pow256_pos (length e)).
    destruct (length e) as [|n] eqn:En; [done|].
    rewrite <-(Z.mod_small (256 ^ _ - 1) (256 ^ Z.of_nat (S n))) by lia.
    by rewrite <-(Z.mod_add (-1) 1), Z.mul_1_l, Z.add_comm by lia.
Qed.

Lemma next_epoch_bytes e :
  is_uint 64 e → Key.next_epoch (be_bytes 8 e) = be_bytes 8 (wrap 64 (e + 1)).
Proof.
  intros He. destruct (next_epoch_ok (be_bytes 8 e)) as [Hl Hv]. rewrite length_be_bytes in *.
  apply be_val_inj; [by rewrite length_be_bytes|]. rewrite Hv.
  rewrite (be_val_bytes_small 8 e) by by apply pow256_of_u64.
  by rewrite be_val_bytes_small by (apply pow256_of_u64, wrap_is_uint; lia).
Qed.

Lemma prev_epoch_bytes e :
  is_uint 64 e → Key.prev_epoch (be_bytes 8 e) = be_bytes 8 (wrap 64 (e - 1)).
Proof.
  intros He. destruct (prev_epoch_ok (be_bytes 8 e)) as [Hl Hv]. rewrite length_be_bytes in *.
  apply be_val_inj; [by rewrite length_be_bytes|]. rewrite Hv.
  rewrite (be_val_bytes_small 8 e) by by apply pow256_of_u64.
  by rewrite be_val_bytes_small by (apply pow256_of_u64, wrap_is_uint; lia).
Qed.

Lemma be_bytes_eqb n x y :
  (0 ≤ x < 256 ^ Z.of_nat n)%Z → (0 ≤ y < 256 ^ Z.of_nat n)%Z →
  cmp_eqb bytes_cmp (be_bytes n x) (be_bytes n y) = (x =? y)%Z.
Proof.
  intros Hx Hy. unfold cmp_eqb. rewrite bytes_cmp_be_bytes by done.
  destruct (Z.compare_spec x y), (Z.eqb_spec x y); try done; lia.
Qed.

(** ** Next and previous full keys *)

Lemma ffs_bytes : replicate 8 Byte.xff = be_bytes 8 u64_max.
Proof. by vm_compute. Qed.

Lemma zeros_bytes : replicate 8 Byte.x00 = be_bytes 8 0.
Proof. by vm_compute. Qed.

Lemma u64_max_is_uint : is_uint 64 u64_max.
Proof. by vm_compute. Qed.

Lemma next_full_key_eval u e :
  is_uint 64 e →
  Key.next_full_key (Key.key_with_epoch u e) = Ret
    (if (e =? 0)%Z
     then if bool_decide (Key.next_key u = []) then [] else Key.key_with_epoch (Key.next_key u) u64_max
     else Key.key_with_epoch u (e - 1)).
Proof.
  intros He. unfold Key.next_full_key, Key.key_with_epoch, Key.EPOCH_LEN.
  rewrite split_key_epoch_app by apply length_be_bytes. cbn [mbind outcome_bind].
  rewrite prev_epoch_bytes, length_be_bytes, ffs_bytes by done.
  rewrite be_bytes_eqb by (apply pow256_of_u64; first [apply wrap_is_uint; lia|apply u64_max_is_uint]).
  unfold is_uint in He. destruct (Z.eqb_spec e 0) as [->|Hne].
  - change (wrap 64 (0 - 1)) with u64_max. rewrite Z.eqb_refl. by case_bool_decide.
  - rewrite wrap_small by (split; lia). change u64_max with (2 ^ 64 - 1)%Z.
    by rewrite (proj2 (Z.eqb_neq _ _)) by lia.
Qed.

Lemma prev_full_key_eval u e :
  is_uint 64 e →
  Key.prev_full_key (Key.key_with_epoch u e) = Ret
    (if (e =? u64_max)%Z
     then if cmp_eqb bytes_cmp (Key.prev_key u) (replicate (length (Key.prev_key u)) Byte.xff)
          then [] else Key.key_with_epoch (Key.prev_key u) 0
     else Key.key_with_epoch u (e + 1)).
Proof.
  intros He. unfold Key.prev_full_key, Key.key_with_epoch, Key.EPOCH_LEN.
  rewrite split_key_epoch_app by apply length_be_bytes. cbn [mbind outcome_bind].
  rewrite next_epoch_bytes, length_be_bytes, zeros_bytes by done.
  rewrite be_bytes_eqb by (apply pow256_of_u64; first [apply wrap_is_uint; lia|done]).
  unfold is_uint in He. destruct (Z.eqb_spec e u64_max) as [->|Hne].
  - change (wrap 64 (u64_max + 1)) with 0%Z. simpl. by destruct (cmp_eqb _ _ _).
  - change u64_max with (2 ^ 64 - 1)%Z in Hne. rewrite wrap_small by (split; lia).
    by rewrite (proj2 (Z.eqb_neq _ _)) by lia.
Qed.

Lemma compare_with_epoch u e u' e' :
  is_uint 64 e → is_uint 64 e' →
  KeyComparator.compare_encoded_full_key (Key.key_with_epoch u e) (Key.key_with_epoch u' e') =
    Ret (then_with (bytes_cmp u u') (e' ?= e)%Z).
Proof.
  intros He He'. unfold KeyComparator.compare_encoded_full_key, Key.key_with_epoch, Key.EPOCH_LEN.
  rewrite !split_key_epoch_app by apply length_be_bytes. cbn [mbind outcome_bind].
  by rewrite bytes_cmp_be_bytes by by apply pow256_of_u64.
Qed.

Lemma next_key_nil u : Key.next_key u = [] ↔ u = replicate (length u) Byte.xff.
Proof.
  unfold Key.next_key. pose proof (next_key_no_alloc_spec u) as H.
  destruct (Key.next_key_no_alloc u) as [[s e]|]; [|done].
  destruct H as (x & n & -> & He). split; [by destruct s|]. intros Hu. exfalso.
  assert (x ∈ replicate (length (s ++ x :: replicate n Byte.xff)) Byte.xff) as Hin.
  { rewrite <-Hu. apply elem_of_app. right. left. }
  apply elem_of_replicate in Hin as [-> _]. pose proof (b2z_range e).
  change (b2z Byte.xff) with 255%Z in He. lia.
Qed.

(** Between a user key and its [next_key] there are only keys that extend it. *)
Lemma next_key_bound u :
  Key.next_key u ≠ [] →
  bytes_cmp u (Key.next_key u) = Lt ∧
  ∀ k, bytes_cmp u k ≠ Gt → bytes_cmp k (Key.next_key u) = Lt → u `prefix_of` k.
Proof.
  unfold Key.next_key. pose proof (next_key_no_alloc_spec u) as H.
  destruct (Key.next_key_no_alloc u) as [[s e]|]; [|done]. intros _.
  destruct H as (x & n & -> & He). split.
  - apply (proj2 (prefix_interval s x e n _ He)). done.
  - intros k H1 H2. by apply (prefix_interval s x e n k He).
Qed.

(** [prev_key] is smaller, except on a key of zeros, where it wraps to a key of 0xff. *)
Lemma prev_key_cases u :
  (u = replicate (length u) Byte.x00 ∧ Key.prev_key u = replicate (length u) Byte.xff) ∨
  (u ≠ replicate (length u) Byte.x00 ∧ bytes_cmp (Key.prev_key u) u = Lt ∧
   cmp_eqb bytes_cmp (Key.prev_key u) (replicate (length (Key.prev_key u)) Byte.xff) = false).
Proof.
  unfold Key.prev_key. pose proof (rposition_byte Byte.x00 u) as H.
  destruct (rposition _ u) as [i|]; [|by left]. right.
  destruct H as (p & x & n & -> & <- & Hx).
  rewrite list_lookup_middle, take_app_length by done. simpl default.
  pose proof (byte_decr x Hx) as Hd. set (y := z2b (b2z x - 1)) in *.
  set (r := if _ <? _ then _ else _). split_and!.
  - intros Hz. assert (x ∈ replicate (length (p ++ x :: replicate n Byte.x00)) Byte.x00) as Hin.
    { rewrite <-Hz. apply elem_of_app. right. left. }
    by apply elem_of_replicate in Hin as [-> _].
  - rewrite (list_cmp_app byte_cmp). simpl. rewrite byte_cmp_val, Hd.
    by rewrite (proj2 (Z.compare_lt_iff _ _)) by lia.
  - apply not_true_is_false. rewrite (cmp_eqb_eq bytes_cmp). intros Hr.
    assert (y ∈ replicate (length (p ++ [y] ++ r)) Byte.xff) as Hin.
    { rewrite <-Hr. apply elem_of_app. right. left. }
    apply elem_of_replicate in Hin as [Hy _]. rewrite Hy in Hd.
    change (b2z Byte.xff) with 255%Z in Hd. pose proof (b2z_range x). lia.
Qed.

Lemma key_with_epoch_not_nil u e : Key.key_with_epoch u e ≠ [].
Proof.
  intros H%(f_equal length). unfold Key.key_with_epoch in H.
  rewrite length_app, length_be_bytes in H. simpl in H. unfold Key.EPOCH_LEN in H. lia.
Qed.

Lemma lt_with_epoch u e u' e' :
  is_uint 64 e → is_uint 64 e' →
  KeyComparator.compare_encoded_full_key (Key.key_with_epoch u e) (Key.key_with_epoch u' e') = Ret Lt ↔
  bytes_cmp u u' = Lt ∨ u = u' ∧ (e' < e)%Z.
Proof.
  intros He He'. rewrite compare_with_epoch by done. rewrite (inj_iff Ret).
  rewrite <-(cmp_eq_iff bytes_cmp u u'). rewrite <-(Z.compare_lt_iff e' e).
  destruct (bytes_cmp u u'), (e' ?= e)%Z; simpl; intuition congruence.
Qed.

Lemma next_full_key_sound u e r :
  is_uint 64 e → Key.next_full_key (Key.key_with_epoch u e) = Ret r →
  (r = [] ↔ e = 0%Z ∧ u = replicate (length u) Byte.xff) ∧
  (r ≠ [] → KeyComparator.compare_encoded_full_key (Key.key_with_epoch u e) r = Ret Lt ∧
    ∀ u' e', is_uint 64 e' →
    KeyComparator.compare_encoded_full_key (Key.key_with_epoch u e) (Key.key_with_epoch u' e') = Ret Lt →
    KeyComparator.compare_encoded_full_key (Key.key_with_epoch u' e') r = Ret Lt →
    e = 0%Z ∧ u `prefix_of` u' ∧ u ≠ u').
Proof.
  intros He. rewrite next_full_key_eval by done. intros [= <-]. pose proof He as [He0 He1].
  destruct (Z.eqb_spec e 0) as [->|Hne].
  - rewrite <-next_key_nil. case_bool_decide as Hn; [done|].
    split; [split; [by intros ?%key_with_epoch_not_nil|by intros [_ ?]]|]. intros _.
    destruct (next_key_bound u Hn) as [H1 H2].
    split; [apply lt_with_epoch; [done|apply u64_max_is_uint|by left]|].
    intros u' e' [He0' He1']. rewrite !lt_with_epoch by (done || apply u64_max_is_uint).
    change u64_max with (2 ^ 64 - 1)%Z. intros [Hk|[_ ?]]; [|lia]. intros [Hr|[_ ?]]; [|lia].
    split_and!; [done| |].
    + apply H2; [by rewrite Hk|done].
    + intros <-. by rewrite (cmp_refl bytes_cmp) in Hk.
  - assert (is_uint 64 (e - 1)) as Hd by (split; lia).
    split; [split; [by intros ?%key_with_epoch_not_nil|by intros [? _]]|]. intros _.
    split; [apply lt_with_epoch; [done..|]; right; split; [done|lia]|].
    intros u' e' He'. rewrite !lt_with_epoch by done. intros [Hk|[<- Hk]] [Hr|[Heq Hr]].
    + rewrite (cmp_antisym bytes_cmp u u'), Hk in Hr. done.
    + subst. by rewrite (cmp_refl bytes_cmp) in Hk.
    + by rewrite (cmp_refl bytes_cmp) in Hr.
    + lia.
Qed.

Lemma prev_full_key_sound u e r :
  is_uint 64 e → Key.prev_full_key (Key.key_with_epoch u e) = Ret r →
  (r = [] ↔ e = u64_max ∧ u = replicate (length u) Byte.x00) ∧
  (r ≠ [] → KeyComparator.compare_encoded_full_key r (Key.key_with_epoch u e) = Ret Lt ∧
    ∀ u' e', is_uint 64 e' →
    KeyComparator.compare_encoded_full_key r (Key.key_with_epoch u' e') = Ret Lt →
    KeyComparator.compare_encoded_full_key (Key.key_with_epoch u' e') (Key.key_with_epoch u e) = Ret Lt →
    e = u64_max).
Proof.
  intros He. rewrite prev_full_key_eval by done. intros [= <-]. pose proof He as [He0 He1].
  destruct (Z.eqb_spec e u64_max) as [->|Hne].
  - destruct (prev_key_cases u) as [[Hz Hp]|(Hnz & Hlt & Hff)].
    + rewrite Hp, length_replicate. unfold cmp_eqb. rewrite (cmp_refl bytes_cmp). done.
    + rewrite Hff. split; [|intros _; split; [apply lt_with_epoch; [done..|by left]|done]].
      pose proof (key_with_epoch_not_nil (Key.prev_key u) 0). split; [done|].
      by intros [_ Hz].
  - change u64_max with (2 ^ 64 - 1)%Z in Hne. assert (is_uint 64 (e + 1)) as Hd by (split; lia).
    split; [split; [by intros ?%key_with_epoch_not_nil|by intros [? _]]|]. intros _.
    split; [apply lt_with_epoch; [done..|]; right; split; [done|lia]|].
    intros u' e' He'. rewrite !lt_with_epoch by done. intros [Hk|[<- Hk]] [Hr|[Heq Hr]].
    + rewrite (cmp_antisym bytes_cmp u u'), Hk in Hr. done.
    + subst. by rewrite (cmp_refl bytes_cmp) in Hk.
    + by rewrite (cmp_refl bytes_cmp) in Hr.
    + lia.
Qed.

(** [next_full_key] and [prev_full_key] step to neighbouring keys.  On an encoded key
    with user key [u] and epoch [e], the next key is the immediate successor (same user key,
    next smaller epoch) when [e > 0]; at [e = 0] it is a greater key such that everything in
    between has a user key extending [u], and it is empty exactly when [u] is made of 0xff
    bytes.  The previous key is the immediate predecessor when [e < u64::MAX]; otherwise it
    is a smaller key, or empty exactly when [u] is made of zeros.  Neither panics. *)
Theorem full_key_neighbours (u : list byte) (e : Z) :
  is_uint 64 e →
  let k := Key.key_with_epoch u e in
  let lt a b := KeyComparator.compare_encoded_full_key a b = Ret Lt in
  (∃ r, Key.next_full_key k = Ret r ∧
    (r = [] ↔ e = 0%Z ∧ u = replicate (length u) Byte.xff) ∧
    (r ≠ [] → lt k r ∧ ∀ u' e', is_uint 64 e' →
      lt k (Key.key_with_epoch u' e') → lt (Key.key_with_epoch u' e') r →
      e = 0%Z ∧ u `prefix_of` u' ∧ u ≠ u')) ∧
  (∃ r, Key.prev_full_key k = Ret r ∧
    (r = [] ↔ e = u64_max ∧ u = replicate (length u) Byte.x00) ∧
    (r ≠ [] → lt r k ∧ ∀ u' e', is_uint 64 e' →
      lt r (Key.key_with_epoch u' e') → lt (Key.key_with_epoch u' e') k → e = u64_max)).
Proof.
  intros He k lt. split.
  - eexists. split; [by apply next_full_key_eval|]. by apply next_full_key_sound, next_full_key_eval.
  - eexists. split; [by apply prev_full_key_eval|]. by apply prev_full_key_sound, prev_full_key_eval.
Qed.

Lemma full_key_neighbours_witness :
  Key.next_full_key (Key.key_with_epoch [Byte.x61] 3) = Ret (Key.key_with_epoch [Byte.x61] 2) ∧
  KeyComparator.compare_encoded_full_key (Key.key_with_epoch [Byte.x61] 3)
    (Key.key_with_epoch [Byte.x61] 2) = Ret Lt.
Proof.
  destruct (full_key_neighbours [Byte.x61] 3 ltac:(split; lia)) as ((r & H1 & H2 & H3) & _).
  assert (Key.next_full_key (Key.key_with_epoch [Byte.x61] 3) = Ret (Key.key_with_epoch [Byte.x61] 2))
    as E by by vm_compute.
  split; [exact E|]. rewrite E in H1. injection H1 as <-. apply H3. discriminate.
Defined.

(** ** The user-key range of a table *)

Lemma user_cmp_leb a b :
  cmp_leb UserKey.cmp a b =
  (UserKey.table_id a <? UserKey.table_id b)%Z ||
  ((UserKey.table_id a =? UserKey.table_id b)%Z &&
   cmp_leb bytes_cmp (UserKey.table_key a) (UserKey.table_key b)).
Proof.
  unfold cmp_leb, UserKey.cmp.
  destruct (Z.compare_spec (UserKey.table_id a) (UserKey.table_id b)),
    (Z.ltb_spec (UserKey.table_id a) (UserKey.table_id b)),
    (Z.eqb_spec (UserKey.table_id a) (UserKey.table_id b)); simpl; try lia; done.
Qed.

Lemma user_cmp_ltb a b :
  cmp_ltb UserKey.cmp a b =
  (UserKey.table_id a <? UserKey.table_id b)%Z ||
  ((UserKey.table_id a =? UserKey.table_id b)%Z &&
   cmp_ltb bytes_cmp (UserKey.table_key a) (UserKey.table_key b)).
Proof.
  unfold cmp_ltb, UserKey.cmp.
  destruct (Z.compare_spec (UserKey.table_id a) (UserKey.table_id b)),
    (Z.ltb_spec (UserKey.table_id a) (UserKey.table_id b)),
    (Z.eqb_spec (UserKey.table_id a) (UserKey.table_id b)); simpl; try lia; done.
Qed.

Lemma cmp_ltb_nil_r k : cmp_ltb bytes_cmp k [] = false.
Proof. by destruct k. Qed.

Lemma table_range_above tid b (k : UserKey.t) :
  above UserKey.cmp (bound_table_key_range tid (b, Unbounded)).1 k =
  (tid <? UserKey.table_id k)%Z ||
  ((tid =? UserKey.table_id k)%Z && above bytes_cmp b (UserKey.table_key k)).
Proof.
  destruct b; simpl; rewrite ?user_cmp_leb, ?user_cmp_ltb; simpl; [done..|].
  by rewrite cmp_leb_nil_l.
Qed.

Lemma table_range_below tid b (k : UserKey.t) :
  user_key_ok k →
  below UserKey.cmp (bound_table_key_range tid (Unbounded, b)).2 k =
  (UserKey.table_id k <? tid)%Z ||
  ((tid =? UserKey.table_id k)%Z && below bytes_cmp b (UserKey.table_key k)).
Proof.
  intros [Hk0 Hk]. rewrite (Z.eqb_sym tid).
  destruct b; simpl; rewrite ?user_cmp_leb, ?user_cmp_ltb; simpl; [done..|].
  change u32_max with (2 ^ 32 - 1)%Z. destruct (Z.leb_spec (tid + 1) (2 ^ 32 - 1)); simpl.
  - rewrite user_cmp_ltb. simpl. rewrite cmp_ltb_nil_r, andb_false_r, orb_false_r, andb_true_r.
    destruct (Z.ltb_spec (UserKey.table_id k) (tid + 1)), (Z.ltb_spec (UserKey.table_id k) tid),
      (Z.eqb_spec (UserKey.table_id k) tid); simpl; lia || done.
  - destruct (Z.ltb_spec (UserKey.table_id k) tid), (Z.eqb_spec (UserKey.table_id k) tid); simpl; lia || done.
Qed.

(** The user-key range of a table selects exactly that table's keys.  For every range of
    table keys and every user key with a [u32] table id, the key lies in
    [bound_table_key_range table_id range] exactly when its table is [table_id] and its table
    key lies in the range; the largest table id included. *)
Theorem bound_table_key_range_exact (tid : Z) (range : TableKeyRange) (k : UserKey.t) :
  user_key_ok k →
  contains UserKey.cmp (bound_table_key_range tid range) k =
  bool_decide (UserKey.table_id k = tid) && contains bytes_cmp range (UserKey.table_key k).
Proof.
  intros Hk. destruct range as [lo hi]. unfold contains.
  pose proof (table_range_above tid lo k) as H1. pose proof (table_range_below tid hi k Hk) as H2.
  simpl in *. rewrite H1, H2.
  destruct (Z.ltb_spec tid (UserKey.table_id k)), (Z.ltb_spec (UserKey.table_id k) tid),
    (Z.eqb_spec tid (UserKey.table_id k)); simpl; try lia;
    by (rewrite bool_decide_true by lia) || by (rewrite bool_decide_false by lia).
Qed.

Lemma bound_table_key_range_exact_witness :
  contains UserKey.cmp (bound_table_key_range u32_max (Included [Byte.x61], Unbounded))
    (UserKey.mk u32_max [Byte.x62]) = true.
Proof.
  rewrite bound_table_key_range_exact by (vm_compute; done). by vm_compute.
Defined.

(** ** [FullKeyTracker] *)

(** The last key observed. *)
Definition last_key (tr : FullKeyTracker.t) : FullKey.t :=
  FullKey.mk (FullKeyTracker.latest_user_key tr) (FullKeyTracker.last_observed_epoch_with_gap tr).

(** Keys a tracker accepts after [last]: greater, or with [SKIP_DEDUP] also equal. *)
Definition may_follow (skip : bool) (last k : FullKey.t) : bool :=
  cmp_ltb FullKey.cmp last k || (skip && bool_decide (last = k)).

Definition new_user_key (last k : FullKey.t) : bool :=
  negb (bool_decide (FullKey.user_key last = FullKey.user_key k)).

Lemma observe_ok skip tr k :
  if may_follow skip (last_key tr) k then
    ∃ tr', FullKeyTracker.observe skip tr k = Ret (tr', new_user_key (last_key tr) k) ∧ last_key tr' = k
  else FullKeyTracker.observe skip tr k = Panic.
Proof.
  unfold may_follow, new_user_key, cmp_ltb, FullKey.cmp, FullKeyTracker.observe,
    FullKeyTracker.observe_multi_version, last_key, FullKeyTracker.latest_user_key. simpl.
  destruct tr as [[u g] e], k as [u' e']; simpl.
  destruct (UserKey.cmp u u') eqn:E; simpl.
  - apply (cmp_eq_iff UserKey.cmp) in E as ->. rewrite (bool_decide_true (u' = u')) by done. simpl.
    destruct (Z.compare_spec e' e) as [->|Hlt|Hgt]; simpl.
    + rewrite bool_decide_true, Z.gtb_ltb, Z.ltb_irrefl, Z.eqb_refl, andb_true_r, andb_true_r by done. simpl.
      destruct skip; simpl; [by eexists|done].
    + rewrite Z.gtb_ltb, (proj2 (Z.ltb_ge _ _)), (proj2 (Z.eqb_neq e' e)), andb_false_r by lia. simpl.
      by eexists.
    + rewrite bool_decide_false by (intros [=]; lia). rewrite andb_false_r.
      by rewrite Z.gtb_ltb, (proj2 (Z.ltb_lt _ _)) by lia.
  - rewrite bool_decide_false; [eexists; split; [done|]; by destruct u'|].
    intros ->. by rewrite (cmp_refl UserKey.cmp) in E.
  - rewrite bool_decide_false; [by rewrite andb_false_r|].
    intros [= -> _]. by rewrite (cmp_refl UserKey.cmp) in E.
Qed.

(** Feeding a sequence of keys, collecting the answers. *)
Definition observe_all (skip : bool) (tr : FullKeyTracker.t) (ks : list FullKey.t)
  : outcome (FullKeyTracker.t * list bool) :=
  rfold (λ '(tr, flags) k, '(tr', b) ← FullKeyTracker.observe skip tr k; Ret (tr', flags ++ [b]))
    ks (tr, []).

Fixpoint follows (skip : bool) (last : FullKey.t) (ks : list FullKey.t) : bool :=
  match ks with
  | [] => true
  | k :: ks' => may_follow skip last k && follows skip k ks'
  end.

Fixpoint new_flags (last : FullKey.t) (ks : list FullKey.t) : list bool :=
  match ks with
  | [] => []
  | k :: ks' => new_user_key last k :: new_flags k ks'
  end.

Lemma observe_from_ok skip tr flags ks :
  let run := rfold (λ '(tr, flags) k,
    '(tr', b) ← FullKeyTracker.observe skip tr k; Ret (tr', flags ++ [b])) ks (tr, flags) in
  if follows skip (last_key tr) ks then
    ∃ tr', run = Ret (tr', flags ++ new_flags (last_key tr) ks) ∧
           last_key tr' = default (last_key tr) (last ks)
  else run = Panic.
Proof.
  revert tr flags; induction ks as [|k ks IH]; intros tr flags.
  { exists tr. by rewrite app_nil_r. }
  rewrite last_cons. cbn [rfold follows new_flags].
  pose proof (observe_ok skip tr k) as Hk. destruct (may_follow skip (last_key tr) k); simpl.
  - destruct Hk as (tr1 & -> & Hl). simpl. specialize (IH tr1 (flags ++ [new_user_key (last_key tr) k])).
    rewrite Hl in IH. destruct (follows skip k ks); [|done].
    destruct IH as (tr' & -> & Hl'). exists tr'. rewrite <-app_assoc. split; [done|].
    rewrite Hl'. by destruct (last ks).
  - by rewrite Hk.
Qed.

(** Strictly descending epochs, as the fold of [observe_multi_version] checks. *)
Fixpoint descending (prev : Z) (es : list Z) : bool :=
  match es with
  | [] => true
  | e :: es' => (prev >? e)%Z && descending e es'
  end.

Lemma descending_fold prev es :
  rfold (λ prev curr, _ ← rassert (prev >? curr)%Z; Ret curr) es prev =
  if descending prev es then Ret (default prev (last es)) else Panic.
Proof.
  revert prev; induction es as [|e es IH]; intros prev; [done|]. cbn [rfold descending].
  destruct (prev >? e)%Z; cbn [rassert mbind outcome_bind andb]; [|done].
  rewrite IH, last_cons. destruct (descending e es); [|done]. by destruct (last es).
Qed.

Lemma observe_multi_version_ok skip tr u e es :
  let k := FullKey.mk u e in
  if descending e es && may_follow skip (last_key tr) k then
    ∃ tr', FullKeyTracker.observe_multi_version skip tr u (e :: es) =
             Ret (tr', new_user_key (last_key tr) k) ∧
           last_key tr' = FullKey.mk u (default e (last es))
  else FullKeyTracker.observe_multi_version skip tr u (e :: es) = Panic.
Proof.
  intros k. unfold FullKeyTracker.observe_multi_version. cbn [head tail unwrap mbind outcome_bind].
  rewrite descending_fold. destruct (descending e es); cbn [mbind outcome_bind andb]; [|done].
  pose proof (observe_ok skip tr k) as Hk. unfold FullKeyTracker.observe,
    FullKeyTracker.observe_multi_version in Hk. cbn [FullKey.user_key FullKey.epoch_with_gap
    head tail unwrap mbind outcome_bind rfold k] in Hk.
  destruct (may_follow skip (last_key tr) k).
  - destruct Hk as (tr' & Hrun & Hl). destruct (UserKey.cmp _ u) eqn:E; [| |done].
    + destruct (_ || _); [done|]. injection Hrun as <- <-. eexists. split; [done|].
      unfold last_key, FullKeyTracker.latest_user_key in *. simpl in *.
      injection Hl as Hu. by rewrite Hu.
    + injection Hrun as <- <-. eexists. split; [done|]. by destruct u.
  - destruct (UserKey.cmp _ u); [|done..]. by destruct (_ || _).
Qed.

(** The key tracker accepts exactly the sorted sequences.  Observing a sequence of full
    keys after an initial one panics unless every key is greater than the previous one in
    the order of full keys (or equal, with [SKIP_DEDUP]); otherwise each answer tells
    whether the user key is new and the tracker remembers the last key.  Observing several
    versions of a user key at once panics unless their epochs strictly decrease and
    otherwise acts as observing the newest and remembering the oldest. *)
Theorem full_key_tracker_accepts_sorted (skip : bool) (k0 : FullKey.t) (ks : list FullKey.t) :
  (if follows skip k0 ks then
     ∃ tr, observe_all skip (FullKeyTracker.new k0) ks = Ret (tr, new_flags k0 ks) ∧
           last_key tr = default k0 (last ks)
   else observe_all skip (FullKeyTracker.new k0) ks = Panic) ∧
  ∀ u e es,
    if descending e es && may_follow skip k0 (FullKey.mk u e) then
      ∃ tr, FullKeyTracker.observe_multi_version skip (FullKeyTracker.new k0) u (e :: es) =
              Ret (tr, new_user_key k0 (FullKey.mk u e)) ∧
            last_key tr = FullKey.mk u (default e (last es))
    else FullKeyTracker.observe_multi_version skip (FullKeyTracker.new k0) u (e :: es) = Panic.
Proof.
  assert (last_key (FullKeyTracker.new k0) = k0) as Hk0 by by destruct k0.
  split.
  - pose proof (observe_from_ok skip (FullKeyTracker.new k0) [] ks) as H. by rewrite Hk0 in H.
  - intros u e es. pose proof (observe_multi_version_ok skip (FullKeyTracker.new k0) u e es) as H.
    by rewrite Hk0 in H.
Qed.
