(* ===== verification/KeyRange.v ===== *)
(** * Key ranges of sorted tables

    [src/storage/hummock_sdk/src/key_range.rs]: the range of full keys of an sstable, with
    empty byte strings for infinite bounds; overlap on full keys and on user keys,
    extension, order. *)

From Stdlib Require Import ZArith Lia.
From S2P Require Import Prelude Order Bytes Epoch Bits Bitmap Vnode Key KeySpec.

Module KeyRange.

Record t := mk { left : list byte; right : list byte; right_exclusive : bool }.

#[global] Instance t_eq_dec : EqDecision t.
Proof. solve_decision. Defined.

Definition new (left right : list byte) : t := mk left right false.
Definition inf : t := mk [] [] false.

Definition start_bound_inf (self : t) : bool := bool_decide (left self = []).
Definition end_bound_inf (self : t) : bool := bool_decide (right self = []).
Definition inf_key_range (self : t) : bool := start_bound_inf self && end_bound_inf self.

(** [b || m] where only [m] may panic. *)
Definition or_else (b : bool) (m : outcome bool) : outcome bool := if b then Ret true else m.

Definition not_less (c : outcome comparison) : outcome bool :=
  (λ o, match o with Lt => false | _ => true end) <$> c.

Definition full_key_overlap (self other : t) : outcome bool :=
  c1 ← or_else (end_bound_inf self || start_bound_inf other)
         (not_less (KeyComparator.compare_encoded_full_key (right self) (left other)));
  if (c1 : bool) then
    or_else (end_bound_inf other || start_bound_inf self)
      (not_less (KeyComparator.compare_encoded_full_key (right other) (left self)))
  else Ret false.

Definition full_key_extend (self other : t) : outcome t :=
  self ← (if negb (start_bound_inf self) then
            c ← or_else (start_bound_inf other)
                  (KeyComparator.encoded_full_key_less_than (left other) (left self));
            if (c : bool) then Ret (mk (left other) (right self) (right_exclusive self)) else Ret self
          else Ret self);
  if negb (end_bound_inf self) then
    c ← or_else (end_bound_inf other)
          (o ← KeyComparator.compare_encoded_full_key (right other) (right self);
           Ret (match o with Gt => true | _ => false end));
    if (c : bool) then Ret (mk (left self) (right other) (right_exclusive other)) else Ret self
  else Ret self.

Definition compare_right_with_user_key (self : t) (ukey : UserKey.t) : outcome comparison :=
  r ← FullKey.decode (right self);
  let ret := UserKey.cmp (FullKey.user_key r) ukey in
  if right_exclusive self then Ret (match ret with Eq => Lt | _ => ret end) else Ret ret.

Definition compare_right_with (self : t) (full_key : list byte) : outcome comparison :=
  k ← FullKey.decode full_key;
  compare_right_with_user_key self (FullKey.user_key k).

Definition sstable_overlap (self other : t) : outcome bool :=
  c1 ← or_else (end_bound_inf self || start_bound_inf other)
         (not_less (compare_right_with self (left other)));
  if (c1 : bool) then
    or_else (end_bound_inf other || start_bound_inf self)
      (not_less (compare_right_with other (left self)))
  else Ret false.

(** [key_range_cmp!] *)
Definition cmp (self other : t) : outcome comparison :=
  ret ← (if start_bound_inf self && start_bound_inf other then Ret Eq
         else if negb (start_bound_inf self) && negb (start_bound_inf other) then
           KeyComparator.compare_encoded_full_key (left self) (left other)
         else if bool_decide (left self = []) then Ret Lt
         else Ret Gt);
  match ret with
  | Eq =>
      if end_bound_inf self && end_bound_inf other then Ret Eq
      else if negb (end_bound_inf self) && negb (end_bound_inf other) then
        KeyComparator.compare_encoded_full_key (right self) (right other)
      else if end_bound_inf self then Ret Gt
      else Ret Lt
  | _ => Ret ret
  end.

End KeyRange.

(** ** Intervals with optional bounds *)

Section intervals.
Context {A : Type} (cmp : A → A → comparison) `{!TotalCmp cmp}.

Definition lower_ok (lo : option A) (u : A) : Prop :=
  match lo with Some l => cmp l u ≠ Gt | None => True end.

(** [R] is closed downwards: an upper bound, inclusive, exclusive or infinite. *)
Definition down_closed (R : A → Prop) : Prop := ∀ u v, cmp u v ≠ Gt → R v → R u.

(** Two non-empty intervals meet exactly when each starts before the other ends; [V] are
    the valid points. *)
Lemma intervals_meet (V : A → Prop) la (Ra : A → Prop) lb (Rb : A → Prop) :
  down_closed Ra → down_closed Rb → (∀ l, la = Some l → V l) → (∀ l, lb = Some l → V l) →
  (∃ u, V u ∧ lower_ok la u ∧ Ra u) → (∃ u, V u ∧ lower_ok lb u ∧ Rb u) →
  (match lb with Some l => Ra l | None => True end) ∧
  (match la with Some l => Rb l | None => True end) ↔
  ∃ u, V u ∧ (lower_ok la u ∧ Ra u) ∧ (lower_ok lb u ∧ Rb u).
Proof.
  intros Da Db Va Vb (ua & Hua & Hla & Hra) (ub & Hub & Hlb & Hrb). split.
  - intros [H1 H2]. destruct la as [x|], lb as [y|]; simpl in *.
    + destruct (cmp x y) eqn:E.
      * apply (cmp_eq_iff cmp) in E as <-. exists x.
        split_and!; auto; by rewrite (cmp_refl cmp).
      * exists y. split_and!; auto; [by rewrite E|by rewrite (cmp_refl cmp)|by eapply Db].
      * exists x. apply (cmp_gt_lt cmp) in E.
        split_and!; auto; [by rewrite (cmp_refl cmp)|by eapply Da|by rewrite E].
    + exists x. split_and!; auto; [by rewrite (cmp_refl cmp)|by eapply Da].
    + exists y. split_and!; auto; [by rewrite (cmp_refl cmp)|by eapply Db].
    + destruct (cmp ua ub) eqn:E.
      * apply (cmp_eq_iff cmp) in E as <-. by exists ua.
      * exists ua. split_and!; auto. eapply Db; [|done]. by rewrite E.
      * exists ub. split_and!; auto. apply (cmp_gt_lt cmp) in E. eapply Da; [|done]. by rewrite E.
  - intros (u & _ & [H1 H2] & H3 & H4). split.
    + destruct lb; [|done]. by eapply Da.
    + destruct la; [|done]. by eapply Db.
Qed.

End intervals.

(** ** What a key range denotes *)

Definition enc (o : option FullKey.t) : list byte := match o with Some k => FullKey.encode k | None => [] end.
Definition opt_ok (o : option FullKey.t) : Prop := match o with Some k => full_key_ok k | None => True end.

(** [r] has lower bound [lo] and upper bound [hi], [None] being infinite. *)
Definition bounded_by (r : KeyRange.t) (lo hi : option FullKey.t) : Prop :=
  KeyRange.left r = enc lo ∧ KeyRange.right r = enc hi ∧ opt_ok lo ∧ opt_ok hi.

Definition upper_ok (hi : option FullKey.t) (k : FullKey.t) : Prop :=
  match hi with Some h => FullKey.cmp k h ≠ Gt | None => True end.

(** Upper bound on user keys, exclusive or not. *)
Definition user_upper_ok (excl : bool) (hi : option FullKey.t) (u : UserKey.t) : Prop :=
  match hi with
  | Some h => if excl then UserKey.cmp u (FullKey.user_key h) = Lt
              else UserKey.cmp u (FullKey.user_key h) ≠ Gt
  | None => True
  end.

Lemma full_key_encode_not_nil k : FullKey.encode k ≠ [].
Proof.
  intros H%(f_equal length). unfold FullKey.encode in H.
  rewrite length_app, length_be_bytes in H. simpl in H. lia.
Qed.

Lemma enc_nil o : bool_decide (enc o = []) = bool_decide (o = None).
Proof.
  apply bool_decide_ext. destruct o; simpl; [|done].
  split; [by intros ?%full_key_encode_not_nil|done].
Qed.

Lemma upper_down_closed hi : down_closed FullKey.cmp (upper_ok hi).
Proof. intros u v Huv. destruct hi; [|done]. simpl. by apply (cmp_le_trans FullKey.cmp). Qed.

Lemma user_upper_down_closed excl hi : down_closed UserKey.cmp (user_upper_ok excl hi).
Proof.
  intros u v Huv. destruct hi; [|done]. simpl. destruct excl.
  - by apply (cmp_le_lt_trans UserKey.cmp).
  - by apply (cmp_le_trans UserKey.cmp).
Qed.

Lemma overlap_half hi lo :
  opt_ok hi → opt_ok lo →
  ∃ b, KeyRange.or_else (bool_decide (enc hi = []) || bool_decide (enc lo = []))
         (KeyRange.not_less (KeyComparator.compare_encoded_full_key (enc hi) (enc lo))) = Ret b ∧
    (b = true ↔ match lo with Some l => upper_ok hi l | None => True end).
Proof.
  intros Hh Hl. rewrite !enc_nil. destruct hi as [h|], lo as [l|]; try by exists true.
  rewrite !bool_decide_false by done. cbn [KeyRange.or_else orb enc].
  rewrite compare_encoded_full_key_ok by done. simpl. eexists. split; [done|].
  rewrite (cmp_antisym FullKey.cmp h l). destruct (FullKey.cmp h l); simpl; naive_solver.
Qed.

Lemma full_key_overlap_eval a b la ha lb hb :
  bounded_by a la ha → bounded_by b lb hb →
  ∃ r, KeyRange.full_key_overlap a b = Ret r ∧
    (r = true ↔ (match lb with Some l => upper_ok ha l | None => True end) ∧
                (match la with Some l => upper_ok hb l | None => True end)).
Proof.
  intros (HLa & HRa & Hla & Hha) (HLb & HRb & Hlb & Hhb).
  unfold KeyRange.full_key_overlap, KeyRange.end_bound_inf, KeyRange.start_bound_inf.
  rewrite HLa, HRa, HLb, HRb.
  destruct (overlap_half ha lb Hha Hlb) as (b1 & -> & H1).
  destruct (overlap_half hb la Hhb Hla) as (b2 & Hb2 & H2).
  cbn [mbind outcome_bind]. destruct b1; [rewrite Hb2|]; eexists; (split; [done|]); naive_solver.
Qed.

Lemma sstable_half excl hi lo :
  opt_ok hi → opt_ok lo →
  ∃ b, KeyRange.or_else (bool_decide (enc hi = []) || bool_decide (enc lo = []))
         (KeyRange.not_less (KeyRange.compare_right_with (KeyRange.mk [] (enc hi) excl) (enc lo))) = Ret b ∧
    (b = true ↔ match lo with Some l => user_upper_ok excl hi (FullKey.user_key l) | None => True end).
Proof.
  intros Hh Hl. rewrite !enc_nil. destruct hi as [h|], lo as [l|]; try by exists true.
  rewrite !bool_decide_false by done. cbn [KeyRange.or_else orb enc].
  unfold KeyRange.compare_right_with, KeyRange.compare_right_with_user_key.
  rewrite full_key_decode_encode by done. cbn [mbind outcome_bind KeyRange.right].
  rewrite full_key_decode_encode by done. cbn [mbind outcome_bind].
  unfold user_upper_ok.
  rewrite (cmp_antisym UserKey.cmp (FullKey.user_key h) (FullKey.user_key l)).
  destruct excl; simpl; eexists; (split; [done|]);
    destruct (UserKey.cmp (FullKey.user_key h) (FullKey.user_key l)); simpl; naive_solver.
Qed.

Lemma sstable_overlap_eval a b la ha lb hb :
  bounded_by a la ha → bounded_by b lb hb →
  ∃ r, KeyRange.sstable_overlap a b = Ret r ∧
    (r = true ↔
      (match lb with Some l => user_upper_ok (KeyRange.right_exclusive a) ha (FullKey.user_key l)
                   | None => True end) ∧
      (match la with Some l => user_upper_ok (KeyRange.right_exclusive b) hb (FullKey.user_key l)
                   | None => True end)).
Proof.
  destruct a as [La Ra xa], b as [Lb Rb xb].
  intros (HLa & HRa & Hla & Hha) (HLb & HRb & Hlb & Hhb). simpl in *. subst.
  unfold KeyRange.sstable_overlap, KeyRange.end_bound_inf, KeyRange.start_bound_inf.
  cbn [KeyRange.left KeyRange.right KeyRange.right_exclusive].
  destruct (sstable_half xa ha lb Hha Hlb) as (b1 & Hb1 & H1).
  destruct (sstable_half xb hb la Hhb Hla) as (b2 & Hb2 & H2).
  unfold KeyRange.compare_right_with, KeyRange.compare_right_with_user_key in *.
  cbn [KeyRange.right KeyRange.right_exclusive] in *. rewrite Hb1.
  cbn [mbind outcome_bind]. destruct b1; [rewrite Hb2|]; eexists; (split; [done|]); naive_solver.
Qed.

(** Membership of a full key, and of a user key, in a key range with given bounds. *)
Definition has_full_key (lo hi : option FullKey.t) (k : FullKey.t) : Prop :=
  lower_ok FullKey.cmp lo k ∧ upper_ok hi k.
Definition has_user_key (excl : bool) (lo hi : option FullKey.t) (u : UserKey.t) : Prop :=
  lower_ok UserKey.cmp (FullKey.user_key <$> lo) u ∧ user_upper_ok excl hi u.

(** The overlap tests of key ranges are exact.  For two non-empty key ranges (finite or
    infinite bounds), [full_key_overlap] returns true exactly when some full key lies in
    both, and [sstable_overlap] exactly when some user key does, an exclusive right bound
    counting for user keys only.  Neither panics. *)
Theorem key_range_overlap_exact (a b : KeyRange.t) la ha lb hb :
  bounded_by a la ha → bounded_by b lb hb →
  ((∃ k, full_key_ok k ∧ has_full_key la ha k) → (∃ k, full_key_ok k ∧ has_full_key lb hb k) →
   ∃ r, KeyRange.full_key_overlap a b = Ret r ∧
     (r = true ↔ ∃ k, full_key_ok k ∧ has_full_key la ha k ∧ has_full_key lb hb k)) ∧
  (let xa := KeyRange.right_exclusive a in let xb := KeyRange.right_exclusive b in
   (∃ u, user_key_ok u ∧ has_user_key xa la ha u) → (∃ u, user_key_ok u ∧ has_user_key xb lb hb u) →
   ∃ r, KeyRange.sstable_overlap a b = Ret r ∧
     (r = true ↔ ∃ u, user_key_ok u ∧ has_user_key xa la ha u ∧ has_user_key xb lb hb u)).
Proof.
  intros Ha Hb. pose proof Ha as (_ & _ & Hla & _). pose proof Hb as (_ & _ & Hlb & _). split.
  - intros Na Nb. destruct (full_key_overlap_eval _ _ _ _ _ _ Ha Hb) as (r & Hr & Hiff).
    exists r. split; [done|]. rewrite Hiff.
    apply (intervals_meet FullKey.cmp full_key_ok); [apply upper_down_closed..| | |done|done].
    + by intros l ->.
    + by intros l ->.
  - intros xa xb Na Nb. destruct (sstable_overlap_eval _ _ _ _ _ _ Ha Hb) as (r & Hr & Hiff).
    exists r. split; [done|]. rewrite Hiff.
    pose proof (intervals_meet UserKey.cmp user_key_ok (FullKey.user_key <$> la) (user_upper_ok xa ha)
      (FullKey.user_key <$> lb) (user_upper_ok xb hb)) as H.
    destruct la as [ka|], lb as [kb|]; apply H; try apply user_upper_down_closed; try done;
      intros l [= <-]; apply Hla || apply Hlb.
Qed.

Lemma key_range_overlap_exact_witness :
  let k t e := FullKey.new 1 [t] (Epoch.test_epoch e) in
  KeyRange.sstable_overlap
    (KeyRange.mk (FullKey.encode (k Byte.x61 1%Z)) (FullKey.encode (k Byte.x63 1%Z)) true)
    (KeyRange.mk (FullKey.encode (k Byte.x62 1%Z)) [] false) = Ret true.
Proof.
  intros k. assert (∀ t, full_key_ok (k t 1%Z)) as Hok by (intros t; split; vm_compute; done).
  destruct (key_range_overlap_exact
    (KeyRange.mk (FullKey.encode (k Byte.x61 1%Z)) (FullKey.encode (k Byte.x63 1%Z)) true)
    (KeyRange.mk (FullKey.encode (k Byte.x62 1%Z)) [] false)
    (Some (k Byte.x61 1%Z)) (Some (k Byte.x63 1%Z)) (Some (k Byte.x62 1%Z)) None) as [_ H].
  - split_and!; try done; apply Hok.
  - split_and!; try done; apply Hok.
  - destruct H as (r & Hr & Hiff).
    + exists (FullKey.user_key (k Byte.x62 1%Z)). split; [apply Hok|]. split; by vm_compute.
    + exists (FullKey.user_key (k Byte.x62 1%Z)). split; [apply Hok|]. split; by vm_compute.
    + rewrite Hr. f_equal. apply Hiff. exists (FullKey.user_key (k Byte.x62 1%Z)).
      split; [apply Hok|]. split; split; by vm_compute.
Defined.

(** ** Extension and order *)

Definition opt_lo_cmp (x y : option FullKey.t) : comparison :=
  match x, y with
  | None, None => Eq | None, _ => Lt | _, None => Gt | Some a, Some b => FullKey.cmp a b
  end.
Definition opt_hi_cmp (x y : option FullKey.t) : comparison :=
  match x, y with
  | None, None => Eq | None, _ => Gt | _, None => Lt | Some a, Some b => FullKey.cmp a b
  end.

(** The lesser lower bound and the greater upper bound. *)
Definition hull_lo (x y : option FullKey.t) : option FullKey.t :=
  if decide (opt_lo_cmp y x = Lt) then y else x.
Definition hull_hi (x y : option FullKey.t) : option FullKey.t :=
  if decide (opt_hi_cmp y x = Gt) then y else x.

Lemma full_key_extend_eval a b la ha lb hb :
  bounded_by a la ha → bounded_by b lb hb →
  KeyRange.full_key_extend a b = Ret (KeyRange.mk (enc (hull_lo la lb)) (enc (hull_hi ha hb))
    (if decide (opt_hi_cmp hb ha = Gt) then KeyRange.right_exclusive b else KeyRange.right_exclusive a)).
Proof.
  destruct a as [La Ra xa], b as [Lb Rb xb].
  intros (HLa & HRa & Hla & Hha) (HLb & HRb & Hlb & Hhb). simpl in *. subst.
  unfold KeyRange.full_key_extend, KeyRange.start_bound_inf, KeyRange.end_bound_inf,
    KeyComparator.encoded_full_key_less_than.
  cbn [KeyRange.left KeyRange.right KeyRange.right_exclusive]. rewrite !enc_nil.
  assert (∀ r : KeyRange.t, (if negb (bool_decide (la = None)) then
      c ← KeyRange.or_else (bool_decide (lb = None))
        (c ← KeyComparator.compare_encoded_full_key (enc lb) (enc la);
         Ret match c with Lt => true | _ => false end);
      if (c : bool) then Ret (KeyRange.mk (enc lb) (enc ha) xa) else Ret (KeyRange.mk (enc la) (enc ha) xa)
    else Ret (KeyRange.mk (enc la) (enc ha) xa)) =
    Ret (KeyRange.mk (enc (hull_lo la lb)) (enc ha) xa)) as Hlo.
  { intros _. unfold hull_lo. destruct la as [ka|], lb as [kb|]; simpl; try done.
    rewrite compare_encoded_full_key_ok by done. simpl. by destruct (FullKey.cmp kb ka). }
  rewrite Hlo by exact (KeyRange.mk [] [] false).
  cbn [mbind outcome_bind KeyRange.left KeyRange.right KeyRange.right_exclusive].
  rewrite enc_nil. unfold hull_hi. destruct ha as [ka|], hb as [kb|]; simpl; try done.
  rewrite compare_encoded_full_key_ok by done. simpl. by destruct (FullKey.cmp kb ka).
Qed.

Lemma hull_lo_ok la lb k :
  (lower_ok FullKey.cmp la k ∨ lower_ok FullKey.cmp lb k) ↔ lower_ok FullKey.cmp (hull_lo la lb) k.
Proof.
  unfold hull_lo. destruct la as [a|], lb as [b|]; cbn [opt_lo_cmp];
    [|rewrite decide_True by done; simpl; tauto|rewrite decide_False by done; simpl; tauto..].
  destruct (FullKey.cmp b a) eqn:E.
  - apply (cmp_eq_iff FullKey.cmp) in E as ->. rewrite decide_False by done. simpl. tauto.
  - rewrite decide_True by done. simpl. split; [|tauto]. intros [Hk|]; [|done].
    by rewrite (cmp_lt_le_trans FullKey.cmp b a k E Hk).
  - rewrite decide_False by done. simpl. split; [|tauto]. intros [|Hk]; [done|].
    apply (cmp_gt_lt FullKey.cmp) in E. by rewrite (cmp_lt_le_trans FullKey.cmp a b k E Hk).
Qed.

Lemma hull_hi_ok ha hb k : (upper_ok ha k ∨ upper_ok hb k) ↔ upper_ok (hull_hi ha hb) k.
Proof.
  unfold hull_hi. destruct ha as [a|], hb as [b|]; cbn [opt_hi_cmp];
    [|rewrite decide_True by done; simpl; tauto|rewrite decide_False by done; simpl; tauto..].
  destruct (FullKey.cmp b a) eqn:E.
  - apply (cmp_eq_iff FullKey.cmp) in E as ->. rewrite decide_False by done. simpl. tauto.
  - rewrite decide_False by done. simpl. split; [|tauto]. intros [|Hk]; [done|].
    by rewrite (cmp_le_lt_trans FullKey.cmp k b a Hk E).
  - rewrite decide_True by done. simpl. split; [|tauto]. intros [Hk|]; [|done].
    apply (cmp_gt_lt FullKey.cmp) in E. by rewrite (cmp_le_lt_trans FullKey.cmp k a b Hk E).
Qed.

(** Extending a key range gives the smallest range covering both.  [full_key_extend]
    returns a range bounded by the lesser lower and the greater upper bound (infinite when
    either is): a lower (upper) bound admits a key exactly when one of the two did; and its
    right bound is exclusive exactly when the bound it was taken from is.  The order of key
    ranges compares lower bounds, then upper bounds, an infinite lower bound being least and
    an infinite upper bound greatest.  Neither panics. *)
Theorem key_range_extend_and_order (a b : KeyRange.t) la ha lb hb :
  bounded_by a la ha → bounded_by b lb hb →
  (∃ r lo hi, KeyRange.full_key_extend a b = Ret r ∧ bounded_by r lo hi ∧
    (∀ k, lower_ok FullKey.cmp lo k ↔ lower_ok FullKey.cmp la k ∨ lower_ok FullKey.cmp lb k) ∧
    (∀ k, upper_ok hi k ↔ upper_ok ha k ∨ upper_ok hb k) ∧
    KeyRange.right_exclusive r =
      (if decide (opt_hi_cmp hb ha = Gt) then KeyRange.right_exclusive b
       else KeyRange.right_exclusive a)) ∧
  KeyRange.cmp a b = Ret (then_with (opt_lo_cmp la lb) (opt_hi_cmp ha hb)).
Proof.
  intros Ha Hb. split.
  - eexists _, (hull_lo la lb), (hull_hi ha hb). split; [by apply full_key_extend_eval|].
    destruct Ha as (_ & _ & Hla & Hha), Hb as (_ & _ & Hlb & Hhb). split_and!; [|by intros k; rewrite hull_lo_ok|by intros k; rewrite hull_hi_ok|done].
    split_and!; [done|done|unfold hull_lo; by case_decide|unfold hull_hi; by case_decide].
  - destruct a as [La Ra xa], b as [Lb Rb xb].
    destruct Ha as (HLa & HRa & Hla & Hha), Hb as (HLb & HRb & Hlb & Hhb). simpl in *. subst.
    unfold KeyRange.cmp, KeyRange.start_bound_inf, KeyRange.end_bound_inf.
    cbn [KeyRange.left KeyRange.right]. rewrite !enc_nil.
    assert (∀ x y, opt_ok x → opt_ok y → ∀ c1 c2 : comparison,
      (if bool_decide (x = None) && bool_decide (y = None) then Ret Eq
       else if negb (bool_decide (x = None)) && negb (bool_decide (y = None))
       then KeyComparator.compare_encoded_full_key (enc x) (enc y)
       else if bool_decide (x = None) then Ret c1 else Ret c2) =
      Ret (match x, y with None, None => Eq | None, _ => c1 | _, None => c2
           | Some a, Some b => FullKey.cmp a b end)) as Hc.
    { intros [x|] [y|] Hx Hy c1 c2; try done. simpl. by rewrite compare_encoded_full_key_ok. }
    rewrite !Hc by done. cbn [mbind outcome_bind].
    by destruct la, lb, ha, hb; simpl; try done; destruct (FullKey.cmp _ _).
Qed.

Lemma key_range_extend_and_order_witness :
  KeyRange.cmp KeyRange.inf
    (KeyRange.new (FullKey.encode (FullKey.new 1 [Byte.x61] 65536)) []) = Ret Lt.
Proof.
  destruct (key_range_extend_and_order KeyRange.inf
    (KeyRange.new (FullKey.encode (FullKey.new 1 [Byte.x61] 65536)) [])
    None None (Some (FullKey.new 1 [Byte.x61] 65536)) None) as [_ H].
  - by split_and!.
  - split_and!; try done; split; vm_compute; done.
  - exact H.
Defined.
