(* ===== verification/Watermark.v ===== *)
(** * Table watermarks

    [src/storage/hummock_sdk/src/table_watermark.rs]: the watermarks of a table per epoch
    and vnode, the index a reader consults, the rewriting of a read range, and the
    operations that add, merge and clear watermarks.  The theorems are in
    [WatermarkSpec.v]. *)

From Stdlib Require Import ZArith Lia.
From stdpp Require Import gmap.
From S2P Require Import Prelude Order Bytes Epoch Bits Bitmap Vnode Key.

Local Open Scope Z_scope.

Module WatermarkDirection.

Inductive t := Ascending | Descending.

#[global] Instance t_eq_dec : EqDecision t.
Proof. solve_decision. Defined.

Definition filter_by_watermark (self : t) (key watermark : list byte) : bool :=
  match self with
  | Ascending => bytes_ltb key watermark
  | Descending => bytes_ltb watermark key
  end.

Definition is_ascending (self : t) : bool :=
  match self with Ascending => true | Descending => false end.

End WatermarkDirection.

Module VnodeWatermark.

Record t := mk { vnode_bitmap : Bitmap.t; watermark : list byte }.

Definition vnode_count (self : t) : nat := Bitmap.len (vnode_bitmap self).

(** [PbVnodeWatermark]: the watermark and the optional bitmap buffer. *)
Record pb := mk_pb { pb_watermark : list byte; pb_vnode_bitmap : option (list byte) }.

Definition from_protobuf (p : pb) : outcome t :=
  body ← unwrap (pb_vnode_bitmap p);
  bitmap ← BitmapPb.from_protobuf body;
  Ret (mk bitmap (pb_watermark p)).

Definition to_protobuf (self : t) : pb :=
  mk_pb (watermark self) (Some (BitmapPb.to_protobuf (vnode_bitmap self))).

End VnodeWatermark.

(** An epoch with the vnode watermarks added in it. *)
Abbreviation EpochWatermarks := (Z * list VnodeWatermark.t)%type.

Module TableWatermarks.

(** Later epochs at the back. *)
Record t := mk { watermarks : list EpochWatermarks; direction : WatermarkDirection.t }.

Definition vnode_count (self : t) : option nat :=
  VnodeWatermark.vnode_count <$> head (mjoin (snd <$> watermarks self)).

Definition add_new_epoch_watermarks (self : t) (epoch : Z) (new : list VnodeWatermark.t)
    (dir : WatermarkDirection.t) : outcome t :=
  _ ← rassert (bool_decide (direction self = dir));
  _ ← match last (watermarks self) with
      | Some (prev_epoch, _) => rassert (prev_epoch <? epoch)
      | None => Ret tt
      end;
  _ ← match new with
      | [] => Ret tt
      | w :: _ =>
          let count := VnodeWatermark.vnode_count w in
          _ ← rassert (forallb (λ w', VnodeWatermark.vnode_count w' =? count)%nat new);
          match vnode_count self with
          | Some existing_vnode_count => rassert (existing_vnode_count =? count)%nat
          | None => Ret tt
          end
      end;
  Ret (mk (watermarks self ++ [(epoch, new)]) (direction self)).

Definition single_epoch (epoch : Z) (new : list VnodeWatermark.t) (dir : WatermarkDirection.t)
  : outcome t :=
  add_new_epoch_watermarks (mk [] dir) epoch new dir.

Record pb := mk_pb {
  epoch_watermarks : list (Z * list VnodeWatermark.pb);
  pb_is_ascending : bool
}.

Definition from_protobuf (p : pb) : outcome t :=
  ws ← rmap (λ e : Z * list VnodeWatermark.pb,
               ws ← rmap VnodeWatermark.from_protobuf e.2; Ret (e.1, ws)) (epoch_watermarks p);
  Ret (mk ws (if pb_is_ascending p then WatermarkDirection.Ascending
              else WatermarkDirection.Descending)).

Definition to_protobuf (self : t) : pb :=
  mk_pb ((λ e : EpochWatermarks, (e.1, VnodeWatermark.to_protobuf <$> e.2)) <$> watermarks self)
        (WatermarkDirection.is_ascending (direction self)).

(** [is_sorted] on the epochs. *)
Fixpoint is_sorted (ws : list EpochWatermarks) : bool :=
  match ws with
  | (e1, _) :: (((e2, _) :: _) as ws') => (e1 <=? e2) && is_sorted ws'
  | _ => true
  end.

(** [is_sorted_by(<)] on the epochs. *)
Fixpoint is_sorted_lt (ws : list EpochWatermarks) : bool :=
  match ws with
  | (e1, _) :: (((e2, _) :: _) as ws') => (e1 <? e2) && is_sorted_lt ws'
  | _ => true
  end.

Definition apply_new_table_watermarks (self newly_added_watermarks : t) : outcome t :=
  _ ← rassert (bool_decide (direction self = direction newly_added_watermarks));
  _ ← rassert (is_sorted (watermarks self));
  _ ← rassert (is_sorted (watermarks newly_added_watermarks));
  _ ← match last (watermarks self), head (watermarks newly_added_watermarks) with
      | Some (prev_last_epoch, _), Some (new_first_epoch, _) =>
          rassert (prev_last_epoch <? new_first_epoch)
      | _, _ => Ret tt
      end;
  Ret (mk (watermarks self ++ watermarks newly_added_watermarks) (direction self)).

(** State of [clear_stale_epoch_watermark]: the lazily initialised vnode count, the vnodes
    already covered, and the result, latest epoch first. *)
Record clear_state := mk_clear {
  cs_vnode_count : option nat;
  cs_set_vnode : gset nat;
  cs_result : list EpochWatermarks
}.

Definition get_or_insert (o : option nat) (n : nat) : option nat :=
  match o with Some m => Some m | None => Some n end.

(** The first loop: [rev_ws] is the list from its back; keep the epochs from [safe_epoch] on. *)
Fixpoint keep_safe (safe_epoch : Z) (rev_ws : list EpochWatermarks) (s : clear_state)
  : list EpochWatermarks * clear_state :=
  match rev_ws with
  | (epoch, ws) :: rest =>
      if safe_epoch <=? epoch then
        let s := foldl (λ s w,
          mk_clear (get_or_insert (cs_vnode_count s) (VnodeWatermark.vnode_count w))
            (foldl (λ set v, {[ v ]} ∪ set) (cs_set_vnode s)
               (VnodeBitmapExt.iter_vnodes (VnodeWatermark.vnode_bitmap w)))
            (cs_result s)) s ws in
        keep_safe safe_epoch rest
          (mk_clear (cs_vnode_count s) (cs_set_vnode s) (cs_result s ++ [(epoch, ws)]))
      else (rev_ws, s)
  | [] => ([], s)
  end.

(** The vnodes of [vs] not seen before, in order, and the set with them. *)
Definition insert_new (set : gset nat) (vs : list nat) : gset nat * list nat :=
  foldl (λ '(set, new) v, if decide (v ∈ set) then (set, new) else ({[ v ]} ∪ set, new ++ [v]))
    (set, []) vs.

Definition bitmap_of (count : nat) (vs : list nat) : outcome Bitmap.t :=
  b ← rfold (λ b v, BitmapBuilder.set b (VirtualNode.to_index v) true) vs (BitmapBuilder.zeroed count);
  Ret (BitmapBuilder.finish b).

(** One vnode watermark of a stale epoch: keep the vnodes not covered by later epochs. *)
Definition restrict_step (acc : option nat * gset nat * list VnodeWatermark.t)
    (w : VnodeWatermark.t) : outcome (option nat * gset nat * list VnodeWatermark.t) :=
  let '(vc, set, new_vnode_watermarks) := acc in
  let vc := get_or_insert vc (VnodeWatermark.vnode_count w) in
  let '(set, new_set_vnode) :=
    insert_new set (VnodeBitmapExt.iter_vnodes (VnodeWatermark.vnode_bitmap w)) in
  if bool_decide (new_set_vnode = []) then Ret (vc, set, new_vnode_watermarks)
  else
    bitmap ← bitmap_of (VnodeWatermark.vnode_count w) new_set_vnode;
    Ret (vc, set, new_vnode_watermarks ++ [VnodeWatermark.mk bitmap (VnodeWatermark.watermark w)]).

(** Append to the entry of [safe_epoch] at the back of the result, or push one. *)
Definition push_safe (safe_epoch : Z) (result : list EpochWatermarks)
    (new : list VnodeWatermark.t) : list EpochWatermarks :=
  if bool_decide (new = []) then result
  else match last result with
       | Some (last_epoch, last_watermarks) =>
           if last_epoch =? safe_epoch
           then <[ (length result - 1)%nat := (last_epoch, last_watermarks ++ new) ]> result
           else result ++ [(safe_epoch, new)]
       | None => result ++ [(safe_epoch, new)]
       end.

(** The second loop over the stale epochs, latest first. *)
Fixpoint merge_stale (safe_epoch : Z) (rev_ws : list EpochWatermarks) (s : clear_state)
  : outcome clear_state :=
  if match cs_vnode_count s with
     | Some vnode_count => negb (size (cs_set_vnode s) =? vnode_count)%nat
     | None => true
     end
  then match rev_ws with
       | [] => Ret s
       | (_, ws) :: rest =>
           '(vc, set, new) ← rfold restrict_step ws (cs_vnode_count s, cs_set_vnode s, []);
           merge_stale safe_epoch rest (mk_clear vc set (push_safe safe_epoch (cs_result s) new))
       end
  else Ret s.

Definition clear_stale_epoch_watermark (self : t) (safe_epoch : Z) : outcome t :=
  match head (watermarks self) with
  | None => Ret self
  | Some (earliest_epoch, _) =>
      if safe_epoch <=? earliest_epoch then Ret self
      else
        let '(rest, s) := keep_safe safe_epoch (reverse (watermarks self)) (mk_clear None ∅ []) in
        s ← merge_stale safe_epoch rest s;
        let result := reverse (cs_result s) in
        _ ← rassert (is_sorted_lt result);
        Ret (mk result (direction self))
  end.

End TableWatermarks.

(** [merge_multiple_new_table_watermarks] *)
Module MergeWatermarks.

(** [BTreeMap<u64, Vec<VnodeWatermark>>] as its sorted entries: extend the entry of [epoch]. *)
Fixpoint extend_epoch (epoch : Z) (new : list VnodeWatermark.t) (m : list EpochWatermarks)
  : list EpochWatermarks :=
  match m with
  | [] => [(epoch, new)]
  | (e, ws) :: m' =>
      if epoch <? e then (epoch, new) :: m
      else if epoch =? e then (e, ws ++ new) :: m'
      else (e, ws) :: extend_epoch epoch new m'
  end.

Definition merge_table (ret : gmap Z TableWatermarks.t) (e : Z * TableWatermarks.t)
  : outcome (gmap Z TableWatermarks.t) :=
  let '(table_id, new) := e in
  '(dir, epoch_watermarks) ←
    match ret !! table_id with
    | Some tw =>
        _ ← rassert (bool_decide (TableWatermarks.direction new = TableWatermarks.direction tw));
        Ret (TableWatermarks.direction tw, TableWatermarks.watermarks tw)
    | None => Ret (TableWatermarks.direction new, [])
    end;
  let merged := foldl (λ m '(epoch, ws), extend_epoch epoch ws m) epoch_watermarks
                  (TableWatermarks.watermarks new) in
  Ret (<[ table_id := TableWatermarks.mk merged dir ]> ret).

(** Each hash map is given by its entries in its iteration order. *)
Definition merge_multiple_new_table_watermarks (l : list (list (Z * TableWatermarks.t)))
  : outcome (gmap Z TableWatermarks.t) :=
  rfold merge_table (mjoin l) ∅.

End MergeWatermarks.

Module TableWatermarksIndex.

Record t := mk {
  watermark_direction : WatermarkDirection.t;
  staging_watermarks : list EpochWatermarks;
  committed_watermarks : option TableWatermarks.t;
  latest_epoch : Z;
  committed_epoch : option Z
}.

Definition new (dir : WatermarkDirection.t) (first_epoch : Z)
    (first_vnode_watermark : list VnodeWatermark.t) (committed_epoch : option Z) : outcome t :=
  _ ← match committed_epoch with
      | Some committed_epoch => rassert (committed_epoch <? first_epoch)
      | None => Ret tt
      end;
  Ret (mk dir [(first_epoch, first_vnode_watermark)] None first_epoch committed_epoch).

Definition new_committed (committed_watermarks : TableWatermarks.t) (committed_epoch : Z) : t :=
  mk (TableWatermarks.direction committed_watermarks) [] (Some committed_watermarks)
     committed_epoch (Some committed_epoch).

(** The inner loop of [read_watermark]: the first watermark whose bitmap has the vnode. *)
Fixpoint first_match (vnode : VirtualNode.t) (ws : list VnodeWatermark.t)
  : outcome (option (list byte)) :=
  match ws with
  | [] => Ret None
  | w :: ws' =>
      b ← Bitmap.is_set (VnodeWatermark.vnode_bitmap w) (VirtualNode.to_index vnode);
      if (b : bool) then Ret (Some (VnodeWatermark.watermark w)) else first_match vnode ws'
  end.

(** The outer loop, over entries from new epoch to old epoch. *)
Fixpoint read_entries (vnode : VirtualNode.t) (epoch : Z) (l : list EpochWatermarks)
  : outcome (option (list byte)) :=
  match l with
  | [] => Ret None
  | (watermark_epoch, ws) :: l' =>
      if epoch <? watermark_epoch then read_entries vnode epoch l'
      else
        r ← first_match vnode ws;
        match r with
        | Some w => Ret (Some w)
        | None => read_entries vnode epoch l'
        end
  end.

(** The entries in the order they are read. *)
Definition read_order (self : t) : list EpochWatermarks :=
  reverse (staging_watermarks self) ++
  match committed_watermarks self with
  | Some tw => reverse (TableWatermarks.watermarks tw)
  | None => []
  end.

Definition read_watermark (self : t) (vnode : VirtualNode.t) (epoch : Z)
  : outcome (option (list byte)) :=
  read_entries vnode epoch (read_order self).

Definition latest_watermark (self : t) (vnode : VirtualNode.t) : outcome (option (list byte)) :=
  read_watermark self vnode u64_max.

Definition rewrite_range_with_table_watermark (self : t) (epoch : Z) (key_range : TableKeyRange)
  : outcome TableKeyRange :=
  vnode ← Key.vnode key_range;
  watermark ← read_watermark self vnode epoch;
  match watermark with
  | None => Ret key_range
  | Some watermark =>
      let watermark_key := Key.prefix_slice_with_vnode vnode watermark in
      match watermark_direction self with
      | WatermarkDirection.Ascending =>
          overwrite_start_key ← match key_range.1 with
                                | Included start_key | Excluded start_key =>
                                    k ← TableKey.key_part start_key; Ret (bytes_ltb k watermark)
                                | Unbounded => Ret true
                                end;
          if (overwrite_start_key : bool) then
            let fully_filtered := match key_range.2 with
                                  | Included end_key => bytes_ltb end_key watermark_key
                                  | Excluded end_key => bytes_leb end_key watermark_key
                                  | Unbounded => false
                                  end in
            Ret (Included watermark_key,
                 if fully_filtered : bool then Excluded watermark_key else key_range.2)
          else Ret key_range
      | WatermarkDirection.Descending =>
          overwrite_end_key ← match key_range.2 with
                              | Included end_key | Excluded end_key =>
                                  k ← TableKey.key_part end_key; Ret (bytes_ltb watermark k)
                              | Unbounded => Ret true
                              end;
          if (overwrite_end_key : bool) then
            let fully_filtered := match key_range.1 with
                                  | Included start_key => bytes_ltb watermark_key start_key
                                  | Excluded start_key => bytes_leb watermark_key start_key
                                  | Unbounded => false
                                  end in
            if fully_filtered : bool then Ret (Included watermark_key, Excluded watermark_key)
            else Ret (key_range.1, Included watermark_key)
          else Ret key_range
      end
  end.

(** The vnodes of [watermark] whose latest watermark would regress. *)
Definition regress_step (self : t) (w : VnodeWatermark.t) (acc : option BitmapBuilder.t)
    (vnode : VirtualNode.t) : outcome (option BitmapBuilder.t) :=
  prev ← latest_watermark self vnode;
  match prev with
  | Some prev_watermark =>
      let is_regress := match watermark_direction self with
                        | WatermarkDirection.Ascending =>
                            bytes_ltb (VnodeWatermark.watermark w) prev_watermark
                        | WatermarkDirection.Descending =>
                            bytes_ltb prev_watermark (VnodeWatermark.watermark w)
                        end in
      if is_regress : bool then
        let b := default (BitmapBuilder.zeroed (VnodeWatermark.vnode_count w)) acc in
        b ← BitmapBuilder.set b (VirtualNode.to_index vnode) true;
        Ret (Some b)
      else Ret acc
  | None => Ret acc
  end.

Definition keep_step (w : VnodeWatermark.t) (regress_vnodes : BitmapBuilder.t)
    (acc : option BitmapBuilder.t) (vnode : VirtualNode.t) : outcome (option BitmapBuilder.t) :=
  regressed ← BitmapBuilder.is_set regress_vnodes (VirtualNode.to_index vnode);
  if negb regressed then
    let b := default (BitmapBuilder.zeroed (VnodeWatermark.vnode_count w)) acc in
    b ← BitmapBuilder.set b (VirtualNode.to_index vnode) true;
    Ret (Some b)
  else Ret acc.

Definition filter_one (self : t) (w : VnodeWatermark.t) : outcome (list VnodeWatermark.t) :=
  let vnodes := VnodeBitmapExt.iter_vnodes (VnodeWatermark.vnode_bitmap w) in
  regress_vnodes ← rfold (regress_step self w) vnodes None;
  match regress_vnodes with
  | Some regress_vnodes =>
      bitmap_builder ← rfold (keep_step w regress_vnodes) vnodes None;
      match bitmap_builder with
      | Some b => Ret [VnodeWatermark.mk (BitmapBuilder.finish b) (VnodeWatermark.watermark w)]
      | None => Ret []
      end
  | None => Ret [w]
  end.

Definition filter_regress_watermarks (self : t) (watermarks : list VnodeWatermark.t)
  : outcome (list VnodeWatermark.t) :=
  rets ← rmap (filter_one self) watermarks; Ret (concat rets).

Definition add_epoch_watermark (self : t) (epoch : Z) (vnode_watermark_list : list VnodeWatermark.t)
    (direction : WatermarkDirection.t) : outcome t :=
  _ ← rassert (latest_epoch self <? epoch);
  _ ← rassert (bool_decide (watermark_direction self = direction));
  Ret (mk (watermark_direction self)
          (staging_watermarks self ++ [(epoch, vnode_watermark_list)])
          (committed_watermarks self) epoch (committed_epoch self)).

(** Pop the staging entries that are committed. *)
Fixpoint drop_committed (committed_epoch : Z) (l : list EpochWatermarks) : list EpochWatermarks :=
  match l with
  | (old_epoch, ws) :: l' => if old_epoch <=? committed_epoch then drop_committed committed_epoch l' else l
  | [] => []
  end.

Definition apply_committed_watermarks (self : t) (committed_watermark : TableWatermarks.t)
    (new_committed_epoch : Z) : outcome t :=
  _ ← rassert (bool_decide (watermark_direction self = TableWatermarks.direction committed_watermark));
  _ ← match committed_epoch self with
      | Some prev_committed_epoch => rassert (prev_committed_epoch <=? new_committed_epoch)
      | None => Ret tt
      end;
  if bool_decide (committed_epoch self = Some new_committed_epoch) then Ret self
  else
    Ret (mk (watermark_direction self)
            (drop_committed new_committed_epoch (staging_watermarks self))
            (Some committed_watermark)
            (if latest_epoch self <? new_committed_epoch then new_committed_epoch else latest_epoch self)
            (Some new_committed_epoch)).

End TableWatermarksIndex.
