(* ===== verification/WatermarkSpec.v ===== *)
(** * Reading and clearing table watermarks

    The watermark a read sees, as a function of the epoch entries; what
    [clear_stale_epoch_watermark] preserves of it; the invariant of the watermark index; and
    merging and protobuf conversion ([Watermark.v]). *)

From Stdlib Require Import ZArith Lia.
From stdpp Require Import gmap.
From S2P Require Import Prelude Order Bytes Epoch Bits Bitmap BitmapSpec BitmapAlgebra.
From S2P Require Import BitmapIterSpec Vnode Key Watermark.

Implicit Types (v : nat) (e : Z) (ws : list VnodeWatermark.t) (l : list EpochWatermarks).

(** ** Well-formedness and the pure reading function *)

(** A vnode watermark over [n] vnodes. *)
Definition wm_ok (n : nat) (w : VnodeWatermark.t) : Prop :=
  bitmap_ok (VnodeWatermark.vnode_bitmap w) ∧ VnodeWatermark.vnode_count w = n.

Definition entries_ok (n : nat) (l : list EpochWatermarks) : Prop :=
  Forall (λ entry : EpochWatermarks, Forall (wm_ok n) entry.2) l.

(** The vnode is set in the watermark's bitmap. *)
Definition has (v : nat) (w : VnodeWatermark.t) : bool :=
  default false (view (VnodeWatermark.vnode_bitmap w) !! v).

Definition covers (v : nat) ws : bool := existsb (has v) ws.

Definition orelse {A} (x y : option A) : option A := match x with Some _ => x | None => y end.

Fixpoint match_pure (v : nat) ws : option (list byte) :=
  match ws with
  | [] => None
  | w :: ws' => if has v w then Some (VnodeWatermark.watermark w) else match_pure v ws'
  end.

(** Entries are given latest first. *)
Fixpoint read_pure (v : nat) (e : Z) l : option (list byte) :=
  match l with
  | [] => None
  | (e', ws) :: l' =>
      if (e <? e')%Z then read_pure v e l' else orelse (match_pure v ws) (read_pure v e l')
  end.

Lemma first_match_ok n v ws :
  Forall (wm_ok n) ws → v < n → TableWatermarksIndex.first_match v ws = Ret (match_pure v ws).
Proof.
  intros Hws Hv. induction Hws as [|w ws [Hb Hn] Hws IH]; [done|]. simpl.
  unfold VirtualNode.to_index, has, VnodeWatermark.vnode_count, Bitmap.len in *.
  unfold Bitmap.is_set. rewrite (proj2 (Nat.ltb_lt _ _)) by (unfold Bitmap.len; lia).
  cbn [rassert mbind outcome_bind]. rewrite lookup_view by lia. simpl.
  by destruct (Bitmap.is_set_unchecked _ v).
Qed.

Lemma read_entries_ok n v e l :
  entries_ok n l → v < n → TableWatermarksIndex.read_entries v e l = Ret (read_pure v e l).
Proof.
  intros Hl Hv. induction Hl as [|[e' ws] l Hws Hl IH]; [done|]. simpl.
  destruct (e <? e')%Z; [done|]. rewrite (first_match_ok n) by done. simpl.
  by destruct (match_pure v ws).
Qed.

Lemma match_pure_covers v ws : match_pure v ws = None ↔ covers v ws = false.
Proof.
  induction ws as [|w ws IH]; [done|]. simpl. by destruct (has v w).
Qed.

Lemma match_pure_app v ws1 ws2 : match_pure v (ws1 ++ ws2) = orelse (match_pure v ws1) (match_pure v ws2).
Proof. induction ws1 as [|w ws1 IH]; [done|]. simpl. by destruct (has v w). Qed.

Lemma read_pure_app v e l1 l2 :
  read_pure v e (l1 ++ l2) = orelse (read_pure v e l1) (read_pure v e l2).
Proof.
  induction l1 as [|[e' ws] l1 IH]; [done|]. simpl.
  destruct (e <? e')%Z; [done|]. rewrite IH. by destruct (match_pure v ws).
Qed.

Lemma orelse_None {A} (x : option A) : orelse x None = x.
Proof. by destruct x. Qed.

Lemma orelse_assoc {A} (x y z : option A) : orelse (orelse x y) z = orelse x (orelse y z).
Proof. by destruct x. Qed.

(** Some entry covers the vnode. *)
Definition covered (v : nat) l : bool := existsb (λ entry : EpochWatermarks, covers v entry.2) l.

Lemma covered_app v l1 l2 : covered v (l1 ++ l2) = covered v l1 || covered v l2.
Proof. apply existsb_app. Qed.

Lemma read_pure_uncovered v e l : covered v l = false → read_pure v e l = None.
Proof.
  induction l as [|[e' ws] l IH]; [done|]. simpl. intros [Hws Hl]%orb_false_iff.
  rewrite IH by done. destruct (e <? e')%Z; [done|].
  by rewrite (proj2 (match_pure_covers v ws)).
Qed.

Lemma read_pure_covered v e l :
  covered v l = true → Forall (λ entry : EpochWatermarks, (entry.1 ≤ e)%Z) l →
  read_pure v e l ≠ None.
Proof.
  intros Hc Hl. induction Hl as [|[e' ws] l He Hl IH]; [done|]. simpl in *.
  rewrite (proj2 (Z.ltb_ge _ _)) by done. destruct (match_pure v ws) eqn:E; [done|]. simpl.
  apply IH. apply match_pure_covers in E. by rewrite E in Hc.
Qed.

(** Reads at two epochs that are both past all the entries agree. *)
Lemma read_pure_epoch v e1 e2 l :
  Forall (λ entry : EpochWatermarks, (entry.1 ≤ e1)%Z ∧ (entry.1 ≤ e2)%Z) l →
  read_pure v e1 l = read_pure v e2 l.
Proof.
  induction 1 as [|[e' ws] l [H1 H2] Hl IH]; [done|]. simpl in *.
  rewrite !(proj2 (Z.ltb_ge _ _)) by done. by rewrite IH.
Qed.

(** ** Vnode sets *)

Lemma iter_vnodes_ok b :
  bitmap_ok b → (Z.of_nat (Bitmap.num_bits b) ≤ 2 ^ 16)%Z →
  VnodeBitmapExt.iter_vnodes b = ones_at 0 (view b).
Proof.
  intros Hb Hn. unfold VnodeBitmapExt.iter_vnodes. rewrite iter_ones_ok by done.
  rewrite <-(list_fmap_id (ones_at 0 (view b))) at 2. apply list_fmap_ext.
  intros _ i Hi%list_elem_of_lookup_2%elem_of_ones_at. rewrite Nat.sub_0_r in Hi.
  destruct Hi as [_ Hi%lookup_lt_Some]. rewrite length_view in Hi.
  unfold VirtualNode.from_index. rewrite wrap_small by (split; lia). apply Nat2Z.id.
Qed.

Lemma elem_of_iter_vnodes n w v :
  wm_ok n w → (Z.of_nat n ≤ 2 ^ 16)%Z →
  v ∈ VnodeBitmapExt.iter_vnodes (VnodeWatermark.vnode_bitmap w) ↔ has v w = true.
Proof.
  intros [Hb Hn] Hle. unfold VnodeWatermark.vnode_count, Bitmap.len in Hn.
  rewrite iter_vnodes_ok by (done || lia). rewrite elem_of_ones_at, Nat.sub_0_r. unfold has.
  destruct (view _ !! v) as [[]|]; naive_solver lia.
Qed.

Lemma has_lt n w v : wm_ok n w → has v w = true → v < n.
Proof.
  intros [_ Hn]. unfold has. destruct (view _ !! v) eqn:E; [|done]. intros _.
  apply lookup_lt_Some in E. rewrite length_view in E.
  unfold VnodeWatermark.vnode_count, Bitmap.len in Hn. lia.
Qed.

Lemma covers_lt n ws v : Forall (wm_ok n) ws → covers v ws = true → v < n.
Proof.
  intros Hws (w & Hin & Hw)%existsb_exists. rewrite Forall_forall in Hws.
  eapply has_lt; [|done]. apply Hws. by apply list_elem_of_In.
Qed.

Lemma covered_lt n l v : entries_ok n l → covered v l = true → v < n.
Proof.
  intros Hl (entry & Hin & Hc)%existsb_exists. unfold entries_ok in Hl. rewrite Forall_forall in Hl.
  eapply covers_lt; [|done]. apply Hl. by apply list_elem_of_In.
Qed.

Lemma elem_of_foldl_insert (s : gset nat) vs v :
  v ∈ foldl (λ set x, {[ x ]} ∪ set) s vs ↔ v ∈ s ∨ v ∈ vs.
Proof.
  revert s; induction vs as [|x vs IH]; intros s; simpl.
  - rewrite elem_of_nil. tauto.
  - rewrite IH, elem_of_union, elem_of_singleton, elem_of_cons. tauto.
Qed.

Lemma insert_new_ok set vs :
  let '(set', new) := TableWatermarks.insert_new set vs in
  (∀ v, v ∈ set' ↔ v ∈ set ∨ v ∈ vs) ∧ (∀ v, v ∈ new ↔ v ∈ vs ∧ v ∉ set).
Proof.
  unfold TableWatermarks.insert_new.
  induction vs as [|x vs IH] using rev_ind; simpl.
  { split; intros v; rewrite elem_of_nil; tauto. }
  rewrite foldl_app. destruct (foldl _ (set, []) vs) as [set' new]. destruct IH as [H1 H2]. simpl.
  destruct (decide (x ∈ set')) as [Hx|Hx]; split; intros v;
    rewrite ?elem_of_union, ?elem_of_app, ?elem_of_singleton, ?list_elem_of_singleton, ?H1, ?H2 in *;
    destruct (decide (v = x)); subst; naive_solver.
Qed.

Lemma bitmap_of_ok count vs :
  Forall (λ v, v < count) vs →
  ∃ b, TableWatermarks.bitmap_of count vs = Ret b ∧ bitmap_ok b ∧ Bitmap.num_bits b = count ∧
    ∀ v, default false (view b !! v) = bool_decide (v ∈ vs).
Proof.
  intros Hvs. unfold TableWatermarks.bitmap_of.
  destruct (rfold_inv (λ b (v : VirtualNode.t), BitmapBuilder.set b (VirtualNode.to_index v) true)
    (λ dn b, builder_ok b ∧ BitmapBuilder.len b = count ∧
       ∀ v, default false (builder_view b !! v) = bool_decide (v ∈ dn)) vs (BitmapBuilder.zeroed count))
    as (b & -> & Hb & Hlen & Hv).
  - destruct (zeroed_ok count) as [H1 H2]. split_and!; [done..|]. intros v. rewrite H2.
    rewrite bool_decide_false by apply not_elem_of_nil.
    destruct (replicate count false !! v) eqn:E; [|done]. by apply lookup_replicate in E as [-> _].
  - intros dn v todo b -> (Hb & Hlen & Hv). apply Forall_app in Hvs as [_ [Hlt _]%Forall_cons].
    destruct (set_ok b v true) as (b' & Hs & Hb' & Hlen' & Hv'); [done|lia|].
    exists b'. split_and!; [done..|congruence|]. intros x. rewrite Hv'.
    destruct (decide (x = v)) as [->|Hne].
    + rewrite list_lookup_insert_eq by (rewrite length_builder_view; lia). simpl.
      symmetry. apply bool_decide_eq_true, elem_of_app. right. by left.
    + rewrite list_lookup_insert_ne, Hv by done. apply bool_decide_ext.
      rewrite elem_of_app, list_elem_of_singleton. naive_solver.
  - destruct (finish_ok b Hb) as [H1 H2]. eexists. split_and!; [done|done| |].
    + rewrite <-length_view, H2, length_builder_view. done.
    + intros v. by rewrite H2.
Qed.

(** ** [clear_stale_epoch_watermark] *)

Definition vc_ok (n : nat) (o : option nat) : Prop := o = None ∨ o = Some n.

Lemma get_or_insert_ok n o : vc_ok n o → TableWatermarks.get_or_insert o n = Some n.
Proof. by intros [-> | ->]. Qed.

Lemma keep_one_ok n ws s :
  Forall (wm_ok n) ws → (Z.of_nat n ≤ 2 ^ 16)%Z → vc_ok n (TableWatermarks.cs_vnode_count s) →
  let s' := foldl (λ s w,
    TableWatermarks.mk_clear
      (TableWatermarks.get_or_insert (TableWatermarks.cs_vnode_count s) (VnodeWatermark.vnode_count w))
      (foldl (λ set v, {[ v ]} ∪ set) (TableWatermarks.cs_set_vnode s)
         (VnodeBitmapExt.iter_vnodes (VnodeWatermark.vnode_bitmap w)))
      (TableWatermarks.cs_result s)) s ws in
  vc_ok n (TableWatermarks.cs_vnode_count s') ∧
  TableWatermarks.cs_result s' = TableWatermarks.cs_result s ∧
  ∀ v, v ∈ TableWatermarks.cs_set_vnode s' ↔ v ∈ TableWatermarks.cs_set_vnode s ∨ covers v ws = true.
Proof.
  intros Hws Hn. revert s. induction Hws as [|w ws Hw Hws IH]; intros s Hvc; simpl.
  { split_and!; [done..|]. intros v. naive_solver. }
  match goal with |- context [foldl _ ?s1 ws] => destruct (IH s1) as (H1 & H2 & H3) end.
  - destruct Hw as [_ Hc]. simpl. rewrite Hc, get_or_insert_ok by done. by right.
  - split_and!; [done..|]. intros v. rewrite H3. simpl.
    rewrite elem_of_foldl_insert, (elem_of_iter_vnodes n), orb_true_iff by done. tauto.
Qed.

Lemma keep_safe_ok n safe l s :
  entries_ok n l → (Z.of_nat n ≤ 2 ^ 16)%Z → vc_ok n (TableWatermarks.cs_vnode_count s) →
  ∃ kept rest s', TableWatermarks.keep_safe safe l s = (rest, s') ∧ l = kept ++ rest ∧
    Forall (λ entry : EpochWatermarks, (safe ≤ entry.1)%Z) kept ∧
    match head rest with Some entry => (entry.1 < safe)%Z | None => True end ∧
    TableWatermarks.cs_result s' = TableWatermarks.cs_result s ++ kept ∧
    vc_ok n (TableWatermarks.cs_vnode_count s') ∧
    ∀ v, v ∈ TableWatermarks.cs_set_vnode s' ↔
         v ∈ TableWatermarks.cs_set_vnode s ∨ covered v kept = true.
Proof.
  intros Hl Hn. revert s; induction Hl as [|[e ws] l Hws Hl IH]; intros s Hvc; cbn [TableWatermarks.keep_safe].
  { exists [], [], s. split_and!; try done; [by rewrite app_nil_r|]. intros v. naive_solver. }
  destruct (Z.leb_spec safe e) as [He|He].
  - destruct (keep_one_ok n ws s Hws Hn Hvc) as (H1 & H2 & H3). cbv zeta in *.
    set (s1 := foldl _ s ws) in *.
    destruct (IH (TableWatermarks.mk_clear (TableWatermarks.cs_vnode_count s1)
      (TableWatermarks.cs_set_vnode s1) (TableWatermarks.cs_result s1 ++ [(e, ws)])) H1)
      as (kept & rest & s' & -> & -> & Hk & Hr & Hres & Hvc' & Hset).
    exists ((e, ws) :: kept), rest, s'. split_and!; try done.
    + by constructor.
    + rewrite Hres. simpl. by rewrite H2, <-app_assoc.
    + intros v. rewrite Hset. simpl. rewrite H3, orb_true_iff. tauto.
  - exists [], ((e, ws) :: l), s. split_and!; try done; [by rewrite app_nil_r|]. intros v. naive_solver.
Qed.

Lemma restrict_ok n ws vc set :
  Forall (wm_ok n) ws → (Z.of_nat n ≤ 2 ^ 16)%Z → vc_ok n vc →
  ∃ vc' set' new, rfold TableWatermarks.restrict_step ws (vc, set, []) = Ret (vc', set', new) ∧
    vc_ok n vc' ∧ (∀ v, v ∈ set' ↔ v ∈ set ∨ covers v ws = true) ∧ Forall (wm_ok n) new ∧
    ∀ v, match_pure v new = if decide (v ∈ set) then None else match_pure v ws.
Proof.
  intros Hws Hn Hvc.
  destruct (rfold_inv TableWatermarks.restrict_step (λ dn '(vc', set', new),
    vc_ok n vc' ∧ (∀ v, v ∈ set' ↔ v ∈ set ∨ covers v dn = true) ∧ Forall (wm_ok n) new ∧
    ∀ v, match_pure v new = if decide (v ∈ set) then None else match_pure v dn) ws (vc, set, []))
    as ([[vc' set'] new] & Hrun & H1 & H2 & H3 & H4); [| |by exists vc', set', new].
  - split_and!; [done| |constructor|by intros v; case_decide].
    intros v. split; [by left|by intros [|]].
  - intros dn w todo [[vc1 set1] new1] -> (Hvc1 & Hset1 & Hnew1 & Hm1).
    apply Forall_app in Hws as [_ [Hw _]%Forall_cons]. pose proof Hw as [Hb Hc].
    unfold TableWatermarks.restrict_step. rewrite Hc, get_or_insert_ok by done.
    pose proof (insert_new_ok set1 (VnodeBitmapExt.iter_vnodes (VnodeWatermark.vnode_bitmap w))) as Hins.
    destruct (TableWatermarks.insert_new _ _) as [set2 news]. destruct Hins as [Hs2 Hnews].
    setoid_rewrite (elem_of_iter_vnodes n w _ Hw Hn) in Hs2.
    setoid_rewrite (elem_of_iter_vnodes n w _ Hw Hn) in Hnews.
    assert (∀ v, v ∈ set2 ↔ v ∈ set ∨ covers v (dn ++ [w]) = true) as Hset2.
    { intros v. rewrite Hs2, Hset1. unfold covers. rewrite existsb_app. simpl.
      rewrite orb_true_iff, orb_false_r. tauto. }
    assert (∀ v, match_pure v (dn ++ [w]) =
      orelse (match_pure v dn) (if has v w then Some (VnodeWatermark.watermark w) else None)) as Hma.
    { intros v. rewrite match_pure_app. done. }
    assert (∀ v, v ∉ set → match_pure v dn = None → v ∉ set1) as Hfresh.
    { intros v Hv Hcv%match_pure_covers. rewrite Hset1, Hcv. by intros [|]. }
    case_bool_decide as Hnil; [|destruct (bitmap_of_ok n news) as (b & -> & Hbok & Hbn & Hbv)].
    + eexists. split; [done|]. simpl. split_and!; [by right|done|done|]. intros v.
      rewrite Hm1, Hma. case_decide as Hv; [done|].
      destruct (match_pure v dn) eqn:E; [done|]. destruct (has v w) eqn:Eh; [|done]. exfalso.
      apply (not_elem_of_nil v). rewrite <-Hnil. apply Hnews. split; [done|]. by apply Hfresh.
    + apply Forall_forall. intros v [Hv _]%Hnews. by eapply has_lt.
    + eexists. split; [done|]. simpl. split_and!; [by right|done| |].
      * apply Forall_app. split; [done|]. constructor; [|done]. split; [done|]. exact Hbn.
      * intros v. rewrite match_pure_app, Hm1, Hma. simpl. unfold has at 1. simpl. rewrite Hbv.
        case_decide as Hv.
        { rewrite bool_decide_false; [done|]. intros [_ Hn1]%Hnews. apply Hn1, Hset1. by left. }
        destruct (match_pure v dn) eqn:E; [done|]. simpl.
        destruct (has v w) eqn:Eh.
        -- rewrite bool_decide_true; [done|]. apply Hnews. split; [done|]. by apply Hfresh.
        -- rewrite bool_decide_false; [done|]. intros [? _]%Hnews. congruence.
Qed.

(** ** Sorted epochs *)

Lemma Forall_epochs (P : Z → Prop) l :
  Forall P l.*1 ↔ Forall (λ entry : EpochWatermarks, P entry.1) l.
Proof. apply Forall_fmap. Qed.

Lemma sorted_rev (l : list Z) : StronglySorted Z.gt l → StronglySorted Z.lt (reverse l).
Proof.
  induction 1 as [|x l Hl IH Hx]; [constructor|]. rewrite reverse_cons.
  apply StronglySorted_app_2; [|done|repeat constructor].
  intros y z Hy Hz%list_elem_of_singleton. rewrite elem_of_reverse in Hy. subst.
  rewrite Forall_forall in Hx. specialize (Hx y Hy). lia.
Qed.

Lemma sorted_rev' (l : list Z) : StronglySorted Z.lt l → StronglySorted Z.gt (reverse l).
Proof.
  induction 1 as [|x l Hl IH Hx]; [constructor|]. rewrite reverse_cons.
  apply StronglySorted_app_2; [|done|repeat constructor].
  intros y z Hy Hz%list_elem_of_singleton. rewrite elem_of_reverse in Hy. subst.
  rewrite Forall_forall in Hx. specialize (Hx y Hy). lia.
Qed.

Lemma is_sorted_lt_ok l : StronglySorted Z.lt l.*1 → TableWatermarks.is_sorted_lt l = true.
Proof.
  induction l as [|[e1 ws1] l IH]; [done|]. rewrite fmap_cons, StronglySorted_cons.
  intros [Hx Hl]. specialize (IH Hl). destruct l as [|[e2 ws2] l]; [done|].
  rewrite fmap_cons in Hx. apply Forall_cons in Hx as [Hx _].
  cbn [TableWatermarks.is_sorted_lt]. apply andb_true_iff. split; [by apply Z.ltb_lt|exact IH].
Qed.

(** [push_safe] adds the watermarks behind the others of [safe_epoch]. *)
Lemma push_safe_ok n safe l new :
  entries_ok n l → Forall (wm_ok n) new →
  StronglySorted Z.gt l.*1 → Forall (λ e, (safe ≤ e)%Z) l.*1 →
  let l' := TableWatermarks.push_safe safe l new in
  entries_ok n l' ∧ StronglySorted Z.gt l'.*1 ∧ Forall (λ e, (safe ≤ e)%Z) l'.*1 ∧
  ∀ v e, (safe ≤ e)%Z → read_pure v e l' = orelse (read_pure v e l) (match_pure v new).
Proof.
  intros Hl Hnew Hs Hsafe. unfold TableWatermarks.push_safe. case_bool_decide as Hnil.
  { subst. split_and!; [done..|]. intros v e _. simpl. by rewrite orelse_None. }
  assert (∀ e ws v, (safe ≤ e)%Z → read_pure v e [(safe, ws)] = match_pure v ws) as Hone.
  { intros e ws v He. simpl. rewrite (proj2 (Z.ltb_ge _ _)) by done. apply orelse_None. }
  destruct (last l) as [[le lws]|] eqn:Hlast.
  2: { apply last_None in Hlast as ->. split_and!.
       - by repeat constructor.
       - repeat constructor.
       - by repeat constructor.
       - intros v e He. cbn [app]. by rewrite Hone. }
  apply last_Some in Hlast as [l0 ->]. unfold entries_ok in Hl. rewrite fmap_app in *.
  apply Forall_app in Hl as [Hl0 [Hlws _]%Forall_cons].
  destruct (Z.eqb_spec le safe) as [->|Hne].
  - replace (length (l0 ++ [(safe, lws)]) - 1) with (length l0 + 0)
      by (rewrite length_app; simpl; lia).
    rewrite insert_app_r. simpl. split_and!.
    + apply Forall_app. split; [done|]. constructor; [|done]. by apply Forall_app.
    + by rewrite fmap_app.
    + by rewrite fmap_app.
    + intros v e He. rewrite !read_pure_app, !Hone, match_pure_app, orelse_assoc by done. done.
  - split_and!.
    + apply Forall_app. split; [apply Forall_app; split; [done|by repeat constructor]|by repeat constructor].
    + rewrite !fmap_app. apply StronglySorted_app_2; [|done|repeat constructor].
      intros x y Hx Hy%list_elem_of_singleton. simpl in Hy. subst.
      assert (safe < le)%Z as Hle.
      { apply Forall_app in Hsafe as [_ [Hle _]%Forall_cons]. simpl in Hle. lia. }
      apply elem_of_app in Hx as [Hx|Hx%list_elem_of_singleton]; [|simpl in Hx; lia].
      pose proof (StronglySorted_app_1_elem_of _ _ _ x le Hs Hx ltac:(by left)). lia.
    + rewrite !fmap_app. apply Forall_app. split; [done|]. by repeat constructor.
    + intros v e He. by rewrite (read_pure_app v e (l0 ++ _)), Hone by done.
Qed.

Lemma full_set (s : gset nat) n : (∀ v, v ∈ s → v < n) → size s = n → ∀ v, v < n → v ∈ s.
Proof.
  intros Hlt Hsize v Hv. apply elem_of_elements.
  assert (elements s ≡ₚ seq 0 n) as ->; [|apply elem_of_seq; lia].
  apply submseteq_length_Permutation.
  - apply NoDup_submseteq; [apply NoDup_elements|]. intros x Hx%elem_of_elements%Hlt.
    apply elem_of_seq. lia.
  - rewrite length_seq. change (length (elements s)) with (size s). lia.
Qed.

(** What the state of the clearing loops means after the epochs [kept] (from [safe] on) and
    the stale epochs [dn], all latest first. *)
Record clear_inv (n : nat) (safe : Z) kept dn (s : TableWatermarks.clear_state) : Prop := {
  ci_vc : vc_ok n (TableWatermarks.cs_vnode_count s);
  ci_set : ∀ v, v ∈ TableWatermarks.cs_set_vnode s ↔ covered v kept = true ∨ covered v dn = true;
  ci_ok : entries_ok n (TableWatermarks.cs_result s);
  ci_sorted : StronglySorted Z.gt (TableWatermarks.cs_result s).*1;
  ci_safe : Forall (λ e, (safe ≤ e)%Z) (TableWatermarks.cs_result s).*1;
  ci_read : ∀ v e, (safe ≤ e)%Z →
    read_pure v e (TableWatermarks.cs_result s) =
    if covered v kept then read_pure v e kept else read_pure v e dn
}.

Lemma merge_stale_step n safe kept dn s e0 ws :
  clear_inv n safe kept dn s → Forall (wm_ok n) ws → (Z.of_nat n ≤ 2 ^ 16)%Z → (e0 < safe)%Z →
  Forall (λ entry : EpochWatermarks, (entry.1 < safe)%Z) dn →
  ∃ vc set new, rfold TableWatermarks.restrict_step ws
      (TableWatermarks.cs_vnode_count s, TableWatermarks.cs_set_vnode s, []) = Ret (vc, set, new) ∧
    clear_inv n safe kept (dn ++ [(e0, ws)]) (TableWatermarks.mk_clear vc set
      (TableWatermarks.push_safe safe (TableWatermarks.cs_result s) new)).
Proof.
  intros [Hvc Hset Hok Hs Hsafe Hread] Hws Hn He0 Hdn.
  destruct (restrict_ok n ws _ (TableWatermarks.cs_set_vnode s) Hws Hn Hvc)
    as (vc & set & new & Hrun & Hvc' & Hset' & Hnew & Hm).
  exists vc, set, new. split; [done|].
  destruct (push_safe_ok n safe _ new Hok Hnew Hs Hsafe) as (H1 & H2 & H3 & H4).
  constructor; simpl; try done.
  - intros v. rewrite Hset', Hset, covered_app, orb_true_iff. simpl. rewrite orb_false_r. tauto.
  - intros v e He. rewrite H4, Hread, Hm by done. rewrite read_pure_app. simpl.
    rewrite (proj2 (Z.ltb_ge _ _)), orelse_None by lia.
    destruct (covered v kept) eqn:Ek.
    + rewrite decide_True, orelse_None; [done|]. apply Hset. by left.
    + case_decide as Hv; [|done]. apply Hset in Hv as [?|Hv]; [congruence|].
      destruct (read_pure v e dn) eqn:Er; [done|]. exfalso.
      eapply read_pure_covered; [exact Hv| |exact Er]. eapply Forall_impl; [exact Hdn|]. simpl. lia.
Qed.

Lemma merge_stale_ok n safe kept dn rest s :
  clear_inv n safe kept dn s → entries_ok n kept → entries_ok n dn → entries_ok n rest →
  (Z.of_nat n ≤ 2 ^ 16)%Z →
  Forall (λ entry : EpochWatermarks, (entry.1 < safe)%Z) (dn ++ rest) →
  ∃ s', TableWatermarks.merge_stale safe rest s = Ret s' ∧
    entries_ok n (TableWatermarks.cs_result s') ∧
    StronglySorted Z.gt (TableWatermarks.cs_result s').*1 ∧
    Forall (λ e, (safe ≤ e)%Z) (TableWatermarks.cs_result s').*1 ∧
    ∀ v e, v < n → (safe ≤ e)%Z →
      read_pure v e (TableWatermarks.cs_result s') =
      if covered v kept then read_pure v e kept else read_pure v e (dn ++ rest).
Proof.
  intros Hinv Hk Hd Hr Hn Hlt. revert dn s Hinv Hd Hlt.
  induction Hr as [|[e0 ws] rest Hws Hr IH]; intros dn s Hinv Hd Hlt; cbn [TableWatermarks.merge_stale].
  - exists s. rewrite app_nil_r. destruct Hinv. split.
    { destruct (TableWatermarks.cs_vnode_count s) as [c|]; [by destruct (negb _)|done]. }
    split_and!; try done. intros v e _ He. by apply ci_read0.
  - destruct (match TableWatermarks.cs_vnode_count s with Some c => _ | None => true end) eqn:Ec.
    + apply Forall_app in Hlt as [Hdn [He0 Hrest]%Forall_cons]. simpl in He0.
      destruct (merge_stale_step n safe kept dn s e0 ws) as (vc & set & new & -> & Hinv'); [done..|].
      cbn [mbind outcome_bind]. destruct (IH (dn ++ [(e0, ws)]) _ Hinv') as (s' & Hs').
      * apply Forall_app. split; [done|]. by repeat constructor.
      * rewrite <-app_assoc. apply Forall_app. split; [done|]. by constructor.
      * exists s'. by rewrite <-app_assoc in Hs'.
    + exists s. destruct Hinv. split_and!; try done. intros v e Hv He. rewrite ci_read0 by done.
      destruct (covered v kept) eqn:Ek; [done|]. rewrite read_pure_app.
      assert (covered v dn = true) as Hcov.
      { destruct ci_vc0 as [E|E]; rewrite E in Ec; [done|]. apply negb_false_iff, Nat.eqb_eq in Ec.
        assert (v ∈ TableWatermarks.cs_set_vnode s) as Hin%ci_set0; [|destruct Hin as [?|?]; congruence].
        apply (full_set _ n); [|done|done]. intros x [?|?]%ci_set0; [by apply (covered_lt n kept)|by apply (covered_lt n dn)]. }
      destruct (read_pure v e dn) eqn:Er; [done|]. exfalso.
      eapply read_pure_covered; [exact Hcov| |exact Er].
      apply Forall_app in Hlt as [Hdn _]. eapply Forall_impl; [exact Hdn|]. simpl. lia.
Qed.

(** ** The invariant of a table's watermarks *)

Definition table_ok (n : nat) (tw : TableWatermarks.t) : Prop :=
  entries_ok n (TableWatermarks.watermarks tw) ∧ StronglySorted Z.lt (TableWatermarks.watermarks tw).*1.

(** The entries from [safe] on. *)
Definition from_epoch (safe : Z) l : list EpochWatermarks :=
  filter (λ entry : EpochWatermarks, (safe ≤ entry.1)%Z) l.

Lemma from_epoch_split safe kept rest :
  Forall (λ entry : EpochWatermarks, (safe ≤ entry.1)%Z) kept →
  Forall (λ entry : EpochWatermarks, (entry.1 < safe)%Z) rest →
  from_epoch safe (kept ++ rest) = kept.
Proof.
  intros Hk Hr. unfold from_epoch. induction Hk as [|x kept Hx Hk IH]; simpl.
  - induction Hr as [|x rest Hx Hr IH]; [done|]. by rewrite filter_cons_False by lia.
  - by rewrite filter_cons_True, IH by done.
Qed.

Lemma from_epoch_id safe l :
  Forall (λ entry : EpochWatermarks, (safe ≤ entry.1)%Z) l → from_epoch safe l = l.
Proof. intros Hl. rewrite <-(app_nil_r l) at 1. by rewrite from_epoch_split. Qed.

(** Sorted entries are on one side of the safe epoch when their first one is. *)
Lemma first_epoch_safe (l : list EpochWatermarks) safe e0 ws0 :
  StronglySorted Z.lt l.*1 → head l = Some (e0, ws0) → (safe ≤ e0)%Z → Forall (λ e, (safe ≤ e)%Z) l.*1.
Proof.
  intros Hs Hh Hle. destruct l as [|[e1 ws1] tl]; [done|]. injection Hh as -> ->. rewrite fmap_cons in *.
  apply StronglySorted_cons in Hs as [Hf _]. constructor; [done|]. eapply Forall_impl; [exact Hf|]. simpl. lia.
Qed.

(** Reading the cleared watermarks, in terms of the entries. *)
Lemma clear_stale_ok n tw safe :
  table_ok n tw → (Z.of_nat n ≤ 2 ^ 16)%Z →
  ∃ tw', TableWatermarks.clear_stale_epoch_watermark tw safe = Ret tw' ∧ table_ok n tw' ∧
    TableWatermarks.direction tw' = TableWatermarks.direction tw ∧
    Forall (λ e, (safe ≤ e)%Z) (TableWatermarks.watermarks tw').*1 ∧
    let l := reverse (TableWatermarks.watermarks tw) in
    ∀ v e, v < n → (safe ≤ e)%Z →
      read_pure v e (reverse (TableWatermarks.watermarks tw')) =
      if covered v (from_epoch safe l) then read_pure v e (from_epoch safe l) else read_pure v e l.
Proof.
  intros [Hok Hs] Hn. unfold TableWatermarks.clear_stale_epoch_watermark.
  set (l := reverse (TableWatermarks.watermarks tw)).
  assert (entries_ok n l) as Hokl by (by apply Forall_reverse).
  assert (StronglySorted Z.gt l.*1) as Hsl.
  { unfold l. rewrite fmap_reverse. by apply sorted_rev'. }
  destruct (head (TableWatermarks.watermarks tw)) as [[e0 ws0]|] eqn:Eh.
  2: { destruct (TableWatermarks.watermarks tw) eqn:Ew; [|done]. exists tw. split_and!; try done.
       - by split; rewrite Ew.
       - by rewrite Ew.
       - intros v e _ _. rewrite Ew. done. }
  destruct (Z.leb_spec safe e0) as [Hle|Hgt].
  { exists tw. pose proof (first_epoch_safe _ _ _ _ Hs Eh Hle) as Hall. split_and!; try done. intros v e _ _.
    unfold l. rewrite from_epoch_id by (by apply Forall_reverse, Forall_epochs). by destruct (covered v _). }
  destruct (keep_safe_ok n safe l (TableWatermarks.mk_clear None ∅ []) Hokl Hn)
    as (kept & rest & s & -> & Hl & Hk & Hr & Hres & Hvc & Hset); [by left|].
  rewrite Hl in Hokl, Hsl |- *. apply Forall_app in Hokl as [Hokk Hokr].
  assert (Forall (λ entry : EpochWatermarks, (entry.1 < safe)%Z) rest) as Hlt.
  { rewrite fmap_app in Hsl. apply StronglySorted_app_1_r in Hsl.
    destruct rest as [|[e1 ws1] rest']; [done|]. rewrite fmap_cons in Hsl.
    apply StronglySorted_cons in Hsl as [Hf _]. constructor; [done|].
    apply Forall_epochs in Hf. eapply Forall_impl; [exact Hf|]. simpl in *. lia. }
  simpl in Hres. rewrite fmap_app in Hsl. apply StronglySorted_app_1_l in Hsl.
  destruct (merge_stale_ok n safe kept [] rest s) as (s' & -> & H1 & H2 & H3 & H4); try done; [|by apply Forall_nil_2|].
  { constructor; simpl; rewrite ?Hres; try done.
    - intros v. rewrite Hset. simpl. rewrite elem_of_empty. intuition congruence.
    - by apply Forall_epochs.
    - intros v e _. destruct (covered v kept) eqn:Ec; [done|]. by apply read_pure_uncovered. }
  assert (StronglySorted Z.lt (reverse (TableWatermarks.cs_result s')).*1) as Hsr.
  { rewrite fmap_reverse. by apply sorted_rev. }
  cbn [mbind outcome_bind]. rewrite is_sorted_lt_ok by done. eexists. split; [done|].
  split_and!; simpl; try done.
  - split; [by apply Forall_reverse|done].
  - rewrite fmap_reverse. by apply Forall_reverse.
  - intros v e Hv He. rewrite reverse_involutive, from_epoch_split, H4 by done.
    destruct (covered v kept) eqn:Ec; [done|]. by rewrite (read_pure_app v e kept rest), (read_pure_uncovered v e kept).
Qed.

Lemma from_epoch_reverse safe l : from_epoch safe (reverse l) = reverse (from_epoch safe l).
Proof.
  unfold from_epoch. induction l as [|x l IH]; [done|].
  rewrite reverse_cons, filter_app, IH, !filter_cons, filter_nil. case_decide.
  - by rewrite reverse_cons.
  - by rewrite app_nil_r.
Qed.

Lemma covered_reverse v l : covered v (reverse l) = covered v l.
Proof.
  apply eq_bool_prop_intro. rewrite !Is_true_true. unfold covered. rewrite !existsb_exists.
  split; intros (x & Hx & Hc); exists x; (split; [|done]); revert Hx; rewrite <-!list_elem_of_In;
    by rewrite elem_of_reverse.
Qed.

Lemma from_epoch_ok n tw safe dir :
  table_ok n tw → table_ok n (TableWatermarks.mk (from_epoch safe (TableWatermarks.watermarks tw)) dir).
Proof.
  intros [Hok Hs]. unfold table_ok, from_epoch. simpl.
  induction (TableWatermarks.watermarks tw) as [|[e ws] l IH]; [done|].
  unfold entries_ok in *. apply Forall_cons in Hok as [Hws Hok]. rewrite fmap_cons in Hs.
  apply StronglySorted_cons in Hs as [Hf Hs]. destruct (IH Hok Hs) as [H1 H2].
  rewrite filter_cons. case_decide; [|done]. split; [by constructor|].
  rewrite fmap_cons. apply StronglySorted_cons. split; [|done].
  rewrite Forall_forall in Hf |- *. intros x (entry & -> & [_ Hin]%list_elem_of_filter)%list_elem_of_fmap.
  apply Hf. apply list_elem_of_fmap. by exists entry.
Qed.

(** Past the last epoch, the entries before [safe] do not matter for a renewed vnode. *)
Lemma read_from_epoch v e safe l :
  StronglySorted Z.lt l.*1 → Forall (λ e', (e' ≤ e)%Z) l.*1 →
  covered v (from_epoch safe l) = true →
  read_pure v e (reverse (from_epoch safe l)) = read_pure v e (reverse l).
Proof.
  intros Hs Hlast Hc.
  assert (∃ old, l = old ++ from_epoch safe l) as [old Hold].
  { clear Hlast Hc. induction l as [|[e1 ws1] l IH]; [by exists []|]. rewrite fmap_cons in Hs.
    apply StronglySorted_cons in Hs as [Hf Hs]. unfold from_epoch. rewrite filter_cons.
    case_decide as Hle.
    - exists []. simpl. f_equal. symmetry. apply from_epoch_id. apply Forall_epochs in Hf.
      eapply Forall_impl; [exact Hf|]. simpl in *. lia.
    - destruct (IH Hs) as [old Hold]. exists ((e1, ws1) :: old). simpl. by f_equal. }
  assert (Forall (λ entry : EpochWatermarks, (entry.1 ≤ e)%Z) (from_epoch safe l)) as Hle.
  { apply Forall_epochs in Hlast. rewrite Hold in Hlast. by apply Forall_app in Hlast as [_ H]. }
  rewrite Hold at 2. rewrite reverse_app, read_pure_app.
  destruct (read_pure v e (reverse (from_epoch safe l))) eqn:E; [done|]. exfalso.
  eapply read_pure_covered; [|by apply Forall_reverse|exact E]. by rewrite covered_reverse.
Qed.

(** ** Properties *)

(** Entries of the same table, read through an index that only has committed watermarks. *)
Lemma read_committed_ok n tw ce v e :
  table_ok n tw → v < n →
  TableWatermarksIndex.read_watermark (TableWatermarksIndex.new_committed tw ce) v e =
    Ret (read_pure v e (reverse (TableWatermarks.watermarks tw))).
Proof.
  intros [Hok _] Hv. unfold TableWatermarksIndex.read_watermark, TableWatermarksIndex.read_order.
  simpl. apply (read_entries_ok n); [|done]. by apply Forall_reverse.
Qed.

(** C34: clearing stale watermarks keeps what readers from the safe epoch on rely on.  On a
    well-formed table (strictly increasing epochs, bitmaps over the same vnodes)
    [clear_stale_epoch_watermark] returns a well-formed table with no epoch before
    [safe_epoch].  A later read of a vnode whose watermark was not renewed from [safe_epoch]
    on is unchanged; when it was renewed, a read sees the entries from [safe_epoch] on only,
    so the read at or after the last epoch is unchanged for every vnode. *)
Theorem clear_stale_preserves_reads n tw safe :
  table_ok n tw → (Z.of_nat n ≤ 2 ^ 16)%Z →
  ∃ tw', TableWatermarks.clear_stale_epoch_watermark tw safe = Ret tw' ∧
    table_ok n tw' ∧ TableWatermarks.direction tw' = TableWatermarks.direction tw ∧
    Forall (λ e, (safe ≤ e)%Z) (TableWatermarks.watermarks tw').*1 ∧
    ∀ v e ce, v < n → (safe ≤ e)%Z →
      let read t := TableWatermarksIndex.read_watermark (TableWatermarksIndex.new_committed t ce) v e in
      (covered v (from_epoch safe (TableWatermarks.watermarks tw)) = false → read tw' = read tw) ∧
      (Forall (λ e', (e' ≤ e)%Z) (TableWatermarks.watermarks tw).*1 → read tw' = read tw) ∧
      (covered v (from_epoch safe (TableWatermarks.watermarks tw)) = true →
       read tw' = read (TableWatermarks.mk (from_epoch safe (TableWatermarks.watermarks tw))
                          (TableWatermarks.direction tw))).
Proof.
  intros Htw Hn. destruct (clear_stale_ok n tw safe Htw Hn) as (tw' & Hrun & Htw' & Hd & Hsafe & Hread).
  exists tw'. split_and!; try done; [apply Htw'..|]. intros v e ce Hv He read. unfold read.
  assert (table_ok n (TableWatermarks.mk (from_epoch safe (TableWatermarks.watermarks tw))
    (TableWatermarks.direction tw))) as Hf by (by apply from_epoch_ok).
  rewrite !(read_committed_ok n) by done. simpl. rewrite Hread by done.
  rewrite from_epoch_reverse, covered_reverse. split_and!.
  - by intros ->.
  - intros Hlast. destruct (covered v _) eqn:Ec; [|done]. f_equal.
    apply read_from_epoch; [apply Htw|done|done].
  - by intros ->.
Qed.

(** Two vnodes: both get a watermark in epoch 1, the first is renewed in epoch 3. *)
Definition example_table : TableWatermarks.t :=
  TableWatermarks.mk
    [(1%Z, [VnodeWatermark.mk (Bitmap.ones 2) [Byte.x01]]);
     (3%Z, [VnodeWatermark.mk (Bitmap.from_bool_slice [true; false]) [Byte.x02]])]
    WatermarkDirection.Ascending.

Lemma example_table_ok : table_ok 2 example_table.
Proof.
  split; [|repeat constructor].
  apply Forall_cons. split; [|apply Forall_singleton]; apply Forall_singleton; split.
  - apply ones_ok.
  - done.
  - apply from_bool_slice_ok.
  - done.
Qed.

Lemma clear_stale_preserves_reads_witness :
  ∃ tw', TableWatermarks.clear_stale_epoch_watermark example_table 2 = Ret tw' ∧
    TableWatermarksIndex.read_watermark (TableWatermarksIndex.new_committed tw' 3) 1 3 =
      Ret (Some [Byte.x01]).
Proof.
  destruct (clear_stale_preserves_reads 2 example_table 2) as (tw' & Hrun & _ & _ & _ & Hread).
  - apply example_table_ok.
  - by vm_compute.
  - exists tw'. split; [exact Hrun|].
    destruct (Hread 1 3%Z 3%Z ltac:(lia) ltac:(lia)) as [H _]. rewrite H; by vm_compute.
Defined.
