(* ===== verification/WatermarkRange.v ===== *)
(** * Narrowing a read range by a watermark

    [rewrite_range_with_table_watermark] of [table_watermark.rs] on the ranges of one vnode
    that [prefixed_range_with_vnode] builds: which keys remain readable. *)

From Stdlib Require Import ZArith Lia.
From stdpp Require Import gmap.
From S2P Require Import Prelude Order Bytes Epoch Bits Bitmap BitmapSpec BitmapAlgebra.
From S2P Require Import Vnode Key KeySpec Watermark.

Implicit Types (v : nat) (w k : list byte) (r : Bound (list byte) * Bound (list byte)).

Lemma key_part_gen v k : vnode_ok v → TableKey.key_part (Key.gen_key_from_bytes v k) = Ret k.
Proof. intros Hv. unfold TableKey.key_part. by rewrite split_vnode_gen. Qed.

Lemma key_part_next v :
  vnode_ok v → v ≠ VirtualNode.MAX_REPRESENTABLE →
  ∃ key, Key.end_bound_of_vnode v = Excluded key ∧
    TableKey.split_vnode key = Ret (v + 1, []) ∧
    ∀ w, bytes_cmp (Key.gen_key_from_bytes v w) key = Lt.
Proof.
  intros Hv Hmax. unfold Key.end_bound_of_vnode. rewrite (proj2 (Nat.eqb_neq _ _)) by done.
  eexists. split; [done|]. unfold VirtualNode.to_index.
  rewrite max_representable_val in Hmax. unfold vnode_ok in Hv.
  rewrite from_index_small by lia. rewrite <-(app_nil_r (VirtualNode.to_be_bytes (v + 1))).
  change (VirtualNode.to_be_bytes (v + 1) ++ []) with (Key.gen_key_from_bytes (v + 1) []).
  split; [apply split_vnode_gen; vlia|]. intros w. unfold Key.gen_key_from_bytes.
  rewrite vnode_cmp by lia. by rewrite (proj2 (Nat.compare_lt_iff _ _)) by lia.
Qed.

(** The range of one vnode, as [prefixed_range_with_vnode] builds it. *)
Definition vnode_key_range v r : TableKeyRange := (prefixed_start v r.1, prefixed_end v r.2).

Lemma vnode_of_prefixed v r :
  vnode_ok v → prefixable r.2 = true → Key.vnode (vnode_key_range v r) = Ret v.
Proof.
  intros Hv Hr. unfold Key.vnode.
  assert (Key.vnode_range (vnode_key_range v r) = Ret (v, v + 1)) as ->.
  { destruct r as [b1 b2]. unfold Key.vnode_range, vnode_key_range. cbn [fst snd] in *.
    assert (∀ f : nat → outcome (nat * nat),
      (l ← match prefixed_start v b1 with
           | Included key | Excluded key => VirtualNode.to_index <$> TableKey.vnode_part key
           | Unbounded => Ret 0
           end; f l) = f v) as Hl.
    { intros f. destruct b1; cbn [prefixed_start]; by rewrite vnode_part_gen. }
    etransitivity; [apply Hl|]. destruct b2 as [b|b|]; cbn [prefixed_end prefixable] in *.
    - by rewrite vnode_part_gen.
    - rewrite split_vnode_gen by done. cbn [mbind outcome_bind]. by case_bool_decide.
    - destruct (decide (v = VirtualNode.MAX_REPRESENTABLE)) as [->|Hne].
      + unfold Key.end_bound_of_vnode. by rewrite Nat.eqb_refl.
      + destruct (key_part_next v Hv Hne) as (key & -> & -> & _). done. }
  cbn [mbind outcome_bind]. rewrite wrap_small by (split; lia).
  rewrite (proj2 (Z.eqb_eq _ _)) by lia. cbn [rassert mbind outcome_bind].
  rewrite from_index_small; [done|]. vlia.
Qed.

Definition ends_before (b : Bound TableKey.t) w : bool :=
  match b with Included e => bytes_ltb e w | Excluded e => bytes_leb e w | Unbounded => false end.

Definition starts_after (b : Bound TableKey.t) w : bool :=
  match b with Included s => bytes_ltb w s | Excluded s => bytes_leb w s | Unbounded => false end.

(** What the rewriting does to the range of user keys. *)
Definition rewrite_asc w r : Bound (list byte) * Bound (list byte) :=
  if match r.1 with
     | Included s | Excluded s => bytes_ltb s w
     | Unbounded => bytes_ltb [] w
     end
  then (Included w, if ends_before r.2 w then Excluded w else r.2)
  else r.

Definition rewrite_desc w r : Bound (list byte) * Bound (list byte) :=
  if match r.2 with
     | Included e | Excluded e => bytes_ltb w e
     | Unbounded => true
     end
  then if starts_after r.1 w then (Included w, Excluded w) else (r.1, Included w)
  else r.

Section rewrite.
Context (index : TableWatermarksIndex.t) (epoch : Z) (v : nat) (w : list byte).
Context (Hv : vnode_ok v).
Context (Hread : TableWatermarksIndex.read_watermark index v epoch = Ret (Some w)).

Lemma gen_ltb k l :
  cmp_ltb bytes_cmp (Key.gen_key_from_bytes v k) (Key.gen_key_from_bytes v l) = bytes_ltb k l.
Proof using Hv. by rewrite cmp_ltb_vnode, Nat.ltb_irrefl, Nat.eqb_refl by done. Qed.

Lemma gen_leb k l :
  cmp_leb bytes_cmp (Key.gen_key_from_bytes v k) (Key.gen_key_from_bytes v l) = bytes_leb k l.
Proof using Hv. by rewrite cmp_leb_vnode, Nat.ltb_irrefl, Nat.eqb_refl by done. Qed.

Lemma ends_before_prefixed b :
  ends_before (prefixed_end v b) (Key.gen_key_from_bytes v w) = ends_before b w.
Proof using Hv.
  clear Hread. destruct b as [b|b|]; simpl; rewrite ?gen_ltb, ?gen_leb; [done..|].
  destruct (decide (v = VirtualNode.MAX_REPRESENTABLE)) as [->|Hne].
  - unfold Key.end_bound_of_vnode. by rewrite Nat.eqb_refl.
  - destruct (key_part_next v Hv Hne) as (key & -> & _ & Hlt). simpl.
    rewrite cmp_leb_nlt by apply _. by rewrite (proj2 (cmp_ltb_lt bytes_cmp _ _) (Hlt w)).
Qed.

Lemma starts_after_prefixed b :
  starts_after (prefixed_start v b) (Key.gen_key_from_bytes v w) = starts_after b w.
Proof using Hv.
  destruct b as [b|b|]; simpl; rewrite ?gen_ltb, ?gen_leb; [done..|].
  clear Hread. by destruct w.
Qed.

Ltac enter_rewrite Hd :=
  unfold TableWatermarksIndex.rewrite_range_with_table_watermark;
  rewrite vnode_of_prefixed by done; cbn [mbind outcome_bind]; rewrite Hread;
  cbn [mbind outcome_bind]; rewrite Hd;
  change (Key.prefix_slice_with_vnode v w) with (Key.gen_key_from_bytes v w).

Lemma rewrite_asc_ok r :
  prefixable r.2 = true →
  TableWatermarksIndex.watermark_direction index = WatermarkDirection.Ascending →
  TableWatermarksIndex.rewrite_range_with_table_watermark index epoch (vnode_key_range v r) =
    Ret (vnode_key_range v (rewrite_asc w r)).
Proof using Hv Hread.
  intros Hr Hd. enter_rewrite Hd. unfold rewrite_asc. destruct r as [b1 b2].
  pose proof (ends_before_prefixed b2) as He. unfold vnode_key_range. cbn [fst snd] in *.
  destruct b1 as [b|b|]; cbn [prefixed_start] in *; rewrite key_part_gen by done;
    cbn [mbind outcome_bind]; destruct (bytes_ltb _ w); try done;
    cbn [fst snd prefixed_start]; 
    fold (ends_before (prefixed_end v b2) (Key.gen_key_from_bytes v w)); rewrite He;
    by destruct (ends_before b2 w).
Qed.

Lemma rewrite_desc_ok r :
  prefixable r.2 = true → (r.2 = Unbounded → v = VirtualNode.MAX_REPRESENTABLE) →
  TableWatermarksIndex.watermark_direction index = WatermarkDirection.Descending →
  TableWatermarksIndex.rewrite_range_with_table_watermark index epoch (vnode_key_range v r) =
    Ret (vnode_key_range v (rewrite_desc w r)).
Proof using Hv Hread.
  intros Hr Hun Hd. enter_rewrite Hd. unfold rewrite_desc. destruct r as [b1 b2].
  pose proof (starts_after_prefixed b1) as He. unfold vnode_key_range. cbn [fst snd] in *.
  destruct b2 as [b|b|]; cbn [prefixed_end] in *; rewrite ?key_part_gen by done;
    cbn [mbind outcome_bind].
  3: unfold Key.end_bound_of_vnode; rewrite (proj2 (Nat.eqb_eq _ _) (Hun eq_refl));
    cbn [mbind outcome_bind].
  1,2: destruct (bytes_ltb w b); [|done].
  all: fold (starts_after (prefixed_start v b1) (Key.gen_key_from_bytes v w));
    rewrite He; by destruct (starts_after b1 w).
Qed.

(** The end bound of a full-vnode range has an empty key part, so it never exceeds the
    watermark. *)
Lemma rewrite_desc_unbounded r :
  r.2 = Unbounded → v ≠ VirtualNode.MAX_REPRESENTABLE →
  TableWatermarksIndex.watermark_direction index = WatermarkDirection.Descending →
  TableWatermarksIndex.rewrite_range_with_table_watermark index epoch (vnode_key_range v r) =
    Ret (vnode_key_range v r).
Proof using Hv Hread.
  intros Hr Hne Hd. assert (prefixable r.2 = true) by by rewrite Hr. enter_rewrite Hd.
  unfold vnode_key_range. rewrite Hr. cbn [fst snd prefixed_end].
  destruct (key_part_next v Hv Hne) as (key & -> & Hkey & _).
  unfold TableKey.key_part. rewrite Hkey. simpl. by destruct w.
Qed.

End rewrite.

(** ** Bounds and watermarks on user keys *)

Definition bytes_lt_le_trans := cmp_lt_le_trans bytes_cmp.
Definition bytes_le_lt_trans := cmp_le_lt_trans bytes_cmp.
Definition bytes_le_trans := cmp_le_trans bytes_cmp.

Lemma bytes_lt_le a b : bytes_cmp a b = Lt → bytes_cmp a b ≠ Gt.
Proof. by intros ->. Qed.
#[local] Hint Resolve bytes_lt_le_trans bytes_le_lt_trans bytes_le_trans bytes_lt_le : core.

Lemma ltb_false a b : bytes_ltb a b = false ↔ bytes_cmp b a ≠ Gt.
Proof.
  rewrite <-(cmp_leb_le bytes_cmp), cmp_leb_nlt by apply _. by destruct (bytes_ltb a b).
Qed.

Ltac cmp_props :=
  rewrite ?(cmp_ltb_lt bytes_cmp), ?(cmp_leb_le bytes_cmp), ?ltb_false in *.

Lemma ends_before_below b w k : ends_before b w = true → below bytes_cmp b k = true → bytes_cmp k w = Lt.
Proof. destruct b as [b|b|]; simpl; [| |done]; intros; cmp_props; eauto. Qed.

Lemma starts_after_above b w k : starts_after b w = true → above bytes_cmp b k = true → bytes_cmp w k = Lt.
Proof. destruct b as [b|b|]; simpl; [| |done]; intros; cmp_props; eauto. Qed.

Definition key_of (b : Bound (list byte)) : list byte :=
  match b with Included s | Excluded s => s | Unbounded => [] end.

Lemma above_from b w k :
  bytes_ltb (key_of b) w = true → bytes_cmp w k ≠ Gt → above bytes_cmp b k = true.
Proof. destruct b as [b|b|]; simpl; intros; [| |done]; cmp_props; eauto. Qed.

Lemma above_key b k : above bytes_cmp b k = true → bytes_cmp (key_of b) k ≠ Gt.
Proof. destruct b as [b|b|]; simpl; intros; cmp_props; eauto. apply (list_cmp_nil_l byte_cmp). Qed.

(** A key stays in the rewritten range exactly when the watermark does not filter it. *)
Lemma rewrite_asc_contains w r k :
  contains bytes_cmp (rewrite_asc w r) k =
  contains bytes_cmp r k && negb (WatermarkDirection.filter_by_watermark WatermarkDirection.Ascending k w).
Proof.
  unfold WatermarkDirection.filter_by_watermark. rewrite <-cmp_leb_nlt by apply _.
  apply eq_bool_prop_intro. rewrite !Is_true_true. unfold contains.
  rewrite !andb_true_iff, (cmp_leb_le bytes_cmp).
  destruct r as [b1 b2]. unfold rewrite_asc. cbn [fst snd].
  replace (match b1 with Included s | Excluded s => bytes_ltb s w | Unbounded => bytes_ltb [] w end)
    with (bytes_ltb (key_of b1) w) by by destruct b1.
  destruct (bytes_ltb (key_of b1) w) eqn:Eow; cbn [fst snd].
  - destruct (ends_before b2 w) eqn:Ee; cbn [above below]; cmp_props.
    + split; [intros [H1 H2]; by apply (cmp_le_not_lt bytes_cmp) in H1|].
      intros [[_ Hb] Hw]. pose proof (ends_before_below _ _ _ Ee Hb).
      by apply (cmp_le_not_lt bytes_cmp) in Hw.
    + split; [|tauto]. intros [H1 H2]. split_and!; [|done..].
      eapply above_from; [|done]. by cmp_props.
  - split; [|tauto]. intros [H1 H2]. split_and!; [done..|].
    cmp_props. eauto using above_key.
Qed.

Lemma rewrite_desc_contains w r k :
  contains bytes_cmp (rewrite_desc w r) k =
  contains bytes_cmp r k && negb (WatermarkDirection.filter_by_watermark WatermarkDirection.Descending k w).
Proof.
  unfold WatermarkDirection.filter_by_watermark. rewrite <-cmp_leb_nlt by apply _.
  apply eq_bool_prop_intro. rewrite !Is_true_true. unfold contains.
  rewrite !andb_true_iff, (cmp_leb_le bytes_cmp).
  destruct r as [b1 b2]. unfold rewrite_desc. cbn [fst snd].
  destruct (match b2 with Included _ | Excluded _ => _ | Unbounded => _ end) eqn:Eow; cbn [fst snd].
  - assert (bytes_cmp k w ≠ Gt → below bytes_cmp b2 k = true) as Hb2.
    { intros. destruct b2; simpl; [| |done]; cmp_props; eauto. }
    destruct (starts_after b1 w) eqn:Es; cbn [fst snd above below]; cmp_props; [|tauto].
    split; [intros [H1 H2]; by apply (cmp_le_not_lt bytes_cmp) in H1|].
    intros [[Ha _] Hw]. pose proof (starts_after_above _ _ _ Es Ha).
    by apply (cmp_le_not_lt bytes_cmp) in Hw.
  - assert (below bytes_cmp b2 k = true → bytes_cmp k w ≠ Gt) as Hb2; [|tauto].
    intros. destruct b2; simpl in *; [| |done]; cmp_props; eauto.
Qed.

(** ** Properties *)


(** Both vnodes of a table have watermark [10]. *)
Definition example_index (dir : WatermarkDirection.t) : TableWatermarksIndex.t :=
  TableWatermarksIndex.new_committed
    (TableWatermarks.mk [(1%Z, [VnodeWatermark.mk (Bitmap.ones 2) [Byte.x10]])] dir) 1.


(** A descending watermark does not narrow an open-ended read of a vnode.  For a user
    range without an end bound on any vnode but the last representable one, the end bound of
    the table-key range is the excluded next vnode, whose key part is empty; so
    [end_key.key_part() > watermark] is false whatever the watermark, and the range is
    returned as it was, filtered keys included. *)
Theorem rewrite_range_descending_open_end (index : TableWatermarksIndex.t) epoch v w r range :
  vnode_ok v → v ≠ VirtualNode.MAX_REPRESENTABLE →
  Key.prefixed_range_with_vnode r v = Ret range → r.2 = Unbounded →
  TableWatermarksIndex.read_watermark index v epoch = Ret (Some w) →
  TableWatermarksIndex.watermark_direction index = WatermarkDirection.Descending →
  TableWatermarksIndex.rewrite_range_with_table_watermark index epoch range = Ret range ∧
  ∀ k, contains bytes_cmp r k = true →
       WatermarkDirection.filter_by_watermark WatermarkDirection.Descending k w = true →
       contains bytes_cmp range (Key.gen_key_from_bytes v k) = true.
Proof.
  intros Hv Hne Hp Hun Hread Hd. rewrite prefixed_range_eval in Hp.
  destruct (prefixable r.1) eqn:Hp1, (prefixable r.2) eqn:Hp2; [|discriminate Hp..].
  apply (inj Ret) in Hp as <-. split; [by apply (rewrite_desc_unbounded _ _ v w)|].
  intros k Hk _. by rewrite contains_prefixed, bool_decide_true by done.
Qed.

Lemma rewrite_range_descending_open_end_witness :
  ∃ range, Key.prefixed_range_with_vnode (Unbounded, Unbounded) 1 = Ret range ∧
    TableWatermarksIndex.rewrite_range_with_table_watermark
      (example_index WatermarkDirection.Descending) 5 range = Ret range ∧
    WatermarkDirection.filter_by_watermark WatermarkDirection.Descending [Byte.x11] [Byte.x10] = true ∧
    contains bytes_cmp range (Key.gen_key_from_bytes 1 [Byte.x11]) = true.
Proof.
  assert (vnode_ok 1) as Hv by vlia.
  assert (1 ≠ VirtualNode.MAX_REPRESENTABLE) as Hne by (rewrite max_representable_val; vlia).
  destruct (Key.prefixed_range_with_vnode (Unbounded, Unbounded) 1) as [range|] eqn:E.
  - destruct (rewrite_range_descending_open_end (example_index WatermarkDirection.Descending) 5 1
      [Byte.x10] (Unbounded, Unbounded) range Hv Hne E) as [Hr Hin]; [done|by vm_compute|done|].
    exists range. split_and!; [reflexivity|exact Hr|done|by apply Hin].
  - vm_compute in E. discriminate E.
Defined.
