(* ===== verification/WatermarkIndex.v ===== *)
(** * The watermark index and merging of table watermarks

    [TableWatermarksIndex] of [table_watermark.rs]: regressing watermarks are filtered, the
    index invariant holds through every operation and a committed version takes over the
    staging watermarks it covers.  Also [merge_multiple_new_table_watermarks] and the
    protobuf form of [TableWatermarks]. *)

From Stdlib Require Import ZArith Lia.
From stdpp Require Import gmap.
From S2P Require Import Prelude Order Bytes Epoch Bits Bitmap BitmapSpec BitmapAlgebra.
From S2P Require Import BitmapIterSpec Vnode Key Watermark WatermarkSpec.

Implicit Types (v : nat) (e : Z) (ws : list VnodeWatermark.t) (l : list EpochWatermarks).

(** ** Lazily created builders *)

(** The loops of [filter_regress_watermarks] create a builder at the first vnode that needs
    it and set the vnodes satisfying a predicate. *)
Definition lazy_set (P : nat → bool) (n : nat) (acc : option BitmapBuilder.t) v
  : outcome (option BitmapBuilder.t) :=
  if P v then b ← BitmapBuilder.set (default (BitmapBuilder.zeroed n) acc) v true; Ret (Some b)
  else Ret acc.

Definition lazy_ok (n : nat) (vs : list nat) (acc : option BitmapBuilder.t) : Prop :=
  match acc with
  | None => vs = []
  | Some b => vs ≠ [] ∧ builder_ok b ∧ BitmapBuilder.len b = n ∧
              ∀ v, default false (builder_view b !! v) = bool_decide (v ∈ vs)
  end.

Lemma lazy_default n vs acc :
  lazy_ok n vs acc →
  let b := default (BitmapBuilder.zeroed n) acc in
  builder_ok b ∧ BitmapBuilder.len b = n ∧
  ∀ v, default false (builder_view b !! v) = bool_decide (v ∈ vs).
Proof.
  destruct acc as [b|]; simpl; [tauto|]. intros ->. destruct (zeroed_ok n) as [H1 H2].
  split_and!; [done..|]. intros v. rewrite H2, bool_decide_false by apply not_elem_of_nil.
  destruct (replicate n false !! v) eqn:E; [|done]. by apply lookup_replicate in E as [-> _].
Qed.

Lemma lazy_fold_ok (P : nat → bool) n (vs : list VirtualNode.t)
    (f : option BitmapBuilder.t → VirtualNode.t → outcome (option BitmapBuilder.t)) :
  Forall (λ v, v < n) vs →
  (∀ acc v, v ∈ vs → f acc v = lazy_set P n acc v) →
  ∃ acc, rfold f vs None = Ret acc ∧ lazy_ok n (filter (λ v, P v = true) vs) acc.
Proof.
  intros Hvs Hf.
  apply (rfold_inv f (λ dn acc, lazy_ok n (filter (λ v, P v = true) dn) acc)); [done|].
  intros dn v todo acc -> Hacc. rewrite Hf by (apply elem_of_app; right; by left). unfold lazy_set.
  apply Forall_app in Hvs as [_ [Hlt _]%Forall_cons]. rewrite filter_app, filter_cons, filter_nil.
  destruct (P v) eqn:EP; [|rewrite decide_False, app_nil_r by done; by eexists].
  rewrite decide_True by done. destruct (lazy_default _ _ _ Hacc) as (Hb & Hlen & Hv).
  destruct (set_ok (default (BitmapBuilder.zeroed n) acc) v true) as (b' & -> & Hb' & Hlen' & Hv');
    [done|lia|].
  eexists. split; [done|]. simpl. split_and!; [by intros [_ [=]]%app_eq_nil|done|congruence|].
  intros x. rewrite Hv'. destruct (decide (x = v)) as [->|Hne].
  - rewrite list_lookup_insert_eq by (rewrite length_builder_view; lia). symmetry.
    apply bool_decide_eq_true, elem_of_app. right. by left.
  - rewrite list_lookup_insert_ne, Hv by done. apply bool_decide_ext.
    rewrite elem_of_app, list_elem_of_singleton. naive_solver.
Qed.

(** ** Filtering regressing watermarks *)

Lemma watermarks_singleton v w :
  VnodeWatermark.watermark <$> filter (λ w', has v w' = true) [w] =
  if has v w then [VnodeWatermark.watermark w] else [].
Proof.
  rewrite filter_cons, filter_nil.
  destruct (has v w) eqn:E; [by rewrite decide_True|by rewrite decide_False by congruence].
Qed.

Section filter_regress.
Context (n : nat) (index : TableWatermarksIndex.t).
Context (Hn : (Z.of_nat n ≤ 2 ^ 16)%Z).
Context (Hindex : entries_ok n (TableWatermarksIndex.read_order index)).

(** The watermark a vnode has now. *)
Definition latest v : option (list byte) :=
  read_pure v u64_max (TableWatermarksIndex.read_order index).

Definition regresses v (w : VnodeWatermark.t) : bool :=
  match latest v with
  | Some prev => WatermarkDirection.filter_by_watermark
                   (TableWatermarksIndex.watermark_direction index) (VnodeWatermark.watermark w) prev
  | None => false
  end.

Lemma latest_watermark_ok v : v < n → TableWatermarksIndex.latest_watermark index v = Ret (latest v).
Proof using Hindex. intros Hv. by apply (read_entries_ok n). Qed.

Lemma regress_step_ok w acc v :
  wm_ok n w → v < n →
  TableWatermarksIndex.regress_step index w acc v = lazy_set (λ v, regresses v w) n acc v.
Proof using Hindex.
  intros [_ Hw] Hv. unfold TableWatermarksIndex.regress_step, lazy_set, regresses.
  rewrite latest_watermark_ok by done. cbn [mbind outcome_bind].
  destruct (latest v) as [prev|]; [|done].
  rewrite Hw. unfold WatermarkDirection.filter_by_watermark, VirtualNode.to_index.
  by destruct (TableWatermarksIndex.watermark_direction index).
Qed.

Lemma filter_one_ok w :
  wm_ok n w →
  ∃ ws', TableWatermarksIndex.filter_one index w = Ret ws' ∧ Forall (wm_ok n) ws' ∧
    ∀ v, v < n →
      VnodeWatermark.watermark <$> filter (λ w', has v w' = true) ws' =
      if has v w && negb (regresses v w) then [VnodeWatermark.watermark w] else [].
Proof using Hn Hindex.
  intros Hw. unfold TableWatermarksIndex.filter_one.
  set (vs := VnodeBitmapExt.iter_vnodes _).
  assert (∀ v, v ∈ vs ↔ has v w = true) as Hvs by (intros v; by apply (elem_of_iter_vnodes n)).
  assert (Forall (λ v, v < n) vs) as Hlt.
  { apply Forall_forall. intros v Hv%Hvs. by apply (has_lt n w). }
  rewrite Forall_forall in Hlt.
  destruct (lazy_fold_ok (λ v, regresses v w) n vs (TableWatermarksIndex.regress_step index w))
    as (acc & -> & Hacc); [by apply Forall_forall| |].
  { intros. apply regress_step_ok; [done|auto]. }
  cbn [mbind outcome_bind]. destruct acc as [rb|].
  2: { eexists. split_and!; [done|by apply Forall_singleton|]. intros v Hv. rewrite watermarks_singleton.
       destruct (has v w) eqn:Eh; [|done].
       destruct (regresses v w) eqn:Er; [|done]. exfalso.
       assert (v ∈ filter (λ v, regresses v w = true) vs) as Hin
         by (apply list_elem_of_filter; split; [done|by apply Hvs]).
       simpl in Hacc. rewrite Hacc in Hin. by apply not_elem_of_nil in Hin. }
  simpl in Hacc. destruct Hacc as (_ & Hrb & Hrlen & Hrv).
  destruct (lazy_fold_ok (λ v, negb (regresses v w)) n vs (TableWatermarksIndex.keep_step w rb))
    as (acc & -> & Hacc); [by apply Forall_forall| |].
  { intros acc v Hv. unfold TableWatermarksIndex.keep_step, lazy_set, VirtualNode.to_index.
    destruct (is_set_ok rb v) as (x & -> & Hx); [done|rewrite Hrlen; auto|].
    cbn [mbind outcome_bind]. specialize (Hrv v). rewrite Hx in Hrv. simpl in Hrv.
    destruct Hw as [_ Hw]. rewrite Hw, Hrv. rewrite (bool_decide_ext _ (regresses v w = true)).
    - by destruct (regresses v w).
    - rewrite list_elem_of_filter. tauto. }
  cbn [mbind outcome_bind]. destruct acc as [b|]; simpl in Hacc.
  - destruct Hacc as (_ & Hb & Hlen & Hv). destruct (finish_ok b Hb) as [Hf1 Hf2].
    eexists. split_and!; [done| |].
    + apply Forall_singleton. split; [done|]. unfold VnodeWatermark.vnode_count, Bitmap.len.
      cbn [VnodeWatermark.vnode_bitmap]. by rewrite <-length_view, Hf2, length_builder_view.
    + intros v Hvn. rewrite watermarks_singleton. unfold has at 1.
      cbn [VnodeWatermark.vnode_bitmap]. rewrite Hf2, Hv.
      replace (has v w && negb (regresses v w)) with
        (bool_decide (v ∈ filter (λ v, negb (regresses v w) = true) vs)); [done|].
      apply eq_bool_prop_intro.
      rewrite bool_decide_spec, list_elem_of_filter, Hvs, andb_True, !Is_true_true. tauto.
  - eexists. split_and!; [done|by apply Forall_nil_2|]. intros v Hv.
    destruct (has v w) eqn:Eh, (regresses v w) eqn:Er; try done. exfalso.
    assert (v ∈ filter (λ v, negb (regresses v w) = true) vs) as Hin.
    { apply list_elem_of_filter. split; [by rewrite Er|by apply Hvs]. }
    rewrite Hacc in Hin. by apply not_elem_of_nil in Hin.
Qed.

End filter_regress.

Lemma filter_regress_ok n index ws :
  (Z.of_nat n ≤ 2 ^ 16)%Z → entries_ok n (TableWatermarksIndex.read_order index) →
  Forall (wm_ok n) ws →
  ∃ ws', TableWatermarksIndex.filter_regress_watermarks index ws = Ret ws' ∧
    Forall (wm_ok n) ws' ∧
    ∀ v, v < n →
      VnodeWatermark.watermark <$> filter (λ w, has v w = true) ws' =
      VnodeWatermark.watermark <$> filter (λ w, has v w && negb (regresses index v w) = true) ws.
Proof.
  intros Hn Hi Hws. unfold TableWatermarksIndex.filter_regress_watermarks.
  assert (∃ rets, rmap (TableWatermarksIndex.filter_one index) ws = Ret rets ∧
    Forall (wm_ok n) (concat rets) ∧ ∀ v, v < n →
      VnodeWatermark.watermark <$> filter (λ w, has v w = true) (concat rets) =
      VnodeWatermark.watermark <$> filter (λ w, has v w && negb (regresses index v w) = true) ws)
    as (rets & -> & H); [|by exists (concat rets)].
  induction Hws as [|w ws Hw Hws IH]; [by exists []|]. destruct IH as (rets & Hr & Hok & Hv).
  destruct (filter_one_ok n index Hn Hi w Hw) as (ws1 & H1 & Hok1 & Hv1).
  exists (ws1 :: rets). simpl. rewrite H1, Hr. split_and!; [done|by apply Forall_app|].
  intros v Hlt. rewrite filter_app, fmap_app, Hv1, Hv, filter_cons by done.
  destruct (has v w && negb (regresses index v w)) eqn:E.
  - by rewrite decide_True.
  - by rewrite decide_False by congruence.
Qed.

(** The first watermark of a vnode in a list, as the head of its watermarks. *)
Lemma match_pure_head v ws :
  match_pure v ws = head (VnodeWatermark.watermark <$> filter (λ w, has v w = true) ws).
Proof.
  induction ws as [|w ws IH]; [done|]. rewrite filter_cons. simpl.
  destruct (has v w) eqn:E; [by rewrite decide_True|]. by rewrite decide_False by congruence.
Qed.

(** ** The invariant of the index *)

Definition index_inv (n : nat) (idx : TableWatermarksIndex.t) : Prop :=
  entries_ok n (TableWatermarksIndex.read_order idx) ∧
  StronglySorted Z.lt (TableWatermarksIndex.staging_watermarks idx).*1 ∧
  Forall (λ e, (e ≤ TableWatermarksIndex.latest_epoch idx)%Z)
    (TableWatermarksIndex.staging_watermarks idx).*1 ∧
  (∀ ce, TableWatermarksIndex.committed_epoch idx = Some ce →
     (ce ≤ TableWatermarksIndex.latest_epoch idx)%Z ∧
     Forall (λ e, (ce < e)%Z) (TableWatermarksIndex.staging_watermarks idx).*1) ∧
  (∀ tw, TableWatermarksIndex.committed_watermarks idx = Some tw →
     TableWatermarks.direction tw = TableWatermarksIndex.watermark_direction idx ∧
     ∃ ce, TableWatermarksIndex.committed_epoch idx = Some ce ∧
       Forall (λ e, (e ≤ ce)%Z) (TableWatermarks.watermarks tw).*1).

(** Watermarks committed up to an epoch. *)
Definition committed_ok (n : nat) (tw : TableWatermarks.t) (ce : Z) : Prop :=
  table_ok n tw ∧ Forall (λ e, (e ≤ ce)%Z) (TableWatermarks.watermarks tw).*1.

(** The indexes the operations can build, from well-formed arguments. *)
Inductive index_reachable (n : nat) : TableWatermarksIndex.t → Prop :=
| reach_new dir e ws ce idx :
    Forall (wm_ok n) ws → TableWatermarksIndex.new dir e ws ce = Ret idx →
    index_reachable n idx
| reach_new_committed tw ce :
    committed_ok n tw ce → index_reachable n (TableWatermarksIndex.new_committed tw ce)
| reach_add idx e ws dir idx' :
    index_reachable n idx → Forall (wm_ok n) ws →
    TableWatermarksIndex.add_epoch_watermark idx e ws dir = Ret idx' → index_reachable n idx'
| reach_apply idx tw ce idx' :
    index_reachable n idx → committed_ok n tw ce →
    TableWatermarksIndex.apply_committed_watermarks idx tw ce = Ret idx' → index_reachable n idx'.

Lemma new_inv n dir e ws ce idx :
  Forall (wm_ok n) ws → TableWatermarksIndex.new dir e ws ce = Ret idx → index_inv n idx.
Proof.
  intros Hws Hnew. apply bind_Ret in Hnew as (u & Hce & [= <-]).
  split_and!; simpl; [by apply Forall_singleton|by repeat constructor|by repeat constructor| |done].
  intros c ->. apply rassert_Ret, Z.ltb_lt in Hce. split; [lia|by repeat constructor].
Qed.

Lemma new_committed_inv n tw ce :
  committed_ok n tw ce → index_inv n (TableWatermarksIndex.new_committed tw ce).
Proof.
  intros [[Hok Hs] Hle]. split_and!; simpl; [by apply Forall_reverse|constructor|constructor| |].
  - intros c [= <-]. split; [done|constructor].
  - intros t [= <-]. split; [done|]. by exists ce.
Qed.

Lemma add_inv n idx e ws dir idx' :
  index_inv n idx → Forall (wm_ok n) ws →
  TableWatermarksIndex.add_epoch_watermark idx e ws dir = Ret idx' →
  index_inv n idx' ∧
  TableWatermarksIndex.read_order idx' = (e, ws) :: TableWatermarksIndex.read_order idx ∧
  TableWatermarksIndex.watermark_direction idx' = TableWatermarksIndex.watermark_direction idx.
Proof.
  intros (Hok & Hs & Hle & Hce & Htw) Hws Hadd. unfold TableWatermarksIndex.add_epoch_watermark in Hadd.
  outcome_inv. subst idx'. rename select ((_ <? _)%Z = true) into Hlt. apply Z.ltb_lt in Hlt.
  assert (TableWatermarksIndex.read_order
    (TableWatermarksIndex.mk (TableWatermarksIndex.watermark_direction idx)
       (TableWatermarksIndex.staging_watermarks idx ++ [(e, ws)])
       (TableWatermarksIndex.committed_watermarks idx) e (TableWatermarksIndex.committed_epoch idx)) =
    (e, ws) :: TableWatermarksIndex.read_order idx) as Horder.
  { unfold TableWatermarksIndex.read_order. simpl. by rewrite reverse_app. }
  split; [|by split]. unfold index_inv. rewrite Horder. split_and!; simpl.
  - by constructor.
  - rewrite fmap_app. apply StronglySorted_app_2; [|done|repeat constructor].
    intros e1 e2 H1 H2%list_elem_of_singleton. rewrite Forall_forall in Hle.
    specialize (Hle e1 H1). simpl in H2. lia.
  - rewrite fmap_app. apply Forall_app. split; [|by repeat constructor].
    eapply Forall_impl; [exact Hle|]. simpl. lia.
  - intros ce Hc. destruct (Hce ce Hc) as [H1 H2]. split; [lia|].
    rewrite fmap_app. apply Forall_app. split; [done|]. repeat constructor. simpl. lia.
  - done.
Qed.

Lemma drop_committed_split ce l :
  StronglySorted Z.lt l.*1 →
  ∃ pre, l = pre ++ TableWatermarksIndex.drop_committed ce l ∧
    Forall (λ entry : EpochWatermarks, (entry.1 ≤ ce)%Z) pre ∧
    Forall (λ entry : EpochWatermarks, (ce < entry.1)%Z) (TableWatermarksIndex.drop_committed ce l).
Proof.
  induction l as [|[e ws] l IH]; intros Hs; [by exists []|].
  rewrite fmap_cons in Hs. apply StronglySorted_cons in Hs as [Hf Hs]. simpl.
  destruct (Z.leb_spec e ce).
  - destruct (IH Hs) as (pre & Hl & Hpre & Hd). exists ((e, ws) :: pre).
    split_and!; [simpl; by f_equal|by constructor|done].
  - exists []. split_and!; [done|constructor|]. constructor; [simpl; lia|].
    apply Forall_epochs in Hf. eapply Forall_impl; [exact Hf|]. simpl in *. lia.
Qed.

Lemma apply_inv n idx tw ce idx' :
  index_inv n idx → committed_ok n tw ce →
  TableWatermarksIndex.apply_committed_watermarks idx tw ce = Ret idx' → index_inv n idx'.
Proof.
  intros (Hok & Hs & Hle & Hce & Htw) [[Hokt Hst] Hlet] Happly.
  unfold TableWatermarksIndex.apply_committed_watermarks in Happly.
  apply bind_Ret in Happly as (? & Hdir & Happly). apply bind_Ret in Happly as (? & Hprev & Happly).
  apply rassert_Ret, bool_decide_eq_true in Hdir.
  case_bool_decide; injection Happly as <-; [by split_and!|].
  destruct (drop_committed_split ce _ Hs) as (pre & Hl & Hpre & Hd).
  set (d := TableWatermarksIndex.drop_committed ce _) in *. unfold index_inv.
  rewrite Hl, fmap_app in Hs, Hle.
  apply StronglySorted_app_1_r in Hs. apply Forall_app in Hle as [_ Hle].
  unfold TableWatermarksIndex.read_order, entries_ok in *. cbn in *. split_and!.
  - apply Forall_app in Hok as [Hok _]. rewrite Hl, reverse_app in Hok.
    apply Forall_app in Hok as [Hok _]. apply Forall_app. split; [done|by apply Forall_reverse].
  - done.
  - eapply Forall_impl; [exact Hle|]. intros e He. cbn in *.
    destruct (Z.ltb_spec (TableWatermarksIndex.latest_epoch idx) ce); lia.
  - intros c [= <-]. split; [|by apply Forall_epochs].
    destruct (Z.ltb_spec (TableWatermarksIndex.latest_epoch idx) ce); lia.
  - intros t [= <-]. split; [done|]. by exists ce.
Qed.

Lemma reachable_inv n idx : index_reachable n idx → index_inv n idx.
Proof.
  induction 1; eauto using new_inv, new_committed_inv, apply_inv.
  eapply add_inv; eauto.
Qed.

(** ** Properties of the index *)

(** [filter_regress_watermarks] keeps exactly the advancing watermarks.  On a reachable
    index it returns; for every vnode, the watermarks remaining for it are, in order, those
    that do not go back behind the vnode's latest watermark in the table's direction.  So
    when the filtered list is added as a new epoch, the latest watermark of a vnode never
    goes back, and is not lost. *)
Theorem filter_regress_monotone n index epoch ws index' :
  (Z.of_nat n ≤ 2 ^ 16)%Z → index_reachable n index → Forall (wm_ok n) ws → (epoch ≤ u64_max)%Z →
  ∃ ws', TableWatermarksIndex.filter_regress_watermarks index ws = Ret ws' ∧
    (∀ v, v < n →
      VnodeWatermark.watermark <$> filter (λ w, has v w = true) ws' =
      VnodeWatermark.watermark <$> filter (λ w, has v w && negb (regresses index v w) = true) ws) ∧
    (TableWatermarksIndex.add_epoch_watermark index epoch ws'
       (TableWatermarksIndex.watermark_direction index) = Ret index' →
     ∀ v old, v < n → TableWatermarksIndex.latest_watermark index v = Ret (Some old) →
     ∃ new, TableWatermarksIndex.latest_watermark index' v = Ret (Some new) ∧
       WatermarkDirection.filter_by_watermark (TableWatermarksIndex.watermark_direction index) new old
       = false).
Proof.
  intros Hn Hreach%reachable_inv Hws He. pose proof Hreach as (Hok & _).
  destruct (filter_regress_ok n index ws Hn Hok Hws) as (ws' & Hrun & Hws' & Hv).
  exists ws'. split_and!; [done..|]. intros Hadd v old Hlt Hold.
  destruct (add_inv _ _ _ _ _ _ Hreach Hws' Hadd) as ((Hok' & _) & Horder & _).
  rewrite (latest_watermark_ok n) in * by done. injection Hold as Hold.
  unfold latest at 1. rewrite Horder. simpl. rewrite (proj2 (Z.ltb_ge _ _)) by done.
  rewrite match_pure_head, Hv by done. fold (latest index v). rewrite Hold.
  destruct (filter _ ws) as [|w ws1] eqn:Ef.
  - simpl. exists old. split; [done|].
    unfold WatermarkDirection.filter_by_watermark, cmp_ltb.
    by destruct (TableWatermarksIndex.watermark_direction index); rewrite (cmp_refl bytes_cmp).
  - exists (VnodeWatermark.watermark w). split; [done|].
    assert (w ∈ filter (λ w, has v w && negb (regresses index v w) = true) ws) as Hin by (rewrite Ef; by left).
    apply list_elem_of_filter in Hin as [[_ Hr]%andb_true_iff _]. unfold regresses in Hr.
    rewrite Hold in Hr. by apply negb_true_iff in Hr.
Qed.

(** Both vnodes of a table at watermark [10] in epoch 2, over an older committed epoch. *)
Definition example_new : outcome TableWatermarksIndex.t :=
  TableWatermarksIndex.new WatermarkDirection.Ascending 2
    [VnodeWatermark.mk (Bitmap.ones 2) [Byte.x10]] (Some 1%Z).

Lemma example_new_reachable idx : example_new = Ret idx → index_reachable 2 idx.
Proof. apply reach_new. apply Forall_singleton. split; [apply ones_ok|done]. Qed.

Lemma filter_regress_monotone_witness :
  ∃ index index' ws', example_new = Ret index ∧
    TableWatermarksIndex.filter_regress_watermarks index
      [VnodeWatermark.mk (Bitmap.ones 2) [Byte.x09]] = Ret ws' ∧
    TableWatermarksIndex.add_epoch_watermark index 3 ws' WatermarkDirection.Ascending = Ret index' ∧
    ∃ new, TableWatermarksIndex.latest_watermark index' 0 = Ret (Some new) ∧
      bytes_ltb new [Byte.x10] = false.
Proof.
  destruct example_new as [index|] eqn:E; [|discriminate E].
  pose proof (example_new_reachable index E) as Hr.
  assert (Forall (wm_ok 2) [VnodeWatermark.mk (Bitmap.ones 2) [Byte.x09]]) as Hws.
  { apply Forall_singleton. split; [apply ones_ok|done]. }
  vm_compute in E. injection E as <-.
  destruct (TableWatermarksIndex.filter_regress_watermarks
    (TableWatermarksIndex.mk WatermarkDirection.Ascending
       [(2%Z, [VnodeWatermark.mk (Bitmap.mk 2 2 None) [Byte.x10]])] None 2 (Some 1%Z))
    [VnodeWatermark.mk (Bitmap.ones 2) [Byte.x09]]) as [ws'|] eqn:Ew; [|discriminate Ew].
  destruct (TableWatermarksIndex.add_epoch_watermark
    (TableWatermarksIndex.mk WatermarkDirection.Ascending
       [(2%Z, [VnodeWatermark.mk (Bitmap.mk 2 2 None) [Byte.x10]])] None 2 (Some 1%Z)) 3 ws'
    WatermarkDirection.Ascending) as [index'|] eqn:Ea; [|discriminate Ea].
  destruct (filter_regress_monotone 2 _ 3 _ index' ltac:(lia) Hr Hws) as (ws2 & H1 & _ & H2); [done|].
  assert (ws2 = ws') as -> by congruence.
  eexists _, index', ws'. split_and!; [done|exact Ew|exact Ea|].
  apply (H2 Ea 0 [Byte.x10]); [lia|by vm_compute].
Defined.

(** C33: the index keeps its invariant through every operation.  In every index built by
    [new], [new_committed], [add_epoch_watermark] and [apply_committed_watermarks], the
    staging epochs are strictly increasing, lie after the committed epoch and not after the
    latest epoch, the committed watermarks have the index's direction and no epoch after
    the committed one, and every bitmap has the table's vnode count; so [read_watermark]
    never panics on a vnode of the table. *)
Theorem watermark_index_invariant n idx :
  index_reachable n idx →
  index_inv n idx ∧
  ∀ v e, v < n → ∃ w, TableWatermarksIndex.read_watermark idx v e = Ret w.
Proof.
  intros Hr%reachable_inv. split; [done|]. intros v e Hv. destruct Hr as (Hok & _).
  eexists. by apply (read_entries_ok n).
Qed.

Lemma watermark_index_invariant_witness :
  ∃ idx, example_new = Ret idx ∧ index_inv 2 idx.
Proof.
  destruct example_new as [idx|] eqn:E; [|discriminate E].
  exists idx. split; [done|]. apply watermark_index_invariant. by apply example_new_reachable.
Defined.

Lemma filter_le_app ce l1 l2 :
  Forall (λ entry : EpochWatermarks, (ce < entry.1)%Z) l1 →
  Forall (λ entry : EpochWatermarks, (entry.1 ≤ ce)%Z) l2 →
  filter (λ entry : EpochWatermarks, (entry.1 ≤ ce)%Z) (l1 ++ l2) = l2.
Proof.
  intros H1 H2. rewrite filter_app. induction H1 as [|x l1 Hx H1 IH]; simpl.
  - induction H2 as [|x l2 Hx H2 IH]; [done|]. rewrite filter_cons_True by done. by f_equal.
  - rewrite filter_cons_False by lia. done.
Qed.

(** Committing is invisible to readers.  Suppose the committed watermarks give, for every
    vnode and epoch, the same reads as the index's own entries up to the committed epoch.
    Then [apply_committed_watermarks] (when its assertions on direction and epoch hold)
    leaves every read of the index unchanged, although it drops the staging entries. *)
Theorem apply_committed_transparent n idx tw ce idx' :
  index_reachable n idx → committed_ok n tw ce →
  (∀ v e, v < n →
     read_pure v e (reverse (TableWatermarks.watermarks tw)) =
     read_pure v e (filter (λ entry, entry.1 ≤ ce)%Z (TableWatermarksIndex.read_order idx))) →
  TableWatermarksIndex.apply_committed_watermarks idx tw ce = Ret idx' →
  ∀ v e, v < n →
    TableWatermarksIndex.read_watermark idx' v e = TableWatermarksIndex.read_watermark idx v e.
Proof.
  intros Hr%reachable_inv Htw Hagree Happly v e Hv.
  pose proof (apply_inv _ _ _ _ _ Hr Htw Happly) as (Hok' & _).
  destruct Hr as (Hok & Hs & _ & _ & Hcommitted).
  unfold TableWatermarksIndex.read_watermark. rewrite !(read_entries_ok n) by done. f_equal.
  unfold TableWatermarksIndex.apply_committed_watermarks in Happly.
  apply bind_Ret in Happly as (? & _ & Happly). apply bind_Ret in Happly as (? & Hprev & Happly).
  case_bool_decide; injection Happly as <-; [done|].
  destruct (drop_committed_split ce _ Hs) as (pre & Hl & Hpre & Hd).
  specialize (Hagree v e Hv). unfold TableWatermarksIndex.read_order in *. cbn in *.
  set (d := TableWatermarksIndex.drop_committed ce _) in *. rewrite Hl, reverse_app, <-app_assoc in *.
  rewrite !(read_pure_app v e (reverse d)). f_equal. rewrite Hagree. f_equal.
  apply filter_le_app; [by apply Forall_reverse|].
  apply Forall_app. split; [by apply Forall_reverse|].
  destruct (TableWatermarksIndex.committed_watermarks idx) as [old|]; [|constructor].
  destruct (Hcommitted old eq_refl) as (_ & oce & Hoce & Hle). rewrite Hoce in Hprev.
  apply rassert_Ret, Z.leb_le in Hprev. apply Forall_reverse. apply Forall_epochs in Hle.
  eapply Forall_impl; [exact Hle|]. cbn. lia.
Qed.

Lemma apply_committed_transparent_witness :
  let tw := TableWatermarks.mk [(2%Z, [VnodeWatermark.mk (Bitmap.ones 2) [Byte.x10]])]
              WatermarkDirection.Ascending in
  ∃ idx idx', example_new = Ret idx ∧
    TableWatermarksIndex.apply_committed_watermarks idx tw 2 = Ret idx' ∧
    TableWatermarksIndex.staging_watermarks idx' = [] ∧
    TableWatermarksIndex.read_watermark idx' 1 2 = TableWatermarksIndex.read_watermark idx 1 2.
Proof.
  intros tw. destruct example_new as [idx|] eqn:E; [|discriminate E].
  pose proof (example_new_reachable idx E) as Hr. vm_compute in E. injection E as <-.
  eexists _, _. split_and!; [reflexivity|vm_compute; reflexivity|reflexivity|].
  apply (apply_committed_transparent 2 _ tw 2); [exact Hr| | |reflexivity|lia].
  - split; [|by apply Forall_singleton]. split; [|by repeat constructor].
    apply Forall_singleton, Forall_singleton. split; [apply ones_ok|done].
  - intros v e Hv. reflexivity.
Defined.

(** ** Merging new table watermarks *)

(** The vnode watermarks of an epoch. *)
Definition entries_at e l : list VnodeWatermark.t :=
  concat (snd <$> filter (λ entry : EpochWatermarks, entry.1 = e) l).

Lemma entries_at_app e l1 l2 : entries_at e (l1 ++ l2) = entries_at e l1 ++ entries_at e l2.
Proof. unfold entries_at. by rewrite filter_app, fmap_app, concat_app. Qed.

Lemma entries_at_cons e e' ws l :
  entries_at e ((e', ws) :: l) = (if decide (e' = e) then ws else []) ++ entries_at e l.
Proof. unfold entries_at. rewrite filter_cons. simpl. by case_decide. Qed.

Lemma entries_at_gt e l :
  Forall (λ e', (e < e')%Z) l.*1 → entries_at e l = [].
Proof.
  intros Hl. induction l as [|[e' ws] l IH]; [done|]. rewrite fmap_cons in Hl.
  apply Forall_cons in Hl as [He Hl]. simpl in He.
  rewrite entries_at_cons, decide_False, IH by (done || lia). done.
Qed.

Lemma extend_epoch_ok epoch new m :
  StronglySorted Z.lt m.*1 →
  StronglySorted Z.lt (MergeWatermarks.extend_epoch epoch new m).*1 ∧
  (∀ e, e ∈ (MergeWatermarks.extend_epoch epoch new m).*1 ↔ e = epoch ∨ e ∈ m.*1) ∧
  (∀ e, entries_at e (MergeWatermarks.extend_epoch epoch new m) =
        entries_at e m ++ if decide (epoch = e) then new else []).
Proof.
  induction m as [|[e1 ws1] m IH]; intros Hs; cbn [MergeWatermarks.extend_epoch].
  { split_and!; [repeat constructor| |].
    - intros e. rewrite fmap_cons, elem_of_cons. done.
    - intros e. rewrite entries_at_cons. unfold entries_at. simpl. by rewrite app_nil_r. }
  rewrite fmap_cons in Hs. apply StronglySorted_cons in Hs as [Hf Hs]. cbn [fst] in Hf.
  destruct (Z.ltb_spec epoch e1) as [Hlt|Hge]; [|destruct (Z.eqb_spec epoch e1) as [->|Hne]].
  - assert (Forall (λ e, (epoch < e)%Z) ((e1, ws1) :: m).*1) as Hall.
    { rewrite fmap_cons. constructor; [done|]. eapply Forall_impl; [exact Hf|]. simpl. lia. }
    split_and!.
    + rewrite !fmap_cons in *. constructor; [|done]. by constructor.
    + intros e. rewrite (fmap_cons fst (epoch, new)), elem_of_cons. done.
    + intros e. rewrite (entries_at_cons e epoch). case_decide as He; [subst e|by rewrite app_nil_r].
      by rewrite (entries_at_gt epoch), app_nil_r.
  - split_and!.
    + rewrite fmap_cons. by constructor.
    + intros e. rewrite !fmap_cons, !elem_of_cons. simpl. tauto.
    + intros e. rewrite !entries_at_cons. case_decide as He; [subst e|by rewrite app_nil_r].
      by rewrite (entries_at_gt e1), !app_nil_r.
  - destruct (IH Hs) as (H1 & H2 & H3). split_and!.
    + rewrite fmap_cons. constructor; [done|]. apply Forall_forall. intros e [->|He]%H2; [simpl; lia|].
      rewrite Forall_forall in Hf. by apply Hf.
    + intros e. rewrite !fmap_cons, !elem_of_cons, H2. tauto.
    + intros e. by rewrite !entries_at_cons, H3, app_assoc.
Qed.

Lemma extend_all_ok new m :
  StronglySorted Z.lt m.*1 →
  let m' := foldl (λ m '(epoch, ws), MergeWatermarks.extend_epoch epoch ws m) m new in
  StronglySorted Z.lt m'.*1 ∧ (∀ e, e ∈ m'.*1 ↔ e ∈ m.*1 ∨ e ∈ new.*1) ∧
  ∀ e, entries_at e m' = entries_at e m ++ entries_at e new.
Proof.
  revert m. induction new as [|[epoch ws] new IH]; intros m Hs; cbn [foldl].
  - split_and!; [done| |].
    + intros e. rewrite elem_of_nil. tauto.
    + intros e. by rewrite app_nil_r.
  - destruct (extend_epoch_ok epoch ws m Hs) as (H1 & H2 & H3).
    destruct (IH _ H1) as (I1 & I2 & I3). split_and!; [done| |].
    + intros e. rewrite I2, H2, fmap_cons, elem_of_cons. simpl. tauto.
    + intros e. by rewrite I3, H3, entries_at_cons, app_assoc.
Qed.

(** The epoch entries given for a table, in input order. *)
Definition given_for (t : Z) (input : list (Z * TableWatermarks.t)) : list EpochWatermarks :=
  concat ((λ e : Z * TableWatermarks.t, TableWatermarks.watermarks e.2) <$>
          filter (λ e : Z * TableWatermarks.t, e.1 = t) input).

Definition merged_ok (t : Z) (input : list (Z * TableWatermarks.t))
    (merged : option TableWatermarks.t) : Prop :=
  match merged with
  | None => t ∉ input.*1
  | Some tw =>
      t ∈ input.*1 ∧ StronglySorted Z.lt (TableWatermarks.watermarks tw).*1 ∧
      (∀ tw', (t, tw') ∈ input → TableWatermarks.direction tw' = TableWatermarks.direction tw) ∧
      (∀ e, e ∈ (TableWatermarks.watermarks tw).*1 ↔ e ∈ (given_for t input).*1) ∧
      (∀ e, entries_at e (TableWatermarks.watermarks tw) = entries_at e (given_for t input))
  end.

Lemma given_for_snoc t input t' tw :
  given_for t (input ++ [(t', tw)]) =
  given_for t input ++ if decide (t' = t) then TableWatermarks.watermarks tw else [].
Proof.
  unfold given_for. rewrite filter_app, fmap_app, concat_app, filter_cons, filter_nil. simpl.
  case_decide; simpl; by rewrite ?app_nil_r.
Qed.

Lemma given_for_absent t input : t ∉ input.*1 → given_for t input = [].
Proof.
  unfold given_for. induction input as [|[t' tw] input IH]; [done|].
  rewrite fmap_cons, not_elem_of_cons, filter_cons. intros [Hne Hin].
  rewrite decide_False by (simpl in *; congruence). by apply IH.
Qed.

(** One table of the input: the map keeps the invariant, and the step returns exactly when
    the direction is that of the table's earlier entries. *)
Lemma merge_table_ok (dn : list (Z * TableWatermarks.t)) t new (m m' : gmap Z TableWatermarks.t) :
  (∀ t, merged_ok t dn (m !! t)) → MergeWatermarks.merge_table m (t, new) = Ret m' →
  ∀ t', merged_ok t' (dn ++ [(t, new)]) (m' !! t').
Proof.
  intros HI Hstep t'. apply bind_Ret in Hstep as ([dir ew] & Hdir & [= <-]).
  destruct (decide (t' = t)) as [->|Hne].
  2: { rewrite lookup_insert_ne by done. specialize (HI t'). unfold merged_ok in *.
       destruct (m !! t') as [tw|].
       - destruct HI as (H1 & H2 & H3 & H4 & H5).
         rewrite given_for_snoc, decide_False, app_nil_r by done. split_and!; [|done| |done|done].
         + rewrite fmap_app, elem_of_app. by left.
         + intros tw' [?|[=]%list_elem_of_singleton]%elem_of_app; [by apply H3|done].
       - rewrite fmap_app, not_elem_of_app. split; [done|]. by intros ?%list_elem_of_singleton. }
  rewrite lookup_insert_eq. unfold merged_ok. simpl.
  rewrite given_for_snoc, decide_True by done.
  assert (StronglySorted Z.lt ew.*1 ∧ dir = TableWatermarks.direction new ∧
    (∀ tw', (t, tw') ∈ dn → TableWatermarks.direction tw' = dir) ∧
    (∀ e, e ∈ ew.*1 ↔ e ∈ (given_for t dn).*1) ∧
    (∀ e, entries_at e ew = entries_at e (given_for t dn))) as (Hs & Hd & Hdn & Hel & Hat).
  { specialize (HI t). destruct (m !! t) as [tw|]; simpl in HI.
    - destruct HI as (H1 & H2 & H3 & H4 & H5). outcome_inv. simplify_eq.
      rename select (bool_decide _ = true) into Hb. apply bool_decide_eq_true in Hb.
      split_and!; [done|by rewrite Hb|done..].
    - injection Hdir as <- <-. rewrite given_for_absent by done. split_and!; [constructor|done| |done..].
      intros tw' Hin. exfalso. apply HI. apply list_elem_of_fmap. by exists (t, tw'). }
  destruct (extend_all_ok (TableWatermarks.watermarks new) ew Hs) as (H1 & H2 & H3).
  split_and!; [|done| | |].
  - rewrite fmap_app, elem_of_app. right. by left.
  - intros tw' [?|[= ->]%list_elem_of_singleton]%elem_of_app; [by apply Hdn|done].
  - intros e. by rewrite H2, fmap_app, elem_of_app, Hel.
  - intros e. by rewrite H3, entries_at_app, Hat.
Qed.

(** Every two entries of one table have the same direction. *)
Definition same_directions (input : list (Z * TableWatermarks.t)) : Prop :=
  ∀ t tw1 tw2, (t, tw1) ∈ input → (t, tw2) ∈ input →
    TableWatermarks.direction tw1 = TableWatermarks.direction tw2.

(** Merging the watermarks of several sync batches.
    [merge_multiple_new_table_watermarks] panics exactly when two entries of one table
    disagree on the direction.  Otherwise each table given has an entry with strictly
    increasing epochs, precisely the epochs given for it, and in each epoch the vnode
    watermarks given for it in input order; no other table appears.  The hash maps'
    iteration order is arbitrary. *)
Theorem merge_table_watermarks_correct (l : list (list (Z * TableWatermarks.t))) :
  ((∃ m, MergeWatermarks.merge_multiple_new_table_watermarks l = Ret m) ↔ same_directions (mjoin l)) ∧
  ∀ m, MergeWatermarks.merge_multiple_new_table_watermarks l = Ret m →
    ∀ t, merged_ok t (mjoin l) (m !! t).
Proof.
  unfold MergeWatermarks.merge_multiple_new_table_watermarks. set (input := mjoin l).
  assert (∀ m, rfold MergeWatermarks.merge_table input ∅ = Ret m → ∀ t, merged_ok t input (m !! t)) as Hspec.
  { intros m Hrun.
    apply (rfold_inv_Ret MergeWatermarks.merge_table
      (λ dn (m : gmap Z TableWatermarks.t), ∀ t, merged_ok t dn (m !! t)) input ∅ m Hrun).
    - intros t. rewrite lookup_empty. apply not_elem_of_nil.
    - intros dn [t new] todo b b' _ HI Hstep. by apply (merge_table_ok _ _ _ b). }
  split; [|done]. split.
  - intros [m Hrun] t tw1 tw2 H1 H2. specialize (Hspec m Hrun t). unfold merged_ok in Hspec.
    destruct (m !! t) as [tw|].
    + destruct Hspec as (_ & _ & Hd & _). by rewrite (Hd tw1 H1), (Hd tw2 H2).
    + exfalso. apply Hspec. apply list_elem_of_fmap. by exists (t, tw1).
  - intros Hsame. destruct (rfold_inv MergeWatermarks.merge_table
      (λ dn (m : gmap Z TableWatermarks.t), ∀ t, merged_ok t dn (m !! t)) input ∅) as (m & Hm & _).
    + intros t. rewrite lookup_empty. apply not_elem_of_nil.
    + intros dn [t new] todo m Hin HI.
      assert (∃ m', MergeWatermarks.merge_table m (t, new) = Ret m') as [m' Hm'].
      { unfold MergeWatermarks.merge_table. pose proof (HI t) as Ht. destruct (m !! t) as [tw|]; [|by eexists].
        destruct Ht as (Hex & _ & Hd & _). apply list_elem_of_fmap in Hex as ([t0 tw0] & -> & Hex). simpl in *.
        rewrite bool_decide_true; [by eexists|]. rewrite <-(Hd tw0) by done. eapply (Hsame t0).
        - rewrite Hin, elem_of_app. right. by left.
        - rewrite Hin, elem_of_app. by left. }
      exists m'. split; [done|]. by eapply merge_table_ok.
    + by exists m.
Qed.

(** ** Extending table watermarks *)

Lemma last_epoch l e ws : last l = Some (e, ws) → ∃ l', l = l' ++ [(e, ws)].
Proof. intros [l' ->]%last_Some. by exists l'. Qed.

(** Appending a table's epochs after another's, when the first epoch comes after the last. *)
Lemma table_ok_app n tw tw' dir :
  table_ok n tw → table_ok n tw' →
  (∀ e ws e' ws', last (TableWatermarks.watermarks tw) = Some (e, ws) →
     head (TableWatermarks.watermarks tw') = Some (e', ws') → (e < e')%Z) →
  table_ok n (TableWatermarks.mk (TableWatermarks.watermarks tw ++ TableWatermarks.watermarks tw') dir).
Proof.
  intros [Hok Hs] [Hok' Hs'] Hlt. split; simpl; [by apply Forall_app|].
  rewrite fmap_app. apply StronglySorted_app_2; [|done..].
  destruct (TableWatermarks.watermarks tw') as [|[e' ws'] l']; [by intros ?? _ ?%elem_of_nil|].
  destruct (last (TableWatermarks.watermarks tw)) as [[e ws]|] eqn:El.
  2: { apply last_None in El as ->. by intros ?? ?%elem_of_nil. }
  specialize (Hlt e ws e' ws' eq_refl eq_refl). apply last_epoch in El as [l El].
  rewrite El, fmap_app in *. rewrite fmap_cons in *. apply StronglySorted_cons in Hs' as [Hf _].
  intros x y Hx Hy. rewrite Forall_forall in Hf.
  assert (x ≤ e)%Z.
  { apply elem_of_app in Hx as [Hx|Hx%list_elem_of_singleton]; [|simpl in Hx; lia].
    assert (x < e)%Z; [|lia]. eapply StronglySorted_app_1_elem_of; [exact Hs|done|by left]. }
  apply elem_of_cons in Hy as [->|Hy]; simpl in *; [lia|]. specialize (Hf y Hy). lia.
Qed.

(** The vnode count of a well-formed table is the common one, when it has any watermark. *)
Lemma vnode_count_ok n tw :
  table_ok n tw → vc_ok n (TableWatermarks.vnode_count tw).
Proof.
  intros [Hok _]. unfold TableWatermarks.vnode_count, vc_ok.
  destruct (head (mjoin (snd <$> TableWatermarks.watermarks tw))) as [w|] eqn:E; [right|by left].
  simpl. f_equal. assert (w ∈ mjoin (snd <$> TableWatermarks.watermarks tw)) as Hin.
  { destruct (mjoin _); [done|]. injection E as ->. by left. }
  apply list_elem_of_join in Hin as (ws & Hw & (entry & -> & Hentry)%list_elem_of_fmap).
  unfold entries_ok in Hok. rewrite Forall_forall in Hok. specialize (Hok entry Hentry).
  rewrite Forall_forall in Hok. by apply Hok.
Qed.

Lemma counts_agree n ws :
  Forall (wm_ok n) ws →
  ∀ w, w ∈ ws → forallb (λ w', VnodeWatermark.vnode_count w' =? VnodeWatermark.vnode_count w) ws = true.
Proof.
  intros Hws w Hw. rewrite Forall_forall in Hws. destruct (Hws w Hw) as [_ ->].
  apply forallb_forall. intros w' Hw'%list_elem_of_In. apply Nat.eqb_eq. by apply Hws.
Qed.

Lemma is_sorted_ok l : StronglySorted Z.lt l.*1 → TableWatermarks.is_sorted l = true.
Proof.
  induction l as [|[e1 ws1] l IH]; [done|]. rewrite fmap_cons. intros [Hf Hs]%StronglySorted_cons.
  specialize (IH Hs). cbn [TableWatermarks.is_sorted]. destruct l as [|[e2 ws2] l]; [done|].
  rewrite fmap_cons in Hf. apply Forall_cons in Hf as [Hlt _]. simpl in Hlt.
  by rewrite (proj2 (Z.leb_le _ _)), IH by lia.
Qed.

(** The last epoch of the table, if any, is before [e]. *)
Definition before_epoch (tw : TableWatermarks.t) (e : Z) : bool :=
  match last (TableWatermarks.watermarks tw) with Some (prev, _) => (prev <? e)%Z | None => true end.

(** Extending a table's watermarks.  On a well-formed table, with watermarks over the same
    vnodes, [add_new_epoch_watermarks] returns exactly when the direction is the table's and
    the epoch is after its last one; [apply_new_table_watermarks] likewise for the first
    epoch of the added table.  The result is well-formed and has the new entries at the
    back; otherwise the call panics. *)
Theorem extend_table_watermarks n tw (epoch : Z) (ws : list VnodeWatermark.t) dir new :
  table_ok n tw → Forall (wm_ok n) ws → table_ok n new →
  TableWatermarks.add_new_epoch_watermarks tw epoch ws dir =
    (if bool_decide (TableWatermarks.direction tw = dir) && before_epoch tw epoch
     then Ret (TableWatermarks.mk (TableWatermarks.watermarks tw ++ [(epoch, ws)]) dir) else Panic) ∧
  TableWatermarks.apply_new_table_watermarks tw new =
    (if bool_decide (TableWatermarks.direction tw = TableWatermarks.direction new) &&
        match head (TableWatermarks.watermarks new) with Some (e, _) => before_epoch tw e | None => true end
     then Ret (TableWatermarks.mk (TableWatermarks.watermarks tw ++ TableWatermarks.watermarks new)
                 (TableWatermarks.direction tw))
     else Panic) ∧
  (before_epoch tw epoch = true →
   table_ok n (TableWatermarks.mk (TableWatermarks.watermarks tw ++ [(epoch, ws)]) dir)) ∧
  (match head (TableWatermarks.watermarks new) with Some (e, _) => before_epoch tw e | None => true end
     = true →
   table_ok n (TableWatermarks.mk (TableWatermarks.watermarks tw ++ TableWatermarks.watermarks new) dir)).
Proof.
  intros Htw Hws Hnew. split_and!.
  - unfold TableWatermarks.add_new_epoch_watermarks, before_epoch.
    case_bool_decide as Hd; [|done]. subst dir. cbn [rassert mbind outcome_bind andb].
    assert (match ws with
      | [] => Ret tt
      | w :: _ => rassert (forallb (λ w', VnodeWatermark.vnode_count w' =? VnodeWatermark.vnode_count w) ws)
          ≫= λ _, match TableWatermarks.vnode_count tw with
                  | Some c => rassert (c =? VnodeWatermark.vnode_count w)
                  | None => Ret tt
                  end
      end = Ret tt) as Hcounts.
    { destruct ws as [|w ws]; [done|]. rewrite (counts_agree n) by (done || by left). simpl.
      apply Forall_cons in Hws as [[_ ->] _]. destruct (vnode_count_ok n tw Htw) as [->| ->]; [done|].
      by rewrite Nat.eqb_refl. }
    destruct (last (TableWatermarks.watermarks tw)) as [[prev ?]|]; cbn [mbind outcome_bind].
    + destruct (prev <? epoch)%Z; [|done]. cbn [rassert mbind outcome_bind].
      etransitivity; [apply (f_equal (λ o, o ≫= _) Hcounts)|done].
    + etransitivity; [apply (f_equal (λ o, o ≫= _) Hcounts)|done].
  - unfold TableWatermarks.apply_new_table_watermarks, before_epoch.
    rewrite !is_sorted_ok by apply Htw || apply Hnew.
    case_bool_decide; [|done]. cbn [rassert mbind outcome_bind andb].
    destruct (last _) as [[? ?]|], (head _) as [[? ?]|]; try done. by destruct (_ <? _)%Z.
  - intros He. apply (table_ok_app n tw (TableWatermarks.mk [(epoch, ws)] dir)); [done| |].
    + split; [by apply Forall_singleton|by repeat constructor].
    + intros e0 ws0 e' ws' Hl [= <- <-]. unfold before_epoch in He. rewrite Hl in He. lia.
  - intros He. apply table_ok_app; [done..|]. intros e0 ws0 e' ws' Hl Hh.
    rewrite Hh in He. unfold before_epoch in He. rewrite Hl in He. lia.
Qed.

Lemma extend_table_watermarks_witness :
  let w := VnodeWatermark.mk (Bitmap.ones 2) [Byte.x10] in
  TableWatermarks.add_new_epoch_watermarks example_table 4 [w] WatermarkDirection.Ascending =
    Ret (TableWatermarks.mk (TableWatermarks.watermarks example_table ++ [(4%Z, [w])])
           WatermarkDirection.Ascending) ∧
  TableWatermarks.add_new_epoch_watermarks example_table 3 [w] WatermarkDirection.Ascending = Panic.
Proof.
  intros w. assert (Forall (wm_ok 2) [w]) as Hw by (apply Forall_singleton; split; [apply ones_ok|done]).
  split.
  - apply (extend_table_watermarks 2 example_table 4 [w] WatermarkDirection.Ascending example_table);
      [apply example_table_ok|done|apply example_table_ok].
  - apply (extend_table_watermarks 2 example_table 3 [w] WatermarkDirection.Ascending example_table);
      [apply example_table_ok|done|apply example_table_ok].
Defined.

(** ** Protobuf *)

Lemma rmap_fmap {A B} (f : A → outcome B) (g : B → A) (l : list B) :
  Forall (λ x, f (g x) = Ret x) l → rmap f (g <$> l) = Ret l.
Proof.
  intros Hl. apply rmap_Ret. apply Forall2_fmap_l. apply Forall_Forall2_diag. done.
Qed.

(** The protobuf form of a table's watermarks is lossless: decoding what [to_protobuf]
    writes gives the same epochs, watermarks, bitmaps and direction. *)
Theorem table_watermarks_protobuf_round_trip n tw :
  table_ok n tw → (Z.of_nat n + 7 < 2 ^ 64)%Z →
  TableWatermarks.from_protobuf (TableWatermarks.to_protobuf tw) = Ret tw.
Proof.
  intros [Hok _] Hn. unfold TableWatermarks.from_protobuf. destruct tw as [ws dir]. simpl in *.
  rewrite rmap_fmap; [by destruct dir|]. eapply Forall_impl; [exact Hok|]. intros [e vws] Hvws.
  simpl in *. rewrite rmap_fmap; [done|]. eapply Forall_impl; [exact Hvws|]. intros w [Hb Hc].
  unfold VnodeWatermark.vnode_count, Bitmap.len in Hc. unfold VnodeWatermark.from_protobuf. simpl.
  rewrite from_to_protobuf; [by destruct w|done|lia].
Qed.

Lemma table_watermarks_protobuf_round_trip_witness :
  TableWatermarks.from_protobuf (TableWatermarks.to_protobuf example_table) = Ret example_table.
Proof. apply (table_watermarks_protobuf_round_trip 2); [apply example_table_ok|by vm_compute]. Defined.
