(* ===== verification/Sst.v ===== *)
(** * Sorted tables and overlap of compaction inputs

    [src/storage/hummock_sdk/src/sstable_info.rs] and [lib.rs] (concatenation of sorted
    tables) and [src/meta/src/hummock/compaction/overlap_strategy.rs] (which tables of a level
    a compaction has to take along). *)

From Stdlib Require Import ZArith Lia.
From S2P Require Import Prelude Order Bytes Epoch Bits Bitmap Vnode Key KeySpec KeyRange.

Module SstableInfo.

(** [SstableInfoInner]; [bloom_filter_kind] is its protobuf number. *)
Record t := mk {
  object_id : Z;
  sst_id : Z;
  key_range : KeyRange.t;
  file_size : Z;
  table_ids : list Z;
  meta_offset : Z;
  stale_key_count : Z;
  total_key_count : Z;
  min_epoch : Z;
  max_epoch : Z;
  uncompressed_file_size : Z;
  range_tombstone_count : Z;
  bloom_filter_kind : Z;
  sst_size : Z
}.

#[global] Instance t_eq_dec : EqDecision t.
Proof. solve_decision. Defined.

End SstableInfo.

(** [compare_right_with(..) == Less] and the like. *)
Definition is_lt (c : comparison) : bool := match c with Lt => true | _ => false end.
Definition is_gt (c : comparison) : bool := match c with Gt => true | _ => false end.

(** [can_concat]: the loop over neighbours. *)
Fixpoint can_concat (ssts : list SstableInfo.t) : outcome bool :=
  match ssts with
  | a :: ((b :: _) as rest) =>
      c ← KeyRange.compare_right_with (SstableInfo.key_range a) (KeyRange.left (SstableInfo.key_range b));
      if is_lt c then can_concat rest else Ret false
  | _ => Ret true
  end.

Fixpoint full_key_can_concat (ssts : list SstableInfo.t) : outcome bool :=
  match ssts with
  | a :: ((b :: _) as rest) =>
      c ← KeyRange.compare_right_with (SstableInfo.key_range a) (KeyRange.left (SstableInfo.key_range b));
      if (if KeyRange.right_exclusive (SstableInfo.key_range a) then is_gt c else negb (is_lt c))
      then Ret false
      else full_key_can_concat rest
  | _ => Ret true
  end.

(** [partition_point] with a predicate that may panic, on a slice it partitions. *)
Fixpoint rpartition_point {A} (P : A → outcome bool) (l : list A) : outcome nat :=
  match l with
  | [] => Ret 0
  | x :: l' =>
      b ← P x;
      if (b : bool) then S <$> rpartition_point P l' else Ret 0
  end.

Fixpoint rfilter {A} (P : A → outcome bool) (l : list A) : outcome (list A) :=
  match l with
  | [] => Ret []
  | x :: l' =>
      b ← P x;
      l'' ← rfilter P l';
      Ret (if (b : bool) then x :: l'' else l'')
  end.

Definition check_table_overlap (key_range : KeyRange.t) (table : SstableInfo.t) : outcome bool :=
  KeyRange.sstable_overlap key_range (SstableInfo.key_range table).

Module RangeOverlapInfo.

Record t := mk { target_range : option KeyRange.t }.

Definition default : t := mk None.

Definition check_overlap (self : t) (a : SstableInfo.t) : outcome bool :=
  match target_range self with
  | Some range => check_table_overlap range a
  | None => Ret false
  end.

Definition check_multiple_overlap (self : t) (others : list SstableInfo.t) : outcome (nat * nat) :=
  match target_range self with
  | Some key_range =>
      overlap_begin ← rpartition_point (λ table_status,
        is_lt <$> KeyRange.compare_right_with (SstableInfo.key_range table_status) (KeyRange.left key_range))
        others;
      if (length others <=? overlap_begin) then Ret (overlap_begin, overlap_begin)
      else
        overlap_end ← rpartition_point (λ table_status,
          negb ∘ is_lt <$> KeyRange.compare_right_with key_range
                             (KeyRange.left (SstableInfo.key_range table_status))) others;
        Ret (overlap_begin, overlap_end)
  | None => Ret (length others, length others)
  end.

(** The loop that extends the included range. *)
Fixpoint include_end (key_range : KeyRange.t) (tables : list SstableInfo.t) (overlap_end : nat)
  : outcome nat :=
  match tables with
  | [] => Ret overlap_end
  | table :: tables' =>
      c ← KeyRange.compare_right_with key_range (KeyRange.right (SstableInfo.key_range table));
      if is_lt c then Ret overlap_end else include_end key_range tables' (overlap_end + 1)
  end.

Definition check_multiple_include (self : t) (others : list SstableInfo.t) : outcome (nat * nat) :=
  match target_range self with
  | Some key_range =>
      overlap_begin ← rpartition_point (λ table_status,
        is_lt <$> KeyComparator.compare_encoded_full_key
                    (KeyRange.left (SstableInfo.key_range table_status)) (KeyRange.left key_range)) others;
      if (length others <=? overlap_begin) then Ret (overlap_begin, overlap_begin)
      else
        overlap_end ← include_end key_range (drop overlap_begin others) overlap_begin;
        Ret (overlap_begin, overlap_end)
  | None => Ret (length others, length others)
  end.

Definition update (self : t) (table : SstableInfo.t) : outcome t :=
  let other := SstableInfo.key_range table in
  match target_range self with
  | Some range => range ← KeyRange.full_key_extend range other; Ret (mk (Some range))
  | None => Ret (mk (Some other))
  end.

End RangeOverlapInfo.

Module RangeOverlapStrategy.

Definition check_overlap (a b : SstableInfo.t) : outcome bool :=
  check_table_overlap (SstableInfo.key_range a) b.

Definition create_overlap_info : RangeOverlapInfo.t := RangeOverlapInfo.default.

Definition check_base_level_overlap (tables others : list SstableInfo.t) : outcome (list SstableInfo.t) :=
  info ← rfold RangeOverlapInfo.update tables create_overlap_info;
  '(first, last) ← RangeOverlapInfo.check_multiple_overlap info others;
  if (last <=? first) then Ret []
  else
    _ ← rassert (last <=? length others);
    Ret (take (last - first) (drop first others)).

Definition check_overlap_with_tables (tables others : list SstableInfo.t) : outcome (list SstableInfo.t) :=
  if bool_decide (tables = []) || bool_decide (others = []) then Ret []
  else
    info ← rfold RangeOverlapInfo.update tables create_overlap_info;
    rfilter (RangeOverlapInfo.check_overlap info) others.

End RangeOverlapStrategy.
