(* ===== verification/SstSpec.v ===== *)
(** * Overlap of a compaction with a sorted level

    On a level of sorted, non-overlapping tables the binary searches of
    [overlap_strategy.rs] find exactly the overlapping (and the included) tables, so
    [check_base_level_overlap] agrees with the exhaustive [check_overlap_with_tables]; the
    two concatenation tests of [lib.rs] coincide ([Sst.v]). *)

From Stdlib Require Import ZArith Lia.
From stdpp Require Import sorting.
From S2P Require Import Prelude Order Bytes Epoch Bits Bitmap Vnode Key KeySpec KeyRange Sst.

Implicit Types (r : KeyRange.t) (t : SstableInfo.t) (l h k : FullKey.t) (u : UserKey.t).

(** ** Concatenation *)

Lemma compare_right_exclusive r key c :
  KeyRange.right_exclusive r = true → KeyRange.compare_right_with r key = Ret c → c ≠ Eq.
Proof.
  intros Hx Hc. unfold KeyRange.compare_right_with, KeyRange.compare_right_with_user_key in Hc.
  rewrite Hx in Hc. outcome_inv. subst c. by destruct (UserKey.cmp _ _).
Qed.

Lemma can_concat_cons a b ssts :
  can_concat (a :: b :: ssts) =
  c ← KeyRange.compare_right_with (SstableInfo.key_range a) (KeyRange.left (SstableInfo.key_range b));
  if is_lt c then can_concat (b :: ssts) else Ret false.
Proof. done. Qed.

Lemma full_key_can_concat_cons a b ssts :
  full_key_can_concat (a :: b :: ssts) =
  c ← KeyRange.compare_right_with (SstableInfo.key_range a) (KeyRange.left (SstableInfo.key_range b));
  if (if KeyRange.right_exclusive (SstableInfo.key_range a) then is_gt c else negb (is_lt c))
  then Ret false else full_key_can_concat (b :: ssts).
Proof. done. Qed.

(** The two concatenation tests agree on every list of tables, panics included: the
    comparison of an exclusive right bound never returns [Equal], so the separate branch of
    [full_key_can_concat] decides as [can_concat] does. *)
Theorem full_key_can_concat_equiv (ssts : list SstableInfo.t) :
  full_key_can_concat ssts = can_concat ssts.
Proof.
  induction ssts as [|a [|b ssts] IH]; [done..|].
  rewrite can_concat_cons, full_key_can_concat_cons.
  destruct (KeyRange.compare_right_with _ _) as [c|] eqn:Ec; [|done]. cbn [mbind outcome_bind].
  rewrite IH.
  destruct (KeyRange.right_exclusive (SstableInfo.key_range a)) eqn:Ex.
  - pose proof (compare_right_exclusive _ _ _ Ex Ec). by destruct c.
  - by destruct c.
Qed.

(** ** Ranges with both bounds *)

(** The user keys up to an upper bound. *)
Definition reaches (excl : bool) h u : bool :=
  if excl then cmp_ltb UserKey.cmp u (FullKey.user_key h) else cmp_leb UserKey.cmp u (FullKey.user_key h).

Lemma reaches_ok excl h u : reaches excl h u = true ↔ user_upper_ok excl (Some h) u.
Proof.
  unfold reaches, user_upper_ok. destruct excl; [apply (cmp_ltb_lt UserKey.cmp)|apply (cmp_leb_le UserKey.cmp)].
Qed.

Lemma reaches_down excl h u v :
  UserKey.cmp u v ≠ Gt → reaches excl h v = true → reaches excl h u = true.
Proof. rewrite !reaches_ok. apply user_upper_down_closed. Qed.

(** What is reached is not after the bound, and what is not reached is not before it. *)
Lemma reaches_le excl h u : reaches excl h u = true → UserKey.cmp u (FullKey.user_key h) ≠ Gt.
Proof.
  unfold reaches. destruct excl; [intros E%(cmp_ltb_lt UserKey.cmp); by rewrite E|by intros ?%(cmp_leb_le UserKey.cmp)].
Qed.

Lemma not_reaches_le excl h u : reaches excl h u = false → UserKey.cmp (FullKey.user_key h) u ≠ Gt.
Proof.
  unfold reaches. intros H. rewrite (cmp_le_not_lt UserKey.cmp). destruct excl.
  - intros E%(cmp_ltb_lt UserKey.cmp). congruence.
  - intros E. assert (cmp_leb UserKey.cmp u (FullKey.user_key h) = true); [|congruence].
    apply (cmp_leb_le UserKey.cmp). by rewrite E.
Qed.

(** A non-empty range of user keys with finite bounds. *)
Definition range_ok r l h : Prop :=
  bounded_by r (Some l) (Some h) ∧ reaches (KeyRange.right_exclusive r) h (FullKey.user_key l) = true.

Lemma compare_right_eval r l h k :
  range_ok r l h → full_key_ok k →
  ∃ c, KeyRange.compare_right_with r (FullKey.encode k) = Ret c ∧
    is_lt c = negb (reaches (KeyRange.right_exclusive r) h (FullKey.user_key k)).
Proof.
  intros [(_ & HR & _ & Hh) _] Hk. simpl in *.
  unfold KeyRange.compare_right_with, KeyRange.compare_right_with_user_key.
  rewrite full_key_decode_encode by done. cbn [mbind outcome_bind]. rewrite HR.
  rewrite full_key_decode_encode by done. cbn [mbind outcome_bind]. unfold reaches, cmp_ltb, cmp_leb.
  rewrite (cmp_antisym UserKey.cmp (FullKey.user_key h) (FullKey.user_key k)).
  destruct (KeyRange.right_exclusive r); eexists; (split; [done|]);
    by destruct (UserKey.cmp (FullKey.user_key h) (FullKey.user_key k)).
Qed.

Lemma sstable_overlap_reaches a b la ha lb hb :
  range_ok a la ha → range_ok b lb hb →
  KeyRange.sstable_overlap a b =
    Ret (reaches (KeyRange.right_exclusive a) ha (FullKey.user_key lb) &&
         reaches (KeyRange.right_exclusive b) hb (FullKey.user_key la)).
Proof.
  intros [Ha _] [Hb _]. destruct (sstable_overlap_eval a b _ _ _ _ Ha Hb) as (x & -> & Hiff). f_equal.
  apply eq_bool_prop_intro. rewrite !Is_true_true, andb_true_iff, !reaches_ok. exact Hiff.
Qed.

(** ** Sorted levels *)

Definition sst_ok t : Prop := ∃ l h, range_ok (SstableInfo.key_range t) l h.

(** Table [a] lies before table [b]. *)
Definition before (a b : SstableInfo.t) : Prop :=
  KeyRange.compare_right_with (SstableInfo.key_range a) (KeyRange.left (SstableInfo.key_range b)) = Ret Lt.

Lemma before_reaches a b la ha lb hb :
  range_ok (SstableInfo.key_range a) la ha → range_ok (SstableInfo.key_range b) lb hb →
  before a b ↔ reaches (KeyRange.right_exclusive (SstableInfo.key_range a)) ha (FullKey.user_key lb) = false.
Proof.
  intros Ha Hb. pose proof Hb as [(HL & _ & Hl & _) _]. unfold before. rewrite HL. simpl in *.
  destruct (compare_right_eval _ _ _ lb Ha Hl) as (c & -> & Hc). rewrite <-negb_true_iff, <-Hc.
  destruct c; naive_solver.
Qed.

Lemma before_trans a b c : sst_ok a → sst_ok b → sst_ok c → before a b → before b c → before a c.
Proof.
  intros (la & ha & Ha) (lb & hb & Hb) (lc & hc & Hc). rewrite !before_reaches by done.
  intros H1 H2. pose proof Hb as [_ Hne]. apply not_true_is_false. intros H3.
  assert (reaches (KeyRange.right_exclusive (SstableInfo.key_range a)) ha (FullKey.user_key lb) = true); [|congruence].
  eapply reaches_down; [|exact H3]. eapply (cmp_le_trans UserKey.cmp); [by eapply reaches_le|by eapply not_reaches_le].
Qed.

Lemma can_concat_sorted ssts :
  Forall sst_ok ssts → can_concat ssts = Ret true → StronglySorted before ssts.
Proof.
  intros Hok. induction ssts as [|a ssts IH]; [constructor|]. apply Forall_cons in Hok as [Ha Hok].
  destruct ssts as [|b ssts]; [by repeat constructor|]. rewrite can_concat_cons.
  destruct (KeyRange.compare_right_with _ _) as [[]|] eqn:E; try done. cbn [mbind outcome_bind is_lt].
  intros Hcc. specialize (IH Hok Hcc).
  constructor; [done|]. apply StronglySorted_cons in IH as [Hf _]. apply Forall_cons in Hok as [Hb Hok].
  constructor; [done|]. rewrite Forall_forall in Hf, Hok |- *. intros c Hc.
  apply (before_trans a b c); auto.
Qed.

(** ** Partition points *)

(** The value of a predicate that does not panic. *)
Definition val {A} (P : A → outcome bool) (x : A) : bool := match P x with Ret b => b | Panic => false end.
Definition total_on {A} (P : A → outcome bool) (xs : list A) : Prop := Forall (λ x, P x = Ret (val P x)) xs.

Abbreviation partition_point := VnodeMapping.partition_point.

Lemma rpartition_point_ok {A} (P : A → outcome bool) xs :
  total_on P xs → rpartition_point P xs = Ret (partition_point (val P) xs).
Proof.
  induction 1 as [|x xs Hx _ IH]; [done|]. simpl. rewrite Hx, IH. cbn [mbind outcome_bind].
  by destruct (val P x).
Qed.

Lemma rfilter_ok {A} (P : A → outcome bool) xs :
  total_on P xs → rfilter P xs = Ret (filter (λ x, val P x = true) xs).
Proof.
  induction 1 as [|x xs Hx _ IH]; [done|]. simpl. rewrite Hx, IH. cbn [mbind outcome_bind].
  rewrite filter_cons. destruct (val P x); [by rewrite decide_True|by rewrite decide_False].
Qed.

Section partition.
Context {A : Type} (p q : A → bool).

(** [p] holds on a prefix. *)
Definition prefix_closed (xs : list A) : Prop := StronglySorted (λ x y, p y = true → p x = true) xs.

Lemma partition_point_le xs : partition_point p xs ≤ length xs.
Proof. induction xs as [|x xs IH]; simpl; [lia|]. destruct (p x); lia. Qed.

Lemma partition_point_lookup xs i x :
  prefix_closed xs → xs !! i = Some x → (p x = true ↔ i < partition_point p xs).
Proof.
  intros Hs. revert i. induction Hs as [|y xs Hs IH Hf]; intros i Hi; [done|]. simpl.
  destruct i as [|i]; simpl in Hi.
  - injection Hi as ->. destruct (p x); split; (done || lia).
  - destruct (p y) eqn:Ey.
    + rewrite (IH i Hi). lia.
    + split; [|lia]. intros Hx. rewrite Forall_forall in Hf.
      specialize (Hf x (list_elem_of_lookup_2 _ _ _ Hi) Hx). simpl in Hf. congruence.
Qed.
End partition.

Lemma filter_ext_in {A} (P Q : A → Prop) `{!∀ x, Decision (P x), !∀ x, Decision (Q x)} (xs : list A) :
  (∀ x, x ∈ xs → P x ↔ Q x) → filter P xs = filter Q xs.
Proof.
  induction xs as [|x xs IH]; intros Heq; [done|]. rewrite !filter_cons.
  rewrite IH by (intros y Hy; apply Heq; by right).
  destruct (Heq x ltac:(by left)) as [H1 H2]. repeat case_decide; tauto.
Qed.

(** Between two partition points lie the elements failing the first predicate and satisfying
    the second. *)
Lemma filter_between {A} (p q : A → bool) xs :
  prefix_closed p xs → prefix_closed q xs →
  filter (λ x, negb (p x) && q x = true) xs =
  take (partition_point q xs - partition_point p xs) (drop (partition_point p xs) xs).
Proof.
  assert (∀ ys, prefix_closed q ys → filter (λ x, q x = true) ys = take (partition_point q ys) ys) as Hq.
  { induction 1 as [|y ys Hs IH Hf]; [done|]. rewrite filter_cons. simpl. destruct (q y) eqn:Ey.
    - rewrite decide_True by done. by rewrite IH.
    - rewrite decide_False by done. simpl. rewrite IH. clear IH Hs.
      destruct Hf as [|z ys Hz Hf]; [done|]. simpl. destruct (q z); [|done]. discriminate (Hz eq_refl). }
  intros Hp Hqs. induction Hp as [|y ys Hs IH Hf]; [done|].
  pose proof Hqs as [Hfq Hqs']%StronglySorted_cons. destruct (p y) eqn:Ey.
  - rewrite filter_cons_False by (by rewrite Ey). rewrite IH by done. simpl. rewrite Ey.
    destruct (q y) eqn:Eq; [done|]. simpl.
    assert (partition_point q ys = 0) as E0.
    { destruct Hfq as [|z ys Hz _]; [done|]. simpl. destruct (q z); [|done]. discriminate (Hz eq_refl). }
    by rewrite E0.
  - assert (filter (λ x, negb (p x) && q x = true) (y :: ys) = filter (λ x, q x = true) (y :: ys)) as E.
    { apply filter_ext_in. intros x [->|Hx]%elem_of_cons; [by rewrite Ey|].
      destruct (p x) eqn:Ex; [|done]. rewrite Forall_forall in Hf. specialize (Hf x Hx Ex). simpl in Hf. congruence. }
    rewrite E, (Hq (y :: ys)) by done. simpl. rewrite Ey. by rewrite Nat.sub_0_r.
Qed.

(** ** The searches on a sorted level *)

(** A level of non-empty tables in order that do not overlap. *)
Definition level_ok (others : list SstableInfo.t) : Prop :=
  Forall sst_ok others ∧ can_concat others = Ret true.

Lemma sorted_impl {A} (R S : A → A → Prop) (P : A → Prop) xs :
  Forall P xs → StronglySorted R xs → (∀ x y, P x → P y → R x y → S x y) → StronglySorted S xs.
Proof.
  intros HP HR HS. induction HR as [|x xs HR IH Hf]; [constructor|]. apply Forall_cons in HP as [Hx HP].
  constructor; [by apply IH|]. rewrite Forall_forall in Hf, HP |- *. auto.
Qed.

Section target.
Context (r : KeyRange.t) (l h : FullKey.t) (Hr : range_ok r l h).

Definition ends_before t : outcome bool :=
  is_lt <$> KeyRange.compare_right_with (SstableInfo.key_range t) (KeyRange.left r).
Definition starts_within t : outcome bool :=
  negb ∘ is_lt <$> KeyRange.compare_right_with r (KeyRange.left (SstableInfo.key_range t)).

Lemma ends_before_eval t lt ht :
  range_ok (SstableInfo.key_range t) lt ht →
  ends_before t = Ret (negb (reaches (KeyRange.right_exclusive (SstableInfo.key_range t)) ht (FullKey.user_key l))).
Proof.
  intros Ht. destruct Hr as [(HL & _ & Hl & _) _]. unfold ends_before. rewrite HL. cbn [enc].
  destruct (compare_right_eval _ _ _ l Ht Hl) as (c & -> & Hc). simpl. by rewrite Hc.
Qed.

Lemma starts_within_eval t lt ht :
  range_ok (SstableInfo.key_range t) lt ht →
  starts_within t = Ret (reaches (KeyRange.right_exclusive r) h (FullKey.user_key lt)).
Proof.
  intros [(HL & _ & Hl & _) _]. unfold starts_within. rewrite HL. cbn [enc].
  destruct (compare_right_eval _ _ _ lt Hr Hl) as (c & -> & Hc). simpl. by rewrite Hc, negb_involutive.
Qed.

Lemma searches_total others :
  Forall sst_ok others → total_on ends_before others ∧ total_on starts_within others ∧
    total_on (check_table_overlap r) others.
Proof using Hr.
  intros Hok. split_and!; (eapply Forall_impl; [exact Hok|]); intros t (lt & ht & Ht); unfold val.
  - by rewrite (ends_before_eval _ _ _ Ht).
  - by rewrite (starts_within_eval _ _ _ Ht).
  - unfold check_table_overlap. by rewrite (sstable_overlap_reaches _ _ _ _ _ _ Hr Ht).
Qed.

Lemma overlap_val t :
  sst_ok t → val (check_table_overlap r) t = negb (val ends_before t) && val starts_within t.
Proof using Hr.
  intros (lt & ht & Ht). unfold val.
  rewrite (ends_before_eval _ _ _ Ht), (starts_within_eval _ _ _ Ht).
  unfold check_table_overlap. rewrite (sstable_overlap_reaches _ _ _ _ _ _ Hr Ht).
  by rewrite negb_involutive, andb_comm.
Qed.

Lemma searches_closed others :
  Forall sst_ok others → StronglySorted before others →
  prefix_closed (val ends_before) others ∧ prefix_closed (val starts_within) others.
Proof using Hr.
  intros Hok Hs. split; (eapply sorted_impl; [exact Hok|exact Hs|]); intros a b (la & ha & Ha) (lb & hb & Hb) Hbef;
    apply (before_reaches _ _ _ _ _ _ Ha Hb) in Hbef; unfold val.
  - rewrite (ends_before_eval _ _ _ Ha), (ends_before_eval _ _ _ Hb), !negb_true_iff. intros H1.
    apply not_true_is_false. intros H2. pose proof Hb as [_ Hne].
    assert (reaches (KeyRange.right_exclusive (SstableInfo.key_range a)) ha (FullKey.user_key lb) = true); [|congruence].
    eapply reaches_down; [|exact H2].
    eapply (cmp_le_trans UserKey.cmp); [by eapply reaches_le|by eapply not_reaches_le].
  - rewrite (starts_within_eval _ _ _ Ha), (starts_within_eval _ _ _ Hb). pose proof Ha as [_ Hne].
    apply reaches_down. eapply (cmp_le_trans UserKey.cmp); [by eapply reaches_le|by eapply not_reaches_le].
Qed.

(** The range found, and the tables in it. *)
Lemma multiple_overlap_tables others :
  level_ok others →
  ∃ first last, RangeOverlapInfo.check_multiple_overlap (RangeOverlapInfo.mk (Some r)) others = Ret (first, last) ∧
    last ≤ length others ∧
    filter (λ t, val (check_table_overlap r) t = true) others = take (last - first) (drop first others) ∧
    ∀ i t, others !! i = Some t → (val (check_table_overlap r) t = true ↔ first ≤ i < last).
Proof using Hr.
  intros [Hok Hcc]. pose proof (can_concat_sorted _ Hok Hcc) as Hs.
  destruct (searches_total others Hok) as (T1 & T2 & _). destruct (searches_closed others Hok Hs) as [C1 C2].
  set (p := partition_point (val ends_before) others). set (q := partition_point (val starts_within) others).
  assert (filter (λ t, val (check_table_overlap r) t = true) others = take (q - p) (drop p others)) as Hfilter.
  { unfold p, q. rewrite <-filter_between by done. apply filter_ext_in. intros t Ht. rewrite Forall_forall in Hok.
    by rewrite overlap_val by auto. }
  assert (∀ i t, others !! i = Some t → (val (check_table_overlap r) t = true ↔ p ≤ i < q)) as Hiff.
  { intros i t Hi. rewrite Forall_forall in Hok. rewrite overlap_val by (eapply Hok, list_elem_of_lookup_2; done).
    rewrite andb_true_iff, negb_true_iff, <-not_true_iff_false.
    rewrite (partition_point_lookup _ _ _ _ C1 Hi), (partition_point_lookup _ _ _ _ C2 Hi). fold p q. lia. }
  pose proof (partition_point_le (val ends_before) others) as Hp. pose proof (partition_point_le (val starts_within) others) as Hq.
  fold p in Hp. fold q in Hq.
  unfold RangeOverlapInfo.check_multiple_overlap. cbn [RangeOverlapInfo.target_range].
  change (λ table_status, is_lt <$> KeyRange.compare_right_with (SstableInfo.key_range table_status) (KeyRange.left r))
    with ends_before.
  change (λ table_status, negb ∘ is_lt <$> KeyRange.compare_right_with r (KeyRange.left (SstableInfo.key_range table_status)))
    with starts_within.
  rewrite (rpartition_point_ok ends_before) by done. cbn [mbind outcome_bind]. fold p.
  destruct (Nat.leb_spec (length others) p) as [Hge|Hlt].
  - exists p, p. split; [done|]. split; [done|]. rewrite Hfilter, !drop_ge, !take_nil by done.
    split; [done|]. intros i t Hi. rewrite (Hiff i t Hi). apply lookup_lt_Some in Hi. lia.
  - rewrite (rpartition_point_ok starts_within) by done. cbn [mbind outcome_bind]. fold q. by exists p, q.
Qed.
End target.

(** ** The hull of the compaction's tables *)

(** Exclusive right bounds carry the largest epoch, as the split keys of compaction groups do,
    and inclusive ones never do. *)
Definition right_epoch_ok r h : Prop :=
  KeyRange.right_exclusive r = bool_decide (FullKey.epoch_with_gap h = u64_max).

Definition table_wf t : Prop :=
  ∃ l h, range_ok (SstableInfo.key_range t) l h ∧ right_epoch_ok (SstableInfo.key_range t) h.

Lemma table_wf_ok t : table_wf t → sst_ok t.
Proof. intros (l & h & H & _). by exists l, h. Qed.

(** A later upper bound reaches at least as far. *)
Lemma reaches_mono h1 h2 u :
  full_key_ok h1 → FullKey.cmp h1 h2 ≠ Gt →
  reaches (bool_decide (FullKey.epoch_with_gap h1 = u64_max)) h1 u = true →
  reaches (bool_decide (FullKey.epoch_with_gap h2 = u64_max)) h2 u = true.
Proof.
  intros [_ He] Hle Hu. apply (cmp_le_cases FullKey.cmp) in Hle as [Hlt| ->]; [|done].
  unfold FullKey.cmp, then_with in Hlt.
  destruct (UserKey.cmp (FullKey.user_key h1) (FullKey.user_key h2)) eqn:E; [| |done].
  - apply (cmp_eq_iff UserKey.cmp) in E. rewrite Z.compare_lt_iff in Hlt. unfold is_uint in He.
    rewrite bool_decide_false by (unfold u64_max; lia). apply reaches_le in Hu. rewrite E in Hu.
    unfold reaches. by apply (cmp_leb_le UserKey.cmp).
  - assert (UserKey.cmp u (FullKey.user_key h2) = Lt) as Hlt2.
    { eapply (cmp_le_lt_trans UserKey.cmp); [by eapply reaches_le|done]. }
    unfold reaches, cmp_ltb, cmp_leb. rewrite Hlt2. by destruct (bool_decide (FullKey.epoch_with_gap h2 = u64_max)).
Qed.

(** [r] covers the user keys of [a]. *)
Definition covers_range r (l h : FullKey.t) (a : SstableInfo.t) : Prop :=
  ∀ la ha, range_ok (SstableInfo.key_range a) la ha → right_epoch_ok (SstableInfo.key_range a) ha →
    UserKey.cmp (FullKey.user_key l) (FullKey.user_key la) ≠ Gt ∧
    ∀ u, reaches (KeyRange.right_exclusive (SstableInfo.key_range a)) ha u = true →
         reaches (KeyRange.right_exclusive r) h u = true.

Lemma full_le_user a b : FullKey.cmp a b ≠ Gt → UserKey.cmp (FullKey.user_key a) (FullKey.user_key b) ≠ Gt.
Proof. unfold FullKey.cmp, then_with. by destruct (UserKey.cmp _ _). Qed.

Lemma range_ok_inj r l h l' h' : range_ok r l h → range_ok r l' h' → l = l' ∧ h = h'.
Proof.
  intros [(HL & HR & Hl & Hh) _] [(HL' & HR' & Hl' & Hh') _]. simpl in *.
  rewrite HL in HL'. rewrite HR in HR'. split.
  - apply (f_equal FullKey.decode) in HL'. rewrite !full_key_decode_encode in HL' by done. congruence.
  - apply (f_equal FullKey.decode) in HR'. rewrite !full_key_decode_encode in HR' by done. congruence.
Qed.

Lemma update_ok r l h t :
  range_ok r l h → right_epoch_ok r h → table_wf t →
  ∃ r' l' h', RangeOverlapInfo.update (RangeOverlapInfo.mk (Some r)) t = Ret (RangeOverlapInfo.mk (Some r')) ∧
    range_ok r' l' h' ∧ right_epoch_ok r' h' ∧
    FullKey.cmp l' l ≠ Gt ∧ FullKey.cmp h h' ≠ Gt ∧ covers_range r' l' h' t.
Proof.
  intros [Hb Hne] He (lt & ht & [Hbt Hnet] & Het).
  unfold RangeOverlapInfo.update. cbn [RangeOverlapInfo.target_range].
  rewrite (full_key_extend_eval _ _ _ _ _ _ Hb Hbt). cbn [mbind outcome_bind].
  pose proof Hb as (_ & _ & Hl & Hh). pose proof Hbt as (_ & _ & Hlt & Hht). simpl in Hl, Hh, Hlt, Hht.
  set (l' := if decide (FullKey.cmp lt l = Lt) then lt else l).
  set (h' := if decide (FullKey.cmp ht h = Gt) then ht else h).
  assert (hull_lo (Some l) (Some lt) = Some l') as -> by (unfold hull_lo, l'; simpl; by case_decide).
  assert (hull_hi (Some h) (Some ht) = Some h') as -> by (unfold hull_hi, h'; simpl; by case_decide).
  assert (FullKey.cmp l' l ≠ Gt ∧ FullKey.cmp l' lt ≠ Gt) as [Hl1 Hl2].
  { unfold l'. case_decide as E; [rewrite E, (cmp_refl FullKey.cmp); done|].
    rewrite (cmp_refl FullKey.cmp). split; [done|]. by apply (cmp_le_not_lt FullKey.cmp). }
  assert (FullKey.cmp h h' ≠ Gt ∧ FullKey.cmp ht h' ≠ Gt) as [Hh1 Hh2].
  { unfold h'. case_decide as E; [|by rewrite (cmp_refl FullKey.cmp)].
    rewrite (cmp_refl FullKey.cmp). apply (cmp_gt_lt FullKey.cmp) in E. by rewrite E. }
  assert (full_key_ok l') as Hl' by (unfold l'; by case_decide).
  assert (full_key_ok h') as Hh' by (unfold h'; by case_decide).
  set (x := if decide (opt_hi_cmp (Some ht) (Some h) = Gt) then _ else _).
  assert (x = bool_decide (FullKey.epoch_with_gap h' = u64_max)) as Hx.
  { unfold x, h'. cbn [opt_hi_cmp]. case_decide; [exact Het|exact He]. }
  eexists _, l', h'. split; [done|]. unfold right_epoch_ok, range_ok. cbn [KeyRange.right_exclusive].
  split_and!; try done.
  - rewrite Hx. apply (reaches_down _ _ _ (FullKey.user_key l)); [by apply full_le_user|].
    apply (reaches_mono h); [done..|]. by rewrite <-He.
  - intros la ha Ha Hea. destruct (range_ok_inj _ _ _ _ _ Ha (conj Hbt Hnet)) as [-> ->].
    split; [by apply full_le_user|]. intros u Hu. cbn [KeyRange.right_exclusive]. rewrite Hx.
    apply (reaches_mono ht); [done..|]. by rewrite <-Het.
Qed.

Lemma covers_weaken r l h r' l' h' a :
  right_epoch_ok r h → right_epoch_ok r' h' → full_key_ok h → FullKey.cmp l' l ≠ Gt → FullKey.cmp h h' ≠ Gt →
  covers_range r l h a → covers_range r' l' h' a.
Proof.
  intros He He' Hh Hl Hle Hc la ha Ha Hea. destruct (Hc la ha Ha Hea) as [H1 H2]. split.
  - eapply (cmp_le_trans UserKey.cmp); [by apply full_le_user|done].
  - intros u Hu. rewrite He'. apply (reaches_mono h); [done..|]. rewrite <-He. by apply H2.
Qed.

(** The target range after all tables: it covers each of them. *)
Lemma hull_ok tables :
  tables ≠ [] → Forall table_wf tables →
  ∃ r l h, rfold RangeOverlapInfo.update tables RangeOverlapStrategy.create_overlap_info =
      Ret (RangeOverlapInfo.mk (Some r)) ∧
    range_ok r l h ∧ ∀ a, a ∈ tables → covers_range r l h a.
Proof.
  intros Hne Hwf.
  destruct (rfold_inv RangeOverlapInfo.update (λ dn info, match RangeOverlapInfo.target_range info with
      | None => dn = []
      | Some r => dn ≠ [] ∧ ∃ l h, range_ok r l h ∧ right_epoch_ok r h ∧ ∀ a, a ∈ dn → covers_range r l h a
      end) tables RangeOverlapStrategy.create_overlap_info) as (info & Hrun & Hinfo); [done| |].
  - intros dn t todo [[r|]] -> Hinv; cbn [RangeOverlapInfo.target_range] in Hinv.
    all: apply Forall_app in Hwf as [_ [Ht _]%Forall_cons].
    + destruct Hinv as (_ & l & h & Hr & He & Hcov). pose proof Hr as [(_ & _ & _ & Hh) _].
      destruct (update_ok r l h t Hr He Ht) as (r' & l' & h' & -> & Hr' & He' & Hl & Hle & Hc).
      eexists. split; [done|]. cbn [RangeOverlapInfo.target_range].
      split; [by intros [_ [=]]%app_eq_nil|]. exists l', h'. split_and!; try done.
      intros a [Ha| ->%list_elem_of_singleton]%elem_of_app; [|done].
      apply (covers_weaken r l h); auto.
    + subst dn. destruct Ht as (l & h & Hr & He). eexists. split; [done|].
      cbn [RangeOverlapInfo.target_range]. split; [done|]. exists l, h. split_and!; try done.
      intros a ->%list_elem_of_singleton la ha Ha Hea.
      destruct (range_ok_inj _ _ _ _ _ Ha Hr) as [-> ->]. by rewrite (cmp_refl UserKey.cmp).
  - destruct info as [[r|]]; cbn [RangeOverlapInfo.target_range] in Hinfo; [|done].
    destruct Hinfo as (_ & l & h & Hr & _ & Hc). by exists r, l, h.
Qed.

(** ** Properties *)

(** C21: the compaction inputs taken from a sorted level are complete.  For well-formed tables
    and a level of well-formed tables in order without overlap,
    [check_base_level_overlap] (two binary searches for the hull of the tables) returns the
    same as the exhaustive [check_overlap_with_tables], without panicking, and the result
    contains every table of the level that overlaps one of the given tables. *)
Theorem base_level_overlap_complete (tables others : list SstableInfo.t) :
  Forall table_wf tables → Forall table_wf others → can_concat others = Ret true →
  ∃ res, RangeOverlapStrategy.check_base_level_overlap tables others = Ret res ∧
    RangeOverlapStrategy.check_overlap_with_tables tables others = Ret res ∧
    ∀ a b, a ∈ tables → b ∈ others → RangeOverlapStrategy.check_overlap a b = Ret true → b ∈ res.
Proof.
  intros Ht Ho Hcc. assert (Forall sst_ok others) as Hok by (eapply Forall_impl; [exact Ho|apply table_wf_ok]).
  destruct (decide (tables = [])) as [->|Hne].
  { exists []. unfold RangeOverlapStrategy.check_base_level_overlap. simpl. rewrite Nat.leb_refl.
    split_and!; [done..|]. by intros a b ?%elem_of_nil. }
  destruct (hull_ok tables Hne Ht) as (r & l & h & Hrun & Hr & Hcov).
  destruct (multiple_overlap_tables r l h Hr others (conj Hok Hcc)) as (first & last & Hc & Hle & Hfilter & _).
  exists (take (last - first) (drop first others)). split_and!.
  - unfold RangeOverlapStrategy.check_base_level_overlap. rewrite Hrun. cbn [mbind outcome_bind].
    rewrite Hc. cbn [mbind outcome_bind]. destruct (Nat.leb_spec last first).
    + by replace (last - first) with 0 by lia.
    + by rewrite (proj2 (Nat.leb_le _ _)) by done.
  - unfold RangeOverlapStrategy.check_overlap_with_tables. rewrite bool_decide_false by done. cbn [orb].
    rewrite <-Hfilter. case_bool_decide as E; [by rewrite E|]. rewrite Hrun. cbn [mbind outcome_bind].
    change (RangeOverlapInfo.check_overlap (RangeOverlapInfo.mk (Some r))) with (check_table_overlap r).
    apply rfilter_ok. by apply (searches_total r l h Hr).
  - intros a b Ha Hb Hab. rewrite <-Hfilter. apply list_elem_of_filter. split; [|done].
    rewrite Forall_forall in Ht, Ho. destruct (Ht a Ha) as (la & ha & Hra & Hea).
    destruct (Ho b Hb) as (lb & hb & Hrb & _). destruct (Hcov a Ha la ha Hra Hea) as [H1 H2].
    unfold RangeOverlapStrategy.check_overlap, check_table_overlap in Hab.
    rewrite (sstable_overlap_reaches _ _ _ _ _ _ Hra Hrb) in Hab. apply (inj Ret) in Hab.
    apply andb_true_iff in Hab as [Hab1 Hab2]. unfold val, check_table_overlap.
    rewrite (sstable_overlap_reaches _ _ _ _ _ _ Hr Hrb). apply andb_true_iff. split; [by apply H2|].
    by eapply reaches_down.
Qed.

(** Three tables of one state table, at keys [a], [b] and [c]. *)
Definition example_sst (lo hi : byte) : SstableInfo.t :=
  SstableInfo.mk 1 1 (KeyRange.new (FullKey.encode (FullKey.new 1 [lo] 65536))
    (FullKey.encode (FullKey.new 1 [hi] 65536))) 10 [1%Z] 0 0 1 0 0 10 0 0 10.

Lemma example_sst_wf lo hi : bytes_leb [lo] [hi] = true → table_wf (example_sst lo hi).
Proof.
  intros Hle. exists (FullKey.new 1 [lo] 65536), (FullKey.new 1 [hi] 65536). split; [|done].
  split; [by split_and!|]. simpl in *. exact Hle.
Qed.

Lemma base_level_overlap_complete_witness :
  let level := [example_sst Byte.x61 Byte.x62; example_sst Byte.x64 Byte.x66; example_sst Byte.x68 Byte.x69] in
  ∃ res, RangeOverlapStrategy.check_base_level_overlap [example_sst Byte.x65 Byte.x67] level = Ret res ∧
    example_sst Byte.x64 Byte.x66 ∈ res.
Proof.
  intros level. destruct (base_level_overlap_complete [example_sst Byte.x65 Byte.x67] level)
    as (res & H1 & _ & H2).
  - repeat constructor; by apply example_sst_wf.
  - repeat constructor; by apply example_sst_wf.
  - by vm_compute.
  - exists res. split; [exact H1|]. apply (H2 (example_sst Byte.x65 Byte.x67)).
    + by left.
    + right. by left.
    + by vm_compute.
Defined.
