(* ===== verification/Level.v ===== *)
(** * Levels of sorted tables

    [src/storage/hummock_sdk/src/level.rs] and the conversions of [sstable_info.rs]: the
    levels of a compaction group and their protobuf form.  The functions from protobuf panic
    on unknown enum numbers and unsorted table ids. *)

From Stdlib Require Import ZArith Lia.
From S2P Require Import Prelude Order Bytes Epoch Bits Bitmap Vnode Key KeySpec KeyRange Sst.

Local Open Scope Z_scope.

(** [Vec::is_sorted] *)
Fixpoint is_sorted (l : list Z) : bool :=
  match l with
  | x :: ((y :: _) as l') => (x <=? y) && is_sorted l'
  | _ => true
  end.

(** [iter.sum::<u64>()] *)
Definition sum_u64 (l : list Z) : Z := foldl (λ acc x, wrap 64 (acc + x)) 0 l.

Lemma wrap_add_l a b : wrap 64 (wrap 64 a + b) = wrap 64 (a + b).
Proof. apply Zplus_mod_idemp_l. Qed.

Lemma wrap_add_r a b : wrap 64 (a + wrap 64 b) = wrap 64 (a + b).
Proof. apply Zplus_mod_idemp_r. Qed.

(** The sum modulo 2^64, in any order. *)
Lemma sum_u64_foldr l : sum_u64 l = wrap 64 (foldr Z.add 0 l).
Proof.
  cut (∀ acc, is_uint 64 acc → foldl (λ acc x, wrap 64 (acc + x)) acc l = wrap 64 (acc + foldr Z.add 0 l)).
  { intros H. unfold sum_u64. by rewrite H. }
  induction l as [|x l IH]; intros acc Hacc; simpl.
  - rewrite Z.add_0_r. symmetry. by apply wrap_small.
  - rewrite IH by by apply wrap_is_uint. rewrite wrap_add_l. f_equal. lia.
Qed.

Lemma sum_u64_cons x l : sum_u64 (x :: l) = wrap 64 (x + sum_u64 l).
Proof. by rewrite !sum_u64_foldr, wrap_add_r. Qed.

Lemma sum_u64_app a b : sum_u64 (a ++ b) = wrap 64 (sum_u64 a + sum_u64 b).
Proof.
  rewrite !sum_u64_foldr, wrap_add_l, wrap_add_r. f_equal. induction a; simpl; lia.
Qed.

Lemma sum_u64_uint l : is_uint 64 (sum_u64 l).
Proof. rewrite sum_u64_foldr. by apply wrap_is_uint. Qed.

#[global] Instance sum_u64_perm : Proper ((≡ₚ) ==> (=)) sum_u64.
Proof.
  intros a b Hab. rewrite !sum_u64_foldr. f_equal. induction Hab; simpl; lia.
Qed.

(** [iter.sum::<usize>()] of lengths. *)
Definition sum_nat (l : list nat) : nat := foldl Nat.add O l.

(** The enums of [proto/hummock.proto]. *)
Module LevelType.

Inductive t := Unspecified | Nonoverlapping | Overlapping.

#[global] Instance t_eq_dec : EqDecision t.
Proof. solve_decision. Defined.

Definition into (self : t) : Z := match self with Unspecified => 0 | Nonoverlapping => 1 | Overlapping => 2 end.

Definition try_from (v : Z) : option t :=
  if v =? 0 then Some Unspecified else if v =? 1 then Some Nonoverlapping else if v =? 2 then Some Overlapping else None.

Lemma try_from_into self : try_from (into self) = Some self.
Proof. by destruct self. Qed.

End LevelType.

Module BloomFilterType.

(** The number of a [BloomFilterType]: unspecified, [Sstable] or [Blocked]. *)
Definition try_from (v : Z) : option Z := if (0 <=? v) && (v <=? 2) then Some v else None.

End BloomFilterType.

Module PbKeyRange.
Record t := mk { left : list byte; right : list byte; right_exclusive : bool }.
End PbKeyRange.

Module PbSstableInfo.

Record t := mk {
  object_id : Z;
  sst_id : Z;
  key_range : option PbKeyRange.t;
  file_size : Z;
  table_ids : list Z;
  meta_offset : Z;
  stale_key_count : Z;
  total_key_count : Z;
  min_epoch : Z;
  max_epoch : Z;
  uncompressed_file_size : Z;
  range_tombstone_count : Z;
  bloom_filter_kind : Z;
  sst_size : Z
}.

(** [From<&SstableInfoInner> for PbSstableInfo] *)
Definition from (s : SstableInfo.t) : outcome t :=
  rassert (0 <? SstableInfo.sst_size s);;
  rassert (is_sorted (SstableInfo.table_ids s));;
  Ret {|
    object_id := SstableInfo.object_id s;
    sst_id := SstableInfo.sst_id s;
    key_range :=
      let keyrange := SstableInfo.key_range s in
      if KeyRange.inf_key_range keyrange then None
      else Some (PbKeyRange.mk (KeyRange.left keyrange) (KeyRange.right keyrange) (KeyRange.right_exclusive keyrange));
    file_size := SstableInfo.file_size s;
    table_ids := SstableInfo.table_ids s;
    meta_offset := SstableInfo.meta_offset s;
    stale_key_count := SstableInfo.stale_key_count s;
    total_key_count := SstableInfo.total_key_count s;
    min_epoch := SstableInfo.min_epoch s;
    max_epoch := SstableInfo.max_epoch s;
    uncompressed_file_size := SstableInfo.uncompressed_file_size s;
    range_tombstone_count := SstableInfo.range_tombstone_count s;
    bloom_filter_kind := SstableInfo.bloom_filter_kind s;
    sst_size := SstableInfo.sst_size s
  |}.

(** [From<&PbSstableInfo> for SstableInfoInner] *)
Definition into (pb : t) : outcome SstableInfo.t :=
  rassert (is_sorted (table_ids pb));;
  bloom_filter_kind ← unwrap (BloomFilterType.try_from (bloom_filter_kind pb));
  Ret {|
    SstableInfo.object_id := object_id pb;
    SstableInfo.sst_id := sst_id pb;
    SstableInfo.key_range :=
      match key_range pb with
      | Some r => KeyRange.mk (PbKeyRange.left r) (PbKeyRange.right r) (PbKeyRange.right_exclusive r)
      | None => KeyRange.inf
      end;
    SstableInfo.file_size := file_size pb;
    SstableInfo.table_ids := table_ids pb;
    SstableInfo.meta_offset := meta_offset pb;
    SstableInfo.stale_key_count := stale_key_count pb;
    SstableInfo.total_key_count := total_key_count pb;
    SstableInfo.min_epoch := min_epoch pb;
    SstableInfo.max_epoch := max_epoch pb;
    SstableInfo.uncompressed_file_size := uncompressed_file_size pb;
    SstableInfo.range_tombstone_count := range_tombstone_count pb;
    SstableInfo.bloom_filter_kind := bloom_filter_kind;
    SstableInfo.sst_size := if sst_size pb =? 0 then file_size pb else sst_size pb
  |}.

End PbSstableInfo.

(** [SstableInfoInner::estimated_encode_len] *)
Definition sst_estimated_encode_len (s : SstableInfo.t) : nat :=
  8 + 8 + 8 + length (SstableInfo.table_ids s) * 4 + 8 + 8 + 8 + 8 + 8 + 8 + 8 + 4 + 8 +
  (length (KeyRange.left (SstableInfo.key_range s)) + length (KeyRange.right (SstableInfo.key_range s)) + 1).

(** [SstableInfo::remove_key_range] *)
Definition remove_key_range (s : SstableInfo.t) : SstableInfo.t :=
  SstableInfo.mk (SstableInfo.object_id s) (SstableInfo.sst_id s) KeyRange.inf (SstableInfo.file_size s)
    (SstableInfo.table_ids s) (SstableInfo.meta_offset s) (SstableInfo.stale_key_count s)
    (SstableInfo.total_key_count s) (SstableInfo.min_epoch s) (SstableInfo.max_epoch s)
    (SstableInfo.uncompressed_file_size s) (SstableInfo.range_tombstone_count s)
    (SstableInfo.bloom_filter_kind s) (SstableInfo.sst_size s).

(** ** [LevelCommon<T>] *)

Module Level.

Record common (T : Type) := mk {
  level_idx : Z;
  level_type : LevelType.t;
  table_infos : list T;
  total_file_size : Z;
  sub_level_id : Z;
  uncompressed_file_size : Z;
  vnode_partition_count : Z
}.

Arguments mk {T}.
Arguments level_idx {T}.
Arguments level_type {T}.
Arguments table_infos {T}.
Arguments total_file_size {T}.
Arguments sub_level_id {T}.
Arguments uncompressed_file_size {T}.
Arguments vnode_partition_count {T}.

#[global] Instance common_eq_dec `{EqDecision T} : EqDecision (common T).
Proof. solve_decision. Defined.

(** [pub type Level = LevelCommon<SstableInfo>] *)
Abbreviation t := (common SstableInfo.t).

(** Field updates. *)
Definition with_tables {T} (self : common T) (ts : list T) : common T :=
  mk (level_idx self) (level_type self) ts (total_file_size self) (sub_level_id self)
    (uncompressed_file_size self) (vnode_partition_count self).

Definition with_sizes {T} (self : common T) (total uncompressed : Z) : common T :=
  mk (level_idx self) (level_type self) (table_infos self) total (sub_level_id self)
    uncompressed (vnode_partition_count self).

Definition with_type {T} (self : common T) (ty : LevelType.t) : common T :=
  mk (level_idx self) ty (table_infos self) (total_file_size self) (sub_level_id self)
    (uncompressed_file_size self) (vnode_partition_count self).

Definition with_partition_count {T} (self : common T) (n : Z) : common T :=
  mk (level_idx self) (level_type self) (table_infos self) (total_file_size self) (sub_level_id self)
    (uncompressed_file_size self) n.

Definition with_sub_level_id {T} (self : common T) (id : Z) : common T :=
  mk (level_idx self) (level_type self) (table_infos self) (total_file_size self) id
    (uncompressed_file_size self) (vnode_partition_count self).

Definition estimated_encode_len (self : t) : nat :=
  4 + 4 + sum_nat (sst_estimated_encode_len <$> table_infos self) + 8 + 8 + 8 + 4.

End Level.

Module PbLevel.

Record t := mk {
  level_idx : Z;
  level_type : Z;
  table_infos : list PbSstableInfo.t;
  total_file_size : Z;
  sub_level_id : Z;
  uncompressed_file_size : Z;
  vnode_partition_count : Z
}.

Section pb_level.
Context {T : Type} (into_pb : T → outcome PbSstableInfo.t) (from_pb : PbSstableInfo.t → outcome T).

(** [From<&LevelCommon<T>> for PbLevel] *)
Definition from (level : Level.common T) : outcome t :=
  ts ← rmap into_pb (Level.table_infos level);
  Ret {|
    level_idx := Level.level_idx level;
    level_type := LevelType.into (Level.level_type level);
    table_infos := ts;
    total_file_size := Level.total_file_size level;
    sub_level_id := Level.sub_level_id level;
    uncompressed_file_size := Level.uncompressed_file_size level;
    vnode_partition_count := Level.vnode_partition_count level
  |}.

(** [From<&PbLevel> for LevelCommon<T>] *)
Definition into (pb : t) : outcome (Level.common T) :=
  level_type ← unwrap (LevelType.try_from (level_type pb));
  ts ← rmap from_pb (table_infos pb);
  Ret {|
    Level.level_idx := level_idx pb;
    Level.level_type := level_type;
    Level.table_infos := ts;
    Level.total_file_size := total_file_size pb;
    Level.sub_level_id := sub_level_id pb;
    Level.uncompressed_file_size := uncompressed_file_size pb;
    Level.vnode_partition_count := vnode_partition_count pb
  |}.

End pb_level.
End PbLevel.

(** ** [OverlappingLevelCommon<T>] *)

Module OverlappingLevel.

Record common (T : Type) := mk {
  sub_levels : list (Level.common T);
  total_file_size : Z;
  uncompressed_file_size : Z
}.

Arguments mk {T}.
Arguments sub_levels {T}.
Arguments total_file_size {T}.
Arguments uncompressed_file_size {T}.

Abbreviation t := (common SstableInfo.t).

Definition estimated_encode_len (self : t) : nat :=
  sum_nat (Level.estimated_encode_len <$> sub_levels self) + 8 + 8.

End OverlappingLevel.

Module PbOverlappingLevel.

Record t := mk { sub_levels : list PbLevel.t; total_file_size : Z; uncompressed_file_size : Z }.

Section pb_overlapping_level.
Context {T : Type} (into_pb : T → outcome PbSstableInfo.t) (from_pb : PbSstableInfo.t → outcome T).

Definition from (level : OverlappingLevel.common T) : outcome t :=
  ls ← rmap (PbLevel.from into_pb) (OverlappingLevel.sub_levels level);
  Ret (mk ls (OverlappingLevel.total_file_size level) (OverlappingLevel.uncompressed_file_size level)).

Definition into (pb : t) : outcome (OverlappingLevel.common T) :=
  ls ← rmap (PbLevel.into from_pb) (sub_levels pb);
  Ret (OverlappingLevel.mk ls (total_file_size pb) (uncompressed_file_size pb)).

End pb_overlapping_level.
End PbOverlappingLevel.

(** ** [LevelsCommon<T>] *)

Module Levels.

Record common (T : Type) := mk {
  levels : list (Level.common T);
  l0 : OverlappingLevel.common T;
  group_id : Z;
  parent_group_id : Z;
  member_table_ids : list Z
}.

Arguments mk {T}.
Arguments levels {T}.
Arguments l0 {T}.
Arguments group_id {T}.
Arguments parent_group_id {T}.
Arguments member_table_ids {T}.

Abbreviation t := (common SstableInfo.t).

Definition with_levels {T} (self : common T) (ls : list (Level.common T)) : common T :=
  mk ls (l0 self) (group_id self) (parent_group_id self) (member_table_ids self).

Definition with_l0 {T} (self : common T) (l : OverlappingLevel.common T) : common T :=
  mk (levels self) l (group_id self) (parent_group_id self) (member_table_ids self).

Definition level0 (self : t) : OverlappingLevel.t := l0 self.

(** [self.levels[level_idx - 1]]; the subtraction wraps, so index 0 is out of range. *)
Definition get_level (self : t) (level_idx : nat) : outcome Level.t :=
  match level_idx with
  | O => Panic
  | S i => unwrap (levels self !! i)
  end.

Definition is_last_level (self : t) (level_idx : Z) : bool :=
  match last (levels self) with
  | Some level => Level.level_idx level =? level_idx
  | None => false
  end.

Definition count_ssts (self : t) : nat :=
  sum_nat ((λ level, length (Level.table_infos level)) <$> (OverlappingLevel.sub_levels (level0 self) ++ levels self)).

Definition estimated_encode_len (self : t) : nat :=
  (sum_nat (Level.estimated_encode_len <$> levels self) + 8 + 8 + 4) +
  OverlappingLevel.estimated_encode_len (l0 self).

End Levels.

Module PbLevels.

Record t := mk {
  levels : list PbLevel.t;
  l0 : option PbOverlappingLevel.t;
  group_id : Z;
  parent_group_id : Z;
  member_table_ids : list Z
}.

Section pb_levels.
Context {T : Type} (into_pb : T → outcome PbSstableInfo.t) (from_pb : PbSstableInfo.t → outcome T).

Definition from (self : Levels.common T) : outcome t :=
  l0 ← PbOverlappingLevel.from into_pb (Levels.l0 self);
  ls ← rmap (PbLevel.from into_pb) (Levels.levels self);
  Ret (mk ls (Some l0) (Levels.group_id self) (Levels.parent_group_id self) (Levels.member_table_ids self)).

Definition into (pb : t) : outcome (Levels.common T) :=
  l0 ← unwrap (l0 pb) ≫= PbOverlappingLevel.into from_pb;
  ls ← rmap (PbLevel.into from_pb) (levels pb);
  Ret (Levels.mk ls l0 (group_id pb) (parent_group_id pb) (member_table_ids pb)).

End pb_levels.
End PbLevels.

(** ** [InputLevel] *)

Module InputLevel.

Record t := mk { level_idx : Z; level_type : LevelType.t; table_infos : list SstableInfo.t }.

Definition estimated_encode_len (self : t) : nat :=
  4 + 4 + sum_nat (sst_estimated_encode_len <$> table_infos self).

End InputLevel.

Module PbInputLevel.

Record t := mk { level_idx : Z; level_type : Z; table_infos : list PbSstableInfo.t }.

Definition from (level : InputLevel.t) : outcome t :=
  ts ← rmap PbSstableInfo.from (InputLevel.table_infos level);
  Ret (mk (InputLevel.level_idx level) (LevelType.into (InputLevel.level_type level)) ts).

Definition into (pb : t) : outcome InputLevel.t :=
  level_type ← unwrap (LevelType.try_from (level_type pb));
  ts ← rmap PbSstableInfo.into (table_infos pb);
  Ret (InputLevel.mk (level_idx pb) level_type ts).

End PbInputLevel.

(** ** Round trips *)

(** A conversion to protobuf whose inverse restores every value satisfying [ok]. *)
Class PbConvert {A B : Type} (ok : A → Prop) (to : A → outcome B) (back : B → outcome A) : Prop :=
  pb_round_trip x : ok x → ∃ y, to x = Ret y ∧ back y = Ret x.

#[global] Instance rmap_convert {A B} (ok : A → Prop) to (back : B → outcome A) :
  PbConvert ok to back → PbConvert (Forall ok) (rmap to) (rmap back).
Proof.
  intros Hc l. induction l as [|x l IH]; [by exists []|]. intros [Hx Hl]%Forall_cons.
  destruct (Hc x Hx) as (y & Hy & Hb). destruct (IH Hl) as (ys & Hys & Hbs).
  exists (y :: ys). simpl. by rewrite Hy, Hys, Hb, Hbs.
Qed.

(** Tables that survive the conversion: a size, ascending table ids, and a range that is
    written unless it is the one restored for [None]. *)
Definition sst_pb_ok (s : SstableInfo.t) : Prop :=
  0 < SstableInfo.sst_size s ∧ is_sorted (SstableInfo.table_ids s) = true ∧
  0 <= SstableInfo.bloom_filter_kind s <= 2 ∧
  (KeyRange.inf_key_range (SstableInfo.key_range s) = true → SstableInfo.key_range s = KeyRange.inf).

#[global] Instance sst_convert : PbConvert sst_pb_ok PbSstableInfo.from PbSstableInfo.into.
Proof.
  intros s (Hsz & Hs & Hb & Hr). unfold PbSstableInfo.from, PbSstableInfo.into.
  rewrite (proj2 (Z.ltb_lt _ _)) by done. rewrite Hs. cbn -[KeyRange.inf_key_range].
  eexists. split; [done|]. cbn -[KeyRange.inf_key_range]. rewrite Hs. unfold BloomFilterType.try_from.
  rewrite !(proj2 (Z.leb_le _ _)) by lia. cbn -[KeyRange.inf_key_range].
  rewrite (proj2 (Z.eqb_neq _ _)) by lia. f_equal.
  destruct (KeyRange.inf_key_range (SstableInfo.key_range s)) eqn:E.
  - rewrite <-Hr by done. by destruct s.
  - by destruct s as [? ? []].
Qed.

Section convert.
Context {T : Type} (ok : T → Prop) (into_pb : T → outcome PbSstableInfo.t)
  (from_pb : PbSstableInfo.t → outcome T) `{!PbConvert ok into_pb from_pb}.

Definition level_pb_ok (level : Level.common T) : Prop := Forall ok (Level.table_infos level).

#[global] Instance level_convert : PbConvert level_pb_ok (PbLevel.from into_pb) (PbLevel.into from_pb).
Proof using All.
  intros level Hok. destruct (rmap_convert ok into_pb from_pb _ (Level.table_infos level) Hok) as (ts & Hto & Hback).
  unfold PbLevel.from. rewrite Hto. eexists. split; [done|]. unfold PbLevel.into. cbn.
  rewrite LevelType.try_from_into. cbn. rewrite Hback. by destruct level.
Qed.

Definition levels_pb_ok (self : Levels.common T) : Prop :=
  Forall level_pb_ok (OverlappingLevel.sub_levels (Levels.l0 self)) ∧ Forall level_pb_ok (Levels.levels self).

#[global] Instance levels_convert : PbConvert levels_pb_ok (PbLevels.from into_pb) (PbLevels.into from_pb).
Proof using All.
  intros self [H0 Hl].
  destruct (rmap_convert _ _ _ level_convert _ H0) as (l0 & Hto0 & Hback0).
  destruct (rmap_convert _ _ _ level_convert _ Hl) as (ls & Hto & Hback).
  unfold PbLevels.from, PbOverlappingLevel.from. rewrite Hto0. cbn [mbind outcome_bind]. rewrite Hto.
  eexists. split; [done|]. unfold PbLevels.into, PbOverlappingLevel.into. cbn. rewrite Hback0. cbn.
  rewrite Hback. by destruct self as [? []].
Qed.
End convert.

(** When a conversion returns. *)
Definition returns {A} (m : outcome A) : Prop := ∃ a, m = Ret a.

Lemma returns_bind {A B} (m : outcome A) (f : A → outcome B) :
  (∀ a, returns (f a)) → returns (m ≫= f) ↔ returns m.
Proof.
  intros Hf. unfold returns. setoid_rewrite bind_Ret. split; [naive_solver|].
  intros [a Ha]. destruct (Hf a) as [b Hb]. by exists b, a.
Qed.

Lemma returns_rmap {A B} (f : A → outcome B) l : returns (rmap f l) ↔ Forall (λ x, returns (f x)) l.
Proof.
  unfold returns. setoid_rewrite rmap_Ret. split.
  - intros [ys H]. induction H; constructor; eauto.
  - induction 1 as [|x l [y Hy] _ [ys IH]]; [by exists []|]. exists (y :: ys). by constructor.
Qed.

(** All tables of a group. *)
Definition all_tables (self : Levels.t) : list SstableInfo.t :=
  concat (Level.table_infos <$> OverlappingLevel.sub_levels (Levels.l0 self) ++ Levels.levels self).

Definition sst_convertible (s : SstableInfo.t) : Prop :=
  0 < SstableInfo.sst_size s ∧ is_sorted (SstableInfo.table_ids s) = true.

Lemma returns_sst s : returns (PbSstableInfo.from s) ↔ sst_convertible s.
Proof.
  unfold PbSstableInfo.from, sst_convertible, returns. split.
  - intros [pb H]. outcome_inv. by rewrite <-Z.ltb_lt.
  - intros [H1%Z.ltb_lt H2]. rewrite H1, H2. by eexists.
Qed.

Lemma returns_level (level : Level.t) :
  returns (PbLevel.from PbSstableInfo.from level) ↔ Forall sst_convertible (Level.table_infos level).
Proof.
  unfold PbLevel.from. rewrite returns_bind by (intros; by eexists). rewrite returns_rmap.
  apply Forall_proper; [|done]. intros s. apply returns_sst.
Qed.

Lemma returns_levels self :
  returns (PbLevels.from PbSstableInfo.from self) ↔ Forall sst_convertible (all_tables self).
Proof.
  assert (∀ ls, returns (rmap (PbLevel.from PbSstableInfo.from) ls) ↔ Forall sst_convertible (concat (Level.table_infos <$> ls))) as Hls.
  { intros ls. rewrite returns_rmap, Forall_concat, Forall_fmap. apply Forall_proper; [|done]. intros l. apply returns_level. }
  unfold all_tables. rewrite fmap_app, concat_app, Forall_app, <-!Hls.
  unfold PbLevels.from, PbOverlappingLevel.from, returns. repeat setoid_rewrite bind_Ret. naive_solver.
Qed.

(** The levels of a compaction group survive storage.  Converting them to protobuf
    panics exactly when some table has no size or unsorted table ids; otherwise converting
    back returns the same levels, provided every filter kind is a known one and no unbounded
    range is marked exclusive. *)
Theorem levels_protobuf_round_trip (self : Levels.t) :
  (returns (PbLevels.from PbSstableInfo.from self) ↔ Forall sst_convertible (all_tables self)) ∧
  (levels_pb_ok sst_pb_ok self →
   ∃ pb, PbLevels.from PbSstableInfo.from self = Ret pb ∧ PbLevels.into PbSstableInfo.into pb = Ret self).
Proof.
  split; [apply returns_levels|]. apply (levels_convert sst_pb_ok PbSstableInfo.from PbSstableInfo.into).
Qed.

Definition example_levels : Levels.t :=
  let s := SstableInfo.mk 1 1 KeyRange.inf 10 [1; 2] 0 0 1 0 0 10 0 1 10 in
  Levels.mk [Level.mk 1 LevelType.Nonoverlapping [s] 10 0 10 0] (OverlappingLevel.mk [] 0 0) 2 0 [].

Lemma levels_protobuf_round_trip_witness :
  ∃ pb, PbLevels.from PbSstableInfo.from example_levels = Ret pb ∧ PbLevels.into PbSstableInfo.into pb = Ret example_levels.
Proof. apply levels_protobuf_round_trip. by repeat constructor. Defined.
