(* ===== verification/LevelHandler.v ===== *)
(** * Pending compactions of a level

    [src/meta/src/hummock/level_handler.rs]: which tables of a level are being compacted by
    which task.  [compacting_files] is an index of [pending_tasks]; the file shows that the
    two agree in every state that tasks over free tables lead to. *)

From Stdlib Require Import ZArith Lia.
From stdpp Require Import gmap fin_maps relations.
From S2P Require Import Prelude Order Bytes Epoch Bits Bitmap Vnode Key KeySpec KeyRange Sst Level.

Local Open Scope Z_scope.

Module RunningCompactTask.

Record t := mk { task_id : Z; ssts : list Z; total_file_size : Z; target_level : Z }.

#[global] Instance t_eq_dec : EqDecision t.
Proof. solve_decision. Defined.

End RunningCompactTask.

Abbreviation task := RunningCompactTask.t.
Abbreviation ssts := RunningCompactTask.ssts.
Abbreviation task_id := RunningCompactTask.task_id.

Module PbLevelHandler.
Record t := mk { level : Z; tasks : list RunningCompactTask.t }.
End PbLevelHandler.

Module LevelHandler.

Record t := mk { level : Z; compacting_files : gmap Z Z; pending_tasks : list RunningCompactTask.t }.

Definition new (level : Z) : t := mk level ∅ [].

Definition get_level (self : t) : Z := level self.

Definition remove_task (self : t) (target_task_id : Z) : t :=
  mk (level self)
    (foldl (λ files task, if task_id task =? target_task_id
              then foldl (λ files sst, delete sst files) files (ssts task) else files)
       (compacting_files self) (pending_tasks self))
    (filter (λ task, task_id task ≠ target_task_id) (pending_tasks self)).

Definition is_pending_compact (self : t) (sst_id : Z) : bool := bool_decide (is_Some (compacting_files self !! sst_id)).

Definition pending_task_id_by_sst (self : t) (sst_id : Z) : option Z := compacting_files self !! sst_id.

Definition is_level_pending_compact (self : t) (level : Level.t) : bool :=
  existsb (λ table, is_pending_compact self (SstableInfo.sst_id table)) (Level.table_infos level).

Definition is_level_all_pending_compact (self : t) (level : Level.t) : bool :=
  if bool_decide (Level.table_infos level = []) then false
  else forallb (λ table, is_pending_compact self (SstableInfo.sst_id table)) (Level.table_infos level).

(** [for sst in ssts]: the files, the total size and the ids collected. *)
Definition add_step (task_id : Z) (acc : gmap Z Z * Z * list Z) (sst : SstableInfo.t) : gmap Z Z * Z * list Z :=
  let '(files, total, ids) := acc in
  (<[SstableInfo.sst_id sst := task_id]> files, wrap 64 (total + SstableInfo.sst_size sst), ids ++ [SstableInfo.sst_id sst]).

Definition add_pending_task (self : t) (task_id : Z) (target_level : nat) (ssts : list SstableInfo.t) : t :=
  let target_level := wrap 32 (Z.of_nat target_level) in
  let '(files, total_file_size, table_ids) := foldl (add_step task_id) (compacting_files self, 0, []) ssts in
  mk (level self) files
    (pending_tasks self ++ [RunningCompactTask.mk task_id table_ids total_file_size target_level]).

Definition pending_file_count (self : t) : nat := size (compacting_files self).

Definition pending_file_size (self : t) : Z := sum_u64 (RunningCompactTask.total_file_size <$> pending_tasks self).

Definition pending_output_file_size (self : t) (target_level : Z) : Z :=
  sum_u64 (RunningCompactTask.total_file_size <$>
    filter (λ task, RunningCompactTask.target_level task = target_level) (pending_tasks self)).

Definition pending_tasks_ids (self : t) : list Z := task_id <$> pending_tasks self.

Definition to_protobuf (lh : t) : PbLevelHandler.t := PbLevelHandler.mk (level lh) (pending_tasks lh).

Definition from_protobuf (lh : PbLevelHandler.t) : t :=
  let '(pending_tasks, compacting_files) :=
    foldl (λ '(pending, files) task,
      (pending ++ [task], foldl (λ files s, <[s := task_id task]> files) files (ssts task)))
      ([], ∅) (PbLevelHandler.tasks lh) in
  mk (PbLevelHandler.level lh) compacting_files pending_tasks.

End LevelHandler.

Import LevelHandler.

(** ** The index of the pending tasks *)

(** The entries of the tasks, and the map they form. *)
Definition entries (tasks : list task) : list (Z * Z) := tasks ≫= λ tk, (λ s, (s, task_id tk)) <$> ssts tk.
Definition index (tasks : list task) : gmap Z Z := list_to_map (entries tasks).

(** The tasks are over distinct tables and the files are their index. *)
Definition handler_ok (self : t) : Prop :=
  NoDup (pending_tasks self ≫= ssts) ∧ compacting_files self = index (pending_tasks self).

Lemma entries_fst tasks : (entries tasks).*1 = tasks ≫= ssts.
Proof.
  induction tasks as [|tk tasks IH]; [done|]. unfold entries in *. csimpl.
  rewrite fmap_app, IH, <-list_fmap_compose. f_equal. induction (ssts tk); csimpl; congruence.
Qed.

Lemma entries_app a b : entries (a ++ b) = entries a ++ entries b.
Proof. apply bind_app. Qed.

Lemma index_lookup tasks s i :
  NoDup (tasks ≫= ssts) → index tasks !! s = Some i ↔ ∃ tk, tk ∈ tasks ∧ s ∈ ssts tk ∧ task_id tk = i.
Proof.
  intros Hnd. unfold index. rewrite <-elem_of_list_to_map by (by rewrite entries_fst).
  unfold entries. rewrite list_elem_of_bind. setoid_rewrite list_elem_of_fmap. naive_solver.
Qed.

(** Inserting keys that are new. *)
Lemma foldl_insert_index (files : gmap Z Z) i (l : list Z) :
  NoDup l → (∀ s, s ∈ l → files !! s = None) →
  foldl (λ files s, <[s := i]> files) files l = files ∪ list_to_map ((λ s, (s, i)) <$> l).
Proof.
  revert files. induction l as [|s l IH]; intros files Hnd Hnew; csimpl.
  { by rewrite (right_id_L ∅ (∪)). }
  apply NoDup_cons in Hnd as [Hs Hnd]. rewrite IH; [|done|].
  - rewrite <-insert_union_l, <-insert_union_r; [done|]. apply Hnew. by left.
  - intros x Hx. rewrite lookup_insert_ne by set_solver. apply Hnew. by right.
Qed.

Lemma list_to_map_union (a b : list (Z * Z)) : (list_to_map (a ++ b) : gmap Z Z) = list_to_map a ∪ list_to_map b.
Proof. apply list_to_map_app. Qed.

Lemma index_None tasks s : s ∉ tasks ≫= ssts → index tasks !! s = None.
Proof. intros Hs. apply not_elem_of_list_to_map_1. by rewrite entries_fst. Qed.

(** Building the index of a task list on top of another one. *)
Lemma index_snoc tasks tk :
  NoDup ((tasks ++ [tk]) ≫= ssts) →
  foldl (λ files s, <[s := task_id tk]> files) (index tasks) (ssts tk) = index (tasks ++ [tk]).
Proof.
  rewrite bind_app. csimpl. rewrite app_nil_r. intros (Hnd & Hdis & Htk)%NoDup_app.
  rewrite foldl_insert_index; [|done|].
  - unfold index. rewrite entries_app, list_to_map_union. f_equal. unfold entries. csimpl. by rewrite app_nil_r.
  - intros s Hs. apply index_None. intros Hin. by apply (Hdis s).
Qed.

(** ** Operations *)

Lemma add_step_foldl i (l : list SstableInfo.t) files total ids :
  foldl (add_step i) (files, total, ids) l =
  (foldl (λ files s, <[s := i]> files) files (SstableInfo.sst_id <$> l),
   foldl (λ acc x, wrap 64 (acc + x)) total (SstableInfo.sst_size <$> l),
   ids ++ (SstableInfo.sst_id <$> l)).
Proof.
  revert files total ids. induction l as [|x l IH]; intros; csimpl; [by rewrite app_nil_r|].
  cbn [add_step]. by rewrite IH, <-(assoc_L (++)).
Qed.

(** The task that [add_pending_task] appends. *)
Definition new_task (i : Z) (target : nat) (l : list SstableInfo.t) : task :=
  RunningCompactTask.mk i (SstableInfo.sst_id <$> l) (sum_u64 (SstableInfo.sst_size <$> l)) (wrap 32 (Z.of_nat target)).

Lemma add_pending_task_eval self i target l :
  add_pending_task self i target l =
  mk (level self) (foldl (λ files s, <[s := i]> files) (compacting_files self) (SstableInfo.sst_id <$> l))
    (pending_tasks self ++ [new_task i target l]).
Proof. unfold add_pending_task. by rewrite add_step_foldl. Qed.

(** Tables a task may take: distinct and not being compacted. *)
Definition free (self : t) (l : list SstableInfo.t) : Prop :=
  NoDup (SstableInfo.sst_id <$> l) ∧ Forall (λ s, is_pending_compact self (SstableInfo.sst_id s) = false) l.

Lemma free_disjoint self i target l :
  handler_ok self → free self l → NoDup ((pending_tasks self ++ [new_task i target l]) ≫= ssts).
Proof.
  intros [Hnd Hix] [Hl Hfree]. rewrite bind_app. csimpl. rewrite app_nil_r. apply NoDup_app. split; [done|].
  split; [|done]. intros x Hx (s & -> & Hs)%list_elem_of_fmap. rewrite Forall_forall in Hfree.
  specialize (Hfree s Hs). unfold is_pending_compact in Hfree. apply bool_decide_eq_false in Hfree.
  apply Hfree. rewrite Hix. apply list_elem_of_bind in Hx as (tk & Hin & Htk).
  exists (task_id tk). apply index_lookup; [done|]. by exists tk.
Qed.

Lemma add_pending_task_ok self i target l :
  handler_ok self → free self l → handler_ok (add_pending_task self i target l).
Proof.
  intros Hok Hfree. pose proof (free_disjoint self i target l Hok Hfree) as Hnd. destruct Hok as [_ Hix].
  rewrite add_pending_task_eval. split; [exact Hnd|].
  cbn [compacting_files pending_tasks]. rewrite Hix. by apply (index_snoc _ (new_task i target l)).
Qed.

Lemma foldl_delete_lookup (files : gmap Z Z) (l : list Z) s :
  foldl (λ files s, delete s files) files l !! s = if decide (s ∈ l) then None else files !! s.
Proof.
  revert files. induction l as [|x l IH]; intros files; [done|]. csimpl. rewrite IH.
  destruct (decide (s ∈ l)) as [Hin|Hn]; [by rewrite decide_True by (by right)|].
  destruct (decide (s = x)) as [->|Hne].
  - rewrite lookup_delete_eq, decide_True; [done|by left].
  - rewrite lookup_delete_ne by done. rewrite decide_False; [done|]. set_solver.
Qed.

(** The files after the loop of [remove_task]. *)
Lemma remove_files_lookup (files : gmap Z Z) (tasks : list task) i s :
  foldl (λ files tk, if task_id tk =? i then foldl (λ files sst, delete sst files) files (ssts tk) else files)
    files tasks !! s =
  if decide (Exists (λ tk, task_id tk = i ∧ s ∈ ssts tk) tasks) then None else files !! s.
Proof.
  revert files. induction tasks as [|tk tasks IH]; intros files; cbn [foldl].
  { rewrite decide_False; [done|]. intros H. by apply Exists_nil in H. }
  rewrite IH. destruct (decide (Exists _ tasks)) as [H|H].
  { rewrite decide_True; [done|by right]. }
  destruct (Z.eqb_spec (task_id tk) i) as [Hi|Hi].
  - rewrite foldl_delete_lookup. destruct (decide (s ∈ ssts tk)).
    + rewrite decide_True; [done|by left].
    + rewrite decide_False; [done|]. rewrite Exists_cons. naive_solver.
  - rewrite decide_False; [done|]. rewrite Exists_cons. naive_solver.
Qed.

Lemma sublist_bind (a b : list task) : sublist a b → sublist (a ≫= ssts) (b ≫= ssts).
Proof.
  induction 1 as [|x a b _ IH|x a b _ IH]; csimpl; [done|by apply sublist_app|].
  by apply sublist_inserts_l.
Qed.

(** In a task list over distinct tables a table belongs to one task. *)
Lemma same_task (tasks : list task) a b s :
  NoDup (tasks ≫= ssts) → a ∈ tasks → b ∈ tasks → s ∈ ssts a → s ∈ ssts b → task_id a = task_id b.
Proof.
  intros Hnd Ha Hb Hsa Hsb. assert (index tasks !! s = Some (task_id a)) as H1 by (apply index_lookup; eauto).
  assert (index tasks !! s = Some (task_id b)) as H2 by (apply index_lookup; eauto). congruence.
Qed.

Lemma remove_task_ok self i : handler_ok self → handler_ok (remove_task self i).
Proof.
  intros [Hnd Hix]. assert (NoDup (filter (λ tk, task_id tk ≠ i) (pending_tasks self) ≫= ssts)) as Hnd'.
  { eapply sublist_NoDup; [exact Hnd|]. apply sublist_bind, sublist_filter. }
  split; [exact Hnd'|]. apply map_eq. intros s. cbn [compacting_files pending_tasks remove_task].
  rewrite remove_files_lookup, Hix. apply option_eq. intros j. rewrite index_lookup by done.
  setoid_rewrite list_elem_of_filter. destruct (decide (Exists _ _)) as [(tk & Hin & Hi & Hs)%Exists_exists|Hn].
  - split; [done|]. intros (tk' & [Hne Hin'] & Hs' & _). by rewrite (same_task _ tk' tk s Hnd) in Hne.
  - rewrite index_lookup by done. rewrite Exists_exists in Hn. naive_solver.
Qed.

Lemma from_protobuf_foldl (todo pre : list task) :
  NoDup ((pre ++ todo) ≫= ssts) →
  foldl (λ '(pending, files) tk, (pending ++ [tk], foldl (λ files s, <[s := task_id tk]> files) files (ssts tk)))
    (pre, index pre) todo = (pre ++ todo, index (pre ++ todo)).
Proof.
  revert pre. induction todo as [|tk todo IH]; intros pre Hnd; csimpl; [by rewrite app_nil_r|].
  assert (pre ++ tk :: todo = (pre ++ [tk]) ++ todo) as E by by rewrite <-(assoc_L (++)).
  rewrite E in Hnd |- *. rewrite index_snoc; [by apply IH|].
  rewrite bind_app in Hnd. by apply NoDup_app in Hnd as [? _].
Qed.

(** Restoring a handler whose index is that of its tasks. *)
Lemma from_to_protobuf_handler self : handler_ok self → from_protobuf (to_protobuf self) = self.
Proof.
  intros [Hnd Hix]. unfold from_protobuf, to_protobuf. cbn [PbLevelHandler.tasks PbLevelHandler.level].
  change ∅ with (index []). rewrite from_protobuf_foldl by done. rewrite app_nil_l, <-Hix. by destruct self.
Qed.

(** ** Reachable handlers *)

Inductive step : relation t :=
| step_add self i target l : free self l → step self (add_pending_task self i target l)
| step_remove self i : step self (remove_task self i).

Definition reachable (level : Z) (self : t) : Prop := rtc step (new level) self.

Lemma reachable_ok level self : reachable level self → handler_ok self.
Proof.
  intros H. assert (handler_ok (new level)) as Hnew by (split; [constructor|done]).
  revert Hnew. unfold reachable in H. induction H as [|? ? ? Hs _ IH]; [done|]. intros Hok. apply IH.
  destruct Hs; [by apply add_pending_task_ok|by apply remove_task_ok].
Qed.

Lemma pending_iff self s :
  handler_ok self → is_pending_compact self s = true ↔ ∃ tk, tk ∈ pending_tasks self ∧ s ∈ ssts tk.
Proof.
  intros [Hnd Hix]. unfold is_pending_compact. rewrite bool_decide_eq_true, Hix. unfold is_Some.
  setoid_rewrite index_lookup; [|done]. naive_solver.
Qed.

Lemma pending_count self : handler_ok self → pending_file_count self = length (pending_tasks self ≫= ssts).
Proof.
  intros [Hnd Hix]. unfold pending_file_count. rewrite Hix. unfold index.
  rewrite map_size_list_to_map by (by rewrite entries_fst).
  by rewrite <-entries_fst, length_fmap.
Qed.

Lemma remove_added self i target l :
  handler_ok self → free self l → Forall (λ tk, task_id tk ≠ i) (pending_tasks self) →
  remove_task (add_pending_task self i target l) i = self.
Proof.
  intros Hok Hfree Hi. pose proof (remove_task_ok _ i (add_pending_task_ok self i target l Hok Hfree)) as [_ Hix'].
  assert (pending_tasks (remove_task (add_pending_task self i target l) i) = pending_tasks self) as Hp.
  { rewrite add_pending_task_eval. cbn [remove_task pending_tasks]. rewrite filter_app, filter_cons_False by (by intros H; apply H).
    rewrite filter_nil, app_nil_r. clear -Hi.
    induction Hi as [|tk tks Htk _ IH]; [done|]. rewrite filter_cons_True by done. by rewrite IH. }
  rewrite Hp in Hix'. destruct Hok as [_ Hix]. rewrite <-Hix in Hix'.
  destruct (remove_task _ i) as [lv files tasks] eqn:E. cbn [pending_tasks compacting_files] in *. subst.
  rewrite add_pending_task_eval in E. injection E as <- _ _. by destruct self.
Qed.

(** The bookkeeping of pending compactions is exact.  In every handler reached from a new
    one by adding tasks over free tables and removing tasks, a table is pending exactly when
    a pending task lists it, the task reported for it is that task, the number of pending
    files is the number of tables listed, storing and loading the handler is the identity,
    and removing a task just added (under a fresh id) restores the handler. *)
Theorem level_handler_exact (level : Z) (self : t) :
  reachable level self →
  (∀ s, is_pending_compact self s = true ↔ ∃ tk, tk ∈ pending_tasks self ∧ s ∈ ssts tk) ∧
  (∀ s i, pending_task_id_by_sst self s = Some i ↔ ∃ tk, tk ∈ pending_tasks self ∧ s ∈ ssts tk ∧ task_id tk = i) ∧
  pending_file_count self = length (pending_tasks self ≫= ssts) ∧
  from_protobuf (to_protobuf self) = self ∧
  (∀ i target l, free self l → Forall (λ tk, task_id tk ≠ i) (pending_tasks self) →
     remove_task (add_pending_task self i target l) i = self).
Proof.
  intros Hok%reachable_ok. split; [intros s; by apply pending_iff|]. split.
  { intros s i. unfold pending_task_id_by_sst. destruct Hok as [Hnd ->]. by apply index_lookup. }
  split; [by apply pending_count|]. split; [by apply from_to_protobuf_handler|].
  intros i target l. by apply remove_added.
Qed.

Lemma level_handler_exact_witness :
  let s1 := SstableInfo.mk 1 1 KeyRange.inf 10 [1] 0 0 1 0 0 10 0 1 10 in
  let s2 := SstableInfo.mk 2 2 KeyRange.inf 10 [1] 0 0 1 0 0 10 0 1 10 in
  let self := add_pending_task (remove_task (add_pending_task (new 1) 7 2 [s1; s2]) 7) 8 2 [s2] in
  reachable 1 self ∧ from_protobuf (to_protobuf self) = self.
Proof.
  intros s1 s2 self. assert (reachable 1 self) as Hr.
  { eapply rtc_l; [apply (step_add (new 1) 7 2 [s1; s2])|eapply rtc_l; [apply (step_remove _ 7)|eapply rtc_l; [apply (step_add _ 8 2 [s2])|reflexivity]]].
    - split; [by repeat (constructor; [set_solver|]); constructor|by repeat constructor].
    - split; [by repeat (constructor; [set_solver|]); constructor|by repeat constructor]. }
  split; [exact Hr|]. by destruct (level_handler_exact 1 self Hr) as (_ & _ & _ & H & _).
Defined.
