(* ===== verification/Split.v ===== *)
(** * Level updates, group split and group merge

    [src/storage/hummock_sdk/src/compaction_group/mod.rs] (module [group_split]) and the level
    operations of [hummock_version_ext.rs]: applying a compaction to a group's levels,
    splitting a group at a key, merging two groups. *)

From Stdlib Require Import ZArith Lia.
From stdpp Require Import gmap fin_maps.
From S2P Require Import Prelude Order Bytes Epoch Bits Bitmap Vnode Key KeySpec KeyRange Sst Level.

Local Open Scope Z_scope.

(** ** [slice::sort_by], stable, with a comparison that may panic *)

Section sort_by.
Context {A : Type} (cmp : A → A → outcome comparison).

Fixpoint rinsert_by (x : A) (l : list A) : outcome (list A) :=
  match l with
  | [] => Ret [x]
  | y :: l' =>
      c ← cmp x y;
      if is_gt c then l'' ← rinsert_by x l'; Ret (y :: l'') else Ret (x :: l)
  end.

Fixpoint rsort_by (l : list A) : outcome (list A) :=
  match l with
  | [] => Ret []
  | x :: l' => l'' ← rsort_by l'; rinsert_by x l''
  end.
End sort_by.

(** [|sst1, sst2| sst1.key_range.cmp(&sst2.key_range)] *)
Definition key_range_order (sst1 sst2 : SstableInfo.t) : outcome comparison :=
  KeyRange.cmp (SstableInfo.key_range sst1) (SstableInfo.key_range sst2).

(** [BTreeSet::from_iter]: ascending, without duplicates. *)
Fixpoint btree_insert (x : Z) (l : list Z) : list Z :=
  match l with
  | [] => [x]
  | y :: l' => if x <? y then x :: l else if x =? y then l else y :: btree_insert x l'
  end.

Definition btree_set (l : list Z) : list Z := foldr btree_insert [] l.

(** [iter.map(|sst| sst.sst_size).sum()] and the uncompressed sizes. *)
Definition sst_sizes (l : list SstableInfo.t) : Z := sum_u64 (SstableInfo.sst_size <$> l).
Definition uncompressed_sizes (l : list SstableInfo.t) : Z := sum_u64 (SstableInfo.uncompressed_file_size <$> l).

(** [table_infos.is_empty()] *)
Definition no_tables (level : Level.t) : bool := bool_decide (Level.table_infos level = []).

(** ** Levels ([hummock_version_ext.rs]) *)

Definition new_sub_level (sub_level_id : Z) (level_type : LevelType.t) (table_infos : list SstableInfo.t) : Level.t :=
  Level.mk 0 level_type table_infos (sst_sizes table_infos) sub_level_id (uncompressed_sizes table_infos) 0.

(** The sizes added table by table. *)
Definition add_sizes (sizes : Z * Z) (sst : SstableInfo.t) : Z * Z :=
  (wrap 64 (sizes.1 + SstableInfo.sst_size sst), wrap 64 (sizes.2 + SstableInfo.uncompressed_file_size sst)).

Definition add_ssts_to_sub_level (l0 : OverlappingLevel.t) (sub_level_idx : nat)
    (insert_table_infos : list SstableInfo.t) : outcome OverlappingLevel.t :=
  level ← unwrap (OverlappingLevel.sub_levels l0 !! sub_level_idx);
  let '(total, uncompressed) := foldl add_sizes
    (Level.total_file_size level, Level.uncompressed_file_size level) insert_table_infos in
  let '(l0_total, l0_uncompressed) := foldl add_sizes
    (OverlappingLevel.total_file_size l0, OverlappingLevel.uncompressed_file_size l0) insert_table_infos in
  let tables := Level.table_infos level ++ insert_table_infos in
  tables ← (if bool_decide (Level.level_type level = LevelType.Nonoverlapping) then
              sorted ← rsort_by key_range_order tables;
              b ← can_concat sorted;
              rassert b;; Ret sorted
            else Ret tables);
  let level := Level.with_tables (Level.with_sizes level total uncompressed) tables in
  Ret (OverlappingLevel.mk (<[sub_level_idx := level]> (OverlappingLevel.sub_levels l0)) l0_total l0_uncompressed).

(** [Vec::insert] *)
Definition vec_insert {A} (pos : nat) (x : A) (l : list A) : outcome (list A) :=
  rassert (pos <=? length l)%nat;; Ret (take pos l ++ x :: drop pos l).

Definition insert_new_sub_level (l0 : OverlappingLevel.t) (insert_sub_level_id : Z) (level_type : LevelType.t)
    (insert_table_infos : list SstableInfo.t) (sub_level_insert_hint : option nat) : outcome OverlappingLevel.t :=
  if insert_sub_level_id =? u64_max then Ret l0
  else
    insert_pos ← match sub_level_insert_hint with
      | Some insert_pos => Ret insert_pos
      | None =>
          rassert (match last (OverlappingLevel.sub_levels l0) with
                   | Some newest_level => Level.sub_level_id newest_level <? insert_sub_level_id
                   | None => true
                   end);;
          Ret (length (OverlappingLevel.sub_levels l0))
      end;
    let level := new_sub_level insert_sub_level_id level_type insert_table_infos in
    sub_levels ← vec_insert insert_pos level (OverlappingLevel.sub_levels l0);
    Ret (OverlappingLevel.mk sub_levels
      (wrap 64 (OverlappingLevel.total_file_size l0 + Level.total_file_size level))
      (wrap 64 (OverlappingLevel.uncompressed_file_size l0 + Level.uncompressed_file_size level))).

Definition level_delete_ssts (operand : Level.t) (delete_sst_ids_superset : gset Z) : Level.t * bool :=
  let original_len := length (Level.table_infos operand) in
  let tables := filter (λ table, SstableInfo.sst_id table ∉ delete_sst_ids_superset) (Level.table_infos operand) in
  (Level.with_tables (Level.with_sizes operand (sst_sizes tables) (uncompressed_sizes tables)) tables,
   negb (original_len =? length tables)%nat).

(** Appending tables to a level and sorting it: sizes, [extend], [sort_by], [assert!]. *)
Definition extend_sorted (level : Level.t) (insert_table_infos : list SstableInfo.t) : outcome Level.t :=
  let total := wrap 64 (Level.total_file_size level + sst_sizes insert_table_infos) in
  let uncompressed := wrap 64 (Level.uncompressed_file_size level + uncompressed_sizes insert_table_infos) in
  sorted ← rsort_by key_range_order (Level.table_infos level ++ insert_table_infos);
  b ← can_concat sorted;
  rassert b;;
  Ret (Level.with_tables (Level.with_sizes level total uncompressed) sorted).

Definition level_insert_ssts (operand : Level.t) (insert_table_infos : list SstableInfo.t) : outcome Level.t :=
  operand ← extend_sorted operand insert_table_infos;
  Ret (if bool_decide (Level.level_type operand = LevelType.Overlapping)
       then Level.with_type operand LevelType.Nonoverlapping else operand).

Definition build_initial_compaction_group_levels (group_id : Z) (max_level : nat) : Levels.t :=
  Levels.mk ((λ l, Level.mk (wrap 32 (Z.of_nat (l + 1))) LevelType.Nonoverlapping [] 0 0 0 0) <$> seq 0 max_level)
    (OverlappingLevel.mk [] 0 0) group_id 0 [].

Module IntraLevelDelta.

Record t := mk {
  level_idx : Z;
  l0_sub_level_id : Z;
  removed_table_ids : gset Z;
  inserted_table_infos : list SstableInfo.t;
  vnode_partition_count : Z
}.

End IntraLevelDelta.

(** [sst_ids.remove(..)] for the tables of a level. *)
Definition remove_ids (sst_ids : gset Z) (level : Level.t) : gset Z :=
  foldl (λ ids table, ids ∖ {[ SstableInfo.sst_id table ]}) sst_ids (Level.table_infos level).

Definition check_sst_ids_exist (self : Levels.t) (level_idx_to_check : list Z) (sst_ids : gset Z) : outcome bool :=
  sst_ids ← rfold (λ sst_ids level_idx,
    if level_idx =? 0 then Ret (foldl remove_ids sst_ids (OverlappingLevel.sub_levels (Levels.l0 self)))
    else level ← unwrap (Levels.levels self !! Z.to_nat (level_idx - 1)); Ret (remove_ids sst_ids level))
    level_idx_to_check sst_ids;
  Ret (bool_decide (sst_ids = ∅)).

(** The first half of [apply_compact_ssts]: delete. *)
Definition apply_delete (self : Levels.t) (level_idx : Z) (ids : gset Z) : outcome Levels.t :=
  if bool_decide (ids = ∅) then Ret self
  else if level_idx =? 0 then
    let l0 := Levels.l0 self in
    Ret (Levels.with_l0 self (OverlappingLevel.mk
      ((λ level, (level_delete_ssts level ids).1) <$> OverlappingLevel.sub_levels l0)
      (OverlappingLevel.total_file_size l0) (OverlappingLevel.uncompressed_file_size l0)))
  else
    let idx := Z.to_nat (level_idx - 1) in
    level ← unwrap (Levels.levels self !! idx);
    Ret (Levels.with_levels self (<[idx := (level_delete_ssts level ids).1]> (Levels.levels self))).

(** The partition count of an L0 sub-level that receives all tables of the only state table. *)
Definition l0_partition_count (level : Level.t) (tables : list SstableInfo.t) (member_table_ids : list Z) (count : Z)
  : Level.t :=
  if no_tables level &&
     match member_table_ids with
     | [id] => forallb (λ sst, bool_decide (SstableInfo.table_ids sst = [id])) tables
     | _ => false
     end
  then Level.with_partition_count level count else level.

Definition base_partition_count (level : Level.t) (tables : list SstableInfo.t) (member_table_ids : list Z) (count : Z)
  : Level.t :=
  if no_tables level && forallb (λ sst, (length (SstableInfo.table_ids sst) =? 1)%nat) tables
  then Level.with_partition_count level count
  else if negb (Level.vnode_partition_count level =? 0) && (count =? 0) && (1 <? length member_table_ids)%nat
  then Level.with_partition_count level 0
  else level.

(** The second half: insert. *)
Definition apply_insert (self : Levels.t) (delta : IntraLevelDelta.t) (member_table_ids : list Z) : outcome Levels.t :=
  let tables := IntraLevelDelta.inserted_table_infos delta in
  let count := IntraLevelDelta.vnode_partition_count delta in
  if bool_decide (tables = []) then Ret self
  else if IntraLevelDelta.level_idx delta =? 0 then
    let l0 := Levels.l0 self in
    let index := VnodeMapping.partition_point
      (λ level, Level.sub_level_id level <? IntraLevelDelta.l0_sub_level_id delta) (OverlappingLevel.sub_levels l0) in
    level ← unwrap (OverlappingLevel.sub_levels l0 !! index);
    rassert (Level.sub_level_id level =? IntraLevelDelta.l0_sub_level_id delta);;
    level ← level_insert_ssts (l0_partition_count level tables member_table_ids count) tables;
    Ret (Levels.with_l0 self (OverlappingLevel.mk (<[index := level]> (OverlappingLevel.sub_levels l0))
      (OverlappingLevel.total_file_size l0) (OverlappingLevel.uncompressed_file_size l0)))
  else
    let idx := Z.to_nat (IntraLevelDelta.level_idx delta - 1) in
    level ← unwrap (Levels.levels self !! idx);
    level ← level_insert_ssts (base_partition_count level tables member_table_ids count) tables;
    Ret (Levels.with_levels self (<[idx := level]> (Levels.levels self))).

Definition apply_compact_ssts (self : Levels.t) (delta : IntraLevelDelta.t) (member_table_ids : list Z)
  : outcome Levels.t :=
  exist ← check_sst_ids_exist self [IntraLevelDelta.level_idx delta] (IntraLevelDelta.removed_table_ids delta);
  if (exist : bool) then
    self ← apply_delete self (IntraLevelDelta.level_idx delta) (IntraLevelDelta.removed_table_ids delta);
    apply_insert self delta member_table_ids
  else Ret self.

Definition post_apply_l0_compact (self : Levels.t) : Levels.t :=
  let sub_levels := filter (λ level, no_tables level = false) (OverlappingLevel.sub_levels (Levels.l0 self)) in
  Levels.with_l0 self (OverlappingLevel.mk sub_levels
    (sum_u64 (Level.total_file_size <$> sub_levels)) (sum_u64 (Level.uncompressed_file_size <$> sub_levels))).

(** ** [group_split] *)

Module GroupSplit.

Definition build_split_full_key (table_id : Z) (vnode : VirtualNode.t) : outcome FullKey.t :=
  '(table_id, vnode) ← (if bool_decide (VirtualNode.MAX_REPRESENTABLE = vnode) then
      rassert (table_id <? u32_max);; Ret (table_id + 1, VirtualNode.ZERO)
    else Ret (table_id, vnode));
  Ret (FullKey.new table_id (VirtualNode.to_be_bytes vnode) u64_max).

Definition build_split_key (table_id : Z) (vnode : VirtualNode.t) : outcome (list byte) :=
  FullKey.encode <$> build_split_full_key table_id vnode.

Inductive SstSplitType := Left | Right | Both.

Definition need_to_split (sst : SstableInfo.t) (split_key : list byte) : outcome SstSplitType :=
  let key_range := SstableInfo.key_range sst in
  c ← KeyComparator.compare_encoded_full_key split_key (KeyRange.left key_range);
  if negb (is_gt c) then Ret Right
  else
    c ← KeyComparator.compare_encoded_full_key split_key (KeyRange.right key_range);
    if KeyRange.right_exclusive key_range then Ret (if negb (is_lt c) then Left else Both)
    else Ret (if is_gt c then Left else Both).

Definition split_table_ids_with_table_id_and_vnode (table_ids : list Z) (table_id : Z) (vnode : nat)
  : outcome (list Z * list Z) :=
  rassert (is_sorted table_ids);;
  rassert (bool_decide (VirtualNode.ZERO = VirtualNode.from_index vnode));;
  let pos := VnodeMapping.partition_point (λ id, id <? table_id) table_ids in
  Ret (take pos table_ids, drop pos table_ids).

Definition split_table_ids_with_split_key (table_ids : list Z) (split_key : list byte) : outcome (list Z * list Z) :=
  rassert (is_sorted table_ids);;
  split_full_key ← FullKey.decode split_key;
  let split_user_key := FullKey.user_key split_full_key in
  vnode ← UserKey.get_vnode_id split_user_key;
  split_table_ids_with_table_id_and_vnode table_ids (UserKey.table_id split_user_key) vnode.

(** The fields a split rewrites. *)
Definition rebuild (s : SstableInfo.t) (id : Z) (range : KeyRange.t) (size : Z) (table_ids : list Z) : SstableInfo.t :=
  SstableInfo.mk (SstableInfo.object_id s) id range (SstableInfo.file_size s) table_ids
    (SstableInfo.meta_offset s) (SstableInfo.stale_key_count s) (SstableInfo.total_key_count s)
    (SstableInfo.min_epoch s) (SstableInfo.max_epoch s) (SstableInfo.uncompressed_file_size s)
    (SstableInfo.range_tombstone_count s) (SstableInfo.bloom_filter_kind s) size.

Definition split_sst (origin : SstableInfo.t) (new_sst_id : Z) (split_key : list byte) (left_size right_size : Z)
  : outcome (option SstableInfo.t * option SstableInfo.t * Z) :=
  let branch_id := new_sst_id in
  let origin_id := wrap 64 (new_sst_id + 1) in
  let new_sst_id := wrap 64 (origin_id + 1) in
  let key_range := SstableInfo.key_range origin in
  let key_range_l := KeyRange.mk (KeyRange.left key_range) split_key true in
  let key_range_r := KeyRange.mk split_key (KeyRange.right key_range) (KeyRange.right_exclusive key_range) in
  '(table_ids_l, table_ids_r) ← split_table_ids_with_split_key (SstableInfo.table_ids origin) split_key;
  let l := rebuild origin origin_id key_range_l left_size table_ids_l in
  let r := rebuild origin branch_id key_range_r right_size table_ids_r in
  if bool_decide (table_ids_l = []) then Ret (None, Some r, new_sst_id)
  else if bool_decide (table_ids_r = []) then Ret (Some l, None, new_sst_id)
  else
    c ← KeyComparator.compare_encoded_full_key (KeyRange.left key_range_l) (KeyRange.right key_range_l);
    match c with
    | Eq => Ret (None, Some r, new_sst_id)
    | _ => Ret (Some l, Some r, new_sst_id)
    end.

Definition split_sst_with_table_ids (origin : SstableInfo.t) (new_sst_id : Z) (old_sst_size new_sst_size : Z)
    (new_table_ids : list Z) : SstableInfo.t * SstableInfo.t * Z :=
  let branch_id := new_sst_id in
  let origin_id := wrap 64 (new_sst_id + 1) in
  let set1 := btree_set (SstableInfo.table_ids origin) in
  let set2 := btree_set new_table_ids in
  let intersection := filter (λ id, id ∈ set2) set1 in
  let remaining := filter (λ id, id ∉ intersection) (SstableInfo.table_ids origin) in
  (rebuild origin origin_id (SstableInfo.key_range origin) old_sst_size remaining,
   rebuild origin branch_id (SstableInfo.key_range origin) new_sst_size intersection,
   wrap 64 (origin_id + 1)).

Definition get_split_pos (sstables : list SstableInfo.t) (split_key : list byte) : outcome nat :=
  pos ← rpartition_point (λ sst,
    is_lt <$> KeyComparator.compare_encoded_full_key (KeyRange.left (SstableInfo.key_range sst)) split_key) sstables;
  Ret (pos - 1)%nat.

(** [Ok(idx)]: extend sub-level [idx]; [Err(idx)]: insert a new one there. *)
Fixpoint insert_hint_from (idx : nat) (target_levels : list Level.t) (id : Z) : nat + nat :=
  match target_levels with
  | [] => inr idx
  | other :: rest =>
      match Level.sub_level_id other ?= id with
      | Lt => insert_hint_from (S idx) rest id
      | Eq => inl idx
      | Gt => inr idx
      end
  end.

Definition get_sub_level_insert_hint (target_levels : list Level.t) (sub_level : Level.t) : nat + nat :=
  insert_hint_from 0 target_levels (Level.sub_level_id sub_level).

Definition option_list {A} (o : option A) : list A := match o with Some x => [x] | None => [] end.

(** One call of the closure of [retain_mut]; the accumulator holds the kept tables, the
    tables moved and the next id. *)
Definition split_overlapping_step (split_key : list byte) (acc : list SstableInfo.t * list SstableInfo.t * Z)
    (sst : SstableInfo.t) : outcome (list SstableInfo.t * list SstableInfo.t * Z) :=
  let '(kept, moved, id) := acc in
  ty ← need_to_split sst split_key;
  match ty with
  | Left => Ret (kept ++ [sst], moved, id)
  | Right => Ret (kept, moved ++ [sst], id)
  | Both =>
      '(l, r, id) ← split_sst sst id split_key (SstableInfo.sst_size sst / 2) (SstableInfo.sst_size sst / 2);
      Ret (kept ++ option_list l, moved ++ option_list r, id)
  end.

(** The tables of a sorted level around the split position. *)
Definition split_sorted (tables : list SstableInfo.t) (new_sst_id : Z) (split_key : list byte)
  : outcome (list SstableInfo.t * list SstableInfo.t * Z) :=
  pos ← get_split_pos tables split_key;
  if (length tables <=? pos)%nat then Ret (tables, [], new_sst_id)
  else
    sst ← unwrap (tables !! pos);
    ty ← need_to_split sst split_key;
    match ty with
    | Left => Ret (take (S pos) tables, drop (S pos) tables, new_sst_id)
    | Right => rassert (pos =? 0)%nat;; Ret ([], drop pos tables, new_sst_id)
    | Both =>
        '(l, r, id) ← split_sst sst new_sst_id split_key (SstableInfo.sst_size sst / 2) (SstableInfo.sst_size sst / 2);
        Ret (take pos tables ++ option_list l, option_list r ++ drop (S pos) tables, id)
    end.

(** The level that remains, the tables split off and the next id. *)
Definition split_sst_info_for_level_v2 (level : Level.t) (new_sst_id : Z) (split_key : list byte)
  : outcome (Level.t * list SstableInfo.t * Z) :=
  if no_tables level then Ret (level, [], new_sst_id)
  else
    '(kept, moved, id) ←
      (if bool_decide (Level.level_type level = LevelType.Overlapping)
       then rfold (split_overlapping_step split_key) (Level.table_infos level) ([], [], new_sst_id)
       else split_sorted (Level.table_infos level) new_sst_id split_key);
    Ret (Level.with_tables level kept, moved, id).

(** [is_sorted_by_key(|sub_level| sub_level.sub_level_id)] *)
Definition sub_levels_sorted (sub_levels : list Level.t) : bool := is_sorted (Level.sub_level_id <$> sub_levels).

Definition merge_sub_level (rewrite : bool) (acc : OverlappingLevel.t * Z) (right_sub_level : Level.t)
  : outcome (OverlappingLevel.t * Z) :=
  let '(l0, next_id) := acc in
  let '(id, next_id) := if rewrite then (next_id, wrap 64 (next_id + 1)) else (Level.sub_level_id right_sub_level, next_id) in
  l0 ← insert_new_sub_level l0 id (Level.level_type right_sub_level) (Level.table_infos right_sub_level) None;
  Ret (l0, next_id).

Definition merge_level (acc : list Level.t) (right : nat * Level.t) : outcome (list Level.t) :=
  let '(idx, level) := right in
  if no_tables level then Ret acc
  else
    left_level ← unwrap (acc !! idx);
    left_level ← extend_sorted left_level (Level.table_infos level);
    Ret (<[idx := left_level]> acc).

Definition merge_levels (left_levels right_levels : Levels.t) : outcome Levels.t :=
  let left_l0 := Levels.l0 left_levels in
  let max_left_sub_level_id := foldr Z.max 0
    ((λ sub_level, wrap 64 (Level.sub_level_id sub_level + 1)) <$> OverlappingLevel.sub_levels left_l0) in
  let need_rewrite := negb (max_left_sub_level_id =? 0) in
  '(l0, _) ← rfold (merge_sub_level need_rewrite) (OverlappingLevel.sub_levels (Levels.l0 right_levels))
    (left_l0, max_left_sub_level_id);
  rassert (sub_levels_sorted (OverlappingLevel.sub_levels l0));;
  let l0 := OverlappingLevel.mk
    ((λ sub_level, Level.with_partition_count sub_level 0) <$> OverlappingLevel.sub_levels l0)
    (OverlappingLevel.total_file_size l0) (OverlappingLevel.uncompressed_file_size l0) in
  levels ← rfold merge_level (imap pair (Levels.levels right_levels)) (Levels.levels left_levels);
  Ret (Levels.with_levels (Levels.with_l0 left_levels l0) levels).

End GroupSplit.

(** ** Splitting a group of a version ([impl HummockVersion])

    Of the version the functions use the levels by group, a [HashMap]. *)

Module HummockVersion.

Abbreviation groups := (gmap Z Levels.t).

Definition is_both (ty : GroupSplit.SstSplitType) : bool :=
  match ty with GroupSplit.Both => true | _ => false end.

(** New ids for one table: two if it is cut. *)
Definition count_sst (split_key : list byte) (sst : SstableInfo.t) : outcome Z :=
  ty ← GroupSplit.need_to_split sst split_key; Ret (if is_both ty then 2 else 0).

Definition count_sorted (split_key : list byte) (tables : list SstableInfo.t) : outcome Z :=
  pos ← GroupSplit.get_split_pos tables split_key;
  sst ← unwrap (tables !! pos);
  count_sst split_key sst.

Definition count_sub_level (split_key : list byte) (split_count : Z) (sub_level : Level.t) : outcome Z :=
  rassert (negb (no_tables sub_level));;
  n ← (if bool_decide (Level.level_type sub_level = LevelType.Overlapping)
       then sum_u64 <$> rmap (count_sst split_key) (Level.table_infos sub_level)
       else count_sorted split_key (Level.table_infos sub_level));
  Ret (wrap 64 (split_count + n)).

Definition count_level (split_key : list byte) (split_count : Z) (level : Level.t) : outcome Z :=
  if no_tables level then Ret split_count
  else n ← count_sorted split_key (Level.table_infos level); Ret (wrap 64 (split_count + n)).

Definition count_new_ssts_in_group_split (levels : groups) (parent_group_id : Z) (split_key : list byte) : outcome Z :=
  match levels !! parent_group_id with
  | None => Ret 0
  | Some parent_levels =>
      n ← rfold (count_sub_level split_key) (OverlappingLevel.sub_levels (Levels.l0 parent_levels)) 0;
      rfold (count_level split_key) (Levels.levels parent_levels) n
  end.

(** Sizes decremented for every table taken out by [extract_if]. *)
Definition sub_sizes (sizes : Z * Z) (sst : SstableInfo.t) : Z * Z :=
  (wrap 64 (sizes.1 - SstableInfo.sst_size sst), wrap 64 (sizes.2 - SstableInfo.uncompressed_file_size sst)).

(** [extract_if(|sst_info| sst_info.table_ids.is_empty())]: the tables extracted and the
    level without them. *)
Definition extracted (level : Level.t) : list SstableInfo.t :=
  filter (λ sst, SstableInfo.table_ids sst = []) (Level.table_infos level).

Definition purge (level : Level.t) : Level.t :=
  let '(total, uncompressed) := foldl sub_sizes
    (Level.total_file_size level, Level.uncompressed_file_size level) (extracted level) in
  Level.with_tables (Level.with_sizes level total uncompressed)
    (filter (λ sst, SstableInfo.table_ids sst ≠ []) (Level.table_infos level)).

(** Adding the split-off tables of a sub-level to the new group's L0. *)
Definition move_to_l0 (target_l0 : OverlappingLevel.t) (sub_level : Level.t) (moved : list SstableInfo.t)
  : outcome OverlappingLevel.t :=
  match GroupSplit.get_sub_level_insert_hint (OverlappingLevel.sub_levels target_l0) sub_level with
  | inl idx => add_ssts_to_sub_level target_l0 idx moved
  | inr idx => insert_new_sub_level target_l0 (Level.sub_level_id sub_level) (Level.level_type sub_level) moved (Some idx)
  end.

(** What the loop over L0 carries: sub-levels done, sizes of the parent's L0, the L0 of the
    new group and the next id. *)
Abbreviation l0_state := (list Level.t * (Z * Z) * OverlappingLevel.t * Z)%type.

Definition split_level_opt (split_key : option (list byte)) (level : Level.t) (id : Z)
  : outcome (Level.t * list SstableInfo.t * Z) :=
  match split_key with
  | Some split_key => GroupSplit.split_sst_info_for_level_v2 level id split_key
  | None => Ret (level, [], id)
  end.

Definition split_l0_step (split_key : option (list byte)) (acc : l0_state) (sub_level : Level.t) : outcome l0_state :=
  let '(done, sizes, target_l0, id) := acc in
  '(sub_level, moved, id) ← split_level_opt split_key sub_level id;
  if bool_decide (moved = []) then Ret (done ++ [sub_level], sizes, target_l0, id)
  else
    let sizes := foldl sub_sizes sizes (extracted sub_level) in
    let sub_level := purge sub_level in
    target_l0 ← move_to_l0 target_l0 sub_level moved;
    Ret (done ++ [sub_level], sizes, target_l0, id).

(** The loop over the other levels: the parent's levels done, the new group's levels and the
    next id. *)
Definition split_level_step (split_key : option (list byte)) (acc : list Level.t * list Level.t * Z)
    (level : nat * Level.t) : outcome (list Level.t * list Level.t * Z) :=
  let '(done, cur_levels, id) := acc in
  let '(idx, level) := level in
  '(level, moved, id) ← split_level_opt split_key level id;
  if bool_decide (moved = []) then Ret (done ++ [level], cur_levels, id)
  else
    cur ← unwrap (cur_levels !! idx);
    cur ← extend_sorted cur moved;
    Ret (done ++ [purge level], <[idx := cur]> cur_levels, id).

(** The two groups after the split and the next id; [parent] and [cur] are the entries of the
    parent and of the new group. *)
Definition split_groups (parent cur : Levels.t) (new_sst_id : Z) (split_key : option (list byte))
  : outcome (Levels.t * Levels.t * Z) :=
  let l0 := Levels.l0 parent in
  '(subs, sizes, target_l0, id) ← rfold (split_l0_step split_key) (OverlappingLevel.sub_levels l0)
    ([], (OverlappingLevel.total_file_size l0, OverlappingLevel.uncompressed_file_size l0), Levels.l0 cur, new_sst_id);
  let subs := filter (λ level, no_tables level = false) subs in
  '(parent_levels, cur_levels, id) ← rfold (split_level_step split_key) (imap pair (Levels.levels parent))
    ([], Levels.levels cur, id);
  rassert (forallb (λ level, negb (no_tables level)) subs);;
  rassert (forallb (λ level, negb (no_tables level)) (OverlappingLevel.sub_levels target_l0));;
  Ret (Levels.with_levels (Levels.with_l0 parent (OverlappingLevel.mk subs sizes.1 sizes.2)) parent_levels,
       Levels.with_levels (Levels.with_l0 cur target_l0) cur_levels, id).

(** [StaticCompactionGroupId::NewCompactionGroup] *)
Definition NewCompactionGroup : Z := 0.

Definition init_with_parent_group_v2 (levels : groups) (parent_group_id group_id new_sst_start_id : Z)
    (split_key : option (list byte)) : outcome groups :=
  if parent_group_id =? NewCompactionGroup then Ret levels
  else
    rassert (negb (parent_group_id =? group_id));;
    parent ← unwrap (levels !! parent_group_id);
    cur ← unwrap (levels !! group_id);
    '(parent, cur, _) ← split_groups parent cur new_sst_start_id split_key;
    Ret (<[group_id := cur]> (<[parent_group_id := parent]> levels)).

(** [split_sst_info_for_level]: the split by table ids of older versions. *)
Definition split_by_ids_step (member_table_ids : list Z) (acc : list SstableInfo.t * list SstableInfo.t * Z)
    (sst : SstableInfo.t) : list SstableInfo.t * list SstableInfo.t * Z :=
  let '(kept, moved, id) := acc in
  if bool_decide (filter (λ table_id, table_id ∈ member_table_ids) (SstableInfo.table_ids sst) = [])
  then (kept ++ [sst], moved, id)
  else
    let '(modified, branch, id) := GroupSplit.split_sst_with_table_ids sst id
      (SstableInfo.sst_size sst / 2) (SstableInfo.sst_size sst / 2) member_table_ids in
    (kept ++ [modified], moved ++ [branch], id).

Definition split_sst_info_for_level (member_table_ids : list Z) (level : Level.t) (new_sst_id : Z)
  : Level.t * list SstableInfo.t * Z :=
  let '(kept, moved, id) := foldl (split_by_ids_step member_table_ids) ([], [], new_sst_id) (Level.table_infos level) in
  (Level.with_tables level kept, moved, id).

Definition member_l0_step (member_table_ids : list Z) (acc : l0_state) (sub_level : Level.t) : outcome l0_state :=
  let '(done, sizes, target_l0, id) := acc in
  let '(sub_level, moved, id) := split_sst_info_for_level member_table_ids sub_level id in
  let sizes := foldl sub_sizes sizes (extracted sub_level) in
  let sub_level := purge sub_level in
  if bool_decide (moved = []) then Ret (done ++ [sub_level], sizes, target_l0, id)
  else
    target_l0 ← move_to_l0 target_l0 sub_level moved;
    Ret (done ++ [sub_level], sizes, target_l0, id).

Definition member_level_step (member_table_ids : list Z) (acc : list Level.t * list Level.t * Z)
    (level : nat * Level.t) : outcome (list Level.t * list Level.t * Z) :=
  let '(done, cur_levels, id) := acc in
  let '(idx, level) := level in
  let '(level, moved, id) := split_sst_info_for_level member_table_ids level id in
  cur ← unwrap (cur_levels !! idx);
  cur ← extend_sorted cur moved;
  Ret (done ++ [purge level], <[idx := cur]> cur_levels, id).

Definition init_with_parent_group (levels : groups) (parent_group_id group_id : Z) (member_table_ids : list Z)
    (new_sst_start_id : Z) : outcome groups :=
  if parent_group_id =? NewCompactionGroup then Ret levels
  else
    rassert (negb (parent_group_id =? group_id));;
    parent ← unwrap (levels !! parent_group_id);
    cur ← unwrap (levels !! group_id);
    let l0 := Levels.l0 parent in
    '(subs, sizes, target_l0, id) ← rfold (member_l0_step member_table_ids) (OverlappingLevel.sub_levels l0)
      ([], (OverlappingLevel.total_file_size l0, OverlappingLevel.uncompressed_file_size l0), Levels.l0 cur, new_sst_start_id);
    let subs := filter (λ level, no_tables level = false) subs in
    '(parent_levels, cur_levels, _) ← rfold (member_level_step member_table_ids) (imap pair (Levels.levels parent))
      ([], Levels.levels cur, id);
    rassert (forallb (λ level, negb (no_tables level)) subs);;
    rassert (forallb (λ level, negb (no_tables level)) (OverlappingLevel.sub_levels target_l0));;
    let parent := Levels.with_levels (Levels.with_l0 parent (OverlappingLevel.mk subs sizes.1 sizes.2)) parent_levels in
    let cur := Levels.with_levels (Levels.with_l0 cur target_l0) cur_levels in
    Ret (<[group_id := cur]> (<[parent_group_id := parent]> levels)).

(** [merge_compaction_group]; [left_table_ids] and [right_table_ids] are the member tables of
    the two groups in [state_table_info]. *)
Definition merge_compaction_group (levels : groups) (left_table_ids right_table_ids : list Z)
    (left_group_id right_group_id : Z) : outcome groups :=
  rassert (is_sorted (left_table_ids ++ right_table_ids));;
  right_levels ← unwrap (levels !! right_group_id);
  let levels := delete right_group_id levels in
  left_levels ← unwrap (levels !! left_group_id);
  left_levels ← GroupSplit.merge_levels left_levels right_levels;
  Ret (<[left_group_id := left_levels]> levels).

End HummockVersion.
