(* ===== verification/SplitSpec.v ===== *)
(** * Splitting a compaction group at a table id

    Correctness of [split_sst_info_for_level_v2] and the functions it uses ([Split.v]): the
    tables of a level are divided at the split key without losing or duplicating a user key,
    sorted levels stay sorted, the binary search agrees with the scan of all tables, and the
    ids consumed are the ids [count_new_ssts_in_group_split] reserves. *)

From Stdlib Require Import ZArith Lia.
From stdpp Require Import gmap fin_maps sorting.
From S2P Require Import Prelude Order Bytes Epoch Bits Bitmap Vnode Mapping Key KeySpec KeyRange Sst SstSpec Level Split.

Import GroupSplit.
Implicit Types (s : SstableInfo.t) (u v : UserKey.t) (l h : FullKey.t).

(** ** The user keys of a table *)

Definition in_range s u : Prop :=
  ∃ l h, range_ok (SstableInfo.key_range s) l h ∧ UserKey.cmp (FullKey.user_key l) u ≠ Gt ∧
    reaches (KeyRange.right_exclusive (SstableInfo.key_range s)) h u = true.

(** The table may contain [u]: its table id is listed and it lies in the range. *)
Definition holds s u : Prop := UserKey.table_id u ∈ SstableInfo.table_ids s ∧ in_range s u.

Lemma in_range_eval s l h u :
  range_ok (SstableInfo.key_range s) l h →
  in_range s u ↔ UserKey.cmp (FullKey.user_key l) u ≠ Gt ∧
    reaches (KeyRange.right_exclusive (SstableInfo.key_range s)) h u = true.
Proof.
  intros Hr. split; [|intros []; by exists l, h].
  intros (l' & h' & Hr' & H). by destruct (range_ok_inj _ _ _ _ _ Hr' Hr) as [-> ->].
Qed.

(** [before] as a relation of key sets. *)
Lemma before_iff a b :
  sst_ok a → sst_ok b → before a b ↔ ∀ u v, in_range a u → in_range b v → UserKey.cmp u v = Lt.
Proof.
  intros (la & ha & Ha) (lb & hb & Hb). rewrite (before_reaches a b la ha lb hb) by done.
  pose proof Ha as [_ Hna]. pose proof Hb as [_ Hnb].
  setoid_rewrite (in_range_eval a la ha); [|done]. setoid_rewrite (in_range_eval b lb hb); [|done]. split.
  - intros Hf u v [_ Hu] [Hv _]. destruct (UserKey.cmp u v) eqn:E; [| done |]; exfalso.
    all: assert (UserKey.cmp v u ≠ Gt) as Hvu
      by (rewrite (cmp_antisym UserKey.cmp u v), E; done).
    all: assert (UserKey.cmp (FullKey.user_key lb) u ≠ Gt) as Hlu by (by eapply (cmp_le_trans UserKey.cmp)).
    all: rewrite (reaches_down _ ha _ u Hlu Hu) in Hf; done.
  - intros Hlt. apply not_true_is_false. intros Hre.
    assert (UserKey.cmp (FullKey.user_key lb) (FullKey.user_key lb) ≠ Gt) as Hbb by (by rewrite (cmp_refl UserKey.cmp)).
    destruct (UserKey.cmp (FullKey.user_key la) (FullKey.user_key lb)) eqn:E.
    3: { specialize (Hlt (FullKey.user_key la) (FullKey.user_key lb)). rewrite E in Hlt.
         discriminate Hlt; (split; [by rewrite ?(cmp_refl UserKey.cmp)|done]). }
    all: specialize (Hlt (FullKey.user_key lb) (FullKey.user_key lb)); rewrite (cmp_refl UserKey.cmp) in Hlt;
      discriminate Hlt; (split; [by rewrite ?E, ?(cmp_refl UserKey.cmp)|done]).
Qed.

Lemma sorted_can_concat ssts : StronglySorted before ssts → can_concat ssts = Ret true.
Proof.
  induction 1 as [|a ssts Hs IH Hf]; [done|]. destruct ssts as [|b ssts]; [done|].
  rewrite can_concat_cons. apply Forall_cons in Hf as [Hab _]. unfold before in Hab. by rewrite Hab.
Qed.

(** ** The split key *)

Section split.
Context (T : Z) (HT : is_uint 32 T).

Definition split_full : FullKey.t := FullKey.new T (VirtualNode.to_be_bytes VirtualNode.ZERO) u64_max.
Definition split_user : UserKey.t := FullKey.user_key split_full.
Definition split_key : list byte := FullKey.encode split_full.

Lemma split_key_built : build_split_key T VirtualNode.ZERO = Ret split_key.
Proof.
  unfold build_split_key, build_split_full_key. rewrite bool_decide_false; [done|].
  rewrite max_representable_val. change VirtualNode.ZERO with O. pose proof max_count_val. lia.
Qed.

Lemma split_full_ok : full_key_ok split_full.
Proof using HT. split; [exact HT|]. by vm_compute. Qed.

(** A table key starts with two bytes for the vnode. *)
Definition valid u : Prop := 2 ≤ length (UserKey.table_key u).

Lemma zero_bytes_least (k : list byte) : 2 ≤ length k → bytes_cmp [Byte.x00; Byte.x00] k ≠ Gt.
Proof.
  assert (∀ a, byte_cmp Byte.x00 a ≠ Gt) as Hle by by intros [].
  destruct k as [|a [|b k]]; simpl; try lia. intros _. specialize (Hle a) as Ha. specialize (Hle b) as Hb.
  unfold bytes_cmp. simpl. destruct (byte_cmp Byte.x00 a), (byte_cmp Byte.x00 b), k; done.
Qed.

Lemma below_split u : valid u → UserKey.cmp u split_user = Lt ↔ (UserKey.table_id u < T)%Z.
Proof using Type.
  intros Hv. unfold UserKey.cmp, then_with. change (UserKey.table_id split_user) with T.
  change (UserKey.table_key split_user) with [Byte.x00; Byte.x00].
  destruct (Z.compare_spec (UserKey.table_id u) T) as [E|E|E]; [|done|split; [done|lia]].
  split; [|lia]. intros Hlt%(cmp_gt_lt bytes_cmp). by apply zero_bytes_least in Hv.
Qed.

(** The split key is the first full key of its user key. *)
Lemma cmp_split_gt x : full_key_ok x → is_gt (FullKey.cmp split_full x) = is_gt (UserKey.cmp split_user (FullKey.user_key x)).
Proof using Type.
  intros [_ He]. unfold FullKey.cmp, then_with. fold split_user. destruct (UserKey.cmp _ _); try done.
  change (FullKey.epoch_with_gap split_full) with u64_max. unfold is_uint in He.
  destruct (Z.compare_spec (FullKey.epoch_with_gap x) u64_max); [done..|unfold u64_max in *; lia].
Qed.

Lemma cmp_lt_split x : full_key_ok x → is_lt (FullKey.cmp x split_full) = is_lt (UserKey.cmp (FullKey.user_key x) split_user).
Proof using Type.
  intros Hx. rewrite (cmp_antisym FullKey.cmp split_full x), (cmp_antisym UserKey.cmp split_user (FullKey.user_key x)).
  pose proof (cmp_split_gt x Hx). by destruct (FullKey.cmp split_full x), (UserKey.cmp split_user (FullKey.user_key x)).
Qed.

(** Where a table lies. *)
Lemma need_to_split_eval s l h :
  range_ok (SstableInfo.key_range s) l h → right_epoch_ok (SstableInfo.key_range s) h →
  need_to_split s split_key = Ret
    (if cmp_leb UserKey.cmp split_user (FullKey.user_key l) then Right
     else if reaches (KeyRange.right_exclusive (SstableInfo.key_range s)) h split_user then Both else Left).
Proof using HT.
  intros [(HL & HR & Hl & Hh) _] He. simpl in *. unfold need_to_split. rewrite HL, HR. unfold split_key.
  rewrite !compare_encoded_full_key_ok by (done || apply split_full_ok). cbn [mbind outcome_bind].
  rewrite cmp_split_gt by done. unfold cmp_leb.
  destruct (UserKey.cmp split_user (FullKey.user_key l)); [done..|]. cbn [is_gt negb].
  pose proof (cmp_split_gt h Hh) as Hgt. unfold right_epoch_ok in He. unfold reaches, cmp_leb, cmp_ltb. rewrite He.
  case_bool_decide as E.
  - assert (FullKey.cmp split_full h = UserKey.cmp split_user (FullKey.user_key h)) as ->.
    { unfold FullKey.cmp, then_with. fold split_user. rewrite E.
      change (FullKey.epoch_with_gap split_full) with u64_max. rewrite Z.compare_refl. by destruct (UserKey.cmp _ _). }
    by destruct (UserKey.cmp _ _).
  - rewrite Hgt. by destruct (UserKey.cmp _ _).
Qed.

(** ** Table ids *)

Lemma is_sorted_StronglySorted ids : is_sorted ids = true ↔ StronglySorted Z.le ids.
Proof.
  induction ids as [|x [|y ids] IH]; [by split; constructor|by split; repeat constructor|].
  change (is_sorted (x :: y :: ids)) with ((x <=? y)%Z && is_sorted (y :: ids)).
  rewrite andb_true_iff, IH, Z.leb_le. split.
  - intros [Hxy Hs]. constructor; [done|]. constructor; [done|].
    apply StronglySorted_cons in Hs as [Hf _]. eapply Forall_impl; [exact Hf|]. intros; simpl in *; lia.
  - intros [Hf Hs]%StronglySorted_cons. apply Forall_cons in Hf as [? _]. done.
Qed.

Lemma split_ids_elem ids x :
  is_sorted ids = true →
  let pos := VnodeMapping.partition_point (λ id, (id <? T)%Z) ids in
  (x ∈ take pos ids ↔ x ∈ ids ∧ (x < T)%Z) ∧ (x ∈ drop pos ids ↔ x ∈ ids ∧ (T <= x)%Z).
Proof using Type.
  rewrite is_sorted_StronglySorted. induction 1 as [|y ids Hs IH Hf]; simpl.
  { split; (split; [by intros ?%elem_of_nil|by intros [?%elem_of_nil _]]). }
  destruct (Z.ltb_spec y T) as [Hlt|Hge]; simpl.
  - rewrite !elem_of_cons. destruct IH as [IH1 IH2]. split; [rewrite IH1|rewrite IH2]; naive_solver lia.
  - rewrite Forall_forall in Hf. split; [split; [by intros ?%elem_of_nil|]|].
    + intros [[->|Hx%Hf]%elem_of_cons ?]; lia.
    + rewrite elem_of_cons. split; [|tauto]. intros [->|Hx]; [naive_solver|]. specialize (Hf x Hx). split; [by right|lia].
Qed.

Lemma is_sorted_take n ids : is_sorted ids = true → is_sorted (take n ids) = true ∧ is_sorted (drop n ids) = true.
Proof.
  rewrite !is_sorted_StronglySorted. rewrite <-(take_drop n ids) at 1. intros H. by apply StronglySorted_app in H as (_ & ? & ?).
Qed.

Lemma split_table_ids_eval ids :
  is_sorted ids = true →
  let pos := VnodeMapping.partition_point (λ id, (id <? T)%Z) ids in
  split_table_ids_with_split_key ids split_key = Ret (take pos ids, drop pos ids).
Proof using HT.
  intros Hs pos. unfold split_table_ids_with_split_key, split_key. rewrite Hs. cbn [rassert mbind outcome_bind].
  rewrite full_key_decode_encode by apply split_full_ok. cbn [mbind outcome_bind]. fold split_user.
  assert (UserKey.get_vnode_id split_user = Ret O) as -> by by vm_compute.
  cbn [mbind outcome_bind]. unfold split_table_ids_with_table_id_and_vnode. rewrite Hs. done.
Qed.

(** ** One table *)

Definition table_ok s : Prop := table_wf s ∧ is_sorted (SstableInfo.table_ids s) = true.

(** [p] is a part of [s] on one side of the split key. *)
Definition part_of s (side : UserKey.t → Prop) p : Prop :=
  table_ok p ∧ (∀ u, in_range p u → in_range s u ∧ side u) ∧ ∀ u, holds p u → holds s u.

Definition below u : Prop := UserKey.cmp u split_user = Lt.
Definition above u : Prop := UserKey.cmp u split_user ≠ Lt.

(** The tables [ks] and [ms] are [s] cut at the split key. *)
Definition cut s (parts : list SstableInfo.t * list SstableInfo.t) : Prop :=
  length parts.1 ≤ 1 ∧ length parts.2 ≤ 1 ∧
  Forall (part_of s below) parts.1 ∧ Forall (part_of s above) parts.2 ∧
  ∀ u, valid u → holds s u →
    (below u → Exists (λ p, holds p u) parts.1) ∧ (above u → Exists (λ p, holds p u) parts.2).

Lemma part_self s (side : UserKey.t → Prop) : table_ok s → (∀ u, in_range s u → side u) → part_of s side s.
Proof. intros Hs Hside. split; [done|]. split; auto. Qed.

Lemma cut_left s : table_ok s → (∀ u, in_range s u → below u) → cut s ([s], []).
Proof using Type.
  intros Hs Hb. split; [done|]. split; [simpl; lia|]. split; [by apply Forall_singleton, part_self|].
  split; [apply Forall_nil_2|]. intros u _ Hu. split; [by left|]. intros Ha. destruct Ha. apply Hb, Hu.
Qed.

Lemma cut_right s : table_ok s → (∀ u, in_range s u → above u) → cut s ([], [s]).
Proof using Type.
  intros Hs Hb. split; [simpl; lia|]. split; [done|]. split; [apply Forall_nil_2|].
  split; [by apply Forall_singleton, part_self|]. intros u _ Hu. split; [|by left].
  intros Ha. destruct (Hb u); [apply Hu|done].
Qed.

(** The two halves of a table the split key falls into. *)
Definition left_half s id size : SstableInfo.t :=
  rebuild s id (KeyRange.mk (KeyRange.left (SstableInfo.key_range s)) split_key true) size
    (take (VnodeMapping.partition_point (λ i, (i <? T)%Z) (SstableInfo.table_ids s)) (SstableInfo.table_ids s)).

Definition right_half s id size : SstableInfo.t :=
  rebuild s id (KeyRange.mk split_key (KeyRange.right (SstableInfo.key_range s)) (KeyRange.right_exclusive (SstableInfo.key_range s))) size
    (drop (VnodeMapping.partition_point (λ i, (i <? T)%Z) (SstableInfo.table_ids s)) (SstableInfo.table_ids s)).

Section both.
Context s l h (Hr : range_ok (SstableInfo.key_range s) l h) (He : right_epoch_ok (SstableInfo.key_range s) h)
  (Hs : is_sorted (SstableInfo.table_ids s) = true)
  (Hl : UserKey.cmp (FullKey.user_key l) split_user = Lt)
  (Hh : reaches (KeyRange.right_exclusive (SstableInfo.key_range s)) h split_user = true).

Lemma left_half_range id size : range_ok (SstableInfo.key_range (left_half s id size)) l split_full.
Proof using All.
  destruct Hr as [(HL & _ & Hlo & _) _]. split.
  - split; [exact HL|]. split; [done|]. split; [exact Hlo|apply split_full_ok].
  - unfold reaches. simpl. by apply (cmp_ltb_lt UserKey.cmp).
Qed.

Lemma right_half_range id size : range_ok (SstableInfo.key_range (right_half s id size)) split_full h.
Proof using All.
  destruct Hr as [(_ & HR & _ & Hhi) _]. split; [|exact Hh].
  split; [done|]. split; [exact HR|]. split; [apply split_full_ok|exact Hhi].
Qed.

Lemma left_half_part id size : part_of s below (left_half s id size).
Proof using All.
  assert (∀ u, in_range (left_half s id size) u → in_range s u ∧ below u) as Hin.
  { intros u. rewrite (in_range_eval _ _ _ _ (left_half_range id size)), (in_range_eval _ _ _ _ Hr). simpl.
    unfold reaches at 1. rewrite (cmp_ltb_lt UserKey.cmp). intros [H1 H2]. split; [|done]. split; [done|].
    eapply reaches_down; [|exact Hh]. apply (cmp_le_cases UserKey.cmp). by left. }
  split; [|split; [exact Hin|]].
  - split; [|by apply is_sorted_take]. exists l, split_full. split; [apply left_half_range|done].
  - intros u [Hid Hu]. split; [|by apply Hin]. by apply split_ids_elem in Hid as [? _].
Qed.

Lemma right_half_part id size : part_of s above (right_half s id size).
Proof using All.
  assert (∀ u, in_range (right_half s id size) u → in_range s u ∧ above u) as Hin.
  { intros u. rewrite (in_range_eval _ _ _ _ (right_half_range id size)), (in_range_eval _ _ _ _ Hr). simpl.
    intros [H1 H2]. split; [|by apply (cmp_le_not_lt UserKey.cmp)]. split; [|done].
    eapply (cmp_le_trans UserKey.cmp); [|exact H1]. apply (cmp_le_cases UserKey.cmp). by left. }
  split; [|split; [exact Hin|]].
  - split; [|by apply is_sorted_take]. exists split_full, h. split; [apply right_half_range|exact He].
  - intros u [Hid Hu]. split; [|by apply Hin]. by apply split_ids_elem in Hid as [? _].
Qed.

Lemma left_half_holds id size u : valid u → holds s u → below u → holds (left_half s id size) u.
Proof using All.
  intros Hv [Hid Hu] Hb. split.
  - apply (split_ids_elem _ _ Hs). split; [done|]. by apply below_split.
  - rewrite (in_range_eval _ _ _ _ (left_half_range id size)). rewrite (in_range_eval _ _ _ _ Hr) in Hu.
    split; [by destruct Hu|]. unfold reaches. simpl. by apply (cmp_ltb_lt UserKey.cmp).
Qed.

Lemma right_half_holds id size u : valid u → holds s u → above u → holds (right_half s id size) u.
Proof using All.
  intros Hv [Hid Hu] Hb. split.
  - apply (split_ids_elem _ _ Hs). split; [done|]. unfold above in Hb. rewrite below_split in Hb by done. lia.
  - rewrite (in_range_eval _ _ _ _ (right_half_range id size)). rewrite (in_range_eval _ _ _ _ Hr) in Hu.
    split; [|by destruct Hu]. by apply (cmp_le_not_lt UserKey.cmp).
Qed.

(** A side without table ids holds no key, so it may be dropped. *)
Lemma no_ids_no_keys (p : SstableInfo.t) u : SstableInfo.table_ids p = [] → ¬ holds p u.
Proof using Type. intros E [Hid _]. rewrite E in Hid. by apply elem_of_nil in Hid. Qed.

Lemma split_sst_cut id a b :
  ∃ lo ro, split_sst s id split_key a b = Ret (lo, ro, wrap 64 (wrap 64 (id + 1) + 1)) ∧
    cut s (option_list lo, option_list ro).
Proof using All.
  set (L := left_half s (wrap 64 (id + 1)) a). set (R := right_half s id b).
  pose proof (left_half_part (wrap 64 (id + 1)) a : part_of s below L) as HL.
  pose proof (right_half_part id b : part_of s above R) as HR.
  pose proof (left_half_holds (wrap 64 (id + 1)) a) as HLh. fold L in HLh.
  pose proof (right_half_holds id b) as HRh. fold R in HRh.
  assert (split_sst s id split_key a b = Ret
    (if bool_decide (SstableInfo.table_ids L = []) then None else Some L,
     if bool_decide (SstableInfo.table_ids L = []) then Some R
     else if bool_decide (SstableInfo.table_ids R = []) then None else Some R, wrap 64 (wrap 64 (id + 1) + 1))) as ->.
  { unfold split_sst. rewrite split_table_ids_eval by done. cbn [mbind outcome_bind].
    subst L R. unfold left_half, right_half, rebuild. cbn [SstableInfo.table_ids].
    do 2 (case_bool_decide; [done|]). cbn [KeyRange.left KeyRange.right].
    destruct Hr as [(HLl & _ & Hlo & _) _]. rewrite HLl. unfold split_key. simpl enc.
    rewrite compare_encoded_full_key_ok by (done || apply split_full_ok). cbn [mbind outcome_bind].
    pose proof (cmp_lt_split l Hlo) as Hc. rewrite Hl in Hc. by destruct (FullKey.cmp l split_full). }
  eexists _, _. split; [done|].
  case_bool_decide as EL; [|case_bool_decide as ER]; cbn [option_list].
  - split; [simpl; lia|]. split; [done|]. split; [apply Forall_nil_2|]. split; [by apply Forall_singleton|].
    intros u Hv Hu. split; [|intros; left; auto]. intros Hb. by destruct (no_ids_no_keys L u EL); auto.
  - split; [done|]. split; [simpl; lia|]. split; [by apply Forall_singleton|]. split; [apply Forall_nil_2|].
    intros u Hv Hu. split; [intros; left; auto|]. intros Hb. by destruct (no_ids_no_keys R u ER); auto.
  - split; [done|]. split; [done|]. split; [by apply Forall_singleton|]. split; [by apply Forall_singleton|].
    intros u Hv Hu. split; intros; left; auto.
Qed.
End both.

(** ** All tables of a level *)

Lemma in_range_left s l h : range_ok (SstableInfo.key_range s) l h → in_range s (FullKey.user_key l).
Proof. intros Hr. apply (in_range_eval s l h _ Hr). split; [by rewrite (cmp_refl UserKey.cmp)|apply Hr]. Qed.

Lemma step_ok s kept moved id :
  table_ok s → is_uint 64 id →
  ∃ ks ms n, split_overlapping_step split_key (kept, moved, id) s = Ret (kept ++ ks, moved ++ ms, wrap 64 (id + n)) ∧
    cut s (ks, ms) ∧ HummockVersion.count_sst split_key s = Ret n.
Proof using HT.
  intros Hok Hid. pose proof Hok as [(l & h & Hr & He) Hs].
  unfold HummockVersion.count_sst, split_overlapping_step. rewrite (need_to_split_eval s l h Hr He).
  assert (wrap 64 (id + 0) = id) as Hid0 by (rewrite Z.add_0_r; by apply wrap_small).
  cbn [mbind outcome_bind]. destruct (cmp_leb UserKey.cmp split_user (FullKey.user_key l)) eqn:El.
  - exists [], [s], 0%Z. rewrite Hid0, app_nil_r. split; [done|]. split; [|done]. apply cut_right; [done|].
    intros u (H & _)%(in_range_eval _ _ _ _ Hr). apply (cmp_leb_le UserKey.cmp) in El.
    apply (cmp_le_not_lt UserKey.cmp). by eapply (cmp_le_trans UserKey.cmp).
  - assert (UserKey.cmp (FullKey.user_key l) split_user = Lt) as Hl.
    { apply (cmp_ltb_lt UserKey.cmp). rewrite (cmp_leb_nlt UserKey.cmp) in El. by apply negb_false_iff. }
    destruct (reaches _ h split_user) eqn:Eh.
    + destruct (split_sst_cut s l h Hr He Hs Hl Eh id (SstableInfo.sst_size s / 2) (SstableInfo.sst_size s / 2))
        as (lo & ro & -> & Hcut).
      exists (option_list lo), (option_list ro), 2%Z. split; [|done]. cbn [mbind outcome_bind].
      do 2 f_equal. unfold wrap. rewrite Zplus_mod_idemp_l. f_equal. lia.
    + exists [s], [], 0%Z. rewrite Hid0, app_nil_r. split; [done|]. split; [|done]. apply cut_left; [done|].
      intros u (_ & H)%(in_range_eval _ _ _ _ Hr).
      destruct (decide (UserKey.cmp u split_user = Lt)) as [?|Hn]; [done|]. apply (cmp_le_not_lt UserKey.cmp) in Hn.
      by rewrite (reaches_down _ _ _ _ Hn H) in Eh.
Qed.

Lemma fold_ok tables kept moved id :
  Forall table_ok tables → is_uint 64 id →
  ∃ parts ns, rfold (split_overlapping_step split_key) tables (kept, moved, id) =
      Ret (kept ++ concat parts.*1, moved ++ concat parts.*2, wrap 64 (id + sum_u64 ns)) ∧
    Forall2 cut tables parts ∧ rmap (HummockVersion.count_sst split_key) tables = Ret ns.
Proof using HT.
  intros Hok. revert kept moved id. induction Hok as [|s tables Hs _ IH]; intros kept moved id Hid.
  - exists [], []. simpl. rewrite !app_nil_r, Z.add_0_r, wrap_small by done. by split.
  - destruct (step_ok s kept moved id Hs Hid) as (ks & ms & n & Hstep & Hcut & Hn).
    destruct (IH (kept ++ ks) (moved ++ ms) (wrap 64 (id + n))) as (parts & ns & Hrun & Hparts & Hns).
    { by apply wrap_is_uint. }
    exists ((ks, ms) :: parts), (n :: ns). cbn [rfold rmap]. rewrite Hstep, Hn. cbn [mbind outcome_bind].
    rewrite Hrun, Hns. csimpl. rewrite <-!(assoc_L (++)). split; [|by split; [constructor|]].
    do 2 f_equal. rewrite sum_u64_cons. unfold wrap.
    by rewrite Zplus_mod_idemp_l, Zplus_mod_idemp_r, Z.add_assoc.
Qed.

Lemma elem_of_list_concat {A} (x : A) ls : x ∈ concat ls ↔ ∃ xs, x ∈ xs ∧ xs ∈ ls.
Proof. rewrite list_elem_of_In, in_concat. setoid_rewrite list_elem_of_In. naive_solver. Qed.

Lemma Forall2_elem_r {A B} (P : A → B → Prop) xs ys y : Forall2 P xs ys → y ∈ ys → ∃ x, x ∈ xs ∧ P x y.
Proof.
  intros H [i Hi]%list_elem_of_lookup. destruct (Forall2_lookup_r _ _ _ _ _ H Hi) as (x & Hx & Hp).
  exists x. split; [by eapply list_elem_of_lookup_2|done].
Qed.

(** What cutting every table means for the keys of the level: [side] is one of the two sides
    and [sel] the parts on it. *)
Definition half_ok (tables ps : list SstableInfo.t) (side : UserKey.t → Prop) : Prop :=
  Forall table_ok ps ∧
  (∀ u, Exists (λ p, in_range p u) ps → side u) ∧
  (∀ u, valid u → Exists (λ p, holds p u) ps ↔ Exists (λ s, holds s u) tables ∧ side u) ∧
  (StronglySorted before tables → StronglySorted before ps).

Section half.
Context (side : UserKey.t → Prop) (sel : list SstableInfo.t * list SstableInfo.t → list SstableInfo.t)
  (tables : list SstableInfo.t) (parts : list (list SstableInfo.t * list SstableInfo.t)).
Hypothesis (Hok : Forall table_ok tables)
  (Hcut : Forall2 (λ s p, length (sel p) ≤ 1 ∧ Forall (part_of s side) (sel p) ∧
     ∀ u, valid u → holds s u → side u → Exists (λ p, holds p u) (sel p)) tables parts).

Lemma half_part p : p ∈ concat (sel <$> parts) → ∃ s, s ∈ tables ∧ part_of s side p.
Proof using Hcut.
  intros (ps & Hp & (q & -> & Hq)%list_elem_of_fmap)%elem_of_list_concat.
  destruct (Forall2_elem_r _ _ _ _ Hcut Hq) as (s & Hs & _ & Hf & _). exists s. split; [done|].
  by rewrite Forall_forall in Hf; apply Hf.
Qed.

Lemma half_sorted : StronglySorted before tables → StronglySorted before (concat (sel <$> parts)).
Proof using Hok Hcut.
  clear -Hok Hcut. intros Hs. revert Hok Hs. pose proof Hcut as Hc. clear Hcut. induction Hc as [|s p ts ps (Hlen & Hf & _) Hrest IH]; [constructor|].
  intros [Hsok Hts]%Forall_cons [Hbef Hss]%StronglySorted_cons. csimpl. specialize (IH Hts Hss).
  destruct (sel p) as [|a [|b r]]; [done| |simpl in Hlen; lia]. csimpl. constructor; [done|].
  apply Forall_singleton in Hf as (Ha & Hina & _). apply Forall_forall. intros b (qs & Hb & (q & -> & Hq)%list_elem_of_fmap)%elem_of_list_concat.
  destruct (Forall2_elem_r _ _ _ _ Hrest Hq) as (t & Ht & _ & Hft & _). rewrite Forall_forall in Hft.
  destruct (Hft b Hb) as (Hbok & Hinb & _). rewrite Forall_forall in Hbef, Hts.
  apply before_iff; [by apply table_wf_ok, Ha|by apply table_wf_ok, Hbok|]. intros u v Hu Hv.
  assert (before s t) as Hst by auto. destruct (Hina u Hu) as [Hu' _]. destruct (Hinb v Hv) as [Hv' _].
  rewrite before_iff in Hst; [|by apply table_wf_ok, Hsok|by apply table_wf_ok, Hts]. auto.
Qed.

Lemma half_correct : half_ok tables (concat (sel <$> parts)) side.
Proof using Hok Hcut.
  split; [|split; [|split; [|apply half_sorted]]].
  - apply Forall_forall. intros p (s & _ & H & _)%half_part. exact H.
  - intros u (p & (s & _ & _ & H & _)%half_part & Hu)%Exists_exists. by apply H.
  - intros u Hv. rewrite !Exists_exists. split.
    + intros (p & (s & Hs & _ & Hin & Hh)%half_part & Hu). split; [|by apply Hin, Hu]. exists s. auto.
    + intros [(s & [i Hi]%list_elem_of_lookup & Hu) Hside].
      destruct (Forall2_lookup_l _ _ _ _ _ Hcut Hi) as (q & Hq & _ & _ & Hc).
      pose proof (Hc u Hv Hu Hside) as (p & Hp & Hpu)%Exists_exists. exists p. split; [|done].
      apply elem_of_list_concat. exists (sel q). split; [done|]. apply list_elem_of_fmap.
      exists q. split; [done|]. by eapply list_elem_of_lookup_2.
Qed.
End half.

Lemma cut_halves tables parts :
  Forall table_ok tables → Forall2 cut tables parts →
  half_ok tables (concat parts.*1) below ∧ half_ok tables (concat parts.*2) above.
Proof using Type.
  intros Hok Hcut. split; apply half_correct; try done; eapply Forall2_impl; try exact Hcut;
    intros s p (H1 & H2 & H3 & H4 & H5); (split; [done|]); (split; [done|]); intros u Hv Hu; by apply H5.
Qed.

(** ** The binary search of a sorted level *)

Definition starts_below s : outcome bool :=
  is_lt <$> KeyComparator.compare_encoded_full_key (KeyRange.left (SstableInfo.key_range s)) split_key.

Lemma starts_below_eval s l h :
  range_ok (SstableInfo.key_range s) l h → starts_below s = Ret (is_lt (UserKey.cmp (FullKey.user_key l) split_user)).
Proof using HT.
  intros [(HL & _ & Hl & _) _]. unfold starts_below, split_key. rewrite HL. simpl enc.
  rewrite compare_encoded_full_key_ok by (done || apply split_full_ok). simpl fmap. by rewrite cmp_lt_split.
Qed.

Lemma starts_below_val s : table_ok s → starts_below s = Ret (val starts_below s).
Proof using HT. intros [(l & h & Hr & _) _]. unfold val. by rewrite (starts_below_eval _ _ _ Hr). Qed.

Lemma before_left_lt a b la ha lb hb :
  range_ok (SstableInfo.key_range a) la ha → range_ok (SstableInfo.key_range b) lb hb → before a b →
  UserKey.cmp (FullKey.user_key la) (FullKey.user_key lb) = Lt.
Proof.
  intros Ha Hb Hbef. rewrite before_iff in Hbef; [|by exists la, ha|by exists lb, hb].
  apply Hbef; by eapply in_range_left.
Qed.

Lemma starts_below_closed tables :
  Forall table_ok tables → StronglySorted before tables → prefix_closed (val starts_below) tables.
Proof using HT.
  intros Hok Hs. eapply sorted_impl; [exact Hok|exact Hs|].
  intros a b [(la & ha & Ha & _) _] [(lb & hb & Hb & _) _] Hbef. unfold val.
  rewrite (starts_below_eval _ _ _ Ha), (starts_below_eval _ _ _ Hb).
  pose proof (before_left_lt _ _ _ _ _ _ Ha Hb Hbef) as Hlt.
  destruct (UserKey.cmp (FullKey.user_key lb) split_user) eqn:E; try done.
  by rewrite (cmp_lt_trans UserKey.cmp _ _ _ Hlt E).
Qed.

Lemma not_starts_below_right s : table_ok s → val starts_below s = false → need_to_split s split_key = Ret Right.
Proof using HT.
  intros [(l & h & Hr & He) _]. unfold val. rewrite (starts_below_eval _ _ _ Hr), (need_to_split_eval _ _ _ Hr He).
  unfold cmp_leb. rewrite (cmp_antisym UserKey.cmp split_user (FullKey.user_key l)).
  by destruct (UserKey.cmp split_user (FullKey.user_key l)).
Qed.

(** A table before one that starts below the split key lies on the left. *)
Lemma before_left a s :
  table_ok a → table_ok s → before a s → val starts_below s = true → need_to_split a split_key = Ret Left.
Proof using HT.
  intros [(la & ha & Ha & Hea) _] [(l & h & Hr & He) _] Hbef. unfold val. rewrite (starts_below_eval _ _ _ Hr).
  destruct (UserKey.cmp (FullKey.user_key l) split_user) eqn:E; try done. intros _.
  pose proof (before_left_lt _ _ _ _ _ _ Ha Hr Hbef) as Hlt.
  rewrite (need_to_split_eval _ _ _ Ha Hea). rewrite (cmp_leb_nlt UserKey.cmp). unfold cmp_ltb.
  rewrite (cmp_lt_trans UserKey.cmp _ _ _ Hlt E). cbn [negb].
  rewrite (before_reaches _ _ _ _ _ _ Ha Hr) in Hbef.
  destruct (reaches _ ha split_user) eqn:Ere; [|done]. rewrite (reaches_down _ ha (FullKey.user_key l) split_user) in Hbef; [done| |done].
  apply (cmp_le_cases UserKey.cmp). by left.
Qed.

Lemma in_take {A} n (xs : list A) x : x ∈ take n xs → x ∈ xs.
Proof. rewrite <-(take_drop n xs) at 2. rewrite elem_of_app. by left. Qed.

Lemma in_drop {A} n (xs : list A) x : x ∈ drop n xs → x ∈ xs.
Proof. rewrite <-(take_drop n xs) at 2. rewrite elem_of_app. by right. Qed.

Lemma take_drop_at {A} (pre : list A) x post :
  take (S (length pre)) (pre ++ x :: post) = pre ++ [x] ∧ drop (S (length pre)) (pre ++ x :: post) = post.
Proof. induction pre as [|y pre [IH1 IH2]]; simpl in *; [by rewrite take_0|]. by rewrite IH1. Qed.

Lemma sum_u64_zeros n : sum_u64 (replicate n 0%Z) = 0%Z.
Proof. induction n as [|n IH]; [done|]. csimpl. by rewrite sum_u64_cons, IH. Qed.

Lemma split_position tables :
  tables ≠ [] → Forall table_ok tables → StronglySorted before tables →
  ∃ pre s post, tables = pre ++ s :: post ∧ get_split_pos tables split_key = Ret (length pre) ∧
    Forall (λ t, need_to_split t split_key = Ret Left) pre ∧
    Forall (λ t, need_to_split t split_key = Ret Right) post ∧
    (need_to_split s split_key = Ret Right → pre = []).
Proof using HT.
  intros Hne Hok Hs. pose proof (starts_below_closed tables Hok Hs) as Hclosed.
  set (pp := partition_point (val starts_below) tables).
  assert (pp ≤ length tables) as Hle by apply partition_point_le.
  assert (length tables ≠ 0) as Hlen by by destruct tables.
  destruct (lookup_lt_is_Some_2 tables (pp - 1)) as [s Hlk]; [lia|].
  exists (take (pp - 1) tables), s, (drop (S (pp - 1)) tables). rewrite take_drop_middle by done.
  assert (get_split_pos tables split_key = Ret (pp - 1)) as Hpos.
  { unfold get_split_pos. fold starts_below. rewrite rpartition_point_ok; [done|].
    eapply Forall_impl; [exact Hok|]. intros t. apply starts_below_val. }
  rewrite length_take_le by lia. split; [done|]. split; [exact Hpos|].
  rewrite Forall_forall in Hok. rewrite <-(take_drop_middle tables (pp - 1) s Hlk) in Hs.
  apply StronglySorted_app in Hs as (Hcross & _ & _).
  assert (0 < pp → val starts_below s = true) as Hsb.
  { intros Hp. apply (partition_point_lookup _ _ _ _ Hclosed Hlk). lia. }
  split; [|split].
  - apply Forall_forall. intros a Ha. apply (before_left a s); [eapply Hok, in_take; exact Ha| | |].
    + apply Hok. by eapply list_elem_of_lookup_2.
    + apply Hcross; [done|by left].
    + apply Hsb. destruct pp; [by rewrite take_0 in Ha; apply elem_of_nil in Ha|lia].
  - apply Forall_forall. intros b Hb. apply not_starts_below_right; [eapply Hok, in_drop; exact Hb|].
    apply list_elem_of_lookup in Hb as [i Hi]. rewrite lookup_drop in Hi. apply not_true_is_false.
    intros Ht%(partition_point_lookup _ _ _ _ Hclosed Hi). fold pp in Ht. lia.
  - intros HR. destruct (decide (pp = 0)) as [->|Hp]; [done|]. exfalso.
    assert (table_ok s) as [(l & h & Hr & He) _] by (apply Hok; by eapply list_elem_of_lookup_2).
    specialize (Hsb ltac:(lia)). unfold val in Hsb. rewrite (starts_below_eval _ _ _ Hr) in Hsb.
    rewrite (need_to_split_eval _ _ _ Hr He), (cmp_leb_nlt UserKey.cmp) in HR. unfold cmp_ltb in HR.
    destruct (UserKey.cmp (FullKey.user_key l) split_user); try done. cbn [negb] in HR. by destruct (reaches _ _ _).
Qed.

Lemma fold_lefts ts kept moved id :
  Forall (λ t, need_to_split t split_key = Ret Left) ts →
  rfold (split_overlapping_step split_key) ts (kept, moved, id) = Ret (kept ++ ts, moved, id).
Proof using Type.
  intros H. revert kept. induction H as [|t ts Ht _ IH]; intros kept; simpl; [by rewrite app_nil_r|].
  rewrite Ht. cbn [mbind outcome_bind]. by rewrite IH, <-(assoc_L (++)).
Qed.

Lemma fold_rights ts kept moved id :
  Forall (λ t, need_to_split t split_key = Ret Right) ts →
  rfold (split_overlapping_step split_key) ts (kept, moved, id) = Ret (kept, moved ++ ts, id).
Proof using Type.
  intros H. revert moved. induction H as [|t ts Ht _ IH]; intros moved; simpl; [by rewrite app_nil_r|].
  rewrite Ht. cbn [mbind outcome_bind]. by rewrite IH, <-(assoc_L (++)).
Qed.

(** On a sorted level one table decides. *)
Lemma split_sorted_scan tables id :
  tables ≠ [] → Forall table_ok tables → StronglySorted before tables →
  split_sorted tables id split_key = rfold (split_overlapping_step split_key) tables ([], [], id).
Proof using HT.
  intros Hne Hok Hs. destruct (split_position tables Hne Hok Hs) as (pre & s & post & -> & Hpos & Hpre & Hpost & HR).
  unfold split_sorted. rewrite Hpos. cbn [mbind outcome_bind].
  destruct (Nat.leb_spec (length (pre ++ s :: post)) (length pre)) as [H|_]; [rewrite length_app in H; simpl in H; lia|].
  rewrite list_lookup_middle by done. cbn [unwrap mbind outcome_bind].
  rewrite rfold_app, fold_lefts by done. cbn [mbind outcome_bind rfold app split_overlapping_step].
  destruct (need_to_split s split_key) as [ty|] eqn:E; [|done]. cbn [mbind outcome_bind].
  destruct (take_drop_at pre s post) as (Ht & Hd). rewrite Ht, Hd, take_app_length, drop_app_length.
  destruct ty; cbn [mbind outcome_bind].
  - by rewrite fold_rights.
  - rewrite HR by done. by rewrite fold_rights.
  - destruct (split_sst s id split_key _ _) as [[[lo ro] id']|]; [|done]. cbn [mbind outcome_bind].
    by rewrite fold_rights.
Qed.

Lemma count_sides ts :
  Forall (λ t, need_to_split t split_key = Ret Left) ts ∨ Forall (λ t, need_to_split t split_key = Ret Right) ts →
  rmap (HummockVersion.count_sst split_key) ts = Ret (replicate (length ts) 0%Z).
Proof using Type.
  intros [H|H]; induction H as [|t ts Ht _ IH]; [done| |done|]; cbn [rmap];
    rewrite IH; unfold HummockVersion.count_sst; by rewrite Ht.
Qed.

(** The ids reserved for a sorted level. *)
Lemma count_sorted_scan tables ns :
  tables ≠ [] → Forall table_ok tables → StronglySorted before tables →
  rmap (HummockVersion.count_sst split_key) tables = Ret ns →
  ∃ n, HummockVersion.count_sorted split_key tables = Ret n ∧ wrap 64 n = sum_u64 ns.
Proof using HT.
  intros Hne Hok Hs Hns. destruct (split_position tables Hne Hok Hs) as (pre & s & post & -> & Hpos & Hpre & Hpost & _).
  unfold HummockVersion.count_sorted. rewrite Hpos. cbn [mbind outcome_bind].
  rewrite list_lookup_middle by done. cbn [unwrap mbind outcome_bind].
  apply rmap_Ret, Forall2_app_inv_l in Hns as (n1 & n2 & Hn1 & Hn2 & ->).
  apply Forall2_cons_inv_l in Hn2 as (n & n3 & Hn & Hn3 & ->). apply rmap_Ret in Hn1, Hn3.
  rewrite count_sides in Hn1 by by left. rewrite count_sides in Hn3 by by right.
  injection Hn1 as <-. injection Hn3 as <-. exists n. split; [done|].
  rewrite sum_u64_app, sum_u64_cons, !sum_u64_zeros, wrap_add_r. f_equal. lia.
Qed.
End split.

(** ** Levels *)

(** A level as the version keeps it: well-formed tables, in order unless the level is an
    overlapping one. *)
Definition level_split_ok (level : Level.t) : Prop :=
  Forall table_ok (Level.table_infos level) ∧
  (Level.level_type level ≠ LevelType.Overlapping → can_concat (Level.table_infos level) = Ret true).

Lemma table_ok_sst_ok tables : Forall table_ok tables → Forall sst_ok tables.
Proof. intros H. eapply Forall_impl; [exact H|]. intros s [? _]. by apply table_wf_ok. Qed.

Lemma split_level_eval T level id :
  is_uint 32 T → is_uint 64 id → level_split_ok level →
  ∃ parts ns, split_sst_info_for_level_v2 level id (split_key T) =
      Ret (Level.with_tables level (concat parts.*1), concat parts.*2, wrap 64 (id + sum_u64 ns)) ∧
    Forall2 (cut T) (Level.table_infos level) parts ∧
    rmap (HummockVersion.count_sst (split_key T)) (Level.table_infos level) = Ret ns.
Proof.
  intros HT Hid [Hok Hcc]. destruct (fold_ok T HT (Level.table_infos level) [] [] id Hok Hid) as (parts & ns & Hrun & Hparts & Hns).
  exists parts, ns. split; [|done]. unfold split_sst_info_for_level_v2, no_tables. case_bool_decide as Hne.
  - rewrite Hne in Hparts, Hns. apply Forall2_nil_inv_l in Hparts as ->. injection Hns as <-.
    change (sum_u64 []) with 0%Z. rewrite Z.add_0_r, wrap_small by done. destruct level. simpl in *. by subst.
  - case_bool_decide as Hty.
    + by rewrite Hrun.
    + rewrite (split_sorted_scan T HT); [by rewrite Hrun|done..|].
      apply can_concat_sorted; [by apply table_ok_sst_ok|auto].
Qed.

(** C12: splitting a level at a table id loses and duplicates nothing.  For a level of
    well-formed tables (in order, unless the level is an overlapping one) and the split key
    of table [T], [split_sst_info_for_level_v2] returns; the tables that remain may contain
    exactly the keys of the level with a table id below [T], the tables split off exactly
    those with table id [T] or above; both lists are again well-formed, and in order if the
    level was. *)
Theorem split_level_exact (T id : Z) (level : Level.t) :
  is_uint 32 T → is_uint 64 id → level_split_ok level →
  ∃ key kept moved next, build_split_key T VirtualNode.ZERO = Ret key ∧
    split_sst_info_for_level_v2 level id key = Ret (Level.with_tables level kept, moved, next) ∧
    Forall table_ok kept ∧ Forall table_ok moved ∧
    (can_concat (Level.table_infos level) = Ret true → can_concat kept = Ret true ∧ can_concat moved = Ret true) ∧
    ∀ u, 2 ≤ length (UserKey.table_key u) →
      (Exists (λ s, holds s u) kept ↔
         Exists (λ s, holds s u) (Level.table_infos level) ∧ (UserKey.table_id u < T)%Z) ∧
      (Exists (λ s, holds s u) moved ↔
         Exists (λ s, holds s u) (Level.table_infos level) ∧ (T <= UserKey.table_id u)%Z).
Proof.
  intros HT Hid Hlevel. destruct (split_level_eval T level id HT Hid Hlevel) as (parts & ns & Hrun & Hcut & _).
  destruct Hlevel as [Hok _].
  destruct (cut_halves T _ _ Hok Hcut) as [(Hk & _ & Hkh & Hks) (Hm & _ & Hmh & Hms)].
  eexists (split_key T), _, _, _. split; [apply split_key_built|]. split; [exact Hrun|]. split; [done|]. split; [done|]. split.
  - intros Hs%can_concat_sorted; [|by apply table_ok_sst_ok]. split; apply sorted_can_concat; auto.
  - intros u Hv. rewrite (Hkh u Hv), (Hmh u Hv). unfold below, above. rewrite (below_split T u Hv), Z.nlt_ge. done.
Qed.

(** A table with tables 1 and 2 and one with table 2, cut at table 2. *)
Definition two_table_sst (id : Z) (lo hi : Z) (ids : list Z) : SstableInfo.t :=
  SstableInfo.mk id id (KeyRange.new (FullKey.encode (FullKey.new lo [Byte.x00; Byte.x00; Byte.x61] 65536))
    (FullKey.encode (FullKey.new hi [Byte.x00; Byte.x00; Byte.x62] 65536))) 10 ids 0 0 1 0 0 10 0 0 10.

Lemma two_table_sst_ok id lo hi ids :
  is_uint 32 lo → is_uint 32 hi → (lo <= hi)%Z → is_sorted ids = true → table_ok (two_table_sst id lo hi ids).
Proof.
  intros Hlo Hhi Hle Hs. split; [|done].
  exists (FullKey.new lo [Byte.x00; Byte.x00; Byte.x61] 65536), (FullKey.new hi [Byte.x00; Byte.x00; Byte.x62] 65536).
  split; [|done]. split; [by split_and!|]. unfold reaches. simpl. apply (cmp_leb_le UserKey.cmp).
  unfold UserKey.cmp. simpl. destruct (Z.compare_spec lo hi); [done..|lia].
Qed.

Definition example_level : Level.t :=
  Level.mk 1 LevelType.Nonoverlapping [two_table_sst 1 1 2 [1; 2]%Z; two_table_sst 2 3 3 [3]%Z] 20 0 20 0.

Lemma example_level_ok : level_split_ok example_level.
Proof.
  split; [|intros _; by vm_compute].
  repeat apply Forall_cons_2; [by apply two_table_sst_ok..|]. apply Forall_nil_2.
Qed.

Lemma split_level_exact_witness :
  ∃ key kept moved next, split_sst_info_for_level_v2 example_level 100 key = Ret (Level.with_tables example_level kept, moved, next) ∧
    can_concat kept = Ret true ∧ can_concat moved = Ret true.
Proof.
  destruct (split_level_exact 2 100 example_level) as (key & kept & moved & next & _ & H1 & _ & _ & H2 & _);
    [done|done|apply example_level_ok|].
  exists key, kept, moved, next. split; [exact H1|]. apply H2. by vm_compute.
Defined.

(** ** The ids a group split consumes *)

Definition group_split_ok (parent : Levels.t) : Prop :=
  Forall (λ level, no_tables level = false ∧ level_split_ok level) (OverlappingLevel.sub_levels (Levels.l0 parent)) ∧
  Forall (λ level, Level.level_type level ≠ LevelType.Overlapping ∧ level_split_ok level) (Levels.levels parent).

Section ids.
Context (T : Z) (HT : is_uint 32 T).

Lemma count_sub_level_ok acc level ns :
  is_uint 64 acc → no_tables level = false → level_split_ok level →
  rmap (HummockVersion.count_sst (split_key T)) (Level.table_infos level) = Ret ns →
  HummockVersion.count_sub_level (split_key T) acc level = Ret (wrap 64 (acc + sum_u64 ns)).
Proof using HT.
  intros Hacc Hne [Hok Hcc] Hns. unfold HummockVersion.count_sub_level. rewrite Hne. cbn [negb rassert mbind outcome_bind].
  case_bool_decide as Hty; [by rewrite Hns|].
  destruct (count_sorted_scan T HT (Level.table_infos level) ns) as (n & -> & Hn); try done.
  - unfold no_tables in Hne. by apply bool_decide_eq_false in Hne.
  - apply can_concat_sorted; [by apply table_ok_sst_ok|auto].
  - cbn [mbind outcome_bind]. by rewrite <-Hn, wrap_add_r.
Qed.

Lemma count_level_ok acc level ns :
  is_uint 64 acc → Level.level_type level ≠ LevelType.Overlapping → level_split_ok level →
  rmap (HummockVersion.count_sst (split_key T)) (Level.table_infos level) = Ret ns →
  HummockVersion.count_level (split_key T) acc level = Ret (wrap 64 (acc + sum_u64 ns)).
Proof using HT.
  intros Hacc Hty [Hok Hcc] Hns. unfold HummockVersion.count_level. destruct (no_tables level) eqn:Hne.
  - unfold no_tables in Hne. apply bool_decide_eq_true in Hne. rewrite Hne in Hns. injection Hns as <-.
    change (sum_u64 []) with 0%Z. by rewrite Z.add_0_r, wrap_small.
  - destruct (count_sorted_scan T HT (Level.table_infos level) ns) as (n & -> & Hn); try done.
    + unfold no_tables in Hne. by apply bool_decide_eq_false in Hne.
    + apply can_concat_sorted; [by apply table_ok_sst_ok|auto].
    + cbn [mbind outcome_bind]. by rewrite <-Hn, wrap_add_r.
Qed.

(** One step of each loop: the id advances by what was counted. *)
Lemma split_level_opt_id level id level' moved id' :
  is_uint 64 id → level_split_ok level →
  HummockVersion.split_level_opt (Some (split_key T)) level id = Ret (level', moved, id') →
  ∃ ns, rmap (HummockVersion.count_sst (split_key T)) (Level.table_infos level) = Ret ns ∧ id' = wrap 64 (id + sum_u64 ns).
Proof using HT.
  intros Hid Hok. cbn [HummockVersion.split_level_opt].
  destruct (split_level_eval T level id HT Hid Hok) as (parts & ns & -> & _ & Hns). intros [= _ _ <-]. by exists ns.
Qed.

(** Two loops in lock step: [g] counts while [f] splits. *)
Lemma lock_step {St A} (f : St → A → outcome St) (g : Z → A → outcome Z) (nid : St → Z) (Ok : A → Prop) xs st st' start acc :
  (∀ st st' x a, Ok x → is_uint 64 a → nid st = wrap 64 (start + a) → f st x = Ret st' →
     ∃ a', g a x = Ret a' ∧ is_uint 64 a' ∧ nid st' = wrap 64 (start + a')) →
  Forall Ok xs → is_uint 64 acc → nid st = wrap 64 (start + acc) → rfold f xs st = Ret st' →
  ∃ n, rfold g xs acc = Ret n ∧ is_uint 64 n ∧ nid st' = wrap 64 (start + n).
Proof.
  intros Hstep Hok. revert st acc. induction Hok as [|x xs Hx _ IH]; intros st acc Hacc Hs Hrun.
  - injection Hrun as <-. by exists acc.
  - cbn [rfold] in Hrun. apply bind_Ret in Hrun as (st1 & H1 & Hrun).
    destruct (Hstep st st1 x acc Hx Hacc Hs H1) as (a' & Hg & Ha' & Hs1).
    destruct (IH st1 a' Ha' Hs1 Hrun) as (n & Hn & Hn'). exists n. cbn [rfold]. by rewrite Hg.
Qed.

Lemma split_l0_step_id start st st' level acc :
  no_tables level = false ∧ level_split_ok level → is_uint 64 acc → st.2 = wrap 64 (start + acc) →
  HummockVersion.split_l0_step (Some (split_key T)) st level = Ret st' →
  ∃ a', HummockVersion.count_sub_level (split_key T) acc level = Ret a' ∧ is_uint 64 a' ∧ st'.2 = wrap 64 (start + a').
Proof using HT.
  intros [Hne Hok] Hacc Hs Hrun. destruct st as [[[dn sizes] target] id]. simpl in Hs. subst id.
  unfold HummockVersion.split_l0_step in Hrun. apply bind_Ret in Hrun as ([[level' moved] id'] & Hsplit & Hrun).
  apply split_level_opt_id in Hsplit as (ns & Hns & ->); [|by apply wrap_is_uint|done].
  exists (wrap 64 (acc + sum_u64 ns)). split; [by apply count_sub_level_ok|]. split; [by apply wrap_is_uint|].
  rewrite wrap_add_r, wrap_add_l, Z.add_assoc in *. case_bool_decide; outcome_inv; by subst.
Qed.

Lemma split_level_step_id start st st' (level : nat * Level.t) acc :
  Level.level_type level.2 ≠ LevelType.Overlapping ∧ level_split_ok level.2 → is_uint 64 acc → st.2 = wrap 64 (start + acc) →
  HummockVersion.split_level_step (Some (split_key T)) st level = Ret st' →
  ∃ a', HummockVersion.count_level (split_key T) acc level.2 = Ret a' ∧ is_uint 64 a' ∧ st'.2 = wrap 64 (start + a').
Proof using HT.
  destruct level as [idx level]. intros [Hty Hok] Hacc Hs Hrun. destruct st as [[dn cur] id]. simpl in Hs. subst id.
  unfold HummockVersion.split_level_step in Hrun. apply bind_Ret in Hrun as ([[level' moved] id'] & Hsplit & Hrun).
  apply split_level_opt_id in Hsplit as (ns & Hns & ->); [|by apply wrap_is_uint|done].
  exists (wrap 64 (acc + sum_u64 ns)). split; [by apply count_level_ok|]. split; [by apply wrap_is_uint|].
  rewrite wrap_add_r, wrap_add_l, Z.add_assoc in *. case_bool_decide; outcome_inv; by subst.
Qed.

Lemma rfold_imap_pair {A B} (g : B → A → outcome B) (xs : list A) k acc :
  rfold (λ b x, g b x.2) (imap (λ i x, (k + i, x)) xs) acc = rfold g xs acc.
Proof.
  revert k acc. induction xs as [|x xs IH]; intros k acc; [done|]. cbn [imap rfold].
  destruct (g acc x) as [b|] eqn:E; simpl; rewrite E; [|done]. cbn [mbind outcome_bind].
  rewrite <-(IH (S k) b). f_equal. apply imap_ext. intros i y _. simpl. by rewrite Nat.add_succ_r.
Qed.
End ids.

(** C36: the ids reserved for a group split are the ids it consumes.  For a parent group whose
    levels are well-formed, [count_new_ssts_in_group_split] returns a number, and whenever
    splitting the parent at table [T] succeeds, the next free id has advanced by exactly that
    number (modulo 2^64). *)
Theorem split_consumes_reserved_ids (T start : Z) (groups : gmap Z Levels.t) (gid : Z) (parent cur parent' cur' : Levels.t) (next : Z) :
  is_uint 32 T → is_uint 64 start → groups !! gid = Some parent → group_split_ok parent →
  HummockVersion.split_groups parent cur start (Some (split_key T)) = Ret (parent', cur', next) →
  ∃ n, HummockVersion.count_new_ssts_in_group_split groups gid (split_key T) = Ret n ∧ next = wrap 64 (start + n).
Proof.
  intros HT Hstart Hg [H0 Hl] Hrun. unfold HummockVersion.count_new_ssts_in_group_split. rewrite Hg.
  unfold HummockVersion.split_groups in Hrun.
  apply bind_Ret in Hrun as ([[[subs sizes] target] id1] & Hrun0 & Hrun).
  apply bind_Ret in Hrun as ([[pl cl] id2] & Hrun1 & Hrun).
  assert (start = wrap 64 (start + 0)) as Hs0 by by rewrite Z.add_0_r, wrap_small.
  destruct (lock_step _ (HummockVersion.count_sub_level (split_key T)) snd _ _
    ([], (OverlappingLevel.total_file_size (Levels.l0 parent), OverlappingLevel.uncompressed_file_size (Levels.l0 parent)),
      Levels.l0 cur, start) _ start 0%Z (split_l0_step_id T HT start) H0 ltac:(done) Hs0 Hrun0)
    as (n0 & -> & Hn0 & Hid1). cbn [mbind outcome_bind]. simpl in Hid1.
  assert (Forall (λ x : nat * Level.t, Level.level_type x.2 ≠ LevelType.Overlapping ∧ level_split_ok x.2)
    (imap pair (Levels.levels parent))) as Hl'.
  { apply Forall_forall. intros x Hx. apply elem_of_lookup_imap in Hx as (i & lv & -> & Hlv). simpl.
    rewrite Forall_forall in Hl. apply Hl. by eapply list_elem_of_lookup_2. }
  destruct (lock_step _ (λ b x, HummockVersion.count_level (split_key T) b (x : nat * Level.t).2) snd
    _ _ ([], Levels.levels cur, id1) _ start n0 (split_level_step_id T HT start) Hl' Hn0 Hid1 Hrun1) as (n & Hn & _ & Hid2).
  exists n. rewrite <-(rfold_imap_pair _ _ 0). split; [exact Hn|]. outcome_inv. simpl in Hid2. congruence.
Qed.

Definition example_parent : Levels.t := Levels.mk [example_level] (OverlappingLevel.mk [] 0 0) 2 0 [].
Definition example_child : Levels.t := build_initial_compaction_group_levels 3 1.

Lemma split_consumes_reserved_ids_witness :
  ∃ parent cur next n,
    HummockVersion.split_groups example_parent example_child 100 (Some (split_key 2)) = Ret (parent, cur, next) ∧
    HummockVersion.count_new_ssts_in_group_split {[ 2%Z := example_parent ]} 2 (split_key 2) = Ret n ∧
    next = wrap 64 (100 + n).
Proof.
  destruct (HummockVersion.split_groups example_parent example_child 100 (Some (split_key 2)))
    as [[[parent cur] next]|] eqn:E; [|by vm_compute in E].
  destruct (split_consumes_reserved_ids 2 100 {[ 2%Z := example_parent ]} 2 example_parent example_child parent cur next)
    as (n & H1 & H2); [done|done|done| |exact E|].
  - split; [apply Forall_nil_2|]. apply Forall_singleton. split; [done|apply example_level_ok].
  - by exists parent, cur, next, n.
Defined.

(** ** Sizes of the parent after a split *)

Definition has_ids s : Prop := SstableInfo.table_ids s ≠ [].

Lemma extracted_nil level : Forall has_ids (Level.table_infos level) → HummockVersion.extracted level = [].
Proof.
  unfold HummockVersion.extracted. intros H. induction H as [|s ss Hs _ IH]; [done|].
  rewrite filter_cons_False by exact Hs. exact IH.
Qed.

Lemma split_sst_left_ids s id key a b lo ro id' :
  split_sst s id key a b = Ret (lo, ro, id') → Forall has_ids (option_list lo).
Proof.
  unfold split_sst. intros H. apply bind_Ret in H as ([il ir] & _ & H).
  case_bool_decide as E1; [injection H as <- <- <-; apply Forall_nil_2|].
  case_bool_decide; [injection H as <- <- <-; by apply Forall_singleton|].
  apply bind_Ret in H as (c & _ & H). destruct c; injection H as <- <- <-;
    (apply Forall_nil_2 || by apply Forall_singleton).
Qed.

Lemma split_overlapping_ids key tables kept moved id kept' moved' id' :
  Forall has_ids tables → Forall has_ids kept →
  rfold (split_overlapping_step key) tables (kept, moved, id) = Ret (kept', moved', id') → Forall has_ids kept'.
Proof.
  intros Ht. revert kept moved id. induction Ht as [|s tables Hs _ IH]; intros kept moved id Hk Hrun.
  - by injection Hrun as <- _ _.
  - cbn [rfold split_overlapping_step] in Hrun. apply bind_Ret in Hrun as ([[k m] i] & Hstep & Hrun).
    eapply IH; [|exact Hrun]. apply bind_Ret in Hstep as (ty & _ & Hstep). destruct ty.
    + injection Hstep as <- _ _. apply Forall_app_2; [done|by apply Forall_singleton].
    + by injection Hstep as <- _ _.
    + apply bind_Ret in Hstep as ([[lo ro] i'] & Hsp & Hstep). injection Hstep as <- _ _.
      apply Forall_app_2; [done|]. by eapply split_sst_left_ids.
Qed.

Lemma split_sorted_ids key tables id kept moved id' :
  Forall has_ids tables → split_sorted tables id key = Ret (kept, moved, id') → Forall has_ids kept.
Proof.
  intros Ht Hrun. unfold split_sorted in Hrun. apply bind_Ret in Hrun as (pos & _ & Hrun).
  destruct (length tables <=? pos)%nat; [by injection Hrun as <- _ _|].
  apply bind_Ret in Hrun as (s & _ & Hrun). apply bind_Ret in Hrun as (ty & _ & Hrun). destruct ty.
  - injection Hrun as <- _ _. by apply Forall_take.
  - apply bind_Ret in Hrun as (_ & _ & Hrun). injection Hrun as <- _ _. apply Forall_nil_2.
  - apply bind_Ret in Hrun as ([[lo ro] i'] & Hsp & Hrun). injection Hrun as <- _ _.
    apply Forall_app_2; [by apply Forall_take|]. by eapply split_sst_left_ids.
Qed.

Lemma split_level_opt_ids key level id level' moved id' :
  Forall has_ids (Level.table_infos level) →
  HummockVersion.split_level_opt key level id = Ret (level', moved, id') →
  Forall has_ids (Level.table_infos level') ∧ Level.total_file_size level' = Level.total_file_size level.
Proof.
  intros Ht Hrun. destruct key as [key|]; [|by injection Hrun as <- _ _]. cbn [HummockVersion.split_level_opt] in Hrun.
  unfold split_sst_info_for_level_v2 in Hrun. destruct (no_tables level); [by injection Hrun as <- _ _|].
  apply bind_Ret in Hrun as ([[k m] i] & Hsp & Hrun). injection Hrun as <- _ _. split; [|done]. case_bool_decide.
  - eapply split_overlapping_ids; [exact Ht|apply Forall_nil_2|exact Hsp].
  - by eapply split_sorted_ids.
Qed.

Lemma purge_total level : Forall has_ids (Level.table_infos level) →
  Level.total_file_size (HummockVersion.purge level) = Level.total_file_size level.
Proof. intros H. unfold HummockVersion.purge. by rewrite extracted_nil. Qed.

Lemma split_l0_total key subs st st' :
  Forall (λ level, Forall has_ids (Level.table_infos level)) subs →
  rfold (HummockVersion.split_l0_step key) subs st = Ret st' → st'.1.1.2.1 = st.1.1.2.1.
Proof.
  intros H0 Hrun. apply (rfold_inv_Ret _ (λ _ st', st'.1.1.2.1 = st.1.1.2.1) _ _ _ Hrun); [done|].
  intros dn level todo [[[sb sz] tg] i] st2 -> Hinv Hstep. rewrite Forall_app, Forall_cons in H0.
  unfold HummockVersion.split_l0_step in Hstep. apply bind_Ret in Hstep as ([[lv m] i'] & Hs & Hstep).
  apply split_level_opt_ids in Hs as [Hids _]; [|apply H0]. rewrite extracted_nil in Hstep by done.
  case_bool_decide; outcome_inv; by subst.
Qed.

Lemma split_levels_total key (levels : list (nat * Level.t)) st st' :
  Forall (λ x, Forall has_ids (Level.table_infos x.2)) levels →
  rfold (HummockVersion.split_level_step key) levels st = Ret st' →
  Level.total_file_size <$> st'.1.1 = (Level.total_file_size <$> st.1.1) ++ ((λ x, Level.total_file_size x.2) <$> levels).
Proof.
  intros Hl Hrun. apply (rfold_inv_Ret _ (λ dn st', Level.total_file_size <$> st'.1.1 =
    (Level.total_file_size <$> st.1.1) ++ ((λ x, Level.total_file_size x.2) <$> dn)) _ _ _ Hrun); [by rewrite app_nil_r|].
  intros dn [idx level] todo [[dl cls] i] st2 -> Hinv Hstep. rewrite Forall_app, Forall_cons in Hl.
  unfold HummockVersion.split_level_step in Hstep. apply bind_Ret in Hstep as ([[lv m] i'] & Hs & Hstep).
  apply split_level_opt_ids in Hs as [Hids Htot]; [|apply Hl]. simpl in Hinv.
  rewrite fmap_app, (assoc_L (++)), <-Hinv.
  case_bool_decide; outcome_inv; subst; simpl; rewrite fmap_app; csimpl; by rewrite ?purge_total, Htot.
Qed.

(** A group split does not update the sizes of the parent.  When every table lists a
    state table, the purge after the split finds nothing to subtract, so the recorded sizes
    of the parent's L0 and of its levels are the sizes before the split, although the tables
    at and after the split key have been moved to the new group. *)
Theorem split_leaves_parent_sizes (parent cur parent' cur' : Levels.t) (start next : Z) (key : option (list byte)) :
  Forall has_ids (all_tables parent) →
  HummockVersion.split_groups parent cur start key = Ret (parent', cur', next) →
  OverlappingLevel.total_file_size (Levels.l0 parent') = OverlappingLevel.total_file_size (Levels.l0 parent) ∧
  Level.total_file_size <$> Levels.levels parent' = Level.total_file_size <$> Levels.levels parent.
Proof.
  unfold all_tables. rewrite Forall_concat, Forall_fmap, Forall_app. intros [H0 Hl] Hrun.
  unfold HummockVersion.split_groups in Hrun.
  apply bind_Ret in Hrun as ([[[subs sizes] target] id1] & Hrun0 & Hrun).
  apply bind_Ret in Hrun as ([[pl cl] id2] & Hrun1 & Hrun).
  apply split_l0_total in Hrun0; [|exact H0]. apply split_levels_total in Hrun1.
  - outcome_inv. simplify_eq. simpl in *. split; [exact Hrun0|]. rewrite Hrun1, fmap_imap.
    by rewrite <-(imap_const Level.total_file_size).
  - apply Forall_forall. intros x Hx. apply elem_of_lookup_imap in Hx as (i & lv & -> & Hlv).
    rewrite Forall_forall in Hl. apply Hl. by eapply list_elem_of_lookup_2.
Qed.

Lemma split_leaves_parent_sizes_witness :
  ∃ parent cur next,
    HummockVersion.split_groups example_parent example_child 100 (Some (split_key 2)) = Ret (parent, cur, next) ∧
    Level.total_file_size <$> Levels.levels parent = [20%Z] ∧
    (λ level, sst_sizes (Level.table_infos level)) <$> Levels.levels parent = [5%Z].
Proof.
  destruct (HummockVersion.split_groups example_parent example_child 100 (Some (split_key 2)))
    as [[[parent cur] next]|] eqn:E; [|by vm_compute in E].
  exists parent, cur, next. split; [done|].
  destruct (split_leaves_parent_sizes example_parent example_child parent cur 100 next (Some (split_key 2))) as [_ H];
    [by repeat constructor|exact E|]. split; [exact H|]. clear H. vm_compute in E. injection E as <- _ _. reflexivity.
Defined.
