(* ===== verification/LevelsSpec.v ===== *)
(** * Applying compactions to the levels of a group

    Correctness of [level_insert_ssts], [level_delete_ssts] and [apply_compact_ssts]
    ([Split.v]): a compaction result replaces exactly the tables it names, the recorded sizes
    stay the sums of the tables, levels stay sorted, and inserting tables panics exactly when
    two tables of the level would overlap. *)

From Stdlib Require Import ZArith Lia.
From stdpp Require Import gmap fin_maps sorting.
From S2P Require Import Prelude Order Bytes Epoch Bits Bitmap Vnode Mapping Key KeySpec KeyRange Sst SstSpec Level Split SplitSpec.

Implicit Types (s a b : SstableInfo.t) (level : Level.t) (tables : list SstableInfo.t).

(** ** Sorting with a comparison that may panic *)

Section sort.
Context {A : Type} (cmp : A → A → outcome comparison) (P : A → Prop).

(** The order the comparison decides on elements satisfying [P]. *)
Definition cmp_le (x y : A) : Prop := ∃ c, cmp x y = Ret c ∧ c ≠ Gt.

Hypothesis (Htotal : ∀ x y, P x → P y → ∃ c, cmp x y = Ret c ∧ cmp y x = Ret (CompOpp c)).
Hypothesis (Htrans : ∀ x y z, P x → P y → P z → cmp_le x y → cmp_le y z → cmp_le x z).

Lemma rinsert_by_ok x l :
  P x → Forall P l → StronglySorted cmp_le l →
  ∃ l', rinsert_by cmp x l = Ret l' ∧ l' ≡ₚ x :: l ∧ StronglySorted cmp_le l'.
Proof using Htotal Htrans.
  intros Hx Hl Hs. induction Hs as [|y l Hs IH Hf]; [exists [x]; by repeat constructor|].
  apply Forall_cons in Hl as [Hy Hl]. destruct (Htotal x y Hx Hy) as (c & Hc & Hc'). simpl. rewrite Hc.
  cbn [mbind outcome_bind]. destruct (is_gt c) eqn:E.
  - destruct (IH Hl) as (l' & -> & Hp & Hs'). exists (y :: l'). split; [done|].
    split; [rewrite Hp; apply Permutation_swap|]. constructor; [done|]. rewrite Hp.
    constructor; [|done]. exists (CompOpp c). split; [done|by destruct c].
  - exists (x :: y :: l). split; [done|]. split; [done|].
    assert (cmp_le x y) as Hxy by (exists c; split; [done|by destruct c]).
    constructor; [by constructor|]. constructor; [done|]. rewrite Forall_forall in Hf, Hl |- *.
    intros z Hz. eapply (Htrans x y z); auto.
Qed.

Lemma rsort_by_ok l :
  Forall P l → ∃ l', rsort_by cmp l = Ret l' ∧ l' ≡ₚ l ∧ StronglySorted cmp_le l'.
Proof using Htotal Htrans.
  induction 1 as [|x l Hx Hl (l1 & Hr & Hp & Hs)]; [exists []; by repeat constructor|].
  simpl. rewrite Hr. cbn [mbind outcome_bind].
  destruct (rinsert_by_ok x l1 Hx) as (l' & -> & Hp' & Hs'); [by rewrite Hp|done|].
  exists l'. split; [done|]. split; [by rewrite Hp', Hp|done].
Qed.
End sort.

(** ** The order of tables *)

(** The bounds in lexicographic order. *)
Definition bounds_cmp (x y : FullKey.t * FullKey.t) : comparison := pair_cmp FullKey.cmp FullKey.cmp x y.

#[global] Instance bounds_cmp_total : TotalCmp bounds_cmp.
Proof. exact (pair_cmp_total FullKey.cmp FullKey.cmp _ _). Qed.

Lemma key_range_cmp_eval a b la ha lb hb :
  range_ok (SstableInfo.key_range a) la ha → range_ok (SstableInfo.key_range b) lb hb →
  key_range_order a b = Ret (bounds_cmp (la, ha) (lb, hb)).
Proof.
  intros [(HLa & HRa & Hla & Hha) _] [(HLb & HRb & Hlb & Hhb) _]. simpl in *.
  unfold key_range_order, KeyRange.cmp, KeyRange.start_bound_inf, KeyRange.end_bound_inf.
  rewrite HLa, HRa, HLb, HRb.
  rewrite !(bool_decide_false (FullKey.encode _ = [])) by apply full_key_encode_not_nil. cbn [negb andb].
  rewrite !compare_encoded_full_key_ok by done. cbn [mbind outcome_bind]. unfold bounds_cmp, pair_cmp, then_with. simpl.
  by destruct (FullKey.cmp la lb).
Qed.

Lemma key_range_order_total a b :
  sst_ok a → sst_ok b → ∃ c, key_range_order a b = Ret c ∧ key_range_order b a = Ret (CompOpp c).
Proof.
  intros (la & ha & Ha) (lb & hb & Hb). rewrite (key_range_cmp_eval _ _ _ _ _ _ Ha Hb), (key_range_cmp_eval _ _ _ _ _ _ Hb Ha).
  eexists. split; [reflexivity|]. f_equal. apply (cmp_antisym bounds_cmp).
Qed.

Lemma key_range_order_trans a b c :
  sst_ok a → sst_ok b → sst_ok c → cmp_le key_range_order a b → cmp_le key_range_order b c → cmp_le key_range_order a c.
Proof.
  intros (la & ha & Ha) (lb & hb & Hb) (lc & hc & Hc) (c1 & H1 & N1) (c2 & H2 & N2).
  rewrite (key_range_cmp_eval _ _ _ _ _ _ Ha Hb) in H1. rewrite (key_range_cmp_eval _ _ _ _ _ _ Hb Hc) in H2.
  injection H1 as <-. injection H2 as <-. eexists. split; [by apply key_range_cmp_eval|].
  by eapply (cmp_le_trans bounds_cmp).
Qed.

Lemma sort_tables tables :
  Forall sst_ok tables →
  ∃ sorted, rsort_by key_range_order tables = Ret sorted ∧ sorted ≡ₚ tables ∧
    StronglySorted (cmp_le key_range_order) sorted.
Proof. apply rsort_by_ok; [apply key_range_order_total|apply key_range_order_trans]. Qed.

(** ** Disjoint tables *)

(** No two tables overlap. *)
Definition disjoint_tables tables : Prop :=
  ∀ i j a b, i ≠ j → tables !! i = Some a → tables !! j = Some b → RangeOverlapStrategy.check_overlap a b = Ret false.

Definition apart a b : Prop := RangeOverlapStrategy.check_overlap a b = Ret false.

Lemma apart_before a b : sst_ok a → sst_ok b → apart a b ↔ before a b ∨ before b a.
Proof.
  intros (la & ha & Ha) (lb & hb & Hb). unfold apart, RangeOverlapStrategy.check_overlap, check_table_overlap.
  rewrite (sstable_overlap_reaches _ _ _ _ _ _ Ha Hb), (before_reaches _ _ _ _ _ _ Ha Hb), (before_reaches _ _ _ _ _ _ Hb Ha).
  split.
  - intros H%(inj Ret). by apply andb_false_iff.
  - intros H. f_equal. by apply andb_false_iff.
Qed.

Lemma disjoint_cons a tables :
  disjoint_tables (a :: tables) ↔
  Forall (λ b, apart a b ∧ apart b a) tables ∧ disjoint_tables tables.
Proof.
  split.
  - intros H. split.
    + apply Forall_forall. intros b [i Hi]%list_elem_of_lookup.
      split; [apply (H 0 (S i))|apply (H (S i) 0)]; done.
    + intros i j x y Hij Hi Hj. apply (H (S i) (S j)); auto.
  - intros [Hf Hd] i j x y Hij Hi Hj. rewrite Forall_forall in Hf. destruct i as [|i], j as [|j]; simpl in *.
    + done.
    + injection Hi as ->. by apply Hf, (list_elem_of_lookup_2 _ j).
    + injection Hj as ->. by apply Hf, (list_elem_of_lookup_2 _ i).
    + apply (Hd i j); auto.
Qed.

#[global] Instance disjoint_perm : Proper ((≡ₚ) ==> iff) disjoint_tables.
Proof.
  intros l1 l2 Hp. induction Hp as [|x l1 l2 Hp IH|x y l|l1 l2 l3 _ IH1 _ IH2]; [done| | |by rewrite IH1].
  - by rewrite !disjoint_cons, IH, Hp.
  - rewrite !disjoint_cons, !Forall_cons. naive_solver.
Qed.

Lemma sorted_disjoint tables :
  Forall sst_ok tables → StronglySorted before tables → disjoint_tables tables.
Proof.
  intros Hok Hs. induction Hs as [|a tables Hs IH Hf]; [by intros i j x y _ ?|].
  apply Forall_cons in Hok as [Ha Hok]. apply disjoint_cons. split; [|by apply IH].
  rewrite Forall_forall in Hf, Hok |- *. intros b Hb. specialize (Hf b Hb). specialize (Hok b Hb).
  rewrite !apart_before by done. tauto.
Qed.

Lemma disjoint_sorted tables :
  Forall sst_ok tables → StronglySorted (cmp_le key_range_order) tables → disjoint_tables tables →
  StronglySorted before tables.
Proof.
  intros Hok Hs. induction Hs as [|a tables Hs IH Hf]; [constructor|]. apply Forall_cons in Hok as [Ha Hok].
  intros [Hd Hrest]%disjoint_cons. constructor; [by apply IH|]. rewrite Forall_forall in Hf, Hok, Hd |- *.
  intros b Hb. destruct (Hd b Hb) as [Hab _]. apply apart_before in Hab as [?|Hba]; [done| |done|by apply Hok].
  exfalso. destruct Ha as (la & ha & Ha). destruct (Hok b Hb) as (lb & hb & Hrb).
  pose proof (before_left_lt _ _ _ _ _ _ Hrb Ha Hba) as Hlt.
  destruct (Hf b Hb) as (c & Hc & Hne). rewrite (key_range_cmp_eval _ _ _ _ _ _ Ha Hrb) in Hc. injection Hc as <-.
  apply Hne. unfold bounds_cmp, pair_cmp, then_with. simpl.
  assert (FullKey.cmp la lb = Gt) as ->; [|done]. apply (cmp_gt_lt FullKey.cmp). unfold FullKey.cmp, then_with. by rewrite Hlt.
Qed.

(** ** Sizes *)

Lemma sst_sizes_app t1 t2 : sst_sizes (t1 ++ t2) = wrap 64 (sst_sizes t1 + sst_sizes t2).
Proof. unfold sst_sizes. by rewrite fmap_app, sum_u64_app. Qed.

Lemma uncompressed_sizes_app t1 t2 : uncompressed_sizes (t1 ++ t2) = wrap 64 (uncompressed_sizes t1 + uncompressed_sizes t2).
Proof. unfold uncompressed_sizes. by rewrite fmap_app, sum_u64_app. Qed.

#[global] Instance sst_sizes_perm : Proper ((≡ₚ) ==> (=)) sst_sizes.
Proof. intros t1 t2 H. unfold sst_sizes. by rewrite H. Qed.

#[global] Instance uncompressed_sizes_perm : Proper ((≡ₚ) ==> (=)) uncompressed_sizes.
Proof. intros t1 t2 H. unfold uncompressed_sizes. by rewrite H. Qed.

(** The recorded sizes are those of the tables. *)
Definition sizes_ok level : Prop :=
  Level.total_file_size level = sst_sizes (Level.table_infos level) ∧
  Level.uncompressed_file_size level = uncompressed_sizes (Level.table_infos level).

(** A level as compactions keep it. *)
Definition level_inv level : Prop :=
  sizes_ok level ∧ Forall sst_ok (Level.table_infos level) ∧
  (Level.level_type level ≠ LevelType.Overlapping → can_concat (Level.table_infos level) = Ret true).

(** ** Inserting tables *)

Lemma extend_sorted_ok level ins :
  Forall sst_ok (Level.table_infos level ++ ins) →
  (returns (extend_sorted level ins) ↔ disjoint_tables (Level.table_infos level ++ ins)) ∧
  ∀ level', extend_sorted level ins = Ret level' →
    Level.table_infos level' ≡ₚ Level.table_infos level ++ ins ∧
    can_concat (Level.table_infos level') = Ret true ∧
    Level.level_type level' = Level.level_type level ∧ Level.sub_level_id level' = Level.sub_level_id level ∧
    (sizes_ok level → sizes_ok level').
Proof.
  intros Hok. destruct (sort_tables _ Hok) as (sorted & Hsort & Hp & Hs). unfold extend_sorted. rewrite Hsort.
  assert (Forall sst_ok sorted) as Hok' by by rewrite Hp. cbn [mbind outcome_bind]. split.
  - rewrite <-Hp. split.
    + intros [level' H]. outcome_inv. subst. apply sorted_disjoint; [done|]. by apply can_concat_sorted.
    + intros Hd. rewrite sorted_can_concat by by apply disjoint_sorted. by eexists.
  - intros level' H. outcome_inv. subst. simpl. split; [done|]. split; [done|]. split; [done|]. split; [done|].
    intros [H1 H2]. split; simpl; [rewrite H1|rewrite H2]; rewrite Hp.
    + by rewrite sst_sizes_app.
    + by rewrite uncompressed_sizes_app.
Qed.

Lemma level_insert_ssts_ok level ins :
  Forall sst_ok (Level.table_infos level ++ ins) →
  (returns (level_insert_ssts level ins) ↔ disjoint_tables (Level.table_infos level ++ ins)) ∧
  ∀ level', level_insert_ssts level ins = Ret level' →
    Level.table_infos level' ≡ₚ Level.table_infos level ++ ins ∧ Level.sub_level_id level' = Level.sub_level_id level ∧
    Level.level_type level' ≠ LevelType.Overlapping ∧ (sizes_ok level → level_inv level').
Proof.
  intros Hok. destruct (extend_sorted_ok level ins Hok) as [Hret Hres]. split.
  - rewrite <-Hret. unfold level_insert_ssts. apply returns_bind. intros l. by eexists.
  - intros level' H. unfold level_insert_ssts in H. apply bind_Ret in H as (l & Hl & H). injection H as H.
    destruct (Hres l Hl) as (Hp & Hcc & Hty & Hid & Hsz).
    assert (Level.table_infos level' = Level.table_infos l ∧ Level.sub_level_id level' = Level.sub_level_id l ∧
      (sizes_ok l → sizes_ok level')) as (Et & Ei & Es) by (case_bool_decide; [subst; by destruct l|by subst]).
    assert (Level.level_type level' ≠ LevelType.Overlapping) as Hno by (case_bool_decide; by subst).
    split; [by rewrite Et|]. split; [congruence|]. split; [done|].
    intros Hso. split; [auto|]. rewrite Et. split; [by rewrite Hp|done].
Qed.

(** ** Deleting tables *)

Definition remaining (ids : gset Z) tables : list SstableInfo.t :=
  filter (λ s, SstableInfo.sst_id s ∉ ids) tables.

Lemma filter_ok (Q : SstableInfo.t → Prop) `{!∀ x, Decision (Q x)} tables :
  Forall sst_ok tables → Forall sst_ok (filter Q tables).
Proof. apply Forall_filter_keep. Qed.

Lemma level_delete_inv level ids : level_inv level → level_inv (level_delete_ssts level ids).1.
Proof.
  intros (_ & Hok & Hcc). split; [by split|]. split; [by apply filter_ok|]. simpl. intros Hty.
  apply sorted_can_concat, sorted_filter. apply can_concat_sorted; auto.
Qed.

(** ** The levels of a group *)

Definition sub_levels (self : Levels.t) : list Level.t := OverlappingLevel.sub_levels (Levels.l0 self).

Definition group_inv (self : Levels.t) : Prop :=
  Forall level_inv (sub_levels self) ∧
  Forall (λ level, level_inv level ∧ Level.level_type level ≠ LevelType.Overlapping) (Levels.levels self) ∧
  StronglySorted Z.lt (Level.sub_level_id <$> sub_levels self).

(** The sizes of L0 are those of its sub-levels. *)
Definition l0_sizes_ok (self : Levels.t) : Prop :=
  OverlappingLevel.total_file_size (Levels.l0 self) = sum_u64 (Level.total_file_size <$> sub_levels self) ∧
  OverlappingLevel.uncompressed_file_size (Levels.l0 self) = sum_u64 (Level.uncompressed_file_size <$> sub_levels self).

(** The tables of L0 (index 0) or of another level. *)
Definition tables_at (self : Levels.t) (idx : Z) : list SstableInfo.t :=
  if (idx =? 0)%Z then concat (Level.table_infos <$> sub_levels self)
  else match Levels.levels self !! Z.to_nat (idx - 1) with Some level => Level.table_infos level | None => [] end.

Lemma remove_ids_eval ids level :
  remove_ids ids level = ids ∖ list_to_set (SstableInfo.sst_id <$> Level.table_infos level).
Proof.
  unfold remove_ids. revert ids. induction (Level.table_infos level) as [|s ts IH]; intros ids; csimpl; [set_solver|].
  rewrite IH. set_solver.
Qed.

Lemma remove_ids_levels ids (ls : list Level.t) :
  foldl remove_ids ids ls = ids ∖ list_to_set (SstableInfo.sst_id <$> concat (Level.table_infos <$> ls)).
Proof.
  revert ids. induction ls as [|level ls IH]; intros ids; csimpl; [set_solver|].
  rewrite IH, remove_ids_eval, fmap_app, list_to_set_app_L. set_solver.
Qed.

Lemma difference_list_empty (ids : gset Z) (l : list Z) : ids ∖ list_to_set l = ∅ ↔ ∀ id, id ∈ ids → id ∈ l.
Proof.
  rewrite elem_of_equiv_empty_L. setoid_rewrite elem_of_difference. setoid_rewrite elem_of_list_to_set. split.
  - intros H id Hid. destruct (decide (id ∈ l)); [done|]. by destruct (H id).
  - intros H id [Hid Hn]. auto.
Qed.

Lemma check_exist_eval self idx ids (b : bool) :
  check_sst_ids_exist self [idx] ids = Ret b →
  b = true ↔ ∀ id, id ∈ ids → id ∈ SstableInfo.sst_id <$> tables_at self idx.
Proof.
  unfold check_sst_ids_exist, tables_at. cbn [rfold]. intros H. outcome_inv. subst.
  match goal with H : context [if _ then _ else _] |- _ => rename H into Hif end.
  rewrite bool_decide_eq_true. destruct (idx =? 0)%Z.
  - outcome_inv. subst. rewrite remove_ids_levels. fold (sub_levels self). apply difference_list_empty.
  - outcome_inv. subst. match goal with H : _ !! _ = Some _ |- _ => rewrite H end.
    rewrite remove_ids_eval. apply difference_list_empty.
Qed.

(** *** After the deletion *)

Lemma Forall_insert_inv {A} (Q : A → Prop) (l : list A) i x : Forall Q l → Q x → Forall Q (<[i := x]> l).
Proof. intros Hl Hx. by apply Forall_insert. Qed.

Lemma apply_delete_ok self idx ids self1 :
  group_inv self → (0 <= idx)%Z → apply_delete self idx ids = Ret self1 →
  group_inv self1 ∧ tables_at self1 idx = remaining ids (tables_at self idx) ∧
  (∀ j, (0 <= j)%Z → j ≠ idx → tables_at self1 j = tables_at self j) ∧
  length (Levels.levels self1) = length (Levels.levels self).
Proof.
  intros (H0 & Hl & Hid) Hidx Hrun. unfold apply_delete in Hrun. case_bool_decide as Hemp.
  { injection Hrun as <-. split; [done|]. split; [|done]. subst. unfold remaining.
    symmetry. apply filter_all. intros s _. set_solver. }
  unfold tables_at. destruct (Z.eqb_spec idx 0) as [->|Hne].
  - injection Hrun as <-. cbn [sub_levels Levels.l0 Levels.with_l0 OverlappingLevel.sub_levels Levels.levels].
    split; [|split; [|split]].
    + split; [|split; [done|]].
      * apply Forall_fmap. eapply Forall_impl; [exact H0|]. intros level. apply level_delete_inv.
      * unfold sub_levels. simpl. by rewrite <-list_fmap_compose.
    + unfold sub_levels. simpl. rewrite <-list_fmap_compose. unfold remaining.
      induction (OverlappingLevel.sub_levels (Levels.l0 self)) as [|level ls IH]; [done|]. csimpl.
      rewrite filter_app. f_equal. apply IH.
    + intros j _ Hj. by destruct (Z.eqb_spec j 0).
    + done.
  - apply bind_Ret in Hrun as (level & Hlv%unwrap_Ret & Hrun). injection Hrun as <-.
    assert (Z.to_nat (idx - 1) < length (Levels.levels self)) as Hlt by by eapply lookup_lt_Some.
    cbn [Levels.with_levels Levels.levels Levels.l0]. rewrite list_lookup_insert_eq, Hlv by done. split; [|split; [done|split]].
    + split; [done|]. split; [|done]. apply Forall_insert_inv; [done|].
      rewrite Forall_forall in Hl. destruct (Hl level) as [Hi Hty]; [by eapply list_elem_of_lookup_2|].
      split; [by apply level_delete_inv|done].
    + intros j Hj Hji. destruct (Z.eqb_spec j 0); [done|]. simpl. rewrite list_lookup_insert_ne by lia. done.
    + by rewrite length_insert.
Qed.

(** *** After the insertion *)

Lemma partition_count_inv level tables members n :
  let l0 := l0_partition_count level tables members n in
  let base := base_partition_count level tables members n in
  (Level.table_infos l0 = Level.table_infos level ∧ Level.sub_level_id l0 = Level.sub_level_id level ∧ (sizes_ok level → sizes_ok l0)) ∧
  (Level.table_infos base = Level.table_infos level ∧ Level.sub_level_id base = Level.sub_level_id level ∧ (sizes_ok level → sizes_ok base)).
Proof.
  unfold l0_partition_count, base_partition_count. split; repeat case_match; by destruct level.
Qed.

Lemma concat_insert_tables (ls : list Level.t) i level level' ins :
  ls !! i = Some level → Level.table_infos level' ≡ₚ Level.table_infos level ++ ins →
  concat (Level.table_infos <$> <[i := level']> ls) ≡ₚ concat (Level.table_infos <$> ls) ++ ins.
Proof.
  intros Hi Hp. rewrite insert_take_drop by by eapply lookup_lt_Some.
  rewrite <-(take_drop_middle ls i level Hi) at 3. rewrite !fmap_app, !concat_app. csimpl. rewrite Hp.
  rewrite <-!(assoc_L (++)). do 2 f_equiv. apply Permutation_app_comm.
Qed.

Lemma apply_insert_ok self delta members self1 :
  group_inv self → (0 <= IntraLevelDelta.level_idx delta)%Z → Forall sst_ok (IntraLevelDelta.inserted_table_infos delta) →
  apply_insert self delta members = Ret self1 →
  group_inv self1 ∧
  tables_at self1 (IntraLevelDelta.level_idx delta) ≡ₚ
    tables_at self (IntraLevelDelta.level_idx delta) ++ IntraLevelDelta.inserted_table_infos delta ∧
  (∀ j, (0 <= j)%Z → j ≠ IntraLevelDelta.level_idx delta → tables_at self1 j = tables_at self j).
Proof.
  set (ins := IntraLevelDelta.inserted_table_infos delta). set (idx := IntraLevelDelta.level_idx delta).
  intros (H0 & Hl & Hid) Hidx Hins Hrun. unfold apply_insert in Hrun. fold ins idx in Hrun. case_bool_decide as Hemp.
  { injection Hrun as <-. rewrite Hemp, app_nil_r. split; [done|]. by split. }
  unfold tables_at. destruct (Z.eqb_spec idx 0) as [Hz|Hne].
  - apply bind_Ret in Hrun as (level & Hlv%unwrap_Ret & Hrun). apply bind_Ret in Hrun as (_ & _ & Hrun).
    apply bind_Ret in Hrun as (level' & Hins' & Hrun). injection Hrun as <-.
    destruct (partition_count_inv level ins members (IntraLevelDelta.vnode_partition_count delta)) as [(Et & Ei & Es) _].
    assert (level_inv level) as Hinv by (rewrite Forall_forall in H0; apply H0; by eapply list_elem_of_lookup_2).
    apply level_insert_ssts_ok in Hins' as (Hp & Hi & _ & Hsz); [|rewrite Et; apply Forall_app_2; [apply Hinv|done]].
    rewrite Et in Hp. rewrite Ei in Hi. split; [|split].
    + split; [|split; [done|]].
      * apply Forall_insert_inv; [done|]. apply Hsz, Es, Hinv.
      * unfold sub_levels. simpl. rewrite list_fmap_insert, Hi, list_insert_id; [done|]. by rewrite list_lookup_fmap, Hlv.
    + unfold sub_levels. simpl. by eapply concat_insert_tables.
    + intros j Hj Hji. by destruct (Z.eqb_spec j 0); [lia|].
  - apply bind_Ret in Hrun as (level & Hlv%unwrap_Ret & Hrun).
    apply bind_Ret in Hrun as (level' & Hins' & Hrun). injection Hrun as <-.
    destruct (partition_count_inv level ins members (IntraLevelDelta.vnode_partition_count delta)) as [_ (Et & Ei & Es)].
    assert (level_inv level) as Hinv by (rewrite Forall_forall in Hl; apply Hl; by eapply list_elem_of_lookup_2).
    apply level_insert_ssts_ok in Hins' as (Hp & Hi & Hty & Hsz); [|rewrite Et; apply Forall_app_2; [apply Hinv|done]].
    rewrite Et in Hp. assert (Z.to_nat (idx - 1) < length (Levels.levels self)) as Hlt by by eapply lookup_lt_Some.
    cbn [Levels.with_levels Levels.levels Levels.l0]. rewrite list_lookup_insert_eq, Hlv by done. split; [|split; [done|]].
    + split; [done|]. split; [|done]. apply Forall_insert_inv; [done|]. split; [|done]. apply Hsz, Es, Hinv.
    + intros j Hj Hji. destruct (Z.eqb_spec j 0); [done|]. simpl. by rewrite list_lookup_insert_ne by lia.
Qed.

Lemma concat_nonempty (ls : list Level.t) :
  concat (Level.table_infos <$> filter (λ level, no_tables level = false) ls) = concat (Level.table_infos <$> ls).
Proof.
  induction ls as [|level ls IH]; [done|]. rewrite filter_cons. unfold no_tables in *. case_decide as E; csimpl.
  - by rewrite IH.
  - apply not_false_is_true, bool_decide_eq_true in E. by rewrite IH, E.
Qed.

Lemma fmap_filter_sorted (ls : list Level.t) (Q : Level.t → Prop) `{!∀ x, Decision (Q x)} :
  StronglySorted Z.lt (Level.sub_level_id <$> ls) → StronglySorted Z.lt (Level.sub_level_id <$> filter Q ls).
Proof.
  induction ls as [|level ls IH]; [done|]. csimpl. intros [Hf Hs]%StronglySorted_cons. rewrite filter_cons.
  case_decide; [|by apply IH]. csimpl. constructor; [by apply IH|]. rewrite Forall_fmap in Hf |- *. by apply Forall_filter_keep.
Qed.

Lemma post_apply_ok self :
  group_inv self → group_inv (post_apply_l0_compact self) ∧ l0_sizes_ok (post_apply_l0_compact self) ∧
  Forall (λ level, Level.table_infos level ≠ []) (sub_levels (post_apply_l0_compact self)) ∧
  ∀ j, tables_at (post_apply_l0_compact self) j = tables_at self j.
Proof.
  intros (H0 & Hl & Hid). split; [|split; [by split|split]].
  - split; [by apply Forall_filter_keep|]. split; [done|by apply fmap_filter_sorted].
  - apply Forall_forall. intros level [Hne _]%list_elem_of_filter. unfold no_tables in Hne. by apply bool_decide_eq_false in Hne.
  - intros j. unfold tables_at. destruct (j =? 0)%Z; [|done]. apply concat_nonempty.
Qed.

(** ** Properties *)

(** C27: applying the result of a compaction replaces exactly the tables it names.  For a group
    whose levels record their sizes and are sorted where they have to be, and well-formed
    output tables, a returning [apply_compact_ssts] followed by the L0 clean-up keeps that
    invariant, the L0 sizes are the sums of the non-empty sub-levels left, and: if every
    removed id names a table of the level, the level holds its other tables and the inserted
    ones; if some removed id does not, no table changes; tables of other levels never change. *)
Theorem apply_compact_ssts_exact (self self1 : Levels.t) (delta : IntraLevelDelta.t) (members : list Z) :
  group_inv self → (0 <= IntraLevelDelta.level_idx delta)%Z → Forall sst_ok (IntraLevelDelta.inserted_table_infos delta) →
  apply_compact_ssts self delta members = Ret self1 →
  let final := post_apply_l0_compact self1 in
  let idx := IntraLevelDelta.level_idx delta in
  let removed := IntraLevelDelta.removed_table_ids delta in
  group_inv final ∧ l0_sizes_ok final ∧ Forall (λ level, Level.table_infos level ≠ []) (sub_levels final) ∧
  ((∀ id, id ∈ removed → id ∈ SstableInfo.sst_id <$> tables_at self idx) →
     tables_at final idx ≡ₚ remaining removed (tables_at self idx) ++ IntraLevelDelta.inserted_table_infos delta) ∧
  (¬ (∀ id, id ∈ removed → id ∈ SstableInfo.sst_id <$> tables_at self idx) → tables_at final idx = tables_at self idx) ∧
  (∀ j, (0 <= j)%Z → j ≠ idx → tables_at final j = tables_at self j).
Proof.
  intros Hg Hidx Hins Hrun final idx removed. unfold apply_compact_ssts in Hrun.
  apply bind_Ret in Hrun as (ex & Hex & Hrun). apply check_exist_eval in Hex. fold idx removed in Hex, Hrun.
  destruct ex.
  - apply bind_Ret in Hrun as (self0 & Hdel & Hrun).
    destruct (apply_delete_ok _ _ _ _ Hg Hidx Hdel) as (Hg0 & Ht0 & Ho0 & _).
    destruct (apply_insert_ok _ _ _ _ Hg0 Hidx Hins Hrun) as (Hg1 & Ht1 & Ho1). fold idx in Ht0, Ho0, Ht1, Ho1.
    destruct (post_apply_ok _ Hg1) as (Hgf & Hsf & Hnf & Htf). unfold final. split_and!; try done.
    + intros _. by rewrite Htf, Ht1, Ht0.
    + intros Hn. destruct Hn. by apply Hex.
    + intros j Hj Hji. rewrite Htf, Ho1, Ho0; auto.
  - injection Hrun as <-. destruct (post_apply_ok _ Hg) as (Hgf & Hsf & Hnf & Htf). unfold final. split_and!; try done.
    intros H. by apply Hex in H.
Qed.

(** Applying a compaction to a level below L0 panics exactly when it would produce
    overlapping tables.  With the level present, [apply_compact_ssts] returns if and only if
    some removed id is unknown (the delta is skipped), nothing is inserted, or the remaining
    and the inserted tables are pairwise disjoint. *)
Theorem apply_compact_ssts_returns (self : Levels.t) (delta : IntraLevelDelta.t) (members : list Z) (level : Level.t) :
  group_inv self → (1 <= IntraLevelDelta.level_idx delta)%Z → Forall sst_ok (IntraLevelDelta.inserted_table_infos delta) →
  Levels.levels self !! Z.to_nat (IntraLevelDelta.level_idx delta - 1) = Some level →
  returns (apply_compact_ssts self delta members) ↔
    ¬ (∀ id, id ∈ IntraLevelDelta.removed_table_ids delta → id ∈ SstableInfo.sst_id <$> Level.table_infos level) ∨
    IntraLevelDelta.inserted_table_infos delta = [] ∨
    disjoint_tables (remaining (IntraLevelDelta.removed_table_ids delta) (Level.table_infos level) ++
                     IntraLevelDelta.inserted_table_infos delta).
Proof.
  intros Hg Hidx Hins Hlv. set (ids := IntraLevelDelta.removed_table_ids delta).
  set (ins := IntraLevelDelta.inserted_table_infos delta). set (idx := IntraLevelDelta.level_idx delta) in *.
  assert (∃ ex, check_sst_ids_exist self [idx] ids = Ret ex) as [ex Hex].
  { unfold check_sst_ids_exist. cbn [rfold]. destruct (Z.eqb_spec idx 0); [lia|]. rewrite Hlv. by eexists. }
  pose proof (check_exist_eval _ _ _ _ Hex) as Hiff. unfold tables_at in Hiff.
  destruct (Z.eqb_spec idx 0) as [?|Hne]; [lia|]. rewrite Hlv in Hiff.
  unfold apply_compact_ssts. fold idx ids. rewrite Hex. cbn [mbind outcome_bind]. destruct ex.
  2: { split; [|by eexists]. intros _. left. intros H. by apply Hiff in H. }
  assert (∃ self0 level0, apply_delete self idx ids = Ret self0 ∧ Levels.levels self0 !! Z.to_nat (idx - 1) = Some level0 ∧
    Level.table_infos level0 = remaining ids (Level.table_infos level)) as (self0 & level0 & Hdel & Hlv0 & Ht0).
  { unfold apply_delete. case_bool_decide as Hemp.
    - exists self, level. split_and!; [done..|]. rewrite Hemp. unfold remaining. symmetry. apply filter_all. set_solver.
    - destruct (Z.eqb_spec idx 0); [lia|]. rewrite Hlv.
      eexists _, ((level_delete_ssts level ids).1). split; [done|]. split; [|done]. simpl.
      apply list_lookup_insert_eq. by eapply lookup_lt_Some. }
  rewrite Hdel. cbn [mbind outcome_bind]. unfold apply_insert. fold ins idx. case_bool_decide as Hemp.
  { split; [|by eexists]. tauto. }
  destruct (Z.eqb_spec idx 0) as [?|_]; [lia|]. rewrite Hlv0. cbn [unwrap mbind outcome_bind].
  rewrite returns_bind by (intros; by eexists).
  destruct (partition_count_inv level0 ins members (IntraLevelDelta.vnode_partition_count delta)) as [_ (Et & _)].
  assert (level_inv level) as (_ & Hok & _).
  { destruct Hg as (_ & Hl & _). rewrite Forall_forall in Hl. apply Hl. by eapply list_elem_of_lookup_2. }
  destruct (level_insert_ssts_ok (base_partition_count level0 ins members (IntraLevelDelta.vnode_partition_count delta)) ins) as [Hret _].
  { rewrite Et, Ht0. apply Forall_app_2; [by apply filter_ok|done]. }
  rewrite Hret, Et, Ht0. split; [tauto|]. intros [H|[H|H]]; [|by destruct Hemp|exact H]. destruct H. by apply Hiff.
Qed.

(** A base level of two tables, the first of which is rewritten. *)
Definition example_group : Levels.t :=
  Levels.mk [Level.mk 1 LevelType.Nonoverlapping [two_table_sst 1 1 1 [1]%Z; two_table_sst 2 3 3 [3]%Z] 20 0 20 0]
    (OverlappingLevel.mk [Level.mk 0 LevelType.Overlapping [two_table_sst 3 1 3 [1; 3]%Z] 10 5 10 0] 10 10) 2 0 [].

Definition example_delta : IntraLevelDelta.t := IntraLevelDelta.mk 1 0 {[ 1%Z ]} [two_table_sst 4 1 2 [1; 2]%Z] 0.

Lemma two_table_sst_ok' id lo hi ids :
  is_uint 32 lo → is_uint 32 hi → (lo <= hi)%Z → is_sorted ids = true → sst_ok (two_table_sst id lo hi ids).
Proof. intros. by apply table_wf_ok, two_table_sst_ok. Qed.

Lemma example_group_inv : group_inv example_group.
Proof.
  split; [|split].
  - apply Forall_singleton. split; [done|]. split; [|by intros []].
    apply Forall_singleton. by apply two_table_sst_ok'.
  - apply Forall_singleton. split; [|done]. split; [done|]. split; [|intros _; by vm_compute].
    repeat apply Forall_cons_2; [by apply two_table_sst_ok'..|]. apply Forall_nil_2.
  - by repeat constructor.
Qed.

Lemma example_delta_ok : Forall sst_ok (IntraLevelDelta.inserted_table_infos example_delta).
Proof. apply Forall_singleton. by apply two_table_sst_ok'. Qed.

Lemma apply_compact_ssts_exact_witness :
  ∃ self1, apply_compact_ssts example_group example_delta [1; 2; 3]%Z = Ret self1 ∧
    SstableInfo.sst_id <$> tables_at (post_apply_l0_compact self1) 1 ≡ₚ [2; 4]%Z.
Proof.
  destruct (apply_compact_ssts example_group example_delta [1; 2; 3]%Z) as [self1|] eqn:E; [|by vm_compute in E].
  exists self1. split; [done|].
  destruct (apply_compact_ssts_exact example_group self1 example_delta [1; 2; 3]%Z) as (_ & _ & _ & H & _);
    [apply example_group_inv|done|apply example_delta_ok|exact E|].
  rewrite H; [done|]. intros id Hid. change (id ∈ ({[ 1%Z ]} : gset Z)) in Hid. apply elem_of_singleton in Hid as ->. by left.
Defined.

Lemma apply_compact_ssts_returns_witness :
  returns (apply_compact_ssts example_group (IntraLevelDelta.mk 1 0 ∅ [] 0) []).
Proof.
  apply (apply_compact_ssts_returns example_group (IntraLevelDelta.mk 1 0 ∅ [] 0) []
    (Level.mk 1 LevelType.Nonoverlapping [two_table_sst 1 1 1 [1]%Z; two_table_sst 2 3 3 [3]%Z] 20 0 20 0));
    [apply example_group_inv|done|apply Forall_nil_2|done|].
  right. by left.
Defined.
