(* ===== verification/Block.v ===== *)
(** * Blocks of sorted tables

    [src/storage/src/hummock/sstable/block.rs], [block_iterator.rs] and the helpers of
    [utils.rs] they use: prefix-compressed entries with restart points, the builder, the
    decoder and the iterator.  The checksum ([xxhash_rust]) and the compressors ([lz4],
    [zstd]) are parameters.  Hit counters of the block cache are not modelled.  The theorems
    are in [BlockSpec.v] and [BlockIterSpec.v]. *)

From Stdlib Require Import ZArith Lia.
From S2P Require Import Prelude Order Bytes Epoch Bits Bitmap Vnode Key KeySpec KeyRange Sst.

(** ** Slices and little-endian reads *)

(** [&buf[a..b]] *)
Definition slice (buf : list byte) (a b : nat) : outcome (list byte) :=
  if (a <=? b) && (b <=? length buf) then Ret (take (b - a) (drop a buf)) else Panic.

(** [a - b] on [usize] used as an index: a wrapped difference is out of range. *)
Definition index_sub (a b : nat) : outcome nat := if b <=? a then Ret (a - b) else Panic.

(** [buf.get_uN_le()] *)
Definition get_le (n : nat) (buf : list byte) : outcome (Z * list byte) :=
  if n <=? length buf then Ret (le_val (take n buf), drop n buf) else Panic.

(** [checked_into_u32(..).unwrap_or_else(panic)] *)
Definition checked_into_u32 (n : nat) : outcome Z :=
  rassert (Z.of_nat n <=? u32_max)%Z;; Ret (Z.of_nat n).

(** ** [utils.rs] *)

Definition MAX_KEY_LEN : nat := Z.to_nat (2 ^ 16 - 1).

Definition read_u64 (buf : list byte) (i : nat) : Z := le_val (take 8 (drop i buf)).
Definition read_u32 (buf : list byte) (i : nat) : Z := le_val (take 4 (drop i buf)).

(** The loop over eight bytes; each iteration advances [i], so [end_] iterations suffice. *)
Fixpoint skip_words (fuel : nat) (base target : list byte) (i end_ : nat) : nat :=
  match fuel with
  | O => i
  | S fuel =>
      if i + 8 <=? end_ then
        if (read_u64 base i =? read_u64 target i)%Z then skip_words fuel base target (i + 8) end_ else i
      else i
  end.

(** The loop over single bytes: the index where it stops. *)
Fixpoint skip_bytes (fuel : nat) (base target : list byte) (i end_ : nat) : nat :=
  match fuel with
  | O => i
  | S fuel =>
      if i <? end_ then
        if bool_decide (base !! i = target !! i) then skip_bytes fuel base target (i + 1) end_ else i
      else i
  end.

Definition bytes_diff_below_max_key_length (base target : list byte) : list byte :=
  let end_ := (length base `min` length target) `min` MAX_KEY_LEN in
  let i := skip_words end_ base target 0 end_ in
  let i := if (i + 4 <=? end_) && (read_u32 base i =? read_u32 target i)%Z then i + 4 else i in
  drop (skip_bytes end_ base target i end_) target.

Module CompressionAlgorithm.

Inductive t := None_ | Lz4 | Zstd.

#[global] Instance t_eq_dec : EqDecision t.
Proof. solve_decision. Defined.

Definition encode (self : t) : list byte := [match self with None_ => Byte.x00 | Lz4 => Byte.x01 | Zstd => Byte.x02 end].

End CompressionAlgorithm.

(** The errors the modelled code raises; messages are dropped. *)
Inductive HummockError :=
| ChecksumMismatch (expected found : Z)
| DecodeError
| MagicMismatch (expected found : Z)
| InvalidFormatVersion (version : Z)
| ObjectIoError
| OtherError.

(** [HummockResult<A>] *)
Abbreviation HummockResult A := (HummockError + A)%type.

Definition decode_algorithm (b : byte) : HummockResult CompressionAlgorithm.t :=
  match b with
  | Byte.x00 => inr CompressionAlgorithm.None_
  | Byte.x01 => inr CompressionAlgorithm.Lz4
  | Byte.x02 => inr CompressionAlgorithm.Zstd
  | _ => inl DecodeError
  end.

(** ** [LenType] *)
Module LenType.

Inductive t := u8 | u16 | u32.

#[global] Instance t_eq_dec : EqDecision t.
Proof. solve_decision. Defined.

(** [as u8] and [From<u8>] *)
Definition into (self : t) : Z := match self with u8 => 1 | u16 => 2 | u32 => 3 end.

Definition from (value : Z) : outcome t :=
  if (value =? 1)%Z then Ret u8 else if (value =? 2)%Z then Ret u16 else if (value =? 3)%Z then Ret u32 else Panic.

Definition len (self : t) : nat := match self with u8 => 1 | u16 => 2 | u32 => 4 end.

Definition new (l : nat) : outcome t :=
  let l := Z.of_nat l in
  if (l <? 2 ^ 8)%Z then Ret u8 else if (l <? 2 ^ 16)%Z then Ret u16 else if (l <? 2 ^ 32)%Z then Ret u32 else Panic.

(** [put]: the value truncated to the width, big-endian. *)
Definition put (self : t) (v : nat) : list byte := be_bytes (len self) (Z.of_nat v mod 256 ^ Z.of_nat (len self)).
Definition put2 (self : t) (v1 v2 : nat) : list byte := put self v1 ++ put self v2.

Definition get (self : t) (buf : list byte) : outcome (nat * list byte) :=
  '(v, rest) ← get_be (len self) buf; Ret (Z.to_nat v, rest).

Definition get2 (self : t) (buf : list byte) : outcome (nat * nat * list byte) :=
  '(v1, rest) ← get self buf; '(v2, rest) ← get self rest; Ret (v1, v2, rest).

End LenType.

Module RestartPoint.

Record t := mk { offset : Z; key_len_type : LenType.t; value_len_type : LenType.t }.

#[global] Instance t_eq_dec : EqDecision t.
Proof. solve_decision. Defined.

Definition size_of : nat := 4 + 1.

End RestartPoint.

(** ** [KeyPrefix] *)
Module KeyPrefix.

Record t := mk { overlap : nat; diff : nat; value : nat; offset : nat; len : nat }.

Definition new_without_len (overlap diff value offset : nat) : t := mk overlap diff value offset 0.

Definition encode (self : t) (key_len_type value_len_type : LenType.t) : list byte :=
  LenType.put2 key_len_type (overlap self) (diff self) ++ LenType.put value_len_type (value self).

Definition decode (buf : list byte) (offset : nat) (key_len_type value_len_type : LenType.t) : outcome t :=
  '(overlap, diff, buf) ← LenType.get2 key_len_type buf;
  '(value, buf) ← LenType.get value_len_type buf;
  Ret (mk overlap diff value offset (LenType.len key_len_type * 2 + LenType.len value_len_type)).

Definition overlap_len (self : t) : nat := overlap self.
Definition diff_key_range (self : t) : nat * nat := (offset self + len self, offset self + len self + diff self).
Definition value_range (self : t) : nat * nat :=
  (offset self + len self + diff self, offset self + len self + diff self + value self).
Definition entry_len (self : t) : nat := len self + diff self + value self.

End KeyPrefix.

(** ** [BlockBuilder] *)
Module BlockBuilder.

Record t := mk {
  buf : list byte;
  restart_count : nat;
  restart_points : list Z;
  last_key : list byte;
  entry_count : nat;
  compression_algorithm : CompressionAlgorithm.t;
  table_id : option Z;
  restart_points_type_index : list RestartPoint.t
}.

(** The capacity computation divides by [restart_interval]. *)
Definition new (restart_interval : nat) (compression_algorithm : CompressionAlgorithm.t) : outcome t :=
  rassert (negb (restart_interval =? 0));;
  Ret (mk [] restart_interval [] [] 0 compression_algorithm None []).

Definition type_mismatch (self : t) (k_type v_type : LenType.t) : bool :=
  match last (restart_points_type_index self) with
  | Some r => negb (bool_decide (k_type = RestartPoint.key_len_type r)) ||
              negb (bool_decide (v_type = RestartPoint.value_len_type r))
  | None => true
  end.

Definition add (self : t) (full_key : FullKey.t) (value : list byte) : outcome t :=
  let input_table_id := UserKey.table_id (FullKey.user_key full_key) in
  rassert (match table_id self with Some id => (id =? input_table_id)%Z | None => true end);;
  let key := FullKey.encode_into_without_table_id full_key in
  k_type ← LenType.new (length key);
  v_type ← LenType.new (length value);
  let mismatch := type_mismatch self k_type v_type in
  rassert (negb (restart_count self =? 0));;
  '(points, index, diff_key) ←
    (if (entry_count self mod restart_count self =? 0) || mismatch then
       offset ← checked_into_u32 (length (buf self));
       Ret (restart_points self ++ [offset],
            (if mismatch then restart_points_type_index self ++ [RestartPoint.mk offset k_type v_type]
             else restart_points_type_index self),
            key)
     else Ret (restart_points self, restart_points_type_index self,
               bytes_diff_below_max_key_length (last_key self) key));
  let prefix := KeyPrefix.new_without_len (length key - length diff_key) (length diff_key) (length value) (length (buf self)) in
  Ret (mk (buf self ++ KeyPrefix.encode prefix k_type v_type ++ diff_key ++ value)
         (restart_count self) points key (entry_count self + 1) (compression_algorithm self)
         (Some input_table_id) index).

Definition get_last_key (self : t) : list byte := last_key self.
Definition is_empty (self : t) : bool := bool_decide (buf self = []).

Definition clear (self : t) : t :=
  mk [] (restart_count self) [] [] 0 (compression_algorithm self) None [].

Definition uncompressed_block_size (self : t) : nat :=
  length (buf self) + (length (restart_points self) + 1) * 4 +
  RestartPoint.size_of * length (restart_points_type_index self) + 4 + 4.

Definition approximate_len (self : t) : nat :=
  length (buf self) + 4 * length (restart_points self) + 4 +
  RestartPoint.size_of * length (restart_points_type_index self) + 4 + 1 + 8 + 4.

Definition put_type_index (r : RestartPoint.t) : list byte :=
  le_bytes 4 (RestartPoint.offset r) ++
  [z2b (Z.lor (Z.shiftl (LenType.into (RestartPoint.key_len_type r)) 4) (LenType.into (RestartPoint.value_len_type r)))].

(** The entries followed by the restart points, their type index and the table id. *)
Definition raw_block (self : t) : outcome (list byte) :=
  n_restarts ← checked_into_u32 (length (restart_points self));
  n_index ← checked_into_u32 (length (restart_points_type_index self));
  table_id ← unwrap (table_id self);
  Ret (buf self ++ concat (le_bytes 4 <$> restart_points self) ++ le_bytes 4 n_restarts ++
       concat (put_type_index <$> restart_points_type_index self) ++ le_bytes 4 n_index ++ le_bytes 4 table_id).

Section build.
Context (xxh64 : list byte → Z) (compress : CompressionAlgorithm.t → list byte → list byte).

(** Algorithm byte and checksum behind the (compressed) data. *)
Definition seal (algorithm : CompressionAlgorithm.t) (data : list byte) : list byte :=
  let data := data ++ CompressionAlgorithm.encode algorithm in
  data ++ le_bytes 8 (xxh64 data).

(** The builder after the call and the result; without compression the result is the
    buffer of the builder itself.  The scratch buffer of the compressor is cleared before every
    use and is not part of the state. *)
Definition build (self : t) : outcome (t * list byte) :=
  rassert (negb (entry_count self =? 0));;
  raw ← raw_block self;
  let data := if bool_decide (compression_algorithm self = CompressionAlgorithm.None_) then raw
              else compress (compression_algorithm self) raw in
  let result := seal (compression_algorithm self) data in
  rassert (Z.of_nat (length result) <? u32_max)%Z;;
  let buf := if bool_decide (compression_algorithm self = CompressionAlgorithm.None_) then result else raw in
  Ret (mk buf (restart_count self) (restart_points self) (last_key self) (entry_count self)
         (compression_algorithm self) (table_id self) (restart_points_type_index self), result).

End build.
End BlockBuilder.

(** ** [Block] *)
Module Block.

Record t := mk { data_ : list byte; data_len : nat; table_id : Z; restart_points : list RestartPoint.t }.

(** The loop over the restart-point type index. *)
Fixpoint decode_index (n : nat) (buf : list byte) : outcome (list RestartPoint.t) :=
  match n with
  | O => Ret []
  | S n =>
      '(offset, buf) ← get_le 4 buf;
      '(value, buf) ← get_le 1 buf;
      key_len_type ← LenType.from (Z.shiftr value 4);
      value_len_type ← LenType.from (Z.land value 15);
      rest ← decode_index n buf;
      Ret (RestartPoint.mk offset key_len_type value_len_type :: rest)
  end.

(** The loop over the restart points, carrying [type_index]; with an empty index
    [index_key_vec.len() - 1] wraps and the indexing panics. *)
Fixpoint decode_restarts (n : nat) (index_key_vec : list RestartPoint.t) (type_index : nat) (buf : list byte)
  : outcome (list RestartPoint.t) :=
  match n with
  | O => Ret []
  | S n =>
      '(offset, buf) ← get_le 4 buf;
      rassert (negb (bool_decide (index_key_vec = [])));;
      advance ← (if type_index <? length index_key_vec - 1 then
                   next ← unwrap (index_key_vec !! (type_index + 1)); Ret (RestartPoint.offset next <=? offset)%Z
                 else Ret false);
      let type_index := if (advance : bool) then type_index + 1 else type_index in
      cur ← unwrap (index_key_vec !! type_index);
      rest ← decode_restarts n index_key_vec type_index buf;
      Ret (RestartPoint.mk offset (RestartPoint.key_len_type cur) (RestartPoint.value_len_type cur) :: rest)
  end.

Definition decode_from_raw (buf : list byte) : outcome t :=
  let len := length buf in
  a ← index_sub len 4; tail ← slice buf a len; '(table_id, _) ← get_le 4 tail;
  b ← index_sub len 8; tail ← slice buf b a; '(n_index, _) ← get_le 4 tail;
  let n_index := Z.to_nat n_index in
  let index_data_len := 4 + n_index * RestartPoint.size_of in
  data_len ← index_sub a index_data_len;
  index_buf ← slice buf data_len b;
  index_key_vec ← decode_index n_index index_buf;
  restarts_end ← index_sub data_len 4;
  tail ← slice buf restarts_end len; '(n_restarts, _) ← get_le 4 tail;
  let n_restarts := Z.to_nat n_restarts in
  let restart_points_len := 4 + n_restarts * 4 in
  data_len ← index_sub data_len restart_points_len;
  restart_buf ← slice buf data_len restarts_end;
  restart_points ← decode_restarts n_restarts index_key_vec 0 restart_buf;
  Ret (mk buf data_len table_id restart_points).

Section decode.
Context (xxh64 : list byte → Z) (decompress : CompressionAlgorithm.t → list byte → option (list byte)).

Definition xxhash64_verify (data : list byte) (checksum : Z) : HummockResult unit :=
  let data_checksum := xxh64 data in
  if (data_checksum =? checksum)%Z then inr tt else inl (ChecksumMismatch checksum data_checksum).

Definition get_algorithm (buf : list byte) : outcome (HummockResult CompressionAlgorithm.t) :=
  a ← index_sub (length buf) 9;
  b ← slice buf a (a + 1);
  b ← unwrap (head b);
  Ret (decode_algorithm b).

(** [decode] and [decode_with_copy]: the copy of an uncompressed buffer has the same bytes. *)
Definition decode (buf : list byte) (uncompressed_capacity : nat) : outcome (HummockResult t) :=
  let len := length buf in
  a ← index_sub len 8; tail ← slice buf a len; '(checksum, _) ← get_le 8 tail;
  body ← slice buf 0 a;
  match xxhash64_verify body checksum with
  | inl e => Ret (inl e)
  | inr _ =>
      algorithm ← get_algorithm buf;
      match algorithm with
      | inl e => Ret (inl e)
      | inr CompressionAlgorithm.None_ => data ← slice buf 0 (len - 9); inr <$> decode_from_raw data
      | inr algorithm =>
          compressed_data ← slice buf 0 (len - 9);
          match decompress algorithm compressed_data with
          | None => Ret (inl DecodeError)
          | Some decoded =>
              rassert (length decoded =? uncompressed_capacity);;
              inr <$> decode_from_raw decoded
          end
      end
  end.

(** [compress_block]: recompress an uncompressed block. *)
Definition compress_block (compress : CompressionAlgorithm.t → list byte → list byte) (buf : list byte)
    (target_compression : CompressionAlgorithm.t) : outcome (HummockResult (list byte)) :=
  let len := length buf in
  a ← index_sub len 8; tail ← slice buf a len; '(checksum, _) ← get_le 8 tail;
  body ← slice buf 0 a;
  match xxhash64_verify body checksum with
  | inl e => Ret (inl e)
  | inr _ =>
      algorithm ← get_algorithm buf;
      match algorithm with
      | inl e => Ret (inl e)
      | inr algorithm =>
          compressed_data ← slice buf 0 (len - 9);
          rassert (bool_decide (algorithm = CompressionAlgorithm.None_));;
          rassert (negb (bool_decide (target_compression = CompressionAlgorithm.None_)));;
          Ret (inr (BlockBuilder.seal xxh64 target_compression (compress target_compression compressed_data)))
      end
  end.
End decode.

Definition len (self : t) : outcome nat := rassert (negb (bool_decide (data_ self = [])));; Ret (data_len self).
Definition restart_point (self : t) (index : nat) : outcome RestartPoint.t := unwrap (restart_points self !! index).
Definition restart_point_len (self : t) : nat := length (restart_points self).
Definition data (self : t) : outcome (list byte) := slice (data_ self) 0 (data_len self).

End Block.

(** ** [BlockIterator] *)
Module BlockIterator.

Record t := mk {
  block : Block.t;
  restart_point_index : Z;
  offset : Z;
  key_ : list byte;
  value_range : nat * nat;
  entry_len : nat;
  last_key_len_type : LenType.t;
  last_value_len_type : LenType.t
}.

(** Both positions start at [usize::MAX], beyond any block. *)
Definition new (block : Block.t) : t := mk block u64_max u64_max [] (0, 0) 0 LenType.u8 LenType.u8.

Definition is_valid (self : t) : outcome bool :=
  len ← Block.len (block self); Ret (offset self <? Z.of_nat len)%Z.

Definition table_id (self : t) : Z := Block.table_id (block self).

Definition key (self : t) : outcome FullKey.t :=
  valid ← is_valid self; rassert valid;;
  FullKey.from_slice_without_table_id (table_id self) (key_ self).

Definition value (self : t) : outcome (list byte) :=
  valid ← is_valid self; rassert valid;;
  data ← Block.data (block self);
  slice data (value_range self).1 (value_range self).2.

Definition invalidate (self : t) : outcome t :=
  len ← Block.len (block self);
  Ret (mk (block self) (Z.of_nat (Block.restart_point_len (block self))) (Z.of_nat len) [] (0, 0) 0
         (last_key_len_type self) (last_value_len_type self)).

Definition update_restart_point (self : t) (index : nat) : outcome t :=
  r ← Block.restart_point (block self) index;
  Ret (mk (block self) (Z.of_nat index) (offset self) (key_ self) (value_range self) (entry_len self)
         (RestartPoint.key_len_type r) (RestartPoint.value_len_type r)).

Definition decode_prefix_at (self : t) (offset : nat) (key_len_type value_len_type : LenType.t) : outcome KeyPrefix.t :=
  data ← Block.data (block self);
  rest ← slice data offset (length data);
  KeyPrefix.decode rest offset key_len_type value_len_type.

(** The iterator after the attempt and whether it advanced. *)
Definition try_next_inner (self : t) : outcome (t * bool) :=
  let offset := (offset self + Z.of_nat (entry_len self))%Z in
  len ← Block.len (block self);
  if (Z.of_nat len <=? offset)%Z then Ret (self, false)
  else
    let index := (restart_point_index self + 1)%Z in
    self ← (if (index <? Z.of_nat (Block.restart_point_len (block self)))%Z then
              r ← Block.restart_point (block self) (Z.to_nat index);
              if (RestartPoint.offset r <=? offset)%Z
              then update_restart_point self (Z.to_nat index) else Ret self
            else Ret self);
    prefix ← decode_prefix_at self (Z.to_nat offset) (last_key_len_type self) (last_value_len_type self);
    data ← Block.data (block self);
    diff ← slice data (KeyPrefix.diff_key_range prefix).1 (KeyPrefix.diff_key_range prefix).2;
    Ret (mk (block self) (restart_point_index self) offset
           (take (KeyPrefix.overlap_len prefix) (key_ self) ++ diff)
           (KeyPrefix.value_range prefix) (KeyPrefix.entry_len prefix)
           (last_key_len_type self) (last_value_len_type self), true).

Definition next_inner (self : t) : outcome t :=
  '(self, advanced) ← try_next_inner self;
  if (advanced : bool) then Ret self else invalidate self.

Definition seek_restart_point_by_index (self : t) (index : nat) : outcome t :=
  r ← Block.restart_point (block self) index;
  let offset := Z.to_nat (RestartPoint.offset r) in
  prefix ← decode_prefix_at self offset (RestartPoint.key_len_type r) (RestartPoint.value_len_type r);
  data ← Block.data (block self);
  key ← slice data (KeyPrefix.diff_key_range prefix).1 (KeyPrefix.diff_key_range prefix).2;
  update_restart_point
    (mk (block self) (restart_point_index self) (RestartPoint.offset r) key (KeyPrefix.value_range prefix)
       (KeyPrefix.entry_len prefix) (last_key_len_type self) (last_value_len_type self)) index.

(** The loops.  Every iteration advances the offset or invalidates the iterator, so the length
    of the block plus one bounds them; running out of fuel is a panic. *)
Fixpoint next_until_key_fuel (fuel : nat) (self : t) (k : FullKey.t) : outcome t :=
  match fuel with
  | O => Panic
  | S fuel =>
      valid ← is_valid self;
      if (valid : bool) then
        cur ← key self;
        match FullKey.cmp cur k with
        | Lt => self ← next_inner self; next_until_key_fuel fuel self k
        | _ => Ret self
        end
      else Ret self
  end.

Definition loop_fuel (self : t) : nat := S (S (Block.data_len (block self))).

Definition next_until_key (self : t) (k : FullKey.t) : outcome t := next_until_key_fuel (loop_fuel self) self k.

Fixpoint next_until_prev_offset_fuel (fuel : nat) (self : t) (target : Z) : outcome t :=
  match fuel with
  | O => Panic
  | S fuel =>
      len ← Block.len (block self);
      if (offset self + Z.of_nat (entry_len self) <? Z.of_nat len `min` target)%Z then
        self ← next_inner self; next_until_prev_offset_fuel fuel self target
      else Ret self
  end.

Definition next_until_prev_offset (self : t) (target : Z) : outcome t :=
  next_until_prev_offset_fuel (loop_fuel self) self target.

Definition try_prev_inner (self : t) : outcome (t * bool) :=
  if (offset self =? 0)%Z then Ret (self, false)
  else
    let index := Z.to_nat (restart_point_index self) in
    r ← Block.restart_point (block self) index;
    index ← (if (RestartPoint.offset r =? offset self)%Z then index_sub index 1 else Ret index);
    let origin_offset := offset self in
    self ← seek_restart_point_by_index self index;
    self ← next_until_prev_offset self origin_offset;
    Ret (self, true).

Definition prev_inner (self : t) : outcome t :=
  '(self, moved) ← try_prev_inner self;
  if (moved : bool) then Ret self else invalidate self.

Fixpoint prev_until_key_fuel (fuel : nat) (self : t) (k : FullKey.t) : outcome t :=
  match fuel with
  | O => Panic
  | S fuel =>
      valid ← is_valid self;
      if (valid : bool) then
        cur ← key self;
        match FullKey.cmp cur k with
        | Gt => self ← prev_inner self; prev_until_key_fuel fuel self k
        | _ => Ret self
        end
      else Ret self
  end.

Definition prev_until_key (self : t) (k : FullKey.t) : outcome t := prev_until_key_fuel (loop_fuel self) self k.

(** The predicate of the search: the key at the restart point is at most [k]. *)
Definition restart_key_le (self : t) (k : FullKey.t) (r : RestartPoint.t) : outcome bool :=
  let probe := Z.to_nat (RestartPoint.offset r) in
  prefix ← decode_prefix_at self probe (RestartPoint.key_len_type r) (RestartPoint.value_len_type r);
  data ← Block.data (block self);
  probe_key ← slice data (KeyPrefix.diff_key_range prefix).1 (KeyPrefix.diff_key_range prefix).2;
  full_probe_key ← FullKey.from_slice_without_table_id (table_id self) probe_key;
  Ret (match FullKey.cmp full_probe_key k with Gt => false | _ => true end).

Definition search_restart_point_index_by_key (self : t) (k : FullKey.t) : outcome nat :=
  n ← rpartition_point (restart_key_le self k) (Block.restart_points (block self));
  Ret (n - 1).

Definition seek_restart_point_by_key (self : t) (k : FullKey.t) : outcome t :=
  index ← search_restart_point_index_by_key self k;
  seek_restart_point_by_index self index.

Definition next (self : t) : outcome t := valid ← is_valid self; rassert valid;; next_inner self.
Definition try_next (self : t) : outcome (t * bool) := valid ← is_valid self; rassert valid;; try_next_inner self.
Definition prev (self : t) : outcome t := valid ← is_valid self; rassert valid;; prev_inner self.
Definition try_prev (self : t) : outcome (t * bool) := valid ← is_valid self; rassert valid;; try_prev_inner self.

Definition seek_to_first (self : t) : outcome t := seek_restart_point_by_index self 0.

Definition seek_to_last (self : t) : outcome t :=
  index ← index_sub (Block.restart_point_len (block self)) 1;
  self ← seek_restart_point_by_index self index;
  len ← Block.len (block self);
  next_until_prev_offset self (Z.of_nat len).

Definition seek (self : t) (k : FullKey.t) : outcome t :=
  self ← seek_restart_point_by_key self k;
  next_until_key self k.

Definition seek_le (self : t) (k : FullKey.t) : outcome t :=
  self ← seek_restart_point_by_key self k;
  self ← next_until_key self k;
  valid ← is_valid self;
  self ← (if (valid : bool) then Ret self else seek_to_last self);
  prev_until_key self k.

End BlockIterator.
