(* ===== verification/BlockSpec.v ===== *)
(** * Building and decoding blocks

    A built block holds the entries that were added ([Block.v]): the prefix compression is
    the longest common prefix (up to [MAX_KEY_LEN]), the restart points and their type index
    describe the entries, and decoding the bytes recovers them, through checksum and
    compression. *)

From Stdlib Require Import ZArith Lia.
From S2P Require Import Prelude Order Bytes Epoch Bits Bitmap Vnode Key KeySpec KeyRange Sst Block.

(** ** Slices *)

Lemma slice_app a b c : slice (a ++ b ++ c) (length a) (length a + length b) = Ret b.
Proof.
  unfold slice. rewrite !length_app. rewrite !(proj2 (Nat.leb_le _ _)) by lia. cbn [andb].
  rewrite drop_app_length. replace (length a + length b - length a) with (length b) by lia. by rewrite take_app_length.
Qed.

(** A slice of a buffer whose parts are known. *)
Lemma slice_parts buf i j a b c :
  buf = a ++ b ++ c → i = length a → j = length a + length b → slice buf i j = Ret b.
Proof. intros -> -> ->. apply slice_app. Qed.

Lemma get_le_put n z rest :
  (0 <= z < 256 ^ Z.of_nat n)%Z → get_le n (le_bytes n z ++ rest) = Ret (z, rest).
Proof.
  intros Hz. unfold get_le. rewrite length_app, length_le_bytes.
  rewrite (proj2 (Nat.leb_le _ _)) by lia.
  rewrite <-(length_le_bytes n z) at 1 3. rewrite take_app_length, drop_app_length, le_val_bytes.
  by rewrite Z.mod_small.
Qed.

Lemma get_le_all n z : (0 <= z < 256 ^ Z.of_nat n)%Z → get_le n (le_bytes n z) = Ret (z, []).
Proof. intros Hz. rewrite <-(get_le_put n z []) by done. by rewrite app_nil_r. Qed.

Lemma index_sub_ok a b : b ≤ a → index_sub a b = Ret (a - b).
Proof. intros H. unfold index_sub. by rewrite (proj2 (Nat.leb_le _ _)). Qed.

(** ** The common prefix *)

Section common.
Context (base target : list byte).

Definition agree (i : nat) : Prop := take i base = take i target.

Lemma agree_lookup i : agree i ↔ ∀ j, j < i → base !! j = target !! j.
Proof.
  unfold agree. split.
  - intros H j Hj. rewrite <-(lookup_take_lt base i j Hj), <-(lookup_take_lt target i j Hj). by rewrite H.
  - intros H. apply list_eq. intros j. destruct (decide (j < i)) as [Hj|Hj].
    + rewrite !lookup_take_lt by done. auto.
    + rewrite !lookup_take_ge by lia. done.
Qed.

(** A word comparison is a comparison of its bytes. *)
Lemma agree_word n i :
  i + n ≤ length base → i + n ≤ length target → agree i →
  le_val (take n (drop i base)) = le_val (take n (drop i target)) → agree (i + n).
Proof.
  intros Hb Ht Hi Heq. apply (f_equal (le_bytes n)) in Heq.
  assert (∀ l : list byte, i + n ≤ length l → le_bytes n (le_val (take n (drop i l))) = take n (drop i l)) as Hrt.
  { intros l Hl. rewrite <-(le_bytes_val (take n (drop i l))) at 2. f_equal. rewrite length_take, length_drop. lia. }
  rewrite !Hrt in Heq by done. unfold agree in *. rewrite <-(take_drop i base), <-(take_drop i target), Hi.
  rewrite !take_app_ge by (rewrite length_take; lia). rewrite !length_take.
  by replace (i + n - i `min` length target) with n by lia; rewrite Heq.
Qed.

Lemma skip_words_ok fuel i end_ :
  end_ ≤ length base → end_ ≤ length target → agree i → i ≤ end_ →
  agree (skip_words fuel base target i end_) ∧ i ≤ skip_words fuel base target i end_ ≤ end_.
Proof.
  intros Hb Ht. revert i. induction fuel as [|fuel IH]; intros i Hi Hle; simpl; [by split; [|lia]|].
  destruct (Nat.leb_spec (i + 8) end_); [|by split; [|lia]].
  destruct (Z.eqb_spec (read_u64 base i) (read_u64 target i)) as [E|]; [|by split; [|lia]].
  destruct (IH (i + 8)) as [H1 H2]; [apply agree_word; (done || lia)|lia|]. split; [done|lia].
Qed.

Lemma skip_bytes_ok fuel i end_ :
  end_ ≤ length base → end_ ≤ length target → agree i → i ≤ end_ → end_ ≤ i + fuel →
  let n := skip_bytes fuel base target i end_ in
  agree n ∧ n ≤ end_ ∧ (n < end_ → base !! n ≠ target !! n).
Proof.
  intros Hb Ht. revert i. induction fuel as [|fuel IH]; intros i Hi Hle Hf; simpl; [split; [done|lia]|].
  destruct (Nat.ltb_spec i end_); [|split; [done|lia]].
  case_bool_decide as E; [|done]. apply IH; [|lia..].
  apply agree_lookup. intros j Hj. rewrite agree_lookup in Hi. destruct (decide (j = i)) as [->|]; [done|]. apply Hi. lia.
Qed.

(** The part of [target] behind the longest common prefix (of at most [MAX_KEY_LEN] bytes). *)
Lemma bytes_diff_ok :
  ∃ n, bytes_diff_below_max_key_length base target = drop n target ∧
    n ≤ length base ∧ n ≤ length target ∧ n ≤ MAX_KEY_LEN ∧ take n base = take n target ∧
    (n < (length base `min` length target) `min` MAX_KEY_LEN → base !! n ≠ target !! n).
Proof.
  unfold bytes_diff_below_max_key_length. set (end_ := (length base `min` length target) `min` MAX_KEY_LEN).
  assert (end_ ≤ length base) by lia. assert (end_ ≤ length target) by lia.
  destruct (skip_words_ok end_ 0 end_) as [H1 H2]; [done..|lia|].
  set (i := skip_words end_ base target 0 end_) in *.
  set (i' := if (i + 4 <=? end_) && (read_u32 base i =? read_u32 target i)%Z then i + 4 else i).
  assert (agree i' ∧ i' ≤ end_) as [H3 H4].
  { unfold i'. destruct (Nat.leb_spec (i + 4) end_); cbn [andb]; [|split; [done|lia]].
    destruct (Z.eqb_spec (read_u32 base i) (read_u32 target i)); [|split; [done|lia]].
    split; [apply agree_word; (done || lia)|lia]. }
  destruct (skip_bytes_ok end_ i' end_) as (H5 & H6 & H7); [done..|lia|].
  exists (skip_bytes end_ base target i' end_). split; [done|]. split; [lia|]. split; [lia|]. split; [lia|]. by split.
Qed.
End common.

(** ** Length types *)

Abbreviation fits n := (Z.of_nat n < 2 ^ 32)%Z.

Definition len_type (n : nat) : LenType.t :=
  if (Z.of_nat n <? 2 ^ 8)%Z then LenType.u8 else if (Z.of_nat n <? 2 ^ 16)%Z then LenType.u16 else LenType.u32.

Lemma len_type_new n : fits n → LenType.new n = Ret (len_type n).
Proof.
  intros H. unfold LenType.new, len_type. rewrite (proj2 (Z.ltb_lt _ (2 ^ 32)) H).
  by destruct (_ <? 2 ^ 8)%Z; [|destruct (_ <? 2 ^ 16)%Z].
Qed.

Lemma len_type_bound n m : fits n → m ≤ n → (0 <= Z.of_nat m < 256 ^ Z.of_nat (LenType.len (len_type n)))%Z.
Proof.
  intros Hn Hm. unfold len_type. destruct (Z.ltb_spec (Z.of_nat n) (2 ^ 8)); [simpl; lia|].
  destruct (Z.ltb_spec (Z.of_nat n) (2 ^ 16)); simpl; lia.
Qed.

Lemma len_type_put_get n m rest :
  fits n → m ≤ n → LenType.get (len_type n) (LenType.put (len_type n) m ++ rest) = Ret (m, rest).
Proof.
  intros Hn Hm. pose proof (len_type_bound n m Hn Hm) as Hb. unfold LenType.get, LenType.put.
  rewrite Z.mod_small by done. rewrite get_be_put by done. cbn [mbind outcome_bind]. by rewrite Nat2Z.id.
Qed.

Lemma length_put ty m : length (LenType.put ty m) = LenType.len ty.
Proof. apply length_be_bytes. Qed.

Lemma len_type_pos ty : 1 ≤ LenType.len ty ≤ 4.
Proof. destruct ty; simpl; lia. Qed.

(** ** Entries of a block *)

(** An entry as the builder lays it out: its key and value, the part of the key that is
    stored and whether it starts a restart interval. *)
Record entry := Entry { e_key : FullKey.t; e_val : list byte; e_diff : list byte; e_restart : bool }.

Implicit Types (e : entry) (es : list entry).

Definition pair_of e : FullKey.t * list byte := (e_key e, e_val e).
Definition enc e : list byte := FullKey.encode_into_without_table_id (e_key e).
Definition e_kt e : LenType.t := len_type (length (enc e)).
Definition e_vt e : LenType.t := len_type (length (e_val e)).
Definition header_len e : nat := LenType.len (e_kt e) * 2 + LenType.len (e_vt e).
Definition header e : list byte :=
  LenType.put2 (e_kt e) (length (enc e) - length (e_diff e)) (length (e_diff e)) ++ LenType.put (e_vt e) (length (e_val e)).
Definition entry_bytes e : list byte := header e ++ e_diff e ++ e_val e.

Definition entry_ok e : Prop :=
  fits (length (enc e)) ∧ fits (length (e_val e)) ∧ length (e_diff e) ≤ length (enc e) ∧
  is_uint 64 (FullKey.epoch_with_gap (e_key e)).

(** How the stored part determines the key, given the preceding entry. *)
Definition linked (p : option entry) e : Prop :=
  if e_restart e then e_diff e = enc e
  else ∃ q, p = Some q ∧ e_kt q = e_kt e ∧ e_vt q = e_vt e ∧
    enc e = take (length (enc e) - length (e_diff e)) (enc q) ++ e_diff e.

Definition prev_of es (i : nat) : option entry := match i with O => None | S i => es !! i end.

Definition chained es : Prop := ∀ i e, es !! i = Some e → entry_ok e ∧ linked (prev_of es i) e.

Definition bytes_of es : list byte := concat (entry_bytes <$> es).

Definition point (off : nat) e : RestartPoint.t := RestartPoint.mk (Z.of_nat off) (e_kt e) (e_vt e).

Fixpoint points (off : nat) es : list RestartPoint.t :=
  match es with
  | [] => []
  | e :: es => (if e_restart e then [point off e] else []) ++ points (off + length (entry_bytes e)) es
  end.

Lemma length_header e : length (header e) = header_len e.
Proof. unfold header, header_len, LenType.put2. rewrite !length_app, !length_put. lia. Qed.

Lemma length_entry_bytes e : length (entry_bytes e) = header_len e + length (e_diff e) + length (e_val e).
Proof. unfold entry_bytes. rewrite !length_app, length_header. lia. Qed.

Lemma header_len_bounds e : 3 ≤ header_len e ≤ 12.
Proof. unfold header_len. pose proof (len_type_pos (e_kt e)). pose proof (len_type_pos (e_vt e)). lia. Qed.

Lemma bytes_of_app es1 es2 : bytes_of (es1 ++ es2) = bytes_of es1 ++ bytes_of es2.
Proof. unfold bytes_of. by rewrite fmap_app, concat_app. Qed.

Lemma points_app off es1 es2 :
  points off (es1 ++ es2) = points off es1 ++ points (off + length (bytes_of es1)) es2.
Proof.
  revert off. induction es1 as [|e es1 IH]; intros off; simpl; [by rewrite Nat.add_0_r|].
  rewrite IH, app_assoc. change (bytes_of (e :: es1)) with (entry_bytes e ++ bytes_of es1).
  rewrite length_app. by replace (off + length (entry_bytes e) + length (bytes_of es1))
    with (off + (length (entry_bytes e) + length (bytes_of es1))) by lia.
Qed.

Lemma points_ge off es r : r ∈ points off es → (Z.of_nat off <= RestartPoint.offset r < Z.of_nat (off + length (bytes_of es)))%Z.
Proof.
  revert off. induction es as [|e es IH]; intros off; simpl; [by intros ?%elem_of_nil|].
  intros Hr. change (bytes_of (e :: es)) with (entry_bytes e ++ bytes_of es). rewrite length_app.
  pose proof (length_entry_bytes e). pose proof (header_len_bounds e).
  apply elem_of_app in Hr as [Hr|Hr%IH]; [|lia].
  destruct (e_restart e); [apply list_elem_of_singleton in Hr as ->; simpl; lia|by apply elem_of_nil in Hr].
Qed.

Lemma prev_of_snoc es e i : i ≤ length es → prev_of (es ++ [e]) i = prev_of es i.
Proof. destruct i as [|i]; [done|]. intros H. simpl. by rewrite lookup_app_l. Qed.

Lemma chained_snoc es e :
  chained es → entry_ok e → linked (last es) e → chained (es ++ [e]).
Proof.
  intros Hc Hok Hl i e' Hi. apply lookup_app_Some in Hi as [Hi|[Hge Hi]].
  - rewrite prev_of_snoc; [by apply Hc|]. apply lookup_lt_Some in Hi. lia.
  - apply list_lookup_singleton_Some in Hi as [Hi <-]. rewrite prev_of_snoc by lia. split; [done|].
    replace i with (length es) by lia. rewrite last_lookup in Hl. destruct (length es) as [|n] eqn:E; [|done].
    by destruct es.
Qed.

(** ** The builder *)

Definition types (r : RestartPoint.t) : LenType.t * LenType.t := (RestartPoint.key_len_type r, RestartPoint.value_len_type r).
Definition e_types e : LenType.t * LenType.t := (e_kt e, e_vt e).

(** The restart points whose types differ from those of the point before. *)
Fixpoint tindex (cur : option (LenType.t * LenType.t)) (rs : list RestartPoint.t) : list RestartPoint.t :=
  match rs with
  | [] => []
  | r :: rs => if bool_decide (Some (types r) = cur) then tindex cur rs else r :: tindex (Some (types r)) rs
  end.

Definition last_types (cur : option (LenType.t * LenType.t)) (rs : list RestartPoint.t) :=
  match last rs with Some r => Some (types r) | None => cur end.

Lemma last_types_cons cur r rs : last_types cur (r :: rs) = last_types (Some (types r)) rs.
Proof. unfold last_types. rewrite last_cons. by destruct (last rs). Qed.

Lemma tindex_app cur rs1 rs2 : tindex cur (rs1 ++ rs2) = tindex cur rs1 ++ tindex (last_types cur rs1) rs2.
Proof.
  revert cur. induction rs1 as [|r rs1 IH]; intros cur; [done|].
  rewrite last_types_cons. simpl. case_bool_decide as E; rewrite IH; [|done]. by rewrite E.
Qed.

Lemma tindex_last cur rs :
  match last (tindex cur rs) with Some r => Some (types r) | None => cur end = last_types cur rs.
Proof.
  revert cur. induction rs as [|r rs IH]; intros cur; [done|]. rewrite last_types_cons, <-IH.
  simpl. case_bool_decide as E; [by rewrite E|]. rewrite last_cons. by destruct (last (tindex _ rs)).
Qed.

Record builder_ok (table : Z) (b : BlockBuilder.t) es : Prop := {
  bo_buf : BlockBuilder.buf b = bytes_of es;
  bo_points : BlockBuilder.restart_points b = RestartPoint.offset <$> points 0 es;
  bo_index : BlockBuilder.restart_points_type_index b = tindex None (points 0 es);
  bo_last : BlockBuilder.last_key b = from_option enc [] (last es);
  bo_count : BlockBuilder.entry_count b = length es;
  bo_table : BlockBuilder.table_id b = match es with [] => None | _ => Some table end;
  bo_restart : BlockBuilder.restart_count b ≠ 0;
  bo_types : last_types None (points 0 es) = e_types <$> last es;
  bo_same : Forall (λ e, UserKey.table_id (FullKey.user_key (e_key e)) = table) es;
  bo_chained : chained es
}.

Lemma builder_new_ok table restart_interval algorithm :
  restart_interval ≠ 0 → ∃ b, BlockBuilder.new restart_interval algorithm = Ret b ∧ builder_ok table b [].
Proof.
  intros H. exists (BlockBuilder.mk [] restart_interval [] [] 0 algorithm None []). split; [|by split].
  unfold BlockBuilder.new. by rewrite (proj2 (Nat.eqb_neq _ 0) H).
Qed.

Lemma clear_ok table b es : builder_ok table b es → builder_ok table (BlockBuilder.clear b) [].
Proof. intros [?????? H ???]. by split. Qed.

Lemma type_mismatch_ok table b es kt vt :
  builder_ok table b es → BlockBuilder.type_mismatch b kt vt = negb (bool_decide (Some (kt, vt) = e_types <$> last es)).
Proof.
  intros Hb. unfold BlockBuilder.type_mismatch. rewrite (bo_index _ _ _ Hb), <-(bo_types _ _ _ Hb), <-tindex_last.
  destruct (last (tindex None (points 0 es))) as [r|]; [|done]. unfold types.
  rewrite <-negb_andb, <-bool_decide_and. f_equal. apply bool_decide_ext. naive_solver.
Qed.

(** The entry that [add] lays out behind [es]. *)
Definition next_entry (b : BlockBuilder.t) (mismatch : bool) (k : FullKey.t) (v : list byte) : entry :=
  let key := FullKey.encode_into_without_table_id k in
  let restart := (BlockBuilder.entry_count b mod BlockBuilder.restart_count b =? 0) || mismatch in
  Entry k v (if restart then key else bytes_diff_below_max_key_length (BlockBuilder.last_key b) key) restart.

Lemma next_entry_ok table b es k v :
  let key := FullKey.encode_into_without_table_id k in
  let mismatch := BlockBuilder.type_mismatch b (len_type (length key)) (len_type (length v)) in
  builder_ok table b es → fits (length key) → fits (length v) → is_uint 64 (FullKey.epoch_with_gap k) →
  entry_ok (next_entry b mismatch k v) ∧ linked (last es) (next_entry b mismatch k v).
Proof.
  intros key mismatch Hb Hk Hv He.
  destruct (bytes_diff_ok (BlockBuilder.last_key b) key) as (n & Hd & Hn1 & Hn2 & _ & Htake & _).
  unfold next_entry. fold key. set (restart := (_ =? 0) || mismatch). split.
  - split_and!; [done..| |done]. cbn [e_diff]. unfold enc. cbn [e_key]. fold key.
    destruct restart; [lia|]. rewrite Hd, length_drop. lia.
  - unfold linked. cbn [e_restart]. destruct restart eqn:Hr; [done|]. unfold restart in Hr.
    apply orb_false_iff in Hr as [_ Hm]. unfold mismatch in Hm. rewrite (type_mismatch_ok _ _ _ _ _ Hb) in Hm.
    apply negb_false_iff, bool_decide_eq_true_1 in Hm. destruct (last es) as [q|] eqn:Hlast; [|done].
    exists q. injection Hm as Hkt Hvt. split; [done|]. split; [done|]. split; [done|].
    unfold enc at 1 2. cbn [e_key e_diff]. fold key. rewrite Hd, length_drop.
    replace (length key - (length key - n)) with n by lia.
    rewrite (bo_last _ _ _ Hb), Hlast in Htake. cbn [from_option] in Htake. by rewrite Htake, take_drop.
Qed.

Lemma points_snoc es e :
  points 0 (es ++ [e]) = points 0 es ++ (if e_restart e then [point (length (bytes_of es)) e] else []).
Proof. rewrite points_app. simpl. by rewrite app_nil_r. Qed.

(** The builder after laying out [e]. *)
Definition extended (table : Z) (b : BlockBuilder.t) (mismatch : bool) e : BlockBuilder.t :=
  let n := length (BlockBuilder.buf b) in
  BlockBuilder.mk (BlockBuilder.buf b ++ entry_bytes e) (BlockBuilder.restart_count b)
    (BlockBuilder.restart_points b ++ (if e_restart e then [Z.of_nat n] else []))
    (enc e) (BlockBuilder.entry_count b + 1) (BlockBuilder.compression_algorithm b) (Some table)
    (BlockBuilder.restart_points_type_index b ++ (if e_restart e && mismatch then [point n e] else [])).

Lemma types_snoc table b es e :
  builder_ok table b es → linked (last es) e → last_types None (points 0 (es ++ [e])) = e_types <$> last (es ++ [e]).
Proof.
  intros Hb Hl. rewrite points_snoc, last_snoc. unfold linked in Hl. destruct (e_restart e).
  - unfold last_types. by rewrite last_snoc.
  - rewrite app_nil_r, (bo_types _ _ _ Hb). destruct Hl as (q & -> & E1 & E2 & _).
    simpl. unfold e_types. by rewrite E1, E2.
Qed.

Lemma extended_ok table b es e :
  let mismatch := BlockBuilder.type_mismatch b (e_kt e) (e_vt e) in
  builder_ok table b es → entry_ok e → linked (last es) e → UserKey.table_id (FullKey.user_key (e_key e)) = table →
  builder_ok table (extended table b mismatch e) (es ++ [e]).
Proof.
  intros mismatch Hb Hok Hl Ht. pose proof (types_snoc _ _ _ _ Hb Hl) as Htypes.
  pose proof (type_mismatch_ok _ _ _ (e_kt e) (e_vt e) Hb) as Hmm. fold mismatch in Hmm.
  rewrite <-(bo_types _ _ _ Hb) in Hmm. destruct Hb.
  unfold extended. split; cbn -[points bytes_of entry_bytes]; rewrite ?bo_buf0.
  - rewrite bytes_of_app. unfold bytes_of at 3. simpl. by rewrite app_nil_r.
  - rewrite points_snoc, fmap_app, bo_points0. by destruct (e_restart e).
  - rewrite points_snoc, tindex_app, bo_index0. destruct (e_restart e); [|done]. rewrite Hmm. f_equal. cbn.
    unfold types, point. cbn. by case_bool_decide.
  - by rewrite last_snoc.
  - rewrite length_app, bo_count0. done.
  - by destruct es.
  - done.
  - done.
  - apply Forall_app_2; [done|by apply Forall_singleton].
  - by apply chained_snoc.
Qed.

Lemma add_ok table b es k v :
  let key := FullKey.encode_into_without_table_id k in
  builder_ok table b es → UserKey.table_id (FullKey.user_key k) = table →
  fits (length key) → fits (length v) → is_uint 64 (FullKey.epoch_with_gap k) → fits (length (bytes_of es)) →
  ∃ b' e, BlockBuilder.add b k v = Ret b' ∧ builder_ok table b' (es ++ [e]) ∧ pair_of e = (k, v) ∧
    BlockBuilder.compression_algorithm b' = BlockBuilder.compression_algorithm b.
Proof.
  intros key Hb Ht Hk Hv He Hbuf. pose proof (next_entry_ok _ _ _ k v Hb Hk Hv He) as [Hok Hl].
  fold key in Hok, Hl. set (mm := BlockBuilder.type_mismatch b (len_type (length key)) (len_type (length v))) in *.
  exists (extended table b mm (next_entry b mm k v)), (next_entry b mm k v).
  split; [|by split; [apply extended_ok|]].
  unfold BlockBuilder.add. rewrite Ht. fold key. rewrite (len_type_new _ Hk), (len_type_new _ Hv), (bo_table _ _ _ Hb).
  replace (rassert (match match es with [] => None | _ => Some table end with Some id => (id =? table)%Z | None => true end))
    with (Ret tt) by (destruct es; [done|by rewrite Z.eqb_refl]).
  cbn [mbind outcome_bind]. rewrite (proj2 (Nat.eqb_neq _ 0) (bo_restart _ _ _ Hb)). cbn [mbind outcome_bind rassert negb].
  fold mm. unfold next_entry, extended. cbn [e_restart]. fold key. destruct ((_ =? 0) || mm).
  - rewrite (bo_buf _ _ _ Hb). unfold checked_into_u32. rewrite (proj2 (Z.leb_le _ _)) by (unfold u32_max; lia).
    cbn [mbind outcome_bind rassert]. destruct mm; [done|by rewrite app_nil_r].
  - cbn [mbind outcome_bind andb]. by rewrite !app_nil_r.
Qed.

(** ** Adding all entries *)

Definition add_all (b : BlockBuilder.t) (kvs : list (FullKey.t * list byte)) : outcome BlockBuilder.t :=
  rfold (λ b '(k, v), BlockBuilder.add b k v) kvs b.

(** An upper bound of what the entry takes in the block: header, key, value and its share of
    the restart points and the type index. *)
Definition entry_cost (kv : FullKey.t * list byte) : Z :=
  29 + Z.of_nat (length (UserKey.table_key (FullKey.user_key kv.1))) + Z.of_nat (length kv.2).
Definition total_cost (kvs : list (FullKey.t * list byte)) : Z := foldr (λ kv acc, entry_cost kv + acc)%Z 0%Z kvs.

Definition kv_ok (table : Z) (kv : FullKey.t * list byte) : Prop :=
  UserKey.table_id (FullKey.user_key kv.1) = table ∧ is_uint 64 (FullKey.epoch_with_gap kv.1).

Lemma length_enc k :
  length (FullKey.encode_into_without_table_id k) = length (UserKey.table_key (FullKey.user_key k)) + 8.
Proof. unfold FullKey.encode_into_without_table_id. by rewrite length_app, length_be_bytes. Qed.

Lemma total_cost_app kvs1 kvs2 : total_cost (kvs1 ++ kvs2) = (total_cost kvs1 + total_cost kvs2)%Z.
Proof. induction kvs1 as [|kv kvs1 IH]; [done|]. cbn [app total_cost foldr] in *. unfold total_cost in *. lia. Qed.

Lemma total_cost_pos kvs : (0 <= total_cost kvs)%Z.
Proof. induction kvs as [|kv kvs IH]; [done|]. cbn [total_cost foldr]. unfold total_cost, entry_cost in *. lia. Qed.

Lemma bytes_cost es :
  Forall entry_ok es → (Z.of_nat (length (bytes_of es) + 9 * length es) <= total_cost (pair_of <$> es))%Z.
Proof.
  induction 1 as [|e es (_ & _ & Hd & _) _ IH]; [done|]. change (bytes_of (e :: es)) with (entry_bytes e ++ bytes_of es).
  rewrite length_app, length_entry_bytes. unfold enc in Hd. rewrite length_enc in Hd.
  pose proof (header_len_bounds e). cbn [fmap list_fmap total_cost foldr length] in *. unfold total_cost, entry_cost in *.
  cbn [fst snd pair_of] in *. lia.
Qed.

Lemma chained_Forall es : chained es → Forall entry_ok es.
Proof. intros H. apply Forall_lookup. intros i e Hi. by apply (H i e). Qed.

Lemma add_all_ok table kvs : ∀ b es,
  builder_ok table b es → Forall (kv_ok table) kvs → (total_cost (pair_of <$> es) + total_cost kvs < 2 ^ 32)%Z →
  ∃ b' es', add_all b kvs = Ret b' ∧ builder_ok table b' (es ++ es') ∧ pair_of <$> es' = kvs ∧
    BlockBuilder.compression_algorithm b' = BlockBuilder.compression_algorithm b.
Proof.
  induction kvs as [|[k v] kvs IH]; intros b es Hb Hkvs Hcost.
  { exists b, []. by rewrite app_nil_r. }
  apply Forall_cons in Hkvs as [[Ht He] Hkvs]. cbn [fst] in Ht, He.
  pose proof (bytes_cost es (chained_Forall _ (bo_chained _ _ _ Hb))) as Hbytes.
  pose proof (total_cost_pos kvs). pose proof (total_cost_pos (pair_of <$> es)).
  cbn [total_cost foldr] in Hcost. fold (total_cost kvs) in Hcost. unfold entry_cost in Hcost. cbn [fst snd] in Hcost.
  pose proof (length_enc k) as Hlen.
  destruct (add_ok table b es k v Hb Ht) as (b1 & e & Hadd & Hb1 & Hpair & Halg); [lia..|done|lia|].
  destruct (IH b1 (es ++ [e]) Hb1 Hkvs) as (b' & es' & Hall & Hb' & Hes' & Halg').
  { rewrite fmap_app, total_cost_app. cbn [fmap list_fmap total_cost foldr]. rewrite Hpair. unfold entry_cost. cbn [fst snd]. lia. }
  exists b', (e :: es'). rewrite <-app_assoc in Hb'. split_and!; [|done|by csimpl; rewrite Hpair, Hes'|congruence].
  unfold add_all. cbn [rfold]. by rewrite Hadd.
Qed.

(** ** Decoding restart points *)

Definition offset_u32 (r : RestartPoint.t) : Prop := is_uint 32 (RestartPoint.offset r).

Lemma decode_index_ok rs :
  Forall offset_u32 rs → Block.decode_index (length rs) (concat (BlockBuilder.put_type_index <$> rs)) = Ret rs.
Proof.
  induction 1 as [|r rs Hr _ IH]; [done|]. cbn [length fmap list_fmap concat Block.decode_index].
  unfold BlockBuilder.put_type_index at 1. rewrite <-!app_assoc, get_le_put by (by apply pow256_of_u32).
  cbn [mbind outcome_bind]. destruct r as [off kt vt].
  assert (∀ rest, get_le 1 ([z2b (Z.lor (Z.shiftl (LenType.into kt) 4) (LenType.into vt))] ++ rest) =
    Ret (Z.lor (Z.shiftl (LenType.into kt) 4) (LenType.into vt), rest)) as ->.
  { intros rest. by destruct kt, vt. }
  cbn [mbind outcome_bind]. rewrite IH. by destruct kt, vt.
Qed.

Definition before_offset (r1 r2 : RestartPoint.t) : Prop := (RestartPoint.offset r1 < RestartPoint.offset r2)%Z.

Lemma tindex_subset cur rs r : r ∈ tindex cur rs → r ∈ rs.
Proof.
  revert cur. induction rs as [|x rs IH]; intros cur; [done|]. simpl.
  case_bool_decide; rewrite ?elem_of_cons; naive_solver.
Qed.

(** [idx] is the part of the type index consumed so far, its last element the current types. *)
Lemma decode_restarts_ok rs : ∀ idx c rest,
  StronglySorted before_offset rs → Forall offset_u32 rs →
  Block.decode_restarts (length rs) (idx ++ [c] ++ tindex (Some (types c)) rs) (length idx)
    (concat (le_bytes 4 <$> (RestartPoint.offset <$> rs)) ++ rest) = Ret rs.
Proof.
  induction rs as [|r rs IH]; intros idx c rest Hs Hu; [done|].
  apply StronglySorted_inv in Hs as [Hs Hlt]. apply Forall_cons in Hu as [Hr Hu].
  cbn [length fmap list_fmap concat Block.decode_restarts]. rewrite <-app_assoc, get_le_put by (by apply pow256_of_u32).
  cbn [mbind outcome_bind]. rewrite bool_decide_eq_false_2 by (by destruct idx). cbn [rassert negb mbind outcome_bind].
  rewrite !length_app. cbn [length tindex]. case_bool_decide as E.
  - injection E as E1 E2. match goal with |- context [if ?c then ?x else Ret false] => assert ((if c then x else Ret false) = Ret false) as -> end.
    { match goal with |- context [?a <? ?b] => destruct (Nat.ltb_spec a b) as [Hl|]; [|done] end.
      destruct (tindex (Some (types c)) rs) as [|x xs] eqn:Ex; [simpl in Hl; lia|].
      replace (length idx + 1) with (length (idx ++ [c]) + 0) by (rewrite length_app; done).
      rewrite app_assoc, lookup_app_r by lia. rewrite Nat.add_0_r, Nat.sub_diag. simpl.
      f_equal. apply Z.leb_gt. rewrite Forall_forall in Hlt. apply Hlt.
      apply (tindex_subset (Some (types c))). rewrite Ex. apply list_elem_of_here. }
    cbn [mbind outcome_bind]. rewrite lookup_app_r, Nat.sub_diag by lia. simpl.
    specialize (IH idx c rest Hs Hu). simpl in IH. rewrite IH. simpl. f_equal. f_equal. destruct r; simpl in *; congruence.
  - rewrite (proj2 (Nat.ltb_lt _ _)) by (simpl; lia).
    rewrite (app_assoc idx [c]). rewrite lookup_app_r by (rewrite length_app; simpl; lia).
    replace (length idx + 1 - length (idx ++ [c])) with 0 by (rewrite length_app; simpl; lia). simpl.
    rewrite Z.leb_refl. rewrite lookup_app_r by (rewrite length_app; simpl; lia).
    replace (length idx + 1 - length (idx ++ [c])) with 0 by (rewrite length_app; simpl; lia). simpl.
    specialize (IH (idx ++ [c]) r rest Hs Hu). rewrite length_app in IH. simpl in IH. rewrite IH. simpl. by destruct r.
Qed.

Lemma points_sorted off es : StronglySorted before_offset (points off es).
Proof.
  revert off. induction es as [|e es IH]; intros off; simpl; [constructor|].
  destruct (e_restart e); [|apply IH]. constructor; [apply IH|]. apply Forall_forall. intros r Hr%points_ge.
  unfold before_offset. simpl. pose proof (length_entry_bytes e). pose proof (header_len_bounds e). lia.
Qed.

Lemma length_points off es : length (points off es) ≤ length es.
Proof. revert off. induction es as [|e es IH]; intros off; [done|]. simpl. rewrite length_app.
  specialize (IH (off + length (entry_bytes e))). destruct (e_restart e); simpl; lia. Qed.

Lemma length_tindex cur rs : length (tindex cur rs) ≤ length rs.
Proof.
  revert cur. induction rs as [|r rs IH]; intros cur; simpl; [lia|].
  case_bool_decide; simpl; [specialize (IH cur)|specialize (IH (Some (types r)))]; lia.
Qed.

Lemma points_nonempty es : chained es → es ≠ [] → ∃ r rs, points 0 es = r :: rs.
Proof.
  intros Hc Hne. destruct es as [|e es]; [done|]. destruct (Hc 0 e eq_refl) as [_ Hl]. unfold linked in Hl.
  simpl. destruct (e_restart e); [by do 2 eexists|]. destruct Hl as (? & [=] & _).
Qed.

Lemma length_concat_const {A} (f : A → list byte) n xs :
  (∀ x, length (f x) = n) → length (concat (f <$> xs)) = length xs * n.
Proof. intros Hf. induction xs as [|x xs IH]; [done|]. cbn [fmap list_fmap concat length]. rewrite length_app, Hf, IH. lia. Qed.

Lemma length_put_type_index r : length (BlockBuilder.put_type_index r) = RestartPoint.size_of.
Proof. unfold BlockBuilder.put_type_index. by rewrite length_app, length_le_bytes. Qed.

(** A decoded block that holds the entries [es] of [table]. *)
Record holds (table : Z) es (blk : Block.t) : Prop := {
  h_data : take (Block.data_len blk) (Block.data_ blk) = bytes_of es;
  h_len : Block.data_len blk = length (bytes_of es);
  h_table : Block.table_id blk = table;
  h_points : Block.restart_points blk = points 0 es;
  h_same : Forall (λ e, UserKey.table_id (FullKey.user_key (e_key e)) = table) es;
  h_chained : chained es;
  h_nonempty : es ≠ []
}.

(** Decoding splits the buffer into its parts. *)
Lemma decode_from_raw_parts bs ps (np : nat) xs (ni : nat) table idx rs :
  let raw := bs ++ ps ++ le_bytes 4 (Z.of_nat np) ++ xs ++ le_bytes 4 (Z.of_nat ni) ++ le_bytes 4 table in
  length ps = np * 4 → length xs = ni * RestartPoint.size_of → fits np → fits ni → is_uint 32 table →
  Block.decode_index ni xs = Ret idx → Block.decode_restarts np idx 0 ps = Ret rs →
  Block.decode_from_raw raw = Ret (Block.mk raw (length bs) table rs).
Proof.
  intros raw Hps His Hnp Hni Ht Hidx Hrs.
  assert (length raw = length bs + length ps + 4 + length xs + 4 + 4) as Hlen.
  { unfold raw. rewrite !length_app, !length_le_bytes. lia. }
  assert (∀ z rest, is_uint 32 z → get_le 4 (le_bytes 4 z ++ rest) = Ret (z, rest)) as Hget.
  { intros z rest Hz. apply get_le_put. by apply pow256_of_u32. }
  assert (∀ z, is_uint 32 z → get_le 4 (le_bytes 4 z) = Ret (z, [])) as Hget0.
  { intros z Hz. apply get_le_all. by apply pow256_of_u32. }
  unfold Block.decode_from_raw. cbv zeta. rewrite (index_sub_ok (length raw) 4) by lia. cbn [mbind outcome_bind].
  rewrite (slice_parts _ _ _ (bs ++ ps ++ le_bytes 4 (Z.of_nat np) ++ xs ++ le_bytes 4 (Z.of_nat ni)) (le_bytes 4 table) []);
    [|by unfold raw; rewrite <-!app_assoc, app_nil_r|rewrite !length_app, !length_le_bytes; lia..].
  cbn [mbind outcome_bind]. rewrite Hget0 by done. cbn [mbind outcome_bind]. rewrite (index_sub_ok (length raw) 8) by lia. cbn [mbind outcome_bind].
  rewrite (slice_parts _ _ _ (bs ++ ps ++ le_bytes 4 (Z.of_nat np) ++ xs) (le_bytes 4 (Z.of_nat ni)) (le_bytes 4 table));
    [|by unfold raw; rewrite <-!app_assoc|rewrite !length_app, !length_le_bytes; lia..].
  cbn [mbind outcome_bind]. rewrite Hget0 by (unfold is_uint; lia). cbn [mbind outcome_bind]. rewrite Nat2Z.id, <-His.
  rewrite index_sub_ok by lia. cbn [mbind outcome_bind].
  rewrite (slice_parts _ _ _ (bs ++ ps ++ le_bytes 4 (Z.of_nat np)) xs (le_bytes 4 (Z.of_nat ni) ++ le_bytes 4 table));
    [|by unfold raw; rewrite <-!app_assoc|rewrite !length_app, !length_le_bytes; lia..].
  cbn [mbind outcome_bind]. rewrite Hidx. cbn [mbind outcome_bind]. rewrite index_sub_ok by lia. cbn [mbind outcome_bind].
  rewrite (slice_parts _ _ _ (bs ++ ps) (le_bytes 4 (Z.of_nat np) ++ xs ++ le_bytes 4 (Z.of_nat ni) ++ le_bytes 4 table) []);
    [|by unfold raw; rewrite <-!app_assoc, app_nil_r|rewrite !length_app, ?length_le_bytes; lia..].
  cbn [mbind outcome_bind]. rewrite Hget by (unfold is_uint; lia). cbn [mbind outcome_bind]. rewrite Nat2Z.id, <-Hps.
  rewrite index_sub_ok by lia. cbn [mbind outcome_bind].
  rewrite (slice_parts _ _ _ bs ps (le_bytes 4 (Z.of_nat np) ++ xs ++ le_bytes 4 (Z.of_nat ni) ++ le_bytes 4 table)); [|done|lia..].
  cbn [mbind outcome_bind]. rewrite Hrs. cbn [mbind outcome_bind]. f_equal. f_equal. lia.
Qed.

Section raw.
Context (table : Z) (b : BlockBuilder.t) (es : list entry).
Context (Hb : builder_ok table b es) (Hne : es ≠ []) (Htable : is_uint 32 table).
Context (Hfits : fits (BlockBuilder.uncompressed_block_size b)).

Abbreviation rs := (points 0 es).
Abbreviation idx := (tindex None (points 0 es)).

Definition raw_bytes : list byte :=
  bytes_of es ++ concat (le_bytes 4 <$> (RestartPoint.offset <$> rs)) ++ le_bytes 4 (Z.of_nat (length rs)) ++
  concat (BlockBuilder.put_type_index <$> idx) ++ le_bytes 4 (Z.of_nat (length idx)) ++ le_bytes 4 table.

Lemma size_ok :
  BlockBuilder.uncompressed_block_size b =
  length (bytes_of es) + (length rs + 1) * 4 + 5 * length idx + 4 + 4.
Proof.
  unfold BlockBuilder.uncompressed_block_size. rewrite (bo_buf _ _ _ Hb), (bo_points _ _ _ Hb), (bo_index _ _ _ Hb).
  by rewrite length_fmap.
Qed.

Lemma length_raw : length raw_bytes = BlockBuilder.uncompressed_block_size b.
Proof.
  rewrite size_ok. unfold raw_bytes. rewrite !length_app, !length_le_bytes.
  rewrite (length_concat_const (le_bytes 4) 4) by (intros; apply length_le_bytes).
  rewrite (length_concat_const _ _ _ length_put_type_index), length_fmap. unfold RestartPoint.size_of. lia.
Qed.

Lemma raw_block_ok : BlockBuilder.raw_block b = Ret raw_bytes.
Proof.
  unfold BlockBuilder.raw_block, checked_into_u32. pose proof size_ok as Hs.
  rewrite (bo_buf _ _ _ Hb), (bo_points _ _ _ Hb), (bo_index _ _ _ Hb), (bo_table _ _ _ Hb), length_fmap.
  rewrite !(proj2 (Z.leb_le _ _)) by (unfold u32_max; lia). cbn [mbind outcome_bind rassert].
  by replace (match es with [] => None | _ => Some table end) with (Some table) by (by destruct es).
Qed.

Lemma rs_u32 : Forall offset_u32 rs.
Proof.
  apply Forall_forall. intros r Hr%points_ge. pose proof size_ok as Hs. unfold offset_u32, is_uint. lia.
Qed.

Lemma decode_restarts_all rest :
  Block.decode_restarts (length rs) idx 0 (concat (le_bytes 4 <$> (RestartPoint.offset <$> rs)) ++ rest) = Ret rs.
Proof.
  destruct (points_nonempty es (bo_chained _ _ _ Hb) Hne) as (r & l & E).
  pose proof (points_sorted 0 es) as Hs. pose proof rs_u32 as Hu. rewrite E in *.
  pose proof (decode_restarts_ok (r :: l) [] r rest Hs Hu) as H. cbn [app tindex length] in H |- *.
  rewrite bool_decide_eq_true_2 in H by done. by rewrite bool_decide_eq_false_2 by done.
Qed.

Lemma tindex_u32 : Forall offset_u32 idx.
Proof. pose proof rs_u32 as H. rewrite Forall_forall in H |- *. intros r Hr%tindex_subset. by apply H. Qed.

Lemma decode_from_raw_ok : ∃ blk, Block.decode_from_raw raw_bytes = Ret blk ∧ holds table es blk.
Proof.
  pose proof size_ok as Hs.
  exists (Block.mk raw_bytes (length (bytes_of es)) table rs). split.
  - apply decode_from_raw_parts with (idx := idx); [|..|done| |].
    + rewrite (length_concat_const (le_bytes 4) 4) by (intros; apply length_le_bytes). by rewrite length_fmap.
    + apply length_concat_const, length_put_type_index.
    + lia.
    + lia.
    + apply decode_index_ok, tindex_u32.
    + rewrite <-(app_nil_r (concat _)). apply decode_restarts_all.
  - split; try done.
    + unfold raw_bytes. simpl. by rewrite take_app_length.
    + exact (bo_same _ _ _ Hb).
    + exact (bo_chained _ _ _ Hb).
Qed.
End raw.

(** ** Checksum and compression *)

Section sealed.
Context (xxh64 : list byte → Z) (decompress : CompressionAlgorithm.t → list byte → option (list byte)).
Context (xxh64_u64 : ∀ l, is_uint 64 (xxh64 l)).

Abbreviation sealed algorithm d := (BlockBuilder.seal xxh64 algorithm d).

Lemma length_seal algorithm d : length (sealed algorithm d) = length d + 9.
Proof. unfold BlockBuilder.seal. rewrite !length_app, length_le_bytes. destruct algorithm; simpl; lia. Qed.

Lemma body_parts body c :
  let buf := body ++ le_bytes 8 c in
  index_sub (length buf) 8 = Ret (length body) ∧
  slice buf (length body) (length buf) = Ret (le_bytes 8 c) ∧ slice buf 0 (length body) = Ret body.
Proof.
  intros buf. assert (length buf = length body + 8) as Hl by (unfold buf; by rewrite length_app, length_le_bytes).
  split_and!.
  - rewrite index_sub_ok by lia. f_equal. lia.
  - apply (slice_parts _ _ _ body _ []); [by rewrite app_nil_r|done|]. rewrite length_le_bytes. lia.
  - by apply (slice_parts _ _ _ [] body (le_bytes 8 c)).
Qed.

Lemma algorithm_parts d a c :
  let buf := (d ++ [a]) ++ le_bytes 8 c in
  slice buf 0 (length buf - 9) = Ret d ∧ Block.get_algorithm buf = Ret (decode_algorithm a).
Proof.
  intros buf. assert (length buf = length d + 9) as Hl by (unfold buf; rewrite !length_app, length_le_bytes; simpl; lia).
  assert (buf = d ++ [a] ++ le_bytes 8 c) as Hbuf by (unfold buf; by rewrite <-app_assoc). split.
  - apply (slice_parts _ _ _ [] d ([a] ++ le_bytes 8 c)); [done|done|simpl; lia].
  - unfold Block.get_algorithm. rewrite index_sub_ok by lia. cbn [mbind outcome_bind].
    by rewrite (slice_parts _ _ _ d [a] (le_bytes 8 c)); [|done|lia|simpl; lia].
Qed.

Lemma seal_parts algorithm d :
  let buf := sealed algorithm d in
  let body := d ++ CompressionAlgorithm.encode algorithm in
  index_sub (length buf) 8 = Ret (length body) ∧
  slice buf (length body) (length buf) = Ret (le_bytes 8 (xxh64 body)) ∧
  slice buf 0 (length body) = Ret body ∧
  slice buf 0 (length buf - 9) = Ret d ∧
  Block.get_algorithm buf = Ret (inr algorithm).
Proof.
  intros buf body. destruct (body_parts body (xxh64 body)) as (E1 & E2 & E3).
  split_and!; [done..| |]; unfold buf, BlockBuilder.seal; fold body.
  - by destruct algorithm; apply algorithm_parts.
  - destruct algorithm; [exact (proj2 (algorithm_parts d Byte.x00 _))|exact (proj2 (algorithm_parts d Byte.x01 _))|
      exact (proj2 (algorithm_parts d Byte.x02 _))].
Qed.

Lemma decode_seal algorithm d raw capacity :
  (if bool_decide (algorithm = CompressionAlgorithm.None_) then d = raw else decompress algorithm d = Some raw) →
  length raw = capacity →
  Block.decode xxh64 decompress (sealed algorithm d) capacity = inr <$> Block.decode_from_raw raw.
Proof.
  intros Hd Hc. destruct (seal_parts algorithm d) as (E1 & E2 & E3 & E4 & E5).
  unfold Block.decode. rewrite E1. cbn [mbind outcome_bind]. rewrite E2. cbn [mbind outcome_bind].
  rewrite get_le_all by (apply pow256_of_u64, xxh64_u64). cbn [mbind outcome_bind].
  rewrite E3. cbn [mbind outcome_bind]. unfold Block.xxhash64_verify. rewrite Z.eqb_refl, E5. cbn [mbind outcome_bind].
  destruct algorithm; rewrite E4; cbn [mbind outcome_bind].
  - rewrite bool_decide_eq_true_2 in Hd by done. by subst.
  - rewrite bool_decide_eq_false_2 in Hd by done. by rewrite Hd, Hc, Nat.eqb_refl.
  - rewrite bool_decide_eq_false_2 in Hd by done. by rewrite Hd, Hc, Nat.eqb_refl.
Qed.
End sealed.

(** Lossless compressors whose output is at most about twice the input; a checksum of
    64 bits. *)
Class Codec (xxh64 : list byte → Z) (compress : CompressionAlgorithm.t → list byte → list byte)
    (decompress : CompressionAlgorithm.t → list byte → option (list byte)) : Prop := {
  codec_xxh64 l : is_uint 64 (xxh64 l);
  codec_lossless a d : decompress a (compress a d) = Some d;
  codec_bound a d : length (compress a d) ≤ 2 * length d + 1000
}.

Section codec.
Context `{HC : Codec xxh64 compress decompress}.

Lemma size_cost table b es :
  builder_ok table b es →
  (Z.of_nat (BlockBuilder.uncompressed_block_size b) <= total_cost (pair_of <$> es) + 12)%Z.
Proof.
  intros Hb. rewrite (size_ok table b es Hb). pose proof (bytes_cost es (chained_Forall _ (bo_chained _ _ _ Hb))).
  pose proof (length_points 0 es). pose proof (length_tindex None (points 0 es)). lia.
Qed.

(** A built block decodes to a block that holds the entries. *)
Lemma build_decode_ok table b es :
  builder_ok table b es → es ≠ [] → is_uint 32 table → (total_cost (pair_of <$> es) < 2 ^ 31 - 1024)%Z →
  ∃ b' buf blk, BlockBuilder.build xxh64 compress b = Ret (b', buf) ∧ builder_ok table (BlockBuilder.clear b') [] ∧
    Block.decode xxh64 decompress buf (BlockBuilder.uncompressed_block_size b) = Ret (inr blk) ∧ holds table es blk.
Proof.
  intros Hb Hne Ht Hcost. pose proof (size_cost table b es Hb) as Hsize.
  assert (fits (BlockBuilder.uncompressed_block_size b)) as Hfits by lia.
  pose proof (length_raw table b es Hb) as Hraw.
  destruct (decode_from_raw_ok table b es Hb Hne Ht Hfits) as (blk & Hdec & Hholds).
  unfold BlockBuilder.build. rewrite (bo_count _ _ _ Hb).
  replace (length es =? 0) with false by (by destruct es).
  rewrite (raw_block_ok table b es Hb Hne Hfits). cbn [mbind outcome_bind rassert negb].
  set (alg := BlockBuilder.compression_algorithm b).
  set (d := if bool_decide (alg = CompressionAlgorithm.None_) then raw_bytes table es else compress alg (raw_bytes table es)).
  assert (length d ≤ 2 * length (raw_bytes table es) + 1000) as Hd.
  { unfold d. case_bool_decide; [lia|apply codec_bound]. }
  rewrite (proj2 (Z.ltb_lt _ u32_max)) by (rewrite length_seal; unfold u32_max; lia). cbn [mbind outcome_bind rassert].
  eexists _, _, blk. split; [reflexivity|]. split; [by split; try done; exact (bo_restart _ _ _ Hb)|]. split; [|done].
  rewrite (decode_seal xxh64 decompress codec_xxh64 alg d (raw_bytes table es)); [by rewrite Hdec| |done].
  unfold d. case_bool_decide; [done|apply codec_lossless].
Qed.

(** Recompressing an uncompressed block keeps its content. *)
Lemma compress_block_ok algorithm raw :
  algorithm ≠ CompressionAlgorithm.None_ →
  ∃ buf, Block.compress_block xxh64 compress (BlockBuilder.seal xxh64 CompressionAlgorithm.None_ raw) algorithm = Ret (inr buf) ∧
    Block.decode xxh64 decompress buf (length raw) = inr <$> Block.decode_from_raw raw.
Proof.
  intros Ha. exists (BlockBuilder.seal xxh64 algorithm (compress algorithm raw)). split.
  - destruct (seal_parts xxh64 CompressionAlgorithm.None_ raw) as (E1 & E2 & E3 & E4 & E5).
    unfold Block.compress_block. rewrite E1. cbn [mbind outcome_bind]. rewrite E2. cbn [mbind outcome_bind].
    rewrite get_le_all by (apply pow256_of_u64, codec_xxh64). cbn [mbind outcome_bind].
    rewrite E3. cbn [mbind outcome_bind]. unfold Block.xxhash64_verify. rewrite Z.eqb_refl, E5. cbn [mbind outcome_bind].
    rewrite E4. cbn [mbind outcome_bind]. by rewrite bool_decide_eq_false_2.
  - apply decode_seal; [exact codec_xxh64| |done]. rewrite bool_decide_eq_false_2 by done. apply codec_lossless.
Qed.
End codec.

(** A checksum and identity compressors, as an instance of the interface. *)
#[export] Instance identity_codec : Codec (λ l, Z.of_nat (length l) mod 2 ^ 64)%Z (λ _ d, d) (λ _ d, Some d).
Proof. split; [intros l; apply Z.mod_pos_bound; lia|done|intros; lia]. Qed.

(** Errors of block decoding.  A buffer shorter than the checksum panics; otherwise, if
    the stored checksum is not that of the data, [decode] reports [ChecksumMismatch] with the
    stored and the computed sum, whatever the rest holds; with a matching checksum, an unknown
    algorithm byte and data that does not decompress are [DecodeError]s, and decompressed data
    of another size than the expected capacity panics. *)
Theorem block_decode_errors xxh64 decompress (buf : list byte) (capacity : nat) :
  (∀ l, is_uint 64 (xxh64 l)) →
  (length buf < 8 → Block.decode xxh64 decompress buf capacity = Panic) ∧
  (∀ body c, is_uint 64 c → buf = body ++ le_bytes 8 c → c ≠ xxh64 body →
     Block.decode xxh64 decompress buf capacity = Ret (inl (ChecksumMismatch c (xxh64 body)))) ∧
  (∀ d a, buf = d ++ [a] ++ le_bytes 8 (xxh64 (d ++ [a])) →
     match decode_algorithm a with
     | inl e => Block.decode xxh64 decompress buf capacity = Ret (inl e) ∧ e = DecodeError
     | inr CompressionAlgorithm.None_ => Block.decode xxh64 decompress buf capacity = inr <$> Block.decode_from_raw d
     | inr algorithm =>
         match decompress algorithm d with
         | None => Block.decode xxh64 decompress buf capacity = Ret (inl DecodeError)
         | Some raw => length raw ≠ capacity → Block.decode xxh64 decompress buf capacity = Panic
         end
     end).
Proof.
  intros Hx. split_and!.
  - intros Hl. unfold Block.decode, index_sub. by rewrite (proj2 (Nat.leb_gt _ _)).
  - intros body c Hc -> Hne. destruct (body_parts body c) as (E1 & E2 & E3).
    unfold Block.decode. rewrite E1. cbn [mbind outcome_bind]. rewrite E2. cbn [mbind outcome_bind].
    rewrite get_le_all by (by apply pow256_of_u64). cbn [mbind outcome_bind].
    rewrite E3. cbn [mbind outcome_bind]. unfold Block.xxhash64_verify. by rewrite (proj2 (Z.eqb_neq _ _)) by congruence.
  - intros d a ->. rewrite app_assoc. set (body := d ++ [a]). destruct (body_parts body (xxh64 body)) as (E1 & E2 & E3).
    destruct (algorithm_parts d a (xxh64 body)) as [E4 E5]. fold body in E4, E5.
    unfold Block.decode. rewrite E1. cbn [mbind outcome_bind]. rewrite E2. cbn [mbind outcome_bind].
    rewrite get_le_all by (apply pow256_of_u64, Hx). cbn [mbind outcome_bind].
    rewrite E3. cbn [mbind outcome_bind]. unfold Block.xxhash64_verify. rewrite Z.eqb_refl, E5, E4.
    cbn [mbind outcome_bind]. destruct (decode_algorithm a) as [e|[]] eqn:Ea; [|done|..].
    + split; [done|]. revert Ea. unfold decode_algorithm. by destruct a; intros [= <-].
    + destruct (decompress _ d); [|done]. intros Hne%Nat.eqb_neq. by rewrite Hne.
    + destruct (decompress _ d); [|done]. intros Hne%Nat.eqb_neq. by rewrite Hne.
Qed.

Lemma block_decode_errors_witness :
  Block.decode (λ _, 7%Z) (λ _ d, Some d) ([Byte.x61] ++ le_bytes 8 5) 1 = Ret (inl (ChecksumMismatch 5 7)).
Proof.
  assert (∀ l : list byte, is_uint 64 ((λ _, 7%Z) l)) as Hx by (intros; split; vm_compute; done).
  destruct (block_decode_errors (λ _, 7%Z) (λ _ d, Some d) ([Byte.x61] ++ le_bytes 8 5) 1 Hx) as (_ & H & _).
  apply (H [Byte.x61] 5%Z); [split; vm_compute; done|done|done].
Defined.
