(* ===== verification/BlockIterSpec.v ===== *)
(** * Iterating over blocks

    [BlockIterator] ([Block.v]) over a block that holds given entries ([BlockSpec.v]): moving
    forwards and backwards visits exactly the entries, and [seek] and [seek_le] find the first
    entry not below and the last entry not above a key. *)

From Stdlib Require Import ZArith Lia.
From S2P Require Import Prelude Order Bytes Epoch Bits Bitmap Vnode Key KeySpec KeyOrder KeyRange Sst SstSpec Block BlockSpec.

Implicit Types (e : entry) (es : list entry).

(** ** Positions *)

(** The offset of entry [i] and the number of restart points before it. *)
Definition off es (i : nat) : nat := length (bytes_of (take i es)).
Definition restarts es (i : nat) : nat := length (points 0 (take i es)).

Lemma bytes_of_lookup es i e :
  es !! i = Some e → bytes_of es = bytes_of (take i es) ++ entry_bytes e ++ bytes_of (drop (S i) es).
Proof. intros Hi. rewrite <-(take_drop_middle es i e Hi) at 1. by rewrite bytes_of_app. Qed.

Lemma off_S es i e : es !! i = Some e → off es (S i) = off es i + length (entry_bytes e).
Proof.
  intros Hi. unfold off. rewrite (take_S_r _ _ _ Hi), bytes_of_app, length_app. f_equal.
  unfold bytes_of. simpl. by rewrite app_nil_r.
Qed.

Lemma off_end es : off es (length es) = length (bytes_of es).
Proof. unfold off. by rewrite take_ge by lia. Qed.

Lemma entry_bytes_pos e : 3 ≤ length (entry_bytes e).
Proof. rewrite length_entry_bytes. pose proof (header_len_bounds e). lia. Qed.

Lemma off_lt es i j : i < j → j ≤ length es → off es i < off es j.
Proof.
  intros Hij Hj. induction j as [|j IH]; [lia|]. destruct (lookup_lt_is_Some_2 es j ltac:(lia)) as [e He].
  rewrite (off_S _ _ _ He). pose proof (entry_bytes_pos e). destruct (decide (i = j)) as [->|]; [lia|]. lia.
Qed.

Lemma off_le es i : i ≤ length es → i ≤ off es i.
Proof. intros Hi. induction i as [|i IH]; [lia|]. pose proof (off_lt es i (S i)). lia. Qed.

Lemma points_lookup es i e :
  es !! i = Some e →
  points 0 es = points 0 (take i es) ++ (if e_restart e then [point (off es i) e] else []) ++ points (off es (S i)) (drop (S i) es).
Proof.
  intros Hi. rewrite <-(take_drop_middle es i e Hi) at 1. rewrite points_app. cbn [points]. by rewrite (off_S _ _ _ Hi).
Qed.

Lemma restarts_S es i e : es !! i = Some e → restarts es (S i) = restarts es i + (if e_restart e then 1 else 0).
Proof.
  intros Hi. unfold restarts. rewrite (take_S_r _ _ _ Hi), points_snoc, length_app. by destruct (e_restart e).
Qed.

Lemma restarts_end es : restarts es (length es) = length (points 0 es).
Proof. unfold restarts. by rewrite take_ge by lia. Qed.

(** The restart point at a restart entry. *)
Lemma point_at es i e : es !! i = Some e → e_restart e = true → points 0 es !! restarts es i = Some (point (off es i) e).
Proof. intros Hi He. rewrite (points_lookup es i e Hi), He. unfold restarts. by rewrite lookup_app_r, Nat.sub_diag by lia. Qed.

(** The next restart point behind entry [i] is at [i + 1] exactly when that entry restarts. *)
Lemma next_point es i e r :
  es !! i = Some e → e_restart e = false → points 0 es !! restarts es i = Some r →
  (Z.of_nat (off es i) < RestartPoint.offset r)%Z.
Proof.
  intros Hi He Hr. rewrite (points_lookup es i e Hi), He in Hr. unfold restarts in Hr.
  rewrite lookup_app_r, Nat.sub_diag in Hr by lia. apply list_elem_of_lookup_2, points_ge in Hr.
  pose proof (off_S _ _ _ Hi). pose proof (entry_bytes_pos e). lia.
Qed.

(** The restart entry whose interval holds the entry before [i]. *)
Lemma restart_before es i :
  chained es → 0 < i ≤ length es →
  ∃ j e, j < i ∧ es !! j = Some e ∧ e_restart e = true ∧ restarts es i = S (restarts es j).
Proof.
  intros Hc. induction i as [|i IH]; [lia|]. intros Hi. destruct (lookup_lt_is_Some_2 es i ltac:(lia)) as [e He].
  pose proof (restarts_S _ _ _ He) as HS. destruct (e_restart e) eqn:Er.
  - exists i, e. split_and!; [lia|done..|lia].
  - destruct i as [|i].
    + destruct (Hc 0 e He) as [_ Hl]. unfold linked in Hl. rewrite Er in Hl. destruct Hl as (? & [=] & _).
    + destruct IH as (j & e' & Hj & He' & Hr & Hs); [lia|]. exists j, e'. split_and!; [lia|done..|lia].
Qed.

(** Every restart point belongs to a restart entry. *)
Lemma point_entry es m r :
  points 0 es !! m = Some r →
  ∃ j e, es !! j = Some e ∧ e_restart e = true ∧ restarts es j = m ∧ r = point (off es j) e.
Proof.
  intros Hr. assert (∀ i, i ≤ length es → m < restarts es i →
    ∃ j e, es !! j = Some e ∧ e_restart e = true ∧ restarts es j = m) as Hex.
  { intros i. induction i as [|i IH]; [by unfold restarts; simpl; lia|]. intros Hi Hm.
    destruct (lookup_lt_is_Some_2 es i ltac:(lia)) as [e He]. pose proof (restarts_S _ _ _ He) as HS.
    destruct (decide (m < restarts es i)); [apply IH; lia|].
    destruct (e_restart e) eqn:Er; [|lia]. exists i, e. split_and!; [done|done|lia]. }
  destruct (Hex (length es) (Nat.le_refl _)) as (j & e & He & Her & Hj).
  { rewrite restarts_end. by apply lookup_lt_Some in Hr. }
  exists j, e. split_and!; [done..|]. rewrite <-Hj, (point_at es j e He Her) in Hr. by injection Hr.
Qed.

Lemma partition_point_before {A} (p : A → bool) xs i x :
  xs !! i = Some x → i < partition_point p xs → p x = true.
Proof.
  revert i. induction xs as [|y xs IH]; intros i Hi; [done|]. simpl. destruct (p y) eqn:Ey; [|lia].
  destruct i as [|i]; simpl in Hi; [congruence|]. intros Hlt. apply (IH i); [done|lia].
Qed.

Definition key_lt (k1 k2 : FullKey.t) : Prop := FullKey.cmp k1 k2 = Lt.

Lemma sorted_keys es i j e e' :
  StronglySorted key_lt (e_key <$> es) → i < j → es !! i = Some e → es !! j = Some e' → key_lt (e_key e) (e_key e').
Proof.
  intros Hs Hij Hi Hj. apply (sorted_lookup key_lt (e_key <$> es) i j); [done..| |]; rewrite list_lookup_fmap.
  - by rewrite Hi.
  - by rewrite Hj.
Qed.

(** The entries visited by repeating [step] while the iterator is valid. *)
Fixpoint scan (step : BlockIterator.t → outcome BlockIterator.t) (fuel : nat) (it : BlockIterator.t)
  : outcome (list (FullKey.t * list byte)) :=
  match fuel with
  | O => Panic
  | S fuel =>
      valid ← BlockIterator.is_valid it;
      if (valid : bool) then
        k ← BlockIterator.key it; v ← BlockIterator.value it;
        it ← step it; rest ← scan step fuel it;
        Ret ((k, v) :: rest)
      else Ret []
  end.

(** ** The iterator at an entry *)

Lemma decode_enc_ok table es i e :
  Forall (λ e, UserKey.table_id (FullKey.user_key (e_key e)) = table) es → chained es → es !! i = Some e →
  FullKey.from_slice_without_table_id table (enc e) = Ret (e_key e).
Proof.
  intros Hs Hc Hi. destruct (Hc i e Hi) as [(_ & _ & _ & He) _]. rewrite Forall_lookup in Hs. specialize (Hs i e Hi).
  unfold FullKey.from_slice_without_table_id, enc, FullKey.encode_into_without_table_id.
  rewrite split_epoch_encoded by done. cbn [mbind outcome_bind]. rewrite <-Hs. by destruct (e_key e) as [[]].
Qed.

Section iter.
Context (table : Z) (es : list entry) (blk : Block.t) (H : holds table es blk).

(** The iterator at entry [i]; every field is determined. *)
Definition cursor (i : nat) e : BlockIterator.t :=
  BlockIterator.mk blk (Z.of_nat (restarts es (S i)) - 1) (Z.of_nat (off es i)) (enc e)
    (off es i + header_len e + length (e_diff e), off es (S i)) (length (entry_bytes e)) (e_kt e) (e_vt e).

(** The iterator after [invalidate]. *)
Definition exhausted (kt vt : LenType.t) : BlockIterator.t :=
  BlockIterator.mk blk (Z.of_nat (length (points 0 es))) (Z.of_nat (length (bytes_of es))) [] (0, 0) 0 kt vt.

Lemma data_ok : Block.data blk = Ret (bytes_of es).
Proof.
  destruct H as [Hd Hl _ _ _ _ _]. unfold Block.data, slice. cbn [Nat.leb andb].
  assert (Block.data_len blk ≤ length (Block.data_ blk)) as Hle.
  { apply (f_equal length) in Hd. rewrite length_take in Hd. lia. }
  rewrite (proj2 (Nat.leb_le _ _) Hle), drop_0, Nat.sub_0_r. by rewrite Hd.
Qed.

Lemma len_ok : Block.len blk = Ret (length (bytes_of es)).
Proof.
  destruct H as [Hd Hl _ _ _ _ Hne]. unfold Block.len. rewrite bool_decide_eq_false_2; [by rewrite Hl|].
  intros E. rewrite E, take_nil in Hd. destruct es as [|e es']; [done|].
  pose proof (entry_bytes_pos e). unfold bytes_of in Hd. cbn in Hd. destruct (entry_bytes e); simpl in *; [lia|done].
Qed.

Lemma restart_point_ok i e :
  es !! i = Some e → e_restart e = true → Block.restart_point blk (restarts es i) = Ret (point (off es i) e).
Proof. intros Hi He. unfold Block.restart_point. by rewrite (h_points _ _ _ H), (point_at es i e). Qed.

(** ** Decoding an entry *)

Lemma key_prefix_decode e (o : nat) rest :
  entry_ok e →
  KeyPrefix.decode (header e ++ rest) o (e_kt e) (e_vt e) =
  Ret (KeyPrefix.mk (length (enc e) - length (e_diff e)) (length (e_diff e)) (length (e_val e)) o (header_len e)).
Proof.
  intros (Hk & Hv & Hd & _). unfold KeyPrefix.decode, header, LenType.put2, LenType.get2, e_kt, e_vt.
  rewrite <-!app_assoc, len_type_put_get by (done || lia). cbn [mbind outcome_bind].
  rewrite len_type_put_get by (done || lia). cbn [mbind outcome_bind].
  by rewrite len_type_put_get by (done || lia).
Qed.

Section entry.
Context (i : nat) (e : entry) (Hi : es !! i = Some e).

Lemma decode_prefix_at_ok it :
  BlockIterator.block it = blk →
  BlockIterator.decode_prefix_at it (off es i) (e_kt e) (e_vt e) =
  Ret (KeyPrefix.mk (length (enc e) - length (e_diff e)) (length (e_diff e)) (length (e_val e)) (off es i) (header_len e)).
Proof.
  intros Hb. unfold BlockIterator.decode_prefix_at. rewrite Hb, data_ok. cbn [mbind outcome_bind].
  rewrite (slice_parts _ _ _ (bytes_of (take i es)) (entry_bytes e ++ bytes_of (drop (S i) es)) []).
  - cbn [mbind outcome_bind]. unfold entry_bytes. rewrite <-app_assoc.
    apply key_prefix_decode. by apply (h_chained _ _ _ H i).
  - by rewrite app_nil_r, (bytes_of_lookup es i e Hi) at 1.
  - done.
  - by rewrite (bytes_of_lookup es i e Hi) at 1; rewrite length_app.
Qed.

Lemma slice_diff :
  slice (bytes_of es) (off es i + header_len e) (off es i + header_len e + length (e_diff e)) = Ret (e_diff e).
Proof.
  apply (slice_parts _ _ _ (bytes_of (take i es) ++ header e) _ (e_val e ++ bytes_of (drop (S i) es))).
  - rewrite (bytes_of_lookup es i e Hi) at 1. unfold entry_bytes. by rewrite <-!app_assoc.
  - by rewrite length_app, length_header.
  - by rewrite length_app, length_header.
Qed.

Lemma slice_value :
  slice (bytes_of es) (off es i + header_len e + length (e_diff e)) (off es (S i)) = Ret (e_val e).
Proof.
  apply (slice_parts _ _ _ (bytes_of (take i es) ++ header e ++ e_diff e) _ (bytes_of (drop (S i) es))).
  - rewrite (bytes_of_lookup es i e Hi) at 1. unfold entry_bytes. by rewrite <-!app_assoc.
  - rewrite !length_app, length_header. unfold off. lia.
  - rewrite (off_S _ _ _ Hi), length_entry_bytes, !length_app, length_header. unfold off. lia.
Qed.

Lemma cursor_valid : BlockIterator.is_valid (cursor i e) = Ret true.
Proof.
  unfold BlockIterator.is_valid. cbn [BlockIterator.block cursor]. rewrite len_ok. cbn [mbind outcome_bind BlockIterator.offset cursor].
  rewrite (proj2 (Z.ltb_lt _ _)); [done|]. rewrite <-off_end. pose proof (lookup_lt_Some _ _ _ Hi) as Hlt.
  pose proof (off_lt es i (length es) Hlt (Nat.le_refl _)). lia.
Qed.

Lemma cursor_key : BlockIterator.key (cursor i e) = Ret (e_key e).
Proof.
  unfold BlockIterator.key. rewrite cursor_valid. cbn [mbind outcome_bind rassert BlockIterator.key_ cursor].
  unfold BlockIterator.table_id. cbn [BlockIterator.block cursor]. rewrite (h_table _ _ _ H).
  apply decode_enc_ok with (es := es) (i := i); [exact (h_same _ _ _ H)|exact (h_chained _ _ _ H)|done].
Qed.

Lemma cursor_value : BlockIterator.value (cursor i e) = Ret (e_val e).
Proof.
  unfold BlockIterator.value. rewrite cursor_valid. cbn [mbind outcome_bind rassert BlockIterator.block cursor].
  rewrite data_ok. cbn [mbind outcome_bind BlockIterator.value_range cursor fst snd]. apply slice_value.
Qed.
End entry.

(** ** Moving *)

Lemma seek_index_ok it i e :
  BlockIterator.block it = blk → es !! i = Some e → e_restart e = true →
  BlockIterator.seek_restart_point_by_index it (restarts es i) = Ret (cursor i e).
Proof.
  intros Hb Hi He. unfold BlockIterator.seek_restart_point_by_index. rewrite Hb, (restart_point_ok i e Hi He).
  cbn [mbind outcome_bind point RestartPoint.offset RestartPoint.key_len_type RestartPoint.value_len_type].
  rewrite Nat2Z.id, (decode_prefix_at_ok i e Hi it Hb). cbn [mbind outcome_bind]. rewrite data_ok.
  cbn [mbind outcome_bind KeyPrefix.diff_key_range fst snd KeyPrefix.offset KeyPrefix.len KeyPrefix.diff].
  rewrite (slice_diff i e Hi). cbn [mbind outcome_bind]. unfold BlockIterator.update_restart_point.
  cbn [BlockIterator.block]. rewrite (restart_point_ok i e Hi He). cbn [mbind outcome_bind]. f_equal.
  destruct (h_chained _ _ _ H i e Hi) as [_ Hl]. unfold linked in Hl. rewrite He in Hl.
  pose proof (restarts_S _ _ _ Hi) as HS. rewrite He in HS. pose proof (length_entry_bytes e) as Hlen.
  unfold cursor, KeyPrefix.value_range, KeyPrefix.entry_len. cbn. rewrite <-Hl.
  rewrite (off_S _ _ _ Hi), Hlen. f_equal; [lia|f_equal; lia].
Qed.

(** Crossing into the interval of entry [i + 1], if it starts one. *)
Lemma cross_restart i e e' :
  es !! i = Some e → es !! S i = Some e' →
  (let index := (BlockIterator.restart_point_index (cursor i e) + 1)%Z in
   if (index <? Z.of_nat (Block.restart_point_len blk))%Z then
     r ← Block.restart_point blk (Z.to_nat index);
     if (RestartPoint.offset r <=? Z.of_nat (off es (S i)))%Z
     then BlockIterator.update_restart_point (cursor i e) (Z.to_nat index) else Ret (cursor i e)
   else Ret (cursor i e)) =
  Ret (BlockIterator.mk blk (Z.of_nat (restarts es (S (S i))) - 1) (Z.of_nat (off es i)) (enc e)
    (off es i + header_len e + length (e_diff e), off es (S i)) (length (entry_bytes e)) (e_kt e') (e_vt e')).
Proof.
  intros Hi Hi'. cbn [BlockIterator.restart_point_index cursor]. rewrite Z.sub_add, Nat2Z.id.
  unfold Block.restart_point_len. rewrite (h_points _ _ _ H). pose proof (restarts_S _ _ _ Hi') as HS.
  destruct (h_chained _ _ _ H (S i) e' Hi') as [_ Hl]. unfold linked in Hl. destruct (e_restart e') eqn:Er.
  - pose proof (point_at es (S i) e' Hi' Er) as Hp. apply lookup_lt_Some in Hp as Hlt.
    rewrite (proj2 (Z.ltb_lt _ _)), (restart_point_ok (S i) e' Hi' Er) by lia.
    cbn [mbind outcome_bind RestartPoint.offset point]. rewrite Z.leb_refl.
    unfold BlockIterator.update_restart_point. cbn [BlockIterator.block cursor].
    rewrite (restart_point_ok (S i) e' Hi' Er). cbn [mbind outcome_bind]. unfold cursor. cbn. f_equal. f_equal. lia.
  - destruct Hl as (q & Hq & E1 & E2 & _). cbn [prev_of] in Hq. rewrite Hi in Hq. injection Hq as <-.
    rewrite HS, Nat.add_0_r, <-E1, <-E2.
    destruct (Z.ltb_spec (Z.of_nat (restarts es (S i))) (Z.of_nat (length (points 0 es)))) as [Hlt|]; [|done].
    destruct (lookup_lt_is_Some_2 (points 0 es) (restarts es (S i)) ltac:(lia)) as [r Hr].
    unfold Block.restart_point. rewrite (h_points _ _ _ H), Hr. cbn [unwrap mbind outcome_bind].
    by rewrite (proj2 (Z.leb_gt _ _) (next_point es (S i) e' r Hi' Er Hr)).
Qed.

Lemma try_next_ok i e e' :
  es !! i = Some e → es !! S i = Some e' → BlockIterator.try_next_inner (cursor i e) = Ret (cursor (S i) e', true).
Proof.
  intros Hi Hi'. unfold BlockIterator.try_next_inner. cbn [BlockIterator.offset BlockIterator.entry_len BlockIterator.block cursor].
  rewrite len_ok. cbn [mbind outcome_bind]. rewrite <-Nat2Z.inj_add, <-(off_S _ _ _ Hi).
  assert (off es (S i) < length (bytes_of es)) as Hlt.
  { rewrite <-off_end. apply off_lt; [by apply lookup_lt_Some in Hi'|done]. }
  rewrite (proj2 (Z.leb_gt _ _)) by lia. pose proof (cross_restart i e e' Hi Hi') as Hc. cbv zeta in Hc. rewrite Hc.
  cbn [mbind outcome_bind BlockIterator.last_key_len_type BlockIterator.last_value_len_type].
  rewrite Nat2Z.id, (decode_prefix_at_ok (S i) e' Hi') by done.
  cbn [mbind outcome_bind BlockIterator.block]. rewrite data_ok.
  cbn [mbind outcome_bind KeyPrefix.diff_key_range fst snd KeyPrefix.offset KeyPrefix.len KeyPrefix.diff].
  rewrite (slice_diff (S i) e' Hi'). cbn [mbind outcome_bind BlockIterator.key_ BlockIterator.restart_point_index].
  f_equal. f_equal. unfold cursor. destruct (h_chained _ _ _ H (S i) e' Hi') as [_ Hl].
  unfold KeyPrefix.value_range, KeyPrefix.entry_len, KeyPrefix.overlap_len. cbn.
  rewrite (off_S _ _ _ Hi'), (length_entry_bytes e'). f_equal; [|f_equal; lia].
  unfold linked in Hl. destruct (e_restart e').
  - by rewrite Hl, Nat.sub_diag.
  - destruct Hl as (q & Hq & _ & _ & Hl). cbn [prev_of] in Hq. rewrite Hi in Hq. by injection Hq as <-.
Qed.

Lemma try_next_end i e :
  es !! i = Some e → es !! S i = None → BlockIterator.try_next_inner (cursor i e) = Ret (cursor i e, false).
Proof.
  intros Hi Hi'. unfold BlockIterator.try_next_inner. cbn [BlockIterator.offset BlockIterator.entry_len BlockIterator.block cursor].
  rewrite len_ok. cbn [mbind outcome_bind]. rewrite <-Nat2Z.inj_add, <-(off_S _ _ _ Hi).
  apply lookup_ge_None in Hi'. apply lookup_lt_Some in Hi. replace (S i) with (length es) by lia. by rewrite off_end, Z.leb_refl.
Qed.

Lemma invalidate_ok it :
  BlockIterator.block it = blk →
  BlockIterator.invalidate it = Ret (exhausted (BlockIterator.last_key_len_type it) (BlockIterator.last_value_len_type it)).
Proof.
  intros Hb. unfold BlockIterator.invalidate, Block.restart_point_len. rewrite Hb, len_ok, (h_points _ _ _ H). done.
Qed.

Lemma exhausted_invalid kt vt : BlockIterator.is_valid (exhausted kt vt) = Ret false.
Proof. unfold BlockIterator.is_valid. cbn [BlockIterator.block exhausted]. rewrite len_ok. cbn. by rewrite Z.ltb_irrefl. Qed.

Lemma next_inner_ok i e :
  es !! i = Some e →
  BlockIterator.next_inner (cursor i e) =
  Ret (match es !! S i with Some e' => cursor (S i) e' | None => exhausted (e_kt e) (e_vt e) end).
Proof.
  intros Hi. unfold BlockIterator.next_inner. destruct (es !! S i) as [e'|] eqn:Hi'.
  - by rewrite (try_next_ok i e e' Hi Hi').
  - rewrite (try_next_end i e Hi Hi'). cbn [mbind outcome_bind]. by apply invalidate_ok.
Qed.

Lemma entries_fuel : length es ≤ Block.data_len blk.
Proof. rewrite (h_len _ _ _ H), <-off_end. by apply off_le. Qed.

Lemma off_le_end i : i ≤ length es → off es i ≤ length (bytes_of es).
Proof.
  intros Hi. rewrite <-off_end. destruct (decide (i = length es)) as [->|]; [done|].
  pose proof (off_lt es i (length es) ltac:(lia) (Nat.le_refl _)). lia.
Qed.

(** Moving forwards from [j] stops at the entry before offset [off i]. *)
Lemma until_offset_ok i e0 fuel : ∀ j e,
  es !! j = Some e → j ≤ i → es !! i = Some e0 → i - j < fuel →
  BlockIterator.next_until_prev_offset_fuel fuel (cursor j e) (Z.of_nat (off es (S i))) = Ret (cursor i e0).
Proof.
  induction fuel as [|fuel IH]; intros j e Hj Hle Hi Hf; [lia|]. cbn [BlockIterator.next_until_prev_offset_fuel].
  cbn [BlockIterator.block BlockIterator.offset BlockIterator.entry_len cursor].
  rewrite len_ok. cbn [mbind outcome_bind]. rewrite <-Nat2Z.inj_add, <-(off_S _ _ _ Hj).
  apply lookup_lt_Some in Hi as Hlt. pose proof (off_le_end (S i) ltac:(lia)) as Hend.
  destruct (decide (j = i)) as [->|Hne].
  - rewrite (proj2 (Z.ltb_ge _ _)) by lia. rewrite Hi in Hj. by injection Hj as <-.
  - pose proof (off_lt es (S j) (S i) ltac:(lia) ltac:(lia)). rewrite (proj2 (Z.ltb_lt _ _)) by lia.
    rewrite (next_inner_ok j e Hj). destruct (lookup_lt_is_Some_2 es (S j) ltac:(lia)) as [e' He']. rewrite He'.
    cbn [mbind outcome_bind]. apply IH; [done|lia|done|lia].
Qed.

Lemma until_offset_loop i e0 j e :
  es !! j = Some e → j ≤ i → es !! i = Some e0 →
  BlockIterator.next_until_prev_offset (cursor j e) (Z.of_nat (off es (S i))) = Ret (cursor i e0).
Proof.
  intros Hj Hle Hi. unfold BlockIterator.next_until_prev_offset. apply until_offset_ok; [done..|].
  unfold BlockIterator.loop_fuel. cbn [BlockIterator.block cursor]. apply lookup_lt_Some in Hi. pose proof entries_fuel. lia.
Qed.

(** The position of the restart interval that holds the entry before the current one. *)
Lemma prev_index_ok i e :
  es !! S i = Some e →
  (r ← Block.restart_point blk (Z.to_nat (Z.of_nat (restarts es (S (S i))) - 1));
   if (RestartPoint.offset r =? Z.of_nat (off es (S i)))%Z
   then index_sub (Z.to_nat (Z.of_nat (restarts es (S (S i))) - 1)) 1
   else Ret (Z.to_nat (Z.of_nat (restarts es (S (S i))) - 1))) = Ret (restarts es (S i) - 1).
Proof.
  intros Hi. apply lookup_lt_Some in Hi as Hlt. rewrite (restarts_S _ _ _ Hi).
  destruct (restart_before es (S i) (h_chained _ _ _ H) ltac:(lia)) as (j & e' & Hj & He' & Hr & HS).
  destruct (e_restart e) eqn:Er.
  - replace (Z.to_nat (Z.of_nat (restarts es (S i) + 1) - 1)) with (restarts es (S i)) by lia.
    rewrite (restart_point_ok (S i) e Hi Er). cbn [mbind outcome_bind point RestartPoint.offset].
    rewrite Z.eqb_refl. apply index_sub_ok. lia.
  - replace (Z.to_nat (Z.of_nat (restarts es (S i) + 0) - 1)) with (restarts es j) by lia.
    rewrite (restart_point_ok j e' He' Hr). cbn [mbind outcome_bind point RestartPoint.offset].
    pose proof (off_lt es j (S i) Hj ltac:(lia)). rewrite (proj2 (Z.eqb_neq _ _)) by lia. f_equal. lia.
Qed.

Lemma try_prev_ok i e e0 :
  es !! S i = Some e → es !! i = Some e0 → BlockIterator.try_prev_inner (cursor (S i) e) = Ret (cursor i e0, true).
Proof.
  intros Hi Hi0. unfold BlockIterator.try_prev_inner. cbn [BlockIterator.offset BlockIterator.restart_point_index BlockIterator.block cursor].
  pose proof (off_le es (S i) ltac:(apply lookup_lt_Some in Hi; lia)). rewrite (proj2 (Z.eqb_neq _ _)) by lia.
  rewrite <-bind_assoc_outcome, (prev_index_ok i e Hi). cbn [mbind outcome_bind].
  destruct (restart_before es (S i) (h_chained _ _ _ H) ltac:(apply lookup_lt_Some in Hi; lia)) as (j & e' & Hj & He' & Hr & HS).
  replace (restarts es (S i) - 1) with (restarts es j) by lia.
  rewrite (seek_index_ok _ j e') by done. cbn [mbind outcome_bind].
  by rewrite (until_offset_loop i e0 j e' He' ltac:(lia) Hi0).
Qed.

Lemma prev_inner_ok i e :
  es !! i = Some e →
  BlockIterator.prev_inner (cursor i e) =
  Ret (match prev_of es i with Some e' => cursor (i - 1) e' | None => exhausted (e_kt e) (e_vt e) end).
Proof.
  intros Hi. unfold BlockIterator.prev_inner. destruct i as [|i]; cbn [prev_of].
  - unfold BlockIterator.try_prev_inner at 1. cbn [mbind outcome_bind BlockIterator.offset cursor].
    change (Z.of_nat (off es 0) =? 0)%Z with true. cbn [mbind outcome_bind]. by apply invalidate_ok.
  - destruct (lookup_lt_is_Some_2 es i ltac:(apply lookup_lt_Some in Hi; lia)) as [e' He'].
    rewrite (try_prev_ok i e e' Hi He'), He'. cbn [mbind outcome_bind]. by rewrite Nat.sub_succ, Nat.sub_0_r.
Qed.

Lemma seek_to_first_ok it e : BlockIterator.block it = blk → es !! 0 = Some e → BlockIterator.seek_to_first it = Ret (cursor 0 e).
Proof.
  intros Hb He. destruct (h_chained _ _ _ H 0 e He) as [_ Hl]. unfold linked in Hl. destruct (e_restart e) eqn:Er.
  - exact (seek_index_ok it 0 e Hb He Er).
  - destruct Hl as (? & [=] & _).
Qed.

Lemma seek_to_last_ok it e :
  BlockIterator.block it = blk → last es = Some e → BlockIterator.seek_to_last it = Ret (cursor (length es - 1) e).
Proof.
  intros Hb He. rewrite last_lookup in He. destruct (length es) as [|n] eqn:Hn; [by destruct es|]. cbn [Nat.pred] in He.
  destruct (restart_before es (S n) (h_chained _ _ _ H) ltac:(lia)) as (j & e' & Hj & He' & Hr & HS).
  pose proof (restarts_end es) as Hend. rewrite Hn in Hend.
  unfold BlockIterator.seek_to_last, Block.restart_point_len. rewrite Hb, (h_points _ _ _ H), index_sub_ok by lia.
  cbn [mbind outcome_bind]. replace (length (points 0 es) - 1) with (restarts es j) by lia.
  rewrite (seek_index_ok it j e' Hb He' Hr). cbn [mbind outcome_bind BlockIterator.block cursor]. rewrite len_ok.
  cbn [mbind outcome_bind]. rewrite <-off_end, Hn. rewrite (until_offset_loop n e j e' He' ltac:(lia) He).
  by rewrite Nat.sub_succ, Nat.sub_0_r.
Qed.

(** ** Seeking *)

Lemma restart_key_le_ok it k j e :
  BlockIterator.block it = blk → es !! j = Some e → e_restart e = true →
  BlockIterator.restart_key_le it k (point (off es j) e) = Ret (cmp_leb FullKey.cmp (e_key e) k).
Proof.
  intros Hb Hj He. unfold BlockIterator.restart_key_le.
  cbn [point RestartPoint.offset RestartPoint.key_len_type RestartPoint.value_len_type].
  rewrite Nat2Z.id, (decode_prefix_at_ok j e Hj it Hb), Hb, data_ok.
  cbn [mbind outcome_bind KeyPrefix.diff_key_range fst snd KeyPrefix.offset KeyPrefix.len KeyPrefix.diff].
  rewrite (slice_diff j e Hj). cbn [mbind outcome_bind]. destruct (h_chained _ _ _ H j e Hj) as [_ Hl].
  unfold linked in Hl. rewrite He in Hl. rewrite Hl. unfold BlockIterator.table_id. rewrite Hb, (h_table _ _ _ H).
  by rewrite (decode_enc_ok table es j e (h_same _ _ _ H) (h_chained _ _ _ H) Hj).
Qed.

(** ** Scanning *)

Lemma next_ok i e : es !! i = Some e → BlockIterator.next (cursor i e) = BlockIterator.next_inner (cursor i e).
Proof. intros Hi. unfold BlockIterator.next. by rewrite (cursor_valid i e Hi). Qed.

Lemma prev_ok i e : es !! i = Some e → BlockIterator.prev (cursor i e) = BlockIterator.prev_inner (cursor i e).
Proof. intros Hi. unfold BlockIterator.prev. by rewrite (cursor_valid i e Hi). Qed.

Lemma scan_exhausted step fuel kt vt : 0 < fuel → scan step fuel (exhausted kt vt) = Ret [].
Proof. intros Hf. destruct fuel as [|fuel]; [lia|]. simpl. by rewrite exhausted_invalid. Qed.

Lemma scan_next_ok fuel : ∀ i e,
  es !! i = Some e → length es - i < fuel → scan BlockIterator.next fuel (cursor i e) = Ret (pair_of <$> drop i es).
Proof.
  induction fuel as [|fuel IH]; intros i e Hi Hf; [lia|]. cbn [scan].
  rewrite (cursor_valid i e Hi). cbn [mbind outcome_bind]. rewrite (cursor_key i e Hi), (cursor_value i e Hi).
  cbn [mbind outcome_bind]. rewrite (next_ok i e Hi), (next_inner_ok i e Hi), (drop_S es e i Hi). cbn [mbind outcome_bind].
  apply lookup_lt_Some in Hi. destruct (es !! S i) as [e'|] eqn:Hi'.
  - by rewrite (IH (S i) e' Hi' ltac:(lia)).
  - rewrite scan_exhausted by lia. apply lookup_ge_None in Hi'. by rewrite drop_ge by lia.
Qed.

Lemma scan_prev_ok fuel : ∀ i e,
  es !! i = Some e → S i < fuel → scan BlockIterator.prev fuel (cursor i e) = Ret (pair_of <$> reverse (take (S i) es)).
Proof.
  induction fuel as [|fuel IH]; intros i e Hi Hf; [lia|]. cbn [scan].
  rewrite (cursor_valid i e Hi). cbn [mbind outcome_bind]. rewrite (cursor_key i e Hi), (cursor_value i e Hi).
  cbn [mbind outcome_bind]. rewrite (prev_ok i e Hi), (prev_inner_ok i e Hi), (take_S_r _ _ _ Hi), reverse_snoc. cbn [mbind outcome_bind].
  destruct i as [|i]; cbn [prev_of].
  - by rewrite scan_exhausted by lia.
  - destruct (lookup_lt_is_Some_2 es i ltac:(apply lookup_lt_Some in Hi; lia)) as [e' He'].
    rewrite He', Nat.sub_succ, Nat.sub_0_r. by rewrite (IH i e' He' ltac:(lia)).
Qed.

Context (Hsorted : StronglySorted key_lt (e_key <$> es)).

(** The restart search never skips an entry that is not below [k]. *)
Lemma seek_restart_ok it k :
  BlockIterator.block it = blk →
  ∃ j e, es !! j = Some e ∧ BlockIterator.seek_restart_point_by_key it k = Ret (cursor j e) ∧
    ∀ i e', i < j → es !! i = Some e' → key_lt (e_key e') k.
Proof.
  intros Hb. assert (total_on (BlockIterator.restart_key_le it k) (points 0 es)) as Htot.
  { apply Forall_lookup. intros m r (j & e & Hj & He & _ & ->)%point_entry. unfold val. by rewrite (restart_key_le_ok it k j e). }
  unfold BlockIterator.seek_restart_point_by_key, BlockIterator.search_restart_point_index_by_key.
  rewrite Hb, (h_points _ _ _ H), (rpartition_point_ok _ _ Htot). cbn [mbind outcome_bind].
  set (n := partition_point _ _). destruct (points_nonempty es (h_chained _ _ _ H) (h_nonempty _ _ _ H)) as (r0 & rs & Hrs).
  assert (is_Some (points 0 es !! (n - 1))) as [r Hr].
  { apply lookup_lt_is_Some_2. assert (n ≤ length (points 0 es)) by apply partition_point_le.
    rewrite Hrs in *. simpl in *. lia. }
  destruct (point_entry _ _ _ Hr) as (j & e & Hj & He & Hm & ->). exists j, e. split; [done|].
  rewrite <-Hm, (seek_index_ok it j e Hb Hj He). split; [done|]. intros i e' Hij Hi.
  assert (n ≠ 0) as Hn0.
  { intros E. rewrite E in Hm. simpl in Hm. destruct (restart_before es j (h_chained _ _ _ H)) as (? & ? & ? & ? & ? & ?); [|lia].
    apply lookup_lt_Some in Hj. lia. }
  pose proof (partition_point_before (val (BlockIterator.restart_key_le it k)) _ _ _ Hr) as Hv. fold n in Hv.
  specialize (Hv ltac:(lia)). unfold val in Hv.
  rewrite (restart_key_le_ok it k j e Hb Hj He) in Hv. apply cmp_leb_le in Hv.
  eapply (cmp_lt_le_trans FullKey.cmp); [by apply (sorted_keys es i j e' e)|done].
Qed.

(** Where the iterator ends up after a search: at entry [i], or exhausted. *)
Definition stands (it : BlockIterator.t) (i : nat) : Prop :=
  match es !! i with Some e => it = cursor i e | None => ∃ kt vt, it = exhausted kt vt end.

Abbreviation entry_lt k e := (FullKey.cmp (e_key e) k = Lt).
Abbreviation entry_le k e := (FullKey.cmp (e_key e) k ≠ Gt).

(** [i] splits the entries into those below [k] and the others. *)
Definition splits_lt (k : FullKey.t) (i : nat) : Prop :=
  i ≤ length es ∧ Forall (λ e, entry_lt k e) (take i es) ∧ Forall (λ e, ¬ entry_lt k e) (drop i es).

Lemma sorted_drop_ge k i e : es !! i = Some e → ¬ entry_lt k e → Forall (λ e, ¬ entry_lt k e) (drop i es).
Proof.
  intros Hi Hge. apply Forall_lookup. intros m e' Hm Hlt. rewrite lookup_drop in Hm.
  destruct m as [|m]; [rewrite Nat.add_0_r in Hm; congruence|].
  apply Hge. apply (cmp_lt_trans FullKey.cmp _ (e_key e')); [|done]. apply (sorted_keys es i (i + S m)); [done|lia|done..].
Qed.

Lemma Forall_take_S (P : entry → Prop) i e : es !! i = Some e → Forall P (take i es) → P e → Forall P (take (S i) es).
Proof. intros Hi HP He. rewrite (take_S_r _ _ _ Hi). apply Forall_app_2; [done|by apply Forall_singleton]. Qed.

Lemma next_until_key_ok k fuel : ∀ i e,
  es !! i = Some e → length es - i < fuel → Forall (λ e, entry_lt k e) (take i es) →
  ∃ it n, BlockIterator.next_until_key_fuel fuel (cursor i e) k = Ret it ∧ stands it n ∧ splits_lt k n.
Proof.
  induction fuel as [|fuel IH]; intros i e Hi Hf Hlts; [lia|]. cbn [BlockIterator.next_until_key_fuel].
  rewrite (cursor_valid i e Hi). cbn [mbind outcome_bind]. rewrite (cursor_key i e Hi). cbn [mbind outcome_bind].
  apply lookup_lt_Some in Hi as Hlt.
  assert (¬ entry_lt k e → stands (cursor i e) i ∧ splits_lt k i) as Hstop.
  { intros Hge. split; [unfold stands; by rewrite Hi|]. split; [lia|]. split; [done|by apply (sorted_drop_ge k i e)]. }
  destruct (FullKey.cmp (e_key e) k) eqn:Ec; [by exists (cursor i e), i; split; [|apply Hstop]| |by exists (cursor i e), i; split; [|apply Hstop]].
  rewrite (next_inner_ok i e Hi). cbn [mbind outcome_bind].
  pose proof (Forall_take_S _ i e Hi Hlts Ec) as Hlts'. destruct (es !! S i) as [e'|] eqn:Hi'.
  - by apply (IH (S i) e' Hi' ltac:(lia)).
  - destruct fuel as [|fuel]; [lia|]. cbn [BlockIterator.next_until_key_fuel]. rewrite exhausted_invalid.
    apply lookup_ge_None in Hi' as Hge. eexists _, (S i). split; [reflexivity|]. split; [unfold stands; rewrite Hi'; by do 2 eexists|].
    split; [lia|]. split; [done|]. rewrite drop_ge by lia. constructor.
Qed.

Lemma seek_ok it k :
  BlockIterator.block it = blk → ∃ it' n, BlockIterator.seek it k = Ret it' ∧ stands it' n ∧ splits_lt k n.
Proof.
  intros Hb. destruct (seek_restart_ok it k Hb) as (j & e & Hj & Hseek & Hbelow). unfold BlockIterator.seek.
  rewrite Hseek. cbn [mbind outcome_bind]. unfold BlockIterator.next_until_key, BlockIterator.loop_fuel.
  cbn [BlockIterator.block cursor]. apply next_until_key_ok; [done|pose proof entries_fuel; lia|].
  apply Forall_lookup. intros i e' Hi. apply lookup_take_Some in Hi as [Hi Hlt]. by apply (Hbelow i).
Qed.

(** [n] splits the entries into those not above [k] and the others; the iterator is at the
    last of the former. *)
Definition splits_le (k : FullKey.t) (n : nat) : Prop :=
  n ≤ length es ∧ Forall (λ e, entry_le k e) (take n es) ∧ Forall (λ e, ¬ entry_le k e) (drop n es).
Definition stands_before (it : BlockIterator.t) (n : nat) : Prop :=
  match prev_of es n with Some e => it = cursor (n - 1) e | None => ∃ kt vt, it = exhausted kt vt end.

Lemma sorted_take_le k i e : es !! i = Some e → entry_le k e → Forall (λ e, entry_le k e) (take (S i) es).
Proof.
  intros Hi Hle. apply (Forall_take_S _ i e Hi); [|done]. apply Forall_lookup. intros m e' Hm.
  apply lookup_take_Some in Hm as [Hm Hlt]. pose proof (sorted_keys es m i e' e Hsorted Hlt Hm Hi) as Hc.
  by rewrite (cmp_lt_le_trans FullKey.cmp _ _ _ Hc Hle).
Qed.

Lemma prev_until_key_ok k fuel : ∀ i e,
  es !! i = Some e → S i < fuel → Forall (λ e, ¬ entry_le k e) (drop (S i) es) →
  ∃ it n, BlockIterator.prev_until_key_fuel fuel (cursor i e) k = Ret it ∧ stands_before it n ∧ splits_le k n.
Proof.
  induction fuel as [|fuel IH]; intros i e Hi Hf Hgts; [lia|]. cbn [BlockIterator.prev_until_key_fuel].
  rewrite (cursor_valid i e Hi). cbn [mbind outcome_bind]. rewrite (cursor_key i e Hi). cbn [mbind outcome_bind].
  apply lookup_lt_Some in Hi as Hlt.
  assert (entry_le k e → stands_before (cursor i e) (S i) ∧ splits_le k (S i)) as Hstop.
  { intros Hle. split; [unfold stands_before; cbn [prev_of]; by rewrite Hi, Nat.sub_succ, Nat.sub_0_r|].
    split; [lia|]. split; [by apply (sorted_take_le k i e)|done]. }
  destruct (FullKey.cmp (e_key e) k) eqn:Ec; [by exists (cursor i e), (S i); split; [|apply Hstop]
    |by exists (cursor i e), (S i); split; [|apply Hstop]|].
  rewrite (prev_inner_ok i e Hi). cbn [mbind outcome_bind].
  assert (Forall (λ e, ¬ entry_le k e) (drop i es)) as Hgts'.
  { rewrite (drop_S es e i Hi). apply Forall_cons. split; [by rewrite Ec; intros ?|done]. }
  destruct i as [|i]; cbn [prev_of].
  - destruct fuel as [|fuel]; [lia|]. cbn [BlockIterator.prev_until_key_fuel]. rewrite exhausted_invalid.
    eexists _, 0. split; [reflexivity|]. split; [by do 2 eexists|]. split; [lia|]. by split; [rewrite take_0|].
  - destruct (lookup_lt_is_Some_2 es i ltac:(lia)) as [e' He']. rewrite He', Nat.sub_succ, Nat.sub_0_r.
    by apply (IH i e' He' ltac:(lia)).
Qed.

Lemma seek_le_ok it k :
  BlockIterator.block it = blk → ∃ it' n, BlockIterator.seek_le it k = Ret it' ∧ stands_before it' n ∧ splits_le k n.
Proof.
  intros Hb. destruct (seek_ok it k Hb) as (it1 & n & Hseek & Hst & Hn & _ & Hge).
  assert (∀ i e, es !! i = Some e → Forall (λ e, ¬ entry_le k e) (drop (S i) es) →
    ∃ it' n, BlockIterator.prev_until_key (cursor i e) k = Ret it' ∧ stands_before it' n ∧ splits_le k n) as Hprev.
  { intros i e Hi Hgt. apply prev_until_key_ok; [done| |done]. unfold BlockIterator.loop_fuel. cbn [BlockIterator.block cursor].
    apply lookup_lt_Some in Hi. pose proof entries_fuel. lia. }
  unfold BlockIterator.seek_le. unfold BlockIterator.seek in Hseek. rewrite <-bind_assoc_outcome, Hseek. cbn [mbind outcome_bind].
  unfold stands in Hst. destruct (es !! n) as [e|] eqn:He.
  - subst it1. rewrite (cursor_valid n e He). cbn [mbind outcome_bind]. apply Hprev; [done|].
    rewrite (drop_S es e n He) in Hge. apply Forall_cons in Hge as [Hge _]. apply Forall_lookup. intros m e' Hm Hle.
    rewrite lookup_drop in Hm. pose proof (sorted_keys es n (S n + m) e e' Hsorted ltac:(lia) He Hm) as Hc.
    apply Hge. by apply (cmp_lt_le_trans FullKey.cmp _ _ _ Hc Hle).
  - destruct Hst as (kt & vt & ->). rewrite exhausted_invalid. cbn [mbind outcome_bind].
    destruct (last es) as [e|] eqn:Hl; [|by apply last_None in Hl; destruct (h_nonempty _ _ _ H)].
    rewrite (seek_to_last_ok _ e) by done. cbn [mbind outcome_bind]. rewrite last_lookup in Hl.
    apply Hprev; [by rewrite Nat.sub_1_r|]. rewrite drop_ge by (destruct (length es); lia). constructor.
Qed.

Lemma scan_stands it n fuel :
  stands it n → n ≤ length es → length es < fuel → scan BlockIterator.next fuel it = Ret (pair_of <$> drop n es).
Proof.
  intros Hst Hn Hf. unfold stands in Hst. destruct (es !! n) as [e|] eqn:He.
  - subst it. by apply scan_next_ok; [|lia].
  - destruct Hst as (kt & vt & ->). rewrite scan_exhausted by lia. apply lookup_ge_None in He. by rewrite drop_ge.
Qed.

Lemma scan_stands_before it n fuel :
  stands_before it n → n ≤ length es → S (length es) < fuel →
  scan BlockIterator.prev fuel it = Ret (pair_of <$> reverse (take n es)).
Proof.
  intros Hst Hn Hf. unfold stands_before in Hst. destruct n as [|n]; cbn [prev_of] in Hst.
  - destruct Hst as (kt & vt & ->). by rewrite scan_exhausted by lia.
  - destruct (lookup_lt_is_Some_2 es n ltac:(lia)) as [e He]. rewrite He, Nat.sub_succ, Nat.sub_0_r in Hst. subst it.
    by apply scan_prev_ok; [|lia].
Qed.
End iter.

(** A filter that keeps exactly the entries behind, or before, a position. *)
Lemma filter_behind (P : FullKey.t * list byte → Prop) `{!∀ x, Decision (P x)} n es :
  Forall (λ e, ¬ P (pair_of e)) (take n es) → Forall (λ e, P (pair_of e)) (drop n es) →
  filter P (pair_of <$> es) = pair_of <$> drop n es.
Proof.
  intros H1 H2. rewrite <-(take_drop n es) at 1. rewrite fmap_app, filter_app.
  by rewrite (filter_none _ (pair_of <$> take n es)), (filter_all _ (pair_of <$> drop n es)) by (by apply Forall_forall, Forall_fmap).
Qed.

Lemma filter_front (P : FullKey.t * list byte → Prop) `{!∀ x, Decision (P x)} n es :
  Forall (λ e, P (pair_of e)) (take n es) → Forall (λ e, ¬ P (pair_of e)) (drop n es) →
  filter P (pair_of <$> es) = pair_of <$> take n es.
Proof.
  intros H1 H2. rewrite <-(take_drop n es) at 1. rewrite fmap_app, filter_app.
  rewrite (filter_all _ (pair_of <$> take n es)), (filter_none _ (pair_of <$> drop n es)) by (by apply Forall_forall, Forall_fmap). by rewrite app_nil_r.
Qed.

(** ** The theorems *)

Section theorems.
Context `{HC : Codec xxh64 compress decompress}.
Context (table : Z) (restart_interval : nat) (algorithm : CompressionAlgorithm.t) (kvs : list (FullKey.t * list byte)).

(** A non-empty block of one table, of at most about two gigabytes. *)
Definition block_input_ok : Prop :=
  is_uint 32 table ∧ restart_interval ≠ 0 ∧ kvs ≠ [] ∧ Forall (kv_ok table) kvs ∧ (total_cost kvs < 2 ^ 31 - 1024)%Z.

(** Build a block from the entries and decode it. *)
Definition build_and_decode : outcome (HummockResult Block.t) :=
  b ← BlockBuilder.new restart_interval algorithm;
  b ← add_all b kvs;
  '(_, buf) ← BlockBuilder.build xxh64 compress b;
  Block.decode xxh64 decompress buf (BlockBuilder.uncompressed_block_size b).

Lemma build_and_decode_ok :
  block_input_ok → ∃ blk es, build_and_decode = Ret (inr blk) ∧ holds table es blk ∧ pair_of <$> es = kvs.
Proof.
  intros (Ht & Hr & Hne & Hok & Hcost).
  destruct (builder_new_ok table restart_interval algorithm Hr) as (b0 & Hnew & Hb0).
  destruct (add_all_ok table kvs _ [] Hb0 Hok) as (b & es & Hadd & Hb & Hes & _).
  { cbn [fmap list_fmap total_cost foldr]. lia. }
  cbn [app] in Hb. rewrite <-Hes in Hcost, Hne.
  destruct (build_decode_ok table b es Hb ltac:(by destruct es) Ht Hcost) as (b' & buf & blk & Hbuild & _ & Hdec & Hh).
  exists blk, es. split; [|done]. unfold build_and_decode. rewrite Hnew. cbn [mbind outcome_bind]. rewrite Hadd. cbn [mbind outcome_bind]. rewrite Hbuild. done.
Qed.


(** C11: seeking in a block is exact.  If the keys are added in ascending order, then for every
    key [seek] and [seek_le] return, moving forwards from the position of [seek] visits exactly
    the entries whose key is not below it, in order, and moving backwards from the position of
    [seek_le] visits exactly those not above it, in reverse (in particular the iterator is
    invalid when there are none). *)
Theorem block_seek_exact (k : FullKey.t) :
  block_input_ok → StronglySorted key_lt kvs.*1 →
  ∃ blk ge le,
    build_and_decode = Ret (inr blk) ∧
    BlockIterator.seek (BlockIterator.new blk) k = Ret ge ∧
    scan BlockIterator.next (length kvs + 2) ge = Ret (filter (λ kv, FullKey.cmp kv.1 k ≠ Lt) kvs) ∧
    BlockIterator.seek_le (BlockIterator.new blk) k = Ret le ∧
    scan BlockIterator.prev (length kvs + 2) le = Ret (reverse (filter (λ kv, FullKey.cmp kv.1 k ≠ Gt) kvs)).
Proof.
  intros Hin Hs. destruct (build_and_decode_ok Hin) as (blk & es & Hbd & Hh & Hes).
  assert (length kvs = length es) as Hlen by (by rewrite <-Hes, length_fmap).
  assert (StronglySorted key_lt (e_key <$> es)) as Hsort by (rewrite <-Hes, <-list_fmap_compose in Hs; exact Hs).
  destruct (seek_ok table es blk Hh Hsort (BlockIterator.new blk) k eq_refl) as (ge & n & Hge & Hst & Hn & Hlt & Hnlt).
  destruct (seek_le_ok table es blk Hh Hsort (BlockIterator.new blk) k eq_refl) as (le & m & Hle & Hst' & Hm & Hnle & Hgt).
  exists blk, ge, le. split; [done|]. split; [done|]. split; [|split; [done|]].
  - rewrite (scan_stands table es blk Hh ge n) by (done || lia). rewrite <-Hes. f_equal. symmetry. apply filter_behind; [|done].
    eapply Forall_impl; [exact Hlt|]. naive_solver.
  - rewrite (scan_stands_before table es blk Hh le m) by (done || lia). rewrite <-Hes, fmap_reverse. f_equal. f_equal.
    symmetry. by apply filter_front.
Qed.
End theorems.

(** Three entries of table 1, the last in another restart interval. *)
Definition example_kvs : list (FullKey.t * list byte) :=
  [(FullKey.new 1 [Byte.x61] (Epoch.test_epoch 2), [Byte.x31]); (FullKey.new 1 [Byte.x61] (Epoch.test_epoch 1), []);
   (FullKey.new 1 [Byte.x61; Byte.x62] (Epoch.test_epoch 2), [Byte.x32; Byte.x33])].

Definition example_checksum (l : list byte) : Z := (Z.of_nat (length l) mod 2 ^ 64)%Z.
Definition example_compress (a : CompressionAlgorithm.t) (d : list byte) : list byte := d.
Definition example_decompress (a : CompressionAlgorithm.t) (d : list byte) : option (list byte) := Some d.

Lemma example_input_ok : block_input_ok 1 2 example_kvs.
Proof. split; [done|]. split; [done|]. split; [done|]. split; [|done]. repeat constructor; vm_compute; done. Qed.


Lemma block_seek_exact_witness :
  let k := FullKey.new 1 [Byte.x61] (Epoch.test_epoch 1) in
  ∃ blk ge le,
    build_and_decode (xxh64 := example_checksum) (compress := example_compress) (decompress := example_decompress)
      2 CompressionAlgorithm.None_ example_kvs = Ret (inr blk) ∧
    BlockIterator.seek (BlockIterator.new blk) k = Ret ge ∧
    scan BlockIterator.next (length example_kvs + 2) ge = Ret (filter (λ kv, FullKey.cmp kv.1 k ≠ Lt) example_kvs) ∧
    BlockIterator.seek_le (BlockIterator.new blk) k = Ret le ∧
    scan BlockIterator.prev (length example_kvs + 2) le =
      Ret (reverse (filter (λ kv, FullKey.cmp kv.1 k ≠ Gt) example_kvs)).
Proof.
  apply (block_seek_exact (HC := identity_codec) 1 2 CompressionAlgorithm.None_ example_kvs); [apply example_input_ok|].
  repeat constructor; vm_compute; done.
Defined.
