(* ===== verification/Iter.v ===== *)
(** * Iterators of the storage engine

    [src/storage/src/hummock/iterator/mod.rs], [merge_inner.rs], [concat_inner.rs],
    [forward_user.rs], [backward_user.rs] and [value.rs]: the [HummockIterator] trait, the
    values it yields, and the iterators built from other iterators.  An [async] operation runs
    to completion; it returns the iterator it leaves behind together with its result, so that
    the state after an error is visible.  Statistics are not modelled.  The contract of the
    trait and its lemmas are in [IterSpec.v]. *)

From Stdlib Require Import ZArith Lia.
From S2P Require Import Prelude Order Bytes Epoch Bits Bitmap Vnode Key KeySpec KeyRange Sst Block.

(** ** [HummockValue] *)
Module HummockValue.

Inductive t := Put (v : list byte) | Delete.

#[global] Instance t_eq_dec : EqDecision t.
Proof. solve_decision. Defined.

Definition VALUE_DELETE : byte := Byte.x01.
Definition VALUE_PUT : byte := Byte.x00.

Definition encoded_len (self : t) : nat := match self with Put val => 1 + length val | Delete => 1 end.

Definition encode (self : t) : list byte :=
  match self with Put val => VALUE_PUT :: val | Delete => [VALUE_DELETE] end.

Definition into_user_value (self : t) : option (list byte) :=
  match self with Put val => Some val | Delete => None end.

Definition is_delete (self : t) : bool := match self with Delete => true | Put _ => false end.

Definition from_slice (buffer : list byte) : HummockResult t :=
  match buffer with
  | [] => inl DecodeError
  | flag :: buffer =>
      if bool_decide (flag = VALUE_PUT) then inr (Put buffer)
      else if bool_decide (flag = VALUE_DELETE) then inr Delete
      else inl DecodeError
  end.

End HummockValue.

(** ** Fallible operations on an iterator

    The iterator after the call and the result. *)
Abbreviation step I := (outcome (I * HummockResult unit)).

Definition ok {I} (it : I) : step I := Ret (it, inr tt).

(** [m?; k]: stop at an error. *)
Definition and_then {I J} (m : step I) (f : I → J) (k : I → step J) : step J :=
  '(it, r) ← m; match r with inl e => Ret (f it, inl e) | inr _ => k it end.

Module DirectionEnum.
Inductive t := Forward | Backward.
End DirectionEnum.

(** ** The trait *)
Module HummockIterator.

Class t (I : Type) := {
  direction : DirectionEnum.t;
  next : I → step I;
  key : I → outcome FullKey.t;
  value : I → outcome HummockValue.t;
  is_valid : I → outcome bool;
  rewind : I → step I;
  seek : I → FullKey.t → step I
}.
#[global] Arguments direction I {_}.
#[global] Hint Mode t ! : typeclass_instances.

End HummockIterator.

(** ** [PhantomHummockIterator] and [HummockIteratorUnion] *)

Inductive PhantomHummockIterator (d : DirectionEnum.t) : Type := Phantom.

#[global] Instance phantom_iter d : HummockIterator.t (PhantomHummockIterator d) := {|
  HummockIterator.direction := d;
  HummockIterator.next _ := Panic;
  HummockIterator.key _ := Panic;
  HummockIterator.value _ := Panic;
  HummockIterator.is_valid _ := Panic;
  HummockIterator.rewind _ := Panic;
  HummockIterator.seek _ _ := Panic
|}.

Inductive HummockIteratorUnion (I1 I2 I3 I4 : Type) : Type :=
| First (iter : I1)
| Second (iter : I2)
| Third (iter : I3)
| Fourth (iter : I4).
Arguments First {I1 I2 I3 I4} iter.
Arguments Second {I1 I2 I3 I4} iter.
Arguments Third {I1 I2 I3 I4} iter.
Arguments Fourth {I1 I2 I3 I4} iter.

Section union.
Context {I1 I2 I3 I4 : Type} {i1 : HummockIterator.t I1} {i2 : HummockIterator.t I2}
  {i3 : HummockIterator.t I3} {i4 : HummockIterator.t I4}.

(** The four constructors have one [Direction]; the first one gives it. *)
#[global] Instance union_iter : HummockIterator.t (HummockIteratorUnion I1 I2 I3 I4) := {|
  HummockIterator.direction := HummockIterator.direction I1;
  HummockIterator.next self :=
    match self with
    | First iter => and_then (HummockIterator.next iter) First (λ iter, ok (First iter))
    | Second iter => and_then (HummockIterator.next iter) Second (λ iter, ok (Second iter))
    | Third iter => and_then (HummockIterator.next iter) Third (λ iter, ok (Third iter))
    | Fourth iter => and_then (HummockIterator.next iter) Fourth (λ iter, ok (Fourth iter))
    end;
  HummockIterator.key self :=
    match self with
    | First iter => HummockIterator.key iter
    | Second iter => HummockIterator.key iter
    | Third iter => HummockIterator.key iter
    | Fourth iter => HummockIterator.key iter
    end;
  HummockIterator.value self :=
    match self with
    | First iter => HummockIterator.value iter
    | Second iter => HummockIterator.value iter
    | Third iter => HummockIterator.value iter
    | Fourth iter => HummockIterator.value iter
    end;
  HummockIterator.is_valid self :=
    match self with
    | First iter => HummockIterator.is_valid iter
    | Second iter => HummockIterator.is_valid iter
    | Third iter => HummockIterator.is_valid iter
    | Fourth iter => HummockIterator.is_valid iter
    end;
  HummockIterator.rewind self :=
    match self with
    | First iter => and_then (HummockIterator.rewind iter) First (λ iter, ok (First iter))
    | Second iter => and_then (HummockIterator.rewind iter) Second (λ iter, ok (Second iter))
    | Third iter => and_then (HummockIterator.rewind iter) Third (λ iter, ok (Third iter))
    | Fourth iter => and_then (HummockIterator.rewind iter) Fourth (λ iter, ok (Fourth iter))
    end;
  HummockIterator.seek self key :=
    match self with
    | First iter => and_then (HummockIterator.seek iter key) First (λ iter, ok (First iter))
    | Second iter => and_then (HummockIterator.seek iter key) Second (λ iter, ok (Second iter))
    | Third iter => and_then (HummockIterator.seek iter key) Third (λ iter, ok (Third iter))
    | Fourth iter => and_then (HummockIterator.seek iter key) Fourth (λ iter, ok (Fourth iter))
    end
|}.
End union.

(** ** [std::collections::BinaryHeap]

    The array of the heap as a list, the greatest element first.  [arrange] restores that
    after the heap was built ([Build]), its top changed ([Used]) or its top was removed
    ([Pop]); where equal elements end up is left open.  Comparisons are those of the element
    type and may panic. *)
Inductive heap_op := Build | Used | Pop.

Class BinaryHeap := {
  arrange : ∀ {A : Type}, heap_op → (A → A → outcome comparison) → list A → outcome (list A);
  arrange_ok : ∀ {A K : Type} (op : heap_op) (cmp : A → A → outcome comparison)
      (c : K → K → comparison) (rank : A → K) (l : list A),
    TotalCmp c →
    (∀ x y, x ∈ l → y ∈ l → cmp x y = Ret (c (rank x) (rank y))) →
    ∃ l', arrange op cmp l = Ret l' ∧ l' ≡ₚ l ∧
      match l' with [] => True | top :: _ => Forall (λ x, c (rank x) (rank top) ≠ Gt) l end
}.

(** ** [MergeIterator] *)
Module MergeIterator.

Record t (I : Type) := mk { unused_iters : list I; heap : list I }.
Arguments mk {I} unused_iters heap.
Arguments unused_iters {I} t.
Arguments heap {I} t.

Section merge.
Context {I : Type} {it : HummockIterator.t I} {bh : BinaryHeap}.

(** [Node::cmp] *)
Definition node_cmp (self other : I) : outcome comparison :=
  match HummockIterator.direction I with
  | DirectionEnum.Forward =>
      k ← HummockIterator.key other; k' ← HummockIterator.key self; Ret (FullKey.cmp k k')
  | DirectionEnum.Backward =>
      k ← HummockIterator.key self; k' ← HummockIterator.key other; Ret (FullKey.cmp k k')
  end.

Definition create (iterators : list I) : t I := mk iterators [].

Definition reset_heap (self : t I) : t I := mk (unused_iters self ++ heap self) [].

(** [extract_if] moves the valid iterators out of the list. *)
Definition build_heap (self : t I) : outcome (t I) :=
  rassert (match heap self with [] => true | _ => false end);;
  valid ← rfilter HummockIterator.is_valid (unused_iters self);
  rest ← rfilter (λ i, negb <$> HummockIterator.is_valid i) (unused_iters self);
  h ← arrange Build node_cmp valid;
  Ret (mk rest h).

(** [try_join_all]: the first error stops the others. *)
Fixpoint try_join_all (op : I → step I) (iters : list I) : step (list I) :=
  match iters with
  | [] => ok []
  | i :: iters' =>
      and_then (op i) (λ i', i' :: iters') (λ i',
        and_then (try_join_all op iters') (cons i') (λ iters'', ok (i' :: iters'')))
  end.

(** [next]: an error of the top iterator clears the heap. *)
Definition next (self : t I) : step (t I) :=
  top ← unwrap (head (heap self));
  '(top, r) ← HummockIterator.next top;
  match r with
  | inl e => arrange Pop node_cmp (tail (heap self));; Ret (mk (unused_iters self) [], inl e)
  | inr _ =>
      valid ← HummockIterator.is_valid top;
      if (valid : bool) then
        h ← arrange Used node_cmp (top :: tail (heap self)); ok (mk (unused_iters self) h)
      else
        h ← arrange Pop node_cmp (tail (heap self)); ok (mk (unused_iters self ++ [top]) h)
  end.

(** The drop of [PeekMutGuard] when the future of [next] is cancelled while its top iterator,
    now [top], is being advanced. *)
Definition drop_guard (self : t I) (top : I) : outcome (t I) :=
  h ← arrange Pop node_cmp (tail (heap self)); Ret (mk (unused_iters self ++ [top]) h).

Definition key (self : t I) : outcome FullKey.t := top ← unwrap (head (heap self)); HummockIterator.key top.

Definition value (self : t I) : outcome HummockValue.t :=
  top ← unwrap (head (heap self)); HummockIterator.value top.

Definition is_valid (self : t I) : outcome bool :=
  match heap self with [] => Ret false | top :: _ => HummockIterator.is_valid top end.

Definition restart (op : I → step I) (self : t I) : step (t I) :=
  let self := reset_heap self in
  and_then (try_join_all op (unused_iters self)) (λ iters, mk iters [])
    (λ iters, self ← build_heap (mk iters []); ok self).

Definition rewind : t I → step (t I) := restart HummockIterator.rewind.
Definition seek (self : t I) (key : FullKey.t) : step (t I) :=
  restart (λ i, HummockIterator.seek i key) self.

#[global] Instance merge_iter : HummockIterator.t (t I) := {|
  HummockIterator.direction := HummockIterator.direction I;
  HummockIterator.next := next;
  HummockIterator.key := key;
  HummockIterator.value := value;
  HummockIterator.is_valid := is_valid;
  HummockIterator.rewind := rewind;
  HummockIterator.seek := seek
|}.
End merge.
End MergeIterator.

(** ** [ConcatIteratorInner]

    The store that opens a table is a parameter; it is called with its own state, so that
    two calls may have different results. *)
Module ConcatIteratorInner.

Record t (Store TI : Type) := mk {
  sstable_iter : option TI;
  cur_idx : nat;
  sstable_infos : list SstableInfo.t;
  sstable_store : Store
}.
Arguments mk {Store TI} sstable_iter cur_idx sstable_infos sstable_store.
Arguments sstable_iter {Store TI} t.
Arguments cur_idx {Store TI} t.
Arguments sstable_infos {Store TI} t.
Arguments sstable_store {Store TI} t.

Section concat.
Context {Store Table TI : Type} {it : HummockIterator.t TI}
  (sstable : Store → SstableInfo.t → Store * HummockResult Table)
  (create : Table → Store → SstableInfo.t → outcome TI).

Definition new (sstable_infos : list SstableInfo.t) (sstable_store : Store) : t Store TI :=
  mk None 0 sstable_infos sstable_store.

Definition seek_idx (self : t Store TI) (idx : nat) (seek_key : option FullKey.t) : step (t Store TI) :=
  match sstable_infos self !! idx with
  | None => ok (mk None (length (sstable_infos self)) (sstable_infos self) (sstable_store self))
  | Some info =>
      let '(store, table) := sstable (sstable_store self) info in
      let self := mk (sstable_iter self) (cur_idx self) (sstable_infos self) store in
      match table with
      | inl e => Ret (self, inl e)
      | inr table =>
          sstable_iter ← create table store info;
          and_then (match seek_key with
                    | Some key => HummockIterator.seek sstable_iter key
                    | None => HummockIterator.rewind sstable_iter
                    end)
            (λ _, self) (λ sstable_iter, ok (mk (Some sstable_iter) idx (sstable_infos self) store))
      end
  end.

Definition is_valid (self : t Store TI) : outcome bool :=
  match sstable_iter self with Some i => HummockIterator.is_valid i | None => Ret false end.

(** The loops that look for a table with an entry; [n] tables are left from [table_idx] on. *)
Fixpoint next_tables (n : nat) (self : t Store TI) (table_idx : nat) : step (t Store TI) :=
  match n with
  | O => ok self
  | S n =>
      valid ← is_valid self;
      if (valid : bool) then ok self
      else and_then (seek_idx self table_idx None) id (λ self, next_tables n self (table_idx + 1))
  end.

Definition tables_from (self : t Store TI) (table_idx : nat) : step (t Store TI) :=
  next_tables (length (sstable_infos self) - table_idx) self table_idx.

Definition next (self : t Store TI) : step (t Store TI) :=
  i ← unwrap (sstable_iter self);
  let put i := mk (Some i) (cur_idx self) (sstable_infos self) (sstable_store self) in
  and_then (HummockIterator.next i) put (λ i,
    valid ← HummockIterator.is_valid i;
    if (valid : bool) then ok (put i) else tables_from (put i) (cur_idx self + 1)).

Definition key (self : t Store TI) : outcome FullKey.t :=
  i ← unwrap (sstable_iter self); HummockIterator.key i.
Definition value (self : t Store TI) : outcome HummockValue.t :=
  i ← unwrap (sstable_iter self); HummockIterator.value i.

Definition rewind (self : t Store TI) : step (t Store TI) :=
  and_then (seek_idx self 0 None) id (λ self, tables_from self 1).

(** The predicate of the search for the first table. *)
Definition starts_before (key : FullKey.t) (table : SstableInfo.t) : outcome bool :=
  match HummockIterator.direction TI with
  | DirectionEnum.Forward =>
      smallest_key ← FullKey.decode (KeyRange.left (SstableInfo.key_range table));
      Ret (match FullKey.cmp smallest_key key with Gt => false | _ => true end)
  | DirectionEnum.Backward =>
      largest_key ← FullKey.decode (KeyRange.right (SstableInfo.key_range table));
      Ret (match FullKey.cmp largest_key key with
           | Gt => true
           | Eq => negb (KeyRange.right_exclusive (SstableInfo.key_range table))
           | Lt => false
           end)
  end.

Definition seek (self : t Store TI) (key : FullKey.t) : step (t Store TI) :=
  n ← rpartition_point (starts_before key) (sstable_infos self);
  let table_idx := n - 1 in
  and_then (seek_idx self table_idx (Some key)) id (λ self, tables_from self (table_idx + 1)).

Definition concat_iter : HummockIterator.t (t Store TI) := {|
  HummockIterator.direction := HummockIterator.direction TI;
  HummockIterator.next := next;
  HummockIterator.key := key;
  HummockIterator.value := value;
  HummockIterator.is_valid := is_valid;
  HummockIterator.rewind := rewind;
  HummockIterator.seek := seek
|}.
End concat.
End ConcatIteratorInner.
