(* ===== verification/IterSpec.v ===== *)
(** * The contract of [HummockIterator], and the iterators that implement it

    What [iterator/mod.rs] asks of an iterator, as a class: an iterator stands at a suffix of
    a sorted list of entries, and its operations move it along that list or fail.  The
    iterators of [Iter.v] are shown to meet it when the iterators they are built from do:
    [HummockIteratorUnion] lends it, [MergeIterator] implements the sorted merge, and
    [ConcatIteratorInner] the concatenation of its tables. *)

From Stdlib Require Import ZArith Lia.
From S2P Require Import Prelude Order Bytes Epoch Bits Bitmap Vnode Key KeySpec KeyOrder KeyRange Sst SstSpec Block Iter.

(** ** Entries and their order *)

(** A full key decides by its user key first. *)
Lemma user_lt_full x y : UserKey.cmp (FullKey.user_key x) (FullKey.user_key y) = Lt → FullKey.cmp x y = Lt.
Proof. unfold FullKey.cmp. by intros ->. Qed.

Abbreviation kv := (FullKey.t * HummockValue.t)%type.

Definition dir_cmp (d : DirectionEnum.t) : FullKey.t → FullKey.t → comparison :=
  match d with DirectionEnum.Forward => FullKey.cmp | DirectionEnum.Backward => rev_cmp FullKey.cmp end.

#[global] Instance dir_cmp_total d : TotalCmp (dir_cmp d).
Proof. destruct d; apply _. Qed.

Definition kv_le (d : DirectionEnum.t) (x y : kv) : Prop := dir_cmp d x.1 y.1 ≠ Gt.

#[global] Instance kv_le_dec d : RelDecision (kv_le d).
Proof. intros x y. unfold kv_le. apply _. Defined.

#[global] Instance kv_le_total d : Total (kv_le d).
Proof.
  intros x y. unfold kv_le. rewrite (cmp_antisym (dir_cmp d) x.1 y.1).
  destruct (dir_cmp d x.1 y.1); simpl; [by left|by left|by right].
Qed.

#[global] Instance kv_le_trans d : Transitive (kv_le d).
Proof. intros x y z. apply (cmp_le_trans (dir_cmp d)). Qed.

Abbreviation sorted d := (StronglySorted (kv_le d)).

(** One key has one entry. *)
Definition coherent (l : list kv) : Prop := ∀ x y, x ∈ l → y ∈ l → x.1 = y.1 → x = y.

(** The entries a [seek] keeps: those not before the key. *)
Definition from_key (d : DirectionEnum.t) (k : FullKey.t) : list kv → list kv :=
  filter (λ e, dir_cmp d e.1 k ≠ Lt).

Lemma kv_le_antisym d (l : list kv) x y :
  coherent l → x ∈ l → y ∈ l → kv_le d x y → kv_le d y x → x = y.
Proof.
  intros Hc Hx Hy H1 H2. apply (Hc x y Hx Hy).
  apply (cmp_le_cases (dir_cmp d)) in H1 as [H1|]; [|done].
  unfold kv_le in H2. by rewrite (cmp_antisym (dir_cmp d) x.1 y.1), H1 in H2.
Qed.

(** Sorted arrangements of coherent entries are unique. *)
Lemma sorted_unique d (l1 l2 : list kv) :
  coherent l1 → sorted d l1 → sorted d l2 → l1 ≡ₚ l2 → l1 = l2.
Proof.
  intros Hc H1 H2 Hp. apply (StronglySorted_unique_strong (kv_le d)); [|done..].
  intros x y Hx Hy. apply (kv_le_antisym d l1); [done..|]. by rewrite Hp.
Qed.

Lemma coherent_perm l1 l2 : l1 ≡ₚ l2 → coherent l1 → coherent l2.
Proof. intros Hp Hc x y. rewrite <-!Hp. apply Hc. Qed.

#[global] Instance coherent_proper : Proper ((≡ₚ) ==> iff) coherent.
Proof. intros l1 l2 Hp. split; apply coherent_perm; by rewrite Hp. Qed.

Lemma coherent_sub (l1 l2 : list kv) : l1 ⊆ l2 → coherent l2 → coherent l1.
Proof. intros Hs Hc x y Hx Hy. apply Hc; by apply Hs. Qed.

Lemma coherent_nodup (l : list kv) : NoDup l.*1 → coherent l.
Proof.
  induction l as [|e l IH]; [by intros _ ? ? ?%elem_of_nil|]. rewrite fmap_cons, NoDup_cons. intros [Hn Hl] x y.
  rewrite !elem_of_cons. intros [-> | Hx] [-> | Hy] Hk; [done|..|by apply IH]; destruct Hn; apply list_elem_of_fmap; by eexists.
Qed.

(** On a sorted list the entries from a key on are a suffix. *)
Lemma from_key_split d k l :
  sorted d l → ∃ p, l = p ++ from_key d k l ∧ Forall (λ e, dir_cmp d e.1 k = Lt) p.
Proof.
  unfold from_key. induction 1 as [|x l Hs (p & Hp & Hlt) Hf]; [by exists []|]. rewrite filter_cons. case_decide as Hx.
  - exists []. rewrite filter_all; [done|]. intros y Hy Hy'. apply Hx.
    rewrite Forall_forall in Hf. apply (cmp_le_lt_trans (dir_cmp d) _ y.1); [by apply Hf|done].
  - exists (x :: p). simpl. rewrite <-Hp. split; [done|]. constructor; [|done]. by destruct (dir_cmp d x.1 k); [destruct Hx..|].
Qed.

Lemma from_key_suffix d k l : sorted d l → from_key d k l `suffix_of` l.
Proof. intros (p & Hp & _)%(from_key_split d k). by exists p. Qed.

Lemma sorted_suffix d (l1 l2 : list kv) : l1 `suffix_of` l2 → sorted d l2 → sorted d l1.
Proof. intros [p ->]. induction p as [|x p IH]; [done|]. intros H. inversion H. auto. Qed.

(** ** Outcomes of an operation

    [runs faults m ok bad]: [m] does not panic; the iterator it leaves satisfies [ok] when it
    succeeds and [bad] when it fails, which it may only when [faults]. *)
Definition runs {I} (faults : Prop) (m : step I) (ok bad : I → Prop) : Prop :=
  match m with
  | Ret (it, inr _) => ok it
  | Ret (it, inl _) => faults ∧ bad it
  | Panic => False
  end.

Lemma runs_ok {I} faults (it : I) ok bad : ok it → runs faults (Iter.ok it) ok bad.
Proof. done. Qed.

Lemma runs_and_then {I J} faults (m : step I) (f : I → J) k ok bad (ok' bad' : J → Prop) :
  runs faults m ok bad → (∀ it, ok it → runs faults (k it) ok' bad') → (∀ it, bad it → bad' (f it)) →
  runs faults (and_then m f k) ok' bad'.
Proof.
  unfold and_then. destruct m as [[it [e|u]]|]; [|simpl; auto|done].
  intros [Hf Hb] _ H. by split; [|apply H].
Qed.

Lemma runs_weaken {I} faults (m : step I) (ok bad ok' bad' : I → Prop) :
  runs faults m ok bad → (∀ it, ok it → ok' it) → (∀ it, bad it → bad' it) → runs faults m ok' bad'.
Proof. destruct m as [[it [e|u]]|]; simpl; [intros []|..]; intuition. Qed.

(** Without faults an operation succeeds. *)
Lemma runs_reliable {I} (m : step I) ok bad : runs False m ok bad → ∃ it, m = Iter.ok it ∧ ok it.
Proof. destruct m as [[it [e|[]]]|]; simpl; [by intros []| |done]. intros H. by exists it. Qed.

Lemma runs_no_faults {I} faults (m : step I) ok bad : runs False m ok bad → runs faults m ok bad.
Proof. destruct m as [[it [e|u]]|]; simpl; [by intros []|done|done]. Qed.

(** ** The contract

    [owns all it]: iterating [it] yields the entries [all]; [stands all rest it]: it is
    positioned, with [rest] ahead of it.  [faults] tells whether operations may fail, [seeks]
    which keys may be sought (an iterator over one table is only sought within it). *)
Class IteratorSpec (I : Type) `{HummockIterator.t I} (faults : Prop) (seeks : FullKey.t → Prop) := {
  owns : list kv → I → Prop;
  stands : list kv → list kv → I → Prop;
  owns_sorted : ∀ all it, owns all it → sorted (HummockIterator.direction I) all;
  stands_owns : ∀ all rest it, stands all rest it → owns all it;
  stands_suffix : ∀ all rest it, stands all rest it → rest `suffix_of` all;
  stands_valid : ∀ all rest it, stands all rest it →
    HummockIterator.is_valid it = Ret (match rest with [] => false | _ => true end);
  stands_key : ∀ all e rest it, stands all (e :: rest) it → HummockIterator.key it = Ret e.1;
  stands_value : ∀ all e rest it, stands all (e :: rest) it → HummockIterator.value it = Ret e.2;
  stands_next : ∀ all e rest it, stands all (e :: rest) it →
    runs faults (HummockIterator.next it) (stands all rest) (λ _, True);
  owns_rewind : ∀ all it, owns all it →
    runs faults (HummockIterator.rewind it) (stands all all) (owns all);
  owns_seek : ∀ all k it, seeks k → owns all it →
    runs faults (HummockIterator.seek it k)
      (stands all (from_key (HummockIterator.direction I) k all)) (owns all)
}.
#[global] Hint Mode IteratorSpec ! - - - : typeclass_instances.
#[global] Arguments owns {I _ faults seeks _} all it.
#[global] Arguments stands {I _ faults seeks _} all rest it.

(** The keys sought in an iterator over one table. *)
Definition in_table (table : Z) (k : FullKey.t) : Prop :=
  UserKey.table_id (FullKey.user_key k) = table ∧ is_uint 64 (FullKey.epoch_with_gap k).

(** ** Combining specifications *)
Section combine.
Context {I : Type} {it : HummockIterator.t I} (faults faults' : Prop) (seeks seeks' : FullKey.t → Prop).

(** An iterator that fails less and seeks more may be used where one that fails more and seeks less
    is expected. *)
Definition weaken_spec (spec : IteratorSpec I faults seeks) (Hf : faults → faults') (Hs : ∀ k, seeks' k → seeks k) : IteratorSpec I faults' seeks'.
Proof.
  assert (∀ (m : step I) ok bad, runs faults m ok bad → runs faults' m ok bad) as Hr.
  { intros [[i [e|u]]|] ok bad; cbn; [intros [? ?]; split; auto|done|done]. }
  refine {| owns := owns (faults := faults); stands := stands (faults := faults) |}.
  - apply owns_sorted.
  - apply stands_owns.
  - apply stands_suffix.
  - apply stands_valid.
  - apply stands_key.
  - apply stands_value.
  - intros all e rest i H. by eapply Hr, stands_next.
  - intros all i H. by apply Hr, owns_rewind.
  - intros all k i Hk H. by apply Hr, owns_seek; [apply Hs|].
Defined.

(** Iterators that each meet one of several specifications. *)
Definition family_spec {X : Type} (fam : X → IteratorSpec I faults seeks) : IteratorSpec I faults seeks.
Proof.
  refine {| owns all i := ∃ x, owns (IteratorSpec := fam x) all i; stands all rest i := ∃ x, stands (IteratorSpec := fam x) all rest i |}.
  - intros all i [x H]. by eapply owns_sorted.
  - intros all rest i [x H]. exists x. by eapply stands_owns.
  - intros all rest i [x H]. by eapply stands_suffix.
  - intros all rest i [x H]. by eapply stands_valid.
  - intros all e rest i [x H]. by eapply stands_key.
  - intros all e rest i [x H]. by eapply stands_value.
  - intros all e rest i [x H]. eapply runs_weaken; [by eapply stands_next| |done]. intros i' Hi. by exists x.
  - intros all i [x H]. eapply runs_weaken; [by eapply owns_rewind| |]; intros i' Hi; by exists x.
  - intros all k i Hk [x H]. eapply runs_weaken; [by eapply owns_seek| |]; intros i' Hi; by exists x.
Defined.
End combine.

(** A phantom iterator is never made. *)
Definition phantom_spec (d : DirectionEnum.t) (faults : Prop) (seeks : FullKey.t → Prop) : IteratorSpec (PhantomHummockIterator d) faults seeks.
Proof. by refine {| owns _ _ := False; stands _ _ _ := False |}. Defined.

(** ** [HummockIteratorUnion] *)
Section union.
Context {I1 I2 I3 I4 : Type} {i1 : HummockIterator.t I1} {i2 : HummockIterator.t I2}
  {i3 : HummockIterator.t I3} {i4 : HummockIterator.t I4} (faults : Prop) (seeks : FullKey.t → Prop)
  {s1 : IteratorSpec I1 faults seeks} {s2 : IteratorSpec I2 faults seeks}
  {s3 : IteratorSpec I3 faults seeks} {s4 : IteratorSpec I4 faults seeks}
  (d2 : HummockIterator.direction I2 = HummockIterator.direction I1)
  (d3 : HummockIterator.direction I3 = HummockIterator.direction I1)
  (d4 : HummockIterator.direction I4 = HummockIterator.direction I1).

Definition union_owns (all : list kv) (u : HummockIteratorUnion I1 I2 I3 I4) : Prop :=
  match u with
  | First i => owns (faults := faults) all i | Second i => owns (faults := faults) all i
  | Third i => owns (faults := faults) all i | Fourth i => owns (faults := faults) all i
  end.

Definition union_stands (all rest : list kv) (u : HummockIteratorUnion I1 I2 I3 I4) : Prop :=
  match u with
  | First i => stands (faults := faults) all rest i | Second i => stands (faults := faults) all rest i
  | Third i => stands (faults := faults) all rest i | Fourth i => stands (faults := faults) all rest i
  end.

(** A union of lawful iterators of one direction is lawful. *)
Definition union_spec : IteratorSpec (HummockIteratorUnion I1 I2 I3 I4) faults seeks.
Proof.
  refine {| owns := union_owns; stands := union_stands |}; cbn [HummockIterator.direction union_iter].
  - intros all [i|i|i|i]; simpl; intros H; apply owns_sorted in H; congruence.
  - intros all rest [i|i|i|i] H; simpl in *; eapply stands_owns, H.
  - intros all rest [i|i|i|i] H; simpl in *; eapply stands_suffix, H.
  - intros all rest [i|i|i|i] H; simpl in *; eapply stands_valid, H.
  - intros all e rest [i|i|i|i] H; simpl in *; eapply stands_key, H.
  - intros all e rest [i|i|i|i] H; simpl in *; eapply stands_value, H.
  - intros all e rest [i|i|i|i] H; simpl in *; (eapply runs_and_then; [eapply stands_next, H| |]; done).
  - intros all [i|i|i|i] H; simpl in *; (eapply runs_and_then; [eapply owns_rewind, H| |]; done).
  - intros all k [i|i|i|i] Hk H; simpl in *;
      (eapply runs_and_then; [eapply owns_seek, H; exact Hk| |]; intros ?; cbn; rewrite ?d2, ?d3, ?d4; done).
Defined.
End union.

(** ** [MergeIterator] *)

Lemma rfilter_fmap {A B} (f : A → B) (Q : B → outcome bool) (R : A → Prop) `{!∀ x, Decision (R x)} l :
  Forall (λ x, Q (f x) = Ret (bool_decide (R x))) l → rfilter Q (f <$> l) = Ret (f <$> filter R l).
Proof.
  induction 1 as [|x l Hx _ IH]; [done|]. cbn [fmap list_fmap rfilter]. rewrite Hx. simpl. rewrite IH. simpl.
  rewrite filter_cons. case_bool_decide; case_decide; done.
Qed.

Lemma join_cons {A} (l : list A) (ll : list (list A)) : mjoin (l :: ll) = l ++ mjoin ll.
Proof. done. Qed.

Section merge.
Context {I : Type} {it : HummockIterator.t I} {bh : BinaryHeap} (faults : Prop) (seeks : FullKey.t → Prop) {spec : IteratorSpec I faults seeks}.
Abbreviation dir := (HummockIterator.direction I).
Abbreviation owns' := (owns (I := I) (faults := faults)).
Abbreviation stands' := (stands (I := I) (faults := faults)).

(** A node of the heap with the entries of its iterator and those ahead of it. *)
Abbreviation node := (I * list kv * list kv)%type.

Definition node_ok (h : node) : Prop := stands' h.1.2 h.2 h.1.1 ∧ h.2 ≠ [].

(** The first entry of the first node is the least. *)
Definition top_least (hs : list node) : Prop :=
  match hs with
  | [] => True
  | h :: _ => ∀ e r, h.2 = e :: r → Forall (kv_le dir e) (mjoin (snd <$> hs))
  end.

Definition rank (i : I) : FullKey.t :=
  match HummockIterator.key i with Ret k => k | Panic => FullKey.mk (UserKey.mk 0 []) 0 end.

Lemma node_ok_rank h : node_ok h → ∃ e r, h.2 = e :: r ∧ HummockIterator.key h.1.1 = Ret e.1 ∧
  rank h.1.1 = e.1 ∧ Forall (kv_le dir e) h.2.
Proof.
  destruct h as [[i a] [|e r]]; intros [Hs Hne]; [done|]. simpl in *. exists e, r.
  pose proof (stands_key a e r i Hs) as Hk. unfold rank. rewrite Hk. split; [done|]. split; [done|]. split; [done|].
  assert (sorted dir (e :: r)) as Hsort
    by (eapply sorted_suffix; [by eapply stands_suffix|]; by eapply owns_sorted, stands_owns).
  inversion Hsort; subst. constructor; [|done]. unfold kv_le. by rewrite (cmp_refl (dir_cmp dir)).
Qed.

Lemma node_cmp_ok h h' :
  node_ok h → node_ok h' →
  MergeIterator.node_cmp h.1.1 h'.1.1 = Ret (rev_cmp (dir_cmp dir) (rank h.1.1) (rank h'.1.1)).
Proof.
  intros (e & r & _ & Hk & -> & _)%node_ok_rank (e' & r' & _ & Hk' & -> & _)%node_ok_rank.
  unfold MergeIterator.node_cmp. rewrite Hk, Hk'. by destruct dir.
Qed.

Lemma arrange_nodes op (hs : list node) :
  Forall node_ok hs →
  ∃ hs', arrange op MergeIterator.node_cmp ((λ h, h.1.1) <$> hs) = Ret ((λ h, h.1.1) <$> hs') ∧
    hs' ≡ₚ hs ∧ top_least hs'.
Proof.
  intros Hok. rewrite Forall_forall in Hok.
  destruct (arrange_ok op MergeIterator.node_cmp (rev_cmp (dir_cmp dir)) rank ((λ h : node, h.1.1) <$> hs) _)
    as (l & Hrun & Hp & Htop).
  { intros x y (h & -> & Hh)%list_elem_of_fmap (h' & -> & Hh')%list_elem_of_fmap. by apply node_cmp_ok; auto. }
  destruct (Permutation_map_inv _ _ Hp) as (hs' & -> & Hp').
  exists hs'. split; [done|]. split; [done|].
  destruct hs' as [|h hs']; [done|]. intros e r He. apply Forall_forall.
  intros x (l & Hx & (h' & -> & Hh')%list_elem_of_fmap)%list_elem_of_join.
  rewrite <-Hp' in Hh'. destruct (node_ok_rank h') as (e' & r' & _ & _ & Hr' & Hle); [by auto|].
  destruct (node_ok_rank h) as (e0 & r0 & He0 & _ & Hr & _); [apply Hok; rewrite Hp'; by left|].
  rewrite He in He0. injection He0 as <- <-.
  transitivity e'; [|by eapply Forall_forall in Hle].
  unfold kv_le. rewrite <-Hr, <-Hr'. eapply Forall_forall in Htop; [exact Htop|].
  by apply (list_elem_of_fmap_2 (λ h : node, h.1.1)).
Qed.

Definition merge_owns (all : list kv) (m : MergeIterator.t I) : Prop :=
  ∃ parts : list (I * list kv),
    MergeIterator.unused_iters m ++ MergeIterator.heap m = parts.*1 ∧
    Forall (λ p, owns' p.2 p.1) parts ∧ sorted dir all ∧ all ≡ₚ mjoin parts.*2 ∧ coherent all.

Definition merge_stands (all rest : list kv) (m : MergeIterator.t I) : Prop :=
  ∃ (us : list (I * list kv)) (hs : list node),
    m = MergeIterator.mk us.*1 ((λ h, h.1.1) <$> hs) ∧
    Forall (λ u, stands' u.2 [] u.1) us ∧ Forall node_ok hs ∧ top_least hs ∧
    sorted dir all ∧ all ≡ₚ mjoin us.*2 ++ mjoin ((λ h, h.1.2) <$> hs) ∧ coherent all ∧
    rest `suffix_of` all ∧ rest ≡ₚ mjoin hs.*2.

Lemma merge_stands_owns all rest m : merge_stands all rest m → merge_owns all m.
Proof.
  intros (us & hs & -> & Hus & Hhs & _ & Hs & Hp & Hc & _ & _).
  exists (us ++ ((λ h, h.1) <$> hs)). simpl. rewrite !fmap_app, <-!list_fmap_compose, join_app. split; [done|].
  split; [|done]. apply Forall_app. split.
  - eapply Forall_impl; [exact Hus|]. intros u. apply stands_owns.
  - apply Forall_fmap. eapply Forall_impl; [exact Hhs|]. intros h [Hst _]. by eapply stands_owns.
Qed.

(** The top of the heap stands at the first entry ahead. *)
Lemma merge_head all e rest m :
  merge_stands all (e :: rest) m →
  ∃ us i a r hs, m = MergeIterator.mk us.*1 (i :: ((λ h, h.1.1) <$> hs)) ∧ stands' a (e :: r) i ∧
    Forall (λ u, stands' u.2 [] u.1) us ∧ Forall node_ok hs ∧
    sorted dir all ∧ all ≡ₚ mjoin us.*2 ++ a ++ mjoin ((λ h, h.1.2) <$> hs) ∧ coherent all ∧
    rest `suffix_of` all ∧ rest ≡ₚ r ++ mjoin hs.*2.
Proof.
  intros (us & hs & -> & Hus & Hhs & Htop & Hs & Hp & Hc & Hsuf & Hr).
  destruct hs as [|[[i a] r] hs]; [by apply Permutation_nil_r in Hr|].
  apply Forall_cons in Hhs as [[Hst Hne] Hhs]. cbn [fst snd] in Hst, Hne. destruct r as [|e' r]; [done|].
  assert (e = e') as ->.
  { assert (Hin : ∀ x, x ∈ e :: rest → x ∈ all).
    { intros x Hx. destruct Hsuf as [p ->]. apply elem_of_app. by right. }
    pose proof (Htop e' r eq_refl) as Hle. rewrite <-Hr in Hle.
    pose proof (sorted_suffix dir _ _ Hsuf Hs) as Hsr. inversion Hsr as [|? ? _ Hall]; subst.
    assert (e' ∈ e :: rest) as He' by (rewrite Hr; cbn; by left).
    apply (kv_le_antisym dir all); [done|apply Hin; by left|by apply Hin| |].
    - apply elem_of_cons in He' as [->|He']; [unfold kv_le; by rewrite (cmp_refl (dir_cmp dir))|].
      by eapply Forall_forall in He'.
    - by apply Forall_cons in Hle as [? _]. }
  exists us, i, a, r, hs. repeat split; try done.
  - destruct Hsuf as [p ->]. exists (p ++ [e']). by rewrite <-app_assoc.
  - cbn in Hr. by apply Permutation_cons_inv in Hr.
Qed.

Lemma merge_next all e rest m :
  merge_stands all (e :: rest) m → runs faults (MergeIterator.next m) (merge_stands all rest) (λ _, True).
Proof.
  intros (us & i & a & r & hs & -> & Hst & Hus & Hhs & Hs & Hp & Hc & Hsuf & Hr)%merge_head.
  unfold MergeIterator.next. cbn [head tail MergeIterator.heap MergeIterator.unused_iters unwrap mbind outcome_bind fmap list_fmap].
  pose proof (stands_next a e r i Hst) as Hn. unfold runs in Hn.
  destruct (HummockIterator.next i) as [[i' [err|u]]|]; [| |done]; cbn [mbind outcome_bind].
  { destruct (arrange_nodes Pop hs Hhs) as (hs' & -> & _). by destruct Hn. }
  rewrite (stands_valid a r i' Hn). destruct r as [|e' r]; cbn [mbind outcome_bind].
  - destruct (arrange_nodes Pop hs Hhs) as (hs' & -> & Hp' & Htop). simpl.
    exists (us ++ [(i', a)]), hs'. split; [by rewrite fmap_app|]. split; [by rewrite Forall_app, Forall_singleton|].
    split; [by rewrite Hp'|]. do 2 (split; [done|]). split; [|do 2 (split; [done|]); by rewrite Hp'].
    rewrite Hp, fmap_app, join_app, Hp'. cbn. by rewrite app_nil_r, <-app_assoc.
  - destruct (arrange_nodes Used ((i', a, e' :: r) :: hs)) as (hs' & Hrun & Hp' & Htop);
      [by constructor|]. cbn [fmap list_fmap fst] in Hrun. rewrite Hrun. simpl.
    exists us, hs'. do 2 (split; [done|]). split; [rewrite Hp'; by constructor|]. do 2 (split; [done|]).
    split; [by rewrite Hp, Hp'|]. do 2 (split; [done|]). by rewrite Hr, Hp'.
Qed.

(** Starting over: every iterator is rewound or sought. *)
Section restart.
Context (op : I → step I) (P : kv → Prop) {P_dec : ∀ e, Decision (P e)}.
Hypothesis op_ok : ∀ all i, owns' all i → runs faults (op i) (stands' all (filter P all)) (owns' all).

Lemma try_join_all_ok (parts : list (I * list kv)) :
  Forall (λ p, owns' p.2 p.1) parts →
  runs faults (MergeIterator.try_join_all op parts.*1)
    (λ its, ∃ parts', its = parts'.*1 ∧ parts'.*2 = parts.*2 ∧ Forall (λ p, stands' p.2 (filter P p.2) p.1) parts')
    (λ its, ∃ parts', its = parts'.*1 ∧ parts'.*2 = parts.*2 ∧ Forall (λ p, owns' p.2 p.1) parts').
Proof.
  induction 1 as [|[i a] parts Hi Hrest IH]; [by exists []|]. rewrite !fmap_cons. cbn [MergeIterator.try_join_all fst snd].
  eapply runs_and_then; [by apply op_ok| |].
  - intros i' Hi'. eapply runs_and_then; [exact IH| |].
    + intros its (parts' & -> & Hs & Hf). apply runs_ok. exists ((i', a) :: parts').
      rewrite !fmap_cons, Hs. by auto.
    + intros its (parts' & -> & Hs & Hf). exists ((i', a) :: parts'). rewrite !fmap_cons, Hs. split; [done|]. split; [done|].
      constructor; [|done]. by eapply stands_owns.
  - intros i' Hi'. exists ((i', a) :: parts). by auto.
Qed.

Lemma split_filter_perm (Q : I * list kv → Prop) `{!∀ p, Decision (Q p)} (parts : list (I * list kv)) :
  mjoin parts.*2 ≡ₚ mjoin (filter (λ p, ¬ Q p) parts).*2 ++ mjoin (filter Q parts).*2.
Proof.
  induction parts as [|p parts IH]; [done|]. rewrite !filter_cons. cbn [fmap list_fmap mjoin list_join].
  destruct (decide (Q p)); [rewrite decide_False by tauto|rewrite decide_True by tauto]; cbn [fmap list_fmap mjoin list_join]; rewrite IH.
  - apply Permutation_app_swap_app.
  - by rewrite (assoc_L (++)).
Qed.

Lemma filter_mjoin (ll : list (list kv)) : filter P (mjoin ll) = mjoin (filter P <$> ll).
Proof. induction ll as [|l ll IH]; [done|]. rewrite fmap_cons, !join_cons. by rewrite filter_app, IH. Qed.

Definition has_entry (p : I * list kv) : Prop := filter P p.2 ≠ [].

#[local] Instance has_entry_dec p : Decision (has_entry p).
Proof. unfold has_entry. destruct (filter P p.2); [right; by intros []|by left]. Defined.

Lemma has_entry_valid p : stands' p.2 (filter P p.2) p.1 → HummockIterator.is_valid p.1 = Ret (bool_decide (has_entry p)).
Proof.
  intros H. rewrite (stands_valid _ _ _ H). case_bool_decide as Hb; unfold has_entry in Hb; (destruct (filter P p.2); [done || by destruct Hb|done || by destruct Hb]).
Qed.

Lemma filter_split_perm {A} (Q : A → Prop) `{!∀ a, Decision (Q a)} (l : list A) : l ≡ₚ filter Q l ++ filter (λ a, ¬ Q a) l.
Proof.
  induction l as [|a l IH]; [done|]. rewrite !filter_cons. destruct (decide (Q a)); [rewrite decide_False by tauto|rewrite decide_True by tauto].
  - cbn. by rewrite <-IH.
  - by rewrite <-Permutation_middle, <-IH.
Qed.

Lemma build_heap_ok (parts : list (I * list kv)) all :
  Forall (λ p, stands' p.2 (filter P p.2) p.1) parts →
  sorted dir all → all ≡ₚ mjoin parts.*2 → coherent all → filter P all `suffix_of` all →
  ∃ m, MergeIterator.build_heap (MergeIterator.mk parts.*1 []) = Ret m ∧ merge_stands all (filter P all) m ∧
    MergeIterator.unused_iters m ++ MergeIterator.heap m ≡ₚ parts.*1.
Proof.
  intros Hst Hs Hp Hc Hsuf. set (hs := (λ p : I * list kv, (p.1, p.2, filter P p.2)) <$> filter has_entry parts).
  assert (Forall node_ok hs) as Hhs.
  { apply Forall_fmap, Forall_forall. intros p [HQ Hp']%list_elem_of_filter.
    rewrite Forall_forall in Hst. split; [exact (Hst p Hp')|exact HQ]. }
  destruct (arrange_nodes Build hs Hhs) as (hs' & Hrun & Hp' & Htop).
  unfold MergeIterator.build_heap. cbn [MergeIterator.heap MergeIterator.unused_iters rassert mbind outcome_bind].
  assert (Forall (λ p, HummockIterator.is_valid p.1 = Ret (bool_decide (has_entry p))) parts) as Hv.
  { eapply Forall_impl; [exact Hst|]. intros p. apply has_entry_valid. }
  rewrite (rfilter_fmap fst HummockIterator.is_valid has_entry) by done. cbn [mbind outcome_bind].
  rewrite (rfilter_fmap fst _ (λ p, ¬ has_entry p)).
  2: { eapply Forall_impl; [exact Hv|]. intros p ->. simpl. by rewrite bool_decide_not. }
  cbn [mbind outcome_bind].
  replace ((filter has_entry parts).*1) with ((λ h : node, h.1.1) <$> hs) by (unfold hs; by rewrite <-list_fmap_compose).
  rewrite Hrun. eexists. split; [done|]. split.
  2: { cbn [MergeIterator.unused_iters MergeIterator.heap]. rewrite Hp'. unfold hs. rewrite <-list_fmap_compose.
       change (compose _ _ <$> filter has_entry parts) with ((filter has_entry parts).*1).
       rewrite <-(fmap_app fst). apply fmap_Permutation. symmetry. rewrite Permutation_app_comm. apply filter_split_perm. }
  exists (filter (λ p, ¬ has_entry p) parts), hs'. split; [done|].
  split; [|split; [by rewrite Hp'|]; split; [done|]; split; [done|]; split; [|split; [done|]; split; [done|]]].
  - apply Forall_forall. intros p [HQ Hp0]%list_elem_of_filter. rewrite Forall_forall in Hst. specialize (Hst p Hp0).
    unfold has_entry in HQ. simpl in Hst. destruct (filter P p.2); [done|]. by destruct HQ.
  - rewrite Hp, (split_filter_perm has_entry parts), Hp'. unfold hs. by rewrite <-list_fmap_compose.
  - rewrite Hp at 1. rewrite filter_mjoin, Hp'. unfold hs. rewrite <-list_fmap_compose.
    clear. induction parts as [|p parts IH]; [done|]. rewrite filter_cons, !fmap_cons, join_cons.
    rewrite IH. case_decide as HQ; [done|]. unfold has_entry in HQ. cbn [compose]. by destruct (filter P p.2); [|destruct HQ].
Qed.

Lemma restart_ok all m :
  merge_owns all m → filter P all `suffix_of` all →
  runs faults (MergeIterator.restart op m) (merge_stands all (filter P all)) (merge_owns all).
Proof.
  intros (parts & Hits & Hown & Hs & Hp & Hc) Hsuf. unfold MergeIterator.restart.
  cbn [MergeIterator.reset_heap MergeIterator.unused_iters]. rewrite Hits.
  eapply runs_and_then; [by apply try_join_all_ok| |].
  - intros its (parts' & -> & Hs2 & Hf). destruct (build_heap_ok parts' all) as (m' & -> & Hm' & _); [done..| |done|done|done].
    by rewrite Hs2.
  - intros its (parts' & -> & Hs2 & Hf). exists parts'. simpl. rewrite app_nil_r, Hs2. done.
Qed.
End restart.

(** The merge of lawful iterators is lawful; it denotes the sorted merge of their entries. *)
Definition merge_spec : IteratorSpec (MergeIterator.t I) faults seeks.
Proof.
  refine {| owns := merge_owns; stands := merge_stands |};
    cbn [HummockIterator.direction HummockIterator.next HummockIterator.key HummockIterator.value
         HummockIterator.is_valid HummockIterator.rewind HummockIterator.seek MergeIterator.merge_iter].
  - by intros all m (parts & _ & _ & Hs & _).
  - apply merge_stands_owns.
  - by intros all rest m (us & hs & _ & _ & _ & _ & _ & _ & _ & Hsuf & _).
  - intros all [|e rest] m Hm.
    + destruct Hm as (us & hs & -> & _ & Hhs & _ & _ & _ & _ & _ & Hr). destruct hs as [|h hs]; [done|].
      apply Forall_cons in Hhs as [[_ Hne] _]. apply Permutation_nil_l in Hr. cbn in Hr. by destruct (h.2).
    + apply merge_head in Hm as (us & i & a & r & hs & -> & Hst & _).
      exact (stands_valid _ _ _ Hst).
  - intros all e rest m (us & i & a & r & hs & -> & Hst & _)%merge_head. exact (stands_key _ _ _ _ Hst).
  - intros all e rest m (us & i & a & r & hs & -> & Hst & _)%merge_head. exact (stands_value _ _ _ _ Hst).
  - apply merge_next.
  - intros all m Hm. assert (filter (λ _ : kv, True) all = all) as E by by apply filter_all.
    eapply runs_weaken; [apply (restart_ok HummockIterator.rewind (λ _, True)); [|exact Hm|by rewrite E]| |done].
    + intros a i Hi. rewrite filter_all by done. by apply owns_rewind.
    + intros m'. by rewrite E.
  - intros all k m Hk Hm. apply (restart_ok (λ i, HummockIterator.seek i k)); [|done|].
    + intros a i Hi. by apply owns_seek.
    + apply from_key_suffix. by destruct Hm as (parts & _ & _ & Hs & _).
Defined.

(** A merge of lawful iterators denotes their entries, sorted. *)
Lemma merge_create_owns (ls : list (list kv)) (iters : list I) :
  Forall2 owns' ls iters → coherent (mjoin ls) → merge_owns (merge_sort (kv_le dir) (mjoin ls)) (MergeIterator.create iters).
Proof.
  intros H Hc. exists (zip iters ls). pose proof (Forall2_length _ _ _ H) as Hl. unfold MergeIterator.create. cbn.
  rewrite app_nil_r, fst_zip, snd_zip by lia. split; [done|]. split; [|split; [apply StronglySorted_merge_sort; apply _|]].
  - clear Hl Hc. induction H; [constructor|]. by constructor.
  - by rewrite !merge_sort_Permutation.
Qed.

(** Cancelling [next] keeps every iterator, so that starting over loses nothing. *)
Lemma drop_guard_owns all rest m top :
  merge_stands all rest m →
  (∀ a, (∃ i, head (MergeIterator.heap m) = Some i ∧ owns' a i) → owns' a top) →
  MergeIterator.heap m ≠ [] →
  ∃ m', MergeIterator.drop_guard m top = Ret m' ∧ merge_owns all m'.
Proof.
  intros (us & hs & -> & Hus & Hhs & _ & Hs & Hp & Hc & _ & _) Htop Hne.
  destruct hs as [|[[i a] r] hs]; [done|]. apply Forall_cons in Hhs as [[Hi _] Hhs]. simpl in Htop.
  unfold MergeIterator.drop_guard. cbn [MergeIterator.heap MergeIterator.unused_iters fmap list_fmap tail].
  destruct (arrange_nodes Pop hs Hhs) as (hs' & Hrun & Hp' & _). cbn [fst] in Hrun |- *. rewrite Hrun.
  eexists. split; [done|]. exists (us ++ (top, a) :: ((λ h, h.1) <$> hs')). simpl.
  rewrite !fmap_app. cbn [fmap list_fmap fst snd]. rewrite <-!list_fmap_compose, <-app_assoc. split; [done|]. split.
  - apply Forall_app. split; [eapply Forall_impl; [exact Hus|]; intros u; apply stands_owns|].
    constructor; [apply Htop; exists i; split; [done|by eapply stands_owns]|].
    apply Forall_fmap. rewrite <-Hp' in Hhs. eapply Forall_impl; [exact Hhs|]. intros h [Hst _]. by eapply stands_owns.
  - split; [done|]. split; [|done]. rewrite Hp, join_app. cbn. by rewrite Hp'.
Qed.
End merge.

(** ** Reading an iterator to its end *)
Section collect.
Context {I : Type} {it : HummockIterator.t I}.

(** The entries a client reads with [next] until the iterator is exhausted or fails. *)
Fixpoint collect (n : nat) (i : I) : outcome (list kv * HummockResult unit) :=
  match n with
  | O => Panic
  | S n =>
      valid ← HummockIterator.is_valid i;
      if (valid : bool) then
        k ← HummockIterator.key i;
        v ← HummockIterator.value i;
        '(i, r) ← HummockIterator.next i;
        match r with
        | inl e => Ret ([(k, v)], inl e)
        | inr _ => '(l, r) ← collect n i; Ret ((k, v) :: l, r)
        end
      else Ret ([], inr tt)
  end.

Definition collect_from (n : nat) (m : step I) : outcome (list kv * HummockResult unit) :=
  '(i, r) ← m; match r with inl e => Ret ([], inl e) | inr _ => collect n i end.

(** All entries, or some of the first and an error. *)
Definition yields (faults : Prop) (m : outcome (list kv * HummockResult unit)) (es : list kv) : Prop :=
  ∃ l r, m = Ret (l, r) ∧ match r with inr _ => l = es | inl _ => faults ∧ l `prefix_of` es end.

(** An iterator that moves along a list yields it. *)
Lemma collect_ok (faults : Prop) (at_ : list kv → I → Prop) :
  (∀ rest i, at_ rest i → HummockIterator.is_valid i = Ret (match rest with [] => false | _ => true end)) →
  (∀ e rest i, at_ (e :: rest) i → HummockIterator.key i = Ret e.1 ∧ HummockIterator.value i = Ret e.2) →
  (∀ e rest i, at_ (e :: rest) i → runs faults (HummockIterator.next i) (at_ rest) (λ _, True)) →
  ∀ n rest i, at_ rest i → length rest < n → yields faults (collect n i) rest.
Proof.
  intros Hval Hkv Hnext. induction n as [|n IH]; intros rest i Hi Hn; [lia|]. cbn [collect].
  rewrite (Hval rest i Hi). destruct rest as [|[k v] rest]; cbn [mbind outcome_bind]; [by exists [], (inr tt)|].
  destruct (Hkv _ _ _ Hi) as [-> ->]. cbn [mbind outcome_bind fst snd]. specialize (Hnext _ _ _ Hi). unfold runs in Hnext.
  destruct (HummockIterator.next i) as [[i' [err|[]]]|]; [| |done]; cbn [mbind outcome_bind].
  - destruct Hnext as [Hf _]. eexists _, _. split; [done|]. split; [done|]. apply prefix_cons, prefix_nil.
  - destruct (IH rest i' Hnext ltac:(simpl in Hn; lia)) as (l & r & -> & Hr). exists ((k, v) :: l), r. split; [done|].
    destruct r; [|by subst]. destruct Hr as [Hf Hp]. split; [done|by apply prefix_cons].
Qed.

Lemma collect_from_ok (faults : Prop) (m : step I) (P : I → Prop) bad es n :
  runs faults m P bad → (∀ i, P i → yields faults (collect n i) es) → yields faults (collect_from n m) es.
Proof.
  unfold runs, collect_from. destruct m as [[i [err|[]]]|]; cbn [mbind outcome_bind]; [|by auto|done].
  intros [Hf _] _. exists [], (inl err). split; [done|]. split; [done|apply prefix_nil].
Qed.

(** Reading a lawful iterator. *)
Lemma spec_collect (faults : Prop) seeks {spec : IteratorSpec I faults seeks} all rest i n :
  stands (faults := faults) all rest i → length rest < n → yields faults (collect n i) rest.
Proof.
  intros Hi Hn. apply (collect_ok faults (stands all)); [| | |done|done].
  - intros r j. apply stands_valid.
  - intros e r j Hj. split; [by eapply stands_key|by eapply stands_value].
  - intros e r j Hj. by eapply stands_next.
Qed.

Lemma spec_rewind_collect (faults : Prop) seeks {spec : IteratorSpec I faults seeks} all i n :
  owns (faults := faults) all i → length all < n → yields faults (collect_from n (HummockIterator.rewind i)) all.
Proof.
  intros Hi Hn. eapply collect_from_ok; [by apply owns_rewind|]. intros j Hj. by eapply spec_collect.
Qed.

Lemma spec_seek_collect (faults : Prop) seeks {spec : IteratorSpec I faults seeks} all i k n :
  seeks k → owns (faults := faults) all i → length all < n →
  yields faults (collect_from n (HummockIterator.seek i k)) (from_key (HummockIterator.direction I) k all).
Proof.
  intros Hk Hi Hn. eapply collect_from_ok; [by apply owns_seek|]. intros j Hj. eapply spec_collect; [exact Hj|].
  unfold from_key. pose proof (length_filter (λ e, dir_cmp (HummockIterator.direction I) e.1 k ≠ Lt) all). lia.
Qed.
End collect.

(** ** A heap that scans its elements, for examples *)

Fixpoint raise {A} (cmp : A → A → outcome comparison) (top : A) (l : list A) : outcome (A * list A) :=
  match l with
  | [] => Ret (top, [])
  | x :: l =>
      o ← cmp x top;
      '(t, r) ← raise cmp (match o with Gt => x | _ => top end) l;
      Ret (t, match o with Gt => top | _ => x end :: r)
  end.

Lemma raise_ok {A K} (cmp : A → A → outcome comparison) (c : K → K → comparison) (rank : A → K) (Hc : TotalCmp c) l : ∀ top,
  (∀ a b, a ∈ top :: l → b ∈ top :: l → cmp a b = Ret (c (rank a) (rank b))) →
  ∃ t r, raise cmp top l = Ret (t, r) ∧ t :: r ≡ₚ top :: l ∧ Forall (λ a, c (rank a) (rank t) ≠ Gt) (top :: l).
Proof.
  induction l as [|x l IH]; intros top Hcmp.
  { exists top, []. split; [done|]. split; [done|]. constructor; [|constructor]. by rewrite (cmp_refl c). }
  cbn [raise]. rewrite Hcmp by (rewrite !elem_of_cons; auto). cbn [mbind outcome_bind].
  assert (∃ hi lo, [hi; lo] ≡ₚ [top; x] ∧ c (rank lo) (rank hi) ≠ Gt ∧
    (match c (rank x) (rank top) with Gt => x | _ => top end) = hi ∧ (match c (rank x) (rank top) with Gt => top | _ => x end) = lo)
    as (hi & lo & Hp & Hle & -> & ->).
  { destruct (c (rank x) (rank top)) eqn:E; [exists top, x|exists top, x|exists x, top]; (split; [first [done|by apply Permutation_swap]|]); split; try done.
    - by rewrite E.
    - by rewrite E.
    - by rewrite (cmp_antisym c (rank x)), E. }
  assert (hi :: lo :: l ≡ₚ top :: x :: l) as Hpl by by rewrite (Permutation_app_tail l Hp).
  destruct (IH hi) as (t & r & Hrun & Hpt & Hmax).
  { intros a b Ha Hb. apply Hcmp; rewrite <-Hpl, !elem_of_cons; rewrite elem_of_cons in Ha, Hb; tauto. }
  rewrite Hrun. cbn [mbind outcome_bind]. exists t, (lo :: r). split; [done|]. split.
  - rewrite <-Hpl. transitivity (lo :: t :: r); [apply Permutation_swap|]. rewrite Hpt. apply Permutation_swap.
  - rewrite <-Hpl. apply Forall_cons in Hmax as [Hhi Hmax]. constructor; [done|]. constructor; [|done].
    by eapply (cmp_le_trans c).
Qed.

Definition scan_heap : BinaryHeap.
Proof.
  refine {| arrange A op cmp l := match l with [] => Ret [] | x :: l => '(t, r) ← raise cmp x l; Ret (t :: r) end |}.
  intros A K op cmp c rank [|x l] Hc Hcmp; [by exists []|].
  destruct (raise_ok cmp c rank Hc l x Hcmp) as (t & r & -> & Hp & Hmax). by exists (t :: r).
Defined.
