(* ===== verification/MemTable.v ===== *)
(** * Mem-tables

    [src/storage/src/mem_table.rs], [KvSize] of [common/estimate_size], [OpConsistencyLevel] of
    [store.rs], [FromRustIterator] of [hummock/iterator/mod.rs] and the sanity checks of
    [hummock/utils.rs]: the buffer of the writes of an epoch that are not yet in a batch, its
    iterators in both directions, the stream that lays it over a store, and
    [MemtableLocalStateStore].  A [BTreeMap] is the list of its pairs in ascending order of the
    keys.  The theorems are in [MemTableSpec.v]. *)

From Stdlib Require Import ZArith Lia.
From S2P Require Import Prelude Order Bytes Epoch Bits Bitmap Vnode Key KeySpec KeyRange Sst Block Iter.

(** ** [std::collections::BTreeMap] *)
Module BTreeMap.
Section map.
Context {K V : Type} (cmp : K → K → comparison).
Abbreviation map := (list (K * V)).

Fixpoint get (m : map) (k : K) : option V :=
  match m with
  | [] => None
  | (k', v) :: m' => match cmp k k' with Lt => None | Eq => Some v | Gt => get m' k end
  end.

(** The old value is [get m k]. *)
Fixpoint insert (m : map) (k : K) (v : V) : map :=
  match m with
  | [] => [(k, v)]
  | (k', v') :: m' =>
      match cmp k k' with
      | Lt => (k, v) :: m
      | Eq => (k', v) :: m'
      | Gt => (k', v') :: insert m' k v
      end
  end.

Fixpoint remove (m : map) (k : K) : map :=
  match m with
  | [] => []
  | (k', v') :: m' =>
      match cmp k k' with Lt => m | Eq => m' | Gt => (k', v') :: remove m' k end
  end.

(** [range] panics when the start is above the end, or equal to it with both ends excluded. *)
Definition range_valid (range : Bound K * Bound K) : bool :=
  match range with
  | (Excluded s, Excluded e) => cmp_ltb cmp s e
  | (Included s, Included e) | (Included s, Excluded e) | (Excluded s, Included e) => cmp_leb cmp s e
  | _ => true
  end.

Definition range (m : map) (r : Bound K * Bound K) : outcome map :=
  rassert (range_valid r);; Ret (filter (λ p, contains cmp r p.1 = true) m).

End map.
End BTreeMap.

(** ** [KeyOp] and [OpConsistencyLevel] *)
Module KeyOp.

Inductive t := Insert (v : list byte) | Delete (old : list byte) | Update (old new : list byte).

#[global] Instance t_eq_dec : EqDecision t.
Proof. solve_decision. Defined.

(** The derived [EstimateSize]: the bytes the fields hold on the heap. *)
Definition estimated_heap_size (self : t) : Z :=
  match self with
  | Insert v | Delete v => Z.of_nat (length v)
  | Update o n => wrap 64 (Z.of_nat (length o) + Z.of_nat (length n))
  end.

End KeyOp.

Module OpConsistencyLevel.

Inductive t :=
| Inconsistent
| ConsistentOldValue (check_old_value : list byte → list byte → bool) (is_log_store : bool).

(** [PartialEq] does not look at the checker. *)
Definition eqb (self other : t) : bool :=
  match self, other with
  | Inconsistent, Inconsistent => true
  | ConsistentOldValue _ l1, ConsistentOldValue _ l2 => Bool.eqb l1 l2
  | _, _ => false
  end.

Definition update (self new_level : t) : outcome t := rassert (negb (eqb self new_level));; Ret new_level.

End OpConsistencyLevel.

(** [CHECK_BYTES_EQUAL] *)
Definition CHECK_BYTES_EQUAL (first second : list byte) : bool := bool_decide (first = second).

(** ** [KvSize], a [usize] that saturates *)
Module KvSize.
Section size.
(** [size_of::<Bytes>()], which is that of a [TableKey<Bytes>], and [size_of::<KeyOp>()]. *)
Context (size_of_Bytes size_of_KeyOp : Z).

Definition new : Z := 0.
Definition add_size (self size : Z) : Z := Z.min u64_max (self + size).
Definition sub_size (self size : Z) : Z := Z.max 0 (self - size).

(** [EstimateSize::estimated_size] of a key and of an operation. *)
Definition key_size (k : TableKey.t) : Z := wrap 64 (Z.of_nat (length k) + size_of_Bytes).
Definition op_size (op : KeyOp.t) : Z := wrap 64 (KeyOp.estimated_heap_size op + size_of_KeyOp).

Definition add (self : Z) (key : TableKey.t) (val : KeyOp.t) : Z :=
  add_size (add_size self (key_size key)) (op_size val).
Definition add_val (self : Z) (val : KeyOp.t) : Z := add_size self (op_size val).
Definition sub_val (self : Z) (val : KeyOp.t) : Z := sub_size self (op_size val).

End size.
End KvSize.

(** ** [MemTable] *)
Module MemTableError.
Inductive t := InconsistentOperation (key : TableKey.t) (prev new : KeyOp.t).
End MemTableError.

Module MemTable.

Abbreviation MemTableStore := (list (TableKey.t * KeyOp.t)).

Record t := mk {
  buffer : MemTableStore;
  op_consistency_level : OpConsistencyLevel.t;
  kv_size : Z
}.

(** The table an operation leaves behind and its result. *)
Abbreviation result := (t * (MemTableError.t + unit))%type.

Definition new (op_consistency_level : OpConsistencyLevel.t) : t := mk [] op_consistency_level KvSize.new.

(** [drain]: the table that stays, and the one taken out, whose size was set to 0. *)
Definition drain (self : t) : t * t :=
  (new (op_consistency_level self), mk (buffer self) (op_consistency_level self) 0).

Definition is_dirty (self : t) : bool := match buffer self with [] => false | _ => true end.

Definition into_parts (self : t) : MemTableStore := buffer self.

Definition iter (self : t) (key_range : TableKeyRange) : outcome MemTableStore := BTreeMap.range bytes_cmp (buffer self) key_range.
Definition rev_iter (self : t) (key_range : TableKeyRange) : outcome MemTableStore :=
  reverse <$> BTreeMap.range bytes_cmp (buffer self) key_range.

Section ops.
Context (size_of_Bytes size_of_KeyOp : Z) (sanity_check_enabled : bool).
Abbreviation add := (KvSize.add size_of_Bytes size_of_KeyOp).
Abbreviation add_val := (KvSize.add_val size_of_KeyOp).
Abbreviation sub_val := (KvSize.sub_val size_of_KeyOp).

Definition sub_old_op_size (kv_size : Z) (old_op : option KeyOp.t) (key_len : Z) : Z :=
  match old_op with Some op => KvSize.sub_size (sub_val kv_size op) key_len | None => kv_size end.

(** The branch of [OpConsistencyLevel::Inconsistent]: the last operation of a key wins. *)
Definition overwrite (self : t) (pk : TableKey.t) (op : KeyOp.t) : result :=
  let key_len := wrap 64 (size_of_Bytes + Z.of_nat (length pk)) in
  let old_op := BTreeMap.get bytes_cmp (buffer self) pk in
  (mk (BTreeMap.insert bytes_cmp (buffer self) pk op) (op_consistency_level self)
      (sub_old_op_size (add (kv_size self) pk op) old_op key_len), inr tt).

(** A vacant entry is filled. *)
Definition fill (self : t) (pk : TableKey.t) (op : KeyOp.t) : result :=
  (mk (BTreeMap.insert bytes_cmp (buffer self) pk op) (op_consistency_level self) (add (kv_size self) pk op), inr tt).

(** An occupied entry, its old operation already subtracted from [kv_size], is replaced. *)
Definition replace (self : t) (kv_size : Z) (pk : TableKey.t) (new_op : KeyOp.t) : result :=
  (mk (BTreeMap.insert bytes_cmp (buffer self) pk new_op) (op_consistency_level self) (add_val kv_size new_op), inr tt).

(** The entry stays, with the size as it is by then. *)
Definition reject (self : t) (kv_size : Z) (pk : TableKey.t) (old_op new_op : KeyOp.t) : result :=
  (mk (buffer self) (op_consistency_level self) kv_size,
   inl (MemTableError.InconsistentOperation pk old_op new_op)).

Definition insert (self : t) (pk : TableKey.t) (value : list byte) : result :=
  match op_consistency_level self with
  | OpConsistencyLevel.Inconsistent => overwrite self pk (KeyOp.Insert value)
  | OpConsistencyLevel.ConsistentOldValue _ _ =>
      match BTreeMap.get bytes_cmp (buffer self) pk with
      | None => fill self pk (KeyOp.Insert value)
      | Some old_op =>
          let kv_size := sub_val (kv_size self) old_op in
          match old_op with
          | KeyOp.Delete old_op_old_value => replace self kv_size pk (KeyOp.Update old_op_old_value value)
          | KeyOp.Insert _ | KeyOp.Update _ _ =>
              let new_op := KeyOp.Insert value in
              if sanity_check_enabled then reject self kv_size pk old_op new_op else replace self kv_size pk new_op
          end
      end
  end.

Definition delete (self : t) (pk : TableKey.t) (old_value : list byte) : result :=
  let key_len := wrap 64 (size_of_Bytes + Z.of_nat (length pk)) in
  match op_consistency_level self with
  | OpConsistencyLevel.Inconsistent => overwrite self pk (KeyOp.Delete old_value)
  | OpConsistencyLevel.ConsistentOldValue value_checker _ =>
      match BTreeMap.get bytes_cmp (buffer self) pk with
      | None => fill self pk (KeyOp.Delete old_value)
      | Some old_op =>
          let kv_size := sub_val (kv_size self) old_op in
          match old_op with
          | KeyOp.Insert old_op_new_value =>
              if sanity_check_enabled && negb (value_checker old_op_new_value old_value)
              then reject self kv_size pk old_op (KeyOp.Delete old_value)
              else (mk (BTreeMap.remove bytes_cmp (buffer self) pk) (op_consistency_level self) (KvSize.sub_size kv_size key_len), inr tt)
          | KeyOp.Delete _ =>
              let new_op := KeyOp.Delete old_value in
              if sanity_check_enabled then reject self kv_size pk old_op new_op else replace self kv_size pk new_op
          | KeyOp.Update old_op_old_value old_op_new_value =>
              if sanity_check_enabled && negb (value_checker old_op_new_value old_value)
              then reject self kv_size pk old_op (KeyOp.Delete old_value)
              else replace self kv_size pk (KeyOp.Delete old_op_old_value)
          end
      end
  end.

Definition update (self : t) (pk : TableKey.t) (old_value new_value : list byte) : result :=
  match op_consistency_level self with
  | OpConsistencyLevel.Inconsistent => overwrite self pk (KeyOp.Update old_value new_value)
  | OpConsistencyLevel.ConsistentOldValue value_checker _ =>
      match BTreeMap.get bytes_cmp (buffer self) pk with
      | None => fill self pk (KeyOp.Update old_value new_value)
      | Some old_op =>
          let kv_size := sub_val (kv_size self) old_op in
          match old_op with
          | KeyOp.Insert old_op_new_value =>
              if sanity_check_enabled && negb (value_checker old_op_new_value old_value)
              then reject self kv_size pk old_op (KeyOp.Update old_value new_value)
              else replace self kv_size pk (KeyOp.Insert new_value)
          | KeyOp.Update old_op_old_value old_op_new_value =>
              if sanity_check_enabled && negb (value_checker old_op_new_value old_value)
              then reject self kv_size pk old_op (KeyOp.Update old_value new_value)
              else replace self kv_size pk (KeyOp.Update old_op_old_value new_value)
          | KeyOp.Delete _ =>
              let new_op := KeyOp.Update old_value new_value in
              if sanity_check_enabled then reject self kv_size pk old_op new_op else replace self kv_size pk new_op
          end
      end
  end.

End ops.
End MemTable.

(** ** [FromRustIterator] *)
Module RustIteratorBuilder.

(** The trait: how an iterable is iterated from its start and from a key. *)
Class t (B : Type) := {
  Iterable : Type;
  direction : DirectionEnum.t;
  seek : Iterable → TableKey.t → list (TableKey.t * HummockValue.t);
  rewind : Iterable → list (TableKey.t * HummockValue.t)
}.
#[global] Arguments Iterable B {_}.
#[global] Arguments direction B {_}.
#[global] Arguments seek B {_}.
#[global] Arguments rewind B {_}.
#[global] Hint Mode t ! : typeclass_instances.

End RustIteratorBuilder.

Module FromRustIterator.

(** [iter]: what the Rust iterator has yet to give, with the key and the value it stands at. *)
Record t (B : Type) `{RustIteratorBuilder.t B} := mk {
  inner : RustIteratorBuilder.Iterable B;
  iter : option (list (TableKey.t * HummockValue.t) * TableKey.t * HummockValue.t);
  epoch : Z;
  table_id : Z
}.
Arguments mk {B _} inner iter epoch table_id.
Arguments inner {B _} t.
Arguments iter {B _} t.
Arguments epoch {B _} t.
Arguments table_id {B _} t.

Section iter.
Context {B : Type} `{RustIteratorBuilder.t B}.

Definition new (inner : RustIteratorBuilder.Iterable B) (epoch table_id : Z) : t B := mk inner None epoch table_id.

Definition set_iter (self : t B) i : t B := mk (inner self) i (epoch self) (table_id self).

(** Stand at the next pair of a Rust iterator. *)
Definition settle_at (self : t B) (it : list (TableKey.t * HummockValue.t)) : t B :=
  match it with
  | (key, value) :: it => set_iter self (Some (it, key, value))
  | [] => set_iter self None
  end.

Definition rewind (self : t B) : step (t B) := ok (settle_at self (RustIteratorBuilder.rewind B (inner self))).

(** [seek_inner] and [rev_seek_inner]. *)
Definition seek_inner (self : t B) (key : FullKey.t) : step (t B) :=
  match Z.compare (table_id self) (UserKey.table_id (FullKey.user_key key)) with
  | Lt => ok (set_iter self None)
  | Gt => rewind self
  | Eq =>
      let it := RustIteratorBuilder.seek B (inner self) (UserKey.table_key (FullKey.user_key key)) in
      match it with
      | (first_key, _) :: rest =>
          if bool_decide (first_key = UserKey.table_key (FullKey.user_key key)) && (FullKey.epoch_with_gap key <? epoch self)%Z then
            match rest with
            | (next_key, _) :: _ => rassert (cmp_ltb bytes_cmp first_key next_key);; ok (settle_at self rest)
            | [] => ok (set_iter self None)
            end
          else ok (settle_at self it)
      | [] => ok (set_iter self None)
      end
  end.

Definition rev_seek_inner (self : t B) (key : FullKey.t) : step (t B) :=
  match Z.compare (table_id self) (UserKey.table_id (FullKey.user_key key)) with
  | Lt => rewind self
  | Gt => ok (set_iter self None)
  | Eq =>
      let it := RustIteratorBuilder.seek B (inner self) (UserKey.table_key (FullKey.user_key key)) in
      match it with
      | (first_key, _) :: rest =>
          if bool_decide (first_key = UserKey.table_key (FullKey.user_key key)) && (epoch self <? FullKey.epoch_with_gap key)%Z then
            match rest with
            | (next_key, _) :: _ => rassert (cmp_ltb bytes_cmp next_key first_key);; ok (settle_at self rest)
            | [] => ok (set_iter self None)
            end
          else ok (settle_at self it)
      | [] => ok (set_iter self None)
      end
  end.

Definition next (self : t B) : step (t B) :=
  '(it, _, _) ← unwrap (iter self); ok (settle_at self it).

Definition key (self : t B) : outcome FullKey.t :=
  '(_, k, _) ← unwrap (iter self);
  Ret (FullKey.mk (UserKey.mk (table_id self) k) (epoch self)).

Definition value (self : t B) : outcome HummockValue.t := '(_, _, v) ← unwrap (iter self); Ret v.

Definition is_valid (self : t B) : outcome bool := Ret (match iter self with Some _ => true | None => false end).

Definition seek (self : t B) (key : FullKey.t) : step (t B) :=
  match RustIteratorBuilder.direction B with
  | DirectionEnum.Forward => seek_inner self key
  | DirectionEnum.Backward => rev_seek_inner self key
  end.

#[global] Instance rust_iter : HummockIterator.t (t B) := {|
  HummockIterator.direction := RustIteratorBuilder.direction B;
  HummockIterator.next := next;
  HummockIterator.key := key;
  HummockIterator.value := value;
  HummockIterator.is_valid := is_valid;
  HummockIterator.rewind := rewind;
  HummockIterator.seek := seek
|}.
End iter.
End FromRustIterator.

(** The mem-table as an iterable. *)
Definition map_to_hummock_value (p : TableKey.t * KeyOp.t) : TableKey.t * HummockValue.t :=
  (p.1, match p.2 with
        | KeyOp.Insert value | KeyOp.Update _ value => HummockValue.Put value
        | KeyOp.Delete _ => HummockValue.Delete
        end).

Inductive MemTableIteratorBuilder := MemTableIteratorBuilder_.
Inductive MemTableRevIteratorBuilder := MemTableRevIteratorBuilder_.

#[global] Instance mem_table_builder : RustIteratorBuilder.t MemTableIteratorBuilder := {|
  RustIteratorBuilder.Iterable := MemTable.MemTableStore;
  RustIteratorBuilder.direction := DirectionEnum.Forward;
  RustIteratorBuilder.seek iterable seek_key :=
    map_to_hummock_value <$> filter (λ p, contains bytes_cmp (Included seek_key, Unbounded) p.1 = true) iterable;
  RustIteratorBuilder.rewind iterable := map_to_hummock_value <$> iterable
|}.

#[global] Instance mem_table_rev_builder : RustIteratorBuilder.t MemTableRevIteratorBuilder := {|
  RustIteratorBuilder.Iterable := MemTable.MemTableStore;
  RustIteratorBuilder.direction := DirectionEnum.Backward;
  RustIteratorBuilder.seek iterable seek_key :=
    map_to_hummock_value <$> reverse (filter (λ p, contains bytes_cmp (Unbounded, Included seek_key) p.1 = true) iterable);
  RustIteratorBuilder.rewind iterable := map_to_hummock_value <$> reverse iterable
|}.

Abbreviation MemTableHummockIterator := (FromRustIterator.t MemTableIteratorBuilder).
Abbreviation MemTableHummockRevIterator := (FromRustIterator.t MemTableRevIteratorBuilder).
