(* ===== verification/MemTableSpec.v ===== *)
(** * Mem-tables: laws and theorems

    The mem-table as the difference between a stored table and the table a writer sees: its
    operations keep that, reject what contradicts it, and account for its size; and its
    iterators keep the contract of [IterSpec.v] in both directions. *)

From Stdlib Require Import ZArith Lia.
From S2P Require Import Prelude Order Bytes Epoch Bits Bitmap Vnode Key KeySpec KeyOrder KeyRange Sst SstSpec Block Iter IterSpec MemTable.

(** ** Laws of the map *)
Definition ascends {K V} (cmp : K → K → comparison) : list (K * V) → Prop := StronglySorted (λ p q, cmp p.1 q.1 = Lt).
Abbreviation ascending := (ascends bytes_cmp).

Section map.
Context {K V : Type} `{!EqDecision K} (cmp : K → K → comparison) `{!TotalCmp cmp}.
Implicit Types (m : list (K * V)) (k : K).

Lemma btree_get_above m k k' v : ascends cmp ((k', v) :: m) → cmp k k' ≠ Gt → BTreeMap.get cmp m k = None.
Proof.
  intros Hs Hk. inversion Hs as [|? ? _ Hf]; subst. destruct m as [|[k2 v2] m]; [done|]. cbn.
  inversion Hf as [|? ? H2 _]; subst. by rewrite (cmp_le_lt_trans cmp k k' k2).
Qed.

Lemma btree_get_insert m k v k' : ascends cmp m → BTreeMap.get cmp (BTreeMap.insert cmp m k v) k' = if decide (k' = k) then Some v else BTreeMap.get cmp m k'.
Proof.
  induction m as [|[k1 v1] m IH]; intros Hs; cbn [BTreeMap.insert BTreeMap.get].
  - case_decide as E; [subst; by rewrite (cmp_refl cmp)|]. rewrite <-(cmp_eq_iff cmp) in E. by destruct (cmp k' k).
  - destruct (cmp k k1) eqn:C; cbn [BTreeMap.get].
    + apply (cmp_eq_iff cmp) in C as <-. case_decide as E; [subst; by rewrite (cmp_refl cmp)|].
      rewrite <-(cmp_eq_iff cmp) in E. by destruct (cmp k' k).
    + case_decide as E; [subst; by rewrite (cmp_refl cmp)|]. destruct (cmp k' k) eqn:C'; [by apply (cmp_eq_iff cmp) in C'| |done].
      by rewrite (cmp_lt_trans cmp _ _ _ C' C).
    + inversion Hs; subst. destruct (cmp k' k1) eqn:C'; [| |by apply IH]; case_decide; subst; congruence.
Qed.

Lemma btree_get_remove m k k' : ascends cmp m → BTreeMap.get cmp (BTreeMap.remove cmp m k) k' = if decide (k' = k) then None else BTreeMap.get cmp m k'.
Proof.
  induction m as [|[k1 v1] m IH]; intros Hs; cbn [BTreeMap.remove BTreeMap.get]; [by case_decide|].
  destruct (cmp k k1) eqn:C; cbn [BTreeMap.get].
  - apply (cmp_eq_iff cmp) in C as <-. case_decide as E.
    + subst. apply (btree_get_above m k k v1 Hs). by rewrite (cmp_refl cmp).
    + destruct (cmp k' k) eqn:C; [by apply (cmp_eq_iff cmp) in C| |done].
      apply (btree_get_above m k' k v1 Hs). by rewrite C.
  - case_decide; [subst; by rewrite C|done].
  - inversion Hs; subst. destruct (cmp k' k1) eqn:C'; [| |by apply IH]; case_decide; subst; congruence.
Qed.

Lemma btree_insert_keys m k v (P : K → Prop) : Forall (λ p, P p.1) m → P k → Forall (λ p, P p.1) (BTreeMap.insert cmp m k v).
Proof. intros Hm Hk. induction Hm as [|[k1 v1] m H1 Hm IH]; cbn; [by constructor|]. destruct (cmp k k1); by repeat constructor. Qed.

Lemma btree_insert_ascending m k v : ascends cmp m → ascends cmp (BTreeMap.insert cmp m k v).
Proof.
  induction 1 as [|[k1 v1] m Hs IH Hf]; cbn; [by repeat constructor|]. destruct (cmp k k1) eqn:C.
  - by constructor.
  - constructor; [by constructor|]. constructor; [done|]. eapply Forall_impl; [exact Hf|]. intros p. apply (cmp_lt_trans cmp _ _ _ C).
  - constructor; [done|]. apply (btree_insert_keys m k v (λ k', cmp k1 k' = Lt)); [done|]. by apply (cmp_gt_lt cmp).
Qed.

Lemma btree_remove_sub m k : BTreeMap.remove cmp m k ⊆ m.
Proof.
  induction m as [|[k1 v1] m IH]; cbn; [done|]. destruct (cmp k k1); [by intros x Hx; right|done|].
  intros x [-> | Hx]%elem_of_cons; [by left|right; by apply IH].
Qed.

Lemma btree_remove_ascending m k : ascends cmp m → ascends cmp (BTreeMap.remove cmp m k).
Proof.
  induction 1 as [|[k1 v1] m Hs IH Hf]; cbn; [constructor|]. destruct (cmp k k1); [done|by constructor|].
  constructor; [done|]. rewrite Forall_forall in *. intros p Hp. by apply Hf, (btree_remove_sub m k).
Qed.

Lemma btree_get_elem m k v : ascends cmp m → BTreeMap.get cmp m k = Some v ↔ (k, v) ∈ m.
Proof.
  induction 1 as [|[k1 v1] m Hs IH Hf]; cbn; [by rewrite elem_of_nil|]. rewrite elem_of_cons.
  destruct (cmp k k1) eqn:C; [apply (cmp_eq_iff cmp) in C as <-| |].
  - split; [intros [= ->]; by left|]. intros [[= ->]|Hin]; [done|]. rewrite Forall_forall in Hf. specialize (Hf _ Hin). cbn in Hf.
    by rewrite (cmp_refl cmp) in Hf.
  - split; [done|]. intros [[= <- <-]|Hin]; [by rewrite (cmp_refl cmp) in C|]. rewrite Forall_forall in Hf. specialize (Hf _ Hin). cbn in Hf.
    by rewrite (cmp_antisym cmp k k1), C in Hf.
  - rewrite IH. split; [by right|]. intros [[= <- <-]|Hin]; [by rewrite (cmp_refl cmp) in C|done].
Qed.

End map.

(** ** The difference of two tables

    [σ] is what a writer sees: the stored table [base] with the buffered operations applied. *)
Abbreviation table := (TableKey.t → option (list byte)).

Definition op_new (op : KeyOp.t) : option (list byte) :=
  match op with KeyOp.Insert v | KeyOp.Update _ v => Some v | KeyOp.Delete _ => None end.

Definition overlay (m : MemTable.MemTableStore) (base : table) : table :=
  λ k, match BTreeMap.get bytes_cmp m k with Some op => op_new op | None => base k end.

(** What a buffered operation says of the stored table: whether the key is there, and its value
    up to the checker. *)
Definition op_old_ok (check : list byte → list byte → bool) (b : option (list byte)) (op : KeyOp.t) : Prop :=
  match op with
  | KeyOp.Insert _ => b = None
  | KeyOp.Delete o | KeyOp.Update o _ => ∃ v, b = Some v ∧ check v o = true
  end.

Record represents (base : table) (check : list byte → list byte → bool) (self : MemTable.t) (σ : table) : Prop := {
  rp_level : ∃ log, MemTable.op_consistency_level self = OpConsistencyLevel.ConsistentOldValue check log;
  rp_ascending : ascending (MemTable.buffer self);
  rp_old : ∀ k op, BTreeMap.get bytes_cmp (MemTable.buffer self) k = Some op → op_old_ok check (base k) op;
  rp_view : ∀ k, overlay (MemTable.buffer self) base k = σ k
}.

(** A write of the client. *)
Inductive write := Ins (k : TableKey.t) (v : list byte) | Del (k : TableKey.t) (old : list byte) | Upd (k : TableKey.t) (old new : list byte).

Definition write_key (w : write) : TableKey.t := match w with Ins k _ | Del k _ | Upd k _ _ => k end.
Definition write_op (w : write) : KeyOp.t := match w with Ins _ v => KeyOp.Insert v | Del _ o => KeyOp.Delete o | Upd _ o n => KeyOp.Update o n end.

(** The write agrees with the table: what it says of the old value holds. *)
Definition consistent (check : list byte → list byte → bool) (σ : table) (w : write) : Prop :=
  op_old_ok check (σ (write_key w)) (write_op w).

Definition written (σ : table) (w : write) : table := λ k, if decide (k = write_key w) then op_new (write_op w) else σ k.

Section ops.
Context (size_of_Bytes size_of_KeyOp : Z) (sanity : bool).

Definition apply_write (self : MemTable.t) (w : write) : MemTable.result :=
  match w with
  | Ins k v => MemTable.insert size_of_Bytes size_of_KeyOp sanity self k v
  | Del k o => MemTable.delete size_of_Bytes size_of_KeyOp sanity self k o
  | Upd k o n => MemTable.update size_of_Bytes size_of_KeyOp sanity self k o n
  end.

Lemma represents_insert base check self σ σ' k op size :
  represents base check self σ → op_old_ok check (base k) op →
  σ' k = op_new op → (∀ k', k' ≠ k → σ' k' = σ k') →
  represents base check (MemTable.mk (BTreeMap.insert bytes_cmp (MemTable.buffer self) k op) (MemTable.op_consistency_level self) size) σ'.
Proof.
  intros [Hl Ha Ho Hv] Hop Hk Hne. split; cbn [MemTable.buffer MemTable.op_consistency_level]; [done|by apply (btree_insert_ascending bytes_cmp)|..].
  - intros k' op'. rewrite (btree_get_insert bytes_cmp) by done. case_decide; [intros [= <-]; by subst|apply Ho].
  - intros k'. unfold overlay. rewrite (btree_get_insert bytes_cmp) by done. case_decide; [by subst|]. rewrite Hne by done. apply Hv.
Qed.

Lemma represents_remove base check self σ σ' k size :
  represents base check self σ → σ' k = base k → (∀ k', k' ≠ k → σ' k' = σ k') →
  represents base check (MemTable.mk (BTreeMap.remove bytes_cmp (MemTable.buffer self) k) (MemTable.op_consistency_level self) size) σ'.
Proof.
  intros [Hl Ha Ho Hv] Hk Hne. split; cbn [MemTable.buffer MemTable.op_consistency_level]; [done|by apply (btree_remove_ascending bytes_cmp)|..].
  - intros k' op'. rewrite (btree_get_remove bytes_cmp) by done. case_decide; [done|apply Ho].
  - intros k'. unfold overlay. rewrite (btree_get_remove bytes_cmp) by done. case_decide; [by subst|]. rewrite Hne by done. apply Hv.
Qed.

Lemma written_eq σ w : written σ w (write_key w) = op_new (write_op w).
Proof. unfold written. by rewrite decide_True. Qed.
Lemma written_ne σ w k : k ≠ write_key w → written σ w k = σ k.
Proof. intros. unfold written. by rewrite decide_False. Qed.

(** A write that agrees with the table is accepted. *)
Lemma apply_write_ok base check self σ w :
  represents base check self σ → consistent check σ w →
  ∃ self', apply_write self w = (self', inr tt) ∧ represents base check self' (written σ w).
Proof.
  intros H Hc. destruct (rp_level _ _ _ _ H) as [log El]. pose proof (rp_view _ _ _ _ H (write_key w)) as Hv. unfold overlay in Hv.
  pose proof (rp_old _ _ _ _ H (write_key w)) as Ho. unfold consistent in Hc. rewrite <-Hv in Hc.
  destruct w as [k v|k o|k o n]; cbn [apply_write write_key write_op op_old_ok op_new] in *;
    unfold MemTable.insert, MemTable.delete, MemTable.update; rewrite El;
    destruct (BTreeMap.get bytes_cmp (MemTable.buffer self) k) as [[v0|o0|o0 n0]|] eqn:G; cbn [op_new op_old_ok] in *;
    try done; try (by destruct Hc as (? & ? & ?)); try (specialize (Ho _ eq_refl)); cbn [op_old_ok] in Ho;
    try (destruct Hc as (x & [= <-] & Hc); rewrite Hc; cbn [negb]; rewrite andb_false_r);
    unfold MemTable.fill, MemTable.replace; eexists; (split; [reflexivity|]); try rewrite <-El;
    first [eapply represents_insert; [exact H|cbn; naive_solver|apply (written_eq σ (Ins k v))|apply (written_ne σ (Ins k v))]
          |eapply represents_insert; [exact H|cbn; naive_solver|apply (written_eq σ (Del k o))|apply (written_ne σ (Del k o))]
          |eapply represents_remove; [exact H|exact (eq_trans (written_eq σ (Del k o)) (eq_sym Ho))|apply (written_ne σ (Del k o))]
          |eapply represents_insert; [exact H|cbn; naive_solver|apply (written_eq σ (Upd k o n))|apply (written_ne σ (Upd k o n))]].
Qed.

(** A write is rejected exactly when the checks are on and it contradicts an operation of the
    buffer; the buffer stays as it is. *)
Lemma apply_write_error base check self σ w :
  represents base check self σ →
  (∃ e, (apply_write self w).2 = inl e) ↔
  sanity = true ∧ BTreeMap.get bytes_cmp (MemTable.buffer self) (write_key w) ≠ None ∧ ¬ consistent check σ w.
Proof.
  intros H. destruct (rp_level _ _ _ _ H) as [log El]. pose proof (rp_view _ _ _ _ H (write_key w)) as Hv. unfold overlay in Hv.
  unfold consistent. rewrite <-Hv.
  destruct w as [k v|k o|k o n]; cbn [apply_write write_key write_op op_old_ok op_new] in *;
    unfold MemTable.insert, MemTable.delete, MemTable.update; rewrite El;
    destruct (BTreeMap.get bytes_cmp (MemTable.buffer self) k) as [[v0|o0|o0 n0]|] eqn:G; cbn [op_new op_old_ok] in *;
    destruct sanity; cbn [andb]; try destruct (check _ _) eqn:C; cbn;
    (split; [intros [e He]; try done; split_and!; try done; intros Hx; first [done|destruct Hx as (x & Hx & Hy); congruence]|intros (? & ? & Hc); try done; first [by eexists|exfalso; apply Hc; naive_solver]]).
Qed.

Lemma apply_write_error_keeps base check self σ w e :
  represents base check self σ → (apply_write self w).2 = inl e →
  represents base check (apply_write self w).1 σ ∧
  ∃ prev, BTreeMap.get bytes_cmp (MemTable.buffer self) (write_key w) = Some prev ∧ e = MemTableError.InconsistentOperation (write_key w) prev (write_op w) ∧
    MemTable.buffer (apply_write self w).1 = MemTable.buffer self ∧
    MemTable.kv_size (apply_write self w).1 = KvSize.sub_val size_of_KeyOp (MemTable.kv_size self) prev.
Proof.
  intros [[log El] Ha Ho Hv] He.
  cut (∃ prev, BTreeMap.get bytes_cmp (MemTable.buffer self) (write_key w) = Some prev ∧
    apply_write self w = MemTable.reject self (KvSize.sub_val size_of_KeyOp (MemTable.kv_size self) prev) (write_key w) prev (write_op w)).
  { intros (prev & Hp & E). rewrite E in *. injection He as <-. split; [|by exists prev]. by split; [exists log|..]. }
  destruct w as [k v|k o|k o n]; cbn [apply_write write_key write_op] in *;
    unfold MemTable.insert, MemTable.delete, MemTable.update in *; rewrite El in *;
    destruct (BTreeMap.get bytes_cmp (MemTable.buffer self) k) as [[v0|o0|o0 n0]|] eqn:G; cbn in *; try done;
    destruct sanity; cbn [andb] in *; try destruct (check _ _) eqn:C; cbn in *; try done; by eexists.
Qed.
End ops.

(** ** Runs of writes *)
Section run.
Context (size_of_Bytes size_of_KeyOp : Z) (sanity : bool).

(** The writes one after the other, up to the first that fails. *)
Fixpoint run_writes (self : MemTable.t) (ws : list write) : MemTable.result :=
  match ws with
  | [] => (self, inr tt)
  | w :: ws =>
      match apply_write size_of_Bytes size_of_KeyOp sanity self w with
      | (self, inl e) => (self, inl e)
      | (self, inr _) => run_writes self ws
      end
  end.

(** Every write agrees with the table it meets. *)
Fixpoint consistent_run (check : list byte → list byte → bool) (σ : table) (ws : list write) : Prop :=
  match ws with
  | [] => True
  | w :: ws => consistent check σ w ∧ consistent_run check (written σ w) ws
  end.

Lemma run_writes_ok base check ws : ∀ self σ,
  represents base check self σ → consistent_run check σ ws →
  ∃ self', run_writes self ws = (self', inr tt) ∧ represents base check self' (foldl written σ ws).
Proof.
  induction ws as [|w ws IH]; intros self σ H Hc; [by exists self|]. destruct Hc as [Hw Hc].
  destruct (apply_write_ok size_of_Bytes size_of_KeyOp sanity base check self σ w H Hw) as (self1 & E & H1).
  cbn [run_writes foldl]. rewrite E. by apply IH.
Qed.

Lemma represents_new base check log : represents base check (MemTable.new (OpConsistencyLevel.ConsistentOldValue check log)) base.
Proof. split; [by exists log|constructor|done|done]. Qed.

(** *** Sizes *)
Hypothesis size_of_Bytes_pos : (0 ≤ size_of_Bytes)%Z.
Hypothesis size_of_KeyOp_pos : (0 ≤ size_of_KeyOp)%Z.

Definition op_bytes (op : KeyOp.t) : Z :=
  match op with
  | KeyOp.Insert v | KeyOp.Delete v => Z.of_nat (length v)
  | KeyOp.Update o n => Z.of_nat (length o) + Z.of_nat (length n)
  end.

Definition entry_size (k : TableKey.t) (op : KeyOp.t) : Z := Z.of_nat (length k) + size_of_Bytes + (op_bytes op + size_of_KeyOp).
Definition store_size (m : MemTable.MemTableStore) : Z := foldr (λ p acc, (entry_size p.1 p.2 + acc)%Z) 0%Z m.
Definition write_size (w : write) : Z := entry_size (write_key w) (write_op w).

Lemma op_bytes_pos op : (0 ≤ op_bytes op)%Z.
Proof. destruct op; cbn; lia. Qed.
Lemma entry_size_pos k op : (0 ≤ entry_size k op)%Z.
Proof. pose proof (op_bytes_pos op). unfold entry_size. lia. Qed.
Lemma store_size_pos m : (0 ≤ store_size m)%Z.
Proof. induction m as [|[k op] m IH]; cbn; [done|]. fold (store_size m). pose proof (entry_size_pos k op). lia. Qed.

Lemma store_size_get m k op : BTreeMap.get bytes_cmp m k = Some op → (entry_size k op ≤ store_size m)%Z.
Proof.
  induction m as [|[k1 o1] m IH]; cbn; [done|]. fold (store_size m). destruct (bytes_cmp k k1) eqn:C; [|done|].
  - intros [= ->]. apply (cmp_eq_iff bytes_cmp) in C as <-. pose proof (store_size_pos m). lia.
  - intros H%IH. pose proof (entry_size_pos k1 o1). lia.
Qed.

Lemma store_size_insert m k op :
  store_size (BTreeMap.insert bytes_cmp m k op) =
  (store_size m + match BTreeMap.get bytes_cmp m k with Some old => op_bytes op - op_bytes old | None => entry_size k op end)%Z.
Proof.
  induction m as [|[k1 o1] m IH]; cbn; [lia|]. fold (store_size m). destruct (bytes_cmp k k1) eqn:C; cbn; fold (store_size m) (store_size (BTreeMap.insert bytes_cmp m k op)).
  - unfold entry_size. lia.
  - lia.
  - rewrite IH. lia.
Qed.

Lemma store_size_remove m k op : BTreeMap.get bytes_cmp m k = Some op → store_size (BTreeMap.remove bytes_cmp m k) = (store_size m - entry_size k op)%Z.
Proof.
  induction m as [|[k1 o1] m IH]; cbn; [done|]. fold (store_size m). destruct (bytes_cmp k k1) eqn:C; [|done|].
  - intros [= ->]. apply (cmp_eq_iff bytes_cmp) in C as <-. fold (store_size m). lia.
  - intros H%IH. cbn. fold (store_size m) (store_size (BTreeMap.remove bytes_cmp m k)). lia.
Qed.

Lemma op_size_exact op : (op_bytes op + size_of_KeyOp < 2 ^ 64)%Z → KvSize.op_size size_of_KeyOp op = (op_bytes op + size_of_KeyOp)%Z.
Proof.
  intros H. unfold KvSize.op_size. assert (KeyOp.estimated_heap_size op = op_bytes op) as ->.
  { destruct op; cbn [KeyOp.estimated_heap_size op_bytes] in *; [done|done|]. apply wrap_small. unfold is_uint. lia. }
  apply wrap_small. pose proof (op_bytes_pos op). unfold is_uint. lia.
Qed.

Lemma key_size_exact k : (Z.of_nat (length k) + size_of_Bytes < 2 ^ 64)%Z → KvSize.key_size size_of_Bytes k = (Z.of_nat (length k) + size_of_Bytes)%Z.
Proof. intros H. apply wrap_small. unfold is_uint. lia. Qed.

(** The size is that of the buffer, which is within a budget. *)
Definition sized (budget : Z) (self : MemTable.t) : Prop :=
  MemTable.kv_size self = store_size (MemTable.buffer self) ∧ (store_size (MemTable.buffer self) ≤ budget)%Z.

Lemma u64_max_eq : u64_max = (2 ^ 64 - 1)%Z.
Proof. done. Qed.

Ltac sizes := unfold KvSize.add, KvSize.add_val, KvSize.sub_val, KvSize.add_size, KvSize.sub_size; rewrite ?u64_max_eq.

Lemma sized_put budget self k op :
  sized budget self → (budget + entry_size k op < 2 ^ 64)%Z →
  (BTreeMap.get bytes_cmp (MemTable.buffer self) k = None → sized (budget + entry_size k op) (MemTable.fill size_of_Bytes size_of_KeyOp self k op).1) ∧
  sized (budget + entry_size k op) (MemTable.overwrite size_of_Bytes size_of_KeyOp self k op).1.
Proof.
  intros [E Hb] Hlt. pose proof (store_size_pos (MemTable.buffer self)). pose proof (op_bytes_pos op).
  pose proof (store_size_insert (MemTable.buffer self) k op) as Hi.
  assert (KvSize.key_size size_of_Bytes k = Z.of_nat (length k) + size_of_Bytes)%Z as Hk by (apply key_size_exact; unfold entry_size in *; lia).
  assert (KvSize.op_size size_of_KeyOp op = op_bytes op + size_of_KeyOp)%Z as Ho by (apply op_size_exact; unfold entry_size in *; lia).
  split.
  - intros G. unfold sized, MemTable.fill. cbn [fst MemTable.kv_size MemTable.buffer]. sizes. rewrite Hi, G, E, Hk, Ho. unfold entry_size in *. lia.
  - unfold sized, MemTable.overwrite, MemTable.sub_old_op_size. cbn [fst MemTable.kv_size MemTable.buffer]. rewrite Hi.
    destruct (BTreeMap.get bytes_cmp (MemTable.buffer self) k) as [old|] eqn:G; sizes; rewrite E, Hk, Ho; [|unfold entry_size in *; lia].
    pose proof (store_size_get _ _ _ G). pose proof (op_bytes_pos old). rewrite op_size_exact by (unfold entry_size in *; lia).
    rewrite (wrap_small 64 (size_of_Bytes + _)) by (unfold is_uint, entry_size in *; lia). unfold entry_size in *. lia.
Qed.

Lemma sized_replace budget self k old op extra :
  sized budget self → BTreeMap.get bytes_cmp (MemTable.buffer self) k = Some old → (0 ≤ extra)%Z → (op_bytes op ≤ op_bytes old + extra)%Z → (budget + extra < 2 ^ 64)%Z →
  sized (budget + extra) (MemTable.replace size_of_KeyOp self (KvSize.sub_val size_of_KeyOp (MemTable.kv_size self) old) k op).1.
Proof.
  intros [E Hb] G He Hop Hlt. pose proof (store_size_get _ _ _ G) as Hs. pose proof (op_bytes_pos op). pose proof (op_bytes_pos old).
  unfold sized, MemTable.replace. cbn [fst MemTable.kv_size MemTable.buffer]. rewrite store_size_insert, G. sizes. rewrite E.
  unfold entry_size in Hs. rewrite !op_size_exact by lia. lia.
Qed.

Lemma sized_remove budget self k old key_len :
  sized budget self → BTreeMap.get bytes_cmp (MemTable.buffer self) k = Some old → (budget < 2 ^ 64)%Z → key_len = wrap 64 (size_of_Bytes + Z.of_nat (length k)) →
  sized budget (MemTable.mk (BTreeMap.remove bytes_cmp (MemTable.buffer self) k) (MemTable.op_consistency_level self)
    (KvSize.sub_size (KvSize.sub_val size_of_KeyOp (MemTable.kv_size self) old) key_len)).
Proof.
  intros [E Hb] G Hlt ->. pose proof (store_size_get _ _ _ G) as Hs. pose proof (op_bytes_pos old).
  unfold sized. cbn [MemTable.kv_size MemTable.buffer]. rewrite (store_size_remove _ _ _ G). sizes. rewrite E. unfold entry_size in *.
  rewrite op_size_exact, (wrap_small 64 (size_of_Bytes + _)) by (unfold is_uint; lia). lia.
Qed.

Lemma sized_weaken b b' self : sized b self → (b ≤ b')%Z → sized b' self.
Proof. intros [??] ?. split; [done|lia]. Qed.

(** A write that succeeds keeps the size exact. *)
Lemma apply_write_sized budget self w self' :
  sized budget self → (budget + write_size w < 2 ^ 64)%Z → apply_write size_of_Bytes size_of_KeyOp sanity self w = (self', inr tt) →
  sized (budget + write_size w) self'.
Proof.
  intros Hs Hlt. assert (op_bytes (write_op w) ≤ write_size w)%Z as Hw by (unfold write_size, entry_size; lia).
  pose proof (op_bytes_pos (write_op w)) as Hp. destruct (sized_put budget self (write_key w) (write_op w) Hs Hlt) as [Hfill Hover].
  destruct w as [k v|k o|k o n]; cbn [apply_write write_key write_op op_bytes] in *;
    unfold MemTable.insert, MemTable.delete, MemTable.update; destruct (MemTable.op_consistency_level self) as [|check log];
    try (intros E; apply (f_equal fst) in E; cbn [fst] in E; subst; exact Hover);
    destruct (BTreeMap.get bytes_cmp (MemTable.buffer self) k) as [[v0|o0|o0 n0]|] eqn:G;
    try (intros E; apply (f_equal fst) in E; cbn [fst] in E; subst; by apply Hfill);
    try (destruct sanity; cbn [andb]); try (destruct (check _ _); cbn [negb]); try done;
    intros E; apply (f_equal fst) in E; cbn [fst] in E; subst;
    first [eapply sized_replace; [exact Hs|exact G|lia|cbn [op_bytes]; lia|lia]
          |eapply sized_weaken; [eapply sized_remove; [exact Hs|exact G|lia|reflexivity]|lia]].
Qed.

Lemma run_writes_sized ws : ∀ budget self self',
  sized budget self → (budget + foldr (λ w acc, write_size w + acc)%Z 0%Z ws < 2 ^ 64)%Z →
  run_writes self ws = (self', inr tt) → MemTable.kv_size self' = store_size (MemTable.buffer self').
Proof.
  induction ws as [|w ws IH]; intros budget self self' Hs Hlt; cbn [run_writes foldr] in *; [intros [= <-]; apply Hs|].
  assert (0 ≤ foldr (λ w acc, write_size w + acc)%Z 0%Z ws)%Z as Hpos.
  { clear -size_of_Bytes_pos size_of_KeyOp_pos. induction ws as [|w ws IH]; cbn; [done|]. pose proof (entry_size_pos (write_key w) (write_op w)). unfold write_size in *. lia. }
  destruct (apply_write _ _ _ self w) as [self1 [e|[]]] eqn:E; [done|]. apply (IH (budget + write_size w)%Z self1); [apply (apply_write_sized budget self w self1 Hs); [lia|done]|lia].
Qed.

End run.

(** C16: a mem-table is the difference between the stored table and what the writer sees.  A run of
    writes each of which agrees with the table it meets is accepted whole; afterwards the buffer
    laid over the stored table is the table written, every operation of the buffer says of the
    stored table what holds there, and the next write is rejected exactly when the checks are on
    and it contradicts an operation of the buffer, which then stays as it is. *)
Theorem mem_table_refines_table (size_of_Bytes size_of_KeyOp : Z) (sanity : bool) (base : table) (check : list byte → list byte → bool)
    (log : bool) (ws : list write) :
  consistent_run check base ws →
  let σ := foldl written base ws in
  ∃ m, run_writes size_of_Bytes size_of_KeyOp sanity (MemTable.new (OpConsistencyLevel.ConsistentOldValue check log)) ws = (m, inr tt) ∧
    ascending (MemTable.buffer m) ∧
    (∀ k, overlay (MemTable.buffer m) base k = σ k) ∧
    (∀ k op, (k, op) ∈ MemTable.buffer m → op_old_ok check (base k) op) ∧
    ∀ w, let r := apply_write size_of_Bytes size_of_KeyOp sanity m w in
      ((∃ e, r.2 = inl e) ↔ sanity = true ∧ BTreeMap.get bytes_cmp (MemTable.buffer m) (write_key w) ≠ None ∧ ¬ consistent check σ w) ∧
      ((∃ e, r.2 = inl e) → MemTable.buffer r.1 = MemTable.buffer m).
Proof.
  intros Hc σ.
  destruct (run_writes_ok size_of_Bytes size_of_KeyOp sanity base check ws _ _ (represents_new base check log) Hc) as (m & Hr & H).
  exists m. split; [done|]. split; [apply H|]. split; [apply H|]. split.
  - intros k op Hin%(btree_get_elem bytes_cmp); [|apply H]. by apply (rp_old _ _ _ _ H).
  - intros w. split; [by eapply apply_write_error|]. intros [e He].
    by destruct (apply_write_error_keeps _ _ _ _ _ _ _ _ _ H He) as (_ & prev & _ & _ & Hb & _).
Qed.

Lemma mem_table_refines_table_witness :
  let base : table := λ k, if decide (k = [Byte.x01]) then Some [Byte.x0a] else None in
  ∃ m, run_writes 32 72 true (MemTable.new (OpConsistencyLevel.ConsistentOldValue CHECK_BYTES_EQUAL false))
         [Ins [Byte.x02] [Byte.x0b]; Del [Byte.x01] [Byte.x0a]; Ins [Byte.x01] [Byte.x0c]; Del [Byte.x02] [Byte.x0b]] = (m, inr tt) ∧
    overlay (MemTable.buffer m) base [Byte.x01] = Some [Byte.x0c] ∧ overlay (MemTable.buffer m) base [Byte.x02] = None.
Proof.
  intros base. destruct (mem_table_refines_table 32 72 true base CHECK_BYTES_EQUAL false
    [Ins [Byte.x02] [Byte.x0b]; Del [Byte.x01] [Byte.x0a]; Ins [Byte.x01] [Byte.x0c]; Del [Byte.x02] [Byte.x0b]]) as (m & Hr & _ & Hv & _).
  - vm_compute. split_and!; try (eexists; split; reflexivity).
  - exists m. split; [exact Hr|]. rewrite !Hv. split; vm_compute; reflexivity.
Defined.

(** C40: the size a mem-table reports is the size of what it holds.  After any run of writes that
    were all accepted, at any consistency level, whose sizes together fit a [usize], [kv_size] is
    the sum over the entries of the key, the old and new values and the two structures. *)
Theorem mem_table_size_exact (size_of_Bytes size_of_KeyOp : Z) (sanity : bool) (level : OpConsistencyLevel.t) (ws : list write) (m : MemTable.t) :
  (0 ≤ size_of_Bytes)%Z → (0 ≤ size_of_KeyOp)%Z →
  (foldr (λ w acc, write_size size_of_Bytes size_of_KeyOp w + acc)%Z 0%Z ws < 2 ^ 64)%Z →
  run_writes size_of_Bytes size_of_KeyOp sanity (MemTable.new level) ws = (m, inr tt) →
  MemTable.kv_size m = store_size size_of_Bytes size_of_KeyOp (MemTable.buffer m).
Proof.
  intros H1 H2 Hlt. apply (run_writes_sized size_of_Bytes size_of_KeyOp sanity H1 H2 ws 0%Z); [by split|].
  by rewrite Z.add_0_l.
Qed.

Lemma mem_table_size_exact_witness :
  ∃ m, run_writes 32 72 true (MemTable.new (OpConsistencyLevel.ConsistentOldValue CHECK_BYTES_EQUAL false))
         [Ins [Byte.x02] [Byte.x0b]; Upd [Byte.x01] [Byte.x0a] [Byte.x0c]; Upd [Byte.x01] [Byte.x0c] []] = (m, inr tt) ∧
    MemTable.kv_size m = 212%Z.
Proof.
  eexists. split; [vm_compute; reflexivity|].
  rewrite (mem_table_size_exact 32 72 true (OpConsistencyLevel.ConsistentOldValue CHECK_BYTES_EQUAL false)
    [Ins [Byte.x02] [Byte.x0b]; Upd [Byte.x01] [Byte.x0a] [Byte.x0c]; Upd [Byte.x01] [Byte.x0c] []]); [vm_compute; reflexivity|lia|lia|vm_compute; reflexivity|vm_compute; reflexivity].
Defined.

(** A rejected write has already been subtracted: the size falls short by the operation that
    stays in the buffer. *)
Theorem rejected_write_loses_size :
  let m := (run_writes 32 72 true (MemTable.new (OpConsistencyLevel.ConsistentOldValue CHECK_BYTES_EQUAL false)) [Ins [Byte.x02] [Byte.x0b]]).1 in
  let r := apply_write 32 72 true m (Ins [Byte.x02] [Byte.x0c]) in
  r.2 = inl (MemTableError.InconsistentOperation [Byte.x02] (KeyOp.Insert [Byte.x0b]) (KeyOp.Insert [Byte.x0c])) ∧
  MemTable.buffer r.1 = MemTable.buffer m ∧
  MemTable.kv_size m = 106%Z ∧ MemTable.kv_size r.1 = 33%Z.
Proof. vm_compute. auto. Qed.

(** ** [FromRustIterator] keeps the contract of iterators *)

(** An order in the direction of an iterator. *)
Definition toward {A} (d : DirectionEnum.t) (c : A → A → comparison) : A → A → comparison :=
  match d with DirectionEnum.Forward => c | DirectionEnum.Backward => rev_cmp c end.

#[global] Instance toward_total {A} d (c : A → A → comparison) : TotalCmp c → TotalCmp (toward d c).
Proof. destruct d; apply _. Qed.

(** What a builder promises: the pairs of [rewind] ascend in its direction, [seek] gives those
    from the key on. *)
Class RustIteratorLaws (B : Type) `{RustIteratorBuilder.t B} (wf : RustIteratorBuilder.Iterable B → Prop) : Prop := {
  rust_sorted : ∀ it, wf it →
    StronglySorted (λ p q, toward (RustIteratorBuilder.direction B) bytes_cmp p.1 q.1 = Lt) (RustIteratorBuilder.rewind B it);
  rust_seek : ∀ it k, wf it →
    RustIteratorBuilder.seek B it k = filter (λ p, toward (RustIteratorBuilder.direction B) bytes_cmp p.1 k ≠ Lt) (RustIteratorBuilder.rewind B it)
}.

Lemma filter_fmap {A B} (f : A → B) (P : B → Prop) `{!∀ x, Decision (P x)} (l : list A) : filter P (f <$> l) = f <$> filter (λ x, P (f x)) l.
Proof. induction l as [|x l IH]; [done|]. rewrite fmap_cons, !filter_cons. case_decide; [by rewrite fmap_cons, IH|done]. Qed.

(** The pairs from a full key on: those from its table key on, less the first when it is that
    table key at an epoch that comes before. *)
Lemma filter_from_full {V} (R : TableKey.t * V → TableKey.t * V → Prop) (P Q : TableKey.t * V → Prop)
    `{!∀ x, Decision (P x)} `{!∀ x, Decision (Q x)} (k : TableKey.t) (skip : bool) l :
  StronglySorted R l → (∀ p, P p → Q p) → (∀ p, Q p → p.1 ≠ k ∨ skip = false → P p) → (∀ p, p.1 = k → skip = true → ¬ P p) →
  (∀ p q, R p q → Q p → q.1 ≠ k) →
  filter P l = match filter Q l with
               | [] => []
               | p :: rest => if bool_decide (p.1 = k) && skip then rest else p :: rest
               end.
Proof.
  intros Hs HPQ HQP Hskip Hne.
  assert (filter P l = filter P (filter Q l)) as ->.
  { rewrite list_filter_filter. apply list_filter_iff. intros p. split; [|by intros []]. intros Hp. by split; [|apply HPQ]. }
  pose proof (sorted_filter R Q l Hs) as Hs'. pose proof (λ x, proj1 (list_elem_of_filter Q l x)) as Hin.
  destruct (filter Q l) as [|p rest]; [done|]. inversion Hs' as [|? ? _ Hf]; subst. destruct (Hin p) as [Hp _]; [by left|].
  assert (filter P rest = rest) as Hrest.
  { apply filter_all. intros q Hq. rewrite Forall_forall in Hf. apply HQP; [apply Hin; by right|]. left. by apply (Hne p q); [apply Hf|]. }
  rewrite filter_cons, Hrest. case_bool_decide as Hk; destruct skip; cbn [andb]; case_decide as HP; try done.
  - by destruct (Hskip p Hk).
  - destruct HP. apply HQP; [done|by right].
  - destruct HP. apply HQP; [done|by left].
  - destruct HP. apply HQP; [done|by left].
Qed.

Section rust.
Context {B : Type} `{!RustIteratorBuilder.t B} (wf : RustIteratorBuilder.Iterable B → Prop) {laws : RustIteratorLaws B wf}.
Abbreviation dir := (RustIteratorBuilder.direction B).
Abbreviation items it := (RustIteratorBuilder.rewind B (FromRustIterator.inner it)).
Implicit Types it : FromRustIterator.t B.

(** A pair as an entry of the table and epoch of the iterator. *)
Definition rust_kv it (p : TableKey.t * HummockValue.t) : kv :=
  (FullKey.mk (UserKey.mk (FromRustIterator.table_id it) p.1) (FromRustIterator.epoch it), p.2).

Definition rust_owns (all : list kv) it : Prop := wf (FromRustIterator.inner it) ∧ all = rust_kv it <$> items it.

Definition rust_stands (all rest : list kv) it : Prop :=
  rust_owns all it ∧ ∃ ps, ps `suffix_of` items it ∧ rest = rust_kv it <$> ps ∧
    FromRustIterator.iter it = match ps with [] => None | p :: ps => Some (ps, p.1, p.2) end.

Lemma rust_kv_key it p k : dir_cmp dir (rust_kv it p).1 k =
  then_with (then_with (toward dir Z.compare (FromRustIterator.table_id it) (UserKey.table_id (FullKey.user_key k)))
                       (toward dir bytes_cmp p.1 (UserKey.table_key (FullKey.user_key k))))
            (toward dir Z.compare (FullKey.epoch_with_gap k) (FromRustIterator.epoch it)).
Proof. by destruct dir. Qed.

Lemma rust_kv_cmp it p q : dir_cmp dir (rust_kv it p).1 (rust_kv it q).1 = toward dir bytes_cmp p.1 q.1.
Proof. rewrite rust_kv_key. cbn. rewrite !(cmp_refl (toward dir Z.compare)). cbn. by destruct (toward dir bytes_cmp _ _). Qed.

Lemma rust_owns_sorted all it : rust_owns all it → sorted dir all.
Proof.
  intros [Hw ->]. pose proof (rust_sorted _ Hw) as Hs. induction Hs as [|p ps Hs IH Hf]; [constructor|]. rewrite fmap_cons. constructor; [done|].
  apply Forall_fmap. eapply Forall_impl; [exact Hf|]. intros q Hq. unfold kv_le. intros E. discriminate (eq_trans (eq_sym Hq) (eq_trans (eq_sym (rust_kv_cmp it p q)) E)).
Qed.

Lemma rust_settle all it ps : rust_owns all it → ps `suffix_of` items it →
  rust_stands all (rust_kv it <$> ps) (FromRustIterator.settle_at it ps).
Proof. intros [Hw ->] Hp. destruct ps as [|[k v] ps]; (split; [by split|]); eexists; (split; [exact Hp|done]). Qed.

(** The two ways of seeking, in the direction of the iterator. *)
Lemma rust_seek_eq it k : FromRustIterator.seek it k =
  match toward dir Z.compare (FromRustIterator.table_id it) (UserKey.table_id (FullKey.user_key k)) with
  | Lt => ok (FromRustIterator.set_iter it None)
  | Gt => FromRustIterator.rewind it
  | Eq =>
      match RustIteratorBuilder.seek B (FromRustIterator.inner it) (UserKey.table_key (FullKey.user_key k)) with
      | p :: rest =>
          if bool_decide (p.1 = UserKey.table_key (FullKey.user_key k)) && cmp_ltb (toward dir Z.compare) (FullKey.epoch_with_gap k) (FromRustIterator.epoch it)
          then match rest with
               | q :: _ => rassert (cmp_ltb (toward dir bytes_cmp) p.1 q.1);; ok (FromRustIterator.settle_at it rest)
               | [] => ok (FromRustIterator.set_iter it None)
               end
          else ok (FromRustIterator.settle_at it (p :: rest))
      | [] => ok (FromRustIterator.set_iter it None)
      end
  end.
Proof.
  unfold FromRustIterator.seek, FromRustIterator.seek_inner, FromRustIterator.rev_seek_inner. destruct dir; cbn [toward]; unfold rev_cmp.
  - destruct (_ ?= _)%Z; [|done|done]. by destruct (RustIteratorBuilder.seek _ _ _) as [|[??] [|[??] ?]].
  - rewrite (Z.compare_antisym (FromRustIterator.table_id it)). destruct (_ ?= _)%Z; cbn; [|done|done].
    by destruct (RustIteratorBuilder.seek _ _ _) as [|[??] [|[??] ?]].
Qed.

(** [seek] settles at the pairs from the key on. *)
Lemma rust_seek_settles all it k : rust_owns all it →
  FromRustIterator.seek it k = ok (FromRustIterator.settle_at it (filter (λ p, dir_cmp dir (rust_kv it p).1 k ≠ Lt) (items it))).
Proof.
  intros [Hw _]. pose proof (rust_sorted _ Hw) as Hs. rewrite rust_seek_eq, rust_seek by done.
  pose proof (rust_kv_key it) as Hkey. set (tk := UserKey.table_key (FullKey.user_key k)) in *.
  destruct (toward dir Z.compare (FromRustIterator.table_id it) (UserKey.table_id (FullKey.user_key k))) eqn:Et.
  - rewrite (filter_from_full _ (λ p, dir_cmp dir (rust_kv it p).1 k ≠ Lt) (λ p, toward dir bytes_cmp p.1 tk ≠ Lt) tk
      (cmp_ltb (toward dir Z.compare) (FullKey.epoch_with_gap k) (FromRustIterator.epoch it)) _ Hs).
    + destruct (filter _ (items it)) as [|p [|q rest]] eqn:Ef; [done|by destruct (bool_decide _ && _)|].
      pose proof (sorted_filter _ (λ p, toward dir bytes_cmp p.1 tk ≠ Lt) _ Hs) as Hs'. unfold TableKey.t in *. rewrite Ef in Hs'.
      destruct (bool_decide _ && _); [|done]. inversion Hs' as [|? ? _ Hf]; subst. inversion Hf as [|? ? Hpq _]; subst. unfold cmp_ltb. by rewrite Hpq.
    + intros p. rewrite Hkey, Et. cbn. intros Hp C. fold tk in Hp. by rewrite C in Hp.
    + intros p HQ Hc. rewrite Hkey, Et. cbn. fold tk. destruct (toward dir bytes_cmp p.1 tk) eqn:C; cbn; [|done|done].
      apply (cmp_eq_iff (toward dir bytes_cmp)) in C. destruct Hc as [Hc|Hc]; [done|]. intros Hx. apply (cmp_ltb_lt (toward dir Z.compare)) in Hx. congruence.
    + intros p Hp Hc. rewrite Hkey, Et. cbn. fold tk. rewrite Hp, (cmp_refl (toward dir bytes_cmp)). cbn. apply (cmp_ltb_lt (toward dir Z.compare)) in Hc. rewrite Hc. by intros [].
    + intros p q Hr HQ E. apply HQ. by rewrite <-E.
  - rewrite filter_none; [done|]. intros p _. rewrite Hkey, Et. by intros [].
  - rewrite filter_all; [done|]. intros p _. by rewrite Hkey, Et.
Qed.

(** Any full key may be sought, of any table; nothing fails. *)
Definition rust_spec : IteratorSpec (FromRustIterator.t B) False (λ _, True).
Proof.
  refine {| owns := rust_owns; stands := rust_stands |}; cbn [HummockIterator.direction FromRustIterator.rust_iter].
  - apply rust_owns_sorted.
  - by intros all rest it [].
  - intros all rest it [[_ ->] (ps & [p Hp] & -> & _)]. exists (rust_kv it <$> p). by rewrite <-fmap_app, <-Hp.
  - intros all rest it [_ (ps & _ & -> & E)]. cbn. unfold FromRustIterator.is_valid. rewrite E. by destruct ps.
  - intros all e rest it [_ ([|p ps] & _ & [= -> _] & E)]. cbn. unfold FromRustIterator.key. by rewrite E.
  - intros all e rest it [_ ([|p ps] & _ & [= -> _] & E)]. cbn. unfold FromRustIterator.value. by rewrite E.
  - intros all e rest it [Ho ([|p ps] & Hp & Er & E)]; [done|]. injection Er as -> ->. cbn. unfold FromRustIterator.next. rewrite E. cbn.
    apply rust_settle; [done|]. by apply suffix_cons_l in Hp.
  - intros all it Ho. cbn. pose proof Ho as [_ ->]. by apply rust_settle.
  - intros all k it _ Ho. cbn. rewrite (rust_seek_settles all) by done. cbn. pose proof Ho as [Hw E].
    assert (from_key dir k all = rust_kv it <$> filter (λ p, dir_cmp dir (rust_kv it p).1 k ≠ Lt) (items it)) as ->.
    { rewrite E. unfold from_key. by rewrite filter_fmap. }
    apply rust_settle; [done|]. apply (filter_suffix (λ p q, toward dir bytes_cmp p.1 q.1 = Lt)); [by apply rust_sorted|].
    intros p q Hpq Hp Hq. apply Hp. exact (cmp_lt_trans (dir_cmp dir) _ _ _ (eq_trans (rust_kv_cmp it p q) Hpq) Hq).
Defined.
End rust.

(** *** Mem-tables *)
Lemma ascending_values (m : MemTable.MemTableStore) : ascending m → ascending (map_to_hummock_value <$> m).
Proof. induction 1 as [|p m Hs IH Hf]; [constructor|]. rewrite fmap_cons. constructor; [done|]. by apply Forall_fmap. Qed.

#[global] Instance mem_table_laws : RustIteratorLaws MemTableIteratorBuilder ascending.
Proof.
  split; cbn; [apply ascending_values|]. intros it k _. rewrite filter_fmap. f_equal. apply list_filter_iff. intros p. cbn.
  unfold contains. cbn. rewrite andb_true_r, (cmp_leb_le bytes_cmp). apply (cmp_le_not_lt bytes_cmp).
Qed.

#[global] Instance mem_table_rev_laws : RustIteratorLaws MemTableRevIteratorBuilder ascending.
Proof.
  split; cbn.
  - intros it Hs. rewrite fmap_reverse. apply ascending_values in Hs. by apply sorted_back_reverse in Hs.
  - intros it k _. rewrite filter_fmap, filter_reverse. do 2 f_equal. apply list_filter_iff. intros p. cbn.
    unfold contains, rev_cmp. cbn. rewrite (cmp_leb_le bytes_cmp). apply (cmp_le_not_lt bytes_cmp).
Qed.

(** The entries of a buffer at an epoch. *)
Definition mem_entries (table_id epoch : Z) (m : MemTable.MemTableStore) : list kv :=
  (λ p : TableKey.t * KeyOp.t, (FullKey.mk (UserKey.mk table_id p.1) epoch, (map_to_hummock_value p).2)) <$> m.

Lemma mem_iter_owns table_id epoch (m : MemTable.MemTableStore) : ascending m →
  rust_owns (B := MemTableIteratorBuilder) ascending (mem_entries table_id epoch m) (FromRustIterator.new (B := MemTableIteratorBuilder) m epoch table_id).
Proof. intros Hm. split; [done|]. cbn. by rewrite <-list_fmap_compose. Qed.

Lemma mem_rev_iter_owns table_id epoch (m : MemTable.MemTableStore) : ascending m →
  rust_owns (B := MemTableRevIteratorBuilder) ascending (reverse (mem_entries table_id epoch m)) (FromRustIterator.new (B := MemTableRevIteratorBuilder) m epoch table_id).
Proof. intros Hm. split; [done|]. unfold mem_entries. cbn. by rewrite <-list_fmap_compose, <-fmap_reverse. Qed.

(** The iterators of a mem-table read its entries in order.  Forward and backward,
    [FromRustIterator] over a buffer reads from [rewind] one entry for every operation, a value
    for an insertion or an update and a deletion otherwise, at the epoch of the writer; from
    [seek], for a full key of any table and epoch, those from the key on. *)
Theorem mem_table_iterators_exact (table_id epoch : Z) (m : MemTable.MemTableStore) (n : nat) :
  ascending m → length m < n →
  let entries := mem_entries table_id epoch m in
  let fwd := FromRustIterator.new (B := MemTableIteratorBuilder) m epoch table_id in
  let bwd := FromRustIterator.new (B := MemTableRevIteratorBuilder) m epoch table_id in
  yields False (collect_from n (FromRustIterator.rewind fwd)) entries ∧
  (∀ k, yields False (collect_from n (FromRustIterator.seek fwd k)) (from_key DirectionEnum.Forward k entries)) ∧
  yields False (collect_from n (FromRustIterator.rewind bwd)) (reverse entries) ∧
  (∀ k, yields False (collect_from n (FromRustIterator.seek bwd k)) (from_key DirectionEnum.Backward k (reverse entries))).
Proof.
  intros Hm Hn entries fwd bwd. assert (length entries < n) as Hl by (unfold entries, mem_entries; by rewrite length_fmap).
  assert (length (reverse entries) < n) as Hl' by by rewrite length_reverse.
  pose proof (mem_iter_owns table_id epoch m Hm) as Hf. pose proof (mem_rev_iter_owns table_id epoch m Hm) as Hb.
  split; [exact (spec_rewind_collect False (λ _, True) (spec := rust_spec (B := MemTableIteratorBuilder) ascending) _ _ n Hf Hl)|].
  split; [intros k; exact (spec_seek_collect False (λ _, True) (spec := rust_spec (B := MemTableIteratorBuilder) ascending) _ _ k n Logic.I Hf Hl)|].
  split; [exact (spec_rewind_collect False (λ _, True) (spec := rust_spec (B := MemTableRevIteratorBuilder) ascending) _ _ n Hb Hl')|].
  intros k. exact (spec_seek_collect False (λ _, True) (spec := rust_spec (B := MemTableRevIteratorBuilder) ascending) _ _ k n Logic.I Hb Hl').
Qed.

Lemma mem_table_iterators_exact_witness :
  let m := [([Byte.x01], KeyOp.Insert [Byte.x0a]); ([Byte.x02], KeyOp.Delete [Byte.x0b]); ([Byte.x03], KeyOp.Update [] [Byte.x0c])] in
  yields False (collect_from 4 (FromRustIterator.seek (FromRustIterator.new (B := MemTableRevIteratorBuilder) m 65536 7)
      (FullKey.mk (UserKey.mk 7 [Byte.x03]) 131072)))
    [(FullKey.mk (UserKey.mk 7 [Byte.x02]) 65536, HummockValue.Delete); (FullKey.mk (UserKey.mk 7 [Byte.x01]) 65536, HummockValue.Put [Byte.x0a])].
Proof.
  intros m. destruct (mem_table_iterators_exact 7 65536 m 4) as (_ & _ & _ & Hs); [by repeat constructor|cbn; lia|].
  exact (Hs (FullKey.mk (UserKey.mk 7 [Byte.x03]) 131072)).
Defined.
