(* ===== verification/ConcatSpec.v ===== *)
(** * [ConcatIteratorInner] implements the concatenation of its tables

    For tables that [can_concat] (in ascending order for a forward iterator, in descending order
    for a backward one) and a store that opens them, the iterator of [concat_inner.rs] meets
    the contract of [IterSpec.v]: it denotes the entries of the tables one after another, and
    its binary search never skips an entry. *)

From Stdlib Require Import ZArith Lia.
From S2P Require Import Prelude Order Bytes Epoch Bits Bitmap Vnode Key KeySpec KeyOrder KeyRange Sst SstSpec SplitSpec Block Iter IterSpec.

Implicit Types (k : FullKey.t) (e : kv) (info : SstableInfo.t).

Lemma reaches_false_lt excl h u v :
  reaches excl h u = true → reaches excl h v = false → UserKey.cmp u v = Lt.
Proof.
  intros Hu Hv. destruct (UserKey.cmp u v) eqn:E; [| done |].
  - apply (cmp_eq_iff UserKey.cmp) in E as ->. congruence.
  - assert (reaches excl h v = true); [|congruence]. eapply reaches_down; [|exact Hu].
    apply (cmp_gt_lt UserKey.cmp) in E. by rewrite E.
Qed.

Section concat.
Context {Store Table TI : Type} {it : HummockIterator.t TI}
  (sstable : Store → SstableInfo.t → Store * HummockResult Table)
  (create : Table → Store → SstableInfo.t → outcome TI)
  (faults : Prop) (seeks : FullKey.t → Prop) {spec : IteratorSpec TI faults seeks}
  (seeks_uint : ∀ k, seeks k → is_uint 64 (FullKey.epoch_with_gap k)).
Abbreviation dir := (HummockIterator.direction TI).

(** The entries of a table, in the order of the iterator. *)
Context (content : SstableInfo.t → list kv).

(** The key range of a table covers its entries; an exclusive bound is the least version of its
    user key. *)
Definition table_holds info : Prop :=
  ∃ l h, range_ok (SstableInfo.key_range info) l h ∧
    (KeyRange.right_exclusive (SstableInfo.key_range info) = true → FullKey.epoch_with_gap h = u64_max) ∧
    Forall (λ e, FullKey.cmp l e.1 ≠ Gt ∧
                 reaches (KeyRange.right_exclusive (SstableInfo.key_range info)) h (FullKey.user_key e.1) = true ∧
                 (KeyRange.right_exclusive (SstableInfo.key_range info) = false → FullKey.cmp e.1 h ≠ Gt))
      (content info).

(** Earlier in the direction of the iterator. *)
Definition dir_before a b : Prop :=
  match dir with DirectionEnum.Forward => before a b | DirectionEnum.Backward => before b a end.

Abbreviation starts_before := (ConcatIteratorInner.starts_before (it := it)).

Lemma decode_left info l h : range_ok (SstableInfo.key_range info) l h → FullKey.decode (KeyRange.left (SstableInfo.key_range info)) = Ret l.
Proof. intros [(-> & _ & Hl & _) _]. by apply full_key_decode_encode. Qed.

Lemma decode_right info l h : range_ok (SstableInfo.key_range info) l h → FullKey.decode (KeyRange.right (SstableInfo.key_range info)) = Ret h.
Proof. intros [(_ & -> & _ & Hh) _]. by apply full_key_decode_encode. Qed.

Lemma starts_before_total k info : table_holds info → ∃ b, starts_before k info = Ret b.
Proof.
  intros (l & h & Hr & _). unfold ConcatIteratorInner.starts_before.
  rewrite (decode_left _ _ _ Hr), (decode_right _ _ _ Hr). destruct dir; by eexists.
Qed.

(** Entries of neighbouring tables are in order. *)
Lemma before_entries a b x y :
  table_holds a → table_holds b → before a b → x ∈ content a → y ∈ content b → FullKey.cmp x.1 y.1 = Lt.
Proof.
  intros (la & ha & Ha & _ & Fa) (lb & hb & Hb & _ & Fb) Hab Hx Hy.
  rewrite Forall_forall in Fa, Fb. destruct (Fa x Hx) as (_ & Hrx & _). destruct (Fb y Hy) as (Hly & _ & _).
  apply (before_reaches _ _ _ _ _ _ Ha Hb) in Hab.
  apply (cmp_lt_le_trans FullKey.cmp _ lb); [|done]. apply user_lt_full. by eapply reaches_false_lt.
Qed.

Lemma lt_not_lt x y : FullKey.cmp x y = Lt → FullKey.cmp y x ≠ Lt.
Proof. intros H. by rewrite (cmp_antisym FullKey.cmp x y), H. Qed.

(** Every entry is at most the right bound, and below it when that is exclusive. *)
Lemma below_right info h e :
  reaches (KeyRange.right_exclusive (SstableInfo.key_range info)) h (FullKey.user_key e.1) = true →
  (KeyRange.right_exclusive (SstableInfo.key_range info) = false → FullKey.cmp e.1 h ≠ Gt) →
  if KeyRange.right_exclusive (SstableInfo.key_range info) then FullKey.cmp e.1 h = Lt else FullKey.cmp e.1 h ≠ Gt.
Proof.
  unfold reaches. destruct (KeyRange.right_exclusive _); [|auto]. intros H _.
  by apply user_lt_full, (cmp_ltb_lt UserKey.cmp).
Qed.

Lemma starts_false k info e :
  table_holds info → starts_before k info = Ret false → e ∈ content info → dir_cmp dir e.1 k ≠ Lt.
Proof.
  intros (l & h & Hr & _ & F) Hs He. rewrite Forall_forall in F. destruct (F e He) as (Hl & Hre & Hle).
  pose proof (below_right info h e Hre Hle) as Hb.
  unfold ConcatIteratorInner.starts_before in Hs. rewrite (decode_left _ _ _ Hr), (decode_right _ _ _ Hr) in Hs.
  destruct dir; cbn [mbind outcome_bind dir_cmp rev_cmp] in *; apply lt_not_lt.
  - destruct (FullKey.cmp l k) eqn:E; try done. apply (cmp_gt_lt FullKey.cmp) in E.
    by apply (cmp_lt_le_trans FullKey.cmp _ l).
  - destruct (FullKey.cmp h k) eqn:E; try done.
    + apply (cmp_eq_iff FullKey.cmp) in E as <-. by destruct (KeyRange.right_exclusive _).
    + apply (cmp_le_lt_trans FullKey.cmp _ h); [|done]. destruct (KeyRange.right_exclusive _); [by rewrite Hb|done].
Qed.

(** A table whose right bound is not before the key lies behind it with its user key. *)
Lemma backward_gap k b l h u :
  is_uint 64 (FullKey.epoch_with_gap k) → range_ok (SstableInfo.key_range b) l h →
  (KeyRange.right_exclusive (SstableInfo.key_range b) = true → FullKey.epoch_with_gap h = u64_max) →
  reaches (KeyRange.right_exclusive (SstableInfo.key_range b)) h u = false →
  Ret (match FullKey.cmp h k with
       | Gt => true | Eq => negb (KeyRange.right_exclusive (SstableInfo.key_range b)) | Lt => false end) = Ret true →
  UserKey.cmp (FullKey.user_key k) u = Lt.
Proof.
  intros Hk _ Hx Hr Hs. destruct (KeyRange.right_exclusive _); unfold reaches in Hr.
  - assert (UserKey.cmp (FullKey.user_key h) u ≠ Gt) as Hhu.
    { rewrite (cmp_le_not_lt UserKey.cmp). intros E. unfold cmp_ltb in Hr. by rewrite E in Hr. }
    apply (cmp_lt_le_trans UserKey.cmp _ (FullKey.user_key h)); [|done].
    specialize (Hx eq_refl). unfold FullKey.cmp in Hs.
    rewrite (cmp_antisym UserKey.cmp (FullKey.user_key h) (FullKey.user_key k)).
    destruct (UserKey.cmp (FullKey.user_key h) (FullKey.user_key k)); simpl in *; [|done..].
    rewrite Hx in Hs. unfold is_uint in Hk. destruct (Z.compare_spec (FullKey.epoch_with_gap k) u64_max); [done..|].
    unfold u64_max in *. lia.
  - assert (UserKey.cmp (FullKey.user_key h) u = Lt) as Hhu.
    { apply (cmp_gt_lt UserKey.cmp). unfold cmp_leb in Hr. by destruct (UserKey.cmp u _). }
    apply (cmp_le_lt_trans UserKey.cmp _ (FullKey.user_key h)); [|done]. apply full_le_user.
    rewrite (cmp_antisym FullKey.cmp h k). by destruct (FullKey.cmp h k).
Qed.

(** A table that starts before the key: everything in an earlier table comes before it. *)
Lemma starts_true k a b :
  is_uint 64 (FullKey.epoch_with_gap k) → table_holds a → table_holds b → dir_before a b →
  starts_before k b = Ret true →
  starts_before k a = Ret true ∧ Forall (λ e, dir_cmp dir e.1 k = Lt) (content a).
Proof.
  intros Hk (la & ha & Ha & Xa & Fa) (lb & hb & Hb & Xb & Fb) Hab Hs. rewrite Forall_forall in Fa, Fb |- *.
  unfold ConcatIteratorInner.starts_before in *.
  rewrite (decode_left _ _ _ Ha), (decode_right _ _ _ Ha). rewrite (decode_left _ _ _ Hb), (decode_right _ _ _ Hb) in Hs.
  unfold dir_before in Hab. destruct dir; cbn [mbind outcome_bind dir_cmp rev_cmp] in *.
  - apply (before_reaches _ _ _ _ _ _ Ha Hb) in Hab. assert (FullKey.cmp lb k ≠ Gt) as Hle by (by destruct (FullKey.cmp lb k)).
    assert (∀ x, reaches (KeyRange.right_exclusive (SstableInfo.key_range a)) ha (FullKey.user_key x) = true →
              FullKey.cmp x k = Lt) as Hx.
    { intros x Hx. apply (cmp_lt_le_trans FullKey.cmp _ lb); [|done]. apply user_lt_full. by eapply reaches_false_lt. }
    split; [|intros e He; by apply Hx, Fa]. destruct Ha as [_ Ha]. by rewrite (Hx la Ha).
  - apply (before_reaches _ _ _ _ _ _ Hb Ha) in Hab.
    assert (UserKey.cmp (FullKey.user_key k) (FullKey.user_key la) = Lt) as Hlt by (by eapply backward_gap).
    split.
    + assert (FullKey.cmp ha k = Gt) as ->; [|done]. apply (cmp_gt_lt FullKey.cmp), user_lt_full.
      destruct Ha as [_ Ha]. apply (cmp_lt_le_trans UserKey.cmp _ (FullKey.user_key la)); [done|]. by eapply reaches_le.
    + intros e He. apply (cmp_lt_le_trans FullKey.cmp _ la); [by apply user_lt_full|]. by apply Fa.
Qed.

(** ** The contract *)

Context (infos : list SstableInfo.t) (tables_hold : Forall table_holds infos)
  (tables_sorted : StronglySorted dir_before infos)
  (contents_sorted : Forall (λ info, sorted dir (content info)) infos).

(** The store opens a table or reports an error; an opened table gives an iterator over its
    entries. *)
Hypothesis store_ok : ∀ store info, info ∈ infos →
  match sstable store info with
  | (_, inl _) => faults
  | (store', inr table) => ∃ ti, create table store' info = Ret ti ∧ owns (faults := faults) (content info) ti
  end.

Abbreviation concat := (ConcatIteratorInner.t Store TI).
Implicit Type c : concat.
Abbreviation entries_from i := (mjoin (content <$> drop i infos)).

Lemma entries_sorted : sorted dir (mjoin (content <$> infos)).
Proof.
  revert tables_hold tables_sorted contents_sorted. generalize infos as l. clear infos store_ok.
  induction l as [|a l IH]; intros Hh Hs Hc; [constructor|]. rewrite fmap_cons, join_cons.
  apply Forall_cons in Hh as [Ha Hh]. apply Forall_cons in Hc as [Hca Hc]. apply StronglySorted_cons in Hs as [Hf Hs].
  apply StronglySorted_app. split; [|by split; [|apply IH]]. intros x y Hx (ys & Hy & (b & -> & Hb)%list_elem_of_fmap)%list_elem_of_join.
  rewrite Forall_forall in Hf, Hh. specialize (Hf b Hb). specialize (Hh b Hb). unfold dir_before in Hf. unfold kv_le.
  destruct dir; cbn [dir_cmp rev_cmp].
  - by rewrite (before_entries a b x y).
  - unfold rev_cmp. by rewrite (before_entries b a y x).
Qed.

(** Standing in table [cur_idx] with the tables from [idx] on still ahead. *)
Definition amid (idx : nat) (rest : list kv) c : Prop :=
  ConcatIteratorInner.sstable_infos c = infos ∧
  match ConcatIteratorInner.sstable_iter c with
  | Some ti =>
      ∃ info r, infos !! ConcatIteratorInner.cur_idx c = Some info ∧ idx = S (ConcatIteratorInner.cur_idx c) ∧
        stands (faults := faults) (content info) r ti ∧ rest = r ++ entries_from idx
  | None => rest = [] ∧ length infos ≤ idx
  end.

Definition concat_owns (all : list kv) c : Prop :=
  ConcatIteratorInner.sstable_infos c = infos ∧ all = mjoin (content <$> infos).

Definition concat_stands (all rest : list kv) c : Prop :=
  concat_owns all c ∧ rest `suffix_of` all ∧ ∃ idx, amid idx rest c ∧ (ConcatIteratorInner.is_valid c = Ret false → rest = []).

Lemma seek_idx_ok c idx (sk : option FullKey.t) :
  match sk with Some k => seeks k | None => True end → ConcatIteratorInner.sstable_infos c = infos →
  runs faults (ConcatIteratorInner.seek_idx sstable create c idx sk)
    (amid (S idx) (match infos !! idx with
                   | Some info => match sk with Some k => from_key dir k (content info) | None => content info end
                                  ++ entries_from (S idx)
                   | None => []
                   end))
    (λ c', ConcatIteratorInner.sstable_infos c' = infos).
Proof.
  intros Hk Hc. unfold ConcatIteratorInner.seek_idx. rewrite Hc. destruct (infos !! idx) as [info|] eqn:Hi.
  2: { apply runs_ok. split; [done|]. split; [done|]. apply lookup_ge_None in Hi. simpl. lia. }
  pose proof (store_ok (ConcatIteratorInner.sstable_store c) info (list_elem_of_lookup_2 _ _ _ Hi)) as Hst.
  destruct (sstable _ info) as [store [err|table]]; [done|]. destruct Hst as (ti & -> & Hti). cbn [mbind outcome_bind].
  destruct sk as [k|]; (eapply runs_and_then; [by apply owns_seek || by apply owns_rewind| |]).
  1,3: intros ti' Hti'; apply runs_ok; split; [done|]; exists info; by eexists.
  1,2: done.
Qed.

Lemma entries_from_lookup i info : infos !! i = Some info → entries_from i = content info ++ entries_from (S i).
Proof. intros Hi. by rewrite (drop_S _ _ _ Hi), fmap_cons, join_cons. Qed.

Lemma entries_from_end i : length infos ≤ i → entries_from i = [].
Proof. intros Hi. by rewrite drop_ge. Qed.

(** The loop stops at a table with an entry or behind the last table. *)
Lemma next_tables_ok n : ∀ c idx rest,
  amid idx rest c → n = length infos - idx →
  runs faults (ConcatIteratorInner.next_tables sstable create n c idx)
    (λ c', ConcatIteratorInner.sstable_infos c' = infos ∧
       ∃ idx', amid idx' rest c' ∧ (ConcatIteratorInner.is_valid c' = Ret false → rest = []))
    (λ c', ConcatIteratorInner.sstable_infos c' = infos).
Proof.
  induction n as [|n IH]; intros c idx rest Hc Hn; cbn [ConcatIteratorInner.next_tables]; pose proof Hc as [Hin Hit];
    unfold ConcatIteratorInner.is_valid at 1 in |- *.
  - apply runs_ok. split; [done|]. exists idx. split; [done|]. unfold ConcatIteratorInner.is_valid.
    destruct (ConcatIteratorInner.sstable_iter c) as [ti|]; [|by destruct Hit].
    destruct Hit as (info & r & _ & _ & Hst & ->). rewrite (stands_valid _ _ _ Hst), (entries_from_end idx), app_nil_r by lia.
    by destruct r.
  - destruct (ConcatIteratorInner.sstable_iter c) as [ti|] eqn:Eti; [|destruct Hit; lia].
    destruct Hit as (info & r & Hi & Hidx & Hst & ->). rewrite (stands_valid _ _ _ Hst).
    destruct r as [|e r]; cbn [mbind outcome_bind].
    2: { apply runs_ok. split; [done|]. exists idx. split; [done|]. unfold ConcatIteratorInner.is_valid.
         by rewrite Eti, (stands_valid _ _ _ Hst). }
    destruct (lookup_lt_is_Some_2 infos idx ltac:(lia)) as [info' Hi'].
    eapply runs_and_then; [by apply (seek_idx_ok c idx None)| |done]. intros c' Hc'. rewrite Hi' in Hc'.
    rewrite (entries_from_lookup _ _ Hi'). simpl. apply IH; [by rewrite Nat.add_1_r|lia].
Qed.

Lemma tables_from_ok c idx rest all :
  amid idx rest c → all = mjoin (content <$> infos) → rest `suffix_of` all →
  runs faults (ConcatIteratorInner.tables_from sstable create c idx) (concat_stands all rest) (concat_owns all).
Proof.
  intros Hc -> Hsuf. unfold ConcatIteratorInner.tables_from. pose proof Hc as [Hin _]. rewrite Hin.
  eapply runs_weaken; [by apply next_tables_ok| |done]. by intros c' [Hin' Hc'].
Qed.

Lemma entries_from_suffix i : entries_from i `suffix_of` mjoin (content <$> infos).
Proof. exists (mjoin (content <$> take i infos)). by rewrite <-join_app, <-fmap_app, take_drop. Qed.

Lemma concat_rewind all c :
  concat_owns all c → runs faults (ConcatIteratorInner.rewind sstable create c) (concat_stands all all) (concat_owns all).
Proof.
  intros [Hin ->]. unfold ConcatIteratorInner.rewind. eapply runs_and_then; [by apply (seek_idx_ok c 0 None)| |done].
  intros c' Hc'. apply tables_from_ok; [|done..].
  assert (mjoin (content <$> infos) = match infos !! 0 with Some info => content info ++ entries_from 1 | None => [] end) as ->;
    [by destruct infos|done].
Qed.

(** The search: no entry from the key on is in a table before the one it finds. *)
Lemma from_key_search k :
  is_uint 64 (FullKey.epoch_with_gap k) →
  let n := partition_point (val (starts_before k)) infos in
  rpartition_point (starts_before k) infos = Ret n ∧
  from_key dir k (mjoin (content <$> infos)) =
    match infos !! (n - 1) with Some info => from_key dir k (content info) ++ entries_from (S (n - 1)) | None => [] end.
Proof.
  intros Hk n. rewrite Forall_forall in tables_hold.
  assert (total_on (starts_before k) infos) as Htot.
  { apply Forall_forall. intros info Hi. unfold val. by destruct (starts_before_total k info (tables_hold _ Hi)) as [b ->]. }
  split; [by apply rpartition_point_ok|]. unfold total_on in Htot. rewrite Forall_forall in Htot.
  assert (∀ a b, a ∈ infos → b ∈ infos → dir_before a b → val (starts_before k) b = true →
            val (starts_before k) a = true ∧ Forall (λ e, dir_cmp dir e.1 k = Lt) (content a)) as Hmono.
  { intros a b Ha Hb Hab Hv. unfold val at 1.
    destruct (starts_true k a b Hk (tables_hold _ Ha) (tables_hold _ Hb) Hab) as [-> Hf]; [|done].
    by rewrite (Htot b Hb), Hv. }
  assert (prefix_closed (val (starts_before k)) infos) as Hpc.
  { apply (sorted_impl dir_before _ (λ x, x ∈ infos)); [by apply Forall_forall|exact tables_sorted|]. intros a b Ha Hb Hab Hv. by destruct (Hmono a b). }
  pose proof (partition_point_le (val (starts_before k)) infos) as Hle. fold n in Hle.
  destruct (infos !! (n - 1)) as [info|] eqn:Hi.
  2: { apply lookup_ge_None in Hi. assert (infos = []) as -> by (apply nil_length_inv; lia). done. }
  pose proof (take_drop_middle _ _ _ Hi) as E. rewrite <-E at 1. clear E.
  rewrite fmap_app, fmap_cons, join_app, join_cons. unfold from_key. rewrite !filter_app.
  rewrite (filter_none _ (mjoin (content <$> take (n - 1) infos))).
  2: { intros e (es & He & (a & -> & Ha)%list_elem_of_fmap)%list_elem_of_join Hge. apply Hge.
       apply list_elem_of_lookup in Ha as [i [Ha Hlt]%lookup_take_Some].
       destruct (Hmono a info) as [_ Hf]; [by eapply list_elem_of_lookup_2|by eapply list_elem_of_lookup_2| | |].
       - by apply (sorted_lookup dir_before infos i (n - 1)).
       - apply (partition_point_lookup _ _ _ _ Hpc Hi). fold n. lia.
       - by eapply Forall_forall in Hf. }
  rewrite (filter_all _ (entries_from _)); [done|].
  intros e (es & He & (a & -> & Ha)%list_elem_of_fmap)%list_elem_of_join.
  apply list_elem_of_lookup in Ha as [i Ha]. rewrite lookup_drop in Ha.
  assert (val (starts_before k) a = false) as Hv.
  { apply not_true_is_false. intros Hv%(partition_point_lookup _ _ _ _ Hpc Ha). fold n in Hv. lia. }
  apply list_elem_of_lookup_2 in Ha. apply (starts_false k a e); [auto| |done]. by rewrite Htot, Hv.
Qed.

Lemma concat_seek all k c :
  seeks k → concat_owns all c →
  runs faults (ConcatIteratorInner.seek sstable create c k) (concat_stands all (from_key dir k all)) (concat_owns all).
Proof.
  intros Hk [Hin ->]. unfold ConcatIteratorInner.seek. rewrite Hin.
  destruct (from_key_search k (seeks_uint k Hk)) as [-> Hfk]. cbn [mbind outcome_bind].
  eapply runs_and_then; [by apply (seek_idx_ok c _ (Some k))| |done].
  intros c' Hc'. rewrite <-Hfk in Hc'. rewrite Nat.add_1_r. apply tables_from_ok; [done..|].
  apply from_key_suffix, entries_sorted.
Qed.

Lemma concat_next all e rest c :
  concat_stands all (e :: rest) c →
  runs faults (ConcatIteratorInner.next sstable create c) (concat_stands all rest) (λ _, True).
Proof.
  intros (Hown & Hsuf & idx & [Hin Hit] & Hv). unfold ConcatIteratorInner.next, ConcatIteratorInner.is_valid in *.
  destruct (ConcatIteratorInner.sstable_iter c) as [ti|]; [|by destruct Hit].
  destruct Hit as (info & r & Hi & -> & Hst & Hrest). cbn [unwrap mbind outcome_bind].
  rewrite (stands_valid _ _ _ Hst) in Hv. destruct r as [|e' r]; [by specialize (Hv eq_refl)|]. injection Hrest as <- ->.
  assert (r ++ entries_from (S (ConcatIteratorInner.cur_idx c)) `suffix_of` all) as Hsuf'.
  { destruct Hsuf as [p ->]. exists (p ++ [e]). by rewrite <-app_assoc. }
  eapply runs_and_then; [by eapply stands_next| |done]. intros ti' Hst'. rewrite (stands_valid _ _ _ Hst').
  set (c' := ConcatIteratorInner.mk _ _ _ _).
  assert (amid (S (ConcatIteratorInner.cur_idx c)) (r ++ entries_from (S (ConcatIteratorInner.cur_idx c))) c') as Hc'.
  { split; [done|]. by exists info, r. }
  destruct r as [|e' r]; cbn [mbind outcome_bind].
  - rewrite Nat.add_1_r. eapply runs_weaken; [apply tables_from_ok; [exact Hc'|apply Hown|done]|done|done].
  - apply runs_ok. split; [exact Hown|]. split; [done|]. eexists. split; [exact Hc'|].
    unfold ConcatIteratorInner.is_valid. simpl. by rewrite (stands_valid _ _ _ Hst').
Qed.

Lemma concat_current all e rest c :
  concat_stands all (e :: rest) c →
  ∃ ti info r, ConcatIteratorInner.sstable_iter c = Some ti ∧ stands (faults := faults) (content info) (e :: r) ti.
Proof.
  intros (_ & _ & idx & [Hin Hit] & Hv). unfold ConcatIteratorInner.is_valid in Hv.
  destruct (ConcatIteratorInner.sstable_iter c) as [ti|]; [|by destruct Hit].
  destruct Hit as (info & r & Hi & -> & Hst & Hrest). rewrite (stands_valid _ _ _ Hst) in Hv.
  destruct r as [|e' r]; [by specialize (Hv eq_refl)|]. injection Hrest as <- ->. by exists ti, info, r.
Qed.

Definition concat_spec :
  IteratorSpec concat faults seeks (H := ConcatIteratorInner.concat_iter sstable create).
Proof.
  unshelve refine (Build_IteratorSpec _ _ _ _ concat_owns concat_stands _ _ _ _ _ _ _ _ _);
    cbn [HummockIterator.direction HummockIterator.next HummockIterator.key HummockIterator.value
         HummockIterator.is_valid HummockIterator.rewind HummockIterator.seek ConcatIteratorInner.concat_iter].
  - intros all c [_ ->]. apply entries_sorted.
  - by intros all rest c [H _].
  - by intros all rest c (_ & H & _).
  - intros all [|e rest] c Hc.
    + destruct Hc as (_ & _ & idx & [_ Hit] & _). unfold ConcatIteratorInner.is_valid.
      destruct (ConcatIteratorInner.sstable_iter c) as [ti|]; [|done].
      destruct Hit as (info & r & _ & _ & Hst & Hr). symmetry in Hr. apply app_eq_nil in Hr as [-> _].
      exact (stands_valid _ _ _ Hst).
    + apply concat_current in Hc as (ti & info & r & E & Hst). unfold ConcatIteratorInner.is_valid.
      rewrite E. exact (stands_valid _ _ _ Hst).
  - intros all e rest c (ti & info & r & E & Hst)%concat_current. unfold ConcatIteratorInner.key. rewrite E.
    exact (stands_key _ _ _ _ Hst).
  - intros all e rest c (ti & info & r & E & Hst)%concat_current. unfold ConcatIteratorInner.value. rewrite E.
    exact (stands_value _ _ _ _ Hst).
  - apply concat_next.
  - apply concat_rewind.
  - apply concat_seek.
Defined.
End concat.
