(* ===== verification/UserIter.v ===== *)
(** * User iterators and watermark filtering

    [src/storage/src/hummock/iterator/forward_user.rs], [backward_user.rs] and
    [skip_watermark.rs]: the iterators that turn the versioned entries of an inner iterator
    into the rows visible at an epoch, and the one that drops the entries below a table
    watermark.  Loops over the inner iterator take fuel; running out of it is a panic, and the
    theorems of [UserIterSpec.v], [BackwardIterSpec.v] and [SkipWatermarkSpec.v] show that more
    fuel than entries is enough.  Statistics of the scan are not modelled. *)

From Stdlib Require Import ZArith Lia.
From stdpp Require Import gmap.
From S2P Require Import Prelude Order Bytes Epoch Bits Bitmap Vnode Key KeySpec KeyRange Watermark Sst Block Iter.

(** [FullKey::default()] *)
Definition default_full_key : FullKey.t := FullKey.mk (UserKey.mk 0 []) 0.

Abbreviation UserKeyRange := (Bound UserKey.t * Bound UserKey.t)%type.

(** ** [UserIterator] *)
Module UserIterator.

Record t (I : Type) := mk {
  iterator : I;
  full_key_tracker : FullKeyTracker.t;
  key_range : UserKeyRange;
  read_epoch : Z;
  min_epoch : Z;
  is_current_pos_valid : bool
}.
Arguments mk {I} iterator full_key_tracker key_range read_epoch min_epoch is_current_pos_valid.
Arguments iterator {I} t.
Arguments full_key_tracker {I} t.
Arguments key_range {I} t.
Arguments read_epoch {I} t.
Arguments min_epoch {I} t.
Arguments is_current_pos_valid {I} t.

Section user.
Context {I : Type} {it : HummockIterator.t I} (fuel : nat).

Definition new (iterator : I) (key_range : UserKeyRange) (read_epoch min_epoch : Z) : t I :=
  mk iterator (FullKeyTracker.new default_full_key) key_range read_epoch min_epoch false.

Definition set_iterator (self : t I) (i : I) : t I :=
  mk i (full_key_tracker self) (key_range self) (read_epoch self) (min_epoch self) (is_current_pos_valid self).
Definition set_tracker (self : t I) (tr : FullKeyTracker.t) : t I :=
  mk (iterator self) tr (key_range self) (read_epoch self) (min_epoch self) (is_current_pos_valid self).
Definition set_valid (self : t I) (b : bool) : t I :=
  mk (iterator self) (full_key_tracker self) (key_range self) (read_epoch self) (min_epoch self) b.

Definition user_key_out_of_range (self : t I) (user_key : UserKey.t) : bool :=
  match (key_range self).2 with
  | Included end_key => cmp_ltb UserKey.cmp end_key user_key
  | Excluded end_key => cmp_leb UserKey.cmp end_key user_key
  | Unbounded => false
  end.

Fixpoint try_advance (n : nat) (self : t I) : step (t I) :=
  match n with
  | O => Panic
  | S n =>
      valid ← HummockIterator.is_valid (iterator self);
      if negb valid then ok (set_valid self false)
      else
        full_key ← HummockIterator.key (iterator self);
        let epoch := EpochWithGap.pure_epoch (FullKey.epoch_with_gap full_key) in
        let advance (self : t I) :=
          and_then (HummockIterator.next (iterator self)) (set_iterator self)
            (λ i, try_advance n (set_iterator self i)) in
        if (epoch <? min_epoch self)%Z || (read_epoch self <? epoch)%Z then advance self
        else
          '(tr, observed) ← FullKeyTracker.observe true (full_key_tracker self) full_key;
          let self := set_tracker self tr in
          if negb observed then advance self
          else if user_key_out_of_range self (FullKey.user_key full_key) then ok (set_valid self false)
          else
            value ← HummockIterator.value (iterator self);
            match value with
            | HummockValue.Put _ => ok (set_valid self true)
            | HummockValue.Delete => advance self
            end
  end.

Definition try_advance_to_next_valid (self : t I) : step (t I) := try_advance fuel self.

Definition next (self : t I) : step (t I) :=
  let self := set_valid self false in
  and_then (HummockIterator.next (iterator self)) (set_iterator self)
    (λ i, try_advance_to_next_valid (set_iterator self i)).

Definition is_valid (self : t I) : bool := is_current_pos_valid self.

Definition key (self : t I) : outcome FullKey.t :=
  rassert (is_valid self);; Ret (FullKeyTracker.latest_full_key (full_key_tracker self)).

Definition value (self : t I) : outcome (list byte) :=
  rassert (is_valid self);;
  v ← HummockIterator.value (iterator self);
  match v with HummockValue.Put val => Ret val | HummockValue.Delete => Panic end.

(** The end of [rewind] and [seek]: leave an excluded first key. *)
Definition skip_excluded_begin (self : t I) : step (t I) :=
  match (key_range self).1 with
  | Excluded begin_key =>
      if is_valid self then
        k ← key self;
        if bool_decide (FullKey.user_key k = begin_key) then next self else ok self
      else ok self
  | _ => ok self
  end.

(** The inner [seek] to the newest readable version of a user key. *)
Definition seek_inner (self : t I) (user_key : UserKey.t) : step I :=
  HummockIterator.seek (iterator self)
    (FullKey.mk user_key (EpochWithGap.new (read_epoch self) Epoch.MAX_SPILL_TIMES)).

Definition reset (self : t I) : t I :=
  set_tracker (set_valid self false) (FullKeyTracker.new default_full_key).

Definition rewind (self : t I) : step (t I) :=
  let self := reset self in
  and_then (match (key_range self).1 with
            | Included begin_key | Excluded begin_key => seek_inner self begin_key
            | Unbounded => HummockIterator.rewind (iterator self)
            end) (set_iterator self)
    (λ i, and_then (try_advance_to_next_valid (set_iterator self i)) id skip_excluded_begin).

Definition seek (self : t I) (user_key : UserKey.t) : step (t I) :=
  let self := reset self in
  let seek_key :=
    match (key_range self).1 with
    | Included begin_key | Excluded begin_key =>
        if cmp_ltb UserKey.cmp user_key begin_key then begin_key else user_key
    | Unbounded => user_key
    end in
  and_then (seek_inner self seek_key) (set_iterator self)
    (λ i, and_then (try_advance_to_next_valid (set_iterator self i)) id skip_excluded_begin).

End user.
End UserIterator.

(** ** [BackwardUserIterator] *)
Module BackwardUserIterator.

Record t (I : Type) := mk {
  iterator : I;
  just_met_new_key : bool;
  last_key : FullKey.t;
  last_val : list byte;
  last_delete : bool;
  out_of_range : bool;
  key_range : UserKeyRange;
  read_epoch : Z;
  min_epoch : Z
}.
Arguments mk {I} iterator just_met_new_key last_key last_val last_delete out_of_range key_range read_epoch min_epoch.
Arguments iterator {I} t.
Arguments just_met_new_key {I} t.
Arguments last_key {I} t.
Arguments last_val {I} t.
Arguments last_delete {I} t.
Arguments out_of_range {I} t.
Arguments key_range {I} t.
Arguments read_epoch {I} t.
Arguments min_epoch {I} t.

Section backward.
Context {I : Type} {it : HummockIterator.t I} (fuel : nat).

Definition new (iterator : I) (key_range : UserKeyRange) (read_epoch min_epoch : Z) : t I :=
  mk iterator false default_full_key [] true false key_range read_epoch min_epoch.

(** Assignments to the fields; the query stays. *)
Definition set_iterator (self : t I) (i : I) : t I :=
  mk i (just_met_new_key self) (last_key self) (last_val self) (last_delete self) (out_of_range self)
     (key_range self) (read_epoch self) (min_epoch self).
Definition set_key (self : t I) (met : bool) (k : FullKey.t) : t I :=
  mk (iterator self) met k (last_val self) (last_delete self) (out_of_range self)
     (key_range self) (read_epoch self) (min_epoch self).
Definition set_out_of_range (self : t I) : t I :=
  mk (iterator self) (just_met_new_key self) (last_key self) (last_val self) (last_delete self) true
     (key_range self) (read_epoch self) (min_epoch self).
Definition set_version (self : t I) (k : FullKey.t) (v : HummockValue.t) : t I :=
  match v with
  | HummockValue.Put val =>
      mk (iterator self) (just_met_new_key self) k val false (out_of_range self)
         (key_range self) (read_epoch self) (min_epoch self)
  | HummockValue.Delete =>
      mk (iterator self) (just_met_new_key self) (last_key self) (last_val self) true (out_of_range self)
         (key_range self) (read_epoch self) (min_epoch self)
  end.

Definition is_out_of_range (self : t I) (key : UserKey.t) : bool :=
  match (key_range self).1 with
  | Included begin_key => cmp_ltb UserKey.cmp key begin_key
  | Excluded begin_key => cmp_leb UserKey.cmp key begin_key
  | Unbounded => false
  end.

Definition reset (self : t I) : t I :=
  mk (iterator self) false default_full_key (last_val self) true false (key_range self) (read_epoch self) (min_epoch self).

Fixpoint next_loop (n : nat) (self : t I) : step (t I) :=
  match n with
  | O => Panic
  | S n =>
      valid ← HummockIterator.is_valid (iterator self);
      if negb valid then ok self
      else
        full_key ← HummockIterator.key (iterator self);
        let epoch := EpochWithGap.pure_epoch (FullKey.epoch_with_gap full_key) in
        let key := FullKey.user_key full_key in
        let advance (self : t I) :=
          and_then (HummockIterator.next (iterator self)) (set_iterator self)
            (λ i, next_loop n (set_iterator self i)) in
        let take_version (self : t I) :=
          value ← HummockIterator.value (iterator self); advance (set_version self full_key value) in
        if (min_epoch self <? epoch)%Z && (epoch <=? read_epoch self)%Z then
          if just_met_new_key self then
            let self := set_key self false full_key in
            if is_out_of_range self key then ok (set_out_of_range self) else take_version self
          else if negb (bool_decide (FullKey.user_key (last_key self) = key)) then
            if negb (last_delete self) then ok (set_key self true (last_key self))
            else
              let self := set_key self (just_met_new_key self) full_key in
              if is_out_of_range self key then ok (set_out_of_range self) else take_version self
          else take_version self
        else advance self
  end.

Definition next (self : t I) : step (t I) :=
  valid ← HummockIterator.is_valid (iterator self);
  if negb valid then
    ok (mk (iterator self) (just_met_new_key self) (last_key self) (last_val self) true (out_of_range self)
           (key_range self) (read_epoch self) (min_epoch self))
  else next_loop fuel self.

Definition is_valid (self : t I) : outcome bool :=
  valid ← HummockIterator.is_valid (iterator self);
  Ret ((valid || negb (last_delete self)) && negb (out_of_range self)).

Definition key (self : t I) : outcome FullKey.t := valid ← is_valid self; rassert valid;; Ret (last_key self).
Definition value (self : t I) : outcome (list byte) := valid ← is_valid self; rassert valid;; Ret (last_val self).

(** The end of [rewind] and [seek]: take the first row, leave an excluded last key. *)
Definition start (self : t I) : step (t I) :=
  and_then (next self) id (λ self,
    match (key_range self).2 with
    | Excluded end_key =>
        valid ← is_valid self;
        if (valid : bool) then
          k ← key self;
          if bool_decide (FullKey.user_key k = end_key) then next self else ok self
        else ok self
    | _ => ok self
    end).

(** The inner [seek] to the oldest version of a user key. *)
Definition seek_inner (self : t I) (user_key : UserKey.t) : step I :=
  HummockIterator.seek (iterator self) (FullKey.mk user_key EpochWithGap.new_min_epoch).

Definition rewind (self : t I) : step (t I) :=
  and_then (match (key_range self).2 with
            | Included end_key | Excluded end_key => seek_inner self end_key
            | Unbounded => HummockIterator.rewind (iterator self)
            end) (set_iterator self)
    (λ i, start (reset (set_iterator self i))).

Definition seek (self : t I) (user_key : UserKey.t) : step (t I) :=
  let seek_key :=
    match (key_range self).2 with
    | Included end_key | Excluded end_key => if cmp_ltb UserKey.cmp end_key user_key then end_key else user_key
    | Unbounded => user_key
    end in
  and_then (seek_inner self seek_key) (set_iterator self) (λ i, start (reset (set_iterator self i))).

End backward.
End BackwardUserIterator.

(** ** [ReadTableWatermark] and [SkipWatermarkState]

    A [BTreeMap] as the list of its pairs in ascending order. *)
Record ReadTableWatermark := mk_read_watermark {
  rw_direction : WatermarkDirection.t;
  vnode_watermarks : list (VirtualNode.t * list byte)
}.

(** [BTreeMap::insert]: the map and the old value. *)
Fixpoint btree_map_insert {V} (k : nat) (v : V) (m : list (nat * V)) : list (nat * V) * option V :=
  match m with
  | [] => ([(k, v)], None)
  | (k', v') :: m' =>
      if k <? k' then ((k, v) :: m, None)
      else if k =? k' then ((k, v) :: m', Some v')
      else let '(m', o) := btree_map_insert k v m' in ((k', v') :: m', o)
  end.

(** [safe_epoch_read_table_watermarks_impl] *)
Definition read_table_watermark (watermarks : TableWatermarks.t) : outcome ReadTableWatermark :=
  rassert (length (TableWatermarks.watermarks watermarks) =? 1);;
  first ← unwrap (head (TableWatermarks.watermarks watermarks));
  m ← rfold (λ m vnode_watermark,
        rfold (λ m vnode,
          let '(m, old) := btree_map_insert vnode (VnodeWatermark.watermark vnode_watermark) m in
          rassert (match old with None => true | Some _ => false end);; Ret m)
          (VnodeBitmapExt.iter_vnodes (VnodeWatermark.vnode_bitmap vnode_watermark)) m)
        first.2 [];
  Ret (mk_read_watermark (TableWatermarks.direction watermarks) m).

Definition safe_epoch_read_table_watermarks_impl (safe_epoch_watermarks : list (Z * TableWatermarks.t))
  : outcome (list (Z * ReadTableWatermark)) :=
  rmap (λ tw : Z * TableWatermarks.t, w ← read_table_watermark tw.2; Ret (tw.1, w)) safe_epoch_watermarks.

Module SkipWatermarkState.

(** A remaining watermark: table, vnode, direction, watermark. *)
Abbreviation remaining := (Z * VirtualNode.t * WatermarkDirection.t * list byte)%type.

Record t := mk {
  watermarks : list (Z * ReadTableWatermark);
  remain_watermarks : list remaining
}.

Definition new (watermarks : list (Z * ReadTableWatermark)) : t := mk watermarks [].

Definition from_safe_epoch_watermarks (safe_epoch_watermarks : list (Z * TableWatermarks.t)) : outcome t :=
  new <$> safe_epoch_read_table_watermarks_impl safe_epoch_watermarks.

Definition has_watermark (self : t) : bool := match remain_watermarks self with [] => false | _ => true end.

(** The order of (table, vnode) pairs. *)
Definition pos_cmp (t1 : Z) (v1 : VirtualNode.t) (t2 : Z) (v2 : VirtualNode.t) : comparison :=
  pair_cmp Z.compare Nat.compare (t1, v1) (t2, v2).

(** [advance_watermark]: the remaining watermarks and whether the key is filtered. *)
Fixpoint advance_watermark (key_table_id : Z) (key_vnode : VirtualNode.t) (inner_key : list byte)
    (remain : list remaining) : list remaining * bool :=
  match remain with
  | [] => ([], false)
  | (table_id, vnode, direction, watermark) :: remain' =>
      match pos_cmp table_id vnode key_table_id key_vnode with
      | Lt => advance_watermark key_table_id key_vnode inner_key remain'
      | Eq =>
          match direction with
          | WatermarkDirection.Ascending =>
              match bytes_cmp inner_key watermark with Lt => (remain, true) | _ => (remain', false) end
          | WatermarkDirection.Descending =>
              (remain, match bytes_cmp inner_key watermark with Gt => true | _ => false end)
          end
      | Gt => (remain, false)
      end
  end.

Definition should_delete (self : t) (key : FullKey.t) : outcome (t * bool) :=
  match remain_watermarks self with
  | [] => Ret (self, false)
  | (table_id, vnode, direction, watermark) :: _ =>
      let key_table_id := UserKey.table_id (FullKey.user_key key) in
      '(key_vnode, inner_key) ← TableKey.split_vnode (UserKey.table_key (FullKey.user_key key));
      match pos_cmp key_table_id key_vnode table_id vnode with
      | Lt => Ret (self, false)
      | Eq => Ret (self, WatermarkDirection.filter_by_watermark direction inner_key watermark)
      | Gt =>
          let '(remain, b) := advance_watermark key_table_id key_vnode inner_key (remain_watermarks self) in
          Ret (mk (watermarks self) remain, b)
      end
  end.

Definition reset_watermark (self : t) : t :=
  mk (watermarks self)
     (mjoin ((λ tw : Z * ReadTableWatermark,
        (λ vw : VirtualNode.t * list byte, (tw.1, vw.1, rw_direction tw.2, vw.2)) <$> vnode_watermarks tw.2) <$> watermarks self)).

End SkipWatermarkState.

(** ** [SkipWatermarkIterator] *)
Module SkipWatermarkIterator.

(** The counters of [TableStats] a skip changes. *)
Record TableStats := mk_stats { total_key_count : Z; total_key_size : Z; total_value_size : Z }.
Definition default_stats : TableStats := mk_stats 0 0 0.
Definition add_stats (a b : TableStats) : TableStats :=
  mk_stats (total_key_count a + total_key_count b) (total_key_size a + total_key_size b)
           (total_value_size a + total_value_size b).

Record t (I : Type) := mk {
  inner : I;
  state : SkipWatermarkState.t;
  skipped_entry_table_stats : gmap Z TableStats;
  last_table_id : option Z;
  last_table_stats : TableStats
}.
Arguments mk {I} inner state skipped_entry_table_stats last_table_id last_table_stats.
Arguments inner {I} t.
Arguments state {I} t.
Arguments skipped_entry_table_stats {I} t.
Arguments last_table_id {I} t.
Arguments last_table_stats {I} t.

Section skip.
Context {I : Type} {it : HummockIterator.t I} (fuel : nat).

Definition new (inner : I) (watermarks : list (Z * ReadTableWatermark)) : t I :=
  mk inner (SkipWatermarkState.new watermarks) ∅ None default_stats.

Definition set_inner (self : t I) (i : I) : t I :=
  mk i (state self) (skipped_entry_table_stats self) (last_table_id self) (last_table_stats self).

Definition add_last_table_stats (self : t I) : t I :=
  match last_table_id self with
  | None => self
  | Some id =>
      mk (inner self) (state self)
         (<[id := add_stats (default default_stats (skipped_entry_table_stats self !! id)) (last_table_stats self)]>
            (skipped_entry_table_stats self))
         None default_stats
  end.

(** The accounting of a skipped entry. *)
Definition count_skipped (self : t I) (k : FullKey.t) (v : HummockValue.t) : t I :=
  let table_id := UserKey.table_id (FullKey.user_key k) in
  let self :=
    if match last_table_id self with None => true | Some id => negb (id =? table_id)%Z end then
      let self := add_last_table_stats self in
      mk (inner self) (state self) (skipped_entry_table_stats self) (Some table_id) (last_table_stats self)
    else self in
  mk (inner self) (state self) (skipped_entry_table_stats self) (last_table_id self)
     (add_stats (last_table_stats self)
        (mk_stats (-1) (- Z.of_nat (FullKey.encoded_len k)) (- Z.of_nat (HummockValue.encoded_len v)))).

Fixpoint advance_loop (n : nat) (self : t I) : step (t I) :=
  match n with
  | O => Panic
  | S n =>
      valid ← HummockIterator.is_valid (inner self);
      if negb valid then ok (add_last_table_stats self)
      else
        k ← HummockIterator.key (inner self);
        '(state, deleted) ← SkipWatermarkState.should_delete (state self) k;
        let self := mk (inner self) state (skipped_entry_table_stats self) (last_table_id self) (last_table_stats self) in
        if negb deleted then ok (add_last_table_stats self)
        else
          v ← HummockIterator.value (inner self);
          let self := count_skipped self k v in
          and_then (HummockIterator.next (inner self)) (set_inner self) (λ i, advance_loop n (set_inner self i))
  end.

Definition advance_key_and_watermark (self : t I) : step (t I) := advance_loop fuel self.

Definition next (self : t I) : step (t I) :=
  and_then (HummockIterator.next (inner self)) (set_inner self) (λ i,
    let self := set_inner self i in
    if SkipWatermarkState.has_watermark (state self) then advance_key_and_watermark self else ok self).

(** [reset_watermark] and [reset_skipped_entry_table_stats] *)
Definition reset (self : t I) : t I :=
  mk (inner self) (SkipWatermarkState.reset_watermark (state self)) ∅ None default_stats.

Definition rewind (self : t I) : step (t I) :=
  let self := reset self in
  and_then (HummockIterator.rewind (inner self)) (set_inner self) (λ i, advance_key_and_watermark (set_inner self i)).

Definition seek (self : t I) (key : FullKey.t) : step (t I) :=
  let self := reset self in
  and_then (HummockIterator.seek (inner self) key) (set_inner self) (λ i, advance_key_and_watermark (set_inner self i)).

Definition skip_iter : HummockIterator.t (t I) := {|
  HummockIterator.direction := DirectionEnum.Forward;
  HummockIterator.next := next;
  HummockIterator.key self := HummockIterator.key (inner self);
  HummockIterator.value self := HummockIterator.value (inner self);
  HummockIterator.is_valid self := HummockIterator.is_valid (inner self);
  HummockIterator.rewind := rewind;
  HummockIterator.seek := seek
|}.
End skip.
End SkipWatermarkIterator.
