(* ===== verification/UserIterSpec.v ===== *)
(** * What a forward scan returns

    [UserIterator] over any lawful inner iterator returns exactly the rows visible at the read
    epoch: for every user key in the range the newest version within the epochs, unless it is
    a deletion ([UserIter.v]). *)

From Stdlib Require Import ZArith Lia.
From S2P Require Import Prelude Order Bytes Epoch Bits Bitmap Vnode Key KeySpec KeyOrder KeyRange Sst SstSpec Block Iter IterSpec UserIter.

Implicit Types (e x : kv) (u : UserKey.t).
Abbreviation ukey e := (FullKey.user_key (fst e)).
Abbreviation epoch_of e := (EpochWithGap.pure_epoch (FullKey.epoch_with_gap (fst e))).

(** ** The rows of a snapshot *)
Section snapshot.
Context (visible : kv → bool).

(** The first visible entry of every user key. *)
Fixpoint newest (es : list kv) : list kv :=
  match es with
  | [] => []
  | e :: es => if visible e then e :: filter (λ x, ukey x ≠ ukey e) (newest es) else newest es
  end.

Lemma newest_sub es e : e ∈ newest es → e ∈ es ∧ visible e = true.
Proof.
  induction es as [|x es IH]; [by intros ?%elem_of_nil|]. simpl. destruct (visible x) eqn:Ev.
  - rewrite !elem_of_cons, list_elem_of_filter. naive_solver.
  - rewrite elem_of_cons. naive_solver.
Qed.

(** On entries sorted by key with the newest version first, these are the newest visible versions. *)
Lemma newest_spec es e :
  sorted DirectionEnum.Forward es → coherent es →
  e ∈ newest es ↔
  e ∈ es ∧ visible e = true ∧
  ∀ x, x ∈ es → visible x = true → ukey x = ukey e → (FullKey.epoch_with_gap x.1 ≤ FullKey.epoch_with_gap e.1)%Z.
Proof.
  induction es as [|y es IH]; intros Hs Hc; [split; [by intros ?%elem_of_nil|by intros [?%elem_of_nil _]]|].
  apply StronglySorted_cons in Hs as [Hf Hs]. rewrite Forall_forall in Hf.
  assert (coherent es) as Hc' by (eapply coherent_sub; [|exact Hc]; intros z Hz; by right). specialize (IH Hs Hc').
  assert (∀ x, x ∈ es → ukey x = ukey y → (FullKey.epoch_with_gap x.1 ≤ FullKey.epoch_with_gap y.1)%Z) as Hy.
  { intros x Hx Hu. specialize (Hf x Hx). unfold kv_le in Hf. simpl in Hf. unfold FullKey.cmp in Hf.
    rewrite Hu, (cmp_refl UserKey.cmp) in Hf. exact Hf. }
  simpl. destruct (visible y) eqn:Ev.
  - rewrite !elem_of_cons, list_elem_of_filter, IH. split.
    + intros [->|(Hne & He & Hv & Hmax)].
      * split; [by left|]. split; [done|]. intros x [->|Hx]%elem_of_cons _ Hu; [lia|auto].
      * split; [by right|]. split; [done|]. intros x [->|Hx]%elem_of_cons Hvx Hu; [congruence|auto].
    + intros ([->|He] & Hv & Hmax); [by left|]. destruct (decide (ukey e = ukey y)) as [Hu|Hne].
      * left. apply Hc; [by right|by left|]. destruct e as [[ue ee] ve], y as [[uy ey] vy]. simpl in *. subst uy.
        specialize (Hmax (FullKey.mk ue ey, vy) ltac:(by left) Ev eq_refl). specialize (Hy _ He eq_refl). simpl in *. f_equal. lia.
      * right. split; [done|]. split; [done|]. split; [done|]. intros x Hx. apply Hmax. by right.
  - rewrite IH, elem_of_cons. split.
    + intros (He & Hv & Hmax). split; [by right|]. split; [done|]. intros x [->|Hx]%elem_of_cons; [congruence|auto].
    + intros ([->|He] & Hv & Hmax); [congruence|]. split; [done|]. split; [done|]. intros x Hx. apply Hmax. by right.
Qed.

Lemma newest_sorted es :
  sorted DirectionEnum.Forward es → StronglySorted (λ x y, UserKey.cmp (ukey x) (ukey y) = Lt) (newest es).
Proof.
  induction 1 as [|e es Hs IH Hf]; [constructor|]. simpl. destruct (visible e); [|done].
  constructor; [by apply sorted_filter|]. apply Forall_forall. intros x [Hne [Hx _]%newest_sub]%list_elem_of_filter.
  rewrite Forall_forall in Hf. specialize (Hf x Hx). unfold kv_le in Hf. simpl in Hf. unfold FullKey.cmp in Hf.
  destruct (UserKey.cmp (ukey e) (ukey x)) eqn:E; [|done|done].
  apply (cmp_eq_iff UserKey.cmp) in E. by rewrite E in Hne.
Qed.

(** What lies before a user key does not matter for the keys from it on. *)
Lemma newest_suffix u p s :
  (∀ e, e ∈ p → visible e = true → UserKey.cmp (ukey e) u = Lt) → (∀ e, e ∈ s → UserKey.cmp (ukey e) u ≠ Lt) →
  filter (λ e, UserKey.cmp (ukey e) u ≠ Lt) (newest (p ++ s)) = newest s.
Proof.
  intros Hp Hsuf. assert (∀ e, e ∈ newest s → UserKey.cmp (ukey e) u ≠ Lt) as Hn by (intros e [He _]%newest_sub; auto).
  induction p as [|e p IH]; [by apply filter_all|]. simpl.
  assert (∀ e, e ∈ p → visible e = true → UserKey.cmp (ukey e) u = Lt) as Hp' by (intros; apply Hp; [by right|done]).
  destruct (visible e) eqn:Ev; [|auto].
  pose proof (Hp e ltac:(by left) Ev) as Hlt. rewrite filter_cons_False by (intros H; by apply H).
  rewrite list_filter_filter. rewrite (list_filter_iff _ (λ x, ukey x ≠ ukey e ∧ UserKey.cmp (ukey x) u ≠ Lt)) by naive_solver.
  rewrite <-list_filter_filter, IH by done. apply filter_all. intros x Hx E. apply (Hn x Hx). by rewrite E.
Qed.
End snapshot.

(** ** The tracker *)

(** A key that is not before the last one is accepted, and a new user key becomes the latest. *)
Lemma observe_next tr k :
  FullKey.cmp (last_key tr) k ≠ Gt →
  ∃ tr', FullKeyTracker.observe true tr k = Ret (tr', new_user_key (last_key tr) k) ∧ last_key tr' = k ∧
    (new_user_key (last_key tr) k = true → FullKeyTracker.latest_full_key tr' = k).
Proof.
  intros Hle. pose proof (observe_ok true tr k) as Hob. assert (may_follow true (last_key tr) k = true) as Hm.
  { unfold may_follow, cmp_ltb. apply (cmp_le_cases FullKey.cmp) in Hle as [->| ->]; [done|].
    rewrite bool_decide_true by done. by rewrite orb_true_r. }
  rewrite Hm in Hob. destruct Hob as (tr' & Hrun & Hl). exists tr'. split; [done|]. split; [done|]. intros Hn.
  rewrite Hn in Hrun. unfold FullKeyTracker.observe, FullKeyTracker.observe_multi_version in Hrun.
  destruct k as [[t b] g]. cbn in Hrun. destruct (UserKey.cmp _ _); [|by injection Hrun as <-|done].
  by destruct (_ || _).
Qed.

(** ** The scan *)
Section user.
Context {I : Type} {it : HummockIterator.t I} (faults : Prop) (seeks : FullKey.t → Prop) {spec : IteratorSpec I faults seeks}
  (dir_ok : HummockIterator.direction I = DirectionEnum.Forward) (fuel : nat).
Abbreviation stands' := (stands (I := I) (faults := faults)).
Implicit Type self : UserIterator.t I.

(** The epochs a reader sees. *)
Definition readable (lo hi : Z) e : bool := (lo <=? epoch_of e)%Z && (epoch_of e <=? hi)%Z.

(** A row: the full key of the version read, and the value. *)
Definition row e : option (FullKey.t * list byte) :=
  match e.2 with HummockValue.Put v => Some (e.1, v) | HummockValue.Delete => None end.

Definition same_query self self' : Prop :=
  UserIterator.key_range self' = UserIterator.key_range self ∧
  UserIterator.read_epoch self' = UserIterator.read_epoch self ∧
  UserIterator.min_epoch self' = UserIterator.min_epoch self.

Abbreviation seen self := (readable (UserIterator.min_epoch self) (UserIterator.read_epoch self)).

(** The rows still to come when [u] was the last user key met. *)
Definition pending self u (rest : list kv) : list (FullKey.t * list byte) :=
  omap row (filter (λ e, below UserKey.cmp (UserIterator.key_range self).2 (ukey e) = true)
              (filter (λ e, ukey e ≠ u) (newest (seen self) rest))).

(** The iterator stands at the first of the rows [out]. *)
Definition shows (all : list kv) (out : list (FullKey.t * list byte)) self : Prop :=
  match out with
  | [] => UserIterator.is_current_pos_valid self = false ∧ owns (faults := faults) all (UserIterator.iterator self)
  | (k, v) :: out =>
      UserIterator.is_current_pos_valid self = true ∧
      FullKeyTracker.latest_full_key (UserIterator.full_key_tracker self) = k ∧
      last_key (UserIterator.full_key_tracker self) = k ∧
      ∃ rest, stands' all ((k, HummockValue.Put v) :: rest) (UserIterator.iterator self) ∧
        out = pending self (FullKey.user_key k) rest
  end.

Lemma out_of_range_below self u :
  UserIterator.user_key_out_of_range self u = negb (below UserKey.cmp (UserIterator.key_range self).2 u).
Proof.
  unfold UserIterator.user_key_out_of_range, below. destruct (UserIterator.key_range self).2 as [b|b|]; [| |done].
  - rewrite (cmp_leb_nlt UserKey.cmp). by rewrite negb_involutive.
  - by rewrite (cmp_leb_nlt UserKey.cmp).
Qed.

Lemma below_down (hi : Bound UserKey.t) u v :
  UserKey.cmp u v ≠ Gt → below UserKey.cmp hi v = true → below UserKey.cmp hi u = true.
Proof.
  destruct hi as [b|b|]; simpl; [| |done].
  - rewrite !(cmp_leb_le UserKey.cmp). apply (cmp_le_trans UserKey.cmp).
  - rewrite !(cmp_ltb_lt UserKey.cmp). apply (cmp_le_lt_trans UserKey.cmp).
Qed.

Lemma kv_le_ukey e x : kv_le DirectionEnum.Forward e x → UserKey.cmp (ukey e) (ukey x) ≠ Gt.
Proof. unfold kv_le. simpl. unfold FullKey.cmp. by destruct (UserKey.cmp _ _). Qed.

Lemma full_key_new_user (k1 k2 : FullKey.t) :
  FullKey.cmp k1 k2 ≠ Gt → FullKey.user_key k1 ≠ FullKey.user_key k2 →
  UserKey.cmp (FullKey.user_key k1) (FullKey.user_key k2) = Lt.
Proof.
  unfold FullKey.cmp. intros Hle Hne. destruct (UserKey.cmp _ _) eqn:E; [|done|done].
  by apply (cmp_eq_iff UserKey.cmp) in E.
Qed.

Lemma pending_same self self' u rest : same_query self self' → pending self' u rest = pending self u rest.
Proof. intros (Hk & Hr & Hm). unfold pending. by rewrite Hk, Hr, Hm. Qed.

(** The cases of the loop. *)
Lemma pending_hidden self u e rest : seen self e = false → pending self u (e :: rest) = pending self u rest.
Proof. intros Hv. unfold pending. cbn [newest]. by rewrite Hv. Qed.

Lemma pending_older self e rest : seen self e = true → pending self (ukey e) (e :: rest) = pending self (ukey e) rest.
Proof.
  intros Hv. unfold pending. cbn [newest]. rewrite Hv, filter_cons_False by (intros H; by apply H).
  rewrite (filter_all (λ x, ukey x ≠ ukey e) (filter _ _)); [done|]. by intros x [Hx _]%list_elem_of_filter.
Qed.

Lemma pending_new self u e rest :
  seen self e = true → UserKey.cmp u (ukey e) = Lt → sorted DirectionEnum.Forward (e :: rest) →
  pending self u (e :: rest) =
    if below UserKey.cmp (UserIterator.key_range self).2 (ukey e)
    then match row e with Some r => r :: pending self (ukey e) rest | None => pending self (ukey e) rest end
    else [].
Proof.
  intros Hv Hlt [Hf Hs]%StronglySorted_cons. rewrite Forall_forall in Hf. unfold pending. cbn [newest]. rewrite Hv.
  rewrite filter_cons_True by (intros E; rewrite E, (cmp_refl UserKey.cmp) in Hlt; done).
  rewrite (filter_all (λ e, ukey e ≠ u)).
  2: { intros x [_ [Hx _]%newest_sub]%list_elem_of_filter E. subst u. apply (kv_le_ukey e x (Hf x Hx)).
       by apply (cmp_gt_lt UserKey.cmp). }
  destruct (below _ _ (ukey e)) eqn:Eb.
  - rewrite filter_cons_True by done. simpl. by destruct (row e).
  - rewrite filter_cons_False by congruence. rewrite filter_none; [done|].
    intros x [_ [Hx _]%newest_sub]%list_elem_of_filter Hbx.
    rewrite (below_down _ _ _ (kv_le_ukey e x (Hf x Hx)) Hbx) in Eb. done.
Qed.

Lemma same_query_trans s1 s2 s3 : same_query s1 s2 → same_query s2 s3 → same_query s1 s3.
Proof. intros (?&?&?) (?&?&?). split_and!; by etrans. Qed.

(** The loop with [n] iterations to go finds the pending rows. *)
Definition advances (n : nat) : Prop := ∀ self all rest,
  stands' all rest (UserIterator.iterator self) → length rest < n →
  Forall (λ e, FullKey.cmp (last_key (UserIterator.full_key_tracker self)) e.1 ≠ Gt) rest →
  UserIterator.is_current_pos_valid self = false →
  runs faults (UserIterator.try_advance n self)
    (λ self', same_query self self' ∧
       shows all (pending self (FullKeyTracker.latest_user_key (UserIterator.full_key_tracker self)) rest) self')
    (λ self', same_query self self' ∧ UserIterator.is_current_pos_valid self' = false).

(** An iteration that moves on. *)
Lemma advance_step n self all e rest u :
  advances n → stands' all (e :: rest) (UserIterator.iterator self) → length rest < n →
  UserIterator.is_current_pos_valid self = false →
  FullKeyTracker.latest_user_key (UserIterator.full_key_tracker self) = u →
  Forall (λ x, FullKey.cmp (last_key (UserIterator.full_key_tracker self)) x.1 ≠ Gt) rest →
  runs faults (and_then (HummockIterator.next (UserIterator.iterator self)) (UserIterator.set_iterator self)
      (λ i, UserIterator.try_advance n (UserIterator.set_iterator self i)))
    (λ self', same_query self self' ∧ shows all (pending self u rest) self')
    (λ self', same_query self self' ∧ UserIterator.is_current_pos_valid self' = false).
Proof.
  intros IH Hst Hn Hinv <- Hl. eapply runs_and_then; [by eapply stands_next| |done].
  intros i Hsti. exact (IH (UserIterator.set_iterator self i) all rest Hsti Hn Hl Hinv).
Qed.

Lemma readable_skip self e :
  (epoch_of e <? UserIterator.min_epoch self)%Z || (UserIterator.read_epoch self <? epoch_of e)%Z = negb (seen self e).
Proof. unfold readable. by rewrite negb_andb, !Z.leb_antisym, !negb_involutive. Qed.

Lemma try_advance_ok n : advances n.
Proof.
  induction n as [|n IH]; intros self all rest Hst Hn Hlast Hinv; [lia|]. cbn [UserIterator.try_advance].
  rewrite (stands_valid _ _ _ Hst). destruct rest as [|e rest]; cbn [mbind outcome_bind negb].
  { apply runs_ok. split; [done|]. split; [done|]. simpl. by eapply stands_owns. }
  rewrite (stands_key _ _ _ _ Hst). cbn [mbind outcome_bind length] in *.
  assert (sorted DirectionEnum.Forward (e :: rest)) as Hsort.
  { rewrite <-dir_ok. eapply sorted_suffix; [by eapply stands_suffix|]. by eapply owns_sorted, stands_owns. }
  apply Forall_cons in Hlast as [Hle Hlast]. rewrite readable_skip. destruct (seen self e) eqn:Hv; cbn [negb].
  2: { rewrite pending_hidden by done. by apply (advance_step n self all e); [| |lia|..]. }
  destruct (observe_next _ _ Hle) as (tr & -> & Hl & Hlat). cbn [mbind outcome_bind].
  assert (Forall (λ x, FullKey.cmp (last_key tr) x.1 ≠ Gt) rest) as Hl'.
  { rewrite Hl. apply StronglySorted_cons in Hsort as [Hf _]. exact Hf. }
  assert (FullKeyTracker.latest_user_key tr = ukey e) as Hu.
  { assert (FullKey.user_key (last_key tr) = ukey e) as E by by rewrite Hl. exact E. }
  assert (∀ n, advances n → length rest < n → _) as Hgo
    by (intros n' H1 H2; exact (advance_step n' (UserIterator.set_tracker self tr) all e rest _ H1 Hst H2 Hinv Hu Hl')).
  unfold new_user_key in *. case_bool_decide as Hold; cbn [negb] in *.
  { change (FullKey.user_key (last_key (UserIterator.full_key_tracker self)))
      with (FullKeyTracker.latest_user_key (UserIterator.full_key_tracker self)) in Hold.
    rewrite Hold, pending_older by done. apply Hgo; [done|lia]. }
  rewrite pending_new; [|done|exact (full_key_new_user _ _ Hle Hold)|done].
  rewrite (out_of_range_below (UserIterator.set_tracker self tr)). cbn [UserIterator.set_tracker UserIterator.key_range].
  destruct (below _ _ _); cbn [negb].
  2: { apply runs_ok. split; [done|]. split; [done|]. simpl. by eapply stands_owns. }
  cbn [UserIterator.iterator UserIterator.set_tracker]. rewrite (stands_value _ _ _ _ Hst). cbn [mbind outcome_bind].
  destruct e as [k [v|]]; cbn [row fst snd] in *; [|apply Hgo; [done|lia]].
  apply runs_ok. split; [done|]. split; [done|]. split; [by apply Hlat|]. split; [done|]. by exists rest.
Qed.

Lemma user_next_ok self all k v out :
  shows all ((k, v) :: out) self → length all ≤ fuel →
  runs faults (UserIterator.next fuel self) (λ self', same_query self self' ∧ shows all out self')
    (λ self', same_query self self' ∧ UserIterator.is_valid self' = false).
Proof.
  intros (Hval & Hlat & Hl & rest & Hst & ->) Hf. unfold UserIterator.next.
  eapply runs_and_then; [by eapply stands_next| |done]. intros i Hi. unfold UserIterator.try_advance_to_next_valid.
  assert (sorted DirectionEnum.Forward ((k, HummockValue.Put v) :: rest)) as [Hs _]%StronglySorted_cons.
  { rewrite <-dir_ok. eapply sorted_suffix; [by eapply stands_suffix|]. by eapply owns_sorted, stands_owns. }
  pose proof (suffix_length _ _ (stands_suffix _ _ _ Hst)) as Hlen. simpl in Hlen.
  eapply runs_weaken; [apply (try_advance_ok fuel _ all rest); [done|lia| |done]| |].
  - simpl. by rewrite Hl.
  - intros self' [Hq Hsh]. split; [done|]. simpl in Hsh. rewrite <-Hl.  exact Hsh.
  - done.
Qed.

(** ** Starting a scan *)

(** Keys the tracker tells from its initial key; every key of a table has a vnode. *)
Definition key_ok e : Prop :=
  UserKey.cmp (FullKey.user_key default_full_key) (ukey e) = Lt ∧ is_uint 64 (FullKey.epoch_with_gap e.1).

(** No readable version of a user key is newer than the key sought. *)
Lemma readable_below_seek self e :
  is_uint 64 (UserIterator.read_epoch self) → is_uint 64 (FullKey.epoch_with_gap e.1) → seen self e = true →
  (FullKey.epoch_with_gap e.1 ≤ EpochWithGap.new (UserIterator.read_epoch self) Epoch.MAX_SPILL_TIMES)%Z.
Proof.
  intros Hr He Hv. unfold readable in Hv. apply andb_true_iff in Hv as [_ Hv%Z.leb_le]. rewrite pure_epoch_sub in Hv by done.
  unfold EpochWithGap.new, Epoch.is_max_epoch, EpochWithGap.new_max_epoch. rewrite Z.geb_leb.
  pose proof (Z.mod_pos_bound (FullKey.epoch_with_gap e.1) 65536 ltac:(lia)). unfold is_uint in *.
  change Epoch.MAX_EPOCH with (2 ^ 64 - 65536)%Z. change Epoch.MAX_SPILL_TIMES with 65535%Z. unfold u64_max.
  destruct (Z.leb_spec (2 ^ 64 - 65536) (UserIterator.read_epoch self)); [lia|].
  rewrite wrap_small; [lia|]. unfold is_uint. lia.
Qed.

Lemma from_key_newest self u all :
  sorted DirectionEnum.Forward all → Forall key_ok all → is_uint 64 (UserIterator.read_epoch self) →
  newest (seen self) (from_key DirectionEnum.Forward
    (FullKey.mk u (EpochWithGap.new (UserIterator.read_epoch self) Epoch.MAX_SPILL_TIMES)) all) =
  filter (λ e, UserKey.cmp (ukey e) u ≠ Lt) (newest (seen self) all).
Proof.
  intros Hs Hok Hr. set (fk := FullKey.mk u _). destruct (from_key_split _ fk all Hs) as (p & Hp & Hlt).
  rewrite Hp at 2. symmetry. rewrite Forall_forall in Hok, Hlt. apply newest_suffix.
  - intros e He Hv. assert (e ∈ all) as He' by (rewrite Hp; apply elem_of_app; by left).
    specialize (Hlt e He). simpl in Hlt. unfold FullKey.cmp in Hlt. subst fk. cbn [FullKey.user_key FullKey.epoch_with_gap] in Hlt.
    destruct (UserKey.cmp (ukey e) u) eqn:E; [|done|done]. simpl in Hlt.
    pose proof (readable_below_seek self e Hr (proj2 (Hok e He')) Hv) as Hle. by apply Z.compare_lt_iff, Z.lt_nge in Hlt.
  - intros e [Hge _]%list_elem_of_filter E. apply Hge. simpl. unfold FullKey.cmp. subst fk. simpl. by rewrite E.
Qed.

(** The rows from [P] on that the range of the query admits above. *)
Definition rows_where self (P : UserKey.t → bool) (all : list kv) : list (FullKey.t * list byte) :=
  omap row (filter (λ e, P (ukey e) && below UserKey.cmp (UserIterator.key_range self).2 (ukey e) = true)
              (newest (seen self) all)).

Lemma pending_default self rest :
  Forall key_ok rest →
  pending self (FullKey.user_key default_full_key) rest = rows_where self (λ _, true) rest.
Proof.
  intros Hok. unfold pending, rows_where. rewrite (filter_all (λ e, ukey e ≠ _)); [done|].
  intros e [He _]%newest_sub E. rewrite Forall_forall in Hok. destruct (Hok e He) as [Hlt _].
  by rewrite E, (cmp_refl UserKey.cmp) in Hlt.
Qed.

Lemma rows_where_ext self P Q all : (∀ u, P u = Q u) → rows_where self P all = rows_where self Q all.
Proof. intros H. unfold rows_where. f_equal. apply list_filter_iff. intros e. by rewrite H. Qed.

Lemma rows_where_same self self' P all : same_query self self' → rows_where self' P all = rows_where self P all.
Proof. intros (Hk & Hr & Hm). unfold rows_where. by rewrite Hk, Hr, Hm. Qed.

Lemma rows_from_key self u all :
  sorted DirectionEnum.Forward all → Forall key_ok all → is_uint 64 (UserIterator.read_epoch self) →
  rows_where self (λ _, true) (from_key DirectionEnum.Forward
    (FullKey.mk u (EpochWithGap.new (UserIterator.read_epoch self) Epoch.MAX_SPILL_TIMES)) all) =
  rows_where self (λ v, negb (cmp_ltb UserKey.cmp v u)) all.
Proof.
  intros. unfold rows_where. rewrite from_key_newest, list_filter_filter by done. f_equal. apply list_filter_iff.
  intros e. unfold cmp_ltb. rewrite andb_true_iff. destruct (UserKey.cmp (ukey e) u); naive_solver.
Qed.

(** The first advance after a reset. *)
Lemma begin_ok self all s :
  stands' all s (UserIterator.iterator self) → Forall key_ok s → length all < fuel →
  UserIterator.full_key_tracker self = FullKeyTracker.new default_full_key → UserIterator.is_current_pos_valid self = false →
  runs faults (UserIterator.try_advance_to_next_valid fuel self)
    (λ self', same_query self self' ∧ shows all (rows_where self (λ _, true) s) self')
    (λ self', same_query self self' ∧ UserIterator.is_valid self' = false).
Proof.
  intros Hst Hok Hf Htr Hinv. pose proof (suffix_length _ _ (stands_suffix _ _ _ Hst)).
  rewrite <-pending_default by done.
  eapply runs_weaken; [apply (try_advance_ok fuel self all s); [done|lia| |done]| |done].
  - rewrite Htr. eapply Forall_impl; [exact Hok|]. intros e [Hlt _].
    change (last_key _) with default_full_key. by rewrite (user_lt_full _ _ Hlt).
  - by rewrite Htr.
Qed.

(** Rows come out in the order of their user keys. *)
Lemma rows_sorted self P all :
  sorted DirectionEnum.Forward all →
  StronglySorted (λ x y, UserKey.cmp (ukey x) (ukey y) = Lt)
    (filter (λ e, P (ukey e) && below UserKey.cmp (UserIterator.key_range self).2 (ukey e) = true) (newest (seen self) all)).
Proof. intros Hs. by apply sorted_filter, newest_sorted. Qed.

Lemma skip_keeps self all b F :
  (UserIterator.key_range self).1 = Excluded b → shows all (omap row F) self → (∀ e, e ∈ F → ukey e ≠ b) →
  UserIterator.skip_excluded_begin fuel self = ok self.
Proof.
  intros Hb Hsh Hne. unfold UserIterator.skip_excluded_begin, UserIterator.is_valid, UserIterator.key. rewrite Hb.
  destruct (omap row F) as [|[k v] out] eqn:E; simpl in Hsh; [by destruct Hsh as [-> _]|].
  destruct Hsh as (Hv & Hlat & _). rewrite Hv. cbn [rassert mbind outcome_bind UserIterator.is_valid]. unfold UserIterator.is_valid.
  rewrite Hv, Hlat. cbn [rassert mbind outcome_bind]. rewrite bool_decide_eq_false_2; [done|].
  assert ((k, v) ∈ omap row F) as (e & He & Hr)%list_elem_of_omap by (rewrite E; by left).
  destruct e as [k' [v'|]]; [|done]. injection Hr as -> ->. exact (Hne _ He).
Qed.

(** The visible newest versions that satisfy [P] and the upper bound. *)
Definition chosen self (P : UserKey.t → bool) (all : list kv) : list kv :=
  filter (λ e, P (ukey e) && below UserKey.cmp (UserIterator.key_range self).2 (ukey e) = true) (newest (seen self) all).

Lemma chosen_and self P Q all :
  chosen self (λ u, P u && Q u) all = filter (λ e, Q (ukey e) = true) (chosen self P all).
Proof. unfold chosen. rewrite list_filter_filter. apply list_filter_iff. intros e. rewrite !andb_true_iff. tauto. Qed.

Lemma chosen_from self sk all e :
  e ∈ chosen self (λ u, negb (cmp_ltb UserKey.cmp u sk)) all → UserKey.cmp sk (ukey e) ≠ Gt.
Proof.
  intros [[Hn _]%andb_true_iff _]%list_elem_of_filter. rewrite (cmp_le_not_lt UserKey.cmp).
  unfold cmp_ltb in Hn. by destruct (UserKey.cmp (ukey e) sk).
Qed.

(** Leaving an excluded first key drops exactly its row. *)
Lemma skip_excluded_ok self all b sk :
  (UserIterator.key_range self).1 = Excluded b → UserKey.cmp b sk ≠ Gt → sorted DirectionEnum.Forward all → length all ≤ fuel →
  shows all (rows_where self (λ u, negb (cmp_ltb UserKey.cmp u sk)) all) self →
  runs faults (UserIterator.skip_excluded_begin fuel self)
    (λ self', same_query self self' ∧
       shows all (rows_where self (λ u, negb (cmp_ltb UserKey.cmp u sk) && cmp_ltb UserKey.cmp b u) all) self')
    (λ self', same_query self self' ∧ UserIterator.is_valid self' = false).
Proof.
  intros Hb Hle Hs Hf Hsh. pose proof (rows_sorted self (λ u, negb (cmp_ltb UserKey.cmp u sk)) all Hs) as Hsort.
  unfold rows_where in *. fold (chosen self (λ u, negb (cmp_ltb UserKey.cmp u sk) && cmp_ltb UserKey.cmp b u) all).
  fold (chosen self (λ u, negb (cmp_ltb UserKey.cmp u sk)) all) in Hsh, Hsort. rewrite chosen_and.
  assert (∀ e, e ∈ chosen self (λ u, negb (cmp_ltb UserKey.cmp u sk)) all → UserKey.cmp b (ukey e) ≠ Gt) as Hge.
  { intros e He%chosen_from. by apply (cmp_le_trans UserKey.cmp _ sk). }
  destruct (chosen _ _ all) as [|x F].
  { rewrite (skip_keeps self all b []); [by apply runs_ok|done|done|by intros e ?%elem_of_nil]. }
  apply StronglySorted_cons in Hsort as [Hx Hsort]. rewrite Forall_forall in Hx.
  destruct (decide (ukey x = b)) as [Hxb|Hxb].
  - rewrite filter_cons_False, filter_all.
    2: { intros e He. apply (cmp_ltb_lt UserKey.cmp). rewrite <-Hxb. by apply Hx. }
    2: { by rewrite Hxb, (cmp_ltb_lt UserKey.cmp), (cmp_refl UserKey.cmp). }
    assert (∀ e, e ∈ F → ukey e ≠ b) as Hne.
    { intros e He E. specialize (Hx e He). by rewrite Hxb, E, (cmp_refl UserKey.cmp) in Hx. }
    destruct x as [k [v|]]; [|rewrite (skip_keeps self all b F) by done; by apply runs_ok].
    pose proof Hsh as (Hv & Hlat & _). unfold UserIterator.skip_excluded_begin, UserIterator.key, UserIterator.is_valid.
    rewrite Hb, Hv, Hlat. cbn [rassert mbind outcome_bind fst] in *. rewrite bool_decide_eq_true_2 by done.
    by apply (user_next_ok _ _ k v).
  - assert (∀ e, e ∈ x :: F → ukey e ≠ b) as Hne.
    { intros e [->|He]%elem_of_cons; [done|]. intros <-. apply (Hge x ltac:(by left)).
      by apply (cmp_gt_lt UserKey.cmp), Hx. }
    rewrite (skip_keeps self all b (x :: F)) by done. apply runs_ok. split; [done|].
    rewrite filter_all; [done|]. intros e He. apply (cmp_ltb_lt UserKey.cmp).
    destruct (cmp_le_cases UserKey.cmp b (ukey e)) as [[?|?] _]; [by apply Hge|done|]. by destruct (Hne e He).
Qed.

(** The tail shared by [rewind] and [seek], from a key [sk] at or behind the lower bound. *)
Lemma settle_ok self all s sk :
  stands' all s (UserIterator.iterator self) → Forall key_ok all → length all < fuel →
  UserIterator.full_key_tracker self = FullKeyTracker.new default_full_key → UserIterator.is_current_pos_valid self = false →
  rows_where self (λ _, true) s = rows_where self (λ u, negb (cmp_ltb UserKey.cmp u sk)) all →
  match (UserIterator.key_range self).1 with Included b | Excluded b => UserKey.cmp b sk ≠ Gt | Unbounded => True end →
  runs faults (and_then (UserIterator.try_advance_to_next_valid fuel self) id (UserIterator.skip_excluded_begin fuel))
    (λ self', same_query self self' ∧
       shows all (rows_where self (λ u, negb (cmp_ltb UserKey.cmp u sk) && above UserKey.cmp (UserIterator.key_range self).1 u) all) self')
    (λ self', same_query self self' ∧ UserIterator.is_valid self' = false).
Proof.
  intros Hst Hok Hf Htr Hinv Hrows Hlo.
  assert (sorted DirectionEnum.Forward all) as Hs by (rewrite <-dir_ok; by eapply owns_sorted, stands_owns).
  assert (Forall key_ok s) as Hoks.
  { destruct (stands_suffix _ _ _ Hst) as [p ->]. by apply Forall_app in Hok as [_ ?]. }
  eapply runs_and_then; [by apply begin_ok| |done]. intros self' [Hq Hsh]. rewrite Hrows in Hsh. pose proof Hq as (Hkr & _ & _).
  destruct (UserIterator.key_range self).1 as [b|b|] eqn:Eb; cbn [above] in *.
  2: { eapply runs_weaken; [eapply (skip_excluded_ok self' all b sk); [by rewrite Hkr|done|done|lia|]| |].
       - by rewrite (rows_where_same self self' _ _ Hq).
       - intros self'' [Hq' Hsh']. rewrite (rows_where_same self self' _ _ Hq) in Hsh'. split; [by eapply same_query_trans|done].
       - intros self'' [Hq' Hv]. split; [by eapply same_query_trans|done]. }
  all: unfold UserIterator.skip_excluded_begin; rewrite Hkr, Eb; apply runs_ok; (split; [done|]).
  - erewrite rows_where_ext; [exact Hsh|]. intros u. simpl. destruct (cmp_ltb UserKey.cmp u sk) eqn:E; [done|]. simpl.
    apply (cmp_leb_le UserKey.cmp), (cmp_le_trans UserKey.cmp _ sk); [done|]. rewrite (cmp_le_not_lt UserKey.cmp).
    unfold cmp_ltb in E. by destruct (UserKey.cmp u sk).
  - erewrite rows_where_ext; [exact Hsh|]. intros u. by rewrite andb_true_r.
Qed.

Lemma seek_epoch_ok self : is_uint 64 (UserIterator.read_epoch self) →
  is_uint 64 (EpochWithGap.new (UserIterator.read_epoch self) Epoch.MAX_SPILL_TIMES).
Proof.
  intros Hr. unfold EpochWithGap.new. destruct (Epoch.is_max_epoch _); [done|]. apply wrap_is_uint. lia.
Qed.

(** Positioning the inner iterator by [m] and settling on the first row. *)
Lemma reposition_ok self all m s sk P :
  Forall key_ok all → length all < fuel →
  runs faults m (stands' all s) (owns (faults := faults) all) →
  rows_where self (λ _, true) s = rows_where self (λ u, negb (cmp_ltb UserKey.cmp u sk)) all →
  match (UserIterator.key_range self).1 with Included b | Excluded b => UserKey.cmp b sk ≠ Gt | Unbounded => True end →
  (∀ e, e ∈ all →
    negb (cmp_ltb UserKey.cmp (ukey e) sk) && above UserKey.cmp (UserIterator.key_range self).1 (ukey e) = P (ukey e)) →
  runs faults (and_then m (UserIterator.set_iterator (UserIterator.reset self))
      (λ i, and_then (UserIterator.try_advance_to_next_valid fuel (UserIterator.set_iterator (UserIterator.reset self) i))
              id (UserIterator.skip_excluded_begin fuel)))
    (λ self', same_query self self' ∧ shows all (rows_where self P all) self')
    (λ self', same_query self self' ∧ UserIterator.is_valid self' = false).
Proof.
  intros Hok Hf Hm Hrows Hlo HP. eapply runs_and_then; [exact Hm| |done]. intros i Hi.
  assert (rows_where self P all = rows_where self (λ u, negb (cmp_ltb UserKey.cmp u sk) && above UserKey.cmp (UserIterator.key_range self).1 u) all) as ->.
  { unfold rows_where. f_equal. apply filter_ext_in. intros e [He _]%newest_sub. by rewrite HP. }
  exact (settle_ok (UserIterator.set_iterator (UserIterator.reset self) i) all s sk Hi Hok Hf eq_refl eq_refl Hrows Hlo).
Qed.

Lemma default_least e sk : key_ok e → sk = FullKey.user_key default_full_key → cmp_ltb UserKey.cmp (ukey e) sk = false.
Proof. intros [Hlt _] ->. unfold cmp_ltb. by rewrite (cmp_antisym UserKey.cmp (FullKey.user_key default_full_key)), Hlt. Qed.

(** The versions of a user key may be sought. *)
Definition may_seek u : Prop := ∀ epoch, is_uint 64 epoch → seeks (FullKey.mk u epoch).

Definition may_begin (range : UserKeyRange) : Prop :=
  match range.1 with Included b | Excluded b => may_seek b | Unbounded => True end.

Lemma user_rewind_ok self all :
  may_begin (UserIterator.key_range self) →
  owns (faults := faults) all (UserIterator.iterator self) → Forall key_ok all → is_uint 64 (UserIterator.read_epoch self) →
  length all < fuel →
  runs faults (UserIterator.rewind fuel self)
    (λ self', same_query self self' ∧ shows all (rows_where self (above UserKey.cmp (UserIterator.key_range self).1) all) self')
    (λ self', same_query self self' ∧ UserIterator.is_valid self' = false).
Proof.
  intros Hmb Hown Hok Hr Hf. unfold may_begin in Hmb.
  assert (sorted DirectionEnum.Forward all) as Hs by (rewrite <-dir_ok; by eapply owns_sorted).
  unfold UserIterator.rewind. cbn [UserIterator.reset UserIterator.set_tracker UserIterator.set_valid UserIterator.key_range].
  fold (UserIterator.reset self). destruct (UserIterator.key_range self).1 as [b|b|] eqn:Eb.
  3: { apply (reposition_ok self all _ all (FullKey.user_key default_full_key)); [done|done|by apply owns_rewind| |by rewrite Eb|].
       - unfold rows_where. f_equal. apply filter_ext_in. intros e [He _]%newest_sub. rewrite Forall_forall in Hok.
         by rewrite (default_least e) by auto.
       - intros e He. rewrite Forall_forall in Hok. rewrite (default_least e) by auto. by rewrite Eb. }
  all: eapply (reposition_ok self all _ _ b); [done|done|apply owns_seek; [by apply Hmb, seek_epoch_ok|done]| | |].
  1,4: rewrite dir_ok; exact (rows_from_key self b all Hs Hok Hr).
  1,3: rewrite Eb, (cmp_refl UserKey.cmp); done.
  all: intros e He; rewrite Eb; simpl; rewrite (cmp_leb_nlt UserKey.cmp) || idtac.
  - by rewrite andb_diag.
  - unfold cmp_ltb. rewrite (cmp_antisym UserKey.cmp b (ukey e)). by destruct (UserKey.cmp b (ukey e)).
Qed.

Lemma seek_key_above u b v X :
  cmp_ltb UserKey.cmp u b = true → (X = true → UserKey.cmp b v ≠ Gt) →
  negb (cmp_ltb UserKey.cmp v b) && X = negb (cmp_ltb UserKey.cmp v u) && X.
Proof.
  intros Hub%(cmp_ltb_lt UserKey.cmp) HX. destruct X; [|by rewrite !andb_false_r]. specialize (HX eq_refl).
  pose proof (cmp_lt_le_trans UserKey.cmp u b v Hub HX) as Huv. unfold cmp_ltb.
  rewrite (cmp_antisym UserKey.cmp u v), (cmp_antisym UserKey.cmp b v), Huv. by destruct (UserKey.cmp b v).
Qed.

Lemma user_seek_ok self all u :
  may_begin (UserIterator.key_range self) → may_seek u →
  owns (faults := faults) all (UserIterator.iterator self) → Forall key_ok all → is_uint 64 (UserIterator.read_epoch self) →
  length all < fuel →
  runs faults (UserIterator.seek fuel self u)
    (λ self', same_query self self' ∧
       shows all (rows_where self (λ v, negb (cmp_ltb UserKey.cmp v u) && above UserKey.cmp (UserIterator.key_range self).1 v) all) self')
    (λ self', same_query self self' ∧ UserIterator.is_valid self' = false).
Proof.
  intros Hmb Hmu Hown Hok Hr Hf. unfold may_begin in Hmb.
  assert (sorted DirectionEnum.Forward all) as Hs by (rewrite <-dir_ok; by eapply owns_sorted).
  unfold UserIterator.seek. cbn [UserIterator.reset UserIterator.set_tracker UserIterator.set_valid UserIterator.key_range].
  fold (UserIterator.reset self). set (sk := match (UserIterator.key_range self).1 with Included _ => _ | _ => _ end).
  assert (may_seek sk) as Hsk by (subst sk; destruct (UserIterator.key_range self).1; [case_match..|]; done).
  eapply (reposition_ok self all _ _ sk); [done|done|apply owns_seek; [by apply Hsk, seek_epoch_ok|done]| | |].
  - rewrite dir_ok. exact (rows_from_key self sk all Hs Hok Hr).
  - subst sk. destruct (UserIterator.key_range self).1 as [b|b|]; [| |done];
      (destruct (cmp_ltb UserKey.cmp u b) eqn:E; [by rewrite (cmp_refl UserKey.cmp)|]);
      rewrite (cmp_le_not_lt UserKey.cmp); unfold cmp_ltb in E; by destruct (UserKey.cmp u b).
  - intros e He. subst sk. destruct (UserIterator.key_range self).1 as [b|b|]; simpl; [| |done];
      (destruct (cmp_ltb UserKey.cmp u b) eqn:E; [|done]); (apply seek_key_above; [done|]).
    + apply (cmp_leb_le UserKey.cmp).
    + rewrite (cmp_ltb_lt UserKey.cmp). by intros ->.
Qed.

(** ** Reading all rows *)

(** A client's loop: the rows read until the iterator is exhausted or reports an error. *)
Fixpoint scan_rows (n : nat) self : outcome (list (FullKey.t * list byte) * HummockResult unit) :=
  match n with
  | O => Panic
  | S n =>
      if UserIterator.is_valid self then
        k ← UserIterator.key self;
        v ← UserIterator.value self;
        '(self, r) ← UserIterator.next fuel self;
        match r with
        | inl e => Ret ([(k, v)], inl e)
        | inr _ => '(l, r) ← scan_rows n self; Ret ((k, v) :: l, r)
        end
      else Ret ([], inr tt)
  end.

Definition scan_from (m : step (UserIterator.t I)) : outcome (list (FullKey.t * list byte) * HummockResult unit) :=
  '(self, r) ← m; match r with inl e => Ret ([], inl e) | inr _ => scan_rows fuel self end.

(** A scan returns the rows, or a part of them and an error. *)
Definition reads (m : outcome (list (FullKey.t * list byte) * HummockResult unit)) (rows : list (FullKey.t * list byte)) : Prop :=
  ∃ l r, m = Ret (l, r) ∧ match r with inr _ => l = rows | inl _ => faults ∧ l `prefix_of` rows end.

Lemma scan_rows_ok n : ∀ self all out,
  shows all out self → length out < n → length all ≤ fuel → reads (scan_rows n self) out.
Proof.
  induction n as [|n IH]; intros self all out Hsh Hn Hf; [lia|]. cbn [scan_rows]. destruct out as [|[k v] out].
  { destruct Hsh as [Hv _]. unfold UserIterator.is_valid. rewrite Hv. by exists [], (inr tt). }
  pose proof (user_next_ok self all k v out Hsh Hf) as Hnext. destruct Hsh as (Hv & Hlat & _ & rest & Hst & _).
  unfold UserIterator.key, UserIterator.value, UserIterator.is_valid. rewrite Hv. cbn [rassert mbind outcome_bind].
  rewrite (stands_value _ _ _ _ Hst), Hlat. cbn [mbind outcome_bind snd]. unfold runs in Hnext.
  destruct (UserIterator.next fuel self) as [[self' [err|[]]]|]; [| |done]; cbn [mbind outcome_bind].
  - destruct Hnext as [Hfa _]. eexists _, _. split; [done|]. split; [done|]. apply prefix_cons, prefix_nil.
  - destruct Hnext as [_ Hsh']. destruct (IH self' all out Hsh' ltac:(simpl in Hn; lia) Hf) as (l & r & -> & Hr).
    exists ((k, v) :: l), r. split; [done|]. destruct r; [|by subst]. destruct Hr as [Hfa Hp]. split; [done|by apply prefix_cons].
Qed.

Lemma omap_row_length (l : list kv) : length (omap row l) ≤ length l.
Proof. induction l as [|[k [v|]] l IH]; [done| |]; cbn [omap list_omap row snd length] in *; lia. Qed.

Lemma rows_length self P all : length (rows_where self P all) ≤ length all.
Proof.
  etrans; [apply omap_row_length|]. etrans; [apply (length_filter (λ e, _ = true))|].
  induction all as [|e all IH]; [done|]. simpl. destruct (seen self e); simpl; [|lia].
  pose proof (length_filter (λ x, ukey x ≠ ukey e) (newest (seen self) all)). lia.
Qed.

Lemma scan_from_ok self all P m :
  length all < fuel →
  runs faults m (λ self', same_query self self' ∧ shows all (rows_where self P all) self')
    (λ self', same_query self self' ∧ UserIterator.is_valid self' = false) →
  reads (scan_from m) (rows_where self P all).
Proof.
  intros Hf Hm. unfold scan_from, runs in *. destruct m as [[self' [err|[]]]|]; [| |done]; cbn [mbind outcome_bind].
  - destruct Hm as [Hfa _]. eexists _, _. split; [done|]. split; [done|apply prefix_nil].
  - destruct Hm as [_ Hsh]. apply (scan_rows_ok fuel self' all); [done| |lia].
    pose proof (rows_length self P all). lia.
Qed.

(** A row of a snapshot: the newest version of a user key between the epochs, unless deleted. *)
Definition is_row (lo hi : Z) (P : UserKey.t → bool) (all : list kv) (k : FullKey.t) (v : list byte) : Prop :=
  (k, HummockValue.Put v) ∈ all ∧ readable lo hi (k, HummockValue.Put v) = true ∧ P (FullKey.user_key k) = true ∧
  ∀ x, x ∈ all → readable lo hi x = true → ukey x = FullKey.user_key k →
       (FullKey.epoch_with_gap x.1 ≤ FullKey.epoch_with_gap k)%Z.

Lemma rows_where_spec self P all k v :
  sorted DirectionEnum.Forward all → coherent all →
  (k, v) ∈ rows_where self P all ↔
  is_row (UserIterator.min_epoch self) (UserIterator.read_epoch self)
    (λ u, P u && below UserKey.cmp (UserIterator.key_range self).2 u) all k v.
Proof.
  intros Hs Hc. unfold rows_where, is_row. rewrite list_elem_of_omap. split.
  - intros ([k' [v'|]] & [HP He]%list_elem_of_filter & Hr); [|done]. injection Hr as -> ->.
    apply newest_spec in He as (He & Hv & Hmax); [|done..]. done.
  - intros (He & Hv & HP & Hmax). exists (k, HummockValue.Put v). split; [|done]. apply list_elem_of_filter. split; [done|].
    by apply newest_spec.
Qed.

Lemma rows_where_sorted self P all :
  sorted DirectionEnum.Forward all →
  StronglySorted (λ r1 r2 : FullKey.t * list byte, UserKey.cmp (FullKey.user_key r1.1) (FullKey.user_key r2.1) = Lt)
    (rows_where self P all).
Proof.
  intros Hs. pose proof (rows_sorted self P all Hs) as H. unfold rows_where.
  fold (chosen self P all) in H |- *. generalize dependent (chosen self P all). intros F.
  induction 1 as [|e F H IH Hf]; [constructor|].
  simpl. destruct e as [k [v|]]; [|done]. cbn [row fst snd]. constructor; [done|]. rewrite Forall_forall in Hf. apply Forall_forall.
  intros [k' v'] ([k2 [v2|]] & He & Hr)%list_elem_of_omap; [|done]. injection Hr as -> ->. exact (Hf _ He).
Qed.
End user.
