(* ===== verification/BackwardIterSpec.v ===== *)
(** * What a backward scan returns

    [BackwardUserIterator] over any lawful backward iterator returns the rows a forward scan of
    the same entries returns, in reverse order ([UserIter.v]).  The one difference is the lower
    epoch bound, which is exclusive here and inclusive there. *)

From Stdlib Require Import ZArith Lia.
From S2P Require Import Prelude Order Bytes Epoch Bits Bitmap Vnode Key KeySpec KeyOrder KeyRange Sst SstSpec Block Iter IterSpec UserIter UserIterSpec.

Implicit Types (e x : kv) (u : UserKey.t).

(** ** The last visible entry of every user key *)
Section latest.
Context (visible : kv → bool).

Fixpoint latest (es : list kv) : list kv :=
  match es with
  | [] => []
  | e :: es =>
      if visible e && negb (existsb (λ x, visible x && bool_decide (ukey x = ukey e)) es)
      then e :: latest es else latest es
  end.

Lemma latest_sub es e : e ∈ latest es → e ∈ es ∧ visible e = true.
Proof.
  induction es as [|x es IH]; [by intros ?%elem_of_nil|]. simpl. destruct (visible x) eqn:Ev; simpl.
  - destruct (existsb _ es); simpl; rewrite ?elem_of_cons; naive_solver.
  - rewrite elem_of_cons. naive_solver.
Qed.

Lemma newest_snoc es e :
  newest visible (es ++ [e]) =
  newest visible es ++ (if visible e && negb (existsb (λ x, visible x && bool_decide (ukey x = ukey e)) es) then [e] else []).
Proof.
  induction es as [|x es IH]; [simpl; by destruct (visible e)|]. cbn [app newest existsb]. rewrite IH.
  destruct (visible x) eqn:Ex; cbn [andb orb]; [|done].
  case_bool_decide as Hu; cbn [orb negb andb].
  - rewrite andb_false_r, app_nil_r. f_equal. rewrite filter_app.
    assert (filter (λ y, ukey y ≠ ukey x) (if visible e && negb (existsb (λ x, visible x && bool_decide (ukey x = ukey e)) es) then [e] else []) = []) as ->; [|by rewrite app_nil_r].
    apply filter_none. intros y Hy Hne. apply Hne. destruct (visible e && _); [|by apply elem_of_nil in Hy].
    apply list_elem_of_singleton in Hy as ->. done.
  - cbn [app]. f_equal. rewrite filter_app. f_equal. apply filter_all. intros y Hy. destruct (visible e && _); [|by apply elem_of_nil in Hy].
    by apply list_elem_of_singleton in Hy as ->.
Qed.

(** Reading from the back finds the same versions. *)
Lemma latest_reverse es : latest (reverse es) = reverse (newest visible es).
Proof.
  induction es as [|e es IH] using rev_ind; [done|]. rewrite reverse_snoc, newest_snoc, reverse_app, <-IH. cbn [latest].
  assert (existsb (λ x, visible x && bool_decide (ukey x = ukey e)) (reverse es) =
          existsb (λ x, visible x && bool_decide (ukey x = ukey e)) es) as ->.
  { apply eq_bool_prop_intro. rewrite !Is_true_true, !existsb_exists. setoid_rewrite <-list_elem_of_In.
    by setoid_rewrite elem_of_reverse. }
  by destruct (visible e && _).
Qed.

(** An older version of a key that comes again is dropped. *)
Lemma latest_again c e es :
  visible e = true → ukey e = ukey c → latest (c :: e :: es) = latest (e :: es).
Proof.
  intros He Hu. cbn [latest]. cbn [existsb]. rewrite He, bool_decide_true by done. cbn [andb orb negb].
  by rewrite andb_false_r.
Qed.

Lemma latest_hidden e es : visible e = false → latest (e :: es) = latest es.
Proof. intros He. cbn [latest]. by rewrite He. Qed.

Lemma latest_hidden2 c e es : visible e = false → latest (c :: e :: es) = latest (c :: es).
Proof. intros He. cbn [latest existsb]. by rewrite He. Qed.

(** The last version of a key that does not come again is kept. *)
Lemma latest_done c es :
  visible c = true → (∀ x, x ∈ es → ukey x ≠ ukey c) → latest (c :: es) = c :: latest es.
Proof.
  intros Hc Hne. cbn [latest]. rewrite Hc.
  assert (existsb (λ x, visible x && bool_decide (ukey x = ukey c)) es = false) as ->; [|done].
  apply not_true_is_false. intros (x & Hx%list_elem_of_In & [_ Hu%bool_decide_eq_true]%andb_true_iff)%existsb_exists.
  by apply (Hne x Hx).
Qed.

Lemma latest_cons e es :
  latest (e :: es) = (if visible e && negb (existsb (λ x, visible x && bool_decide (ukey x = ukey e)) es) then [e] else []) ++ latest es.
Proof. cbn [latest]. by destruct (visible e && _). Qed.

(** Whole user keys may be left out before or after. *)
Lemma latest_filter (P : UserKey.t → Prop) `{!∀ u, Decision (P u)} es :
  latest (filter (λ e, P (ukey e)) es) = filter (λ e, P (ukey e)) (latest es).
Proof.
  induction es as [|e es IH]; [done|]. rewrite (filter_cons _ e es), latest_cons, filter_app, <-IH. case_decide as HP.
  - rewrite latest_cons. f_equal.
    assert (existsb (λ x, visible x && bool_decide (ukey x = ukey e)) (filter (λ e, P (ukey e)) es) =
            existsb (λ x, visible x && bool_decide (ukey x = ukey e)) es) as ->.
    { apply eq_bool_prop_intro. rewrite !Is_true_true, !existsb_exists. setoid_rewrite <-list_elem_of_In.
      setoid_rewrite list_elem_of_filter. setoid_rewrite andb_true_iff. setoid_rewrite bool_decide_eq_true.
      split; [naive_solver|]. intros (x & Hx & Hv & Hu). exists x. by rewrite Hu. }
    destruct (visible e && _); [|done]. by rewrite filter_cons_True.
  - destruct (visible e && _); [|done]. by rewrite filter_cons_False.
Qed.

(** They come out from the last user key down. *)
Lemma latest_sorted es :
  sorted DirectionEnum.Backward es → StronglySorted (λ x y, UserKey.cmp (ukey y) (ukey x) = Lt) (latest es).
Proof.
  induction 1 as [|e es Hs IH Hf]; [constructor|]. rewrite latest_cons.
  destruct (visible e && _) eqn:E; [|done]. constructor; [done|]. apply Forall_forall. intros x [Hx Hv]%latest_sub.
  apply andb_true_iff in E as [_ E%negb_true_iff]. rewrite Forall_forall in Hf. specialize (Hf x Hx).
  unfold kv_le in Hf. simpl in Hf. unfold rev_cmp, FullKey.cmp in Hf.
  destruct (UserKey.cmp (ukey x) (ukey e)) eqn:Ec; [|done|done]. apply (cmp_eq_iff UserKey.cmp) in Ec.
  assert (existsb (λ x, visible x && bool_decide (ukey x = ukey e)) es = true) as Ht; [|congruence].
  apply existsb_exists. exists x. rewrite <-list_elem_of_In, Hv. by rewrite bool_decide_true.
Qed.
End latest.

(** ** The scan *)
Section backward.
Context {I : Type} {it : HummockIterator.t I} (faults : Prop) (seeks : FullKey.t → Prop) {spec : IteratorSpec I faults seeks}
  (dir_ok : HummockIterator.direction I = DirectionEnum.Backward) (fuel : nat).
Abbreviation stands' := (stands (I := I) (faults := faults)).
Implicit Type self : BackwardUserIterator.t I.

(** The lower bound of the epochs is exclusive. *)
Definition readable_after (lo hi : Z) e : bool := (lo <? epoch_of e)%Z && (epoch_of e <=? hi)%Z.

Abbreviation seen self := (readable_after (BackwardUserIterator.min_epoch self) (BackwardUserIterator.read_epoch self)).
Abbreviation admits self u := (above UserKey.cmp (BackwardUserIterator.key_range self).1 u).

Definition same_query self self' : Prop :=
  BackwardUserIterator.key_range self' = BackwardUserIterator.key_range self ∧
  BackwardUserIterator.read_epoch self' = BackwardUserIterator.read_epoch self ∧
  BackwardUserIterator.min_epoch self' = BackwardUserIterator.min_epoch self.

(** The rows of the entries ahead. *)
Definition brows self (l : list kv) : list (FullKey.t * list byte) :=
  omap row (filter (λ e, admits self (ukey e) = true) (latest (seen self) l)).

(** The last visible entry met, as the fields record it. *)
Definition candidate self (c : option kv) : Prop :=
  match c with
  | None => BackwardUserIterator.last_delete self = true ∧
            FullKey.user_key (BackwardUserIterator.last_key self) = FullKey.user_key default_full_key
  | Some (k, v) =>
      seen self (k, v) = true ∧ admits self (FullKey.user_key k) = true ∧
      FullKey.user_key (BackwardUserIterator.last_key self) = FullKey.user_key k ∧
      match v with
      | HummockValue.Put val => BackwardUserIterator.last_key self = k ∧ BackwardUserIterator.last_val self = val ∧
                                BackwardUserIterator.last_delete self = false
      | HummockValue.Delete => BackwardUserIterator.last_delete self = true
      end
  end.

(** No entry ahead is behind the candidate, and none has the initial key. *)
Definition follows_candidate (c : option kv) (rest : list kv) : Prop :=
  Forall (λ x, match c with
               | Some c => UserKey.cmp (ukey x) (ukey c) ≠ Gt
               | None => ukey x ≠ FullKey.user_key default_full_key
               end) rest.

Definition bshows (all : list kv) (out : list (FullKey.t * list byte)) self : Prop :=
  match out with
  | [] => BackwardUserIterator.is_valid self = Ret false
  | (k, v) :: out =>
      BackwardUserIterator.last_key self = k ∧ BackwardUserIterator.last_val self = v ∧
      BackwardUserIterator.last_delete self = false ∧ BackwardUserIterator.out_of_range self = false ∧
      ∃ rest, stands' all rest (BackwardUserIterator.iterator self) ∧ out = brows self rest ∧
        match rest with [] => True | e :: _ => BackwardUserIterator.just_met_new_key self = true ∧ seen self e = true end
  end.

Lemma brows_same self self' l : same_query self self' → brows self' l = brows self l.
Proof. intros (Hk & Hr & Hm). unfold brows. by rewrite Hk, Hr, Hm. Qed.

Lemma out_of_range_admits self u : BackwardUserIterator.is_out_of_range self u = negb (admits self u).
Proof.
  unfold BackwardUserIterator.is_out_of_range, above. destruct (BackwardUserIterator.key_range self).1 as [b|b|]; [| |done].
  - by rewrite (cmp_leb_nlt UserKey.cmp), negb_involutive.
  - by rewrite (cmp_leb_nlt UserKey.cmp).
Qed.

Lemma above_up_user (lo : Bound UserKey.t) u v :
  UserKey.cmp u v ≠ Gt → above UserKey.cmp lo u = true → above UserKey.cmp lo v = true.
Proof.
  intros Hle. destruct lo as [a|a|]; simpl; [| |done].
  - rewrite !(cmp_leb_le UserKey.cmp). intros H. by apply (cmp_le_trans UserKey.cmp _ u).
  - rewrite !(cmp_ltb_lt UserKey.cmp). intros H. by apply (cmp_lt_le_trans UserKey.cmp _ u).
Qed.

Lemma back_le_ukey e x : kv_le DirectionEnum.Backward e x → UserKey.cmp (ukey x) (ukey e) ≠ Gt.
Proof. unfold kv_le. simpl. unfold rev_cmp, FullKey.cmp. by destruct (UserKey.cmp _ _). Qed.

(** Once an entry is out of range, so is everything ahead. *)
Lemma brows_out_of_range self e rest :
  sorted DirectionEnum.Backward (e :: rest) → admits self (ukey e) = false → brows self (e :: rest) = [].
Proof.
  intros [Hf _]%StronglySorted_cons Ho. unfold brows. rewrite filter_none; [done|].
  intros x [Hx _]%latest_sub Ha. apply elem_of_cons in Hx as [->|Hx]; [congruence|]. rewrite Forall_forall in Hf.
  rewrite (above_up_user _ _ _ (back_le_ukey e x (Hf x Hx)) Ha) in Ho. done.
Qed.

(** A candidate whose key does not come again is decided. *)
Lemma brows_decided self c rest :
  seen self c = true → admits self (ukey c) = true → (∀ x, x ∈ rest → ukey x ≠ ukey c) →
  brows self (c :: rest) = match row c with Some r => r :: brows self rest | None => brows self rest end.
Proof.
  intros Hs Ha Hne. unfold brows. rewrite latest_done by done. rewrite filter_cons_True by done. simpl. by destruct (row c).
Qed.

Definition with_candidate (c : option kv) (rest : list kv) : list kv :=
  match c with Some c => c :: rest | None => rest end.

Definition advances_back (n : nat) : Prop := ∀ self all c rest,
  stands' all rest (BackwardUserIterator.iterator self) → length rest < n →
  BackwardUserIterator.just_met_new_key self = false → BackwardUserIterator.out_of_range self = false →
  candidate self c → follows_candidate c rest →
  runs faults (BackwardUserIterator.next_loop n self)
    (λ self', same_query self self' ∧ bshows all (brows self (with_candidate c rest)) self') (λ self', same_query self self').

(** An iteration that moves the inner iterator on. *)
Lemma back_step n self all e rest c :
  advances_back n → stands' all (e :: rest) (BackwardUserIterator.iterator self) → length rest < n →
  BackwardUserIterator.just_met_new_key self = false → BackwardUserIterator.out_of_range self = false →
  candidate self c → follows_candidate c rest →
  runs faults (and_then (HummockIterator.next (BackwardUserIterator.iterator self)) (BackwardUserIterator.set_iterator self)
      (λ i, BackwardUserIterator.next_loop n (BackwardUserIterator.set_iterator self i)))
    (λ self', same_query self self' ∧ bshows all (brows self (with_candidate c rest)) self') (λ self', same_query self self').
Proof.
  intros IH Hst Hn Hm Ho Hc Hf. eapply runs_and_then; [by eapply stands_next| |done]. intros i Hi.
  exact (IH (BackwardUserIterator.set_iterator self i) all c rest Hi Hn Hm Ho Hc Hf).
Qed.

(** Taking the current version as the candidate. *)
Lemma back_take n self all e rest :
  advances_back n → stands' all (e :: rest) (BackwardUserIterator.iterator self) → length rest < n →
  BackwardUserIterator.just_met_new_key self = false → BackwardUserIterator.out_of_range self = false →
  seen self e = true → admits self (ukey e) = true → FullKey.user_key (BackwardUserIterator.last_key self) = ukey e →
  runs faults (value ← HummockIterator.value (BackwardUserIterator.iterator self);
      let self := BackwardUserIterator.set_version self e.1 value in
      and_then (HummockIterator.next (BackwardUserIterator.iterator self)) (BackwardUserIterator.set_iterator self)
      (λ i, BackwardUserIterator.next_loop n (BackwardUserIterator.set_iterator self i)))
    (λ self', same_query self self' ∧ bshows all (brows self (e :: rest)) self') (λ self', same_query self self').
Proof.
  intros IH Hst Hn Hm Ho Hs Ha Hu. rewrite (stands_value _ _ _ _ Hst). cbn [mbind outcome_bind].
  assert (sorted DirectionEnum.Backward (e :: rest)) as [Hf _]%StronglySorted_cons.
  { rewrite <-dir_ok. eapply sorted_suffix; [by eapply stands_suffix|]. by eapply owns_sorted, stands_owns. }
  assert (follows_candidate (Some e) rest) as Hfol.
  { eapply Forall_impl; [exact Hf|]. intros x. apply back_le_ukey. }
  destruct e as [k [v|]]; cbn [snd fst BackwardUserIterator.set_version].
  - exact (back_step n (BackwardUserIterator.set_version self k (HummockValue.Put v)) all (k, HummockValue.Put v) rest (Some (k, HummockValue.Put v))
             IH Hst Hn Hm Ho (conj Hs (conj Ha (conj eq_refl (conj eq_refl (conj eq_refl eq_refl))))) Hfol).
  - exact (back_step n (BackwardUserIterator.set_version self k HummockValue.Delete) all (k, HummockValue.Delete) rest (Some (k, HummockValue.Delete))
             IH Hst Hn Hm Ho (conj Hs (conj Ha (conj Hu eq_refl))) Hfol).
Qed.

Lemma follows_tail c e rest : follows_candidate c (e :: rest) → follows_candidate c rest.
Proof. by intros [_ H]%Forall_cons. Qed.

(** A new user key is below the candidate's, with everything after it. *)
Lemma follows_distinct c e rest :
  sorted DirectionEnum.Backward (e :: rest) → follows_candidate (Some c) (e :: rest) → ukey e ≠ ukey c →
  ∀ x, x ∈ e :: rest → ukey x ≠ ukey c.
Proof.
  intros [Hf _]%StronglySorted_cons [Hle _]%Forall_cons Hne x [->|Hx]%elem_of_cons; [done|]. intros E.
  rewrite Forall_forall in Hf. pose proof (back_le_ukey e x (Hf x Hx)) as Hle'. rewrite E in Hle'.
  apply (cmp_le_cases UserKey.cmp) in Hle as [Hlt|]; [|done]. apply Hle'. by apply (cmp_gt_lt UserKey.cmp).
Qed.

(** The candidate when the entries are exhausted. *)
Lemma back_end self all c :
  stands' all [] (BackwardUserIterator.iterator self) → BackwardUserIterator.out_of_range self = false → candidate self c →
  bshows all (brows self (with_candidate c [])) self.
Proof.
  intros Hst Ho Hc. assert (BackwardUserIterator.last_delete self = true → BackwardUserIterator.is_valid self = Ret false) as Hv.
  { intros Hd. unfold BackwardUserIterator.is_valid. by rewrite (stands_valid _ _ _ Hst), Hd. }
  destruct c as [[k [v|]]|]; cbn [with_candidate candidate] in *.
  - destruct Hc as (Hs & Ha & _ & Hk & Hval & Hd). rewrite brows_decided; [|done|done|by intros x ?%elem_of_nil]. cbn [row snd fst].
    split_and!; [done..|]. by exists [].
  - destruct Hc as (Hs & Ha & _ & Hd). rewrite brows_decided; [|done|done|by intros x ?%elem_of_nil]. exact (Hv Hd).
  - destruct Hc as [Hd _]. exact (Hv Hd).
Qed.

Lemma back_out_of_range self all e rest m k :
  stands' all (e :: rest) (BackwardUserIterator.iterator self) → admits self (ukey e) = false →
  bshows all (brows self (e :: rest)) (BackwardUserIterator.set_out_of_range (BackwardUserIterator.set_key self m k)).
Proof.
  intros Hst Ha. rewrite brows_out_of_range; [|rewrite <-dir_ok; eapply sorted_suffix; [by eapply stands_suffix|by eapply owns_sorted, stands_owns]|done].
  simpl. unfold BackwardUserIterator.is_valid. simpl. rewrite (stands_valid _ _ _ Hst). done.
Qed.

(** A new user key: out of range, or the next candidate. *)
Lemma back_new_key n self all e rest :
  advances_back n → stands' all (e :: rest) (BackwardUserIterator.iterator self) → length rest < n →
  BackwardUserIterator.out_of_range self = false → seen self e = true →
  runs faults
    (if BackwardUserIterator.is_out_of_range (BackwardUserIterator.set_key self false e.1) (ukey e)
     then ok (BackwardUserIterator.set_out_of_range (BackwardUserIterator.set_key self false e.1))
     else value ← HummockIterator.value (BackwardUserIterator.iterator self);
      let self := BackwardUserIterator.set_version (BackwardUserIterator.set_key self false e.1) e.1 value in
      and_then (HummockIterator.next (BackwardUserIterator.iterator self)) (BackwardUserIterator.set_iterator self)
      (λ i, BackwardUserIterator.next_loop n (BackwardUserIterator.set_iterator self i)))
    (λ self', same_query self self' ∧ bshows all (brows self (e :: rest)) self') (λ self', same_query self self').
Proof.
  intros IH Hst Hn Ho Hs. rewrite out_of_range_admits. cbn [BackwardUserIterator.set_key BackwardUserIterator.key_range].
  destruct (admits self (ukey e)) eqn:Ha; cbn [negb].
  - exact (back_take n (BackwardUserIterator.set_key self false e.1) all e rest IH Hst Hn eq_refl Ho Hs Ha eq_refl).
  - apply runs_ok. split; [done|]. by apply (back_out_of_range self all e rest).
Qed.

Lemma next_loop_ok n : advances_back n.
Proof.
  induction n as [|n IH]; intros self all c rest Hst Hn Hm Ho Hc Hf; [lia|]. cbn [BackwardUserIterator.next_loop].
  rewrite (stands_valid _ _ _ Hst). destruct rest as [|e rest]; cbn [mbind outcome_bind negb].
  { apply runs_ok. split; [done|]. by apply back_end. }
  rewrite (stands_key _ _ _ _ Hst). cbn [mbind outcome_bind length] in *. rewrite Hm.
  change ((_ <? _)%Z && _) with (seen self e). destruct (seen self e) eqn:Hs.
  2: { assert (brows self (with_candidate c (e :: rest)) = brows self (with_candidate c rest)) as ->.
       { unfold brows. destruct c; cbn [with_candidate]; [by rewrite latest_hidden2|by rewrite latest_hidden]. }
       apply (back_step n self all e); [done|done|lia|done|done|done|by eapply follows_tail]. }
  assert (sorted DirectionEnum.Backward (e :: rest)) as Hsort.
  { rewrite <-dir_ok. eapply sorted_suffix; [by eapply stands_suffix|]. by eapply owns_sorted, stands_owns. }
  case_bool_decide as Hu; cbn [negb].
  - destruct c as [[k v]|]; cbn [candidate with_candidate] in *.
    2: { destruct Hc as [_ Hd]. apply Forall_cons in Hf as [Hf _]. by rewrite Hd in Hu. }
    destruct Hc as (Hsc & Hac & Huc & Hv).
    assert (brows self ((k, v) :: e :: rest) = brows self (e :: rest)) as ->.
    { unfold brows. rewrite latest_again; [done|done|]. by rewrite Huc in Hu. }
    apply back_take; [done|done|lia|done|done|done| |done].
    rewrite Huc in Hu. change (FullKey.user_key e.1) with (ukey e) in Hu. by rewrite Hu in Hac.
  - assert (BackwardUserIterator.last_delete self = true → brows self (with_candidate c (e :: rest)) = brows self (e :: rest)) as Hdel.
    { intros Hd. destruct c as [[k v]|]; [|done]. cbn [candidate with_candidate] in *. destruct Hc as (Hsc & Hac & Huc & Hv).
      rewrite brows_decided; [|done|done|apply follows_distinct; [done|done|intros E; exact (Hu (eq_trans Huc (eq_sym E)))]].
      destruct v as [v|]; [|done]. destruct Hv as (_ & _ & ?). congruence. }
    destruct (BackwardUserIterator.last_delete self) eqn:Hd; cbn [negb].
    + rewrite (Hdel eq_refl). apply (back_new_key n self all e rest); [done|done|lia|done|done].
    + destruct c as [[k [v|]]|]; cbn [candidate with_candidate] in *; [|destruct_and! Hc; congruence..].
      destruct Hc as (Hsc & Hac & Huc & Hk & Hval & _). apply runs_ok. split; [done|].
      rewrite brows_decided; [|done|done|apply follows_distinct; [done|done|intros E; exact (Hu (eq_trans Huc (eq_sym E)))]]. cbn [row snd fst].
      split_and!; [done..|]. exists (e :: rest). done.
Qed.

(** ** Starting a scan *)

Lemma same_back_query_trans s1 s2 s3 : same_query s1 s2 → same_query s2 s3 → same_query s1 s3.
Proof. intros (?&?&?) (?&?&?). split_and!; by etrans. Qed.

Lemma bshows_valid self all k v out : bshows all ((k, v) :: out) self → BackwardUserIterator.is_valid self = Ret true.
Proof.
  intros (_ & _ & Hd & Ho & rest & Hst & _). unfold BackwardUserIterator.is_valid.
  rewrite (stands_valid _ _ _ Hst), Hd, Ho. cbn [mbind outcome_bind negb]. by rewrite orb_true_r.
Qed.

Lemma back_next_ok self all k v out :
  bshows all ((k, v) :: out) self → length all < fuel →
  runs faults (BackwardUserIterator.next fuel self) (λ self', same_query self self' ∧ bshows all out self') (same_query self).
Proof.
  intros (_ & _ & _ & Ho & rest & Hst & -> & Hmet) Hf. unfold BackwardUserIterator.next.
  rewrite (stands_valid _ _ _ Hst). destruct rest as [|e rest]; cbn [mbind outcome_bind negb].
  { apply runs_ok. split; [done|]. simpl. unfold BackwardUserIterator.is_valid. simpl. by rewrite (stands_valid _ _ _ Hst). }
  pose proof (suffix_length _ _ (stands_suffix _ _ _ Hst)) as Hlen. simpl in Hlen.
  destruct Hmet as [Hmet Hs]. destruct fuel as [|n]; [lia|]. cbn [BackwardUserIterator.next_loop].
  rewrite (stands_valid _ _ _ Hst), (stands_key _ _ _ _ Hst). cbn [mbind outcome_bind negb]. rewrite Hmet.
  change ((_ <? _)%Z && _) with (seen self e). rewrite Hs.
  apply (back_new_key n self all e rest); [apply next_loop_ok|done|lia|done|done].
Qed.

(** The rows of the user keys [P]. *)
Definition rows_back self (P : UserKey.t → bool) (all : list kv) : list (FullKey.t * list byte) :=
  omap row (filter (λ e, P (ukey e) && admits self (ukey e) = true) (latest (seen self) all)).

Lemma rows_back_same self self' P l : same_query self self' → rows_back self' P l = rows_back self P l.
Proof. intros (Hk & Hr & Hm). unfold rows_back. by rewrite Hk, Hr, Hm. Qed.

(** The first row of a scan. *)
Lemma back_begin self all s :
  stands' all s (BackwardUserIterator.iterator self) → Forall key_ok all → length all < fuel →
  BackwardUserIterator.reset self = self →
  runs faults (BackwardUserIterator.next fuel self) (λ self', same_query self self' ∧ bshows all (brows self s) self') (same_query self).
Proof.
  intros Hst Hok Hf Hr. unfold BackwardUserIterator.next. rewrite (stands_valid _ _ _ Hst).
  destruct s as [|e s]; cbn [mbind outcome_bind negb].
  { apply runs_ok. split; [done|]. simpl. unfold BackwardUserIterator.is_valid. simpl. by rewrite (stands_valid _ _ _ Hst). }
  pose proof (suffix_length _ _ (stands_suffix _ _ _ Hst)) as Hlen. rewrite <-Hr. rewrite <-Hr in Hst.
  apply (next_loop_ok fuel _ all None (e :: s)); [done|lia|done|done|done|].
  destruct (stands_suffix _ _ _ Hst) as [p ->]. apply Forall_app in Hok as [_ Hok].
  eapply Forall_impl; [exact Hok|]. intros x [Hlt _] E. by rewrite E, (cmp_refl UserKey.cmp) in Hlt.
Qed.

(** Entries up to a user key. *)
Lemma from_key_back self u all :
  sorted DirectionEnum.Backward all → Forall key_ok all →
  brows self (from_key DirectionEnum.Backward (FullKey.mk u EpochWithGap.new_min_epoch) all) =
  rows_back self (λ v, cmp_leb UserKey.cmp v u) all.
Proof.
  intros Hs Hok. unfold brows, rows_back. rewrite Forall_forall in Hok.
  assert (from_key DirectionEnum.Backward (FullKey.mk u EpochWithGap.new_min_epoch) all =
          filter (λ e, cmp_leb UserKey.cmp (ukey e) u = true) all) as ->.
  { apply filter_ext_in. intros e He. destruct (Hok e He) as [_ [Hge _]]. simpl.
    unfold rev_cmp, FullKey.cmp. cbn [FullKey.user_key FullKey.epoch_with_gap]. rewrite (cmp_leb_le UserKey.cmp).
    rewrite (cmp_antisym UserKey.cmp (ukey e) u). destruct (UserKey.cmp (ukey e) u); simpl; [|done|naive_solver].
    split; [done|]. intros _. rewrite Z.compare_lt_iff. unfold EpochWithGap.new_min_epoch. lia. }
  etrans; [apply f_equal, f_equal; exact (latest_filter (seen self) (λ v, cmp_leb UserKey.cmp v u = true) all)|].
  rewrite list_filter_filter. f_equal. apply list_filter_iff.
  intros e. rewrite andb_true_iff. tauto.
Qed.

Definition back_chosen self (P : UserKey.t → bool) (all : list kv) : list kv :=
  filter (λ e, P (ukey e) && admits self (ukey e) = true) (latest (seen self) all).

Lemma back_chosen_and self P Q all :
  back_chosen self (λ u, P u && Q u) all = filter (λ e, Q (ukey e) = true) (back_chosen self P all).
Proof. unfold back_chosen. rewrite list_filter_filter. apply list_filter_iff. intros e. rewrite !andb_true_iff. tauto. Qed.

(** The end of [start]: an excluded last key is left. *)
Definition leave_end (self : BackwardUserIterator.t I) : step (BackwardUserIterator.t I) :=
  match (BackwardUserIterator.key_range self).2 with
  | Excluded end_key =>
      valid ← BackwardUserIterator.is_valid self;
      if (valid : bool) then
        k ← BackwardUserIterator.key self;
        if bool_decide (FullKey.user_key k = end_key) then BackwardUserIterator.next fuel self else ok self
      else ok self
  | _ => ok self
  end.

Lemma leave_end_keeps self all F :
  bshows all (omap row F) self →
  (∀ e, e ∈ F → below UserKey.cmp (BackwardUserIterator.key_range self).2 (ukey e) = true) → leave_end self = ok self.
Proof.
  intros Hsh Hne. unfold leave_end. destruct (BackwardUserIterator.key_range self).2 as [b|b|] eqn:Hb; [done| |done].
  destruct (omap row F) as [|[k v] out] eqn:E; [by rewrite Hsh|].
  unfold BackwardUserIterator.key. rewrite (bshows_valid _ _ _ _ _ Hsh). cbn [mbind outcome_bind rassert].
  destruct Hsh as (-> & _). rewrite bool_decide_eq_false_2; [done|]. intros Hk.
  assert ((k, v) ∈ omap row F) as (e & He & Hr)%list_elem_of_omap by (rewrite E; by left).
  destruct e as [k' [v'|]]; [|done]. injection Hr as -> ->. specialize (Hne _ He). simpl in Hne.
  by rewrite Hk, (cmp_ltb_lt UserKey.cmp), (cmp_refl UserKey.cmp) in Hne.
Qed.

Lemma leave_end_ok self all sk :
  match (BackwardUserIterator.key_range self).2 with Included b | Excluded b => UserKey.cmp sk b ≠ Gt | Unbounded => True end →
  sorted DirectionEnum.Backward all → length all < fuel →
  bshows all (rows_back self (λ u, cmp_leb UserKey.cmp u sk) all) self →
  runs faults (leave_end self)
    (λ self', same_query self self' ∧
       bshows all (rows_back self (λ u, cmp_leb UserKey.cmp u sk && below UserKey.cmp (BackwardUserIterator.key_range self).2 u) all) self')
    (same_query self).
Proof.
  intros Hle Hs Hf Hsh. unfold rows_back in *.
  pose proof (sorted_filter _ (λ e, cmp_leb UserKey.cmp (ukey e) sk && admits self (ukey e) = true) _ (latest_sorted (seen self) _ Hs)) as Hsort.
  fold (back_chosen self (λ u, cmp_leb UserKey.cmp u sk && below UserKey.cmp (BackwardUserIterator.key_range self).2 u) all).
  fold (back_chosen self (λ u, cmp_leb UserKey.cmp u sk) all) in Hsh, Hsort. rewrite back_chosen_and.
  assert (∀ e, e ∈ back_chosen self (λ u, cmp_leb UserKey.cmp u sk) all → UserKey.cmp (ukey e) sk ≠ Gt) as Hge.
  { by intros e [[H%(cmp_leb_le UserKey.cmp) _]%andb_true_iff _]%list_elem_of_filter. }
  destruct (back_chosen _ _ all) as [|x F].
  { rewrite (leave_end_keeps self all []); [by apply runs_ok|done|by intros e ?%elem_of_nil]. }
  apply StronglySorted_cons in Hsort as [Hx Hsort]. rewrite Forall_forall in Hx.
  assert (∀ e, e ∈ F → below UserKey.cmp (BackwardUserIterator.key_range self).2 (ukey e) = true) as HF.
  { intros e He. specialize (Hx e He). specialize (Hge x ltac:(by left)).
    destruct (BackwardUserIterator.key_range self).2 as [b|b|]; simpl; [| |done].
    - apply (cmp_leb_le UserKey.cmp). apply (cmp_le_trans UserKey.cmp _ (ukey x)); [by rewrite Hx|by apply (cmp_le_trans UserKey.cmp _ sk)].
    - apply (cmp_ltb_lt UserKey.cmp). apply (cmp_lt_le_trans UserKey.cmp _ (ukey x)); [done|by apply (cmp_le_trans UserKey.cmp _ sk)]. }
  destruct (below UserKey.cmp (BackwardUserIterator.key_range self).2 (ukey x)) eqn:Hbx.
  { assert (∀ e, e ∈ x :: F → below UserKey.cmp (BackwardUserIterator.key_range self).2 (ukey e) = true) as HF'
      by (intros e [->|He]%elem_of_cons; auto).
    rewrite (leave_end_keeps self all (x :: F)) by done. apply runs_ok. split; [done|]. by rewrite filter_all. }
  rewrite filter_cons_False by congruence. rewrite filter_all by done.
  destruct x as [k [v|]]; [|rewrite (leave_end_keeps self all F) by done; by apply runs_ok].
  unfold leave_end. specialize (Hge _ ltac:(by left)).
  destruct (BackwardUserIterator.key_range self).2 as [b|b|] eqn:Hb; [|  |done]; simpl in Hbx.
  { assert (cmp_leb UserKey.cmp (FullKey.user_key k) b = true) as Hc; [|congruence].
    apply (cmp_leb_le UserKey.cmp), (cmp_le_trans UserKey.cmp _ sk); done. }
  unfold BackwardUserIterator.key. rewrite (bshows_valid _ _ _ _ _ Hsh). cbn [mbind outcome_bind rassert].
  pose proof Hsh as (-> & _). rewrite bool_decide_eq_true_2; [by apply (back_next_ok self all k v)|].
  pose proof (cmp_le_trans UserKey.cmp _ _ _ Hge Hle) as [Hlt|Heq]%(cmp_le_cases UserKey.cmp); [|done].
  apply (cmp_ltb_lt UserKey.cmp) in Hlt. simpl in Hlt. congruence.
Qed.

(** Positioning the inner iterator by [m] and settling on the first row. *)
Lemma back_reposition self all m s sk P :
  Forall key_ok all → sorted DirectionEnum.Backward all → length all < fuel →
  runs faults m (stands' all s) (owns (faults := faults) all) →
  brows self s = rows_back self (λ u, cmp_leb UserKey.cmp u sk) all →
  match (BackwardUserIterator.key_range self).2 with Included b | Excluded b => UserKey.cmp sk b ≠ Gt | Unbounded => True end →
  (∀ e, e ∈ all →
    cmp_leb UserKey.cmp (ukey e) sk && below UserKey.cmp (BackwardUserIterator.key_range self).2 (ukey e) = P (ukey e)) →
  runs faults (and_then m (BackwardUserIterator.set_iterator self)
      (λ i, BackwardUserIterator.start fuel (BackwardUserIterator.reset (BackwardUserIterator.set_iterator self i))))
    (λ self', same_query self self' ∧ bshows all (rows_back self P all) self') (same_query self).
Proof.
  intros Hok Hs Hf Hm Hrows Hlo HP. eapply runs_and_then; [exact Hm| |done]. intros i Hi.
  set (self0 := BackwardUserIterator.reset _).
  assert (rows_back self P all = rows_back self0 (λ u, cmp_leb UserKey.cmp u sk && below UserKey.cmp (BackwardUserIterator.key_range self0).2 u) all) as ->.
  { unfold rows_back. f_equal. apply filter_ext_in. intros e [He _]%latest_sub. by rewrite <-HP. }
  unfold BackwardUserIterator.start. eapply runs_and_then; [exact (back_begin self0 all s Hi Hok Hf eq_refl)| |done].
  intros self' [Hq Hsh]. pose proof Hq as (Hkr & _ & _). fold (leave_end self').
  eapply runs_weaken; [apply (leave_end_ok self' all sk); [by rewrite Hkr|done|done|]| |].
  - rewrite (rows_back_same self0 self') by done.
    change (bshows all (rows_back self (λ u, cmp_leb UserKey.cmp u sk) all) self'). rewrite <-Hrows. exact Hsh.
  - intros self'' [Hq' Hsh']. split; [by eapply (same_back_query_trans self0)|]. rewrite (rows_back_same self0 self'), Hkr in Hsh' by done. done.
  - intros self'' Hq'. by eapply (same_back_query_trans self0).
Qed.

(** The end of a range may be sought. *)
Definition may_end (range : UserKeyRange) : Prop :=
  match range.2 with Included b | Excluded b => may_seek seeks b | Unbounded => True end.

Lemma min_epoch_uint : is_uint 64 EpochWithGap.new_min_epoch.
Proof. unfold is_uint, EpochWithGap.new_min_epoch. lia. Qed.

Lemma has_top (all : list kv) : sorted DirectionEnum.Backward all → ∃ top, Forall (λ e, UserKey.cmp (ukey e) top ≠ Gt) all.
Proof.
  intros Hs. destruct all as [|x all]; [by exists (FullKey.user_key default_full_key)|]. exists (ukey x).
  apply StronglySorted_cons in Hs as [Hf _]. constructor; [by rewrite (cmp_refl UserKey.cmp)|].
  eapply Forall_impl; [exact Hf|]. intros e. apply back_le_ukey.
Qed.

Lemma back_rewind_ok self all :
  may_end (BackwardUserIterator.key_range self) → owns (faults := faults) all (BackwardUserIterator.iterator self) →
  Forall key_ok all → length all < fuel →
  runs faults (BackwardUserIterator.rewind fuel self)
    (λ self', same_query self self' ∧ bshows all (rows_back self (below UserKey.cmp (BackwardUserIterator.key_range self).2) all) self')
    (same_query self).
Proof.
  intros Hme Hown Hok Hf. unfold may_end in Hme.
  assert (sorted DirectionEnum.Backward all) as Hs by (rewrite <-dir_ok; by eapply owns_sorted).
  unfold BackwardUserIterator.rewind, BackwardUserIterator.seek_inner.
  destruct (has_top all Hs) as [top Htop]. rewrite Forall_forall in Htop.
  destruct (BackwardUserIterator.key_range self).2 as [b|b|] eqn:Eb.
  3: { apply (back_reposition self all _ all top); [done|done|done|by apply owns_rewind| |by rewrite Eb|].
       - unfold brows, rows_back. f_equal. apply filter_ext_in. intros e [He _]%latest_sub.
         pose proof (proj2 (cmp_leb_le UserKey.cmp _ _) (Htop e He)) as ->. done.
       - intros e He. pose proof (proj2 (cmp_leb_le UserKey.cmp _ _) (Htop e He)) as ->. by rewrite Eb. }
  all: eapply (back_reposition self all _ _ b);
    [done|done|done|apply owns_seek; [by apply Hme, min_epoch_uint|done]|rewrite dir_ok; by apply from_key_back| |].
  1,3: rewrite Eb, (cmp_refl UserKey.cmp); done.
  all: intros e He; rewrite Eb; simpl.
  - by rewrite andb_diag.
  - unfold cmp_leb, cmp_ltb. by destruct (UserKey.cmp (ukey e) b).
Qed.

Lemma back_seek_ok self all u :
  may_end (BackwardUserIterator.key_range self) → may_seek seeks u →
  owns (faults := faults) all (BackwardUserIterator.iterator self) → Forall key_ok all → length all < fuel →
  runs faults (BackwardUserIterator.seek fuel self u)
    (λ self', same_query self self' ∧
       bshows all (rows_back self (λ v, cmp_leb UserKey.cmp v u && below UserKey.cmp (BackwardUserIterator.key_range self).2 v) all) self')
    (same_query self).
Proof.
  intros Hme Hmu Hown Hok Hf. unfold may_end in Hme.
  assert (sorted DirectionEnum.Backward all) as Hs by (rewrite <-dir_ok; by eapply owns_sorted).
  unfold BackwardUserIterator.seek, BackwardUserIterator.seek_inner.
  set (sk := match (BackwardUserIterator.key_range self).2 with Included _ => _ | _ => _ end).
  assert (may_seek seeks sk) as Hsk by (subst sk; destruct (BackwardUserIterator.key_range self).2; [case_match..|]; done).
  eapply (back_reposition self all _ _ sk);
    [done|done|done|apply owns_seek; [by apply Hsk, min_epoch_uint|done]|rewrite dir_ok; by apply from_key_back| |].
  - subst sk. destruct (BackwardUserIterator.key_range self).2 as [b|b|]; [| |done];
      (destruct (cmp_ltb UserKey.cmp b u) eqn:E; [by rewrite (cmp_refl UserKey.cmp)|]);
      rewrite (cmp_le_not_lt UserKey.cmp); unfold cmp_ltb in E; by destruct (UserKey.cmp b u).
  - intros e He. subst sk. destruct (BackwardUserIterator.key_range self).2 as [b|b|]; simpl; [| |done];
      (destruct (cmp_ltb UserKey.cmp b u) eqn:E; [|done]); apply (cmp_ltb_lt UserKey.cmp) in E.
    + destruct (cmp_leb UserKey.cmp (ukey e) b) eqn:Eb; [|by rewrite !andb_false_r]. apply (cmp_leb_le UserKey.cmp) in Eb.
      assert (cmp_leb UserKey.cmp (ukey e) u = true) as ->; [|done].
      apply (cmp_leb_le UserKey.cmp). by rewrite (cmp_le_lt_trans UserKey.cmp _ _ _ Eb E).
    + destruct (cmp_ltb UserKey.cmp (ukey e) b) eqn:Eb; [|by rewrite !andb_false_r]. apply (cmp_ltb_lt UserKey.cmp) in Eb.
      assert (cmp_leb UserKey.cmp (ukey e) u = true) as ->.
      { apply (cmp_leb_le UserKey.cmp). assert (UserKey.cmp b u ≠ Gt) as Hbu by by rewrite E.
        by rewrite (cmp_lt_le_trans UserKey.cmp _ b u Eb Hbu). }
      rewrite !andb_true_r. apply (cmp_leb_le UserKey.cmp). by rewrite Eb.
Qed.

(** ** Reading all rows *)
Fixpoint back_scan_rows (n : nat) self : outcome (list (FullKey.t * list byte) * HummockResult unit) :=
  match n with
  | O => Panic
  | S n =>
      valid ← BackwardUserIterator.is_valid self;
      if (valid : bool) then
        k ← BackwardUserIterator.key self;
        v ← BackwardUserIterator.value self;
        '(self, r) ← BackwardUserIterator.next fuel self;
        match r with
        | inl e => Ret ([(k, v)], inl e)
        | inr _ => '(l, r) ← back_scan_rows n self; Ret ((k, v) :: l, r)
        end
      else Ret ([], inr tt)
  end.

Definition back_scan_from (m : step (BackwardUserIterator.t I)) : outcome (list (FullKey.t * list byte) * HummockResult unit) :=
  '(self, r) ← m; match r with inl e => Ret ([], inl e) | inr _ => back_scan_rows fuel self end.

Lemma back_scan_rows_ok n : ∀ self all out,
  bshows all out self → length out < n → length all < fuel → reads faults (back_scan_rows n self) out.
Proof.
  induction n as [|n IH]; intros self all out Hsh Hn Hf; [lia|]. cbn [back_scan_rows]. destruct out as [|[k v] out].
  { rewrite Hsh. by exists [], (inr tt). }
  pose proof (back_next_ok self all k v out Hsh Hf) as Hnext. unfold BackwardUserIterator.key, BackwardUserIterator.value.
  rewrite (bshows_valid _ _ _ _ _ Hsh). destruct Hsh as (-> & -> & _). cbn [rassert mbind outcome_bind]. unfold runs in Hnext.
  destruct (BackwardUserIterator.next fuel self) as [[self' [err|[]]]|]; [| |done]; cbn [mbind outcome_bind].
  - destruct Hnext as [Hfa _]. eexists _, _. split; [done|]. split; [done|]. apply prefix_cons, prefix_nil.
  - destruct Hnext as [_ Hsh']. destruct (IH self' all out Hsh' ltac:(simpl in Hn; lia) Hf) as (l & r & -> & Hr).
    exists ((k, v) :: l), r. split; [done|]. destruct r; [|by subst]. destruct Hr as [Hfa Hp]. split; [done|by apply prefix_cons].
Qed.

Lemma rows_back_length self P all : length (rows_back self P all) ≤ length all.
Proof.
  etrans; [apply omap_row_length|]. etrans; [apply (length_filter (λ e, _ = true))|].
  induction all as [|e all IH]; [done|]. rewrite latest_cons, length_app. simpl. destruct (seen self e && _); simpl; lia.
Qed.

Lemma back_scan_from_ok self all P m :
  length all < fuel →
  runs faults m (λ self', same_query self self' ∧ bshows all (rows_back self P all) self') (same_query self) →
  reads faults (back_scan_from m) (rows_back self P all).
Proof.
  intros Hf Hm. unfold back_scan_from, runs in *. destruct m as [[self' [err|[]]]|]; [| |done]; cbn [mbind outcome_bind].
  - destruct Hm as [Hfa _]. eexists _, _. split; [done|]. split; [done|apply prefix_nil].
  - destruct Hm as [_ Hsh]. apply (back_scan_rows_ok fuel self' all); [done| |done].
    pose proof (rows_back_length self P all). lia.
Qed.
End backward.

(** ** The two directions *)

Lemma omap_reverse {A B} (f : A → option B) (l : list A) : omap f (reverse l) = reverse (omap f l).
Proof.
  induction l as [|x l IH]; [done|]. rewrite reverse_cons, omap_app, IH. simpl. destruct (f x); simpl; [|by rewrite app_nil_r].
  by rewrite reverse_cons.
Qed.

(** Over the same entries the rows are those of a forward scan, from the last to the first;
    the lower epoch bound is exclusive here and inclusive there. *)
Lemma rows_back_reverse {I J} (self : BackwardUserIterator.t I) (fwd : UserIterator.t J) (all : list kv) :
  UserIterator.key_range fwd = BackwardUserIterator.key_range self →
  UserIterator.read_epoch fwd = BackwardUserIterator.read_epoch self →
  UserIterator.min_epoch fwd = (BackwardUserIterator.min_epoch self + 1)%Z →
  rows_back self (below UserKey.cmp (BackwardUserIterator.key_range self).2) (reverse all) =
  reverse (rows_where fwd (above UserKey.cmp (UserIterator.key_range fwd).1) all).
Proof.
  intros Hk Hr Hm. unfold rows_back, rows_where. rewrite latest_reverse, filter_reverse, omap_reverse, Hk, Hr, Hm.
  f_equal. f_equal.
  assert (newest (readable_after (BackwardUserIterator.min_epoch self) (BackwardUserIterator.read_epoch self)) all =
          newest (readable (BackwardUserIterator.min_epoch self + 1) (BackwardUserIterator.read_epoch self)) all) as ->.
  { induction all as [|e all IH]; [done|]. cbn [newest]. rewrite IH.
    assert (readable_after (BackwardUserIterator.min_epoch self) (BackwardUserIterator.read_epoch self) e =
            readable (BackwardUserIterator.min_epoch self + 1) (BackwardUserIterator.read_epoch self) e) as ->; [|done].
    unfold readable_after, readable. f_equal. apply eq_bool_prop_intro. rewrite !Is_true_true, Z.ltb_lt, Z.leb_le. lia. }
  apply list_filter_iff. intros e. by rewrite andb_comm.
Qed.
