(* ===== verification/SkipWatermarkSpec.v ===== *)
(** * Skipping what a table watermark has expired

    [SkipWatermarkState::should_delete] walks the watermarks along with the keys; over keys in
    order it decides as a look-up among all watermarks does.  [SkipWatermarkIterator] is then a
    lawful iterator over the entries no watermark has expired, and its statistics count the
    entries it skipped ([UserIter.v]). *)

From Stdlib Require Import ZArith Lia.
From stdpp Require Import gmap.
From S2P Require Import Prelude Order Bytes Epoch Bits Bitmap Vnode Key KeySpec KeyOrder KeyRange Watermark Sst SstSpec Block Iter IterSpec UserIter.

Implicit Types (e x : kv).
Abbreviation remaining := SkipWatermarkState.remaining.
Implicit Types (ws : list remaining).

(** ** The position of a key among the watermarks *)
Abbreviation place := (Z * VirtualNode.t)%type.
Abbreviation place_cmp := (pair_cmp Z.compare Nat.compare).
#[local] Instance place_cmp_total : TotalCmp place_cmp := pair_cmp_total _ _ Z_compare_total nat_compare_total.

Definition place_of (w : remaining) : place := w.1.1.

(** A key of a table: its table and vnode, and the key within them. *)
Definition splits (k : FullKey.t) (p : place) (inner : list byte) : Prop :=
  UserKey.table_id (FullKey.user_key k) = p.1 ∧
  TableKey.split_vnode (UserKey.table_key (FullKey.user_key k)) = Ret (p.2, inner).

Definition has_vnode (k : FullKey.t) : Prop := ∃ p inner, splits k p inner.

(** A watermark expires the keys of its place on the far side of it. *)
Definition expires (w : remaining) (p : place) (inner : list byte) : bool :=
  bool_decide (place_of w = p) && WatermarkDirection.filter_by_watermark w.1.2 inner w.2.

Definition expired ws (k : FullKey.t) : bool :=
  match TableKey.split_vnode (UserKey.table_key (FullKey.user_key k)) with
  | Ret (vnode, inner) => existsb (λ w, expires w (UserKey.table_id (FullKey.user_key k), vnode) inner) ws
  | Panic => false
  end.

Lemma expired_splits ws k p inner : splits k p inner → expired ws k = existsb (λ w, expires w p inner) ws.
Proof. intros [Ht Hs]. unfold expired. rewrite Hs, Ht. by destruct p. Qed.

(** Keys in order visit the places in order, and within a place their inner keys are in order. *)
Lemma splits_mono k1 k2 p1 p2 i1 i2 :
  splits k1 p1 i1 → splits k2 p2 i2 → FullKey.cmp k1 k2 ≠ Gt →
  place_cmp p1 p2 ≠ Gt ∧ (p1 = p2 → bytes_cmp i1 i2 ≠ Gt).
Proof.
  intros [Ht1 [Hs1 Hv1]%split_vnode_inv] [Ht2 [Hs2 Hv2]%split_vnode_inv] Hle.
  destruct k1 as [[t1 b1] g1], k2 as [[t2 b2] g2], p1 as [t1' v1], p2 as [t2' v2]. simpl in *.
  pose proof (eq_trans (f_equal2 bytes_cmp Hs1 Hs2) (vnode_bytes_cmp v1 v2 i1 i2 Hv1 Hv2)) as Hc. clear Hs1 Hs2. subst t1' t2'.
  unfold FullKey.cmp, UserKey.cmp in Hle. cbn [FullKey.user_key UserKey.table_id UserKey.table_key FullKey.epoch_with_gap] in Hle.
  rewrite Hc in Hle. unfold pair_cmp. simpl.
  destruct (Z.compare_spec t1 t2); simpl in *; [|split; [done|intros [=]; lia]|done].
  destruct (Nat.compare_spec v1 v2); simpl in *; [|split; [done|intros [=]; lia]|done].
  split; [done|]. intros _. by destruct (bytes_cmp i1 i2).
Qed.

(** ** The state *)
Abbreviation places_sorted ws := (StronglySorted (λ w w', place_cmp (place_of w) (place_of w') = Lt) ws).

Lemma existsb_false {A} (f : A → bool) (l : list A) : (∀ a, a ∈ l → f a = false) → existsb f l = false.
Proof. intros H. induction l as [|a l IH]; [done|]. simpl. rewrite (H a) by (by left). apply IH. intros b Hb. apply H. by right. Qed.

(** A watermark of another place expires nothing here. *)
Lemma expires_elsewhere w p inner : place_cmp (place_of w) p ≠ Eq → expires w p inner = false.
Proof. intros Hne. unfold expires. rewrite bool_decide_false; [done|]. intros E. by apply Hne, (cmp_eq_iff place_cmp). Qed.

Lemma later_expire_nothing w ws p inner :
  Forall (λ w', place_cmp (place_of w) (place_of w') = Lt) ws → place_cmp (place_of w) p ≠ Lt →
  existsb (λ w, expires w p inner) ws = false.
Proof.
  intros Hf Hge. apply existsb_false. intros w' Hw'. rewrite Forall_forall in Hf. specialize (Hf w' Hw').
  apply expires_elsewhere. intros E%(cmp_eq_iff place_cmp). by rewrite E in Hf.
Qed.

(** [ws'] decides every key from [k] on as [ws] does. *)
Definition decides_from (k : FullKey.t) ws ws' : Prop :=
  ∀ k', has_vnode k' → FullKey.cmp k k' ≠ Gt → expired ws' k' = expired ws k'.

(** A watermark at a place the keys have passed, or an ascending one they have reached, may go. *)
Lemma drop_watermark k p inner w ws :
  splits k p inner →
  place_cmp (place_of w) p = Lt ∨ (place_of w = p ∧ w.1.2 = WatermarkDirection.Ascending ∧ bytes_cmp inner w.2 ≠ Lt) →
  decides_from k (w :: ws) ws.
Proof.
  intros Hk Hw k' (p' & i' & Hx) Hle. rewrite !(expired_splits _ k' p' i') by done. cbn [existsb].
  assert (expires w p' i' = false) as ->; [|done]. destruct (splits_mono k k' p p' inner i') as [Hp Hi]; [done..|].
  destruct Hw as [Hlt|(Hp0 & Hd & Hge)].
  - apply expires_elsewhere. by rewrite (cmp_lt_le_trans place_cmp _ p).
  - unfold expires. case_bool_decide as E; [|done]. rewrite Hd. simpl. unfold bytes_ltb, cmp_ltb.
    assert (p = p') as Epp by congruence. specialize (Hi Epp).
    destruct (bytes_cmp i' w.2) eqn:Ei; [done| |done]. destruct Hge. by apply (cmp_le_lt_trans bytes_cmp _ i').
Qed.

Lemma decides_refl k ws : decides_from k ws ws.
Proof. done. Qed.

Lemma decides_trans k k' ws1 ws2 ws3 :
  FullKey.cmp k k' ≠ Gt → decides_from k ws1 ws2 → decides_from k' ws2 ws3 → decides_from k' ws1 ws3.
Proof.
  intros Hle H1 H2 y Hy Hle'. rewrite (H2 y Hy Hle'). apply H1; [done|]. by apply (cmp_le_trans FullKey.cmp _ k').
Qed.

(** At its own place a watermark alone decides. *)
Lemma expired_here k p inner w ws :
  splits k p inner → places_sorted (w :: ws) → place_of w = p →
  expired (w :: ws) k = WatermarkDirection.filter_by_watermark w.1.2 inner w.2.
Proof.
  intros Hk [Hf _]%StronglySorted_cons Hp. rewrite (expired_splits _ k p inner) by done. cbn [existsb].
  rewrite (later_expire_nothing w) by (done || by rewrite Hp, (cmp_refl place_cmp)).
  unfold expires. rewrite bool_decide_true by done. by rewrite orb_false_r.
Qed.

(** Before the first watermark nothing is expired. *)
Lemma expired_before k p inner w ws :
  splits k p inner → places_sorted (w :: ws) → place_cmp (place_of w) p = Gt → expired (w :: ws) k = false.
Proof.
  intros Hk [Hf _]%StronglySorted_cons Hgt. rewrite (expired_splits _ k p inner) by done. cbn [existsb].
  rewrite (later_expire_nothing w) by (done || by rewrite Hgt). by rewrite expires_elsewhere by by rewrite Hgt.
Qed.

Definition advanced (k : FullKey.t) ws (r : list remaining * bool) : Prop :=
  r.2 = expired ws k ∧ places_sorted r.1 ∧ decides_from k ws r.1.

Lemma advance_watermark_ok k p inner ws :
  splits k p inner → places_sorted ws → advanced k ws (SkipWatermarkState.advance_watermark p.1 p.2 inner ws).
Proof.
  intros Hk. induction ws as [|[[[t v] d] w] ws IH]; intros Hs.
  { split; [|done]. by rewrite (expired_splits _ k p inner). }
  pose proof Hs as [_ Hs']%StronglySorted_cons. cbn [SkipWatermarkState.advance_watermark].
  change (SkipWatermarkState.pos_cmp t v p.1 p.2) with (place_cmp (t, v) (p.1, p.2)). rewrite <-surjective_pairing.
  destruct (place_cmp (t, v) p) eqn:Hc.
  - apply (cmp_eq_iff place_cmp) in Hc. pose proof (expired_here k p inner _ ws Hk Hs Hc) as He. cbn [fst snd] in He.
    destruct d; unfold advanced; rewrite He; unfold WatermarkDirection.filter_by_watermark, bytes_ltb, cmp_ltb.
    + destruct (bytes_cmp inner w) eqn:Hi; cbn [fst snd]; (split; [done|]; split; [done|]); [|done|];
        (apply (drop_watermark k p inner); [done|]; right; simpl; by rewrite Hi).
    + cbn [fst snd]. rewrite (cmp_antisym bytes_cmp inner w). split; [by destruct (bytes_cmp inner w)|]. done.
  - destruct (IH Hs') as (He & Hs2 & Hd). pose proof (drop_watermark k p inner (t, v, d, w) ws Hk (or_introl Hc)) as Hdrop.
    split; [|split; [done|]].
    + rewrite He. apply Hdrop; [by exists p, inner|]. by rewrite (cmp_refl FullKey.cmp).
    + apply (decides_trans k k _ ws); [by rewrite (cmp_refl FullKey.cmp)|done..].
  - split; [|done]. by rewrite (expired_before k p inner).
Qed.

Lemma should_delete_ok self k :
  has_vnode k → places_sorted (SkipWatermarkState.remain_watermarks self) →
  ∃ remain, SkipWatermarkState.should_delete self k =
      Ret (SkipWatermarkState.mk (SkipWatermarkState.watermarks self) remain, expired (SkipWatermarkState.remain_watermarks self) k) ∧
    places_sorted remain ∧ decides_from k (SkipWatermarkState.remain_watermarks self) remain.
Proof.
  destruct self as [ms ws]. intros (p & inner & Hk) Hs. unfold SkipWatermarkState.should_delete.
  cbn [SkipWatermarkState.remain_watermarks SkipWatermarkState.watermarks] in *.
  destruct ws as [|[[[t v] d] w] ws]; [exists []; by rewrite (expired_splits _ k p inner)|].
  pose proof Hk as [Ht ->]. cbn [mbind outcome_bind]. rewrite Ht.
  change (SkipWatermarkState.pos_cmp p.1 p.2 t v) with (place_cmp (p.1, p.2) (t, v)). rewrite <-surjective_pairing.
  rewrite (cmp_antisym place_cmp (t, v) p). destruct (place_cmp (t, v) p) eqn:Hc; cbn [CompOpp].
  - apply (cmp_eq_iff place_cmp) in Hc. rewrite (expired_here k p inner _ ws Hk Hs Hc). by exists ((t, v, d, w) :: ws).
  - pose proof (advance_watermark_ok k p inner _ Hk Hs) as (He & Hs' & Hd).
    destruct (SkipWatermarkState.advance_watermark _ _ _ _) as [remain b]. cbn [fst snd] in *. exists remain. by rewrite He.
  - rewrite (expired_before k p inner _ ws Hk Hs Hc). by exists ((t, v, d, w) :: ws).
Qed.

(** ** All watermarks of the state *)
Definition all_watermarks (st : SkipWatermarkState.t) : list remaining :=
  SkipWatermarkState.remain_watermarks (SkipWatermarkState.reset_watermark st).

(** The keys of a [BTreeMap] ascend. *)
Definition map_ok {K V} (cmp : K → K → comparison) (m : list (K * V)) : Prop :=
  StronglySorted (λ kv1 kv2, cmp kv1.1 kv2.1 = Lt) m.

Definition watermarks_ok (ws : list (Z * ReadTableWatermark)) : Prop :=
  map_ok Z.compare ws ∧ Forall (λ tw, map_ok Nat.compare (vnode_watermarks tw.2)) ws.

Lemma sorted_fmap {A B} (f : A → B) (R : A → A → Prop) (S : B → B → Prop) (l : list A) :
  StronglySorted R l → (∀ a b, R a b → S (f a) (f b)) → StronglySorted S (f <$> l).
Proof.
  intros Hs Himp. induction Hs as [|a l Hs IH Hf]; [constructor|]. rewrite fmap_cons. constructor; [done|].
  apply Forall_fmap. eapply Forall_impl; [exact Hf|]. intros b. apply Himp.
Qed.

Lemma all_watermarks_sorted st : watermarks_ok (SkipWatermarkState.watermarks st) → places_sorted (all_watermarks st).
Proof.
  intros [Ht Hv]. unfold all_watermarks, SkipWatermarkState.reset_watermark. cbn [SkipWatermarkState.remain_watermarks].
  induction Ht as [|[t rw] m Ht IH Hlt]; [constructor|]. apply Forall_cons in Hv as [Hrw Hv]. rewrite fmap_cons, join_cons.
  apply StronglySorted_app. split; [|split; [|by apply IH]].
  - intros x1 x2 (vw & -> & _)%list_elem_of_fmap (l & Hl & ([t' rw'] & -> & Hm)%list_elem_of_fmap)%list_elem_of_join.
    apply list_elem_of_fmap in Hl as (vw' & -> & _). rewrite Forall_forall in Hlt. specialize (Hlt _ Hm). simpl in Hlt.
    unfold place_of, pair_cmp. simpl. by rewrite Hlt.
  - simpl in *. eapply sorted_fmap; [exact Hrw|]. intros a b Hab. unfold place_of, pair_cmp. simpl. rewrite Z.compare_refl. exact Hab.
Qed.

(** A key is expired when its table has a watermark for its vnode that filters it. *)
Lemma expired_spec st k t v inner :
  splits k (t, v) inner →
  expired (all_watermarks st) k = true ↔
  ∃ rw w, (t, rw) ∈ SkipWatermarkState.watermarks st ∧ (v, w) ∈ vnode_watermarks rw ∧
    WatermarkDirection.filter_by_watermark (rw_direction rw) inner w = true.
Proof.
  intros Hk. rewrite (expired_splits _ k (t, v) inner), existsb_exists by done. setoid_rewrite <-list_elem_of_In.
  unfold all_watermarks, SkipWatermarkState.reset_watermark. cbn [SkipWatermarkState.remain_watermarks].
  setoid_rewrite list_elem_of_join. unfold expires, place_of. split.
  - intros (w & (l & Hl & ([t' rw] & -> & Hm)%list_elem_of_fmap) & [Hp%bool_decide_eq_true Hf]%andb_true_iff).
    apply list_elem_of_fmap in Hl as ([v' w'] & -> & Hv). simpl in *. simplify_eq. by exists rw, w'.
  - intros (rw & w & Hm & Hv & Hf). exists (t, v, rw_direction rw, w). split.
    + eexists. split; [|apply list_elem_of_fmap; by exists (t, rw)]. apply list_elem_of_fmap. by exists (v, w).
    + rewrite bool_decide_true by done. done.
Qed.

(** ** The statistics *)
Abbreviation stats := SkipWatermarkIterator.TableStats.
Abbreviation stats_add := SkipWatermarkIterator.add_stats.
Abbreviation stats_zero := SkipWatermarkIterator.default_stats.

Lemma stats_add_assoc a b c : stats_add (stats_add a b) c = stats_add a (stats_add b c).
Proof. unfold SkipWatermarkIterator.add_stats. simpl. f_equal; lia. Qed.
Lemma stats_add_zero_r a : stats_add a stats_zero = a.
Proof. destruct a. unfold SkipWatermarkIterator.add_stats, SkipWatermarkIterator.default_stats. simpl. f_equal; lia. Qed.
Lemma stats_add_zero_l a : stats_add stats_zero a = a.
Proof. by destruct a. Qed.

(** What skipping an entry takes off the statistics of a table. *)
Definition skip_delta (table : Z) e : stats :=
  if (UserKey.table_id (FullKey.user_key e.1) =? table)%Z
  then SkipWatermarkIterator.mk_stats (-1) (- Z.of_nat (FullKey.encoded_len e.1)) (- Z.of_nat (HummockValue.encoded_len e.2))
  else stats_zero.

Definition skip_total (table : Z) (es : list kv) : stats := foldr (λ e, stats_add (skip_delta table e)) stats_zero es.

Lemma skip_total_snoc table es e : skip_total table (es ++ [e]) = stats_add (skip_total table es) (skip_delta table e).
Proof.
  induction es as [|x es IH]; simpl; [by rewrite stats_add_zero_l, stats_add_zero_r|]. by rewrite IH, stats_add_assoc.
Qed.

Section skip.
Context {I : Type} {it : HummockIterator.t I}.
Implicit Type self : SkipWatermarkIterator.t I.

(** The statistics of a table, those not yet added included. *)
Definition stats_at self (table : Z) : stats :=
  stats_add (default stats_zero (SkipWatermarkIterator.skipped_entry_table_stats self !! table))
    (if bool_decide (SkipWatermarkIterator.last_table_id self = Some table) then SkipWatermarkIterator.last_table_stats self else stats_zero).

Definition stats_ok self : Prop :=
  SkipWatermarkIterator.last_table_id self = None → SkipWatermarkIterator.last_table_stats self = stats_zero.

Lemma add_last_table_stats_ok self :
  stats_ok self →
  let self' := SkipWatermarkIterator.add_last_table_stats self in
  stats_ok self' ∧ SkipWatermarkIterator.last_table_id self' = None ∧ (∀ table, stats_at self' table = stats_at self table) ∧
  SkipWatermarkIterator.inner self' = SkipWatermarkIterator.inner self ∧
  SkipWatermarkIterator.state self' = SkipWatermarkIterator.state self.
Proof.
  destruct self as [i st m [id|] lst]; intros Hok; unfold SkipWatermarkIterator.add_last_table_stats; simpl.
  - split; [done|]. split; [done|]. split; [|done]. intros table. unfold stats_at. simpl. destruct (decide (id = table)) as [->|Hne].
    + rewrite lookup_insert_eq, bool_decide_true by done. simpl. by rewrite stats_add_zero_r.
    + rewrite lookup_insert_ne by done. by rewrite bool_decide_false by congruence.
  - done.
Qed.

Lemma count_skipped_ok self e :
  stats_ok self →
  let self' := SkipWatermarkIterator.count_skipped self e.1 e.2 in
  stats_ok self' ∧ (∀ table, stats_at self' table = stats_add (stats_at self table) (skip_delta table e)) ∧
  SkipWatermarkIterator.inner self' = SkipWatermarkIterator.inner self ∧
  SkipWatermarkIterator.state self' = SkipWatermarkIterator.state self.
Proof.
  intros Hok. cbn zeta. unfold SkipWatermarkIterator.count_skipped.
  set (tid := UserKey.table_id (FullKey.user_key e.1)).
  set (d := SkipWatermarkIterator.mk_stats _ _ _).
  assert (∀ table, skip_delta table e = if (tid =? table)%Z then d else stats_zero) as Hd by done.
  assert (∀ (s : SkipWatermarkIterator.t I), SkipWatermarkIterator.last_table_id s = Some tid →
    ∀ table, stats_at (SkipWatermarkIterator.mk (SkipWatermarkIterator.inner s) (SkipWatermarkIterator.state s)
       (SkipWatermarkIterator.skipped_entry_table_stats s) (SkipWatermarkIterator.last_table_id s)
       (stats_add (SkipWatermarkIterator.last_table_stats s) d)) table = stats_add (stats_at s table) (skip_delta table e)) as Hadd.
  { intros s Hs table. rewrite Hd. unfold stats_at. simpl. rewrite Hs, stats_add_assoc. f_equal.
    destruct (Z.eqb_spec tid table) as [->|Hne]; [by rewrite bool_decide_true|].
    rewrite bool_decide_false by congruence. by rewrite stats_add_zero_r. }
  destruct (match SkipWatermarkIterator.last_table_id self with None => true | Some id => negb (id =? tid)%Z end) eqn:El.
  2: { destruct (SkipWatermarkIterator.last_table_id self) as [id|] eqn:Eid; [|done].
       apply negb_false_iff, Z.eqb_eq in El as ->. split; [intros H; simpl in H; congruence|]. split; [|done].
       intros table. rewrite <-(Hadd self Eid table). by rewrite Eid. }
  destruct (add_last_table_stats_ok self Hok) as (Hok' & Hn & Hst & Hi & Hs).
  set (s := SkipWatermarkIterator.add_last_table_stats self) in *.
  split; [done|]. split; [|done]. intros table. rewrite <-Hst.
  rewrite (Hadd (SkipWatermarkIterator.mk (SkipWatermarkIterator.inner s) (SkipWatermarkIterator.state s)
    (SkipWatermarkIterator.skipped_entry_table_stats s) (Some tid) (SkipWatermarkIterator.last_table_stats s)) eq_refl).
  f_equal. unfold stats_at. simpl. rewrite Hn, (Hok' Hn). by repeat case_bool_decide.
Qed.

(** ** The iterator *)
Context (faults : Prop) (seeks : FullKey.t → Prop) {spec : IteratorSpec I faults seeks}
  (dir_ok : HummockIterator.direction I = DirectionEnum.Forward) (fuel : nat).
Abbreviation stands' := (stands (I := I) (faults := faults)).
Abbreviation owns' := (owns (I := I) (faults := faults)).

(** A failed [next] of the inner iterator can be started over. *)
Hypothesis next_keeps : ∀ all e rest i, stands' all (e :: rest) i →
  runs faults (HummockIterator.next i) (stands' all rest) (owns' all).

Abbreviation watermarks_of self := (all_watermarks (SkipWatermarkIterator.state self)).

(** The entries that stay. *)
Definition unexpired ws (es : list kv) : list kv := filter (λ e, expired ws e.1 = false) es.

Definition skip_owns (all : list kv) self : Prop :=
  ∃ entries, owns' entries (SkipWatermarkIterator.inner self) ∧ all = unexpired (watermarks_of self) entries ∧
    Forall (λ e, has_vnode e.1) entries ∧ length entries < fuel ∧
    watermarks_ok (SkipWatermarkState.watermarks (SkipWatermarkIterator.state self)).

(** The remaining watermarks decide the entries ahead, and the statistics count the expired
    entries passed since the iteration started at [start]. *)
Definition walks (entries start rest : list kv) self : Prop :=
  stands' entries rest (SkipWatermarkIterator.inner self) ∧
  Forall (λ e, has_vnode e.1) entries ∧ length entries < fuel ∧
  watermarks_ok (SkipWatermarkState.watermarks (SkipWatermarkIterator.state self)) ∧
  places_sorted (SkipWatermarkState.remain_watermarks (SkipWatermarkIterator.state self)) ∧
  Forall (λ e, expired (SkipWatermarkState.remain_watermarks (SkipWatermarkIterator.state self)) e.1 = expired (watermarks_of self) e.1) rest ∧
  stats_ok self ∧
  ∃ passed, start = passed ++ rest ∧
    ∀ table, stats_at self table = skip_total table (filter (λ e, expired (watermarks_of self) e.1 = true) passed).

(** Standing at an entry that stays, or at the end. *)
Definition skip_at (entries start rest : list kv) self : Prop :=
  ∃ ahead, walks entries start ahead self ∧ rest = unexpired (watermarks_of self) ahead ∧
    match ahead with [] => True | e :: _ => expired (watermarks_of self) e.1 = false end ∧
    SkipWatermarkIterator.last_table_id self = None.

Definition skip_stands (all rest : list kv) self : Prop :=
  ∃ entries start, skip_at entries start rest self ∧ all = unexpired (watermarks_of self) entries.

Lemma walks_owns entries start rest self :
  walks entries start rest self → skip_owns (unexpired (watermarks_of self) entries) self.
Proof. intros (Hst & Hv & Hf & Hw & _). exists entries. split; [by eapply stands_owns|done]. Qed.

(** Skipping one expired entry. *)
Definition skips (n : nat) : Prop := ∀ self entries start rest,
  walks entries start rest self → length rest < n →
  runs faults (SkipWatermarkIterator.advance_loop n self)
    (λ self', watermarks_of self' = watermarks_of self ∧
       ∃ ahead, walks entries start ahead self' ∧ unexpired (watermarks_of self) ahead = unexpired (watermarks_of self) rest ∧
         match ahead with [] => True | e :: _ => expired (watermarks_of self) e.1 = false end ∧
         SkipWatermarkIterator.last_table_id self' = None)
    (skip_owns (unexpired (watermarks_of self) entries)).

(** The watermarks of the state only change by losing decided ones. *)
Definition set_remain self (remain : list remaining) : SkipWatermarkIterator.t I :=
  SkipWatermarkIterator.mk (SkipWatermarkIterator.inner self)
    (SkipWatermarkState.mk (SkipWatermarkState.watermarks (SkipWatermarkIterator.state self)) remain)
    (SkipWatermarkIterator.skipped_entry_table_stats self) (SkipWatermarkIterator.last_table_id self)
    (SkipWatermarkIterator.last_table_stats self).

Lemma walks_sorted entries start e rest self :
  walks entries start (e :: rest) self → Forall (λ x, FullKey.cmp e.1 x.1 ≠ Gt) (e :: rest) ∧ Forall (λ x, has_vnode x.1) (e :: rest).
Proof.
  intros (Hst & Hv & _). pose proof (stands_suffix _ _ _ Hst) as Hsuf. split.
  - assert (sorted DirectionEnum.Forward (e :: rest)) as [Hf _]%StronglySorted_cons.
    { rewrite <-dir_ok. eapply sorted_suffix; [done|]. by eapply owns_sorted, stands_owns. }
    constructor; [by rewrite (cmp_refl FullKey.cmp)|done].
  - destruct Hsuf as [q ->]. by apply Forall_app in Hv as [_ ?].
Qed.

Lemma walks_set_remain entries start e rest self remain :
  walks entries start (e :: rest) self → places_sorted remain →
  decides_from e.1 (SkipWatermarkState.remain_watermarks (SkipWatermarkIterator.state self)) remain →
  walks entries start (e :: rest) (set_remain self remain).
Proof.
  intros Hw Hs Hd. destruct (walks_sorted _ _ _ _ _ Hw) as [Hle Hv]. destruct Hw as (Hst & Hv' & Hf & Hok & _ & Hdec & Hrest).
  split_and!; [done..| |by destruct Hrest|by destruct Hrest].
  rewrite Forall_forall in Hle, Hv, Hdec. apply Forall_forall. intros x Hx. etrans; [|exact (Hdec x Hx)]. by apply Hd; auto.
Qed.

Lemma walks_add_last entries start rest self :
  walks entries start rest self →
  walks entries start rest (SkipWatermarkIterator.add_last_table_stats self) ∧
  SkipWatermarkIterator.last_table_id (SkipWatermarkIterator.add_last_table_stats self) = None ∧
  watermarks_of (SkipWatermarkIterator.add_last_table_stats self) = watermarks_of self.
Proof.
  intros (Hst & Hv & Hf & Hok & Hs & Hdec & Hsok & passed & Hp & Htot).
  destruct (add_last_table_stats_ok self Hsok) as (Hsok' & Hn & Hat & Hi & Hs'). split; [|by rewrite Hs'].
  unfold walks. rewrite Hi, Hs'. split_and!; [done..|]. exists passed. split; [done|]. intros table. by rewrite Hat.
Qed.

Lemma walks_skip entries start e rest self i :
  walks entries start (e :: rest) self → expired (watermarks_of self) e.1 = true → stands' entries rest i →
  walks entries start rest (SkipWatermarkIterator.set_inner (SkipWatermarkIterator.count_skipped self e.1 e.2) i).
Proof.
  intros (Hst & Hv & Hf & Hok & Hs & Hdec & Hsok & passed & Hp & Htot) He Hi.
  destruct (count_skipped_ok self e Hsok) as (Hsok' & Hat & _ & Hs'). unfold walks.
  cbn [SkipWatermarkIterator.set_inner SkipWatermarkIterator.inner SkipWatermarkIterator.state]. rewrite Hs'.
  apply Forall_cons in Hdec as [_ Hdec]. split_and!; [done..|]. exists (passed ++ [e]). rewrite <-app_assoc. split; [done|].
  intros table. change (stats_at _ table) with (stats_at (SkipWatermarkIterator.count_skipped self e.1 e.2) table).
  rewrite Hat, Htot, filter_app, filter_cons_True by done. by rewrite skip_total_snoc.
Qed.

Lemma unexpired_cons_true ws e es : expired ws e.1 = true → unexpired ws (e :: es) = unexpired ws es.
Proof. intros He. unfold unexpired. by rewrite filter_cons_False by (by rewrite He). Qed.

Lemma advance_loop_ok n : skips n.
Proof.
  induction n as [|n IH]; intros self entries start rest Hw Hn; [lia|]. cbn [SkipWatermarkIterator.advance_loop].
  pose proof Hw as (Hst & _). rewrite (stands_valid _ _ _ Hst). destruct rest as [|e rest]; cbn [mbind outcome_bind negb].
  { apply runs_ok. destruct (walks_add_last _ _ _ _ Hw) as (Hw' & Hl & He). split; [done|]. by exists []. }
  rewrite (stands_key _ _ _ _ Hst). cbn [mbind outcome_bind length] in *.
  pose proof Hw as (_ & _ & _ & _ & Hs & Hdec & _). apply Forall_cons in Hdec as [Hdec _].
  pose proof (walks_sorted _ _ _ _ _ Hw) as [_ [Hv _]%Forall_cons].
  destruct (should_delete_ok (SkipWatermarkIterator.state self) e.1 Hv Hs) as (remain & -> & Hs' & Hd). cbn [mbind outcome_bind].
  pose proof (walks_set_remain _ _ _ _ _ remain Hw Hs' Hd) as Hw'. fold (set_remain self remain). rewrite Hdec.
  destruct (expired (watermarks_of self) e.1) eqn:He; cbn [negb].
  2: { apply runs_ok. destruct (walks_add_last _ _ _ _ Hw') as (Hw'' & Hl & Heq). split; [done|]. by exists (e :: rest). }
  cbn [set_remain SkipWatermarkIterator.inner]. rewrite (stands_value _ _ _ _ Hst). cbn [mbind outcome_bind].
  fold (set_remain self remain). pose proof Hw' as (_ & Hv' & Hf & Hok & _ & _ & Hsok & _).
  destruct (count_skipped_ok (set_remain self remain) e Hsok) as (_ & _ & Hi & Hst').
  rewrite Hi, unexpired_cons_true by done.
  eapply runs_and_then; [exact (next_keeps _ _ _ _ Hst)| |].
  - intros i Hi'. pose proof (walks_skip _ _ _ _ _ i Hw' He Hi') as Hw2.
    specialize (IH _ _ _ _ Hw2 ltac:(lia)). unfold SkipWatermarkIterator.set_inner in IH at 2 3 4 5 6.
    cbn [SkipWatermarkIterator.state] in IH. rewrite Hst' in IH. exact IH.
  - intros i Hi'. exists entries. cbn [SkipWatermarkIterator.set_inner SkipWatermarkIterator.inner SkipWatermarkIterator.state].
    rewrite Hst'. done.
Qed.

(** Leaving an entry that stays. *)
Lemma walks_next entries start e rest self i :
  walks entries start (e :: rest) self → expired (watermarks_of self) e.1 = false → stands' entries rest i →
  walks entries start rest (SkipWatermarkIterator.set_inner self i).
Proof.
  intros (Hst & Hv & Hf & Hok & Hs & Hdec & Hsok & passed & Hp & Htot) He Hi. apply Forall_cons in Hdec as [_ Hdec].
  split_and!; [done..|]. exists (passed ++ [e]). rewrite <-app_assoc. split; [done|].
  intros table. cbn [SkipWatermarkIterator.set_inner SkipWatermarkIterator.state].
  rewrite filter_app, filter_cons_False by (by rewrite He). rewrite app_nil_r. exact (Htot table).
Qed.

(** The state an iteration starts from. *)
Lemma walks_start entries start self i :
  skip_owns (unexpired (watermarks_of self) entries) self → owns' entries i → stands' entries start i →
  Forall (λ e, has_vnode e.1) entries → length entries < fuel →
  walks entries start start (SkipWatermarkIterator.set_inner (SkipWatermarkIterator.reset self) i).
Proof.
  intros (_ & _ & _ & _ & _ & Hok) Hown Hst Hv Hf. split_and!; [done|done|done|done|by apply all_watermarks_sorted|by apply Forall_true|done|].
  exists []. split; [done|]. intros table. unfold stats_at. cbn -[lookup]. by rewrite lookup_empty.
Qed.

Lemma walks_settle entries start rest self :
  walks entries start rest self →
  runs faults (SkipWatermarkIterator.advance_key_and_watermark fuel self)
    (λ self', watermarks_of self' = watermarks_of self ∧ skip_at entries start (unexpired (watermarks_of self) rest) self')
    (skip_owns (unexpired (watermarks_of self) entries)).
Proof.
  intros Hw. pose proof Hw as (Hst & _ & Hf & _). pose proof (suffix_length _ _ (stands_suffix _ _ _ Hst)).
  eapply runs_weaken; [apply (advance_loop_ok fuel self entries start rest Hw); lia| |done].
  intros self' (Heq & ahead & Hw' & Hun & Hhd & Hl). split; [done|]. exists ahead. rewrite Heq. by rewrite Hun.
Qed.

(** [next] keeps the place the iteration started from. *)
Lemma skip_next_at entries start e rest self :
  skip_at entries start (e :: rest) self →
  runs faults (SkipWatermarkIterator.next fuel self)
    (λ self', watermarks_of self' = watermarks_of self ∧ skip_at entries start rest self')
    (skip_owns (unexpired (watermarks_of self) entries)).
Proof.
  intros (ahead & Hw & Hr & Hhd & Hl). destruct ahead as [|x ahead]; [done|].
  unfold unexpired in Hr. rewrite filter_cons_True in Hr by done. injection Hr as -> ->. fold (unexpired (watermarks_of self) ahead).
  unfold SkipWatermarkIterator.next. pose proof Hw as (Hst & Hv & Hf & Hok & _). eapply runs_and_then; [exact (next_keeps _ _ _ _ Hst)| |].
  - intros i Hi. pose proof (walks_next _ _ _ _ _ i Hw Hhd Hi) as Hw'.
    unfold SkipWatermarkState.has_watermark. cbn [SkipWatermarkIterator.set_inner SkipWatermarkIterator.state].
    destruct (SkipWatermarkState.remain_watermarks (SkipWatermarkIterator.state self)) eqn:Er; [|exact (walks_settle _ _ _ _ Hw')].
    apply runs_ok. split; [done|]. exists ahead. split; [done|]. split; [done|]. split; [|done].
    pose proof Hw' as (_ & _ & _ & _ & _ & Hdec & _). destruct ahead as [|y ahead]; [done|].
    apply Forall_cons in Hdec as [Hdec _]. rewrite <-Hdec. simpl. rewrite Er.
    unfold expired. by destruct (TableKey.split_vnode _) as [[? ?]|].
  - intros i Hi. by exists entries.
Qed.

Lemma skip_next all e rest self :
  skip_stands all (e :: rest) self → runs faults (SkipWatermarkIterator.next fuel self) (skip_stands all rest) (skip_owns all).
Proof.
  intros (entries & start & Hat & ->). eapply runs_weaken; [by eapply skip_next_at| |done].
  intros self' [Heq Hat']. exists entries, start. by rewrite Heq.
Qed.

(** Starting over at the entries [op] finds. *)
Lemma skip_restart_at (op : I → step I) (P : kv → Prop) `{!∀ e, Decision (P e)} entries self :
  (∀ i, owns' entries i → runs faults (op i) (stands' entries (filter P entries)) (owns' entries)) →
  owns' entries (SkipWatermarkIterator.inner self) → Forall (λ e, has_vnode e.1) entries → length entries < fuel →
  watermarks_ok (SkipWatermarkState.watermarks (SkipWatermarkIterator.state self)) →
  runs faults (and_then (op (SkipWatermarkIterator.inner (SkipWatermarkIterator.reset self)))
      (SkipWatermarkIterator.set_inner (SkipWatermarkIterator.reset self))
      (λ i, SkipWatermarkIterator.advance_key_and_watermark fuel (SkipWatermarkIterator.set_inner (SkipWatermarkIterator.reset self) i)))
    (λ self', watermarks_of self' = watermarks_of self ∧
       skip_at entries (filter P entries) (filter P (unexpired (watermarks_of self) entries)) self')
    (skip_owns (unexpired (watermarks_of self) entries)).
Proof.
  intros Hop Hown Hv Hf Hok. eapply runs_and_then; [exact (Hop _ Hown)| |].
  - intros i Hi. assert (skip_owns (unexpired (watermarks_of self) entries) self) as Ho by by exists entries.
    pose proof (walks_start entries _ self i Ho ltac:(by eapply stands_owns) Hi Hv Hf) as Hw.
    eapply runs_weaken; [exact (walks_settle _ _ _ _ Hw)| |done]. intros self' [Heq Hsk]. split; [exact Heq|].
    assert (filter P (unexpired (watermarks_of self) entries) = unexpired (watermarks_of self) (filter P entries)) as ->; [|exact Hsk].
    unfold unexpired. rewrite !list_filter_filter. apply list_filter_iff. tauto.
  - intros i Hi. by exists entries.
Qed.

Lemma skip_restart (op : I → step I) (P : kv → Prop) `{!∀ e, Decision (P e)} all self :
  (∀ entries i, owns' entries i → runs faults (op i) (stands' entries (filter P entries)) (owns' entries)) →
  skip_owns all self →
  runs faults (and_then (op (SkipWatermarkIterator.inner (SkipWatermarkIterator.reset self)))
      (SkipWatermarkIterator.set_inner (SkipWatermarkIterator.reset self))
      (λ i, SkipWatermarkIterator.advance_key_and_watermark fuel (SkipWatermarkIterator.set_inner (SkipWatermarkIterator.reset self) i)))
    (skip_stands all (filter P all)) (skip_owns all).
Proof.
  intros Hop (entries & Hown & -> & Hv & Hf & Hok). eapply runs_weaken; [apply (skip_restart_at op P entries); [by intros i; apply Hop|done..]| |done].
  intros self' [Heq Hat]. exists entries, (filter P entries). by rewrite Heq.
Qed.

(** Skipping the expired entries of a lawful iterator is lawful. *)
Definition skip_spec : IteratorSpec (H := SkipWatermarkIterator.skip_iter fuel) (SkipWatermarkIterator.t I) faults seeks.
Proof.
  refine (Build_IteratorSpec _ (SkipWatermarkIterator.skip_iter fuel) _ _ skip_owns skip_stands _ _ _ _ _ _ _ _ _);
    cbn [HummockIterator.direction HummockIterator.next HummockIterator.key HummockIterator.value
         HummockIterator.is_valid HummockIterator.rewind HummockIterator.seek SkipWatermarkIterator.skip_iter].
  - intros all self (entries & Hown & -> & _). apply sorted_filter. rewrite <-dir_ok. by eapply owns_sorted.
  - intros all rest self (entries & start & (ahead & Hw & _) & ->). by eapply walks_owns.
  - intros all rest self (entries & start & (ahead & (Hst & _) & -> & _) & ->).
    destruct (stands_suffix _ _ _ Hst) as [q ->]. exists (unexpired (watermarks_of self) q). apply filter_app.
  - intros all rest self (entries & start & (ahead & (Hst & _) & -> & Hhd & _) & _). rewrite (stands_valid _ _ _ Hst).
    destruct ahead as [|e ahead]; [done|]. unfold unexpired. by rewrite filter_cons_True.
  - intros all e rest self (entries & start & (ahead & (Hst & _) & Hr & Hhd & _) & _). destruct ahead as [|x ahead]; [done|].
    unfold unexpired in Hr. rewrite filter_cons_True in Hr by done. injection Hr as -> _. exact (stands_key _ _ _ _ Hst).
  - intros all e rest self (entries & start & (ahead & (Hst & _) & Hr & Hhd & _) & _). destruct ahead as [|x ahead]; [done|].
    unfold unexpired in Hr. rewrite filter_cons_True in Hr by done. injection Hr as -> _. exact (stands_value _ _ _ _ Hst).
  - intros all e rest self Hst. eapply runs_weaken; [by eapply skip_next|done|done].
  - intros all self Hown. pose proof (skip_restart HummockIterator.rewind (λ _, True) all self) as H.
    eapply runs_weaken; [apply H; [|done]| |done].
    + intros entries i Hi. rewrite filter_all by done. by apply owns_rewind.
    + intros self'. by rewrite filter_all.
  - intros all k self Hk Hown. apply (skip_restart (λ i, HummockIterator.seek i k)); [|done].
    intros entries i Hi. rewrite <-dir_ok. by apply owns_seek.
Defined.
End skip.
