(* ===== verification/SharedBuffer.v ===== *)
(** * Shared buffer batches

    [src/storage/src/hummock/shared_buffer/shared_buffer_batch.rs] and [range_overlap] of
    [hummock/utils.rs]: the immutable in-memory batches of a table, point lookups, and the
    iterator over them in both directions (new or old values).  The gauges and memory trackers
    that account for a batch are not modelled; batch ids come from the caller.  The theorems are
    in [SharedBufferSpec.v]; [MergeImm.v] merges batches. *)

From Stdlib Require Import ZArith Lia.
From S2P Require Import Prelude Order Bytes Epoch Bits Bitmap Vnode Key KeySpec KeyRange Sst Block Iter.

(** [slice::binary_search_by] on a slice sorted with respect to [f]: [inr i] is [Ok(i)], [inl i]
    is [Err(i)]. *)
Fixpoint binary_search_by {A} (f : A → comparison) (l : list A) : nat + nat :=
  match l with
  | [] => inl 0
  | x :: l =>
      match f x with
      | Lt => match binary_search_by f l with inl i => inl (S i) | inr i => inr (S i) end
      | Eq => inr 0
      | Gt => inl 0
      end
  end.

(** [&v[a..b]] *)
Definition sub_slice {A} (l : list A) (a b : nat) : outcome (list A) :=
  if (a <=? b) && (b <=? length l) then Ret (take (b - a) (drop a l)) else Panic.

(** ** [range_overlap] *)
Definition range_overlap {B} (cmp : B → B → comparison) (search_key_range : Bound B * Bound B)
    (inclusive_start_key : B) (end_key : Bound B) : bool :=
  let too_left :=
    match search_key_range.1, end_key with
    | Included range_start, Included inclusive_end_key => cmp_ltb cmp inclusive_end_key range_start
    | Included range_start, Excluded end_key
    | Excluded range_start, Included end_key
    | Excluded range_start, Excluded end_key => cmp_leb cmp end_key range_start
    | Unbounded, _ | _, Unbounded => false
    end in
  let too_right :=
    match search_key_range.2 with
    | Included range_end => cmp_ltb cmp range_end inclusive_start_key
    | Excluded range_end => cmp_leb cmp range_end inclusive_start_key
    | Unbounded => false
    end in
  negb too_left && negb too_right.

Module SharedBufferValue.

Inductive t := Insert (v : list byte) | Update (v : list byte) | Delete.

#[global] Instance t_eq_dec : EqDecision t.
Proof. solve_decision. Defined.

(** [From<SharedBufferValue> for HummockValue] *)
Definition into (self : t) : HummockValue.t :=
  match self with Insert v | Update v => HummockValue.Put v | Delete => HummockValue.Delete end.

Definition is_insert (self : t) : bool := match self with Insert _ => true | _ => false end.

End SharedBufferValue.

Abbreviation SharedBufferItem := (TableKey.t * SharedBufferValue.t)%type.
Abbreviation VersionedSharedBufferValue := (Z * SharedBufferValue.t)%type.

Module SharedBufferKeyEntry.

Record t := mk { key : TableKey.t; value_offset : nat }.

Definition value_end_offset {A} (i : nat) (entries : list t) (values : list A) : nat :=
  match entries !! (i + 1) with Some entry => value_offset entry | None => length values end.

Definition values {A} (i : nat) (entries : list t) (vals : list A) : outcome (list A) :=
  entry ← unwrap (entries !! i);
  sub_slice vals (value_offset entry) (value_end_offset i entries vals).

End SharedBufferKeyEntry.

(** ** [SharedBufferBatchInner] *)
Module SharedBufferBatchInner.

Record t := mk {
  entries : list SharedBufferKeyEntry.t;
  new_values : list VersionedSharedBufferValue;
  old_values : option (list (list byte));
  epochs : list Z;
  size : Z;
  batch_id : Z
}.

Definition new (epoch spill_offset : Z) (payload : list SharedBufferItem) (old_values : option (list (list byte)))
    (size batch_id : Z) : outcome t :=
  rassert (match payload with [] => false | _ => true end);;
  rassert (match old_values with Some vs => length vs =? length payload | None => true end);;
  let epoch_with_gap := EpochWithGap.new epoch spill_offset in
  Ret (mk (imap (λ i p, SharedBufferKeyEntry.mk (fst p) i) payload)
          ((λ p : SharedBufferItem, (epoch_with_gap, snd p)) <$> payload)
          old_values [epoch] size batch_id).

Definition values (self : t) (i : nat) : outcome (list VersionedSharedBufferValue) :=
  SharedBufferKeyEntry.values i (entries self) (new_values self).

Definition new_with_multi_epoch_batches (epochs : list Z) (entries : list SharedBufferKeyEntry.t)
    (new_values : list VersionedSharedBufferValue) (old_values : option (list (list byte)))
    (size imm_id : Z) : outcome t :=
  rassert (length entries <=? length new_values);;
  rassert (match entries with [] => false | _ => true end);;
  Ret (mk entries new_values old_values epochs size imm_id).

(** The scan over the versions of one key. *)
Fixpoint first_visible (read_epoch : Z) (vs : list VersionedSharedBufferValue) : option (HummockValue.t * Z) :=
  match vs with
  | [] => None
  | (e, v) :: vs =>
      if (read_epoch <? EpochWithGap.pure_epoch e)%Z then first_visible read_epoch vs
      else Some (SharedBufferValue.into v, e)
  end.

Definition get_value (self : t) (table_key : TableKey.t) (read_epoch : Z)
  : outcome (option (HummockValue.t * Z)) :=
  match binary_search_by (λ m, bytes_cmp (SharedBufferKeyEntry.key m) table_key) (entries self) with
  | inr i =>
      entry ← unwrap (entries self !! i);
      rassert (bool_decide (SharedBufferKeyEntry.key entry = table_key));;
      vs ← values self i;
      Ret (first_visible read_epoch vs)
  | inl _ => Ret None
  end.

End SharedBufferBatchInner.

(** ** [SharedBufferBatch] *)
Module SharedBufferBatch.

Record t := mk { inner : SharedBufferBatchInner.t; table_id : Z }.

Definition start_table_key (self : t) : outcome TableKey.t :=
  SharedBufferKeyEntry.key <$> unwrap (head (SharedBufferBatchInner.entries (inner self))).
Definition end_table_key (self : t) : outcome TableKey.t :=
  SharedBufferKeyEntry.key <$> unwrap (last (SharedBufferBatchInner.entries (inner self))).

Definition filter (self : t) (table_id_ : Z) (table_key_range : TableKeyRange) : outcome bool :=
  if (table_id self =? table_id_)%Z then
    start ← start_table_key self; end_ ← end_table_key self;
    Ret (range_overlap bytes_cmp table_key_range start (Included end_))
  else Ret false.

Definition min_epoch (self : t) : outcome Z := unwrap (head (SharedBufferBatchInner.epochs (inner self))).
Definition max_epoch (self : t) : outcome Z := unwrap (last (SharedBufferBatchInner.epochs (inner self))).
Definition key_count (self : t) : nat := length (SharedBufferBatchInner.entries (inner self)).
Definition value_count (self : t) : nat := length (SharedBufferBatchInner.new_values (inner self)).
Definition has_old_value (self : t) : bool :=
  match SharedBufferBatchInner.old_values (inner self) with Some _ => true | None => false end.

Definition get (self : t) (table_key : TableKey.t) (read_epoch : Z) : outcome (option (HummockValue.t * Z)) :=
  SharedBufferBatchInner.get_value (inner self) table_key read_epoch.

(** The probe of [range_exists]: where a key lies with respect to the range. *)
Definition range_probe (table_key_range : TableKeyRange) (m : SharedBufferKeyEntry.t) : comparison :=
  let key := SharedBufferKeyEntry.key m in
  let too_left := match table_key_range.1 with
                  | Included range_start => bytes_ltb key range_start
                  | Excluded range_start => bytes_leb key range_start
                  | Unbounded => false
                  end in
  if too_left then Lt
  else
    let too_right := match table_key_range.2 with
                     | Included range_end => bytes_ltb range_end key
                     | Excluded range_end => bytes_leb range_end key
                     | Unbounded => false
                     end in
    if too_right then Gt else Eq.

Definition range_exists (self : t) (table_key_range : TableKeyRange) : bool :=
  match binary_search_by (range_probe table_key_range) (SharedBufferBatchInner.entries (inner self)) with
  | inr _ => true
  | inl _ => false
  end.

Section size.
(** [size_of::<Bytes>()] *)
Context (size_of_Bytes : nat).

Definition measure_batch_size (batch_items : list SharedBufferItem) (old_values : option (list (list byte))) : nat * nat :=
  let old_value_size := match old_values with
                        | Some vs => sum_list ((λ v, size_of_Bytes + length v) <$> vs)
                        | None => 0
                        end in
  let kv_size := sum_list ((λ p : SharedBufferItem,
    length p.1 + match p.2 with SharedBufferValue.Insert v | SharedBufferValue.Update v => length v
                           | SharedBufferValue.Delete => 0 end) <$> batch_items) in
  (kv_size + old_value_size, old_value_size).
End size.

Definition build_shared_buffer_batch (epoch spill_offset : Z) (sorted_items : list SharedBufferItem)
    (old_values : option (list (list byte))) (size : Z) (table_id : Z) (batch_id : Z) : outcome t :=
  inner ← SharedBufferBatchInner.new epoch spill_offset sorted_items old_values size batch_id;
  Ret (mk inner table_id).

End SharedBufferBatch.

(** ** [SharedBufferBatchIterator] *)
Module SharedBufferBatchIterator.

(** [D] and [IS_NEW_VALUE] are the parameters of the type. *)
Record t (D : DirectionEnum.t) (IS_NEW_VALUE : bool) := mk {
  inner : SharedBufferBatchInner.t;
  current_entry_idx : nat;
  current_value_idx : nat;
  value_end_offset : nat;
  table_id : Z
}.
Arguments mk {D IS_NEW_VALUE} inner current_entry_idx current_value_idx value_end_offset table_id.
Arguments inner {D IS_NEW_VALUE} t.
Arguments current_entry_idx {D IS_NEW_VALUE} t.
Arguments current_value_idx {D IS_NEW_VALUE} t.
Arguments value_end_offset {D IS_NEW_VALUE} t.
Arguments table_id {D IS_NEW_VALUE} t.

Section iter.
Context {D : DirectionEnum.t} {IS_NEW_VALUE : bool}.
Abbreviation iter := (t D IS_NEW_VALUE).
Abbreviation entries self := (SharedBufferBatchInner.entries (inner self)).
Abbreviation new_values self := (SharedBufferBatchInner.new_values (inner self)).

Definition new (inner : SharedBufferBatchInner.t) (table_id : Z) : outcome iter :=
  rassert (IS_NEW_VALUE || match SharedBufferBatchInner.old_values inner with Some _ => true | None => false end);;
  Ret (mk inner 0 0 0 table_id).

Definition is_valid_entry_idx (self : iter) : bool := current_entry_idx self <? length (entries self).

Definition set_entry (self : iter) (i : nat) : iter :=
  mk (inner self) i (current_value_idx self) (value_end_offset self) (table_id self).
Definition set_value (self : iter) (i : nat) : iter :=
  mk (inner self) (current_entry_idx self) i (value_end_offset self) (table_id self).

Definition advance_to_next_entry (self : iter) : iter :=
  match D with
  | DirectionEnum.Forward => set_entry self (current_entry_idx self + 1)
  | DirectionEnum.Backward =>
      set_entry self (if current_entry_idx self =? 0 then length (entries self) else current_entry_idx self - 1)
  end.

Definition reset_value_idx (self : iter) : outcome iter :=
  entry ← unwrap (entries self !! current_entry_idx self);
  Ret (mk (inner self) (current_entry_idx self) (SharedBufferKeyEntry.value_offset entry)
         (SharedBufferKeyEntry.value_end_offset (current_entry_idx self) (entries self) (new_values self)) (table_id self)).

(** [reset_value_idx] at an entry that exists. *)
Definition reset_if_valid (self : iter) : outcome iter :=
  if is_valid_entry_idx self then reset_value_idx self else Ret self.

Definition advance_to_next_value (self : iter) : outcome iter :=
  if current_value_idx self + 1 <? value_end_offset self then Ret (set_value self (current_value_idx self + 1))
  else reset_if_valid (advance_to_next_entry self).

(** The inner loop over the inserts of one key, [n] values from the current one. *)
Fixpoint skip_inserts (n : nat) (self : iter) : outcome iter :=
  match n with
  | O => Ret self
  | S n =>
      v ← unwrap (new_values self !! current_value_idx self);
      if SharedBufferValue.is_insert v.2 then skip_inserts n (set_value self (current_value_idx self + 1)) else Ret self
  end.

(** The outer loop over the entries, which every iteration leaves behind. *)
Fixpoint until_old_value (n : nat) (self : iter) : outcome iter :=
  match n with
  | O => Panic
  | S n =>
      self ← skip_inserts (value_end_offset self - current_value_idx self) self;
      if value_end_offset self <=? current_value_idx self then
        let self := advance_to_next_entry self in
        if is_valid_entry_idx self then self ← reset_value_idx self; until_old_value n self else Ret self
      else Ret self
  end.

Definition advance_until_valid_old_value (self : iter) : outcome iter :=
  if is_valid_entry_idx self then until_old_value (S (length (entries self))) self else Ret self.

(** The old values only, when the iterator is over them. *)
Definition settle (self : iter) : step iter :=
  if IS_NEW_VALUE then ok self else self ← advance_until_valid_old_value self; ok self.

Definition next (self : iter) : step iter := self ← advance_to_next_value self; settle self.

Definition key (self : iter) : outcome FullKey.t :=
  entry ← unwrap (entries self !! current_entry_idx self);
  v ← unwrap (new_values self !! current_value_idx self);
  Ret (FullKey.new_with_gap_epoch (table_id self) (SharedBufferKeyEntry.key entry) v.1).

Definition value (self : iter) : outcome HummockValue.t :=
  if IS_NEW_VALUE then
    v ← unwrap (new_values self !! current_value_idx self); Ret (SharedBufferValue.into v.2)
  else
    vs ← unwrap (SharedBufferBatchInner.old_values (inner self));
    v ← unwrap (vs !! current_value_idx self);
    Ret (HummockValue.Put v).

Definition is_valid (self : iter) : outcome bool := Ret (is_valid_entry_idx self).

Definition rewind (self : iter) : step iter :=
  i ← match D with
      | DirectionEnum.Forward => Ret 0
      | DirectionEnum.Backward => index_sub (length (entries self)) 1
      end;
  self ← reset_value_idx (set_entry self i);
  settle self.

(** The versions newer than the epoch sought, at most [n]. *)
Fixpoint skip_newer (n : nat) (epoch : Z) (self : iter) : outcome iter :=
  match n with
  | O => Ret self
  | S n =>
      v ← unwrap (new_values self !! current_value_idx self);
      if (v.1 <=? epoch)%Z then Ret self else skip_newer n epoch (set_value self (current_value_idx self + 1))
  end.

(** The position [seek] takes before old values are considered. *)
Definition seek_position (self : iter) (k : FullKey.t) : outcome iter :=
  match binary_search_by (λ probe, bytes_cmp (SharedBufferKeyEntry.key probe) (UserKey.table_key (FullKey.user_key k)))
          (entries self) with
  | inr i =>
      self ← reset_value_idx (set_entry self i);
      self ← skip_newer (value_end_offset self - current_value_idx self) (FullKey.epoch_with_gap k) self;
      if current_value_idx self =? value_end_offset self then reset_if_valid (advance_to_next_entry self) else Ret self
  | inl i =>
      match D return outcome iter with
      | DirectionEnum.Forward => reset_if_valid (set_entry self i)
      | DirectionEnum.Backward =>
          if i =? 0 then Ret (set_entry self (length (entries self)))
          else reset_value_idx (set_entry self (i - 1))
      end
  end.

Definition seek (self : iter) (k : FullKey.t) : step iter := self ← seek_position self k; settle self.

#[global] Instance batch_iter : HummockIterator.t iter := {|
  HummockIterator.direction := D;
  HummockIterator.next := next;
  HummockIterator.key := key;
  HummockIterator.value := value;
  HummockIterator.is_valid := is_valid;
  HummockIterator.rewind := rewind;
  HummockIterator.seek := seek
|}.
End iter.

(** *** Walking whole keys, forward *)
Abbreviation forward := (t DirectionEnum.Forward true).

Definition advance_to_next_key (self : forward) : outcome forward := reset_if_valid (advance_to_next_entry self).

(** [SharedBufferVersionedEntryRef]: the key, its new values and its old values. *)
Definition current_key_entry (self : forward)
  : outcome (TableKey.t * list VersionedSharedBufferValue * option (list (list byte))) :=
  entry ← unwrap (SharedBufferBatchInner.entries (inner self) !! current_entry_idx self);
  vs ← sub_slice (SharedBufferBatchInner.new_values (inner self)) (current_value_idx self) (value_end_offset self);
  old ← match SharedBufferBatchInner.old_values (inner self) with
        | Some olds => Some <$> sub_slice olds (current_value_idx self) (value_end_offset self)
        | None => Ret None
        end;
  Ret (SharedBufferKeyEntry.key entry, vs, old).

End SharedBufferBatchIterator.
