(* ===== verification/SharedBufferSpec.v ===== *)
(** * Batches as sorted lists of versions

    A batch of [SharedBuffer.v] stores the versions of its keys in one vector with offsets.
    [holds_groups] relates it to the list of keys with their versions; the constructors
    establish it, the forward iterator over a batch meets the contract of [IterSpec.v], and a
    point lookup returns the newest readable version. *)

From Stdlib Require Import ZArith Lia.
From S2P Require Import Prelude Order Bytes Epoch Bits Bitmap Vnode Key KeySpec KeyOrder KeyRange Sst SstSpec Block Iter IterSpec UserIter UserIterSpec SharedBuffer.

Abbreviation version := VersionedSharedBufferValue.
Abbreviation group := (TableKey.t * list version)%type.
Implicit Types (g : group) (gs : list group) (inner : SharedBufferBatchInner.t).

(** ** Grouped versions *)

Fixpoint entries_at (off : nat) gs : list SharedBufferKeyEntry.t :=
  match gs with
  | [] => []
  | (k, vs) :: gs => SharedBufferKeyEntry.mk k off :: entries_at (off + length vs) gs
  end.

Abbreviation versions_of gs := (mjoin (snd <$> gs)).
Abbreviation offset_of gs i := (length (versions_of (take i gs))).

Definition kv_of (table : Z) (k : TableKey.t) (v : version) : kv :=
  (FullKey.new_with_gap_epoch table k v.1, SharedBufferValue.into v.2).

Definition group_kvs (table : Z) g : list kv := kv_of table g.1 <$> g.2.
Definition kvs_of (table : Z) gs : list kv := mjoin (group_kvs table <$> gs).

(** Keys strictly ascend; the versions of a key strictly descend. *)
Definition groups_ok gs : Prop :=
  StronglySorted (λ g1 g2, bytes_cmp g1.1 g2.1 = Lt) gs ∧
  Forall (λ g, g.2 ≠ [] ∧ StronglySorted (λ v1 v2 : version, (v2.1 < v1.1)%Z) g.2) gs.

Record holds_groups (inner : SharedBufferBatchInner.t) (gs : list group) : Prop := {
  hg_entries : SharedBufferBatchInner.entries inner = entries_at 0 gs;
  hg_values : SharedBufferBatchInner.new_values inner = versions_of gs;
  hg_ok : groups_ok gs
}.

Lemma entries_lookup off gs i g :
  gs !! i = Some g → entries_at off gs !! i = Some (SharedBufferKeyEntry.mk g.1 (off + offset_of gs i)).
Proof.
  revert off i. induction gs as [|[k vs] gs IH]; intros off [|i] Hi; [done|done| |].
  - injection Hi as <-. simpl. by rewrite Nat.add_0_r.
  - cbn [entries_at lookup list_lookup] in *. rewrite (IH _ _ Hi). cbn [take]. rewrite fmap_cons, join_cons, length_app.
    simpl. by rewrite Nat.add_assoc.
Qed.

Lemma entries_length off gs : length (entries_at off gs) = length gs.
Proof. revert off. induction gs as [|[k vs] gs IH]; intros off; simpl; [done|by rewrite IH]. Qed.

Lemma offset_S gs i g : gs !! i = Some g → offset_of gs (S i) = offset_of gs i + length g.2.
Proof.
  intros Hi. rewrite (take_S_r _ _ _ Hi), fmap_app, join_app, length_app. simpl. by rewrite app_nil_r.
Qed.

Section batch.
Context (table : Z) (inner : SharedBufferBatchInner.t) (gs : list group) (H : holds_groups inner gs).

Lemma entry_at i g : gs !! i = Some g →
  SharedBufferBatchInner.entries inner !! i = Some (SharedBufferKeyEntry.mk g.1 (offset_of gs i)).
Proof. intros Hi. rewrite (hg_entries _ _ H). by apply entries_lookup. Qed.

Lemma entry_count : length (SharedBufferBatchInner.entries inner) = length gs.
Proof. rewrite (hg_entries _ _ H). apply entries_length. Qed.

Lemma value_end i g : gs !! i = Some g →
  SharedBufferKeyEntry.value_end_offset i (SharedBufferBatchInner.entries inner) (SharedBufferBatchInner.new_values inner) =
  offset_of gs i + length g.2.
Proof.
  intros Hi. unfold SharedBufferKeyEntry.value_end_offset. rewrite <-(offset_S _ _ _ Hi), Nat.add_1_r.
  destruct (gs !! S i) as [g'|] eqn:Hi'; [by rewrite (entry_at _ _ Hi')|].
  assert (SharedBufferBatchInner.entries inner !! S i = None) as ->.
  { apply lookup_ge_None. rewrite entry_count. by apply lookup_ge_None. }
  rewrite (hg_values _ _ H), (firstn_all2 gs); [done|]. by apply lookup_ge_None in Hi'.
Qed.

Lemma values_split i g : gs !! i = Some g →
  SharedBufferBatchInner.new_values inner = versions_of (take i gs) ++ g.2 ++ versions_of (drop (S i) gs).
Proof.
  intros Hi. rewrite (hg_values _ _ H). rewrite <-(take_drop_middle _ _ _ Hi) at 1.
  by rewrite fmap_app, fmap_cons, join_app, join_cons.
Qed.

Lemma version_at i g j : gs !! i = Some g → j < length g.2 →
  SharedBufferBatchInner.new_values inner !! (offset_of gs i + j) = g.2 !! j.
Proof.
  intros Hi Hj. rewrite (values_split i g Hi), lookup_app_r by lia.
  rewrite lookup_app_l by lia. f_equal. lia.
Qed.

Lemma values_ok i g : gs !! i = Some g → SharedBufferBatchInner.values inner i = Ret g.2.
Proof.
  intros Hi. unfold SharedBufferBatchInner.values, SharedBufferKeyEntry.values. rewrite (entry_at i g Hi). cbn [unwrap mbind outcome_bind].
  rewrite (value_end i g Hi). cbn [SharedBufferKeyEntry.value_offset]. unfold sub_slice.
  assert (offset_of gs i + length g.2 ≤ length (SharedBufferBatchInner.new_values inner)) as Hle.
  { rewrite (values_split i g Hi), !length_app. lia. }
  rewrite (proj2 (Nat.leb_le _ _)), (proj2 (Nat.leb_le _ _)) by lia. cbn [andb].
  rewrite (values_split i g Hi), drop_app_length, take_app_length'; [done|lia].
Qed.
End batch.

(** ** Order of the entries *)

Definition kv_lt (x y : kv) : Prop := FullKey.cmp x.1 y.1 = Lt.

Lemma strict_sorted l : StronglySorted kv_lt l → sorted DirectionEnum.Forward l ∧ coherent l.
Proof.
  intros Hs. split.
  - induction Hs as [|x l Hs IH Hf]; [constructor|]. constructor; [done|]. eapply Forall_impl; [exact Hf|].
    unfold kv_lt, kv_le. simpl. by intros y ->.
  - induction Hs as [|x l Hs IH Hf]; [by intros x y ?%elem_of_nil|]. rewrite Forall_forall in Hf.
    intros y z [->|Hy]%elem_of_cons [->|Hz]%elem_of_cons E; [done| | |by apply IH].
    + specialize (Hf z Hz). unfold kv_lt in Hf. by rewrite E, (cmp_refl FullKey.cmp) in Hf.
    + specialize (Hf y Hy). unfold kv_lt in Hf. by rewrite E, (cmp_refl FullKey.cmp) in Hf.
Qed.

Lemma kv_of_key table k v : ukey (kv_of table k v) = UserKey.mk table k.
Proof. done. Qed.

Lemma user_key_cmp_same table k1 k2 : UserKey.cmp (UserKey.mk table k1) (UserKey.mk table k2) = bytes_cmp k1 k2.
Proof. unfold UserKey.cmp. simpl. by rewrite Z.compare_refl. Qed.

Lemma group_kvs_sorted table g :
  StronglySorted (λ v1 v2 : version, (v2.1 < v1.1)%Z) g.2 → StronglySorted kv_lt (group_kvs table g).
Proof.
  unfold group_kvs. induction 1 as [|v vs Hs IH Hf]; [constructor|]. rewrite fmap_cons. constructor; [done|].
  apply Forall_fmap. eapply Forall_impl; [exact Hf|]. intros v' Hv. unfold kv_lt, FullKey.cmp, compose. simpl.
  rewrite user_key_cmp_same, (cmp_refl bytes_cmp). simpl. by apply Z.compare_lt_iff.
Qed.

Lemma kvs_elem table gs e : e ∈ kvs_of table gs ↔ ∃ g v, g ∈ gs ∧ v ∈ g.2 ∧ e = kv_of table g.1 v.
Proof.
  unfold kvs_of. rewrite list_elem_of_join. split.
  - intros (l & He & (g & -> & Hg)%list_elem_of_fmap). apply list_elem_of_fmap in He as (v & -> & Hv). by exists g, v.
  - intros (g & v & Hg & Hv & ->). exists (group_kvs table g). split; apply list_elem_of_fmap; by eexists.
Qed.

Lemma kvs_sorted table gs : groups_ok gs → StronglySorted kv_lt (kvs_of table gs).
Proof.
  intros [Hk Hv]. induction Hk as [|g gs Hk IH Hf]; [constructor|]. apply Forall_cons in Hv as [[_ Hg] Hv].
  unfold kvs_of. rewrite fmap_cons, join_cons. apply StronglySorted_app. split; [|by split; [apply group_kvs_sorted|apply IH]].
  intros x y (v & -> & Hx)%list_elem_of_fmap (g' & v' & Hg' & _ & ->)%kvs_elem. rewrite Forall_forall in Hf.
  apply user_lt_full. simpl. rewrite user_key_cmp_same. by apply Hf.
Qed.

(** ** The search *)
Lemma search_ok k off gs :
  StronglySorted (λ g1 g2, bytes_cmp g1.1 g2.1 = Lt) gs →
  ∃ i, i ≤ length gs ∧ Forall (λ g, bytes_cmp g.1 k = Lt) (take i gs) ∧
    Forall (λ g, bytes_cmp g.1 k ≠ Lt) (drop i gs) ∧
    binary_search_by (λ m, bytes_cmp (SharedBufferKeyEntry.key m) k) (entries_at off gs) =
      match gs !! i with Some g => if bool_decide (g.1 = k) then inr i else inl i | None => inl i end.
Proof.
  intros Hs. revert off. induction Hs as [|[k0 vs] gs Hs IH Hf]; intros off.
  { exists 0. split; [done|]. by repeat constructor. }
  cbn [entries_at binary_search_by SharedBufferKeyEntry.key].
  destruct (bytes_cmp k0 k) eqn:E.
  - exists 0. apply (cmp_eq_iff bytes_cmp) in E as ->. simpl. rewrite bool_decide_true by done. split; [lia|].
    split; [constructor|]. split; [|done]. constructor; [by rewrite (cmp_refl bytes_cmp)|].
    eapply Forall_impl; [exact Hf|]. simpl. intros g Hg. by rewrite (cmp_antisym bytes_cmp k), Hg.
  - destruct (IH (off + length vs)) as (i & Hi & Hlt & Hge & ->). exists (S i). simpl. split; [lia|].
    split; [by constructor|]. split; [done|]. destruct (gs !! i); [by case_bool_decide|done].
  - exists 0. simpl. rewrite bool_decide_false by (intros ->; by rewrite (cmp_refl bytes_cmp) in E). split; [lia|].
    split; [constructor|]. split; [|done]. constructor; [simpl; by rewrite E|]. eapply Forall_impl; [exact Hf|]. simpl.
    intros g Hg E'. apply (cmp_gt_lt bytes_cmp) in E. pose proof (cmp_lt_trans bytes_cmp _ _ _ E (cmp_lt_trans bytes_cmp _ _ _ Hg E')) as C.
    by rewrite (cmp_refl bytes_cmp) in C.
Qed.

(** ** The forward iterator *)
Section forward.
Import SharedBufferBatchIterator.
Context (table : Z).
Abbreviation fwd := (t DirectionEnum.Forward true).
Implicit Type it : fwd.

(** At version [j] of key [i]. *)
Definition at_version gs i j it : Prop :=
  ∃ g, gs !! i = Some g ∧ j < length g.2 ∧ current_entry_idx it = i ∧
    current_value_idx it = offset_of gs i + j ∧ value_end_offset it = offset_of gs i + length g.2.

Definition batch_owns (all : list kv) it : Prop :=
  table_id it = table ∧ ∃ gs, gs ≠ [] ∧ holds_groups (inner it) gs ∧ all = kvs_of table gs.

Definition batch_stands (all rest : list kv) it : Prop :=
  table_id it = table ∧ ∃ gs, gs ≠ [] ∧ holds_groups (inner it) gs ∧ all = kvs_of table gs ∧
    ((length gs ≤ current_entry_idx it ∧ rest = []) ∨
     ∃ i j, at_version gs i j it ∧ rest = drop j (kvs_of table (drop i gs))).

Lemma kvs_drop gs i g j :
  gs !! i = Some g → j ≤ length g.2 →
  drop j (kvs_of table (drop i gs)) = drop j (group_kvs table g) ++ kvs_of table (drop (S i) gs).
Proof.
  intros Hi Hj. unfold kvs_of. rewrite (drop_S _ _ _ Hi), fmap_cons, join_cons, drop_app_le; [done|].
  unfold group_kvs. by rewrite length_fmap.
Qed.

Lemma kvs_drop_end gs i g : gs !! i = Some g → drop (length g.2) (kvs_of table (drop i gs)) = kvs_of table (drop (S i) gs).
Proof.
  intros Hi. rewrite (kvs_drop gs i g) by done. rewrite drop_ge; [done|]. unfold group_kvs. by rewrite length_fmap.
Qed.

Lemma at_version_head gs i j it :
  at_version gs i j it →
  ∃ g v, gs !! i = Some g ∧ g.2 !! j = Some v ∧
    drop j (kvs_of table (drop i gs)) = kv_of table g.1 v :: drop (S j) (kvs_of table (drop i gs)).
Proof.
  intros (g & Hi & Hj & _). destruct (lookup_lt_is_Some_2 g.2 j Hj) as [v Hv]. exists g, v. split; [done|]. split; [done|].
  rewrite !(kvs_drop gs i g) by (done || lia). rewrite (drop_S (group_kvs table g) (kv_of table g.1 v) j); [done|].
  unfold group_kvs. by rewrite list_lookup_fmap, Hv.
Qed.

Lemma kvs_suffix gs i j : drop j (kvs_of table (drop i gs)) `suffix_of` kvs_of table gs.
Proof.
  exists (kvs_of table (take i gs) ++ take j (kvs_of table (drop i gs))). rewrite <-app_assoc, take_drop.
  unfold kvs_of. by rewrite <-join_app, <-fmap_app, take_drop.
Qed.

(** Moving to entry [i]. *)
Lemma reset_ok inner gs i (j j' : nat) :
  holds_groups inner gs → gs ≠ [] →
  ∃ it, reset_if_valid (mk inner i j j' table : fwd) = Ret it ∧
    batch_stands (kvs_of table gs) (kvs_of table (drop i gs)) it.
Proof.
  intros H Hne. unfold reset_if_valid, is_valid_entry_idx. cbn [current_entry_idx SharedBufferBatchIterator.inner].
  rewrite (entry_count inner gs H). destruct (Nat.ltb_spec i (length gs)) as [Hi|Hi].
  - destruct (lookup_lt_is_Some_2 gs i Hi) as [g Hg]. unfold reset_value_idx. cbn [current_entry_idx SharedBufferBatchIterator.inner].
    rewrite (entry_at inner gs H i g Hg). cbn [unwrap mbind outcome_bind]. eexists. split; [done|]. split; [done|].
    exists gs. split; [done|]. split; [done|]. split; [done|]. right. exists i, 0. split; [|done]. exists g. cbn.
    rewrite (value_end inner gs H i g Hg), Nat.add_0_r. destruct (hg_ok _ _ H) as [_ Hok]. rewrite Forall_lookup in Hok.
    destruct (Hok i g Hg) as [Hg2 _]. destruct g as [k [|v vs]]; [done|]. simpl. split_and!; done || lia.
  - eexists. split; [done|]. split; [done|]. exists gs. split; [done|]. split; [done|]. split; [done|]. left.
    split; [done|]. by rewrite drop_ge.
Qed.

Lemma batch_next all e rest it :
  batch_stands all (e :: rest) it → runs False (next it) (batch_stands all rest) (λ _, True).
Proof.
  intros (Ht & gs & Hne & H & -> & [[_ ?]|(i & j & Hat & Hrest)]); [done|].
  destruct (at_version_head gs i j it Hat) as (g & v & Hi & Hv & E). rewrite E in Hrest. injection Hrest as -> ->.
  destruct Hat as (g' & Hi' & Hj & Hce & Hcv & Hend). rewrite Hi in Hi'. injection Hi' as <-.
  unfold next, settle, advance_to_next_value. rewrite Hcv, Hend.
  destruct (Nat.ltb_spec (offset_of gs i + j + 1) (offset_of gs i + length g.2)) as [Hlt|Hge].
  - apply runs_ok. split; [done|]. exists gs. split; [done|]. split; [done|]. split; [done|]. right. exists i, (S j).
    split; [|done]. exists g. cbn. split_and!; done || lia.
  - assert (S j = length g.2) as -> by lia. rewrite (kvs_drop_end gs i g Hi).
    unfold advance_to_next_entry, set_entry. rewrite Hce, Nat.add_1_r, Ht.
    destruct (reset_ok (inner it) gs (S i) (current_value_idx it) (value_end_offset it) H Hne) as (it' & -> & Hit').
    by apply runs_ok.
Qed.

Lemma batch_rewind all it : batch_owns all it → runs False (rewind it) (batch_stands all all) (batch_owns all).
Proof.
  intros (Ht & gs & Hne & H & ->). unfold rewind, settle. cbn [mbind outcome_bind].
  destruct (reset_ok (inner it) gs 0 (current_value_idx it) (value_end_offset it) H Hne) as (it' & E & Hit').
  unfold set_entry. rewrite Ht. unfold reset_if_valid, is_valid_entry_idx in E. cbn [current_entry_idx SharedBufferBatchIterator.inner] in E.
  rewrite (entry_count _ gs H), (proj2 (Nat.ltb_lt _ _)) in E by (destruct gs; [done|simpl; lia]). rewrite E. by apply runs_ok.
Qed.

(** The loop over the versions newer than [epoch]. *)
Lemma skip_newer_ok inner gs i g epoch (H : holds_groups inner gs) (Hi : gs !! i = Some g) n : ∀ j (end_ : nat),
  n = length g.2 - j → j ≤ length g.2 →
  ∃ j', j ≤ j' ≤ length g.2 ∧
    skip_newer n epoch (mk inner i (offset_of gs i + j) end_ table : fwd) = Ret (mk inner i (offset_of gs i + j') end_ table) ∧
    (∀ m v, j ≤ m < j' → g.2 !! m = Some v → (epoch < v.1)%Z) ∧ (∀ v, g.2 !! j' = Some v → (v.1 ≤ epoch)%Z).
Proof.
  induction n as [|n IH]; intros j end_ Hn Hj.
  { exists j. split; [lia|]. split; [done|]. split; [lia|]. intros v Hv%lookup_lt_Some. lia. }
  cbn [skip_newer current_value_idx SharedBufferBatchIterator.inner].
  destruct (lookup_lt_is_Some_2 g.2 j ltac:(lia)) as [v Hv].
  rewrite (version_at inner gs H i g j Hi) by lia. rewrite Hv. cbn [unwrap mbind outcome_bind].
  destruct (Z.leb_spec v.1 epoch) as [Hle|Hgt].
  - exists j. split; [lia|]. split; [done|]. split; [lia|]. intros v' Hv'. by rewrite Hv in Hv'; injection Hv' as <-.
  - unfold set_value. cbn. rewrite <-Nat.add_assoc, Nat.add_1_r.
    destruct (IH (S j) end_ ltac:(lia) ltac:(lia)) as (j' & Hj' & Hrun & Hnew & Hold). exists j'. split; [lia|]. split; [done|].
    split; [|done]. intros m v' Hm Hv'. destruct (decide (m = j)) as [->|]; [|apply (Hnew m); [lia|done]].
    rewrite Hv in Hv'. by injection Hv' as <-.
Qed.

Lemma from_key_below k gs :
  Forall (λ g, bytes_cmp g.1 (UserKey.table_key (FullKey.user_key k)) = Lt) gs → UserKey.table_id (FullKey.user_key k) = table →
  from_key DirectionEnum.Forward k (kvs_of table gs) = [].
Proof.
  intros Hf Ht. apply filter_none. intros e (g & v & Hg & Hv & ->)%kvs_elem Hge. apply Hge. rewrite Forall_forall in Hf.
  apply user_lt_full. destruct k as [[t tk] ep]. simpl in *. subst t. rewrite user_key_cmp_same. by apply Hf.
Qed.

Lemma from_key_above k gs :
  Forall (λ g, bytes_cmp g.1 (UserKey.table_key (FullKey.user_key k)) = Gt) gs → UserKey.table_id (FullKey.user_key k) = table →
  from_key DirectionEnum.Forward k (kvs_of table gs) = kvs_of table gs.
Proof.
  intros Hf Ht. apply filter_all. intros e (g & v & Hg & Hv & ->)%kvs_elem. rewrite Forall_forall in Hf. simpl.
  unfold FullKey.cmp. destruct k as [[t tk] ep]. simpl in *. subst t. rewrite user_key_cmp_same. by rewrite (Hf g Hg).
Qed.

(** Within the key sought, the versions not newer than the epoch remain. *)
Lemma from_key_group k g j :
  FullKey.user_key k = UserKey.mk table g.1 → j ≤ length g.2 → StronglySorted (λ v1 v2 : version, (v2.1 < v1.1)%Z) g.2 →
  (∀ m v, m < j → g.2 !! m = Some v → (FullKey.epoch_with_gap k < v.1)%Z) →
  (∀ v, g.2 !! j = Some v → (v.1 ≤ FullKey.epoch_with_gap k)%Z) →
  from_key DirectionEnum.Forward k (group_kvs table g) = drop j (group_kvs table g).
Proof.
  intros Hk Hj Hs Hnew Hold. unfold from_key, group_kvs.
  assert (∀ v, dir_cmp DirectionEnum.Forward (kv_of table g.1 v).1 k ≠ Lt ↔ (v.1 ≤ FullKey.epoch_with_gap k)%Z) as Hiff.
  { intros v. simpl. unfold FullKey.cmp. rewrite Hk. simpl. rewrite user_key_cmp_same, (cmp_refl bytes_cmp). simpl.
    rewrite Z.compare_lt_iff. lia. }
  rewrite <-(take_drop j g.2) at 1. rewrite fmap_app, filter_app, filter_none, filter_all, fmap_drop; [done| |].
  - intros e (v & -> & Hv)%list_elem_of_fmap. apply Hiff. apply list_elem_of_lookup in Hv as [m Hv].
    rewrite lookup_drop in Hv. destruct m as [|m]; [rewrite Nat.add_0_r in Hv; auto|].
    destruct (lookup_lt_is_Some_2 g.2 j) as [v0 Hv0]; [apply lookup_lt_Some in Hv; lia|].
    pose proof (Hold v0 Hv0). pose proof (sorted_lookup _ _ j (j + S m) v0 v Hs ltac:(lia) Hv0 Hv) as C. simpl in C. lia.
  - intros e (v & -> & Hv)%list_elem_of_fmap Hge%Hiff. apply list_elem_of_lookup in Hv as [m [Hv Hm]%lookup_take_Some].
    specialize (Hnew m v Hm Hv). lia.
Qed.

Lemma kvs_app gs1 gs2 : kvs_of table (gs1 ++ gs2) = kvs_of table gs1 ++ kvs_of table gs2.
Proof. unfold kvs_of. by rewrite fmap_app, join_app. Qed.

(** The groups from position [i] of a search on are behind a key that is not there. *)
Lemma search_above k gs i :
  StronglySorted (λ g1 g2, bytes_cmp g1.1 g2.1 = Lt) gs → Forall (λ g, bytes_cmp g.1 k ≠ Lt) (drop i gs) →
  (∀ g, gs !! i = Some g → g.1 ≠ k) → Forall (λ g, bytes_cmp g.1 k = Gt) (drop i gs).
Proof.
  intros Hs Hge Hne. apply Forall_lookup. intros m g Hm. rewrite Forall_lookup in Hge. pose proof (Hge m g Hm) as Hg.
  rewrite lookup_drop in Hm. destruct (bytes_cmp g.1 k) eqn:E; [|done|done]. apply (cmp_eq_iff bytes_cmp) in E.
  destruct m as [|m]; [by rewrite Nat.add_0_r in Hm; destruct (Hne g Hm)|].
  destruct (lookup_lt_is_Some_2 gs i) as [g0 Hg0]; [apply lookup_lt_Some in Hm; lia|].
  pose proof (sorted_lookup _ gs i (i + S m) g0 g Hs ltac:(lia) Hg0 Hm) as Hlt. simpl in Hlt. rewrite E in Hlt.
  destruct (Hge 0 g0); [by rewrite lookup_drop, Nat.add_0_r|done].
Qed.

(** Seeking a key the batch has. *)
Lemma seek_found inner gs i g (cv ve : nat) k :
  holds_groups inner gs → gs ≠ [] → gs !! i = Some g → FullKey.user_key k = UserKey.mk table g.1 →
  ∃ it, (self ← reset_value_idx (mk inner i cv ve table : fwd);
         self ← skip_newer (value_end_offset self - current_value_idx self) (FullKey.epoch_with_gap k) self;
         if current_value_idx self =? value_end_offset self then reset_if_valid (advance_to_next_entry self) else Ret self) = Ret it ∧
    batch_stands (kvs_of table gs) (from_key DirectionEnum.Forward k (group_kvs table g) ++ kvs_of table (drop (S i) gs)) it.
Proof.
  intros H Hne Hg Hk. unfold reset_value_idx at 1. cbn [current_entry_idx SharedBufferBatchIterator.inner].
  rewrite (entry_at inner gs H i g Hg), (value_end inner gs H i g Hg).
  cbn [unwrap mbind outcome_bind current_value_idx value_end_offset SharedBufferKeyEntry.value_offset SharedBufferBatchIterator.table_id].
  destruct (hg_ok _ _ H) as [_ Hok]. rewrite Forall_lookup in Hok. destruct (Hok i g Hg) as [_ Hsv].
  destruct (skip_newer_ok inner gs i g (FullKey.epoch_with_gap k) H Hg (offset_of gs i + length g.2 - offset_of gs i) 0
              (offset_of gs i + length g.2)) as (j & Hj & Hrun & Hnew & Hold); [lia|lia|].
  rewrite Nat.add_0_r in Hrun. rewrite Hrun. cbn [mbind outcome_bind current_value_idx value_end_offset].
  rewrite (from_key_group k g j Hk) by (done || lia || (intros m v Hm; apply (Hnew m v); lia)).
  destruct (Nat.eqb_spec (offset_of gs i + j) (offset_of gs i + length g.2)) as [Heq|Hneq].
  - unfold advance_to_next_entry, set_entry. cbn [current_entry_idx current_value_idx value_end_offset SharedBufferBatchIterator.table_id SharedBufferBatchIterator.inner].
    rewrite Nat.add_1_r. rewrite drop_ge by (unfold group_kvs; rewrite length_fmap; lia).
    by apply reset_ok.
  - eexists. split; [done|]. split; [done|]. exists gs. split; [done|]. split; [done|]. split; [done|]. right. exists i, j.
    split; [exists g; cbn; split_and!; done || lia|]. by rewrite (kvs_drop gs i g) by (done || lia).
Qed.

Lemma batch_seek all k it :
  in_table table k → batch_owns all it →
  runs False (seek it k) (batch_stands all (from_key DirectionEnum.Forward k all)) (batch_owns all).
Proof.
  intros [Hkt Hke] (Ht & gs & Hne & H & ->). unfold seek, seek_position, settle, set_entry. destruct (hg_ok _ _ H) as [Hs Hok].
  destruct (search_ok (UserKey.table_key (FullKey.user_key k)) 0 gs Hs) as (i & Hi & Hlt & Hge & Hsearch).
  rewrite Ht, (hg_entries _ _ H), Hsearch. clear Hsearch.
  assert (from_key DirectionEnum.Forward k (kvs_of table gs) = from_key DirectionEnum.Forward k (kvs_of table (drop i gs))) as ->.
  { rewrite <-(take_drop i gs) at 1. rewrite kvs_app. unfold from_key at 1. rewrite filter_app.
    pose proof (from_key_below k (take i gs) Hlt Hkt) as E. unfold from_key in E. by rewrite E. }
  assert (∀ g, gs !! i = Some g → g.1 = UserKey.table_key (FullKey.user_key k) → FullKey.user_key k = UserKey.mk table g.1) as Huk.
  { intros g _ ->. by destruct k as [[t tk] ep]; simpl in *; subst. }
  assert ((∀ g, gs !! i = Some g → g.1 ≠ UserKey.table_key (FullKey.user_key k)) →
    ∃ it', reset_if_valid (mk (inner it) i (current_value_idx it) (value_end_offset it) table : fwd) = Ret it' ∧
      batch_stands (kvs_of table gs) (from_key DirectionEnum.Forward k (kvs_of table (drop i gs))) it') as Habs.
  { intros Hn. rewrite from_key_above by (by apply search_above || done). by apply reset_ok. }
  destruct (gs !! i) as [g|] eqn:Hg; [case_bool_decide as Heq|].
  - destruct (seek_found (inner it) gs i g (current_value_idx it) (value_end_offset it) k H Hne Hg) as (it' & -> & Hit'); [by apply Huk|].
    apply runs_ok. assert (from_key DirectionEnum.Forward k (kvs_of table (drop i gs)) =
      from_key DirectionEnum.Forward k (group_kvs table g) ++ kvs_of table (drop (S i) gs)) as ->; [|done].
    rewrite (drop_S _ _ _ Hg). unfold kvs_of at 1. rewrite fmap_cons, join_cons. unfold from_key. rewrite filter_app. f_equal.
    apply from_key_above; [|done]. apply search_above; [done| |].
    + rewrite (drop_S _ _ _ Hg) in Hge. by apply Forall_cons in Hge as [_ Hge].
    + intros g' Hg' E. pose proof (sorted_lookup (λ g1 g2 : group, bytes_cmp g1.1 g2.1 = Lt) gs i (S i) g g' Hs ltac:(lia) Hg Hg') as C. cbv beta in C.
      pose proof (proj2 (cmp_eq_iff bytes_cmp _ _) (eq_trans Heq (eq_sym E))) as C'. discriminate (eq_trans (eq_sym C) C').
  - destruct Habs as (it' & -> & Hit'); [intros g' [= <-]; done|]. by apply runs_ok.
  - destruct Habs as (it' & -> & Hit'); [done|]. by apply runs_ok.
Qed.

Definition batch_spec (faults : Prop) : IteratorSpec fwd faults (in_table table).
Proof.
  unshelve refine (Build_IteratorSpec _ _ _ _ batch_owns batch_stands _ _ _ _ _ _ _ _ _);
    cbn [HummockIterator.direction HummockIterator.next HummockIterator.key HummockIterator.value
         HummockIterator.is_valid HummockIterator.rewind HummockIterator.seek batch_iter].
  - intros all it (_ & gs & _ & H & ->). apply strict_sorted, kvs_sorted, H.
  - intros all rest it (Ht & gs & Hne & H & E & _). split; [done|]. by exists gs.
  - intros all rest it (_ & gs & _ & H & -> & [[_ ->]|(i & j & _ & ->)]); [apply suffix_nil|apply kvs_suffix].
  - intros all rest it (_ & gs & _ & H & -> & [[Hlen ->]|(i & j & Hat & ->)]); unfold is_valid, is_valid_entry_idx.
    + rewrite (entry_count _ gs H). by rewrite (proj2 (Nat.ltb_ge _ _)).
    + destruct (at_version_head gs i j it Hat) as (g & v & Hi & _ & ->). destruct Hat as (_ & _ & _ & -> & _).
      rewrite (entry_count _ gs H), (proj2 (Nat.ltb_lt _ _)); [done|]. by apply lookup_lt_Some in Hi.
  - intros all e rest it (Ht & gs & _ & H & -> & [[_ ?]|(i & j & Hat & Hr)]); [done|].
    destruct (at_version_head gs i j it Hat) as (g & v & Hi & Hv & E). rewrite E in Hr. injection Hr as -> _.
    destruct Hat as (g' & Hi' & Hj & Hce & Hcv & _). rewrite Hi in Hi'. injection Hi' as <-. unfold key.
    rewrite Hce, Hcv, (entry_at _ gs H i g Hi), (version_at _ gs H i g j Hi Hj), Hv, Ht. done.
  - intros all e rest it (Ht & gs & _ & H & -> & [[_ ?]|(i & j & Hat & Hr)]); [done|].
    destruct (at_version_head gs i j it Hat) as (g & v & Hi & Hv & E). rewrite E in Hr. injection Hr as -> _.
    destruct Hat as (g' & Hi' & Hj & Hce & Hcv & _). rewrite Hi in Hi'. injection Hi' as <-. unfold value.
    by rewrite Hcv, (version_at _ gs H i g j Hi Hj), Hv.
  - intros all e rest it Hit. by eapply runs_no_faults, batch_next.
  - intros all it Hit. by eapply runs_no_faults, batch_rewind.
  - intros all k it Hk Hit. by eapply runs_no_faults, batch_seek.
Defined.
End forward.

(** ** Building a batch *)

Definition single_groups (epoch : Z) (payload : list SharedBufferItem) : list group :=
  (λ p : SharedBufferItem, (p.1, [(epoch, p.2)])) <$> payload.

Lemma single_entries epoch payload : ∀ off,
  imap (λ i p, SharedBufferKeyEntry.mk (fst p) (off + i)) payload = entries_at off (single_groups epoch payload).
Proof.
  induction payload as [|[k v] payload IH]; intros off; [done|].
  change (single_groups epoch ((k, v) :: payload)) with ((k, [(epoch, v)]) :: single_groups epoch payload).
  cbn [entries_at length]. rewrite imap_cons. cbn [fst]. rewrite Nat.add_0_r. f_equal. rewrite <-(IH (off + 1)). apply imap_ext.
  intros i p _. simpl. f_equal. lia.
Qed.

Lemma single_groups_ok epoch payload :
  StronglySorted (λ p q : SharedBufferItem, bytes_cmp p.1 q.1 = Lt) payload → groups_ok (single_groups epoch payload).
Proof.
  intros Hs. split.
  - unfold single_groups. induction Hs as [|p l Hs IH Hf]; [constructor|]. rewrite fmap_cons. constructor; [done|].
    by apply Forall_fmap.
  - apply Forall_fmap, Forall_true. intros p. simpl. split; [done|]. by repeat constructor.
Qed.

Lemma batch_new_ok epoch spill payload old size id :
  payload ≠ [] → match old with Some vs => length vs = length payload | None => True end →
  StronglySorted (λ p q : SharedBufferItem, bytes_cmp p.1 q.1 = Lt) payload →
  ∃ inner, SharedBufferBatchInner.new epoch spill payload old size id = Ret inner ∧
    holds_groups inner (single_groups (EpochWithGap.new epoch spill) payload) ∧
    SharedBufferBatchInner.old_values inner = old ∧ SharedBufferBatchInner.epochs inner = [epoch].
Proof.
  intros Hne Hold Hs. unfold SharedBufferBatchInner.new. destruct payload as [|p payload]; [done|]. cbn [rassert mbind outcome_bind].
  assert (rassert (match old with Some vs => length vs =? length (p :: payload) | None => true end) = Ret tt) as ->.
  { apply rassert_Ret. destruct old; [by apply Nat.eqb_eq|done]. }
  eexists. split; [done|]. split; [|done]. constructor; [|  |by apply single_groups_ok].
  - cbn [SharedBufferBatchInner.entries]. apply (single_entries _ _ 0).
  - cbn [SharedBufferBatchInner.new_values]. unfold single_groups. rewrite <-list_fmap_compose.
    generalize (p :: payload) as l. induction l as [|q l IH]; [done|]. rewrite !fmap_cons, join_cons, IH. done.
Qed.

(** ** Point lookups *)

(** The versions of a key a reader at [read_epoch] sees. *)
Definition sees (table : Z) (k : TableKey.t) (read_epoch : Z) (e : kv) : Prop :=
  ukey e = UserKey.mk table k ∧ (epoch_of e ≤ read_epoch)%Z.

#[global] Instance sees_dec table k r e : Decision (sees table k r e).
Proof. unfold sees. apply _. Defined.

Lemma first_visible_ok table k read vs :
  SharedBufferBatchInner.first_visible read vs =
  (λ e : kv, (e.2, FullKey.epoch_with_gap e.1)) <$> head (filter (sees table k read) (kv_of table k <$> vs)).
Proof.
  induction vs as [|[e v] vs IH]; [done|]. cbn [SharedBufferBatchInner.first_visible]. rewrite fmap_cons, filter_cons.
  unfold sees at 1. cbn [kv_of fst snd FullKey.new_with_gap_epoch FullKey.user_key FullKey.epoch_with_gap].
  destruct (Z.ltb_spec read (EpochWithGap.pure_epoch e)) as [Hlt|Hge].
  - rewrite decide_False by (intros [_ ?]; simpl in *; lia). done.
  - rewrite decide_True by done. done.
Qed.

Lemma filter_sees_other table k read gs :
  Forall (λ g, g.1 ≠ k) gs → filter (sees table k read) (kvs_of table gs) = [].
Proof.
  intros Hf. apply filter_none. intros e (g & v & Hg & _ & ->)%kvs_elem [Hu _]. rewrite Forall_forall in Hf.
  apply (Hf g Hg). by injection Hu.
Qed.

Lemma get_value_ok table inner gs k read :
  holds_groups inner gs →
  SharedBufferBatchInner.get_value inner k read =
  Ret ((λ e : kv, (e.2, FullKey.epoch_with_gap e.1)) <$> head (filter (sees table k read) (kvs_of table gs))).
Proof.
  intros H. destruct (hg_ok _ _ H) as [Hs _]. unfold SharedBufferBatchInner.get_value.
  destruct (search_ok k 0 gs Hs) as (i & Hi & Hlt & Hge & Hsearch). rewrite (hg_entries _ _ H), Hsearch. clear Hsearch.
  assert (∀ l, Forall (λ g, bytes_cmp g.1 k = Lt ∨ bytes_cmp g.1 k = Gt) l → Forall (λ g : group, g.1 ≠ k) l) as Hne.
  { intros l Hl. eapply Forall_impl; [exact Hl|]. simpl. intros g [E|E] Hk; subst k; by rewrite (cmp_refl bytes_cmp) in E. }
  assert (kvs_of table gs = kvs_of table (take i gs) ++ kvs_of table (drop i gs)) as ->
    by (by rewrite <-kvs_app, take_drop).
  rewrite filter_app, (filter_sees_other _ _ _ (take i gs))
    by (apply Hne; eapply Forall_impl; [exact Hlt|]; by left). cbn [app].
  assert ((∀ g, gs !! i = Some g → g.1 ≠ k) → filter (sees table k read) (kvs_of table (drop i gs)) = []) as Habs.
  { intros Hn. apply filter_sees_other, Hne. eapply Forall_impl; [by apply search_above|]. by right. }
  destruct (gs !! i) as [g|] eqn:Hg; [case_bool_decide as Heq|].
  - subst k. rewrite <-(hg_entries _ _ H). rewrite (entry_at inner gs H i g Hg). cbn [unwrap mbind outcome_bind].
    cbn [SharedBufferKeyEntry.key]. rewrite bool_decide_true by done. cbn [rassert mbind outcome_bind].
    rewrite (values_ok inner gs H i g Hg). cbn [mbind outcome_bind]. f_equal. rewrite (first_visible_ok table g.1).
    rewrite (drop_S _ _ _ Hg). unfold kvs_of. rewrite fmap_cons, join_cons. fold (kvs_of table (drop (S i) gs)).
    rewrite filter_app, (filter_sees_other _ _ _ (drop (S i) gs)), app_nil_r; [|].
    + done.
    + apply Hne, Forall_lookup. intros m g' Hm. right. rewrite lookup_drop in Hm.
      pose proof (sorted_lookup _ gs i (S i + m) g g' Hs ltac:(lia) Hg Hm) as C. cbv beta in C.
      by apply (cmp_gt_lt bytes_cmp).
  - by rewrite Habs by (intros g' [= <-]; done).
  - by rewrite Habs by done.
Qed.

(** ** Range tests *)

Lemma probe_ok range m :
  SharedBufferBatch.range_probe range m = Eq ↔ contains bytes_cmp range (SharedBufferKeyEntry.key m) = true.
Proof.
  unfold SharedBufferBatch.range_probe, contains, above, below. rewrite andb_true_iff.
  destruct range as [[a|a|] [b|b|]]; cbn [fst snd]; rewrite ?(cmp_leb_nlt bytes_cmp); repeat destruct (bytes_ltb _ _); naive_solver.
Qed.

Lemma above_up (lo : Bound TableKey.t) k1 k2 :
  bytes_cmp k1 k2 = Lt → above bytes_cmp lo k1 = true → above bytes_cmp lo k2 = true.
Proof.
  intros Hlt. destruct lo as [a|a|]; simpl; [| |done].
  - rewrite !(cmp_leb_le bytes_cmp). intros H. apply (cmp_le_trans bytes_cmp _ k1); [done|by rewrite Hlt].
  - rewrite !(cmp_ltb_lt bytes_cmp). intros H. by apply (cmp_lt_trans bytes_cmp _ k1).
Qed.

Lemma below_bytes_down (hi : Bound TableKey.t) k1 k2 :
  bytes_cmp k1 k2 = Lt → below bytes_cmp hi k2 = true → below bytes_cmp hi k1 = true.
Proof.
  intros Hlt. destruct hi as [a|a|]; simpl; [| |done].
  - rewrite !(cmp_leb_le bytes_cmp). intros H. apply (cmp_le_trans bytes_cmp _ k2); [by rewrite Hlt|done].
  - rewrite !(cmp_ltb_lt bytes_cmp). by apply (cmp_lt_trans bytes_cmp).
Qed.

(** Behind a key right of the range nothing is in it. *)
Lemma probe_gt range k1 k2 o1 o2 :
  bytes_cmp k1 k2 = Lt → SharedBufferBatch.range_probe range (SharedBufferKeyEntry.mk k1 o1) = Gt →
  SharedBufferBatch.range_probe range (SharedBufferKeyEntry.mk k2 o2) ≠ Eq.
Proof.
  intros Hlt Hgt Heq%probe_ok. apply andb_true_iff in Heq as [_ Hb%(below_bytes_down _ _ _ Hlt)].
  destruct range as [lo hi]. unfold SharedBufferBatch.range_probe in Hgt. cbn [SharedBufferKeyEntry.key fst snd] in *.
  destruct (match lo with Included _ => _ | _ => _ end); [done|]. destruct hi as [b|b|]; cbn [below] in *; [| |done].
  - rewrite (cmp_leb_nlt bytes_cmp) in Hb. by destruct (bytes_ltb b k1).
  - rewrite (cmp_leb_nlt bytes_cmp), Hb in Hgt. done.
Qed.

Lemma range_search_ok range gs : ∀ off,
  StronglySorted (λ g1 g2, bytes_cmp g1.1 g2.1 = Lt) gs →
  match binary_search_by (SharedBufferBatch.range_probe range) (entries_at off gs) with inr _ => true | inl _ => false end =
  existsb (λ g, contains bytes_cmp range g.1) gs.
Proof.
  induction gs as [|[k vs] gs IH]; intros off Hs; [done|]. apply StronglySorted_cons in Hs as [Hf Hs].
  cbn [entries_at binary_search_by existsb fst]. specialize (IH (off + length vs) Hs).
  pose proof (probe_ok range (SharedBufferKeyEntry.mk k off)) as Hp. cbn [SharedBufferKeyEntry.key] in Hp.
  destruct (SharedBufferBatch.range_probe range _) eqn:E.
  - by rewrite (proj1 Hp eq_refl).
  - assert (contains bytes_cmp range k = false) as -> by (apply not_true_is_false; intros C%Hp; done).
    rewrite <-IH. by destruct (binary_search_by _ _).
  - assert (contains bytes_cmp range k = false) as -> by (apply not_true_is_false; intros C%Hp; done).
    symmetry. apply not_true_is_false. intros ([k' vs'] & Hin%list_elem_of_In & Hc)%existsb_exists.
    rewrite Forall_forall in Hf. specialize (Hf _ Hin). simpl in *.
    apply (probe_gt range k k' off 0 Hf E). by apply probe_ok.
Qed.

(** The test on key ranges keeps every one with a key of the range in it. *)
Lemma range_overlap_keeps {K} (cmp : K → K → comparison) `{!TotalCmp cmp} (range : Bound K * Bound K) start end_ k :
  contains cmp range k = true → cmp start k ≠ Gt → below cmp end_ k = true → range_overlap cmp range start end_ = true.
Proof.
  destruct range as [lo hi]. intros [Ha Hb]%andb_true_iff Hs He. cbn [fst snd] in *. unfold range_overlap. cbn [fst snd].
  apply andb_true_iff. split; apply negb_true_iff, not_true_is_false.
  - destruct lo as [a|a|], end_ as [b|b|]; cbn in *; rewrite ?(cmp_leb_le cmp), ?(cmp_ltb_lt cmp) in *; try done; intros H.
    + apply Ha. apply (cmp_gt_lt cmp). by eapply (cmp_le_lt_trans cmp).
    + apply Ha. apply (cmp_gt_lt cmp). by eapply (cmp_lt_le_trans cmp).
    + apply (cmp_le_not_lt cmp) in He. apply He. by eapply (cmp_le_lt_trans cmp).
    + assert (cmp a b = Lt) by (by eapply (cmp_lt_trans cmp)). apply H. by apply (cmp_gt_lt cmp).
  - destruct hi as [b|b|]; cbn in *; rewrite ?(cmp_leb_le cmp), ?(cmp_ltb_lt cmp) in *; try done; intros H.
    + apply Hs. apply (cmp_gt_lt cmp). by eapply (cmp_le_lt_trans cmp).
    + apply Hs. apply (cmp_gt_lt cmp). by eapply (cmp_lt_le_trans cmp).
Qed.
