(* ===== verification/MergeImm.v ===== *)
(** * Merging the batches of one table

    [merge_imms_in_memory] of [compactor/shared_buffer_compact.rs], with the operations of
    [MergeIterator<SharedBufferBatchIterator<Forward>>] it uses ([iterator/merge_inner.rs]): the
    batches are merged key by key into one batch with several epochs.  The gauges of the sizes
    of old values are not modelled. *)

From Stdlib Require Import ZArith Lia.
From S2P Require Import Prelude Order Bytes Epoch Bits Bitmap Vnode Key KeyRange Sst Block Iter SharedBuffer.

Abbreviation imm_iter := SharedBufferBatchIterator.forward.
Abbreviation merge_imm_iter := (MergeIterator.t imm_iter).

Section merge_imm.
Context {bh : BinaryHeap}.

(** ** Walking whole keys *)
Definition advance_peek_to_next_key (self : merge_imm_iter) : outcome merge_imm_iter :=
  node ← unwrap (head (MergeIterator.heap self));
  node ← SharedBufferBatchIterator.advance_to_next_key node;
  valid ← HummockIterator.is_valid node;
  if negb valid then
    h ← arrange Pop MergeIterator.node_cmp (tail (MergeIterator.heap self));
    Ret (MergeIterator.mk (MergeIterator.unused_iters self ++ [node]) h)
  else
    h ← arrange Used MergeIterator.node_cmp (node :: tail (MergeIterator.heap self));
    Ret (MergeIterator.mk (MergeIterator.unused_iters self) h).

Definition rewind_no_await (self : merge_imm_iter) : outcome merge_imm_iter :=
  '(self, r) ← MergeIterator.rewind self;
  match r with inr _ => Ret self | inl _ => Panic end.

Definition merge_current_key_entry (self : merge_imm_iter) :=
  top ← unwrap (head (MergeIterator.heap self)); SharedBufferBatchIterator.current_key_entry top.

(** ** The merge *)

(** What the loop builds. *)
Record merged := mk_merged {
  merged_entries : list SharedBufferKeyEntry.t;
  merged_values : list VersionedSharedBufferValue;
  merged_old_values : option (list (list byte))
}.

(** One iteration for the current key. *)
Definition merge_key (table_id : Z) (tracker : FullKeyTracker.t) (m : merged)
    (key_entry : TableKey.t * list VersionedSharedBufferValue * option (list (list byte))) : outcome (FullKeyTracker.t * merged) :=
  let '(key, new_values, old_values) := key_entry in
  '(tracker, is_new) ← FullKeyTracker.observe_multi_version false tracker (UserKey.mk table_id key) (fst <$> new_values);
  entries ←
    (if (is_new : bool) then
       let latest_key := UserKey.table_key (FullKeyTracker.latest_user_key tracker) in
       last_entry ← unwrap (last (merged_entries m));
       if SharedBufferKeyEntry.value_offset last_entry =? length (merged_values m)
       then Ret (removelast (merged_entries m) ++ [SharedBufferKeyEntry.mk latest_key (SharedBufferKeyEntry.value_offset last_entry)])
       else Ret (merged_entries m ++ [SharedBufferKeyEntry.mk latest_key (length (merged_values m))])
     else Ret (merged_entries m));
  olds ←
    match merged_old_values m with
    | Some olds => old_values ← unwrap old_values; Ret (Some (olds ++ old_values))
    | None => Ret None
    end;
  Ret (tracker, mk_merged entries (merged_values m ++ new_values) olds).

(** The loop, at most [n] keys: the number of versions bounds it. *)
Fixpoint merge_loop (n : nat) (table_id : Z) (mi : merge_imm_iter) (tracker : FullKeyTracker.t) (m : merged) : outcome merged :=
  match n with
  | O => Panic
  | S n =>
      valid ← HummockIterator.is_valid mi;
      if negb valid then Ret m
      else
        key_entry ← merge_current_key_entry mi;
        '(tracker, m) ← merge_key table_id tracker m key_entry;
        mi ← advance_peek_to_next_key mi;
        merge_loop n table_id mi tracker m
  end.

(** [is_sorted] *)
Fixpoint is_sorted (l : list Z) : bool :=
  match l with
  | x :: (y :: _) as l' => (x <=? y)%Z && is_sorted l'
  | _ => true
  end.

Definition merge_imms_in_memory (table_id : Z) (imms : list SharedBufferBatch.t) : outcome SharedBufferBatch.t :=
  rassert (is_sorted (reverse ((λ imm, SharedBufferBatchInner.batch_id (SharedBufferBatch.inner imm)) <$> imms)));;
  first ← unwrap (head imms);
  let max_imm_id := SharedBufferBatchInner.batch_id (SharedBufferBatch.inner first) in
  let has_old_value := SharedBufferBatch.has_old_value first in
  rassert (forallb (λ imm, Bool.eqb (SharedBufferBatch.has_old_value imm) has_old_value) imms);;
  rmap (λ imm, rassert (0 <? SharedBufferBatch.key_count imm);; rassert (table_id =? SharedBufferBatch.table_id imm)%Z) imms;;
  epochs ← rmap SharedBufferBatch.min_epoch imms;
  let merged_size := foldr Z.add 0%Z ((λ imm, SharedBufferBatchInner.size (SharedBufferBatch.inner imm)) <$> imms) in
  imm_iters ← rmap (λ imm, SharedBufferBatchIterator.new (SharedBufferBatch.inner imm) (SharedBufferBatch.table_id imm)) imms;
  mi ← rewind_no_await (MergeIterator.create imm_iters);
  valid ← HummockIterator.is_valid mi;
  rassert valid;;
  '(first_item_key, _, _) ← merge_current_key_entry mi;
  m ← merge_loop (S (sum_list (SharedBufferBatch.value_count <$> imms))) table_id mi
        (FullKeyTracker.new (FullKey.new_with_gap_epoch table_id first_item_key EpochWithGap.new_max_epoch))
        (mk_merged [SharedBufferKeyEntry.mk first_item_key 0] [] (if has_old_value then Some [] else None));
  inner ← SharedBufferBatchInner.new_with_multi_epoch_batches (merge_sort Z.le epochs) (merged_entries m) (merged_values m)
            (merged_old_values m) merged_size max_imm_id;
  Ret (SharedBufferBatch.mk inner table_id).

End merge_imm.
