(* ===== verification/MergeImmSpec.v ===== *)
(** * Merging batches loses nothing and reorders nothing

    For batches of one table whose versions of a key do not interleave (every batch holds the
    versions of its own epochs), [merge_imms_in_memory] of [MergeImm.v] returns a batch that holds
    exactly their entries in order. *)

From Stdlib Require Import ZArith Lia.
From S2P Require Import Prelude Order Bytes Epoch Bits Bitmap Vnode Key KeySpec KeyOrder KeyRange Sst SstSpec Block Iter IterSpec UserIter UserIterSpec SharedBuffer SharedBufferSpec MergeImm.

Section merge_imm.
Context {bh : BinaryHeap} (table : Z).
Abbreviation fwd := imm_iter.
Abbreviation mstands := (merge_stands (I := fwd) False (in_table table) (spec := batch_spec table False)).
Abbreviation bstands := (batch_stands table).
Abbreviation batch_of it := (SharedBufferBatchIterator.inner it).
Abbreviation iters m := (MergeIterator.unused_iters m ++ MergeIterator.heap m).
Implicit Types (it : fwd) (m : merge_imm_iter) (g : group) (gs : list group).

(** ** Whole keys of one batch *)

(** The iterator stands at the first version of a key. *)
Definition at_start it : Prop :=
  ∃ entry, SharedBufferBatchInner.entries (batch_of it) !! SharedBufferBatchIterator.current_entry_idx it = Some entry ∧
    SharedBufferBatchIterator.current_value_idx it = SharedBufferKeyEntry.value_offset entry.

(** Old values are kept for every version or for none. *)
Definition olds_ok (inner : SharedBufferBatchInner.t) : Prop :=
  match SharedBufferBatchInner.old_values inner with
  | Some olds => length olds = length (SharedBufferBatchInner.new_values inner)
  | None => True
  end.

(** The old values of a key, one for every version. *)
Definition key_olds (inner : SharedBufferBatchInner.t) (n : nat) (olds : option (list (list byte))) : Prop :=
  match SharedBufferBatchInner.old_values inner with
  | Some _ => ∃ os, olds = Some os ∧ length os = n
  | None => olds = None
  end.

Lemma group_at it a e r :
  bstands a (e :: r) it → at_start it →
  ∃ gs i g, holds_groups (batch_of it) gs ∧ gs ≠ [] ∧ gs !! i = Some g ∧ a = kvs_of table gs ∧
    e :: r = group_kvs table g ++ kvs_of table (drop (S i) gs) ∧ at_version gs i 0 it.
Proof.
  intros (Ht & gs & Hne & H & -> & [[_ ?]|(i & j & Hat & Hr)]) (entry & He & Hv); [done|].
  pose proof Hat as (g & Hi & Hj & Hce & Hcv & Hend). rewrite Hce, (entry_at _ gs H i g Hi) in He. injection He as <-.
  assert (j = 0) as -> by (cbn in Hv; lia). exists gs, i, g. do 4 (split; [done|]). split; [|done].
  rewrite Hr, (kvs_drop table gs i g 0) by (done || lia). done.
Qed.

Lemma slice_group {A} (l l1 l2 l3 : list A) (a b : nat) :
  l = l1 ++ l2 ++ l3 → a = length l1 → b = a + length l2 → sub_slice l a b = Ret l2.
Proof.
  intros -> -> ->. unfold sub_slice. rewrite !length_app.
  rewrite (proj2 (Nat.leb_le _ _)), (proj2 (Nat.leb_le _ _)) by lia. cbn [andb]. rewrite drop_app_length. f_equal.
  apply take_app_length'. lia.
Qed.

Lemma key_entry_ok it gs i g :
  holds_groups (batch_of it) gs → gs !! i = Some g → at_version gs i 0 it → olds_ok (batch_of it) →
  ∃ olds, SharedBufferBatchIterator.current_key_entry it = Ret (g.1, g.2, olds) ∧ key_olds (batch_of it) (length g.2) olds.
Proof.
  intros H Hi (g' & Hi' & Hj & Hce & Hcv & Hend) Hold. rewrite Hi in Hi'. injection Hi' as <-.
  unfold SharedBufferBatchIterator.current_key_entry, olds_ok, key_olds in *. rewrite Hce, (entry_at _ gs H i g Hi), Hcv, Hend, Nat.add_0_r.
  cbn [unwrap mbind outcome_bind]. pose proof (values_split _ gs H i g Hi) as Hsp.
  rewrite (slice_group _ _ g.2 _ _ _ Hsp eq_refl eq_refl). cbn [mbind outcome_bind].
  destruct (SharedBufferBatchInner.old_values (batch_of it)) as [olds|]; [|by eexists].
  unfold sub_slice. rewrite Hold, Hsp, !length_app.
  rewrite (proj2 (Nat.leb_le _ _)), (proj2 (Nat.leb_le _ _)) by lia. cbn. eexists. split; [done|]. eexists. split; [done|].
  rewrite length_take, length_drop, Hold, Hsp, !length_app. lia.
Qed.

Lemma reset_start it it' :
  SharedBufferBatchIterator.reset_if_valid it = Ret it' →
  batch_of it' = batch_of it ∧ (SharedBufferBatchIterator.is_valid_entry_idx it' = true → at_start it').
Proof.
  unfold SharedBufferBatchIterator.reset_if_valid, SharedBufferBatchIterator.reset_value_idx, at_start.
  destruct (SharedBufferBatchIterator.is_valid_entry_idx it) eqn:E; [|intros [= <-]; by rewrite E].
  destruct (_ !! _) as [entry|] eqn:He; [|done]. cbn [unwrap mbind outcome_bind]. intros [= <-]. split; [done|].
  intros _. by exists entry.
Qed.

Lemma advance_key_ok it gs i g :
  holds_groups (batch_of it) gs → gs ≠ [] → gs !! i = Some g → at_version gs i 0 it → SharedBufferBatchIterator.table_id it = table →
  ∃ it', SharedBufferBatchIterator.advance_to_next_key it = Ret it' ∧
    bstands (kvs_of table gs) (kvs_of table (drop (S i) gs)) it' ∧ batch_of it' = batch_of it ∧
    (kvs_of table (drop (S i) gs) ≠ [] → at_start it').
Proof.
  intros H Hne Hi (g' & Hi' & Hj & Hce & Hcv & Hend) Ht. unfold SharedBufferBatchIterator.advance_to_next_key,
    SharedBufferBatchIterator.advance_to_next_entry, SharedBufferBatchIterator.set_entry. rewrite Hce, Nat.add_1_r, Ht.
  destruct (reset_ok table (batch_of it) gs (S i) (SharedBufferBatchIterator.current_value_idx it)
    (SharedBufferBatchIterator.value_end_offset it) H Hne) as (it' & E & Hit').
  exists it'. split; [done|]. split; [done|]. destruct (reset_start _ _ E) as [Hb Hs]. split; [done|]. intros Hr. apply Hs.
  pose proof (stands_valid (IteratorSpec := batch_spec table False) _ _ _ Hit') as Hv. cbn in Hv. unfold SharedBufferBatchIterator.is_valid in Hv.
  by destruct (kvs_of table (drop (S i) gs)); [|injection Hv].
Qed.

(** ** Separate batches *)

(** The versions of a key in two batches do not interleave. *)
Definition separated gs1 gs2 : Prop :=
  ∀ g1 g2, g1 ∈ gs1 → g2 ∈ gs2 → g1.1 = g2.1 →
    (∀ v1 v2, v1 ∈ g1.2 → v2 ∈ g2.2 → (v2.1 < v1.1)%Z) ∨ (∀ v1 v2, v1 ∈ g1.2 → v2 ∈ g2.2 → (v1.1 < v2.1)%Z).

Definition separate (i1 i2 : SharedBufferBatchInner.t) : Prop :=
  ∀ gs1 gs2, holds_groups i1 gs1 → holds_groups i2 gs2 → separated gs1 gs2.

Lemma separate_sym i1 i2 : separate i1 i2 → separate i2 i1.
Proof.
  intros H gs1 gs2 H1 H2 g1 g2 Hg1 Hg2 E. destruct (H gs2 gs1 H2 H1 g2 g1 Hg2 Hg1 (eq_sym E)); [right|left]; auto.
Qed.

Lemma pairwise_perm {A} (R : A → A → Prop) (HR : ∀ x y, R x y → R y x) l1 l2 :
  l1 ≡ₚ l2 → StronglySorted R l1 → StronglySorted R l2.
Proof.
  induction 1 as [|x l1 l2 Hp IH|x y l|l1 l2 l3 _ IH1 _ IH2]; [done| | |by auto].
  - inversion 1; subst. constructor; [by apply IH|]. by rewrite <-Hp.
  - inversion 1 as [|? ? Hs Hf]; subst. inversion Hs as [|? ? Hs' Hf']; subst. apply Forall_cons in Hf as [Hxy Hf].
    constructor; [by constructor|]. constructor; [by apply HR|done].
Qed.

Lemma pairwise_two {A} (R : A → A → Prop) (HR : ∀ x y, R x y → R y x) l x y l' :
  StronglySorted R l → l ≡ₚ x :: y :: l' → R x y.
Proof.
  intros Hs Hp. pose proof (pairwise_perm R HR _ _ Hp Hs) as H. inversion H as [|? ? _ Hf]; subst.
  by apply Forall_cons in Hf as [? _].
Qed.

(** The entries of a key of one batch come before those of any other batch that are not before
    one of them. *)
Lemma key_before g g2 gs gs2 x y e :
  separated gs gs2 → g ∈ gs → e ∈ group_kvs table g → x ∈ group_kvs table g → g2 ∈ gs2 → y ∈ group_kvs table g2 →
  kv_le DirectionEnum.Forward e y → kv_le DirectionEnum.Forward x y.
Proof.
  intros Hsep Hg (ve & -> & Hve)%list_elem_of_fmap (vx & -> & Hvx)%list_elem_of_fmap Hg2 (vy & -> & Hvy)%list_elem_of_fmap.
  unfold kv_le. cbn [dir_cmp kv_of fst]. unfold FullKey.cmp. cbn [FullKey.new_with_gap_epoch FullKey.user_key FullKey.epoch_with_gap].
  rewrite user_key_cmp_same. destruct (bytes_cmp g.1 g2.1) eqn:E; [|done|done].
  apply (cmp_eq_iff bytes_cmp) in E. cbn. rewrite Z.compare_gt_iff. intros Hle.
  destruct (Hsep g g2 Hg Hg2 E) as [H|H]; [pose proof (H vx vy Hvx Hvy)|pose proof (H ve vy Hve Hvy)]; intros C%Z.compare_gt_iff; lia.
Qed.

(** ** The walk over whole keys *)
Section walk.
Context (inners : list SharedBufferBatchInner.t) (all : list kv).
Hypothesis inners_separate : StronglySorted separate inners.
Hypothesis inners_olds : Forall olds_ok inners.

Definition walks (rest : list kv) m : Prop :=
  mstands all rest m ∧ Forall at_start (MergeIterator.heap m) ∧ (λ it, batch_of it) <$> iters m ≡ₚ inners.

(** Two iterators of the merge are over separate batches. *)
Lemma others_separate (us : list fwd) it h (hs : list (fwd * list kv * list kv)) :
  (λ it, batch_of it) <$> us ++ it :: ((λ h, h.1.1) <$> hs) ≡ₚ inners → h ∈ hs → separate (batch_of it) (batch_of h.1.1).
Proof.
  intros Hp [hs' Hh]%elem_of_Permutation.
  apply (pairwise_two separate separate_sym inners _ _ (((λ it, batch_of it) <$> us) ++ ((λ it, batch_of it) <$> ((λ h, h.1.1) <$> hs'))) inners_separate).
  rewrite <-Hp, Hh, fmap_app. cbn. rewrite <-!Permutation_middle. done.
Qed.

(** What is ahead begins with the whole key of the top iterator. *)
Lemma rest_split (us : list fwd) it hs a e r rest gs i g :
  (λ it, batch_of it) <$> us ++ it :: ((λ h, h.1.1) <$> hs) ≡ₚ inners →
  bstands a (e :: r) it → Forall (node_ok (I := fwd) False (in_table table) (spec := batch_spec table False)) hs →
  holds_groups (batch_of it) gs → gs !! i = Some g → e :: r = group_kvs table g ++ kvs_of table (drop (S i) gs) →
  coherent (e :: rest) → sorted DirectionEnum.Forward (e :: rest) → rest ≡ₚ r ++ mjoin hs.*2 →
  ∃ rest', e :: rest = group_kvs table g ++ rest' ∧ rest' ≡ₚ kvs_of table (drop (S i) gs) ++ mjoin hs.*2.
Proof.
  intros Hin Hst Hhs H Hi Hr Hc Hs Hp. set (l := kvs_of table (drop (S i) gs) ++ mjoin hs.*2).
  exists (merge_sort (kv_le DirectionEnum.Forward) l). split; [|apply merge_sort_Permutation].
  apply (sorted_unique DirectionEnum.Forward); [done|done| |].
  2: { rewrite merge_sort_Permutation. unfold l. rewrite app_assoc, <-Hr. cbn. by rewrite Hp. }
  pose proof (owns_sorted (IteratorSpec := batch_spec table False) _ _ (stands_owns (IteratorSpec := batch_spec table False) _ _ _ Hst)) as Hsa.
  apply (sorted_suffix _ _ _ (stands_suffix (IteratorSpec := batch_spec table False) _ _ _ Hst)) in Hsa.
  rewrite Hr in Hsa. apply StronglySorted_app in Hsa as (Hcross & Hsg & _).
  apply StronglySorted_app. split; [|split; [done|apply StronglySorted_merge_sort; apply _]].
  intros x y Hx Hy. rewrite merge_sort_Permutation in Hy. apply elem_of_app in Hy as [Hy|Hy]; [by apply Hcross|].
  assert (kv_le DirectionEnum.Forward e y) as Hey.
  { inversion Hs as [|? ? _ Hf]; subst. rewrite Forall_forall in Hf. apply Hf. rewrite Hp. apply elem_of_app. by right. }
  apply list_elem_of_join in Hy as (lh & Hy & (h & -> & Hh)%list_elem_of_fmap).
  rewrite Forall_forall in Hhs. destruct (Hhs h Hh) as [Hsth _].
  pose proof (stands_suffix (IteratorSpec := batch_spec table False) _ _ _ Hsth) as [p Hsuf].
  destruct Hsth as (_ & gs2 & _ & H2 & Ha2 & _).
  assert (y ∈ kvs_of table gs2) as (g2 & v2 & Hg2 & Hv2 & ->)%kvs_elem by (rewrite <-Ha2, Hsuf; apply elem_of_app; by right).
  apply (key_before g g2 gs gs2 x _ e); [|by eapply list_elem_of_lookup_2| |done|done| |done].
  - by apply (others_separate us it h hs).
  - destruct (hg_ok _ _ H) as [_ Hok]. rewrite Forall_lookup in Hok. destruct (Hok i g Hi) as [Hne _].
    destruct g as [k [|v vs]]; [done|]. injection Hr as -> _. by left.
  - unfold group_kvs. by apply (list_elem_of_fmap_2 (kv_of table g2.1)).
Qed.

(** The top iterator is moved past its key and put back. *)
Lemma replace_top (us : list (fwd * list kv)) it' hs a rg rest' :
  bstands a rg it' → (rg ≠ [] → at_start it') → Forall (λ u, bstands u.2 [] u.1) us →
  Forall (node_ok (I := fwd) False (in_table table) (spec := batch_spec table False)) hs → Forall (λ h, at_start h.1.1) hs →
  sorted DirectionEnum.Forward all → all ≡ₚ mjoin us.*2 ++ a ++ mjoin ((λ h, h.1.2) <$> hs) → coherent all →
  rest' `suffix_of` all → rest' ≡ₚ rg ++ mjoin hs.*2 →
  (λ it, batch_of it) <$> us.*1 ++ it' :: ((λ h, h.1.1) <$> hs) ≡ₚ inners →
  ∃ m', (valid ← HummockIterator.is_valid it';
         if negb valid then
           h ← arrange Pop MergeIterator.node_cmp ((λ h, h.1.1) <$> hs); Ret (MergeIterator.mk (us.*1 ++ [it']) h)
         else
           h ← arrange Used MergeIterator.node_cmp (it' :: ((λ h, h.1.1) <$> hs)); Ret (MergeIterator.mk us.*1 h)) = Ret m' ∧
    walks rest' m'.
Proof.
  intros Hst Hstart Hus Hhs Hss Hs Hp Hc Hsuf Hr Hin. rewrite (stands_valid (IteratorSpec := batch_spec table False) _ _ _ Hst).
  destruct rg as [|e rg]; cbn [mbind outcome_bind negb].
  - destruct (arrange_nodes False (in_table table) (spec := batch_spec table False) Pop hs Hhs) as (hs' & -> & Hp' & Htop).
    eexists. split; [done|]. split; [|split].
    + exists (us ++ [(it', a)]), hs'. split; [by rewrite fmap_app|]. split; [by rewrite Forall_app, Forall_singleton|].
      split; [by rewrite Hp'|]. do 2 (split; [done|]). split; [|do 2 (split; [done|]); by rewrite Hp'].
      rewrite Hp, fmap_app, join_app, Hp'. cbn. by rewrite app_nil_r, <-app_assoc.
    + cbn. apply Forall_fmap. by rewrite Hp'.
    + rewrite <-Hin. cbn. rewrite Hp', <-app_assoc. done.
  - destruct (arrange_nodes False (in_table table) (spec := batch_spec table False) Used ((it', a, e :: rg) :: hs)) as (hs' & Hrun & Hp' & Htop);
      [by constructor|]. cbn [fmap list_fmap fst] in Hrun. rewrite Hrun. eexists. split; [done|]. split; [|split].
    + exists us, hs'. do 2 (split; [done|]). split; [rewrite Hp'; by constructor|]. do 2 (split; [done|]).
      split; [by rewrite Hp, Hp'|]. do 2 (split; [done|]). by rewrite Hr, Hp'.
    + cbn. apply Forall_fmap. rewrite Hp'. constructor; [by apply Hstart|done].
    + rewrite <-Hin. cbn. by rewrite Hp'.
Qed.

(** One key: the top iterator has all that is next of it. *)
Lemma walk_step e rest m :
  walks (e :: rest) m →
  ∃ g rest' olds inner m', e :: rest = group_kvs table g ++ rest' ∧ g.2 ≠ [] ∧
    StronglySorted (λ v1 v2 : version, (v2.1 < v1.1)%Z) g.2 ∧ merge_current_key_entry m = Ret (g.1, g.2, olds) ∧
    inner ∈ inners ∧ key_olds inner (length g.2) olds ∧ advance_peek_to_next_key m = Ret m' ∧ walks rest' m'.
Proof.
  intros (Hm & Hss & Hin). assert (e :: rest `suffix_of` all) as Hsuf by (by destruct Hm as (? & ? & _ & _ & _ & _ & _ & _ & _ & ? & _)).
  apply merge_head in Hm as (us & it & a & r & hs & -> & Hst & Hus & Hhs & Hs & Hp & Hc & Hsuf' & Hr).
  cbn [MergeIterator.heap MergeIterator.unused_iters] in Hss, Hin. apply Forall_cons in Hss as [Hat Hss]. rewrite Forall_fmap in Hss.
  destruct (group_at it a e r Hst Hat) as (gs & i & g & H & Hne & Hi & -> & Er & Hv).
  destruct (rest_split us.*1 it hs (kvs_of table gs) e r rest gs i g) as (rest' & Erest & Hr'); [done..| | |done|].
  { eapply coherent_sub; [|exact Hc]. intros x Hx. destruct Hsuf as [p ->]. apply elem_of_app. by right. }
  { by eapply sorted_suffix. }
  assert (batch_of it ∈ inners) as Hit by (rewrite <-Hin, fmap_app; apply elem_of_app; right; by left).
  rewrite Forall_forall in inners_olds.
  destruct (key_entry_ok it gs i g H Hi Hv) as (olds & Hentry & Holds); [by auto|].
  destruct (advance_key_ok it gs i g H Hne Hi Hv) as (it' & Hadv & Hst' & Hb & Hstart); [by destruct Hst|].
  destruct (replace_top us it' hs (kvs_of table gs) _ rest' Hst' Hstart) as (m' & Hrun & Hm'); try done.
  { destruct Hsuf as [p ->]. exists (p ++ group_kvs table g). by rewrite Erest, <-app_assoc. }
  { rewrite <-Hin, !fmap_app. cbn. by rewrite Hb. }
  destruct (hg_ok _ _ H) as [_ Hok]. rewrite Forall_lookup in Hok. destruct (Hok i g Hi) as [Hg2 Hgs].
  exists g, rest', olds, (batch_of it), m'. do 6 (split; [done|]). split; [|done].
  unfold advance_peek_to_next_key. cbn [MergeIterator.heap head tail unwrap mbind outcome_bind]. rewrite Hadv. exact Hrun.
Qed.

(** ** What is built *)

Context (has_old : bool).
Hypothesis inners_flag : Forall (λ i, match SharedBufferBatchInner.old_values i with Some _ => has_old = true | None => has_old = false end) inners.
Hypothesis all_strict : StronglySorted kv_lt all.

Definition keys_ascend gs : Prop := StronglySorted (λ g1 g2, bytes_cmp g1.1 g2.1 = Lt) gs.

(** The key [k] with the versions [vs] is the last one built, after the groups [init]. *)
Record builds (rest : list kv) (tracker : FullKeyTracker.t) (mm : merged) (init : list group) (k : TableKey.t) (vs : list version) : Prop := {
  b_entries : merged_entries mm = entries_at 0 (init ++ [(k, vs)]);
  b_values : merged_values mm = versions_of (init ++ [(k, vs)]);
  b_all : all = kvs_of table (init ++ [(k, vs)]) ++ rest;
  b_keys : keys_ascend (init ++ [(k, vs)]);
  b_full : Forall (λ g, g.2 ≠ []) init;
  b_tracker : FullKey.user_key (last_key tracker) = UserKey.mk table k;
  b_next : ∀ e, head rest = Some e → FullKey.cmp (last_key tracker) e.1 = Lt;
  b_first : vs = [] → init = [] ∧ ∃ e, head rest = Some e ∧ ukey e = UserKey.mk table k;
  b_olds : match merged_old_values mm with
           | Some l => has_old = true ∧ length l = length (merged_values mm)
           | None => has_old = false
           end
}.

Lemma merged_entries_app off gs1 gs2 :
  entries_at off (gs1 ++ gs2) = entries_at off gs1 ++ entries_at (off + length (versions_of gs1)) gs2.
Proof.
  revert off. induction gs1 as [|[k vs] gs1 IH]; intros off; [cbn; by rewrite Nat.add_0_r|].
  cbn [entries_at app]. rewrite IH, fmap_cons, join_cons, length_app, Nat.add_assoc. done.
Qed.

Lemma versions_snoc (init : list group) (k : TableKey.t) (vs : list version) : versions_of (init ++ [(k, vs)]) = versions_of init ++ vs.
Proof. rewrite fmap_app, join_app. cbn. by rewrite app_nil_r. Qed.

Lemma kvs_snoc (init : list group) (k : TableKey.t) (vs : list version) : kvs_of table (init ++ [(k, vs)]) = kvs_of table init ++ (kv_of table k <$> vs).
Proof. rewrite kvs_app. unfold kvs_of at 2. cbn. by rewrite app_nil_r. Qed.

Lemma descending_ok v (vs : list version) :
  StronglySorted (λ v1 v2 : version, (v2.1 < v1.1)%Z) (v :: vs) → descending v.1 (fst <$> vs) = true.
Proof.
  revert v. induction vs as [|v' vs IH]; intros v H; [done|]. inversion H as [|? ? Hs Hf]; subst. apply Forall_cons in Hf as [Hv _].
  rewrite fmap_cons. cbn [descending]. rewrite Z.gtb_ltb, (proj2 (Z.ltb_lt _ _) Hv). cbn [andb]. by apply IH.
Qed.

Lemma last_version_epoch v (vs : list version) : ∃ v', last (v :: vs) = Some v' ∧ default v.1 (last (fst <$> vs)) = v'.1.
Proof.
  destruct (last vs) as [v'|] eqn:E; [exists v'|exists v]; rewrite last_cons, E, fmap_last, E; done.
Qed.

Lemma olds_step inner g olds mm :
  inner ∈ inners → key_olds inner (length g.2) olds →
  match merged_old_values mm with
  | Some l => has_old = true ∧ length l = length (merged_values mm)
  | None => has_old = false
  end →
  ∃ olds', match merged_old_values mm with
           | Some olds0 => old_values ← unwrap olds; Ret (Some (olds0 ++ old_values))
           | None => Ret None
           end = Ret olds' ∧
    match olds' with
    | Some l => has_old = true ∧ length l = length (merged_values mm ++ g.2)
    | None => has_old = false
    end.
Proof.
  intros Hin Hk Hm. rewrite Forall_forall in inners_flag. specialize (inners_flag inner Hin). unfold key_olds in Hk.
  destruct (merged_old_values mm) as [l|], (SharedBufferBatchInner.old_values inner) as [l'|]; try congruence; [| |].
  - destruct Hm as [-> Hl], Hk as (os & -> & Hos). eexists. split; [done|]. cbn. by rewrite !length_app, Hl, Hos.
  - destruct Hm; congruence.
  - by exists None.
Qed.

(** The tracker accepts the versions of the next key. *)
Lemma track_key tracker g v vs0 :
  g.2 = v :: vs0 → StronglySorted (λ v1 v2 : version, (v2.1 < v1.1)%Z) g.2 →
  FullKey.cmp (last_key tracker) (kv_of table g.1 v).1 = Lt →
  ∃ tracker' v', FullKeyTracker.observe_multi_version false tracker (UserKey.mk table g.1) (fst <$> g.2) =
      Ret (tracker', negb (bool_decide (FullKey.user_key (last_key tracker) = UserKey.mk table g.1))) ∧
    last g.2 = Some v' ∧ last_key tracker' = (kv_of table g.1 v').1.
Proof.
  intros E Hs Hlt. rewrite E in Hs |- *. pose proof (observe_multi_version_ok false tracker (UserKey.mk table g.1) v.1 (fst <$> vs0)) as H.
  rewrite (descending_ok _ _ Hs) in H. unfold may_follow, cmp_ltb in H. cbn [kv_of fst FullKey.new_with_gap_epoch] in Hlt.
  unfold FullKey.new_with_gap_epoch in Hlt. rewrite Hlt in H. destruct H as (tracker' & Hrun & Hl).
  destruct (last_version_epoch v vs0) as (v' & Hv' & Ev). exists tracker', v'. split; [exact Hrun|]. split; [done|].
  rewrite Hl, Ev. done.
Qed.

(** The last entry of what follows the last version of a key. *)
Lemma next_after (p : list kv) g rest' v' :
  all = p ++ group_kvs table g ++ rest' → last g.2 = Some v' →
  ∀ e, head rest' = Some e → FullKey.cmp (kv_of table g.1 v').1 e.1 = Lt.
Proof.
  intros Ha [vs Hv]%last_Some e He. destruct rest' as [|e' rest']; [done|]. injection He as ->.
  rewrite Ha in all_strict. apply StronglySorted_app in all_strict as (_ & _ & Hs).
  apply StronglySorted_app in Hs as (Hs & _). apply (Hs (kv_of table g.1 v') e); [|by left].
  unfold group_kvs. rewrite Hv, fmap_app. apply elem_of_app. right. by left.
Qed.

Lemma cmp_next_key (x y : FullKey.t) (k k' : TableKey.t) :
  FullKey.user_key x = UserKey.mk table k → FullKey.user_key y = UserKey.mk table k' →
  FullKey.cmp x y = Lt → k ≠ k' → bytes_cmp k k' = Lt.
Proof.
  unfold FullKey.cmp. intros -> ->. rewrite user_key_cmp_same. destruct (bytes_cmp k k') eqn:E; [|done|done].
  apply (cmp_eq_iff bytes_cmp) in E. done.
Qed.

Lemma ascend_snoc init k vs g :
  keys_ascend (init ++ [(k, vs)]) → bytes_cmp k g.1 = Lt → keys_ascend ((init ++ [(k, vs)]) ++ [g]).
Proof.
  intros Hs Hk. apply StronglySorted_app. split; [|split; [done|by repeat constructor]].
  intros x y Hx ->%list_elem_of_singleton. apply elem_of_app in Hx as [Hx| ->%list_elem_of_singleton]; [|done].
  apply StronglySorted_app in Hs as (Hs & _). eapply (cmp_lt_trans bytes_cmp); [|exact Hk]. apply (Hs x (k, vs)); [done|by left].
Qed.

Lemma merge_key_ok rest rest' tracker mm init k vs g olds inner :
  builds rest tracker mm init k vs → rest = group_kvs table g ++ rest' → g.2 ≠ [] →
  StronglySorted (λ v1 v2 : version, (v2.1 < v1.1)%Z) g.2 → inner ∈ inners → key_olds inner (length g.2) olds →
  ∃ tracker' mm' init' vs', merge_key table tracker mm (g.1, g.2, olds) = Ret (tracker', mm') ∧
    builds rest' tracker' mm' init' g.1 vs' ∧ vs' ≠ [].
Proof.
  intros [He Hv Ha Hk Hf Ht Hn H1 Ho] -> Hg Hs Hin Hold. destruct (g.2) as [|v vs0] eqn:Eg; [done|].
  assert (head (group_kvs table g ++ rest') = Some (kv_of table g.1 v)) as Hh by (unfold group_kvs; by rewrite Eg).
  rewrite <-Eg in Hs, Hold. destruct (track_key tracker g v vs0 Eg Hs (Hn _ Hh)) as (tracker' & v' & Hrun & Hlast & Hl).
  unfold merge_key. rewrite <-Eg, Hrun. cbn [mbind outcome_bind]. rewrite Ht.
  destruct (olds_step inner g olds mm Hin Hold Ho) as (olds' & Eo & Ho').
  pose proof (next_after _ g rest' v' Ha Hlast) as Hnext. rewrite <-Hl in Hnext.
  destruct (decide (k = g.1)) as [->|Hne].
  - rewrite bool_decide_true by done. cbn [negb mbind outcome_bind]. rewrite Eo. cbn [mbind outcome_bind].
    eexists tracker', _, init, (vs ++ g.2). split; [done|]. split; [|by rewrite Eg; destruct vs]. constructor; cbn [merged_entries merged_values merged_old_values].
    + rewrite He, !merged_entries_app. done.
    + rewrite Hv, !versions_snoc. by rewrite app_assoc.
    + rewrite Ha, !kvs_snoc, fmap_app, <-!app_assoc. done.
    + unfold keys_ascend in *. apply StronglySorted_app in Hk as (Hk & Hk1 & _). apply StronglySorted_app. split; [|split; [done|by repeat constructor]].
      intros x y Hx ->%list_elem_of_singleton. apply (Hk x (g.1, vs)); [done|by left].
    + done.
    + by rewrite Hl.
    + done.
    + rewrite Eg. by destruct vs.
    + done.
  - rewrite bool_decide_false by (intros [=]; done). cbn [negb].
    assert (vs ≠ []) as Hvs.
    { intros E. destruct (H1 E) as (_ & e & He1 & Hu). rewrite Hh in He1. injection He1 as <-. injection Hu. congruence. }
    assert (last (merged_entries mm) = Some (SharedBufferKeyEntry.mk k (length (versions_of init)))) as ->.
    { rewrite He, merged_entries_app. cbn [entries_at Nat.add]. by rewrite last_snoc. }
    cbn [unwrap mbind outcome_bind SharedBufferKeyEntry.value_offset].
    rewrite (proj2 (Nat.eqb_neq _ _)) by (rewrite Hv, versions_snoc, length_app; destruct vs; [done|cbn; lia]).
    cbn [mbind outcome_bind]. rewrite Eo. cbn [mbind outcome_bind].
    assert (FullKeyTracker.latest_user_key tracker' = UserKey.mk table g.1) as Hu by (change (FullKey.user_key (last_key tracker') = UserKey.mk table g.1); by rewrite Hl).
    eexists tracker', _, (init ++ [(k, vs)]), g.2. split; [done|]. split; [|by rewrite Eg]. constructor; cbn [merged_entries merged_values merged_old_values].
    + rewrite (merged_entries_app 0 (init ++ [(k, vs)])), <-He, <-Hv, Hu. done.
    + rewrite (versions_snoc (init ++ [(k, vs)])), <-Hv. done.
    + rewrite (kvs_snoc (init ++ [(k, vs)])), <-app_assoc. exact Ha.
    + apply (ascend_snoc init k vs (g.1, g.2)); [done|]. by apply (cmp_next_key _ _ k g.1 Ht (kv_of_key table g.1 v) (Hn _ Hh)).
    + apply Forall_app. by repeat constructor.
    + by rewrite Hl.
    + done.
    + by rewrite Eg.
    + done.
Qed.

Lemma group_versions (k : TableKey.t) (vs : list version) :
  StronglySorted kv_lt (kv_of table k <$> vs) → StronglySorted (λ v1 v2 : version, (v2.1 < v1.1)%Z) vs.
Proof.
  induction vs as [|v vs IH]; [constructor|]. rewrite fmap_cons. inversion 1 as [|? ? Hs Hf]; subst. constructor; [by apply IH|].
  rewrite Forall_fmap in Hf. eapply Forall_impl; [exact Hf|]. intros v'. unfold compose, kv_lt, FullKey.cmp. cbn.
  rewrite user_key_cmp_same, (cmp_refl bytes_cmp). cbn. apply Z.compare_lt_iff.
Qed.

Lemma strict_groups_ok gs :
  StronglySorted kv_lt (kvs_of table gs) → keys_ascend gs → Forall (λ g, g.2 ≠ []) gs → groups_ok gs.
Proof.
  intros Hs Hk Hf. split; [done|]. clear Hk. induction Hf as [|g gs Hg _ IH]; [constructor|].
  unfold kvs_of in Hs. rewrite fmap_cons, join_cons in Hs. apply StronglySorted_app in Hs as (_ & Hs1 & Hs2).
  constructor; [|by apply IH]. split; [done|]. by eapply group_versions.
Qed.

(** What the finished loop has built. *)
Definition built (outs : list group) (mm : merged) : Prop :=
  merged_entries mm = entries_at 0 outs ∧ merged_values mm = versions_of outs ∧ kvs_of table outs = all ∧ groups_ok outs ∧
  outs ≠ [] ∧
  match merged_old_values mm with
  | Some l => has_old = true ∧ length l = length (merged_values mm)
  | None => has_old = false
  end.

Lemma merge_loop_ok n : ∀ rest mi tracker mm init k vs,
  length rest < n → walks rest mi → builds rest tracker mm init k vs →
  ∃ mm' outs, merge_loop n table mi tracker mm = Ret mm' ∧ built outs mm'.
Proof.
  induction n as [|n IH]; intros rest mi tracker mm init k vs Hn Hw Hb; [lia|]. cbn [merge_loop].
  pose proof (stands_valid (IteratorSpec := merge_spec False (in_table table) (spec := batch_spec table False)) _ _ _ (proj1 Hw)) as Hv.
  rewrite Hv. destruct rest as [|e rest]; cbn [mbind outcome_bind negb].
  - destruct Hb as [He Hvs Ha Hk Hf Ht Hnx H1 Ho]. eexists mm, (init ++ [(k, vs)]). split; [done|].
    rewrite app_nil_r in Ha. rewrite Ha in all_strict. split_and!; [done|done|by symmetry| |by destruct init|done].
    apply strict_groups_ok; [done|done|]. apply Forall_app. split; [done|]. repeat constructor. cbn. intros E.
    by destruct (H1 E) as (_ & e & ? & _).
  - destruct (walk_step e rest mi Hw) as (g & rest' & olds & inner & mi' & Er & Hg & Hs & Hentry & Hin & Hold & Hadv & Hw').
    rewrite Hentry. cbn [mbind outcome_bind].
    destruct (merge_key_ok _ _ _ _ _ _ _ g olds inner Hb Er Hg Hs Hin Hold) as (tracker' & mm' & init' & vs' & Hrun & Hb' & _).
    rewrite Hrun. cbn [mbind outcome_bind]. rewrite Hadv. cbn [mbind outcome_bind]. apply (IH rest' mi' tracker' mm' init' g.1 vs'); [|done|done].
    apply (f_equal length) in Er. unfold group_kvs in Er. rewrite length_app, length_fmap in Er. destruct g as [? [|]]; [done|]. cbn in *. lia.
Qed.

End walk.

(** ** Starting *)

Lemma rewind_start it it' :
  HummockIterator.rewind it = Iter.ok it' → batch_of it' = batch_of it ∧ at_start it'.
Proof.
  cbn. unfold SharedBufferBatchIterator.rewind, SharedBufferBatchIterator.settle, SharedBufferBatchIterator.reset_value_idx.
  cbn [mbind outcome_bind SharedBufferBatchIterator.set_entry SharedBufferBatchIterator.inner SharedBufferBatchIterator.current_entry_idx].
  destruct (_ !! 0) as [entry|] eqn:He; [|done]. cbn [unwrap mbind outcome_bind]. intros [= <-]. split; [done|]. by exists entry.
Qed.

Lemma rewind_all (parts : list (fwd * list kv)) :
  Forall (λ p, batch_owns table p.2 p.1) parts →
  ∃ parts', MergeIterator.try_join_all HummockIterator.rewind parts.*1 = Iter.ok parts'.*1 ∧ parts'.*2 = parts.*2 ∧
    Forall (λ p, bstands p.2 p.2 p.1) parts' ∧ Forall (λ p, at_start p.1) parts' ∧
    (λ p, batch_of p.1) <$> parts' = (λ p, batch_of p.1) <$> parts.
Proof.
  induction 1 as [|[it a] parts Ho _ IH]; [by exists []|]. destruct IH as (parts' & Hrun & E2 & Hst & Hat & Eb).
  pose proof (batch_rewind table a it Ho) as Hr. apply runs_reliable in Hr as (it' & Hit & Hs). cbn [fst snd] in *.
  destruct (rewind_start it it' Hit) as [Hb Hs'].
  exists ((it', a) :: parts'). rewrite !fmap_cons. cbn [MergeIterator.try_join_all fst snd]. change (HummockIterator.rewind it) with (SharedBufferBatchIterator.rewind it).
  rewrite Hit. cbn [and_then Iter.ok]. rewrite Hrun, E2, Eb, Hb. split_and!; [done|done|by constructor|by constructor|done].
Qed.

Lemma rewind_walks (parts : list (fwd * list kv)) all :
  Forall (λ p, batch_owns table p.2 p.1) parts → sorted DirectionEnum.Forward all → coherent all → all ≡ₚ mjoin parts.*2 →
  ∃ m, rewind_no_await (MergeIterator.create parts.*1) = Ret m ∧ walks ((λ p, batch_of p.1) <$> parts) all all m.
Proof.
  intros Ho Hs Hc Hp. destruct (rewind_all parts Ho) as (parts' & Hrun & E2 & Hst & Hat & Eb).
  assert (filter (λ _ : kv, True) all = all) as E by by apply filter_all.
  destruct (build_heap_ok False (in_table table) (spec := batch_spec table False) (λ _, True) parts' all) as (m & Hb & Hm & Hpm).
  { eapply Forall_impl; [exact Hst|]. intros p Hp'. rewrite filter_all by done. exact Hp'. }
  { done. } { by rewrite E2. } { done. } { by rewrite E. }
  exists m. split; [|split; [by rewrite E in Hm|split]].
  - unfold rewind_no_await, MergeIterator.rewind, MergeIterator.restart, MergeIterator.create, MergeIterator.reset_heap.
    cbn [MergeIterator.unused_iters MergeIterator.heap]. rewrite app_nil_r, Hrun. cbn [and_then Iter.ok mbind outcome_bind].
    rewrite Hb. done.
  - assert (Forall at_start (iters m)) as Ha by (rewrite Hpm; by apply Forall_fmap). by apply Forall_app in Ha as [_ Ha].
  - rewrite Hpm, <-list_fmap_compose, <-Eb. done.
Qed.

(** ** The entries of several batches, newest batch first *)

Definition newer gs1 gs2 : Prop :=
  ∀ g1 g2 v1 v2, g1 ∈ gs1 → g2 ∈ gs2 → g1.1 = g2.1 → v1 ∈ g1.2 → v2 ∈ g2.2 → (v2.1 < v1.1)%Z.

Abbreviation kvs_all gss := (mjoin (kvs_of table <$> gss)).
Abbreviation merged_kvs gss := (merge_sort (kv_le DirectionEnum.Forward) (kvs_all gss)).

Lemma groups_unique (gs1 gs2 : list group) : ∀ off,
  entries_at off gs1 = entries_at off gs2 → versions_of gs1 = versions_of gs2 → gs1 = gs2.
Proof.
  revert gs2. induction gs1 as [|[k1 vs1] gs1 IH]; intros [|[k2 vs2] gs2] off; try done. cbn [entries_at]. intros [= <- He].
  rewrite !fmap_cons, !join_cons. cbn [snd]. intros Hv.
  assert (length vs1 = length vs2) as Hl.
  { destruct gs1 as [|[k v] gs1], gs2 as [|[k' v'] gs2]; try done; [cbn in Hv; by rewrite !app_nil_r in Hv; subst|].
    cbn in He. injection He as _ ? _. lia. }
  apply app_inj_1 in Hv as [-> Hv]; [|done]. f_equal. by eapply IH.
Qed.

Lemma holds_unique inner gs1 gs2 : holds_groups inner gs1 → holds_groups inner gs2 → gs1 = gs2.
Proof. intros [E1 V1 _] [E2 V2 _]. apply (groups_unique gs1 gs2 0); congruence. Qed.

Lemma newer_separate (bs : list (SharedBufferBatch.t * list group)) :
  Forall (λ b, holds_groups (SharedBufferBatch.inner b.1) b.2) bs → StronglySorted newer bs.*2 →
  StronglySorted separate ((λ b, SharedBufferBatch.inner b.1) <$> bs).
Proof.
  induction 1 as [|b bs Hb Hbs IH]; [constructor|]. rewrite !fmap_cons. inversion 1 as [|? ? Hs Hf]; subst. constructor; [by apply IH|].
  apply Forall_fmap, Forall_forall. intros b' Hb' gs1 gs2 H1 H2. rewrite Forall_forall in Hbs. specialize (Hbs b' Hb').
  pose proof (holds_unique _ _ _ H1 Hb) as ->. pose proof (holds_unique _ _ _ H2 Hbs) as ->.
  rewrite Forall_fmap, Forall_forall in Hf. specialize (Hf b' Hb'). intros g1 g2 Hg1 Hg2 E. left. intros v1 v2.
  by apply (Hf g1 g2 v1 v2).
Qed.

Lemma strict_nodup l : StronglySorted kv_lt l → NoDup l.*1.
Proof.
  induction 1 as [|e l Hs IH Hf]; [constructor|]. rewrite fmap_cons. constructor; [|done].
  intros (e' & E & He')%list_elem_of_fmap. rewrite Forall_forall in Hf. specialize (Hf e' He'). unfold kv_lt in Hf.
  by rewrite E, (cmp_refl FullKey.cmp) in Hf.
Qed.

Lemma sorted_strict l : sorted DirectionEnum.Forward l → NoDup l.*1 → StronglySorted kv_lt l.
Proof.
  induction 1 as [|e l Hs IH Hf]; [constructor|]. rewrite fmap_cons. intros [Hn Hd]%NoDup_cons. constructor; [by apply IH|].
  apply Forall_forall. intros e' He'. rewrite Forall_forall in Hf. specialize (Hf e' He'). unfold kv_le, kv_lt in *. cbn in Hf.
  apply (cmp_le_cases FullKey.cmp) in Hf as [|E]; [done|]. destruct Hn. rewrite E. by apply list_elem_of_fmap_2.
Qed.

Lemma kvs_disjoint gs1 gs2 e1 e2 : newer gs1 gs2 → e1 ∈ kvs_of table gs1 → e2 ∈ kvs_of table gs2 → e1.1 ≠ e2.1.
Proof.
  intros Hn (g1 & v1 & Hg1 & Hv1 & ->)%kvs_elem (g2 & v2 & Hg2 & Hv2 & ->)%kvs_elem [= Ek Ev].
  pose proof (Hn g1 g2 v1 v2 Hg1 Hg2 Ek Hv1 Hv2). lia.
Qed.

Lemma kvs_all_elem gss e : e ∈ kvs_all gss ↔ ∃ gs, gs ∈ gss ∧ e ∈ kvs_of table gs.
Proof.
  rewrite list_elem_of_join. split; [intros (l & He & (gs & -> & Hgs)%list_elem_of_fmap); by exists gs|].
  intros (gs & Hgs & He). exists (kvs_of table gs). split; [done|]. by apply list_elem_of_fmap_2.
Qed.

Lemma merged_strict gss : StronglySorted newer gss → Forall groups_ok gss → StronglySorted kv_lt (merged_kvs gss).
Proof.
  intros Hn Hok. apply sorted_strict; [apply StronglySorted_merge_sort; apply _|]. rewrite merge_sort_Permutation.
  induction Hn as [|gs gss Hn IH Hf]; [constructor|]. apply Forall_cons in Hok as [Hg Hok]. rewrite fmap_cons, join_cons, fmap_app.
  apply NoDup_app. split; [by apply strict_nodup, kvs_sorted|]. split; [|by apply IH].
  intros k (e1 & -> & H1)%list_elem_of_fmap (e2 & E & (gs2 & Hgs2 & H2)%kvs_all_elem)%list_elem_of_fmap.
  rewrite Forall_forall in Hf. by apply (kvs_disjoint gs gs2 e1 e2 (Hf gs2 Hgs2) H1 H2).
Qed.

(** The versions of a key that a reader sees come batch by batch. *)
Lemma sees_merged k read gss :
  StronglySorted newer gss → Forall groups_ok gss →
  filter (sees table k read) (merged_kvs gss) = mjoin ((λ gs, filter (sees table k read) (kvs_of table gs)) <$> gss).
Proof.
  intros Hn Hok. destruct (strict_sorted _ (merged_strict gss Hn Hok)) as [Hs Hc].
  apply (sorted_unique DirectionEnum.Forward).
  - eapply coherent_sub; [|exact Hc]. intros x [_ Hx]%list_elem_of_filter. done.
  - by apply sorted_filter.
  - clear Hs Hc. induction Hn as [|gs gss Hn IH Hf]; [constructor|]. apply Forall_cons in Hok as [Hg Hok]. rewrite fmap_cons, join_cons.
    apply StronglySorted_app. split; [|split; [by apply sorted_filter, strict_sorted, kvs_sorted|by apply IH]].
    intros x y [[Ux _] (g1 & v1 & Hg1 & Hv1 & ->)%kvs_elem]%list_elem_of_filter
      (l & Hy & (gs2 & -> & Hgs2)%list_elem_of_fmap)%list_elem_of_join.
    apply list_elem_of_filter in Hy as [[Uy _] (g2 & v2 & Hg2 & Hv2 & ->)%kvs_elem].
    rewrite Forall_forall in Hf. injection Ux as E1. injection Uy as E2.
    pose proof (Hf gs2 Hgs2 g1 g2 v1 v2 Hg1 Hg2 (eq_trans E1 (eq_sym E2)) Hv1 Hv2). unfold kv_le, kv_of. cbn. unfold FullKey.cmp. cbn.
    rewrite user_key_cmp_same, E1, E2, (cmp_refl bytes_cmp). cbn. intros C%Z.compare_gt_iff. lia.
  - rewrite merge_sort_Permutation, filter_mjoin, <-list_fmap_compose. done.
Qed.

(** A read of several batches: the first that has the key answers. *)
Fixpoint get_newest (imms : list SharedBufferBatch.t) (k : TableKey.t) (read : Z) : outcome (option (HummockValue.t * Z)) :=
  match imms with
  | [] => Ret None
  | imm :: imms =>
      r ← SharedBufferBatch.get imm k read;
      match r with Some _ => Ret r | None => get_newest imms k read end
  end.

Lemma get_newest_ok (bs : list (SharedBufferBatch.t * list group)) k read :
  Forall (λ b, holds_groups (SharedBufferBatch.inner b.1) b.2) bs → StronglySorted newer bs.*2 →
  get_newest bs.*1 k read =
  Ret ((λ e : kv, (e.2, FullKey.epoch_with_gap e.1)) <$> head (filter (sees table k read) (merged_kvs bs.*2))).
Proof.
  intros Hb Hn. rewrite sees_merged; [|done|apply Forall_fmap; eapply Forall_impl; [exact Hb|]; by intros b []]. clear Hn.
  induction Hb as [|b bs Hb _ IH]; [done|]. rewrite !fmap_cons, join_cons. cbn [get_newest].
  unfold SharedBufferBatch.get. rewrite (get_value_ok table _ _ k read Hb), IH. cbn [mbind outcome_bind].
  by destruct (filter (sees table k read) (kvs_of table b.2)).
Qed.

(** ** Batches that may be merged *)
Record mergeable (bs : list (SharedBufferBatch.t * list group)) (has_old : bool) : Prop := {
  mg_some : bs ≠ [];
  mg_ids : is_sorted (reverse ((λ imm, SharedBufferBatchInner.batch_id (SharedBufferBatch.inner imm)) <$> bs.*1)) = true;
  mg_table : Forall (λ b, SharedBufferBatch.table_id b.1 = table) bs;
  mg_holds : Forall (λ b, holds_groups (SharedBufferBatch.inner b.1) b.2) bs;
  mg_keys : Forall (λ b, b.2 ≠ []) bs;
  mg_old : Forall (λ b, olds_ok (SharedBufferBatch.inner b.1) ∧ SharedBufferBatch.has_old_value b.1 = has_old) bs;
  mg_epochs : Forall (λ b, SharedBufferBatchInner.epochs (SharedBufferBatch.inner b.1) ≠ []) bs;
  mg_newer : StronglySorted newer bs.*2;
  mg_max : Forall (λ e : kv, (FullKey.epoch_with_gap e.1 < EpochWithGap.new_max_epoch)%Z) (kvs_all bs.*2)
}.

Section start.
Context (bs : list (SharedBufferBatch.t * list group)) (has_old : bool) (H : mergeable bs has_old).
Abbreviation inners := ((λ b, SharedBufferBatch.inner b.1) <$> bs).
Abbreviation all := (merged_kvs bs.*2).

Lemma mg_strict : StronglySorted kv_lt all.
Proof.
  apply merged_strict; [apply H|]. apply Forall_fmap. eapply Forall_impl; [apply (mg_holds _ _ H)|]. by intros b [].
Qed.

Lemma mg_nonempty : all ≠ [].
Proof.
  destruct H as [Hne _ _ Hh Hk _ _ _ _]. destruct bs as [|b bs']; [done|]. apply Forall_cons in Hh as [Hh _], Hk as [Hk _].
  destruct (hg_ok _ _ Hh) as [_ Hok]. destruct b as [imm [|[k vs] gs]]; [done|]. apply Forall_cons in Hok as [[Hvs _] _].
  intros E. pose proof (merge_sort_Permutation (kv_le DirectionEnum.Forward) (kvs_all ((imm, (k, vs) :: gs) :: bs').*2)) as Hp.
  rewrite E in Hp. apply Permutation_nil in Hp. cbn in Hp. by destruct vs.
Qed.

(** The state before the loop. *)
Lemma builds_start (g : group) e rest rest' :
  all = e :: rest → e :: rest = group_kvs table g ++ rest' → g.2 ≠ [] →
  builds all has_old all (FullKeyTracker.new (FullKey.new_with_gap_epoch table g.1 EpochWithGap.new_max_epoch))
    (mk_merged [SharedBufferKeyEntry.mk g.1 0] [] (if has_old then Some [] else None)) [] g.1 [].
Proof.
  intros Ea Er Hg. assert (∃ v, e = kv_of table g.1 v) as [v ->].
  { destruct g as [k [|v vs]]; [done|]. injection Er as -> _. by exists v. }
  assert ((FullKey.epoch_with_gap (kv_of table g.1 v).1 < EpochWithGap.new_max_epoch)%Z) as Hlt.
  { pose proof (mg_max _ _ H) as Hm. rewrite Forall_forall in Hm. apply Hm.
    rewrite <-(merge_sort_Permutation (kv_le DirectionEnum.Forward)), Ea. by left. }
  constructor; cbn; try done.
  - by repeat constructor.
  - rewrite Ea. intros e' [= <-]. unfold FullKey.cmp. cbn. rewrite user_key_cmp_same, (cmp_refl bytes_cmp). by apply Z.compare_lt_iff.
  - intros _. split; [done|]. rewrite Ea. by eexists.
  - by destruct has_old.
Qed.

Lemma rmap_ret {A B} (f : A → outcome B) (h : A → B) l : Forall (λ a, f a = Ret (h a)) l → rmap f l = Ret (h <$> l).
Proof. intros Hf. apply rmap_Ret, Forall2_fmap_r, Forall_Forall2_diag, Hf. Qed.

(** The iterators of the batches. *)
Abbreviation start_iter b := (SharedBufferBatchIterator.mk (SharedBufferBatch.inner b.1) 0 0 0 table : fwd).

Lemma iters_ok :
  rmap (λ imm, SharedBufferBatchIterator.new (SharedBufferBatch.inner imm) (SharedBufferBatch.table_id imm)) bs.*1 =
  Ret ((λ b, (start_iter b, kvs_of table b.2)) <$> bs).*1 ∧
  Forall (λ p : fwd * list kv, batch_owns table p.2 p.1) ((λ b, (start_iter b, kvs_of table b.2)) <$> bs).
Proof.
  split.
  - apply rmap_Ret. rewrite <-list_fmap_compose, Forall2_fmap. apply Forall_Forall2_diag. eapply Forall_impl; [apply (mg_table _ _ H)|].
    intros b <-. done.
  - apply Forall_fmap, Forall_forall. intros b Hb. split; [done|]. exists b.2.
    pose proof (mg_keys _ _ H) as Hk. pose proof (mg_holds _ _ H) as Hh. rewrite Forall_forall in Hk, Hh. split; [by apply Hk|]. split; [by apply Hh|done].
Qed.

Lemma asserts_ok :
  ∃ us, rmap (λ imm, rassert (0 <? SharedBufferBatch.key_count imm);; rassert (table =? SharedBufferBatch.table_id imm)%Z) bs.*1 = Ret us.
Proof.
  eexists. apply (rmap_ret _ (λ _, tt)). apply Forall_fmap, Forall_forall. intros b Hb.
  pose proof (mg_keys _ _ H) as Hk. pose proof (mg_holds _ _ H) as Hh. pose proof (mg_table _ _ H) as Ht. rewrite Forall_forall in Hk, Hh, Ht.
  cbn. unfold SharedBufferBatch.key_count. rewrite (entry_count _ _ (Hh b Hb)), (Ht b Hb), Z.eqb_refl.
  specialize (Hk b Hb). by destruct (b.2).
Qed.

Lemma epochs_ok : ∃ es, rmap SharedBufferBatch.min_epoch bs.*1 = Ret es.
Proof.
  eexists. apply (rmap_ret _ (λ imm, default 0%Z (head (SharedBufferBatchInner.epochs (SharedBufferBatch.inner imm))))).
  apply Forall_fmap. eapply Forall_impl; [apply (mg_epochs _ _ H)|]. intros b Hb. cbv beta in Hb. unfold compose. unfold SharedBufferBatch.min_epoch.
  by destruct (SharedBufferBatchInner.epochs (SharedBufferBatch.inner b.1)).
Qed.

Lemma fuel_ok : length all = sum_list (SharedBufferBatch.value_count <$> bs.*1).
Proof.
  rewrite merge_sort_Permutation. pose proof (mg_holds _ _ H) as Hh. clear H.
  induction Hh as [|b bs' Hb _ IH]; [done|]. rewrite !fmap_cons, join_cons, length_app, IH. cbn [sum_list sum_list_with foldr]. f_equal.
  unfold SharedBufferBatch.value_count. rewrite (hg_values _ _ Hb). unfold kvs_of. generalize (b.2) as gs0. clear.
  induction gs0 as [|g gs IH]; [done|]. rewrite !fmap_cons, !join_cons, !length_app, IH. unfold group_kvs. by rewrite length_fmap.
Qed.

(** The loop from the start. *)
Lemma merge_run :
  ∃ mi k vs olds mm outs,
    rewind_no_await (MergeIterator.create ((λ b, (start_iter b, kvs_of table b.2)) <$> bs).*1) = Ret mi ∧
    HummockIterator.is_valid mi = Ret true ∧ merge_current_key_entry mi = Ret (k, vs, olds) ∧
    merge_loop (S (sum_list (SharedBufferBatch.value_count <$> bs.*1))) table mi
      (FullKeyTracker.new (FullKey.new_with_gap_epoch table k EpochWithGap.new_max_epoch))
      (mk_merged [SharedBufferKeyEntry.mk k 0] [] (if has_old then Some [] else None)) = Ret mm ∧
    built all has_old outs mm.
Proof.
  destruct iters_ok as [_ Hown]. destruct (strict_sorted _ mg_strict) as [Hs Hc].
  destruct (rewind_walks _ all Hown Hs Hc) as (mi & Hrw & Hw).
  { rewrite merge_sort_Permutation, <-!list_fmap_compose. done. }
  rewrite <-list_fmap_compose in Hw. change (walks inners all all mi) in Hw.
  pose proof (newer_separate bs (mg_holds _ _ H) (mg_newer _ _ H)) as Hsep.
  assert (Forall olds_ok inners) as Holds by (apply Forall_fmap; eapply Forall_impl; [apply (mg_old _ _ H)|]; by intros b []).
  assert (Forall (λ i, match SharedBufferBatchInner.old_values i with Some _ => has_old = true | None => has_old = false end) inners) as Hflag.
  { apply Forall_fmap. eapply Forall_impl; [apply (mg_old _ _ H)|]. intros b [_ Hb]. cbn. unfold SharedBufferBatch.has_old_value in Hb.
    by destruct (SharedBufferBatchInner.old_values _). }
  pose proof (stands_valid (IteratorSpec := merge_spec False (in_table table) (spec := batch_spec table False)) _ _ _ (proj1 Hw)) as Hv.
  destruct (all) as [|e rest] eqn:Ea; [by destruct mg_nonempty|]. rewrite <-Ea in *.
  assert (walks inners all (e :: rest) mi) as Hw' by by rewrite <-Ea.
  destruct (walk_step inners all Hsep Holds e rest mi Hw') as (g & rest' & olds & inner & mi' & Er & Hg & Hgs & Hentry & _).
  destruct (merge_loop_ok inners all Hsep Holds has_old Hflag mg_strict (S (sum_list (SharedBufferBatch.value_count <$> bs.*1))) all mi
    _ _ _ _ _ ltac:(rewrite fuel_ok; lia) Hw (builds_start g e rest rest' Ea Er Hg)) as (mm & outs & Hrun & Hb).
  exists mi, g.1, g.2, olds, mm, outs. split_and!; done.
Qed.
(** The whole function. *)
Lemma merge_imms_run :
  ∃ b mm outs es,
    merge_imms_in_memory table bs.*1 = Ret (SharedBufferBatch.mk (SharedBufferBatchInner.mk (merged_entries mm) (merged_values mm)
      (merged_old_values mm) (merge_sort Z.le es) (foldr Z.add 0%Z ((λ imm, SharedBufferBatchInner.size (SharedBufferBatch.inner imm)) <$> bs.*1))
      (SharedBufferBatchInner.batch_id (SharedBufferBatch.inner b))) table) ∧
    built all has_old outs mm ∧ head bs.*1 = Some b ∧ rmap SharedBufferBatch.min_epoch bs.*1 = Ret es.
Proof.
  destruct merge_run as (mi & k & vs & olds & mm & outs & Hrw & Hv & Hentry & Hloop & Hb).
  destruct iters_ok as [Hits _], asserts_ok as [us Hus], epochs_ok as [es Hes].
  pose proof Hb as (He & Hvals & _ & Hok & Hne & _). pose proof (mg_old _ _ H) as Ho. rewrite Forall_forall in Ho.
  assert (∃ b, head bs.*1 = Some b ∧ SharedBufferBatch.has_old_value b = has_old) as (b & Hhead & Hfirst).
  { pose proof (mg_some _ _ H). destruct bs as [|b bs']; [done|]. exists b.1. split; [done|]. apply Ho. by left. }
  assert (forallb (λ imm, Bool.eqb (SharedBufferBatch.has_old_value imm) has_old) bs.*1 = true) as Hsame.
  { apply forallb_forall. intros imm Him%list_elem_of_In. apply list_elem_of_fmap in Him as (b' & -> & Hb').
    destruct (Ho b' Hb') as [_ ->]. by destruct has_old. }
  assert (length (merged_entries mm) <= length (merged_values mm)) as Hlen.
  { rewrite He, Hvals, entries_length. destruct Hok as [_ Hok]. clear -Hok. induction Hok as [|g gs [Hg _] _ IH]; [done|].
    rewrite fmap_cons, join_cons, length_app. destruct (g.2); [done|]. cbn. lia. }
  exists b, mm, outs, es. split; [|done].
  unfold merge_imms_in_memory. rewrite (mg_ids _ _ H), Hhead. cbn [rassert unwrap mbind outcome_bind].
  rewrite Hfirst, Hsame. cbn [rassert mbind outcome_bind]. rewrite Hus. cbn [mbind outcome_bind].
  rewrite Hes. cbn [mbind outcome_bind]. rewrite Hits. cbn [mbind outcome_bind].
  rewrite Hrw. cbn [mbind outcome_bind]. rewrite Hv. cbn [rassert mbind outcome_bind]. rewrite Hentry. cbn [mbind outcome_bind].
  rewrite Hloop. cbn [mbind outcome_bind]. unfold SharedBufferBatchInner.new_with_multi_epoch_batches.
  rewrite (proj2 (Nat.leb_le _ _) Hlen). cbn [rassert mbind outcome_bind].
  destruct (merged_entries mm) eqn:E; [|done]. by destruct outs as [|[]].
Qed.
End start.
End merge_imm.


(** Two batches of one table: key 1 updated and key 3 deleted at the later epoch, keys 1 and 2
    written at the earlier one. *)
Definition example_groups_new : list group :=
  [([Byte.x00; Byte.x00; Byte.x01], [(131072%Z, SharedBufferValue.Update [Byte.x0b])]); ([Byte.x00; Byte.x00; Byte.x03], [(131072%Z, SharedBufferValue.Delete)])].
Definition example_groups_old : list group :=
  [([Byte.x00; Byte.x00; Byte.x01], [(65536%Z, SharedBufferValue.Insert [Byte.x0a])]); ([Byte.x00; Byte.x00; Byte.x02], [(65536%Z, SharedBufferValue.Insert [Byte.x0c])])].
Definition example_batch (gs : list group) (epoch id : Z) : SharedBufferBatch.t :=
  SharedBufferBatch.mk (SharedBufferBatchInner.mk (entries_at 0 gs) (mjoin (snd <$> gs)) None [epoch] 8 id) 7.
Definition example_batches : list (SharedBufferBatch.t * list group) :=
  [(example_batch example_groups_new 131072 2, example_groups_new); (example_batch example_groups_old 65536 1, example_groups_old)].

Lemma example_groups_ok : groups_ok example_groups_new ∧ groups_ok example_groups_old.
Proof. by repeat constructor. Qed.

Lemma example_mergeable : mergeable 7 example_batches false.
Proof.
  destruct example_groups_ok as [H1 H2]. constructor; try by repeat constructor.
  constructor; [by repeat constructor|]. repeat constructor.
  intros g1 g2 v1 v2 Hg1 Hg2 E Hv1 Hv2.
  repeat (apply elem_of_cons in Hg1 as [-> | Hg1]; [|]); try (by apply elem_of_nil in Hg1);
    repeat (apply elem_of_cons in Hg2 as [-> | Hg2]; [|]); try (by apply elem_of_nil in Hg2); try done;
    apply list_elem_of_singleton in Hv1 as ->; apply list_elem_of_singleton in Hv2 as ->; done.
Qed.

