(* ===== verification/SstMeta.v ===== *)
(** * The metadata of an SST, and reading its blocks from a byte stream

    [sstable/mod.rs]: [BlockMeta], [MonotonicDeleteEvent], [SstableMeta] with their encodings,
    and [Sstable::calculate_block_info]; the length-prefixed slices of [sstable/utils.rs]; and
    [BlockDataStream] of [block_stream.rs], which cuts a stream of packets into blocks. *)

From Stdlib Require Import ZArith Lia.
From S2P Require Import Prelude Order Bytes Epoch Bits Bitmap Vnode Key KeyRange Sst Block.

(** ** Length-prefixed slices *)
Definition put_length_prefixed_slice (s : list byte) : outcome (list byte) :=
  len ← checked_into_u32 (length s); Ret (le_bytes 4 len ++ s).

Definition get_length_prefixed_slice (buf : list byte) : outcome (list byte * list byte) :=
  '(len, buf) ← get_le 4 buf;
  v ← slice buf 0 (Z.to_nat len);
  Ret (v, drop (Z.to_nat len) buf).

(** ** [MonotonicDeleteEvent] *)
Record PointRange := mk_point_range { left_user_key : UserKey.t; is_exclude_left_key : bool }.

#[global] Instance PointRange_eq_dec : EqDecision PointRange.
Proof. solve_decision. Defined.

Module MonotonicDeleteEvent.

Record t := mk { event_key : PointRange; new_epoch : Z }.

#[global] Instance t_eq_dec : EqDecision t.
Proof. solve_decision. Defined.

Definition encode (self : t) : list byte :=
  UserKey.encode_length_prefixed (left_user_key (event_key self)) ++
  le_bytes 1 (if is_exclude_left_key (event_key self) then 1 else 0) ++
  le_bytes 8 (new_epoch self).

Definition decode (buf : list byte) : outcome (t * list byte) :=
  '(user_key, buf) ← UserKey.decode_length_prefixed buf;
  '(exclude_left_key_flag, buf) ← get_le 1 buf;
  is_exclude_left_key ←
    (if (exclude_left_key_flag =? 0)%Z then Ret false
     else if (exclude_left_key_flag =? 1)%Z then Ret true
     else Panic);
  '(new_epoch, buf) ← get_le 8 buf;
  Ret (mk (mk_point_range user_key is_exclude_left_key) new_epoch, buf).

End MonotonicDeleteEvent.

(** ** [BlockMeta] *)
Module BlockMeta.

Record t := mk {
  smallest_key : list byte;
  offset : Z;
  len : Z;
  uncompressed_size : Z;
  total_key_count : Z;
  stale_key_count : Z
}.

#[global] Instance t_eq_dec : EqDecision t.
Proof. solve_decision. Defined.

Definition encode (self : t) : outcome (list byte) :=
  key ← put_length_prefixed_slice (smallest_key self);
  Ret (le_bytes 4 (offset self) ++ le_bytes 4 (len self) ++ le_bytes 4 (uncompressed_size self) ++
       le_bytes 4 (total_key_count self) ++ le_bytes 4 (stale_key_count self) ++ key).

Definition decode (buf : list byte) : outcome (t * list byte) :=
  '(offset, buf) ← get_le 4 buf;
  '(len, buf) ← get_le 4 buf;
  '(uncompressed_size, buf) ← get_le 4 buf;
  '(total_key_count, buf) ← get_le 4 buf;
  '(stale_key_count, buf) ← get_le 4 buf;
  '(smallest_key, buf) ← get_length_prefixed_slice buf;
  Ret (mk smallest_key offset len uncompressed_size total_key_count stale_key_count, buf).

Definition decode_from_v1 (buf : list byte) : outcome (t * list byte) :=
  '(offset, buf) ← get_le 4 buf;
  '(len, buf) ← get_le 4 buf;
  '(uncompressed_size, buf) ← get_le 4 buf;
  '(smallest_key, buf) ← get_length_prefixed_slice buf;
  Ret (mk smallest_key offset len uncompressed_size 0 0, buf).

Definition encoded_size (self : t) : nat := 24 + length (smallest_key self).

Definition table_id (self : t) : outcome Z :=
  key ← FullKey.decode (smallest_key self); Ret (UserKey.table_id (FullKey.user_key key)).

End BlockMeta.

(** ** [SstableMeta] *)
Module SstableMeta.

Definition MAGIC : Z := 0x5785ab73.
Definition OLD_VERSION : Z := 1.
Definition VERSION : Z := 2.

Record t := mk {
  block_metas : list BlockMeta.t;
  bloom_filter : list byte;
  estimated_size : Z;
  key_count : Z;
  smallest_key : list byte;
  largest_key : list byte;
  meta_offset : Z;
  monotonic_tombstone_events : list MonotonicDeleteEvent.t;
  version : Z
}.

#[global] Instance t_eq_dec : EqDecision t.
Proof. solve_decision. Defined.

Section meta.
Context (xxh64 : list byte → Z).

(** The bytes the checksum is taken over. *)
Definition encode_body (self : t) : outcome (list byte) :=
  n ← checked_into_u32 (length (block_metas self));
  metas ← rmap BlockMeta.encode (block_metas self);
  bloom_filter ← put_length_prefixed_slice (bloom_filter self);
  smallest_key ← put_length_prefixed_slice (smallest_key self);
  largest_key ← put_length_prefixed_slice (largest_key self);
  k ← checked_into_u32 (length (monotonic_tombstone_events self));
  Ret (le_bytes 4 n ++ concat metas ++ bloom_filter ++ le_bytes 4 (estimated_size self) ++ le_bytes 4 (key_count self) ++
       smallest_key ++ largest_key ++ le_bytes 4 k ++
       concat (MonotonicDeleteEvent.encode <$> monotonic_tombstone_events self) ++ le_bytes 8 (meta_offset self)).

(** [encode_to] appends to a buffer. *)
Definition encode_to (self : t) (buf : list byte) : outcome (list byte) :=
  body ← encode_body self;
  Ret (buf ++ body ++ le_bytes 8 (xxh64 body) ++ le_bytes 4 VERSION ++ le_bytes 4 MAGIC).

Definition encode_to_bytes (self : t) : outcome (list byte) := encode_to self [].

(** [for _ in 0..n { v.push(decode(buf)) }] *)
Fixpoint decode_n {A} (decode : list byte → outcome (A * list byte)) (n : nat) (buf : list byte) : outcome (list A * list byte) :=
  match n with
  | O => Ret ([], buf)
  | S n => '(x, buf) ← decode buf; '(xs, buf) ← decode_n decode n buf; Ret (x :: xs, buf)
  end.

Definition decode_body (version : Z) (buf : list byte) : outcome t :=
  '(block_meta_count, buf) ← get_le 4 buf;
  '(block_metas, buf) ←
    decode_n (if (version =? OLD_VERSION)%Z then BlockMeta.decode_from_v1 else BlockMeta.decode) (Z.to_nat block_meta_count) buf;
  '(bloom_filter, buf) ← get_length_prefixed_slice buf;
  '(estimated_size, buf) ← get_le 4 buf;
  '(key_count, buf) ← get_le 4 buf;
  '(smallest_key, buf) ← get_length_prefixed_slice buf;
  '(largest_key, buf) ← get_length_prefixed_slice buf;
  '(tomb_event_count, buf) ← get_le 4 buf;
  '(monotonic_tombstone_events, buf) ← decode_n MonotonicDeleteEvent.decode (Z.to_nat tomb_event_count) buf;
  '(meta_offset, buf) ← get_le 8 buf;
  Ret (mk block_metas bloom_filter estimated_size key_count smallest_key largest_key meta_offset monotonic_tombstone_events version).

Definition decode (buf : list byte) : outcome (HummockResult t) :=
  cursor ← index_sub (length buf) 4;
  '(magic, _) ← (tail ← slice buf cursor (length buf); get_le 4 tail);
  if negb (magic =? MAGIC)%Z then Ret (inl (MagicMismatch MAGIC magic)) else
  cursor ← index_sub cursor 4;
  '(version, _) ← (tail ← slice buf cursor (cursor + 4); get_le 4 tail);
  if negb (version =? VERSION)%Z && negb (version =? OLD_VERSION)%Z then Ret (inl (InvalidFormatVersion version)) else
  cursor ← index_sub cursor 8;
  '(checksum, _) ← (tail ← slice buf cursor (cursor + 8); get_le 8 tail);
  body ← slice buf 0 cursor;
  match Block.xxhash64_verify xxh64 body checksum with
  | inl e => Ret (inl e)
  | inr _ => inr <$> decode_body version body
  end.
End meta.

Definition encoded_size (self : t) : nat :=
  4 + sum_list (BlockMeta.encoded_size <$> block_metas self) + 4 + 4 + length (bloom_filter self) + 4 + 4 +
  4 + length (smallest_key self) + 4 + length (largest_key self) + 8 + 8 + 4 + 4.

End SstableMeta.

(** ** [Sstable]

    The filter reader is built from the [bloom_filter] taken out of the metadata. *)
Module Sstable.

Record t := mk { id : Z; meta : SstableMeta.t }.

Definition take_bloom_filter (meta : SstableMeta.t) : SstableMeta.t :=
  SstableMeta.mk (SstableMeta.block_metas meta) [] (SstableMeta.estimated_size meta) (SstableMeta.key_count meta)
    (SstableMeta.smallest_key meta) (SstableMeta.largest_key meta) (SstableMeta.meta_offset meta)
    (SstableMeta.monotonic_tombstone_events meta) (SstableMeta.version meta).

Definition new (id : Z) (meta : SstableMeta.t) : t := mk id (take_bloom_filter meta).

Definition calculate_block_info (self : t) (block_index : nat) : outcome (nat * nat * nat) :=
  block_meta ← unwrap (SstableMeta.block_metas (meta self) !! block_index);
  let offset := Z.to_nat (BlockMeta.offset block_meta) in
  Ret (offset, offset + Z.to_nat (BlockMeta.len block_meta), Z.to_nat (BlockMeta.uncompressed_size block_meta)).

Definition block_count (self : t) : nat := length (SstableMeta.block_metas (meta self)).

End Sstable.

(** ** [BlockDataStream]

    [read_bytes] of the object store's reader returns the packets of the stream in turn, then
    [None]; a packet may be an error. *)
Module BlockDataStream.

Record t := mk {
  buf_reader : list (HummockResult (list byte));
  block_idx : nat;
  block_metas : list BlockMeta.t;
  buf : list byte;
  buff_offset : nat
}.

Definition new (byte_stream : list (HummockResult (list byte))) (block_metas : list BlockMeta.t) : t :=
  mk byte_stream 0 block_metas [] 0.

(** The loop of [read_next_buf] (its caller asks for more than is buffered): the packets left, and the block with the rest of its last packet. *)
Fixpoint read_packets (reader : list (HummockResult (list byte))) (read_buf : list byte) (rest : nat)
  : list (HummockResult (list byte)) * HummockResult (list byte * list byte) :=
  if rest =? 0 then (reader, inr (read_buf, []))
  else
    match reader with
    | [] => ([], inl ObjectIoError)
    | inl e :: reader => (reader, inl e)
    | inr next_packet :: reader =>
        let read_len := Nat.min (length next_packet) rest in
        let read_buf := read_buf ++ take read_len next_packet in
        if rest - read_len =? 0 then (reader, inr (read_buf, drop read_len next_packet))
        else read_packets reader read_buf (rest - read_len)
    end.

Definition read_next_buf (self : t) (read_size : nat) : outcome (t * HummockResult (list byte)) :=
  let '(read_buf, start_pos) :=
    if buff_offset self <? length (buf self)
    then (drop (buff_offset self) (buf self), length (buf self) - buff_offset self) else ([], 0) in
  rest ← index_sub read_size start_pos;
  let '(reader, r) := read_packets (buf_reader self) read_buf rest in
  match r with
  | inl e => Ret (mk reader (block_idx self) (block_metas self) (buf self) (buff_offset self), inl e)
  | inr (read_buf, next) => Ret (mk reader (block_idx self) (block_metas self) next (buff_offset self), inr read_buf)
  end.

Definition next_block_impl (self : t) : outcome (t * HummockResult (option (list byte * nat))) :=
  if length (block_metas self) <=? block_idx self then Ret (self, inr None)
  else
    block_meta ← unwrap (block_metas self !! block_idx self);
    let uncompressed_size := Z.to_nat (BlockMeta.uncompressed_size block_meta) in
    let len := Z.to_nat (BlockMeta.len block_meta) in
    let end_ := buff_offset self + len in
    '(self, r) ←
      (if length (buf self) <? end_ then
         '(self, r) ← read_next_buf self len;
         match r with
         | inl e => Ret (self, inl e)
         | inr data => Ret (mk (buf_reader self) (block_idx self) (block_metas self) (buf self) 0, inr data)
         end
       else
         data ← slice (buf self) (buff_offset self) end_;
         Ret (mk (buf_reader self) (block_idx self) (block_metas self) (buf self) end_, inr data));
    match r with
    | inl e => Ret (self, inl e)
    | inr data =>
        Ret (mk (buf_reader self) (block_idx self + 1) (block_metas self) (buf self) (buff_offset self),
             inr (Some (data, uncompressed_size)))
    end.

Definition next_block_index (self : t) : nat := block_idx self.

Section decode.
Context (xxh64 : list byte → Z) (decompress : CompressionAlgorithm.t → list byte → option (list byte)).

Definition next_block (self : t) : outcome (t * HummockResult (option Block.t)) :=
  '(self, r) ← next_block_impl self;
  match r with
  | inl e => Ret (self, inl e)
  | inr None => Ret (self, inr None)
  | inr (Some (buf, uncompressed_size)) =>
      block ← Block.decode xxh64 decompress buf uncompressed_size;
      match block with inl e => Ret (self, inl e) | inr block => Ret (self, inr (Some block)) end
  end.
End decode.
End BlockDataStream.
