(* ===== verification/SstMetaSpec.v ===== *)
(** * What the metadata encoding and the block stream promise

    [SstableMeta] survives encoding and decoding; [encoded_size] is its length but for the
    tombstone events; damaged metadata is reported ([SstMeta.v]).  [BlockDataStream] cuts any
    packets of a byte stream into the blocks the metadata describes. *)

From Stdlib Require Import ZArith Lia.
From S2P Require Import Prelude Order Bytes Epoch Bits Bitmap Vnode Key KeySpec KeyRange Sst Block BlockSpec SstMeta.

(** ** Slices *)
Definition u32_len {A} (l : list A) : Prop := (Z.of_nat (length l) <= u32_max)%Z.

Lemma checked_into_u32_ok n : (Z.of_nat n <= u32_max)%Z → checked_into_u32 n = Ret (Z.of_nat n).
Proof. intros H. unfold checked_into_u32. by rewrite (proj2 (Z.leb_le _ _) H). Qed.

Lemma checked_into_u32_panics n : (u32_max < Z.of_nat n)%Z → checked_into_u32 n = Panic.
Proof. intros H. unfold checked_into_u32. by rewrite (proj2 (Z.leb_gt _ _) H). Qed.

Lemma u32_len_uint {A} (l : list A) : u32_len l → is_uint 32 (Z.of_nat (length l)).
Proof. unfold u32_len, is_uint, u32_max. lia. Qed.

Lemma put_slice_ok s : u32_len s → put_length_prefixed_slice s = Ret (le_bytes 4 (Z.of_nat (length s)) ++ s).
Proof. intros H. unfold put_length_prefixed_slice. by rewrite checked_into_u32_ok. Qed.

Lemma get_u32_put z rest : is_uint 32 z → get_le 4 (le_bytes 4 z ++ rest) = Ret (z, rest).
Proof. intros H. apply get_le_put. by apply pow256_of_u32. Qed.

Lemma get_u64_put z rest : is_uint 64 z → get_le 8 (le_bytes 8 z ++ rest) = Ret (z, rest).
Proof. intros H. apply get_le_put. by apply pow256_of_u64. Qed.

Lemma get_slice_put s rest :
  u32_len s → get_length_prefixed_slice (le_bytes 4 (Z.of_nat (length s)) ++ s ++ rest) = Ret (s, rest).
Proof.
  intros H. unfold get_length_prefixed_slice. rewrite get_u32_put by by apply u32_len_uint. cbn [mbind outcome_bind].
  rewrite Nat2Z.id, (slice_parts _ _ _ [] s rest) by done. cbn [mbind outcome_bind]. by rewrite drop_app_length.
Qed.

(** ** The parts *)
Definition event_ok (e : MonotonicDeleteEvent.t) : Prop :=
  user_key_ok (left_user_key (MonotonicDeleteEvent.event_key e)) ∧
  (Z.of_nat (length (UserKey.table_key (left_user_key (MonotonicDeleteEvent.event_key e)))) < 2 ^ 32)%Z ∧
  is_uint 64 (MonotonicDeleteEvent.new_epoch e).

Lemma event_round_trip e rest :
  event_ok e → MonotonicDeleteEvent.decode (MonotonicDeleteEvent.encode e ++ rest) = Ret (e, rest).
Proof.
  intros (Hk & Hl & He). unfold MonotonicDeleteEvent.decode, MonotonicDeleteEvent.encode. rewrite <-!app_assoc.
  rewrite length_prefixed_round_trip by done. cbn [mbind outcome_bind].
  destruct e as [[k b] z]. cbn [MonotonicDeleteEvent.event_key MonotonicDeleteEvent.new_epoch left_user_key is_exclude_left_key] in *.
  rewrite get_le_put by (destruct b; change (256 ^ Z.of_nat 1)%Z with 256%Z; lia). cbn [mbind outcome_bind].
  destruct b; cbn [Z.eqb Pos.eqb mbind outcome_bind]; by rewrite get_u64_put.
Qed.

Lemma length_event e : length (MonotonicDeleteEvent.encode e) =
  17 + length (UserKey.table_key (left_user_key (MonotonicDeleteEvent.event_key e))).
Proof.
  unfold MonotonicDeleteEvent.encode, UserKey.encode_length_prefixed.
  rewrite !length_app, !length_be_bytes, !length_le_bytes. lia.
Qed.

Definition block_meta_ok (m : BlockMeta.t) : Prop :=
  u32_len (BlockMeta.smallest_key m) ∧ is_uint 32 (BlockMeta.offset m) ∧ is_uint 32 (BlockMeta.len m) ∧
  is_uint 32 (BlockMeta.uncompressed_size m) ∧ is_uint 32 (BlockMeta.total_key_count m) ∧ is_uint 32 (BlockMeta.stale_key_count m).

Definition block_meta_bytes (m : BlockMeta.t) : list byte :=
  le_bytes 4 (BlockMeta.offset m) ++ le_bytes 4 (BlockMeta.len m) ++ le_bytes 4 (BlockMeta.uncompressed_size m) ++
  le_bytes 4 (BlockMeta.total_key_count m) ++ le_bytes 4 (BlockMeta.stale_key_count m) ++
  le_bytes 4 (Z.of_nat (length (BlockMeta.smallest_key m))) ++ BlockMeta.smallest_key m.

Lemma block_meta_encode m : u32_len (BlockMeta.smallest_key m) → BlockMeta.encode m = Ret (block_meta_bytes m).
Proof. intros H. unfold BlockMeta.encode. by rewrite put_slice_ok. Qed.

Lemma block_meta_decode m rest : block_meta_ok m → BlockMeta.decode (block_meta_bytes m ++ rest) = Ret (m, rest).
Proof.
  intros (Hk & H1 & H2 & H3 & H4 & H5). unfold BlockMeta.decode, block_meta_bytes. rewrite <-!app_assoc.
  do 5 (rewrite get_u32_put by done; cbn [mbind outcome_bind]).
  rewrite get_slice_put by done. by destruct m.
Qed.

Lemma length_block_meta m : length (block_meta_bytes m) = BlockMeta.encoded_size m.
Proof. unfold block_meta_bytes, BlockMeta.encoded_size. rewrite !length_app, !length_le_bytes. lia. Qed.

(** The layout of format version 1 has no key counts. *)
Definition block_meta_bytes_v1 (m : BlockMeta.t) : list byte :=
  le_bytes 4 (BlockMeta.offset m) ++ le_bytes 4 (BlockMeta.len m) ++ le_bytes 4 (BlockMeta.uncompressed_size m) ++
  le_bytes 4 (Z.of_nat (length (BlockMeta.smallest_key m))) ++ BlockMeta.smallest_key m.

Definition without_counts (m : BlockMeta.t) : BlockMeta.t :=
  BlockMeta.mk (BlockMeta.smallest_key m) (BlockMeta.offset m) (BlockMeta.len m) (BlockMeta.uncompressed_size m) 0 0.

Lemma block_meta_decode_v1 m rest :
  block_meta_ok m → BlockMeta.decode_from_v1 (block_meta_bytes_v1 m ++ rest) = Ret (without_counts m, rest).
Proof.
  intros (Hk & H1 & H2 & H3 & _). unfold BlockMeta.decode_from_v1, block_meta_bytes_v1. rewrite <-!app_assoc.
  do 3 (rewrite get_u32_put by done; cbn [mbind outcome_bind]). by rewrite get_slice_put.
Qed.

Lemma decode_n_ok {A B} (decode : list byte → outcome (B * list byte)) (f : A → list byte) (g : A → B) (xs : list A) rest :
  Forall (λ x, ∀ r, decode (f x ++ r) = Ret (g x, r)) xs →
  SstableMeta.decode_n decode (length xs) (concat (f <$> xs) ++ rest) = Ret (g <$> xs, rest).
Proof.
  induction 1 as [|x xs Hx _ IH]; [done|]. rewrite fmap_cons. cbn [length concat SstableMeta.decode_n].
  rewrite <-app_assoc, Hx. cbn [mbind outcome_bind]. by rewrite IH.
Qed.

(** ** The whole *)
Definition meta_ok (m : SstableMeta.t) : Prop :=
  u32_len (SstableMeta.block_metas m) ∧ Forall block_meta_ok (SstableMeta.block_metas m) ∧ u32_len (SstableMeta.bloom_filter m) ∧
  is_uint 32 (SstableMeta.estimated_size m) ∧ is_uint 32 (SstableMeta.key_count m) ∧
  u32_len (SstableMeta.smallest_key m) ∧ u32_len (SstableMeta.largest_key m) ∧
  u32_len (SstableMeta.monotonic_tombstone_events m) ∧ Forall event_ok (SstableMeta.monotonic_tombstone_events m) ∧
  is_uint 64 (SstableMeta.meta_offset m).

(** The body, with the block metadata laid out by [f]. *)
Definition body_bytes (f : BlockMeta.t → list byte) (m : SstableMeta.t) : list byte :=
  le_bytes 4 (Z.of_nat (length (SstableMeta.block_metas m))) ++ concat (f <$> SstableMeta.block_metas m) ++
  le_bytes 4 (Z.of_nat (length (SstableMeta.bloom_filter m))) ++ SstableMeta.bloom_filter m ++
  le_bytes 4 (SstableMeta.estimated_size m) ++ le_bytes 4 (SstableMeta.key_count m) ++
  le_bytes 4 (Z.of_nat (length (SstableMeta.smallest_key m))) ++ SstableMeta.smallest_key m ++
  le_bytes 4 (Z.of_nat (length (SstableMeta.largest_key m))) ++ SstableMeta.largest_key m ++
  le_bytes 4 (Z.of_nat (length (SstableMeta.monotonic_tombstone_events m))) ++
  concat (MonotonicDeleteEvent.encode <$> SstableMeta.monotonic_tombstone_events m) ++ le_bytes 8 (SstableMeta.meta_offset m).

Definition with_metas (m : SstableMeta.t) (metas : list BlockMeta.t) (version : Z) : SstableMeta.t :=
  SstableMeta.mk metas (SstableMeta.bloom_filter m) (SstableMeta.estimated_size m) (SstableMeta.key_count m)
    (SstableMeta.smallest_key m) (SstableMeta.largest_key m) (SstableMeta.meta_offset m)
    (SstableMeta.monotonic_tombstone_events m) version.

Lemma encode_body_ok m : meta_ok m → SstableMeta.encode_body m = Ret (body_bytes block_meta_bytes m).
Proof.
  intros (Hn & Hb & Hf & _ & _ & Hs & Hl & He & _). unfold SstableMeta.encode_body.
  rewrite checked_into_u32_ok by done. cbn [mbind outcome_bind]. 
  rewrite (proj2 (rmap_Ret _ _ (block_meta_bytes <$> SstableMeta.block_metas m))).
  2: { apply Forall2_fmap_r, Forall_Forall2_diag. eapply Forall_impl; [exact Hb|]. intros b [Hk _]. by apply block_meta_encode. }
  cbn [mbind outcome_bind]. rewrite !put_slice_ok by done. cbn [mbind outcome_bind]. rewrite checked_into_u32_ok by done.
  cbn [mbind outcome_bind]. unfold body_bytes. by rewrite <-!app_assoc.
Qed.

Lemma decode_body_ok m version f g :
  meta_ok m →
  Forall (λ b, ∀ r, (if (version =? SstableMeta.OLD_VERSION)%Z then BlockMeta.decode_from_v1 else BlockMeta.decode) (f b ++ r) = Ret (g b, r))
    (SstableMeta.block_metas m) →
  SstableMeta.decode_body version (body_bytes f m) = Ret (with_metas m (g <$> SstableMeta.block_metas m) version).
Proof.
  intros (Hn & _ & Hf & H1 & H2 & Hs & Hl & He & Hev & Ho) Hm. unfold SstableMeta.decode_body, body_bytes.
  rewrite get_u32_put by by apply u32_len_uint. cbn [mbind outcome_bind]. rewrite Nat2Z.id, (decode_n_ok _ f g) by done.
  cbn [mbind outcome_bind]. rewrite get_slice_put by done. cbn [mbind outcome_bind].
  do 2 (rewrite get_u32_put by done; cbn [mbind outcome_bind]). do 2 (rewrite get_slice_put by done; cbn [mbind outcome_bind]).
  rewrite get_u32_put by by apply u32_len_uint. cbn [mbind outcome_bind].
  rewrite Nat2Z.id, (decode_n_ok _ MonotonicDeleteEvent.encode id).
  2: { eapply Forall_impl; [exact Hev|]. intros e Hok r. by apply event_round_trip. }
  cbn [mbind outcome_bind]. rewrite <-(app_nil_r (le_bytes 8 _)), get_u64_put by done. cbn [mbind outcome_bind].
  by rewrite list_fmap_id.
Qed.

Section seal.
Context (xxh64 : list byte → Z) (xxh64_uint : ∀ l, is_uint 64 (xxh64 l)).

(** A body with a checksum, a version and a magic number behind it. *)
Definition framed (body : list byte) (checksum version magic : Z) : list byte :=
  body ++ le_bytes 8 checksum ++ le_bytes 4 version ++ le_bytes 4 magic.

Lemma length_framed body c v g : length (framed body c v g) = length body + 16.
Proof. unfold framed. rewrite !length_app, !length_le_bytes. lia. Qed.

(** What [decode] returns on any frame. *)
Lemma decode_framed body c v g :
  is_uint 64 c → is_uint 32 v → is_uint 32 g →
  SstableMeta.decode xxh64 (framed body c v g) =
    if negb (g =? SstableMeta.MAGIC)%Z then Ret (inl (MagicMismatch SstableMeta.MAGIC g))
    else if negb (v =? SstableMeta.VERSION)%Z && negb (v =? SstableMeta.OLD_VERSION)%Z then Ret (inl (InvalidFormatVersion v))
    else if (xxh64 body =? c)%Z then inr <$> SstableMeta.decode_body v body
    else Ret (inl (ChecksumMismatch c (xxh64 body))).
Proof.
  intros Hc Hv Hg. unfold SstableMeta.decode. rewrite length_framed. rewrite index_sub_ok by lia. cbn [mbind outcome_bind].
  rewrite (slice_parts _ _ _ (body ++ le_bytes 8 c ++ le_bytes 4 v) (le_bytes 4 g) []);
    [|unfold framed; by rewrite <-!app_assoc, app_nil_r|rewrite !length_app, !length_le_bytes; lia..].
  cbn [mbind outcome_bind]. rewrite get_le_all by by apply pow256_of_u32. cbn [mbind outcome_bind].
  destruct (g =? SstableMeta.MAGIC)%Z; cbn [negb]; [|done]. rewrite index_sub_ok by lia. cbn [mbind outcome_bind].
  rewrite (slice_parts _ _ _ (body ++ le_bytes 8 c) (le_bytes 4 v) (le_bytes 4 g));
    [|unfold framed; by rewrite <-!app_assoc|rewrite !length_app, !length_le_bytes; lia..].
  cbn [mbind outcome_bind]. rewrite get_le_all by by apply pow256_of_u32. cbn [mbind outcome_bind].
  destruct (negb (v =? SstableMeta.VERSION)%Z && _); [done|]. rewrite index_sub_ok by lia. cbn [mbind outcome_bind].
  rewrite (slice_parts _ (length body + 16 - 4 - 4 - 8) _ body (le_bytes 8 c) (le_bytes 4 v ++ le_bytes 4 g)); [|done|rewrite ?length_le_bytes; lia..].
  cbn [mbind outcome_bind]. rewrite get_le_all by by apply pow256_of_u64. cbn [mbind outcome_bind].
  rewrite (slice_parts _ _ _ [] body (le_bytes 8 c ++ le_bytes 4 v ++ le_bytes 4 g)); [|done|done|simpl; lia].
  cbn [mbind outcome_bind]. unfold Block.xxhash64_verify. by destruct (xxh64 body =? c)%Z.
Qed.

Lemma encode_to_bytes_ok m :
  meta_ok m →
  SstableMeta.encode_to_bytes xxh64 m =
  Ret (framed (body_bytes block_meta_bytes m) (xxh64 (body_bytes block_meta_bytes m)) SstableMeta.VERSION SstableMeta.MAGIC).
Proof.
  intros Hm. unfold SstableMeta.encode_to_bytes, SstableMeta.encode_to. rewrite encode_body_ok by done.
  cbn [mbind outcome_bind]. by rewrite app_nil_l.
Qed.

Lemma length_concat_fmap {A} (f : A → list byte) (n : A → nat) (l : list A) :
  (∀ x, length (f x) = n x) → length (concat (f <$> l)) = sum_list (n <$> l).
Proof. intros H. induction l as [|x l IH]; [done|]. rewrite fmap_cons. simpl. by rewrite length_app, H, IH. Qed.

Lemma length_body m :
  length (body_bytes block_meta_bytes m) + 16 =
  SstableMeta.encoded_size m +
  sum_list ((λ e, 17 + length (UserKey.table_key (left_user_key (MonotonicDeleteEvent.event_key e)))) <$>
            SstableMeta.monotonic_tombstone_events m).
Proof.
  unfold body_bytes, SstableMeta.encoded_size. rewrite !length_app, !length_le_bytes.
  rewrite (length_concat_fmap block_meta_bytes BlockMeta.encoded_size) by apply length_block_meta.
  rewrite (length_concat_fmap MonotonicDeleteEvent.encode _) by apply length_event. lia.
Qed.

(** C30: the metadata of an SST survives encoding.  Metadata whose lengths and numbers fit their
    fields is encoded without a panic and decoded to itself with the current version; metadata
    in the layout of version 1 is decoded with zero key counts. *)
Theorem sstable_meta_round_trip (m : SstableMeta.t) :
  meta_ok m →
  (∃ buf, SstableMeta.encode_to_bytes xxh64 m = Ret buf ∧
     SstableMeta.decode xxh64 buf = Ret (inr (with_metas m (SstableMeta.block_metas m) SstableMeta.VERSION))) ∧
  SstableMeta.decode xxh64 (framed (body_bytes block_meta_bytes_v1 m) (xxh64 (body_bytes block_meta_bytes_v1 m))
      SstableMeta.OLD_VERSION SstableMeta.MAGIC) =
    Ret (inr (with_metas m (without_counts <$> SstableMeta.block_metas m) SstableMeta.OLD_VERSION)).
Proof.
  intros Hm. pose proof Hm as (_ & Hb & _). split.
  - eexists. split; [by apply encode_to_bytes_ok|]. rewrite decode_framed by done. rewrite !Z.eqb_refl. cbn [negb andb].
    rewrite (decode_body_ok m SstableMeta.VERSION block_meta_bytes id); [cbn [fmap outcome_fmap]; by rewrite list_fmap_id|done|].
    eapply Forall_impl; [exact Hb|]. intros b Hok r. by apply block_meta_decode.
  - rewrite decode_framed by done. rewrite !Z.eqb_refl. cbn [negb andb]. rewrite andb_false_r.
    rewrite (decode_body_ok m SstableMeta.OLD_VERSION block_meta_bytes_v1 without_counts); [done|done|].
    eapply Forall_impl; [exact Hb|]. intros b Hok r. by apply block_meta_decode_v1.
Qed.

(** [encoded_size] is the size of the encoded metadata, short by its tombstone events.  The
    buffer [encode_to_bytes] fills has [encoded_size] bytes exactly when there are none, and 17
    bytes and a key more for every event. *)
Theorem sstable_meta_encoded_size (m : SstableMeta.t) :
  meta_ok m →
  ∃ buf, SstableMeta.encode_to_bytes xxh64 m = Ret buf ∧
    length buf = SstableMeta.encoded_size m +
      sum_list ((λ e, 17 + length (UserKey.table_key (left_user_key (MonotonicDeleteEvent.event_key e)))) <$>
                SstableMeta.monotonic_tombstone_events m) ∧
    SstableMeta.encoded_size m ≤ length buf ∧
    (length buf = SstableMeta.encoded_size m ↔ SstableMeta.monotonic_tombstone_events m = []).
Proof.
  intros Hm. eexists. split; [by apply encode_to_bytes_ok|]. rewrite length_framed, length_body.
  split; [done|]. split; [lia|]. split; [|intros E; rewrite E; apply Nat.add_0_r].
  destruct (SstableMeta.monotonic_tombstone_events m) as [|e es]; [done|]. rewrite fmap_cons.
  intros H. exfalso. change (sum_list (?a :: ?l)) with (a + sum_list l) in H. lia.
Qed.

(** Every buffer of at least 16 bytes is a frame. *)
Lemma frame_of (buf : list byte) :
  16 ≤ length buf → ∃ body c v g, buf = framed body c v g ∧ is_uint 64 c ∧ is_uint 32 v ∧ is_uint 32 g.
Proof.
  intros Hl. set (n := length buf - 16). exists (take n buf), (le_val (take 8 (drop n buf))),
    (le_val (take 4 (drop (n + 8) buf))), (le_val (drop (n + 12) buf)).
  assert (∀ l k, length l = k → le_bytes k (le_val l) = l) as Hb by (intros l k <-; apply le_bytes_val).
  assert (∀ l k, length l = k → (0 <= le_val l < 256 ^ Z.of_nat k)%Z) as Hr by (intros l k <-; apply le_val_range).
  split; [|split; [apply (Hr _ 8)|split; apply (Hr _ 4)]; rewrite ?length_take, length_drop; lia].
  unfold framed. rewrite !Hb by (rewrite ?length_take, length_drop; lia).
  rewrite <-(take_drop n buf) at 1. f_equal. rewrite <-(take_drop 8 (drop n buf)) at 1. f_equal. rewrite drop_drop.
  rewrite <-(take_drop 4 (drop (n + 8) buf)) at 1. f_equal. rewrite drop_drop. f_equal. lia.
Qed.

(** Damaged metadata is told from good.  Whatever the bytes, a buffer with another magic
    number is refused as such, then one with an unknown version, then one whose checksum is not
    that of its body; [decode] reads the body only when all three are right. *)
Theorem sstable_meta_decode_errors (buf : list byte) :
  16 ≤ length buf →
  ∃ body checksum version magic, buf = framed body checksum version magic ∧
    SstableMeta.decode xxh64 buf =
      if negb (magic =? SstableMeta.MAGIC)%Z then Ret (inl (MagicMismatch SstableMeta.MAGIC magic))
      else if negb (version =? SstableMeta.VERSION)%Z && negb (version =? SstableMeta.OLD_VERSION)%Z
        then Ret (inl (InvalidFormatVersion version))
      else if (xxh64 body =? checksum)%Z then inr <$> SstableMeta.decode_body version body
      else Ret (inl (ChecksumMismatch checksum (xxh64 body))).
Proof.
  intros (body & c & v & g & -> & Hc & Hv & Hg)%frame_of. exists body, c, v, g. split; [done|]. by apply decode_framed.
Qed.
End seal.

(** ** The stream *)

(** What ends a stream short of data. *)
Definition stream_error (reader : list (HummockResult (list byte))) (e : HummockError) : Prop :=
  match reader with [] => e = ObjectIoError | r :: _ => r = inl e end.

Lemma read_packets_ok (packets : list (list byte)) tail : ∀ rb rest,
  rest ≤ length (concat packets) →
  ∃ packets' next,
    BlockDataStream.read_packets ((inr <$> packets) ++ tail) rb rest =
      ((inr <$> packets') ++ tail, inr (rb ++ take rest (concat packets), next)) ∧
    next ++ concat packets' = drop rest (concat packets).
Proof.
  induction packets as [|p packets IH]; intros rb rest Hle.
  - simpl in Hle. assert (rest = 0) as -> by lia. exists [], []. split; [|done]. destruct tail; simpl; by rewrite app_nil_r.
  - rewrite fmap_cons. cbn [BlockDataStream.read_packets app concat] in *. destruct (Nat.eqb_spec rest 0) as [->|Hne].
    { exists (p :: packets), []. split; [|done]. by rewrite take_0, app_nil_r. }
    rewrite length_app in Hle. destruct (Nat.eqb_spec (rest - Nat.min (length p) rest) 0) as [Hz|Hnz].
    + assert (rest ≤ length p) by lia. exists packets, (drop rest p). rewrite Nat.min_r by lia.
      by rewrite take_app_le, drop_app_le by lia.
    + rewrite Nat.min_l by lia. destruct (IH (rb ++ take (length p) p) (rest - length p) ltac:(lia)) as (ps & next & -> & Hn).
      exists ps, next. rewrite take_app_ge, drop_app_ge, take_ge, <-app_assoc by lia. done.
Qed.

Lemma read_packets_short (packets : list (list byte)) tail e : ∀ rb rest,
  length (concat packets) < rest → stream_error tail e →
  ∃ reader, BlockDataStream.read_packets ((inr <$> packets) ++ tail) rb rest = (reader, inl e).
Proof.
  induction packets as [|p packets IH]; intros rb rest Hlt He.
  - simpl in *. destruct tail as [|r tail]; simpl in *; (destruct (Nat.eqb_spec rest 0); [lia|]); subst; by eexists.
  - rewrite fmap_cons. cbn [BlockDataStream.read_packets app concat] in *. rewrite length_app in Hlt.
    destruct (Nat.eqb_spec rest 0); [lia|]. rewrite Nat.min_l by lia. destruct (Nat.eqb_spec (rest - length p) 0); [lia|].
    apply IH; [lia|done].
Qed.

(** The bytes ahead: what is buffered, then the packets. *)
Definition ahead (self : BlockDataStream.t) (bytes : list byte) (tail : list (HummockResult (list byte))) : Prop :=
  BlockDataStream.buff_offset self ≤ length (BlockDataStream.buf self) ∧
  ∃ packets, BlockDataStream.buf_reader self = (inr <$> packets) ++ tail ∧
    bytes = drop (BlockDataStream.buff_offset self) (BlockDataStream.buf self) ++ concat packets.

Section block.
Context (self : BlockDataStream.t) (bytes : list byte) (tail : list (HummockResult (list byte))) (m : BlockMeta.t).
Hypothesis meta_here : BlockDataStream.block_metas self !! BlockDataStream.block_idx self = Some m.
Hypothesis bytes_ahead : ahead self bytes tail.
Abbreviation mlen := (Z.to_nat (BlockMeta.len m)).

Lemma next_buffer :
  (if BlockDataStream.buff_offset self <? length (BlockDataStream.buf self)
   then (drop (BlockDataStream.buff_offset self) (BlockDataStream.buf self),
         length (BlockDataStream.buf self) - BlockDataStream.buff_offset self) else ([], 0)) =
  (drop (BlockDataStream.buff_offset self) (BlockDataStream.buf self),
   length (BlockDataStream.buf self) - BlockDataStream.buff_offset self).
Proof.
  destruct bytes_ahead as [Hle _]. destruct (Nat.ltb_spec (BlockDataStream.buff_offset self) (length (BlockDataStream.buf self))); [done|].
  rewrite drop_ge by lia. f_equal. lia.
Qed.

Lemma next_block_ok :
  mlen ≤ length bytes →
  ∃ self', BlockDataStream.next_block_impl self =
      Ret (self', inr (Some (take mlen bytes, Z.to_nat (BlockMeta.uncompressed_size m)))) ∧
    ahead self' (drop mlen bytes) tail ∧
    BlockDataStream.block_metas self' = BlockDataStream.block_metas self ∧
    BlockDataStream.block_idx self' = S (BlockDataStream.block_idx self).
Proof.
  intros Hlen. pose proof bytes_ahead as (Hle & packets & Hr & Hbytes). unfold BlockDataStream.next_block_impl.
  rewrite (proj2 (Nat.leb_gt _ _)) by (by eapply lookup_lt_Some). rewrite meta_here. cbn [unwrap mbind outcome_bind].
  rewrite Hbytes, length_app, length_drop in Hlen.
  destruct (Nat.ltb_spec (length (BlockDataStream.buf self)) (BlockDataStream.buff_offset self + mlen)) as [Hgt|Hge].
  - unfold BlockDataStream.read_next_buf. rewrite next_buffer, index_sub_ok by lia. cbn [mbind outcome_bind]. rewrite Hr.
    edestruct (read_packets_ok packets tail) as (ps & next & -> & Hn); [|cbn [mbind outcome_bind]].
    { lia. }
    eexists. split; [do 3 f_equal|].
    + f_equal. f_equal. rewrite Hbytes, take_app_ge, length_drop by (rewrite length_drop; lia). done.
    + cbn. split; [|split; [done|lia]]. split; [cbn; lia|]. exists ps. split; [done|]. cbn. rewrite drop_0, Hn, Hbytes.
      rewrite drop_app_ge, length_drop by (rewrite length_drop; lia). done.
  - rewrite (slice_parts _ _ _ (take (BlockDataStream.buff_offset self) (BlockDataStream.buf self))
      (take mlen (drop (BlockDataStream.buff_offset self) (BlockDataStream.buf self)))
      (drop mlen (drop (BlockDataStream.buff_offset self) (BlockDataStream.buf self))));
      [|by rewrite !take_drop|rewrite length_take; lia|rewrite !length_take, length_drop; lia].
    cbn [mbind outcome_bind]. eexists. split; [do 4 f_equal|].
    + f_equal. by rewrite Hbytes, take_app_le by (rewrite length_drop; lia).
    + cbn. split; [|split; [done|lia]]. split; [cbn; lia|]. exists packets. split; [done|]. cbn.
      by rewrite Hbytes, drop_app_le, drop_drop by (rewrite length_drop; lia).
Qed.

Lemma next_block_short e :
  length bytes < mlen → stream_error tail e →
  ∃ self', BlockDataStream.next_block_impl self = Ret (self', inl e).
Proof.
  intros Hlen He. pose proof bytes_ahead as (Hle & packets & Hr & Hbytes). unfold BlockDataStream.next_block_impl.
  rewrite (proj2 (Nat.leb_gt _ _)) by (by eapply lookup_lt_Some). rewrite meta_here. cbn [unwrap mbind outcome_bind].
  rewrite Hbytes, length_app, length_drop in Hlen.
  rewrite (proj2 (Nat.ltb_lt _ _)) by lia.
  unfold BlockDataStream.read_next_buf. rewrite next_buffer, index_sub_ok by lia. cbn [mbind outcome_bind]. rewrite Hr.
  edestruct (read_packets_short packets tail e) as (reader & ->); [|done|by eexists]. lia.
Qed.
End block.

(** The blocks read until the stream ends or fails. *)
Fixpoint read_all (n : nat) (self : BlockDataStream.t) : outcome (list (list byte * nat) * HummockResult unit) :=
  match n with
  | O => Panic
  | S n =>
      '(self, r) ← BlockDataStream.next_block_impl self;
      match r with
      | inl e => Ret ([], inl e)
      | inr None => Ret ([], inr tt)
      | inr (Some block) => '(blocks, r) ← read_all n self; Ret (block :: blocks, r)
      end
  end.

(** Blocks laid out as the metadata says. *)
Definition laid_out (metas : list BlockMeta.t) (blocks : list (list byte)) : Prop :=
  Forall2 (λ m b, Z.to_nat (BlockMeta.len m) = length b) metas blocks.

Definition with_sizes (metas : list BlockMeta.t) (blocks : list (list byte)) : list (list byte * nat) :=
  zip_with (λ m b, (b, Z.to_nat (BlockMeta.uncompressed_size m))) metas blocks.

Lemma read_all_ok metas2 tail part r : ∀ metas1 blocks self n,
  laid_out metas1 blocks → ahead self (concat blocks ++ part) tail →
  drop (BlockDataStream.block_idx self) (BlockDataStream.block_metas self) = metas1 ++ metas2 →
  match metas2 with
  | [] => r = inr tt
  | m :: _ => ∃ e, length part < Z.to_nat (BlockMeta.len m) ∧ stream_error tail e ∧ r = inl e
  end →
  length metas1 < n → read_all n self = Ret (with_sizes metas1 blocks, r).
Proof.
  intros metas1 blocks self n Hl. revert self n. induction Hl as [|m b metas1 blocks Hm _ IH]; intros self n Ha Hd Hr Hn;
    (destruct n as [|n]; [simpl in Hn; lia|]); cbn [read_all].
  - cbn [app concat] in Ha, Hd. destruct metas2 as [|m ms].
    + unfold BlockDataStream.next_block_impl. apply (f_equal length) in Hd. rewrite length_drop in Hd. simpl in Hd.
      rewrite (proj2 (Nat.leb_le _ _)) by lia. by subst.
    + destruct Hr as (e & Hp & He & ->). destruct (next_block_short self part tail m) with e as (self' & ->); [|done..].
      rewrite <-(Nat.add_0_r (BlockDataStream.block_idx self)), <-lookup_drop. by rewrite Hd.
  - cbn [app concat] in Ha, Hd. rewrite <-app_assoc in Ha.
    destruct (next_block_ok self (b ++ concat blocks ++ part) tail m) as (self' & -> & Ha' & Hms & Hi); [|exact Ha| |].
    { rewrite <-(Nat.add_0_r (BlockDataStream.block_idx self)), <-lookup_drop. by rewrite Hd. }
    { rewrite length_app. lia. }
    cbn [mbind outcome_bind]. rewrite Hm, take_app_length. rewrite Hm, drop_app_length in Ha'.
    rewrite (IH self' n); [done|done| |done|simpl in Hn; lia].
    rewrite Hms, Hi, <-Nat.add_1_r, <-drop_drop, Hd. done.
Qed.

(** A block stream cuts the bytes into the blocks of the metadata, however they arrive.  For
    blocks laid out as the metadata says, any packets that carry their bytes (split anywhere,
    empty ones included) yield exactly these blocks with their sizes; when the packets end
    inside a block, the blocks before it are returned and then the error of the stream. *)
Theorem block_stream_exact (metas metas2 : list BlockMeta.t) (blocks packets : list (list byte)) (part : list byte)
    (tail : list (HummockResult (list byte))) :
  laid_out metas blocks → concat packets = concat blocks ++ part →
  read_all (S (length metas)) (BlockDataStream.new ((inr <$> packets) ++ tail) metas) = Ret (with_sizes metas blocks, inr tt) ∧
  (∀ m e, head metas2 = Some m → length part < Z.to_nat (BlockMeta.len m) → stream_error tail e →
     read_all (S (length (metas ++ metas2))) (BlockDataStream.new ((inr <$> packets) ++ tail) (metas ++ metas2)) =
     Ret (with_sizes metas blocks, inl e)).
Proof.
  intros Hl Hp. assert (∀ ms, ahead (BlockDataStream.new ((inr <$> packets) ++ tail) ms) (concat blocks ++ part) tail) as Ha.
  { intros ms. split; [done|]. by exists packets. }
  split.
  - apply (read_all_ok [] tail part); [done|done|by rewrite app_nil_r|done|lia].
  - intros m e Hm Hlt He. apply (read_all_ok metas2 tail part); [done|done|done| |rewrite length_app; lia].
    destruct metas2 as [|m' ms]; [done|]. injection Hm as ->. by exists e.
Qed.

(** ** Examples *)
Definition example_block_meta (len : Z) : BlockMeta.t := BlockMeta.mk [Byte.x61; Byte.x62] 0 len 3 1 0.
Definition example_event : MonotonicDeleteEvent.t :=
  MonotonicDeleteEvent.mk (mk_point_range (UserKey.mk 1 [Byte.x61]) true) 7.
Definition example_meta : SstableMeta.t :=
  SstableMeta.mk [example_block_meta 3; example_block_meta 2] [Byte.x01] 5 2 [Byte.x61] [Byte.x62] 9 [example_event] 2.
Definition example_sum (l : list byte) : Z := (Z.of_nat (length l) mod 2 ^ 64)%Z.

Lemma example_sum_uint l : is_uint 64 (example_sum l).
Proof. apply (wrap_is_uint 64 (Z.of_nat (length l))). lia. Qed.

Lemma example_meta_ok : meta_ok example_meta.
Proof. unfold meta_ok, u32_len, is_uint. split_and!; try done; repeat constructor; done. Qed.

Lemma sstable_meta_round_trip_witness :
  (∃ buf, SstableMeta.encode_to_bytes example_sum example_meta = Ret buf ∧
     SstableMeta.decode example_sum buf = Ret (inr example_meta)) ∧
  SstableMeta.block_metas example_meta ≠ [].
Proof.
  split; [|done]. destruct (sstable_meta_round_trip example_sum example_sum_uint example_meta example_meta_ok) as [(buf & H1 & H2) _].
  exists buf. split; [exact H1|exact H2].
Defined.

Lemma sstable_meta_encoded_size_witness :
  ∃ buf, SstableMeta.encode_to_bytes example_sum example_meta = Ret buf ∧
    length buf = 125 ∧ SstableMeta.encoded_size example_meta = 107.
Proof.
  destruct (sstable_meta_encoded_size example_sum example_meta example_meta_ok) as (buf & H1 & H2 & _).
  exists buf. split; [exact H1|]. split; [exact H2|reflexivity].
Defined.

Lemma sstable_meta_decode_errors_witness :
  ∃ body c v g, replicate 20 Byte.x00 = framed body c v g ∧
    SstableMeta.decode example_sum (replicate 20 Byte.x00) = Ret (inl (MagicMismatch SstableMeta.MAGIC 0)).
Proof.
  destruct (sstable_meta_decode_errors example_sum (replicate 20 Byte.x00) ltac:(vm_compute; lia)) as (body & c & v & g & E & _).
  exists body, c, v, g. split; [exact E|reflexivity].
Defined.

Lemma block_stream_exact_witness :
  read_all 3 (BlockDataStream.new ((inr <$> [[Byte.x61]; []; [Byte.x62; Byte.x63; Byte.x64]; [Byte.x65]]) ++ [])
    [example_block_meta 3; example_block_meta 2]) =
  Ret ([([Byte.x61; Byte.x62; Byte.x63], 3); ([Byte.x64; Byte.x65], 3)], inr tt).
Proof.
  exact (proj1 (block_stream_exact [example_block_meta 3; example_block_meta 2] []
    [[Byte.x61; Byte.x62; Byte.x63]; [Byte.x64; Byte.x65]] [[Byte.x61]; []; [Byte.x62; Byte.x63; Byte.x64]; [Byte.x65]] [] []
    ltac:(repeat constructor) eq_refl)).
Defined.
