(* ===== verification/SstIter.v ===== *)
(** * Iterating over one SST

    [SstableIterator] of [forward_sstable_iterator.rs] and [BackwardSstableIterator] of
    [backward_sstable_iterator.rs]: an iterator over the current block, and the search for the
    next one.  The store that fetches a block ([SstableStore::get]) and the one that prefetches
    several ([SstableStore::prefetch_blocks]) read a cache and an object store and are
    parameters; [PrefetchBlockStream] of [block_stream.rs] is the stream of prefetched blocks.
    The loops over a stream take a bound on their iterations; [SstIterSpec.v] tells when one is
    enough, and when none is. *)

From Stdlib Require Import ZArith Lia.
From S2P Require Import Prelude Order Bytes Epoch Bits Bitmap Vnode Key KeyRange Sst Block SstMeta Iter.

(** ** [PrefetchBlockStream] *)
Module PrefetchBlockStream.

Record t := mk { blocks : list Block.t; block_index : nat }.

Definition new (blocks : list Block.t) (block_index : nat) : t := mk blocks block_index.

Definition next_block_index (self : t) : nat := block_index self.

Definition next_block (self : t) : t * HummockResult (option Block.t) :=
  match blocks self with
  | block :: blocks => (mk blocks (block_index self + 1), inr (Some block))
  | [] => (self, inr None)
  end.

End PrefetchBlockStream.

(** [SstableIteratorReadOptions]; the cache policy is the store's. *)
Record SstableIteratorReadOptions := mk_options {
  must_iterated_end_user_key : option (Bound UserKey.t);
  max_preload_retry_times : nat
}.

(** ** [SstableIterator] *)
Module SstableIterator.

Record t (Store : Type) := mk {
  block_iter : option BlockIterator.t;
  cur_idx : nat;
  preload_stream : option PrefetchBlockStream.t;
  sst : Sstable.t;
  preload_end_block_idx : nat;
  preload_retry_times : nat;
  sstable_store : Store;
  options : SstableIteratorReadOptions;
  block_start_idx_inclusive : nat;
  block_end_idx_inclusive : nat
}.
Arguments mk {Store} block_iter cur_idx preload_stream sst preload_end_block_idx preload_retry_times sstable_store options
  block_start_idx_inclusive block_end_idx_inclusive.
Arguments block_iter {Store} t.
Arguments cur_idx {Store} t.
Arguments preload_stream {Store} t.
Arguments sst {Store} t.
Arguments preload_end_block_idx {Store} t.
Arguments preload_retry_times {Store} t.
Arguments sstable_store {Store} t.
Arguments options {Store} t.
Arguments block_start_idx_inclusive {Store} t.
Arguments block_end_idx_inclusive {Store} t.

Section forward.
Context {Store : Type} (get : Store → Sstable.t → nat → Store * HummockResult Block.t)
  (prefetch_blocks : Store → Sstable.t → nat → nat → Store * HummockResult PrefetchBlockStream.t) (fuel : nat).
Abbreviation it := (t Store).

Abbreviation metas self := (SstableMeta.block_metas (Sstable.meta (sst self))).

(** The loops of [new] over the blocks of other tables. *)
Fixpoint skip_start (block_metas : list BlockMeta.t) (first_table : Z) (idx : nat) : outcome nat :=
  match block_metas with
  | [] => Ret idx
  | meta :: block_metas =>
      table_id ← BlockMeta.table_id meta;
      if (table_id <? first_table)%Z then skip_start block_metas first_table (idx + 1) else Ret idx
  end.

Fixpoint skip_end (block_metas : list BlockMeta.t) (last_table : Z) (start idx : nat) : outcome nat :=
  match idx with
  | O => Ret 0
  | S idx' =>
      if start <? idx then
        meta ← unwrap (block_metas !! idx);
        table_id ← BlockMeta.table_id meta;
        if (last_table <? table_id)%Z then skip_end block_metas last_table start idx' else Ret idx
      else Ret idx
  end.

Definition new (sstable : Sstable.t) (sstable_store : Store) (options : SstableIteratorReadOptions)
    (sstable_info_ref : SstableInfo.t) : outcome it :=
  let block_metas := SstableMeta.block_metas (Sstable.meta sstable) in
  let block_meta_count := length block_metas in
  first_table ← unwrap (head (SstableInfo.table_ids sstable_info_ref));
  last_table ← unwrap (last (SstableInfo.table_ids sstable_info_ref));
  rassert (first_table <=? last_table)%Z;;
  rassert (0 <? block_meta_count);;
  first_meta ← unwrap (head block_metas); first_id ← BlockMeta.table_id first_meta;
  rassert (first_id <=? first_table)%Z;;
  last_meta ← unwrap (last block_metas); last_id ← BlockMeta.table_id last_meta;
  rassert (last_table <=? last_id)%Z;;
  block_start_idx_inclusive ← skip_start block_metas first_table 0;
  rassert (block_start_idx_inclusive <? block_meta_count);;
  block_end_idx_inclusive ← skip_end block_metas last_table block_start_idx_inclusive (block_meta_count - 1);
  rassert (block_start_idx_inclusive <=? block_end_idx_inclusive);;
  Ret (mk None 0 None sstable 0 0 sstable_store options block_start_idx_inclusive block_end_idx_inclusive).

(** Assignments to the fields. *)
Definition set_block_iter (self : it) (b : option BlockIterator.t) (idx : nat) : it :=
  mk b idx (preload_stream self) (sst self) (preload_end_block_idx self) (preload_retry_times self) (sstable_store self)
     (options self) (block_start_idx_inclusive self) (block_end_idx_inclusive self).
Definition set_preload_end (self : it) (n : nat) : it :=
  mk (block_iter self) (cur_idx self) (preload_stream self) (sst self) n (preload_retry_times self) (sstable_store self)
     (options self) (block_start_idx_inclusive self) (block_end_idx_inclusive self).
Definition set_stream (self : it) (s : option PrefetchBlockStream.t) (retries : nat) (store : Store) : it :=
  mk (block_iter self) (cur_idx self) s (sst self) (preload_end_block_idx self) retries store
     (options self) (block_start_idx_inclusive self) (block_end_idx_inclusive self).

(** [self.sst.meta.block_metas[start..=end]] *)
Definition own_metas (self : it) : outcome (list BlockMeta.t) :=
  rassert ((block_start_idx_inclusive self <=? block_end_idx_inclusive self + 1) &&
           (block_end_idx_inclusive self <? length (metas self)));;
  Ret (take (block_end_idx_inclusive self + 1 - block_start_idx_inclusive self) (drop (block_start_idx_inclusive self) (metas self))).

Definition init_block_prefetch_range (self : it) (start_idx : nat) : outcome it :=
  rassert ((block_start_idx_inclusive self <=? start_idx) && (start_idx <=? block_end_idx_inclusive self));;
  let self := set_preload_end self 0 in
  match must_iterated_end_user_key (options self) with
  | None => Ret self
  | Some bound =>
      block_metas ← own_metas self;
      let next_to_start_idx := start_idx + 1 in
      if next_to_start_idx <=? block_end_idx_inclusive self then
        let user_key meta := FullKey.user_key <$> FullKey.decode (BlockMeta.smallest_key meta) in
        end_idx ←
          match bound with
          | Unbounded => Ret (block_end_idx_inclusive self + 1)
          | Included dest_key =>
              n ← rpartition_point (λ meta, k ← user_key meta; Ret (cmp_leb UserKey.cmp k dest_key)) block_metas;
              Ret (block_start_idx_inclusive self + n)
          | Excluded end_key =>
              n ← rpartition_point (λ meta, k ← user_key meta; Ret (cmp_ltb UserKey.cmp k end_key)) block_metas;
              Ret (block_start_idx_inclusive self + n)
          end;
        if next_to_start_idx <? end_idx then
          rassert (end_idx <=? block_end_idx_inclusive self + 1);; Ret (set_preload_end self end_idx)
        else Ret self
      else Ret self
  end.

(** [while preload_stream.next_block_index() < idx] *)
Fixpoint skip_blocks (n : nat) (stream : PrefetchBlockStream.t) (idx : nat) : outcome (PrefetchBlockStream.t * HummockResult unit) :=
  match n with
  | O => Panic
  | S n =>
      if PrefetchBlockStream.next_block_index stream <? idx then
        let '(stream, r) := PrefetchBlockStream.next_block stream in
        match r with inl e => Ret (stream, inl e) | inr _ => skip_blocks n stream idx end
      else Ret (stream, inr tt)
  end.

(** [prefetch_blocks] from [idx] to the end of the range. *)
Definition prefetch (self : it) (idx : nat) : it * HummockResult PrefetchBlockStream.t :=
  let '(store, r) := prefetch_blocks (sstable_store self) (sst self) idx (preload_end_block_idx self) in
  (set_stream self (preload_stream self) (preload_retry_times self) store, r).

(** [while let Some(preload_stream) = self.preload_stream]: the iterator and whether the block was found. *)
Fixpoint preload_loop (n : nat) (self : it) (idx : nat) : outcome (it * bool) :=
  match n with
  | O => Panic
  | S n =>
      match preload_stream self with
      | None => Ret (self, false)
      | Some stream =>
          '(stream, ret) ← skip_blocks fuel stream idx;
          rassert (PrefetchBlockStream.next_block_index stream =? idx);;
          let '(stream, ret) :=
            match ret with
            | inr _ => PrefetchBlockStream.next_block stream
            | inl e => (stream, inl e)
            end in
          match ret with
          | inr (Some block) =>
              let self := set_stream self (Some stream) (preload_retry_times self) (sstable_store self) in
              Ret (set_block_iter self (Some (BlockIterator.new block)) (cur_idx self), true)
          | _ =>
              let self := set_stream self None (preload_retry_times self) (sstable_store self) in
              if idx + 1 <? preload_end_block_idx self then
                let failed := match ret with inl _ => true | inr _ => false end in
                if failed && (max_preload_retry_times (options self) <=? preload_retry_times self) then Ret (self, false)
                else
                  let self :=
                    if failed then set_stream self None (preload_retry_times self + 1) (sstable_store self) else self in
                  let '(self, r) := prefetch self idx in
                  match r with
                  | inr stream => preload_loop n (set_stream self (Some stream) (preload_retry_times self) (sstable_store self)) idx
                  | inl _ => Ret (self, false)
                  end
              else preload_loop n self idx
          end
      end
  end.

Definition seek_idx (self : it) (idx : nat) (seek_key : option FullKey.t) : step it :=
  if block_end_idx_inclusive self <? idx then ok (set_block_iter self None (cur_idx self))
  else
    let self :=
      match preload_stream self with
      | None =>
          if idx + 1 <? preload_end_block_idx self then
            let '(self, r) := prefetch self idx in
            match r with
            | inr stream => set_stream self (Some stream) (preload_retry_times self) (sstable_store self)
            | inl _ => self
            end
          else self
      | Some _ => self
      end in
    '(self, hit_cache) ←
      (if match preload_stream self with
          | Some stream => PrefetchBlockStream.next_block_index stream <=? idx
          | None => false
          end
       then preload_loop fuel self idx else Ret (self, false));
    let '(self, r) :=
      if (hit_cache : bool) then (self, inr tt)
      else
        let '(store, block) := get (sstable_store self) (sst self) idx in
        let self := set_stream self (preload_stream self) (preload_retry_times self) store in
        match block with
        | inl e => (self, inl e)
        | inr block => (set_block_iter self (Some (BlockIterator.new block)) (cur_idx self), inr tt)
        end in
    match r with
    | inl e => Ret (self, inl e)
    | inr _ =>
        block_iter ← unwrap (block_iter self);
        block_iter ← match seek_key with
                     | Some key => BlockIterator.seek block_iter key
                     | None => BlockIterator.seek_to_first block_iter
                     end;
        ok (set_block_iter self (Some block_iter) idx)
    end.

Definition calculate_block_idx_by_key (self : it) (key : FullKey.t) : outcome nat :=
  block_metas ← own_metas self;
  n ← rpartition_point (λ meta, k ← FullKey.decode (BlockMeta.smallest_key meta); Ret (cmp_leb FullKey.cmp k key)) block_metas;
  Ret (block_start_idx_inclusive self + (n - 1)).

Definition is_valid (self : it) : outcome bool :=
  match block_iter self with Some i => BlockIterator.is_valid i | None => Ret false end.

Definition next (self : it) : step it :=
  block_iter ← unwrap (block_iter self);
  '(block_iter, moved) ← BlockIterator.try_next block_iter;
  let self := set_block_iter self (Some block_iter) (cur_idx self) in
  if (moved : bool) then ok self else seek_idx self (cur_idx self + 1) None.

Definition key (self : it) : outcome FullKey.t := i ← unwrap (block_iter self); BlockIterator.key i.

Definition value (self : it) : outcome HummockValue.t :=
  i ← unwrap (block_iter self);
  raw_value ← BlockIterator.value i;
  match HummockValue.from_slice raw_value with inr v => Ret v | inl _ => Panic end.

Definition rewind (self : it) : step it :=
  self ← init_block_prefetch_range self (block_start_idx_inclusive self);
  seek_idx self (block_start_idx_inclusive self) None.

Definition seek (self : it) (key : FullKey.t) : step it :=
  block_idx ← calculate_block_idx_by_key self key;
  self ← init_block_prefetch_range self block_idx;
  and_then (seek_idx self block_idx (Some key)) id (λ self,
    valid ← is_valid self;
    if negb valid then seek_idx self (block_idx + 1) None else ok self).

Definition sst_iter : HummockIterator.t it := {|
  HummockIterator.direction := DirectionEnum.Forward;
  HummockIterator.next := next;
  HummockIterator.key := key;
  HummockIterator.value := value;
  HummockIterator.is_valid := is_valid;
  HummockIterator.rewind := rewind;
  HummockIterator.seek := seek
|}.
End forward.
End SstableIterator.

(** ** [BackwardSstableIterator] *)
Module BackwardSstableIterator.

Record t (Store : Type) := mk {
  block_iter : option BlockIterator.t;
  cur_idx : nat;
  sst : Sstable.t;
  sstable_store : Store
}.
Arguments mk {Store} block_iter cur_idx sst sstable_store.
Arguments block_iter {Store} t.
Arguments cur_idx {Store} t.
Arguments sst {Store} t.
Arguments sstable_store {Store} t.

Section backward.
Context {Store : Type} (get : Store → Sstable.t → nat → Store * HummockResult Block.t).
Abbreviation it := (t Store).

(** Without blocks [len() - 1] wraps; the iterator then never finds a block. *)
Definition new (sstable : Sstable.t) (sstable_store : Store) : it :=
  mk None (Sstable.block_count sstable - 1) sstable sstable_store.

Definition seek_idx (self : it) (idx : Z) (seek_key : option FullKey.t) : step it :=
  if (Z.of_nat (Sstable.block_count (sst self)) <=? idx)%Z || (idx <? 0)%Z
  then ok (mk None (cur_idx self) (sst self) (sstable_store self))
  else
    let '(store, block) := get (sstable_store self) (sst self) (Z.to_nat idx) in
    match block with
    | inl e => Ret (mk (block_iter self) (cur_idx self) (sst self) store, inl e)
    | inr block =>
        let block_iter := BlockIterator.new block in
        block_iter ← match seek_key with
                     | Some key => BlockIterator.seek_le block_iter key
                     | None => BlockIterator.seek_to_last block_iter
                     end;
        ok (mk (Some block_iter) (Z.to_nat idx) (sst self) store)
    end.

Definition is_valid (self : it) : outcome bool :=
  match block_iter self with Some i => BlockIterator.is_valid i | None => Ret false end.

Definition next (self : it) : step it :=
  block_iter ← unwrap (block_iter self);
  '(block_iter, moved) ← BlockIterator.try_prev block_iter;
  let self := mk (Some block_iter) (cur_idx self) (sst self) (sstable_store self) in
  if (moved : bool) then ok self else seek_idx self (Z.of_nat (cur_idx self) - 1) None.

Definition key (self : it) : outcome FullKey.t := i ← unwrap (block_iter self); BlockIterator.key i.

Definition value (self : it) : outcome HummockValue.t :=
  i ← unwrap (block_iter self);
  raw_value ← BlockIterator.value i;
  match HummockValue.from_slice raw_value with inr v => Ret v | inl _ => Panic end.

Definition rewind (self : it) : step it := seek_idx self (Z.of_nat (Sstable.block_count (sst self)) - 1) None.

Definition seek (self : it) (key : FullKey.t) : step it :=
  n ← rpartition_point (λ meta, k ← FullKey.decode (BlockMeta.smallest_key meta); Ret (cmp_leb FullKey.cmp k key))
        (SstableMeta.block_metas (Sstable.meta (sst self)));
  let block_idx := Z.of_nat (n - 1) in
  and_then (seek_idx self block_idx (Some key)) id (λ self,
    valid ← is_valid self;
    if negb valid then seek_idx self (block_idx - 1) None else ok self).

Definition sst_iter : HummockIterator.t it := {|
  HummockIterator.direction := DirectionEnum.Backward;
  HummockIterator.next := next;
  HummockIterator.key := key;
  HummockIterator.value := value;
  HummockIterator.is_valid := is_valid;
  HummockIterator.rewind := rewind;
  HummockIterator.seek := seek
|}.
End backward.
End BackwardSstableIterator.
