(* ===== verification/SstIterSpec.v ===== *)
(** * What iterating over an SST returns

    Over an SST whose blocks hold sorted entries and a store that fetches them, the iterators
    of [SstIter.v] meet the contract of [IterSpec.v]: they denote the entries of the blocks of
    the tables asked for, in order and in reverse, and their search for the first block misses
    none.  Prefetched blocks change nothing about a scan; a second [seek] past the end of a
    prefetched stream never returns. *)

From Stdlib Require Import ZArith Lia.
From S2P Require Import Prelude Order Bytes Epoch Bits Bitmap Vnode Key KeySpec KeyOrder KeyRange Sst SstSpec Block BlockSpec BlockIterSpec SstMeta Iter IterSpec SstIter.

Implicit Types (e x y : kv) (es : list kv).

(** ** A block of entries *)

(** The entries as they are written into a block. *)
Definition raw e : FullKey.t * list byte := (e.1, HummockValue.encode e.2).

Definition block_of (b : Block.t) es : Prop :=
  ∃ table ents, holds table ents b ∧ StronglySorted key_lt (e_key <$> ents) ∧ pair_of <$> ents = raw <$> es.

(** The block iterator at entry [n]; past the last it is invalid. *)
Definition block_at (bi : BlockIterator.t) es (n : nat) : Prop :=
  ∃ table ents b, holds table ents b ∧ StronglySorted key_lt (e_key <$> ents) ∧ pair_of <$> ents = raw <$> es ∧
    BlockIterSpec.stands ents b bi n.

Lemma from_slice_encode v : HummockValue.from_slice (HummockValue.encode v) = inr v.
Proof. by destruct v. Qed.

Lemma raw_lookup ents es n e :
  pair_of <$> ents = raw <$> es → es !! n = Some e →
  ∃ ent, ents !! n = Some ent ∧ e_key ent = e.1 ∧ e_val ent = HummockValue.encode e.2.
Proof.
  intros Heq Hn. assert ((raw <$> es) !! n = Some (raw e)) as Hr by by rewrite list_lookup_fmap, Hn.
  rewrite <-Heq, list_lookup_fmap in Hr. destruct (ents !! n) as [ent|]; [|done]. exists ent. split; [done|].
  injection Hr as H1 H2. by split.
Qed.

Lemma raw_length ents es : pair_of <$> ents = raw <$> es → length ents = length es.
Proof. intros H%(f_equal length). by rewrite !length_fmap in H. Qed.

Lemma block_at_entry bi es n e :
  block_at bi es n → es !! n = Some e →
  BlockIterator.is_valid bi = Ret true ∧ BlockIterator.key bi = Ret e.1 ∧ BlockIterator.value bi = Ret (HummockValue.encode e.2).
Proof.
  intros (table & ents & b & Hh & _ & Heq & Hst) Hn. destruct (raw_lookup _ _ _ _ Heq Hn) as (ent & He & Hk & Hv).
  unfold BlockIterSpec.stands in Hst. rewrite He in Hst. subst bi. rewrite <-Hk, <-Hv.
  split; [by eapply cursor_valid|]. split; [by eapply cursor_key|by eapply cursor_value].
Qed.

Lemma block_at_end bi es n : block_at bi es n → length es ≤ n → BlockIterator.is_valid bi = Ret false.
Proof.
  intros (table & ents & b & Hh & _ & Heq & Hst) Hn. unfold BlockIterSpec.stands in Hst.
  rewrite lookup_ge_None_2 in Hst by (rewrite (raw_length _ _ Heq); lia). destruct Hst as (kt & vt & ->). by eapply exhausted_invalid.
Qed.

Lemma block_at_next bi es n e :
  block_at bi es n → es !! n = Some e →
  ∃ bi', BlockIterator.try_next bi = Ret (bi', bool_decide (is_Some (es !! S n))) ∧
    (is_Some (es !! S n) → block_at bi' es (S n)).
Proof.
  intros Hat Hn. pose proof (block_at_entry _ _ _ _ Hat Hn) as (Hv & _). destruct Hat as (table & ents & b & Hh & Hs & Heq & Hst).
  destruct (raw_lookup _ _ _ _ Heq Hn) as (ent & He & _). unfold BlockIterSpec.stands in Hst. rewrite He in Hst. subst bi.
  unfold BlockIterator.try_next. rewrite Hv. cbn [mbind outcome_bind rassert].
  destruct (es !! S n) as [e'|] eqn:Hn'.
  - destruct (raw_lookup _ _ _ _ Heq Hn') as (ent' & He' & _). rewrite (try_next_ok table ents b Hh n ent ent' He He').
    eexists. split; [done|]. intros _. exists table, ents, b. split_and!; [done..|]. unfold BlockIterSpec.stands. by rewrite He'.
  - eexists. rewrite bool_decide_false by (intros [? ?]; congruence). split; [|by intros [? ?]].
    eapply try_next_end; [done|done|]. apply lookup_ge_None. apply lookup_ge_None in Hn'. rewrite (raw_length _ _ Heq). lia.
Qed.

Lemma block_first b es e :
  block_of b es → es !! 0 = Some e → ∃ bi, BlockIterator.seek_to_first (BlockIterator.new b) = Ret bi ∧ block_at bi es 0.
Proof.
  intros (table & ents & Hh & Hs & Heq) Hn. destruct (raw_lookup _ _ _ _ Heq Hn) as (ent & He & _).
  eexists. split; [by apply (seek_to_first_ok table ents b Hh)|]. exists table, ents, b. split_and!; [done..|].
  unfold BlockIterSpec.stands. by rewrite He.
Qed.

(** [seek] in a block finds the entries from the key on. *)
Lemma block_seek b es k :
  block_of b es →
  ∃ bi n, BlockIterator.seek (BlockIterator.new b) k = Ret bi ∧ block_at bi es n ∧
    drop n es = from_key DirectionEnum.Forward k es.
Proof.
  intros (table & ents & Hh & Hs & Heq). destruct (seek_ok table ents b Hh Hs (BlockIterator.new b) k eq_refl) as (bi & n & Hr & Hst & Hle & Hlt & Hge).
  exists bi, n. split; [done|]. split; [by exists table, ents, b|]. unfold from_key. simpl.
  assert (∀ i e, es !! i = Some e → (FullKey.cmp e.1 k = Lt ↔ i < n)) as Hsplit.
  { intros i e Hi. destruct (raw_lookup _ _ _ _ Heq Hi) as (ent & He & <- & _). split.
    - intros Hc. destruct (decide (i < n)) as [|Hni]; [done|]. rewrite Forall_lookup in Hge. exfalso.
      apply (Hge (i - n) ent); [|done]. rewrite lookup_drop. by replace (n + (i - n)) with i by lia.
    - intros Hi'. rewrite Forall_lookup in Hlt. apply (Hlt i ent). by rewrite lookup_take_lt. }
  rewrite <-(take_drop n es) at 2. rewrite filter_app. rewrite filter_none, filter_all; [done| |].
  - intros e (i & Hi)%list_elem_of_lookup. rewrite lookup_drop in Hi. rewrite (Hsplit _ _ Hi). lia.
  - intros e (i & Hi)%list_elem_of_lookup. pose proof (lookup_lt_Some _ _ _ Hi) as Hlen. rewrite length_take in Hlen.
    rewrite lookup_take_lt in Hi by lia. rewrite (Hsplit _ _ Hi). lia.
Qed.

(** ** An SST and its store *)
Section sst.
Context {Store : Type} (get : Store → Sstable.t → nat → Store * HummockResult Block.t)
  (prefetch_blocks : Store → Sstable.t → nat → nat → Store * HummockResult PrefetchBlockStream.t)
  (faults : Prop) (sst0 : Sstable.t) (content : list (list kv)).
Abbreviation metas0 := (SstableMeta.block_metas (Sstable.meta sst0)).

(** The metadata of a block names its first entry. *)
Hypothesis metas_ok : Forall2 (λ meta es, ∃ e, head es = Some e ∧ FullKey.decode (BlockMeta.smallest_key meta) = Ret e.1) metas0 content.
Hypothesis content_sorted : StronglySorted (λ x y : kv, FullKey.cmp x.1 y.1 = Lt) (concat content).

(** [get] returns the block, or fails. *)
Hypothesis get_ok : ∀ store idx es, content !! idx = Some es →
  match (get store sst0 idx).2 with inr b => block_of b es | inl _ => faults end.

Lemma content_nonempty idx es : content !! idx = Some es → ∃ e, es !! 0 = Some e.
Proof. intros Hi. destruct (Forall2_lookup_r _ _ _ _ _ metas_ok Hi) as (m & _ & e & He & _). exists e. by destruct es. Qed.

Lemma content_is_Some idx : idx < length metas0 → ∃ es, content !! idx = Some es.
Proof. intros Hi. apply lookup_lt_is_Some_2. by rewrite <-(Forall2_length _ _ _ metas_ok). Qed.

(** The entries of the blocks [a] to [b - 1]. *)
Definition blocks_between (a b : nat) : list kv := concat (take (b - a) (drop a content)).

Lemma blocks_between_cons a b es : a < b → content !! a = Some es → blocks_between a b = es ++ blocks_between (S a) b.
Proof.
  intros Hlt Ha. unfold blocks_between. rewrite (drop_S _ _ _ Ha). replace (b - a) with (S (b - S a)) by lia. done.
Qed.

Lemma blocks_between_empty a b : b ≤ a → blocks_between a b = [].
Proof. intros H. unfold blocks_between. by replace (b - a) with 0 by lia. Qed.

Lemma blocks_between_split a m b : a ≤ m ≤ b → blocks_between a b = blocks_between a m ++ blocks_between m b.
Proof.
  intros H. unfold blocks_between. rewrite <-concat_app. f_equal.
  rewrite <-(take_drop (m - a) (take (b - a) (drop a content))). rewrite take_take, Nat.min_l by lia.
  rewrite skipn_firstn_comm, drop_drop. do 2 f_equal; [lia|]. f_equal. lia.
Qed.

Lemma between_elem a b e : e ∈ blocks_between a b → ∃ i es, a ≤ i < b ∧ content !! i = Some es ∧ e ∈ es.
Proof.
  unfold blocks_between. intros (es & Hes & He)%list_elem_of_In%in_concat.
  apply list_elem_of_In, list_elem_of_lookup in Hes as (i & Hi). pose proof (lookup_lt_Some _ _ _ Hi) as Hl.
  rewrite length_take in Hl. rewrite lookup_take_lt, lookup_drop in Hi by lia. exists (a + i), es.
  split; [lia|]. split; [done|]. by apply list_elem_of_In.
Qed.

Lemma between_sorted a b : StronglySorted (λ x y : kv, FullKey.cmp x.1 y.1 = Lt) (blocks_between a b).
Proof.
  assert (∃ p q, concat content = p ++ blocks_between a b ++ q) as (p & q & Hpq).
  { exists (concat (take a content)), (concat (drop (b - a) (drop a content))). unfold blocks_between.
    rewrite <-!concat_app, !take_drop. done. }
  rewrite Hpq in content_sorted. apply StronglySorted_app in content_sorted as (_ & _ & H). by apply StronglySorted_app in H as (_ & H & _).
Qed.

(** Entries of an earlier block are below those of a later one. *)
Lemma blocks_ordered i j es es' x y :
  i < j → content !! i = Some es → content !! j = Some es' → x ∈ es → y ∈ es' → FullKey.cmp x.1 y.1 = Lt.
Proof.
  intros Hij Hi Hj Hx Hy. pose proof (between_sorted i (S j)) as Hs.
  rewrite (blocks_between_cons i (S j) es) in Hs by (done || lia).
  apply StronglySorted_app in Hs as (Hlt & _ & _). apply Hlt; [done|].
  rewrite (blocks_between_split (S i) j (S j)) by lia. apply elem_of_app. right.
  rewrite (blocks_between_cons j (S j) es') by (done || lia). apply elem_of_app. by left.
Qed.

(** ** Which block a key is in *)
Abbreviation first_le k := (λ meta, k' ← FullKey.decode (BlockMeta.smallest_key meta); Ret (cmp_leb FullKey.cmp k' k)).

Lemma first_le_ok k i meta es e :
  metas0 !! i = Some meta → content !! i = Some es → es !! 0 = Some e → first_le k meta = Ret (cmp_leb FullKey.cmp e.1 k).
Proof.
  intros Hm Hc He. destruct (Forall2_lookup_lr _ _ _ _ _ _ metas_ok Hm Hc) as (e' & He' & ->).
  assert (e' = e) as -> by (destruct es; [done|]; simpl in *; congruence). done.
Qed.

Lemma partition_point_stop {A} (p : A → bool) xs a : xs !! partition_point p xs = Some a → p a = false.
Proof. induction xs as [|y xs IH]; [done|]. simpl. destruct (p y) eqn:Ey; [exact IH|]. intros [= <-]. done. Qed.

(** The first entry of a block is the least of it and of the later ones. *)
Lemma block_first_least i j es es' x y :
  i ≤ j → content !! i = Some es → content !! j = Some es' → es !! 0 = Some x → y ∈ es' → FullKey.cmp x.1 y.1 ≠ Gt.
Proof.
  intros Hij Hi Hj Hx Hy. destruct (decide (i = j)) as [->|Hne].
  - assert (es' = es) as -> by congruence. pose proof (between_sorted j (S j)) as Hs.
    rewrite (blocks_between_cons j (S j) es), (blocks_between_empty (S j) (S j)), app_nil_r in Hs by (done || lia).
    destruct es as [|z es]; [done|]. injection Hx as ->. apply StronglySorted_cons in Hs as [Hf _].
    apply elem_of_cons in Hy as [->|Hy]; [by rewrite (cmp_refl FullKey.cmp)|]. rewrite Forall_forall in Hf. by rewrite (Hf y Hy).
  - assert (FullKey.cmp x.1 y.1 = Lt) as ->; [|done]. apply (blocks_ordered i j es es'); [lia|done..|by eapply list_elem_of_lookup_2|done].
Qed.

(** The search over the blocks [a] to [b - 1]: every entry before the block found is below the
    key, every entry behind it is not. *)
Lemma block_search k a b :
  a < b → b ≤ length metas0 →
  ∃ n, rpartition_point (first_le k) (take (b - a) (drop a metas0)) = Ret n ∧ a + (n - 1) < b ∧
    (∀ i es e, a ≤ i < a + (n - 1) → content !! i = Some es → e ∈ es → FullKey.cmp e.1 k = Lt) ∧
    (∀ i es e, a + (n - 1) < i < b → content !! i = Some es → e ∈ es → FullKey.cmp e.1 k = Gt).
Proof.
  intros Hab Hb. set (ms := take (b - a) (drop a metas0)).
  assert (length ms = b - a) as Hlen by (unfold ms; rewrite length_take, length_drop; lia).
  assert (∀ i meta, ms !! i = Some meta → metas0 !! (a + i) = Some meta) as Hms.
  { intros i meta Hi. pose proof (lookup_lt_Some _ _ _ Hi). unfold ms in Hi. rewrite lookup_take_lt, lookup_drop in Hi by lia. done. }
  assert (∀ i, i < b - a → ∃ meta es e, ms !! i = Some meta ∧ content !! (a + i) = Some es ∧ es !! 0 = Some e ∧
    val (first_le k) meta = cmp_leb FullKey.cmp e.1 k ∧ first_le k meta = Ret (val (first_le k) meta)) as Hall.
  { intros i Hi. destruct (lookup_lt_is_Some_2 ms i ltac:(lia)) as [meta Hm]. pose proof (Hms _ _ Hm) as Hm'.
    destruct (content_is_Some (a + i)) as [es He]; [by eapply lookup_lt_Some|]. destruct (content_nonempty _ _ He) as [e He0].
    pose proof (first_le_ok k _ _ _ _ Hm' He He0) as Hr. exists meta, es, e. unfold val. rewrite Hr. done. }
  rewrite rpartition_point_ok.
  2: { apply Forall_lookup. intros i meta Hi. destruct (Hall i) as (m & es & e & Hm & _ & _ & _ & Hr); [apply lookup_lt_Some in Hi; lia|]. congruence. }
  set (n := partition_point _ ms). pose proof (partition_point_le (val (first_le k)) ms) as Hn. fold n in Hn.
  exists n. split; [done|]. split; [lia|].
  split.
  - intros i es e Hi He Hin. assert (n - 1 < partition_point (val (first_le k)) ms) as Hlt by (unfold n in *; lia). destruct (Hall (n - 1)) as (m & es' & e' & Hm & He' & He0 & Hv & _); [lia|].
    pose proof (partition_point_before (val (first_le k)) ms (n - 1) m Hm Hlt) as Hle. rewrite Hv, (cmp_leb_le FullKey.cmp) in Hle.
    apply (cmp_lt_le_trans FullKey.cmp _ e'.1); [|done].
    apply (blocks_ordered i (a + (n - 1)) es es'); [lia|done..|by eapply list_elem_of_lookup_2].
  - intros i es e Hi He Hin. destruct (Hall n) as (m & es' & e' & Hm & He' & He0 & Hv & _); [lia|].
    pose proof (partition_point_stop (val (first_le k)) ms m Hm) as Hgt. rewrite Hv in Hgt.
    apply (cmp_gt_lt FullKey.cmp). apply (cmp_lt_le_trans FullKey.cmp _ e'.1).
    { apply (cmp_gt_lt FullKey.cmp). unfold cmp_leb in Hgt. by destruct (FullKey.cmp e'.1 k). }
    apply (block_first_least (a + n) i es' es); [lia|done..].
Qed.

(** ** Forwards *)
Section forward.
Context (fuel first last : nat) (fuel_ok : 2 ≤ fuel) (window : first ≤ last) (last_ok : last < length metas0).
Abbreviation sst_it := (SstableIterator.t Store).
Implicit Type self : sst_it.

(** A stream serves blocks of the SST. *)
Definition serves (s : PrefetchBlockStream.t) : Prop :=
  ∀ j b es, PrefetchBlockStream.blocks s !! j = Some b → content !! (PrefetchBlockStream.block_index s + j) = Some es → block_of b es.

(** [prefetch_blocks] returns a stream that starts with the block asked for. *)
Hypothesis prefetch_ok : ∀ store idx end_,
  match (prefetch_blocks store sst0 idx end_).2 with
  | inr s => PrefetchBlockStream.block_index s = idx ∧ PrefetchBlockStream.blocks s ≠ [] ∧ serves s
  | inl _ => True
  end.

(** The stream has not passed block [idx], nor lags behind it. *)
Definition ready (idx : nat) self : Prop :=
  match SstableIterator.preload_stream self with
  | None => True
  | Some s => idx ≤ PrefetchBlockStream.block_index s ∧ serves s
  end.

(** What the operations leave alone; an iterator that does not prefetch never has a stream. *)
Definition kept self self' : Prop :=
  SstableIterator.sst self' = SstableIterator.sst self ∧
  SstableIterator.options self' = SstableIterator.options self ∧
  SstableIterator.preload_end_block_idx self' = SstableIterator.preload_end_block_idx self ∧
  SstableIterator.block_start_idx_inclusive self' = SstableIterator.block_start_idx_inclusive self ∧
  SstableIterator.block_end_idx_inclusive self' = SstableIterator.block_end_idx_inclusive self ∧
  (SstableIterator.preload_stream self = None → SstableIterator.preload_end_block_idx self = 0 → SstableIterator.preload_stream self' = None).

Lemma kept_refl self : kept self self.
Proof. split_and!; done. Qed.

Lemma kept_trans s1 s2 s3 : kept s1 s2 → kept s2 s3 → kept s1 s3.
Proof.
  intros (H1 & H2 & H3 & H4 & H5 & H6) (J1 & J2 & J3 & J4 & J5 & J6). split_and!; try (by etrans). intros A B. apply J6; [auto|congruence].
Qed.

Lemma skip_blocks_ready s idx : idx ≤ PrefetchBlockStream.block_index s → SstableIterator.skip_blocks fuel s idx = Ret (s, inr tt).
Proof.
  intros Hle. destruct fuel as [|n]; [lia|]. cbn [SstableIterator.skip_blocks]. unfold PrefetchBlockStream.next_block_index.
  by rewrite (proj2 (Nat.ltb_ge _ _)).
Qed.

(** What the loop over the stream returns for block [idx]. *)
Definition preloaded self (idx : nat) (es : list kv) (r : sst_it * bool) : Prop :=
  kept self r.1 ∧ SstableIterator.cur_idx r.1 = SstableIterator.cur_idx self ∧ ready (S idx) r.1 ∧
  (r.2 = true → ∃ b, SstableIterator.block_iter r.1 = Some (BlockIterator.new b) ∧ block_of b es).

Lemma preload_hit n self s idx es :
  0 < n → SstableIterator.preload_stream self = Some s → PrefetchBlockStream.block_index s = idx →
  PrefetchBlockStream.blocks s ≠ [] → serves s → content !! idx = Some es →
  ∃ r, SstableIterator.preload_loop prefetch_blocks fuel n self idx = Ret r ∧ preloaded self idx es r.
Proof.
  intros Hn Hs Hi Hne Hsv Hes. destruct n as [|n]; [lia|]. cbn [SstableIterator.preload_loop]. rewrite Hs.
  rewrite skip_blocks_ready by lia. cbn [mbind outcome_bind]. unfold PrefetchBlockStream.next_block_index.
  rewrite Hi, Nat.eqb_refl. cbn [rassert mbind outcome_bind]. unfold PrefetchBlockStream.next_block.
  destruct (PrefetchBlockStream.blocks s) as [|b bs] eqn:Eb; [done|]. eexists. split; [done|]. split; [|split; [done|split]].
  - split_and!; try done. intros H. congruence.
  - split; [simpl; lia|]. intros j b' es' Hj Hc. simpl in Hj, Hc. apply (Hsv (S j)); [by rewrite Eb|]. by replace (PrefetchBlockStream.block_index s + S j) with (PrefetchBlockStream.block_index s + 1 + j) by lia.
  - intros _. exists b. split; [done|]. apply (Hsv 0); [by rewrite Eb|]. by rewrite Nat.add_0_r, Hi.
Qed.

Lemma preload_loop_ok n self idx es s :
  2 ≤ n → SstableIterator.sst self = sst0 → SstableIterator.preload_stream self = Some s → PrefetchBlockStream.block_index s = idx → serves s →
  content !! idx = Some es →
  ∃ r, SstableIterator.preload_loop prefetch_blocks fuel n self idx = Ret r ∧ preloaded self idx es r.
Proof.
  intros Hn Hsst Hs Hi Hsv Hes. destruct (PrefetchBlockStream.blocks s) as [|b bs] eqn:Eb.
  2: { apply (preload_hit _ _ s); [lia|done|done|by rewrite Eb|done|done]. }
  destruct n as [|[|n]]; [lia|lia|]. cbn [SstableIterator.preload_loop]. rewrite Hs.
  rewrite skip_blocks_ready by lia. cbn [mbind outcome_bind]. unfold PrefetchBlockStream.next_block_index.
  rewrite Hi, Nat.eqb_refl. cbn [rassert mbind outcome_bind]. unfold PrefetchBlockStream.next_block. rewrite Eb. cbn [andb].
  set (self0 := SstableIterator.set_stream self None _ _).
  assert (kept self self0) as Hk0 by (split_and!; done).
  destruct (idx + 1 <? SstableIterator.preload_end_block_idx self0).
  2: { eexists. split; [done|]. split; [done|]. done. }
  unfold SstableIterator.prefetch. pose proof (prefetch_ok (SstableIterator.sstable_store self0) idx (SstableIterator.preload_end_block_idx self0)) as Hpf.
  change (SstableIterator.sst self0) with (SstableIterator.sst self). rewrite Hsst.
  destruct (prefetch_blocks _ sst0 _ _) as [store [err|s']]; cbn [snd] in Hpf.
  - eexists. split; [done|]. split; [|done]. split_and!; done.
  - destruct Hpf as (Hi' & Hne & Hsv'). set (self1 := SstableIterator.set_stream _ (Some s') _ _).
    destruct (preload_hit (S n) self1 s' idx es) as (r & Hr & Hk & Hc & Hrd & Hh); [lia|done..|].
    cbn [SstableIterator.preload_loop] in Hr. exists r. split; [exact Hr|]. split; [|done].
    apply (kept_trans _ self1); [|done]. split_and!; try done. intros H. congruence.
Qed.

(** The iterator before the loop: a stream is opened when the range asks for it. *)
Definition with_stream self (idx : nat) : sst_it :=
  match SstableIterator.preload_stream self with
  | None =>
      if idx + 1 <? SstableIterator.preload_end_block_idx self then
        let '(self, r) := SstableIterator.prefetch prefetch_blocks self idx in
        match r with
        | inr stream => SstableIterator.set_stream self (Some stream) (SstableIterator.preload_retry_times self) (SstableIterator.sstable_store self)
        | inl _ => self
        end
      else self
  | Some _ => self
  end.

Lemma with_stream_ok self idx :
  SstableIterator.sst self = sst0 → ready idx self →
  kept self (with_stream self idx) ∧ ready idx (with_stream self idx) ∧
  SstableIterator.cur_idx (with_stream self idx) = SstableIterator.cur_idx self.
Proof.
  intros Hsst Hr. unfold with_stream. destruct (SstableIterator.preload_stream self) as [s|] eqn:Es; [split; [apply kept_refl|done]|].
  destruct (Nat.ltb_spec (idx + 1) (SstableIterator.preload_end_block_idx self)) as [Hlt|]; [|split; [apply kept_refl|done]].
  unfold SstableIterator.prefetch. rewrite Hsst.
  pose proof (prefetch_ok (SstableIterator.sstable_store self) idx (SstableIterator.preload_end_block_idx self)) as Hpf.
  destruct (prefetch_blocks _ sst0 _ _) as [store [err|s']]; cbn [snd] in Hpf.
  - split; [|split; [|done]]; [split_and!; done|]. unfold ready. simpl. by rewrite Es.
  - destruct Hpf as (Hi & _ & Hsv). split; [|split; [|done]]; [split_and!; try done; simpl; lia|]. split; [simpl; lia|done].
Qed.

Lemma preload_stage self idx es :
  SstableIterator.sst self = sst0 → ready idx self → content !! idx = Some es →
  ∃ r, (if match SstableIterator.preload_stream self with
           | Some stream => PrefetchBlockStream.next_block_index stream <=? idx | None => false end
        then SstableIterator.preload_loop prefetch_blocks fuel fuel self idx else Ret (self, false)) = Ret r ∧ preloaded self idx es r.
Proof.
  intros Hsst Hr Hes. unfold ready in Hr. destruct (SstableIterator.preload_stream self) as [s|] eqn:Es.
  2: { eexists. split; [done|]. split; [apply kept_refl|]. split; [done|]. split; [|done]. unfold ready. simpl. by rewrite Es. }
  destruct Hr as [Hle Hsv]. unfold PrefetchBlockStream.next_block_index.
  destruct (Nat.leb_spec (PrefetchBlockStream.block_index s) idx) as [Hge|Hgt].
  - apply (preload_loop_ok _ _ _ _ s); [done|done|done|lia|done|done].
  - eexists. split; [done|]. split; [apply kept_refl|]. split; [done|]. split; [|done]. unfold ready. simpl. rewrite Es. done.
Qed.

(** The entries of a block a [seek] to it stands at. *)
Definition sought (key : option FullKey.t) (es : list kv) : list kv :=
  match key with None => es | Some k => from_key DirectionEnum.Forward k es end.

Lemma open_block b es key :
  block_of b es → (∃ e, es !! 0 = Some e) →
  ∃ bi n, match key with
          | Some k => BlockIterator.seek (BlockIterator.new b) k
          | None => BlockIterator.seek_to_first (BlockIterator.new b)
          end = Ret bi ∧ block_at bi es n ∧ drop n es = sought key es.
Proof.
  intros Hb [e He]. destruct key as [k|]; [by apply block_seek|]. destruct (block_first b es e Hb He) as (bi & -> & Hat).
  by exists bi, 0.
Qed.

Lemma sst_seek_idx_ok self idx key es :
  SstableIterator.sst self = sst0 → SstableIterator.block_end_idx_inclusive self = last → idx ≤ last → ready idx self →
  content !! idx = Some es →
  runs faults (SstableIterator.seek_idx get prefetch_blocks fuel self idx key)
    (λ self', kept self self' ∧ SstableIterator.cur_idx self' = idx ∧ ready (S idx) self' ∧
       ∃ bi n, SstableIterator.block_iter self' = Some bi ∧ block_at bi es n ∧ drop n es = sought key es)
    (kept self).
Proof.
  intros Hsst Hend Hle Hr Hes. unfold SstableIterator.seek_idx. rewrite Hend, (proj2 (Nat.ltb_ge _ _)) by done.
  fold (with_stream self idx). destruct (with_stream_ok self idx Hsst Hr) as (Hk1 & Hr1 & Hc1).
  set (self1 := with_stream self idx) in *. cbv zeta.
  assert (SstableIterator.sst self1 = sst0) as Hsst1 by (destruct Hk1 as (-> & _); done).
  destruct (preload_stage self1 idx es Hsst1 Hr1 Hes) as ([self2 hit] & -> & Hk2 & Hc2 & Hr2 & Hh). cbn [mbind outcome_bind fst snd] in *.
  pose proof (kept_trans _ _ _ Hk1 Hk2) as Hk. pose proof (content_nonempty _ _ Hes) as Hne.
  assert (∀ store b, block_of b es →
    runs faults (block_iter ← match key with
                              | Some k => BlockIterator.seek (BlockIterator.new b) k
                              | None => BlockIterator.seek_to_first (BlockIterator.new b) end;
      ok (SstableIterator.set_block_iter (SstableIterator.set_stream self2 (SstableIterator.preload_stream self2)
            (SstableIterator.preload_retry_times self2) store) (Some block_iter) idx))
    (λ self', kept self self' ∧ SstableIterator.cur_idx self' = idx ∧ ready (S idx) self' ∧
       ∃ bi n, SstableIterator.block_iter self' = Some bi ∧ block_at bi es n ∧ drop n es = sought key es)
    (kept self)) as Hopen.
  { intros store b Hb. destruct (open_block b es key Hb Hne) as (bi & n & -> & Hat & Hd). apply runs_ok.
    split; [exact Hk|]. split; [done|]. split; [exact Hr2|]. by exists bi, n. }
  destruct hit.
  - destruct (Hh eq_refl) as (b & Hb & Hbo). rewrite Hb. cbn [unwrap mbind outcome_bind].
    specialize (Hopen (SstableIterator.sstable_store self2) b Hbo). unfold SstableIterator.set_stream in Hopen. exact Hopen.
  - assert (SstableIterator.sst self2 = sst0) as -> by (destruct Hk2 as (-> & _); done).
    pose proof (get_ok (SstableIterator.sstable_store self2) idx es Hes) as Hg.
    destruct (get (SstableIterator.sstable_store self2) sst0 idx) as [store [err|b]]; cbn [snd] in Hg.
    + split; [done|]. exact Hk.
    + exact (Hopen store b Hg).
Qed.

(** An iterator over the blocks [first] to [last]. *)
Definition of_sst self : Prop :=
  SstableIterator.sst self = sst0 ∧ SstableIterator.block_start_idx_inclusive self = first ∧
  SstableIterator.block_end_idx_inclusive self = last.

(** With [rest] ahead. *)
Definition at_rest (rest : list kv) self : Prop :=
  of_sst self ∧
  match SstableIterator.block_iter self with
  | None => rest = []
  | Some bi =>
      ready (S (SstableIterator.cur_idx self)) self ∧ first ≤ SstableIterator.cur_idx self ≤ last ∧
      ∃ es n e, content !! SstableIterator.cur_idx self = Some es ∧ block_at bi es n ∧ es !! n = Some e ∧
        rest = drop n es ++ blocks_between (S (SstableIterator.cur_idx self)) (S last)
  end.

Lemma of_sst_kept self self' : of_sst self → kept self self' → of_sst self'.
Proof. intros (H1 & H2 & H3) (J1 & _ & _ & J2 & J3 & _). unfold of_sst. split_and!; congruence. Qed.

(** Moving to the first entry of a block. *)
Lemma seek_first self idx :
  of_sst self → first ≤ idx → ready idx self →
  runs faults (SstableIterator.seek_idx get prefetch_blocks fuel self idx None)
    (λ self', kept self self' ∧ at_rest (blocks_between idx (S last)) self') (kept self).
Proof.
  intros Hof Hge Hr. pose proof Hof as (Hsst & Hst & Hend). destruct (decide (last < idx)) as [Hlt|Hnl].
  - unfold SstableIterator.seek_idx. rewrite Hend, (proj2 (Nat.ltb_lt _ _)) by done. apply runs_ok.
    split; [split_and!; done|]. split; [done|]. simpl. by rewrite blocks_between_empty by lia.
  - destruct (content_is_Some idx) as [es Hes]; [lia|].
    eapply runs_weaken; [apply (sst_seek_idx_ok self idx None es); [done|done|lia|done|done]| |done].
    intros self' (Hk & Hc & Hr' & bi & n & Hbi & Hat & Hd). cbn [sought] in Hd. split; [done|]. split; [by apply (of_sst_kept self)|].
    rewrite Hbi, Hc. split; [done|]. split; [lia|]. destruct (content_nonempty _ _ Hes) as [e He].
    exists es, n, e. split; [done|]. split; [done|]. split.
    + rewrite <-(Nat.add_0_r n), <-lookup_drop. by rewrite Hd.
    + rewrite Hd. by rewrite (blocks_between_cons idx (S last) es) by (done || lia).
Qed.

Lemma sst_valid rest self : at_rest rest self → SstableIterator.is_valid self = Ret (match rest with [] => false | _ => true end).
Proof.
  intros [_ H]. unfold SstableIterator.is_valid. destruct (SstableIterator.block_iter self) as [bi|]; [|by subst].
  destruct H as (_ & _ & es & n & e & _ & Hat & He & ->). rewrite (proj1 (block_at_entry _ _ _ _ Hat He)).
  by rewrite (drop_S _ _ _ He).
Qed.

Lemma sst_entry e rest self :
  at_rest (e :: rest) self → SstableIterator.key self = Ret e.1 ∧ SstableIterator.value self = Ret e.2.
Proof.
  intros [_ H]. unfold SstableIterator.key, SstableIterator.value. destruct (SstableIterator.block_iter self) as [bi|]; [|done].
  destruct H as (_ & _ & es & n & e' & _ & Hat & He & Hr). rewrite (drop_S _ _ _ He) in Hr. injection Hr as -> _.
  destruct (block_at_entry _ _ _ _ Hat He) as (_ & Hk & Hv). cbn [unwrap mbind outcome_bind]. rewrite Hk, Hv.
  cbn [mbind outcome_bind]. by rewrite from_slice_encode.
Qed.

Lemma sst_next e rest self :
  at_rest (e :: rest) self →
  runs faults (SstableIterator.next get prefetch_blocks fuel self) (λ self', kept self self' ∧ at_rest rest self') (kept self).
Proof.
  intros [Hof H]. unfold SstableIterator.next. destruct (SstableIterator.block_iter self) as [bi|] eqn:Ebi; [|done].
  destruct H as (Hr & Hcur & es & n & e' & Hes & Hat & He & Hrest). cbn [unwrap mbind outcome_bind].
  destruct (block_at_next _ _ _ _ Hat He) as (bi' & -> & Hat'). cbn [mbind outcome_bind]. rewrite (drop_S _ _ _ He) in Hrest.
  injection Hrest as _ ->. case_bool_decide as Hn.
  - destruct Hn as [e'' Hn]. apply runs_ok. split; [split_and!; done|]. split; [done|]. simpl. split; [done|]. split; [done|].
    exists es, (S n), e''. split; [done|]. split; [apply Hat'; by eexists|]. done.
  - rewrite drop_ge by (apply eq_None_not_Some, lookup_ge_None in Hn; done). cbn [app].
    rewrite Nat.add_1_r.
    exact (seek_first (SstableIterator.set_block_iter self (Some bi') (SstableIterator.cur_idx self))
      (S (SstableIterator.cur_idx self)) Hof ltac:(simpl; lia) Hr).
Qed.

(** Starting over: no stream may lag behind. *)
Definition fresh self : Prop := of_sst self ∧ SstableIterator.preload_stream self = None.

Lemma rpartition_point_total {A} (P : A → outcome bool) (l : list A) :
  (∀ a, a ∈ l → ∃ b, P a = Ret b) → ∃ n, rpartition_point P l = Ret n ∧ n ≤ length l.
Proof.
  induction l as [|a l IH]; intros H; [by exists 0|]. cbn [rpartition_point]. destruct (H a) as (b & ->); [by left|].
  cbn [mbind outcome_bind]. destruct b; [|exists 0; split; [done|simpl; lia]].
  destruct IH as (n & -> & Hn); [intros a' Ha'; apply H; by right|]. exists (S n). split; [done|simpl; lia].
Qed.

Lemma own_metas_ok self :
  of_sst self → SstableIterator.own_metas self = Ret (take (S last - first) (drop first metas0)).
Proof.
  intros (H1 & H2 & H3). unfold SstableIterator.own_metas. rewrite H1, H2, H3, (proj2 (Nat.leb_le _ _)), (proj2 (Nat.ltb_lt _ _)) by lia.
  cbn [andb rassert mbind outcome_bind]. by rewrite Nat.add_1_r.
Qed.

Lemma meta_decodes meta : meta ∈ take (S last - first) (drop first metas0) → ∃ k, FullKey.decode (BlockMeta.smallest_key meta) = Ret k.
Proof.
  intros Hm. assert (meta ∈ metas0) as (i & Hi)%list_elem_of_lookup.
  { apply list_elem_of_lookup in Hm as (i & Hi). pose proof (lookup_lt_Some _ _ _ Hi) as Hl. rewrite length_take in Hl.
    rewrite lookup_take_lt, lookup_drop in Hi by lia. by eapply list_elem_of_lookup_2. }
  destruct (Forall2_lookup_l _ _ _ _ _ metas_ok Hi) as (es & _ & e & _ & He). by eexists.
Qed.

(** The prefetch range is found without a panic. *)
Lemma init_prefetch_ok self idx :
  of_sst self → first ≤ idx ≤ last →
  ∃ n, SstableIterator.init_block_prefetch_range self idx = Ret (SstableIterator.set_preload_end self n) ∧
    (must_iterated_end_user_key (SstableIterator.options self) = None → n = 0).
Proof.
  intros Hof Hidx. pose proof (own_metas_ok self Hof) as Hmetas. destruct self as [bi cur str sst pe rt store opts st en].
  destruct Hof as (_ & Hst & Hend). simpl in Hst, Hend. subst st en. unfold SstableIterator.init_block_prefetch_range.
  cbn [SstableIterator.block_start_idx_inclusive SstableIterator.block_end_idx_inclusive]. rewrite (proj2 (Nat.leb_le first idx)), (proj2 (Nat.leb_le idx last)) by lia. cbn [andb rassert mbind outcome_bind SstableIterator.set_preload_end SstableIterator.options].
  destruct (must_iterated_end_user_key opts) as [bound|]; [|by exists 0].
  change (SstableIterator.own_metas _) with (SstableIterator.own_metas (SstableIterator.mk bi cur str sst pe rt store opts first last)).
  rewrite Hmetas.
  cbn [mbind outcome_bind SstableIterator.set_preload_end SstableIterator.block_end_idx_inclusive SstableIterator.block_start_idx_inclusive].
  destruct (Nat.leb_spec (idx + 1) last) as [Hle|]; [|by exists 0].
  set (ms := take (S last - first) (drop first metas0)).
  assert (length ms = S last - first) as Hlen by (unfold ms; rewrite length_take, length_drop; lia).
  assert (∀ (cmp : UserKey.t → bool), ∃ n,
    (n ← rpartition_point (λ meta, k ← FullKey.user_key <$> FullKey.decode (BlockMeta.smallest_key meta); Ret (cmp k)) ms; Ret (first + n)) =
      Ret n ∧ n ≤ last + 1) as Hsearch.
  { intros cmp. destruct (rpartition_point_total (λ meta, k ← FullKey.user_key <$> FullKey.decode (BlockMeta.smallest_key meta); Ret (cmp k)) ms) as (n & -> & Hn).
    - intros meta Hm. cbv beta. destruct (meta_decodes meta Hm) as [k ->]. by eexists.
    - exists (first + n). split; [done|lia]. }
  assert (∃ n, match bound with
               | Unbounded => Ret (last + 1)
               | Included dest_key => n ← rpartition_point (λ meta, k ← FullKey.user_key <$> FullKey.decode (BlockMeta.smallest_key meta); Ret (cmp_leb UserKey.cmp k dest_key)) ms; Ret (first + n)
               | Excluded end_key => n ← rpartition_point (λ meta, k ← FullKey.user_key <$> FullKey.decode (BlockMeta.smallest_key meta); Ret (cmp_ltb UserKey.cmp k end_key)) ms; Ret (first + n)
               end = Ret n ∧ n ≤ last + 1) as (n & -> & Hn).
  { destruct bound as [b|b|]; [exact (Hsearch (λ k, cmp_leb UserKey.cmp k b))|exact (Hsearch (λ k, cmp_ltb UserKey.cmp k b))|by exists (last + 1)]. }
  cbn [mbind outcome_bind]. destruct (idx + 1 <? n); [|by exists 0].
  rewrite (proj2 (Nat.leb_le _ _)) by lia. by exists n.
Qed.

Abbreviation all_entries := (blocks_between first (S last)).

Lemma sst_rewind self :
  fresh self →
  ∃ n, (must_iterated_end_user_key (SstableIterator.options self) = None → n = 0) ∧
    runs faults (SstableIterator.rewind get prefetch_blocks fuel self)
      (λ self', kept (SstableIterator.set_preload_end self n) self' ∧ at_rest all_entries self')
      (kept (SstableIterator.set_preload_end self n)).
Proof.
  intros [Hof Hs]. pose proof Hof as (_ & Hst & _). unfold SstableIterator.rewind. rewrite Hst.
  destruct (init_prefetch_ok self first Hof) as (n & -> & Hn); [lia|]. exists n. split; [done|]. cbn [mbind outcome_bind].
  change (SstableIterator.block_start_idx_inclusive (SstableIterator.set_preload_end self n)) with (SstableIterator.block_start_idx_inclusive self).
  rewrite Hst. apply (seek_first (SstableIterator.set_preload_end self n)); [done|done|]. unfold ready. simpl. by rewrite Hs.
Qed.

(** What a key keeps of the blocks around the one it is in. *)
Lemma from_key_blocks k idx es :
  first ≤ idx ≤ last → content !! idx = Some es →
  (∀ i es e, first ≤ i < idx → content !! i = Some es → e ∈ es → FullKey.cmp e.1 k = Lt) →
  (∀ i es e, idx < i < S last → content !! i = Some es → e ∈ es → FullKey.cmp e.1 k = Gt) →
  from_key DirectionEnum.Forward k all_entries = from_key DirectionEnum.Forward k es ++ blocks_between (S idx) (S last).
Proof.
  intros Hidx Hes Hbef Haft. rewrite (blocks_between_split first idx (S last)), (blocks_between_cons idx (S last) es) by (done || lia).
  unfold from_key. rewrite !filter_app. simpl. rewrite (filter_none _ (blocks_between first idx)), (filter_all _ (blocks_between (S idx) (S last))); [done| |].
  - intros e (i & es' & Hi & Hes' & He)%between_elem. by rewrite (Haft i es' e) by (done || lia).
  - intros e (i & es' & Hi & Hes' & He)%between_elem H. apply H. by apply (Hbef i es' e).
Qed.

Lemma sst_seek self k :
  fresh self →
  ∃ n, (must_iterated_end_user_key (SstableIterator.options self) = None → n = 0) ∧
    runs faults (SstableIterator.seek get prefetch_blocks fuel self k)
      (λ self', kept (SstableIterator.set_preload_end self n) self' ∧ at_rest (from_key DirectionEnum.Forward k all_entries) self')
      (kept (SstableIterator.set_preload_end self n)).
Proof.
  intros [Hof Hs]. pose proof Hof as (_ & Hst & _). unfold SstableIterator.seek, SstableIterator.calculate_block_idx_by_key.
  rewrite own_metas_ok by done. cbn [mbind outcome_bind].
  destruct (block_search k first (S last)) as (m & -> & Hlt & Hbef & Haft); [lia|lia|]. cbn [mbind outcome_bind]. rewrite Hst.
  set (idx := first + (m - 1)) in *. destruct (content_is_Some idx) as [es Hes]; [lia|].
  rewrite (from_key_blocks k idx es) by (done || lia).
  destruct (init_prefetch_ok self idx Hof) as (n & -> & Hn); [lia|]. exists n. split; [done|]. cbn [mbind outcome_bind].
  eapply runs_and_then; [apply (sst_seek_idx_ok _ idx (Some k) es); [by destruct Hof|by destruct Hof as (_ & _ & ?)|lia| |done]| |done].
  { unfold ready. simpl. by rewrite Hs. }
  intros self' (Hk & Hc & Hr & bi & j & Hbi & Hat & Hd). cbn [sought] in Hd.
  assert (of_sst self') as Hof' by (by apply (of_sst_kept (SstableIterator.set_preload_end self n))).
  unfold SstableIterator.is_valid. rewrite Hbi. rewrite <-Hd.
  destruct (es !! j) as [e|] eqn:Ej.
  - rewrite (proj1 (block_at_entry _ _ _ _ Hat Ej)). cbn [mbind outcome_bind negb]. apply runs_ok. split; [done|]. split; [done|].
    rewrite Hbi, Hc. split; [done|]. split; [lia|]. by exists es, j, e.
  - apply lookup_ge_None in Ej. rewrite (block_at_end _ _ _ Hat Ej). cbn [mbind outcome_bind negb]. rewrite drop_ge, app_nil_l by done.
    rewrite Nat.add_1_r. eapply runs_weaken; [apply (seek_first self' (S idx) Hof'); [lia|done]| |].
    + intros self'' [Hk' Hat']. split; [by eapply kept_trans|done].
    + intros self'' Hk'. by eapply kept_trans.
Qed.

(** *** The contract, without prefetching *)
Definition quiet self : Prop :=
  SstableIterator.preload_stream self = None ∧ SstableIterator.preload_end_block_idx self = 0 ∧
  must_iterated_end_user_key (SstableIterator.options self) = None.

Lemma quiet_kept self self' : quiet self → kept self self' → quiet self'.
Proof. intros (H1 & H2 & H3) (_ & J1 & J2 & _ & _ & J3). split_and!; [by apply J3|congruence|congruence]. Qed.

Lemma quiet_set_end self : quiet self → quiet (SstableIterator.set_preload_end self 0).
Proof. by intros (H1 & H2 & H3). Qed.

Definition sst_owns (all : list kv) self : Prop := of_sst self ∧ quiet self ∧ all = all_entries.

Definition sst_stands (all rest : list kv) self : Prop := at_rest rest self ∧ quiet self ∧ all = all_entries.

Lemma strict_sorted_kv (l : list kv) : StronglySorted (λ x y : kv, FullKey.cmp x.1 y.1 = Lt) l → sorted DirectionEnum.Forward l.
Proof.
  induction 1 as [|x l Hs IH Hf]; constructor; [done|]. eapply Forall_impl; [exact Hf|]. intros y H. unfold kv_le. simpl. by rewrite H.
Qed.

Lemma at_rest_suffix rest self : at_rest rest self → rest `suffix_of` all_entries.
Proof.
  intros [_ H]. destruct (SstableIterator.block_iter self) as [bi|]; [|subst; apply suffix_nil].
  destruct H as (_ & Hcur & es & n & e & Hes & _ & _ & ->).
  rewrite (blocks_between_split first (SstableIterator.cur_idx self) (S last)), (blocks_between_cons (SstableIterator.cur_idx self) (S last) es) by (done || lia).
  exists (blocks_between first (SstableIterator.cur_idx self) ++ take n es). by rewrite <-app_assoc, (assoc_L (++) (take n es)), take_drop.
Qed.

(** An iterator over an SST that does not prefetch is lawful. *)
Definition sst_spec : IteratorSpec (H := SstableIterator.sst_iter get prefetch_blocks fuel) sst_it faults (λ _, True).
Proof.
  refine (Build_IteratorSpec _ (SstableIterator.sst_iter get prefetch_blocks fuel) _ _ sst_owns sst_stands _ _ _ _ _ _ _ _ _);
    cbn [HummockIterator.direction HummockIterator.next HummockIterator.key HummockIterator.value
         HummockIterator.is_valid HummockIterator.rewind HummockIterator.seek SstableIterator.sst_iter].
  - intros all self (_ & _ & ->). apply strict_sorted_kv, between_sorted.
  - intros all rest self ([Hof _] & Hq & ->). done.
  - intros all rest self (Hat & _ & ->). by eapply at_rest_suffix.
  - intros all rest self (Hat & _ & _). by apply sst_valid.
  - intros all e rest self (Hat & _ & _). by eapply sst_entry.
  - intros all e rest self (Hat & _ & _). by eapply sst_entry.
  - intros all e rest self (Hat & Hq & ->). eapply runs_weaken; [by eapply sst_next| |done].
    intros self' [Hk Hat']. split; [done|]. split; [by apply (quiet_kept self)|done].
  - intros all self (Hof & Hq & ->). destruct (sst_rewind self) as (n & Hn & Hr); [by destruct Hq|].
    rewrite Hn in Hr by by destruct Hq as (_ & _ & ?). eapply runs_weaken; [exact Hr| |].
    + intros self' [Hk Hat]. split; [done|]. split; [eapply quiet_kept; [by apply quiet_set_end|done]|done].
    + intros self' Hk. split; [exact (of_sst_kept (SstableIterator.set_preload_end self 0) self' Hof Hk)|]. split; [eapply quiet_kept; [by apply quiet_set_end|done]|done].
  - intros all k self _ (Hof & Hq & ->). destruct (sst_seek self k) as (n & Hn & Hr); [by destruct Hq|].
    rewrite Hn in Hr by by destruct Hq as (_ & _ & ?). eapply runs_weaken; [exact Hr| |].
    + intros self' [Hk Hat]. split; [done|]. split; [eapply quiet_kept; [by apply quiet_set_end|done]|done].
    + intros self' Hk. split; [exact (of_sst_kept (SstableIterator.set_preload_end self 0) self' Hof Hk)|]. split; [eapply quiet_kept; [by apply quiet_set_end|done]|done].
Defined.

(** *** Prefetching

    A scan from a new iterator reads the same entries however blocks are prefetched. *)
Lemma sst_collect rest self n :
  at_rest rest self → length rest < n →
  yields faults (collect (it := SstableIterator.sst_iter get prefetch_blocks fuel) n self) rest.
Proof.
  apply (collect_ok (it := SstableIterator.sst_iter get prefetch_blocks fuel) faults at_rest).
  - intros r i. apply sst_valid.
  - intros e r i. apply sst_entry.
  - intros e r i Hi. eapply runs_weaken; [by eapply sst_next|by intros j [_ Hj]|done].
Qed.

Lemma sst_scan self n :
  fresh self → length all_entries < n →
  yields faults (collect_from (it := SstableIterator.sst_iter get prefetch_blocks fuel) n (SstableIterator.rewind get prefetch_blocks fuel self)) all_entries ∧
  ∀ k, yields faults (collect_from (it := SstableIterator.sst_iter get prefetch_blocks fuel) n (SstableIterator.seek get prefetch_blocks fuel self k))
         (from_key DirectionEnum.Forward k all_entries).
Proof.
  intros Hf Hn. split.
  - destruct (sst_rewind self Hf) as (m & _ & Hr). eapply collect_from_ok; [exact Hr|]. intros i [_ Hi]. by apply sst_collect.
  - intros k. destruct (sst_seek self k Hf) as (m & _ & Hr). eapply collect_from_ok; [exact Hr|]. intros i [_ Hi].
    apply sst_collect; [done|]. unfold from_key. pose proof (length_filter (λ e, dir_cmp DirectionEnum.Forward e.1 k ≠ Lt) all_entries). lia.
Qed.
End forward.

(** A stream that ran out before block [idx] is never left: the loop neither moves nor fails. *)
Lemma skip_blocks_stuck n s idx :
  PrefetchBlockStream.blocks s = [] → PrefetchBlockStream.block_index s < idx → SstableIterator.skip_blocks n s idx = Panic.
Proof.
  intros Hb Hi. induction n as [|n IH]; [done|]. cbn [SstableIterator.skip_blocks]. unfold PrefetchBlockStream.next_block_index, PrefetchBlockStream.next_block.
  by rewrite (proj2 (Nat.ltb_lt _ _)), Hb.
Qed.

Lemma seek_idx_stuck n (self : SstableIterator.t Store) s idx key :
  SstableIterator.preload_stream self = Some s → PrefetchBlockStream.blocks s = [] → PrefetchBlockStream.block_index s < idx →
  idx ≤ SstableIterator.block_end_idx_inclusive self →
  SstableIterator.seek_idx get prefetch_blocks n self idx key = Panic.
Proof.
  intros Hs Hb Hi Hend. unfold SstableIterator.seek_idx. rewrite (proj2 (Nat.ltb_ge _ _)), !Hs by done.
  unfold PrefetchBlockStream.next_block_index. rewrite (proj2 (Nat.leb_le _ _)) by lia.
  destruct n as [|n]; [done|]. cbn [SstableIterator.preload_loop]. rewrite Hs.
  by rewrite skip_blocks_stuck.
Qed.

(** ** Backwards *)
Section backward.
Abbreviation back_it := (BackwardSstableIterator.t Store).
Implicit Type self : back_it.
Hypothesis has_blocks : metas0 ≠ [].
Abbreviation count := (length metas0).
Abbreviation all_back := (reverse (blocks_between 0 count)).

(** The block iterator at entry [n - 1] of a block, before its start when [n] is zero. *)
Definition back_at (bi : BlockIterator.t) es (n : nat) : Prop :=
  ∃ table ents b, holds table ents b ∧ StronglySorted key_lt (e_key <$> ents) ∧ pair_of <$> ents = raw <$> es ∧
    BlockIterSpec.stands_before ents b bi n.

Lemma back_at_S bi es n e : back_at bi es (S n) → es !! n = Some e → block_at bi es n.
Proof.
  intros (table & ents & b & Hh & Hs & Heq & Hst) Hn. exists table, ents, b. split_and!; [done..|].
  destruct (raw_lookup _ _ _ _ Heq Hn) as (ent & He & _). unfold stands_before in Hst. cbn [prev_of] in Hst.
  unfold BlockIterSpec.stands. rewrite He in *. by rewrite Nat.sub_succ, Nat.sub_0_r in Hst.
Qed.

Lemma back_at_0 bi es : back_at bi es 0 → BlockIterator.is_valid bi = Ret false.
Proof. intros (table & ents & b & Hh & _ & _ & (kt & vt & ->)). by eapply exhausted_invalid. Qed.

Lemma block_at_prev bi es n e :
  block_at bi es n → es !! n = Some e →
  ∃ bi', BlockIterator.try_prev bi = Ret (bi', bool_decide (n ≠ 0)) ∧ (n ≠ 0 → block_at bi' es (n - 1)).
Proof.
  intros Hat Hn. pose proof (block_at_entry _ _ _ _ Hat Hn) as (Hv & _). destruct Hat as (table & ents & b & Hh & Hs & Heq & Hst).
  destruct (raw_lookup _ _ _ _ Heq Hn) as (ent & He & _). unfold BlockIterSpec.stands in Hst. rewrite He in Hst. subst bi.
  unfold BlockIterator.try_prev. rewrite Hv. cbn [mbind outcome_bind rassert]. destruct n as [|n].
  - unfold BlockIterator.try_prev_inner. cbn [BlockIterator.offset cursor]. change (Z.of_nat (off ents 0) =? 0)%Z with true.
    eexists. split; [done|]. done.
  - destruct (lookup_lt_is_Some_2 ents n) as [ent' He']; [apply lookup_lt_Some in He; lia|].
    rewrite (try_prev_ok table ents b Hh n ent ent' He He'). eexists. split; [done|]. intros _. rewrite Nat.sub_succ, Nat.sub_0_r.
    exists table, ents, b. split_and!; [done..|]. unfold BlockIterSpec.stands. by rewrite He'.
Qed.

(** [seek_le] in a block finds the entries up to the key. *)
Lemma block_seek_le b es k :
  block_of b es →
  ∃ bi n, BlockIterator.seek_le (BlockIterator.new b) k = Ret bi ∧ back_at bi es n ∧ n ≤ length es ∧
    take n es = filter (λ e, FullKey.cmp e.1 k ≠ Gt) es.
Proof.
  intros (table & ents & Hh & Hs & Heq). destruct (seek_le_ok table ents b Hh Hs (BlockIterator.new b) k eq_refl) as (bi & n & Hr & Hst & Hle & Hlt & Hge).
  exists bi, n. split; [done|]. split; [by exists table, ents, b|]. rewrite (raw_length _ _ Heq) in Hle. split; [done|].
  assert (∀ i e, es !! i = Some e → (FullKey.cmp e.1 k ≠ Gt ↔ i < n)) as Hsplit.
  { intros i e Hi. destruct (raw_lookup _ _ _ _ Heq Hi) as (ent & He & <- & _). split.
    - intros Hc. destruct (decide (i < n)) as [|Hni]; [done|]. rewrite Forall_lookup in Hge. exfalso.
      apply (Hge (i - n) ent); [|done]. rewrite lookup_drop. by replace (n + (i - n)) with i by lia.
    - intros Hi'. rewrite Forall_lookup in Hlt. apply (Hlt i ent). by rewrite lookup_take_lt. }
  rewrite <-(take_drop n es) at 2. rewrite filter_app. rewrite filter_all, filter_none, app_nil_r; [done| |].
  - intros e (i & Hi)%list_elem_of_lookup. rewrite lookup_drop in Hi. rewrite (Hsplit _ _ Hi). lia.
  - intros e (i & Hi)%list_elem_of_lookup. pose proof (lookup_lt_Some _ _ _ Hi) as Hlen. rewrite length_take in Hlen.
    rewrite lookup_take_lt in Hi by lia. rewrite (Hsplit _ _ Hi). lia.
Qed.

Lemma block_last b es e :
  block_of b es → es !! 0 = Some e →
  ∃ bi, BlockIterator.seek_to_last (BlockIterator.new b) = Ret bi ∧ back_at bi es (length es).
Proof.
  intros (table & ents & Hh & Hs & Heq) Hn. assert (ents ≠ []) as Hne by (intros ->; apply raw_length in Heq; by destruct es).
  destruct (last ents) as [ent|] eqn:El; [|by apply last_None in El].
  eexists. split; [by apply (seek_to_last_ok table ents b Hh)|]. exists table, ents, b. split_and!; [done..|].
  rewrite <-(raw_length _ _ Heq). unfold stands_before. rewrite last_lookup in El. destruct (length ents) as [|m] eqn:Em; [by apply nil_length_inv in Em|].
  cbn [prev_of Nat.pred] in *. by rewrite El.
Qed.

Definition of_back self : Prop := BackwardSstableIterator.sst self = sst0.

(** With [rest] ahead, going down. *)
Definition at_back (rest : list kv) self : Prop :=
  of_back self ∧
  match BackwardSstableIterator.block_iter self with
  | None => rest = []
  | Some bi =>
      ∃ es n e, content !! BackwardSstableIterator.cur_idx self = Some es ∧ block_at bi es n ∧ es !! n = Some e ∧
        rest = reverse (blocks_between 0 (BackwardSstableIterator.cur_idx self) ++ take (S n) es)
  end.

Definition sought_le (key : option FullKey.t) (es : list kv) : list kv :=
  match key with None => es | Some k => filter (λ e, FullKey.cmp e.1 k ≠ Gt) es end.

Lemma open_back b es key :
  block_of b es → (∃ e, es !! 0 = Some e) →
  ∃ bi n, match key with
          | Some k => BlockIterator.seek_le (BlockIterator.new b) k
          | None => BlockIterator.seek_to_last (BlockIterator.new b)
          end = Ret bi ∧ back_at bi es n ∧ n ≤ length es ∧ take n es = sought_le key es.
Proof.
  intros Hb [e He]. destruct key as [k|]; [by apply block_seek_le|]. destruct (block_last b es e Hb He) as (bi & -> & Hat).
  exists bi, (length es). split; [done|]. split; [done|]. split; [done|]. by apply take_ge.
Qed.

Lemma back_seek_idx_ok self idx key es :
  of_back self → content !! idx = Some es →
  runs faults (BackwardSstableIterator.seek_idx get self (Z.of_nat idx) key)
    (λ self', of_back self' ∧ BackwardSstableIterator.cur_idx self' = idx ∧
       ∃ bi n, BackwardSstableIterator.block_iter self' = Some bi ∧ back_at bi es n ∧ n ≤ length es ∧ take n es = sought_le key es)
    of_back.
Proof.
  intros Hof Hes. pose proof (lookup_lt_Some _ _ _ Hes) as Hlt. rewrite <-(Forall2_length _ _ _ metas_ok) in Hlt.
  unfold BackwardSstableIterator.seek_idx. unfold of_back in Hof. rewrite Hof. unfold Sstable.block_count.
  rewrite (proj2 (Z.leb_gt _ _)), (proj2 (Z.ltb_ge _ _)) by lia. cbn [orb]. rewrite Nat2Z.id.
  pose proof (get_ok (BackwardSstableIterator.sstable_store self) idx es Hes) as Hg.
  destruct (get (BackwardSstableIterator.sstable_store self) sst0 idx) as [store [err|b]]; cbn [snd] in Hg.
  - split; [done|]. done.
  - destruct (open_back b es key Hg (content_nonempty _ _ Hes)) as (bi & n & -> & Hat & Hn & Ht). cbn [mbind outcome_bind].
    apply runs_ok. split; [done|]. split; [done|]. by exists bi, n.
Qed.

(** Moving to the last entry of a block; before the first block there is none. *)
Lemma back_seek_last self (idx : Z) :
  of_back self → (-1 <= idx < Z.of_nat count)%Z →
  runs faults (BackwardSstableIterator.seek_idx get self idx None)
    (at_back (reverse (blocks_between 0 (Z.to_nat (idx + 1))))) of_back.
Proof.
  intros Hof Hidx. destruct (Z.eq_dec idx (-1)%Z) as [->|Hne].
  - unfold BackwardSstableIterator.seek_idx. rewrite orb_true_r. apply runs_ok. split; [done|]. simpl. by rewrite blocks_between_empty.
  - assert (∃ i, idx = Z.of_nat i) as [i ->] by (exists (Z.to_nat idx); lia). destruct (content_is_Some i) as [es Hes]; [lia|].
    eapply runs_weaken; [by apply (back_seek_idx_ok self i None es)| |done].
    intros self' (Hof' & Hc & bi & n & Hbi & Hat & Hn & Ht). cbn [sought_le] in Ht. split; [done|]. rewrite Hbi, Hc.
    destruct (content_nonempty _ _ Hes) as [e0 He0]. destruct n as [|n]; [rewrite take_0 in Ht; by subst|].
    destruct (lookup_lt_is_Some_2 es n ltac:(lia)) as [e He]. exists es, n, e. split; [done|]. split; [by eapply back_at_S|].
    split; [done|]. rewrite Ht. f_equal. replace (Z.to_nat (Z.of_nat i + 1)) with (S i) by lia.
    rewrite (blocks_between_split 0 i (S i)), (blocks_between_cons i (S i) es), (blocks_between_empty (S i)), app_nil_r by (done || lia). done.
Qed.

Lemma back_valid rest self : at_back rest self → BackwardSstableIterator.is_valid self = Ret (match rest with [] => false | _ => true end).
Proof.
  intros [_ H]. unfold BackwardSstableIterator.is_valid. destruct (BackwardSstableIterator.block_iter self) as [bi|]; [|by subst].
  destruct H as (es & n & e & _ & Hat & He & ->). rewrite (proj1 (block_at_entry _ _ _ _ Hat He)).
  rewrite (take_S_r _ _ _ He), (assoc_L (++)), reverse_snoc. done.
Qed.

Lemma back_entry e rest self :
  at_back (e :: rest) self → BackwardSstableIterator.key self = Ret e.1 ∧ BackwardSstableIterator.value self = Ret e.2.
Proof.
  intros [_ H]. unfold BackwardSstableIterator.key, BackwardSstableIterator.value.
  destruct (BackwardSstableIterator.block_iter self) as [bi|]; [|done].
  destruct H as (es & n & e' & _ & Hat & He & Hr). rewrite (take_S_r _ _ _ He), (assoc_L (++)), reverse_snoc in Hr. injection Hr as -> _.
  destruct (block_at_entry _ _ _ _ Hat He) as (_ & Hk & Hv). cbn [unwrap mbind outcome_bind]. rewrite Hk, Hv.
  cbn [mbind outcome_bind]. by rewrite from_slice_encode.
Qed.

Lemma back_next e rest self :
  at_back (e :: rest) self → runs faults (BackwardSstableIterator.next get self) (at_back rest) of_back.
Proof.
  intros [Hof H]. unfold BackwardSstableIterator.next. destruct (BackwardSstableIterator.block_iter self) as [bi|] eqn:Ebi; [|done].
  destruct H as (es & n & e' & Hes & Hat & He & Hrest). cbn [unwrap mbind outcome_bind].
  destruct (block_at_prev _ _ _ _ Hat He) as (bi' & -> & Hat'). cbn [mbind outcome_bind].
  rewrite (take_S_r _ _ _ He), (assoc_L (++)), reverse_snoc in Hrest. injection Hrest as _ ->. case_bool_decide as Hn.
  - destruct n as [|n]; [done|]. destruct (lookup_lt_is_Some_2 es n) as [e'' He'']; [apply lookup_lt_Some in He; lia|].
    apply runs_ok. split; [done|]. simpl. exists es, n, e''. split; [done|]. split; [|done].
    specialize (Hat' Hn). by rewrite Nat.sub_succ, Nat.sub_0_r in Hat'.
  - assert (n = 0) as -> by lia. rewrite take_0, app_nil_r. pose proof (lookup_lt_Some _ _ _ Hes) as Hlt.
    rewrite <-(Forall2_length _ _ _ metas_ok) in Hlt.
    pose proof (back_seek_last (BackwardSstableIterator.mk (Some bi') (BackwardSstableIterator.cur_idx self) (BackwardSstableIterator.sst self)
      (BackwardSstableIterator.sstable_store self)) (Z.of_nat (BackwardSstableIterator.cur_idx self) - 1) Hof ltac:(lia)) as Hs.
    replace (Z.to_nat (Z.of_nat (BackwardSstableIterator.cur_idx self) - 1 + 1)) with (BackwardSstableIterator.cur_idx self) in Hs by lia.
    exact Hs.
Qed.

Lemma from_key_reverse k (l : list kv) :
  from_key DirectionEnum.Backward k (reverse l) = reverse (filter (λ e, FullKey.cmp e.1 k ≠ Gt) l).
Proof.
  unfold from_key. simpl. induction l as [|e l IH]; [done|]. rewrite reverse_cons, filter_app, IH, !filter_cons.
  assert (rev_cmp FullKey.cmp e.1 k ≠ Lt ↔ FullKey.cmp e.1 k ≠ Gt) as Hiff.
  { unfold rev_cmp. rewrite (cmp_antisym FullKey.cmp e.1 k). destruct (FullKey.cmp e.1 k); simpl; naive_solver. }
  destruct (decide (FullKey.cmp e.1 k ≠ Gt)) as [H|H].
  - rewrite decide_True by by apply Hiff. by rewrite reverse_cons.
  - rewrite decide_False by (by rewrite Hiff). by rewrite app_nil_r.
Qed.

Lemma back_blocks k idx es :
  idx < count → content !! idx = Some es →
  (∀ i es e, 0 ≤ i < idx → content !! i = Some es → e ∈ es → FullKey.cmp e.1 k = Lt) →
  (∀ i es e, idx < i < count → content !! i = Some es → e ∈ es → FullKey.cmp e.1 k = Gt) →
  from_key DirectionEnum.Backward k all_back = reverse (blocks_between 0 idx ++ filter (λ e, FullKey.cmp e.1 k ≠ Gt) es).
Proof.
  intros Hidx Hes Hbef Haft. rewrite from_key_reverse. f_equal.
  rewrite (blocks_between_split 0 idx count), (blocks_between_cons idx count es), !filter_app by (done || lia).
  rewrite (filter_all _ (blocks_between 0 idx)), (filter_none _ (blocks_between (S idx) count)), app_nil_r; [done| |].
  - intros e (i & es' & Hi & Hes' & He)%between_elem H. apply H. apply (Haft i es' e); [lia|done..].
  - intros e (i & es' & Hi & Hes' & He)%between_elem. rewrite (Hbef i es' e); [done|lia|done..].
Qed.

Lemma back_seek self k :
  of_back self →
  runs faults (BackwardSstableIterator.seek get self k) (at_back (from_key DirectionEnum.Backward k all_back)) of_back.
Proof.
  intros Hof. unfold BackwardSstableIterator.seek. unfold of_back in Hof. rewrite Hof.
  assert (0 < count) as Hpos by (destruct metas0; [done|simpl; lia]).
  destruct (block_search k 0 count) as (m & Hm & Hlt & Hbef & Haft); [done|done|].
  rewrite drop_0, Nat.sub_0_r, firstn_all in Hm. rewrite Hm. cbn [mbind outcome_bind]. cbn [Nat.add] in *.
  set (idx := m - 1) in *. destruct (content_is_Some idx) as [es Hes]; [lia|]. rewrite (back_blocks k idx es) by done.
  eapply runs_and_then; [by apply (back_seek_idx_ok self idx (Some k) es)| |done].
  intros self' (Hof' & Hc & bi & n & Hbi & Hat & Hn & Ht). cbn [sought_le] in Ht. rewrite <-Ht.
  unfold BackwardSstableIterator.is_valid. rewrite Hbi. destruct n as [|n].
  - rewrite (back_at_0 _ _ Hat). cbn [mbind outcome_bind negb]. rewrite take_0, app_nil_r.
    pose proof (back_seek_last self' (Z.of_nat idx - 1) Hof' ltac:(lia)) as Hs.
    by replace (Z.to_nat (Z.of_nat idx - 1 + 1)) with idx in Hs by lia.
  - destruct (lookup_lt_is_Some_2 es n ltac:(lia)) as [e He]. pose proof (back_at_S _ _ _ _ Hat He) as Hat'.
    rewrite (proj1 (block_at_entry _ _ _ _ Hat' He)). cbn [mbind outcome_bind negb]. apply runs_ok. split; [done|].
    rewrite Hbi, Hc. by exists es, n, e.
Qed.

Lemma back_rewind self : of_back self → runs faults (BackwardSstableIterator.rewind get self) (at_back all_back) of_back.
Proof.
  intros Hof. unfold BackwardSstableIterator.rewind. pose proof Hof as Hof'. unfold of_back in Hof'. rewrite Hof'. unfold Sstable.block_count.
  pose proof (back_seek_last self (Z.of_nat count - 1) Hof ltac:(lia)) as Hs.
  by replace (Z.to_nat (Z.of_nat count - 1 + 1)) with count in Hs by lia.
Qed.

Definition back_owns (all : list kv) self : Prop := of_back self ∧ all = all_back.
Definition back_stands (all rest : list kv) self : Prop := at_back rest self ∧ all = all_back.

Lemma sorted_reverse (l : list kv) :
  StronglySorted (λ x y : kv, FullKey.cmp x.1 y.1 = Lt) l → sorted DirectionEnum.Backward (reverse l).
Proof.
  induction 1 as [|x l Hs IH Hf]; [constructor|]. rewrite reverse_cons. apply StronglySorted_app. split; [|split; [done|repeat constructor]].
  intros a b Ha Hb. apply list_elem_of_singleton in Hb as ->. rewrite elem_of_reverse in Ha. rewrite Forall_forall in Hf.
  unfold kv_le. simpl. unfold rev_cmp. by rewrite (Hf a Ha).
Qed.

Lemma at_back_suffix rest self : at_back rest self → rest `suffix_of` all_back.
Proof.
  intros [_ H]. destruct (BackwardSstableIterator.block_iter self) as [bi|]; [|subst; apply suffix_nil].
  destruct H as (es & n & e & Hes & _ & _ & ->). pose proof (lookup_lt_Some _ _ _ Hes) as Hlt.
  rewrite <-(Forall2_length _ _ _ metas_ok) in Hlt.
  rewrite (blocks_between_split 0 (BackwardSstableIterator.cur_idx self) count), (blocks_between_cons (BackwardSstableIterator.cur_idx self) count es) by (done || lia).
  rewrite <-(take_drop (S n) es) at 2. exists (reverse (drop (S n) es ++ blocks_between (S (BackwardSstableIterator.cur_idx self)) count)).
  rewrite <-reverse_app. by rewrite <-!app_assoc.
Qed.

(** A backward iterator over an SST is lawful. *)
Definition back_sst_spec : IteratorSpec (H := BackwardSstableIterator.sst_iter get) back_it faults (λ _, True).
Proof.
  refine (Build_IteratorSpec _ (BackwardSstableIterator.sst_iter get) _ _ back_owns back_stands _ _ _ _ _ _ _ _ _);
    cbn [HummockIterator.direction HummockIterator.next HummockIterator.key HummockIterator.value
         HummockIterator.is_valid HummockIterator.rewind HummockIterator.seek BackwardSstableIterator.sst_iter].
  - intros all self (_ & ->). apply sorted_reverse, between_sorted.
  - intros all rest self ([Hof _] & ->). done.
  - intros all rest self (Hat & ->). by eapply at_back_suffix.
  - intros all rest self (Hat & _). by apply back_valid.
  - intros all e rest self (Hat & _). by eapply back_entry.
  - intros all e rest self (Hat & _). by eapply back_entry.
  - intros all e rest self (Hat & ->). eapply runs_weaken; [by eapply back_next|by intros self' Hat'|done].
  - intros all self (Hof & ->). eapply runs_weaken; [by apply back_rewind|by intros self' Hat|by intros self' Hk].
  - intros all k self _ (Hof & ->). eapply runs_weaken; [by apply back_seek|by intros self' Hat|by intros self' Hk].
Defined.

Lemma back_scan self n :
  of_back self → length all_back < n →
  yields faults (collect_from (it := BackwardSstableIterator.sst_iter get) n (BackwardSstableIterator.rewind get self)) all_back ∧
  ∀ k, yields faults (collect_from (it := BackwardSstableIterator.sst_iter get) n (BackwardSstableIterator.seek get self k))
         (from_key DirectionEnum.Backward k all_back).
Proof.
  intros Hof Hn. split.
  - exact (spec_rewind_collect (it := BackwardSstableIterator.sst_iter get) faults (λ _, True) (spec := back_sst_spec) all_back self n (conj Hof eq_refl) Hn).
  - intros k.
    exact (spec_seek_collect (it := BackwardSstableIterator.sst_iter get) faults (λ _, True) (spec := back_sst_spec) all_back self k n Logic.I (conj Hof eq_refl) Hn).
Qed.
End backward.

(** ** The blocks of the tables asked for *)
Section window.
Abbreviation table_of e := (UserKey.table_id (FullKey.user_key (fst e))).

(** A block holds entries of one table. *)
Hypothesis one_table : Forall (λ es, ∀ x y, x ∈ es → y ∈ es → table_of x = table_of y) content.

Lemma table_mono x y : FullKey.cmp x.1 y.1 ≠ Gt → (table_of x <= table_of y)%Z.
Proof.
  unfold FullKey.cmp, UserKey.cmp. destruct (Z.compare_spec (table_of x) (table_of y)); simpl; intros H'; [lia|lia|done].
Qed.

(** The table of block [i]. *)
Definition block_table (i : nat) (t : Z) : Prop := ∃ es, content !! i = Some es ∧ Forall (λ e, table_of e = t) es.

Lemma block_table_ok i : i < length metas0 → ∃ meta t, metas0 !! i = Some meta ∧ BlockMeta.table_id meta = Ret t ∧ block_table i t.
Proof.
  intros Hi. destruct (lookup_lt_is_Some_2 metas0 i Hi) as [meta Hm]. destruct (content_is_Some i Hi) as [es Hes].
  destruct (Forall2_lookup_lr _ _ _ _ _ _ metas_ok Hm Hes) as (e & He & Hd). exists meta, (table_of e). split; [done|].
  unfold BlockMeta.table_id. rewrite Hd. split; [done|]. exists es. split; [done|]. apply Forall_forall. intros x Hx.
  rewrite Forall_lookup in one_table. apply (one_table i es Hes); [done|]. destruct es; [done|]. injection He as ->. by left.
Qed.

Lemma block_table_mono i j t t' : i ≤ j → block_table i t → block_table j t' → (t <= t')%Z.
Proof.
  intros Hij (es & Hes & Ht) (es' & Hes' & Ht'). destruct (content_nonempty _ _ Hes) as [x Hx]. destruct (content_nonempty _ _ Hes') as [y Hy].
  apply list_elem_of_lookup_2 in Hy as Hy'. rewrite Forall_lookup in Ht, Ht'. rewrite <-(Ht 0 x Hx), <-(Ht' 0 y Hy).
  apply table_mono. by apply (block_first_least i j es es').
Qed.

Lemma skip_start_ok lo : ∀ n i, i + n = length metas0 →
  ∃ r, SstableIterator.skip_start (drop i metas0) lo i = Ret r ∧ i ≤ r ≤ length metas0 ∧
    (∀ j t, i ≤ j < r → block_table j t → (t < lo)%Z) ∧ (∀ t, block_table r t → (lo <= t)%Z).
Proof.
  induction n as [|n IH]; intros i Hi.
  - rewrite drop_ge by lia. exists i. split; [done|]. split; [lia|]. split; [lia|]. intros t (es & Hes & _).
    apply lookup_lt_Some in Hes. rewrite <-(Forall2_length _ _ _ metas_ok) in Hes. lia.
  - destruct (block_table_ok i) as (meta & t & Hm & Ht & Hbt); [lia|]. rewrite (drop_S _ _ _ Hm). cbn [SstableIterator.skip_start].
    rewrite Ht. cbn [mbind outcome_bind]. destruct (Z.ltb_spec t lo) as [Hlt|Hge].
    + rewrite Nat.add_1_r. destruct (IH (S i)) as (r & -> & Hr & Hbef & Hat); [lia|]. exists r. split; [done|]. split; [lia|]. split; [|done].
      intros j t' Hj Ht'. destruct (decide (j = i)) as [->|]; [|apply (Hbef j); [lia|done]].
      pose proof (block_table_mono i i t' t ltac:(lia) Ht' Hbt). lia.
    + exists i. split; [done|]. split; [lia|]. split; [lia|]. intros t' Ht'. pose proof (block_table_mono i i t t' ltac:(lia) Hbt Ht'). lia.
Qed.

Lemma skip_end_ok hi start : ∀ idx, start ≤ idx < length metas0 →
  ∃ r, SstableIterator.skip_end metas0 hi start idx = Ret r ∧ start ≤ r ≤ idx ∧
    (∀ j t, r < j ≤ idx → block_table j t → (hi < t)%Z) ∧ (r = start ∨ ∀ t, block_table r t → (t <= hi)%Z).
Proof.
  induction idx as [|idx IH]; intros Hidx; cbn [SstableIterator.skip_end].
  - exists 0. split; [done|]. split; [lia|]. split; [lia|]. left. lia.
  - destruct (Nat.ltb_spec start (S idx)) as [Hlt|Hge].
    2: { exists (S idx). split; [done|]. split; [lia|]. split; [lia|]. left. lia. }
    destruct (block_table_ok (S idx)) as (meta & t & -> & Ht & Hbt); [lia|]. cbn [unwrap mbind outcome_bind]. rewrite Ht. cbn [mbind outcome_bind].
    destruct (Z.ltb_spec hi t) as [Hgt|Hle].
    + destruct IH as (r & -> & Hr & Haft & Hat); [lia|]. exists r. split; [done|]. split; [lia|]. split; [|done].
      intros j t' Hj Ht'. destruct (decide (j = S idx)) as [->|]; [|apply (Haft j); [lia|done]].
      pose proof (block_table_mono _ _ t t' (le_n (S idx)) Hbt Ht'). lia.
    + exists (S idx). split; [done|]. split; [lia|]. split; [lia|]. right. intros t' Ht'.
      pose proof (block_table_mono _ _ t' t (le_n (S idx)) Ht' Hbt). lia.
Qed.

(** The entries of the tables [lo] to [hi] fill the blocks [a] to [b]. *)
Lemma table_window lo hi a b :
  a ≤ b < length metas0 →
  (∀ i t, i < a → block_table i t → (t < lo)%Z) → (∀ i t, b < i < length metas0 → block_table i t → (hi < t)%Z) →
  (∀ i t, a ≤ i ≤ b → block_table i t → (lo <= t <= hi)%Z) →
  blocks_between a (S b) = filter (λ e, (lo <= table_of e <= hi)%Z) (concat content).
Proof.
  intros Hab Hbef Haft Hin. assert (concat content = blocks_between 0 (length metas0)) as ->.
  { unfold blocks_between. rewrite drop_0, Nat.sub_0_r, (Forall2_length _ _ _ metas_ok), firstn_all. done. }
  assert (∀ i e es, i < length metas0 → content !! i = Some es → e ∈ es → block_table i (table_of e)) as Hbt.
  { intros i e es Hi Hes He. destruct (block_table_ok i Hi) as (_ & t & _ & _ & es' & Hes' & Ht). exists es'. split; [done|].
    assert (es' = es) as -> by congruence. rewrite Forall_forall in Ht. rewrite (Ht e He). by apply Forall_forall. }
  rewrite (blocks_between_split 0 a (length metas0)), (blocks_between_split a (S b) (length metas0)), !filter_app by lia.
  rewrite (filter_none _ (blocks_between 0 a)), (filter_none _ (blocks_between (S b) (length metas0))), (filter_all _ (blocks_between a (S b))), app_nil_r; [done|..];
    intros e (i & es & Hi & Hes & He)%between_elem.
  - apply (Hin i); [lia|]. by apply (Hbt i e es); [lia|..].
  - pose proof (Haft i (table_of e) ltac:(lia) ltac:(by apply (Hbt i e es); [lia|..])). lia.
  - pose proof (Hbef i (table_of e) ltac:(lia) ltac:(by apply (Hbt i e es); [lia|..])). lia.
Qed.

Lemma has_table t : (∃ e, e ∈ concat content ∧ table_of e = t) → ∃ i, i < length metas0 ∧ block_table i t.
Proof.
  intros (e & (es & Hes & He)%list_elem_of_In%in_concat & <-). apply list_elem_of_In in He.
  apply list_elem_of_In, list_elem_of_lookup in Hes as (i & Hi). assert (i < length metas0) as Hlt.
  { rewrite (Forall2_length _ _ _ metas_ok). by eapply lookup_lt_Some. }
  exists i. split; [done|]. exists es. split; [done|]. rewrite Forall_lookup in one_table. apply Forall_forall.
  intros x Hx. by apply (one_table i es Hi).
Qed.

Lemma new_ok (store : Store) opts info lo hi :
  head (SstableInfo.table_ids info) = Some lo → last (SstableInfo.table_ids info) = Some hi → (lo <= hi)%Z →
  (∃ e, e ∈ concat content ∧ table_of e = lo) → (∃ e, e ∈ concat content ∧ table_of e = hi) →
  ∃ first last, first ≤ last ∧ last < length metas0 ∧
    SstableIterator.new sst0 store opts info = Ret (SstableIterator.mk None 0 None sst0 0 0 store opts first last) ∧
    blocks_between first (S last) = filter (λ e, (lo <= table_of e <= hi)%Z) (concat content).
Proof.
  intros Hlo Hhi Hle (i & Hi & Hbi)%has_table (j & Hj & Hbj)%has_table.
  destruct (skip_start_ok lo (length metas0) 0) as (first & Hs & Hf & Hbef & Hat); [lia|]. rewrite drop_0 in Hs.
  assert (first ≤ i) as Hfi.
  { destruct (decide (first ≤ i)) as [|Hn]; [done|]. pose proof (Hbef i lo ltac:(lia) Hbi). lia. }
  destruct (skip_end_ok hi first (length metas0 - 1)) as (last & He & Hl & Haft & Hor); [lia|].
  assert (∀ t, block_table last t → (t <= hi)%Z) as Hlast.
  { destruct Hor as [->|H]; [|done]. intros t Ht. pose proof (block_table_mono first i t lo Hfi Ht Hbi). lia. }
  exists first, last. split; [lia|]. split; [lia|]. split.
  - unfold SstableIterator.new. rewrite Hlo, Hhi. cbn [unwrap mbind outcome_bind]. rewrite (proj2 (Z.leb_le _ _)) by done.
    rewrite (proj2 (Nat.ltb_lt 0 _)) by lia. cbn [rassert mbind outcome_bind].
    destruct (block_table_ok 0) as (m0 & t0 & Hm0 & Ht0 & Hb0); [lia|].
    destruct (block_table_ok (length metas0 - 1)) as (m1 & t1 & Hm1 & Ht1 & Hb1); [lia|].
    rewrite head_lookup, Hm0. cbn [unwrap mbind outcome_bind]. rewrite Ht0. cbn [mbind outcome_bind].
    rewrite (proj2 (Z.leb_le t0 lo)) by (apply (block_table_mono 0 i); [lia|done..]). cbn [rassert mbind outcome_bind].
    rewrite last_lookup, <-Nat.sub_1_r, Hm1. cbn [unwrap mbind outcome_bind]. rewrite Ht1. cbn [mbind outcome_bind].
    rewrite (proj2 (Z.leb_le hi t1)) by (apply (block_table_mono j (length metas0 - 1)); [lia|done..]). cbn [rassert mbind outcome_bind].
    rewrite Hs. cbn [mbind outcome_bind]. rewrite (proj2 (Nat.ltb_lt _ _)) by lia. cbn [rassert mbind outcome_bind].
    rewrite He. cbn [mbind outcome_bind]. by rewrite (proj2 (Nat.leb_le _ _)) by lia.
  - apply table_window; [lia|intros; apply (Hbef i0); [lia|done]|intros; apply (Haft i0); [lia|done]|].
    intros m t Hm Ht. split.
    + destruct (block_table_ok first) as (_ & t' & _ & _ & Ht'); [lia|]. pose proof (Hat t' Ht').
      pose proof (block_table_mono first m t' t ltac:(lia) Ht' Ht). lia.
    + destruct (block_table_ok last) as (_ & t' & _ & _ & Ht'); [lia|]. pose proof (Hlast t' Ht').
      pose proof (block_table_mono m last t t' ltac:(lia) Ht Ht'). lia.
Qed.
End window.
End sst.

(** ** The theorems *)

(** The entries of the blocks of an SST: sorted, one table per block, named by the metadata. *)
Record describes (sst : Sstable.t) (content : list (list kv)) : Prop := {
  d_metas : Forall2 (λ meta es, ∃ e, head es = Some e ∧ FullKey.decode (BlockMeta.smallest_key meta) = Ret e.1)
              (SstableMeta.block_metas (Sstable.meta sst)) content;
  d_sorted : StronglySorted (λ x y, FullKey.cmp x.1 y.1 = Lt) (concat content);
  d_tables : Forall (λ es, ∀ x y, x ∈ es → y ∈ es →
               UserKey.table_id (FullKey.user_key x.1) = UserKey.table_id (FullKey.user_key y.1)) content
}.

(** A store that fetches the blocks of an SST, when it does not fail; a prefetched stream starts
    with the block asked for. *)
Record fetches {Store} (get : Store → Sstable.t → nat → Store * HummockResult Block.t)
    (prefetch_blocks : Store → Sstable.t → nat → nat → Store * HummockResult PrefetchBlockStream.t)
    (faults : Prop) (sst : Sstable.t) (content : list (list kv)) : Prop := {
  f_get : ∀ store idx es, content !! idx = Some es →
    match (get store sst idx).2 with inr b => block_of b es | inl _ => faults end;
  f_prefetch : ∀ store idx end_,
    match (prefetch_blocks store sst idx end_).2 with
    | inr s => PrefetchBlockStream.block_index s = idx ∧ PrefetchBlockStream.blocks s ≠ [] ∧ serves content s
    | inl _ => True
    end
}.


(** *** Example: three blocks of table 1 *)
Definition example_block (es : list kv) : option Block.t :=
  match build_and_decode (xxh64 := example_checksum) (compress := example_compress) (decompress := example_decompress)
          2 CompressionAlgorithm.None_ (raw <$> es) with
  | Ret (inr b) => Some b
  | _ => None
  end.

Definition example_entry (key : byte) (v : HummockValue.t) : kv := (FullKey.new 1 [Byte.x00; Byte.x00; key] (Epoch.test_epoch 1), v).

Definition example_content : list (list kv) :=
  [[example_entry Byte.x61 (HummockValue.Put [Byte.x31]); example_entry Byte.x62 HummockValue.Delete];
   [example_entry Byte.x63 (HummockValue.Put [])]; [example_entry Byte.x64 (HummockValue.Put [Byte.x32])]].

Definition example_sst : Sstable.t :=
  Sstable.mk 7 (SstableMeta.mk
    ((λ es, BlockMeta.mk (match head es with Some e => FullKey.encode e.1 | None => [] end) 0 0 0 0 0) <$> example_content)
    [] 0 0 [] [] 0 [] 2).

Definition example_info : SstableInfo.t := SstableInfo.mk 7 7 (KeyRange.mk [] [] false) 0 [1%Z] 0 0 0 0 0 0 0 0 0.

(** A store that has every block, and prefetches one at a time, as the real one does when the
    block is cached. *)
Definition example_get (store : unit) (sst : Sstable.t) (idx : nat) : unit * HummockResult Block.t :=
  (store, match example_content !! idx with
          | Some es => match example_block es with Some b => inr b | None => inl ObjectIoError end
          | None => inl ObjectIoError
          end).

Definition example_prefetch (store : unit) (sst : Sstable.t) (idx end_ : nat) : unit * HummockResult PrefetchBlockStream.t :=
  (store, match (example_get store sst idx).2 with inr b => inr (PrefetchBlockStream.new [b] idx) | inl e => inl e end).

Lemma example_block_of es :
  es ∈ example_content → ∃ b, example_block es = Some b ∧ block_of b es.
Proof.
  intros Hes. destruct (build_and_decode_ok (HC := identity_codec) 1 2 CompressionAlgorithm.None_ (raw <$> es)) as (b & ents & Hb & Hh & Hp).
  { repeat (apply elem_of_cons in Hes as [->|Hes]; [split; [done|split; [done|split; [done|split; [|done]]]]; repeat constructor; vm_compute; done|]).
    by apply elem_of_nil in Hes. }
  assert (build_and_decode (xxh64 := example_checksum) (compress := example_compress) (decompress := example_decompress)
            2 CompressionAlgorithm.None_ (raw <$> es) = Ret (inr b)) as Hb' by exact Hb.
  unfold example_block. rewrite Hb'. exists b. split; [done|]. exists 1%Z, ents. split; [done|]. split; [|done].
  assert (e_key <$> ents = (raw <$> es).*1) as -> by (rewrite <-Hp, <-list_fmap_compose; done).
  repeat (apply elem_of_cons in Hes as [->|Hes]; [repeat constructor; vm_compute; done|]). by apply elem_of_nil in Hes.
Qed.

Lemma example_describes : describes example_sst example_content.
Proof.
  split.
  - repeat (apply Forall2_cons; split; [eexists; split; [reflexivity|vm_compute; reflexivity]|]). constructor.
  - repeat constructor; vm_compute; done.
  - repeat constructor; intros x y; rewrite !elem_of_cons; intros; destruct_or?; subst; try done; by apply elem_of_nil in H || by apply elem_of_nil in H0.
Qed.

Lemma example_fetches : fetches example_get example_prefetch False example_sst example_content.
Proof.
  assert (∀ store idx es, example_content !! idx = Some es → ∃ b, (example_get store example_sst idx).2 = inr b ∧ block_of b es) as Hget.
  { intros store idx es Hi. destruct (example_block_of es) as (b & Hb & Ho); [by eapply list_elem_of_lookup_2|].
    exists b. split; [|done]. unfold example_get. cbn [snd]. by rewrite Hi, Hb. }
  split.
  - intros store idx es Hi. destruct (Hget store idx es Hi) as (b & -> & Ho). done.
  - intros store idx end_. unfold example_prefetch. cbn [snd]. destruct (example_content !! idx) as [es|] eqn:Hi.
    + destruct (Hget store idx es Hi) as (b & -> & Ho). split; [done|]. split; [done|].
      intros [|j] b' es' Hj Hes'; [|done]. injection Hj as <-. simpl in Hes'. rewrite Nat.add_0_r in Hes'. congruence.
    + unfold example_get. cbn [snd]. by rewrite Hi.
Qed.


(** A second [seek] of a prefetching iterator may never return.  The stream of the first [seek]
    held one block and is used up; the second is for a later block, and no number of
    iterations takes the stream there. *)
Theorem sstable_seek_past_stream_never_returns :
  ∃ self first,
    SstableIterator.new example_sst tt (mk_options (Some Unbounded) 0) example_info = Ret self ∧
    SstableIterator.seek example_get example_prefetch 2 self (example_entry Byte.x61 HummockValue.Delete).1 = ok first ∧
    SstableIterator.key first = Ret (example_entry Byte.x61 HummockValue.Delete).1 ∧
    ∀ fuel, SstableIterator.seek example_get example_prefetch fuel first (example_entry Byte.x64 HummockValue.Delete).1 = Panic.
Proof.
  eexists _, _. split; [vm_compute; reflexivity|]. split; [vm_compute; reflexivity|]. split; [vm_compute; reflexivity|].
  intros fuel. unfold SstableIterator.seek.
  match goal with |- (SstableIterator.calculate_block_idx_by_key ?s ?k ≫= _) = _ =>
    assert (SstableIterator.calculate_block_idx_by_key s k = Ret 2) as -> by (vm_compute; reflexivity) end.
  cbn [mbind outcome_bind].
  match goal with |- (SstableIterator.init_block_prefetch_range ?s 2 ≫= _) = _ =>
    assert (SstableIterator.init_block_prefetch_range s 2 = Ret (SstableIterator.set_preload_end s 0)) as -> by (vm_compute; reflexivity) end.
  cbn [mbind outcome_bind]. erewrite seek_idx_stuck; [done|reflexivity|reflexivity|vm_compute; lia|vm_compute; lia].
Qed.
