(* ===== verification/ReadPath.v ===== *)
(** * What the readers of the storage engine get

    The theorems of the read path, on the contract of [IterSpec.v]: a forward and a backward
    scan return the rows of a snapshot, merging and concatenating iterators lose nothing,
    watermarks remove exactly the expired entries; and the composition of a scan with the batches
    of a shared buffer, before and after they are merged. *)

From Stdlib Require Import ZArith Lia.
From S2P Require Import Prelude Order Bytes Epoch Bits Bitmap Vnode Key KeySpec KeyOrder KeyRange Watermark Sst SstSpec Block Iter IterSpec ConcatSpec UserIter UserIterSpec BackwardIterSpec SkipWatermarkSpec SharedBuffer SharedBufferSpec SstMeta SstIter SstIterSpec MergeImm MergeImmSpec.

Abbreviation rows := (list (FullKey.t * list byte)).
Abbreviation row_key r := (FullKey.user_key (fst r)).

(** ** Forward scans *)

Lemma omap_row_filter (P : UserKey.t → bool) (l : list kv) :
  omap row (filter (λ e, P (ukey e) = true) l) = filter (λ r, P (row_key r) = true) (omap row l).
Proof.
  induction l as [|[k [v|]] l IH]; [done| |]; rewrite filter_cons; case_decide as H; cbn [omap list_omap row fst snd] in *; rewrite ?IH; [| |done|done].
  - by rewrite filter_cons_True.
  - by rewrite filter_cons_False.
Qed.

Lemma rows_where_and {I} (self : UserIterator.t I) (Q P : UserKey.t → bool) all :
  rows_where self (λ u, Q u && P u) all = filter (λ r, Q (row_key r) = true) (rows_where self P all).
Proof.
  unfold rows_where. rewrite <-(omap_row_filter Q). f_equal. rewrite list_filter_filter. apply list_filter_iff. intros e.
  by rewrite <-andb_assoc, !andb_true_iff.
Qed.

(** C3: a forward scan returns exactly the rows of its snapshot.  Over any iterator that keeps
    the contract, [UserIterator] reads, from [rewind], one row for every user key of the range
    whose newest version between the epochs is not a deletion, in the order of the user keys;
    from [seek] it reads those from the key on.  When the iterator fails, what was read is a part
    of the rows and the error is returned. *)
Theorem user_scan_exact {I} {it : HummockIterator.t I} (faults : Prop) (seeks : FullKey.t → Prop) (spec : IteratorSpec I faults seeks)
    (fuel : nat) (self : UserIterator.t I) (all : list kv) :
  HummockIterator.direction I = DirectionEnum.Forward → may_begin seeks (UserIterator.key_range self) →
  owns (faults := faults) all (UserIterator.iterator self) → Forall key_ok all → coherent all →
  is_uint 64 (UserIterator.read_epoch self) → length all < fuel →
  ∃ out : rows,
    StronglySorted (λ r1 r2, UserKey.cmp (row_key r1) (row_key r2) = Lt) out ∧
    (∀ k v, (k, v) ∈ out ↔
       is_row (UserIterator.min_epoch self) (UserIterator.read_epoch self) (contains UserKey.cmp (UserIterator.key_range self)) all k v) ∧
    reads faults (scan_from fuel (UserIterator.rewind fuel self)) out ∧
    ∀ u, may_seek seeks u →
      reads faults (scan_from fuel (UserIterator.seek fuel self u)) (filter (λ r, negb (cmp_ltb UserKey.cmp (row_key r) u) = true) out).
Proof.
  intros Hd Hb Ho Hk Hc Hr Hf. assert (sorted DirectionEnum.Forward all) as Hs by (rewrite <-Hd; by eapply owns_sorted).
  exists (rows_where self (above UserKey.cmp (UserIterator.key_range self).1) all). split; [by apply rows_where_sorted|].
  split; [intros k v; by apply rows_where_spec|]. split.
  - eapply scan_from_ok; [exact Hd|exact Hf|]. by eapply user_rewind_ok.
  - intros u Hu. rewrite <-(rows_where_and self (λ v, negb (cmp_ltb UserKey.cmp v u))). eapply scan_from_ok; [exact Hd|exact Hf|]. by eapply user_seek_ok.
Qed.

(** The entries of the two example batches, merged. *)
Definition example_merged : MergeIterator.t SharedBufferBatchIterator.forward :=
  MergeIterator.create ((λ b, SharedBufferBatchIterator.mk (SharedBufferBatch.inner b.1) 0 0 0 7) <$> example_batches).
Definition example_all : list kv := merge_sort (kv_le DirectionEnum.Forward) (mjoin (kvs_of 7 <$> example_batches.*2)).
Definition example_merge_spec : IteratorSpec (MergeIterator.t SharedBufferBatchIterator.forward) False (in_table 7) :=
  merge_spec (bh := scan_heap) False (in_table 7) (spec := batch_spec 7 False).

Lemma example_merged_owns : owns (IteratorSpec := example_merge_spec) example_all example_merged.
Proof.
  destruct (iters_ok 7 _ _ example_mergeable) as [_ Hown]. destruct (strict_sorted _ (mg_strict 7 _ _ example_mergeable)) as [Hs Hc].
  eexists. split; [|split; [exact Hown|split; [exact Hs|split; [|exact Hc]]]].
  - cbn. done.
  - unfold example_all. rewrite merge_sort_Permutation. done.
Qed.

Lemma example_keys_ok : Forall key_ok example_all.
Proof. repeat constructor; vm_compute; done. Qed.

Lemma user_scan_exact_witness :
  ∃ out : rows,
    reads False (scan_from (it := MergeIterator.merge_iter (bh := scan_heap)) 9
      (UserIterator.rewind (it := MergeIterator.merge_iter (bh := scan_heap)) 9
        (UserIterator.new example_merged (Unbounded, Unbounded) 131072 0))) out ∧
    ((FullKey.new_with_gap_epoch 7 [Byte.x00; Byte.x00; Byte.x01] 131072, [Byte.x0b]) : FullKey.t * list byte) ∈ out.
Proof.
  destruct (user_scan_exact False (in_table 7) example_merge_spec 9 (UserIterator.new example_merged (Unbounded, Unbounded) 131072 0) example_all
    eq_refl I example_merged_owns example_keys_ok) as (out & _ & Hin & Hrd & _).
  - apply (strict_sorted _ (mg_strict 7 _ _ example_mergeable)).
  - split; vm_compute; done.
  - vm_compute. lia.
  - exists out. split; [exact Hrd|]. apply Hin. split; [by vm_compute; left|]. split; [done|]. split; [done|].
    intros x Hx. repeat (apply elem_of_cons in Hx as [-> | Hx]; [vm_compute; done|]). by apply elem_of_nil in Hx.
Defined.

(** ** Backward scans *)

Lemma is_row_elem lo hi P (l1 l2 : list kv) k v : (∀ e, e ∈ l1 ↔ e ∈ l2) → is_row lo hi P l1 k v ↔ is_row lo hi P l2 k v.
Proof. intros H. unfold is_row. setoid_rewrite H. done. Qed.

Lemma rows_back_and {I} (self : BackwardUserIterator.t I) (Q P : UserKey.t → bool) all :
  rows_back self (λ u, Q u && P u) all = filter (λ r, Q (row_key r) = true) (rows_back self P all).
Proof.
  unfold rows_back. rewrite <-(omap_row_filter Q). f_equal. rewrite list_filter_filter. apply list_filter_iff. intros e.
  by rewrite <-andb_assoc, !andb_true_iff.
Qed.

(** C19: a backward scan returns the same rows from the last to the first.  Over any backward
    iterator that keeps the contract, [BackwardUserIterator] reads, from [rewind], one row for
    every user key of the range whose newest version above [min_epoch] and up to [read_epoch] is
    not a deletion, in descending order of the user keys; from [seek] it reads those up to the
    key. *)
Theorem backward_scan_exact {I} {it : HummockIterator.t I} (faults : Prop) (seeks : FullKey.t → Prop) (spec : IteratorSpec I faults seeks)
    (fuel : nat) (self : BackwardUserIterator.t I) (all : list kv) :
  HummockIterator.direction I = DirectionEnum.Backward → may_end seeks (BackwardUserIterator.key_range self) →
  owns (faults := faults) all (BackwardUserIterator.iterator self) → Forall key_ok all → coherent all → length all < fuel →
  ∃ out : rows,
    StronglySorted (λ r1 r2, UserKey.cmp (row_key r2) (row_key r1) = Lt) out ∧
    (∀ k v, (k, v) ∈ out ↔
       is_row (BackwardUserIterator.min_epoch self + 1) (BackwardUserIterator.read_epoch self)
         (contains UserKey.cmp (BackwardUserIterator.key_range self)) all k v) ∧
    reads faults (back_scan_from fuel (BackwardUserIterator.rewind fuel self)) out ∧
    ∀ u, may_seek seeks u →
      reads faults (back_scan_from fuel (BackwardUserIterator.seek fuel self u)) (filter (λ r, cmp_leb UserKey.cmp (row_key r) u = true) out).
Proof.
  intros Hd Hb Ho Hk Hc Hf.
  assert (sorted DirectionEnum.Forward (reverse all)) as Hs.
  { assert (sorted DirectionEnum.Backward all) as Hs by (rewrite <-Hd; by eapply owns_sorted).
    apply sorted_back_reverse in Hs. exact Hs. }
  assert (coherent (reverse all)) as Hc' by (intros x y; rewrite !elem_of_reverse; apply Hc).
  set (fwd := UserIterator.new (BackwardUserIterator.iterator self) (BackwardUserIterator.key_range self)
    (BackwardUserIterator.read_epoch self) (BackwardUserIterator.min_epoch self + 1)).
  pose proof (rows_back_reverse self fwd (reverse all) eq_refl eq_refl eq_refl) as E. rewrite reverse_involutive in E.
  exists (rows_back self (below UserKey.cmp (BackwardUserIterator.key_range self).2) all). split; [|split; [|split]].
  - rewrite E. apply (sorted_back_reverse _ _ (rows_where_sorted fwd (above UserKey.cmp (UserIterator.key_range fwd).1) (reverse all) Hs)).
  - intros k v. rewrite E, elem_of_reverse, rows_where_spec by done. apply is_row_elem. intros e. apply elem_of_reverse.
  - eapply back_scan_from_ok; [exact Hd|exact Hf|]. by eapply back_rewind_ok.
  - intros u Hu. rewrite <-(rows_back_and self (λ v, cmp_leb UserKey.cmp v u)). eapply back_scan_from_ok; [exact Hd|exact Hf|].
    by eapply back_seek_ok.
Qed.

Abbreviation example_back := (BackwardUserIterator.new (BackwardSstableIterator.new example_sst tt) (Unbounded, Unbounded) (Epoch.test_epoch 1) 0).

Lemma backward_scan_exact_witness :
  ∃ out : rows,
    reads False (back_scan_from (it := BackwardSstableIterator.sst_iter example_get) 9
      (BackwardUserIterator.rewind (it := BackwardSstableIterator.sst_iter example_get) 9 example_back)) out ∧
    ((FullKey.new 1 [Byte.x00; Byte.x00; Byte.x64] (Epoch.test_epoch 1), [Byte.x32]) : FullKey.t * list byte) ∈ out.
Proof.
  destruct (backward_scan_exact (it := BackwardSstableIterator.sst_iter example_get) False (λ _, True)
    (back_sst_spec example_get False example_sst example_content (d_metas _ _ example_describes) (d_sorted _ _ example_describes)
       (f_get _ _ _ _ _ example_fetches) ltac:(done)) 9 example_back (reverse (concat example_content)) eq_refl I)
    as (out & _ & Hin & Hrd & _).
  - split; [split; done|]. vm_compute. reflexivity.
  - repeat constructor; vm_compute; done.
  - intros x y. rewrite !elem_of_reverse. apply (strict_sorted _ (d_sorted _ _ example_describes)).
  - vm_compute. lia.
  - exists out. split; [exact Hrd|]. apply Hin. split; [by vm_compute; left|]. split; [vm_compute; done|]. split; [done|].
    intros x Hx. rewrite elem_of_reverse in Hx.
    repeat (apply elem_of_cons in Hx as [-> | Hx]; [vm_compute; done|]). by apply elem_of_nil in Hx.
Defined.

(** ** Merging *)

(** C13: merging iterators is the sorted merge of their entries.  Over any iterators that keep the
    contract, in either direction, [MergeIterator] reads from [rewind] all their entries in
    order, and from [seek] those from the key on.  A [next] that is cancelled while the top
    iterator moves keeps every iterator, so that reading from the start again misses nothing. *)
Theorem merge_iterator_exact {I} {it : HummockIterator.t I} {bh : BinaryHeap} (faults : Prop) (seeks : FullKey.t → Prop)
    (spec : IteratorSpec I faults seeks) (parts : list (I * list kv)) (n : nat) :
  Forall (λ p, owns (faults := faults) p.2 p.1) parts → coherent (mjoin parts.*2) → length (mjoin parts.*2) < n →
  let all := merge_sort (kv_le (HummockIterator.direction I)) (mjoin parts.*2) in
  let m := MergeIterator.create parts.*1 in
  yields faults (collect_from n (MergeIterator.rewind m)) all ∧
  (∀ k, seeks k → yields faults (collect_from n (MergeIterator.seek m k)) (from_key (HummockIterator.direction I) k all)) ∧
  ∀ rest (self : MergeIterator.t I) (top : I), merge_stands faults seeks all rest self → MergeIterator.heap self ≠ [] →
    (∀ a, (∃ i, head (MergeIterator.heap self) = Some i ∧ owns (faults := faults) a i) → owns (faults := faults) a top) →
    ∃ self', MergeIterator.drop_guard self top = Ret self' ∧ yields faults (collect_from n (MergeIterator.rewind self')) all.
Proof.
  intros Ho Hc Hn all m. assert (length all < n) as Hn' by (unfold all; by rewrite merge_sort_Permutation).
  assert (merge_owns faults seeks all m) as Hm.
  { exists parts. split; [apply app_nil_r|]. split; [done|]. split; [apply StronglySorted_merge_sort; apply _|].
    split; [apply merge_sort_Permutation|]. eapply coherent_perm; [|exact Hc]. symmetry. apply merge_sort_Permutation. }
  split; [|split].
  - exact (spec_rewind_collect faults seeks (spec := merge_spec faults seeks) all m n Hm Hn').
  - intros k Hk. exact (spec_seek_collect faults seeks (spec := merge_spec faults seeks) all m k n Hk Hm Hn').
  - intros rest self top Hst Hne Htop. destruct (drop_guard_owns faults seeks all rest self top Hst Htop Hne) as (self' & Hd & Hown).
    exists self'. split; [exact Hd|]. exact (spec_rewind_collect faults seeks (spec := merge_spec faults seeks) all self' n Hown Hn').
Qed.

Lemma merge_iterator_exact_witness :
  yields False (collect_from (it := MergeIterator.merge_iter (bh := scan_heap)) 9
    (MergeIterator.rewind (bh := scan_heap) example_merged)) example_all.
Proof.
  destruct (iters_ok 7 _ _ example_mergeable) as [_ Hown].
  refine (proj1 (merge_iterator_exact (bh := scan_heap) False (in_table 7) (batch_spec 7 False) _ 9 Hown _ _)).
  - eapply coherent_perm; [apply (merge_sort_Permutation (kv_le DirectionEnum.Forward))|].
    apply (strict_sorted _ (mg_strict 7 _ _ example_mergeable)).
  - vm_compute. lia.
Defined.

(** ** Concatenating *)

(** C28: concatenating tables that do not overlap reads them one after the other.  Over a store
    that opens every table (or fails), with tables ordered in the direction of the iterator and
    key ranges that cover their entries, [ConcatIteratorInner] reads from [rewind] the entries of
    all tables in order, and from [seek] those from the key on, though it opens a single table to
    start with. *)
Theorem concat_iterator_exact {Store Table TI} {it : HummockIterator.t TI}
    (sstable : Store → SstableInfo.t → Store * HummockResult Table) (create : Table → Store → SstableInfo.t → outcome TI)
    (faults : Prop) (seeks : FullKey.t → Prop) (spec : IteratorSpec TI faults seeks)
    (content : SstableInfo.t → list kv) (infos : list SstableInfo.t) (store : Store) (n : nat) :
  (∀ k, seeks k → is_uint 64 (FullKey.epoch_with_gap k)) →
  Forall (table_holds content) infos → StronglySorted (dir_before (it := it)) infos →
  Forall (λ info, sorted (HummockIterator.direction TI) (content info)) infos →
  (∀ store info, info ∈ infos →
     match sstable store info with
     | (_, inl _) => faults
     | (store', inr table) => ∃ ti, create table store' info = Ret ti ∧ owns (faults := faults) (content info) ti
     end) →
  length (mjoin (content <$> infos)) < n →
  let c := ConcatIteratorInner.new (TI := TI) infos store in
  let concat := ConcatIteratorInner.concat_iter sstable create in
  yields faults (collect_from (it := concat) n (ConcatIteratorInner.rewind sstable create c)) (mjoin (content <$> infos)) ∧
  ∀ k, seeks k →
    yields faults (collect_from (it := concat) n (ConcatIteratorInner.seek sstable create c k))
      (from_key (HummockIterator.direction TI) k (mjoin (content <$> infos))).
Proof.
  intros Hu Hh Hs Hc Hst Hn c concat.
  set (sp := concat_spec sstable create faults seeks (spec := spec) Hu content infos Hh Hs Hc Hst). split.
  - exact (spec_rewind_collect (it := concat) faults seeks (spec := sp) _ c n (conj eq_refl eq_refl) Hn).
  - intros k Hk. exact (spec_seek_collect (it := concat) faults seeks (spec := sp) _ c k n Hk (conj eq_refl eq_refl) Hn).
Qed.

(** Two tables with one entry each, read through the iterator of a batch. *)
Definition example_part (b : byte) : list group := [([Byte.x00; Byte.x00; b], [(65536%Z, SharedBufferValue.Insert [b])])].
Definition example_table (id : Z) (b : byte) : SstableInfo.t :=
  let k := FullKey.encode (FullKey.new_with_gap_epoch 7 [Byte.x00; Byte.x00; b] 65536) in
  SstableInfo.mk id id (KeyRange.mk k k false) 0 [7%Z] 0 0 0 0 0 0 0 0 0.
Definition example_tables : list SstableInfo.t := [example_table 1 Byte.x01; example_table 2 Byte.x02].
Definition example_byte (info : SstableInfo.t) : byte := if (SstableInfo.sst_id info =? 1)%Z then Byte.x01 else Byte.x02.
Definition example_open (store : unit) (info : SstableInfo.t) : unit * HummockResult SharedBufferBatch.t :=
  (store, inr (example_batch (example_part (example_byte info)) 65536 1)).
Definition example_create (b : SharedBufferBatch.t) (store : unit) (info : SstableInfo.t) : outcome SharedBufferBatchIterator.forward :=
  SharedBufferBatchIterator.new (SharedBufferBatch.inner b) (SharedBufferBatch.table_id b).

Lemma example_table_holds id b :
  example_byte (example_table id b) = b → table_holds (λ info, kvs_of 7 (example_part (example_byte info))) (example_table id b).
Proof.
  intros Hb. set (k := FullKey.new_with_gap_epoch 7 [Byte.x00; Byte.x00; b] 65536). exists k, k.
  assert (full_key_ok k) as Hk by (repeat split; vm_compute; done).
  split; [split; [split_and!; done|]|].
  - unfold reaches. cbn. apply (cmp_leb_le UserKey.cmp). by rewrite (cmp_refl UserKey.cmp).
  - split; [done|]. rewrite Hb. constructor; [|constructor]. cbn [kv_of fst]. fold k. rewrite (cmp_refl FullKey.cmp). split; [done|].
    split; [|done]. apply (cmp_leb_le UserKey.cmp). by rewrite (cmp_refl UserKey.cmp).
Qed.

Lemma concat_iterator_exact_witness :
  yields False (collect_from (it := ConcatIteratorInner.concat_iter example_open example_create) 3
    (ConcatIteratorInner.rewind example_open example_create (ConcatIteratorInner.new example_tables tt)))
    (kvs_of 7 (example_part Byte.x01) ++ kvs_of 7 (example_part Byte.x02)).
Proof.
  refine (proj1 (concat_iterator_exact example_open example_create False (in_table 7) (batch_spec 7 False)
    (λ info, kvs_of 7 (example_part (example_byte info))) example_tables tt 3 _ _ _ _ _ _)).
  - by intros k [_ Hk].
  - repeat constructor; (apply example_table_holds; reflexivity).
  - repeat constructor; vm_compute; reflexivity.
  - repeat constructor.
  - intros [] info _. eexists. split; [reflexivity|]. split; [reflexivity|]. eexists. split; [|split; [|reflexivity]]; [done|].
    split; [done|done|]. by repeat constructor.
  - vm_compute. lia.
Defined.

(** ** Skipping what watermarks expire *)

(** The iterator when a client has read it to the end. *)
Fixpoint drain {I} {it : HummockIterator.t I} (n : nat) (i : I) : step I :=
  match n with
  | O => Panic
  | S n =>
      valid ← HummockIterator.is_valid i;
      if (valid : bool) then and_then (HummockIterator.next i) id (drain n) else ok i
  end.

Lemma drain_ok {I} {it : HummockIterator.t I} (faults : Prop) (at_ : list kv → I → Prop) n : ∀ rest i,
  (∀ rest i, at_ rest i → HummockIterator.is_valid i = Ret (match rest with [] => false | _ => true end)) →
  (∀ e rest i, at_ (e :: rest) i → runs faults (HummockIterator.next i) (at_ rest) (λ _, True)) →
  at_ rest i → length rest < n → runs faults (drain n i) (at_ []) (λ _, True).
Proof.
  induction n as [|n IH]; intros rest i Hval Hnext Hi Hn; [lia|]. cbn [drain]. rewrite (Hval rest i Hi).
  destruct rest as [|e rest]; cbn [mbind outcome_bind]; [by apply runs_ok|].
  eapply runs_and_then; [by eapply Hnext| |done]. intros i' Hi'. apply (IH rest); [done..|]. cbn in Hn. lia.
Qed.

(** C20: watermarks remove exactly the expired entries and account for them.  Over any forward
    iterator that keeps the contract, [SkipWatermarkIterator] reads the entries whose table has no
    watermark for their vnode that filters them, from [rewind] and from [seek]; a client that
    reads to the end finds, for every table, statistics that take off one entry and its encoded
    sizes for each entry removed. *)
Theorem skip_watermark_exact {I} {it : HummockIterator.t I} (faults : Prop) (seeks : FullKey.t → Prop) (spec : IteratorSpec I faults seeks)
    (fuel : nat) (self : SkipWatermarkIterator.t I) (entries : list kv) :
  HummockIterator.direction I = DirectionEnum.Forward →
  (∀ all e rest (i : I), stands (faults := faults) all (e :: rest) i →
     runs faults (HummockIterator.next i) (stands (faults := faults) all rest) (owns (faults := faults) all)) →
  owns (faults := faults) entries (SkipWatermarkIterator.inner self) → Forall (λ e, has_vnode e.1) entries →
  watermarks_ok (SkipWatermarkState.watermarks (SkipWatermarkIterator.state self)) → length entries < fuel →
  let skip := SkipWatermarkIterator.skip_iter (I := I) fuel in
  let ws := all_watermarks (SkipWatermarkIterator.state self) in
  yields faults (collect_from (it := skip) fuel (SkipWatermarkIterator.rewind fuel self)) (unexpired ws entries) ∧
  (∀ k, seeks k → yields faults (collect_from (it := skip) fuel (SkipWatermarkIterator.seek fuel self k))
                    (from_key DirectionEnum.Forward k (unexpired ws entries))) ∧
  runs faults (and_then (SkipWatermarkIterator.rewind fuel self) id (drain (it := skip) fuel))
    (λ self', ∀ table, default SkipWatermarkIterator.default_stats (SkipWatermarkIterator.skipped_entry_table_stats self' !! table) =
                       skip_total table (filter (λ e, expired ws e.1 = true) entries)) (λ _, True) ∧
  ∀ k t v inner, splits k (t, v) inner →
    expired ws k = true ↔
    ∃ rw w, (t, rw) ∈ SkipWatermarkState.watermarks (SkipWatermarkIterator.state self) ∧ (v, w) ∈ vnode_watermarks rw ∧
      WatermarkDirection.filter_by_watermark (rw_direction rw) inner w = true.
Proof.
  intros Hd Hk Ho Hv Hw Hf skip ws. set (sp := skip_spec faults seeks (spec := spec) Hd fuel Hk).
  assert (skip_owns faults seeks fuel (unexpired ws entries) self) as Hown by by exists entries.
  assert (length (unexpired ws entries) < fuel) as Hn by (pose proof (length_filter (λ e : kv, expired ws e.1 = false) entries); unfold unexpired; lia).
  split; [|split; [|split]].
  - exact (spec_rewind_collect (it := skip) faults seeks (spec := sp) _ self fuel Hown Hn).
  - intros k Hsk. pose proof (spec_seek_collect (it := skip) faults seeks (spec := sp) _ self k fuel Hsk Hown Hn) as H.
    cbn [HummockIterator.direction skip SkipWatermarkIterator.skip_iter] in H. exact H.
  - pose proof (skip_restart_at (I := I) faults seeks Hd fuel Hk HummockIterator.rewind (λ _, True) entries self) as Hrw.
    rewrite !filter_all in Hrw by done. eapply runs_and_then; [apply Hrw; [|done..]| |done].
    { intros i Hi. by apply owns_rewind. }
    intros self' [Heq Hat]. eapply runs_weaken.
    + apply (drain_ok (it := skip) faults (λ rest s, all_watermarks (SkipWatermarkIterator.state s) = ws ∧ skip_at faults seeks fuel entries entries rest s)
        fuel (unexpired ws entries) self'); [| |done|done].
      * intros rest s [_ Hs]. refine (stands_valid (IteratorSpec := sp) _ rest s _). by exists entries, entries.
      * intros e rest s [Es Hs]. eapply runs_weaken; [by eapply skip_next_at| |done]. intros s' [E Hs']. by rewrite E.
    + intros s (Es & ahead & (_ & _ & _ & _ & _ & _ & _ & passed & Hp & Htot) & Hr & Hhd & Hl) table.
      destruct ahead as [|e ahead]; [|unfold unexpired in Hr; by rewrite filter_cons_True in Hr]. rewrite app_nil_r in Hp. subst passed.
      specialize (Htot table). unfold stats_at in Htot. rewrite Hl, bool_decide_false, stats_add_zero_r, Es in Htot by done. exact Htot.
    + done.
  - intros k t v inner. apply expired_spec.
Qed.

Definition example_skip : SkipWatermarkIterator.t SharedBufferBatchIterator.forward :=
  SkipWatermarkIterator.new (SharedBufferBatchIterator.mk (SharedBufferBatch.inner (example_batch example_groups_new 131072 2)) 0 0 0 7)
    [(7%Z, mk_read_watermark WatermarkDirection.Ascending [(0, [Byte.x02])])].

Lemma skip_watermark_exact_witness :
  yields False (collect_from (it := SkipWatermarkIterator.skip_iter 9) 9 (SkipWatermarkIterator.rewind 9 example_skip))
    [(FullKey.new_with_gap_epoch 7 [Byte.x00; Byte.x00; Byte.x03] 131072, HummockValue.Delete)].
Proof.
  refine (proj1 (skip_watermark_exact False (in_table 7) (batch_spec 7 False) 9 example_skip (kvs_of 7 example_groups_new) eq_refl _ _ _ _ _)).
  - intros all e rest i Hi. pose proof (stands_next (IteratorSpec := batch_spec 7 False) _ _ _ _ Hi) as H.
    apply runs_reliable in H as (i' & E & Hi'). rewrite E. by apply runs_ok.
  - split; [done|]. exists example_groups_new. split; [done|]. split; [|done]. split; [done|done|apply example_groups_ok].
  - repeat constructor; eexists (7%Z, 0), _; by split.
  - split; repeat constructor.
  - vm_compute. lia.
Defined.

(** ** Batches *)

Lemma kvs_single table gap (payload : list SharedBufferItem) :
  kvs_of table (single_groups gap payload) = (λ p, kv_of table p.1 (gap, p.2)) <$> payload.
Proof. unfold kvs_of, single_groups. rewrite <-list_fmap_compose. induction payload as [|p l IH]; [done|]. rewrite !fmap_cons, join_cons, IH. done. Qed.

(** The batch-level test of a batch whose keys are [gs]. *)
Lemma filter_sound (batch : SharedBufferBatch.t) gs range :
  holds_groups (SharedBufferBatch.inner batch) gs → gs ≠ [] →
  ∃ b, SharedBufferBatch.filter batch (SharedBufferBatch.table_id batch) range = Ret b ∧
    ((∃ g : group, g ∈ gs ∧ contains bytes_cmp range g.1 = true) → b = true).
Proof.
  intros H Hne. unfold SharedBufferBatch.filter, SharedBufferBatch.start_table_key, SharedBufferBatch.end_table_key. rewrite Z.eqb_refl.
  assert (∃ g0 gs', gs = g0 :: gs') as (g0 & gs' & Egs) by (destruct gs; [done|]; by eexists _, _).
  assert (gs !! 0 = Some g0) as H0 by by rewrite Egs. destruct (last gs) as [g1|] eqn:E1; [|by rewrite last_None in E1].
  pose proof E1 as H1. rewrite last_lookup in H1.
  rewrite head_lookup, (entry_at _ gs H 0 g0 H0), last_lookup, (entry_count _ gs H), (entry_at _ gs H _ g1 H1).
  cbn [unwrap fmap outcome_fmap mbind outcome_bind SharedBufferKeyEntry.key]. eexists. split; [reflexivity|].
  intros (g & Hg & Hc). destruct (hg_ok _ _ H) as [Hs _]. apply list_elem_of_lookup in Hg as [i Hi].
  pose proof (lookup_lt_Some _ _ _ Hi) as Hlt. pose proof (sorted_lookup (λ g1 g2 : group, bytes_cmp g1.1 g2.1 = Lt) gs) as Hso.
  apply (range_overlap_keeps bytes_cmp range _ _ g.1 Hc).
  - destruct (decide (i = 0)) as [->|]; [assert (g0 = g) as -> by (apply (inj Some); exact (eq_trans (eq_sym H0) Hi)); by rewrite (cmp_refl bytes_cmp)|].
    pose proof (Hso 0 i g0 g Hs ltac:(lia) H0 Hi) as C. cbv beta in C. intros C'. discriminate (eq_trans (eq_sym C) C').
  - apply (cmp_leb_le bytes_cmp). destruct (decide (i = pred (length gs))) as [->|]; [assert (g1 = g) as -> by (apply (inj Some); exact (eq_trans (eq_sym H1) Hi)); by rewrite (cmp_refl bytes_cmp)|].
    pose proof (Hso i (pred (length gs)) g g1 Hs ltac:(lia) Hi H1) as C. cbv beta in C. intros C'. discriminate (eq_trans (eq_sym C) C').
Qed.

(** C29: a batch answers every read as its items say.  A batch built of items with strictly
    ascending keys is iterated in their order, from [rewind] and from [seek]; a point lookup
    returns the item of the key when its epoch is not above the epoch read, [range_exists] tells
    whether a key is in the range, and the batch-level [filter] never rejects a range with a key
    of the batch. *)
Theorem shared_buffer_batch_exact (table epoch spill size id : Z) (payload : list SharedBufferItem) (old : option (list (list byte))) (n : nat) :
  payload ≠ [] → match old with Some vs => length vs = length payload | None => True end →
  StronglySorted (λ p q : SharedBufferItem, bytes_cmp p.1 q.1 = Lt) payload → length payload < n →
  let gap := EpochWithGap.new epoch spill in
  let entries := (λ p, kv_of table p.1 (gap, p.2)) <$> payload in
  ∃ batch it,
    SharedBufferBatch.build_shared_buffer_batch epoch spill payload old size table id = Ret batch ∧
    SharedBufferBatchIterator.new (SharedBufferBatch.inner batch) table = Ret it ∧
    yields False (collect_from n (SharedBufferBatchIterator.rewind (it : SharedBufferBatchIterator.forward))) entries ∧
    (∀ k, in_table table k → yields False (collect_from n (SharedBufferBatchIterator.seek it k)) (from_key DirectionEnum.Forward k entries)) ∧
    (∀ k read, SharedBufferBatch.get batch k read =
       Ret ((λ e : kv, (e.2, FullKey.epoch_with_gap e.1)) <$> head (filter (sees table k read) entries))) ∧
    (∀ range, SharedBufferBatch.range_exists batch range = true ↔ ∃ p, p ∈ payload ∧ contains bytes_cmp range p.1 = true) ∧
    ∀ range, ∃ b, SharedBufferBatch.filter batch table range = Ret b ∧
      ((∃ p, p ∈ payload ∧ contains bytes_cmp range p.1 = true) → b = true).
Proof.
  intros Hne Hold Hs Hn gap entries. destruct (batch_new_ok epoch spill payload old size id Hne Hold Hs) as (inner & Hnew & H & _).
  unfold SharedBufferBatch.build_shared_buffer_batch. rewrite Hnew. cbn [mbind outcome_bind].
  set (gs := single_groups (EpochWithGap.new epoch spill) payload) in *.
  assert (kvs_of table gs = entries) as E by apply kvs_single.
  assert (∀ P : TableKey.t → Prop, (∃ g : group, g ∈ gs ∧ P g.1) ↔ ∃ p, p ∈ payload ∧ P p.1) as Hkeys.
  { intros P. unfold gs, single_groups. setoid_rewrite list_elem_of_fmap. naive_solver. }
  assert (gs ≠ []) as Hgs by (unfold gs; by destruct payload).
  eexists (SharedBufferBatch.mk inner table), (SharedBufferBatchIterator.mk inner 0 0 0 table). split; [done|]. split; [done|].
  assert (batch_owns table entries (SharedBufferBatchIterator.mk inner 0 0 0 table : SharedBufferBatchIterator.forward)) as Ho.
  { split; [done|]. exists gs. by rewrite E. }
  assert (length entries < n) as Hl by (unfold entries; by rewrite length_fmap).
  split; [exact (spec_rewind_collect False (in_table table) (spec := batch_spec table False) _ _ n Ho Hl)|].
  split; [intros k Hk; exact (spec_seek_collect False (in_table table) (spec := batch_spec table False) _ _ k n Hk Ho Hl)|].
  split; [intros k read; unfold SharedBufferBatch.get; rewrite <-E; by apply get_value_ok|]. split.
  - intros range. unfold SharedBufferBatch.range_exists. cbn [SharedBufferBatch.inner]. rewrite (hg_entries _ _ H), range_search_ok by apply H.
    rewrite existsb_exists. setoid_rewrite <-list_elem_of_In. apply (Hkeys (λ k, contains bytes_cmp range k = true)).
  - intros range. destruct (filter_sound (SharedBufferBatch.mk inner table) gs range H Hgs) as (b & Hb & Hc).
    exists b. split; [exact Hb|]. intros Hp. apply Hc. by apply (Hkeys (λ k, contains bytes_cmp range k = true)).
Qed.

Lemma shared_buffer_batch_exact_witness :
  ∃ batch, SharedBufferBatch.build_shared_buffer_batch 65536 0
      [([Byte.x00; Byte.x00; Byte.x01], SharedBufferValue.Insert [Byte.x0a]); ([Byte.x00; Byte.x00; Byte.x02], SharedBufferValue.Delete)] None 9 7 1 = Ret batch ∧
    SharedBufferBatch.get batch [Byte.x00; Byte.x00; Byte.x02] 65536 = Ret (Some (HummockValue.Delete, 65536%Z)) ∧
    SharedBufferBatch.get batch [Byte.x00; Byte.x00; Byte.x02] 0 = Ret None.
Proof.
  destruct (shared_buffer_batch_exact 7 65536 0 9 1
    [([Byte.x00; Byte.x00; Byte.x01], SharedBufferValue.Insert [Byte.x0a]); ([Byte.x00; Byte.x00; Byte.x02], SharedBufferValue.Delete)] None 3)
    as (batch & it & Hb & _ & _ & _ & Hget & _); [done|done|by repeat constructor|vm_compute; lia|].
  exists batch. split; [exact Hb|]. rewrite !Hget. split; vm_compute; reflexivity.
Defined.

(** ** A scan over the batches of a table *)

(** The rows a client reads from a user iterator over the merged batches. *)
Definition scan_batches {bh : BinaryHeap} (fuel : nat) (imms : list SharedBufferBatch.t) (range : UserKeyRange) (read_epoch min_epoch : Z)
  : outcome (rows * HummockResult unit) :=
  iters ← rmap (λ imm, SharedBufferBatchIterator.new (SharedBufferBatch.inner imm) (SharedBufferBatch.table_id imm)) imms;
  scan_from fuel (UserIterator.rewind fuel
    (UserIterator.new (MergeIterator.create (iters : list SharedBufferBatchIterator.forward)) range read_epoch min_epoch)).

Section scan.
Context {bh : BinaryHeap} (table : Z) (range : UserKeyRange) (read_epoch min_epoch : Z) (fuel : nat) (all : list kv).
Hypothesis all_strict : StronglySorted kv_lt all.
Hypothesis all_keys : Forall key_ok all.
Hypothesis range_ok : may_begin (in_table table) range.
Hypothesis read_ok : is_uint 64 read_epoch.
Hypothesis fuel_ok : length all < fuel.

Lemma scan_parts (parts : list (SharedBufferBatchIterator.forward * list kv)) (q : UserIterator.t (MergeIterator.t SharedBufferBatchIterator.forward)) :
  Forall (λ p, batch_owns table p.2 p.1) parts → all ≡ₚ mjoin parts.*2 →
  UserIterator.key_range q = range → UserIterator.read_epoch q = read_epoch → UserIterator.min_epoch q = min_epoch →
  scan_from fuel (UserIterator.rewind fuel (UserIterator.new (MergeIterator.create parts.*1) range read_epoch min_epoch)) =
  Ret (rows_where q (above UserKey.cmp range.1) all, inr tt).
Proof.
  intros Ho Hp E1 E2 E3. set (sp := merge_spec (bh := bh) False (in_table table) (spec := batch_spec table False)).
  set (self := UserIterator.new (MergeIterator.create parts.*1) range read_epoch min_epoch).
  destruct (strict_sorted _ all_strict) as [Hs Hc].
  assert (owns (IteratorSpec := sp) all (UserIterator.iterator self)) as Hown.
  { exists parts. split; [apply app_nil_r|]. by split. }
  assert (reads False (scan_from fuel (UserIterator.rewind fuel self)) (rows_where self (above UserKey.cmp range.1) all)) as (l & r & -> & Hr).
  { eapply scan_from_ok; [reflexivity|exact fuel_ok|]. by eapply (user_rewind_ok False (in_table table) (spec := sp)). }
  rewrite (rows_where_same q self) in Hr by (by split_and!). by destruct r as [e|[]]; [destruct Hr|subst].
Qed.
End scan.

(** C18: merging the batches of a table is invisible to a scan.  A user iterator over the merge of
    the batches reads one row for every user key of the range whose newest version between the
    epochs, over all batches, is not a deletion; after [merge_imms_in_memory] it reads the same
    rows from the one batch that replaces them. *)
Theorem scan_across_merge_exact {bh : BinaryHeap} (table : Z) (bs : list (SharedBufferBatch.t * list group)) (has_old : bool)
    (range : UserKeyRange) (read_epoch min_epoch : Z) (fuel : nat) :
  let all := mjoin (kvs_of table <$> bs.*2) in
  mergeable table bs has_old → Forall key_ok all → may_begin (in_table table) range → is_uint 64 read_epoch → length all < fuel →
  ∃ imm (out : rows),
    merge_imms_in_memory table bs.*1 = Ret imm ∧
    scan_batches fuel bs.*1 range read_epoch min_epoch = Ret (out, inr tt) ∧
    scan_batches fuel [imm] range read_epoch min_epoch = Ret (out, inr tt) ∧
    StronglySorted (λ r1 r2, UserKey.cmp (row_key r1) (row_key r2) = Lt) out ∧
    ∀ k v, (k, v) ∈ out ↔ is_row min_epoch read_epoch (contains UserKey.cmp range) all k v.
Proof.
  intros all H Hk Hb Hr Hf. set (merged := merge_sort (kv_le DirectionEnum.Forward) all).
  assert (merged ≡ₚ all) as Hp by apply merge_sort_Permutation.
  pose proof (mg_strict table bs has_old H) as Hst. fold all merged in Hst. destruct (strict_sorted _ Hst) as [Hs Hc].
  assert (Forall key_ok merged) as Hk' by by rewrite Hp. assert (length merged < fuel) as Hf' by by rewrite Hp.
  destruct (merge_imms_run table bs has_old H) as (b & mm & outs & es & Hrun & (He & Hv & Hall & Hok & Hne & _) & _).
  destruct (iters_ok table bs has_old H) as [Hits Hown].
  set (q := UserIterator.new (MergeIterator.create ([] : list SharedBufferBatchIterator.forward)) range read_epoch min_epoch).
  eexists _, (rows_where q (above UserKey.cmp range.1) merged). split; [exact Hrun|]. split; [|split; [|split]].
  - unfold scan_batches. rewrite Hits. cbn [mbind outcome_bind]. apply (scan_parts table); [done..| |done|done|done].
    rewrite Hp, <-list_fmap_compose. unfold all. by rewrite <-list_fmap_compose.
  - unfold scan_batches. cbn [rmap mbind outcome_bind SharedBufferBatchIterator.new rassert orb].
    refine (scan_parts table range read_epoch min_epoch fuel merged Hst Hk' Hb Hr Hf' [(_, merged)] q _ _ eq_refl eq_refl eq_refl).
    + constructor; [|constructor]. split; [done|]. exists outs. split; [done|]. split; [by split|]. symmetry. exact Hall.
    + cbn. by rewrite app_nil_r.
  - by apply rows_where_sorted.
  - intros k v. rewrite rows_where_spec by done. apply is_row_elem. intros e. by rewrite Hp.
Qed.

Lemma scan_across_merge_exact_witness :
  ∃ imm (out : rows), merge_imms_in_memory (bh := scan_heap) 7 example_batches.*1 = Ret imm ∧
    scan_batches (bh := scan_heap) 9 [imm] (Unbounded, Unbounded) 131072 0 = Ret (out, inr tt) ∧
    ((FullKey.new_with_gap_epoch 7 [Byte.x00; Byte.x00; Byte.x02] 65536, [Byte.x0c]) : FullKey.t * list byte) ∈ out.
Proof.
  destruct (scan_across_merge_exact (bh := scan_heap) 7 example_batches false (Unbounded, Unbounded) 131072 0 9 example_mergeable)
    as (imm & out & Hm & _ & Hs & _ & Hin).
  - repeat constructor; vm_compute; done.
  - done.
  - split; vm_compute; done.
  - vm_compute. lia.
  - exists imm, out. split; [exact Hm|]. split; [exact Hs|]. apply Hin. split; [apply (list_elem_of_lookup_2 _ 3); reflexivity|].
    split; [done|]. split; [done|]. refine (proj1 (Forall_forall _ _) _). repeat constructor; vm_compute; done.
Defined.

(** ** Backward scans of a batch

    [SharedBufferBatchIterator<Backward>] does not keep the contract: it gives the versions of a
    key newest first, and sought at a version older than those of a key it leaves the key. *)
Definition scan_batch_back (imm : SharedBufferBatch.t) (range : UserKeyRange) (read_epoch : Z) : outcome (rows * HummockResult unit) :=
  it ← SharedBufferBatchIterator.new (SharedBufferBatch.inner imm) (SharedBufferBatch.table_id imm);
  back_scan_from 9 (BackwardUserIterator.rewind 9
    (BackwardUserIterator.new (it : SharedBufferBatchIterator.t DirectionEnum.Backward true) range read_epoch 0)).

(** A scan up to a key of the batch misses the row of that key, and a scan of a batch with two
    versions of key 1 returns the older one. *)
Theorem backward_scan_of_batch_differs :
  let key b := UserKey.mk 7 [Byte.x00; Byte.x00; b] in
  let old := example_batch example_groups_old 65536 1 in
  scan_batch_back old (Unbounded, Unbounded) 131072 =
    Ret ([(FullKey.mk (key Byte.x02) 65536, [Byte.x0c]); (FullKey.mk (key Byte.x01) 65536, [Byte.x0a])], inr tt) ∧
  scan_batch_back old (Unbounded, Included (key Byte.x02)) 131072 = Ret ([(FullKey.mk (key Byte.x01) 65536, [Byte.x0a])], inr tt) ∧
  ∃ imm, merge_imms_in_memory (bh := scan_heap) 7 example_batches.*1 = Ret imm ∧
    scan_batches (bh := scan_heap) 9 [imm] (Unbounded, Included (key Byte.x01)) 131072 0 =
      Ret ([(FullKey.mk (key Byte.x01) 131072, [Byte.x0b])], inr tt) ∧
    scan_batch_back imm (Unbounded, Excluded (key Byte.x02)) 131072 = Ret ([(FullKey.mk (key Byte.x01) 65536, [Byte.x0a])], inr tt).
Proof. split; [vm_compute; reflexivity|]. split; [vm_compute; reflexivity|]. eexists. split; [vm_compute; reflexivity|]. split; vm_compute; reflexivity. Qed.
