(* ===== verification/Version.v ===== *)
(** * Hummock versions and version deltas

    [src/storage/hummock_sdk/src/version.rs], [change_log.rs] and [apply_version_delta],
    [apply_change_log_delta] and [validate_version] of
    [compaction_group/hummock_version_ext.rs]: the state-table index of a version, the change
    logs, and how a delta changes a whole version, calling the level operations of [Split.v]
    and the watermark operations of [Watermark.v].  Hash maps are finite maps; the order of
    their iteration is the interface [HashOrder].  The theorems are in [StateTableSpec.v] and
    [VersionSpec.v]. *)

From Stdlib Require Import ZArith Lia.
From stdpp Require Import gmap fin_maps.
From S2P Require Import Prelude Order Bytes Epoch Bits Bitmap Vnode Key KeySpec KeyRange Watermark Sst Level Split.

Local Open Scope Z_scope.

(** ** Iterating over hash maps and hash sets *)

(** Some order of the entries. *)
Class HashOrder := {
  iter_map : ∀ {A}, gmap Z A → list (Z * A);
  iter_set : gset Z → list Z;
  iter_map_perm : ∀ {A} (m : gmap Z A), iter_map m ≡ₚ map_to_list m;
  iter_set_perm : ∀ s, iter_set s ≡ₚ elements s
}.

Module StateTableInfo.

Record t := mk { committed_epoch : Z; compaction_group_id : Z }.

#[global] Instance t_eq_dec : EqDecision t.
Proof. solve_decision. Defined.

End StateTableInfo.

(** ** [HummockVersionStateTableInfo] *)
Module HummockVersionStateTableInfo.

Abbreviation infos := (gmap Z StateTableInfo.t).
Abbreviation members := (gmap Z (gset Z)).

Record t := mk { state_table_info : infos; compaction_group_member_tables : members }.

Definition empty : t := mk ∅ ∅.

(** [assert!(members.entry(group).or_default().insert(table_id))] *)
Definition add_member (ms : members) (compaction_group_id table_id : Z) : outcome members :=
  let tables : gset Z := default ∅ (ms !! compaction_group_id) in
  rassert (bool_decide (table_id ∉ tables));;
  Ret (<[compaction_group_id := {[ table_id ]} ∪ tables]> ms).

Definition remove_table_from_compaction_group (ms : members) (compaction_group_id table_id : Z) : outcome members :=
  member_tables ← unwrap (ms !! compaction_group_id : option (gset Z));
  rassert (bool_decide (table_id ∈ member_tables));;
  let member_tables := member_tables ∖ {[ table_id ]} in
  Ret (if bool_decide (member_tables = ∅) then delete compaction_group_id ms
       else <[compaction_group_id := member_tables]> ms).

Definition compaction_group_member_table_ids (self : t) (compaction_group_id : Z) : gset Z :=
  default (∅ : gset Z) (compaction_group_member_tables self !! compaction_group_id).

Definition build_table_compaction_group_id (self : t) : gmap Z Z :=
  StateTableInfo.compaction_group_id <$> state_table_info self.

(** What the loops of [apply_delta] carry: the two maps, the changed tables with their
    previous information and whether a committed epoch was bumped. *)
Abbreviation changes := (gmap Z (option StateTableInfo.t)).

Definition remove_step (acc : t * changes) (table_id : Z) : outcome (t * changes) :=
  let '(self, changed_table) := acc in
  match state_table_info self !! table_id with
  | Some prev_info =>
      ms ← remove_table_from_compaction_group (compaction_group_member_tables self)
             (StateTableInfo.compaction_group_id prev_info) table_id;
      rassert (bool_decide (changed_table !! table_id = None));;
      Ret (mk (delete table_id (state_table_info self)) ms, <[table_id := Some prev_info]> changed_table)
  | None => Ret acc
  end.

Definition delta_step (removed_table_id : gset Z) (acc : t * changes * bool) (entry : Z * StateTableInfo.t)
  : outcome (t * changes * bool) :=
  let '(self, changed_table, bumped) := acc in
  let '(table_id, new_info) := entry in
  if bool_decide (table_id ∈ removed_table_id) then Ret acc
  else
    let ms := compaction_group_member_tables self in
    let new_group := StateTableInfo.compaction_group_id new_info in
    match state_table_info self !! table_id with
    | Some prev_info =>
        let prev_group := StateTableInfo.compaction_group_id prev_info in
        let prev_epoch := StateTableInfo.committed_epoch prev_info in
        rassert (prev_epoch <=? StateTableInfo.committed_epoch new_info);;
        ms ← (if prev_group =? new_group then Ret ms
              else ms ← remove_table_from_compaction_group ms prev_group table_id; add_member ms new_group table_id);
        Ret (mk (<[table_id := new_info]> (state_table_info self)) ms, <[table_id := Some prev_info]> changed_table,
             bumped || (prev_epoch <? StateTableInfo.committed_epoch new_info))
    | None =>
        ms ← add_member ms new_group table_id;
        Ret (mk (<[table_id := new_info]> (state_table_info self)) ms, <[table_id := None]> changed_table, true)
    end.

Section order.
Context `{HashOrder}.

Definition build_compaction_group_member_tables (state_table_info : infos) : outcome members :=
  rfold (λ ret '(table_id, info), add_member ret (StateTableInfo.compaction_group_id info) table_id)
    (iter_map state_table_info) ∅.

Definition from_protobuf (state_table_info : infos) : outcome t :=
  ms ← build_compaction_group_member_tables state_table_info; Ret (mk state_table_info ms).

Definition apply_delta (self : t) (delta : infos) (removed_table_id : gset Z) : outcome (t * changes * bool) :=
  '(self, changed_table) ← rfold remove_step (iter_set removed_table_id) (self, ∅);
  rfold (delta_step removed_table_id) (iter_map delta) (self, changed_table, false).

End order.

End HummockVersionStateTableInfo.

(** ** Change logs *)
Module EpochNewChangeLog.

Record t := mk { new_value : list SstableInfo.t; old_value : list SstableInfo.t; epochs : list Z }.

End EpochNewChangeLog.

Module ChangeLogDelta.

Record t := mk { truncate_epoch : Z; new_log : option EpochNewChangeLog.t }.

End ChangeLogDelta.

Module TableChangeLog.

Abbreviation t := (list EpochNewChangeLog.t).

Definition last_epoch (log : EpochNewChangeLog.t) : outcome Z := unwrap (last (EpochNewChangeLog.epochs log)).
Definition first_epoch (log : EpochNewChangeLog.t) : outcome Z := unwrap (head (EpochNewChangeLog.epochs log)).

Definition filter_epoch (self : t) (min_epoch max_epoch : Z) : outcome t :=
  start ← rpartition_point (λ log, e ← last_epoch log; Ret (e <? min_epoch)) self;
  end_ ← rpartition_point (λ log, e ← first_epoch log; Ret (e <=? max_epoch)) self;
  rassert (start <=? end_)%nat;;
  Ret (take (end_ - start) (drop start self)).

Definition is_empty_log (log : EpochNewChangeLog.t) : bool :=
  bool_decide (EpochNewChangeLog.new_value log = []) && bool_decide (EpochNewChangeLog.old_value log = []).

Definition get_non_empty_epochs (self : t) (min_epoch : Z) (max_count : nat) : outcome (list Z) :=
  logs ← filter_epoch self min_epoch u64_max;
  let logs := filter (λ log, is_empty_log log = false) logs in
  Ret (take max_count (filter (λ a, min_epoch <= a) (mjoin (EpochNewChangeLog.epochs <$> logs)))).

Definition truncate (self : t) (truncate_epoch : Z) : outcome t :=
  logs ← rfilter (λ log, e ← last_epoch log; Ret (truncate_epoch <? e)) self;
  Ret (match logs with
       | first_log :: rest =>
           EpochNewChangeLog.mk (EpochNewChangeLog.new_value first_log) (EpochNewChangeLog.old_value first_log)
             (filter (λ epoch, truncate_epoch < epoch) (EpochNewChangeLog.epochs first_log)) :: rest
       | [] => []
       end).

End TableChangeLog.

(** [log.new_log.as_mut().unwrap().old_value.push(..)] (or [new_value]); [new_log] is set for
    every entry of the map. *)
Definition push_log (old : bool) (sst : SstableInfo.t) (delta : ChangeLogDelta.t) : ChangeLogDelta.t :=
  ChangeLogDelta.mk (ChangeLogDelta.truncate_epoch delta)
    ((λ log, if old
       then EpochNewChangeLog.mk (EpochNewChangeLog.new_value log) (EpochNewChangeLog.old_value log ++ [sst]) (EpochNewChangeLog.epochs log)
       else EpochNewChangeLog.mk (EpochNewChangeLog.new_value log ++ [sst]) (EpochNewChangeLog.old_value log) (EpochNewChangeLog.epochs log))
     <$> ChangeLogDelta.new_log delta).

Definition push_ssts (old : bool) (table_change_log : gmap Z ChangeLogDelta.t) (ssts : list SstableInfo.t)
  : gmap Z ChangeLogDelta.t :=
  foldl (λ m sst, foldl (λ m table_id, alter (push_log old sst) table_id m) m (SstableInfo.table_ids sst))
    table_change_log ssts.

Definition build_table_change_log_delta (old_value_ssts new_value_ssts : list SstableInfo.t) (epochs : list Z)
    (log_store_table_ids : list (Z * Z)) : gmap Z ChangeLogDelta.t :=
  let table_change_log := foldl (λ (m : gmap Z ChangeLogDelta.t) '(table_id, truncate_epoch),
    <[table_id := ChangeLogDelta.mk truncate_epoch (Some (EpochNewChangeLog.mk [] [] epochs))]> m) ∅ log_store_table_ids in
  push_ssts false (push_ssts true table_change_log old_value_ssts) new_value_ssts.

(** ** Deltas *)

(** [PbGroupConstruct]; of [group_config] the number of levels. *)
Module GroupConstruct.

Record t := mk {
  group_config : option nat;
  parent_group_id : Z;
  table_ids : list Z;
  group_id : Z;
  new_sst_start_id : Z;
  version : Z;
  split_key : option (list byte)
}.

End GroupConstruct.

(** [CompatibilityVersion] *)
Definition NoMemberTableIds : Z := 2.
Definition SplitGroupByTableId : Z := 3.

Module GroupDelta.

Inductive t :=
  | NewL0SubLevel (inserted_table_infos : list SstableInfo.t)
  | IntraLevel (level_delta : IntraLevelDelta.t)
  | GroupConstruct (group_construct : GroupConstruct.t)
  | GroupDestroy
  | GroupMerge (left_group_id right_group_id : Z).

End GroupDelta.

Module HummockVersionDelta.

Record t := mk {
  id : Z;
  prev_id : Z;
  group_deltas : gmap Z (list GroupDelta.t);
  max_committed_epoch : Z;
  trivial_move : bool;
  new_table_watermarks : gmap Z TableWatermarks.t;
  removed_table_ids : gset Z;
  change_log_delta : gmap Z ChangeLogDelta.t;
  state_table_info_delta : gmap Z StateTableInfo.t
}.

End HummockVersionDelta.

(** ** Versions *)
Module HummockVersionCommon.

Record t := mk {
  id : Z;
  levels : gmap Z Levels.t;
  max_committed_epoch : Z;
  table_watermarks : gmap Z TableWatermarks.t;
  table_change_log : gmap Z TableChangeLog.t;
  state_table_info : HummockVersionStateTableInfo.t
}.

(** [FIRST_VERSION_ID], [StateDefault] and [MaterializedView] *)
Definition FIRST_VERSION_ID : Z := 1.
Definition StateDefault : Z := 2.
Definition MaterializedView : Z := 3.

Definition create_init_version (max_level : nat) : t :=
  mk FIRST_VERSION_ID
    (<[MaterializedView := build_initial_compaction_group_levels MaterializedView max_level]>
       {[ StateDefault := build_initial_compaction_group_levels StateDefault max_level ]})
    Epoch.INVALID_EPOCH ∅ ∅ HummockVersionStateTableInfo.empty.

Definition next_version_id (self : t) : Z := wrap 64 (id self + 1).

Definition version_delta_after (self : t) : HummockVersionDelta.t :=
  HummockVersionDelta.mk (next_version_id self) (id self) ∅ (max_committed_epoch self) false ∅ ∅ ∅ ∅.

Definition table_committed_epoch (self : t) (table_id : Z) : option Z :=
  StateTableInfo.committed_epoch <$> HummockVersionStateTableInfo.state_table_info (state_table_info self) !! table_id.

(** The member tables of a group, in the order of the [BTreeSet]. *)
Definition member_list (info : HummockVersionStateTableInfo.t) (compaction_group_id : Z) : list Z :=
  btree_set (elements (HummockVersionStateTableInfo.compaction_group_member_table_ids info compaction_group_id)).

(** A new group, possibly split off a parent. *)
Definition construct_group (info : HummockVersionStateTableInfo.t) (compaction_group_id : Z) (gc : GroupConstruct.t)
    (levels : gmap Z Levels.t) : outcome (gmap Z Levels.t) :=
  max_level ← unwrap (GroupConstruct.group_config gc);
  let initial := build_initial_compaction_group_levels compaction_group_id max_level in
  let parent_group_id := GroupConstruct.parent_group_id gc in
  let new_levels := Levels.mk (Levels.levels initial) (Levels.l0 initial) (Levels.group_id initial)
    parent_group_id (GroupConstruct.table_ids gc) in
  let levels := <[compaction_group_id := new_levels]> levels in
  let member_table_ids :=
    if NoMemberTableIds <=? GroupConstruct.version gc then member_list info compaction_group_id
    else btree_set (GroupConstruct.table_ids gc) in
  if SplitGroupByTableId <=? GroupConstruct.version gc
  then HummockVersion.init_with_parent_group_v2 levels parent_group_id compaction_group_id
         (GroupConstruct.new_sst_start_id gc) (GroupConstruct.split_key gc)
  else HummockVersion.init_with_parent_group levels parent_group_id compaction_group_id member_table_ids
         (GroupConstruct.new_sst_start_id gc).

(** A new sub-level of L0, unless there is nothing to insert. *)
Definition add_l0 (group : Levels.t) (sub_level_id : Z) (tables : list SstableInfo.t) : outcome Levels.t :=
  if bool_decide (tables = []) then Ret group
  else
    l0 ← insert_new_sub_level (Levels.l0 group) sub_level_id LevelType.Overlapping tables None;
    Ret (Levels.with_l0 group l0).

Definition next_l0_sub_level_id (group : Levels.t) : Z :=
  match last (OverlappingLevel.sub_levels (Levels.l0 group)) with
  | Some level => wrap 64 (Level.sub_level_id level + 1)
  | None => 1
  end.

(** The body of the loop over the deltas of a group: the levels and [is_applied_l0_compact]. *)
Definition group_delta_step (info : HummockVersionStateTableInfo.t) (is_commit_epoch : bool) (compaction_group_id : Z)
    (acc : gmap Z Levels.t * bool) (group_delta : GroupDelta.t) : outcome (gmap Z Levels.t * bool) :=
  let '(levels, is_applied_l0_compact) := acc in
  match group_delta with
  | GroupDelta.GroupConstruct gc =>
      levels ← construct_group info compaction_group_id gc levels; Ret (levels, is_applied_l0_compact)
  | GroupDelta.GroupMerge left_group_id right_group_id =>
      levels ← HummockVersion.merge_compaction_group levels (member_list info left_group_id)
        (member_list info right_group_id) left_group_id right_group_id;
      Ret (levels, is_applied_l0_compact)
  | GroupDelta.IntraLevel level_delta =>
      group ← unwrap (levels !! compaction_group_id);
      if is_commit_epoch then
        rassert (bool_decide (IntraLevelDelta.removed_table_ids level_delta = ∅));;
        rassert (IntraLevelDelta.level_idx level_delta =? 0);;
        group ← add_l0 group (IntraLevelDelta.l0_sub_level_id level_delta) (IntraLevelDelta.inserted_table_infos level_delta);
        Ret (<[compaction_group_id := group]> levels, is_applied_l0_compact)
      else
        group ← apply_compact_ssts group level_delta (member_list info compaction_group_id);
        Ret (<[compaction_group_id := group]> levels,
             if IntraLevelDelta.level_idx level_delta =? 0 then true else is_applied_l0_compact)
  | GroupDelta.NewL0SubLevel inserted_table_infos =>
      group ← unwrap (levels !! compaction_group_id);
      rassert is_commit_epoch;;
      group ← add_l0 group (next_l0_sub_level_id group) inserted_table_infos;
      Ret (<[compaction_group_id := group]> levels, is_applied_l0_compact)
  | GroupDelta.GroupDestroy => Ret (delete compaction_group_id levels, is_applied_l0_compact)
  end.

Definition group_deltas_step (info : HummockVersionStateTableInfo.t) (is_commit_epoch : bool) (levels : gmap Z Levels.t)
    (entry : Z * list GroupDelta.t) : outcome (gmap Z Levels.t) :=
  '(levels, is_applied_l0_compact) ← rfold (group_delta_step info is_commit_epoch entry.1) entry.2 (levels, false);
  Ret (if (is_applied_l0_compact : bool) then alter post_apply_l0_compact entry.1 levels else levels).

(** ** Table watermarks *)

(** Tables whose watermarks change: the new ones, or [None] to remove them. *)
Abbreviation modified := (gmap Z (option TableWatermarks.t)).

Definition new_watermarks_step (current : gmap Z TableWatermarks.t) (removed_table_ids : gset Z) (acc : modified)
    (entry : Z * TableWatermarks.t) : outcome modified :=
  let '(table_id, table_watermarks) := entry in
  match current !! table_id with
  | Some current_table_watermarks =>
      if bool_decide (table_id ∈ removed_table_ids) then Ret (<[table_id := None]> acc)
      else
        ws ← TableWatermarks.apply_new_table_watermarks current_table_watermarks table_watermarks;
        Ret (<[table_id := Some ws]> acc)
  | None => Ret (<[table_id := Some table_watermarks]> acc)
  end.

Definition clear_watermarks_step (infos : gmap Z StateTableInfo.t) (acc : modified) (entry : Z * TableWatermarks.t)
  : outcome modified :=
  let '(table_id, table_watermarks) := entry in
  match infos !! table_id, head (TableWatermarks.watermarks table_watermarks) with
  | Some info, Some (oldest_epoch, _) =>
      let safe_epoch := StateTableInfo.committed_epoch info in
      if oldest_epoch <? safe_epoch then
        match default (Some table_watermarks) (acc !! table_id) with
        | Some ws =>
            ws ← TableWatermarks.clear_stale_epoch_watermark ws safe_epoch;
            Ret (<[table_id := Some ws]> acc)
        | None => Ret (<[table_id := None]> acc)
        end
      else Ret acc
  | _, _ => Ret acc
  end.

Definition store_watermarks (current : gmap Z TableWatermarks.t) (entry : Z * option TableWatermarks.t)
  : gmap Z TableWatermarks.t :=
  match entry.2 with Some ws => <[entry.1 := ws]> current | None => delete entry.1 current end.

(** ** Change logs of a version *)

(** The first loop: append the new log. *)
Definition append_log_step (acc : gmap Z TableChangeLog.t) (entry : Z * ChangeLogDelta.t) : outcome (gmap Z TableChangeLog.t) :=
  let '(table_id, delta) := entry in
  new_change_log ← unwrap (ChangeLogDelta.new_log delta);
  match acc !! table_id with
  | Some change_log =>
      _ ← match last change_log with
          | Some prev_log =>
              p ← TableChangeLog.last_epoch prev_log; n ← TableChangeLog.first_epoch new_change_log; rassert (p <? n)
          | None => Ret tt
          end;
      Ret (<[table_id := change_log ++ [new_change_log]]> acc)
  | None => Ret (<[table_id := [new_change_log]]> acc)
  end.

(** The predicate of [retain]. *)
Definition keep_log (change_log_delta : gmap Z ChangeLogDelta.t) (removed_table_ids : gset Z)
    (state_table_info_delta : gmap Z StateTableInfo.t) (changed_table_info : HummockVersionStateTableInfo.changes)
    (table_id : Z) : bool :=
  if bool_decide (table_id ∈ removed_table_ids) then false
  else match state_table_info_delta !! table_id, changed_table_info !! table_id with
       | Some table_info_delta, Some (Some prev_table_info) =>
           if StateTableInfo.committed_epoch prev_table_info <? StateTableInfo.committed_epoch table_info_delta
           then bool_decide (is_Some (change_log_delta !! table_id))
           else true
       | _, _ => true
       end.

Definition truncate_log_step (acc : gmap Z TableChangeLog.t) (entry : Z * ChangeLogDelta.t) : outcome (gmap Z TableChangeLog.t) :=
  match acc !! entry.1 with
  | Some change_log =>
      change_log ← TableChangeLog.truncate change_log (ChangeLogDelta.truncate_epoch entry.2);
      Ret (<[entry.1 := change_log]> acc)
  | None => Ret acc
  end.

Section order.
Context `{HashOrder}.

Definition apply_change_log_delta (table_change_log : gmap Z TableChangeLog.t) (change_log_delta : gmap Z ChangeLogDelta.t)
    (removed_table_ids : gset Z) (state_table_info_delta : gmap Z StateTableInfo.t)
    (changed_table_info : HummockVersionStateTableInfo.changes) : outcome (gmap Z TableChangeLog.t) :=
  logs ← rfold append_log_step (iter_map change_log_delta) table_change_log;
  let logs := filter (λ entry, keep_log change_log_delta removed_table_ids state_table_info_delta changed_table_info
    entry.1 = true) logs in
  rfold truncate_log_step (iter_map change_log_delta) logs.

(** The watermarks of a version after a delta; [infos] is the state-table information after
    the delta. *)
Definition apply_watermarks (infos : gmap Z StateTableInfo.t) (current new : gmap Z TableWatermarks.t)
    (removed_table_ids : gset Z) : outcome (gmap Z TableWatermarks.t) :=
  changed ← rfold (new_watermarks_step current removed_table_ids) (iter_map new) ∅;
  changed ← rfold (clear_watermarks_step infos) (iter_map current) changed;
  Ret (foldl store_watermarks current (iter_map changed)).

Definition apply_version_delta (self : t) (version_delta : HummockVersionDelta.t) : outcome t :=
  rassert (id self =? HummockVersionDelta.prev_id version_delta);;
  '(info, changed_table_info, is_commit_epoch) ← HummockVersionStateTableInfo.apply_delta (state_table_info self)
    (HummockVersionDelta.state_table_info_delta version_delta) (HummockVersionDelta.removed_table_ids version_delta);
  let is_commit_epoch := is_commit_epoch ||
    (max_committed_epoch self <? HummockVersionDelta.max_committed_epoch version_delta) in
  levels ← rfold (group_deltas_step info is_commit_epoch) (iter_map (HummockVersionDelta.group_deltas version_delta))
    (levels self);
  watermarks ← apply_watermarks (HummockVersionStateTableInfo.state_table_info info) (table_watermarks self)
    (HummockVersionDelta.new_table_watermarks version_delta) (HummockVersionDelta.removed_table_ids version_delta);
  logs ← apply_change_log_delta (table_change_log self) (HummockVersionDelta.change_log_delta version_delta)
    (HummockVersionDelta.removed_table_ids version_delta) (HummockVersionDelta.state_table_info_delta version_delta)
    changed_table_info;
  Ret (mk (HummockVersionDelta.id version_delta) levels (HummockVersionDelta.max_committed_epoch version_delta)
         watermarks logs info).

End order.

(** ** [validate_version] *)

(** The messages, without their text. *)
Inductive ValidateError :=
  | InconsistentGroupId (group_id levels_group_id : Z)
  | EmptySubLevel (group_id sub_level_id : Z)
  | NotNonOverlapping (group_id level_idx : Z)
  | MismatchedLevelIdx (group_id level_idx expected_level_idx : Z)
  | TableIdsNotSorted (group_id level_idx object_id : Z)
  | KeyRangesOverlap (group_id level_idx object_id : Z)
  | SubLevelIdOrder (group_id level_idx prev_sub_level_id : Z).

(** [is_sorted_by(|a, b| a < b)] *)
Fixpoint strictly_sorted (l : list Z) : bool :=
  match l with
  | a :: ((b :: _) as l') => (a <? b) && strictly_sorted l'
  | _ => true
  end.

Definition validate_table (group : Z) (level : Level.t) (acc : list ValidateError * option SstableInfo.t)
    (table_info : SstableInfo.t) : outcome (list ValidateError * option SstableInfo.t) :=
  let '(res, prev_table_info) := acc in
  let res := if strictly_sorted (SstableInfo.table_ids table_info) then res
             else res ++ [TableIdsNotSorted group (Level.level_idx level) (SstableInfo.object_id table_info)] in
  if bool_decide (Level.level_type level = LevelType.Nonoverlapping) then
    res ← match prev_table_info with
          | Some prev =>
              c ← KeyRange.compare_right_with (SstableInfo.key_range prev) (KeyRange.left (SstableInfo.key_range table_info));
              Ret (match c with
                   | Lt => res
                   | _ => res ++ [KeyRangesOverlap group (Level.level_idx level) (SstableInfo.object_id table_info)]
                   end)
          | None => Ret res
          end;
    Ret (res, Some table_info)
  else Ret (res, prev_table_info).

Definition validate_level (group expected_level_idx : Z) (level : Level.t) (res : list ValidateError)
  : outcome (list ValidateError) :=
  let res :=
    if Level.level_idx level =? 0 then
      if no_tables level then res ++ [EmptySubLevel group (Level.sub_level_id level)] else res
    else if bool_decide (Level.level_type level = LevelType.Nonoverlapping) then res
    else res ++ [NotNonOverlapping group (Level.level_idx level)] in
  let res := if Level.level_idx level =? expected_level_idx then res
             else res ++ [MismatchedLevelIdx group (Level.level_idx level) expected_level_idx] in
  fst <$> rfold (validate_table group level) (Level.table_infos level) (res, None).

Definition validate_sub_level (group_id : Z) (acc : list ValidateError * Z) (sub_level : Level.t)
  : outcome (list ValidateError * Z) :=
  let '(res, prev_sub_level_id) := acc in
  let res := if prev_sub_level_id <=? Level.sub_level_id sub_level
             then res ++ [SubLevelIdOrder group_id (Level.level_idx sub_level) prev_sub_level_id] else res in
  res ← validate_level group_id 0 sub_level res;
  Ret (res, Level.sub_level_id sub_level).

Definition validate_group (res : list ValidateError) (entry : Z * Levels.t) : outcome (list ValidateError) :=
  let '(group_id, levels) := entry in
  let res := if Levels.group_id levels =? group_id then res
             else res ++ [InconsistentGroupId group_id (Levels.group_id levels)] in
  '(res, _) ← rfold (validate_sub_level group_id) (OverlappingLevel.sub_levels (Levels.l0 levels)) (res, u64_max);
  rfold (λ res '(idx, level), validate_level group_id (Z.of_nat (idx + 1)) level res)
    (imap pair (Levels.levels levels)) res.

Definition validate_version `{HashOrder} (version : t) : outcome (list ValidateError) :=
  rfold validate_group (iter_map (levels version)) [].

End HummockVersionCommon.
