(* ===== verification/StateTableSpec.v ===== *)
(** * The state-table index of a version

    [HummockVersionStateTableInfo::apply_delta] ([Version.v]): whatever the iteration order of
    the hash maps, it panics exactly when a committed epoch would regress, applies exactly the
    delta, and keeps the index from compaction groups to member tables. *)

From Stdlib Require Import ZArith Lia.
From stdpp Require Import gmap fin_maps.
From S2P Require Import Prelude Order Bytes Epoch Bits Bitmap Vnode Key KeySpec KeyRange Watermark Sst Level Split Version.

Import HummockVersionStateTableInfo.

Implicit Types (ms : gmap Z (gset Z)) (infos : gmap Z StateTableInfo.t) (i : StateTableInfo.t) (g t : Z).

(** ** The index *)

Definition member ms g t : Prop := ∃ ts : gset Z, ms !! g = Some ts ∧ t ∈ ts.

(** The member tables of every group, without empty groups. *)
Definition index_of infos ms : Prop :=
  (∀ g t, member ms g t ↔ ∃ i, infos !! t = Some i ∧ StateTableInfo.compaction_group_id i = g) ∧
  ∀ g (ts : gset Z), ms !! g = Some ts → ts ≠ ∅.

Definition index_ok (self : HummockVersionStateTableInfo.t) : Prop :=
  index_of (state_table_info self) (compaction_group_member_tables self).

Lemma index_ok_empty : index_ok HummockVersionStateTableInfo.empty.
Proof. split; [|intros g ts; cbn; by rewrite lookup_empty]. intros g t. unfold member. cbn. setoid_rewrite lookup_empty. naive_solver. Qed.

Lemma member_default ms g t : member ms g t ↔ t ∈ (default ∅ (ms !! g) : gset Z).
Proof. unfold member. destruct (ms !! g) as [ts|]; simpl; set_solver. Qed.

Lemma member_insert ms g (ts : gset Z) g' t : member (<[g := ts]> ms) g' t ↔ if decide (g = g') then t ∈ ts else member ms g' t.
Proof.
  unfold member. destruct (decide (g = g')) as [->|Hne].
  - rewrite lookup_insert_eq. naive_solver.
  - by rewrite lookup_insert_ne.
Qed.

Lemma add_member_ok infos ms i t :
  index_of infos ms → infos !! t = None →
  ∃ ms', add_member ms (StateTableInfo.compaction_group_id i) t = Ret ms' ∧ index_of (<[t := i]> infos) ms'.
Proof.
  intros [Hm Hne] Ht. set (g := StateTableInfo.compaction_group_id i). unfold add_member.
  assert (¬ member ms g t) as Hnot by (rewrite Hm; intros (? & ? & _); congruence).
  rewrite member_default in Hnot. rewrite bool_decide_eq_true_2 by done. cbn [rassert mbind outcome_bind].
  eexists. split; [reflexivity|]. split.
  - intros g' t'. rewrite member_insert. destruct (decide (t = t')) as [<-|Htt].
    + rewrite lookup_insert_eq. destruct (decide (g = g')) as [<-|Hgg]; [set_solver|].
      rewrite Hm, Ht. naive_solver.
    + rewrite lookup_insert_ne by done. rewrite <-Hm. destruct (decide (g = g')) as [<-|]; [|done].
      rewrite member_default. set_solver.
  - intros g' ts. destruct (decide (g = g')) as [<-|]; [rewrite lookup_insert_eq; intros [= <-]; set_solver|].
    rewrite lookup_insert_ne by done. apply Hne.
Qed.

Lemma remove_member_ok infos ms i t :
  index_of infos ms → infos !! t = Some i →
  ∃ ms', remove_table_from_compaction_group ms (StateTableInfo.compaction_group_id i) t = Ret ms' ∧
    index_of (delete t infos) ms'.
Proof.
  intros [Hm Hne] Ht. set (g := StateTableInfo.compaction_group_id i). unfold remove_table_from_compaction_group.
  assert (member ms g t) as (ts & Hts & Hin) by (apply Hm; by exists i). rewrite Hts. cbn [unwrap mbind outcome_bind].
  rewrite (bool_decide_eq_true_2 (t ∈ ts)) by done. cbn [rassert mbind outcome_bind]. eexists. split; [reflexivity|].
  assert (∀ g' t', (∃ j, delete t infos !! t' = Some j ∧ StateTableInfo.compaction_group_id j = g') ↔ t' ≠ t ∧ member ms g' t') as Hd.
  { intros g' t'. rewrite Hm. destruct (decide (t = t')) as [<-|]; [rewrite lookup_delete_eq; naive_solver|].
    rewrite lookup_delete_ne by done. naive_solver. }
  assert (∀ t', member ms g t' ↔ t' ∈ ts) as Hg by (intros t'; unfold member; rewrite Hts; naive_solver).
  assert (∀ g', g' ≠ g → ¬ member ms g' t) as Hother.
  { intros g' Hg' (j & Hj & Hj')%Hm. rewrite Ht in Hj. injection Hj as <-. by apply Hg'. }
  split; [intros g' t'; rewrite Hd|].
  - case_bool_decide as He.
    + unfold member at 1. destruct (decide (g = g')) as [<-|Hgg]; [rewrite lookup_delete_eq, Hg; set_solver|].
      rewrite lookup_delete_ne by done. split; [|intros [_ H]; exact H]. intros H. split; [|exact H]. intros ->. by apply (Hother g').
    + rewrite member_insert. destruct (decide (g = g')) as [<-|Hgg]; [rewrite Hg; set_solver|].
      split; [|tauto]. intros H. split; [|exact H]. intros ->. by apply (Hother g').
  - intros g' ts'. case_bool_decide as He.
    + destruct (decide (g = g')) as [<-|]; [by rewrite lookup_delete_eq|]. rewrite lookup_delete_ne by done. apply Hne.
    + destruct (decide (g = g')) as [<-|]; [rewrite lookup_insert_eq; by intros [= <-]|]. rewrite lookup_insert_ne by done. apply Hne.
Qed.

(** Inserting again after removing overwrites. *)
Lemma move_member_ok infos ms i j t :
  index_of infos ms → infos !! t = Some i →
  ∃ ms', (if (StateTableInfo.compaction_group_id i =? StateTableInfo.compaction_group_id j)%Z then Ret ms
          else ms ← remove_table_from_compaction_group ms (StateTableInfo.compaction_group_id i) t;
               add_member ms (StateTableInfo.compaction_group_id j) t) = Ret ms' ∧
    index_of (<[t := j]> infos) ms'.
Proof.
  intros Hix Ht. destruct (Z.eqb_spec (StateTableInfo.compaction_group_id i) (StateTableInfo.compaction_group_id j)) as [E|_].
  - exists ms. split; [done|]. destruct Hix as [Hm Hne]. split; [|done]. intros g t'. rewrite Hm.
    destruct (decide (t = t')) as [<-|]; [|by rewrite lookup_insert_ne]. rewrite lookup_insert_eq, Ht. naive_solver.
  - destruct (remove_member_ok infos ms i t Hix Ht) as (ms1 & -> & H1). cbn [mbind outcome_bind].
    destruct (add_member_ok (delete t infos) ms1 j t H1) as (ms2 & -> & H2); [apply lookup_delete_eq|].
    exists ms2. split; [done|]. by rewrite insert_delete_eq in H2.
Qed.

(** The index is determined by the information of the tables. *)
Lemma index_unique infos ms1 ms2 : index_of infos ms1 → index_of infos ms2 → ms1 = ms2.
Proof.
  intros [H1 N1] [H2 N2]. apply map_eq. intros g.
  assert (∀ t, member ms1 g t ↔ member ms2 g t) as Hm by (intros t; by rewrite H1, H2).
  destruct (ms1 !! g) as [ts1|] eqn:E1, (ms2 !! g) as [ts2|] eqn:E2; [| | |done].
  - f_equal. apply set_eq. intros t. specialize (Hm t). unfold member in Hm. rewrite E1, E2 in Hm. naive_solver.
  - destruct (set_choose_L ts1 (N1 _ _ E1)) as [t Ht]. destruct (proj1 (Hm t)) as (? & ? & _); [by exists ts1|congruence].
  - destruct (set_choose_L ts2 (N2 _ _ E2)) as [t Ht]. destruct (proj2 (Hm t)) as (? & ? & _); [by exists ts2|congruence].
Qed.

(** ** The loops of [apply_delta] *)

Lemma remove_loop l : ∀ (self : HummockVersionStateTableInfo.t) (changed : changes),
  NoDup l → index_ok self → (∀ t, t ∈ l → changed !! t = None) →
  ∃ (self' : HummockVersionStateTableInfo.t) (changed' : changes),
    rfold remove_step l (self, changed) = Ret (self', changed') ∧ index_ok self' ∧
    (∀ t, state_table_info self' !! t = if decide (t ∈ l) then None else state_table_info self !! t) ∧
    (∀ t, changed' !! t = if decide (t ∈ l) then (Some <$> (state_table_info self !! t)) else changed !! t).
Proof.
  induction l as [|x l IH]; intros self changed Hnd Hix Hch.
  { exists self, changed. split; [done|]. split; [done|]. split; intros t; by rewrite decide_False by set_solver. }
  apply NoDup_cons in Hnd as [Hx Hnd]. cbn [rfold remove_step]. destruct (state_table_info self !! x) as [i|] eqn:Ei.
  - destruct (remove_member_ok _ _ i x Hix Ei) as (ms & -> & Hix'). cbn [mbind outcome_bind].
    rewrite bool_decide_eq_true_2 by (apply Hch; set_solver). cbn [rassert mbind outcome_bind].
    destruct (IH (mk (delete x (state_table_info self)) ms) (<[x := Some i]> changed)) as (self' & changed' & Hrun & Hix2 & Hi & Hc); [done|done| |].
    { intros t Ht. rewrite lookup_insert_ne by set_solver. apply Hch. set_solver. }
    exists self', changed'. split; [done|]. split; [done|]. cbn [state_table_info] in Hi, Hc. split; intros t.
    + rewrite Hi. destruct (decide (x = t)) as [<-|Hne]; [rewrite lookup_delete_eq, (decide_True (P := x ∈ x :: l)) by set_solver; by destruct (decide _)|].
      rewrite lookup_delete_ne by done. apply decide_ext. set_solver.
    + rewrite Hc. destruct (decide (x = t)) as [<-|Hne].
      * rewrite decide_False by done. rewrite lookup_insert_eq, decide_True by set_solver. by rewrite Ei.
      * rewrite lookup_insert_ne, lookup_delete_ne by done. apply decide_ext. set_solver.
  - cbn [mbind outcome_bind]. destruct (IH self changed) as (self' & changed' & Hrun & Hix2 & Hi & Hc); [done|done|set_solver|].
    exists self', changed'. split; [done|]. split; [done|]. split; intros t.
    + rewrite Hi. destruct (decide (x = t)) as [<-|Hne]; [rewrite Ei; by do 2 destruct (decide _)|]. apply decide_ext. set_solver.
    + rewrite Hc. destruct (decide (x = t)) as [<-|Hne]; [|apply decide_ext; set_solver].
      rewrite decide_False by done. rewrite decide_True by set_solver. rewrite Ei. apply Hch. set_solver.
Qed.

(** The new information of table [t] in the delta, unless the table is removed. *)
Definition update (removed : gset Z) (delta : gmap Z StateTableInfo.t) t : option StateTableInfo.t :=
  if decide (t ∈ removed) then None else delta !! t.

Definition advances infos (removed : gset Z) (entry : Z * StateTableInfo.t) : bool :=
  bool_decide (entry.1 ∈ removed) ||
  match infos !! entry.1 with
  | Some prev => (StateTableInfo.committed_epoch prev <=? StateTableInfo.committed_epoch entry.2)%Z
  | None => true
  end.

Definition bumps infos (removed : gset Z) (entry : Z * StateTableInfo.t) : bool :=
  negb (bool_decide (entry.1 ∈ removed)) &&
  match infos !! entry.1 with
  | Some prev => (StateTableInfo.committed_epoch prev <? StateTableInfo.committed_epoch entry.2)%Z
  | None => true
  end.

(** One entry of the delta. *)
Lemma delta_step_ok removed (self : HummockVersionStateTableInfo.t) (changed : changes) (bumped : bool) entry :
  index_ok self →
  let infos := state_table_info self in
  if advances infos removed entry then
    ∃ self', delta_step removed (self, changed, bumped) entry =
      Ret (self', (if decide (entry.1 ∈ removed) then changed else <[entry.1 := infos !! entry.1]> changed),
           bumped || bumps infos removed entry) ∧ index_ok self' ∧
      state_table_info self' = (if decide (entry.1 ∈ removed) then infos else <[entry.1 := entry.2]> infos)
  else delta_step removed (self, changed, bumped) entry = Panic.
Proof.
  intros Hix infos. destruct entry as [t j]. unfold advances, bumps, delta_step. cbn [fst snd]. unfold infos.
  case_bool_decide as Hr; cbn [orb andb negb].
  { exists self. rewrite orb_false_r, !decide_True by done. done. }
  destruct (state_table_info self !! t) as [i|] eqn:Ei.
  - destruct (_ <=? _)%Z; [|done]. cbn [rassert mbind outcome_bind].
    destruct (move_member_ok _ _ i j t Hix Ei) as (ms & -> & Hix'). cbn [mbind outcome_bind].
    exists (mk (<[t := j]> (state_table_info self)) ms). by rewrite !decide_False by done.
  - destruct (add_member_ok _ _ j t Hix Ei) as (ms & -> & Hix'). cbn [mbind outcome_bind].
    exists (mk (<[t := j]> (state_table_info self)) ms). by rewrite !decide_False, orb_true_r by done.
Qed.

Lemma delta_loop removed l : ∀ (self : HummockVersionStateTableInfo.t) (changed : changes) (bumped : bool),
  NoDup l.*1 → index_ok self →
  let infos := state_table_info self in
  let delta : gmap Z StateTableInfo.t := list_to_map l in
  if forallb (advances infos removed) l then
    ∃ (self' : HummockVersionStateTableInfo.t) (changed' : changes),
      rfold (delta_step removed) l (self, changed, bumped) = Ret (self', changed', bumped || existsb (bumps infos removed) l) ∧
      index_ok self' ∧
      (∀ t, state_table_info self' !! t = match update removed delta t with Some j => Some j | None => infos !! t end) ∧
      (∀ t, changed' !! t = match update removed delta t with Some _ => Some (infos !! t) | None => changed !! t end)
  else rfold (delta_step removed) l (self, changed, bumped) = Panic.
Proof.
  induction l as [|[x j] l IH]; intros self changed bumped Hnd Hix infos delta.
  { exists self, changed. rewrite orb_false_r. split; [done|]. split; [done|]. unfold delta, update.
    split; intros t; by destruct (decide _). }
  apply NoDup_cons in Hnd as [Hx Hnd]. pose proof (delta_step_ok removed self changed bumped (x, j) Hix) as Hstep.
  cbn [forallb rfold]. cbv zeta in Hstep. fold infos in Hstep. destruct (advances infos removed (x, j)); cbn [andb]; [|by rewrite Hstep].
  destruct Hstep as (self1 & -> & Hix1 & Hinfos1). cbn [mbind outcome_bind fst snd] in *.
  set (changed1 := if decide (x ∈ removed) then changed else <[x := infos !! x]> changed).
  specialize (IH self1 changed1 (bumped || bumps infos removed (x, j)) Hnd Hix1). cbv zeta in IH.
  assert (∀ y k, (y, k) ∈ l → state_table_info self1 !! y = infos !! y) as Hsame.
  { intros y k Hy. rewrite Hinfos1. destruct (decide _); [done|]. apply lookup_insert_ne. intros ->. apply Hx, list_elem_of_fmap.
    by exists (y, k). }
  assert (forallb (advances (state_table_info self1) removed) l = forallb (advances infos removed) l ∧
    existsb (bumps (state_table_info self1) removed) l = existsb (bumps infos removed) l) as [E1 E2].
  { clear -Hsame. induction l as [|[y k] l IHl]; [done|]. cbn [forallb existsb]. destruct IHl as [-> ->]; [intros; eapply Hsame; by right|].
    unfold advances at 1, bumps at 1. cbn [fst snd]. by rewrite (Hsame y k (list_elem_of_here _ _)). }
  rewrite E1, E2 in IH. destruct (forallb (advances infos removed) l); [|done].
  destruct IH as (self' & changed' & Hrun & Hix' & Hi & Hc). exists self', changed'. split; [cbn [existsb]; by rewrite Hrun, orb_assoc|]. split; [done|].
  assert (list_to_map l !! x = (None : option StateTableInfo.t)) as Hnone by (by apply not_elem_of_list_to_map_1).
  split; intros t.
  - rewrite Hi, Hinfos1. unfold update, delta. rewrite list_to_map_cons. destruct (decide (t ∈ removed)), (decide (x ∈ removed)), (decide (x = t)) as [<-|];
      rewrite ?lookup_insert_eq, ?lookup_insert_ne, ?Hnone by done; done.
  - rewrite Hc, Hinfos1. unfold update, delta, changed1. rewrite list_to_map_cons. destruct (decide (t ∈ removed)), (decide (x ∈ removed)), (decide (x = t)) as [<-|];
      rewrite ?lookup_insert_eq, ?lookup_insert_ne, ?Hnone by done; done.
Qed.

(** ** Properties *)

Section theorems.
Context `{HashOrder}.

Lemma iter_map_to_map {A} (m : gmap Z A) : list_to_map (iter_map m) = m ∧ NoDup (iter_map m).*1.
Proof.
  pose proof (iter_map_perm m) as Hp. split.
  - rewrite <-(list_to_map_to_list m) at 2. apply list_to_map_proper; [|done]. rewrite Hp. apply NoDup_fst_map_to_list.
  - rewrite Hp. apply NoDup_fst_map_to_list.
Qed.

Lemma iter_map_elem {A} (m : gmap Z A) k a : (k, a) ∈ iter_map m ↔ m !! k = Some a.
Proof. rewrite (iter_map_perm m). apply elem_of_map_to_list. Qed.

Lemma from_protobuf_ok infos : ∃ self, from_protobuf infos = Ret self ∧ index_ok self ∧ state_table_info self = infos.
Proof.
  assert (∀ l (m : gmap Z StateTableInfo.t) ms, NoDup l.*1 → index_of m ms → (∀ t, t ∈ l.*1 → m !! t = None) →
    ∃ ms', rfold (λ ret '(table_id, info), add_member ret (StateTableInfo.compaction_group_id info) table_id) l ms = Ret ms' ∧
      index_of (list_to_map l ∪ m) ms') as Hloop.
  { induction l as [|[t i] l IH]; intros m ms Hnd Hix Hnew; [exists ms; by rewrite list_to_map_nil, (left_id_L ∅ (∪))|].
    apply NoDup_cons in Hnd as [Ht Hnd]. cbn [rfold].
    destruct (add_member_ok m ms i t Hix) as (ms1 & -> & Hix1); [apply Hnew; by left|]. cbn [mbind outcome_bind].
    destruct (IH (<[t := i]> m) ms1 Hnd Hix1) as (ms' & Hrun & Hix').
    { intros t' Ht'. rewrite lookup_insert_ne by (intros ->; done). apply Hnew. by right. }
    exists ms'. split; [done|]. rewrite list_to_map_cons, <-insert_union_l.
    rewrite <-insert_union_r in Hix'; [done|by apply not_elem_of_list_to_map_1]. }
  destruct (iter_map_to_map infos) as [Hl Hnd].
  destruct (Hloop (iter_map infos) ∅ ∅ Hnd) as (ms & Hrun & Hix); [|done|].
  { apply index_ok_empty. }
  rewrite Hl, (right_id_L ∅ (∪)) in Hix. exists (mk infos ms). split; [|done].
  unfold from_protobuf, build_compaction_group_member_tables. by rewrite Hrun.
Qed.

Lemma apply_delta_exact (self : HummockVersionStateTableInfo.t) (delta : gmap Z StateTableInfo.t) (removed : gset Z) :
  let infos := state_table_info self in
  index_ok self →
   (returns (apply_delta self delta removed) ↔
     ∀ t i j, delta !! t = Some j → t ∉ removed → infos !! t = Some i →
       (StateTableInfo.committed_epoch i <= StateTableInfo.committed_epoch j)%Z) ∧
   ∀ (self' : HummockVersionStateTableInfo.t) (changed : changes) (bumped : bool),
     apply_delta self delta removed = Ret (self', changed, bumped) →
     index_ok self' ∧
     (∀ t, state_table_info self' !! t =
       if decide (t ∈ removed) then None else match delta !! t with Some j => Some j | None => infos !! t end) ∧
     (∀ t, changed !! t =
       if decide (t ∈ removed) then (Some <$> (infos !! t)) else match delta !! t with Some _ => Some (infos !! t) | None => None end) ∧
     (bumped = true ↔ ∃ t j, delta !! t = Some j ∧ (t ∉ removed) ∧
       ∀ i, infos !! t = Some i → (StateTableInfo.committed_epoch i < StateTableInfo.committed_epoch j)%Z).
Proof.
  intros infos Hix.
  assert (NoDup (iter_set removed)) as Hnd by (rewrite iter_set_perm; apply NoDup_elements).
  assert (∀ t, t ∈ iter_set removed ↔ t ∈ removed) as Hin by (intros t; by rewrite iter_set_perm, elem_of_elements).
  destruct (remove_loop (iter_set removed) self ∅ Hnd Hix) as (self1 & changed1 & Hrun1 & Hix1 & Hi1 & Hc1); [by intros; rewrite lookup_empty|].
  destruct (iter_map_to_map delta) as [Hl Hnd2].
  pose proof (delta_loop removed (iter_map delta) self1 changed1 false Hnd2 Hix1) as Hloop. cbv zeta in Hloop. rewrite Hl in Hloop.
  assert (∀ t, t ∉ removed → state_table_info self1 !! t = infos !! t) as Hsame.
  { intros t Ht. rewrite Hi1, decide_False; [done|]. by rewrite Hin. }
  assert (forallb (advances (state_table_info self1) removed) (iter_map delta) = true ↔
    ∀ t i j, delta !! t = Some j → t ∉ removed → infos !! t = Some i →
       (StateTableInfo.committed_epoch i <= StateTableInfo.committed_epoch j)%Z) as Hadv.
  { rewrite forallb_forall. setoid_rewrite <-list_elem_of_In. unfold advances. split.
    - intros Hf t i j Hj Ht Hi. specialize (Hf (t, j) (proj2 (iter_map_elem _ _ _) Hj)). cbn [fst snd] in Hf.
      rewrite bool_decide_eq_false_2 in Hf by done. rewrite (Hsame t Ht), Hi in Hf. cbn [orb] in Hf. lia.
    - intros Hf [t j] Hj%iter_map_elem. cbn [fst snd]. case_bool_decide as Ht; [done|]. rewrite (Hsame t Ht). cbn [orb].
      destruct (infos !! t) as [i|] eqn:Hi; [|done]. specialize (Hf t i j Hj Ht Hi). lia. }
  unfold apply_delta. rewrite Hrun1. cbn [mbind outcome_bind].
  destruct (forallb (advances (state_table_info self1) removed) (iter_map delta)) eqn:Ef.
  2: { rewrite Hloop. split; [|done]. split; [by intros [? [=]]|]. intros Hf. by apply Hadv in Hf. }
  destruct Hloop as (self2 & changed2 & Hrun2 & Hix2 & Hi2 & Hc2). rewrite Hrun2. split; [split; [intros _; by apply Hadv|by eexists]|].
  intros self' changed bumped [= <- <- <-]. split; [done|]. unfold update in Hi2, Hc2. split; [|split].
  - intros t. rewrite Hi2. destruct (decide (t ∈ removed)) as [Ht|Ht]; [rewrite Hi1; by rewrite decide_True by (by rewrite Hin)|].
    by rewrite (Hsame t Ht).
  - intros t. rewrite Hc2. destruct (decide (t ∈ removed)) as [Ht|Ht]; [rewrite Hc1; by rewrite decide_True by (by rewrite Hin)|].
    rewrite (Hsame t Ht). destruct (delta !! t); [done|]. rewrite Hc1, decide_False by (by rewrite Hin). apply lookup_empty.
  - cbn [orb]. rewrite existsb_exists. setoid_rewrite <-list_elem_of_In. unfold bumps. split.
    + intros ([t j] & Hj%iter_map_elem & Hb). cbn [fst snd] in Hb. apply andb_true_iff in Hb as [Ht Hb].
      apply negb_true_iff, bool_decide_eq_false_1 in Ht. rewrite (Hsame t Ht) in Hb. exists t, j. split; [done|]. split; [done|].
      intros i Hi. rewrite Hi in Hb. lia.
    + intros (t & j & Hj & Ht & Hb). exists (t, j). split; [by apply iter_map_elem|]. cbn [fst snd].
      rewrite bool_decide_eq_false_2 by done. rewrite (Hsame t Ht). cbn [negb andb]. destruct (infos !! t) as [i|] eqn:Hi; [|done].
      specialize (Hb i eq_refl). lia.
Qed.

Lemma table_group_member self t g :
  index_ok self → build_table_compaction_group_id self !! t = Some g ↔ t ∈ compaction_group_member_table_ids self g.
Proof.
  intros [Hm _]. unfold build_table_compaction_group_id, compaction_group_member_table_ids. rewrite lookup_fmap, fmap_Some, <-member_default, Hm.
  naive_solver.
Qed.

(** C31: the state-table index follows the deltas.  Whatever the iteration order of the hash
    maps: the index built from the table information is right; on a right index,
    [apply_delta] panics exactly when the committed epoch of a table that is not removed would
    go back; otherwise removed tables are gone, the other tables of the delta have the new
    information and the rest is unchanged, the reported changes are exactly these tables with
    their previous information, a bump is reported exactly when a new table or a greater
    committed epoch appears, and the index of the member tables is right again.  The group of a
    table and the members of a group agree. *)
Theorem state_table_delta_exact (self : HummockVersionStateTableInfo.t) (delta : gmap Z StateTableInfo.t) (removed : gset Z) :
  let infos := state_table_info self in
  (∃ s, from_protobuf infos = Ret s ∧ index_ok s ∧ state_table_info s = infos) ∧
  (index_ok self → ∀ t g, build_table_compaction_group_id self !! t = Some g ↔ t ∈ compaction_group_member_table_ids self g) ∧
  (index_ok self →
   (returns (apply_delta self delta removed) ↔
     ∀ t i j, delta !! t = Some j → t ∉ removed → infos !! t = Some i →
       (StateTableInfo.committed_epoch i <= StateTableInfo.committed_epoch j)%Z) ∧
   ∀ (self' : HummockVersionStateTableInfo.t) (changed : changes) (bumped : bool),
     apply_delta self delta removed = Ret (self', changed, bumped) →
     index_ok self' ∧
     (∀ t, state_table_info self' !! t =
       if decide (t ∈ removed) then None else match delta !! t with Some j => Some j | None => infos !! t end) ∧
     (∀ t, changed !! t =
       if decide (t ∈ removed) then (Some <$> (infos !! t)) else match delta !! t with Some _ => Some (infos !! t) | None => None end) ∧
     (bumped = true ↔ ∃ t j, delta !! t = Some j ∧ (t ∉ removed) ∧
       ∀ i, infos !! t = Some i → (StateTableInfo.committed_epoch i < StateTableInfo.committed_epoch j)%Z)).
Proof. split; [apply from_protobuf_ok|]. split; [intros Hix t g; by apply table_group_member|apply apply_delta_exact]. Qed.
End theorems.

(** The order of [map_to_list] and [elements]. *)
#[export] Program Instance default_order : HashOrder :=
  {| iter_map A m := map_to_list m; iter_set s := elements s |}.
Next Obligation. done. Qed.
Next Obligation. done. Qed.

Definition example_infos : HummockVersionStateTableInfo.t :=
  mk {[ 1%Z := StateTableInfo.mk 10 2; 2%Z := StateTableInfo.mk 10 2 ]} {[ 2%Z := {[ 1; 2 ]}%Z ]}.

Lemma example_infos_ok : index_ok example_infos.
Proof.
  split.
  - intros g t. unfold member, example_infos. cbn [state_table_info compaction_group_member_tables]. setoid_rewrite lookup_singleton_Some.
    setoid_rewrite lookup_insert_Some. setoid_rewrite lookup_singleton_Some. split.
    + intros (ts & [<- <-] & Ht). exists (StateTableInfo.mk 10 2).
      rewrite elem_of_union, !elem_of_singleton in Ht. split; [|done]. destruct Ht as [-> | ->]; [by left|by right].
    + intros (i & Hi & <-). exists {[ 1; 2 ]}%Z. rewrite elem_of_union, !elem_of_singleton.
      destruct Hi as [[<- <-]|(_ & <- & <-)]; auto.
  - intros g ts. unfold example_infos. cbn. rewrite lookup_singleton_Some. intros [_ <-]. set_solver.
Qed.

Lemma state_table_delta_exact_witness :
  returns (apply_delta example_infos {[ 1%Z := StateTableInfo.mk 11 3 ]} {[ 2%Z ]}).
Proof.
  destruct (state_table_delta_exact example_infos {[ 1%Z := StateTableInfo.mk 11 3 ]} {[ 2%Z ]}) as (_ & _ & Hd).
  destruct (Hd example_infos_ok) as [Hret _]. apply Hret. intros t i j Hj _ Hi.
  apply lookup_singleton_Some in Hj as [<- <-]. revert Hi. vm_compute. by intros [= <-].
Defined.
