(* ===== verification/ChangeLogSpec.v ===== *)
(** * Change logs and watermarks of a version

    Change logs of tables ([change_log.rs]) and the per-table loops of [apply_version_delta]
    ([Version.v]): searching, truncating and extending change logs and updating watermarks
    have for every table the effect its own entries determine, in any iteration order. *)

From Stdlib Require Import ZArith Lia.
From stdpp Require Import gmap fin_maps.
From S2P Require Import Prelude Order Bytes Epoch Bits Bitmap Vnode Mapping Key KeySpec KeyRange Watermark Sst SstSpec Level Split Version StateTableSpec.

(** ** Loops in which every entry changes its own key *)

Section keyed.
Context {A B : Type} (f : gmap Z A → Z * B → outcome (gmap Z A)) (h : Z → B → option A → outcome (option A)).

Definition keyed : Prop := ∀ m k b, f m (k, b) = (r ← h k b (m !! k); Ret (partial_alter (λ _, r) k m)).

Lemma keyed_loop l : ∀ m,
  keyed → NoDup l.*1 → (∀ k b, (k, b) ∈ l → returns (h k b (m !! k))) →
  ∃ m', rfold f l m = Ret m' ∧
    ∀ k, match (list_to_map l : gmap Z B) !! k with Some b => h k b (m !! k) = Ret (m' !! k) | None => m' !! k = m !! k end.
Proof.
  induction l as [|[x b] l IH]; intros m Hf Hnd Hret; [by exists m|].
  apply NoDup_cons in Hnd as [Hx Hnd]. destruct (Hret x b) as [r Hr]; [by left|].
  cbn [rfold]. rewrite Hf, Hr. cbn [mbind outcome_bind].
  assert (∀ k, k ≠ x → partial_alter (λ _, r) x m !! k = m !! k) as Hne by (intros; by apply lookup_partial_alter_ne).
  destruct (IH (partial_alter (λ _, r) x m) Hf Hnd) as (m' & Hrun & Hm').
  { intros k b' Hk. rewrite Hne; [by apply Hret; right|]. intros ->. apply Hx, list_elem_of_fmap. by exists (x, b'). }
  exists m'. split; [done|]. intros k. specialize (Hm' k). rewrite list_to_map_cons. destruct (decide (k = x)) as [->|Hk].
  - rewrite lookup_insert_eq, Hr. rewrite not_elem_of_list_to_map_1, lookup_partial_alter_eq in Hm' by done. by rewrite Hm'.
  - rewrite lookup_insert_ne by done. by rewrite Hne in Hm' by done.
Qed.

(** Over a hash map. *)
Lemma keyed_loop_map `{HashOrder} (d : gmap Z B) m :
  keyed → (∀ k b, d !! k = Some b → returns (h k b (m !! k))) →
  ∃ m', rfold f (iter_map d) m = Ret m' ∧
    ∀ k, match d !! k with Some b => h k b (m !! k) = Ret (m' !! k) | None => m' !! k = m !! k end.
Proof.
  intros Hf Hret. destruct (iter_map_to_map d) as [Hl Hnd].
  destruct (keyed_loop (iter_map d) m Hf Hnd) as (m' & Hrun & Hm'); [|rewrite Hl in Hm'; by exists m'].
  intros k b Hk%iter_map_elem. by apply Hret.
Qed.

(** If a step panics, the loop does. *)
Lemma keyed_loop_returns l : ∀ m,
  keyed → NoDup l.*1 → returns (rfold f l m) → ∀ k b, (k, b) ∈ l → returns (h k b (m !! k)).
Proof.
  induction l as [|[x b] l IH]; intros m Hf Hnd Hret k b' Hk; [by apply elem_of_nil in Hk|].
  apply NoDup_cons in Hnd as [Hx Hnd]. cbn [rfold] in Hret. rewrite Hf in Hret.
  destruct (h x b (m !! x)) as [r|] eqn:Hr; [|by destruct Hret]. cbn [mbind outcome_bind] in Hret.
  apply elem_of_cons in Hk as [[= -> ->]|Hk]; [by eexists|].
  specialize (IH _ Hf Hnd Hret k b' Hk). rewrite lookup_partial_alter_ne in IH; [done|].
  intros ->. apply Hx, list_elem_of_fmap. by exists (k, b').
Qed.
End keyed.

(** ** One change log *)

Implicit Types (log : EpochNewChangeLog.t) (self : list EpochNewChangeLog.t).

Definition lo log : Z := default 0%Z (head (EpochNewChangeLog.epochs log)).
Definition hi log : Z := default 0%Z (last (EpochNewChangeLog.epochs log)).

Definition log_entry_ok log : Prop :=
  EpochNewChangeLog.epochs log ≠ [] ∧ StronglySorted Z.lt (EpochNewChangeLog.epochs log) ∧
  Forall (is_uint 64) (EpochNewChangeLog.epochs log).

(** Every entry covers some epochs; they ascend through the log. *)
Definition change_log_ok self : Prop := Forall log_entry_ok self ∧ StronglySorted (λ a b, hi a < lo b)%Z self.

Lemma last_epoch_ok log : log_entry_ok log → TableChangeLog.last_epoch log = Ret (hi log).
Proof.
  intros [Hne _]. unfold TableChangeLog.last_epoch, hi. destruct (last (EpochNewChangeLog.epochs log)) eqn:E; [done|].
  by apply last_None in E.
Qed.

Lemma first_epoch_ok log : log_entry_ok log → TableChangeLog.first_epoch log = Ret (lo log).
Proof. intros [Hne _]. unfold TableChangeLog.first_epoch, lo. by destruct (EpochNewChangeLog.epochs log). Qed.

Lemma sorted_bounds (xs : list Z) : ∀ x e,
  StronglySorted Z.lt (x :: xs) → e ∈ x :: xs → (x <= e <= default 0%Z (last (x :: xs)))%Z.
Proof.
  induction xs as [|y xs IH]; intros x e [Hf Hs]%StronglySorted_cons He.
  - apply list_elem_of_singleton in He as ->. simpl. lia.
  - rewrite last_cons_cons. pose proof (IH y y Hs ltac:(left)). apply Forall_cons in Hf as [Hxy _].
    apply elem_of_cons in He as [->|He]; [lia|]. specialize (IH y e Hs He). lia.
Qed.

Lemma epochs_within log e : log_entry_ok log → e ∈ EpochNewChangeLog.epochs log → (lo log <= e <= hi log)%Z.
Proof.
  intros (Hne & Hs & _) He. unfold lo, hi. destruct (EpochNewChangeLog.epochs log) as [|x xs]; [done|]. by apply sorted_bounds.
Qed.

Lemma lo_le_hi log : log_entry_ok log → (lo log <= hi log)%Z.
Proof.
  intros Hl. pose proof Hl as [Hne _]. destruct (EpochNewChangeLog.epochs log) as [|x xs] eqn:E; [done|].
  pose proof (epochs_within log x Hl) as H. rewrite E in H. specialize (H ltac:(left)). lia.
Qed.

Lemma partition_point_mono {A} (p q : A → bool) xs :
  (∀ x, x ∈ xs → p x = true → q x = true) → partition_point p xs ≤ partition_point q xs.
Proof.
  induction xs as [|x xs IH]; intros Himp; simpl; [lia|]. destruct (p x) eqn:Ep; [|lia].
  rewrite (Himp x) by (by left || done). specialize (IH ltac:(intros y Hy; apply Himp; by right)). lia.
Qed.

(** The entries that share an epoch range with [[min_epoch, max_epoch]]. *)
Lemma filter_epoch_ok self (min_epoch max_epoch : Z) :
  change_log_ok self → (min_epoch <= max_epoch)%Z →
  TableChangeLog.filter_epoch self min_epoch max_epoch =
  Ret (filter (λ log, negb (hi log <? min_epoch)%Z && (lo log <=? max_epoch)%Z = true) self).
Proof.
  intros [Hok Hs] Hmm. unfold TableChangeLog.filter_epoch.
  set (P := λ log, e ← TableChangeLog.last_epoch log; Ret (e <? min_epoch)%Z).
  set (Q := λ log, e ← TableChangeLog.first_epoch log; Ret (e <=? max_epoch)%Z).
  assert (∀ log, log_entry_ok log → P log = Ret (hi log <? min_epoch)%Z) as HP by (intros log Hl; unfold P; by rewrite last_epoch_ok).
  assert (∀ log, log_entry_ok log → Q log = Ret (lo log <=? max_epoch)%Z) as HQ by (intros log Hl; unfold Q; by rewrite first_epoch_ok).
  assert (∀ log, log_entry_ok log → val P log = (hi log <? min_epoch)%Z) as VP by (intros log Hl; unfold val; by rewrite HP).
  assert (∀ log, log_entry_ok log → val Q log = (lo log <=? max_epoch)%Z) as VQ by (intros log Hl; unfold val; by rewrite HQ).
  assert (total_on P self ∧ total_on Q self) as [TP TQ].
  { split; eapply Forall_impl; try exact Hok; intros log Hl; simpl; [by rewrite VP, HP|by rewrite VQ, HQ]. }
  rewrite (rpartition_point_ok P self TP). cbn [mbind outcome_bind]. rewrite (rpartition_point_ok Q self TQ). cbn [mbind outcome_bind].
  rewrite Forall_forall in Hok.
  assert (partition_point (val P) self ≤ partition_point (val Q) self) as Hle.
  { apply partition_point_mono. intros log Hl. rewrite VP, VQ by auto. pose proof (lo_le_hi log (Hok _ Hl)). lia. }
  rewrite (proj2 (Nat.leb_le _ _) Hle). cbn [rassert mbind outcome_bind]. f_equal.
  rewrite <-(filter_between (val P) (val Q) self).
  - apply filter_ext_in. intros log Hl. by rewrite VP, VQ by auto.
  - apply (sorted_impl (λ a b, hi a < lo b)%Z _ log_entry_ok); [by apply Forall_forall|done|].
    intros a b Ha Hb Hab. rewrite !VP by done. pose proof (lo_le_hi a Ha). pose proof (lo_le_hi b Hb). lia.
  - apply (sorted_impl (λ a b, hi a < lo b)%Z _ log_entry_ok); [by apply Forall_forall|done|].
    intros a b Ha Hb Hab. rewrite !VQ by done. pose proof (lo_le_hi a Ha). lia.
Qed.

Definition all_epochs self : list Z := mjoin (EpochNewChangeLog.epochs <$> self).

Lemma get_non_empty_epochs_ok self (min_epoch : Z) (max_count : nat) :
  change_log_ok self → is_uint 64 min_epoch →
  TableChangeLog.get_non_empty_epochs self min_epoch max_count =
  Ret (take max_count (filter (λ e, min_epoch <= e)%Z
    (all_epochs (filter (λ log, TableChangeLog.is_empty_log log = false) self)))).
Proof.
  intros Hok Hmin. unfold TableChangeLog.get_non_empty_epochs. rewrite filter_epoch_ok; [|done|unfold is_uint, u64_max in *; lia].
  cbn [mbind outcome_bind]. do 2 f_equal. destruct Hok as [Hok _]. unfold all_epochs. induction Hok as [|log self Hl _ IH]; [done|].
  assert ((lo log <=? u64_max)%Z = true) as Hhi.
  { destruct Hl as (Hne & _ & Hu). unfold lo. destruct (EpochNewChangeLog.epochs log) as [|x xs]; [done|].
    apply Forall_cons in Hu as [Hx _]. unfold is_uint, u64_max in *. simpl. lia. }
  rewrite (filter_cons _ log self). rewrite Hhi, andb_true_r. destruct (Z.ltb_spec (hi log) min_epoch) as [Hlt|Hge]; cbn [negb].
  - rewrite decide_False by done. rewrite IH, (filter_cons _ log self). destruct (decide _) as [_|_]; [|done].
    csimpl. rewrite filter_app. rewrite (filter_none _ (EpochNewChangeLog.epochs log)); [done|].
    intros e He. pose proof (epochs_within log e Hl He). lia.
  - rewrite decide_True by done. rewrite !(filter_cons (λ log, TableChangeLog.is_empty_log log = false)).
    destruct (decide _); [|done]. csimpl. by rewrite !filter_app, IH.
Qed.

(** The part of an entry behind an epoch. *)
Definition restrict (e : Z) log : EpochNewChangeLog.t :=
  EpochNewChangeLog.mk (EpochNewChangeLog.new_value log) (EpochNewChangeLog.old_value log)
    (filter (λ epoch, e < epoch)%Z (EpochNewChangeLog.epochs log)).

Definition truncated (e : Z) self : list EpochNewChangeLog.t := restrict e <$> filter (λ log, e < hi log)%Z self.

Lemma restrict_id e log : log_entry_ok log → (e < lo log)%Z → restrict e log = log.
Proof.
  intros Hl He. unfold restrict. rewrite filter_all; [by destruct log|]. intros x Hx. pose proof (epochs_within log x Hl Hx). lia.
Qed.

Lemma truncate_ok self (e : Z) : change_log_ok self → TableChangeLog.truncate self e = Ret (truncated e self).
Proof.
  intros [Hok Hs]. unfold TableChangeLog.truncate. set (P := λ log, x ← TableChangeLog.last_epoch log; Ret (e <? x)%Z).
  assert (∀ log, log_entry_ok log → P log = Ret (e <? hi log)%Z) as HP by (intros log Hl; unfold P; by rewrite last_epoch_ok).
  assert (∀ log, log_entry_ok log → val P log = (e <? hi log)%Z) as VP by (intros log Hl; unfold val; by rewrite HP).
  assert (total_on P self) as TP by (eapply Forall_impl; [exact Hok|]; intros log Hl; simpl; by rewrite VP, HP).
  rewrite (rfilter_ok P self TP). cbn [mbind outcome_bind]. unfold truncated.
  assert (filter (λ log, val P log = true) self = filter (λ log, e < hi log)%Z self) as ->.
  { apply filter_ext_in. intros log Hl. rewrite Forall_forall in Hok. rewrite VP by auto. by rewrite Z.ltb_lt. }
  f_equal. clear HP VP TP P. induction Hs as [|log self Hs IH Hf]; [done|]. apply Forall_cons in Hok as [Hl Hok].
  rewrite filter_cons. destruct (decide (e < hi log)%Z) as [He|He]; [|by apply IH]. csimpl. f_equal.
  rewrite (filter_all _ self).
  - rewrite <-(list_fmap_id self) at 1. apply list_fmap_ext. intros i x Hx. rewrite Forall_lookup in Hf, Hok.
    specialize (Hf i x Hx). symmetry. apply restrict_id; [by apply (Hok i)|]. unfold id. lia.
  - intros x Hx. rewrite Forall_forall in Hf, Hok. specialize (Hf x Hx). pose proof (lo_le_hi x (Hok x Hx)). cbv beta in Hf. lia.
Qed.

Lemma restrict_logs_ok e log : log_entry_ok log → (e < hi log)%Z →
  log_entry_ok (restrict e log) ∧ hi (restrict e log) = hi log ∧ (lo log <= lo (restrict e log))%Z.
Proof.
  intros Hl He. pose proof Hl as (Hne & Hs & Hu).
  assert (∃ ys, filter (λ epoch, e < epoch)%Z (EpochNewChangeLog.epochs log) = ys ++ [hi log]) as [ys Hys].
  { destruct (exists_last Hne) as (zs & z & Ez). exists (filter (λ epoch, e < epoch)%Z zs).
    assert (hi log = z) as Hz by (unfold hi; by rewrite Ez, last_snoc). rewrite Ez, filter_app, filter_cons_True by lia.
    by rewrite filter_nil, Hz. }
  assert (log_entry_ok (restrict e log)) as Hr.
  { split_and!.
    - simpl. rewrite Hys. by destruct ys.
    - by apply sorted_filter.
    - apply Forall_forall. intros x [_ Hx]%list_elem_of_filter. rewrite Forall_forall in Hu. auto. }
  split; [done|]. split; [unfold hi at 1; simpl; by rewrite Hys, last_snoc|].
  destruct (EpochNewChangeLog.epochs (restrict e log)) as [|x xs] eqn:Ex; [by destruct Hr|].
  assert (lo (restrict e log) = x) as -> by (unfold lo; by rewrite Ex).
  apply (epochs_within log x Hl). assert (x ∈ EpochNewChangeLog.epochs (restrict e log)) as Hin by (rewrite Ex; left).
  by apply list_elem_of_filter in Hin as [_ ?].
Qed.

Lemma truncated_ok e self : change_log_ok self → change_log_ok (truncated e self) ∧
  all_epochs (truncated e self) = filter (λ x, e < x)%Z (all_epochs self).
Proof.
  intros [Hok Hs]. unfold truncated. induction Hs as [|log self Hs IH Hf]; [by split; [split; constructor|]|].
  apply Forall_cons in Hok as [Hl Hok]. destruct (IH Hok) as [[IHok IHs] IHe]. rewrite filter_cons.
  unfold all_epochs. csimpl. rewrite filter_app. fold (all_epochs self). rewrite <-IHe.
  destruct (decide (e < hi log)%Z) as [He|He].
  - destruct (restrict_logs_ok e log Hl He) as (Hr & Hhi & _). csimpl. split; [|done]. split; [by constructor|].
    constructor; [done|]. rewrite Forall_fmap. rewrite Forall_forall in Hf, Hok |- *. intros x [Hx Hin]%list_elem_of_filter.
    cbv beta. rewrite Hhi. destruct (restrict_logs_ok e x (Hok x Hin) Hx) as (_ & _ & Hlo). specialize (Hf x Hin). unfold compose. lia.
  - split; [done|]. rewrite (filter_none _ (EpochNewChangeLog.epochs log)); [done|].
    intros x Hx. pose proof (epochs_within log x Hl Hx). lia.
Qed.

(** ** Building the change logs of a commit *)

Abbreviation table_ids_nodup ssts := (Forall (λ sst, NoDup (SstableInfo.table_ids sst)) ssts).

Lemma alter_ids {A} (f : A → A) ids : ∀ (m : gmap Z A) t, NoDup ids →
  foldl (λ m id, alter f id m) m ids !! t = if decide (t ∈ ids) then f <$> (m !! t) else m !! t.
Proof.
  induction ids as [|id ids IH]; intros m t Hnd; [done|]. apply NoDup_cons in Hnd as [Hid Hnd]. cbn [foldl]. rewrite IH by done.
  destruct (decide (t = id)) as [->|Hne].
  - rewrite decide_False by done. rewrite decide_True by left. apply lookup_alter_eq.
  - rewrite lookup_alter_ne by done. destruct (decide (t ∈ ids)); [rewrite decide_True by (by right)|rewrite decide_False by (rewrite elem_of_cons; tauto)]; done.
Qed.

Lemma push_ssts_lookup old ssts : ∀ m t, table_ids_nodup ssts →
  push_ssts old m ssts !! t =
    (λ d, foldl (λ d sst, push_log old sst d) d (filter (λ sst, t ∈ SstableInfo.table_ids sst) ssts)) <$> m !! t.
Proof.
  induction ssts as [|sst ssts IH]; intros m t Hnd; [cbn; by destruct (m !! t)|]. apply Forall_cons in Hnd as [Hs Hnd].
  change (push_ssts old m (sst :: ssts)) with (push_ssts old (foldl (λ m id, alter (push_log old sst) id m) m (SstableInfo.table_ids sst)) ssts).
  rewrite IH, alter_ids, filter_cons by done. destruct (decide _); [|done]. by destruct (m !! t).
Qed.

Lemma push_old_log l : ∀ e news olds epochs,
  foldl (λ d sst, push_log true sst d) (ChangeLogDelta.mk e (Some (EpochNewChangeLog.mk news olds epochs))) l =
  ChangeLogDelta.mk e (Some (EpochNewChangeLog.mk news (olds ++ l) epochs)).
Proof.
  induction l as [|s l IH]; intros e news olds epochs; [by rewrite app_nil_r|]. etransitivity; [apply (IH e news (olds ++ [s]))|]. by rewrite <-app_assoc.
Qed.

Lemma push_new_log l : ∀ e news olds epochs,
  foldl (λ d sst, push_log false sst d) (ChangeLogDelta.mk e (Some (EpochNewChangeLog.mk news olds epochs))) l =
  ChangeLogDelta.mk e (Some (EpochNewChangeLog.mk (news ++ l) olds epochs)).
Proof.
  induction l as [|s l IH]; intros e news olds epochs; [by rewrite app_nil_r|]. etransitivity; [apply (IH e (news ++ [s]))|]. by rewrite <-app_assoc.
Qed.

(** The log of one table in a commit. *)
Definition commit_log (t : Z) (olds news : list SstableInfo.t) (epochs : list Z) (truncate_epoch : Z) : ChangeLogDelta.t :=
  ChangeLogDelta.mk truncate_epoch (Some (EpochNewChangeLog.mk (filter (λ sst, t ∈ SstableInfo.table_ids sst) news)
    (filter (λ sst, t ∈ SstableInfo.table_ids sst) olds) epochs)).

Lemma fresh_logs_lookup epochs ids : ∀ (m : gmap Z ChangeLogDelta.t) t, NoDup ids.*1 →
  foldl (λ (m : gmap Z ChangeLogDelta.t) '(table_id, truncate_epoch),
    <[table_id := ChangeLogDelta.mk truncate_epoch (Some (EpochNewChangeLog.mk [] [] epochs))]> m) m ids !! t =
  match (list_to_map ids : gmap Z Z) !! t with
  | Some e => Some (ChangeLogDelta.mk e (Some (EpochNewChangeLog.mk [] [] epochs)))
  | None => m !! t
  end.
Proof.
  induction ids as [|[id e] ids IH]; intros m t Hnd; [done|]. apply NoDup_cons in Hnd as [Hid Hnd]. cbn [foldl]. rewrite IH by done.
  rewrite list_to_map_cons. destruct (decide (t = id)) as [->|Hne].
  - by rewrite lookup_insert_eq, not_elem_of_list_to_map_1, lookup_insert_eq.
  - by rewrite !lookup_insert_ne.
Qed.

Lemma build_log_lookup olds news epochs ids t :
  table_ids_nodup olds → table_ids_nodup news → NoDup ids.*1 →
  build_table_change_log_delta olds news epochs ids !! t = commit_log t olds news epochs <$> (list_to_map ids : gmap Z Z) !! t.
Proof.
  intros Ho Hn Hid. unfold build_table_change_log_delta. rewrite !push_ssts_lookup, fresh_logs_lookup by done.
  destruct (list_to_map ids !! t) as [e|]; [|by rewrite lookup_empty]. cbn [fmap option_fmap option_map]. by rewrite push_old_log, push_new_log.
Qed.

(** The operations of a change log.  On a change log whose entries cover ascending,
    non-empty runs of epochs: [filter_epoch] returns exactly the entries that reach into the
    given epoch range; [get_non_empty_epochs] lists exactly the first epochs from [min_epoch] on
    whose entry holds data; [truncate] drops exactly the epochs up to [truncate_epoch] and
    leaves a change log of the same kind.  The delta built for a commit has an entry exactly for
    the tables with a log store, with the old-value and the new-value sorted tables that contain
    the table, in their order. *)
Theorem change_log_operations_exact self (min_epoch max_epoch truncate_epoch : Z) (max_count : nat) :
  change_log_ok self → is_uint 64 min_epoch → (min_epoch <= max_epoch)%Z →
  TableChangeLog.filter_epoch self min_epoch max_epoch =
    Ret (filter (λ log, negb (hi log <? min_epoch)%Z && (lo log <=? max_epoch)%Z = true) self) ∧
  TableChangeLog.get_non_empty_epochs self min_epoch max_count =
    Ret (take max_count (filter (λ e, min_epoch <= e)%Z
      (all_epochs (filter (λ log, TableChangeLog.is_empty_log log = false) self)))) ∧
  (∃ self', TableChangeLog.truncate self truncate_epoch = Ret self' ∧ change_log_ok self' ∧
    all_epochs self' = filter (λ e, truncate_epoch < e)%Z (all_epochs self)) ∧
  ∀ olds news epochs (ids : list (Z * Z)), table_ids_nodup olds → table_ids_nodup news → NoDup ids.*1 →
    ∀ t, build_table_change_log_delta olds news epochs ids !! t = commit_log t olds news epochs <$> (list_to_map ids : gmap Z Z) !! t.
Proof.
  intros Hok Hmin Hmm. split; [by apply filter_epoch_ok|]. split; [by apply get_non_empty_epochs_ok|]. split.
  - exists (truncated truncate_epoch self). split; [by apply truncate_ok|by apply truncated_ok].
  - intros olds news epochs ids Ho Hn Hid t. by apply build_log_lookup.
Qed.

Definition example_log : list EpochNewChangeLog.t := [EpochNewChangeLog.mk [] [] [2%Z]; EpochNewChangeLog.mk [] [] [3; 4]%Z].

Lemma example_log_ok : change_log_ok example_log.
Proof. split; repeat constructor; (done || (simpl; lia)). Qed.

Lemma change_log_operations_exact_witness :
  TableChangeLog.filter_epoch example_log 3 9 = Ret [EpochNewChangeLog.mk [] [] [3; 4]%Z].
Proof.
  destruct (change_log_operations_exact example_log 3 9 3 1) as (H & _); [apply example_log_ok|by vm_compute|done|exact H].
Defined.

(** ** The change logs of a version *)

Section apply.
Context `{HashOrder}.
Context (logs : gmap Z TableChangeLog.t) (delta : gmap Z ChangeLogDelta.t) (removed : gset Z)
  (info_delta : gmap Z StateTableInfo.t) (changed : HummockVersionStateTableInfo.changes).
Context (Hlogs : ∀ t cl, logs !! t = Some cl → change_log_ok cl)
  (Hdelta : ∀ t d, delta !! t = Some d → ∃ l, ChangeLogDelta.new_log d = Some l ∧ log_entry_ok l).

Definition append_h (k : Z) (d : ChangeLogDelta.t) (old : option TableChangeLog.t) : outcome (option TableChangeLog.t) :=
  new ← unwrap (ChangeLogDelta.new_log d);
  match old with
  | Some cl =>
      _ ← match last cl with
          | Some prev => p ← TableChangeLog.last_epoch prev; n ← TableChangeLog.first_epoch new; rassert (p <? n)%Z
          | None => Ret tt
          end;
      Ret (Some (cl ++ [new]))
  | None => Ret (Some [new])
  end.

Definition truncate_h (k : Z) (d : ChangeLogDelta.t) (old : option TableChangeLog.t) : outcome (option TableChangeLog.t) :=
  match old with Some cl => Some <$> TableChangeLog.truncate cl (ChangeLogDelta.truncate_epoch d) | None => Ret None end.

Lemma append_keyed : keyed HummockVersionCommon.append_log_step append_h.
Proof.
  intros m k d. unfold HummockVersionCommon.append_log_step, append_h. destruct (ChangeLogDelta.new_log d); [|done].
  cbn [unwrap mbind outcome_bind]. destruct (m !! k) as [cl|]; [|done]. by destruct (match last cl with Some _ => _ | None => _ end).
Qed.

Lemma truncate_keyed : keyed HummockVersionCommon.truncate_log_step truncate_h.
Proof.
  intros m k d. unfold HummockVersionCommon.truncate_log_step, truncate_h. cbn [fst snd]. destruct (m !! k) as [cl|] eqn:E.
  - by destruct (TableChangeLog.truncate cl _).
  - cbn [mbind outcome_bind]. f_equal. symmetry. exact (delete_id m k E).
Qed.

Lemma append_result t d new :
  delta !! t = Some d → ChangeLogDelta.new_log d = Some new → log_entry_ok new →
  (∀ cl prev, logs !! t = Some cl → last cl = Some prev → (hi prev < lo new)%Z) →
  append_h t d (logs !! t) = Ret (Some (default [] (logs !! t) ++ [new])) ∧ change_log_ok (default [] (logs !! t) ++ [new]).
Proof.
  intros Hd Hn Hnew Hord. unfold append_h. rewrite Hn. cbn [unwrap mbind outcome_bind]. destruct (logs !! t) as [cl|] eqn:El.
  2: { split; [done|]. split; [by apply Forall_singleton|repeat constructor]. }
  pose proof (Hlogs t cl El) as [Hok Hs]. specialize (Hord cl). simpl. split.
  - destruct (last cl) as [prev|] eqn:Elast; [|done].
    assert (log_entry_ok prev) as Hprev by (rewrite Forall_forall in Hok; apply Hok; by apply last_Some_elem_of).
    rewrite (last_epoch_ok prev Hprev), (first_epoch_ok new Hnew). cbn [mbind outcome_bind].
    by rewrite (proj2 (Z.ltb_lt _ _) (Hord prev eq_refl eq_refl)).
  - split; [apply Forall_app_2; [done|by apply Forall_singleton]|]. apply StronglySorted_app_2; [|done|repeat constructor].
    intros x1 x2 Hx1 ->%list_elem_of_singleton.
    destruct (last cl) as [prev|] eqn:Elast; [|apply last_None in Elast as ->; by apply elem_of_nil in Hx1].
    specialize (Hord prev eq_refl eq_refl). apply last_Some in Elast as [cl' ->].
    apply elem_of_app in Hx1 as [Hx1| ->%list_elem_of_singleton]; [|done].
    apply StronglySorted_app in Hs as (Hc & _ & _). specialize (Hc x1 prev Hx1 ltac:(by apply list_elem_of_singleton)).
    apply Forall_app in Hok as [_ Hok]. rewrite Forall_singleton in Hok. pose proof (lo_le_hi prev Hok). cbv beta in *. lia.
Qed.

(** A table keeps its change log unless it is removed, or its committed epoch progresses
    without a new entry. *)
Definition progressed (t : Z) : Prop :=
  ∃ d prev, info_delta !! t = Some d ∧ changed !! t = Some (Some prev) ∧
    (StateTableInfo.committed_epoch prev < StateTableInfo.committed_epoch d)%Z.
Definition kept (t : Z) : Prop := (t ∉ removed) ∧ (is_Some (delta !! t) ∨ ¬ progressed t).

Lemma keep_log_ok t : HummockVersionCommon.keep_log delta removed info_delta changed t = true ↔ kept t.
Proof.
  unfold HummockVersionCommon.keep_log, kept, progressed. case_bool_decide as Hr; [naive_solver|].
  destruct (info_delta !! t) as [d|]; [|naive_solver]. destruct (changed !! t) as [[prev|]|]; [|naive_solver..].
  destruct (Z.ltb_spec (StateTableInfo.committed_epoch prev) (StateTableInfo.committed_epoch d)) as [Hlt|Hge].
  - rewrite bool_decide_eq_true. naive_solver.
  - split; [intros _|done]. split; [done|]. right. intros (? & ? & [= <-] & [= <-] & ?). lia.
Qed.

(** The change log of table [t] after the delta. *)
Definition log_after (t : Z) : option TableChangeLog.t :=
  match delta !! t with
  | Some d => Some (truncated (ChangeLogDelta.truncate_epoch d)
                (default [] (logs !! t) ++ GroupSplit.option_list (ChangeLogDelta.new_log d)))
  | None => logs !! t
  end.

Definition in_order : Prop :=
  ∀ t d new cl prev, delta !! t = Some d → ChangeLogDelta.new_log d = Some new →
    logs !! t = Some cl → last cl = Some prev → (hi prev < lo new)%Z.

Lemma append_returns t d : delta !! t = Some d →
  returns (append_h t d (logs !! t)) ↔
  ∀ new cl prev, ChangeLogDelta.new_log d = Some new → logs !! t = Some cl → last cl = Some prev → (hi prev < lo new)%Z.
Proof using Hlogs Hdelta.
  intros Hd. destruct (Hdelta t d Hd) as (new & Hn & Hnew). split.
  - intros [r Hr] new' cl prev Hn' Hcl Hprev. rewrite Hn in Hn'. injection Hn' as <-. unfold append_h in Hr.
    rewrite Hn, Hcl, Hprev in Hr. cbn [unwrap mbind outcome_bind] in Hr.
    assert (log_entry_ok prev) as Hp.
    { destruct (Hlogs t cl Hcl) as [Hok _]. rewrite Forall_forall in Hok. apply Hok. by apply last_Some_elem_of. }
    rewrite (last_epoch_ok prev Hp), (first_epoch_ok new Hnew) in Hr. cbn [mbind outcome_bind] in Hr.
    destruct (Z.ltb_spec (hi prev) (lo new)); [done|discriminate Hr].
  - intros Hord. destruct (append_result t d new Hd Hn Hnew) as [-> _]; [|by eexists]. intros cl prev. by apply Hord.
Qed.

Lemma apply_change_log_ok :
  in_order →
  ∃ logs', HummockVersionCommon.apply_change_log_delta logs delta removed info_delta changed = Ret logs' ∧
    ∀ t, (kept t → logs' !! t = log_after t) ∧ (¬ kept t → logs' !! t = None) ∧
      ∀ cl, logs' !! t = Some cl → change_log_ok cl.
Proof using Hlogs Hdelta.
  intros Hord. unfold HummockVersionCommon.apply_change_log_delta.
  destruct (keyed_loop_map _ _ delta logs append_keyed) as (m1 & -> & Hm1).
  { intros t d Hd. apply (append_returns t d Hd). intros new cl prev. by apply Hord. }
  cbn [mbind outcome_bind]. set (m2 := filter _ m1).
  assert (∀ t, match delta !! t with
    | Some d => ∃ new, ChangeLogDelta.new_log d = Some new ∧ m1 !! t = Some (default [] (logs !! t) ++ [new]) ∧
        change_log_ok (default [] (logs !! t) ++ [new])
    | None => m1 !! t = logs !! t end) as Hm1'.
  { intros t. specialize (Hm1 t). destruct (delta !! t) as [d|] eqn:Hd; [|done]. destruct (Hdelta t d Hd) as (new & Hn & Hnew).
    destruct (append_result t d new Hd Hn Hnew) as [E Hok]; [intros cl prev; by apply (Hord t d)|]. rewrite E in Hm1. injection Hm1 as Hm1. eauto. }
  assert (∀ t cl, m1 !! t = Some cl → change_log_ok cl) as Hok1.
  { intros t cl Hcl. specialize (Hm1' t). destruct (delta !! t); [|rewrite Hm1' in Hcl; by apply (Hlogs t)].
    destruct Hm1' as (new & _ & E & Hok). rewrite E in Hcl. by injection Hcl as <-. }
  assert (∀ t, (kept t → m2 !! t = m1 !! t) ∧ (¬ kept t → m2 !! t = None)) as Hm2.
  { intros t. unfold m2. rewrite map_lookup_filter. split; intros Hk.
    - destruct (m1 !! t); [|done]. simpl. by rewrite option_guard_True by (by apply keep_log_ok).
    - destruct (m1 !! t); [|done]. simpl. rewrite option_guard_False; [done|]. simpl. by rewrite keep_log_ok. }
  assert (∀ t cl, m2 !! t = Some cl → change_log_ok cl) as Hok2.
  { intros t cl. unfold m2. rewrite map_lookup_filter_Some. intros [Hcl _]. by apply (Hok1 t). }
  destruct (keyed_loop_map _ _ delta m2 truncate_keyed) as (m3 & -> & Hm3).
  { intros t d Hd. unfold truncate_h. destruct (m2 !! t) as [cl|] eqn:E; [|by eexists].
    rewrite (truncate_ok cl _ (Hok2 t cl E)). by eexists. }
  exists m3. split; [done|]. intros t. specialize (Hm3 t). specialize (Hm1' t). destruct (Hm2 t) as [Hk Hnk].
  assert (match delta !! t with Some d => m3 !! t = (truncated (ChangeLogDelta.truncate_epoch d) <$> m2 !! t) | None => m3 !! t = m2 !! t end) as Hm3'.
  { destruct (delta !! t) as [d|]; [|done]. unfold truncate_h in Hm3. destruct (m2 !! t) as [cl|] eqn:E; [|by injection Hm3].
    rewrite (truncate_ok cl _ (Hok2 t cl E)) in Hm3. by injection Hm3. }
  unfold log_after. split; [intros Hkept|split; [intros Hkept|intros cl Hcl]].
  - destruct (delta !! t) as [d|] eqn:Hd; [|by rewrite Hm3', Hk]. destruct Hm1' as (new & -> & E & _). by rewrite Hm3', Hk, E.
  - destruct (delta !! t) as [d|] eqn:Hd; rewrite Hm3', Hnk by done; done.
  - destruct (delta !! t) as [d|] eqn:Hd; rewrite Hm3' in Hcl; [|by apply (Hok2 t)].
    destruct (m2 !! t) as [cl'|] eqn:E; [|done]. injection Hcl as <-. apply truncated_ok, (Hok2 t cl' E).
Qed.
End apply.



(** ** Watermarks of a version *)

Section watermarks.
Context `{HashOrder}.
Context (infos : gmap Z StateTableInfo.t) (current new : gmap Z TableWatermarks.t) (removed : gset Z).

Definition new_h (k : Z) (w : TableWatermarks.t) (old : option (option TableWatermarks.t)) : outcome (option (option TableWatermarks.t)) :=
  match current !! k with
  | Some c => if bool_decide (k ∈ removed) then Ret (Some None)
              else ws ← TableWatermarks.apply_new_table_watermarks c w; Ret (Some (Some ws))
  | None => Ret (Some (Some w))
  end.

(** Whether the table's oldest watermark is older than its committed epoch, and that epoch. *)
Definition stale (k : Z) (c : TableWatermarks.t) : option Z :=
  match infos !! k, head (TableWatermarks.watermarks c) with
  | Some info, Some (oldest, _) =>
      if (oldest <? StateTableInfo.committed_epoch info)%Z then Some (StateTableInfo.committed_epoch info) else None
  | _, _ => None
  end.

Definition clear_h (k : Z) (c : TableWatermarks.t) (old : option (option TableWatermarks.t)) : outcome (option (option TableWatermarks.t)) :=
  match stale k c with
  | Some safe_epoch =>
      match default (Some c) old with
      | Some ws => ws ← TableWatermarks.clear_stale_epoch_watermark ws safe_epoch; Ret (Some (Some ws))
      | None => Ret (Some None)
      end
  | None => Ret old
  end.

Lemma new_keyed : keyed (HummockVersionCommon.new_watermarks_step current removed) new_h.
Proof.
  intros m k w. unfold HummockVersionCommon.new_watermarks_step, new_h. destruct (current !! k) as [c|]; [|done].
  case_bool_decide; [done|]. by destruct (TableWatermarks.apply_new_table_watermarks c w).
Qed.

Lemma clear_keyed : keyed (HummockVersionCommon.clear_watermarks_step infos) clear_h.
Proof.
  intros m k c. unfold HummockVersionCommon.clear_watermarks_step, clear_h, stale.
  assert (∀ o, m !! k = o → partial_alter (λ _, o) k m = m) as Hid.
  { intros o Ho. apply map_eq. intros j. destruct (decide (j = k)) as [->|]; [by rewrite lookup_partial_alter_eq|by rewrite lookup_partial_alter_ne]. }
  destruct (infos !! k) as [info|]; [|cbn [mbind outcome_bind]; by rewrite Hid].
  destruct (head (TableWatermarks.watermarks c)) as [[oldest x]|]; [|cbn [mbind outcome_bind]; by rewrite Hid].
  destruct (_ <? _)%Z; [|cbn [mbind outcome_bind]; by rewrite Hid].
  destruct (default (Some c) (m !! k)) as [ws|]; [|done]. by destruct (TableWatermarks.clear_stale_epoch_watermark ws _).
Qed.

Lemma store_loop l : ∀ m : gmap Z TableWatermarks.t, NoDup l.*1 →
  ∀ k, foldl HummockVersionCommon.store_watermarks m l !! k =
    match (list_to_map l : gmap Z (option TableWatermarks.t)) !! k with Some o => o | None => m !! k end.
Proof.
  induction l as [|[x o] l IH]; intros m Hnd k; [done|]. apply NoDup_cons in Hnd as [Hx Hnd]. cbn [foldl].
  rewrite IH by done. rewrite list_to_map_cons. unfold HummockVersionCommon.store_watermarks. cbn [fst snd].
  destruct (decide (x = k)) as [<-|Hne].
  - rewrite lookup_insert_eq, not_elem_of_list_to_map_1 by done. destruct o; [apply lookup_insert_eq|apply lookup_delete_eq].
  - rewrite lookup_insert_ne by done. destruct (_ !! k); [done|]. destruct o; [by apply lookup_insert_ne|by apply lookup_delete_ne].
Qed.

(** What the table's watermarks are before and after clearing. *)
Definition extended_watermarks (k : Z) : outcome (option TableWatermarks.t) :=
  match current !! k, new !! k with
  | Some c, Some w => if bool_decide (k ∈ removed) then Ret None else Some <$> TableWatermarks.apply_new_table_watermarks c w
  | Some c, None => Ret (Some c)
  | None, o => Ret o
  end.

Definition watermarks_after (k : Z) : outcome (option TableWatermarks.t) :=
  ws ← extended_watermarks k;
  match ws, current !! k with
  | Some ws, Some c =>
      match stale k c with Some e => Some <$> TableWatermarks.clear_stale_epoch_watermark ws e | None => Ret (Some ws) end
  | ws, _ => Ret ws
  end.

(** The entry of table [k] in the map of modified watermarks, with the old one underneath. *)
Definition overlay (m : HummockVersionCommon.modified) (k : Z) : option TableWatermarks.t :=
  match m !! k with Some o => o | None => current !! k end.

Lemma new_entry k (m1 : HummockVersionCommon.modified) :
  match new !! k with Some w => new_h k w None = Ret (m1 !! k) | None => m1 !! k = None end →
  extended_watermarks k = Ret (overlay m1 k).
Proof.
  unfold extended_watermarks, overlay, new_h. destruct (new !! k) as [w|]; intros Hm1.
  - destruct (current !! k) as [c|]; [|by injection Hm1 as <-]. case_bool_decide; [by injection Hm1 as <-|].
    destruct (TableWatermarks.apply_new_table_watermarks c w); [|done]. by injection Hm1 as <-.
  - rewrite Hm1. by destruct (current !! k).
Qed.

Lemma clear_entry k c (m1 m2 : HummockVersionCommon.modified) :
  current !! k = Some c → extended_watermarks k = Ret (overlay m1 k) →
  clear_h k c (m1 !! k) = Ret (m2 !! k) → watermarks_after k = Ret (overlay m2 k).
Proof.
  intros Hc He. unfold clear_h, watermarks_after, overlay. rewrite He, Hc. cbn [mbind outcome_bind]. unfold overlay. rewrite Hc.
  destruct (stale k c) as [e|]; [|intros [= <-]; by destruct (m1 !! k) as [[]|]].
  destruct (m1 !! k) as [[ws|]|]; cbn [default from_option id]; [|by intros [= <-]|].
  - destruct (TableWatermarks.clear_stale_epoch_watermark ws e); [|discriminate]. by intros [= <-].
  - destruct (TableWatermarks.clear_stale_epoch_watermark c e); [|discriminate]. by intros [= <-].
Qed.

(** Each table's watermarks are determined by its own entries. *)
Lemma apply_watermarks_exact m' :
  HummockVersionCommon.apply_watermarks infos current new removed = Ret m' → ∀ k, watermarks_after k = Ret (m' !! k).
Proof.
  unfold HummockVersionCommon.apply_watermarks. intros (m1 & H1 & (m2 & H2 & [= <-])%bind_Ret)%bind_Ret k.
  destruct (iter_map_to_map new) as [_ Hn]. destruct (iter_map_to_map current) as [_ Hc].
  pose proof (keyed_loop_returns _ _ _ ∅ new_keyed Hn ltac:(by eexists)) as R1.
  destruct (keyed_loop_map _ _ new ∅ new_keyed) as (m1' & E1 & Hm1).
  { intros j w Hj. apply R1. by apply iter_map_elem. }
  rewrite H1 in E1. injection E1 as <-.
  pose proof (keyed_loop_returns _ _ _ m1 clear_keyed Hc ltac:(by eexists)) as R2.
  destruct (keyed_loop_map _ _ current m1 clear_keyed) as (m2' & E2 & Hm2).
  { intros j c Hj. apply R2. by apply iter_map_elem. }
  rewrite H2 in E2. injection E2 as <-. specialize (Hm1 k). specialize (Hm2 k). rewrite lookup_empty in Hm1.
  pose proof (new_entry k m1 Hm1) as He. destruct (iter_map_to_map m2) as [Hl Hnd].
  rewrite (store_loop _ current Hnd), Hl. fold (overlay m2 k). destruct (current !! k) as [c|] eqn:Hck.
  - by apply (clear_entry k c m1).
  - unfold watermarks_after. rewrite He. cbn [mbind outcome_bind]. unfold overlay. rewrite Hck, Hm2.
    by destruct (m1 !! k) as [[]|].
Qed.
End watermarks.

(** Watermarks of removed tables.  When a delta is applied, a removed table that has
    watermarks keeps them in the version unless the delta also brings new watermarks for it;
    if the delta brings watermarks for a removed table that had none, they are stored. *)
Theorem removed_table_watermarks_stay `{HashOrder} (infos : gmap Z StateTableInfo.t) (current new m' : gmap Z TableWatermarks.t)
    (removed : gset Z) (t : Z) :
  t ∈ removed → infos !! t = None →
  HummockVersionCommon.apply_watermarks infos current new removed = Ret m' →
  m' !! t = match new !! t, current !! t with
            | None, c => c
            | Some w, None => Some w
            | Some _, Some _ => None
            end.
Proof.
  intros Ht Hi Hrun. pose proof (apply_watermarks_exact infos current new removed m' Hrun t) as Hw.
  unfold watermarks_after, extended_watermarks, stale in Hw. rewrite bool_decide_eq_true_2 in Hw by done. rewrite Hi in Hw.
  destruct (current !! t), (new !! t); cbn in Hw; by injection Hw.
Qed.

Definition example_watermarks : TableWatermarks.t := TableWatermarks.mk [] WatermarkDirection.Ascending.

Lemma removed_table_watermarks_stay_witness :
  ∃ m', HummockVersionCommon.apply_watermarks ∅ {[ 1%Z := example_watermarks ]} ∅ {[ 1%Z ]} = Ret m' ∧
    m' !! 1%Z = Some example_watermarks.
Proof.
  exists {[ 1%Z := example_watermarks ]}. split; [by vm_compute|].
  rewrite (removed_table_watermarks_stay ∅ {[ 1%Z := example_watermarks ]} ∅ {[ 1%Z := example_watermarks ]} {[ 1%Z ]} 1%Z);
    [by vm_compute|set_solver|done|by vm_compute].
Defined.
