(* ===== verification/VersionSpec.v ===== *)
(** * The invariant of a version

    Every delta [apply_version_delta] accepts ([Version.v]) keeps the levels of all compaction
    groups well-formed: level indexes and group ids match, tables are well-formed, sorted
    levels stay sorted, and the sub-levels of L0 are non-empty with ascending ids.  On such a
    version [validate_version] finds nothing but the order of the sub-level ids, which it tests
    the wrong way round. *)

From Stdlib Require Import ZArith Lia.
From stdpp Require Import gmap fin_maps sorting.
From S2P Require Import Prelude Order Bytes Epoch Bits Bitmap Vnode Mapping Key KeySpec KeyRange Watermark Sst SstSpec Level Split SplitSpec LevelsSpec Version StateTableSpec.

Import HummockVersionCommon.
Implicit Types (s : SstableInfo.t) (level : Level.t) (tables : list SstableInfo.t) (group : Levels.t).

(** ** Well-formed levels and groups *)

Definition strict_ids s : Prop := StronglySorted Z.lt (SstableInfo.table_ids s).
Definition sst_wf s : Prop := table_ok s ∧ strict_ids s.

Definition sorted_level level : Prop :=
  Level.level_type level ≠ LevelType.Overlapping → StronglySorted before (Level.table_infos level).

Definition level_wf (idx : Z) level : Prop :=
  Level.level_idx level = idx ∧ Level.level_type level ≠ LevelType.Unspecified ∧
  Forall sst_wf (Level.table_infos level) ∧ sorted_level level.

Definition subs_wf (subs : list Level.t) : Prop :=
  Forall (level_wf 0) subs ∧ StronglySorted Z.lt (Level.sub_level_id <$> subs).

Definition base_wf (levels : list Level.t) : Prop :=
  ∀ i level, levels !! i = Some level →
    level_wf (Z.of_nat i + 1) level ∧ Level.level_type level = LevelType.Nonoverlapping.

Definition no_empty_sub group : Prop := Forall (λ level, Level.table_infos level ≠ []) (sub_levels group).

(** A group while a delta is applied; afterwards it has no empty sub-levels. *)
Definition group_weak (g : Z) group : Prop :=
  Levels.group_id group = g ∧ subs_wf (sub_levels group) ∧ base_wf (Levels.levels group).
Definition group_wf (g : Z) group : Prop := group_weak g group ∧ no_empty_sub group.

Definition version_wf (self : HummockVersionCommon.t) : Prop :=
  (∀ g group, levels self !! g = Some group → group_wf g group) ∧ index_ok (state_table_info self).

Lemma sst_wf_ok tables : Forall sst_wf tables → Forall sst_ok tables.
Proof. intros H. apply table_ok_sst_ok. eapply Forall_impl; [exact H|]. by intros s [? _]. Qed.

Lemma level_split_ok_wf idx level : level_wf idx level → level_split_ok level.
Proof.
  intros (_ & _ & Hok & Hs). split; [eapply Forall_impl; [exact Hok|]; by intros s [? _]|].
  intros Hty. apply sorted_can_concat. auto.
Qed.

(** Replacing the tables of a level. *)
Lemma level_wf_with idx level tables (total uncompressed : Z) :
  level_wf idx level → Forall sst_wf tables →
  (Level.level_type level ≠ LevelType.Overlapping → StronglySorted before tables) →
  level_wf idx (Level.with_tables (Level.with_sizes level total uncompressed) tables).
Proof. intros (Hi & Ht & _ & _) Hok Hs. by split_and!. Qed.

Lemma level_wf_tables idx level tables :
  level_wf idx level → Forall sst_wf tables →
  (Level.level_type level ≠ LevelType.Overlapping → StronglySorted before tables) →
  level_wf idx (Level.with_tables level tables).
Proof. intros (Hi & Ht & _ & _) Hok Hs. by split_and!. Qed.

Lemma base_wf_insert (ls : list Level.t) i level :
  base_wf ls → level_wf (Z.of_nat i + 1) level → Level.level_type level = LevelType.Nonoverlapping → base_wf (<[i := level]> ls).
Proof.
  intros Hb Hl Hty j level' Hj. apply list_lookup_insert_Some in Hj as [(-> & -> & _)|[_ Hj]]; [done|by apply Hb].
Qed.

(** ** Inserting tables *)

Lemma extend_sorted_wf idx level tables level' :
  level_wf idx level → Forall sst_wf tables → extend_sorted level tables = Ret level' →
  level_wf idx level' ∧ Level.level_type level' = Level.level_type level ∧ Level.sub_level_id level' = Level.sub_level_id level.
Proof.
  intros Hl Ht Hrun. pose proof Hl as (Hi & Hty & Hok & _).
  assert (Forall sst_wf (Level.table_infos level ++ tables)) as Hall by (by apply Forall_app_2).
  destruct (extend_sorted_ok level tables (sst_wf_ok _ Hall)) as [_ Hres].
  destruct (Hres level' Hrun) as (Hp & Hcc & Et & Es & _). split; [|done]. rewrite <-Hp in Hall.
  assert (Level.level_idx level' = idx) as Hi'.
  { unfold extend_sorted in Hrun. outcome_inv. by subst. }
  split_and!; [done|by rewrite Et|done|]. intros _. apply can_concat_sorted; [by apply sst_wf_ok|done].
Qed.

Lemma level_insert_wf idx level tables level' :
  level_wf idx level → Forall sst_wf tables → level_insert_ssts level tables = Ret level' →
  level_wf idx level' ∧ Level.level_type level' = LevelType.Nonoverlapping ∧ Level.sub_level_id level' = Level.sub_level_id level.
Proof.
  intros Hl Ht Hrun. pose proof Hl as (_ & Hty0 & _ & _). unfold level_insert_ssts in Hrun. apply bind_Ret in Hrun as (level1 & Hext & [= <-]).
  assert (StronglySorted before (Level.table_infos level1)) as Hs.
  { destruct Hl as (_ & _ & Hok & _). assert (Forall sst_wf (Level.table_infos level ++ tables)) as Hall by (by apply Forall_app_2).
    destruct (extend_sorted_ok level tables (sst_wf_ok _ Hall)) as [_ Hres]. destruct (Hres level1 Hext) as (Hp & Hcc & _).
    apply can_concat_sorted; [|done]. apply sst_wf_ok. by rewrite Hp. }
  destruct (extend_sorted_wf idx level tables level1 Hl Ht Hext) as ((Hi & Hty & Hok & _) & Et & Es).
  case_bool_decide as Eo.
  - split; [split_and!; [done..|by intros _]|by split].
  - split; [split_and!; [done..|by intros _]|]. split; [|done]. by destruct (Level.level_type level1).
Qed.

Lemma vec_insert_ok {A} (pos : nat) (x : A) l l' : vec_insert pos x l = Ret l' → l' = take pos l ++ x :: drop pos l.
Proof. unfold vec_insert. intros H. outcome_inv. by subst. Qed.

Lemma new_sub_level_wf id ty tables :
  ty ≠ LevelType.Unspecified → Forall sst_wf tables → (ty ≠ LevelType.Overlapping → StronglySorted before tables) →
  level_wf 0 (new_sub_level id ty tables).
Proof. intros Hty Hok Hs. by split_and!. Qed.

(** A new sub-level at a position that keeps the ids in order. *)
Lemma insert_sub_level_wf subs pos id ty tables :
  subs_wf subs → ty ≠ LevelType.Unspecified → Forall sst_wf tables →
  (ty ≠ LevelType.Overlapping → StronglySorted before tables) →
  Forall (λ level, Level.sub_level_id level < id)%Z (take pos subs) →
  Forall (λ level, id < Level.sub_level_id level)%Z (drop pos subs) →
  subs_wf (take pos subs ++ new_sub_level id ty tables :: drop pos subs).
Proof.
  intros [Hw Hids] Hty Hok Hs Hlt Hgt. split.
  - apply Forall_app_2; [by apply Forall_take|]. apply Forall_cons_2; [by apply new_sub_level_wf|by apply Forall_drop].
  - rewrite <-(take_drop pos subs), fmap_app in Hids. apply StronglySorted_app in Hids as (Hc & Ht & Hd).
    rewrite fmap_app. csimpl. apply StronglySorted_app_2; [|done|].
    + intros x y Hx Hy. apply elem_of_cons in Hy as [->|Hy]; [|by apply Hc].
      apply list_elem_of_fmap in Hx as (level & -> & Hx). rewrite Forall_forall in Hlt. by apply Hlt.
    + constructor; [done|]. apply Forall_fmap. exact Hgt.
Qed.

Lemma insert_last_wf l0 id ty tables l0' :
  subs_wf (OverlappingLevel.sub_levels l0) → ty ≠ LevelType.Unspecified → Forall sst_wf tables →
  (ty ≠ LevelType.Overlapping → StronglySorted before tables) →
  insert_new_sub_level l0 id ty tables None = Ret l0' →
  subs_wf (OverlappingLevel.sub_levels l0') ∧
  (OverlappingLevel.sub_levels l0' = OverlappingLevel.sub_levels l0 ∨
   OverlappingLevel.sub_levels l0' = OverlappingLevel.sub_levels l0 ++ [new_sub_level id ty tables]).
Proof.
  intros Hw Hty Hok Hs Hrun. unfold insert_new_sub_level in Hrun. destruct (id =? u64_max)%Z; [injection Hrun as <-; auto|].
  apply bind_Ret in Hrun as (pos & Hpos & Hrun). apply bind_Ret in Hpos as ([] & Hlast & [= <-]). apply rassert_Ret in Hlast.
  apply bind_Ret in Hrun as (subs & Hins%vec_insert_ok & [= <-]). cbn [OverlappingLevel.sub_levels].
  set (old := OverlappingLevel.sub_levels l0) in *.
  assert (Forall (λ level, Level.sub_level_id level < id)%Z old) as Hlt.
  { destruct (last old) as [newest|] eqn:El; [|apply last_None in El; rewrite El; constructor].
    apply last_Some in El as [old' El]. rewrite El. apply Z.ltb_lt in Hlast. destruct Hw as [_ Hids]. rewrite El, fmap_app in Hids.
    apply StronglySorted_app in Hids as (Hc & _ & _). apply Forall_app_2; [|by apply Forall_singleton].
    apply Forall_forall. intros level Hin. transitivity (Level.sub_level_id newest); [|done].
    apply Hc; [by apply list_elem_of_fmap_2|by left]. }
  rewrite Hins. split.
  - apply insert_sub_level_wf; [done..| |]; [by rewrite take_ge|by rewrite drop_ge].
  - right. by rewrite take_ge, drop_ge.
Qed.

Lemma subs_wf_replace (subs : list Level.t) i old level :
  subs_wf subs → subs !! i = Some old → level_wf 0 level → Level.sub_level_id level = Level.sub_level_id old →
  subs_wf (<[i := level]> subs).
Proof.
  intros [Hw Hids] Hi Hl Hid. split; [by apply Forall_insert_inv|]. rewrite list_fmap_insert, Hid.
  by rewrite list_insert_id by (by rewrite list_lookup_fmap, Hi).
Qed.

Lemma subs_wf_fmap (f : Level.t → Level.t) (subs : list Level.t) :
  (∀ level, level_wf 0 level → level_wf 0 (f level)) → (∀ level, Level.sub_level_id (f level) = Level.sub_level_id level) →
  subs_wf subs → subs_wf (f <$> subs).
Proof.
  intros Hf Hid [Hw Hids]. split; [apply Forall_fmap; eapply Forall_impl; [exact Hw|exact Hf]|].
  rewrite <-list_fmap_compose, (list_fmap_ext _ Level.sub_level_id subs); [done|]. intros i level _. apply Hid.
Qed.

Lemma subs_wf_filter (Q : Level.t → Prop) `{!∀ x, Decision (Q x)} subs : subs_wf subs → subs_wf (filter Q subs).
Proof. intros [Hw Hids]. split; [by apply Forall_filter_keep|by apply fmap_filter_sorted]. Qed.

(** ** Committing and compacting *)

Lemma add_l0_wf g group id tables group' :
  group_weak g group → Forall sst_wf tables → add_l0 group id tables = Ret group' →
  group_weak g group' ∧ (no_empty_sub group → no_empty_sub group').
Proof.
  intros (Hg & Hsubs & Hbase) Hok Hrun. unfold add_l0 in Hrun. case_bool_decide as Hne; [by injection Hrun as <-|].
  apply bind_Ret in Hrun as (l0 & Hins & [= <-]).
  destruct (insert_last_wf (Levels.l0 group) id LevelType.Overlapping tables l0 Hsubs ltac:(done) Hok ltac:(done) Hins) as [Hw Hcase].
  split; [by split_and!|]. intros Hno. unfold no_empty_sub, sub_levels in *. cbn. destruct Hcase as [-> | ->]; [done|].
  apply Forall_app_2; [done|by apply Forall_singleton].
Qed.

Lemma delete_wf idx level ids : level_wf idx level → level_wf idx (level_delete_ssts level ids).1.
Proof.
  intros Hl. pose proof Hl as (_ & _ & Hok & Hs). apply level_wf_with; [done|by apply Forall_filter_keep|].
  intros Hty. by apply sorted_filter, Hs.
Qed.

Lemma apply_delete_wf g group idx ids group' :
  group_weak g group → apply_delete group idx ids = Ret group' → group_weak g group'.
Proof.
  intros (Hg & Hsubs & Hbase) Hrun. unfold apply_delete in Hrun. case_bool_decide; [by injection Hrun as <-|].
  destruct (idx =? 0)%Z.
  - injection Hrun as <-. split_and!; [done| |done]. by apply subs_wf_fmap; [intros; apply delete_wf| |].
  - apply bind_Ret in Hrun as (level & Hlv%unwrap_Ret & [= <-]). split_and!; [done..|]. destruct (Hbase _ _ Hlv) as [Hl Hty].
    apply base_wf_insert; [done|by apply delete_wf|done].
Qed.

Lemma partition_count_wf idx level tables members n :
  level_wf idx level →
  (level_wf idx (l0_partition_count level tables members n) ∧
   Level.sub_level_id (l0_partition_count level tables members n) = Level.sub_level_id level) ∧
  level_wf idx (base_partition_count level tables members n).
Proof.
  intros Hl. unfold l0_partition_count, base_partition_count. split; [by destruct (_ && _)|].
  destruct (_ && _); [done|]. by destruct (_ && _).
Qed.

Lemma apply_insert_wf g group (delta : IntraLevelDelta.t) members group' :
  group_weak g group → (0 <= IntraLevelDelta.level_idx delta)%Z → Forall sst_wf (IntraLevelDelta.inserted_table_infos delta) →
  apply_insert group delta members = Ret group' → group_weak g group'.
Proof.
  intros (Hg & Hsubs & Hbase) Hidx Hok Hrun. unfold apply_insert in Hrun. case_bool_decide; [by injection Hrun as <-|].
  destruct (Z.eqb_spec (IntraLevelDelta.level_idx delta) 0) as [E|E].
  - apply bind_Ret in Hrun as (level & Hlv%unwrap_Ret & Hrun). apply bind_Ret in Hrun as (_ & _ & Hrun).
    apply bind_Ret in Hrun as (level' & Hins & [= <-]). split_and!; [done| |done].
    pose proof Hsubs as [Hw _]. rewrite Forall_lookup in Hw. pose proof (Hw _ _ Hlv) as Hl.
    destruct (partition_count_wf 0 level (IntraLevelDelta.inserted_table_infos delta) members (IntraLevelDelta.vnode_partition_count delta) Hl) as [[Hl' Hid] _].
    destruct (level_insert_wf 0 _ _ level' Hl' Hok Hins) as (Hlw & _ & Hid').
    apply (subs_wf_replace _ _ level); [done|done|done|congruence].
  - apply bind_Ret in Hrun as (level & Hlv%unwrap_Ret & Hrun). apply bind_Ret in Hrun as (level' & Hins & [= <-]).
    split_and!; [done..|]. destruct (Hbase _ _ Hlv) as [Hl Hty].
    destruct (partition_count_wf _ level (IntraLevelDelta.inserted_table_infos delta) members (IntraLevelDelta.vnode_partition_count delta) Hl) as [_ Hl'].
    destruct (level_insert_wf _ _ _ level' Hl' Hok Hins) as (Hlw & Hty' & _). by apply base_wf_insert.
Qed.

Lemma apply_compact_wf g group (delta : IntraLevelDelta.t) members group' :
  group_weak g group → (0 <= IntraLevelDelta.level_idx delta)%Z → Forall sst_wf (IntraLevelDelta.inserted_table_infos delta) →
  apply_compact_ssts group delta members = Ret group' → group_weak g group'.
Proof.
  intros Hg Hidx Hok Hrun. unfold apply_compact_ssts in Hrun. apply bind_Ret in Hrun as (ex & _ & Hrun). destruct ex; [|by injection Hrun as <-].
  apply bind_Ret in Hrun as (group1 & Hdel & Hins). eapply apply_insert_wf; [|done..|exact Hins]. by eapply apply_delete_wf.
Qed.

(** Compactions below L0 leave the sub-levels alone. *)
Lemma apply_compact_subs group (delta : IntraLevelDelta.t) members group' :
  IntraLevelDelta.level_idx delta ≠ 0%Z → apply_compact_ssts group delta members = Ret group' →
  sub_levels group' = sub_levels group.
Proof.
  intros Hne Hrun. unfold apply_compact_ssts in Hrun. apply bind_Ret in Hrun as (ex & _ & Hrun). destruct ex; [|by injection Hrun as <-].
  apply bind_Ret in Hrun as (group1 & Hdel & Hins).
  assert (sub_levels group1 = sub_levels group) as <-.
  { unfold apply_delete in Hdel. case_bool_decide; [by injection Hdel as <-|]. destruct (Z.eqb_spec (IntraLevelDelta.level_idx delta) 0); [done|].
    apply bind_Ret in Hdel as (level & _ & [= <-]). done. }
  unfold apply_insert in Hins. case_bool_decide; [by injection Hins as <-|]. destruct (Z.eqb_spec (IntraLevelDelta.level_idx delta) 0); [done|].
  apply bind_Ret in Hins as (level & _ & Hins). apply bind_Ret in Hins as (level' & _ & [= <-]). done.
Qed.

Lemma post_apply_wf g group : group_weak g group → group_wf g (post_apply_l0_compact group).
Proof.
  intros (Hg & Hsubs & Hbase). split; [split_and!; [done|by apply subs_wf_filter|done]|].
  apply Forall_forall. intros level [Hne _]%list_elem_of_filter. unfold no_tables in Hne. by apply bool_decide_eq_false in Hne.
Qed.

(** ** Splitting *)

Lemma strict_take_drop n ids : StronglySorted Z.lt ids → StronglySorted Z.lt (take n ids) ∧ StronglySorted Z.lt (drop n ids).
Proof. intros H. rewrite <-(take_drop n ids) in H. by apply StronglySorted_app in H as (_ & ? & ?). Qed.

Lemma split_sst_strict s id key a b lo ro id' :
  strict_ids s → GroupSplit.split_sst s id key a b = Ret (lo, ro, id') →
  Forall strict_ids (GroupSplit.option_list lo) ∧ Forall strict_ids (GroupSplit.option_list ro).
Proof.
  intros Hs Hrun. unfold GroupSplit.split_sst in Hrun. apply bind_Ret in Hrun as ([il ir] & Hids & Hrun).
  assert (StronglySorted Z.lt il ∧ StronglySorted Z.lt ir) as [Hl Hr].
  { unfold GroupSplit.split_table_ids_with_split_key, GroupSplit.split_table_ids_with_table_id_and_vnode in Hids.
    outcome_inv. simplify_eq. by apply strict_take_drop. }
  case_bool_decide; [injection Hrun as <- <- <-; split; [constructor|by apply Forall_singleton]|].
  case_bool_decide; [injection Hrun as <- <- <-; split; [by apply Forall_singleton|constructor]|].
  apply bind_Ret in Hrun as (c & _ & Hrun). destruct c; injection Hrun as <- <- <-; split;
    first [apply Forall_nil_2 | by apply Forall_singleton].
Qed.

Lemma split_overlapping_strict key tables kept moved id kept' moved' id' :
  Forall strict_ids tables → Forall strict_ids kept → Forall strict_ids moved →
  rfold (GroupSplit.split_overlapping_step key) tables (kept, moved, id) = Ret (kept', moved', id') →
  Forall strict_ids kept' ∧ Forall strict_ids moved'.
Proof.
  intros Ht. revert kept moved id. induction Ht as [|s tables Hs _ IH]; intros kept moved id Hk Hm Hrun.
  { by injection Hrun as <- <- _. }
  cbn [rfold GroupSplit.split_overlapping_step] in Hrun. apply bind_Ret in Hrun as ([[k m] i] & Hstep & Hrun).
  apply bind_Ret in Hstep as (ty & _ & Hstep). destruct ty.
  - injection Hstep as <- <- <-. refine (IH _ _ _ _ Hm Hrun). apply Forall_app_2; [done|by apply Forall_singleton].
  - injection Hstep as <- <- <-. refine (IH _ _ _ Hk _ Hrun). apply Forall_app_2; [done|by apply Forall_singleton].
  - apply bind_Ret in Hstep as ([[lo ro] i'] & Hsp & Hstep). injection Hstep as <- <- <-.
    destruct (split_sst_strict _ _ _ _ _ _ _ _ Hs Hsp) as [Hlo Hro]. refine (IH _ _ _ _ _ Hrun); by apply Forall_app_2.
Qed.

Lemma split_sorted_strict key tables id kept moved id' :
  Forall strict_ids tables → GroupSplit.split_sorted tables id key = Ret (kept, moved, id') →
  Forall strict_ids kept ∧ Forall strict_ids moved.
Proof.
  intros Ht Hrun. unfold GroupSplit.split_sorted in Hrun. apply bind_Ret in Hrun as (pos & _ & Hrun).
  destruct (length tables <=? pos)%nat; [injection Hrun as <- <- _; by split; [|constructor]|].
  apply bind_Ret in Hrun as (s & Hs%unwrap_Ret & Hrun). apply bind_Ret in Hrun as (ty & _ & Hrun). destruct ty.
  - injection Hrun as <- <- _. split; [by apply Forall_take|by apply Forall_drop].
  - apply bind_Ret in Hrun as (_ & _ & Hrun). injection Hrun as <- <- _. split; [constructor|by apply Forall_drop].
  - apply bind_Ret in Hrun as ([[lo ro] i'] & Hsp & Hrun). injection Hrun as <- <- _.
    assert (strict_ids s) as Hss by (rewrite Forall_lookup in Ht; by apply (Ht pos)).
    destruct (split_sst_strict _ _ _ _ _ _ _ _ Hss Hsp) as [Hlo Hro].
    split; apply Forall_app_2; [by apply Forall_take|done|done|by apply Forall_drop].
Qed.

(** The split keys a group construction carries: none, or that of a state table. *)
Definition split_key_ok (key : option (list byte)) : Prop := match key with Some k => ∃ T, is_uint 32 T ∧ k = split_key T | None => True end.

(** Splitting a level: what stays, what moves and the next id are well-formed. *)
Definition split_ok (idx : Z) level level' moved (id' : Z) : Prop :=
  level_wf idx level' ∧ Forall sst_wf moved ∧ (Level.level_type level ≠ LevelType.Overlapping → StronglySorted before moved) ∧
  Level.level_type level' = Level.level_type level ∧ Level.sub_level_id level' = Level.sub_level_id level ∧ is_uint 64 id'.

Lemma split_level_wf idx key level id level' moved id' :
  level_wf idx level → split_key_ok key → is_uint 64 id →
  HummockVersion.split_level_opt key level id = Ret (level', moved, id') → split_ok idx level level' moved id'.
Proof.
  intros Hl Hkey Hid Hrun. destruct key as [k|]; cbn [HummockVersion.split_level_opt] in Hrun.
  2: { injection Hrun as <- <- <-. split_and!; try done. intros _. constructor. }
  destruct Hkey as (T & HT & ->). pose proof Hl as (_ & _ & Hok & Hs).
  destruct (split_level_eval T level id HT Hid (level_split_ok_wf _ _ Hl)) as (parts & ns & E & Hcut & _).
  assert (Forall table_ok (Level.table_infos level)) as Htok by (eapply Forall_impl; [exact Hok|]; by intros s [? _]).
  destruct (cut_halves T _ _ Htok Hcut) as [(Hk & _ & _ & Hks) (Hm & _ & _ & Hms)].
  assert (Forall strict_ids (concat parts.*1) ∧ Forall strict_ids (concat parts.*2)) as [Sk Sm].
  { assert (Forall strict_ids (Level.table_infos level)) as Hst by (eapply Forall_impl; [exact Hok|]; by intros s [_ ?]).
    unfold GroupSplit.split_sst_info_for_level_v2, no_tables in E. case_bool_decide as Hne.
    - rewrite Hne in Hcut. apply Forall2_nil_inv_l in Hcut as ->. split; constructor.
    - apply bind_Ret in E as ([[k m] i] & Hsp & E). assert (k = concat parts.*1 ∧ m = concat parts.*2) as [<- <-].
      { by injection E as E1 E2 _. }
      case_bool_decide; [eapply split_overlapping_strict; [exact Hst|constructor|constructor|exact Hsp]|by eapply split_sorted_strict]. }
  rewrite E in Hrun. injection Hrun as <- <- <-.
  assert (∀ ts, Forall table_ok ts → Forall strict_ids ts → Forall sst_wf ts) as Hboth.
  { intros ts H1 H2. rewrite Forall_forall in H1, H2 |- *. intros s Hin. split; auto. }
  split; [apply level_wf_tables; [done|by apply Hboth|intros Hty; by apply Hks, Hs]|].
  split; [by apply Hboth|]. split; [intros Hty; by apply Hms, Hs|]. split_and!; [done..|]. by apply wrap_is_uint.
Qed.

Lemma purge_wf idx level : level_wf idx level → level_wf idx (HummockVersion.purge level).
Proof.
  intros Hl. pose proof Hl as (_ & _ & Hok & Hs). unfold HummockVersion.purge. destruct (foldl _ _ _) as [total uncompressed].
  apply level_wf_with; [done|by apply Forall_filter_keep|]. intros Hty. by apply sorted_filter, Hs.
Qed.

Lemma purge_fields level : Level.sub_level_id (HummockVersion.purge level) = Level.sub_level_id level ∧
  Level.level_type (HummockVersion.purge level) = Level.level_type level.
Proof. unfold HummockVersion.purge. by destruct (foldl _ _ _). Qed.

Lemma add_ssts_wf l0 idx tables l0' :
  subs_wf (OverlappingLevel.sub_levels l0) → Forall sst_wf tables → tables ≠ [] → add_ssts_to_sub_level l0 idx tables = Ret l0' →
  subs_wf (OverlappingLevel.sub_levels l0') ∧
  (Forall (λ level, Level.table_infos level ≠ []) (OverlappingLevel.sub_levels l0) →
   Forall (λ level, Level.table_infos level ≠ []) (OverlappingLevel.sub_levels l0')).
Proof.
  intros Hw Hok Hne Hrun. unfold add_ssts_to_sub_level in Hrun. apply bind_Ret in Hrun as (level & Hlv%unwrap_Ret & Hrun).
  destruct (foldl add_sizes (Level.total_file_size level, _) _) as [total uncompressed].
  destruct (foldl add_sizes (OverlappingLevel.total_file_size l0, _) _) as [lt lu].
  apply bind_Ret in Hrun as (ts & Hts & [= <-]). cbn [OverlappingLevel.sub_levels].
  pose proof Hw as [Hall _]. rewrite Forall_lookup in Hall. pose proof (Hall _ _ Hlv) as Hl. pose proof Hl as (_ & Hty & Hlok & _).
  assert (Forall sst_wf (Level.table_infos level ++ tables)) as Happ by (by apply Forall_app_2).
  assert (Forall sst_wf ts ∧ (Level.level_type level ≠ LevelType.Overlapping → StronglySorted before ts) ∧ ts ≠ []) as (H1 & H2 & H3).
  { case_bool_decide as Eo.
    - apply bind_Ret in Hts as (sorted & Hsort & Hts). apply bind_Ret in Hts as (b & Hcc & Hts). apply bind_Ret in Hts as ([] & ->%rassert_Ret & [= <-]).
      destruct (sort_tables _ (sst_wf_ok _ Happ)) as (sorted' & E & Hp & _). rewrite E in Hsort. injection Hsort as ->.
      rewrite <-Hp in Happ. split; [done|]. split; [intros _; apply can_concat_sorted; [by apply sst_wf_ok|done]|].
      intros ->. apply Permutation_nil_l in Hp. by destruct (Level.table_infos level).
    - injection Hts as <-. split; [done|]. split; [by destruct (Level.level_type level)|]. by destruct (Level.table_infos level). }
  split; [apply (subs_wf_replace _ _ level); [done..|by apply level_wf_with|done]|].
  intros Hno. by apply Forall_insert_inv.
Qed.

Abbreviation all_nonempty subs := (Forall (λ level : Level.t, Level.table_infos level ≠ []) subs).

Lemma insert_hint_ok id (subs : list Level.t) : ∀ k,
  StronglySorted Z.lt (Level.sub_level_id <$> subs) →
  match GroupSplit.insert_hint_from k subs id with
  | inl _ => True
  | inr i => ∃ p, i = k + p ∧ Forall (λ level, Level.sub_level_id level < id)%Z (take p subs) ∧
               Forall (λ level, id < Level.sub_level_id level)%Z (drop p subs)
  end.
Proof.
  induction subs as [|level subs IH]; intros k Hs; cbn [GroupSplit.insert_hint_from]; [exists 0; split; [lia|by split; constructor]|].
  csimpl in Hs. apply StronglySorted_cons in Hs as [Hf Hs]. destruct (Z.compare_spec (Level.sub_level_id level) id) as [E|E|E]; [done| |].
  - specialize (IH (S k) Hs). destruct (GroupSplit.insert_hint_from (S k) subs id); [done|].
    destruct IH as (p & -> & H1 & H2). exists (S p). split; [lia|]. split; [by constructor|done].
  - exists 0. split; [lia|]. split; [constructor|]. constructor; [done|]. rewrite Forall_fmap in Hf.
    eapply Forall_impl; [exact Hf|]. intros x Hx. cbv beta in *. unfold compose in Hx. lia.
Qed.

Lemma move_to_l0_wf target sub_level moved target' :
  subs_wf (OverlappingLevel.sub_levels target) → all_nonempty (OverlappingLevel.sub_levels target) →
  Level.level_type sub_level ≠ LevelType.Unspecified → Forall sst_wf moved → moved ≠ [] →
  (Level.level_type sub_level ≠ LevelType.Overlapping → StronglySorted before moved) →
  HummockVersion.move_to_l0 target sub_level moved = Ret target' →
  subs_wf (OverlappingLevel.sub_levels target') ∧ all_nonempty (OverlappingLevel.sub_levels target').
Proof.
  intros Hw Hno Hty Hok Hne Hs Hrun. unfold HummockVersion.move_to_l0, GroupSplit.get_sub_level_insert_hint in Hrun.
  pose proof (insert_hint_ok (Level.sub_level_id sub_level) _ 0 (proj2 Hw)) as Hhint.
  destruct (GroupSplit.insert_hint_from _ _ _) as [i|i].
  - destruct (add_ssts_wf _ _ _ _ Hw Hok Hne Hrun) as [? Hn]. auto.
  - destruct Hhint as (p & -> & Hlt & Hgt). unfold insert_new_sub_level in Hrun.
    destruct (_ =? u64_max)%Z; [by injection Hrun as <-|]. cbn [mbind outcome_bind] in Hrun.
    apply bind_Ret in Hrun as (subs & ->%vec_insert_ok & [= <-]). cbn [OverlappingLevel.sub_levels Nat.add]. split.
    + by apply insert_sub_level_wf.
    + apply Forall_app_2; [by apply Forall_take|]. apply Forall_cons_2; [done|by apply Forall_drop].
Qed.

(** The split by table ids keeps the key ranges. *)
Lemma strictly_below_sorted ids : StronglySorted Z.lt ids → is_sorted ids = true.
Proof. intros H. apply is_sorted_StronglySorted. apply (sorted_impl Z.lt Z.le (λ _, True)); [by apply Forall_true|done|lia]. Qed.

Lemma btree_set_sorted ids : StronglySorted Z.lt (btree_set ids).
Proof.
  assert (∀ x y l, y ∈ btree_insert x l → y = x ∨ y ∈ l) as Hin.
  { intros x y l. induction l as [|z l IH]; cbn; [rewrite list_elem_of_singleton; auto|].
    destruct (x <? z)%Z; [rewrite !elem_of_cons; tauto|]. destruct (x =? z)%Z; rewrite !elem_of_cons; tauto. }
  induction ids as [|x ids IH]; [constructor|]. cbn. fold (btree_set ids). induction IH as [|y l Hl IHl Hy]; cbn; [by repeat constructor|].
  destruct (Z.ltb_spec x y); [constructor; [by constructor|constructor; [lia|eapply Forall_impl; [exact Hy|cbv beta; lia]]]|].
  destruct (Z.eqb_spec x y); [by constructor|]. constructor; [done|]. rewrite Forall_forall in Hy |- *.
  intros z [->|Hz]%Hin; [lia|by apply Hy].
Qed.

Lemma rebuild_ids_wf s (id size : Z) ids :
  sst_wf s → StronglySorted Z.lt ids → sst_wf (GroupSplit.rebuild s id (SstableInfo.key_range s) size ids).
Proof. intros [[Hw _] _] Hs. split; [split; [exact Hw|by apply strictly_below_sorted]|exact Hs]. Qed.

Definition ranges tables : list KeyRange.t := SstableInfo.key_range <$> tables.
Definition range_before (a b : KeyRange.t) : Prop := KeyRange.compare_right_with a (KeyRange.left b) = Ret Lt.

Lemma sorted_ranges tables : StronglySorted before tables ↔ StronglySorted range_before (ranges tables).
Proof.
  induction tables as [|s tables IH]; csimpl; [split; constructor|]. fold (ranges tables). rewrite !StronglySorted_cons, IH. unfold ranges. by rewrite Forall_fmap.
Qed.

Lemma split_by_ids_ranges ids tables : ∀ kept moved id kept' moved' id',
  Forall sst_wf tables → is_uint 64 id →
  foldl (HummockVersion.split_by_ids_step ids) (kept, moved, id) tables = (kept', moved', id') →
  is_uint 64 id' ∧ ∃ k m, kept' = kept ++ k ∧ moved' = moved ++ m ∧ Forall sst_wf (k ++ m) ∧
    ranges k = ranges tables ∧ ranges m `sublist_of` ranges tables.
Proof.
  induction tables as [|s tables IH]; intros kept moved id kept' moved' id' Hok Hid Hrun.
  { injection Hrun as <- <- <-. split; [done|]. exists [], []. by rewrite !app_nil_r. }
  apply Forall_cons in Hok as [Hs Hok]. cbn [foldl HummockVersion.split_by_ids_step] in Hrun. case_bool_decide as Hcase.
  - destruct (IH _ _ _ _ _ _ Hok Hid Hrun) as (Hid' & k & m & -> & -> & Hkm & Hk & Hm). split; [done|].
    exists (s :: k), m. rewrite <-app_assoc. split_and!; [done..|by constructor| |]; csimpl.
    + fold (ranges k) (ranges tables). congruence.
    + by apply sublist_cons.
  - unfold GroupSplit.split_sst_with_table_ids in Hrun.
    destruct (IH _ _ _ _ _ _ Hok (wrap_is_uint 64 _ ltac:(lia)) Hrun) as (Hid' & k & m & -> & -> & Hkm & Hk & Hm). split; [done|].
    eexists (_ :: k), (_ :: m). rewrite <-!app_assoc. split; [done|]. split; [done|].
    apply Forall_app in Hkm as [Hwk Hwm]. split.
    + apply Forall_app_2; (constructor; [|done]); (apply rebuild_ids_wf; [done|]); apply sorted_filter; [apply Hs|apply btree_set_sorted].
    + unfold ranges in *. csimpl. rewrite Hk. split; [done|by apply sublist_skip].
Qed.

Lemma split_by_ids_wf idx ids level id level' moved id' :
  level_wf idx level → is_uint 64 id → HummockVersion.split_sst_info_for_level ids level id = (level', moved, id') →
  split_ok idx level level' moved id'.
Proof.
  intros Hl Hid Hrun. pose proof Hl as (_ & _ & Hok & Hs). unfold HummockVersion.split_sst_info_for_level in Hrun.
  destruct (foldl _ _ _) as [[kept mv] i] eqn:E. injection Hrun as <- <- <-.
  destruct (split_by_ids_ranges _ _ _ _ _ _ _ _ Hok Hid E) as (Hi & k & m & -> & -> & [Hk Hm]%Forall_app & Rk & Rm).
  split; [apply level_wf_tables; [done..|]|split_and!; try done]; intros Hty%Hs%sorted_ranges; apply sorted_ranges; cbn [app].
  - by rewrite Rk.
  - by eapply sorted_sublist.
Qed.

(** The loop over the sub-levels of L0, for either way of splitting a sub-level. *)
Definition l0_moves (step : HummockVersion.l0_state → Level.t → outcome HummockVersion.l0_state) : Prop :=
  ∀ subs sizes target id level st,
    level_wf 0 level → is_uint 64 id → step (subs, sizes, target, id) level = Ret st →
    ∃ level' moved id' sizes' target', split_ok 0 level level' moved id' ∧
      (moved = [] ∧ target' = target ∨
       moved ≠ [] ∧ HummockVersion.move_to_l0 target (HummockVersion.purge level') moved = Ret target') ∧
      ∃ lv, (lv = level' ∨ lv = HummockVersion.purge level') ∧ st = (subs ++ [lv], sizes', target', id').

Lemma split_l0_moves key : split_key_ok key → l0_moves (HummockVersion.split_l0_step key).
Proof.
  intros Hkey subs sizes target id level st Hl Hid Hrun. apply bind_Ret in Hrun as ([[lv m] i'] & Hsp & Hrun).
  apply (split_level_wf 0) in Hsp; [|done..]. case_bool_decide as Em.
  - injection Hrun as <-. do 5 eexists. split; [exact Hsp|]. split; [by left|]. eauto.
  - apply bind_Ret in Hrun as (target' & Hmv & [= <-]). do 5 eexists. split; [exact Hsp|]. split; [by right|]. eauto.
Qed.

Lemma member_l0_moves ids : l0_moves (HummockVersion.member_l0_step ids).
Proof.
  intros subs sizes target id level st Hl Hid Hrun. unfold HummockVersion.member_l0_step in Hrun.
  destruct (HummockVersion.split_sst_info_for_level ids level id) as [[lv m] i'] eqn:Hsp.
  apply (split_by_ids_wf 0) in Hsp; [|done..]. case_bool_decide as Em.
  - injection Hrun as <-. do 5 eexists. split; [exact Hsp|]. split; [by left|]. eauto.
  - apply bind_Ret in Hrun as (target' & Hmv & [= <-]). do 5 eexists. split; [exact Hsp|]. split; [by right|]. eauto.
Qed.

Lemma l0_loop_wf step subs sizes target id st :
  l0_moves step → subs_wf subs → subs_wf (OverlappingLevel.sub_levels target) → all_nonempty (OverlappingLevel.sub_levels target) →
  is_uint 64 id → rfold step subs ([], sizes, target, id) = Ret st →
  subs_wf st.1.1.1 ∧ subs_wf (OverlappingLevel.sub_levels st.1.2) ∧ all_nonempty (OverlappingLevel.sub_levels st.1.2) ∧ is_uint 64 st.2.
Proof.
  intros Hstep [Hw Hids] Ht Hno Hid Hrun.
  pose proof (rfold_inv_Ret _ (λ dn (st : HummockVersion.l0_state), Forall (level_wf 0) st.1.1.1 ∧
    (Level.sub_level_id <$> st.1.1.1) = (Level.sub_level_id <$> dn) ∧ subs_wf (OverlappingLevel.sub_levels st.1.2) ∧
    all_nonempty (OverlappingLevel.sub_levels st.1.2) ∧ is_uint 64 st.2) _ _ _ Hrun) as Hinv.
  destruct Hinv as (H1 & H2 & H3 & H4 & H5); [by split_and!; [apply Forall_nil_2|..]| |split_and!; try done; split; [done|by rewrite H2]].
  intros dn level todo [[[sb sz] tg] i] st2 Hsubs (I1 & I2 & I3 & I4 & I5) Hrun2. cbn [fst snd] in *.
  assert (level_wf 0 level) as Hl by (rewrite Hsubs, Forall_app, Forall_cons in Hw; apply Hw).
  destruct (Hstep _ _ _ _ _ _ Hl I5 Hrun2) as (lv & m & i' & sz' & tg' & (Hlv & Hm & Hms & Hty & Hsid & Hi') & Hmv & lv' & Hlv' & ->).
  cbn [fst snd]. destruct (purge_fields lv) as [Pid Pty].
  assert (level_wf 0 lv' ∧ Level.sub_level_id lv' = Level.sub_level_id level) as [Hw' Hid'].
  { destruct Hlv' as [-> | ->]; [done|]. split; [by apply purge_wf|congruence]. }
  split; [apply Forall_app_2; [done|by apply Forall_singleton]|]. split; [rewrite !fmap_app, I2; csimpl; by rewrite Hid'|].
  destruct Hmv as [[-> ->]|[Hne Hmv]]; [done|].
  destruct (move_to_l0_wf tg (HummockVersion.purge lv) m tg'); [done|done|rewrite Pty, Hty; apply Hl|done|done|by rewrite Pty, Hty|done|done].
Qed.

(** The loop over the other levels. *)
Definition level_moves (step : list Level.t * list Level.t * Z → nat * Level.t → outcome (list Level.t * list Level.t * Z)) : Prop :=
  ∀ ls cur id idx level st,
    level_wf (Z.of_nat idx + 1) level → is_uint 64 id → step (ls, cur, id) (idx, level) = Ret st →
    ∃ level' moved id' cur', split_ok (Z.of_nat idx + 1) level level' moved id' ∧
      (cur' = cur ∨ ∃ c c', cur !! idx = Some c ∧ extend_sorted c moved = Ret c' ∧ cur' = <[idx := c']> cur) ∧
      ∃ lv, (lv = level' ∨ lv = HummockVersion.purge level') ∧ st = (ls ++ [lv], cur', id').

Lemma split_level_moves key : split_key_ok key → level_moves (HummockVersion.split_level_step key).
Proof.
  intros Hkey ls cur id idx level st Hl Hid Hrun. apply bind_Ret in Hrun as ([[lv m] i'] & Hsp & Hrun).
  apply (split_level_wf (Z.of_nat idx + 1)) in Hsp; [|done..]. case_bool_decide as Em.
  - injection Hrun as <-. do 4 eexists. split; [exact Hsp|]. split; [by left|]. eauto.
  - apply bind_Ret in Hrun as (c & Hc%unwrap_Ret & Hrun). apply bind_Ret in Hrun as (c' & Hc' & [= <-]).
    do 4 eexists. split; [exact Hsp|]. split; [right; eauto|]. eauto.
Qed.

Lemma member_level_moves ids : level_moves (HummockVersion.member_level_step ids).
Proof.
  intros ls cur id idx level st Hl Hid Hrun. unfold HummockVersion.member_level_step in Hrun.
  destruct (HummockVersion.split_sst_info_for_level ids level id) as [[lv m] i'] eqn:Hsp.
  apply (split_by_ids_wf (Z.of_nat idx + 1)) in Hsp; [|done..].
  apply bind_Ret in Hrun as (c & Hc%unwrap_Ret & Hrun). apply bind_Ret in Hrun as (c' & Hc' & [= <-]).
  do 4 eexists. split; [exact Hsp|]. split; [right; eauto|]. eauto.
Qed.

Lemma base_wf_snoc (ls : list Level.t) level :
  base_wf ls → level_wf (Z.of_nat (length ls) + 1) level → Level.level_type level = LevelType.Nonoverlapping → base_wf (ls ++ [level]).
Proof.
  intros Hb Hl Hty j x Hj. apply lookup_app_Some in Hj as [Hj|[Hge Hj]]; [by apply Hb|].
  apply list_lookup_singleton_Some in Hj as [Hj <-]. by replace j with (length ls) by lia.
Qed.

Lemma levels_loop_wf step (ls cur : list Level.t) id st :
  level_moves step → base_wf ls → base_wf cur → is_uint 64 id →
  rfold step (imap pair ls) ([], cur, id) = Ret st → base_wf st.1.1 ∧ base_wf st.1.2.
Proof.
  intros Hstep Hls Hcur Hid Hrun.
  pose proof (rfold_inv_Ret _ (λ dn (st : list Level.t * list Level.t * Z), length st.1.1 = length dn ∧ base_wf st.1.1 ∧ base_wf st.1.2 ∧ is_uint 64 st.2)
    _ _ _ Hrun) as Hinv.
  destruct Hinv as (_ & H1 & H2 & _); [by split_and!| |done].
  intros dn [idx level] todo [[dl cl] i] st2 Hsplit (I1 & I2 & I3 & I4) Hrun2. cbn [fst snd] in *.
  assert (idx = length dl ∧ ls !! idx = Some level) as [-> Hlv].
  { assert (imap pair ls !! length dn = Some (idx, level)) as Hlk by (rewrite Hsplit, lookup_app_r, Nat.sub_diag by lia; done).
    rewrite list_lookup_imap in Hlk. destruct (ls !! length dn) as [x|] eqn:Ex; [|done]. injection Hlk as <- <-. by rewrite I1. }
  destruct (Hls _ _ Hlv) as [Hl Hty].
  destruct (Hstep _ _ _ _ _ _ Hl I4 Hrun2) as (lv & m & i' & cl' & (Hlvw & Hm & _ & Hty' & _ & Hi') & Hcl & lv' & Hlv' & ->).
  cbn [fst snd]. split; [by rewrite !length_app, I1|]. split.
  - destruct Hlv' as [-> | ->]; (apply base_wf_snoc; [done|..]); [done|congruence|by apply purge_wf|]. rewrite (proj2 (purge_fields lv)). congruence.
  - split; [|done]. destruct Hcl as [-> | (c & c' & Hc & Hext & ->)]; [done|]. destruct (I3 _ _ Hc) as [Hcw Hct].
    destruct (extend_sorted_wf _ c m c' Hcw Hm Hext) as (Hcw' & Hct' & _). apply base_wf_insert; [done|done|congruence].
Qed.

(** Both groups after the split. *)
Lemma nonempty_filter (subs : list Level.t) : all_nonempty (filter (λ level, no_tables level = false) subs).
Proof. apply Forall_forall. intros level [Hne _]%list_elem_of_filter. unfold no_tables in Hne. by apply bool_decide_eq_false in Hne. Qed.

Lemma split_result_wf step0 step1 p c parent cur sizes start subs' sizes' target id1 pl cl id2 (a b : Z) :
  l0_moves step0 → level_moves step1 → group_wf p parent → group_wf c cur → is_uint 64 start →
  rfold step0 (sub_levels parent) ([], sizes, Levels.l0 cur, start) = Ret (subs', sizes', target, id1) →
  rfold step1 (imap pair (Levels.levels parent)) ([], Levels.levels cur, id1) = Ret (pl, cl, id2) →
  group_wf p (Levels.with_levels (Levels.with_l0 parent
    (OverlappingLevel.mk (filter (λ level, no_tables level = false) subs') a b)) pl) ∧
  group_wf c (Levels.with_levels (Levels.with_l0 cur target) cl).
Proof.
  intros H0 H1 [(Hp & Hps & Hpb) Hpn] [(Hc & Hcs & Hcb) Hcn] Hid Hr0 Hr1.
  destruct (l0_loop_wf _ _ _ _ _ _ H0 Hps Hcs Hcn Hid Hr0) as (A1 & A2 & A3 & A4). cbn [fst snd] in *.
  destruct (levels_loop_wf _ _ _ _ _ H1 Hpb Hcb A4 Hr1) as [B1 B2]. cbn [fst snd] in *.
  split; (split; [split_and!; [done| |done]|]); [by apply subs_wf_filter|apply nonempty_filter|done|done].
Qed.

Definition groups_wf (levels : gmap Z Levels.t) : Prop := ∀ g group, levels !! g = Some group → group_wf g group.

Lemma groups_wf_insert levels g group : groups_wf levels → group_wf g group → groups_wf (<[g := group]> levels).
Proof. intros Hw Hg g' group' [[-> ->]|[_ ?]]%lookup_insert_Some; [done|by apply Hw]. Qed.

Lemma init_with_parent_group_v2_wf levels p g start key levels' :
  groups_wf levels → split_key_ok key → is_uint 64 start →
  HummockVersion.init_with_parent_group_v2 levels p g start key = Ret levels' → groups_wf levels'.
Proof.
  intros Hw Hkey Hid Hrun. unfold HummockVersion.init_with_parent_group_v2 in Hrun. destruct (p =? _)%Z; [by injection Hrun as <-|].
  apply bind_Ret in Hrun as (_ & _ & Hrun). apply bind_Ret in Hrun as (parent & Hp%unwrap_Ret & Hrun).
  apply bind_Ret in Hrun as (cur & Hc%unwrap_Ret & Hrun). apply bind_Ret in Hrun as ([[parent' cur'] id'] & Hsp & [= <-]).
  unfold HummockVersion.split_groups in Hsp. apply bind_Ret in Hsp as ([[[subs sizes] target] id1] & H1 & Hsp).
  apply bind_Ret in Hsp as ([[pl cl] id2] & H2 & Hsp). outcome_inv. simplify_eq.
  destruct (split_result_wf _ _ p g _ _ _ _ _ _ _ _ _ _ _ sizes.1 sizes.2 (split_l0_moves _ Hkey) (split_level_moves _ Hkey)
    (Hw _ _ Hp) (Hw _ _ Hc) Hid H1 H2) as [Hpw Hcw].
  by apply groups_wf_insert; [apply groups_wf_insert|].
Qed.

Lemma init_with_parent_group_wf levels p g ids start levels' :
  groups_wf levels → is_uint 64 start → HummockVersion.init_with_parent_group levels p g ids start = Ret levels' → groups_wf levels'.
Proof.
  intros Hw Hid Hrun. unfold HummockVersion.init_with_parent_group in Hrun. destruct (p =? _)%Z; [by injection Hrun as <-|].
  apply bind_Ret in Hrun as (_ & _ & Hrun). apply bind_Ret in Hrun as (parent & Hp%unwrap_Ret & Hrun).
  apply bind_Ret in Hrun as (cur & Hc%unwrap_Ret & Hrun). apply bind_Ret in Hrun as ([[[subs sizes] target] id1] & H1 & Hrun).
  apply bind_Ret in Hrun as ([[pl cl] id2] & H2 & Hrun). outcome_inv. simplify_eq.
  destruct (split_result_wf _ _ p g _ _ _ _ _ _ _ _ _ _ _ sizes.1 sizes.2 (member_l0_moves ids) (member_level_moves ids)
    (Hw _ _ Hp) (Hw _ _ Hc) Hid H1 H2) as [Hpw Hcw].
  by apply groups_wf_insert; [apply groups_wf_insert|].
Qed.

(** ** Merging *)

Lemma merge_subs_wf rewrite subs l0 next st :
  subs_wf subs → subs_wf (OverlappingLevel.sub_levels l0) → rfold (GroupSplit.merge_sub_level rewrite) subs (l0, next) = Ret st →
  subs_wf (OverlappingLevel.sub_levels st.1) ∧
  (all_nonempty subs → all_nonempty (OverlappingLevel.sub_levels l0) → all_nonempty (OverlappingLevel.sub_levels st.1)).
Proof.
  intros [Hw _] Hl0 Hrun.
  pose proof (rfold_inv_Ret _ (λ (_ : list Level.t) (st : OverlappingLevel.t * Z), subs_wf (OverlappingLevel.sub_levels st.1) ∧
    (all_nonempty subs → all_nonempty (OverlappingLevel.sub_levels l0) → all_nonempty (OverlappingLevel.sub_levels st.1))) _ _ _ Hrun) as Hinv.
  apply Hinv; [done|]. intros dn level todo [l n] st2 Hsubs [I1 I2] Hstep. cbn [fst] in *.
  assert (level_wf 0 level) as (_ & Hty & Hok & Hs) by (rewrite Hsubs, Forall_app, Forall_cons in Hw; apply Hw).
  unfold GroupSplit.merge_sub_level in Hstep. destruct (if rewrite then _ else _) as [id n'].
  apply bind_Ret in Hstep as (l' & Hins & [= <-]). destruct (insert_last_wf l id _ _ l' I1 Hty Hok Hs Hins) as [H1 H2]. split; [done|].
  intros Hn Hn0. cbn [fst]. specialize (I2 Hn Hn0). destruct H2 as [-> | ->]; [done|].
  apply Forall_app_2; [done|]. apply Forall_singleton. rewrite Hsubs, Forall_app, Forall_cons in Hn. apply Hn.
Qed.

Lemma merge_base_wf (right left left' : list Level.t) :
  base_wf right → base_wf left → rfold GroupSplit.merge_level (imap pair right) left = Ret left' → base_wf left'.
Proof.
  intros Hr Hl Hrun. apply (rfold_inv_Ret _ (λ (_ : list (nat * Level.t)) acc, base_wf acc) _ _ _ Hrun); [done|].
  intros dn [idx level] todo acc acc' Hsplit Hacc Hstep. unfold GroupSplit.merge_level in Hstep. destruct (no_tables level); [by injection Hstep as <-|].
  apply bind_Ret in Hstep as (lv & Hlv%unwrap_Ret & Hstep). apply bind_Ret in Hstep as (lv' & Hext & [= <-]).
  assert ((idx, level) ∈ imap pair right) as Hin by (rewrite Hsplit; apply elem_of_app; right; left).
  apply elem_of_lookup_imap in Hin as (i & x & [= -> ->] & Hx). destruct (Hr _ _ Hx) as [(_ & _ & Hok & _) _].
  destruct (Hacc _ _ Hlv) as [Hw Hty]. destruct (extend_sorted_wf _ _ _ _ Hw Hok Hext) as (Hw' & Hty' & _).
  apply base_wf_insert; [done|done|congruence].
Qed.

Lemma merge_levels_wf g g' left right group :
  group_weak g left → group_weak g' right → GroupSplit.merge_levels left right = Ret group →
  group_weak g group ∧ (no_empty_sub left → no_empty_sub right → no_empty_sub group).
Proof.
  intros (Hg & Hls & Hlb) (_ & Hrs & Hrb) Hrun. unfold GroupSplit.merge_levels in Hrun.
  apply bind_Ret in Hrun as ([l0 n] & Hsubs & Hrun). apply bind_Ret in Hrun as ([] & _ & Hrun).
  apply bind_Ret in Hrun as (base & Hbase & [= <-]). destruct (merge_subs_wf _ _ _ _ _ Hrs Hls Hsubs) as [H1 H2]. cbn [fst] in *. split.
  - split_and!; [done| |exact (merge_base_wf _ _ _ Hrb Hlb Hbase)]. apply subs_wf_fmap; [|done|done]. intros level Hl. exact Hl.
  - intros Hn1 Hn2. apply Forall_fmap. exact (H2 Hn2 Hn1).
Qed.

(** ** Applying the deltas of a group *)

(** Deltas as they are built: well-formed new tables, a table's split key, and a merge listed
    under a group other than the one it removes. *)
Definition construct_ok (gc : GroupConstruct.t) : Prop :=
  (∀ max_level, GroupConstruct.group_config gc = Some max_level → (Z.of_nat max_level < 2 ^ 32)%Z) ∧
  is_uint 64 (GroupConstruct.new_sst_start_id gc) ∧ split_key_ok (GroupConstruct.split_key gc).

Definition group_delta_ok (cg : Z) (delta : GroupDelta.t) : Prop :=
  match delta with
  | GroupDelta.NewL0SubLevel tables => Forall sst_wf tables
  | GroupDelta.IntraLevel delta => (0 <= IntraLevelDelta.level_idx delta)%Z ∧ Forall sst_wf (IntraLevelDelta.inserted_table_infos delta)
  | GroupDelta.GroupConstruct gc => construct_ok gc
  | GroupDelta.GroupMerge _ right_group_id => right_group_id ≠ cg
  | GroupDelta.GroupDestroy => True
  end.

Lemma initial_levels_wf g max_level parent ids :
  (Z.of_nat max_level < 2 ^ 32)%Z →
  let initial := build_initial_compaction_group_levels g max_level in
  group_wf g (Levels.mk (Levels.levels initial) (Levels.l0 initial) (Levels.group_id initial) parent ids).
Proof.
  intros Hm. split; [|by apply Forall_nil_2]. split_and!; [done|split; constructor|]. intros i level Hi. cbn [Levels.levels] in Hi.
  apply list_lookup_fmap_Some in Hi as (l & -> & Hl). apply lookup_seq in Hl as [-> Hlt]. split; [|done].
  split_and!; [|done|by apply Forall_nil_2|intros _; constructor]. cbn. rewrite wrap_small by (unfold is_uint; lia). lia.
Qed.

Lemma construct_group_wf info cg gc levels levels' :
  groups_wf (delete cg levels) → construct_ok gc → construct_group info cg gc levels = Ret levels' → groups_wf levels'.
Proof.
  intros Hw (Hmax & Hid & Hkey) Hrun. unfold construct_group in Hrun. apply bind_Ret in Hrun as (m & Hm%unwrap_Ret & Hrun).
  assert (groups_wf (<[cg := Levels.mk (Levels.levels (build_initial_compaction_group_levels cg m))
    (Levels.l0 (build_initial_compaction_group_levels cg m)) (Levels.group_id (build_initial_compaction_group_levels cg m))
    (GroupConstruct.parent_group_id gc) (GroupConstruct.table_ids gc)]> levels)) as Hins.
  { rewrite <-insert_delete_eq. apply groups_wf_insert; [done|]. apply initial_levels_wf; auto. }
  destruct (SplitGroupByTableId <=? _)%Z; [by eapply init_with_parent_group_v2_wf|by eapply init_with_parent_group_wf].
Qed.

(** While the deltas of group [cg] are applied, only [cg] can have empty sub-levels, and only
    after a compaction of L0. *)
Definition loop_ok (cg : Z) (st : gmap Z Levels.t * bool) : Prop :=
  ∀ g group, st.1 !! g = Some group → group_weak g group ∧ ((g = cg → st.2 = false) → no_empty_sub group).

Lemma loop_ok_wf cg levels flag : groups_wf levels → loop_ok cg (levels, flag).
Proof. intros Hw g group Hg. destruct (Hw g group Hg). auto. Qed.

Lemma loop_ok_insert cg levels flag g group flag' :
  loop_ok cg (levels, flag) → (flag = true → flag' = true) → group_weak g group → ((g = cg → flag' = false) → no_empty_sub group) →
  loop_ok cg (<[g := group]> levels, flag').
Proof.
  intros Hok Hflag Hw Hn g' group' Hg. cbn [fst snd] in *. apply lookup_insert_Some in Hg as [[-> ->]|[Hne Hg]]; [auto|].
  destruct (Hok g' group' Hg) as [Hw' Hno]. split; [done|]. intros H. apply Hno. intros Hcg. apply not_true_is_false.
  intros Hf%Hflag. rewrite H in Hf; done.
Qed.

Lemma group_merge_ok cg levels flag ls rs l r levels' :
  loop_ok cg (levels, flag) → r ≠ cg → HummockVersion.merge_compaction_group levels ls rs l r = Ret levels' → loop_ok cg (levels', flag).
Proof.
  intros Hok Hr Hrun. unfold HummockVersion.merge_compaction_group in Hrun. apply bind_Ret in Hrun as (_ & _ & Hrun).
  apply bind_Ret in Hrun as (right & Hright%unwrap_Ret & Hrun). apply bind_Ret in Hrun as (left & Hleft%unwrap_Ret & Hrun).
  apply bind_Ret in Hrun as (group & Hm & [= <-]). apply lookup_delete_Some in Hleft as [Hne Hleft].
  destruct (Hok _ _ Hleft) as [Lw Ln]. destruct (Hok _ _ Hright) as [Rw Rn]. destruct (merge_levels_wf _ _ _ _ _ Lw Rw Hm) as [Gw Gn].
  apply (loop_ok_insert _ _ flag); [|done|done|intros H; apply Gn; [auto|by apply Rn]]. intros g x Hx. cbn [fst] in Hx. apply lookup_delete_Some in Hx as [_ Hx]. by apply Hok.
Qed.

Lemma group_delta_step_ok info is_commit_epoch cg delta st st' :
  loop_ok cg st → group_delta_ok cg delta → group_delta_step info is_commit_epoch cg st delta = Ret st' → loop_ok cg st'.
Proof.
  intros Hok Hd Hrun. destruct st as [levels flag]. destruct delta as [tables|delta|gc| |l r]; cbn [group_delta_step group_delta_ok] in *.
  - apply bind_Ret in Hrun as (group & Hg%unwrap_Ret & Hrun). apply bind_Ret in Hrun as (_ & _ & Hrun).
    apply bind_Ret in Hrun as (group' & Hadd & [= <-]). destruct (Hok _ _ Hg) as [Hw Hn].
    destruct (add_l0_wf _ _ _ _ _ Hw Hd Hadd). apply (loop_ok_insert _ _ flag); auto.
  - apply bind_Ret in Hrun as (group & Hg%unwrap_Ret & Hrun). destruct (Hok _ _ Hg) as [Hw Hn]. destruct Hd as [Hidx Htables]. destruct is_commit_epoch.
    + apply bind_Ret in Hrun as (_ & _ & Hrun). apply bind_Ret in Hrun as (_ & _ & Hrun). apply bind_Ret in Hrun as (group' & Hadd & [= <-]).
      destruct (add_l0_wf _ _ _ _ _ Hw Htables Hadd). apply (loop_ok_insert _ _ flag); auto.
    + apply bind_Ret in Hrun as (group' & Hc & [= <-]). apply (loop_ok_insert _ _ flag); [done| |by eapply apply_compact_wf|].
      * by destruct (_ =? 0)%Z.
      * destruct (Z.eqb_spec (IntraLevelDelta.level_idx delta) 0) as [_|Hne]; [intros H; by specialize (H eq_refl)|].
        intros H. unfold no_empty_sub. rewrite (apply_compact_subs _ _ _ _ Hne Hc). exact (Hn H).
  - apply bind_Ret in Hrun as (levels' & Hc & [= <-]). apply loop_ok_wf. eapply construct_group_wf; [|exact Hd|exact Hc].
    intros g group [Hne Hg]%lookup_delete_Some. destruct (Hok _ _ Hg) as [? Hn]. split; [done|]. apply Hn. congruence.
  - injection Hrun as <-. intros g group Hg. cbn [fst] in Hg. apply lookup_delete_Some in Hg as [_ Hg]. by apply Hok.
  - apply bind_Ret in Hrun as (levels' & Hm & [= <-]). by eapply group_merge_ok.
Qed.

Lemma group_deltas_step_wf info is_commit_epoch levels entry levels' :
  groups_wf levels → Forall (group_delta_ok entry.1) entry.2 → group_deltas_step info is_commit_epoch levels entry = Ret levels' →
  groups_wf levels'.
Proof.
  intros Hw Hd Hrun. unfold group_deltas_step in Hrun. apply bind_Ret in Hrun as ([lv flag] & Hloop & [= <-]).
  assert (loop_ok entry.1 (lv, flag)) as Hok.
  { apply (rfold_inv_Ret _ (λ (_ : list GroupDelta.t) st, loop_ok entry.1 st) _ _ _ Hloop); [by apply loop_ok_wf|].
    intros dn delta todo st st' Hsplit Hst Hstep. eapply group_delta_step_ok; [exact Hst| |exact Hstep].
    rewrite Hsplit, Forall_app, Forall_cons in Hd. apply Hd. }
  intros g group Hg. destruct flag.
  - destruct (decide (g = entry.1)) as [->|Hne].
    + rewrite lookup_alter_eq in Hg. apply fmap_Some in Hg as (old & Hold & ->). by apply post_apply_wf, (Hok _ _ Hold).
    + rewrite lookup_alter_ne in Hg by done. destruct (Hok _ _ Hg) as [? Hn]. split; [done|]. by apply Hn.
  - destruct (Hok _ _ Hg) as [? Hn]. split; [done|]. by apply Hn.
Qed.

(** ** Applying a delta to a version *)

Definition delta_ok (delta : HummockVersionDelta.t) : Prop :=
  ∀ cg deltas, HummockVersionDelta.group_deltas delta !! cg = Some deltas → Forall (group_delta_ok cg) deltas.

Lemma apply_version_delta_inv `{HashOrder} v delta v' :
  apply_version_delta v delta = Ret v' →
  id v = HummockVersionDelta.prev_id delta ∧ id v' = HummockVersionDelta.id delta ∧
  ∃ changed bumped is_commit_epoch,
    HummockVersionStateTableInfo.apply_delta (state_table_info v) (HummockVersionDelta.state_table_info_delta delta)
      (HummockVersionDelta.removed_table_ids delta) = Ret (state_table_info v', changed, bumped) ∧
    rfold (group_deltas_step (state_table_info v') is_commit_epoch) (iter_map (HummockVersionDelta.group_deltas delta)) (levels v) =
      Ret (levels v').
Proof.
  intros Hrun. unfold apply_version_delta in Hrun. apply bind_Ret in Hrun as (_ & Hid%rassert_Ret & Hrun).
  apply bind_Ret in Hrun as ([[info changed] bumped] & Hinfo & Hrun). apply bind_Ret in Hrun as (lv & Hlv & Hrun).
  apply bind_Ret in Hrun as (ws & _ & Hrun). apply bind_Ret in Hrun as (logs & _ & [= <-]). split; [by apply Z.eqb_eq|]. split; [done|]. eauto.
Qed.

Lemma apply_version_delta_wf `{HashOrder} v delta v' :
  version_wf v → delta_ok delta → apply_version_delta v delta = Ret v' → version_wf v'.
Proof.
  intros [Hw Hix] Hd Hrun. apply apply_version_delta_inv in Hrun as (_ & _ & changed & bumped & commit & Hinfo & Hlv). split.
  - apply (rfold_inv_Ret _ (λ (_ : list (Z * list GroupDelta.t)) acc, groups_wf acc) _ _ _ Hlv); [exact Hw|].
    intros dn [cg deltas] todo acc acc' Hsplit Hacc Hstep. refine (group_deltas_step_wf _ _ _ _ _ Hacc _ Hstep). apply Hd.
    apply iter_map_elem. rewrite Hsplit. apply elem_of_app. right. left.
  - by apply (apply_delta_exact _ _ _ Hix) in Hinfo as (Hix' & _).
Qed.

(** The delta [version_delta_after] prepares changes nothing but the id. *)
Lemma version_delta_after_id `{HashOrder} v :
  table_watermarks v = ∅ →
  apply_version_delta v (version_delta_after v) =
    Ret (mk (next_version_id v) (levels v) (max_committed_epoch v) ∅ (table_change_log v) (state_table_info v)).
Proof.
  intros Hw. assert (∀ A, iter_map (∅ : gmap Z A) = []) as Hm.
  { intros A. pose proof (iter_map_perm (∅ : gmap Z A)) as Hp. rewrite map_to_list_empty in Hp. by apply Permutation_nil_r in Hp. }
  assert (iter_set (∅ : gset Z) = []) as Hset.
  { pose proof (iter_set_perm (∅ : gset Z)) as Hp. rewrite elements_empty in Hp. by apply Permutation_nil_r in Hp. }
  unfold apply_version_delta, version_delta_after. cbn [HummockVersionDelta.prev_id]. rewrite Z.eqb_refl. cbn [rassert mbind outcome_bind].
  unfold HummockVersionStateTableInfo.apply_delta, apply_watermarks, apply_change_log_delta. cbn. rewrite Hset, !Hm, Hw, !Hm. cbn.
  rewrite Hm. cbn. do 2 f_equal. apply map_filter_id. intros t log _. unfold keep_log. by rewrite lookup_empty.
Qed.

(** The versions that deltas lead to from the initial version, each under some iteration
    order of the hash maps. *)
Inductive reachable (max_level : nat) : HummockVersionCommon.t → Prop :=
  | reachable_init : reachable max_level (create_init_version max_level)
  | reachable_step (order : HashOrder) v delta v' :
      reachable max_level v → delta_ok delta → apply_version_delta v delta = Ret v' → reachable max_level v'.

Lemma create_init_version_wf max_level : (Z.of_nat max_level < 2 ^ 32)%Z → version_wf (create_init_version max_level).
Proof.
  intros Hm. split.
  - intros g group Hg. cbn in Hg. apply lookup_insert_Some in Hg as [[<- <-]|[_ Hg]]; [exact (initial_levels_wf _ _ 0 [] Hm)|].
    apply lookup_singleton_Some in Hg as [<- <-]. exact (initial_levels_wf _ _ 0 [] Hm).
  - apply index_ok_empty.
Qed.

Lemma reachable_wf max_level v : (Z.of_nat max_level < 2 ^ 32)%Z → reachable max_level v → version_wf v.
Proof. intros Hm. induction 1 as [|order v delta v' _ IH Hd Hrun]; [by apply create_init_version_wf|by eapply apply_version_delta_wf]. Qed.

(** Committed epochs never go back. *)
Lemma committed_epoch_mono `{HashOrder} v delta v' t e :
  version_wf v → apply_version_delta v delta = Ret v' → t ∉ HummockVersionDelta.removed_table_ids delta →
  table_committed_epoch v t = Some e → ∃ e', table_committed_epoch v' t = Some e' ∧ (e <= e')%Z.
Proof.
  intros [_ Hix] Hrun Ht He. apply apply_version_delta_inv in Hrun as (_ & _ & changed & bumped & commit & Hinfo & _).
  destruct (apply_delta_exact _ (HummockVersionDelta.state_table_info_delta delta) (HummockVersionDelta.removed_table_ids delta) Hix) as [Hret Hex].
  assert (returns (HummockVersionStateTableInfo.apply_delta (state_table_info v) (HummockVersionDelta.state_table_info_delta delta)
    (HummockVersionDelta.removed_table_ids delta))) as Hmono by (rewrite Hinfo; by eexists).
  destruct (Hex _ _ _ Hinfo) as (_ & Hlk & _). unfold table_committed_epoch in *. rewrite Hlk, decide_False by done.
  apply fmap_Some in He as (i & Hi & ->). destruct (HummockVersionDelta.state_table_info_delta delta !! t) as [j|] eqn:Ej.
  - exists (StateTableInfo.committed_epoch j). split; [done|]. by eapply (proj1 Hret Hmono).
  - exists (StateTableInfo.committed_epoch i). by rewrite Hi.
Qed.

(** ** [validate_version] *)

Lemma strict_strictly_sorted ids : StronglySorted Z.lt ids → strictly_sorted ids = true.
Proof.
  induction 1 as [|x ids Hs IH Hf]; [done|]. destruct ids as [|y ids]; [done|]. change ((x <? y)%Z && strictly_sorted (y :: ids) = true).
  apply Forall_cons in Hf as [Hxy _]. rewrite IH, andb_true_r. by apply Z.ltb_lt.
Qed.

Lemma validate_tables_none g level res tables : ∀ prev,
  Forall sst_wf tables → (Level.level_type level = LevelType.Nonoverlapping → StronglySorted before (option_list prev ++ tables)) →
  ∃ prev', rfold (validate_table g level) tables (res, prev) = Ret (res, prev').
Proof.
  induction tables as [|s tables IH]; intros prev Hok Hs; [by exists prev|]. apply Forall_cons in Hok as [[_ Hst] Hok].
  cbn [rfold validate_table]. rewrite strict_strictly_sorted by done. case_bool_decide as Hty; [|apply IH; [done|by intros ?]].
  specialize (Hs Hty). destruct prev as [p|]; cbn [option_list app] in Hs.
  - apply StronglySorted_cons in Hs as [Hf Hs]. apply Forall_cons in Hf as [Hp _]. unfold before in Hp. rewrite Hp. cbn [mbind outcome_bind].
    by apply IH.
  - cbn [mbind outcome_bind]. by apply IH.
Qed.

Lemma validate_level_none g idx level res :
  level_wf idx level → (idx = 0%Z → Level.table_infos level ≠ []) → (idx ≠ 0%Z → Level.level_type level = LevelType.Nonoverlapping) →
  validate_level g idx level res = Ret res.
Proof.
  intros (Hidx & Hty & Hok & Hs) Hne Hnon. unfold validate_level. rewrite Hidx, Z.eqb_refl.
  assert ((if (idx =? 0)%Z then if no_tables level then res ++ [EmptySubLevel g (Level.sub_level_id level)] else res
    else if bool_decide (Level.level_type level = LevelType.Nonoverlapping) then res else res ++ [NotNonOverlapping g idx]) = res) as ->.
  { destruct (Z.eqb_spec idx 0) as [E|E]; [|by rewrite bool_decide_true by auto]. unfold no_tables. by rewrite bool_decide_false by auto. }
  destruct (validate_tables_none g level res (Level.table_infos level) None Hok) as [p ->]; [|done].
  intros Ht. apply Hs. by rewrite Ht.
Qed.

(** What the test of the sub-level ids reports: every sub-level but the first of its group. *)
Definition order_errors (g : Z) (subs : list Level.t) : list ValidateError :=
  SubLevelIdOrder g 0 <$> take (length subs - 1) (Level.sub_level_id <$> subs).

Lemma validate_subs_tail g subs : ∀ prev res,
  Forall (level_wf 0) subs → all_nonempty subs → StronglySorted Z.lt (prev :: (Level.sub_level_id <$> subs)) →
  ∃ last, rfold (validate_sub_level g) subs (res, prev) =
    Ret (res ++ (SubLevelIdOrder g 0 <$> take (length subs) (prev :: (Level.sub_level_id <$> subs))), last).
Proof.
  induction subs as [|level subs IH]; intros prev res Hw Hn Hs; [exists prev; by rewrite app_nil_r|].
  apply Forall_cons in Hw as [Hl Hw]. apply Forall_cons in Hn as [Hne Hn]. csimpl in Hs. apply StronglySorted_cons in Hs as [Hf Hs].
  apply Forall_cons in Hf as [Hlt _]. cbn [rfold validate_sub_level]. rewrite (proj2 (Z.leb_le prev _)) by lia.
  rewrite (validate_level_none g 0) by (by auto). cbn [mbind outcome_bind]. rewrite (proj1 Hl).
  destruct (IH (Level.sub_level_id level) (res ++ [SubLevelIdOrder g 0 prev]) Hw Hn Hs) as [last ->].
  exists last. csimpl. by rewrite <-app_assoc.
Qed.

Lemma validate_group_errors g group res :
  group_wf g group → Forall (λ level, Level.sub_level_id level < u64_max)%Z (sub_levels group) →
  validate_group res (g, group) = Ret (res ++ order_errors g (sub_levels group)).
Proof.
  intros [(Hg & [Hw Hids] & Hb) Hn] Hmax. unfold validate_group. rewrite Hg, Z.eqb_refl. unfold no_empty_sub, sub_levels in *.
  assert (∀ res, rfold (λ res '(idx, level), validate_level g (Z.of_nat (idx + 1)) level res) (imap pair (Levels.levels group)) res = Ret res) as Hbase.
  { intros r. apply rfold_id. intros [idx level] Hin acc. apply elem_of_lookup_imap in Hin as (i & x & [= -> ->] & Hx).
    destruct (Hb _ _ Hx). apply validate_level_none; [by rewrite Nat2Z.inj_add|lia|done]. }
  destruct (OverlappingLevel.sub_levels (Levels.l0 group)) as [|level subs]; [cbn [rfold mbind outcome_bind]; by rewrite Hbase, app_nil_r|].
  apply Forall_cons in Hw as [Hl Hw]. apply Forall_cons in Hn as [Hne Hn]. apply Forall_cons in Hmax as [Hlt _].
  cbn [rfold validate_sub_level]. rewrite (proj2 (Z.leb_gt u64_max _)) by lia. rewrite (validate_level_none g 0) by (by auto). cbn [mbind outcome_bind].
  destruct (validate_subs_tail g subs (Level.sub_level_id level) res Hw Hn Hids) as [last ->]. cbn [mbind outcome_bind].
  rewrite Hbase. unfold order_errors. cbn [length]. by rewrite Nat.sub_succ, Nat.sub_0_r.
Qed.

(** C2: versions stay well-formed.  Every version that deltas lead to from the initial one,
    whatever the iteration order of the hash maps, is well-formed: the groups and levels carry
    their own index, the tables have valid key ranges and strictly ascending table ids, levels
    that do not overlap are sorted by key, the sub-levels of L0 are non-empty with ascending
    ids, and the index of member tables agrees with the table information.  Commits,
    compactions, group constructions with a split of the parent, merges and destructions are
    covered.  A delta applies only to the version it was made for, and the committed epoch of
    a table that is not removed never goes back. *)
Theorem reachable_version_invariant max_level v :
  (Z.of_nat max_level < 2 ^ 32)%Z → reachable max_level v →
  version_wf v ∧
  ∀ (order : HashOrder) delta v', apply_version_delta v delta = Ret v' →
    id v = HummockVersionDelta.prev_id delta ∧ id v' = HummockVersionDelta.id delta ∧
    ∀ t e, t ∉ HummockVersionDelta.removed_table_ids delta → table_committed_epoch v t = Some e →
      ∃ e', table_committed_epoch v' t = Some e' ∧ (e <= e')%Z.
Proof.
  intros Hm Hreach. pose proof (reachable_wf _ _ Hm Hreach) as Hw. split; [done|]. intros order delta v' Hrun.
  destruct (apply_version_delta_inv _ _ _ Hrun) as (Hprev & Hid & _). split_and!; [done..|].
  intros t e Ht He. by eapply committed_epoch_mono.
Qed.

(** C39: what [validate_version] finds in a well-formed version.  For every version that deltas
    lead to from the initial one, it reports nothing about group ids, level indexes, empty
    sub-levels, key ranges or table ids; but it reports every sub-level of L0 except the first
    of its group, because it expects the ids to descend while versions keep them ascending. *)
Theorem validate_version_exact `{HashOrder} max_level v :
  (Z.of_nat max_level < 2 ^ 32)%Z → reachable max_level v →
  (∀ g group, levels v !! g = Some group → Forall (λ level, Level.sub_level_id level < u64_max)%Z (sub_levels group)) →
  validate_version v = Ret (concat ((λ '(g, group), order_errors g (sub_levels group)) <$> iter_map (levels v))).
Proof.
  intros Hm Hreach Hmax. destruct (reachable_wf _ _ Hm Hreach) as [Hw _]. unfold validate_version.
  assert (∀ g group, (g, group) ∈ iter_map (levels v) → levels v !! g = Some group) as Hin by (intros g group; apply iter_map_elem).
  assert (∀ l res, (∀ g group, (g, group) ∈ l → levels v !! g = Some group) →
    rfold validate_group l res = Ret (res ++ concat ((λ '(g, group), order_errors g (sub_levels group)) <$> l))) as Hloop.
  { induction l as [|[g group] l IH]; intros res Hl; [by rewrite app_nil_r|]. cbn [rfold].
    pose proof (Hl g group ltac:(left)) as Hg. rewrite validate_group_errors by eauto. cbn [mbind outcome_bind].
    rewrite IH by (intros; apply Hl; by right). csimpl. by rewrite <-app_assoc. }
  by rewrite Hloop.
Qed.

(** ** A version with two commits *)

Definition commit_delta (i e : Z) (table : SstableInfo.t) : HummockVersionDelta.t :=
  HummockVersionDelta.mk (i + 1) i {[ StateDefault := [GroupDelta.NewL0SubLevel [table]] ]} e false ∅ ∅ ∅
    {[ 1%Z := StateTableInfo.mk e StateDefault ]}.

Definition or_else (m : outcome HummockVersionCommon.t) : HummockVersionCommon.t :=
  match m with Ret v => v | Panic => create_init_version 2 end.

Definition version_one : HummockVersionCommon.t :=
  or_else (apply_version_delta (create_init_version 2) (commit_delta 1 10 (two_table_sst 1 1 2 [1; 2]%Z))).
Definition version_two : HummockVersionCommon.t :=
  or_else (apply_version_delta version_one (commit_delta 2 20 (two_table_sst 2 1 2 [1; 2]%Z))).

Lemma commit_delta_ok i e j : delta_ok (commit_delta i e (two_table_sst j 1 2 [1; 2]%Z)).
Proof.
  intros cg deltas Hd. cbn [HummockVersionDelta.group_deltas commit_delta] in Hd. apply lookup_singleton_Some in Hd as [_ <-]. apply Forall_singleton, Forall_singleton. split.
  - by apply two_table_sst_ok.
  - repeat constructor.
Qed.

Lemma version_two_reachable : reachable 2 version_two.
Proof.
  refine (reachable_step 2 default_order version_one _ _ _ (commit_delta_ok 2 20 2) _); [|by vm_compute].
  refine (reachable_step 2 default_order _ _ _ (reachable_init 2) (commit_delta_ok 1 10 1) _). by vm_compute.
Qed.

Lemma reachable_version_invariant_witness : version_wf version_two.
Proof. apply (reachable_version_invariant 2); [lia|exact version_two_reachable]. Defined.

Lemma validate_version_exact_witness : validate_version version_two = Ret [SubLevelIdOrder StateDefault 0 1].
Proof.
  rewrite (validate_version_exact 2).
  - by vm_compute.
  - lia.
  - exact version_two_reachable.
  - intros g group Hg. apply Forall_forall. intros level Hlevel. apply Z.ltb_lt.
    assert (forallb (λ entry : Z * Levels.t, forallb (λ level, Level.sub_level_id level <? u64_max)%Z (sub_levels entry.2))
      (map_to_list (levels version_two)) = true) as Hb by (by vm_compute).
    rewrite forallb_forall in Hb. specialize (Hb (g, group)). rewrite <-list_elem_of_In, elem_of_map_to_list in Hb. specialize (Hb Hg).
    rewrite forallb_forall in Hb. apply Hb. by rewrite <-list_elem_of_In.
Defined.
