(* ===== verification/StateStore.v ===== *)
(** * Local state stores over a mem-table

    [src/storage/src/mem_table.rs] ([merge_stream], [MemtableLocalStateStore]), the traits of
    [store.rs] it is written against, and the sanity checks of [hummock/utils.rs].  The store
    underneath is any implementation of [StateStoreRead] and [StateStoreWrite]; a stream is the
    list of the results it gives.  The theorems are in [StateStoreSpec.v]. *)

From Stdlib Require Import ZArith Lia.
From S2P Require Import Prelude Order Bytes Epoch Bits Bitmap Vnode Key KeySpec KeyRange Watermark Sst Block Iter MemTable.

(** [gen_min_epoch] *)
Definition gen_min_epoch (base_epoch : Z) (retention_seconds : option Z) : Z :=
  match retention_seconds with
  | Some retention_seconds_u32 => Epoch.subtract_ms base_epoch (wrap 64 (retention_seconds_u32 * 1000))
  | None => 0
  end.

Module StorageValue.
Record t := mk { user_value : option (list byte) }.
Definition new_put (v : list byte) : t := mk (Some v).
Definition new_delete : t := mk None.
End StorageValue.

(** What a read may ask for; how it uses the caches is not modelled. *)
Module ReadOptions.
Record t := mk {
  prefix_hint : option (list byte);
  retention_seconds : option Z;
  table_id : Z;
  read_version_from_backup : bool;
  read_committed : bool
}.
End ReadOptions.

Abbreviation StateStoreKeyedRow := (FullKey.t * list byte)%type.

(** The errors of a local store: those of its mem-table and those of the store underneath. *)
Inductive StorageError (E : Type) := MemTableErr (e : MemTableError.t) | StoreErr (e : E).
Arguments MemTableErr {E} e.
Arguments StoreErr {E} e.

(** [StateStoreRead] and [StateStoreWrite].  A write returns the store after it. *)
Class StateStore (S E : Type) := {
  get_keyed_row : S → TableKey.t → Z → ReadOptions.t → outcome (E + option StateStoreKeyedRow);
  iter : S → TableKeyRange → Z → ReadOptions.t → outcome (E + list (E + StateStoreKeyedRow));
  rev_iter : S → TableKeyRange → Z → ReadOptions.t → outcome (E + list (E + StateStoreKeyedRow));
  ingest_batch : S → list (TableKey.t * StorageValue.t) → list (Bound (list byte) * Bound (list byte)) → Z → Z →
    outcome (S * (E + nat))
}.
#[global] Hint Mode StateStore ! - : typeclass_instances.

(** The provided method [StateStoreRead::get]. *)
Definition get {S E} `{StateStore S E} (self : S) (key : TableKey.t) (epoch : Z) (read_options : ReadOptions.t)
  : outcome (E + option (list byte)) :=
  r ← get_keyed_row self key epoch read_options;
  Ret (match r with inr v => inr (snd <$> (v : option StateStoreKeyedRow)) | inl e => inl e end).

(** ** Sanity checks *)
Section sanity.
Context {E : Type} (get : TableKey.t → Z → ReadOptions.t → outcome (E + option (list byte))) (epoch table_id : Z) (retention_seconds : option Z) (op_consistency_level : OpConsistencyLevel.t).
Abbreviation check := (outcome (StorageError E + unit)).

Definition check_options : ReadOptions.t := ReadOptions.mk None retention_seconds table_id false false.

Definition inconsistent (key : TableKey.t) (prev new : KeyOp.t) : check :=
  Ret (inl (MemTableErr (MemTableError.InconsistentOperation key prev new))).

Definition do_insert_sanity_check (key : TableKey.t) (value : list byte) : check :=
  match op_consistency_level with
  | OpConsistencyLevel.Inconsistent => Ret (inr tt)
  | OpConsistencyLevel.ConsistentOldValue _ _ =>
      stored_value ← get key epoch check_options;
      match stored_value with
      | inl e => Ret (inl (StoreErr e))
      | inr (Some stored_value) => inconsistent key (KeyOp.Insert stored_value) (KeyOp.Insert value)
      | inr None => Ret (inr tt)
      end
  end.

Definition do_delete_sanity_check (key : TableKey.t) (old_value : list byte) : check :=
  match op_consistency_level with
  | OpConsistencyLevel.Inconsistent => Ret (inr tt)
  | OpConsistencyLevel.ConsistentOldValue old_value_checker _ =>
      stored_value ← get key epoch check_options;
      match stored_value with
      | inl e => Ret (inl (StoreErr e))
      | inr None => inconsistent key (KeyOp.Delete []) (KeyOp.Delete old_value)
      | inr (Some stored_value) =>
          if negb (old_value_checker stored_value old_value)
          then inconsistent key (KeyOp.Insert stored_value) (KeyOp.Delete old_value)
          else Ret (inr tt)
      end
  end.

Definition do_update_sanity_check (key : TableKey.t) (old_value new_value : list byte) : check :=
  match op_consistency_level with
  | OpConsistencyLevel.Inconsistent => Ret (inr tt)
  | OpConsistencyLevel.ConsistentOldValue old_value_checker _ =>
      stored_value ← get key epoch check_options;
      match stored_value with
      | inl e => Ret (inl (StoreErr e))
      | inr None => inconsistent key (KeyOp.Delete []) (KeyOp.Update old_value new_value)
      | inr (Some stored_value) =>
          if negb (old_value_checker stored_value old_value)
          then inconsistent key (KeyOp.Insert stored_value) (KeyOp.Update old_value new_value)
          else Ret (inr tt)
      end
  end.

(** The check [flush] makes for one operation. *)
Definition op_sanity_check (sanity_check_enabled : bool) (key : TableKey.t) (key_op : KeyOp.t) : check :=
  if sanity_check_enabled then
    match key_op with
    | KeyOp.Insert value => do_insert_sanity_check key value
    | KeyOp.Delete old_value => do_delete_sanity_check key old_value
    | KeyOp.Update old_value new_value => do_update_sanity_check key old_value new_value
    end
  else Ret (inr tt).

(** The loop of [flush] over the buffer: it stops at the first error, else it returns what
    [push] makes of every operation. *)
Fixpoint flush_loop {A} (sanity_check_enabled : bool) (push : TableKey.t → KeyOp.t → A) (buffer : MemTable.MemTableStore)
  : outcome (StorageError E + list A) :=
  match buffer with
  | [] => Ret (inr [])
  | (key, key_op) :: buffer =>
      r ← op_sanity_check sanity_check_enabled key key_op;
      match r with
      | inl e => Ret (inl e)
      | inr _ =>
          rest ← flush_loop sanity_check_enabled push buffer;
          Ret (match rest with inl e => inl e | inr l => inr (push key key_op :: l) end)
      end
  end.

End sanity.

(** ** [merge_stream] *)

(** The rows yielded and how the stream ends. *)
Abbreviation stream_result E := (outcome (list StateStoreKeyedRow * (E + unit))).

(** [yield row] and continue. *)
Definition yield {E} (row : StateStoreKeyedRow) (m : stream_result E) : stream_result E :=
  '(rows, r) ← m; Ret (row :: rows, r).

(** Every turn takes the head of one side or of both. *)
Fixpoint merge_stream {E} (table_id epoch : Z) (rev : bool) (inner_stream : list (E + StateStoreKeyedRow))
  : MemTable.MemTableStore → stream_result E :=
  fix go mem_table_iter :=
    match inner_stream, mem_table_iter with
    | [], [] => Ret ([], inr tt)
    | inl e :: _, _ => Ret ([], inl e)
    | inr row :: inner_stream', [] => yield row (merge_stream table_id epoch rev inner_stream' [])
    | [], (key, key_op) :: mem_table_iter' =>
        match key_op with
        | KeyOp.Insert value | KeyOp.Update _ value => yield (FullKey.new table_id key epoch, value) (go mem_table_iter')
        | KeyOp.Delete _ => go mem_table_iter'
        end
    | inr (inner_key, inner_value) :: inner_stream', (mem_table_key, key_op) :: mem_table_iter' =>
        let ret := bytes_cmp (UserKey.table_key (FullKey.user_key inner_key)) mem_table_key in
        let ret := if rev then CompOpp ret else ret in
        match ret with
        | Lt => yield (inner_key, inner_value) (merge_stream table_id epoch rev inner_stream' mem_table_iter)
        | Eq =>
            match key_op with
            | KeyOp.Insert value => yield (inner_key, value) (merge_stream table_id epoch rev inner_stream' mem_table_iter')
            | KeyOp.Delete _ => merge_stream table_id epoch rev inner_stream' mem_table_iter'
            | KeyOp.Update _ new_value => yield (inner_key, new_value) (merge_stream table_id epoch rev inner_stream' mem_table_iter')
            end
        | Gt =>
            match key_op with
            | KeyOp.Insert value => yield (FullKey.new table_id mem_table_key epoch, value) (go mem_table_iter')
            | KeyOp.Delete _ => go mem_table_iter'
            | KeyOp.Update _ _ => Panic
            end
        end
    end.

(** ** [MemtableLocalStateStore] *)
Module MemtableLocalStateStore.

Record t (S : Type) := mk {
  mem_table : MemTable.t;
  inner : S;
  epoch : option Z;
  table_id : Z;
  op_consistency_level : OpConsistencyLevel.t;
  retention_seconds : option Z;
  vnodes : Bitmap.t
}.
Arguments mk {S} mem_table inner epoch table_id op_consistency_level retention_seconds vnodes.
Arguments mem_table {S} t.
Arguments inner {S} t.
Arguments epoch {S} t.
Arguments table_id {S} t.
Arguments op_consistency_level {S} t.
Arguments retention_seconds {S} t.
Arguments vnodes {S} t.

Section store.
Context {S E : Type} `{!StateStore S E} (size_of_Bytes size_of_KeyOp : Z) (sanity_check_enabled : bool).
Abbreviation self_t := (t S).

Definition new (inner : S) (table_id_ : Z) (level : OpConsistencyLevel.t) (retention_seconds : option Z) (vnodes : Bitmap.t) : self_t :=
  mk (MemTable.new level) inner None table_id_ level retention_seconds vnodes.

Definition set_mem_table (self : self_t) (m : MemTable.t) : self_t :=
  mk m (inner self) (epoch self) (table_id self) (op_consistency_level self) (retention_seconds self) (vnodes self).
Definition set_inner (self : self_t) (i : S) : self_t :=
  mk (mem_table self) i (epoch self) (table_id self) (op_consistency_level self) (retention_seconds self) (vnodes self).
Definition set_epoch (self : self_t) (e : Z) : self_t :=
  mk (mem_table self) (inner self) (Some e) (table_id self) (op_consistency_level self) (retention_seconds self) (vnodes self).

(** The method [epoch]: it must have been set. *)
Definition the_epoch (self : self_t) : outcome Z := unwrap (epoch self).

Definition is_dirty (self : self_t) : bool := MemTable.is_dirty (mem_table self).

Definition get (self : self_t) (key : TableKey.t) (read_options : ReadOptions.t) : outcome (E + option (list byte)) :=
  match BTreeMap.get bytes_cmp (MemTable.buffer (mem_table self)) key with
  | None => e ← the_epoch self; StateStore.get (inner self) key e read_options
  | Some op =>
      match op with
      | KeyOp.Insert value | KeyOp.Update _ value => Ret (inr (Some value))
      | KeyOp.Delete _ => Ret (inr None)
      end
  end.

(** The stream of [iter] and [rev_iter], read to its end. *)
Definition iter (self : self_t) (key_range : TableKeyRange) (read_options : ReadOptions.t) : stream_result E :=
  e ← the_epoch self;
  r ← StateStore.iter (inner self) key_range e read_options;
  match r with
  | inl err => Ret ([], inl err)
  | inr stream => m ← MemTable.iter (mem_table self) key_range; merge_stream (table_id self) e false stream m
  end.

Definition rev_iter (self : self_t) (key_range : TableKeyRange) (read_options : ReadOptions.t) : stream_result E :=
  e ← the_epoch self;
  r ← StateStore.rev_iter (inner self) key_range e read_options;
  match r with
  | inl err => Ret ([], inl err)
  | inr stream => m ← MemTable.rev_iter (mem_table self) key_range; merge_stream (table_id self) e true stream m
  end.

(** [insert] and [delete] of the trait; an error of the mem-table is wrapped. *)
Definition lift (self : self_t) (r : MemTable.result) : self_t * (StorageError E + unit) :=
  (set_mem_table self r.1, match r.2 with inl e => inl (MemTableErr e) | inr _ => inr tt end).

Definition insert (self : self_t) (key : TableKey.t) (new_val : list byte) (old_val : option (list byte)) : self_t * (StorageError E + unit) :=
  lift self (match old_val with
             | None => MemTable.insert size_of_Bytes size_of_KeyOp sanity_check_enabled (mem_table self) key new_val
             | Some old_val => MemTable.update size_of_Bytes size_of_KeyOp sanity_check_enabled (mem_table self) key old_val new_val
             end).

Definition delete (self : self_t) (key : TableKey.t) (old_val : list byte) : self_t * (StorageError E + unit) :=
  lift self (MemTable.delete size_of_Bytes size_of_KeyOp sanity_check_enabled (mem_table self) key old_val).

(** What [flush] writes for an operation. *)
Definition push (key : TableKey.t) (key_op : KeyOp.t) : TableKey.t * StorageValue.t :=
  (key, match key_op with
        | KeyOp.Insert value | KeyOp.Update _ value => StorageValue.new_put value
        | KeyOp.Delete _ => StorageValue.new_delete
        end).

Definition flush (self : self_t) : outcome (self_t * (StorageError E + nat)) :=
  let '(kept, drained) := MemTable.drain (mem_table self) in
  let self := set_mem_table self kept in
  e ← the_epoch self;
  r ← flush_loop (StateStore.get (inner self)) e (table_id self) (retention_seconds self) (op_consistency_level self)
        sanity_check_enabled push (MemTable.into_parts drained);
  match r with
  | inl err => Ret (self, inl err)
  | inr kv_pairs =>
      '(i, r) ← ingest_batch (inner self) kv_pairs [] e (table_id self);
      Ret (set_inner self i, match r with inl err => inl (StoreErr err) | inr n => inr n end)
  end.

Definition init (self : self_t) (curr : Z) : outcome self_t :=
  rassert (match epoch self with None => true | Some _ => false end);; Ret (set_epoch self curr).

(** The delete ranges of the watermarks: what the direction says is expired, for every vnode. *)
Definition watermark_ranges (direction : WatermarkDirection.t) (watermarks : list VnodeWatermark.t)
  : outcome (list (Bound (list byte) * Bound (list byte))) :=
  ranges ← rmap (λ w,
    let inner_range := match direction with
                       | WatermarkDirection.Ascending => (Unbounded, Excluded (VnodeWatermark.watermark w))
                       | WatermarkDirection.Descending => (Excluded (VnodeWatermark.watermark w), Unbounded)
                       end in
    rmap (λ vnode, Key.prefixed_range_with_vnode inner_range (VirtualNode.from_index vnode))
         (BitmapOnesIter.iter_ones_all (VnodeWatermark.vnode_bitmap w))) watermarks;
  Ret (concat ranges).

Definition seal_current_epoch (self : self_t) (next_epoch : Z) (switch : option OpConsistencyLevel.t)
    (table_watermarks : option (WatermarkDirection.t * list VnodeWatermark.t)) : outcome self_t :=
  rassert (negb (is_dirty self));;
  m ← match switch with
      | Some level =>
          l ← OpConsistencyLevel.update (MemTable.op_consistency_level (mem_table self)) level;
          Ret (MemTable.mk (MemTable.buffer (mem_table self)) l (MemTable.kv_size (mem_table self)))
      | None => Ret (mem_table self)
      end;
  let self := set_mem_table self m in
  prev_epoch ← the_epoch self;
  let self := set_epoch self next_epoch in
  rassert (prev_epoch <? next_epoch)%Z;;
  match table_watermarks with
  | Some (direction, watermarks) =>
      delete_ranges ← watermark_ranges direction watermarks;
      e ← the_epoch self;
      '(i, _) ← ingest_batch (inner self) [] delete_ranges e (table_id self);
      Ret (set_inner self i)
  | None => Ret self
  end.

Definition update_vnode_bitmap (self : self_t) (v : Bitmap.t) : self_t * Bitmap.t :=
  (mk (mem_table self) (inner self) (epoch self) (table_id self) (op_consistency_level self) (retention_seconds self) v, vnodes self).

End store.
End MemtableLocalStateStore.
