(* ===== verification/StateStoreSpec.v ===== *)
(** * Local state stores: theorems

    [merge_stream] lays a mem-table over the rows of a store; a local store over any store that
    reads as a table reads as that table with its writes applied, and [flush] hands exactly the
    writes to the store, after checking that they agree with it. *)

From Stdlib Require Import ZArith Lia.
From S2P Require Import Prelude Order Bytes Epoch Bits Bitmap Vnode Key KeySpec KeyOrder KeyRange Watermark Sst SstSpec Block Iter IterSpec MemTable MemTableSpec StateStore.

Abbreviation row_tk r := (UserKey.table_key (FullKey.user_key (fst r))).

Lemma yield_Ret {E} row (m : stream_result E) out r :
  yield row m = Ret (out, r) ↔ ∃ out', m = Ret (out', r) ∧ out = row :: out'.
Proof. unfold yield. destruct m as [[rows r']|]; cbn; naive_solver. Qed.

(** ** [merge_stream] *)
Section merge.
Context {E : Type} (table_id epoch : Z) (rev : bool).
Abbreviation dir := (if rev then DirectionEnum.Backward else DirectionEnum.Forward).
Abbreviation kcmp := (toward dir bytes_cmp).
Abbreviation rows_sorted := (StronglySorted (λ r1 r2 : StateStoreKeyedRow, kcmp (row_tk r1) (row_tk r2) = Lt)).
Abbreviation mem_sorted := (StronglySorted (λ p q : TableKey.t * KeyOp.t, kcmp p.1 q.1 = Lt)).
Implicit Types (rows out : list StateStoreKeyedRow) (mem : MemTable.MemTableStore).

(** The value of a key in the rows with the operations laid over them. *)
Definition merged rows mem (k : TableKey.t) (v : list byte) : Prop :=
  (∃ op, (k, op) ∈ mem ∧ op_new op = Some v) ∨ ((∀ op, (k, op) ∉ mem) ∧ ∃ fk, (fk, v) ∈ rows ∧ UserKey.table_key (FullKey.user_key fk) = k).

Lemma merge_cmp a b : (if rev then CompOpp (bytes_cmp a b) else bytes_cmp a b) = kcmp a b.
Proof. destruct rev; [|done]. cbn. unfold rev_cmp. symmetry. apply (cmp_antisym bytes_cmp). Qed.

Lemma merge_stream_unfold (r : StateStoreKeyedRow) (stream : list (E + StateStoreKeyedRow)) k op mem :
  merge_stream table_id epoch rev (inr r :: stream) ((k, op) :: mem) =
  match kcmp (row_tk r) k with
  | Lt => yield r (merge_stream table_id epoch rev stream ((k, op) :: mem))
  | Eq => match op_new op with
          | Some v => yield (r.1, v) (merge_stream table_id epoch rev stream mem)
          | None => merge_stream table_id epoch rev stream mem
          end
  | Gt => match op with
          | KeyOp.Insert v => yield (FullKey.new table_id k epoch, v) (merge_stream table_id epoch rev (inr r :: stream) mem)
          | KeyOp.Delete _ => merge_stream table_id epoch rev (inr r :: stream) mem
          | KeyOp.Update _ _ => Panic
          end
  end.
Proof. rewrite <-merge_cmp. destruct r as [fk v]. cbn. destruct rev, (bytes_cmp _ k), op; done. Qed.

Lemma merge_stream_nil k op mem :
  merge_stream (E := E) table_id epoch rev [] ((k, op) :: mem) =
  match op_new op with
  | Some v => yield (FullKey.new table_id k epoch, v) (merge_stream table_id epoch rev [] mem)
  | None => merge_stream table_id epoch rev [] mem
  end.
Proof. by destruct op. Qed.

Lemma merge_stream_row (r : StateStoreKeyedRow) (stream : list (E + StateStoreKeyedRow)) :
  merge_stream table_id epoch rev (inr r :: stream) [] = yield r (merge_stream table_id epoch rev stream []).
Proof. by destruct r. Qed.

(** The stream ends well with sorted rows that are the pairs of [P]. *)
Definition row_in (out : list StateStoreKeyedRow) (k : TableKey.t) (v : list byte) : Prop :=
  ∃ fk, (fk, v) ∈ out ∧ UserKey.table_key (FullKey.user_key fk) = k.

Definition streams (m : stream_result E) (P : TableKey.t → list byte → Prop) : Prop :=
  ∃ out, m = Ret (out, inr tt) ∧ rows_sorted out ∧ ∀ k v, row_in out k v ↔ P k v.

Lemma streams_iff m (P Q : TableKey.t → list byte → Prop) : streams m P → (∀ k v, P k v ↔ Q k v) → streams m Q.
Proof. intros (out & Hm & Hs & Hin) H. exists out. split; [done|]. split; [done|]. intros k v. by rewrite Hin. Qed.

Lemma streams_yield m (P : TableKey.t → list byte → Prop) (r : StateStoreKeyedRow) :
  streams m P → (∀ k v, P k v → kcmp (row_tk r) k = Lt) → streams (yield r m) (λ k v, (k = row_tk r ∧ v = r.2) ∨ P k v).
Proof.
  intros (out & -> & Hs & Hin) Hlt. exists (r :: out). split; [done|]. split.
  - constructor; [done|]. apply Forall_forall. intros [fk v] Hr. apply (Hlt _ v), Hin. by exists fk.
  - intros k v. rewrite <-Hin. unfold row_in. destruct r as [fk0 v0]. cbn. split.
    + intros (fk & [[= -> ->]|Hr]%elem_of_cons & <-); [by left|]. right. by exists fk.
    + intros [[-> ->]|(fk & Hr & <-)]; [exists fk0; split; [by left|done]|]. exists fk. split; [by right|done].
Qed.

(** A key that is in neither list adds its operation. *)
Lemma merged_cons rows mem k op :
  (∀ op', (k, op') ∉ mem) → (∀ v, ¬ row_in rows k v) → ∀ k' v,
  merged rows ((k, op) :: mem) k' v ↔ (k' = k ∧ op_new op = Some v) ∨ merged rows mem k' v.
Proof.
  intros Hm Hr k' v. unfold merged. split.
  - intros [(op' & [[= -> ->]|Hin]%elem_of_cons & Ho)|(Hn & Hin)]; [by left; split|right; left; by exists op'|].
    right; right. split; [|done]. intros op' Hop. apply (Hn op'). by right.
  - intros [[-> Ho]|[(op' & Hin & Ho)|[Hn Hin]]]; [left; exists op; split; [by left|done]|left; exists op'; split; [by right|done]|].
    right. split; [|done]. intros op' [[= -> ->]|Hop]%elem_of_cons; [|by apply (Hn op')]. destruct (Hr v). exact Hin.
Qed.

(** A row of a key without an operation stays. *)
Lemma merged_row rows mem (r : StateStoreKeyedRow) :
  (∀ op, (row_tk r, op) ∉ mem) → ∀ k v, merged (r :: rows) mem k v ↔ (k = row_tk r ∧ v = r.2) ∨ merged rows mem k v.
Proof.
  intros Hm k v. unfold merged. destruct r as [fk0 v0]. cbn in *. split.
  - intros [?|(Hn & fk & [[= -> ->]|Hin]%elem_of_cons & <-)]; [by right; left|by left|]. right; right. split; [done|]. by exists fk.
  - intros [[-> ->]|[?|(Hn & fk & Hin & <-)]]; [|by left|]; right.
    + split; [done|]. exists fk0. split; [by left|done].
    + split; [done|]. exists fk. split; [by right|done].
Qed.

(** A row of a key with an operation does not matter. *)
Lemma merged_shadow rows mem (r : StateStoreKeyedRow) op :
  (row_tk r, op) ∈ mem → ∀ k v, merged (r :: rows) mem k v ↔ merged rows mem k v.
Proof.
  intros Hm k v. unfold merged. split; (intros [?|(Hn & fk & Hin & <-)]; [by left|]); right; (split; [done|]); exists fk; (split; [|done]).
  - apply elem_of_cons in Hin as [<- |]; [|done]. by destruct (Hn op).
  - by right.
Qed.

Lemma kcmp_irrefl k : kcmp k k ≠ Lt.
Proof. by rewrite (cmp_refl kcmp). Qed.

(** The keys of a list above a key that is below its first one. *)
Lemma mem_above k op mem k' op' : mem_sorted ((k, op) :: mem) → (k', op') ∈ mem → kcmp k k' = Lt.
Proof. intros Hs Hin. inversion Hs as [|? ? _ Hf]; subst. rewrite Forall_forall in Hf. apply (Hf _ Hin). Qed.

Lemma rows_above (r : StateStoreKeyedRow) rows k v : rows_sorted (r :: rows) → row_in rows k v → kcmp (row_tk r) k = Lt.
Proof. intros Hs (fk & Hin & <-). inversion Hs as [|? ? _ Hf]; subst. rewrite Forall_forall in Hf. apply (Hf _ Hin). Qed.

Lemma merged_above rows mem k k' v :
  (∀ op, (k', op) ∈ mem → kcmp k k' = Lt) → (∀ v, row_in rows k' v → kcmp k k' = Lt) → merged rows mem k' v → kcmp k k' = Lt.
Proof. intros Hm Hr [(op & Hin & _)|(_ & Hin)]; [by apply (Hm op)|by apply (Hr v)]. Qed.

Lemma merge_stream_nil_ok mem : mem_sorted mem → streams (merge_stream table_id epoch rev [] mem) (merged [] mem).
Proof.
  induction mem as [|[k op] mem IH]; intros Hs.
  - exists []. split; [done|]. split; [constructor|]. intros k v. unfold merged, row_in. setoid_rewrite elem_of_nil. naive_solver.
  - assert (∀ op', (k, op') ∉ mem) as Hk by (intros op' Hin; apply (kcmp_irrefl k), (mem_above k op mem k op' Hs Hin)).
    assert (∀ v, ¬ row_in [] k v) as Hr by (intros v (fk & Hin & _); by apply elem_of_nil in Hin).
    assert (mem_sorted mem) as Hs' by by inversion Hs. specialize (IH Hs'). rewrite merge_stream_nil. pose proof (merged_cons [] mem k op Hk Hr) as Hm.
    destruct (op_new op) as [v|].
    + eapply streams_iff; [apply streams_yield; [exact IH|]|].
      * intros k' v'. apply (merged_above [] mem k); [intros op'; by apply (mem_above k op)|]. intros ? (? & Hin & _). by apply elem_of_nil in Hin.
      * intros k' v'. rewrite Hm. cbn. naive_solver.
    + eapply streams_iff; [exact IH|]. intros k' v'. rewrite Hm. naive_solver.
Qed.

Lemma merge_stream_ok rows : ∀ mem,
  rows_sorted rows → mem_sorted mem → (∀ k o n, (k, KeyOp.Update o n) ∈ mem → ∃ v, row_in rows k v) →
  streams (merge_stream table_id epoch rev (inr <$> rows) mem) (merged rows mem).
Proof.
  induction rows as [|r rows IHr]; intros mem Hr; [intros; by apply merge_stream_nil_ok|].
  assert (rows_sorted rows) as Hr' by by inversion Hr. specialize (λ mem, IHr mem Hr').
  induction mem as [|[k op] mem IHm]; intros Hs Hu; rewrite fmap_cons.
  - rewrite merge_stream_row. assert (streams (merge_stream table_id epoch rev (inr <$> rows) []) (merged rows [])) as H
      by (apply IHr; [constructor|]; intros k o n Hin; by apply elem_of_nil in Hin).
    assert (∀ op, (row_tk r, op) ∉ ([] : MemTable.MemTableStore)) as Hn by (intros op Hin; by apply elem_of_nil in Hin).
    eapply streams_iff; [apply streams_yield; [exact H|]|].
    + intros k v. apply merged_above; [intros op Hin; by apply elem_of_nil in Hin|]. intros v'. by apply rows_above.
    + intros k v. by rewrite merged_row.
  - assert (∀ op', (k, op') ∉ mem) as Hk by (intros op' Hin; apply (kcmp_irrefl k), (mem_above k op mem k op' Hs Hin)).
    assert (mem_sorted mem) as Hs' by by inversion Hs. rewrite merge_stream_unfold. destruct (kcmp (row_tk r) k) eqn:C.
    + apply (cmp_eq_iff kcmp) in C. 
      assert (streams (merge_stream table_id epoch rev (inr <$> rows) mem) (merged rows mem)) as H.
      { apply IHr; [done|]. intros k' o n Hin. destruct (Hu k' o n) as (v & fk & [<- |Hf]%elem_of_cons & Hv); [by right| |by exists v, fk].
        cbn in *. by destruct (Hk (KeyOp.Update o n)); rewrite <-C, Hv. }
      assert (∀ v, ¬ row_in rows k v) as Hnr by (intros v Hin; apply (kcmp_irrefl k); rewrite <-C at 1; by apply (rows_above r rows k v)).
      assert (∀ k' v', merged (r :: rows) ((k, op) :: mem) k' v' ↔ (k' = k ∧ op_new op = Some v') ∨ merged rows mem k' v') as Hm.
      { intros k' v'. rewrite (merged_shadow rows _ r op) by (rewrite C; by left). by apply merged_cons. }
      destruct (op_new op) as [v|].
      * eapply streams_iff; [apply streams_yield; [exact H|]|].
        -- intros k' v'. cbn [fst]. rewrite C. apply merged_above; [intros op'; by apply (mem_above k op)|]. intros v''. rewrite <-C. by apply rows_above.
        -- intros k' v'. rewrite Hm. cbn [fst snd]. rewrite C. naive_solver.
      * eapply streams_iff; [exact H|]. intros k' v'. rewrite Hm. naive_solver.
    + assert (∀ op', (row_tk r, op') ∉ (k, op) :: mem) as Hn.
      { intros op' [[= Ek _]|Hin]%elem_of_cons; [rewrite Ek in C; by apply kcmp_irrefl in C|].
        apply (kcmp_irrefl (row_tk r)). eapply (cmp_lt_trans kcmp); [exact C|]. by apply (mem_above k op mem _ op' Hs). }
      eapply streams_iff; [apply streams_yield; [apply IHr; [exact Hs|]|]|].
      * intros k' o n Hin. destruct (Hu k' o n Hin) as (v & fk & [<- |Hf]%elem_of_cons & Hv); [|by exists v, fk]. cbn in *. subst k'. by destruct (Hn _ Hin).
      * intros k' v'. apply merged_above; [|intros v''; by apply rows_above]. intros op' [[= -> ->]|Hin]%elem_of_cons; [done|].
        eapply (cmp_lt_trans kcmp); [exact C|]. by apply (mem_above k op mem _ op' Hs).
      * intros k' v'. by rewrite (merged_row rows).
    + apply (cmp_gt_lt kcmp) in C.
      assert (∀ v, ¬ row_in (r :: rows) k v) as Hnr.
      { intros v (fk & [<- |Hin]%elem_of_cons & Ek); cbn in *; [rewrite Ek in C; by apply kcmp_irrefl in C|].
        apply (kcmp_irrefl k). eapply (cmp_lt_trans kcmp); [exact C|]. apply (rows_above r rows k v Hr). by exists fk. }
      assert (streams (merge_stream table_id epoch rev (inr <$> (r :: rows)) mem) (merged (r :: rows) mem)) as H.
      { apply IHm; [done|]. intros k' o n Hin. apply (Hu k' o n). by right. }
      pose proof (merged_cons (r :: rows) mem k op Hk Hnr) as Hm. rewrite fmap_cons in H. destruct op as [v|o|o n].
      * eapply streams_iff; [apply streams_yield; [exact H|]|].
        -- intros k' v'. cbn [fst FullKey.new FullKey.user_key UserKey.table_key]. apply merged_above; [intros op'; by apply (mem_above k _ mem k' op' Hs)|].
           intros v'' (fk & [<- |Hin]%elem_of_cons & Ek); cbn in *; [by rewrite <-Ek|].
           eapply (cmp_lt_trans kcmp); [exact C|]. apply (rows_above r rows k' v'' Hr). by exists fk.
        -- intros k' v'. rewrite Hm. cbn. naive_solver.
      * eapply streams_iff; [exact H|]. intros k' v'. rewrite Hm. cbn. naive_solver.
      * destruct (Hu k o n) as [v Hv]; [by left|]. by destruct (Hnr v).
Qed.

(** When the store fails after some of its rows, the rows given are the first ones. *)
Lemma merge_stream_error rows more (e : E) junk : ∀ mem out,
  merge_stream (E := E) table_id epoch rev (inr <$> (rows ++ more)) mem = Ret (out, inr tt) →
  ∃ out', merge_stream table_id epoch rev ((inr <$> rows) ++ inl e :: junk) mem = Ret (out', inl e) ∧ out' `prefix_of` out.
Proof.
  induction rows as [|r rows IHr]; intros mem out.
  - intros _. exists []. split; [by destruct mem|]. apply prefix_nil.
  - revert out. cbn [app]. rewrite !fmap_cons. cbn [app]. induction mem as [|[k op] mem IHm]; intros out.
    + rewrite !merge_stream_row, yield_Ret. intros (out' & (o2 & H & Hp)%IHr & ->). exists (r :: o2). rewrite H. split; [done|]. by apply prefix_cons.
    + rewrite !merge_stream_unfold. destruct (kcmp (row_tk r) k).
      * destruct (op_new op); [|apply IHr]. rewrite yield_Ret. intros (out' & (o2 & H & Hp)%IHr & ->). eexists. rewrite H. split; [done|]. by apply prefix_cons.
      * rewrite yield_Ret. intros (out' & (o2 & H & Hp)%IHr & ->). eexists. rewrite H. split; [done|]. by apply prefix_cons.
      * destruct op; [|apply IHm|done]. rewrite yield_Ret. intros (out' & (o2 & H & Hp)%IHm & ->). eexists. rewrite H. split; [done|]. by apply prefix_cons.
Qed.

End merge.

(** ** Sanity checks *)
Definition op_old_okb (check : list byte → list byte → bool) (b : option (list byte)) (op : KeyOp.t) : bool :=
  match op, b with
  | KeyOp.Insert _, None => true
  | KeyOp.Delete o, Some v | KeyOp.Update o _, Some v => check v o
  | _, _ => false
  end.

Lemma op_old_okb_ok check b op : op_old_okb check b op = true ↔ op_old_ok check b op.
Proof. destruct op, b; cbn; naive_solver. Qed.

Section sanity.
Context {E : Type} (get : TableKey.t → Z → ReadOptions.t → outcome (E + option (list byte))) (table_id epoch : Z) (ret : option Z) (sanity : bool) (σ : table)
  (get_ok : ∀ k, get k epoch (check_options table_id ret) = Ret (inr (σ k))).

(** A check fails exactly on an operation that contradicts the store, and names it. *)
Lemma sanity_check_exact check log k op :
  let m := op_sanity_check get epoch table_id ret (OpConsistencyLevel.ConsistentOldValue check log) sanity k op in
  if negb sanity || op_old_okb check (σ k) op then m = Ret (inr tt)
  else ∃ prev, m = Ret (inl (MemTableErr (MemTableError.InconsistentOperation k prev op))).
Proof using get_ok.
  unfold op_sanity_check, do_insert_sanity_check, do_delete_sanity_check, do_update_sanity_check. rewrite get_ok. cbn [mbind outcome_bind].
  destruct sanity; [|done]. destruct op, (σ k) as [v0|]; cbn; try done; try (by eexists); destruct (check v0 _); cbn; try done; by eexists.
Qed.

Lemma flush_loop_ok {A} (push : TableKey.t → KeyOp.t → A) check log buffer :
  (sanity = true → Forall (λ p : TableKey.t * KeyOp.t, op_old_ok check (σ p.1) p.2) buffer) →
  flush_loop get epoch table_id ret (OpConsistencyLevel.ConsistentOldValue check log) sanity push buffer = Ret (inr ((λ p, push p.1 p.2) <$> buffer)).
Proof using get_ok.
  induction buffer as [|[k op] buffer IH]; intros Hok; [done|]. cbn [flush_loop]. pose proof (sanity_check_exact check log k op) as Hc. cbn in Hc.
  assert (negb sanity || op_old_okb check (σ k) op = true) as E'.
  { destruct sanity; [|done]. specialize (Hok eq_refl). inversion Hok; subst. by apply op_old_okb_ok. }
  rewrite E' in Hc. rewrite Hc. cbn [mbind outcome_bind]. rewrite IH; [done|]. intros Hsan. specialize (Hok Hsan). by inversion Hok.
Qed.

Lemma flush_loop_error {A} (push : TableKey.t → KeyOp.t → A) check log pre k op post :
  sanity = true → Forall (λ p : TableKey.t * KeyOp.t, op_old_ok check (σ p.1) p.2) pre → ¬ op_old_ok check (σ k) op →
  ∃ prev, flush_loop get epoch table_id ret (OpConsistencyLevel.ConsistentOldValue check log) sanity push (pre ++ (k, op) :: post) =
    Ret (inl (MemTableErr (MemTableError.InconsistentOperation k prev op))).
Proof using get_ok.
  intros Hsan Hpre Hop. induction Hpre as [|[k1 op1] pre H1 _ IH]; cbn [app flush_loop].
  - pose proof (sanity_check_exact check log k op) as Hc. cbn in Hc. destruct (op_old_okb check (σ k) op) eqn:Eo; [by apply op_old_okb_ok in Eo|].
    rewrite Hsan in *. destruct Hc as [prev ->]. by exists prev.
  - pose proof (sanity_check_exact check log k1 op1) as Hc. cbn in Hc. apply op_old_okb_ok in H1. cbn in H1. rewrite H1, orb_true_r in Hc.
    rewrite Hc. cbn [mbind outcome_bind]. destruct IH as [prev ->]. by exists prev.
Qed.
End sanity.

(** ** The interface to the store

    [reads_as s table_id epoch σ]: reads of the table at the epoch see [σ], whatever the other
    options.  Iterators give the rows in order, each key once. *)
Record reads_as {S E} `{!StateStore S E} (s : S) (table_id epoch : Z) (σ : table) : Prop := {
  ra_get : ∀ k opts, ReadOptions.table_id opts = table_id →
    ∃ r, get_keyed_row s k epoch opts = Ret (inr r) ∧ snd <$> r = σ k;
  ra_iter : ∀ range opts, ReadOptions.table_id opts = table_id → BTreeMap.range_valid bytes_cmp range = true →
    ∃ rows, iter s range epoch opts = Ret (inr (inr <$> rows)) ∧
      StronglySorted (λ r1 r2 : StateStoreKeyedRow, bytes_cmp (row_tk r1) (row_tk r2) = Lt) rows ∧
      ∀ k v, row_in rows k v ↔ σ k = Some v ∧ contains bytes_cmp range k = true;
  ra_rev_iter : ∀ range opts, ReadOptions.table_id opts = table_id → BTreeMap.range_valid bytes_cmp range = true →
    ∃ rows, rev_iter s range epoch opts = Ret (inr (inr <$> rows)) ∧
      StronglySorted (λ r1 r2 : StateStoreKeyedRow, bytes_cmp (row_tk r2) (row_tk r1) = Lt) rows ∧
      ∀ k v, row_in rows k v ↔ σ k = Some v ∧ contains bytes_cmp range k = true
}.

(** A table with a batch of writes applied. *)
Definition ingested (σ : table) (pairs : list (TableKey.t * StorageValue.t)) : table :=
  λ k, match BTreeMap.get bytes_cmp pairs k with Some v => StorageValue.user_value v | None => σ k end.

(** What a store promises of writes: a batch of distinct keys in order is visible at its epoch. *)
Class StateStoreLaws (S E : Type) `{!StateStore S E} := {
  store_ok : S → Prop;
  ingest_ok : ∀ s table_id epoch σ pairs, store_ok s → ascending pairs → reads_as s table_id epoch σ →
    ∃ s' n, ingest_batch s pairs [] epoch table_id = Ret (s', inr n) ∧ store_ok s' ∧ reads_as s' table_id epoch (ingested σ pairs)
}.
#[global] Hint Mode StateStoreLaws ! - - : typeclass_instances.

(** A store that reads as a table answers the checks with it. *)
Lemma reads_as_get {S E} `{!StateStore S E} (s : S) table_id epoch σ ret k : reads_as s table_id epoch σ →
  get s k epoch (check_options table_id ret) = Ret (inr (σ k)).
Proof. intros H. unfold get. destruct (ra_get _ _ _ _ H k (check_options table_id ret) eq_refl) as (r & -> & <-). done. Qed.

Section local.
Context {S E : Type} `{!StateStore S E} (size_of_Bytes size_of_KeyOp : Z) (sanity : bool).
Implicit Types self : MemtableLocalStateStore.t S.

(** The store reads as [base] at the epoch of [self], which sees [σ]. *)
Record local_ok self (base σ : table) (check : list byte → list byte → bool) (e : Z) : Prop := {
  lo_epoch : MemtableLocalStateStore.epoch self = Some e;
  lo_level : ∃ log, MemtableLocalStateStore.op_consistency_level self = OpConsistencyLevel.ConsistentOldValue check log;
  lo_mem : represents base check (MemtableLocalStateStore.mem_table self) σ;
  lo_inner : reads_as (MemtableLocalStateStore.inner self) (MemtableLocalStateStore.table_id self) e base
}.

Lemma range_of_buffer (m : MemTable.MemTableStore) range :
  BTreeMap.range_valid bytes_cmp range = true →
  BTreeMap.range bytes_cmp m range = Ret (filter (λ p, contains bytes_cmp range p.1 = true) m).
Proof. intros H. unfold BTreeMap.range. by rewrite H. Qed.

(** The rows and the operations in a range together are the table in the range. *)
Lemma merged_overlay (m mem : MemTable.MemTableStore) base range rows :
  ascending m → (∀ p, p ∈ mem ↔ p ∈ m ∧ contains bytes_cmp range p.1 = true) →
  (∀ k v, row_in rows k v ↔ base k = Some v ∧ contains bytes_cmp range k = true) →
  ∀ k v, merged rows mem k v ↔ overlay m base k = Some v ∧ contains bytes_cmp range k = true.
Proof.
  intros Ha Hmem Hrows k v. unfold merged, overlay. change (∃ fk, (fk, v) ∈ rows ∧ UserKey.table_key (FullKey.user_key fk) = k) with (row_in rows k v).
  rewrite Hrows. setoid_rewrite Hmem. pose proof (λ op, btree_get_elem bytes_cmp m k op Ha) as Hg. cbn [fst]. setoid_rewrite <-Hg.
  destruct (BTreeMap.get bytes_cmp m k) as [op|] eqn:G; split.
  - intros [(op' & [[= <-] ?] & ?)|(Hn & _ & Hr)]; [done|]. by destruct (Hn op).
  - intros [??]. left. by exists op.
  - intros [(op' & [? _] & _)|(_ & ?)]; done.
  - intros H. right. split; [|done]. by intros op [? _].
Qed.

Lemma local_get_ok self base σ check e k opts :
  local_ok self base σ check e → ReadOptions.table_id opts = MemtableLocalStateStore.table_id self →
  MemtableLocalStateStore.get self k opts = Ret (inr (σ k)).
Proof.
  intros [He _ Hm Hi] Ht. unfold MemtableLocalStateStore.get. pose proof (rp_view _ _ _ _ Hm k) as Hv. unfold overlay in Hv.
  destruct (BTreeMap.get bytes_cmp (MemTable.buffer _) k) as [op|]; [rewrite <-Hv; by destruct op|].
  unfold MemtableLocalStateStore.the_epoch. rewrite He. cbn. destruct (ra_get _ _ _ _ Hi k opts Ht) as (r & Hr & E'). unfold get. rewrite Hr. cbn. by rewrite E', Hv.
Qed.

(** The operations in a range update rows of the range. *)
Lemma local_updates self base σ check e range rows (mem : MemTable.MemTableStore) :
  local_ok self base σ check e →
  (∀ p, p ∈ mem → p ∈ MemTable.buffer (MemtableLocalStateStore.mem_table self) ∧ contains bytes_cmp range p.1 = true) →
  (∀ k v, row_in rows k v ↔ base k = Some v ∧ contains bytes_cmp range k = true) →
  ∀ k o n, (k, KeyOp.Update o n) ∈ mem → ∃ v, row_in rows k v.
Proof.
  intros [_ _ Hm _] Hmem Hrows k o n Hin. destruct (Hmem _ Hin) as [Hb Hr]. apply (btree_get_elem bytes_cmp) in Hb; [|apply Hm].
  destruct (rp_old _ _ _ _ Hm _ _ Hb) as (v & Hv & _). exists v. by apply Hrows.
Qed.

Lemma local_iter_ok self base σ check e range opts :
  local_ok self base σ check e → ReadOptions.table_id opts = MemtableLocalStateStore.table_id self → BTreeMap.range_valid bytes_cmp range = true →
  streams false (MemtableLocalStateStore.iter self range opts) (λ k v, σ k = Some v ∧ contains bytes_cmp range k = true) ∧
  streams true (MemtableLocalStateStore.rev_iter self range opts) (λ k v, σ k = Some v ∧ contains bytes_cmp range k = true).
Proof.
  intros H Ht Hv. pose proof H as [He _ Hm Hi]. pose proof (rp_ascending _ _ _ _ Hm) as Ha. pose proof (rp_view _ _ _ _ Hm) as Hview.
  unfold MemtableLocalStateStore.iter, MemtableLocalStateStore.rev_iter, MemtableLocalStateStore.the_epoch, MemTable.iter, MemTable.rev_iter.
  rewrite He, (range_of_buffer _ _ Hv). cbn [unwrap mbind outcome_bind fmap outcome_fmap].
  pose proof (sorted_filter _ (λ p, contains bytes_cmp range p.1 = true) _ Ha) as Hs. split.
  - destruct (ra_iter _ _ _ _ Hi range opts Ht Hv) as (rows & -> & Hsr & Hr). cbn [mbind outcome_bind].
    assert (∀ p, p ∈ filter (λ p, contains bytes_cmp range p.1 = true) (MemTable.buffer (MemtableLocalStateStore.mem_table self)) ↔
      p ∈ MemTable.buffer (MemtableLocalStateStore.mem_table self) ∧ contains bytes_cmp range p.1 = true) as Hin
      by (intros p; rewrite list_elem_of_filter; naive_solver).
    eapply streams_iff; [apply (merge_stream_ok _ _ false); [exact Hsr|exact Hs|]|].
    + eapply local_updates; [exact H|intros p Hp; by apply Hin|exact Hr].
    + intros k v. rewrite (merged_overlay _ _ _ _ _ Ha Hin Hr). by rewrite Hview.
  - destruct (ra_rev_iter _ _ _ _ Hi range opts Ht Hv) as (rows & -> & Hsr & Hr). cbn [mbind outcome_bind].
    assert (∀ p, p ∈ reverse (filter (λ p, contains bytes_cmp range p.1 = true) (MemTable.buffer (MemtableLocalStateStore.mem_table self))) ↔
      p ∈ MemTable.buffer (MemtableLocalStateStore.mem_table self) ∧ contains bytes_cmp range p.1 = true) as Hin
      by (intros p; rewrite elem_of_reverse, list_elem_of_filter; naive_solver).
    eapply streams_iff; [apply (merge_stream_ok _ _ true); [exact Hsr|exact (sorted_back_reverse _ _ Hs)|]|].
    + eapply local_updates; [exact H|intros p Hp; by apply Hin|exact Hr].
    + intros k v. rewrite (merged_overlay _ _ _ _ _ Ha Hin Hr). by rewrite Hview.
Qed.

(** *** [flush] *)
Lemma reads_as_ext (s : S) table_id epoch σ σ' : (∀ k, σ k = σ' k) → reads_as s table_id epoch σ → reads_as s table_id epoch σ'.
Proof. intros H [Hg Hi Hr]. by split; setoid_rewrite <-H. Qed.

Lemma get_fmap_push (m : MemTable.MemTableStore) k :
  BTreeMap.get bytes_cmp ((λ p, MemtableLocalStateStore.push p.1 p.2) <$> m) k =
  (λ op, StorageValue.mk (op_new op)) <$> BTreeMap.get bytes_cmp m k.
Proof. induction m as [|[k1 op1] m IH]; [done|]. cbn. destruct (bytes_cmp k k1); [by destruct op1|done|exact IH]. Qed.

Context {laws : StateStoreLaws S E}.

Lemma local_flush_ok self base σ check e :
  local_ok self base σ check e → store_ok (MemtableLocalStateStore.inner self) →
  ∃ self' n, MemtableLocalStateStore.flush sanity self = Ret (self', inr n) ∧ store_ok (MemtableLocalStateStore.inner self') ∧
    local_ok self' σ σ check e ∧ MemtableLocalStateStore.is_dirty self' = false ∧
    MemtableLocalStateStore.table_id self' = MemtableLocalStateStore.table_id self.
Proof.
  intros [He [log El] Hm Hi] Hok. pose proof (rp_ascending _ _ _ _ Hm) as Ha. unfold MemtableLocalStateStore.flush, MemtableLocalStateStore.the_epoch.
  cbn [MemTable.drain MemTable.into_parts MemTable.buffer MemtableLocalStateStore.set_mem_table MemtableLocalStateStore.epoch MemtableLocalStateStore.inner
       MemtableLocalStateStore.table_id MemtableLocalStateStore.retention_seconds MemtableLocalStateStore.op_consistency_level].
  rewrite He, El. cbn [unwrap mbind outcome_bind]. rewrite (flush_loop_ok _ _ _ _ _ base (λ k, reads_as_get _ _ _ _ _ k Hi)).
  2:{ intros _. apply Forall_forall. intros [k op] Hin. apply (btree_get_elem bytes_cmp) in Hin; [|done]. by apply (rp_old _ _ _ _ Hm). }
  set (pairs := (λ p, MemtableLocalStateStore.push p.1 p.2) <$> MemTable.buffer (MemtableLocalStateStore.mem_table self)).
  assert (ascending pairs) as Hp.
  { unfold pairs. clear -Ha. induction Ha as [|p m Hs IH Hf]; [constructor|]. rewrite fmap_cons. constructor; [done|]. by apply Forall_fmap. }
  destruct (ingest_ok _ _ _ _ pairs Hok Hp Hi) as (s' & n & Ei & Hok' & Hr). cbn [mbind outcome_bind]. fold pairs. rewrite Ei. cbn [mbind outcome_bind]. eexists _, n. split; [done|]. split; [done|].
  split; [|done]. destruct (rp_level _ _ _ _ Hm) as [log' El']. split; [done|by exists log|cbn; rewrite El'; apply represents_new|].
  eapply reads_as_ext; [|exact Hr]. intros k. rewrite <-(rp_view _ _ _ _ Hm k). unfold ingested, overlay, pairs. rewrite get_fmap_push.
  by destruct (BTreeMap.get bytes_cmp _ k).
Qed.

(** *** Sessions *)

(** Writes through the trait ([insert] with an old value is an update) and flushes. *)
Inductive command := Write (w : write) | Flush.

Definition local_write self (w : write) : MemtableLocalStateStore.t S * (StorageError E + unit) :=
  match w with
  | Ins k v => MemtableLocalStateStore.insert size_of_Bytes size_of_KeyOp sanity self k v None
  | Upd k o n => MemtableLocalStateStore.insert size_of_Bytes size_of_KeyOp sanity self k n (Some o)
  | Del k o => MemtableLocalStateStore.delete size_of_Bytes size_of_KeyOp sanity self k o
  end.

(** The commands in order, up to the first that fails. *)
Fixpoint run_local self (cs : list command) : outcome (MemtableLocalStateStore.t S * (StorageError E + unit)) :=
  match cs with
  | [] => Ret (self, inr tt)
  | Write w :: cs => match local_write self w with (self, inl e) => Ret (self, inl e) | (self, inr _) => run_local self cs end
  | Flush :: cs =>
      '(self, r) ← MemtableLocalStateStore.flush sanity self;
      match r with inl e => Ret (self, inl e) | inr _ => run_local self cs end
  end.

Definition writes_of (cs : list command) : list write := omap (λ c, match c with Write w => Some w | Flush => None end) cs.

Lemma local_write_eq self w :
  local_write self w = MemtableLocalStateStore.lift self (apply_write size_of_Bytes size_of_KeyOp sanity (MemtableLocalStateStore.mem_table self) w).
Proof. by destruct w. Qed.

Lemma run_local_ok check e cs : ∀ self base σ,
  local_ok self base σ check e → store_ok (MemtableLocalStateStore.inner self) → consistent_run check σ (writes_of cs) →
  ∃ self' base', run_local self cs = Ret (self', inr tt) ∧ local_ok self' base' (foldl written σ (writes_of cs)) check e ∧
    MemtableLocalStateStore.table_id self' = MemtableLocalStateStore.table_id self.
Proof.
  induction cs as [|[w|] cs IH]; intros self base σ H Hs Hc; [by exists self, base|..]; cbn [run_local].
  - destruct Hc as [Hw Hc]. destruct (apply_write_ok size_of_Bytes size_of_KeyOp sanity base check _ σ w (lo_mem _ _ _ _ _ H) Hw) as (m & Em & Hm).
    rewrite local_write_eq, Em. cbn. destruct (IH (MemtableLocalStateStore.set_mem_table self m) base (written σ w)) as (self' & base' & ? & ? & Et); [|done|done|].
    + by split; [apply H|apply H|..|apply H].
    + by exists self', base'.
  - destruct (local_flush_ok self base σ check e H Hs) as (self1 & n & E1 & Hs1 & H1 & _ & Et1). rewrite E1. cbn.
    destruct (IH self1 σ σ H1 Hs1 Hc) as (self' & base' & ? & ? & Et). exists self', base'. by rewrite Et, Et1.
Qed.
End local.


(** A store that keeps one table, as a map. *)
Definition map_store : Type := list (TableKey.t * list byte).

Definition map_rows (s : map_store) (range : TableKeyRange) (table_id e : Z) : list (Empty_set + StateStoreKeyedRow) :=
  (λ p : TableKey.t * list byte, inr (FullKey.new table_id p.1 e, p.2)) <$> filter (λ p, contains bytes_cmp range p.1 = true) s.

#[export] Instance map_state_store : StateStore map_store Empty_set := {|
  get_keyed_row s k e opts := Ret (inr ((λ v, (FullKey.new (ReadOptions.table_id opts) k e, v)) <$> BTreeMap.get bytes_cmp s k));
  iter s range e opts := Ret (inr (map_rows s range (ReadOptions.table_id opts) e));
  rev_iter s range e opts := Ret (inr (reverse (map_rows s range (ReadOptions.table_id opts) e)));
  ingest_batch s pairs _ e table_id :=
    Ret (foldl (λ s p, match StorageValue.user_value p.2 with Some v => BTreeMap.insert bytes_cmp s p.1 v | None => BTreeMap.remove bytes_cmp s p.1 end) s pairs,
         inr (length pairs))
|}.

Lemma ascending_rows {V} (f : TableKey.t * V → StateStoreKeyedRow) (l : list (TableKey.t * V)) :
  (∀ p, row_tk (f p) = p.1) → ascending l → StronglySorted (λ r1 r2 : StateStoreKeyedRow, bytes_cmp (row_tk r1) (row_tk r2) = Lt) (f <$> l).
Proof.
  intros Hf. induction 1 as [|p l Hs IH Hl]; [constructor|]. rewrite fmap_cons. constructor; [done|]. apply Forall_fmap. eapply Forall_impl; [exact Hl|].
  intros q. cbn. by rewrite !Hf.
Qed.

Lemma map_store_reads (s : map_store) table_id e : ascending s → reads_as s table_id e (BTreeMap.get bytes_cmp s).
Proof.
  intros Ha.
  set (rows range := (λ p : TableKey.t * list byte, (FullKey.new table_id p.1 e, p.2)) <$> filter (λ p, contains bytes_cmp range p.1 = true) s).
  assert (∀ range, StronglySorted (λ r1 r2 : StateStoreKeyedRow, bytes_cmp (row_tk r1) (row_tk r2) = Lt) (rows range)) as Hs.
  { intros range. apply ascending_rows; [done|]. apply (sorted_filter _ _ _ Ha). }
  assert (∀ range k v, row_in (rows range) k v ↔ BTreeMap.get bytes_cmp s k = Some v ∧ contains bytes_cmp range k = true) as Hin.
  { intros range k v. rewrite (btree_get_elem bytes_cmp s k v Ha). unfold row_in, rows. split.
    - intros (fk & ([k' v'] & [= -> ->] & [Hc Hi]%list_elem_of_filter)%list_elem_of_fmap & <-). done.
    - intros [Hi Hc]. exists (FullKey.new table_id k e). split; [|done]. apply list_elem_of_fmap. exists (k, v). split; [done|]. by apply list_elem_of_filter. }
  split; cbn.
  - intros k opts <-. eexists. split; [done|]. by destruct (BTreeMap.get bytes_cmp s k).
  - intros range opts <- _. exists (rows range). split; [|done]. unfold map_rows, rows. by rewrite <-list_fmap_compose.
  - intros range opts <- _. exists (reverse (rows range)). split; [|split].
    + unfold map_rows, rows. by rewrite fmap_reverse, <-list_fmap_compose.
    + apply (sorted_back_reverse _ _ (Hs range)).
    + intros k v. rewrite <-Hin. unfold row_in. by setoid_rewrite elem_of_reverse.
Qed.

Lemma ingest_map_store (pairs : list (TableKey.t * StorageValue.t)) : ∀ s : map_store, ascending s → ascending pairs →
  let s' := foldl (λ s p, match StorageValue.user_value p.2 with Some v => BTreeMap.insert bytes_cmp s p.1 v | None => BTreeMap.remove bytes_cmp s p.1 end) s pairs in
  ascending s' ∧ ∀ k, BTreeMap.get bytes_cmp s' k = ingested (BTreeMap.get bytes_cmp s) pairs k.
Proof.
  induction pairs as [|[k1 [w]] pairs IH]; intros s Hs Hp; [done|]. cbn [foldl fst snd StorageValue.user_value].
  set (s1 := match w with Some v => BTreeMap.insert bytes_cmp s k1 v | None => BTreeMap.remove bytes_cmp s k1 end).
  assert (ascending s1 ∧ ∀ k, BTreeMap.get bytes_cmp s1 k = if decide (k = k1) then w else BTreeMap.get bytes_cmp s k) as [Hs1 Hg1].
  { unfold s1. destruct w; (split; [apply (btree_insert_ascending bytes_cmp) || apply (btree_remove_ascending bytes_cmp); done|]);
      intros k; [by rewrite (btree_get_insert bytes_cmp)|by rewrite (btree_get_remove bytes_cmp)]. }
  destruct (IH s1 Hs1) as [Ha Hg]; [by inversion Hp|]. split; [done|]. intros k. rewrite Hg. unfold ingested. rewrite Hg1. cbn.
  destruct (bytes_cmp k k1) eqn:C.
  - apply (cmp_eq_iff bytes_cmp) in C as ->. rewrite (btree_get_above bytes_cmp pairs k1 k1 (StorageValue.mk w)) by (done || by rewrite (cmp_refl bytes_cmp)).
    by rewrite decide_True.
  - rewrite (btree_get_above bytes_cmp pairs k k1 (StorageValue.mk w)) by (done || by rewrite C). rewrite decide_False; [done|]. intros ->. by rewrite (cmp_refl bytes_cmp) in C.
  - rewrite decide_False; [done|]. intros ->. by rewrite (cmp_refl bytes_cmp) in C.
Qed.

#[export] Instance map_store_laws : StateStoreLaws map_store Empty_set.
Proof.
  refine {| store_ok := ascending |}. intros s table_id epoch σ pairs Hs Hp Hr. destruct (ingest_map_store pairs s Hs Hp) as [Ha Hg].
  eexists _, _. split; [reflexivity|]. split; [exact Ha|]. eapply reads_as_ext; [|by apply map_store_reads].
  intros k. rewrite Hg. unfold ingested. destruct (BTreeMap.get bytes_cmp pairs k); [done|].
  destruct (ra_get _ _ _ _ Hr k (ReadOptions.mk None None table_id false false) eq_refl) as (r & [= <-] & <-).
  by destruct (BTreeMap.get bytes_cmp s k).
Defined.

Abbreviation example_opts := (ReadOptions.mk None None 7 false false).


(** A flush that fails its checks writes nothing.  With the checks on, when an operation of
    the buffer contradicts the store, [flush] returns the error for the first such operation in
    key order, leaves the store as it was, and the buffered writes are gone. *)
Theorem flush_rejects_contradiction {S E} `{!StateStore S E} (self : MemtableLocalStateStore.t S) (base : table) (e : Z)
    (check : list byte → list byte → bool) (log : bool) (pre post : MemTable.MemTableStore) (k : TableKey.t) (op : KeyOp.t) :
  MemtableLocalStateStore.epoch self = Some e →
  MemtableLocalStateStore.op_consistency_level self = OpConsistencyLevel.ConsistentOldValue check log →
  reads_as (MemtableLocalStateStore.inner self) (MemtableLocalStateStore.table_id self) e base →
  MemTable.buffer (MemtableLocalStateStore.mem_table self) = pre ++ (k, op) :: post →
  Forall (λ p : TableKey.t * KeyOp.t, op_old_ok check (base p.1) p.2) pre → ¬ op_old_ok check (base k) op →
  ∃ self' prev, MemtableLocalStateStore.flush true self = Ret (self', inl (MemTableErr (MemTableError.InconsistentOperation k prev op))) ∧
    MemtableLocalStateStore.inner self' = MemtableLocalStateStore.inner self ∧
    MemTable.buffer (MemtableLocalStateStore.mem_table self') = [].
Proof.
  intros He El Hi Eb Hpre Hop.
  destruct (flush_loop_error _ _ _ (MemtableLocalStateStore.retention_seconds self) true base (λ k, reads_as_get _ _ _ _ _ k Hi)
    MemtableLocalStateStore.push check log pre k op post eq_refl Hpre Hop) as [prev Hl].
  eexists _, prev. unfold MemtableLocalStateStore.flush, MemtableLocalStateStore.the_epoch.
  cbn [MemTable.drain MemTable.into_parts MemTable.buffer MemtableLocalStateStore.set_mem_table MemtableLocalStateStore.epoch MemtableLocalStateStore.inner
       MemtableLocalStateStore.table_id MemtableLocalStateStore.retention_seconds MemtableLocalStateStore.op_consistency_level].
  rewrite He, El, Eb. cbn [unwrap mbind outcome_bind]. rewrite Hl. done.
Qed.

Abbreviation example_local level m := (MemtableLocalStateStore.mk (MemTable.mk m level 0) ([([Byte.x01], [Byte.x0a])] : map_store) (Some 65536%Z) 7 level None (Bitmap.zeros 2)).

Lemma flush_rejects_contradiction_witness :
  ∃ self' prev, MemtableLocalStateStore.flush true
      (example_local (OpConsistencyLevel.ConsistentOldValue CHECK_BYTES_EQUAL false) [([Byte.x00], KeyOp.Insert []); ([Byte.x01], KeyOp.Delete [Byte.x0b])]) =
      Ret (self', inl (MemTableErr (MemTableError.InconsistentOperation [Byte.x01] prev (KeyOp.Delete [Byte.x0b])))) ∧
    MemTable.buffer (MemtableLocalStateStore.mem_table self') = [].
Proof.
  destruct (flush_rejects_contradiction
    (example_local (OpConsistencyLevel.ConsistentOldValue CHECK_BYTES_EQUAL false) [([Byte.x00], KeyOp.Insert []); ([Byte.x01], KeyOp.Delete [Byte.x0b])])
    (BTreeMap.get bytes_cmp [([Byte.x01], [Byte.x0a])]) 65536 CHECK_BYTES_EQUAL false [([Byte.x00], KeyOp.Insert [])] [] [Byte.x01] (KeyOp.Delete [Byte.x0b])
    eq_refl eq_refl) as (self' & prev & Hf & _ & Hb).
  - apply map_store_reads. by repeat constructor.
  - done.
  - repeat constructor.
  - by intros (v & [= <-] & Hc).
  - by exists self', prev.
Defined.

(** [seal_current_epoch] switches the level of the mem-table but not the level that [flush]
    checks with: after a switch to [Inconsistent] an overwrite is accepted by the mem-table and
    then rejected by [flush]. *)
Theorem switched_level_is_not_flushed :
  let consistent := OpConsistencyLevel.ConsistentOldValue CHECK_BYTES_EQUAL false in
  ∃ self self', MemtableLocalStateStore.seal_current_epoch (example_local consistent []) 131072 (Some OpConsistencyLevel.Inconsistent) None = Ret self ∧
    MemTable.op_consistency_level (MemtableLocalStateStore.mem_table self) = OpConsistencyLevel.Inconsistent ∧
    MemtableLocalStateStore.insert (E := Empty_set) 32 72 true self [Byte.x01] [Byte.x0c] None = (self', inr tt) ∧
    ∃ lost, MemtableLocalStateStore.flush true self' =
      Ret (lost, inl (MemTableErr (MemTableError.InconsistentOperation [Byte.x01] (KeyOp.Insert [Byte.x0a]) (KeyOp.Insert [Byte.x0c])))).
Proof. intros consistent. eexists _, _. split; [reflexivity|]. split; [reflexivity|]. split; [reflexivity|]. eexists. vm_compute. reflexivity. Qed.

(** [merge_stream] panics at an update of a key the store does not have when the store has a
    later key, and yields it as a row when it has not: what the level [Inconsistent] admits
    depends on the other rows. *)
Theorem unpaired_update_depends_on_rows :
  let level := OpConsistencyLevel.Inconsistent in
  let read m := MemtableLocalStateStore.iter (example_local level m) (Unbounded, Unbounded) example_opts in
  read [([Byte.x00], KeyOp.Update [] [Byte.x0c])] = Panic ∧
  read [([Byte.x02], KeyOp.Update [] [Byte.x0c])] =
    Ret ([(FullKey.new 7 [Byte.x01] 65536, [Byte.x0a]); (FullKey.new 7 [Byte.x02] 65536, [Byte.x0c])], inr tt).
Proof. split; vm_compute; reflexivity. Qed.
