(* ===== verification/ReadVersion.v ===== *)
(** * Read versions

    [src/storage/src/hummock/store/version.rs] ([StagingVersion], [HummockReadVersion],
    [read_filter_for_version]), [local_version/pinned_version.rs] and the pruning of SSTs of
    [hummock/utils.rs]: what a table's reader sees, which is its batches not yet uploaded, its
    SSTs not yet committed and the committed version, and how uploads, commits and watermarks
    change it.  Who pins a version and the sizes kept for metrics are not modelled.  The theorems
    are in [ReadVersionSpec.v]; [VersionReader.v] reads through it. *)

From Stdlib Require Import ZArith Lia.
From stdpp Require Import gmap fin_maps.
From S2P Require Import Prelude Order Bytes Epoch Bits Bitmap Vnode Key KeySpec KeyRange Watermark Sst Level Split Block Iter UserIter SharedBuffer Version.

(** ** Pruning SSTs *)

(** [ids.binary_search(&id).is_ok()] *)
Definition has_table (info : SstableInfo.t) (table_id : Z) : bool :=
  match binary_search_by (λ id, Z.compare id table_id) (SstableInfo.table_ids info) with inr _ => true | inl _ => false end.

Definition filter_single_sst (info : SstableInfo.t) (table_id : Z) (table_key_range : TableKeyRange) : outcome bool :=
  let table_range := SstableInfo.key_range info in
  table_start ← FullKey.decode (KeyRange.left table_range);
  table_end ← FullKey.decode (KeyRange.right table_range);
  let end_ := FullKey.user_key table_end in
  Ret (range_overlap UserKey.cmp (bound_table_key_range table_id table_key_range) (FullKey.user_key table_start)
         (if KeyRange.right_exclusive table_range then Excluded end_ else Included end_) &&
       has_table info table_id).

Definition search_sst_idx (ssts : list SstableInfo.t) (key : UserKey.t) : outcome nat :=
  rpartition_point (λ table, k ← FullKey.decode (KeyRange.left (SstableInfo.key_range table));
                             Ret (cmp_leb UserKey.cmp (FullKey.user_key k) key)) ssts.

Definition prune_overlapping_ssts (ssts : list SstableInfo.t) (table_id : Z) (table_key_range : TableKeyRange) : outcome (list SstableInfo.t) :=
  rfilter (λ info, filter_single_sst info table_id table_key_range) ssts.

(** [ssts[start..=end]], of the SSTs with the table. *)
Definition prune_nonoverlapping_ssts (ssts : list SstableInfo.t) (user_key_range : UserKeyRange) (table_id : Z) : outcome (list SstableInfo.t) :=
  start_table_idx ← match user_key_range.1 with
                    | Included key | Excluded key => n ← search_sst_idx ssts key; Ret (n - 1)
                    | Unbounded => Ret 0
                    end;
  end_table_idx ← match user_key_range.2 with
                  | Included key | Excluded key => n ← search_sst_idx ssts key; Ret (n - 1)
                  | Unbounded => Ret (length ssts - 1)
                  end;
  ssts ← sub_slice ssts start_table_idx (end_table_idx + 1);
  Ret (filter (λ sst, has_table sst table_id = true) ssts).

(** ** [PinnedVersion] *)
Module PinnedVersion.

Definition INVALID_VERSION_ID : Z := 0.

Definition is_valid (version : HummockVersionCommon.t) : bool := negb (HummockVersionCommon.id version =? INVALID_VERSION_ID)%Z.

(** The levels of the group of a table, newer data first. *)
Definition levels (version : HummockVersionCommon.t) (table_id : Z) : outcome (list Level.t) :=
  match HummockVersionStateTableInfo.state_table_info (HummockVersionCommon.state_table_info version) !! table_id with
  | Some info =>
      levels ← unwrap (HummockVersionCommon.levels version !! StateTableInfo.compaction_group_id info);
      Ret (reverse (OverlappingLevel.sub_levels (Levels.l0 levels)) ++ Levels.levels levels)
  | None => Ret []
  end.

(** [new_pin_version]: the version to pin, if it is new. *)
Definition new_pin_version (self version : HummockVersionCommon.t) : outcome (option HummockVersionCommon.t) :=
  rassert (HummockVersionCommon.id self <=? HummockVersionCommon.id version)%Z;;
  Ret (if (HummockVersionCommon.id version =? HummockVersionCommon.id self)%Z then None else Some version).

End PinnedVersion.

(** ** Staging data *)
Module StagingSstableInfo.

(** [sstable_infos]: the [sst_info] of every [LocalSstableInfo]; newer data first.  [epochs]: newer
    epochs first.  [imm_ids]: the batches of every instance the SSTs were made of, newer first. *)
Record t := mk {
  sstable_infos : list SstableInfo.t;
  old_value_sstable_infos : list SstableInfo.t;
  epochs : list Z;
  imm_ids : gmap Z (list Z);
  imm_size : Z
}.

Fixpoint is_sorted_desc (l : list Z) : bool :=
  match l with
  | x :: ((y :: _) as l') => (y <=? x)%Z && is_sorted_desc l'
  | _ => true
  end.

Definition new (sstable_infos old_value_sstable_infos : list SstableInfo.t) (epochs : list Z) (imm_ids : gmap Z (list Z)) (imm_size : Z) : outcome t :=
  rassert (is_sorted_desc epochs);; Ret (mk sstable_infos old_value_sstable_infos epochs imm_ids imm_size).

End StagingSstableInfo.

Module StagingVersion.

(** Newer data first in both. *)
Record t := mk { imm : list SharedBufferBatch.t; sst : list StagingSstableInfo.t }.

Definition empty : t := mk [] [].

Definition is_empty (self : t) : bool := match imm self, sst self with [], [] => true | _, _ => false end.

Definition imm_overlaps (max_epoch_inclusive table_id : Z) (table_key_range : TableKeyRange) (imm : SharedBufferBatch.t) : outcome bool :=
  min_epoch ← SharedBufferBatch.min_epoch imm;
  if (min_epoch <=? max_epoch_inclusive)%Z && (SharedBufferBatch.table_id imm =? table_id)%Z then
    start ← SharedBufferBatch.start_table_key imm;
    end_ ← SharedBufferBatch.end_table_key imm;
    Ret (range_overlap bytes_cmp table_key_range start (Included end_))
  else Ret false.

(** The batches and the SSTs a read at an epoch needs. *)
Definition prune_overlap (self : t) (max_epoch_inclusive table_id : Z) (table_key_range : TableKeyRange)
  : outcome (list SharedBufferBatch.t * list SstableInfo.t) :=
  imms ← rfilter (imm_overlaps max_epoch_inclusive table_id table_key_range) (imm self);
  staging ← rfilter (λ s : StagingSstableInfo.t, e ← unwrap (last (StagingSstableInfo.epochs s)); Ret (e <=? max_epoch_inclusive)%Z) (sst self);
  ssts ← rmap (λ s, rfilter (λ info, filter_single_sst info table_id table_key_range) (StagingSstableInfo.sstable_infos s)) staging;
  Ret (imms, concat ssts).

End StagingVersion.

Module VersionUpdate.
Inductive t :=
| StagingImm (imm : SharedBufferBatch.t)
| StagingSst (sst : StagingSstableInfo.t)
| CommittedSnapshot (version : HummockVersionCommon.t)
| NewTableWatermark (direction : WatermarkDirection.t) (epoch : Z) (vnode_watermarks : list VnodeWatermark.t).
End VersionUpdate.

(** ** [HummockReadVersion] *)
Module HummockReadVersion.

Record t := mk {
  table_id : Z;
  instance_id : Z;
  staging : StagingVersion.t;
  committed : HummockVersionCommon.t;
  is_replicated : bool;
  table_watermarks : option TableWatermarksIndex.t;
  vnodes : Bitmap.t
}.

Definition set_staging (self : t) (s : StagingVersion.t) : t :=
  mk (table_id self) (instance_id self) s (committed self) (is_replicated self) (table_watermarks self) (vnodes self).
Definition set_watermarks (self : t) (w : option TableWatermarksIndex.t) : t :=
  mk (table_id self) (instance_id self) (staging self) (committed self) (is_replicated self) w (vnodes self).
Definition set_committed (self : t) (c : HummockVersionCommon.t) : t :=
  mk (table_id self) (instance_id self) (staging self) c (is_replicated self) (table_watermarks self) (vnodes self).

Definition new_with_replication_option (table_id instance_id : Z) (committed_version : HummockVersionCommon.t) (is_replicated : bool) (vnodes : Bitmap.t) : outcome t :=
  rassert (PinnedVersion.is_valid committed_version);;
  watermarks ← match HummockVersionCommon.table_watermarks committed_version !! table_id with
               | Some table_watermarks =>
                   e ← unwrap (HummockVersionCommon.table_committed_epoch committed_version table_id);
                   Ret (Some (TableWatermarksIndex.new_committed table_watermarks e))
               | None => Ret None
               end;
  Ret (mk table_id instance_id StagingVersion.empty committed_version is_replicated watermarks vnodes).

Definition batch_id (imm : SharedBufferBatch.t) : Z := SharedBufferBatchInner.batch_id (SharedBufferBatch.inner imm).

(** The batches of an upload are the oldest ones, popped from the back. *)
Fixpoint pop_imms (imms : list SharedBufferBatch.t) (ids_oldest_first : list Z) : outcome (list SharedBufferBatch.t) :=
  match ids_oldest_first with
  | [] => Ret imms
  | id :: ids =>
      prev ← unwrap (last imms);
      rassert (batch_id prev =? id)%Z;;
      pop_imms (take (length imms - 1) imms) ids
  end.

Definition update (self : t) (info : VersionUpdate.t) : outcome t :=
  match info with
  | VersionUpdate.StagingImm imm =>
      Ret (set_staging self (StagingVersion.mk (imm :: StagingVersion.imm (staging self)) (StagingVersion.sst (staging self))))
  | VersionUpdate.StagingSst staging_sst_ref =>
      match StagingSstableInfo.imm_ids staging_sst_ref !! instance_id self with
      | None => Ret self
      | Some imms =>
          rest ← pop_imms (StagingVersion.imm (staging self)) (reverse imms);
          Ret (set_staging self (StagingVersion.mk rest (staging_sst_ref :: StagingVersion.sst (staging self))))
      end
  | VersionUpdate.CommittedSnapshot committed_version =>
      self ← match HummockVersionCommon.table_committed_epoch committed_version (table_id self) with
             | Some committed_epoch =>
                 imm ← rfilter (λ imm, e ← SharedBufferBatch.min_epoch imm;
                                       if is_replicated self then Ret (committed_epoch <? e)%Z
                                       else rassert (committed_epoch <? e)%Z;; Ret true)
                         (StagingVersion.imm (staging self));
                 sst ← rfilter (λ s : StagingSstableInfo.t, e ← unwrap (head (StagingSstableInfo.epochs s)); Ret (committed_epoch <? e)%Z)
                         (StagingVersion.sst (staging self));
                 all_after ← rfilter (λ s : StagingSstableInfo.t, e ← unwrap (last (StagingSstableInfo.epochs s)); Ret (negb (committed_epoch <? e)%Z)) sst;
                 rassert (match all_after with [] => true | _ => false end);;
                 watermarks ←
                   match HummockVersionCommon.table_watermarks (committed self) !! table_id self with
                   | Some committed_watermarks =>
                       match table_watermarks self with
                       | Some watermark_index =>
                           i ← TableWatermarksIndex.apply_committed_watermarks watermark_index committed_watermarks committed_epoch; Ret (Some i)
                       | None => Ret (Some (TableWatermarksIndex.new_committed committed_watermarks committed_epoch))
                       end
                   | None => Ret (table_watermarks self)
                   end;
                 Ret (set_watermarks (set_staging self (StagingVersion.mk imm sst)) watermarks)
             | None => Ret self
             end;
      Ret (set_committed self committed_version)
  | VersionUpdate.NewTableWatermark direction epoch vnode_watermarks =>
      i ← match table_watermarks self with
          | Some watermark_index => TableWatermarksIndex.add_epoch_watermark watermark_index epoch vnode_watermarks direction
          | None => TableWatermarksIndex.new direction epoch vnode_watermarks (HummockVersionCommon.table_committed_epoch (committed self) (table_id self))
          end;
      Ret (set_watermarks self (Some i))
  end.

Definition filter_regress_watermarks (self : t) (watermarks : list VnodeWatermark.t) : outcome (list VnodeWatermark.t) :=
  match table_watermarks self with
  | Some watermark_index => TableWatermarksIndex.filter_regress_watermarks watermark_index watermarks
  | None => Ret watermarks
  end.

Definition latest_watermark (self : t) (vnode : VirtualNode.t) : outcome (option (list byte)) :=
  match table_watermarks self with
  | Some watermark_index => TableWatermarksIndex.latest_watermark watermark_index vnode
  | None => Ret None
  end.

Definition update_vnode_bitmap (self : t) (v : Bitmap.t) : t * Bitmap.t :=
  (mk (table_id self) (instance_id self) (staging self) (committed self) (is_replicated self) (table_watermarks self) v, vnodes self).

Definition contains (self : t) (vnode : VirtualNode.t) : outcome bool := Bitmap.is_set (vnodes self) (VirtualNode.to_index vnode).

End HummockReadVersion.

(** The range without what the watermarks expire, and what to read: batches, SSTs not committed
    and the committed version. *)
Definition read_filter_for_version (epoch table_id : Z) (table_key_range : TableKeyRange) (read_version : HummockReadVersion.t)
  : outcome (TableKeyRange * (list SharedBufferBatch.t * list SstableInfo.t * HummockVersionCommon.t)) :=
  table_key_range ← match HummockReadVersion.table_watermarks read_version with
                    | Some watermark => TableWatermarksIndex.rewrite_range_with_table_watermark watermark epoch table_key_range
                    | None => Ret table_key_range
                    end;
  '(imms, ssts) ← StagingVersion.prune_overlap (HummockReadVersion.staging read_version) epoch table_id table_key_range;
  Ret (table_key_range, (imms, ssts, HummockReadVersion.committed read_version)).
