(* ===== verification/VersionReader.v ===== *)
(** * Reading through a version

    [HummockVersionReader] of [src/storage/src/hummock/store/version.rs], the iterator factories
    of [store/local_hummock_storage.rs] and [get_from_sstable_info] of [hummock/mod.rs]: a point
    lookup goes through the batches, the SSTs not yet committed and the levels of the committed
    version, and stops at the first that has the key; a scan merges iterators over all of them.
    The store that opens an SST, the iterator over one (those of [SstIter.v]), its filter and the
    hash of a filter key are parameters.  The theorems are in [VersionReaderSpec.v]. *)

From Stdlib Require Import ZArith Lia.
From stdpp Require Import gmap fin_maps.
From S2P Require Import Prelude Order Bytes Epoch Bits Bitmap Vnode Key KeySpec KeyRange Watermark Sst Level Split Block Iter UserIter SharedBuffer Version MemTable StateStore ReadVersion.

(** [Sstable::hash_for_bloom_filter] *)
Definition hash_for_bloom_filter (xxh64 : list byte → Z) (dist_key : list byte) (table_id : Z) : Z := Z.lxor table_id (xxh64 dist_key).

Abbreviation ReadVersionTuple := (list SharedBufferBatch.t * list SstableInfo.t * HummockVersionCommon.t)%type.

Section reader.
Context {Store Table TI : Type} {it : HummockIterator.t TI}
  (sstable : Store → SstableInfo.t → Store * HummockResult Table)
  (create : Table → Store → SstableInfo.t → outcome TI)
  (may_match_hash : Table → UserKeyRange → Z → bool)
  (sstable_id : Table → Z)
  (xxh64 : list byte → Z).

(** A version of a key: its value and its epoch. *)
Abbreviation hit := (HummockValue.t * Z)%type.

(** The store after a fallible call and its result. *)
Abbreviation io A := (outcome (Store * HummockResult A)).

Definition bind_io {A B} (m : io A) (k : Store → A → io B) : io B :=
  '(store, r) ← m; match r with inl e => Ret (store, inl e) | inr a => k store a end.

(** The future of an iterator that is not kept. *)
Definition await {I A} (store : Store) (m : step I) (k : I → io A) : io A :=
  '(i, r) ← m; match r with inl e => Ret (store, inl e) | inr _ => k i end.

Definition open_sstable (store : Store) (info : SstableInfo.t) : io Table := Ret (sstable store info).

(** [let Some(hash) = hash && !hit_sstable_bloom_filter(..)] *)
Definition filtered_out (table : Table) (range : UserKeyRange) (hash : option Z) : bool :=
  match hash with Some hash => negb (may_match_hash table range hash) | None => false end.

Definition get_from_sstable_info (store : Store) (sstable_info : SstableInfo.t) (full_key : FullKey.t) (dist_key_hash : option Z) : io (option hit) :=
  bind_io (open_sstable store sstable_info) (λ store sstable,
    if filtered_out sstable (Included (FullKey.user_key full_key), Included (FullKey.user_key full_key)) dist_key_hash then Ret (store, inr None)
    else
      iter ← create sstable store sstable_info;
      await store (HummockIterator.seek iter full_key) (λ iter,
        valid ← HummockIterator.is_valid iter;
        if negb valid then Ret (store, inr None)
        else
          key ← HummockIterator.key iter;
          if bool_decide (FullKey.user_key key = FullKey.user_key full_key) then
            value ← HummockIterator.value iter;
            Ret (store, inr (Some (value, FullKey.epoch_with_gap key)))
          else Ret (store, inr None))).

(** *** [get] *)

(** 1. The batches. *)
Fixpoint get_from_imms (imms : list SharedBufferBatch.t) (table_key : TableKey.t) (epoch min_epoch : Z) : outcome (option hit) :=
  match imms with
  | [] => Ret None
  | imm :: imms =>
      max_epoch ← SharedBufferBatch.max_epoch imm;
      if (max_epoch <? min_epoch)%Z then get_from_imms imms table_key epoch min_epoch
      else
        r ← SharedBufferBatch.get imm table_key epoch;
        match r with Some h => Ret (Some h) | None => get_from_imms imms table_key epoch min_epoch end
  end.

(** 2. SSTs one after the other. *)
Fixpoint get_from_ssts (store : Store) (infos : list SstableInfo.t) (full_key : FullKey.t) (dist_key_hash : option Z) : io (option hit) :=
  match infos with
  | [] => Ret (store, inr None)
  | info :: infos =>
      bind_io (get_from_sstable_info store info full_key dist_key_hash) (λ store r,
        match r with Some h => Ret (store, inr (Some h)) | None => get_from_ssts store infos full_key dist_key_hash end)
  end.

(** 3. One level: the SSTs of it that may have the key. *)
Definition level_ssts (level : Level.t) (table_id : Z) (full_key : FullKey.t) : outcome (list SstableInfo.t) :=
  match Level.table_infos level with
  | [] => Ret []
  | _ =>
      match Level.level_type level with
      | LevelType.Overlapping | LevelType.Unspecified =>
          let table_key := UserKey.table_key (FullKey.user_key full_key) in
          prune_overlapping_ssts (Level.table_infos level) table_id (Included table_key, Included table_key)
      | LevelType.Nonoverlapping =>
          table_info_idx ← search_sst_idx (Level.table_infos level) (FullKey.user_key full_key);
          if table_info_idx =? 0 then Ret []
          else
            info ← unwrap (Level.table_infos level !! (table_info_idx - 1));
            ord ← KeyRange.compare_right_with_user_key (SstableInfo.key_range info) (FullKey.user_key full_key);
            Ret (match ord with Lt => [] | _ => [info] end)
      end
  end.

Fixpoint get_from_levels (store : Store) (levels : list Level.t) (table_id : Z) (full_key : FullKey.t) (dist_key_hash : option Z) : io (option hit) :=
  match levels with
  | [] => Ret (store, inr None)
  | level :: levels =>
      infos ← level_ssts level table_id full_key;
      bind_io (get_from_ssts store infos full_key dist_key_hash) (λ store r,
        match r with Some h => Ret (store, inr (Some h)) | None => get_from_levels store levels table_id full_key dist_key_hash end)
  end.

(** What is returned of the version found. *)
Definition found (table_id : Z) (table_key : TableKey.t) (min_epoch : Z) (h : hit) : option StateStoreKeyedRow :=
  let '(data, data_epoch) := h in
  if (EpochWithGap.pure_epoch data_epoch <? min_epoch)%Z then None
  else (λ v, (FullKey.new_with_gap_epoch table_id table_key data_epoch, v)) <$> HummockValue.into_user_value data.

Definition get (store : Store) (table_key : TableKey.t) (epoch : Z) (read_options : ReadOptions.t) (read_version_tuple : ReadVersionTuple)
  : io (option StateStoreKeyedRow) :=
  let '(imms, uncommitted_ssts, committed_version) := read_version_tuple in
  let table_id := ReadOptions.table_id read_options in
  let min_epoch := gen_min_epoch epoch (ReadOptions.retention_seconds read_options) in
  r ← get_from_imms imms table_key epoch min_epoch;
  match r with
  | Some h => Ret (store, inr (found table_id table_key min_epoch h))
  | None =>
      let dist_key_hash := (λ dist_key, hash_for_bloom_filter xxh64 dist_key table_id) <$> ReadOptions.prefix_hint read_options in
      let full_key := FullKey.new_with_gap_epoch table_id table_key (EpochWithGap.new epoch Epoch.MAX_SPILL_TIMES) in
      bind_io (get_from_ssts store uncommitted_ssts full_key dist_key_hash) (λ store r,
        match r with
        | Some h => Ret (store, inr (found table_id table_key min_epoch h))
        | None =>
            rassert (PinnedVersion.is_valid committed_version);;
            levels ← PinnedVersion.levels committed_version table_id;
            bind_io (get_from_levels store levels table_id full_key dist_key_hash) (λ store r,
              Ret (store, inr (r ≫= found table_id table_key min_epoch)))
        end)
  end.

End reader.

(** ** Scans

    [IteratorFactory]: the iterators over the parts of a version.  [D] is the direction of the
    factory ([ForwardIteratorFactory], [BackwardIteratorFactory]) and [B] the builder of its
    mem-table iterators. *)
Module IteratorFactory.
Section factory.
Context {Store Table TI : Type} {it : HummockIterator.t TI} (D : DirectionEnum.t) (B : Type) `{!RustIteratorBuilder.t B}.

Abbreviation phantom := (PhantomHummockIterator D).
Abbreviation staging_iter := (HummockIteratorUnion (SharedBufferBatchIterator.t D true) TI phantom phantom).
Abbreviation concat_t := (ConcatIteratorInner.t Store TI).

Record t := mk {
  non_overlapping_iters : list concat_t;
  overlapping_iters : list TI;
  staging_iters : list staging_iter
}.

Definition default : t := mk [] [] [].

Definition add_batch_iter (self : t) (batch : SharedBufferBatch.t) : outcome t :=
  i ← SharedBufferBatchIterator.new (SharedBufferBatch.inner batch) (SharedBufferBatch.table_id batch);
  Ret (mk (non_overlapping_iters self) (overlapping_iters self) (staging_iters self ++ [First i])).

Definition add_staging_sst_iter (self : t) (iter : TI) : t :=
  mk (non_overlapping_iters self) (overlapping_iters self) (staging_iters self ++ [Second iter]).

Definition add_overlapping_sst_iter (self : t) (iter : TI) : t :=
  mk (non_overlapping_iters self) (overlapping_iters self ++ [iter]) (staging_iters self).

(** A backward factory reverses the SSTs. *)
Definition add_concat_sst_iter (self : t) (tables : list SstableInfo.t) (store : Store) : t :=
  let tables := match D with DirectionEnum.Forward => tables | DirectionEnum.Backward => reverse tables end in
  mk (non_overlapping_iters self ++ [ConcatIteratorInner.new tables store]) (overlapping_iters self) (staging_iters self).

(** [HummockStorageIteratorPayloadInner] *)
Abbreviation payload_part := (HummockIteratorUnion (MergeIterator.t staging_iter) TI concat_t (FromRustIterator.t B)).

Definition build (self : t) (mem_table : option (FromRustIterator.t B)) : MergeIterator.t payload_part :=
  MergeIterator.create
    ([First (MergeIterator.create (staging_iters self))] ++ (Second <$> overlapping_iters self) ++ (Third <$> non_overlapping_iters self) ++
     match mem_table with Some m => [Fourth m] | None => [] end).

End factory.
End IteratorFactory.

(** ** [HummockStorageIteratorInner] and [HummockStorageRevIteratorInner]

    The user iterator stands at its first row when it is handed out. *)
Module HummockStorageIterator.

Record t (I : Type) := mk { inner : UserIterator.t I; initial_read : bool }.
Arguments mk {I} inner initial_read.
Arguments inner {I} t.
Arguments initial_read {I} t.

Definition new {I} (inner : UserIterator.t I) : t I := mk inner false.

Definition try_next {I} {it : HummockIterator.t I} (fuel : nat) (self : t I) : outcome (t I * HummockResult (option StateStoreKeyedRow)) :=
  '(iter, r) ← if initial_read self then UserIterator.next fuel (inner self) else ok (inner self);
  let self := mk iter true in
  match r with
  | inl e => Ret (self, inl e)
  | inr _ =>
      if UserIterator.is_valid iter then k ← UserIterator.key iter; v ← UserIterator.value iter; Ret (self, inr (Some (k, v)))
      else Ret (self, inr None)
  end.

End HummockStorageIterator.

Module HummockStorageRevIterator.

Record t (I : Type) := mk { inner : BackwardUserIterator.t I; initial_read : bool }.
Arguments mk {I} inner initial_read.
Arguments inner {I} t.
Arguments initial_read {I} t.

Definition new {I} (inner : BackwardUserIterator.t I) : t I := mk inner false.

Definition try_next {I} {it : HummockIterator.t I} (fuel : nat) (self : t I) : outcome (t I * HummockResult (option StateStoreKeyedRow)) :=
  '(iter, r) ← if initial_read self then BackwardUserIterator.next fuel (inner self) else ok (inner self);
  let self := mk iter true in
  match r with
  | inl e => Ret (self, inl e)
  | inr _ =>
      valid ← BackwardUserIterator.is_valid iter;
      if (valid : bool) then k ← BackwardUserIterator.key iter; v ← BackwardUserIterator.value iter; Ret (self, inr (Some (k, v)))
      else Ret (self, inr None)
  end.

End HummockStorageRevIterator.

Section scan.
Context {Store Table TI : Type} {it : HummockIterator.t TI}
  (sstable : Store → SstableInfo.t → Store * HummockResult Table)
  (create : Table → Store → SstableInfo.t → outcome TI)
  (may_match_hash : Table → UserKeyRange → Z → bool)
  (sstable_id : Table → Z)
  (xxh64 : list byte → Z)
  (D : DirectionEnum.t) (B : Type) `{!RustIteratorBuilder.t B}.
Abbreviation factory := (IteratorFactory.t (Store := Store) (TI := TI) D).
Abbreviation io A := (outcome (Store * HummockResult A)).

(** Open an SST and hand an iterator over it to the factory, unless the filter rules it out. *)
Definition add_sst (add : factory → TI → factory) (check_id : bool) (range : UserKeyRange) (hash : option Z) (store : Store) (f : factory) (info : SstableInfo.t) : io factory :=
  bind_io (open_sstable sstable store info) (λ store table,
    rassert (negb check_id || (SstableInfo.object_id info =? sstable_id table)%Z);;
    if filtered_out may_match_hash table range hash then Ret (store, inr f)
    else iter ← create table store info; Ret (store, inr (add f iter))).

Fixpoint add_ssts (add : factory → TI → factory) (check_id : bool) (range : UserKeyRange) (hash : option Z) (store : Store) (f : factory) (infos : list SstableInfo.t) : io factory :=
  match infos with
  | [] => Ret (store, inr f)
  | info :: infos => bind_io (add_sst add check_id range hash store f info) (λ store f, add_ssts add check_id range hash store f infos)
  end.

Abbreviation add_overlapping := (IteratorFactory.add_overlapping_sst_iter (Store := Store) (TI := TI) D).

Definition add_level (table_id : Z) (table_key_range : TableKeyRange) (hash : option Z) (store : Store) (f : factory) (level : Level.t) : io factory :=
  let user_key_range := bound_table_key_range table_id table_key_range in
  match Level.table_infos level with
  | [] => Ret (store, inr f)
  | _ =>
      match Level.level_type level with
      | LevelType.Nonoverlapping =>
          table_infos ← prune_nonoverlapping_ssts (Level.table_infos level) user_key_range table_id;
          match table_infos with
          | [] => Ret (store, inr f)
          | [info] => add_sst add_overlapping false user_key_range hash store f info
          | _ => Ret (store, inr (IteratorFactory.add_concat_sst_iter D f table_infos store))
          end
      | _ =>
          table_infos ← prune_overlapping_ssts (Level.table_infos level) table_id table_key_range;
          add_ssts add_overlapping true user_key_range hash store f (reverse table_infos)
      end
  end.

Fixpoint add_levels (table_id : Z) (table_key_range : TableKeyRange) (hash : option Z) (store : Store) (f : factory) (levels : list Level.t) : io factory :=
  match levels with
  | [] => Ret (store, inr f)
  | level :: levels => bind_io (add_level table_id table_key_range hash store f level) (λ store f, add_levels table_id table_key_range hash store f levels)
  end.

Definition iter_inner (store : Store) (table_key_range : TableKeyRange) (read_options : ReadOptions.t) (imms : list SharedBufferBatch.t)
    (uncommitted_ssts : list SstableInfo.t) (committed : HummockVersionCommon.t) : io factory :=
  let table_id := ReadOptions.table_id read_options in
  f ← rfold (IteratorFactory.add_batch_iter D) imms (IteratorFactory.default D);
  let user_key_range := bound_table_key_range table_id table_key_range in
  let hash := (λ hint, hash_for_bloom_filter xxh64 hint table_id) <$> ReadOptions.prefix_hint read_options in
  bind_io (add_ssts (IteratorFactory.add_staging_sst_iter D) false user_key_range hash store f uncommitted_ssts) (λ store f,
    levels ← PinnedVersion.levels committed table_id;
    add_levels table_id table_key_range hash store f levels).

Abbreviation payload := (MergeIterator.t (HummockIteratorUnion
  (MergeIterator.t (HummockIteratorUnion (SharedBufferBatchIterator.t D true) TI (PhantomHummockIterator D) (PhantomHummockIterator D)))
  TI (ConcatIteratorInner.t Store TI) (FromRustIterator.t B))).

(** The merged iterator over everything the version holds of the range. *)
Definition payload_of (store : Store) (table_key_range : TableKeyRange) (read_options : ReadOptions.t) (read_version_tuple : ReadVersionTuple)
    (memtable_iter : option (FromRustIterator.t B)) : io payload :=
  let '(imms, uncommitted_ssts, committed) := read_version_tuple in
  bind_io (iter_inner store table_key_range read_options imms uncommitted_ssts committed) (λ store f,
    Ret (store, inr (IteratorFactory.build D B f memtable_iter))).

#[local] Existing Instance SharedBufferBatchIterator.batch_iter.

(** The operations of the payload. *)
Definition payload_iter {bh : BinaryHeap} : HummockIterator.t payload :=
  MergeIterator.merge_iter (it := union_iter (i1 := MergeIterator.merge_iter) (i3 := ConcatIteratorInner.concat_iter sstable create)).

Context {bh : BinaryHeap} (fuel : nat).

(** [iter_with_memtable]; [iter] has no mem-table. *)
Definition iter_with_memtable (store : Store) (table_key_range : TableKeyRange) (epoch : Z) (read_options : ReadOptions.t) (read_version_tuple : ReadVersionTuple)
    (memtable_iter : option (FromRustIterator.t B)) : outcome (HummockResult (HummockStorageIterator.t payload)) :=
  '(_, r) ← payload_of store table_key_range read_options read_version_tuple memtable_iter;
  match r with
  | inl e => Ret (inl e)
  | inr merge_iter =>
      let min_epoch := gen_min_epoch epoch (ReadOptions.retention_seconds read_options) in
      let user_key_range := bound_table_key_range (ReadOptions.table_id read_options) table_key_range in
      '(user_iter, r) ← UserIterator.rewind (it := payload_iter) fuel (UserIterator.new merge_iter user_key_range epoch min_epoch);
      Ret (match r with inl e => inl e | inr _ => inr (HummockStorageIterator.new user_iter) end)
  end.

Definition rev_iter (store : Store) (table_key_range : TableKeyRange) (epoch : Z) (read_options : ReadOptions.t) (read_version_tuple : ReadVersionTuple)
    (memtable_iter : option (FromRustIterator.t B)) : outcome (HummockResult (HummockStorageRevIterator.t payload)) :=
  '(_, r) ← payload_of store table_key_range read_options read_version_tuple memtable_iter;
  match r with
  | inl e => Ret (inl e)
  | inr merge_iter =>
      let min_epoch := gen_min_epoch epoch (ReadOptions.retention_seconds read_options) in
      let user_key_range := bound_table_key_range (ReadOptions.table_id read_options) table_key_range in
      '(user_iter, r) ← BackwardUserIterator.rewind (it := payload_iter) fuel (BackwardUserIterator.new merge_iter user_key_range epoch min_epoch);
      Ret (match r with inl e => inl e | inr _ => inr (HummockStorageRevIterator.new user_iter) end)
  end.

End scan.
