(* ===== verification/VersionReaderSpec.v ===== *)
(** * Reading through a version: theorems

    A point lookup returns the newest readable version of a key over everything a version holds,
    though it stops at the first part that has one and opens only the SSTs that may have it; and
    the parts a scan merges hold every entry of its range. *)

From Stdlib Require Import ZArith Lia.
From stdpp Require Import gmap fin_maps.
From S2P Require Import Prelude Order Bytes Epoch Bits Bitmap Vnode Key KeySpec KeyOrder KeyRange Watermark Sst SstSpec Level Split Block Iter IterSpec ConcatSpec UserIter UserIterSpec SharedBuffer SharedBufferSpec MergeImmSpec SstMeta SstIter ReadPath Version MemTable MemTableSpec StateStore ReadVersion VersionReader.

(** ** Versions of a key *)
Section key.
Context (table_id : Z) (table_key : TableKey.t) (epoch min_epoch : Z).
Abbreviation user := (UserKey.mk table_id table_key).
Abbreviation seen_at := (sees table_id table_key epoch).
Implicit Types (l all : list kv).

Definition hit_of l : option (HummockValue.t * Z) := (λ e : kv, (e.2, FullKey.epoch_with_gap e.1)) <$> head (filter seen_at l).

(** The outcome of a lookup: the version found is the newest one seen; when none is found, those
    seen are out of date. *)
Definition good all (h : option (HummockValue.t * Z)) : Prop :=
  match h with
  | Some (v, ep) => ∃ e, e ∈ all ∧ seen_at e ∧ e.2 = v ∧ FullKey.epoch_with_gap e.1 = ep ∧
      ∀ x, x ∈ all → seen_at x → (min_epoch ≤ epoch_of x)%Z → (FullKey.epoch_with_gap x.1 ≤ ep)%Z
  | None => ∀ x, x ∈ all → seen_at x → (epoch_of x < min_epoch)%Z
  end.

(** Every version of a user key in the first list is at least as new as those in the second. *)
Definition newer l all : Prop := ∀ x y, x ∈ l → y ∈ all → ukey x = ukey y → (FullKey.epoch_with_gap y.1 ≤ FullKey.epoch_with_gap x.1)%Z.

(** The first version seen in sorted entries is the newest. *)
Lemma head_newest l e : sorted DirectionEnum.Forward l → head (filter seen_at l) = Some e →
  e ∈ l ∧ seen_at e ∧ ∀ x, x ∈ l → seen_at x → (FullKey.epoch_with_gap x.1 ≤ FullKey.epoch_with_gap e.1)%Z.
Proof.
  intros Hs Hh. pose proof (sorted_filter _ seen_at _ Hs) as Hf. destruct (filter seen_at l) as [|e' r] eqn:E; [done|]. injection Hh as ->.
  assert (∀ x, x ∈ e :: r ↔ seen_at x ∧ x ∈ l) as Hin by (intros x; rewrite <-E; apply list_elem_of_filter).
  destruct (proj1 (Hin e)) as [He Hel]; [by left|]. split; [done|]. split; [done|]. intros x Hx Hsx.
  assert (x ∈ e :: r) as Hx' by by apply Hin. apply elem_of_cons in Hx' as [-> | Hr]; [lia|].
  inversion Hf as [|? ? _ Hle]; subst. rewrite Forall_forall in Hle. specialize (Hle x Hr). unfold kv_le, dir_cmp in Hle.
  destruct He as [He _], Hsx as [Hsx _]. unfold FullKey.cmp in Hle. rewrite He, Hsx, (cmp_refl UserKey.cmp) in Hle. cbn in Hle.
  by apply Z.compare_le_iff in Hle.
Qed.

(** The first of the parts that has a version seen. *)
Fixpoint first_hit (layers : list (list kv)) : option (HummockValue.t * Z) :=
  match layers with
  | [] => None
  | l :: layers => match hit_of l with Some h => Some h | None => first_hit layers end
  end.

Lemma first_hit_app (ls ls2 : list (list kv)) : first_hit (ls ++ ls2) = match first_hit ls with Some h => Some h | None => first_hit ls2 end.
Proof. induction ls as [|l ls IH]; [done|]. cbn. by destruct (hit_of l). Qed.

Lemma hit_none l : hit_of l = None → ∀ x, x ∈ l → ¬ seen_at x.
Proof.
  unfold hit_of. intros H x Hx Hsx. assert (x ∈ filter seen_at l) as Hf by by apply list_elem_of_filter.
  destruct (filter seen_at l); [by apply elem_of_nil in Hf|done].
Qed.

(** When newer parts come first, the first hit is the newest version. *)
Lemma first_hit_good layers : Forall (sorted DirectionEnum.Forward) layers → StronglySorted newer layers → good (mjoin layers) (first_hit layers).
Proof.
  intros Hs Hn. induction Hn as [|l layers Hn IH Hl]; [intros x Hx; by apply elem_of_nil in Hx|]. inversion Hs as [|? ? Hsl Hsr]; subst.
  specialize (IH Hsr). rewrite join_cons. cbn [first_hit]. pose proof (hit_none l) as Hno. destruct (hit_of l) as [[v ep]|] eqn:Hh.
  - unfold hit_of in Hh. destruct (head (filter seen_at l)) as [e|] eqn:Eh; [|done]. injection Hh as <- <-.
    destruct (head_newest l e Hsl Eh) as (Hin & Hse & Hmax). exists e. rewrite elem_of_app. split; [by left|]. do 3 (split; [done|]).
    intros x [Hx|(l' & Hx & Hl')%list_elem_of_join]%elem_of_app Hsx _; [by apply Hmax|]. rewrite Forall_forall in Hl.
    apply (Hl l' Hl' e x); [done..|]. by destruct Hse as [-> _], Hsx as [-> _].
  - specialize (Hno eq_refl). destruct (first_hit layers) as [[v ep]|]; cbn in *.
    + destruct IH as (e & He & Hse & Hv & Hep & Hmax). exists e. rewrite elem_of_app. split; [by right|]. do 3 (split; [done|]).
      intros x [Hx|Hx]%elem_of_app Hsx; [by destruct (Hno x Hx)|by apply Hmax].
    + intros x [Hx|Hx]%elem_of_app Hsx; [by destruct (Hno x Hx)|by apply IH].
Qed.

(** Entries that are not seen or out of date do not matter. *)
Lemma good_extend all all' h : all' ⊆ all → (∀ x, x ∈ all → seen_at x → (min_epoch ≤ epoch_of x)%Z → x ∈ all') → good all' h → good all h.
Proof.
  intros Hsub Hrest. destruct h as [[v ep]|]; cbn.
  - intros (e & He & Hse & Hv & Hep & Hmax). exists e. split; [by apply Hsub|]. do 3 (split; [done|]). auto.
  - intros Hall x Hx Hsx. destruct (Z.lt_ge_cases (epoch_of x) min_epoch); [done|]. auto.
Qed.

(** What a lookup makes of a good outcome is the row of the key. *)
Lemma found_row all h : coherent all → Forall (λ e, is_uint 64 (FullKey.epoch_with_gap e.1)) all → good all h → ∀ k v,
  h ≫= found table_id table_key min_epoch = Some (k, v) ↔ is_row min_epoch epoch (λ u, bool_decide (u = user)) all k v.
Proof.
  intros Hc Hu Hg k v. rewrite Forall_forall in Hu. unfold is_row, readable.
  assert (∀ x, FullKey.user_key k = user → readable min_epoch epoch x = true → ukey x = FullKey.user_key k → seen_at x ∧ (min_epoch ≤ epoch_of x)%Z) as Hsee.
  { intros x Hk Hr Hx. unfold readable in Hr. apply andb_true_iff in Hr as [H1%Z.leb_le H2%Z.leb_le]. split; [|done]. split; [congruence|done]. }
  destruct h as [[hv ep]|]; cbn in Hg |- *.
  - destruct Hg as (e & He & [Heu Hee] & Hev & Hep & Hmax). unfold found. cbn. subst hv ep. split.
    + destruct (Z.ltb_spec (epoch_of e) min_epoch); [done|]. destruct e as [fk [val|]]; cbn in *; [|done]. intros [= <- <-].
      assert (FullKey.new_with_gap_epoch table_id table_key (FullKey.epoch_with_gap fk) = fk) as -> by (destruct fk; cbn in *; by subst).
      split; [done|]. split; [apply andb_true_iff; split; apply Z.leb_le; lia|]. split; [by apply bool_decide_eq_true|].
      intros x Hx Hr Hxu. destruct (Hsee x eq_refl Hr (eq_trans Hxu Heu)). by apply Hmax.
    + intros (Hin & Hr & Hku%bool_decide_eq_true & Hnew). destruct (Hsee (k, HummockValue.Put v) Hku Hr eq_refl) as [Hsx Hm]. cbn [fst] in *.
      pose proof (Hmax _ Hin Hsx Hm) as Hle. cbn [fst] in Hle.
      assert (epoch_of e >= min_epoch)%Z as Hge.
      { pose proof (Hu _ He) as U1. pose proof (Hu _ Hin) as U2. cbn [fst] in U2. rewrite pure_epoch_sub in Hm |- * by done.
        assert (FullKey.epoch_with_gap k - FullKey.epoch_with_gap k mod 65536 ≤ FullKey.epoch_with_gap e.1 - FullKey.epoch_with_gap e.1 mod 65536)%Z; [|lia].
        rewrite !Z.mod_eq by lia. pose proof (Z.div_le_mono _ _ 65536 ltac:(lia) Hle). lia. }
      assert (FullKey.epoch_with_gap e.1 ≤ FullKey.epoch_with_gap k)%Z as Hge'.
      { apply Hnew; [done| |congruence]. unfold readable. apply andb_true_iff. split; apply Z.leb_le; lia. }
      assert (e = (k, HummockValue.Put v)) as ->.
      { apply (Hc _ _ He Hin). cbn. destruct e as [[eu ee] ?], k as [ku ke]; cbn in *. f_equal; [congruence|lia]. }
      cbn in *. destruct (Z.ltb_spec (EpochWithGap.pure_epoch (FullKey.epoch_with_gap k)) min_epoch); [lia|]. cbn. do 2 f_equal.
      destruct k as [ku ke]; cbn in *. by rewrite Hku.
  - split; [done|]. intros (Hin & Hr & Hku%bool_decide_eq_true & _). destruct (Hsee (k, HummockValue.Put v) Hku Hr eq_refl) as [Hsx Hm]. specialize (Hg _ Hin Hsx). lia.
Qed.

(** *** The version sought in an SST *)
Definition pure_read : Prop := is_uint 64 epoch ∧ ((epoch mod 65536 = 0)%Z ∨ (Epoch.MAX_EPOCH ≤ epoch)%Z).

Abbreviation sought := (FullKey.mk user (EpochWithGap.new epoch Epoch.MAX_SPILL_TIMES)).

Lemma seen_from_sought e : pure_read → is_uint 64 (FullKey.epoch_with_gap e.1) → ukey e = user →
  seen_at e ↔ FullKey.cmp e.1 sought ≠ Lt.
Proof.
  intros [Hr Hp] He Hu. unfold sees, FullKey.cmp. rewrite Hu, (cmp_refl UserKey.cmp). cbn. rewrite pure_epoch_sub by done.
  unfold EpochWithGap.new, Epoch.is_max_epoch, EpochWithGap.new_max_epoch. rewrite Z.geb_leb, Z.compare_ge_iff.
  pose proof (Z.mod_pos_bound (FullKey.epoch_with_gap e.1) 65536 ltac:(lia)). unfold is_uint in *.
  change Epoch.MAX_EPOCH with (2 ^ 64 - 65536)%Z in *. change Epoch.MAX_SPILL_TIMES with 65535%Z. unfold u64_max.
  destruct (Z.leb_spec (2 ^ 64 - 65536) epoch) as [Hm|Hm].
  - split; [lia|]. intros _. split; [done|]. rewrite Z.mod_eq by lia. assert (FullKey.epoch_with_gap e.1 / 65536 ≤ (2 ^ 64 - 1) / 65536)%Z by (apply Z.div_le_mono; lia). change ((2 ^ 64 - 1) / 65536)%Z with (2 ^ 48 - 1)%Z in *. lia.
  - destruct Hp as [Hp|]; [|lia]. rewrite wrap_small by (unfold is_uint; lia). split; [lia|]. intros Hle. split; [done|].
    rewrite Z.mod_eq by lia. assert (FullKey.epoch_with_gap e.1 / 65536 ≤ (epoch + 65535) / 65536)%Z by (apply Z.div_le_mono; lia).
    assert ((epoch + 65535) / 65536 = epoch / 65536)%Z; [|rewrite Z.mod_eq in Hp by lia; lia].
    rewrite (Z.div_mod epoch 65536) at 1 by lia. rewrite Hp. rewrite Z.add_0_r, Z.mul_comm, Z.div_add_l by lia. rewrite (Z.div_small 65535); lia.
Qed.

Lemma from_sought_hit l : pure_read → sorted DirectionEnum.Forward l → Forall (λ e, is_uint 64 (FullKey.epoch_with_gap e.1)) l →
  head (filter seen_at l) =
  match from_key DirectionEnum.Forward sought l with
  | [] => None
  | e :: _ => if bool_decide (ukey e = user) then Some e else None
  end.
Proof.
  intros Hp Hs Hu. rewrite Forall_forall in Hu. destruct (from_key_split DirectionEnum.Forward sought l Hs) as (p & Hl & Hlt).
  pose proof (sorted_suffix _ _ _ (from_key_suffix DirectionEnum.Forward sought l Hs) Hs) as Hs'.
  assert (∀ x, x ∈ from_key DirectionEnum.Forward sought l → FullKey.cmp x.1 sought ≠ Lt ∧ x ∈ l) as Hin by (intros x Hx; by apply list_elem_of_filter in Hx).
  rewrite Hl at 1. rewrite filter_app, (filter_none seen_at p); [|].
  2:{ intros x Hx Hsx. rewrite Forall_forall in Hlt. apply (seen_from_sought x Hp) in Hsx as Hge; [|apply Hu; rewrite Hl; apply elem_of_app; by left|apply Hsx].
      apply Hge. apply (Hlt x Hx). }
  cbn [app]. destruct (from_key DirectionEnum.Forward sought l) as [|e r]; [done|]. destruct (Hin e) as [Hge Hel]; [by left|].
  case_bool_decide as He.
  - rewrite filter_cons_True; [done|]. by apply (seen_from_sought e Hp); [apply Hu|..].
  - rewrite filter_none; [done|]. intros x Hx [Hxu _]. apply He.
    assert (UserKey.cmp (ukey e) (ukey x) ≠ Gt) as Hex.
    { apply elem_of_cons in Hx as [-> | Hx]; [by rewrite (cmp_refl UserKey.cmp)|]. inversion Hs' as [|? ? _ Hf]; subst. rewrite Forall_forall in Hf. apply kv_le_ukey, Hf, Hx. }
    unfold FullKey.cmp in Hge. cbn [FullKey.user_key] in Hge. rewrite Hxu in Hex. destruct (UserKey.cmp (ukey e) user) eqn:C; [by apply (cmp_eq_iff UserKey.cmp)|done|done].
Qed.

End key.

(** ** Pruning SSTs loses no entry *)

Lemma binary_search_Z (t : Z) ids : StronglySorted Z.lt ids → t ∈ ids → ∃ i, binary_search_by (λ id, Z.compare id t) ids = inr i.
Proof.
  induction 1 as [|x ids Hs IH Hf]; intros Hin; [by apply elem_of_nil in Hin|]. cbn. rewrite Forall_forall in Hf.
  destruct (Z.compare_spec x t) as [->|Hlt|Hgt]; [by exists 0|..].
  - apply elem_of_cons in Hin as [-> |Hin]; [lia|]. destruct (IH Hin) as [i ->]. by exists (S i).
  - apply elem_of_cons in Hin as [-> |Hin]; [lia|]. specialize (Hf _ Hin). lia.
Qed.

(** A range whose start is not above its end. *)
Definition range_ordered {K} (cmp : K → K → comparison) (range : Bound K * Bound K) : Prop :=
  match range with
  | (Included a, Included b) | (Included a, Excluded b) | (Excluded a, Included b) | (Excluded a, Excluded b) => cmp a b ≠ Gt
  | _ => True
  end.

Lemma bound_range_ordered table_id range : range_ordered bytes_cmp range → range_ordered UserKey.cmp (bound_table_key_range table_id range).
Proof.
  destruct range as [[a|a|] [b|b|]]; unfold bound_table_key_range, UserKey.cmp; cbn; rewrite ?Z.compare_refl; cbn; try done;
    try (intros _; destruct b; done); intros _; destruct (table_id + 1 <=? u32_max)%Z; cbn; try done;
    rewrite (proj2 (Z.compare_lt_iff table_id (table_id + 1))) by lia; done.
Qed.

Section prune.
Context (content : SstableInfo.t → list kv) (table_id : Z).
Implicit Types (info : SstableInfo.t) (infos : list SstableInfo.t) (e : kv).

(** The metadata of an SST tells of its entries: their key range, and the tables they are of. *)
Record covers info : Prop := {
  cv_range : table_holds content info;
  cv_ids : StronglySorted Z.lt (SstableInfo.table_ids info);
  cv_tables : ∀ e, e ∈ content info → UserKey.table_id (ukey e) ∈ SstableInfo.table_ids info
}.

Lemma has_table_entry info e : covers info → e ∈ content info → has_table info (UserKey.table_id (ukey e)) = true.
Proof. intros H He. unfold has_table. by destruct (binary_search_Z _ _ (cv_ids _ H) (cv_tables _ H e He)) as [i ->]. Qed.

(** Where the entries of an SST lie with respect to its bounds. *)
Lemma entry_bounds info : covers info → ∃ l h,
  FullKey.decode (KeyRange.left (SstableInfo.key_range info)) = Ret l ∧
  FullKey.decode (KeyRange.right (SstableInfo.key_range info)) = Ret h ∧
  range_ok (SstableInfo.key_range info) l h ∧
  ∀ e, e ∈ content info → UserKey.cmp (FullKey.user_key l) (ukey e) ≠ Gt ∧
    reaches (KeyRange.right_exclusive (SstableInfo.key_range info)) h (ukey e) = true.
Proof.
  intros [(l & h & Hr & _ & Hf) _ _]. exists l, h. split; [by eapply decode_left|]. split; [by eapply decode_right|]. split; [done|].
  intros e He. rewrite Forall_forall in Hf. destruct (Hf e He) as (Hl & Hh & _). split; [|done].
  intros C. apply Hl. unfold FullKey.cmp. by rewrite C.
Qed.

Lemma filter_single_sst_ok info range : covers info → ∃ b, filter_single_sst info table_id range = Ret b ∧
  (b = false → ∀ e, e ∈ content info → UserKey.table_id (ukey e) = table_id →
     contains UserKey.cmp (bound_table_key_range table_id range) (ukey e) = false).
Proof.
  intros H. destruct (entry_bounds info H) as (l & h & Hl & Hh & _ & He). unfold filter_single_sst. rewrite Hl, Hh. eexists. split; [reflexivity|].
  intros Hb e Hin Ht. apply not_true_is_false. intros Hc. destruct (He e Hin) as [H1 H2].
  rewrite <-Ht, (has_table_entry info e H Hin), andb_true_r, Ht in Hb. rewrite (range_overlap_keeps UserKey.cmp) with (k := ukey e) in Hb; [done|done|done|].
  unfold reaches in H2. by destruct (KeyRange.right_exclusive _).
Qed.

(** The test of [prune_overlapping_ssts]. *)
Abbreviation may_hold range := (val (λ info, filter_single_sst info table_id range)).

Lemma prune_overlapping_ok infos range : Forall covers infos →
  prune_overlapping_ssts infos table_id range = Ret (filter (λ info, may_hold range info = true) infos) ∧
  ∀ info e, info ∈ infos → may_hold range info = false → e ∈ content info → UserKey.table_id (ukey e) = table_id →
    contains UserKey.cmp (bound_table_key_range table_id range) (ukey e) = false.
Proof.
  intros H. rewrite Forall_forall in H. split.
  - apply rfilter_ok, Forall_forall. intros info Hi. destruct (filter_single_sst_ok info range (H _ Hi)) as (b & Hb & _). unfold val. by rewrite Hb.
  - intros info e Hin Hn. destruct (filter_single_sst_ok info range (H _ Hin)) as (b & Hb & Hc). unfold val in Hn. rewrite Hb in Hn. by apply Hc.
Qed.

(** *** Levels of SSTs that do not overlap *)
Definition starts_at_most (u : UserKey.t) (table : SstableInfo.t) : outcome bool :=
  k ← FullKey.decode (KeyRange.left (SstableInfo.key_range table)); Ret (cmp_leb UserKey.cmp (FullKey.user_key k) u).

(** The SSTs up to the one a user key is in: those before it end below the key, those after it
    start above. *)
Lemma search_sst_idx_ok infos u : Forall covers infos → StronglySorted before infos → ∃ n, search_sst_idx infos u = Ret n ∧ n ≤ length infos ∧
  (∀ i info, infos !! i = Some info → i < n → val (starts_at_most u) info = true) ∧
  (∀ i info, infos !! i = Some info → n ≤ i → val (starts_at_most u) info = false) ∧
  (∀ i info e, infos !! i = Some info → i + 1 < n → e ∈ content info → UserKey.cmp (ukey e) u = Lt) ∧
  (∀ i info e, infos !! i = Some info → n ≤ i → e ∈ content info → UserKey.cmp u (ukey e) = Lt).
Proof.
  intros Hc Hs. rewrite Forall_forall in Hc. assert (total_on (starts_at_most u) infos) as Htot.
  { apply Forall_forall. intros info Hi. destruct (entry_bounds info (Hc _ Hi)) as (l & h & Hl & _). unfold val, starts_at_most. by rewrite Hl. }
  assert (∀ a b la ha lb hb, a ∈ infos → b ∈ infos → range_ok (SstableInfo.key_range a) la ha → range_ok (SstableInfo.key_range b) lb hb → before a b →
    UserKey.cmp (FullKey.user_key la) (FullKey.user_key lb) = Lt) as Hlt.
  { intros a b la ha lb hb _ _ Ra Rb Hab. apply (before_reaches _ _ _ _ _ _ Ra Rb) in Hab. destruct Ra as [_ Ra]. by eapply reaches_false_lt. }
  assert (prefix_closed (val (starts_at_most u)) infos) as Hpc.
  { apply (sorted_impl before _ (λ x, x ∈ infos)); [by apply Forall_forall|exact Hs|]. intros a b Ha Hb Hab.
    destruct (entry_bounds a (Hc _ Ha)) as (la & ha & Dla & _ & Ra & _). destruct (entry_bounds b (Hc _ Hb)) as (lb & hb & Dlb & _ & Rb & _).
    unfold val, starts_at_most. rewrite Dla, Dlb. cbn. rewrite !(cmp_leb_le UserKey.cmp). intros Hle.
    rewrite (cmp_lt_le_trans UserKey.cmp _ (FullKey.user_key lb) u); [done|by eapply (Hlt a b)|done]. }
  set (n := partition_point (val (starts_at_most u)) infos). exists n. split; [by apply rpartition_point_ok|]. split; [apply partition_point_le|].
  assert (∀ i info, infos !! i = Some info → val (starts_at_most u) info = true ↔ i < n) as Hval by (intros i info Hi; by apply partition_point_lookup).
  split; [intros i info Hi Hn; by apply (Hval i)|]. split; [intros i info Hi Hn; apply not_true_is_false; rewrite (Hval i info Hi); lia|]. split.
  - intros i info e Hi Hn He. destruct (lookup_lt_is_Some_2 infos (i + 1)) as [b Hb]; [pose proof (partition_point_le (val (starts_at_most u)) infos) as Hle; fold n in Hle; lia|].
    destruct (entry_bounds info (Hc _ (list_elem_of_lookup_2 _ _ _ Hi))) as (la & ha & _ & _ & Ra & Hent).
    destruct (entry_bounds b (Hc _ (list_elem_of_lookup_2 _ _ _ Hb))) as (lb & hb & Dlb & _ & Rb & _).
    pose proof (sorted_lookup before infos i (i + 1) info b Hs ltac:(lia) Hi Hb) as Hab. apply (before_reaches _ _ _ _ _ _ Ra Rb) in Hab.
    destruct (Hent e He) as [_ Hr]. pose proof (reaches_false_lt _ _ _ _ Hr Hab) as Hlt'.
    assert (val (starts_at_most u) b = true) as Hv by (apply (Hval (i + 1)); [done|lia]). unfold val, starts_at_most in Hv. rewrite Dlb in Hv. cbn in Hv.
    apply (cmp_leb_le UserKey.cmp) in Hv. by eapply (cmp_lt_le_trans UserKey.cmp).
  - intros i info e Hi Hn He. destruct (entry_bounds info (Hc _ (list_elem_of_lookup_2 _ _ _ Hi))) as (la & ha & Dla & _ & _ & Hent).
    assert (val (starts_at_most u) info = false) as Hv by (apply not_true_is_false; rewrite (Hval i info Hi); lia). unfold val, starts_at_most in Hv. rewrite Dla in Hv. cbn in Hv.
    destruct (Hent e He) as [Hle _]. eapply (cmp_lt_le_trans UserKey.cmp); [|exact Hle].
    destruct (UserKey.cmp u (FullKey.user_key la)) eqn:C; [|done|].
    + apply (cmp_eq_iff UserKey.cmp) in C. unfold cmp_leb in Hv. by rewrite <-C, (cmp_refl UserKey.cmp) in Hv.
    + apply (cmp_gt_lt UserKey.cmp) in C. unfold cmp_leb in Hv. by rewrite C in Hv.
Qed.

(** The index of the SST a bound of a range is in. *)
Lemma search_sst_idx_mono infos u v n m : Forall covers infos → StronglySorted before infos → UserKey.cmp u v ≠ Gt →
  search_sst_idx infos u = Ret n → search_sst_idx infos v = Ret m → n ≤ m.
Proof.
  intros Hc Hs Hle Hn Hm. destruct (search_sst_idx_ok infos u Hc Hs) as (n' & Hn' & Hnl & Hlo & _). destruct (search_sst_idx_ok infos v Hc Hs) as (m' & Hm' & _ & _ & Hhi & _).
  rewrite Hn in Hn'. rewrite Hm in Hm'. injection Hn' as <-. injection Hm' as <-. apply Nat.nlt_ge. intros Hlt.
  destruct (lookup_lt_is_Some_2 infos m) as [info Hi]; [lia|]. specialize (Hlo m info Hi Hlt). specialize (Hhi m info Hi ltac:(lia)).
  unfold val, starts_at_most in *. destruct (FullKey.decode _) as [k|]; [|done]. cbn in *. apply (cmp_leb_le UserKey.cmp) in Hlo.
  assert (cmp_leb UserKey.cmp (FullKey.user_key k) v = true) as Hx; [|congruence]. apply (cmp_leb_le UserKey.cmp). by eapply (cmp_le_trans UserKey.cmp).
Qed.

(** Where a bound of a range lies in the level: no entry of the range is before the SST with its
    start or after the one with its end. *)
Definition bound_idx infos (b : Bound UserKey.t) (dflt : nat) : outcome nat :=
  match b with Included key | Excluded key => n ← search_sst_idx infos key; Ret (n - 1) | Unbounded => Ret dflt end.

Lemma start_idx_ok infos lo hi : Forall covers infos → StronglySorted before infos → infos ≠ [] → ∃ a, bound_idx infos lo 0 = Ret a ∧ a < length infos ∧
  ∀ i info e, infos !! i = Some info → i < a → e ∈ content info → contains UserKey.cmp (lo, hi) (ukey e) = false.
Proof.
  intros Hc Hs Hne. assert (0 < length infos) as Hpos by (destruct infos; [done|cbn; lia]).
  destruct (match lo with Included k | Excluded k => Some k | Unbounded => None end) as [k|] eqn:Ek.
  - destruct (search_sst_idx_ok infos k Hc Hs) as (n & Hn & Hle & _ & _ & Hlo & _). exists (n - 1).
    split; [destruct lo; cbn; [injection Ek as ->; by rewrite Hn..|done]|]. split; [lia|]. intros i info e Hi Hlt He. apply andb_false_iff. left.
    pose proof (Hlo i info e Hi ltac:(lia) He) as C. apply (cmp_gt_lt UserKey.cmp) in C.
    destruct lo; [injection Ek as ->; cbn [above fst]; unfold cmp_leb, cmp_ltb; by rewrite C..|done].
  - exists 0. destruct lo; [done|done|]. split; [done|]. split; [done|]. lia.
Qed.

Lemma end_idx_ok infos lo hi : Forall covers infos → StronglySorted before infos → infos ≠ [] → ∃ b, bound_idx infos hi (length infos - 1) = Ret b ∧ b < length infos ∧
  ∀ i info e, infos !! i = Some info → b < i → e ∈ content info → contains UserKey.cmp (lo, hi) (ukey e) = false.
Proof.
  intros Hc Hs Hne. assert (0 < length infos) as Hpos by (destruct infos; [done|cbn; lia]).
  destruct (match hi with Included k | Excluded k => Some k | Unbounded => None end) as [k|] eqn:Ek.
  - destruct (search_sst_idx_ok infos k Hc Hs) as (n & Hn & Hle & _ & _ & _ & Hhi). exists (n - 1).
    split; [destruct hi; cbn; [injection Ek as ->; by rewrite Hn..|done]|]. split; [lia|]. intros i info e Hi Hlt He. apply andb_false_iff. right.
    pose proof (Hhi i info e Hi ltac:(lia) He) as C. apply (cmp_gt_lt UserKey.cmp) in C.
    destruct hi; [injection Ek as ->; cbn [below snd]; unfold cmp_leb, cmp_ltb; by rewrite C..|done].
  - exists (length infos - 1). destruct hi; [done|done|]. split; [done|]. split; [lia|]. intros i info e Hi%lookup_lt_Some. lia.
Qed.

Lemma bound_idx_mono infos (range : UserKeyRange) a b : Forall covers infos → StronglySorted before infos → range_ordered UserKey.cmp range →
  bound_idx infos range.1 0 = Ret a → bound_idx infos range.2 (length infos - 1) = Ret b → a < length infos → a ≤ b.
Proof.
  intros Hc Hs Hord Ha Hb Hlt. destruct range as [lo hi]. cbn [fst snd] in *.
  assert (∀ k k', UserKey.cmp k k' ≠ Gt → (n ← search_sst_idx infos k; Ret (n - 1)) = Ret a → (n ← search_sst_idx infos k'; Ret (n - 1)) = Ret b → a ≤ b) as Hm.
  { intros k k' Hle. destruct (search_sst_idx infos k) as [n|] eqn:En; [|done]. destruct (search_sst_idx infos k') as [m|] eqn:Em; [|done]. cbn.
    intros [= <-] [= <-]. pose proof (search_sst_idx_mono _ _ _ _ _ Hc Hs Hle En Em). lia. }
  destruct lo as [k|k|], hi as [k'|k'|]; cbn in *; try (injection Hb as <-; lia); try (injection Ha as <-; lia); by eapply (Hm k k').
Qed.

(** The SSTs from the one with the start of a range to the one with its end hold its entries. *)
Lemma prune_nonoverlapping_ok infos (range : UserKeyRange) : Forall covers infos → StronglySorted before infos → infos ≠ [] → range_ordered UserKey.cmp range →
  ∃ kept, prune_nonoverlapping_ssts infos range table_id = Ret kept ∧ kept `sublist_of` infos ∧
    ∀ info e, info ∈ infos → e ∈ content info → UserKey.table_id (ukey e) = table_id → contains UserKey.cmp range (ukey e) = true → info ∈ kept.
Proof.
  intros Hc Hs Hne Hord. destruct (start_idx_ok infos range.1 range.2 Hc Hs Hne) as (a & Ha & Hal & Hbelow). destruct (end_idx_ok infos range.1 range.2 Hc Hs Hne) as (b & Hb & Hbl & Habove).
  pose proof (bound_idx_mono _ _ _ _ Hc Hs Hord Ha Hb Hal) as Hab. unfold prune_nonoverlapping_ssts. fold (bound_idx infos range.1 0). rewrite Ha. cbn [mbind outcome_bind].
  fold (bound_idx infos range.2 (length infos - 1)). rewrite Hb. cbn [mbind outcome_bind]. unfold sub_slice.
  rewrite (proj2 (Nat.leb_le a (b + 1))), (proj2 (Nat.leb_le (b + 1) (length infos))) by lia. cbn [andb mbind outcome_bind]. eexists. split; [reflexivity|].
  split; [etrans; [apply sublist_filter|]; etrans; [apply sublist_take|apply sublist_drop]|].
  intros info e (i & Hi)%list_elem_of_lookup_1 He Ht Hin. apply list_elem_of_filter. rewrite Forall_forall in Hc.
  split; [rewrite <-Ht; apply has_table_entry; [|done]; by eapply Hc, list_elem_of_lookup_2|]. rewrite <-surjective_pairing in Hbelow, Habove.
  assert (¬ i < a) as H1 by (intros Hlt; specialize (Hbelow i info e Hi Hlt He); congruence).
  assert (¬ b < i) as H2 by (intros Hlt; specialize (Habove i info e Hi Hlt He); congruence).
  apply (list_elem_of_lookup_2 _ (i - a)). rewrite lookup_take_lt, lookup_drop by lia. by replace (a + (i - a)) with i by lia.
Qed.

Lemma compare_right_reaches info l h u : range_ok (SstableInfo.key_range info) l h →
  ∃ c, KeyRange.compare_right_with_user_key (SstableInfo.key_range info) u = Ret c ∧
    (c = Lt → reaches (KeyRange.right_exclusive (SstableInfo.key_range info)) h u = false).
Proof.
  intros Hr. unfold KeyRange.compare_right_with_user_key. rewrite (decode_right _ _ _ Hr). cbn [mbind outcome_bind]. unfold reaches, cmp_ltb, cmp_leb.
  rewrite (cmp_antisym UserKey.cmp (FullKey.user_key h) u). destruct (KeyRange.right_exclusive _); eexists; (split; [done|]);
    by destruct (UserKey.cmp (FullKey.user_key h) u).
Qed.

End prune.

(** ** Point lookups *)

(** [gives faults m P]: a call does not panic, fails only when [faults], and its result is as
    told. *)
Definition gives {Store A} (faults : Prop) (m : outcome (Store * HummockResult A)) (P : A → Prop) : Prop :=
  match m with
  | Ret (_, inr a) => P a
  | Ret (_, inl _) => faults
  | Panic => False
  end.

Lemma gives_bind {Store A B} faults (m : outcome (Store * HummockResult A)) (k : Store → A → outcome (Store * HummockResult B)) P Q :
  gives faults m P → (∀ store a, P a → gives faults (k store a) Q) → gives faults (bind_io m k) Q.
Proof. unfold bind_io. destruct m as [[store [e|a]]|]; cbn; auto. Qed.

Lemma gives_weaken {Store A} faults (m : outcome (Store * HummockResult A)) P Q : gives faults m P → (∀ a, P a → Q a) → gives faults m Q.
Proof. destruct m as [[store [e|a]]|]; cbn; auto. Qed.

Section lookup.
Context {Store Table TI : Type} {it : HummockIterator.t TI}
  (sstable : Store → SstableInfo.t → Store * HummockResult Table)
  (create : Table → Store → SstableInfo.t → outcome TI)
  (may_match_hash : Table → UserKeyRange → Z → bool)
  (xxh64 : list byte → Z)
  (faults : Prop) (seeks : FullKey.t → Prop) {spec : IteratorSpec TI faults seeks}
  (forward : HummockIterator.direction TI = DirectionEnum.Forward)
  (content : SstableInfo.t → list kv).
Implicit Types (info : SstableInfo.t) (infos : list SstableInfo.t) (e : kv).

(** The store opens an SST or reports an error; an opened SST gives an iterator over its entries,
    and its filter does not rule out a range with an entry in it. *)
Definition opens (hash : option Z) info : Prop := ∀ store : Store,
  match sstable store info with
  | (_, inl _) => faults
  | (store', inr table) =>
      (∃ ti, create table store' info = Ret ti ∧ owns (faults := faults) (content info) ti) ∧
      ∀ range e, e ∈ content info → filtered_out may_match_hash table range hash = true → contains UserKey.cmp range (ukey e) = false
  end.

Section one_key.
Context (table_id : Z) (table_key : TableKey.t) (epoch min_epoch : Z) (hash : option Z)
  (read_ok : pure_read epoch).
Abbreviation user := (UserKey.mk table_id table_key).
Abbreviation sought := (FullKey.mk user (EpochWithGap.new epoch Epoch.MAX_SPILL_TIMES)).
Abbreviation hit_of' := (hit_of table_id table_key epoch).
Abbreviation first_hit' := (first_hit table_id table_key epoch).
Context (may_seek_key : seeks sought).

(** An SST that can be looked up in. *)
Definition searchable info : Prop :=
  covers content info ∧ opens hash info ∧ Forall (λ e, is_uint 64 (FullKey.epoch_with_gap e.1)) (content info) ∧
  sorted DirectionEnum.Forward (content info).

Lemma hit_of_none l : (∀ e, e ∈ l → ukey e ≠ user) → hit_of' l = None.
Proof. intros H. unfold hit_of. rewrite filter_none; [done|]. intros e He [Hu _]. by apply (H e). Qed.

Lemma get_from_sstable_info_ok store info : searchable info →
  gives faults (get_from_sstable_info sstable create may_match_hash store info sought hash) (λ r, r = hit_of' (content info)).
Proof using read_ok may_seek_key forward.
  intros (_ & Hop & Hu & Hs). unfold get_from_sstable_info, open_sstable. specialize (Hop store). destruct (sstable store info) as [store' [er|table]]; [done|].
  cbn [bind_io mbind outcome_bind]. destruct Hop as ((ti & Hti & Hown) & Hfilter). destruct (filtered_out _ _ _ _) eqn:Ef.
  { cbn. symmetry. apply hit_of_none. intros e He Hue. specialize (Hfilter _ e He Ef). unfold contains, above, below in Hfilter. cbn in Hfilter.
    rewrite Hue in Hfilter. unfold cmp_leb in Hfilter. by rewrite (cmp_refl UserKey.cmp) in Hfilter. }
  rewrite Hti. cbn [mbind outcome_bind].
  pose proof (owns_seek _ sought ti may_seek_key Hown) as Hrun. unfold await. destruct (HummockIterator.seek ti sought) as [[ti' [er|u]]|]; [apply Hrun| |done].
  cbn [runs] in Hrun. cbn [mbind outcome_bind]. rewrite forward in Hrun. unfold hit_of. rewrite from_sought_hit by done.
  rewrite (stands_valid _ _ _ Hrun). cbn [mbind outcome_bind]. destruct (from_key _ _ _) as [|e r]; [done|]. cbn [negb].
  rewrite (stands_key _ _ _ _ Hrun). cbn [mbind outcome_bind FullKey.user_key]. case_bool_decide; [|done].
  by rewrite (stands_value _ _ _ _ Hrun).
Qed.

Lemma get_from_ssts_ok store infos : Forall searchable infos →
  gives faults (get_from_ssts sstable create may_match_hash store infos sought hash) (λ r, r = first_hit' (content <$> infos)).
Proof using read_ok may_seek_key forward.
  intros H. revert store. induction H as [|info infos Hi _ IH]; intros store; [done|]. cbn [get_from_ssts]. rewrite fmap_cons. cbn [first_hit].
  eapply gives_bind; [by apply get_from_sstable_info_ok|]. intros store' r ->. by destruct (hit_of' (content info)).
Qed.

(** SSTs without a version of the key need not be looked into. *)
Lemma first_hit_none infos : (∀ info e, info ∈ infos → e ∈ content info → ukey e ≠ user) → first_hit' (content <$> infos) = None.
Proof.
  induction infos as [|info infos IH]; intros H; [done|]. rewrite fmap_cons. cbn [first_hit].
  rewrite hit_of_none by (intros e He; apply (H info); [by left|done]). apply IH. intros i e Hi. apply H. by right.
Qed.

Lemma first_hit_filter (Q : SstableInfo.t → bool) infos :
  (∀ info e, info ∈ infos → Q info = false → e ∈ content info → ukey e ≠ user) →
  first_hit' (content <$> filter (λ info, Q info = true) infos) = first_hit' (content <$> infos).
Proof.
  induction infos as [|info infos IH]; intros H; [done|]. specialize (IH ltac:(intros i e Hi; apply H; by right)).
  rewrite filter_cons. destruct (Q info) eqn:Hq; [rewrite decide_True by done|rewrite decide_False by done]; rewrite ?fmap_cons; cbn [first_hit].
  - by rewrite IH.
  - rewrite IH, hit_of_none; [done|]. intros e. apply H; [by left|done].
Qed.

(** A level that can be looked up in. *)
Definition level_searchable (level : Level.t) : Prop :=
  Forall searchable (Level.table_infos level) ∧
  (Level.level_type level = LevelType.Nonoverlapping → StronglySorted before (Level.table_infos level)).

Lemma single_key_range e : ukey e = user → contains UserKey.cmp (bound_table_key_range table_id (Included table_key, Included table_key)) (ukey e) = true.
Proof. intros ->. unfold contains, above, below, bound_table_key_range, cmp_leb. cbn. by rewrite (cmp_refl UserKey.cmp). Qed.

(** In a level of SSTs that do not overlap, only the one found by the search may have the key. *)
Lemma nonoverlapping_ssts_ok infos n info : Forall (covers content) infos → StronglySorted before infos →
  search_sst_idx infos user = Ret n → infos !! (n - 1) = Some info → n ≠ 0 → first_hit' (content <$> infos) = hit_of' (content info).
Proof.
  intros Hc Hs Hn Hi Hz. destruct (search_sst_idx_ok content infos user Hc Hs) as (n' & Hn' & Hle & _ & _ & Hlo & Hhi).
  rewrite Hn in Hn'. injection Hn' as <-. rewrite <-(take_drop_middle _ _ _ Hi), fmap_app, fmap_cons, first_hit_app. cbn [first_hit].
  rewrite first_hit_none; [rewrite first_hit_none; [by destruct (hit_of' (content info))|]|].
  - intros i e (j & Hj)%list_elem_of_lookup_1 He Hu. rewrite lookup_drop in Hj. specialize (Hhi _ _ e Hj ltac:(lia) He). by rewrite Hu, (cmp_refl UserKey.cmp) in Hhi.
  - intros i e (j & Hj)%list_elem_of_lookup_1 He Hu. apply lookup_take_Some in Hj as [Hj Hlt]. specialize (Hlo _ _ e Hj ltac:(lia) He). by rewrite Hu, (cmp_refl UserKey.cmp) in Hlo.
Qed.

Lemma level_ssts_ok level : level_searchable level → ∃ infos, level_ssts level table_id sought = Ret infos ∧
  infos ⊆ Level.table_infos level ∧ first_hit' (content <$> infos) = first_hit' (content <$> Level.table_infos level).
Proof.
  intros [Hs Hno]. assert (Forall (covers content) (Level.table_infos level)) as Hc by (eapply Forall_impl; [exact Hs|]; by intros i [? _]).
  unfold level_ssts. destruct (Level.table_infos level) as [|i0 rest] eqn:E; [by exists []|]. rewrite <-E in *. clear i0 rest E.
  assert (∃ infos, prune_overlapping_ssts (Level.table_infos level) table_id (Included table_key, Included table_key) = Ret infos ∧
    infos ⊆ Level.table_infos level ∧ first_hit' (content <$> infos) = first_hit' (content <$> Level.table_infos level)) as Hover.
  { destruct (prune_overlapping_ok content table_id (Level.table_infos level) (Included table_key, Included table_key) Hc) as [Hk Hout].
    eexists. split; [exact Hk|]. split; [intros i Hi; by apply list_elem_of_filter in Hi as [_ Hi]|]. apply first_hit_filter. intros i e Hi Hq He Hu.
    pose proof (single_key_range e Hu) as Hk'. rewrite (Hout i e Hi Hq He) in Hk'; [done|by rewrite Hu]. }
  destruct (Level.level_type level); [exact Hover| |exact Hover]. specialize (Hno eq_refl).
  destruct (search_sst_idx_ok content _ user Hc Hno) as (n & Hn & Hle & _ & _ & _ & Hhi). cbn [FullKey.user_key]. rewrite Hn. cbn [mbind outcome_bind].
  destruct (Nat.eqb_spec n 0) as [->|Hz].
  { exists []. split; [done|]. split; [by intros ? ?%elem_of_nil|]. symmetry. apply first_hit_none. intros i e (j & Hj)%list_elem_of_lookup_1 He Hu.
    specialize (Hhi _ _ e Hj ltac:(lia) He). by rewrite Hu, (cmp_refl UserKey.cmp) in Hhi. }
  destruct (lookup_lt_is_Some_2 (Level.table_infos level) (n - 1)) as [info Hi]; [lia|]. rewrite Hi. cbn [unwrap mbind outcome_bind].
  rewrite Forall_forall in Hc. pose proof (list_elem_of_lookup_2 _ _ _ Hi) as Hin. destruct (entry_bounds content info (Hc _ Hin)) as (l & h & _ & _ & Hr & Hent).
  destruct (compare_right_reaches info l h user Hr) as (c & -> & Hlt). cbn [mbind outcome_bind]. eexists. split; [reflexivity|].
  split; [destruct c; intros ? Hx; [apply list_elem_of_singleton in Hx as ->; done|by apply elem_of_nil in Hx|apply list_elem_of_singleton in Hx as ->; done]|].
  rewrite (nonoverlapping_ssts_ok (Level.table_infos level) n info); [|rewrite Forall_forall; exact Hc|done..]. destruct c; [by cbn; destruct (hit_of' _)| |by cbn; destruct (hit_of' _)].
  symmetry. apply hit_of_none. intros e He Hu. specialize (Hlt eq_refl). destruct (Hent e He) as [_ Hre]. by rewrite Hu, Hlt in Hre.
Qed.

Lemma get_from_levels_ok store levels : Forall level_searchable levels →
  gives faults (get_from_levels sstable create may_match_hash store levels table_id sought hash) (λ r, r = first_hit' (content <$> mjoin (Level.table_infos <$> levels))).
Proof using read_ok may_seek_key forward.
  intros H. revert store. induction H as [|level levels Hl _ IH]; intros store; [done|]. cbn [get_from_levels]. rewrite fmap_cons, join_cons, fmap_app, first_hit_app.
  destruct (level_ssts_ok level Hl) as (infos & -> & Hsub & Hhit). cbn [mbind outcome_bind]. eapply gives_bind.
  - apply get_from_ssts_ok. apply Forall_forall. intros i Hi. destruct Hl as [Hl _]. rewrite Forall_forall in Hl. by apply Hl, Hsub.
  - intros store' r ->. rewrite Hhit. by destruct (first_hit' (content <$> Level.table_infos level)).
Qed.

(** *** Batches *)

(** A batch of the table with the entries [l]; [epochs] bounds their epochs. *)
Definition imm_holds (imm : SharedBufferBatch.t) (l : list kv) : Prop :=
  SharedBufferBatch.table_id imm = table_id ∧
  (∃ gs, gs ≠ [] ∧ holds_groups (SharedBufferBatch.inner imm) gs ∧ l = kvs_of table_id gs) ∧
  (∃ m, SharedBufferBatch.max_epoch imm = Ret m ∧ Forall (λ e, epoch_of e ≤ m)%Z l) ∧
  Forall (λ e, is_uint 64 (FullKey.epoch_with_gap e.1)) l.

(** Batches that are out of date as a whole are skipped. *)
Definition fresh (imm : SharedBufferBatch.t) : bool :=
  match SharedBufferBatch.max_epoch imm with Ret m => negb (m <? min_epoch)%Z | Panic => false end.

Lemma get_from_imms_ok (ps : list (SharedBufferBatch.t * list kv)) : Forall (λ p, imm_holds p.1 p.2) ps →
  get_from_imms ps.*1 table_key epoch min_epoch = Ret (first_hit' (filter (λ p, fresh p.1 = true) ps).*2).
Proof.
  induction 1 as [|[imm l] ps (Ht & (gs & _ & Hg & Hl) & (m & Hm & _) & _) _ IH]; [done|]. rewrite filter_cons, fmap_cons. cbn [get_from_imms fst snd] in *.
  assert (fresh imm = negb (m <? min_epoch)%Z) as -> by (unfold fresh; by rewrite Hm). rewrite Hm. cbn [mbind outcome_bind].
  destruct (m <? min_epoch)%Z; cbn [negb]; [by rewrite decide_False, IH|]. rewrite decide_True by done. rewrite fmap_cons. cbn [snd first_hit]. unfold SharedBufferBatch.get. rewrite (get_value_ok table_id _ gs table_key epoch Hg).
  cbn [mbind outcome_bind]. rewrite <-Hl. fold (hit_of' l). by destruct (hit_of' l).
Qed.

Lemma stale_imm imm l x : imm_holds imm l → fresh imm = false → x ∈ l → (epoch_of x < min_epoch)%Z.
Proof.
  intros (_ & _ & (m & Hm & Hl) & _) Hf Hx. unfold fresh in Hf. rewrite Hm in Hf. apply negb_false_iff, Z.ltb_lt in Hf.
  rewrite Forall_forall in Hl. specialize (Hl x Hx). cbn in Hl. lia.
Qed.

Lemma imm_sorted imm l : imm_holds imm l → sorted DirectionEnum.Forward l.
Proof. intros (_ & (gs & _ & Hg & ->) & _). apply strict_sorted, kvs_sorted. by eapply hg_ok. Qed.

End one_key.

(** *** A version that can be read

    [imm_kvs] are the entries of the batches and [levels] the levels of the committed version. *)
Definition version_parts (imm_kvs : list (list kv)) (ssts : list SstableInfo.t) (levels : list Level.t) : list (list kv) :=
  imm_kvs ++ (content <$> ssts ++ mjoin (Level.table_infos <$> levels)).

Record version_ok (hash : option Z) (table_id : Z) (tuple : ReadVersionTuple) (imm_kvs : list (list kv)) (levels : list Level.t) : Prop := {
  vo_imms : Forall2 (imm_holds table_id) tuple.1.1 imm_kvs;
  vo_ssts : Forall (searchable hash) tuple.1.2;
  vo_valid : PinnedVersion.is_valid tuple.2 = true;
  vo_levels : PinnedVersion.levels tuple.2 table_id = Ret levels;
  vo_level : Forall (level_searchable hash) levels;
  vo_newer : StronglySorted newer (version_parts imm_kvs tuple.1.2 levels);
  vo_coherent : coherent (mjoin (version_parts imm_kvs tuple.1.2 levels))
}.

Section get.
Context (table_id : Z) (table_key : TableKey.t) (epoch min_epoch : Z) (hash : option Z) (tuple : ReadVersionTuple)
  (imm_kvs : list (list kv)) (levels : list Level.t) (H : version_ok hash table_id tuple imm_kvs levels).
Abbreviation ssts := (tuple.1.2 ++ mjoin (Level.table_infos <$> levels)).
Abbreviation all := (mjoin (version_parts imm_kvs tuple.1.2 levels)).

Lemma ssts_searchable : Forall (searchable hash) ssts.
Proof using H.
  apply Forall_app. split; [apply H|]. apply Forall_forall. intros i (is_ & Hi & (lv & -> & Hlv)%list_elem_of_fmap)%list_elem_of_join.
  pose proof (vo_level _ _ _ _ _ H) as Hl. rewrite Forall_forall in Hl. destruct (Hl lv Hlv) as [Hs _]. rewrite Forall_forall in Hs. by apply Hs.
Qed.

Lemma imm_pairs : ∃ ps : list (SharedBufferBatch.t * list kv), ps.*1 = tuple.1.1 ∧ ps.*2 = imm_kvs ∧ Forall (λ p, imm_holds table_id p.1 p.2) ps.
Proof using H.
  pose proof (vo_imms _ _ _ _ _ H) as Hi. revert Hi. generalize tuple.1.1, imm_kvs. clear H.
  induction 1 as [|imm l imms ls Hi _ (ps & <- & <- & Hp)]; [by exists []|]. exists ((imm, l) :: ps). split; [done|]. split; [done|]. by constructor.
Qed.

Lemma version_uint : Forall (λ e, is_uint 64 (FullKey.epoch_with_gap e.1)) all.
Proof using H.
  destruct imm_pairs as (ps & _ & Hps & Hp). apply Forall_forall. intros e (l & He & Hl)%list_elem_of_join. unfold version_parts in Hl.
  apply elem_of_app in Hl as [Hl|(i & -> & Hi)%list_elem_of_fmap].
  - rewrite <-Hps in Hl. apply list_elem_of_fmap in Hl as (p & -> & Hin). rewrite Forall_forall in Hp. destruct (Hp p Hin) as (_ & _ & _ & Hu).
    rewrite Forall_forall in Hu. by apply Hu.
  - pose proof ssts_searchable as Hs. rewrite Forall_forall in Hs. destruct (Hs i Hi) as (_ & _ & Hu & _). rewrite Forall_forall in Hu. by apply Hu.
Qed.

(** The first hit in the parts that are consulted is the newest version of all. *)
Lemma version_first_hit (ps : list (SharedBufferBatch.t * list kv)) : ps.*2 = imm_kvs → Forall (λ p, imm_holds table_id p.1 p.2) ps →
  good table_id table_key epoch min_epoch all
    (first_hit table_id table_key epoch ((filter (λ p, fresh min_epoch p.1 = true) ps).*2 ++ (content <$> ssts))).
Proof using H.
  intros Hps Hp. set (kept := (filter _ ps).*2). assert (kept ++ (content <$> ssts) `sublist_of` version_parts imm_kvs tuple.1.2 levels) as Hsub.
  { unfold version_parts. apply sublist_app; [|done]. rewrite <-Hps. apply sublist_fmap, sublist_filter. }
  rewrite Forall_forall in Hp. eapply good_extend; [| |apply first_hit_good].
  - intros e (l & He & Hl)%list_elem_of_join. apply list_elem_of_join. exists l. split; [done|]. by eapply sublist_subseteq.
  - intros x (l & Hx & Hl)%list_elem_of_join _ Hge. apply list_elem_of_join. exists l. split; [done|]. unfold version_parts in Hl.
    rewrite elem_of_app in Hl |- *. destruct Hl as [Hl|Hl]; [left|by right]. rewrite <-Hps in Hl. apply list_elem_of_fmap in Hl as (p & -> & Hin).
    apply list_elem_of_fmap. exists p. split; [done|]. apply list_elem_of_filter. split; [|done]. apply not_false_is_true. intros Hf.
    pose proof (stale_imm _ _ _ _ x (Hp p Hin) Hf Hx). lia.
  - apply Forall_app. split.
    + apply Forall_forall. intros l (p & -> & [_ Hin]%list_elem_of_filter)%list_elem_of_fmap. by eapply imm_sorted, Hp.
    + apply Forall_fmap. eapply Forall_impl; [exact ssts_searchable|]. by intros i (_ & _ & _ & Hs).
  - eapply sorted_sublist; [exact Hsub|]. apply H.
Qed.

End get.

Lemma version_get_ok (store : Store) (table_key : TableKey.t) (epoch : Z) (opts : ReadOptions.t) (tuple : ReadVersionTuple)
    (imm_kvs : list (list kv)) (levels : list Level.t) :
  pure_read epoch → seeks (FullKey.new_with_gap_epoch (ReadOptions.table_id opts) table_key (EpochWithGap.new epoch Epoch.MAX_SPILL_TIMES)) →
  version_ok ((λ hint, hash_for_bloom_filter xxh64 hint (ReadOptions.table_id opts)) <$> ReadOptions.prefix_hint opts)
    (ReadOptions.table_id opts) tuple imm_kvs levels →
  gives faults (get sstable create may_match_hash xxh64 store table_key epoch opts tuple) (λ r, ∀ k v,
    r = Some (k, v) ↔
    is_row (gen_min_epoch epoch (ReadOptions.retention_seconds opts)) epoch
      (λ u, bool_decide (u = UserKey.mk (ReadOptions.table_id opts) table_key)) (mjoin (version_parts imm_kvs tuple.1.2 levels)) k v).
Proof using forward.
  intros Hp Hk H. set (min_epoch := gen_min_epoch _ _). set (hash := _ <$> _) in H. destruct (imm_pairs _ _ _ _ _ H) as (ps & Hps1 & Hps2 & Hps).
  pose proof (λ h, found_row (ReadOptions.table_id opts) table_key epoch min_epoch _ h (vo_coherent _ _ _ _ _ H) (version_uint _ _ _ _ _ H)) as Hrow.
  pose proof (version_first_hit _ table_key epoch min_epoch _ _ _ _ H ps Hps2 Hps) as Hg. rewrite fmap_app, !first_hit_app in Hg.
  unfold get. destruct tuple as [[imms uncommitted] committed]. fold min_epoch hash. cbn [fst snd] in *. subst imms.
  rewrite (get_from_imms_ok _ _ _ _ _ Hps). cbn [mbind outcome_bind]. destruct (first_hit _ _ _ _) as [h|]; [exact (Hrow (Some h) Hg)|].
  eapply gives_bind; [by apply get_from_ssts_ok, (vo_ssts _ _ _ _ _ H)|]. intros store' r ->.
  destruct (first_hit _ _ _ (content <$> uncommitted)) as [h|]; [exact (Hrow (Some h) Hg)|].
  rewrite (vo_valid _ _ _ _ _ H : PinnedVersion.is_valid committed = true), (vo_levels _ _ _ _ _ H : PinnedVersion.levels committed _ = _).
  cbn [rassert mbind outcome_bind].
  eapply gives_bind; [by apply get_from_levels_ok, (vo_level _ _ _ _ _ H)|]. intros store'' r ->. exact (Hrow _ Hg).
Qed.

(** C4: a point lookup reads the snapshot.  Over batches, SSTs and levels in which newer versions of
    a key come first, [HummockVersionReader::get] returns the row of the key at the epoch: the
    newest version that is not after the epoch, unless it is a deletion or older than the retention
    allows.  It stops at the first part that has a version, skips batches that are out of date, opens
    only the SSTs of a level whose key range and filter admit the key, and searches a level of
    SSTs that do not overlap; none of this loses a version.  It does not panic and fails only when
    an SST cannot be read. *)
Theorem version_get_exact (store : Store) (table_key : TableKey.t) (epoch : Z) (opts : ReadOptions.t) (tuple : ReadVersionTuple)
    (imm_kvs : list (list kv)) (levels : list Level.t) :
  pure_read epoch → seeks (FullKey.new_with_gap_epoch (ReadOptions.table_id opts) table_key (EpochWithGap.new epoch Epoch.MAX_SPILL_TIMES)) →
  version_ok ((λ hint, hash_for_bloom_filter xxh64 hint (ReadOptions.table_id opts)) <$> ReadOptions.prefix_hint opts)
    (ReadOptions.table_id opts) tuple imm_kvs levels →
  gives faults (get sstable create may_match_hash xxh64 store table_key epoch opts tuple) (λ r, ∀ k v,
    r = Some (k, v) ↔
    is_row (gen_min_epoch epoch (ReadOptions.retention_seconds opts)) epoch
      (λ u, bool_decide (u = UserKey.mk (ReadOptions.table_id opts) table_key)) (mjoin (version_parts imm_kvs tuple.1.2 levels)) k v).
Proof using forward. apply version_get_ok. Qed.

End lookup.

(** A batch that updates key 1 and deletes key 3, over a committed level with keys 1 and 2 in an
    SST each, read through the iterator of a batch. *)
Definition example_level : Level.t := Level.mk 1 LevelType.Nonoverlapping example_tables 0 0 0 0.
Definition example_committed : HummockVersionCommon.t :=
  HummockVersionCommon.mk 1 {[ 2%Z := Levels.mk [example_level] (OverlappingLevel.mk [] 0 0) 2 0 [] ]} 65536 ∅ ∅
    (HummockVersionStateTableInfo.mk {[ 7%Z := StateTableInfo.mk 65536 2 ]} {[ 2%Z := {[ 7%Z ]} ]}).
Definition example_tuple : ReadVersionTuple := ([example_batch example_groups_new 131072 2], [], example_committed).
Definition example_sst_content (info : SstableInfo.t) : list kv := kvs_of 7 (example_part (example_byte info)).
Definition example_options : ReadOptions.t := ReadOptions.mk None None 7 false false.

Lemma example_covers id b : example_byte (example_table id b) = b → covers example_sst_content (example_table id b).
Proof.
  intros Hb. split; [by apply example_table_holds|by repeat constructor|]. intros e. unfold example_sst_content. rewrite Hb.
  intros ->%list_elem_of_singleton. by left.
Qed.

Lemma example_searchable id b : example_byte (example_table id b) = b →
  searchable example_open example_create (λ _ _ _, true) False (in_table 7) (spec := batch_spec 7 False) example_sst_content None (example_table id b).
Proof.
  intros Hb. split; [by apply example_covers|]. unfold opens, example_sst_content, example_open. split; [|by rewrite Hb; repeat constructor].
  intros []. split; [|done]. eexists. split; [reflexivity|]. split; [reflexivity|]. eexists. split; [|split; [|reflexivity]]; [done|].
  split; [done|done|]. by repeat constructor.
Qed.

Lemma example_version_ok :
  version_ok example_open example_create (λ _ _ _, true) False (in_table 7) (spec := batch_spec 7 False) example_sst_content None 7 example_tuple
    [kvs_of 7 example_groups_new] [example_level].
Proof.
  destruct example_groups_ok as [Hn _]. split; try done.
  - constructor; [|constructor]. split; [done|]. split; [by exists example_groups_new|]. split; [exists 131072%Z; split; [done|]; by repeat constructor|].
    by repeat constructor.
  - constructor; [|constructor]. split; [|intros _; repeat constructor; vm_compute; reflexivity]. apply Forall_cons_2; [|apply Forall_singleton]; apply example_searchable; reflexivity.
  - repeat constructor; intros x y Hx Hy; vm_compute in Hx, Hy;
      repeat (apply elem_of_cons in Hx as [-> | Hx]; [repeat (apply elem_of_cons in Hy as [-> | Hy]; [vm_compute; try done|]); by apply elem_of_nil in Hy|]);
      by apply elem_of_nil in Hx.
  - apply coherent_nodup, (bool_decide_unpack _). vm_compute. done.
Qed.

Lemma version_get_exact_witness : gives False (get example_open example_create (λ _ _ _, true) (λ _, 0%Z) tt [Byte.x00; Byte.x00; Byte.x02] 131072 example_options example_tuple)
  (λ r, r = Some (FullKey.new_with_gap_epoch 7 [Byte.x00; Byte.x00; Byte.x02] 65536, [Byte.x02])).
Proof.
  pose proof (version_get_exact example_open example_create (λ _ _ _, true) (λ _, 0%Z) False (in_table 7) (spec := batch_spec 7 False) eq_refl
    example_sst_content tt [Byte.x00; Byte.x00; Byte.x02] 131072 example_options example_tuple [kvs_of 7 example_groups_new] [example_level]
    ltac:(split; [done|by left]) ltac:(done) example_version_ok) as H.
  destruct (get _ _ _ _ _ _ _ _ _) as [[st [er|r]]|]; [exact H| |exact H]. cbn [gives] in *. apply H.
  split; [vm_compute; set_solver|]. split; [done|]. split; [done|].
  intros x Hx. vm_compute in Hx. repeat (apply elem_of_cons in Hx as [-> | Hx]; [vm_compute; done|]). by apply elem_of_nil in Hx.
Defined.
