(* ===== verification/VersionScanSpec.v ===== *)
(** * Scans through a version: theorems

    The iterators a scan merges ([IteratorFactory] of [VersionReader.v]) hold every entry of its
    range that the version has, so that the rows read are those of the snapshot, the same as a
    point lookup finds. *)

From Stdlib Require Import ZArith Lia.
From stdpp Require Import gmap fin_maps.
From S2P Require Import Prelude Order Bytes Epoch Bits Bitmap Vnode Key KeySpec KeyOrder KeyRange Watermark Sst SstSpec Level Split Block Iter IterSpec ConcatSpec UserIter UserIterSpec SharedBuffer SharedBufferSpec MergeImmSpec SstMeta SstIter ReadPath Version MemTable MemTableSpec StateStore ReadVersion VersionReader VersionReaderSpec.

(** ** Rows of part of the entries *)
Lemma is_row_within lo hi (P : UserKey.t → bool) (l all : list kv) k v :
  l ⊆ all → (∀ e, e ∈ all → readable lo hi e = true → P (ukey e) = true → e ∈ l) → is_row lo hi P l k v ↔ is_row lo hi P all k v.
Proof.
  intros Hsub Hin. unfold is_row. split; intros (H1 & H2 & H3 & H4); split_and!; try done.
  - by apply Hsub.
  - intros x Hx Hr Hu. apply H4; [|done|done]. apply Hin; [done|done|]. by rewrite Hu.
  - by apply Hin.
  - intros x Hx. by apply H4, Hsub.
Qed.

(** The user keys of a range are of its table. *)
Lemma range_table table_id range u : is_uint 32 (UserKey.table_id u) →
  contains UserKey.cmp (bound_table_key_range table_id range) u = true → UserKey.table_id u = table_id.
Proof. intros Hu. rewrite bound_table_key_range_exact by done. by intros [H%bool_decide_eq_true _]%andb_true_iff. Qed.

Lemma join_submseteq {A B} (g : A → list B) (l k : list A) : l ⊆+ k → mjoin (g <$> l) ⊆+ mjoin (g <$> k).
Proof.
  induction 1 as [|x l k _ IH|x y l|x l k _ IH|l k j _ IH1 _ IH2]; rewrite ?fmap_cons, ?join_cons; [done|by apply submseteq_app|..].
  - rewrite !app_assoc. apply submseteq_app; [|done]. by rewrite (comm app (g x)).
  - etrans; [exact IH|]. apply submseteq_inserts_l. done.
  - by etrans.
Qed.

(** ** Reading rows *)
Section drain.
Context {I : Type} {it : HummockIterator.t I} (faults : Prop) (seeks : FullKey.t → Prop) {spec : IteratorSpec I faults seeks}
  (forward : HummockIterator.direction I = DirectionEnum.Forward) (fuel : nat).
Abbreviation try_next := (HummockStorageIterator.try_next (I := I) fuel).

(** A client's loop over [try_next]. *)
Fixpoint drain (n : nat) (self : HummockStorageIterator.t I) : outcome (list StateStoreKeyedRow * HummockResult unit) :=
  match n with
  | O => Panic
  | S n =>
      '(self, r) ← try_next self;
      match r with
      | inl e => Ret ([], inl e)
      | inr None => Ret ([], inr tt)
      | inr (Some row) => '(l, r) ← drain n self; Ret (row :: l, r)
      end
  end.

Lemma storage_drain_ok n : ∀ self all out, shows faults seeks all out self → length out < n → length all ≤ fuel →
  reads faults (drain n (HummockStorageIterator.mk self false)) out.
Proof using forward.
  induction n as [|n IH]; intros self all out Hsh Hn Hf; [lia|]. cbn [drain]. unfold HummockStorageIterator.try_next. cbn [HummockStorageIterator.initial_read HummockStorageIterator.inner].
  unfold ok. cbn [mbind outcome_bind]. destruct out as [|[k v] out].
  { destruct Hsh as [Hv _]. unfold UserIterator.is_valid. rewrite Hv. by exists [], (inr tt). }
  pose proof (user_next_ok faults seeks forward fuel self all k v out Hsh Hf) as Hnext. pose proof Hsh as (Hv & Hlat & _ & rest & Hst & _).
  unfold UserIterator.key, UserIterator.value, UserIterator.is_valid. rewrite Hv. cbn [rassert mbind outcome_bind].
  rewrite (stands_value _ _ _ _ Hst), Hlat. cbn [mbind outcome_bind snd]. destruct n as [|n]; [cbn in Hn; lia|]. unfold runs in Hnext.
  assert (drain (S n) (HummockStorageIterator.mk self true) = '(iter, r) ← UserIterator.next fuel self;
    match r with inl e => Ret ([], inl e) | inr _ => drain (S n) (HummockStorageIterator.mk iter false) end) as ->.
  { cbn [drain]. unfold HummockStorageIterator.try_next. cbn [HummockStorageIterator.initial_read HummockStorageIterator.inner].
    destruct (UserIterator.next fuel self) as [[self' [err|[]]]|]; cbn [mbind outcome_bind ok]; done. }
  destruct (UserIterator.next fuel self) as [[self' [err|[]]]|]; [| |done]; cbn [mbind outcome_bind].
  - destruct Hnext as [Hfa _]. eexists _, _. split; [done|]. split; [done|]. apply prefix_cons, prefix_nil.
  - destruct Hnext as [_ Hsh']. destruct (IH self' all out Hsh' ltac:(simpl in Hn; lia) Hf) as (l & r & -> & Hr).
    exists ((k, v) :: l), r. split; [done|]. destruct r; [|by subst]. destruct Hr as [Hfa Hp]. split; [done|by apply prefix_cons].
Qed.
End drain.

Section scan.
Context {Store Table TI : Type} {it : HummockIterator.t TI}
  (sstable : Store → SstableInfo.t → Store * HummockResult Table)
  (create : Table → Store → SstableInfo.t → outcome TI)
  (may_match_hash : Table → UserKeyRange → Z → bool)
  (sstable_id : Table → Z)
  (xxh64 : list byte → Z)
  (faults : Prop) (seeks : FullKey.t → Prop) {spec : IteratorSpec TI faults seeks}
  (forward : HummockIterator.direction TI = DirectionEnum.Forward)
  (content : SstableInfo.t → list kv) {bh : BinaryHeap} (table_id : Z) (hash : option Z).
Implicit Types (info : SstableInfo.t) (infos : list SstableInfo.t) (e : kv).

(** ** The contract of the merged iterator *)

(** A full key of the table, which iterators over SSTs may be sought for. *)
Definition scan_seeks (k : FullKey.t) : Prop := in_table table_id k ∧ seeks k.

Abbreviation fwd := (SharedBufferBatchIterator.t DirectionEnum.Forward true).
Abbreviation phantom := (PhantomHummockIterator DirectionEnum.Forward).
Abbreviation staging_iter := (HummockIteratorUnion fwd TI phantom phantom).
Abbreviation opens' := (opens sstable create may_match_hash faults seeks content hash).

Definition table_spec : IteratorSpec TI faults scan_seeks := weaken_spec faults faults seeks scan_seeks spec (λ H, H) (λ k Hk, proj2 Hk).
Definition imm_spec : IteratorSpec fwd faults scan_seeks :=
  weaken_spec faults faults (in_table table_id) scan_seeks (batch_spec table_id faults) (λ H, H) (λ k Hk, proj1 Hk).
Definition mem_spec : IteratorSpec (FromRustIterator.t MemTableIteratorBuilder) faults scan_seeks :=
  weaken_spec False faults (λ _, True) scan_seeks (rust_spec (B := MemTableIteratorBuilder) ascending) (λ H, match H with end) (λ _ _, Logic.I).
Definition staging_spec : IteratorSpec staging_iter faults scan_seeks :=
  union_spec faults scan_seeks (s1 := imm_spec) (s2 := table_spec)
    (s3 := phantom_spec DirectionEnum.Forward faults scan_seeks) (s4 := phantom_spec DirectionEnum.Forward faults scan_seeks) forward eq_refl eq_refl.

(** SSTs that can be concatenated. *)
Record chain infos : Prop := {
  ch_holds : Forall (table_holds content) infos;
  ch_before : StronglySorted before infos;
  ch_sorted : Forall (λ info, sorted DirectionEnum.Forward (content info)) infos;
  ch_opens : Forall opens' infos
}.

Lemma chain_before infos : chain infos → StronglySorted (dir_before (it := it)) infos.
Proof using forward. intros H. unfold dir_before. rewrite forward. apply H. Qed.

Lemma chain_sorted infos : chain infos → Forall (λ info, sorted (HummockIterator.direction TI) (content info)) infos.
Proof using forward. rewrite forward. apply ch_sorted. Qed.

Lemma chain_opens infos : chain infos → ∀ store info, info ∈ infos →
  let (store', s) := sstable store info in
  match s with
  | inl _ => faults
  | inr table => ∃ ti, create table store' info = Ret ti ∧ owns (IteratorSpec := table_spec) (content info) ti
  end.
Proof.
  intros H store info Hi. pose proof (ch_opens _ H) as Ho. rewrite Forall_forall in Ho. specialize (Ho info Hi store).
  destruct (sstable store info) as [store' [er|table]]; [done|]. by destruct Ho as [? _].
Qed.

Definition concat_spec' : IteratorSpec (ConcatIteratorInner.t Store TI) faults scan_seeks (H := ConcatIteratorInner.concat_iter sstable create) :=
  family_spec faults scan_seeks (λ x : { infos | chain infos },
    concat_spec sstable create faults scan_seeks (spec := table_spec) (λ k Hk, proj2 (proj1 Hk)) content (proj1_sig x)
      (ch_holds _ (proj2_sig x)) (chain_before _ (proj2_sig x)) (chain_sorted _ (proj2_sig x)) (chain_opens _ (proj2_sig x))).

Abbreviation part := (HummockIteratorUnion (MergeIterator.t staging_iter) TI (ConcatIteratorInner.t Store TI) (FromRustIterator.t MemTableIteratorBuilder)).

Definition part_spec : IteratorSpec part faults scan_seeks (H := union_iter (i1 := MergeIterator.merge_iter) (i3 := ConcatIteratorInner.concat_iter sstable create)) :=
  union_spec faults scan_seeks (i1 := MergeIterator.merge_iter) (i3 := ConcatIteratorInner.concat_iter sstable create)
    (s1 := merge_spec faults scan_seeks (spec := staging_spec)) (s2 := table_spec) (s3 := concat_spec') (s4 := mem_spec) forward forward eq_refl.

Definition payload_spec : IteratorSpec (MergeIterator.t part) faults scan_seeks
    (H := payload_iter sstable create DirectionEnum.Forward MemTableIteratorBuilder) :=
  merge_spec faults scan_seeks (spec := part_spec).

(** ** What a factory holds *)
Abbreviation factory := (IteratorFactory.t (Store := Store) (TI := TI) DirectionEnum.Forward).
Implicit Type f : factory.

Definition holds f (l : list kv) : Prop := ∃ s o n : list (list kv),
  Forall2 (λ l i, owns (IteratorSpec := staging_spec) l i) s (IteratorFactory.staging_iters _ f) ∧
  Forall2 (λ l i, owns (IteratorSpec := table_spec) l i) o (IteratorFactory.overlapping_iters _ f) ∧
  Forall2 (λ l i, owns (IteratorSpec := concat_spec') l i) n (IteratorFactory.non_overlapping_iters _ f) ∧
  l ≡ₚ mjoin s ++ mjoin o ++ mjoin n.

#[local] Instance holds_proper f : Proper ((≡ₚ) ==> iff) (holds f).
Proof. intros l1 l2 Hp. unfold holds. by setoid_rewrite Hp. Qed.

Lemma holds_default : holds (IteratorFactory.default _) [].
Proof. by exists [], [], []. Qed.

Lemma holds_batch f l imm a : holds f l → imm_holds table_id imm a → ∃ f', IteratorFactory.add_batch_iter _ f imm = Ret f' ∧ holds f' (a ++ l).
Proof.
  intros (s & o & n & Hs & Ho & Hn & Hl) (Ht & (gs & Hne & Hg & ->) & _). unfold IteratorFactory.add_batch_iter. eexists. split; [reflexivity|].
  exists (s ++ [kvs_of table_id gs]), o, n. split; [apply Forall2_app; [done|constructor; [|constructor]]; split; [done|by exists gs]|].
  split; [done|]. split; [done|]. rewrite join_app, Hl. cbn. rewrite app_nil_r. solve_Permutation.
Qed.

Lemma holds_staging_sst f l ti a : holds f l → owns (IteratorSpec := spec) a ti → holds (IteratorFactory.add_staging_sst_iter _ f ti) (a ++ l).
Proof.
  intros (s & o & n & Hs & Ho & Hn & Hl) Hti. exists (s ++ [a]), o, n. split; [apply Forall2_app; [done|by repeat constructor]|].
  split; [done|]. split; [done|]. rewrite join_app, Hl. cbn. rewrite app_nil_r. solve_Permutation.
Qed.

Lemma holds_overlapping f l ti a : holds f l → owns (IteratorSpec := spec) a ti → holds (IteratorFactory.add_overlapping_sst_iter _ f ti) (a ++ l).
Proof.
  intros (s & o & n & Hs & Ho & Hn & Hl) Hti. exists s, (o ++ [a]), n. split; [done|]. split; [apply Forall2_app; [done|by repeat constructor]|].
  split; [done|]. rewrite join_app, Hl. cbn. rewrite app_nil_r. solve_Permutation.
Qed.

Lemma holds_concat f l infos store : holds f l → chain infos → holds (IteratorFactory.add_concat_sst_iter _ f infos store) (mjoin (content <$> infos) ++ l).
Proof.
  intros (s & o & n & Hs & Ho & Hn & Hl) Hc. exists s, o, (n ++ [mjoin (content <$> infos)]). split; [done|]. split; [done|].
  split; [apply Forall2_app; [done|constructor; [|constructor]]; by exists (exist _ infos Hc)|]. rewrite join_app, Hl. cbn. rewrite app_nil_r. solve_Permutation.
Qed.

(** The merged iterator denotes everything the factory holds, and the mem-table. *)
Lemma build_owns f l (mem : option (FromRustIterator.t MemTableIteratorBuilder)) m : holds f l →
  match mem with Some mi => rust_owns (B := MemTableIteratorBuilder) ascending m mi | None => m = [] end → coherent (l ++ m) →
  ∃ all, owns (IteratorSpec := payload_spec) all (IteratorFactory.build _ _ f mem) ∧ all ≡ₚ l ++ m.
Proof.
  intros (s & o & n & Hs & Ho & Hn & Hl) Hm Hc.
  set (inner := merge_sort (kv_le DirectionEnum.Forward) (mjoin s)).
  set (parts := [inner] ++ o ++ n ++ match mem with Some _ => [m] | None => [] end).
  assert (mjoin parts ≡ₚ l ++ m) as Hp.
  { unfold parts, inner. rewrite !join_app, Hl. cbn. rewrite app_nil_r, merge_sort_Permutation. destruct mem; [cbn; rewrite app_nil_r|rewrite Hm; cbn; rewrite app_nil_r]; solve_Permutation. }
  exists (merge_sort (kv_le DirectionEnum.Forward) (mjoin parts)). split; [|by rewrite merge_sort_Permutation].
  apply (merge_create_owns faults scan_seeks (spec := part_spec)); [|by rewrite Hp]. unfold parts.
  repeat apply Forall2_app.
  - constructor; [|constructor]. apply (merge_create_owns faults scan_seeks (spec := staging_spec)); [done|].
    eapply coherent_sub; [|exact Hc]. intros e He. rewrite Hl. set_solver.
  - by apply Forall2_fmap_r.
  - by apply Forall2_fmap_r.
  - destruct mem; [|constructor]. by constructor; [|constructor].
Qed.

(** ** Adding the parts of a version *)
Context (range : TableKeyRange).
Abbreviation user_range := (bound_table_key_range table_id range).
Abbreviation searchable' := (searchable sstable create may_match_hash faults seeks content hash).
Abbreviation add_sst' := (add_sst sstable create may_match_hash sstable_id DirectionEnum.Forward).
Abbreviation add_ssts' := (add_ssts sstable create may_match_hash sstable_id DirectionEnum.Forward).
Abbreviation add_level' := (add_level sstable create may_match_hash sstable_id DirectionEnum.Forward).
Abbreviation add_levels' := (add_levels sstable create may_match_hash sstable_id DirectionEnum.Forward).

(** The table ids of keys are 32 bits wide. *)
Definition ids_ok (l : list kv) : Prop := Forall (λ e, is_uint 32 (UserKey.table_id (ukey e))) l.

(** [f'] holds some more of the entries [new], among them all of the range. *)
Definition grows (new : list kv) f f' : Prop := ∀ l, holds f l → ∃ kept, holds f' (kept ++ l) ∧ kept ⊆+ new ∧
  ∀ e, e ∈ new → contains UserKey.cmp user_range (ukey e) = true → e ∈ kept.

Lemma grows_trans new1 new2 f1 f2 f3 : grows new1 f1 f2 → grows new2 f2 f3 → grows (new1 ++ new2) f1 f3.
Proof.
  intros H1 H2 l Hl. destruct (H1 l Hl) as (k1 & Hk1 & Hs1 & Hi1). destruct (H2 _ Hk1) as (k2 & Hk2 & Hs2 & Hi2). exists (k2 ++ k1).
  rewrite <-app_assoc. split; [done|]. split; [rewrite (comm app k2); by apply submseteq_app|]. intros e He Hc. apply elem_of_app in He as [He|He]; apply elem_of_app; [right|left]; auto.
Qed.

Lemma grows_none new f : (∀ e, e ∈ new → contains UserKey.cmp user_range (ukey e) = false) → grows new f f.
Proof. intros H l Hl. exists []. split; [done|]. split; [apply submseteq_nil_l|]. intros e He Hc. rewrite (H e He) in Hc. done. Qed.

Lemma grows_all new f f' : (∀ l, holds f l → holds f' (new ++ l)) → grows new f f'.
Proof. intros H l Hl. exists new. auto. Qed.

(** The store gives the SST asked for. *)
Definition gives_asked info : Prop := ∀ store, match sstable store info with (_, inr table) => sstable_id table = SstableInfo.object_id info | _ => True end.

Section add.
Context (add : factory → TI → factory)
  (add_ok : ∀ f l ti a, holds f l → owns (IteratorSpec := spec) a ti → holds (add f ti) (a ++ l)).

Lemma add_sst_ok (check_id : bool) store f info : opens' info → (check_id = true → gives_asked info) →
  gives faults (add_sst' add check_id user_range hash store f info) (grows (content info) f).
Proof using add_ok.
  intros Ho Hid. unfold add_sst, open_sstable, bind_io. specialize (Ho store). unfold gives_asked in Hid.
  assert (∀ table, (sstable store info).2 = inr table → negb check_id || (SstableInfo.object_id info =? sstable_id table)%Z = true) as Hasked.
  { intros table Ht. destruct check_id; [|done]. specialize (Hid eq_refl store). destruct (sstable store info) as [? [|]]; [done|]. injection Ht as ->. by apply Z.eqb_eq. }
  destruct (sstable store info) as [store' [er|table]]; [done|]. cbn [mbind outcome_bind]. destruct Ho as [(ti & Hti & Hown) Hf]. rewrite (Hasked table eq_refl).
  cbn [rassert mbind outcome_bind]. destruct (filtered_out _ _ _ _) eqn:Ef; [apply grows_none; intros e He; by apply Hf|].
  rewrite Hti. cbn. apply grows_all. intros l Hl. by apply add_ok.
Qed.

Lemma add_ssts_ok (check_id : bool) store f infos : Forall opens' infos → (check_id = true → Forall gives_asked infos) →
  gives faults (add_ssts' add check_id user_range hash store f infos) (grows (mjoin (content <$> infos)) f).
Proof using add_ok.
  intros H. revert store f. induction H as [|info infos Hi _ IH]; intros store f Hid; [by apply grows_none; intros e ?%elem_of_nil|]. cbn [add_ssts].
  eapply gives_bind; [apply add_sst_ok; [done|intros Hc; by apply (Forall_inv (Hid Hc))]|]. intros store' f' Hf'.
  eapply gives_weaken; [apply IH; intros Hc; by apply (Forall_inv_tail (Hid Hc))|]. intros f'' Hf''. by eapply grows_trans.
Qed.
End add.

(** The SSTs left out have no entry of the range. *)
Lemma grows_pruned kept infos f f' : kept ⊆+ infos →
  (∀ info e, info ∈ infos → e ∈ content info → contains UserKey.cmp user_range (ukey e) = true → info ∈ kept) →
  grows (mjoin (content <$> kept)) f f' → grows (mjoin (content <$> infos)) f f'.
Proof.
  intros Hsub Hin H l Hl. destruct (H l Hl) as (k & Hk & Hs & Hi). exists k. split; [done|]. split; [etrans; [exact Hs|by apply join_submseteq]|].
  intros e (a & He & (info & -> & Ha)%list_elem_of_fmap)%list_elem_of_join Hc. apply Hi; [|done]. apply list_elem_of_join.
  exists (content info). split; [done|]. apply list_elem_of_fmap. exists info. split; [done|by eapply Hin].
Qed.

Abbreviation level_searchable' := (level_searchable sstable create may_match_hash faults seeks content hash).
Context (ordered : range_ordered bytes_cmp range).

Lemma level_chain level kept : level_searchable' level → Level.level_type level = LevelType.Nonoverlapping → kept `sublist_of` Level.table_infos level → chain kept.
Proof.
  intros [Hs Hb] Ht Hsub. assert (Forall searchable' kept) as Hk.
  { apply Forall_forall. intros i Hi. rewrite Forall_forall in Hs. apply Hs. by eapply sublist_subseteq. }
  split; [..|by eapply sorted_sublist; [|by apply Hb]| |]; (eapply Forall_impl; [exact Hk|]); intros i (Hc & Ho & _ & Hso); [apply Hc|done|done].
Qed.

Lemma add_level_ok store f level : level_searchable' level → Forall gives_asked (Level.table_infos level) → ids_ok (mjoin (content <$> Level.table_infos level)) →
  gives faults (add_level' table_id range hash store f level) (grows (mjoin (content <$> Level.table_infos level)) f).
Proof using ordered forward.
  intros Hl Hasked Hids. pose proof Hl as [Hs Hb]. assert (Forall (covers content) (Level.table_infos level)) as Hc by (eapply Forall_impl; [exact Hs|]; by intros i [? _]).
  assert (∀ info e, info ∈ Level.table_infos level → e ∈ content info → contains UserKey.cmp user_range (ukey e) = true → UserKey.table_id (ukey e) = table_id) as Htab.
  { intros info e Hi He Hc'. eapply range_table; [|exact Hc']. unfold ids_ok in Hids. rewrite Forall_forall in Hids. apply Hids, list_elem_of_join.
    exists (content info). split; [done|]. by apply list_elem_of_fmap_2. }
  assert (∀ kept, kept ⊆ Level.table_infos level → Forall opens' kept) as Hop.
  { intros kept Hk. apply Forall_forall. intros i Hi. rewrite Forall_forall in Hs. by destruct (Hs i (Hk i Hi)) as (_ & Ho & _). }
  unfold add_level. destruct (Level.table_infos level) as [|i0 rest] eqn:E; [by apply grows_none; intros e ?%elem_of_nil|]. rewrite <-E in *. assert (Level.table_infos level ≠ []) as Hne by by rewrite E.
  clear i0 rest E.
  assert (gives faults (table_infos ← prune_overlapping_ssts (Level.table_infos level) table_id range;
      add_ssts' (IteratorFactory.add_overlapping_sst_iter _) true user_range hash store f (reverse table_infos))
    (grows (mjoin (content <$> Level.table_infos level)) f)) as Hover.
  { destruct (prune_overlapping_ok content table_id (Level.table_infos level) range Hc) as [-> Hout]. cbn [mbind outcome_bind]. set (kept := filter _ _).
    assert (kept ⊆ Level.table_infos level) as Hk by (intros i [_ Hi]%list_elem_of_filter; done).
    eapply gives_weaken; [apply add_ssts_ok; [exact holds_overlapping|apply Hop; intros i Hi; apply Hk; by apply elem_of_reverse|]|].
    { intros _. apply Forall_reverse, Forall_forall. intros i Hi. rewrite Forall_forall in Hasked. by apply Hasked, Hk. }
    intros f' Hf'.
    apply (grows_pruned (reverse kept)); [rewrite reverse_Permutation; apply sublist_submseteq, sublist_filter| |done]. intros info e Hi He Hr. apply elem_of_reverse, list_elem_of_filter.
    split; [|done]. apply not_false_is_true. intros Hq. rewrite (Hout info e Hi Hq He) in Hr; [done|by eapply Htab]. }
  destruct (Level.level_type level) eqn:Et; [exact Hover| |exact Hover]. clear Hover. specialize (Hb eq_refl).
  destruct (prune_nonoverlapping_ok content table_id _ user_range Hc Hb Hne (bound_range_ordered table_id range ordered)) as (kept & -> & Hsub & Hin). cbn [mbind outcome_bind].
  pose proof (sublist_subseteq _ _ Hsub) as Hk. assert (∀ f', grows (mjoin (content <$> kept)) f f' → grows (mjoin (content <$> Level.table_infos level)) f f') as Hgo.
  { intros f'. apply grows_pruned; [by apply sublist_submseteq|]. intros info e Hi He Hr. eapply Hin; [done|done|by eapply Htab|done]. }
  destruct kept as [|i1 [|i2 kept]].
  - apply Hgo, grows_none. by intros e ?%elem_of_nil.
  - eapply gives_weaken; [apply add_sst_ok; [exact holds_overlapping| |done]|].
    + by apply (Forall_inv (Hop _ Hk)).
    + intros f' Hf'. apply Hgo. cbn. by rewrite app_nil_r.
  - apply Hgo, grows_all. intros l Hl'. apply holds_concat; [done|]. by eapply level_chain.
Qed.

Lemma add_levels_ok store f levels : Forall level_searchable' levels → Forall gives_asked (mjoin (Level.table_infos <$> levels)) → ids_ok (mjoin (content <$> mjoin (Level.table_infos <$> levels))) →
  gives faults (add_levels' table_id range hash store f levels) (grows (mjoin (content <$> mjoin (Level.table_infos <$> levels))) f).
Proof using ordered forward.
  intros H. revert store f. induction H as [|level levels Hl _ IH]; intros store f Hasked Hids; [by apply grows_none; intros e ?%elem_of_nil|]. cbn [add_levels].
  rewrite fmap_cons, join_cons in Hasked. apply Forall_app in Hasked as [Ha1 Ha2].
  rewrite fmap_cons, join_cons, fmap_app, join_app in Hids |- *. apply Forall_app in Hids as [H1 H2].
  eapply gives_bind; [by apply add_level_ok|]. intros store' f' Hf'. eapply gives_weaken; [by apply IH|]. intros f'' Hf''. by eapply grows_trans.
Qed.

(** The batches, which are all merged. *)
Lemma add_batches_ok imms imm_kvs f l : Forall2 (imm_holds table_id) imms imm_kvs → holds f l →
  ∃ f', rfold (IteratorFactory.add_batch_iter _) imms f = Ret f' ∧ holds f' (mjoin imm_kvs ++ l).
Proof.
  intros H. revert f l. induction H as [|imm a imms imm_kvs Hi _ IH]; intros f l Hf; [by exists f|].
  destruct (holds_batch f l imm a Hf Hi) as (f1 & Hr & Hf1). cbn [rfold]. rewrite Hr. cbn [mbind outcome_bind].
  destruct (IH f1 _ Hf1) as (f2 & Hr2 & Hf2). exists f2. split; [exact Hr2|]. rewrite join_cons. eapply holds_proper; [|exact Hf2]. solve_Permutation.
Qed.

Abbreviation version_ok' := (version_ok sstable create may_match_hash faults seeks content hash table_id).
Abbreviation payload_of' := (payload_of sstable create may_match_hash sstable_id xxh64 DirectionEnum.Forward MemTableIteratorBuilder).

Lemma payload_of_ok store (opts : ReadOptions.t) (tuple : ReadVersionTuple) imm_kvs levels mem m :
  ReadOptions.table_id opts = table_id → (λ hint, hash_for_bloom_filter xxh64 hint table_id) <$> ReadOptions.prefix_hint opts = hash →
  version_ok' tuple imm_kvs levels → Forall gives_asked (mjoin (Level.table_infos <$> levels)) → let all := mjoin (version_parts content imm_kvs tuple.1.2 levels) in
  match mem with Some mi => rust_owns (B := MemTableIteratorBuilder) ascending m mi | None => m = [] end → coherent (all ++ m) → ids_ok all →
  gives faults (payload_of' store range opts tuple mem) (λ p, ∃ l, owns (IteratorSpec := payload_spec) l p ∧ l ⊆+ all ++ m ∧
    ∀ e, e ∈ all ++ m → contains UserKey.cmp user_range (ukey e) = true → e ∈ l).
Proof using ordered forward.
  intros Ht Hh H Hasked all Hm Hc Hids. destruct tuple as [[imms ssts] committed]. unfold payload_of, iter_inner. rewrite Ht, Hh.
  destruct (add_batches_ok _ _ _ _ (vo_imms _ _ _ _ _ _ _ _ _ _ _ H) holds_default) as (f1 & Hr & Hf1). cbn [fst snd] in *. rewrite Hr. cbn [mbind outcome_bind].
  unfold all, version_parts in *. cbn [fst snd] in *. rewrite join_app, fmap_app, join_app in *. clear all. rewrite app_nil_r in Hf1.
  apply Forall_app in Hids as [_ Hids]. apply Forall_app in Hids as [_ Hids].
  eapply gives_bind; [eapply gives_bind; [apply add_ssts_ok; [exact holds_staging_sst| |done]|]|].
  - eapply Forall_impl; [apply (vo_ssts _ _ _ _ _ _ _ _ _ _ _ H)|]. by intros i (_ & Ho & _).
  - intros store' f2 Hf2. rewrite (vo_levels _ _ _ _ _ _ _ _ _ _ _ H : PinnedVersion.levels committed _ = _). cbn [mbind outcome_bind].
    eapply gives_weaken; [apply add_levels_ok; [apply (vo_level _ _ _ _ _ _ _ _ _ _ _ H)|done|done]|]. intros f3 Hf3. exact (grows_trans _ _ _ _ _ Hf2 Hf3).
  - intros store' f Hf. destruct (Hf _ Hf1) as (kept & Hk & Hs & Hi). cbn [gives]. destruct (build_owns f _ mem m Hk Hm) as (l & Hown & Hp).
    + eapply coherent_sub; [|exact Hc]. intros e He. eapply elem_of_submseteq; [exact He|]. rewrite (comm app kept). by repeat apply submseteq_app.
    + exists l. split; [exact Hown|]. rewrite Hp. split; [rewrite (comm app kept); by repeat apply submseteq_app|].
      intros e He Hr'. rewrite Hp. apply elem_of_app in He as [He|He]; [|by apply elem_of_app; right]. apply elem_of_app. left.
      apply elem_of_app in He as [He|He]; apply elem_of_app; [by right|left; by apply Hi].
Qed.

End scan.

Lemma scan_may_begin (seeks : FullKey.t → Prop) table_id (range : TableKeyRange) : (∀ k, in_table table_id k → seeks k) →
  may_begin (scan_seeks seeks table_id) (bound_table_key_range table_id range).
Proof. intros H. destruct range as [[b|b|] hi]; intros ep Hep; (split; [done|]); by apply H. Qed.

Lemma version_iter_ok {Store Table TI : Type} {it : HummockIterator.t TI} (sstable : Store → SstableInfo.t → Store * HummockResult Table)
    (create : Table → Store → SstableInfo.t → outcome TI) (may_match_hash : Table → UserKeyRange → Z → bool) (sstable_id : Table → Z) (xxh64 : list byte → Z)
    (faults : Prop) (seeks : FullKey.t → Prop) (spec : IteratorSpec TI faults seeks) (content : SstableInfo.t → list kv) {bh : BinaryHeap} (fuel : nat)
    (store : Store) (range : TableKeyRange) (epoch : Z) (opts : ReadOptions.t) (tuple : ReadVersionTuple) (imm_kvs : list (list kv)) (levels : list Level.t)
    (mem : option (FromRustIterator.t MemTableIteratorBuilder)) (m : list kv) :
  HummockIterator.direction TI = DirectionEnum.Forward → (∀ k, in_table (ReadOptions.table_id opts) k → seeks k) →
  Forall (gives_asked sstable sstable_id) (mjoin (Level.table_infos <$> levels)) →
  version_ok sstable create may_match_hash faults seeks content
    ((λ hint, hash_for_bloom_filter xxh64 hint (ReadOptions.table_id opts)) <$> ReadOptions.prefix_hint opts) (ReadOptions.table_id opts) tuple imm_kvs levels →
  match mem with Some mi => rust_owns (B := MemTableIteratorBuilder) ascending m mi | None => m = [] end →
  let all := mjoin (version_parts content imm_kvs tuple.1.2 levels) ++ m in
  coherent all → Forall key_ok all → ids_ok all → range_ordered bytes_cmp range → is_uint 64 epoch → length all < fuel →
  match iter_with_memtable sstable create may_match_hash sstable_id xxh64 DirectionEnum.Forward MemTableIteratorBuilder fuel store range epoch opts tuple mem with
  | Ret (inr i) =>
      ∃ out : rows,
        StronglySorted (λ r1 r2, UserKey.cmp (row_key r1) (row_key r2) = Lt) out ∧
        (∀ k v, (k, v) ∈ out ↔ is_row (gen_min_epoch epoch (ReadOptions.retention_seconds opts)) epoch
           (contains UserKey.cmp (bound_table_key_range (ReadOptions.table_id opts) range)) all k v) ∧
        reads faults (drain (it := payload_iter sstable create DirectionEnum.Forward MemTableIteratorBuilder) fuel fuel i) out
  | Ret (inl _) => faults
  | Panic => False
  end.
Proof.
  intros Hd Hseek Hids H Hm all Hc Hk Hi Hord He Hlen. set (hash := _ <$> _) in H. set (min_epoch := gen_min_epoch _ _). set (user_range := bound_table_key_range _ _).
  pose proof (payload_of_ok sstable create may_match_hash sstable_id xxh64 faults seeks Hd content (ReadOptions.table_id opts) hash range Hord
    store opts tuple imm_kvs levels mem m eq_refl eq_refl H Hids Hm Hc (proj1 (proj1 (Forall_app _ _ _) Hi))) as Hp.
  set (ps := payload_spec sstable create may_match_hash faults seeks Hd content (ReadOptions.table_id opts) hash) in Hp.
  unfold iter_with_memtable. destruct (payload_of _ _ _ _ _ _ _ _ _ _ _ _) as [[store' [er|p]]|]; [done| |done]. cbn [gives mbind outcome_bind] in *.
  fold min_epoch user_range. set (self := UserIterator.new p user_range epoch min_epoch). destruct Hp as (l & Hown & Hsub & Hin).
  assert (l ⊆ all) as Hl by (intros e Hl; by eapply elem_of_submseteq). pose proof (coherent_sub _ _ Hl Hc) as Hcl.
  assert (sorted DirectionEnum.Forward l) as Hs by exact (owns_sorted (IteratorSpec := ps) _ _ Hown).
  assert (length l < fuel) as Hlf by (pose proof (submseteq_length _ _ Hsub); unfold all in *; lia).
  assert (Forall key_ok l) as Hkl by (rewrite Forall_forall in Hk |- *; auto).
  pose proof (user_rewind_ok faults _ (spec := ps) eq_refl fuel self l (scan_may_begin _ _ range Hseek) Hown Hkl He Hlf) as Hrun. unfold runs in Hrun.
  destruct (UserIterator.rewind fuel self) as [[self' [er|[]]]|]; [apply Hrun| |done]. cbn [mbind outcome_bind]. destruct Hrun as [_ Hsh]. eexists. split_and!.
  - exact (rows_where_sorted self (above UserKey.cmp (UserIterator.key_range self).1) l Hs).
  - intros k v. rewrite rows_where_spec by done. apply is_row_within; [exact Hl|]. intros e He' _. by apply Hin.
  - apply (storage_drain_ok faults _ (spec := ps) eq_refl fuel fuel self' l); [exact Hsh| |lia]. pose proof (rows_length self (above UserKey.cmp (UserIterator.key_range self).1) l). lia.
Qed.

(** C5: a scan reads the snapshot.  Over batches, SSTs and levels, and the mem-table when it is
    given, [HummockVersionReader::iter] and [iter_with_memtable] give an iterator whose rows are
    those of the snapshot in the range: for every user key the newest version that is not after the
    epoch, unless it is a deletion or older than the retention allows, in the order of the keys.
    Pruning the SSTs of a level by key range, by table and by filter loses none.  The call does not
    panic; it and the iterator fail only when an SST cannot be read, and then what was read before is
    a part of the rows. *)
Theorem version_iter_exact {Store Table TI : Type} {it : HummockIterator.t TI} (sstable : Store → SstableInfo.t → Store * HummockResult Table)
    (create : Table → Store → SstableInfo.t → outcome TI) (may_match_hash : Table → UserKeyRange → Z → bool) (sstable_id : Table → Z) (xxh64 : list byte → Z)
    (faults : Prop) (seeks : FullKey.t → Prop) (spec : IteratorSpec TI faults seeks) (content : SstableInfo.t → list kv) {bh : BinaryHeap} (fuel : nat)
    (store : Store) (range : TableKeyRange) (epoch : Z) (opts : ReadOptions.t) (tuple : ReadVersionTuple) (imm_kvs : list (list kv)) (levels : list Level.t)
    (mem : option (FromRustIterator.t MemTableIteratorBuilder)) (m : list kv) :
  HummockIterator.direction TI = DirectionEnum.Forward → (∀ k, in_table (ReadOptions.table_id opts) k → seeks k) →
  Forall (gives_asked sstable sstable_id) (mjoin (Level.table_infos <$> levels)) →
  version_ok sstable create may_match_hash faults seeks content
    ((λ hint, hash_for_bloom_filter xxh64 hint (ReadOptions.table_id opts)) <$> ReadOptions.prefix_hint opts) (ReadOptions.table_id opts) tuple imm_kvs levels →
  match mem with Some mi => rust_owns (B := MemTableIteratorBuilder) ascending m mi | None => m = [] end →
  let all := mjoin (version_parts content imm_kvs tuple.1.2 levels) ++ m in
  coherent all → Forall key_ok all → ids_ok all → range_ordered bytes_cmp range → is_uint 64 epoch → length all < fuel →
  match iter_with_memtable sstable create may_match_hash sstable_id xxh64 DirectionEnum.Forward MemTableIteratorBuilder fuel store range epoch opts tuple mem with
  | Ret (inr i) =>
      ∃ out : rows,
        StronglySorted (λ r1 r2, UserKey.cmp (row_key r1) (row_key r2) = Lt) out ∧
        (∀ k v, (k, v) ∈ out ↔ is_row (gen_min_epoch epoch (ReadOptions.retention_seconds opts)) epoch
           (contains UserKey.cmp (bound_table_key_range (ReadOptions.table_id opts) range)) all k v) ∧
        reads faults (drain (it := payload_iter sstable create DirectionEnum.Forward MemTableIteratorBuilder) fuel fuel i) out
  | Ret (inl _) => faults
  | Panic => False
  end.
Proof. apply version_iter_ok. Qed.

(** The version of the lookup's example under a mem-table that inserts key 4. *)
Definition example_mem : MemTable.MemTableStore := [([Byte.x00; Byte.x00; Byte.x04], KeyOp.Insert [Byte.x0d])].
Abbreviation example_mem_iter := (FromRustIterator.new (B := MemTableIteratorBuilder) example_mem 131073 7).

Definition example_sstable_id (b : SharedBufferBatch.t) : Z :=
  if bool_decide (SharedBufferBatchInner.new_values (SharedBufferBatch.inner b) = [(65536%Z, SharedBufferValue.Insert [Byte.x01])]) then 1 else 2.

Lemma example_asked : Forall (gives_asked example_open example_sstable_id) (mjoin (Level.table_infos <$> [example_level])).
Proof. apply Forall_cons_2; [|apply Forall_singleton]; by intros []. Qed.

Abbreviation example_scanned := (mjoin (version_parts example_sst_content [kvs_of 7 example_groups_new] [] [example_level]) ++ mem_entries 7 131073 example_mem).

Lemma example_scanned_ok : coherent example_scanned ∧ Forall key_ok example_scanned ∧ ids_ok example_scanned.
Proof.
  split; [apply coherent_nodup, (bool_decide_unpack _); by vm_compute|]. split; repeat constructor; vm_compute; done.
Qed.

Lemma version_iter_exact_witness :
  ∃ i (out : rows),
    iter_with_memtable (bh := scan_heap) example_open example_create (λ _ _ _, true) example_sstable_id (λ _, 0%Z) DirectionEnum.Forward MemTableIteratorBuilder 9
      tt (Unbounded, Unbounded) 131072 example_options example_tuple (Some example_mem_iter) = Ret (inr i) ∧
    reads False (drain (it := payload_iter (bh := scan_heap) example_open example_create DirectionEnum.Forward MemTableIteratorBuilder) 9 9 i) out ∧
    ((FullKey.new_with_gap_epoch 7 [Byte.x00; Byte.x00; Byte.x02] 65536, [Byte.x02]) : FullKey.t * list byte) ∈ out.
Proof.
  destruct example_scanned_ok as (Hc & Hk & Hi).
  pose proof (version_iter_exact (bh := scan_heap) example_open example_create (λ _ _ _, true) example_sstable_id (λ _, 0%Z) False (in_table 7) (batch_spec 7 False)
    example_sst_content 9 tt (Unbounded, Unbounded) 131072 example_options example_tuple [kvs_of 7 example_groups_new] [example_level]
    (Some example_mem_iter) (mem_entries 7 131073 example_mem) eq_refl ltac:(done) example_asked example_version_ok
    (mem_iter_owns 7 131073 example_mem ltac:(by repeat constructor)) Hc Hk Hi Logic.I ltac:(done) ltac:(vm_compute; lia)) as H.
  destruct (iter_with_memtable _ _ _ _ _ _ _ _ _ _ _ _ _ _) as [[er|i]|]; [done| |done]. destruct H as (out & _ & Hin & Hr). exists i, out. split; [done|]. split; [exact Hr|].
  apply Hin. split; [vm_compute; set_solver|]. split; [done|]. split; [done|].
  intros x Hx. vm_compute in Hx. repeat (apply elem_of_cons in Hx as [-> | Hx]; [vm_compute; done|]). by apply elem_of_nil in Hx.
Defined.
