(* ===== verification/ReadVersionSpec.v ===== *)
(** * Read versions: theorems

    What a reader takes of a read version is enough for its epoch and range, so that lookups and
    scans through it read the snapshot of the whole read version ([ReadVersion.v]). *)

From Stdlib Require Import ZArith Lia.
From stdpp Require Import gmap fin_maps.
From S2P Require Import Prelude Order Bytes Epoch Bits Bitmap Vnode Key KeySpec KeyOrder KeyRange Watermark WatermarkSpec WatermarkRange Sst SstSpec Level Split Block Iter IterSpec ConcatSpec UserIter UserIterSpec SharedBuffer SharedBufferSpec MergeImmSpec SstMeta SstIter ReadPath Version MemTable MemTableSpec StateStore ReadVersion VersionReader VersionReaderSpec VersionScanSpec.

Section prune.
Context {Store Table TI : Type} {it : HummockIterator.t TI}
  (sstable : Store → SstableInfo.t → Store * HummockResult Table)
  (create : Table → Store → SstableInfo.t → outcome TI)
  (may_match_hash : Table → UserKeyRange → Z → bool)
  (faults : Prop) (seeks : FullKey.t → Prop) {spec : IteratorSpec TI faults seeks}
  (content : SstableInfo.t → list kv) (hash : option Z) (table_id : Z).
Abbreviation version_ok' := (version_ok sstable create may_match_hash faults seeks content hash table_id).
Implicit Types (info : SstableInfo.t) (e : kv) (rv : HummockReadVersion.t).

(** ** What a read version holds *)
Definition staging_ssts rv : list SstableInfo.t := mjoin (StagingSstableInfo.sstable_infos <$> StagingVersion.sst (HummockReadVersion.staging rv)).

(** Everything, as a reader at the latest epoch with an open range would take it. *)
Definition full_tuple rv : ReadVersionTuple :=
  (StagingVersion.imm (HummockReadVersion.staging rv), staging_ssts rv, HummockReadVersion.committed rv).

(** The least epoch kept for a batch or an upload is a lower bound of its entries. *)
Definition imm_from (imm : SharedBufferBatch.t) (l : list kv) : Prop :=
  ∃ m, SharedBufferBatch.min_epoch imm = Ret m ∧ Forall (λ e, m ≤ epoch_of e)%Z l.

Definition sst_from (s : StagingSstableInfo.t) : Prop :=
  ∃ m, last (StagingSstableInfo.epochs s) = Some m ∧
    ∀ info, info ∈ StagingSstableInfo.sstable_infos s → Forall (λ e, m ≤ epoch_of e)%Z (content info).

Record read_version_ok rv (imm_kvs : list (list kv)) (levels : list Level.t) : Prop := {
  rv_version : version_ok' (full_tuple rv) imm_kvs levels;
  rv_imms : Forall2 imm_from (StagingVersion.imm (HummockReadVersion.staging rv)) imm_kvs;
  rv_ssts : Forall sst_from (StagingVersion.sst (HummockReadVersion.staging rv));
  rv_ids : ids_ok (mjoin (version_parts content imm_kvs (staging_ssts rv) levels))
}.

(** ** Pruning *)
Section at_.
Context (epoch : Z) (range : TableKeyRange).
Abbreviation user_range := (bound_table_key_range table_id range).

(** An entry a read at the epoch of the range may return. *)
Definition wanted e : Prop := (epoch_of e ≤ epoch)%Z ∧ contains UserKey.cmp user_range (ukey e) = true.

Lemma imm_overlaps_ok imm l : imm_holds table_id imm l → imm_from imm l → is_uint 32 table_id →
  ∃ b, StagingVersion.imm_overlaps epoch table_id range imm = Ret b ∧ (b = false → ∀ e, e ∈ l → ¬ wanted e).
Proof.
  intros (Ht & (gs & Hne & Hg & ->) & _) (m & Hm & Hl) Hid. unfold StagingVersion.imm_overlaps. rewrite Hm. cbn [mbind outcome_bind]. rewrite Ht, Z.eqb_refl, andb_true_r.
  destruct (Z.leb_spec m epoch) as [_|Hlt].
  - destruct (filter_sound imm gs range Hg Hne) as (b & Hb & Hs). unfold SharedBufferBatch.filter in Hb. rewrite Z.eqb_refl in Hb. exists b. split; [exact Hb|].
    intros -> e (g & v & Hin & _ & ->)%kvs_elem [_ Hc]. rewrite bound_table_key_range_exact in Hc by exact Hid. apply andb_true_iff in Hc as [_ Hc].
    discriminate (Hs (ex_intro _ g (conj Hin Hc))).
  - exists false. split; [done|]. intros _ e He [Hle _]. rewrite Forall_forall in Hl. specialize (Hl e He). cbn in Hl. lia.
Qed.

(** The SSTs of uploads whose oldest epoch is not above the epoch, as far as they overlap. *)
Definition sst_from_epoch (s : StagingSstableInfo.t) : outcome bool :=
  e ← unwrap (last (StagingSstableInfo.epochs s)); Ret (e <=? epoch)%Z.

Lemma staging_ssts_ok (ss : list StagingSstableInfo.t) : Forall sst_from ss → Forall (covers content) (mjoin (StagingSstableInfo.sstable_infos <$> ss)) →
  ids_ok (mjoin (content <$> mjoin (StagingSstableInfo.sstable_infos <$> ss))) → ∃ staging kept,
  rfilter sst_from_epoch ss = Ret staging ∧
  rmap (λ s, rfilter (λ info, filter_single_sst info table_id range) (StagingSstableInfo.sstable_infos s)) staging = Ret kept ∧
  concat kept `sublist_of` mjoin (StagingSstableInfo.sstable_infos <$> ss) ∧
  ∀ info e, info ∈ mjoin (StagingSstableInfo.sstable_infos <$> ss) → e ∈ content info → wanted e → info ∈ concat kept.
Proof.
  intros H. induction H as [|s ss (m & Hm & Hs) _ IH]; intros Hc Hids.
  { exists [], []. split_and!; [done|done|done|]. by intros ? ? ?%elem_of_nil. }
  rewrite fmap_cons, join_cons in Hc, Hids |- *. apply Forall_app in Hc as [Hc1 Hc2]. rewrite fmap_app, join_app in Hids. apply Forall_app in Hids as [Hi1 Hi2].
  destruct (IH Hc2 Hi2) as (staging & kept & Hst & Hk & Hsub & Hin). cbn [rfilter].
  assert (sst_from_epoch s = Ret (m <=? epoch)%Z) as -> by (unfold sst_from_epoch; by rewrite Hm). rewrite Hst. cbn [mbind outcome_bind]. destruct (Z.leb_spec m epoch) as [_|Hlt].
  - destruct (prune_overlapping_ok content table_id _ range Hc1) as [Hp Hout]. unfold prune_overlapping_ssts in Hp.
    eexists _, (_ :: kept). split; [reflexivity|]. cbn [rmap]. rewrite Hp, Hk. split; [reflexivity|]. cbn [concat]. split; [apply sublist_app; [apply sublist_filter|done]|].
    intros info e [Hi|Hi]%elem_of_app He Hw; apply elem_of_app; [left|right; by eapply Hin]. apply list_elem_of_filter. split; [|done].
    apply not_false_is_true. intros Hq. destruct Hw as [_ Hw]. rewrite (Hout info e Hi Hq He) in Hw; [done|]. eapply range_table; [|exact Hw].
    unfold ids_ok in Hi1. rewrite Forall_forall in Hi1. apply Hi1, list_elem_of_join. exists (content info). split; [done|by apply list_elem_of_fmap_2].
  - exists staging, kept. split_and!; [done|done|by apply sublist_inserts_l|]. intros info e [Hi|Hi]%elem_of_app He Hw; [|by eapply Hin].
    destruct Hw as [Hw _]. specialize (Hs info Hi). rewrite Forall_forall in Hs. specialize (Hs e He). cbn in Hs. lia.
Qed.

(** The batches that are kept. *)
Lemma staging_imms_ok (ps : list (SharedBufferBatch.t * list kv)) : Forall (λ p, imm_holds table_id p.1 p.2 ∧ imm_from p.1 p.2) ps → is_uint 32 table_id →
  ∃ kept : list (SharedBufferBatch.t * list kv), rfilter (StagingVersion.imm_overlaps epoch table_id range) ps.*1 = Ret kept.*1 ∧ kept `sublist_of` ps ∧
    ∀ p e, p ∈ ps → e ∈ p.2 → wanted e → p ∈ kept.
Proof.
  intros H Hid. induction H as [|[imm l] ps [Hh Hf] _ (kept & Hk & Hsub & Hin)]; [exists []; split_and!; [done|done|]; by intros ? ? ?%elem_of_nil|].
  destruct (imm_overlaps_ok imm l Hh Hf Hid) as (b & Hb & Hout). cbn in Hb, Hout. rewrite fmap_cons. cbn [rfilter fst]. rewrite Hb, Hk. cbn [mbind outcome_bind].
  destruct b; [exists ((imm, l) :: kept)|exists kept]; (split; [done|]); (split; [by constructor|]); intros p e [-> |Hp]%elem_of_cons He Hw.
  - by left.
  - right. by eapply Hin.
  - by destruct (Hout eq_refl e He).
  - by eapply Hin.
Qed.

End at_.
(** Part of the batches and SSTs can still be read. *)
Lemma version_ok_sub imms ssts committed (ps kept : list (SharedBufferBatch.t * list kv)) ssts' levels : imms = ps.*1 →
  version_ok' (imms, ssts, committed) ps.*2 levels → kept `sublist_of` ps → ssts' `sublist_of` ssts →
  version_ok' (kept.*1, ssts', committed) kept.*2 levels ∧ version_parts content kept.*2 ssts' levels `sublist_of` version_parts content ps.*2 ssts levels.
Proof.
  intros -> H Hk Hs. assert (version_parts content kept.*2 ssts' levels `sublist_of` version_parts content ps.*2 ssts levels) as Hp.
  { unfold version_parts. apply sublist_app; [by apply sublist_fmap|]. by apply sublist_fmap, sublist_app. }
  split; [|done]. split; try apply H.
  - pose proof (vo_imms _ _ _ _ _ _ _ _ _ _ _ H) as Hi. cbn [fst] in *. assert (∀ p, p ∈ ps → imm_holds table_id p.1 p.2) as Hi'.
    { revert Hi. clear. induction ps as [|p ps IH]; intros Hi q Hq; [by apply elem_of_nil in Hq|]. rewrite !fmap_cons in Hi. inversion Hi; subst.
      apply elem_of_cons in Hq as [-> |Hq]; [done|by apply IH]. }
    assert (∀ p, p ∈ kept → imm_holds table_id p.1 p.2) as Hk' by (intros p Hp'; apply Hi'; by eapply sublist_subseteq). clear - Hk'.
    induction kept as [|p kept IH]; [constructor|]. rewrite !fmap_cons. constructor; [apply Hk'; by left|]. apply IH. intros q Hq. apply Hk'. by right.
  - apply Forall_forall. intros i Hi. pose proof (vo_ssts _ _ _ _ _ _ _ _ _ _ _ H) as Hall. rewrite Forall_forall in Hall. apply Hall. by eapply sublist_subseteq.
  - eapply sorted_sublist; [exact Hp|]. apply H.
  - eapply coherent_sub; [|apply (vo_coherent _ _ _ _ _ _ _ _ _ _ _ H)]. intros e (l & He & Hl)%list_elem_of_join. apply list_elem_of_join. exists l. split; [done|].
    by eapply sublist_subseteq.
Qed.

(** The range of a read after the watermark. *)
Definition rewritten rv (epoch : Z) (range range' : TableKeyRange) : Prop :=
  match HummockReadVersion.table_watermarks rv with
  | Some w => TableWatermarksIndex.rewrite_range_with_table_watermark w epoch range = Ret range'
  | None => range' = range
  end.

(** What a reader takes can be read and has every entry it may return. *)
Lemma read_filter_ok rv imm_kvs levels epoch range range' : read_version_ok rv imm_kvs levels → is_uint 32 table_id → rewritten rv epoch range range' →
  ∃ tuple' kvs', read_filter_for_version epoch table_id range rv = Ret (range', tuple') ∧ version_ok' tuple' kvs' levels ∧
    mjoin (version_parts content kvs' tuple'.1.2 levels) ⊆+ mjoin (version_parts content imm_kvs (staging_ssts rv) levels) ∧
    ∀ e, e ∈ mjoin (version_parts content imm_kvs (staging_ssts rv) levels) → wanted epoch range' e → e ∈ mjoin (version_parts content kvs' tuple'.1.2 levels).
Proof.
  intros H Hid Hr. destruct (imm_pairs _ _ _ _ _ _ _ _ _ _ _ (rv_version _ _ _ H)) as (ps & Hps1 & Hps2 & Hps). cbn [full_tuple fst snd] in Hps1.
  assert (Forall (λ p : SharedBufferBatch.t * list kv, imm_holds table_id p.1 p.2 ∧ imm_from p.1 p.2) ps) as Hps'.
  { pose proof (rv_imms _ _ _ H) as Hf. rewrite <-Hps1, <-Hps2 in Hf. revert Hps Hf. clear. induction ps as [|p ps IH]; intros Hps Hf; [constructor|].
    rewrite !fmap_cons in Hf. inversion Hf; subst. inversion Hps; subst. constructor; [done|by apply IH]. }
  pose proof (vo_ssts _ _ _ _ _ _ _ _ _ _ _ (rv_version _ _ _ H)) as Hss. cbn [full_tuple fst snd] in Hss.
  pose proof (rv_ids _ _ _ H) as Hids. unfold version_parts in Hids. rewrite join_app, fmap_app, join_app in Hids. apply Forall_app in Hids as [_ Hids]. apply Forall_app in Hids as [Hids _].
  destruct (staging_imms_ok epoch range' ps Hps' Hid) as (kept & Hk & Hksub & Hkin).
  destruct (staging_ssts_ok epoch range' _ (rv_ssts _ _ _ H)) as (staging & ks & Hst & Hks & Hssub & Hsin); [eapply Forall_impl; [exact Hss|]; by intros i [? _]|done|].
  exists (kept.*1, concat ks, HummockReadVersion.committed rv), kept.*2. pose proof (rv_version _ _ _ H) as Hv. unfold full_tuple in Hv. rewrite <-Hps2 in Hv |- *.
  destruct (version_ok_sub _ _ _ ps kept (concat ks) levels (eq_sym Hps1) Hv Hksub Hssub) as [Hv' Hparts]. split; [|split; [exact Hv'|split]].
  - unfold read_filter_for_version. assert (match HummockReadVersion.table_watermarks rv with
      | Some watermark => TableWatermarksIndex.rewrite_range_with_table_watermark watermark epoch range | None => Ret range end = Ret range') as ->.
    { unfold rewritten in Hr. destruct (HummockReadVersion.table_watermarks rv); [done|by rewrite Hr]. }
    cbn [mbind outcome_bind]. unfold StagingVersion.prune_overlap. rewrite <-Hps1, Hk. cbn [mbind outcome_bind]. fold (sst_from_epoch epoch). rewrite Hst. cbn [mbind outcome_bind].
    rewrite Hks. done.
  - pose proof (join_submseteq id _ _ (sublist_submseteq _ _ Hparts)) as Hj. by rewrite !list_fmap_id in Hj.
  - intros e (l & He & Hl)%list_elem_of_join Hw. apply list_elem_of_join. exists l. split; [done|]. unfold version_parts in *. cbn [fst snd].
    apply elem_of_app in Hl as [Hl|(i & -> & Hi)%list_elem_of_fmap]; apply elem_of_app; [left|right].
    + apply list_elem_of_fmap in Hl as (p & -> & Hp). apply list_elem_of_fmap. exists p. split; [done|by eapply Hkin].
    + apply list_elem_of_fmap_2, elem_of_app. apply elem_of_app in Hi as [Hi|Hi]; [left; by eapply Hsin|by right].
Qed.

End prune.
