(* ===== verification/LocalStorage.v ===== *)
(** * The local handle of a table's state

    [LocalHummockStorage] of [src/storage/src/hummock/store/local_hummock_storage.rs]: writes go to
    a mem-table; [flush] turns the mem-table into a batch of the read version and hands it to the
    uploader; reads go through the mem-table and the read version; [seal_current_epoch] ends an
    epoch.  The store of SSTs, the memory limiter, the clock and the notification of new versions
    are parameters; the channel to the event handler is the list of the events sent.  Metrics and
    the change-log iterator are not modelled.  The theorems are in [LocalStorageSpec.v]. *)

From Stdlib Require Import ZArith Lia.
From stdpp Require Import gmap fin_maps.
From S2P Require Import Prelude Order Bytes Epoch Bits Bitmap Vnode Key KeySpec KeyRange Watermark Sst Level Split Block Iter UserIter SharedBuffer Version MemTable StateStore ReadVersion VersionReader.

Module SealCurrentEpochOptions.
Record t := mk { table_watermarks : option (WatermarkDirection.t * list VnodeWatermark.t); switch_op_consistency_level : option OpConsistencyLevel.t }.
End SealCurrentEpochOptions.

(** The events a local storage sends. *)
Module HummockEvent.
Inductive t :=
| BufferMayFlush
| ImmToUploader (instance_id : Z) (imm : SharedBufferBatch.t)
| InitEpoch (instance_id init_epoch : Z)
| LocalSealEpoch (instance_id next_epoch : Z) (opts : SealCurrentEpochOptions.t).
End HummockEvent.

Module LocalHummockStorage.

(** [sent] are the events sent, [closed] tells that the event handler is gone. *)
Record t := mk {
  mem_table : MemTable.t;
  spill_offset : Z;
  epoch : option Z;
  table_id : Z;
  op_consistency_level : OpConsistencyLevel.t;
  retention_seconds : option Z;
  instance_id : Z;
  read_version : HummockReadVersion.t;
  is_replicated : bool;
  mem_table_spill_threshold : Z;
  sent : list HummockEvent.t;
  closed : bool
}.

Definition set_mem_table (self : t) (m : MemTable.t) : t :=
  mk m (spill_offset self) (epoch self) (table_id self) (op_consistency_level self) (retention_seconds self) (instance_id self) (read_version self)
     (is_replicated self) (mem_table_spill_threshold self) (sent self) (closed self).
Definition set_spill_offset (self : t) (o : Z) : t :=
  mk (mem_table self) o (epoch self) (table_id self) (op_consistency_level self) (retention_seconds self) (instance_id self) (read_version self)
     (is_replicated self) (mem_table_spill_threshold self) (sent self) (closed self).
Definition set_epoch (self : t) (e : Z) : t :=
  mk (mem_table self) (spill_offset self) (Some e) (table_id self) (op_consistency_level self) (retention_seconds self) (instance_id self) (read_version self)
     (is_replicated self) (mem_table_spill_threshold self) (sent self) (closed self).
Definition set_level (self : t) (l : OpConsistencyLevel.t) : t :=
  mk (mem_table self) (spill_offset self) (epoch self) (table_id self) l (retention_seconds self) (instance_id self) (read_version self)
     (is_replicated self) (mem_table_spill_threshold self) (sent self) (closed self).
Definition set_read_version (self : t) (v : HummockReadVersion.t) : t :=
  mk (mem_table self) (spill_offset self) (epoch self) (table_id self) (op_consistency_level self) (retention_seconds self) (instance_id self) v
     (is_replicated self) (mem_table_spill_threshold self) (sent self) (closed self).
Definition set_sent (self : t) (s : list HummockEvent.t) : t :=
  mk (mem_table self) (spill_offset self) (epoch self) (table_id self) (op_consistency_level self) (retention_seconds self) (instance_id self) (read_version self)
     (is_replicated self) (mem_table_spill_threshold self) s (closed self).

Definition new (instance_id table_id : Z) (read_version : HummockReadVersion.t) (op_consistency_level : OpConsistencyLevel.t) (retention_seconds : option Z)
    (is_replicated : bool) (mem_table_spill_threshold : Z) (closed : bool) : t :=
  mk (MemTable.new op_consistency_level) 0 None table_id op_consistency_level retention_seconds instance_id read_version is_replicated
     mem_table_spill_threshold [] closed.

(** The method [epoch]. *)
Definition the_epoch (self : t) : outcome Z := unwrap (epoch self).

Definition is_dirty (self : t) : bool := MemTable.is_dirty (mem_table self).

(** [event_sender.send]: it fails when the receiver is gone. *)
Definition send (self : t) (event : HummockEvent.t) : t * HummockResult unit :=
  if closed self then (self, inl OtherError) else (set_sent self (sent self ++ [event]), inr tt).

Definition update (self : t) (info : VersionUpdate.t) : outcome t :=
  v ← HummockReadVersion.update (read_version self) info; Ret (set_read_version self v).

Definition is_flush_old_value (self : t) : bool :=
  match op_consistency_level self with OpConsistencyLevel.ConsistentOldValue _ is_log_store => is_log_store | OpConsistencyLevel.Inconsistent => false end.

(** ** Reads *)
Section reads.
Context {Store Table TI : Type} {it : HummockIterator.t TI}
  (sstable : Store → SstableInfo.t → Store * HummockResult Table)
  (create : Table → Store → SstableInfo.t → outcome TI)
  (may_match_hash : Table → UserKeyRange → Z → bool)
  (sstable_id : Table → Z)
  (xxh64 : list byte → Z).
Abbreviation io A := (outcome (Store * HummockResult A)).

Definition get_inner (store : Store) (self : t) (table_key : TableKey.t) (epoch : Z) (read_options : ReadOptions.t) : io (option StateStoreKeyedRow) :=
  '(table_key_range, read_snapshot) ← read_filter_for_version epoch (ReadOptions.table_id read_options) (Included table_key, Included table_key) (read_version self);
  if Key.is_empty_key_range table_key_range then Ret (store, inr None)
  else VersionReader.get sstable create may_match_hash xxh64 store table_key epoch read_options read_snapshot.

(** [StateStoreRead::get_keyed_row] *)
Definition get_keyed_row (store : Store) (self : t) (key : TableKey.t) (epoch : Z) (read_options : ReadOptions.t) : io (option StateStoreKeyedRow) :=
  e ← the_epoch self;
  rassert (epoch <=? e)%Z;;
  get_inner store self key epoch read_options.

(** [LocalStateStore::get] *)
Definition get (store : Store) (self : t) (key : TableKey.t) (read_options : ReadOptions.t) : io (option (list byte)) :=
  match BTreeMap.get bytes_cmp (MemTable.buffer (mem_table self)) key with
  | None =>
      e ← the_epoch self;
      '(store, r) ← get_inner store self key e read_options;
      Ret (store, match r with inl err => inl err | inr row => inr (snd <$> (row : option StateStoreKeyedRow)) end)
  | Some op =>
      match op with
      | KeyOp.Insert value | KeyOp.Update _ value => Ret (store, inr (Some value))
      | KeyOp.Delete _ => Ret (store, inr None)
      end
  end.

Section iter.
Context {bh : BinaryHeap} (fuel : nat).

Definition iter_flushed (store : Store) (self : t) (table_key_range : TableKeyRange) (epoch : Z) (read_options : ReadOptions.t) :=
  '(table_key_range, read_snapshot) ← read_filter_for_version epoch (ReadOptions.table_id read_options) table_key_range (read_version self);
  iter_with_memtable sstable create may_match_hash sstable_id xxh64 DirectionEnum.Forward MemTableIteratorBuilder fuel store table_key_range epoch read_options
    read_snapshot None.

Definition rev_iter_flushed (store : Store) (self : t) (table_key_range : TableKeyRange) (epoch : Z) (read_options : ReadOptions.t) :=
  '(table_key_range, read_snapshot) ← read_filter_for_version epoch (ReadOptions.table_id read_options) table_key_range (read_version self);
  VersionReader.rev_iter sstable create may_match_hash sstable_id xxh64 DirectionEnum.Backward MemTableRevIteratorBuilder fuel store table_key_range epoch read_options
    read_snapshot None.

(** [StateStoreRead::iter] and [StateStoreRead::rev_iter] *)
Definition read_iter (store : Store) (self : t) (key_range : TableKeyRange) (epoch : Z) (read_options : ReadOptions.t) :=
  e ← the_epoch self;
  rassert (epoch <=? e)%Z;;
  iter_flushed store self key_range epoch read_options.

Definition read_rev_iter (store : Store) (self : t) (key_range : TableKeyRange) (epoch : Z) (read_options : ReadOptions.t) :=
  e ← the_epoch self;
  rassert (epoch <=? e)%Z;;
  rev_iter_flushed store self key_range epoch read_options.

Definition mem_table_iter (self : t) : outcome (FromRustIterator.t MemTableIteratorBuilder) :=
  e ← the_epoch self;
  Ret (FromRustIterator.new (B := MemTableIteratorBuilder) (MemTable.buffer (mem_table self)) (EpochWithGap.new e (spill_offset self)) (table_id self)).

Definition mem_table_rev_iter (self : t) : outcome (FromRustIterator.t MemTableRevIteratorBuilder) :=
  e ← the_epoch self;
  Ret (FromRustIterator.new (B := MemTableRevIteratorBuilder) (MemTable.buffer (mem_table self)) (EpochWithGap.new e (spill_offset self)) (table_id self)).

Definition iter_all (store : Store) (self : t) (table_key_range : TableKeyRange) (epoch : Z) (read_options : ReadOptions.t) :=
  '(table_key_range, read_snapshot) ← read_filter_for_version epoch (ReadOptions.table_id read_options) table_key_range (read_version self);
  mem ← mem_table_iter self;
  iter_with_memtable sstable create may_match_hash sstable_id xxh64 DirectionEnum.Forward MemTableIteratorBuilder fuel store table_key_range epoch read_options
    read_snapshot (Some mem).

Definition rev_iter_all (store : Store) (self : t) (table_key_range : TableKeyRange) (epoch : Z) (read_options : ReadOptions.t) :=
  '(table_key_range, read_snapshot) ← read_filter_for_version epoch (ReadOptions.table_id read_options) table_key_range (read_version self);
  mem ← mem_table_rev_iter self;
  VersionReader.rev_iter sstable create may_match_hash sstable_id xxh64 DirectionEnum.Backward MemTableRevIteratorBuilder fuel store table_key_range epoch read_options
    read_snapshot (Some mem).

(** A read of the handle covers one vnode. *)
Definition one_vnode (key_range : TableKeyRange) : outcome unit :=
  '(l_vnode_inclusive, r_vnode_exclusive) ← Key.vnode_range key_range;
  rassert (r_vnode_exclusive =? l_vnode_inclusive + 1)%nat;; Ret tt.

(** [LocalStateStore::iter] and [LocalStateStore::rev_iter] *)
Definition iter (store : Store) (self : t) (key_range : TableKeyRange) (read_options : ReadOptions.t) :=
  one_vnode key_range;;
  e ← the_epoch self;
  iter_all store self key_range e read_options.

Definition rev_iter (store : Store) (self : t) (key_range : TableKeyRange) (read_options : ReadOptions.t) :=
  one_vnode key_range;;
  e ← the_epoch self;
  rev_iter_all store self key_range e read_options.
End iter.

Definition get_table_watermark (self : t) (vnode : VirtualNode.t) : outcome (option (list byte)) :=
  HummockReadVersion.latest_watermark (read_version self) vnode.

(** ** Writes *)
Context (size_of_Bytes size_of_KeyOp : Z) (sanity_check_enabled : bool) (try_require_memory : nat → bool).

Definition lift (self : t) (r : MemTable.result) : t * (StorageError HummockError + unit) :=
  (set_mem_table self r.1, match r.2 with inl e => inl (MemTableErr e) | inr _ => inr tt end).

Definition insert (self : t) (key : TableKey.t) (new_val : list byte) (old_val : option (list byte)) : t * (StorageError HummockError + unit) :=
  lift self (match old_val with
             | None => MemTable.insert size_of_Bytes size_of_KeyOp sanity_check_enabled (mem_table self) key new_val
             | Some old_val => MemTable.update size_of_Bytes size_of_KeyOp sanity_check_enabled (mem_table self) key old_val new_val
             end).

Definition delete (self : t) (key : TableKey.t) (old_val : list byte) : t * (StorageError HummockError + unit) :=
  lift self (MemTable.delete size_of_Bytes size_of_KeyOp sanity_check_enabled (mem_table self) key old_val).

(** What [flush] pushes for an operation: the item of the batch and the old value. *)
Definition push (key : TableKey.t) (key_op : KeyOp.t) : SharedBufferItem * list byte :=
  match key_op with
  | KeyOp.Insert value => ((key, SharedBufferValue.Insert value), [])
  | KeyOp.Delete old_value => ((key, SharedBufferValue.Delete), old_value)
  | KeyOp.Update old_value new_value => ((key, SharedBufferValue.Update new_value), old_value)
  end.

(** [flush_inner]; [batch_id] is the next id of the generator of batches. *)
Definition flush_inner (self : t) (sorted_items : list SharedBufferItem) (old_values : option (list (list byte))) (epoch : Z) (batch_id : Z)
  : outcome (t * HummockResult Z) :=
  match sorted_items with
  | [] => Ret (self, inr 0%Z)
  | _ =>
      let '(size, old_value_size) := SharedBufferBatch.measure_batch_size (Z.to_nat size_of_Bytes) sorted_items old_values in
      self ← (if try_require_memory size then Ret self
              else let '(self, r) := send self HummockEvent.BufferMayFlush in
                   match r with inl _ => Panic | inr _ => Ret self end);
      imm ← SharedBufferBatch.build_shared_buffer_batch epoch (spill_offset self) sorted_items old_values (Z.of_nat size) (table_id self) batch_id;
      let self := set_spill_offset self (wrap 16 (spill_offset self + 1)) in
      self ← update self (VersionUpdate.StagingImm imm);
      let imm_size := SharedBufferBatchInner.size (SharedBufferBatch.inner imm) in
      if is_replicated self then Ret (self, inr imm_size)
      else let '(self, r) := send self (HummockEvent.ImmToUploader (instance_id self) imm) in
           Ret (self, match r with inl e => inl e | inr _ => inr imm_size end)
  end.

(** The reads of the sanity checks of [flush]. *)
Definition check_get (store : Store) (self : t) (key : TableKey.t) (epoch : Z) (read_options : ReadOptions.t) : outcome (HummockError + option (list byte)) :=
  '(_, r) ← get_keyed_row store self key epoch read_options;
  Ret (match r with inl e => inl e | inr row => inr (snd <$> (row : option StateStoreKeyedRow)) end).

Definition flush (store : Store) (self : t) (batch_id : Z) : outcome (t * (StorageError HummockError + Z)) :=
  let '(kept, drained) := MemTable.drain (mem_table self) in
  let self := set_mem_table self kept in
  let buffer := MemTable.into_parts drained in
  e ← the_epoch self;
  r ← flush_loop (check_get store self) e (table_id self) (retention_seconds self) (op_consistency_level self) sanity_check_enabled push buffer;
  match r with
  | inl err => Ret (self, inl err)
  | inr pushed =>
      let old_values := if is_flush_old_value self then Some pushed.*2 else None in
      '(self, r) ← flush_inner self pushed.*1 old_values e batch_id;
      Ret (self, match r with inl err => inl (StoreErr err) | inr n => inr n end)
  end.

Definition try_flush (store : Store) (self : t) (batch_id : Z) : outcome (t * (StorageError HummockError + unit)) :=
  if negb (mem_table_spill_threshold self =? 0)%Z && (mem_table_spill_threshold self <? MemTable.kv_size (mem_table self))%Z then
    if (spill_offset self <? Epoch.MAX_SPILL_TIMES)%Z then
      '(self, r) ← flush store self batch_id;
      Ret (self, match r with inl err => inl err | inr _ => inr tt end)
    else Ret (self, inr tt)
  else Ret (self, inr tt).

(** [waited]: the outcome of waiting for the previous epoch to be committed. *)
Definition init (self : t) (waited : HummockResult unit) (curr : Z) : outcome (t * HummockResult unit) :=
  match waited with
  | inl e => Ret (self, inl e)
  | inr _ =>
      rassert (match epoch self with None => true | Some _ => false end);;
      let self := set_epoch self curr in
      Ret (if is_replicated self then (self, inr tt) else send self (HummockEvent.InitEpoch (instance_id self) curr))
  end.

Definition seal_current_epoch (self : t) (next_epoch : Z) (opts : SealCurrentEpochOptions.t) : outcome t :=
  rassert (negb (is_dirty self));;
  self ← match SealCurrentEpochOptions.switch_op_consistency_level opts with
         | Some new_level =>
             l1 ← OpConsistencyLevel.update (MemTable.op_consistency_level (mem_table self)) new_level;
             l2 ← OpConsistencyLevel.update (op_consistency_level self) new_level;
             Ret (set_level (set_mem_table self (MemTable.mk (MemTable.buffer (mem_table self)) l1 (MemTable.kv_size (mem_table self)))) l2)
         | None => Ret self
         end;
  prev_epoch ← the_epoch self;
  let self := set_spill_offset (set_epoch self next_epoch) 0 in
  rassert (prev_epoch <? next_epoch)%Z;;
  '(self, opts) ← match SealCurrentEpochOptions.table_watermarks opts with
                  | Some (direction, watermarks) =>
                      watermarks ← HummockReadVersion.filter_regress_watermarks (read_version self) watermarks;
                      self ← match watermarks with
                             | [] => Ret self
                             | _ => update self (VersionUpdate.NewTableWatermark direction prev_epoch watermarks)
                             end;
                      Ret (self, SealCurrentEpochOptions.mk (Some (direction, watermarks)) (SealCurrentEpochOptions.switch_op_consistency_level opts))
                  | None => Ret (self, opts)
                  end;
  Ret (if is_replicated self then self else (send self (HummockEvent.LocalSealEpoch (instance_id self) next_epoch opts)).1).

Definition update_vnode_bitmap (self : t) (vnodes : Bitmap.t) : outcome (t * Bitmap.t) :=
  rassert (StagingVersion.is_empty (HummockReadVersion.staging (read_version self)));;
  let '(v, prev) := HummockReadVersion.update_vnode_bitmap (read_version self) vnodes in
  Ret (set_read_version self v, prev).

End reads.
End LocalHummockStorage.
