(* ===== verification/LocalStorageSpec.v ===== *)
(** * The local handle of a table's state: theorems

    [LocalHummockStorage] reads its own writes: through mem-table, batches, SSTs and the committed
    version, whatever has been flushed, spilled, uploaded and sealed in between, a client sees the
    table its writes describe ([LocalStorage.v]). *)

From Stdlib Require Import ZArith Lia.
From stdpp Require Import gmap fin_maps.
From S2P Require Import Prelude Order Bytes Epoch Bits Bitmap Vnode Key KeySpec KeyOrder KeyRange Watermark WatermarkSpec WatermarkRange Sst SstSpec Level Split Block Iter IterSpec ConcatSpec UserIter UserIterSpec SharedBuffer SharedBufferSpec MergeImmSpec SstMeta SstIter ReadPath Version MemTable MemTableSpec StateStore StateStoreSpec ReadVersion VersionReader VersionReaderSpec VersionScanSpec ReadVersionSpec LocalStorage.

Implicit Types (e : kv) (σ : table).

(** ** Epochs of writes *)

(** An epoch of a running system: its spill bits are clear and it is not a bound. *)
Definition live_epoch (ep : Z) : Prop := is_uint 64 ep ∧ (ep mod 65536 = 0)%Z ∧ (ep < Epoch.MAX_EPOCH)%Z.

Lemma live_pure_read ep : live_epoch ep → pure_read ep.
Proof. intros (Hu & Hm & _). split; [done|by left]. Qed.

Lemma live_gap ep o : live_epoch ep → (0 ≤ o ≤ 65535)%Z →
  EpochWithGap.new ep o = (ep + o)%Z ∧ is_uint 64 (ep + o) ∧ EpochWithGap.pure_epoch (ep + o) = ep.
Proof.
  intros (Hu & Hm & Hlt) Ho. change Epoch.MAX_EPOCH with (2 ^ 64 - 65536)%Z in Hlt. unfold is_uint in Hu.
  assert (is_uint 64 (ep + o)) as Hu' by (unfold is_uint; lia). split; [|split; [done|]].
  - unfold EpochWithGap.new, Epoch.is_max_epoch. change Epoch.MAX_EPOCH with (2 ^ 64 - 65536)%Z. rewrite Z.geb_leb.
    rewrite (proj2 (Z.leb_gt _ _)) by lia. by apply wrap_small.
  - rewrite pure_epoch_sub by done. rewrite <-Zplus_mod_idemp_l, Hm, Z.add_0_l, Z.mod_small by lia. lia.
Qed.

(** What was written before the end of an epoch has no later epoch. *)
Lemma live_below ep gap : live_epoch ep → is_uint 64 gap → (gap < ep + 65536)%Z → (0 ≤ EpochWithGap.pure_epoch gap ≤ ep)%Z.
Proof.
  intros (_ & Hmod & _) Hu Hlt. rewrite pure_epoch_sub by done. rewrite Z.mod_divide in Hmod by done. destruct Hmod as [q ->]. unfold is_uint in Hu.
  pose proof (Z.div_mod gap 65536 ltac:(done)). pose proof (Z.mod_pos_bound gap 65536 ltac:(done)). pose proof (Z.div_pos gap 65536).
  assert (gap / 65536 < q + 1)%Z by (apply Z.div_lt_upper_bound; lia). lia.
Qed.

(** ** Tables *)
Section rows.
Context (table_id ep : Z).
Abbreviation user k := (UserKey.mk table_id k).
Abbreviation key_row all k := (is_row 0 ep (λ u, bool_decide (u = user k)) all).

(** The rows of the entries at the epoch are the table. *)
Definition reads_table (all : list kv) σ : Prop := ∀ k v, (∃ fk, key_row all k fk v) ↔ σ k = Some v.

(** Only the versions of the key matter. *)
Lemma key_row_ext l1 l2 k fk v : (∀ x, ukey x = user k → x ∈ l1 ↔ x ∈ l2) → key_row l1 k fk v ↔ key_row l2 k fk v.
Proof.
  intros H. unfold is_row. split; intros (H1 & H2 & H3%bool_decide_eq_true & H4); (split_and!; [|done|by apply bool_decide_eq_true|]);
    try (by apply H); intros x Hx Hr Hu; (apply H4; [|done|done]); apply H; congruence.
Qed.

Lemma reads_table_elem all all' σ : (∀ x, x ∈ all ↔ x ∈ all') → reads_table all σ → reads_table all' σ.
Proof. intros H Hr k v. rewrite <-(Hr k v). split; intros [fk Hf]; exists fk; revert Hf; apply key_row_ext; intros x _; by rewrite H. Qed.

(** The entries of a mem-table at a later epoch override the table. *)
Lemma overlay_rows (gap : Z) (m : MemTable.MemTableStore) all σ : EpochWithGap.pure_epoch gap = ep → (0 ≤ ep)%Z →
  ascending m → Forall (λ e, FullKey.epoch_with_gap e.1 < gap)%Z all →
  reads_table all σ → reads_table (mem_entries table_id gap m ++ all) (overlay m σ).
Proof.
  intros Hg Hep Ha Hlt Hr k v. unfold overlay. rewrite Forall_forall in Hlt.
  assert (∀ x, x ∈ mem_entries table_id gap m → ukey x = user k → ∃ op, BTreeMap.get bytes_cmp m k = Some op ∧ x = (FullKey.mk (user k) gap, (map_to_hummock_value (k, op)).2)) as Hmem.
  { intros x ([k' op] & -> & Hin)%list_elem_of_fmap [= ->]. exists op. split; [by apply (btree_get_elem bytes_cmp)|done]. }
  destruct (BTreeMap.get bytes_cmp m k) as [op|] eqn:G.
  - assert ((FullKey.mk (user k) gap, (map_to_hummock_value (k, op)).2) ∈ mem_entries table_id gap m) as Hin.
    { apply (btree_get_elem bytes_cmp) in G; [|done]. apply list_elem_of_fmap. by exists (k, op). }
    assert (readable 0 ep (FullKey.mk (user k) gap, (map_to_hummock_value (k, op)).2) = true) as Hread.
    { unfold readable. cbn. rewrite Hg. apply andb_true_iff. split; apply Z.leb_le; lia. }
    split.
    + intros (fk & H1 & H2 & H3%bool_decide_eq_true & H4). apply elem_of_app in H1 as [H1|H1].
      * destruct (Hmem _ H1 H3) as (op' & [= <-] & [= -> Hv]). by destruct op; inversion Hv.
      * specialize (Hlt _ H1). specialize (H4 _ ltac:(apply elem_of_app; by left) Hread (eq_sym H3)). cbn in *. lia.
    + intros Hop. exists (FullKey.mk (user k) gap). assert ((map_to_hummock_value (k, op)).2 = HummockValue.Put v) as E by (destruct op; cbn in *; congruence).
      rewrite E in *. split_and!; [apply elem_of_app; by left|done|by apply bool_decide_eq_true|]. intros x [Hx|Hx]%elem_of_app _ Hu.
      * by destruct (Hmem x Hx Hu) as (op' & _ & ->).
      * specialize (Hlt x Hx). cbn. lia.
  - rewrite <-(Hr k v). assert (∀ x, ukey x = user k → x ∈ mem_entries table_id gap m ++ all ↔ x ∈ all) as Hx.
    { intros x Hu. rewrite elem_of_app. split; [|by right]. intros [Hx|Hx]; [by destruct (Hmem x Hx Hu) as (? & ? & _)|done]. }
    split; intros [fk Hf]; exists fk; revert Hf; apply key_row_ext; intros x Hu; by rewrite Hx.
Qed.

(** A later epoch sees the same rows when nothing was written since. *)
Lemma reads_table_later all σ ep' : Forall (λ e, epoch_of e ≤ ep)%Z all → (ep ≤ ep')%Z → reads_table all σ → ∀ k v,
  (∃ fk, is_row 0 ep' (λ u, bool_decide (u = user k)) all fk v) ↔ σ k = Some v.
Proof.
  intros Hall Hle Hr k v. rewrite <-(Hr k v). rewrite Forall_forall in Hall.
  assert (∀ x, x ∈ all → readable 0 ep' x = readable 0 ep x) as Hread.
  { intros x Hx. specialize (Hall x Hx). unfold readable. f_equal. cbn in Hall. by rewrite !(proj2 (Z.leb_le _ _)) by lia. }
  split; intros (fk & H1 & H2 & H3 & H4); exists fk; (split_and!; [done| |done|]).
  - by rewrite <-Hread.
  - intros x Hx Hx'. apply H4; [done|]. by rewrite Hread.
  - by rewrite Hread.
  - intros x Hx Hx'. apply H4; [done|]. by rewrite <-Hread.
Qed.

(** The rows of a range are those of the table in it. *)
Lemma range_rows all σ range k v : reads_table all σ → is_uint 32 table_id → (∀ e, e ∈ all → is_uint 32 (UserKey.table_id (ukey e))) →
  (∃ fk, is_row 0 ep (contains UserKey.cmp (bound_table_key_range table_id range)) all fk v ∧ UserKey.table_key (FullKey.user_key fk) = k) ↔
  σ k = Some v ∧ contains bytes_cmp range k = true.
Proof.
  intros Hr Hid Hids. rewrite <-(Hr k v). split.
  - intros (fk & (H1 & H2 & H3 & H4) & Hk). rewrite bound_table_key_range_exact in H3 by exact (Hids _ H1). apply andb_true_iff in H3 as [Ht%bool_decide_eq_true Hc].
    rewrite Hk in Hc. split; [|done]. exists fk. split_and!; [done|done| |done]. apply bool_decide_eq_true. destruct fk as [[t b] g]; cbn in *. by subst.
  - intros [(fk & H1 & H2 & H3%bool_decide_eq_true & H4) Hc]. exists fk. rewrite H3. split; [|done]. split_and!; [done|done| |done].
    rewrite H3, bound_table_key_range_exact by exact Hid. by rewrite bool_decide_true.
Qed.

(** Parts in which newer versions come first read as a table. *)
Definition table_of (parts : list (list kv)) : table := λ k, snd <$> (first_hit table_id k ep parts ≫= found table_id k 0).

Lemma table_of_ok parts : Forall (sorted DirectionEnum.Forward) parts → StronglySorted newer parts → coherent (mjoin parts) →
  Forall (λ e, is_uint 64 (FullKey.epoch_with_gap e.1)) (mjoin parts) → reads_table (mjoin parts) (table_of parts).
Proof.
  intros Hs Hn Hc Hu k v. pose proof (found_row table_id k ep 0 _ _ Hc Hu (first_hit_good table_id k ep 0 parts Hs Hn)) as Hf. unfold table_of. split.
  - intros [fk H%Hf]. by rewrite H.
  - destruct (_ ≫= _) as [[fk v']|]; [|done]. intros [= ->]. exists fk. by apply Hf.
Qed.
End rows.


(** ** What has been flushed *)
Section storage.
Context {Store Table TI : Type} {it : HummockIterator.t TI}
  (sstable : Store → SstableInfo.t → Store * HummockResult Table)
  (create : Table → Store → SstableInfo.t → outcome TI)
  (may_match_hash : Table → UserKeyRange → Z → bool)
  (sstable_id : Table → Z) (xxh64 : list byte → Z)
  (faults : Prop) (seeks : FullKey.t → Prop) {spec : IteratorSpec TI faults seeks}
  (forward : HummockIterator.direction TI = DirectionEnum.Forward)
  (content : SstableInfo.t → list kv) (table_id : Z)
  (table_uint : is_uint 32 table_id) (table_pos : (0 < table_id)%Z)
  (may_seek : ∀ k, in_table table_id k → seeks k).
Implicit Types (rv : HummockReadVersion.t) (kvs : list (list kv)) (levels : list Level.t) (m : MemTable.MemTableStore).
Abbreviation read_version_ok' := (read_version_ok sstable create may_match_hash faults seeks content None table_id).
Abbreviation all_of rv kvs levels := (mjoin (version_parts content kvs (staging_ssts rv) levels)).

(** The read version reads as [base] at the epoch, and all it holds was written before [bound]. *)
Record flushed_ok rv kvs levels (ep bound : Z) (base : table) : Prop := {
  fo_version : read_version_ok' rv kvs levels;
  fo_watermarks : HummockReadVersion.table_watermarks rv = None;
  fo_asked : Forall (gives_asked sstable sstable_id) (mjoin (Level.table_infos <$> levels));
  fo_keys : Forall key_ok (all_of rv kvs levels);
  fo_below : Forall (λ e, FullKey.epoch_with_gap e.1 < bound)%Z (all_of rv kvs levels);
  fo_reads : reads_table table_id ep (all_of rv kvs levels) base
}.

(** Options without a hint and without a retention. *)
Definition plain (opts : ReadOptions.t) : Prop :=
  ReadOptions.prefix_hint opts = None ∧ ReadOptions.retention_seconds opts = None ∧ ReadOptions.table_id opts = table_id.

Lemma flushed_get rv kvs levels ep bound base store self k opts : live_epoch ep → plain opts → flushed_ok rv kvs levels ep bound base →
  LocalHummockStorage.read_version self = rv →
  gives faults (LocalHummockStorage.get_inner sstable create may_match_hash xxh64 store self k ep opts) (λ r, snd <$> r = base k).
Proof using forward table_uint may_seek.
  intros Hep (Hh & Hr & Ht) H Hrv. pose proof (live_pure_read _ Hep) as Hpure. set (range := (Included k, Included k) : TableKeyRange).
  destruct (read_filter_ok sstable create may_match_hash faults seeks content None table_id rv kvs levels ep range range (fo_version _ _ _ _ _ _ H) table_uint)
    as (tuple & kvs' & Hf & Hv & Hsub & Hin); [unfold rewritten; by rewrite (fo_watermarks _ _ _ _ _ _ H)|].
  unfold LocalHummockStorage.get_inner. rewrite Ht, Hrv. fold range. rewrite Hf. cbn [mbind outcome_bind]. change (Key.is_empty_key_range range) with false. cbv iota.
  pose proof (version_get_ok sstable create may_match_hash xxh64 faults seeks forward content store k ep opts tuple kvs' levels Hpure) as Hg.
  destruct (live_gap ep Epoch.MAX_SPILL_TIMES Hep ltac:(done)) as (Hgap & Hu & _). rewrite <-Hgap in Hu.
  rewrite Hh, Ht, Hr in Hg. specialize (Hg ltac:(apply may_seek; by split) Hv).
  eapply gives_weaken; [exact Hg|]. intros r Hrow. pose proof (fo_reads _ _ _ _ _ _ H k) as Hbase. apply option_eq. intros v. rewrite <-(Hbase v).
  assert (∀ fk, is_row 0 ep (λ u, bool_decide (u = UserKey.mk table_id k)) (mjoin (version_parts content kvs' tuple.1.2 levels)) fk v ↔
                is_row 0 ep (λ u, bool_decide (u = UserKey.mk table_id k)) (all_of rv kvs levels) fk v) as Heq.
  { intros fk. apply is_row_within; [intros e He; by eapply elem_of_submseteq|]. intros e He Hre Hue%bool_decide_eq_true. apply Hin; [done|].
    split; [unfold readable in Hre; apply andb_true_iff in Hre as [? ?]; by apply Z.leb_le|]. by apply single_key_range. }
  split.
  - destruct r as [[fk v']|]; [|done]. intros [= ->]. exists fk. by apply Heq, Hrow.
  - intros [fk Hfk%Heq%Hrow]. by rewrite Hfk.
Qed.

(** A mem-table in front: its entries are newer than all that was flushed. *)
Lemma mem_entries_ok m gap : is_uint 64 gap → Forall key_ok (mem_entries table_id gap m) ∧ ids_ok (mem_entries table_id gap m).
Proof using table_uint table_pos.
  intros Hu. split; apply Forall_fmap, Forall_true; intros [k op]; [|done]. split; [|done]. unfold UserKey.cmp. cbn -[Z.compare].
  by rewrite (proj2 (Z.compare_lt_iff 0 table_id)).
Qed.

Lemma mem_entries_coherent m gap (l : list kv) : ascending m → Forall (λ e, FullKey.epoch_with_gap e.1 < gap)%Z l → coherent l → coherent (mem_entries table_id gap m ++ l).
Proof.
  intros Ha Hl Hc x y. rewrite Forall_forall in Hl. rewrite !elem_of_app. unfold mem_entries. rewrite !list_elem_of_fmap.
  intros [([k1 o1] & -> & H1)|Hx] [([k2 o2] & -> & H2)|Hy]; cbn [fst].
  - intros [= ->]. apply (btree_get_elem bytes_cmp) in H1, H2; [|done..]. congruence.
  - intros E. specialize (Hl y Hy). rewrite <-E in Hl. cbn in Hl. lia.
  - intros E. specialize (Hl x Hx). rewrite E in Hl. cbn in Hl. lia.
  - by apply Hc.
Qed.

Section iter.
Context {bh : BinaryHeap} (fuel : nat).

(** An iterator gives the rows of the table in the range, in the order of their keys. *)
Definition iterates (m : outcome (HummockResult _)) σ (range : TableKeyRange) : Prop :=
  match m with
  | Ret (inr i) =>
      ∃ out : rows,
        StronglySorted (λ r1 r2, UserKey.cmp (row_key r1) (row_key r2) = Lt) out ∧
        (∀ k v, (∃ fk, (fk, v) ∈ out ∧ UserKey.table_key (FullKey.user_key fk) = k) ↔ σ k = Some v ∧ contains bytes_cmp range k = true) ∧
        reads faults (drain (it := payload_iter sstable create DirectionEnum.Forward MemTableIteratorBuilder) fuel fuel i) out
  | Ret (inl _) => faults
  | Panic => False
  end.

Lemma flushed_iter rv kvs levels ep bound base store self range opts (o : Z) m : live_epoch ep → (0 ≤ o ≤ 65535)%Z → (bound ≤ ep + o)%Z → plain opts →
  flushed_ok rv kvs levels ep bound base → LocalHummockStorage.read_version self = rv → LocalHummockStorage.table_id self = table_id →
  LocalHummockStorage.epoch self = Some ep → LocalHummockStorage.spill_offset self = o → MemTable.buffer (LocalHummockStorage.mem_table self) = m → ascending m →
  range_ordered bytes_cmp range → length (all_of rv kvs levels) + length m < fuel →
  iterates (LocalHummockStorage.iter_all sstable create may_match_hash sstable_id xxh64 fuel store self range ep opts) (overlay m base) range.
Proof using forward table_uint table_pos may_seek.
  intros Hep Ho Hb (Hh & Hr & Ht) H Hrv Hst Hse Hso Hsm Hm Hord Hlen. destruct (live_gap ep o Hep Ho) as (Hgap & Hgu & Hpure).
  destruct (read_filter_ok sstable create may_match_hash faults seeks content None table_id rv kvs levels ep range range (fo_version _ _ _ _ _ _ H) table_uint)
    as (tuple & kvs' & Hf & Hv & Hsub & Hin); [unfold rewritten; by rewrite (fo_watermarks _ _ _ _ _ _ H)|].
  unfold LocalHummockStorage.iter_all, LocalHummockStorage.mem_table_iter, LocalHummockStorage.the_epoch. rewrite Ht, Hrv, Hf, Hse, Hst, Hso, Hsm. cbn [unwrap mbind outcome_bind]. rewrite Hgap.
  set (entries := mem_entries table_id (ep + o) m). set (read := mjoin (version_parts content kvs' tuple.1.2 levels)) in *.
  assert (read ++ entries ⊆+ entries ++ all_of rv kvs levels) as Hs by (rewrite (Permutation_app_comm read); by apply submseteq_skips_l).
  assert (∀ P : kv → Prop, Forall P (entries ++ all_of rv kvs levels) → Forall P (read ++ entries)) as Hsub'.
  { intros P. rewrite !Forall_forall. intros HP e He. by eapply HP, elem_of_submseteq. }
  destruct (mem_entries_ok m (ep + o) Hgu) as [Hmk Hmi]. fold entries in Hmk, Hmi.
  assert (Forall (λ e, FullKey.epoch_with_gap e.1 < ep + o)%Z (all_of rv kvs levels)) as Hbelow by (eapply Forall_impl; [exact (fo_below _ _ _ _ _ _ H)|]; cbn; intros; lia).
  pose proof (version_iter_ok sstable create may_match_hash sstable_id xxh64 faults seeks spec content fuel store range ep opts tuple kvs' levels
    (Some (FromRustIterator.new (B := MemTableIteratorBuilder) m (ep + o) table_id)) entries forward) as Hit.
  rewrite Hh, Ht, Hr in Hit. fold read in Hit. specialize (Hit may_seek (fo_asked _ _ _ _ _ _ H) Hv (mem_iter_owns _ _ _ Hm)). cbv zeta in Hit.
  assert (coherent (read ++ entries)) as Hc.
  { eapply coherent_sub; [intros e He; by eapply elem_of_submseteq|]. apply mem_entries_coherent; [done|exact Hbelow|].
    apply (vo_coherent _ _ _ _ _ _ _ _ _ _ _ (rv_version _ _ _ _ _ _ _ _ _ _ _ (fo_version _ _ _ _ _ _ H))). }
  specialize (Hit Hc (Hsub' _ (Forall_app_2 _ _ _ Hmk (fo_keys _ _ _ _ _ _ H)))
    (Hsub' _ (Forall_app_2 _ _ _ Hmi (rv_ids _ _ _ _ _ _ _ _ _ _ _ (fo_version _ _ _ _ _ _ H)))) Hord (proj1 Hep)).
  specialize (Hit ltac:(pose proof (submseteq_length _ _ Hs) as Hl; rewrite (length_app entries) in Hl; unfold entries in Hl at 2; unfold mem_entries in Hl; rewrite length_fmap in Hl; lia)).
  unfold iterates. destruct (iter_with_memtable _ _ _ _ _ _ _ _ _ _ _ _ _ _) as [[er|i]|]; [done| |done]. destruct Hit as (out & Hsort & Hrows & Hreads).
  exists out. split_and!; [exact Hsort| |exact Hreads]. intros k v.
  rewrite <-(range_rows table_id ep (entries ++ all_of rv kvs levels) (overlay m base) range k v).
  - setoid_rewrite Hrows. apply exist_proper. intros fk. apply and_iff_compat_r. apply is_row_within; [intros e He; by eapply elem_of_submseteq|].
    intros e He Hre Hce. apply elem_of_app. apply elem_of_app in He as [He|He]; [by right|left]. apply Hin; [done|].
    split; [|done]. unfold readable in Hre. apply andb_true_iff in Hre as [? ?]. by apply Z.leb_le.
  - apply overlay_rows; [done|destruct Hep as [[? ?] _]; lia|done|done|]. apply H.
  - done.
  - apply Forall_forall. apply (Forall_app_2 _ _ _ Hmi (rv_ids _ _ _ _ _ _ _ _ _ _ _ (fo_version _ _ _ _ _ _ H))).
Qed.
End iter.

(** ** [flush] *)

(** The batch made of a mem-table has its entries. *)
Lemma batch_entries gap m :
  kvs_of table_id (single_groups gap ((λ p : TableKey.t * KeyOp.t, (LocalHummockStorage.push p.1 p.2).1) <$> m)) = mem_entries table_id gap m.
Proof. rewrite kvs_single, <-list_fmap_compose. apply list_fmap_ext. by intros _ [k []] _. Qed.

Lemma batch_ok ep o m old size id : live_epoch ep → (0 ≤ o ≤ 65535)%Z → m ≠ [] → ascending m →
  match old with Some vs => length vs = length m | None => True end →
  ∃ imm, SharedBufferBatch.build_shared_buffer_batch ep o ((λ p : TableKey.t * KeyOp.t, (LocalHummockStorage.push p.1 p.2).1) <$> m) old size table_id id = Ret imm ∧
    imm_holds table_id imm (mem_entries table_id (ep + o) m) ∧ imm_from imm (mem_entries table_id (ep + o) m).
Proof.
  intros Hep Ho Hne Ha Hold. destruct (live_gap ep o Hep Ho) as (Hgap & Hu & Hpure). unfold SharedBufferBatch.build_shared_buffer_batch.
  set (items := _ <$> m). destruct (batch_new_ok ep o items old size id) as (inner & -> & Hg & _ & Hepochs).
  - unfold items. by destruct m.
  - unfold items. destruct old; [by rewrite length_fmap|done].
  - unfold items. clear -Ha. induction Ha as [|p m Hs IH Hf]; [constructor|]. rewrite fmap_cons. constructor; [done|]. apply Forall_fmap.
    eapply Forall_impl; [exact Hf|]. destruct p as [k []]; by intros [k' []].
  - cbn [mbind outcome_bind]. eexists. split; [reflexivity|]. rewrite Hgap in Hg.
    assert (Forall (λ e, epoch_of e = ep) (mem_entries table_id (ep + o) m)) as Hall by (by apply Forall_fmap, Forall_true).
    split.
    + split; [done|]. split; [|split; [|by apply Forall_fmap, Forall_true]].
      * eexists. split; [|split; [exact Hg|symmetry; apply batch_entries]]. unfold items. by destruct m.
      * exists ep. unfold SharedBufferBatch.max_epoch. cbn. rewrite Hepochs. split; [done|]. eapply Forall_impl; [exact Hall|]. cbn. lia.
    + exists ep. unfold SharedBufferBatch.min_epoch. cbn. rewrite Hepochs. split; [done|]. eapply Forall_impl; [exact Hall|]. cbn. lia.
Qed.

(** A batch of later entries goes on top. *)
Lemma flushed_push rv kvs levels ep bound base o m imm : live_epoch ep → (0 ≤ o ≤ 65535)%Z → (bound ≤ ep + o)%Z → ascending m →
  flushed_ok rv kvs levels ep bound base → imm_holds table_id imm (mem_entries table_id (ep + o) m) → imm_from imm (mem_entries table_id (ep + o) m) →
  ∃ rv', HummockReadVersion.update rv (VersionUpdate.StagingImm imm) = Ret rv' ∧
    flushed_ok rv' (mem_entries table_id (ep + o) m :: kvs) levels ep (ep + o + 1) (overlay m base).
Proof using table_uint table_pos.
  intros Hep Ho Hb Hm H Hh Hf. destruct (live_gap ep o Hep Ho) as (_ & Hu & Hpure). destruct (mem_entries_ok m (ep + o) Hu) as [Hmk Hmi].
  assert (Forall (λ e, FullKey.epoch_with_gap e.1 < ep + o)%Z (all_of rv kvs levels)) as Hbelow by (eapply Forall_impl; [exact (fo_below _ _ _ _ _ _ H)|]; cbn; intros; lia).
  pose proof (fo_version _ _ _ _ _ _ H) as Hrv. pose proof (rv_version _ _ _ _ _ _ _ _ _ _ _ Hrv) as Hv.
  eexists. split; [reflexivity|]. set (rv' := HummockReadVersion.set_staging _ _).
  assert (all_of rv' (mem_entries table_id (ep + o) m :: kvs) levels = mem_entries table_id (ep + o) m ++ all_of rv kvs levels) as Eall by done.
  split; rewrite ?Eall.
  - split; rewrite ?Eall.
    + split; try apply Hv.
      * constructor; [exact Hh|apply Hv].
      * constructor; [apply Hv|]. apply Forall_forall. intros l Hl x y (p & -> & _)%list_elem_of_fmap Hy _. rewrite Forall_forall in Hbelow.
        specialize (Hbelow y). cbn [fst FullKey.epoch_with_gap]. apply Z.lt_le_incl, Hbelow, list_elem_of_join. by exists l.
      * apply mem_entries_coherent; [done|done|apply Hv].
    + constructor; [exact Hf|apply Hrv].
    + apply Hrv.
    + apply Forall_app_2; [exact Hmi|apply Hrv].
  - apply H.
  - apply H.
  - apply Forall_app_2; [exact Hmk|apply H].
  - apply Forall_app_2; [apply Forall_fmap, Forall_true; cbn; lia|]. eapply Forall_impl; [exact Hbelow|]. cbn; intros; lia.
  - apply overlay_rows; [done|destruct Hep as [[? ?] _]; lia|done|done|apply H].
Qed.

(** The next epoch starts with what the last one left. *)
Lemma flushed_seal rv kvs levels ep next bound base : live_epoch ep → live_epoch next → (ep < next)%Z → (bound ≤ ep + 65536)%Z →
  flushed_ok rv kvs levels ep bound base → flushed_ok rv kvs levels next next base.
Proof.
  intros Hep (_ & Hmod' & _) Hlt Hb H. assert (ep + 65536 ≤ next)%Z as Hle.
  { destruct Hep as (_ & Hmod & _). rewrite Z.mod_divide in Hmod, Hmod' by done. destruct Hmod, Hmod'. lia. }
  split; try apply H.
  - eapply Forall_impl; [exact (fo_below _ _ _ _ _ _ H)|]. cbn; intros; lia.
  - intros k v. eapply reads_table_later; [|by apply Z.lt_le_incl|exact (fo_reads _ _ _ _ _ _ H)]. pose proof (fo_below _ _ _ _ _ _ H) as Hall. pose proof (fo_keys _ _ _ _ _ _ H) as Hk.
    rewrite Forall_forall in Hall, Hk |- *. intros e He. specialize (Hall e He). destruct (Hk e He) as [_ Hue]. cbn in Hall. apply live_below; [done|done|lia].
Qed.

(** ** The handle

    [base] is what was flushed and [σ] what the writer sees; no more than [most] flushes have been
    made in the epoch. *)
Section handle.
Context (check : list byte → list byte → bool) (size_of_Bytes size_of_KeyOp : Z) (sanity : bool) (try_require_memory : nat → bool).
Implicit Types self : LocalHummockStorage.t.

Record handle_ok self kvs levels (base σ : table) (ep most : Z) : Prop := {
  ho_table : LocalHummockStorage.table_id self = table_id;
  ho_epoch : LocalHummockStorage.epoch self = Some ep;
  ho_live : live_epoch ep;
  ho_spill : (0 ≤ LocalHummockStorage.spill_offset self ≤ most ∧ most ≤ 65535)%Z;
  ho_level : ∃ log, LocalHummockStorage.op_consistency_level self = OpConsistencyLevel.ConsistentOldValue check log;
  ho_retention : LocalHummockStorage.retention_seconds self = None;
  ho_open : LocalHummockStorage.closed self = false;
  ho_flushed : flushed_ok (LocalHummockStorage.read_version self) kvs levels ep (ep + LocalHummockStorage.spill_offset self) base;
  ho_mem : represents base check (LocalHummockStorage.mem_table self) σ
}.

(** A key is read from the mem-table, or else from the read version. *)
Lemma handle_get self kvs levels base σ ep most store k opts : plain opts → handle_ok self kvs levels base σ ep most →
  gives faults (LocalHummockStorage.get sstable create may_match_hash xxh64 store self k opts) (λ r, r = σ k).
Proof using forward table_uint may_seek.
  intros Hp H. unfold LocalHummockStorage.get. pose proof (rp_view _ _ _ _ (ho_mem _ _ _ _ _ _ _ H) k) as Hv. unfold overlay in Hv.
  destruct (BTreeMap.get bytes_cmp _ k) as [op|]; [rewrite <-Hv; by destruct op|].
  unfold LocalHummockStorage.the_epoch. rewrite (ho_epoch _ _ _ _ _ _ _ H). cbn [unwrap mbind outcome_bind].
  pose proof (flushed_get _ _ _ _ _ _ store self k opts (ho_live _ _ _ _ _ _ _ H) Hp (ho_flushed _ _ _ _ _ _ _ H) eq_refl) as Hg.
  destruct (LocalHummockStorage.get_inner _ _ _ _ _ _ _ _ _) as [[store' [er|r]]|]; [done| |done]. cbn in *. congruence.
Qed.

Lemma iterates_ext {bh : BinaryHeap} fuel r σ σ' range : (∀ k, σ k = σ' k) → iterates fuel r σ range → iterates fuel r σ' range.
Proof. intros E. unfold iterates. destruct r as [[er|i]|]; [done| |done]. intros (out & H1 & H2 & H3). exists out. split_and!; [done| |done]. intros k v. by rewrite H2, E. Qed.

Lemma handle_iter {bh : BinaryHeap} fuel self kvs levels base σ ep most store range opts : plain opts → handle_ok self kvs levels base σ ep most →
  LocalHummockStorage.one_vnode range = Ret tt → range_ordered bytes_cmp range →
  length (all_of (LocalHummockStorage.read_version self) kvs levels) + length (MemTable.buffer (LocalHummockStorage.mem_table self)) < fuel →
  iterates fuel (LocalHummockStorage.iter sstable create may_match_hash sstable_id xxh64 fuel store self range opts) σ range.
Proof using forward table_uint table_pos may_seek.
  intros Hp H Hone Hord Hlen. unfold LocalHummockStorage.iter, LocalHummockStorage.the_epoch. rewrite Hone, (ho_epoch _ _ _ _ _ _ _ H). cbn [unwrap mbind outcome_bind].
  eapply iterates_ext; [exact (rp_view _ _ _ _ (ho_mem _ _ _ _ _ _ _ H))|]. pose proof (ho_spill _ _ _ _ _ _ _ H) as Ho.
  eapply flushed_iter; [apply H|split; [apply Ho|lia]|reflexivity|exact Hp|apply H|done|apply H|apply H|done|done|apply H|done|done].
Qed.

(** The reads of the checks see what was flushed. *)
Lemma handle_check_get self kvs levels base σ ep most store k : ¬ faults → handle_ok self kvs levels base σ ep most →
  LocalHummockStorage.check_get sstable create may_match_hash xxh64 store self k ep (check_options table_id None) = Ret (inr (base k)).
Proof using forward table_uint may_seek.
  intros Hno H. unfold LocalHummockStorage.check_get, LocalHummockStorage.get_keyed_row, LocalHummockStorage.the_epoch. rewrite (ho_epoch _ _ _ _ _ _ _ H). cbn [unwrap mbind outcome_bind].
  rewrite Z.leb_refl. cbn [rassert mbind outcome_bind].
  pose proof (flushed_get _ _ _ _ _ _ store self k (check_options table_id None) (ho_live _ _ _ _ _ _ _ H) ltac:(done) (ho_flushed _ _ _ _ _ _ _ H) eq_refl) as Hg.
  destruct (LocalHummockStorage.get_inner _ _ _ _ _ _ _ _ _) as [[store' [er|r]]|]; [done| |done]. cbn in *. by rewrite Hg.
Qed.

Lemma represents_flushed base σ mem : represents base check mem σ → represents (overlay (MemTable.buffer mem) base) check (MemTable.new (MemTable.op_consistency_level mem)) σ.
Proof. intros [[log ->] _ _ Hv]. split; [by exists log|constructor|done|done]. Qed.

(** [flush_inner] makes the operations [m] the newest batch. *)
Lemma handle_flush_inner self kvs levels base ep most m old id : handle_ok self kvs levels base base ep most → MemTable.buffer (LocalHummockStorage.mem_table self) = [] →
  (most < 65535)%Z → ascending m → match old with Some vs => length vs = length m | None => True end →
  ∃ self' n kvs', LocalHummockStorage.flush_inner size_of_Bytes try_require_memory self ((λ p : TableKey.t * KeyOp.t, (LocalHummockStorage.push p.1 p.2).1) <$> m) old ep id = Ret (self', inr n) ∧
    handle_ok self' kvs' levels (overlay m base) (overlay m base) ep (most + 1) ∧ LocalHummockStorage.is_dirty self' = false.
Proof using table_uint table_pos.
  intros H Hbuf Hmost Ha Hold. pose proof (ho_spill _ _ _ _ _ _ _ H) as Ho. pose proof (rp_level _ _ _ _ (ho_mem _ _ _ _ _ _ _ H)) as Hlog.
  destruct (decide (m = [])) as [->|Hne].
  { exists self, 0%Z, kvs. split; [done|]. split; [|unfold LocalHummockStorage.is_dirty, MemTable.is_dirty; by rewrite Hbuf]. destruct H; split; try done. lia. }
  destruct self as [mem o epo tid level ret inst rv repl thr sent closed]. destruct H as [Ht He Hlive _ Hlevel Hret Hopen Hfl Hmem].
  cbn [LocalHummockStorage.mem_table LocalHummockStorage.spill_offset LocalHummockStorage.epoch LocalHummockStorage.table_id LocalHummockStorage.op_consistency_level
       LocalHummockStorage.retention_seconds LocalHummockStorage.read_version LocalHummockStorage.closed] in *. subst epo tid closed ret.
  assert (∀ size id, ∃ imm rv', SharedBufferBatch.build_shared_buffer_batch ep o ((λ p : TableKey.t * KeyOp.t, (LocalHummockStorage.push p.1 p.2).1) <$> m) old size table_id id = Ret imm ∧
    HummockReadVersion.update rv (VersionUpdate.StagingImm imm) = Ret rv' ∧ flushed_ok rv' (mem_entries table_id (ep + o) m :: kvs) levels ep (ep + o + 1) (overlay m base)) as Hpush.
  { intros size id'. destruct (batch_ok ep o m old size id' Hlive ltac:(lia) Hne Ha Hold) as (imm & Himm & Hh & Hfrom).
    destruct (flushed_push rv kvs levels ep _ base o m imm Hlive ltac:(lia) ltac:(reflexivity) Ha Hfl Hh Hfrom) as (rv' & Hrv & Hok). by exists imm, rv'. }
  unfold LocalHummockStorage.flush_inner. assert (∃ x l, (λ p : TableKey.t * KeyOp.t, (LocalHummockStorage.push p.1 p.2).1) <$> m = x :: l) as (x & l & E) by (destruct m; [done|by eexists _, _]).
  set (items := _ <$> m) in *. rewrite E. rewrite <-E. clear E x l. destruct (SharedBufferBatch.measure_batch_size _ _ _) as [size ov]. destruct (Hpush (Z.of_nat size) id) as (imm & rv' & Himm & Hrv & Hok).
  assert (∀ sent', handle_ok (LocalHummockStorage.mk mem (wrap 16 (o + 1)) (Some ep) table_id level None inst rv' repl thr sent' false) (mem_entries table_id (ep + o) m :: kvs) levels
    (overlay m base) (overlay m base) ep (most + 1)) as Hdone.
  { intros sent'. rewrite (wrap_small 16) by (unfold is_uint; lia). split; try done; cbn; [lia|by rewrite Z.add_assoc|]. destruct Hlog as [log' El]. split; cbn; [by exists log'|by rewrite Hbuf; constructor|by rewrite Hbuf|by rewrite Hbuf]. }
  assert (MemTable.is_dirty mem = false) as Hd by (unfold MemTable.is_dirty; by rewrite Hbuf).
  destruct (try_require_memory size), repl; cbn; rewrite Himm; cbn; rewrite ?Hrv; cbn in Hrv |- *; injection Hrv as <-;
    eexists _, _, _; (split; [reflexivity|]); (split; [apply Hdone|exact Hd]).
Qed.

Lemma handle_ext self kvs levels base σ σ' ep most most' : handle_ok self kvs levels base σ ep most → (∀ k, σ k = σ' k) →
  (LocalHummockStorage.spill_offset self ≤ most' ≤ 65535)%Z → handle_ok self kvs levels base σ' ep most'.
Proof. intros [? ? ? ? ? ? ? ? [? ? ? Hv]] E Hm. split; try done; [lia|]. split; try done. intros k. by rewrite Hv. Qed.

Lemma handle_flush self kvs levels base σ ep most store id : ¬ faults → handle_ok self kvs levels base σ ep most → (most < 65535)%Z →
  ∃ self' n kvs' base', LocalHummockStorage.flush sstable create may_match_hash xxh64 size_of_Bytes sanity try_require_memory store self id = Ret (self', inr n) ∧
    handle_ok self' kvs' levels base' σ ep (most + 1) ∧ LocalHummockStorage.is_dirty self' = false.
Proof using forward table_uint table_pos may_seek.
  intros Hno H Hmost. pose proof (ho_mem _ _ _ _ _ _ _ H) as Hm. set (self0 := LocalHummockStorage.set_mem_table self (MemTable.new (MemTable.op_consistency_level (LocalHummockStorage.mem_table self)))).
  assert (handle_ok self0 kvs levels base base ep most) as H0.
  { destruct H, (rp_level _ _ _ _ Hm) as [log El]. split; try done. unfold self0. cbn. rewrite El. apply represents_new. }
  unfold LocalHummockStorage.flush, LocalHummockStorage.the_epoch. cbn [MemTable.drain MemTable.into_parts MemTable.buffer]. fold self0.
  destruct (ho_level _ _ _ _ _ _ _ H0) as [log El]. rewrite (ho_epoch _ _ _ _ _ _ _ H0), (ho_table _ _ _ _ _ _ _ H0), (ho_retention _ _ _ _ _ _ _ H0), El. cbn [unwrap mbind outcome_bind].
  set (buffer := MemTable.buffer (LocalHummockStorage.mem_table self)).
  rewrite (flush_loop_ok _ table_id ep None sanity base (λ k, handle_check_get self0 _ _ _ _ _ _ store k Hno H0)).
  2:{ intros _. apply Forall_forall. intros [k op] Hin. apply (btree_get_elem bytes_cmp) in Hin; [|apply Hm]. by apply (rp_old _ _ _ _ Hm). }
  cbn [mbind outcome_bind]. rewrite <-!list_fmap_compose. set (old := if LocalHummockStorage.is_flush_old_value self0 then _ else _).
  destruct (handle_flush_inner self0 kvs levels base ep most buffer old id H0 eq_refl Hmost (rp_ascending _ _ _ _ Hm)) as (self' & n & kvs' & Ef & Hok & Hd).
  { unfold old. destruct (LocalHummockStorage.is_flush_old_value self0); [by rewrite length_fmap|done]. }
  change ((fst ∘ λ p, LocalHummockStorage.push p.1 p.2) <$> buffer) with ((λ p : TableKey.t * KeyOp.t, (LocalHummockStorage.push p.1 p.2).1) <$> buffer). rewrite Ef.
  cbn [mbind outcome_bind]. exists self', n, kvs', (overlay buffer base). split; [done|]. split; [|done].
  eapply handle_ext; [exact Hok|apply Hm|]. pose proof (ho_spill _ _ _ _ _ _ _ Hok). lia.
Qed.

(** [try_flush] does not flush more often than an epoch has room for. *)
Lemma handle_try_flush self kvs levels base σ ep most store id : ¬ faults → handle_ok self kvs levels base σ ep most →
  ∃ self' kvs' base', LocalHummockStorage.try_flush sstable create may_match_hash xxh64 size_of_Bytes sanity try_require_memory store self id = Ret (self', inr tt) ∧
    handle_ok self' kvs' levels base' σ ep (Z.min (most + 1) 65535).
Proof using forward table_uint table_pos may_seek.
  intros Hno H. pose proof (ho_spill _ _ _ _ _ _ _ H) as Ho. unfold LocalHummockStorage.try_flush. assert (handle_ok self kvs levels base σ ep (Z.min (most + 1) 65535)) as Hsame by (eapply handle_ext; [exact H|done|lia]).
  destruct (negb _ && _); [|by exists self, kvs, base]. change Epoch.MAX_SPILL_TIMES with 65535%Z. destruct (Z.ltb_spec (LocalHummockStorage.spill_offset self) 65535) as [Hlt|]; [|by exists self, kvs, base].
  destruct (handle_flush self kvs levels base σ ep (LocalHummockStorage.spill_offset self) store id Hno) as (self' & n & kvs' & base' & -> & Hok & _); [eapply handle_ext; [exact H|done|lia]|done|].
  cbn [mbind outcome_bind]. exists self', kvs', base'. split; [done|]. eapply handle_ext; [exact Hok|done|]. pose proof (ho_spill _ _ _ _ _ _ _ Hok). lia.
Qed.

Lemma handle_seal self kvs levels base σ ep most next : handle_ok self kvs levels base σ ep most → LocalHummockStorage.is_dirty self = false → live_epoch next → (ep < next)%Z →
  ∃ self', LocalHummockStorage.seal_current_epoch self next (SealCurrentEpochOptions.mk None None) = Ret self' ∧ handle_ok self' kvs levels base σ next 0.
Proof.
  intros [Ht He Hlive Ho Hlevel Hret Hopen Hfl Hmem] Hd Hnext Hlt. unfold LocalHummockStorage.seal_current_epoch, LocalHummockStorage.the_epoch. rewrite Hd.
  cbn [negb rassert mbind outcome_bind SealCurrentEpochOptions.switch_op_consistency_level SealCurrentEpochOptions.table_watermarks]. rewrite He. cbn [unwrap mbind outcome_bind].
  rewrite (proj2 (Z.ltb_lt _ _) Hlt). cbn [rassert mbind outcome_bind]. eexists. split; [reflexivity|].
  assert (flushed_ok (LocalHummockStorage.read_version self) kvs levels next (next + 0) base) as Hfl' by (rewrite Z.add_0_r; eapply flushed_seal; [exact Hlive|done|done| |exact Hfl]; lia).
  destruct (LocalHummockStorage.is_replicated _); cbn [LocalHummockStorage.send LocalHummockStorage.closed]; [|unfold LocalHummockStorage.send; cbn; rewrite Hopen]; by split.
Qed.

(** ** Sessions

    What a client does: writes ([insert] with an old value is an update), flushes, flushes if the
    mem-table is large, and commits, which flush and seal the epoch.  A flush finds the store of
    SSTs in some state and takes the next id of a batch. *)
Inductive action := Wr (w : write) | Fl (store : Store) (batch_id : Z) | TryFl (store : Store) (batch_id : Z) | Commit (store : Store) (batch_id next : Z).

Definition handle_write self (w : write) : LocalHummockStorage.t * (StorageError HummockError + unit) :=
  match w with
  | Ins k v => LocalHummockStorage.insert size_of_Bytes size_of_KeyOp sanity self k v None
  | Upd k o n => LocalHummockStorage.insert size_of_Bytes size_of_KeyOp sanity self k n (Some o)
  | Del k o => LocalHummockStorage.delete size_of_Bytes size_of_KeyOp sanity self k o
  end.

Definition act self (a : action) : outcome (LocalHummockStorage.t * (StorageError HummockError + unit)) :=
  match a with
  | Wr w => Ret (handle_write self w)
  | Fl store id =>
      '(self, r) ← LocalHummockStorage.flush sstable create may_match_hash xxh64 size_of_Bytes sanity try_require_memory store self id;
      Ret (self, match r with inl e => inl e | inr _ => inr tt end)
  | TryFl store id => LocalHummockStorage.try_flush sstable create may_match_hash xxh64 size_of_Bytes sanity try_require_memory store self id
  | Commit store id next =>
      '(self, r) ← LocalHummockStorage.flush sstable create may_match_hash xxh64 size_of_Bytes sanity try_require_memory store self id;
      match r with
      | inl e => Ret (self, inl e)
      | inr _ => self ← LocalHummockStorage.seal_current_epoch self next (SealCurrentEpochOptions.mk None None); Ret (self, inr tt)
      end
  end.

(** The actions in order, up to the first that fails. *)
Fixpoint run_actions self (acts : list action) : outcome (LocalHummockStorage.t * (StorageError HummockError + unit)) :=
  match acts with
  | [] => Ret (self, inr tt)
  | a :: acts => '(self, r) ← act self a; match r with inl e => Ret (self, inl e) | inr _ => run_actions self acts end
  end.

Definition writes_in (acts : list action) : list write := omap (λ a, match a with Wr w => Some w | _ => None end) acts.

(** Epochs go up, and no epoch is flushed explicitly more often than it has room for. *)
Fixpoint paced (ep most : Z) (acts : list action) : Prop :=
  match acts with
  | [] => True
  | Wr _ :: acts => paced ep most acts
  | Fl _ _ :: acts => (most < 65535)%Z ∧ paced ep (most + 1) acts
  | TryFl _ _ :: acts => paced ep (Z.min (most + 1) 65535) acts
  | Commit _ _ next :: acts => (most < 65535)%Z ∧ live_epoch next ∧ (ep < next)%Z ∧ paced next 0 acts
  end.

Lemma handle_write_ok self kvs levels base σ ep most w : handle_ok self kvs levels base σ ep most → consistent check σ w →
  ∃ self', handle_write self w = (self', inr tt) ∧ handle_ok self' kvs levels base (written σ w) ep most.
Proof.
  intros H Hw. destruct (apply_write_ok size_of_Bytes size_of_KeyOp sanity base check _ σ w (ho_mem _ _ _ _ _ _ _ H) Hw) as (m & Em & Hm).
  assert (handle_write self w = LocalHummockStorage.lift self (apply_write size_of_Bytes size_of_KeyOp sanity (LocalHummockStorage.mem_table self) w)) as -> by by destruct w.
  rewrite Em. eexists. split; [reflexivity|]. by destruct H.
Qed.

Lemma run_actions_ok levels acts : ¬ faults → ∀ self kvs base σ ep most,
  handle_ok self kvs levels base σ ep most → consistent_run check σ (writes_in acts) → paced ep most acts →
  ∃ self' kvs' base' ep' most', run_actions self acts = Ret (self', inr tt) ∧ handle_ok self' kvs' levels base' (foldl written σ (writes_in acts)) ep' most'.
Proof using forward table_uint table_pos may_seek.
  intros Hno. induction acts as [|a acts IH]; intros self kvs base σ ep most H Hc Hp; [by eexists _, _, _, _, _|]. cbn [run_actions].
  destruct a as [w|store id|store id|store id next]; cbn [act].
  - destruct Hc as [Hw Hc]. destruct (handle_write_ok _ _ _ _ _ _ _ w H Hw) as (self1 & -> & H1). cbn. by eapply IH.
  - destruct Hp as [Hm Hp]. destruct (handle_flush _ _ _ _ _ _ _ store id Hno H Hm) as (self1 & n & kvs1 & base1 & -> & H1 & _). cbn. by eapply IH.
  - destruct (handle_try_flush _ _ _ _ _ _ _ store id Hno H) as (self1 & kvs1 & base1 & -> & H1). cbn. by eapply IH.
  - destruct Hp as (Hm & Hn & Hlt & Hp). destruct (handle_flush _ _ _ _ _ _ _ store id Hno H Hm) as (self1 & n & kvs1 & base1 & -> & H1 & Hd). cbn [mbind outcome_bind].
    destruct (handle_seal _ _ _ _ _ _ _ next H1 Hd Hn Hlt) as (self2 & -> & H2). cbn. by eapply IH.
Qed.

(** A new handle in its first epoch. *)
Lemma handle_init rv kvs levels base ep inst log thr repl : live_epoch ep → flushed_ok rv kvs levels ep ep base →
  ∃ self, LocalHummockStorage.init (LocalHummockStorage.new inst table_id rv (OpConsistencyLevel.ConsistentOldValue check log) None repl thr false) (inr tt) ep = Ret (self, inr tt) ∧
    handle_ok self kvs levels base base ep 0.
Proof.
  intros Hep H. destruct repl; (eexists; split; [reflexivity|]); (split; try done; [by exists log|cbn; by rewrite Z.add_0_r|apply represents_new]).
Qed.

End handle.
End storage.

(** C1: a table's handle reads its own writes.  A new [LocalHummockStorage] over a read version
    that reads as a table is given any actions whose writes agree with the table: inserts, updates,
    deletes, flushes and spills to batches, and commits to later epochs.  Every action succeeds,
    and then [get] returns the value of every key, and [iter], given enough fuel, the rows of every
    range of a vnode, of the table with all the writes applied: newer batches shadow older ones,
    the mem-table shadows the batches, and a batch stays visible in the epochs that follow. *)
Theorem hummock_store_refines_table {Store Table TI : Type} {it : HummockIterator.t TI} (sstable : Store → SstableInfo.t → Store * HummockResult Table)
    (create : Table → Store → SstableInfo.t → outcome TI) (may_match_hash : Table → UserKeyRange → Z → bool) (sstable_id : Table → Z) (xxh64 : list byte → Z)
    (seeks : FullKey.t → Prop) (spec : IteratorSpec TI False seeks) (content : SstableInfo.t → list kv) (table_id : Z)
    (check : list byte → list byte → bool) (size_of_Bytes size_of_KeyOp : Z) (sanity : bool) (try_require_memory : nat → bool)
    (rv : HummockReadVersion.t) (kvs : list (list kv)) (levels : list Level.t) (base : table) (ep inst thr : Z) (log repl : bool) (acts : list action) :
  HummockIterator.direction TI = DirectionEnum.Forward → is_uint 32 table_id → (0 < table_id)%Z → (∀ k, in_table table_id k → seeks k) →
  live_epoch ep → flushed_ok sstable create may_match_hash sstable_id False seeks content table_id rv kvs levels ep ep base →
  consistent_run check base (writes_in acts) → paced ep 0 acts →
  let σ := foldl written base (writes_in acts) in
  ∃ self self', LocalHummockStorage.init (LocalHummockStorage.new inst table_id rv (OpConsistencyLevel.ConsistentOldValue check log) None repl thr false) (inr tt) ep = Ret (self, inr tt) ∧
    run_actions sstable create may_match_hash xxh64 size_of_Bytes size_of_KeyOp sanity try_require_memory self acts = Ret (self', inr tt) ∧
    ∀ opts, plain table_id opts →
      (∀ store k, gives False (LocalHummockStorage.get sstable create may_match_hash xxh64 store self' k opts) (λ r, r = σ k)) ∧
      ∃ n, ∀ (bh : BinaryHeap) fuel store range, n < fuel → LocalHummockStorage.one_vnode range = Ret tt → range_ordered bytes_cmp range →
        iterates sstable create False fuel (LocalHummockStorage.iter sstable create may_match_hash sstable_id xxh64 fuel store self' range opts) σ range.
Proof.
  intros Hd Hu Hpos Hseek Hep H Hc Hp σ.
  destruct (handle_init sstable create may_match_hash sstable_id False seeks content table_id check rv kvs levels base ep inst log thr repl Hep H) as (self & Hi & Hok).
  destruct (run_actions_ok sstable create may_match_hash sstable_id xxh64 False seeks Hd content table_id Hu Hpos Hseek check size_of_Bytes size_of_KeyOp sanity try_require_memory
    levels acts (λ f, f) self kvs base base ep 0 Hok Hc Hp) as (self' & kvs' & base' & ep' & most' & Hrun & Hok').
  exists self, self'. split; [exact Hi|]. split; [exact Hrun|]. intros opts Hpl. split.
  - intros store k. by eapply handle_get.
  - eexists. intros bh fuel store range Hlen Hone Hord. eapply handle_iter; [done|done|done|done|done|exact Hok'|done|done|exact Hlen].
Qed.

(** The read version of the lookup's example: a batch over a committed level. *)
Definition example_read_version : HummockReadVersion.t :=
  HummockReadVersion.mk 7 1 (StagingVersion.mk [example_batch example_groups_new 131072 2] []) example_committed false None (Bitmap.zeros 2).
Definition example_parts : list (list kv) := version_parts example_sst_content [kvs_of 7 example_groups_new] [] [example_level].

Lemma example_read_version_ok :
  read_version_ok example_open example_create (λ _ _ _, true) False (in_table 7) (spec := batch_spec 7 False) example_sst_content None 7 example_read_version
    [kvs_of 7 example_groups_new] [example_level].
Proof.
  split; [exact example_version_ok| |done|].
  - constructor; [|done]. exists 131072%Z. split; [done|]. by repeat constructor.
  - by repeat constructor.
Qed.

Lemma example_flushed :
  flushed_ok example_open example_create (λ _ _ _, true) example_sstable_id False (in_table 7) (spec := batch_spec 7 False) example_sst_content 7 example_read_version
    [kvs_of 7 example_groups_new] [example_level] 196608 196608 (table_of 7 196608 example_parts).
Proof.
  pose proof example_version_ok as Hv. split.
  - exact example_read_version_ok.
  - done.
  - exact example_asked.
  - destruct example_scanned_ok as (_ & Hk & _). by apply Forall_app in Hk as [Hk _].
  - by repeat constructor.
  - apply table_of_ok; [|apply Hv|apply Hv|exact (version_uint _ _ _ _ _ _ _ _ _ _ _ Hv)]. repeat constructor; vm_compute; done.
Qed.

Abbreviation example_key b := ([Byte.x00; Byte.x00; b] : TableKey.t).
Definition example_actions : list action :=
  [Wr (Upd (example_key Byte.x01) [Byte.x0b] [Byte.x0c]); TryFl tt 3; Fl tt 4; Wr (Del (example_key Byte.x01) [Byte.x0c]); Commit tt 5 262144;
   Wr (Ins (example_key Byte.x03) [Byte.x0d]); Fl tt 6; Wr (Del (example_key Byte.x02) [Byte.x02])].

Lemma hummock_store_refines_table_witness :
  ∃ self self', LocalHummockStorage.init (LocalHummockStorage.new 1 7 example_read_version (OpConsistencyLevel.ConsistentOldValue CHECK_BYTES_EQUAL true) None false 8 false) (inr tt) 196608 = Ret (self, inr tt) ∧
    run_actions example_open example_create (λ _ _ _, true) (λ _, 0%Z) 32 72 true (λ _, true) self example_actions = Ret (self', inr tt) ∧
    gives False (LocalHummockStorage.get example_open example_create (λ _ _ _, true) (λ _, 0%Z) tt self' (example_key Byte.x01) example_options) (λ r, r = None) ∧
    gives False (LocalHummockStorage.get example_open example_create (λ _ _ _, true) (λ _, 0%Z) tt self' (example_key Byte.x03) example_options) (λ r, r = Some [Byte.x0d]).
Proof.
  destruct (hummock_store_refines_table example_open example_create (λ _ _ _, true) example_sstable_id (λ _, 0%Z) (in_table 7) (batch_spec 7 False) example_sst_content 7
    CHECK_BYTES_EQUAL 32 72 true (λ _, true) example_read_version [kvs_of 7 example_groups_new] [example_level] (table_of 7 196608 example_parts) 196608 1 8 true false example_actions
    eq_refl ltac:(done) ltac:(done) ltac:(done) ltac:(done) example_flushed) as (self & self' & Hi & Hrun & Hread).
  - vm_compute. split_and!; try reflexivity; eexists; split; reflexivity.
  - vm_compute. split_and!; done.
  - exists self, self'. split; [exact Hi|]. split; [exact Hrun|]. destruct (Hread example_options ltac:(done)) as [Hget _].
    split; [eapply gives_weaken; [apply Hget|]; intros r ->; vm_compute; reflexivity|]. eapply gives_weaken; [apply Hget|]. intros r ->. vm_compute. reflexivity.
Defined.
