(* ===== verification/UploadSpec.v ===== *)
(** * Uploads and commits: theorems

    While a client writes, the batches of its table are uploaded as SSTs and the SSTs are committed
    and compacted behind its back.  [HummockReadVersion::update] takes note of both; the handle keeps
    reading the same table ([ReadVersion.v], [LocalStorage.v]). *)

From Stdlib Require Import ZArith Lia.
From stdpp Require Import gmap fin_maps.
From S2P Require Import Prelude Order Bytes Epoch Bits Bitmap Vnode Key KeySpec KeyOrder KeyRange Watermark WatermarkSpec WatermarkRange Sst SstSpec Level Split Block Iter IterSpec ConcatSpec UserIter UserIterSpec SharedBuffer SharedBufferSpec MergeImmSpec SstMeta SstIter ReadPath Version MemTable MemTableSpec StateStore StateStoreSpec ReadVersion VersionReader VersionReaderSpec VersionScanSpec ReadVersionSpec LocalStorage LocalStorageSpec.

Implicit Types (e : kv) (σ : table) (all top old new rest : list kv).

(** ** Compaction of entries *)
Definition newest_in all e : Prop := e ∈ all ∧ ∀ x, x ∈ all → ukey x = ukey e → (FullKey.epoch_with_gap x.1 ≤ FullKey.epoch_with_gap e.1)%Z.

(** [new] has the newest version of every key of [old]. *)
Definition keeps_newest old new : Prop := new ⊆ old ∧ ∀ e, newest_in old e → e ∈ new.

(** The same, but a key whose newest version is a deletion may be gone. *)
Definition compacts old new : Prop :=
  new ⊆ old ∧ ∀ e, newest_in old e → e ∈ new ∨ e.2 = HummockValue.Delete ∧ ∀ x, x ∈ new → ukey x ≠ ukey e.

Lemma newest_exists all e : e ∈ all → ∃ x, newest_in all x ∧ ukey x = ukey e.
Proof.
  revert e. induction all as [|y all IH]; intros e Hin; [by apply elem_of_nil in Hin|].
  assert ((∃ x, x ∈ all ∧ ukey x = ukey e) → ∃ x, newest_in (y :: all) x ∧ ukey x = ukey e) as Hrest.
  { intros (x & Hx & Hxe). destruct (IH x Hx) as (z & [Hz Hmax] & Hzx).
    destruct (decide (ukey y = ukey e ∧ (FullKey.epoch_with_gap z.1 < FullKey.epoch_with_gap y.1)%Z)) as [[Hy Hlt]|Hno].
    - exists y. split; [|done]. split; [by left|]. intros w [-> |Hw]%elem_of_cons Hwy; [lia|]. specialize (Hmax w Hw ltac:(congruence)). lia.
    - exists z. split; [|congruence]. split; [by right|]. intros w [-> |Hw]%elem_of_cons Hwz; [|by apply Hmax].
      destruct (Z.lt_ge_cases (FullKey.epoch_with_gap z.1) (FullKey.epoch_with_gap y.1)); [|done]. exfalso. apply Hno. split; [congruence|done]. }
  apply elem_of_cons in Hin as [-> |Hin]; [|apply Hrest; by exists e].
  destruct (decide (Exists (λ x, ukey x = ukey y) all)) as [(x & Hx & Hxy)%Exists_exists|Hno]; [apply Hrest; by exists x|].
  exists y. split; [|done]. split; [by left|]. intros w [-> |Hw]%elem_of_cons Hwy; [lia|]. destruct Hno. apply Exists_exists. by exists w.
Qed.

(** Compaction does not change what a reader of all the entries reads. *)
Lemma compacts_reads table_id ep old new σ : compacts old new → coherent old → Forall (λ e, readable 0 ep e = true) old →
  reads_table table_id ep old σ → reads_table table_id ep new σ.
Proof.
  intros [Hsub Hnew] Hc Hread Hr k v. rewrite <-(Hr k v). rewrite Forall_forall in Hread. split; intros (fk & H1 & H2 & H3 & H4); exists fk.
  - split_and!; [by apply Hsub|done|done|]. intros x Hx _ Hu. destruct (newest_exists old x Hx) as (z & Hz & Hzx). destruct Hz as [Hzin Hmax].
    destruct (Hnew z (conj Hzin Hmax)) as [Hin|[_ Hno]]; [|destruct (Hno _ H1); cbn; congruence].
    specialize (Hmax x Hx (eq_sym Hzx)). specialize (H4 z Hin (Hread z Hzin) ltac:(congruence)). lia.
  - assert (newest_in old (fk, HummockValue.Put v)) as Hn by (split; [done|]; intros x Hx Hu; apply H4; [done|by apply Hread|done]).
    destruct (Hnew _ Hn) as [Hin|[? _]]; [|done]. split_and!; [done..|]. intros x Hx Hrx. apply H4; [by apply Hsub|done].
Qed.

(** In the middle the newest versions have to stay; at the bottom deletions may go. *)
Lemma keeps_newest_compacts top old new rest : keeps_newest old new → compacts (top ++ old ++ rest) (top ++ new ++ rest).
Proof.
  intros [Hsub Hnew]. split; [set_solver|]. intros e [Hin Hmax]. left. rewrite !elem_of_app in Hin |- *.
  destruct Hin as [?|[Hin|?]]; [by left|right; left|by (right; right)]. apply Hnew. split; [done|]. intros x Hx. apply Hmax. rewrite !elem_of_app. by right; left.
Qed.

Lemma compacts_below top old new : compacts old new → newer top old → coherent (top ++ old) → compacts (top ++ old) (top ++ new).
Proof.
  intros [Hsub Hnew] Ht Hc. split; [set_solver|]. intros e [Hin Hmax]. pose proof Hin as Hin'. rewrite elem_of_app in Hin'. destruct (decide (e ∈ top)) as [|Hnt]; [left; by apply elem_of_app; left|].
  destruct Hin' as [?|Hold]; [done|]. destruct (Hnew e) as [?|[Hd Hno]]; [split; [done|]; intros x Hx; apply Hmax, elem_of_app; by right|left; apply elem_of_app; by right|].
  right. split; [done|]. intros x [Hx|Hx]%elem_of_app Hu; [|by apply (Hno x Hx)]. destruct Hnt.
  assert (x ∈ top ++ old) as Hx' by (apply elem_of_app; by left). specialize (Hmax x Hx' Hu). specialize (Ht x e Hx Hold Hu).
  assert (x = e) as <-; [|done]. apply (Hc x e Hx' Hin). destruct x as [[xu xe] ?], e as [[eu ee] ?]; cbn in *. f_equal; [done|lia].
Qed.

(** ** Parts *)
Lemma newer_join (ls1 ls2 : list (list kv)) : StronglySorted newer (ls1 ++ ls2) → newer (mjoin ls1) (mjoin ls2).
Proof.
  intros (Hx & _ & _)%StronglySorted_app x y (l1 & H1 & Hl1)%list_elem_of_join (l2 & H2 & Hl2)%list_elem_of_join. by apply (Hx l1 l2).
Qed.

Section own.
Context (table_id : Z).

(** The entries of the table: an SST has those of other tables too. *)
Definition own_entry e : Prop := UserKey.table_id (ukey e) = table_id.
#[global] Instance own_entry_dec e : Decision (own_entry e).
Proof. unfold own_entry. apply _. Defined.
Abbreviation own := (filter own_entry).

Lemma reads_own ep all σ : reads_table table_id ep (own all) σ ↔ reads_table table_id ep all σ.
Proof.
  assert (∀ k fk v, is_row 0 ep (λ u, bool_decide (u = UserKey.mk table_id k)) (own all) fk v ↔ is_row 0 ep (λ u, bool_decide (u = UserKey.mk table_id k)) all fk v) as H.
  { intros k fk v. apply key_row_ext. intros x Hx. rewrite list_elem_of_filter. unfold own_entry. rewrite Hx. naive_solver. }
  split; intros Hr k v; [rewrite <-(Hr k v)|rewrite <-(Hr k v)]; split; intros [fk Hf]; exists fk; by apply H.
Qed.

(** Below parts with entries of the table only, parts may be replaced by others in order, whose
    entries of the table were there. *)
Lemma replace_parts (A B B' C : list (list kv)) : StronglySorted newer (A ++ B ++ C) → coherent (mjoin (A ++ B ++ C)) → Forall own_entry (mjoin A) →
  own (mjoin B') ⊆ mjoin B → StronglySorted newer (B' ++ C) → coherent (mjoin (B' ++ C)) →
  StronglySorted newer (A ++ B' ++ C) ∧ coherent (mjoin (A ++ B' ++ C)).
Proof.
  rewrite !join_app. intros Hs Hc HA Hsub HB' Hc'. pose proof (newer_join _ _ Hs) as Hn. rewrite join_app in Hn. rewrite Forall_forall in HA.
  assert (∀ x y, x ∈ mjoin A → y ∈ mjoin B' ++ mjoin C → ukey x = ukey y → y ∈ mjoin B ++ mjoin C) as Hin.
  { intros x y Hx [Hy|Hy]%elem_of_app Hu; apply elem_of_app; [left|by right]. apply Hsub, list_elem_of_filter. split; [|done]. unfold own_entry. rewrite <-Hu. by apply HA. }
  split.
  - apply StronglySorted_app. split; [|split; [by apply StronglySorted_app in Hs as (_ & ? & _)|done]]. intros a l Ha Hl x y Hx Hy Hu.
    assert (x ∈ mjoin A) as Hx' by (apply list_elem_of_join; by exists a). apply Hn; [done| |done]. apply (Hin x); [done| |done].
    rewrite <-join_app. apply list_elem_of_join. by exists l.
  - intros x y [Hx|Hx]%elem_of_app [Hy|Hy]%elem_of_app Hk.
    + apply Hc; [apply elem_of_app; by left..|done].
    + apply Hc; [apply elem_of_app; by left|apply elem_of_app; right; apply (Hin x); [done|done|by rewrite Hk]|done].
    + apply Hc; [apply elem_of_app; right; apply (Hin y); [done|done|by rewrite Hk]|apply elem_of_app; by left|done].
    + by apply Hc'.
Qed.
End own.

Section maintain.
Context {Store Table TI : Type} {it : HummockIterator.t TI}
  (sstable : Store → SstableInfo.t → Store * HummockResult Table)
  (create : Table → Store → SstableInfo.t → outcome TI)
  (may_match_hash : Table → UserKeyRange → Z → bool)
  (sstable_id : Table → Z)
  (faults : Prop) (seeks : FullKey.t → Prop) {spec : IteratorSpec TI faults seeks}
  (content : SstableInfo.t → list kv) (table_id : Z).
Implicit Types (rv : HummockReadVersion.t) (kvs : list (list kv)) (levels : list Level.t) (s : StagingSstableInfo.t).
Abbreviation flushed_ok' := (flushed_ok sstable create may_match_hash sstable_id faults seeks content table_id).
Abbreviation searchable' := (searchable sstable create may_match_hash faults seeks content None).
Abbreviation level_searchable' := (level_searchable sstable create may_match_hash faults seeks content None).
Abbreviation parts_of rv kvs levels := (version_parts content kvs (staging_ssts rv) levels).
Abbreviation all_of rv kvs levels := (mjoin (parts_of rv kvs levels)).
Abbreviation own := (filter (own_entry table_id)).
Abbreviation imms rv := (StagingVersion.imm (HummockReadVersion.staging rv)).
Abbreviation ssts rv := (StagingVersion.sst (HummockReadVersion.staging rv)).

(** Entries that may stand in a read version. *)
Definition entries_ok (bound : Z) (l : list kv) : Prop := Forall key_ok l ∧ ids_ok l ∧ Forall (λ e, FullKey.epoch_with_gap e.1 < bound)%Z l.

Lemma entries_ok_app bound l1 l2 : entries_ok bound (l1 ++ l2) ↔ entries_ok bound l1 ∧ entries_ok bound l2.
Proof. unfold entries_ok, ids_ok. rewrite !Forall_app. naive_solver. Qed.

Lemma flushed_entries rv kvs levels ep bound base : flushed_ok' rv kvs levels ep bound base → entries_ok bound (all_of rv kvs levels).
Proof. intros H. split_and!; [apply H|exact (rv_ids _ _ _ _ _ _ _ _ _ _ _ (fo_version _ _ _ _ _ _ _ _ _ _ _ _ _ _ H))|apply H]. Qed.

(** A read version with the entries of the table compacted reads as the same table. *)
Lemma flushed_compacts rv kvs levels rv' kvs' levels' ep bound base : live_epoch ep → (bound ≤ ep + 65536)%Z → flushed_ok' rv kvs levels ep bound base →
  Forall2 (imm_holds table_id) (imms rv') kvs' → Forall2 imm_from (imms rv') kvs' → Forall searchable' (staging_ssts rv') → Forall (sst_from content) (ssts rv') →
  PinnedVersion.is_valid (HummockReadVersion.committed rv') = true → PinnedVersion.levels (HummockReadVersion.committed rv') table_id = Ret levels' →
  Forall level_searchable' levels' → Forall (gives_asked sstable sstable_id) (mjoin (Level.table_infos <$> levels')) →
  HummockReadVersion.table_watermarks rv' = None →
  StronglySorted newer (parts_of rv' kvs' levels') → coherent (all_of rv' kvs' levels') → entries_ok bound (all_of rv' kvs' levels') →
  compacts (own (all_of rv kvs levels)) (own (all_of rv' kvs' levels')) → flushed_ok' rv' kvs' levels' ep bound base.
Proof.
  intros Hep Hb H Hi Hif Hs Hsf Hv Hl Hls Ha Hw Hn Hc (Hk & Hids & Hbelow) Hcomp. pose proof (flushed_entries _ _ _ _ _ _ H) as (Hk0 & _ & Hb0). split; try done.
  apply reads_own. eapply compacts_reads; [exact Hcomp| | |apply reads_own, H].
  - eapply coherent_sub; [|exact (vo_coherent _ _ _ _ _ _ _ _ _ _ _ (rv_version _ _ _ _ _ _ _ _ _ _ _ (fo_version _ _ _ _ _ _ _ _ _ _ _ _ _ _ H)))].
    intros e [_ He]%list_elem_of_filter. exact He.
  - rewrite Forall_forall in Hk0, Hb0 |- *. intros e [_ He]%list_elem_of_filter. destruct (Hk0 e He) as [_ Hu]. specialize (Hb0 e He). cbn in Hb0.
    destruct (live_below ep _ Hep Hu ltac:(lia)) as [H0 H1]. unfold readable. apply andb_true_iff. split; by apply Z.leb_le.
Qed.

Lemma imms_own (l : list SharedBufferBatch.t) kvs : Forall2 (imm_holds table_id) l kvs → Forall (own_entry table_id) (mjoin kvs).
Proof.
  induction 1 as [|imm l' imms kvs (_ & (gs & _ & _ & ->) & _) _ IH]; [constructor|]. rewrite join_cons. apply Forall_app_2; [|exact IH].
  apply Forall_forall. by intros e (g & v & _ & _ & ->)%kvs_elem.
Qed.

(** ** Uploads *)

Lemma pop_imms_ok (young old : list SharedBufferBatch.t) : HummockReadVersion.pop_imms (young ++ old) (reverse (HummockReadVersion.batch_id <$> old)) = Ret young.
Proof.
  induction old as [|imm old IH] using rev_ind; [by rewrite app_nil_r|]. rewrite fmap_app, reverse_app. cbn [fmap list_fmap reverse app HummockReadVersion.pop_imms rev_append].
  rewrite app_assoc, last_snoc. cbn [unwrap mbind outcome_bind]. rewrite Z.eqb_refl. cbn [rassert mbind outcome_bind].
  rewrite length_app, Nat.add_sub, take_app_length. exact IH.
Qed.

(** An upload of the batches after the first [n]: its SSTs have the newest versions of their
    entries, are newer than what was uploaded before, and can be read. *)
Record upload_ok rv kvs levels (bound : Z) s (n : nat) : Prop := {
  up_ids : StagingSstableInfo.imm_ids s !! HummockReadVersion.instance_id rv = Some (HummockReadVersion.batch_id <$> drop n (imms rv));
  up_ssts : Forall searchable' (StagingSstableInfo.sstable_infos s);
  up_from : sst_from content s;
  up_keeps : keeps_newest (mjoin (drop n kvs)) (own (mjoin (content <$> StagingSstableInfo.sstable_infos s)));
  up_entries : entries_ok bound (mjoin (content <$> StagingSstableInfo.sstable_infos s));
  up_newer : StronglySorted newer ((content <$> StagingSstableInfo.sstable_infos s) ++ parts_of rv [] levels);
  up_coherent : coherent (mjoin ((content <$> StagingSstableInfo.sstable_infos s) ++ parts_of rv [] levels))
}.

Lemma flushed_upload rv kvs levels ep bound base s n : live_epoch ep → (bound ≤ ep + 65536)%Z → flushed_ok' rv kvs levels ep bound base →
  upload_ok rv kvs levels bound s n →
  ∃ rv', HummockReadVersion.update rv (VersionUpdate.StagingSst s) = Ret rv' ∧ flushed_ok' rv' (take n kvs) levels ep bound base.
Proof.
  intros Hep Hb H U. pose proof (fo_version _ _ _ _ _ _ _ _ _ _ _ _ _ _ H) as Hrv. pose proof (rv_version _ _ _ _ _ _ _ _ _ _ _ Hrv) as Hv.
  cbn [HummockReadVersion.update]. rewrite (up_ids _ _ _ _ _ _ U).
  pose proof (pop_imms_ok (take n (imms rv)) (drop n (imms rv))) as Hpop. rewrite take_drop in Hpop. rewrite Hpop. cbn [mbind outcome_bind].
  eexists. split; [reflexivity|]. set (rv' := HummockReadVersion.set_staging _ _). set (infos := StagingSstableInfo.sstable_infos s) in *.
  pose proof (vo_imms _ _ _ _ _ _ _ _ _ _ _ Hv : Forall2 (imm_holds table_id) (imms rv) kvs) as Hi.
  assert (parts_of rv' (take n kvs) levels = take n kvs ++ (content <$> infos) ++ parts_of rv [] levels) as E.
  { unfold version_parts, rv', staging_ssts. cbn. fold infos. by rewrite !fmap_app, <-!app_assoc. }
  assert (parts_of rv kvs levels = take n kvs ++ drop n kvs ++ parts_of rv [] levels) as E0 by (unfold version_parts; by rewrite app_assoc, take_drop).
  pose proof (vo_newer _ _ _ _ _ _ _ _ _ _ _ Hv : StronglySorted newer (parts_of rv kvs levels)) as Hn.
  pose proof (vo_coherent _ _ _ _ _ _ _ _ _ _ _ Hv : coherent (all_of rv kvs levels)) as Hc. pose proof (flushed_entries _ _ _ _ _ _ H) as He.
  rewrite E0 in Hn, Hc, He. rewrite !join_app in He. apply entries_ok_app in He as [He1 He2]. apply entries_ok_app in He2 as [_ He2].
  destruct (replace_parts table_id (take n kvs) (drop n kvs) (content <$> infos) (parts_of rv [] levels) Hn Hc) as [Hn' Hc'].
  - eapply imms_own. by apply Forall2_take.
  - apply (up_keeps _ _ _ _ _ _ U).
  - apply U.
  - apply U.
  - eapply (flushed_compacts rv kvs levels rv'); try apply Hv; try done; rewrite ?E; try done.
    + by apply Forall2_take.
    + apply Forall2_take, Hrv.
    + change (staging_ssts rv') with (infos ++ staging_ssts rv). apply Forall_app_2; [apply U|apply Hv].
    + constructor; [apply U|apply Hrv].
    + apply H.
    + apply H.
    + rewrite !join_app, !entries_ok_app. split; [done|]. split; [apply U|done].
    + rewrite E0, !join_app, !filter_app. rewrite (filter_all _ (mjoin (drop n kvs))).
      * apply keeps_newest_compacts, U.
      * apply Forall_forall. eapply imms_own. by apply Forall2_drop.
Qed.

(** ** Commits *)

Lemma rfilter_parts {A} (P : A → outcome bool) xs ys : Forall (λ x, P x = Ret true) xs → Forall (λ y, P y = Ret false) ys → rfilter P (xs ++ ys) = Ret xs.
Proof.
  intros Hx Hy. induction Hx as [|x xs E _ IH]; cbn; [induction Hy as [|y ys E _ IH]; [done|]; cbn|]; rewrite E, IH; done.
Qed.

Abbreviation infos_of l := (mjoin (StagingSstableInfo.sstable_infos <$> l)).
Abbreviation level_infos levels := (mjoin (Level.table_infos <$> levels)).

(** A version committed up to an epoch: the batches and the uploads [kept] are later, the uploads
    [dropped] are not, and their entries are compacted with those committed before into the new
    levels, which can be read and are older than what is kept. *)
Record commit_ok rv levels (bound : Z) (version : HummockVersionCommon.t) levels' (kept dropped : list StagingSstableInfo.t) (committed : Z) : Prop := {
  cm_table : HummockReadVersion.table_id rv = table_id;
  cm_epoch : HummockVersionCommon.table_committed_epoch version table_id = Some committed;
  cm_imms : Forall (λ imm, ∃ m, SharedBufferBatch.min_epoch imm = Ret m ∧ (committed < m)%Z) (imms rv);
  cm_ssts : ssts rv = kept ++ dropped;
  cm_kept : Forall (λ s, ∃ hi lo, head (StagingSstableInfo.epochs s) = Some hi ∧ last (StagingSstableInfo.epochs s) = Some lo ∧ (committed < hi)%Z ∧ (committed < lo)%Z) kept;
  cm_dropped : Forall (λ s, ∃ hi, head (StagingSstableInfo.epochs s) = Some hi ∧ (hi ≤ committed)%Z) dropped;
  cm_watermarks : HummockVersionCommon.table_watermarks (HummockReadVersion.committed rv) !! table_id = None;
  cm_valid : PinnedVersion.is_valid version = true;
  cm_levels : PinnedVersion.levels version table_id = Ret levels';
  cm_level : Forall level_searchable' levels';
  cm_asked : Forall (gives_asked sstable sstable_id) (level_infos levels');
  cm_compacts : compacts (own (mjoin (content <$> infos_of dropped ++ level_infos levels))) (own (mjoin (content <$> level_infos levels')));
  cm_entries : entries_ok bound (mjoin (content <$> level_infos levels'));
  cm_newer : StronglySorted newer (content <$> infos_of kept ++ level_infos levels');
  cm_coherent : coherent (mjoin (content <$> infos_of kept ++ level_infos levels'))
}.

Lemma update_commit rv levels bound version levels' kept dropped committed : commit_ok rv levels bound version levels' kept dropped committed →
  HummockReadVersion.table_watermarks rv = None →
  HummockReadVersion.update rv (VersionUpdate.CommittedSnapshot version) =
    Ret (HummockReadVersion.mk table_id (HummockReadVersion.instance_id rv) (StagingVersion.mk (imms rv) kept) version (HummockReadVersion.is_replicated rv) None (HummockReadVersion.vnodes rv)).
Proof.
  intros C Hw. cbn [HummockReadVersion.update]. rewrite (cm_table _ _ _ _ _ _ _ _ C), (cm_epoch _ _ _ _ _ _ _ _ C), (cm_ssts _ _ _ _ _ _ _ _ C), (cm_watermarks _ _ _ _ _ _ _ _ C), Hw.
  assert (rfilter (λ imm, e ← SharedBufferBatch.min_epoch imm; if HummockReadVersion.is_replicated rv then Ret (committed <? e)%Z else rassert (committed <? e)%Z;; Ret true) (imms rv) = Ret (imms rv)) as ->.
  { rewrite <-(app_nil_r (imms rv)) at 1. apply rfilter_parts; [|constructor]. eapply Forall_impl; [apply C|]. intros imm (m & -> & Hlt). cbn.
    rewrite (proj2 (Z.ltb_lt _ _) Hlt). by destruct (HummockReadVersion.is_replicated rv). }
  cbn [mbind outcome_bind]. rewrite rfilter_parts.
  2:{ eapply Forall_impl; [apply C|]. intros x (hi & lo & -> & _ & Hlt & _). cbn. by rewrite (proj2 (Z.ltb_lt _ _) Hlt). }
  2:{ eapply Forall_impl; [apply C|]. intros x (hi & -> & Hle). cbn. by rewrite (proj2 (Z.ltb_ge _ _) Hle). }
  cbn [mbind outcome_bind].
  assert (rfilter (λ s : StagingSstableInfo.t, e ← unwrap (last (StagingSstableInfo.epochs s)); Ret (negb (committed <? e)%Z)) kept = Ret []) as ->.
  { apply (rfilter_parts _ []); [constructor|]. eapply Forall_impl; [apply C|]. intros x (hi & lo & _ & -> & _ & Hlt). cbn. by rewrite (proj2 (Z.ltb_lt _ _) Hlt). }
  cbn. unfold HummockReadVersion.set_watermarks, HummockReadVersion.set_staging, HummockReadVersion.set_committed. cbn. by rewrite (cm_table _ _ _ _ _ _ _ _ C).
Qed.

Lemma flushed_commit rv kvs levels ep bound base version levels' kept dropped committed : live_epoch ep → (bound ≤ ep + 65536)%Z → flushed_ok' rv kvs levels ep bound base →
  commit_ok rv levels bound version levels' kept dropped committed →
  ∃ rv', HummockReadVersion.update rv (VersionUpdate.CommittedSnapshot version) = Ret rv' ∧ flushed_ok' rv' kvs levels' ep bound base.
Proof.
  intros Hep Hb H C. pose proof (fo_version _ _ _ _ _ _ _ _ _ _ _ _ _ _ H) as Hrv. pose proof (rv_version _ _ _ _ _ _ _ _ _ _ _ Hrv) as Hv.
  rewrite (update_commit _ _ _ _ _ _ _ _ C (fo_watermarks _ _ _ _ _ _ _ _ _ _ _ _ _ _ H)). eexists. split; [reflexivity|]. set (rv' := HummockReadVersion.mk _ _ _ _ _ _ _).
  pose proof (vo_imms _ _ _ _ _ _ _ _ _ _ _ Hv : Forall2 (imm_holds table_id) (imms rv) kvs) as Hi.
  set (K := content <$> infos_of kept). set (D := content <$> infos_of dropped ++ level_infos levels). set (D' := content <$> level_infos levels').
  assert (staging_ssts rv = infos_of kept ++ infos_of dropped) as Es by (unfold staging_ssts; by rewrite (cm_ssts _ _ _ _ _ _ _ _ C), fmap_app, join_app).
  assert (parts_of rv' kvs levels' = kvs ++ (K ++ D') ++ []) as E by (unfold version_parts, K, D'; by rewrite fmap_app, app_nil_r).
  assert (parts_of rv kvs levels = kvs ++ (K ++ D) ++ []) as E0 by (unfold version_parts, K, D; by rewrite Es, !fmap_app, <-!app_assoc, app_nil_r).
  pose proof (vo_newer _ _ _ _ _ _ _ _ _ _ _ Hv : StronglySorted newer (parts_of rv kvs levels)) as Hn.
  pose proof (vo_coherent _ _ _ _ _ _ _ _ _ _ _ Hv : coherent (all_of rv kvs levels)) as Hc. pose proof (flushed_entries _ _ _ _ _ _ H) as He.
  pose proof (cm_newer _ _ _ _ _ _ _ _ C) as Hn2. pose proof (cm_coherent _ _ _ _ _ _ _ _ C) as Hc2. rewrite fmap_app in Hn2, Hc2. fold K D' in Hn2, Hc2.
  destruct (cm_compacts _ _ _ _ _ _ _ _ C) as [Hsub _]. fold D D' in Hsub. rewrite E0 in Hn, Hc, He.
  destruct (replace_parts table_id kvs (K ++ D) (K ++ D') [] Hn Hc) as [Hn' Hc']; [by eapply imms_own| |by rewrite app_nil_r..|].
  { rewrite !join_app, filter_app. intros e [[_ ?]%list_elem_of_filter|Hx]%elem_of_app; apply elem_of_app; [by left|right]. by apply Hsub, list_elem_of_filter in Hx as [_ ?]. }
  rewrite !join_app, app_nil_r, !entries_ok_app in He. destruct He as (He1 & He2 & _).
  eapply (flushed_compacts rv kvs levels rv'); try apply C; try done; rewrite ?E; try done.
  - apply Hrv.
  - change (staging_ssts rv') with (infos_of kept). pose proof (vo_ssts _ _ _ _ _ _ _ _ _ _ _ Hv : Forall searchable' (staging_ssts rv)) as Hs. rewrite Es in Hs. by apply Forall_app in Hs as [Hs _].
  - pose proof (rv_ssts _ _ _ _ _ _ _ _ _ _ _ Hrv) as Hs. rewrite (cm_ssts _ _ _ _ _ _ _ _ C) in Hs. by apply Forall_app in Hs as [Hs _].
  - rewrite !join_app, app_nil_r, !entries_ok_app. split; [done|]. split; [done|apply C].
  - rewrite E0. rewrite !app_nil_r, !app_assoc, !(join_app (kvs ++ K)), !filter_app. rewrite !app_nil_r, app_assoc in Hn, Hc.
    apply compacts_below; [apply C| |].
    + pose proof (newer_join _ _ Hn) as Hkd. intros x y [_ Hx]%list_elem_of_filter [_ Hy]%list_elem_of_filter. by apply Hkd.
    + rewrite <-filter_app, <-join_app. eapply coherent_sub; [|exact Hc]. by intros e [_ He]%list_elem_of_filter.
Qed.
End maintain.

(** ** The handle *)
Section handle.
Context {Store Table TI : Type} {it : HummockIterator.t TI}
  (sstable : Store → SstableInfo.t → Store * HummockResult Table)
  (create : Table → Store → SstableInfo.t → outcome TI)
  (may_match_hash : Table → UserKeyRange → Z → bool)
  (sstable_id : Table → Z) (xxh64 : list byte → Z)
  (faults : Prop) (seeks : FullKey.t → Prop) {spec : IteratorSpec TI faults seeks}
  (content : SstableInfo.t → list kv) (table_id : Z) (check : list byte → list byte → bool)
  (forward : HummockIterator.direction TI = DirectionEnum.Forward)
  (table_uint : is_uint 32 table_id) (may_seek : ∀ k, in_table table_id k → seeks k).
Implicit Types (kvs : list (list kv)) (levels : list Level.t) (self : LocalHummockStorage.t).
Abbreviation handle_ok' := (handle_ok sstable create may_match_hash sstable_id faults seeks content table_id check).
Abbreviation bound_of self ep := (ep + LocalHummockStorage.spill_offset self)%Z.

Lemma handle_update self kvs levels base σ ep most update kvs' levels' : handle_ok' self kvs levels base σ ep most →
  (∃ rv, HummockReadVersion.update (LocalHummockStorage.read_version self) update = Ret rv ∧
    flushed_ok sstable create may_match_hash sstable_id faults seeks content table_id rv kvs' levels' ep (bound_of self ep) base) →
  ∃ self', LocalHummockStorage.update self update = Ret self' ∧ handle_ok' self' kvs' levels' base σ ep most.
Proof. intros H (rv & Hu & Hf). unfold LocalHummockStorage.update. rewrite Hu. eexists. split; [reflexivity|]. by destruct H. Qed.


End handle.

(** A batch with key 2 over a level with key 1; it is uploaded as an SST, and then committed. *)
Definition uploaded : StagingSstableInfo.t := StagingSstableInfo.mk [example_table 2 Byte.x02] [] [65536%Z] {[ 1%Z := [1%Z] ]} 8.
Definition small_level : Level.t := Level.mk 1 LevelType.Nonoverlapping [example_table 1 Byte.x01] 0 0 0 0.
Definition small_committed : HummockVersionCommon.t :=
  HummockVersionCommon.mk 1 {[ 2%Z := Levels.mk [small_level] (OverlappingLevel.mk [] 0 0) 2 0 [] ]} 0 ∅ ∅
    (HummockVersionStateTableInfo.mk {[ 7%Z := StateTableInfo.mk 0 2 ]} {[ 2%Z := {[ 7%Z ]} ]}).
Definition small_read_version (staging : StagingVersion.t) : HummockReadVersion.t := HummockReadVersion.mk 7 1 staging small_committed false None (Bitmap.zeros 2).
Definition before_upload := small_read_version (StagingVersion.mk [example_batch (example_part Byte.x02) 65536 1] []).
Definition after_upload := small_read_version (StagingVersion.mk [] [uploaded]).
Definition small_handle rv : LocalHummockStorage.t :=
  LocalHummockStorage.mk (MemTable.new (OpConsistencyLevel.ConsistentOldValue CHECK_BYTES_EQUAL false)) 0 (Some 131072%Z) 7
    (OpConsistencyLevel.ConsistentOldValue CHECK_BYTES_EQUAL false) None 1 rv false 0 [] false.
Definition small_parts : list (list kv) := version_parts example_sst_content [kvs_of 7 (example_part Byte.x02)] [] [small_level].
Abbreviation small_table := (table_of 7 131072 small_parts).

Ltac every_entry := intros x y Hx Hy; vm_compute in Hx, Hy;
  repeat (apply elem_of_cons in Hx as [-> | Hx]; [repeat (apply elem_of_cons in Hy as [-> | Hy]; [vm_compute; try done|]); by apply elem_of_nil in Hy|]); by apply elem_of_nil in Hx.

Lemma small_level_ok : Forall (level_searchable example_open example_create (λ _ _ _, true) False (in_table 7) (spec := batch_spec 7 False) example_sst_content None) [small_level].
Proof. constructor; [|constructor]. split; [apply Forall_singleton; by apply example_searchable|intros _; repeat constructor]. Qed.

Lemma small_version_ok :
  read_version_ok example_open example_create (λ _ _ _, true) False (in_table 7) (spec := batch_spec 7 False) example_sst_content None 7 before_upload
    [kvs_of 7 (example_part Byte.x02)] [small_level].
Proof.
  split; [|constructor; [|done]|done|by repeat constructor].
  - split; try done; [|exact small_level_ok|repeat constructor; every_entry|apply coherent_nodup, (bool_decide_unpack _); vm_compute; done].
    constructor; [|constructor]. split; [done|]. split; [|split; [exists 65536%Z; split; [done|]|]; by repeat constructor].
    exists (example_part Byte.x02). split; [done|]. split; [|done]. split; [done|done|]. by repeat constructor.
  - exists 65536%Z. split; [done|]. by repeat constructor.
Qed.

Abbreviation small_ok rv kvs := (flushed_ok example_open example_create (λ _ _ _, true) example_sstable_id False (in_table 7) (spec := batch_spec 7 False) example_sst_content 7
  rv kvs [small_level] 131072 131072 small_table).

Lemma before_upload_ok : small_ok before_upload [kvs_of 7 (example_part Byte.x02)].
Proof.
  pose proof small_version_ok as Hv. pose proof (rv_version _ _ _ _ _ _ _ _ _ _ _ Hv) as Hv'. split; try done.
  - apply Forall_singleton. by intros [].
  - by repeat constructor.
  - by repeat constructor.
  - apply table_of_ok; [|apply Hv'|apply Hv'|exact (version_uint _ _ _ _ _ _ _ _ _ _ _ Hv')]. by repeat constructor.
Qed.

Lemma uploaded_ok : upload_ok example_open example_create (λ _ _ _, true) False (in_table 7) (spec := batch_spec 7 False) example_sst_content 7
  before_upload [kvs_of 7 (example_part Byte.x02)] [small_level] 131072 uploaded 0.
Proof.
  split.
  - done.
  - apply Forall_singleton. by apply example_searchable.
  - exists 65536%Z. split; [done|]. intros info ->%list_elem_of_singleton. by repeat constructor.
  - split; [vm_compute; set_solver|]. intros e [He _]. exact He.
  - by split_and!; repeat constructor.
  - repeat constructor; every_entry.
  - apply coherent_nodup, (bool_decide_unpack _). vm_compute. done.
Qed.

Lemma after_upload_ok : small_ok after_upload [].
Proof.
  destruct (flushed_upload example_open example_create (λ _ _ _, true) example_sstable_id False (in_table 7) (spec := batch_spec 7 False) example_sst_content 7 before_upload
    [kvs_of 7 (example_part Byte.x02)] [small_level] 131072 131072 small_table uploaded 0 ltac:(done) ltac:(done) before_upload_ok uploaded_ok) as (rv & [= <-] & Hok). exact Hok.
Qed.

Lemma committed_ok : commit_ok example_open example_create (λ _ _ _, true) example_sstable_id False (in_table 7) (spec := batch_spec 7 False) example_sst_content 7
  after_upload [small_level] 131072 example_committed [example_level] [] [uploaded] 65536.
Proof.
  split; try done.
  - apply Forall_singleton. by exists 65536%Z.
  - exact (vo_level _ _ _ _ _ _ _ _ _ _ _ example_version_ok).
  - exact example_asked.
  - split; [vm_compute; set_solver|]. intros e [He _]. left. vm_compute in He |- *. set_solver.
  - by split_and!; repeat constructor.
  - repeat constructor; every_entry.
  - apply coherent_nodup, (bool_decide_unpack _). vm_compute. done.
Qed.

Lemma small_handle_ok rv kvs : small_ok rv kvs →
  handle_ok example_open example_create (λ _ _ _, true) example_sstable_id False (in_table 7) (spec := batch_spec 7 False) example_sst_content 7 CHECK_BYTES_EQUAL (small_handle rv) kvs
    [small_level] small_table small_table 131072 0.
Proof. intros H. split; try done; [by eexists|apply represents_new]. Qed.



(** ** Watermarks at a commit

    [update] with a committed version takes the watermarks of the version before it, together with
    the epoch of the new one: the watermark written since, which the new version has, is dropped from
    the staged ones and missing from the committed ones, and the watermark of the vnode goes back. *)
Definition all_vnodes (watermark : list byte) : VnodeWatermark.t := VnodeWatermark.mk (Bitmap.ones 2) watermark.
Definition marked (epoch : Z) (watermarks : list (Z * list VnodeWatermark.t)) : HummockVersionCommon.t :=
  HummockVersionCommon.mk 1 ∅ epoch {[ 7%Z := TableWatermarks.mk watermarks WatermarkDirection.Ascending ]} ∅
    (HummockVersionStateTableInfo.mk {[ 7%Z := StateTableInfo.mk epoch 2 ]} {[ 2%Z := {[ 7%Z ]} ]}).

Theorem commit_forgets_watermark :
  let old := marked 65536 [(65536%Z, [all_vnodes [Byte.x01]])] in
  let new := marked 131072 [(65536%Z, [all_vnodes [Byte.x01]]); (131072%Z, [all_vnodes [Byte.x02]])] in
  ∃ rv rv' rv'', HummockReadVersion.new_with_replication_option 7 1 old false (Bitmap.ones 2) = Ret rv ∧
    HummockReadVersion.update rv (VersionUpdate.NewTableWatermark WatermarkDirection.Ascending 131072 [all_vnodes [Byte.x02]]) = Ret rv' ∧
    HummockReadVersion.latest_watermark rv' 0 = Ret (Some [Byte.x02]) ∧
    HummockReadVersion.update rv' (VersionUpdate.CommittedSnapshot new) = Ret rv'' ∧
    HummockReadVersion.latest_watermark rv'' 0 = Ret (Some [Byte.x01]).
Proof. intros old new. eexists _, _, _. split; [reflexivity|]. split; [reflexivity|]. split; [reflexivity|]. split; reflexivity. Qed.
