(* ===== verification/MemoryLimiter.v ===== *)
(** * The memory limiter

    [MemoryLimiter] and [MemoryTracker] of [src/storage/src/hummock/utils.rs]: writers ask for memory
    before they make a batch, and wait in a queue when too much is in use; who gives memory back
    wakes those that wait.  Calls run concurrently, so a call is a stack of frames, one atomic
    operation each ([frame], [exec]), and a run is any interleaving of the operations of the threads
    ([run]).  A tracker is its amount; [held] are the trackers that clients have.  The theorems are
    in [MemoryLimiterSpec.v]. *)

From Stdlib Require Import ZArith Lia.
From stdpp Require Import list.
From S2P Require Import Prelude Bytes.

(** An entry of the queue; [alive] tells that its receiver is still there. *)
Module Waiter.
Record t := mk { alive : bool; amount : Z }.
Definition cancel (self : t) : t := mk false (amount self).
End Waiter.

Module MemoryLimiterInner.

(** [locked_by] is the thread that holds the mutex of [controller].  [store_buffer] is a store to
    [has_waiter] that its thread has made and that other threads do not see yet. *)
Record t := mk {
  quota : Z;
  total_size : Z;
  has_waiter : bool;
  controller : list Waiter.t;
  locked_by : option nat;
  store_buffer : option bool;
  held : list Z
}.

Definition new (quota : Z) : t := mk quota 0 false [] None None [].

Definition set_total (self : t) (n : Z) : t := mk (quota self) n (has_waiter self) (controller self) (locked_by self) (store_buffer self) (held self).
Definition set_controller (self : t) (ws : list Waiter.t) : t := mk (quota self) (total_size self) (has_waiter self) ws (locked_by self) (store_buffer self) (held self).
Definition set_held (self : t) (l : list Z) : t := mk (quota self) (total_size self) (has_waiter self) (controller self) (locked_by self) (store_buffer self) l.
Definition lock (self : t) (i : nat) : t := mk (quota self) (total_size self) (has_waiter self) (controller self) (Some i) (store_buffer self) (held self).

(** A store to [has_waiter]; a buffered one is seen by the others when it is drained. *)
Definition store_has_waiter (self : t) (b : bool) : t := mk (quota self) (total_size self) b (controller self) (locked_by self) None (held self).
Definition buffer_has_waiter (self : t) (b : bool) : t := mk (quota self) (total_size self) (has_waiter self) (controller self) (locked_by self) (Some b) (held self).
Definition drain (self : t) : t :=
  match store_buffer self with Some b => store_has_waiter self b | None => self end.

(** Leaving the mutex; stores made before are seen by then. *)
Definition unlock (self : t) : t :=
  let self := drain self in mk (quota self) (total_size self) (has_waiter self) (controller self) None (store_buffer self) (held self).

Definition release_quota (self : t) (amount : Z) : t := set_total self (wrap 64 (total_size self - amount)).
Definition add_memory (self : t) (amount : Z) : t := set_total self (wrap 64 (total_size self + amount)).
Definition permit_quota (self : t) (current_quota _request_quota : Z) : bool := (current_quota <=? quota self)%Z.

(** A tracker comes to a client. *)
Definition hand (self : t) (amount : Z) : t := set_held self (amount :: held self).

End MemoryLimiterInner.

(** Who tries to get memory: a call of [try_require_memory], of [must_require_memory], of
    [require_memory] (with [first_req]), the loop of [may_notify_waiters] (with the waiters served so
    far) or a tracker that grows. *)
Inductive purpose := ForTry | ForMust | ForRequire (first_req : bool) | ForNotify (notify_waiters : list Waiter.t) | ForIncrease (old : Z).

Inductive frame :=
| TryLoad (p : purpose) (amount : Z)
| TryExchange (p : purpose) (amount current_quota : Z)
| MustAdd (amount : Z)
| RequireLock (amount : Z)
| RequireSet (amount : Z) (first_req : bool)
| RequireClear (amount : Z)
| RequirePush (amount : Z)
| Release (amount : Z)
| NotifyCheck
| NotifyLock
| NotifyFront (notify_waiters : list Waiter.t)
| NotifyEmpty (notify_waiters : list Waiter.t)
| NotifySend (notify_waiters : list Waiter.t)
| Panicked.

Import MemoryLimiterInner.

(** What a step leaves: the limiter and the frames of the thread. *)
Abbreviation next := (t * list frame)%type.

(** *** [try_require_memory] *)

(** What its callers do with [true]. *)
Definition granted (self : t) (p : purpose) (amount : Z) (rest : list frame) : next :=
  match p with
  | ForTry | ForMust => (hand self amount, rest)
  | ForRequire first_req => if first_req then (self, RequireClear amount :: rest) else (hand (unlock self) amount, rest)
  | ForNotify notify_waiters =>
      match controller self with
      | w :: waiters => (set_controller self waiters, NotifyFront (notify_waiters ++ [w]) :: rest)
      | [] => (self, [Panicked])
      end
  | ForIncrease old => (hand self (old + amount), rest)
  end.

(** And with [false]. *)
Definition refused (self : t) (p : purpose) (amount : Z) (rest : list frame) : next :=
  match p with
  | ForTry => (self, rest)
  | ForMust => (self, MustAdd amount :: rest)
  | ForRequire _ => (self, RequirePush amount :: rest)
  | ForNotify notify_waiters => (self, NotifyEmpty notify_waiters :: rest)
  | ForIncrease old => (hand self old, rest)
  end.

(** The condition of the loop, with what was loaded. *)
Definition try_loop (self : t) (p : purpose) (amount current_quota : Z) (rest : list frame) : next :=
  if permit_quota self current_quota amount then (self, TryExchange p amount current_quota :: rest) else refused self p amount rest.

Definition try_load (self : t) (p : purpose) (amount : Z) (rest : list frame) : next := try_loop self p amount (total_size self) rest.

Definition try_exchange (self : t) (p : purpose) (amount current_quota : Z) (rest : list frame) : next :=
  if (total_size self =? current_quota)%Z then granted (set_total self (wrap 64 (current_quota + amount))) p amount rest
  else try_loop self p amount (total_size self) rest.

(** *** [require_memory] *)
Definition require_lock (self : t) (i : nat) (amount : Z) (rest : list frame) : option next :=
  match locked_by self with
  | Some _ => None
  | None => Some (lock self i, RequireSet amount (bool_decide (controller self = [])) :: rest)
  end.

(** [weak]: the store of [has_waiter] may be seen late by the other threads. *)
Definition require_set (weak : bool) (self : t) (amount : Z) (first_req : bool) (rest : list frame) : next :=
  let self := if first_req then (if weak then buffer_has_waiter self true else store_has_waiter self true) else self in
  (self, TryLoad (ForRequire first_req) amount :: rest).

Definition require_clear (self : t) (amount : Z) (rest : list frame) : next := (hand (unlock (store_has_waiter self false)) amount, rest).

Definition require_push (self : t) (amount : Z) (rest : list frame) : next :=
  (unlock (set_controller self (controller self ++ [Waiter.mk true amount])), rest).

(** *** [may_notify_waiters] *)
Definition notify_check (self : t) (rest : list frame) : next := (self, if has_waiter self then NotifyLock :: rest else rest).

Definition notify_lock (self : t) (i : nat) (rest : list frame) : option next :=
  match locked_by self with Some _ => None | None => Some (lock self i, NotifyFront [] :: rest) end.

Definition notify_front (self : t) (notify_waiters : list Waiter.t) (rest : list frame) : next :=
  match controller self with
  | w :: _ => (self, TryLoad (ForNotify notify_waiters) (Waiter.amount w) :: rest)
  | [] => (self, NotifyEmpty notify_waiters :: rest)
  end.

Definition notify_empty (self : t) (notify_waiters : list Waiter.t) (rest : list frame) : next :=
  let self := match controller self with [] => store_has_waiter self false | _ => self end in
  (unlock self, NotifySend notify_waiters :: rest).

(** A tracker that cannot be sent is dropped. *)
Definition notify_send (self : t) (notify_waiters : list Waiter.t) (rest : list frame) : next :=
  match notify_waiters with
  | [] => (self, rest)
  | w :: ws =>
      if Waiter.alive w then (hand self (Waiter.amount w), NotifySend ws :: rest)
      else (self, Release (Waiter.amount w) :: NotifySend ws :: rest)
  end.

(** One operation of thread [i]; [None] when it waits for the mutex or has panicked. *)
Definition exec (weak : bool) (self : t) (i : nat) (f : frame) (rest : list frame) : option next :=
  match f with
  | TryLoad p amount => Some (try_load self p amount rest)
  | TryExchange p amount current_quota => Some (try_exchange self p amount current_quota rest)
  | MustAdd amount => Some (hand (add_memory self amount) amount, rest)
  | RequireLock amount => require_lock self i amount rest
  | RequireSet amount first_req => Some (require_set weak self amount first_req rest)
  | RequireClear amount => Some (require_clear self amount rest)
  | RequirePush amount => Some (require_push self amount rest)
  | Release amount => Some (release_quota self amount, NotifyCheck :: rest)
  | NotifyCheck => Some (notify_check self rest)
  | NotifyLock => notify_lock self i rest
  | NotifyFront ws => Some (notify_front self ws rest)
  | NotifyEmpty ws => Some (notify_empty self ws rest)
  | NotifySend ws => Some (notify_send self ws rest)
  | Panicked => None
  end.

(** ** Calls and runs *)
Module MemoryLimiter.
Definition try_require_memory (amount : Z) : frame := TryLoad ForTry amount.
Definition must_require_memory (amount : Z) : frame := TryLoad ForMust amount.
Definition require_memory (amount : Z) : frame := RequireLock amount.
End MemoryLimiter.

Module MemoryTracker.

(** [try_increase_memory] of the tracker [old], taken from its client; [None] when there is nothing
    to do. *)
Definition try_increase_memory (old target : Z) : option frame :=
  if (target <=? old)%Z then None else Some (TryLoad (ForIncrease old) (target - old)).

Definition drop (old : Z) : frame := Release old.
End MemoryTracker.

Record system := mk_system { limiter : t; threads : list (list frame) }.

Inductive event :=
| Try (amount : Z)
| Must (amount : Z)
| Require (amount : Z)
| Increase (tracker : nat) (target : Z)
| Drop (tracker : nat)
| Step (thread : nat)
| Cancel (waiter : nat)
| CancelServed (thread frame waiter : nat)
| Drain.

Definition spawn (s : system) (f : frame) : system := mk_system (limiter s) (threads s ++ [[f]]).
Definition take_tracker (s : system) (i : nat) : option (Z * system) :=
  old ← held (limiter s) !! i; Some (old, mk_system (set_held (limiter s) (delete i (held (limiter s)))) (threads s)).

Definition cancel_in (f : frame) (j : nat) : frame :=
  match f with
  | TryLoad (ForNotify ws) a => TryLoad (ForNotify (alter Waiter.cancel j ws)) a
  | TryExchange (ForNotify ws) a c => TryExchange (ForNotify (alter Waiter.cancel j ws)) a c
  | NotifyFront ws => NotifyFront (alter Waiter.cancel j ws)
  | NotifyEmpty ws => NotifyEmpty (alter Waiter.cancel j ws)
  | NotifySend ws => NotifySend (alter Waiter.cancel j ws)
  | _ => f
  end.

Definition happens (weak : bool) (s : system) (e : event) : option system :=
  match e with
  | Try amount => Some (spawn s (MemoryLimiter.try_require_memory amount))
  | Must amount => Some (spawn s (MemoryLimiter.must_require_memory amount))
  | Require amount => Some (spawn s (MemoryLimiter.require_memory amount))
  | Increase i target =>
      '(old, s') ← take_tracker s i;
      match MemoryTracker.try_increase_memory old target with
      | Some f => Some (spawn s' f)
      | None => Some s
      end
  | Drop i => '(old, s') ← take_tracker s i; Some (spawn s' (MemoryTracker.drop old))
  | Step i =>
      fs ← threads s !! i;
      match fs with
      | [] => None
      | f :: rest => '(l, fs') ← exec weak (limiter s) i f rest; Some (mk_system l (<[i := fs']> (threads s)))
      end
  | Cancel j => Some (mk_system (set_controller (limiter s) (alter Waiter.cancel j (controller (limiter s)))) (threads s))
  | CancelServed i k j => Some (mk_system (limiter s) (alter (alter (λ f, cancel_in f j) k) i (threads s)))
  | Drain => Some (mk_system (drain (limiter s)) (threads s))
  end.

Fixpoint run (weak : bool) (s : system) (es : list event) : option system :=
  match es with
  | [] => Some s
  | e :: es => s ← happens weak s e; run weak s es
  end.

Definition start (quota : Z) : system := mk_system (new quota) [].
