(* ===== verification/MemoryLimiterSpec.v ===== *)
(** * The memory limiter: theorems

    Whatever threads do in whatever order, the limiter accounts for exactly the memory of the live
    trackers, never lets more than one request above its quota, never blocks for good, and never
    forgets a waiter ([MemoryLimiter.v]). *)

From Stdlib Require Import ZArith Lia.
From stdpp Require Import list.
From S2P Require Import Prelude Bytes MemoryLimiter.
Import MemoryLimiterInner.

Implicit Types (s : system) (self : t) (f : frame) (fs rest : list frame) (e : event).

(** ** Sums *)
Definition total_of {A} (w : A → Z) (l : list A) : Z := foldr (λ a n, w a + n)%Z 0%Z l.

Lemma total_cons {A} (w : A → Z) a l : total_of w (a :: l) = (w a + total_of w l)%Z.
Proof. done. Qed.

Lemma total_of_app {A} (w : A → Z) l1 l2 : total_of w (l1 ++ l2) = (total_of w l1 + total_of w l2)%Z.
Proof. induction l1 as [|a l1 IH]; [done|]. cbn [app]. rewrite !total_cons. lia. Qed.

Lemma total_insert {A} (w : A → Z) l i a b : l !! i = Some a → total_of w (<[i := b]> l) = (total_of w l - w a + w b)%Z.
Proof.
  intros H. rewrite <-(take_drop_middle _ _ _ H) at 2. rewrite insert_take_drop by by eapply lookup_lt_Some. rewrite !total_of_app, !total_cons. lia.
Qed.

Lemma total_delete {A} (w : A → Z) l i a : l !! i = Some a → total_of w (delete i l) = (total_of w l - w a)%Z.
Proof. intros H. rewrite <-(take_drop_middle _ _ _ H) at 2. rewrite delete_take_drop, !total_of_app, total_cons. lia. Qed.

Lemma total_alter {A} (w : A → Z) (g : A → A) l i : (∀ a, w (g a) = w a) → total_of w (alter g i l) = total_of w l.
Proof. intros H. revert i. induction l as [|a l IH]; intros [|i]; [done..| |]; cbn [alter list_alter]; rewrite !total_cons; [by rewrite H|]. f_equal. apply IH. Qed.

Lemma total_ge0 {A} (w : A → Z) l : Forall (λ a, 0 ≤ w a)%Z l → (0 ≤ total_of w l)%Z.
Proof. induction 1 as [|a l Ha _ IH]; [done|]. rewrite total_cons. lia. Qed.

(** ** What a thread has and may get *)
Abbreviation amounts := (total_of Waiter.amount).

(** What it has acquired and not handed on. *)
Definition carried_for (p : purpose) : Z := match p with ForNotify ws => amounts ws | ForIncrease old => old | _ => 0 end.
Definition carried f : Z :=
  match f with
  | TryLoad p _ | TryExchange p _ _ => carried_for p
  | RequireClear a | Release a => a
  | NotifyFront ws | NotifyEmpty ws | NotifySend ws => amounts ws
  | _ => 0
  end.

(** What it has asked for; the front of the queue is asked for by its waiter. *)
Definition asked f : Z :=
  match f with
  | TryLoad (ForNotify _) _ | TryExchange (ForNotify _) _ _ => 0
  | TryLoad _ a | TryExchange _ a _ | MustAdd a | RequireLock a | RequireSet a _ | RequirePush a => a
  | _ => 0
  end.

Definition load s : Z := (total_of id (held (limiter s)) + total_of (total_of carried) (threads s))%Z.
Definition demand s : Z := (load s + amounts (controller (limiter s)) + total_of (total_of asked) (threads s))%Z.

(** What an event asks for. *)
Definition asks s e : Z :=
  match e with
  | Try a | Must a | Require a => a
  | Increase i target => match held (limiter s) !! i with Some old => Z.max 0 (target - old) | None => 0 end
  | _ => 0
  end.

(** ** Frames under the mutex *)
Definition locked f : bool :=
  match f with
  | TryLoad (ForRequire _ | ForNotify _) _ | TryExchange (ForRequire _ | ForNotify _) _ _ | RequireSet _ _ | RequireClear _ | RequirePush _
  | NotifyFront _ | NotifyEmpty _ => true
  | _ => false
  end.

(** Threads that will look at the queue. *)
Definition notifies f : bool :=
  match f with NotifyCheck | NotifyLock | NotifyFront _ | TryLoad (ForNotify _) _ | TryExchange (ForNotify _) _ _ => true | _ => false end.

Definition pushes f : bool := match f with RequirePush _ => true | _ => false end.

(** The frame that a thread is in. *)
Definition at_frame s (i : nat) f : Prop := ∃ rest, threads s !! i = Some (f :: rest).

(** A waiter is in the queue or about to enter it. *)
Definition needy self (pushing : Prop) : Prop := controller self ≠ [] ∨ pushing.
Definition pushing s : Prop := ∃ i f, at_frame s i f ∧ pushes f = true.

(** What a frame knows of the limiter. *)
Definition knows self f : Prop :=
  match f with
  | RequireSet _ first_req => first_req = bool_decide (controller self = [])
  | TryLoad (ForRequire first_req) _ => first_req = bool_decide (controller self = []) ∧ has_waiter self = true
  | TryExchange (ForRequire first_req) _ cur => first_req = bool_decide (controller self = []) ∧ has_waiter self = true ∧ (cur ≤ quota self)%Z
  | TryLoad (ForNotify _) a => ∃ w ws, controller self = w :: ws ∧ Waiter.amount w = a
  | TryExchange (ForNotify _) a cur => (∃ w ws, controller self = w :: ws ∧ Waiter.amount w = a) ∧ (cur ≤ quota self)%Z
  | TryExchange _ _ cur => (cur ≤ quota self)%Z
  | RequirePush _ => has_waiter self = true
  | RequireClear _ => controller self = []
  | Panicked => False
  | _ => True
  end.

(** No amount is negative. *)
Definition sane_for (p : purpose) : Prop :=
  match p with ForNotify ws => Forall (λ w, 0 ≤ Waiter.amount w)%Z ws | ForIncrease old => (0 ≤ old)%Z | _ => True end.
Definition sane f : Prop :=
  match f with
  | TryLoad p a | TryExchange p a _ => sane_for p ∧ (0 ≤ a)%Z
  | MustAdd a | RequireLock a | RequireSet a _ | RequireClear a | RequirePush a | Release a => (0 ≤ a)%Z
  | NotifyFront ws | NotifyEmpty ws | NotifySend ws => Forall (λ w, 0 ≤ Waiter.amount w)%Z ws
  | _ => True
  end.
Definition sends f : Prop := match f with NotifySend _ => True | _ => False end.

(** The frames of thread [i]. *)
Definition frames_ok self (i : nat) fs : Prop :=
  Forall sane fs ∧
  match fs with
  | f :: rest => (locked_by self = Some i ↔ locked f = true) ∧ knows self f ∧ Forall sends rest
  | [] => locked_by self ≠ Some i
  end.

Record limiter_ok self : Prop := {
  lo_buffer : store_buffer self = None;
  lo_held : Forall (λ a, 0 ≤ a)%Z (held self);
  lo_controller : Forall (λ w, 0 ≤ Waiter.amount w)%Z (controller self);
  lo_waiter : controller self ≠ [] → has_waiter self = true
}.

Record system_ok s (bound : Z) : Prop := {
  so_limiter : limiter_ok (limiter s);
  so_total : total_size (limiter s) = load s;
  so_demand : (demand s ≤ bound)%Z;
  so_frames : ∀ i fs, threads s !! i = Some fs → frames_ok (limiter s) i fs;
  so_locked : ∀ i, locked_by (limiter s) = Some i → i < length (threads s);
  so_notify : needy (limiter s) (pushing s) → (total_size (limiter s) ≤ quota (limiter s))%Z → ∃ i f, at_frame s i f ∧ notifies f = true
}.

Lemma sends_rest_ok self i rest : Forall sane rest → Forall sends rest → locked_by self ≠ Some i → frames_ok self i rest.
Proof.
  intros Hs Hr Hl. split; [done|]. destruct Hr as [|f rest Hf Hr]; [done|]. by destruct f.
Qed.

(** Another thread's frame stays as it is when it does not hold the mutex, or the queue and
    [has_waiter] do not change. *)
Lemma frames_ok_other self self' i fs : frames_ok self i fs → quota self' = quota self →
  (locked_by self' = Some i ↔ locked_by self = Some i) →
  (locked_by self = Some i → controller self' = controller self ∧ has_waiter self' = has_waiter self) → frames_ok self' i fs.
Proof.
  intros [Hs H] Hq Hl Hc. split; [done|]. destruct fs as [|f rest]; [by rewrite Hl|]. destruct H as ([Hlock1 Hlock2] & Hk & Hr).
  split; [rewrite Hl; by split|]. split; [|done].
  destruct f as [[| | | |]|[| | | |]| | | | | | | | | | | |]; cbn [knows] in *; rewrite ?Hq; try done; destruct (Hc (Hlock2 eq_refl)) as [Ec Eh]; by rewrite ?Ec, ?Eh.
Qed.

(** A thread moves. *)
Lemma system_ok_step s bound i f rest l' fs' : system_ok s bound → threads s !! i = Some (f :: rest) → (bound < 2 ^ 64)%Z →
  quota l' = quota (limiter s) → limiter_ok l' → frames_ok l' i fs' →
  (locked_by l' = locked_by (limiter s) ∨ locked_by (limiter s) = None ∧ locked_by l' = Some i ∨ locked_by (limiter s) = Some i ∧ locked_by l' = None) →
  (locked f = false → controller l' = controller (limiter s) ∧ has_waiter l' = has_waiter (limiter s)) →
  (total_size l' - total_size (limiter s) = total_of id (held l') - total_of id (held (limiter s)) + total_of carried fs' - total_of carried (f :: rest))%Z →
  (total_of id (held l') + total_of carried fs' + amounts (controller l') + total_of asked fs' ≤
   total_of id (held (limiter s)) + total_of carried (f :: rest) + amounts (controller (limiter s)) + total_of asked (f :: rest))%Z →
  (needy l' (pushing (mk_system l' (<[i := fs']> (threads s)))) → (total_size l' ≤ quota l')%Z →
    (∃ f' rest', fs' = f' :: rest' ∧ notifies f' = true) ∨
    notifies f = false ∧ needy (limiter s) (pushing s) ∧ (total_size (limiter s) ≤ quota (limiter s))%Z) →
  system_ok (mk_system l' (<[i := fs']> (threads s))) bound.
Proof.
  intros H Hi Hb Hq Hl Hf Hlock Hkeep Ht Hd Hn. pose proof (lookup_lt_Some _ _ _ Hi) as Hlt. split; cbn [limiter threads].
  - done.
  - unfold load. cbn [limiter threads]. rewrite (total_insert _ _ _ _ _ Hi). pose proof (so_total _ _ H) as E. unfold load in E. lia.
  - unfold demand, load. cbn [limiter threads]. rewrite !(total_insert _ _ _ _ _ Hi). pose proof (so_demand _ _ H) as E. unfold demand, load in E. lia.
  - intros j fs Hj. destruct (decide (i = j)) as [<-|Hne]; [rewrite list_lookup_insert_eq in Hj by done; by injection Hj as <-|].
    rewrite list_lookup_insert_ne in Hj by done. eapply frames_ok_other; [by apply (so_frames _ _ H)|done| |].
    + destruct Hlock as [-> |[[-> ->]|[-> ->]]]; [done|split; [intros [= ?]; congruence|done]|split; [done|intros [= ?]; congruence]].
    + intros Hj'. apply Hkeep. destruct (so_frames _ _ H _ _ Hi) as (_ & [_ Hx] & _). apply not_true_is_false. intros Hlk. specialize (Hx Hlk). congruence.
  - intros j Hj. rewrite length_insert. destruct Hlock as [E|[[_ E]|[_ E]]]; [apply (so_locked _ _ H); congruence|congruence|congruence].
  - intros Hneedy Hle. destruct (Hn Hneedy Hle) as [(f' & rest' & -> & Hn')|(Hnf & Hneedy' & Hle')].
    + exists i, f'. split; [|done]. exists rest'. cbn. by rewrite list_lookup_insert_eq.
    + destruct (so_notify _ _ H Hneedy' Hle') as (j & f2 & [rest2 Hj] & Hn2). exists j, f2. split; [|done]. exists rest2. cbn.
      rewrite list_lookup_insert_ne; [done|]. intros ->. rewrite Hi in Hj. congruence.
Qed.

(** ** Steps keep the invariant *)
Lemma total_member {A} (w : A → Z) l i a : Forall (λ a, 0 ≤ w a)%Z l → l !! i = Some a → (w a ≤ total_of w l)%Z.
Proof.
  intros H Hi. rewrite <-(take_drop_middle _ _ _ Hi), total_of_app, total_cons. rewrite <-(take_drop_middle _ _ _ Hi) in H.
  apply Forall_app in H as [H1 H2]. inversion H2; subst. pose proof (total_ge0 w _ H1). pose proof (total_ge0 w (drop (S i) l) ltac:(done)). lia.
Qed.

Lemma sane_carried f : sane f → (0 ≤ carried f ∧ 0 ≤ asked f)%Z.
Proof. destruct f as [[]|[]| | | | | | | | | | | |]; cbn; intros H; destruct_and?; try (split; lia); (split; [by apply total_ge0|lia]). Qed.

Lemma sane_frames fs : Forall sane fs → (0 ≤ total_of carried fs ∧ 0 ≤ total_of asked fs)%Z.
Proof. intros H. split; apply total_ge0; (eapply Forall_impl; [exact H|]); intros f Hf%sane_carried; lia. Qed.

Lemma system_sane s bound : system_ok s bound → Forall (λ fs, 0 ≤ total_of carried fs)%Z (threads s) ∧ Forall (λ fs, 0 ≤ total_of asked fs)%Z (threads s).
Proof.
  intros H. split; apply Forall_lookup; intros i fs Hi; destruct (so_frames _ _ H i fs Hi) as [Hs _]; apply sane_frames in Hs; lia.
Qed.

(** The memory in use and what a thread or the first waiter asks for fit the demand. *)
Lemma system_room s bound i f rest : system_ok s bound → threads s !! i = Some (f :: rest) →
  (0 ≤ carried f ≤ total_size (limiter s))%Z ∧ (total_size (limiter s) + asked f ≤ bound)%Z ∧
  ∀ w ws, controller (limiter s) = w :: ws → (total_size (limiter s) + Waiter.amount w ≤ bound)%Z.
Proof.
  intros H Hi. destruct (system_sane _ _ H) as [Hc Ha]. destruct (so_frames _ _ H _ _ Hi) as [Hs _]. inversion Hs as [|? ? Hsf Hsr]; subst.
  pose proof (sane_carried _ Hsf). pose proof (sane_frames _ Hsr). pose proof (lo_held _ (so_limiter _ _ H)) as Hheld. apply (total_ge0 id) in Hheld.
  pose proof (total_member _ _ _ _ Hc Hi) as M1. pose proof (total_member _ _ _ _ Ha Hi) as M2. cbv beta in M1, M2. rewrite total_cons in M1, M2. pose proof (lo_controller _ (so_limiter _ _ H)) as Hw.
  pose proof (total_ge0 _ _ Hw). pose proof (total_ge0 _ _ Ha). pose proof (so_demand _ _ H) as Hd. rewrite (so_total _ _ H). unfold demand in Hd. unfold load in *.
  split_and!; [lia|lia|lia|]. intros w ws E. rewrite E in *. rewrite total_cons in Hd. inversion Hw; subst. pose proof (total_ge0 Waiter.amount ws ltac:(done)). lia.
Qed.

(** The thread in the mutex is the only one that may push. *)
Lemma pushing_holder s bound i f rest : system_ok s bound → threads s !! i = Some (f :: rest) → locked f = true → pushing s → pushes f = true.
Proof.
  intros H Hi Hl (j & f2 & [rest2 Hj] & Hp). destruct (so_frames _ _ H _ _ Hi) as (_ & [_ H1] & _). destruct (so_frames _ _ H _ _ Hj) as (_ & [_ H2] & _).
  specialize (H1 Hl). rewrite H2 in H1 by by destruct f2. injection H1 as ->. rewrite Hi in Hj. by injection Hj as -> _.
Qed.

Lemma pushing_after s i l' fs' : match fs' with f' :: _ => pushes f' = false | [] => True end → pushing (mk_system l' (<[i := fs']> (threads s))) → pushing s.
Proof.
  intros Hf (j & f & [rest Hj] & Hp). cbn in Hj. destruct (decide (i = j)) as [<-|Hne].
  - destruct (decide (i < length (threads s))) as [Hlt|Hge]; [rewrite list_lookup_insert_eq in Hj by done; injection Hj as ->; congruence|].
    rewrite list_insert_ge in Hj by lia. apply lookup_lt_Some in Hj. lia.
  - rewrite list_lookup_insert_ne in Hj by done. exists j, f. split; [by exists rest|done].
Qed.

Lemma sends_top rest : Forall sends rest → match rest with f' :: _ => pushes f' = false | [] => True end.
Proof. intros [|f r Hf _]; [done|]. by destruct f. Qed.

Lemma total_nil {A} (w : A → Z) : total_of w [] = 0%Z.
Proof. done. Qed.

Ltac sums :=
  cbn [hand set_held set_total set_controller lock store_has_waiter held total_size controller fst snd];
  rewrite ?total_of_app, ?total_cons, ?total_nil; cbn [carried carried_for asked Waiter.amount]; rewrite ?total_of_app, ?total_cons, ?total_nil; unfold id; lia.

Section step.
Context (s : system) (bound : Z) (i : nat) (rest : list frame) (H : system_ok s bound) (small : (bound < 2 ^ 64)%Z).
Abbreviation self := (limiter s).
Abbreviation after l fs := (system_ok (mk_system l (<[i := fs]> (threads s))) bound).

(** A frame that asks for memory. *)
Definition trying f (p : purpose) (a : Z) : Prop := f = TryLoad p a ∨ ∃ cur, f = TryExchange p a cur.

Lemma trying_facts f p a : trying f p a → knows self f →
  carried f = carried_for p ∧ asked f = asked (TryLoad p a) ∧ (sane f ↔ sane_for p ∧ (0 ≤ a)%Z) ∧ notifies f = notifies (TryLoad p a) ∧ pushes f = false ∧
  locked f = locked (TryLoad p a) ∧ knows self (TryLoad p a).
Proof using. intros [-> |[cur ->]]; destruct p; cbn; naive_solver. Qed.

Lemma refused_ok f p a : threads s !! i = Some (f :: rest) → trying f p a → (quota self < total_size self)%Z →
  after (refused self p a rest).1 (refused self p a rest).2.
Proof using H small.
  intros Hi Ht Hfull. destruct (so_frames _ _ H _ _ Hi) as (Hs & Hlk & Hk & Hr). inversion Hs as [|? ? Hsf Hsr]; subst.
  destruct (trying_facts f p a Ht Hk) as (Ec & Ea & Es & En & Ep & El & Hk'). rewrite Es in Hsf. destruct Hsf as [Hsp Hsa]. rewrite El in Hlk. clear Hk.
  pose proof (so_limiter _ _ H) as Hl. eapply (system_ok_step s bound i f rest); try done; rewrite ?total_cons, ?Ec, ?Ea, ?El, ?En.
  - by destruct p.
  - destruct p; cbn [refused fst]; try done. destruct Hl. split; try done. by constructor.
  - destruct p as [| |[]| |]; cbn [refused fst snd]; try (apply sends_rest_ok; [done|done|by rewrite Hlk]); (split; [by constructor|]); (split; [done|]); (split; [|done]); cbn in *; try done; apply Hk'.
  - left. by destruct p.
  - intros _. by destruct p.
  - destruct p; cbn [refused fst snd hand set_held held]; rewrite ?total_cons; cbn; lia.
  - destruct p; cbn [refused fst snd hand set_held held controller]; rewrite ?total_cons; cbn; unfold id; lia.
  - intros _ Hle. exfalso. destruct p; cbn in Hle; lia.
Qed.

Lemma try_loop_ok f p a : threads s !! i = Some (f :: rest) → trying f p a →
  after (try_loop self p a (total_size self) rest).1 (try_loop self p a (total_size self) rest).2.
Proof using H small.
  intros Hi Ht. unfold try_loop, permit_quota. destruct (Z.leb_spec (total_size self) (quota self)) as [Hle|Hgt]; [|by eapply refused_ok].
  destruct (so_frames _ _ H _ _ Hi) as (Hs & Hlk & Hk & Hr). inversion Hs as [|? ? Hsf Hsr]; subst.
  destruct (trying_facts f p a Ht Hk) as (Ec & Ea & Es & En & Ep & El & Hk'). rewrite Es in Hsf. rewrite El in Hlk. clear Hk.
  pose proof (so_limiter _ _ H) as Hl. eapply (system_ok_step s bound i f rest); cbn [fst snd]; try done; rewrite ?total_cons, ?Ec, ?Ea, ?El, ?En.
  - split; [by constructor|]. split; [|split; [|done]]; destruct p; cbn in *; naive_solver.
  - by left.
  - by destruct p; cbn; lia.
  - by destruct p; cbn; lia.
  - intros Hneedy _. destruct p; cbn in *; try (right; split; [done|]; split; [|done]; destruct Hneedy as [Hn|Hn%pushing_after]; [by left|by right|done]).
    left. by eexists _, _.
Qed.

(** The others see the queue as before. *)
Lemma needy_same f l' fs' : controller l' = controller self → match fs' with f' :: _ => pushes f' = false | [] => True end →
  (total_size self ≤ quota self)%Z → notifies f = false →
  needy l' (pushing (mk_system l' (<[i := fs']> (threads s)))) → notifies f = false ∧ needy self (pushing s) ∧ (total_size self ≤ quota self)%Z.
Proof using. intros Hc Hp Hle Hn Hneedy. split; [done|]. split; [|done]. destruct Hneedy as [Hx|Hx%pushing_after]; [left; by rewrite <-Hc|by right|done]. Qed.

(** A call returns with a tracker of [n]. *)
Lemma return_ok f l' n : threads s !! i = Some (f :: rest) → notifies f = false → (total_size self ≤ quota self ∨ quota self < total_size l')%Z →
  quota l' = quota self → controller l' = controller self → has_waiter l' = has_waiter self → store_buffer l' = None → held l' = n :: held self →
  (locked f = false ∧ locked_by l' = locked_by self ∨ locked f = true ∧ locked_by l' = None) →
  (0 ≤ n)%Z → (total_size l' = total_size self + n - carried f)%Z → (n ≤ carried f + asked f)%Z → after l' rest.
Proof using H small.
  intros Hi Hn Hle Eq Ec Eh Eb Ed El Hpos Et Ha. destruct (so_frames _ _ H _ _ Hi) as (Hs & Hlk & Hk & Hr). inversion Hs as [|? ? Hsf Hsr]; subst.
  pose proof (so_limiter _ _ H) as Hl. eapply (system_ok_step s bound i f rest); try done.
  - split; rewrite ?Ec, ?Eh, ?Ed; try apply Hl; [done|]. constructor; [done|apply Hl].
  - apply sends_rest_ok; [done|done|]. destruct El as [[El ->]|[El ->]]; [by rewrite Hlk, El|done].
  - destruct El as [[El ->]|[El ->]]; [by left|right; right]. split; [by apply Hlk|done].
  - rewrite Ed, !total_cons. unfold id at 1. lia.
  - rewrite Ec, Ed, !total_cons. unfold id at 1. lia.
  - intros Hneedy Hle'. right. eapply needy_same; [done|by apply sends_top| |done|exact Hneedy]. destruct Hle; [done|lia].
Qed.

Lemma granted_ok p a : threads s !! i = Some (TryExchange p a (total_size self) :: rest) →
  let r := granted (set_total self (wrap 64 (total_size self + a))) p a rest in after r.1 r.2.
Proof using H small.
  intros Hi r. unfold r. clear r. destruct (so_frames _ _ H _ _ Hi) as (Hs & Hlk & Hk & Hr). inversion Hs as [|? ? Hsf Hsr]; subst. destruct Hsf as [Hsp Hsa].
  destruct (system_room _ _ _ _ _ H Hi) as ([H0 H1] & Hroom & Hroom'). pose proof (so_limiter _ _ H) as Hl. pose proof (lo_buffer _ Hl) as Hbuf.
  assert (wrap 64 (total_size self + a) = total_size self + a)%Z as ->.
  { apply wrap_small. unfold is_uint. split; [lia|]. destruct p; cbn in Hroom; try lia. destruct Hk as [(w & ws & E & <-) _]. specialize (Hroom' w ws E). lia. }
  assert (total_size self ≤ quota self)%Z as Hle by (destruct p; cbn in Hk; naive_solver).
  destruct p as [| |[]|ws|old]; cbn [granted].
  - eapply (return_ok _ _ a Hi); cbn; try done; [by left|by left|lia..].
  - eapply (return_ok _ _ a Hi); cbn; try done; [by left|by left|lia..].
  - eapply (system_ok_step s bound i _ rest); try done; cbn [fst snd set_total held total_size controller quota locked_by].
    + by destruct Hl.
    + split; [by constructor|]. split; [done|]. split; [|done]. destruct Hk as (Hk & _). symmetry in Hk. by apply bool_decide_eq_true in Hk.
    + by left.
    + rewrite !total_cons. cbn. lia.
    + rewrite !total_cons. cbn. lia.
    + intros Hneedy _. right. eapply needy_same; [done| |done|done|exact Hneedy]. done.
  - eapply (return_ok _ _ a Hi); cbn; unfold unlock, drain; cbn; rewrite ?Hbuf; cbn; try done; [by left|by right|lia..].
  - destruct Hk as [(w & ws' & E & <-) _]. cbn [controller set_total]. rewrite E. pose proof (lo_controller _ Hl) as Hc. rewrite E in Hc. inversion Hc; subst.
    eapply (system_ok_step s bound i _ rest); try done; cbn [fst snd set_total set_controller held total_size controller quota locked_by].
    + destruct Hl as [? ? ? Hw]. split; try done. cbn. intros _. apply Hw. by rewrite E.
    + split; [constructor; [|done]; cbn; by apply Forall_app_2; [|repeat constructor]|]. by split.
    + by left.
    + rewrite !total_cons. cbn [carried carried_for]. rewrite total_of_app, total_cons. cbn. lia.
    + rewrite E, !total_cons. cbn [carried carried_for asked]. rewrite total_of_app, total_cons. cbn. lia.
    + intros _ _. left. by eexists _, _.
  - eapply (return_ok _ _ (old + a) Hi); cbn; try done; [by left|by left|cbn in Hsp; lia|lia..].
Qed.

(** No thread pushes while another holds the mutex, or while [has_waiter] is not set. *)
Lemma not_needy f l' fs' : threads s !! i = Some (f :: rest) → pushes f = false → locked f = true ∨ has_waiter self = false →
  controller l' = [] → match fs' with f' :: _ => pushes f' = false | [] => True end → ¬ needy l' (pushing (mk_system l' (<[i := fs']> (threads s)))).
Proof using H.
  intros Hi Hp Hl Hc Hf [Hx|Hx%pushing_after]; [by rewrite Hc in Hx| |done]. destruct Hl as [Hl|Hl]; [by rewrite (pushing_holder _ _ _ _ _ H Hi Hl Hx) in Hp|].
  destruct Hx as (j & f2 & [rest2 Hj] & Hp2). destruct (so_frames _ _ H _ _ Hj) as (_ & _ & Hk & _). destruct f2; try done. cbn in Hk. congruence.
Qed.

Lemma unlock_unbuffered self0 : store_buffer self0 = None →
  unlock self0 = mk (quota self0) (total_size self0) (has_waiter self0) (controller self0) None None (held self0).
Proof using. intros E. unfold unlock, drain. rewrite E. cbv zeta iota. by rewrite E. Qed.

(** *** [require_memory] *)
Lemma require_ok f l fs : threads s !! i = Some (f :: rest) → match f with RequireLock _ | RequireSet _ _ | RequireClear _ | RequirePush _ => True | _ => False end →
  exec false self i f rest = Some (l, fs) → after l fs.
Proof using H small.
  intros Hi Hf He. destruct (so_frames _ _ H _ _ Hi) as (Hs & Hlk & Hk & Hr). inversion Hs as [|? ? Hsf Hsr]; subst. pose proof (so_limiter _ _ H) as Hl. pose proof (lo_buffer _ Hl) as Hbuf.
  destruct f as [| | |a|a first|a|a| | | | | | |]; try done; cbn [exec] in He.
  - unfold require_lock in He. destruct (locked_by self) eqn:El; [done|]. injection He as <- <-. eapply (system_ok_step s bound i _ rest); try done; try sums.
    + by destruct Hl.
    + split; [by constructor|]. done.
    + right. left. done.
    + intros Hneedy Hle. right. eapply needy_same; [reflexivity| |exact Hle|reflexivity|exact Hneedy]. reflexivity.
  - injection He as <- <-. eapply (system_ok_step s bound i _ rest); try done; try (destruct first; sums).
    + by destruct first.
    + destruct first; [|done]. by destruct Hl.
    + split; [by constructor|]. cbn in Hk. split; [by destruct first|]. split; [|done]. destruct first; cbn; [done|]. split; [done|]. apply (lo_waiter _ Hl). symmetry in Hk. by apply bool_decide_eq_false in Hk.
    + left. by destruct first.
    + intros Hneedy Hle. right. eapply needy_same; [| | |reflexivity|exact Hneedy]; by destruct first.
  - injection He as <- <-. rewrite unlock_unbuffered by done. cbn in Hk. eapply (system_ok_step s bound i _ rest); try done; try sums.
    + destruct Hl. split; cbn; try done. by constructor.
    + by apply sends_rest_ok.
    + right. right. split; [by apply Hlk|done].
    + intros Hneedy. exfalso. eapply not_needy; [exact Hi|done|by left| |by apply sends_top|exact Hneedy]. done.
  - injection He as <- <-. rewrite unlock_unbuffered by done. cbn in Hk. eapply (system_ok_step s bound i _ rest); try done; try sums.
    + destruct Hl. split; cbn; try done. apply Forall_app_2; [done|by repeat constructor].
    + by apply sends_rest_ok.
    + right. right. split; [by apply Hlk|done].
    + intros _ Hle. right. split; [done|]. split; [|done]. right. eexists i, _. split; [by eexists|done].
Qed.

(** *** [may_notify_waiters] *)
Lemma notify_ok f l fs : threads s !! i = Some (f :: rest) →
  match f with Release _ | NotifyCheck | NotifyLock | NotifyFront _ | NotifyEmpty _ | NotifySend _ => True | _ => False end →
  exec false self i f rest = Some (l, fs) → after l fs.
Proof using H small.
  intros Hi Hf He. destruct (so_frames _ _ H _ _ Hi) as (Hs & Hlk & Hk & Hr). inversion Hs as [|? ? Hsf Hsr]; subst. pose proof (so_limiter _ _ H) as Hl. pose proof (lo_buffer _ Hl) as Hbuf.
  destruct f as [| | | | | | |a| | |ws|ws|ws|]; try done; cbn [exec] in He.
  - injection He as <- <-. destruct (system_room _ _ _ _ _ H Hi) as ([H0 H1] & Hroom & _). cbn in H0, H1, Hroom. unfold release_quota. rewrite wrap_small by (unfold is_uint; lia).
    eapply (system_ok_step s bound i _ rest); try done; try sums.
    + by destruct Hl.
    + split; [by constructor|]. split; [done|]. done.
    + by left.
    + intros _ _. left. by eexists _, _.
  - injection He as <- <-. destruct (has_waiter self) eqn:Eh; eapply (system_ok_step s bound i _ rest); try done; try sums.
    + by split; [constructor|].
    + by left.
    + intros _ _. left. by eexists _, _.
    + apply sends_rest_ok; [done|done|by rewrite Hlk].
    + by left.
    + intros Hneedy. exfalso. eapply (not_needy NotifyCheck self rest); [exact Hi|done|by right| |by apply sends_top|exact Hneedy].
      destruct (controller self) eqn:Ec; [done|]. pose proof (lo_waiter _ Hl) as Hw. rewrite Ec, Eh in Hw. by discriminate Hw.
  - unfold notify_lock in He. destruct (locked_by self) eqn:El; [done|]. injection He as <- <-. eapply (system_ok_step s bound i _ rest); try done; try sums.
    + by destruct Hl.
    + split; [constructor; [constructor|done]|]. done.
    + right. left. done.
    + intros _ _. left. by eexists _, _.
  - unfold notify_front in He. destruct (controller self) as [|w ws'] eqn:Ec; injection He as <- <-; eapply (system_ok_step s bound i _ rest); try done; try sums.
    + by split; [constructor|].
    + by left.
    + intros Hneedy. exfalso. eapply (not_needy (NotifyFront ws) self (NotifyEmpty ws :: rest)); [exact Hi|done|by left|done|done|exact Hneedy].
    + pose proof (lo_controller _ Hl) as Hw. rewrite Ec in Hw. inversion Hw; subst. split; [by constructor|]. split; [done|]. split; [|done]. by eexists _, _.
    + by left.
    + intros _ _. left. by eexists _, _.
  - injection He as <- <-. set (l' := match controller self with [] => store_has_waiter self false | _ => self end).
    assert (unlock l' = mk (quota self) (total_size self) (match controller self with [] => false | _ => has_waiter self end) (controller self) None None (held self)) as ->.
    { unfold l'. destruct (controller self) eqn:Ec; rewrite unlock_unbuffered by done; cbn; by rewrite Ec. }
    eapply (system_ok_step s bound i _ rest); try done; try sums.
    + destruct Hl as [? ? ? Hw]. split; cbn; try done. destruct (controller self); [done|]. exact Hw.
    + split; [by constructor|]. done.
    + right. right. split; [by apply Hlk|done].
    + intros Hneedy Hle. destruct (controller self) eqn:Ec.
      * exfalso. eapply (not_needy (NotifyEmpty ws)); [exact Hi|done|by left| | |exact Hneedy]; done.
      * right. eapply needy_same; [| |exact Hle|reflexivity|exact Hneedy]; done.
  - unfold notify_send in He. destruct ws as [|w ws]; [injection He as <- <-|destruct (Waiter.alive w); injection He as <- <-; inversion Hsf; subst];
      eapply (system_ok_step s bound i _ rest); try done; try sums.
    + apply sends_rest_ok; [done|done|by rewrite Hlk].
    + by left.
    + intros Hneedy Hle. right. eapply needy_same; [| |exact Hle|reflexivity|exact Hneedy]; [done|by apply sends_top].
    + destruct Hl. split; try done. by constructor.
    + split; [by constructor|]. done.
    + by left.
    + intros Hneedy Hle. right. eapply needy_same; [| |exact Hle|reflexivity|exact Hneedy]; done.
    + split; [constructor; [done|by constructor]|]. split; [done|]. split; [done|by constructor].
    + by left.
    + intros Hneedy Hle. right. eapply needy_same; [| |exact Hle|reflexivity|exact Hneedy]; done.
Qed.

Lemma exec_ok f l fs : threads s !! i = Some (f :: rest) → exec false self i f rest = Some (l, fs) → after l fs.
Proof using H small.
  intros Hi He. destruct f as [p a|p a cur|a| | | | | | | | | | |]; [..|done];
    try (eapply require_ok; [exact Hi|done|exact He]); try (eapply notify_ok; [exact Hi|done|exact He]); cbn [exec] in He.
  - injection He as E. pose proof (try_loop_ok _ p a Hi (or_introl eq_refl)) as Hok. unfold try_load in E. by rewrite E in Hok.
  - injection He as E. unfold try_exchange in E. destruct (Z.eqb_spec (total_size self) cur) as [<-|Hne].
    + pose proof (granted_ok p a Hi) as Hok. cbv zeta in Hok. by rewrite E in Hok.
    + pose proof (try_loop_ok _ p a Hi (or_intror (ex_intro _ cur eq_refl))) as Hok. by rewrite E in Hok.
  - injection He as <- <-. destruct (so_frames _ _ H _ _ Hi) as (Hs & _). inversion Hs as [|? ? Hsf Hsr]; subst. cbn in Hsf.
    destruct (system_room _ _ _ _ _ H Hi) as ([H0 H1] & Hroom & _). cbn in H0, H1, Hroom. pose proof (lo_buffer _ (so_limiter _ _ H)) as Hbuf.
    eapply (return_ok _ _ a Hi); unfold add_memory; rewrite ?wrap_small by (unfold is_uint; lia); cbn; try done; [lia|by left|lia..].
Qed.
End step.

(** ** Runs *)

(** What an event may ask for. *)
Definition request e : Z := match e with Try a | Must a | Require a | Increase _ a => a | _ => 0 end.
Abbreviation requested := (total_of request).

Definition begins f : Prop :=
  match f with TryLoad (ForTry | ForMust | ForIncrease _) _ | RequireLock _ | Release _ => True | _ => False end.

Lemma spawn_ok s bound f l : system_ok s bound → begins f → sane f →
  quota l = quota (limiter s) → total_size l = total_size (limiter s) → controller l = controller (limiter s) → has_waiter l = has_waiter (limiter s) →
  locked_by l = locked_by (limiter s) → limiter_ok l → (total_of id (held l) + carried f = total_of id (held (limiter s)))%Z →
  system_ok (mk_system l (threads s ++ [[f]])) (bound + asked f).
Proof.
  intros H Hb Hs Eq Et Ec Eh El Hl Hheld.
  assert (∀ j g, at_frame (mk_system l (threads s ++ [[f]])) j g → at_frame s j g ∨ j = length (threads s) ∧ g = f) as Hat.
  { intros j g [rest Hj]. cbn in Hj. apply lookup_app_Some in Hj as [Hj|[Hge Hj]]; [left; by exists rest|right]. apply list_lookup_singleton_Some in Hj as [Hz [= <- _]]. split; [lia|done]. }
  split; cbn [limiter threads].
  - done.
  - rewrite Et, (so_total _ _ H). unfold load. cbn [limiter threads]. rewrite total_of_app, !total_cons, !total_nil. lia.
  - pose proof (so_demand _ _ H) as Hd. unfold demand, load in *. cbn [limiter threads]. rewrite Ec, !total_of_app, !total_cons, !total_nil. lia.
  - intros j fs Hj. apply lookup_app_Some in Hj as [Hj|[Hge Hj]].
    + eapply frames_ok_other; [by apply (so_frames _ _ H)|done|by rewrite El|done].
    + apply list_lookup_singleton_Some in Hj as [Hz <-]. split; [by repeat constructor|]. split; [|split; [|done]]; [|by destruct f as [[]| | | | | | | | | | | | |]].
      rewrite El. split; [intros Hx%(so_locked _ _ H); lia|]. by destruct f as [[]| | | | | | | | | | | | |].
  - intros j Hj. rewrite El in Hj. rewrite length_app. pose proof (so_locked _ _ H j Hj). lia.
  - intros Hneedy Hle. destruct (so_notify _ _ H) as (j & g & [rest Hj] & Hn); [|lia|].
    + destruct Hneedy as [Hx|(j & g & Hg & Hp)]; [left; by rewrite <-Ec|right]. destruct (Hat j g Hg) as [Hj|[_ ->]]; [by exists j, g|]. by destruct f as [[]| | | | | | | | | | | | |].
    + exists j, g. split; [|done]. exists rest. cbn. rewrite lookup_app_l; [done|]. by eapply lookup_lt_Some.
Qed.

Lemma system_ok_weaken s bound bound' : system_ok s bound → (bound ≤ bound')%Z → system_ok s bound'.
Proof. intros [] Hle. split; try done. lia. Qed.

(** A client gives a tracker away. *)
Lemma take_ok s bound i old s' : system_ok s bound → take_tracker s i = Some (old, s') →
  s' = mk_system (set_held (limiter s) (delete i (held (limiter s)))) (threads s) ∧ (0 ≤ old)%Z ∧
  limiter_ok (limiter s') ∧ (total_of id (held (limiter s')) + old = total_of id (held (limiter s)))%Z.
Proof.
  intros H Ht. unfold take_tracker in Ht. destruct (held (limiter s) !! i) as [x|] eqn:E; [|done]. injection Ht as -> <-. pose proof (so_limiter _ _ H) as Hl.
  pose proof (lo_held _ Hl) as Hh. split; [done|]. split; [by eapply Forall_lookup_1 in E; [|exact Hh]|]. split; [destruct Hl; split; try done; by apply Forall_delete|].
  cbn [limiter set_held held]. rewrite (total_delete id _ _ _ E). unfold id. lia.
Qed.

(** Cancelling changes no amount. *)
Lemma cancel_controller self j : let self' := set_controller self (alter Waiter.cancel j (controller self)) in
  (controller self' = [] ↔ controller self = []) ∧ amounts (controller self') = amounts (controller self) ∧
  (limiter_ok self → limiter_ok self') ∧ ∀ i fs, frames_ok self i fs → frames_ok self' i fs.
Proof.
  intros self'. assert (controller self' = [] ↔ controller self = []) as Hnil by (unfold self'; cbn; destruct (controller self), j; cbn; done).
  split; [done|]. split; [by apply total_alter|]. split.
  - intros [? ? Hc Hw]. split; try done; [|by rewrite Hnil]. unfold self'. cbn. apply Forall_alter; [done|]. by intros.
  - intros i fs [Hs Hf]. split; [done|]. destruct fs as [|f rest]; [done|]. destruct Hf as (Hl & Hk & Hr). split; [done|]. split; [|done].
    assert (bool_decide (controller self' = []) = bool_decide (controller self = [])) as Eb by (by apply bool_decide_ext).
    assert (∀ a, (∃ w ws, controller self = w :: ws ∧ Waiter.amount w = a) → ∃ w ws, controller self' = w :: ws ∧ Waiter.amount w = a) as Hhead.
    { intros a (w & ws & E & <-). unfold self'. cbn. rewrite E. destruct j; cbn; by eexists _, _. }
    destruct f as [[]|[]| | | | | | | | | | | |]; cbn [knows] in *; rewrite ?Eb; try done; naive_solver.
Qed.

Lemma cancel_in_same f j : carried (cancel_in f j) = carried f ∧ asked (cancel_in f j) = asked f ∧ (sane f → sane (cancel_in f j)) ∧ locked (cancel_in f j) = locked f ∧
  notifies (cancel_in f j) = notifies f ∧ pushes (cancel_in f j) = pushes f ∧ (sends f → sends (cancel_in f j)) ∧ ∀ self, knows self f → knows self (cancel_in f j).
Proof.
  assert (∀ ws, amounts (alter Waiter.cancel j ws) = amounts ws) as Ha by (intros ws; by apply total_alter).
  assert (∀ ws, Forall (λ w, 0 ≤ Waiter.amount w)%Z ws → Forall (λ w, 0 ≤ Waiter.amount w)%Z (alter Waiter.cancel j ws)) as Hf by (intros ws Hws; apply Forall_alter; [done|by intros]).
  destruct f as [[]|[]| | | | | | | | | | | |]; cbn; rewrite ?Ha; naive_solver.
Qed.

(** Stacks that differ in the waiters of a frame only. *)
Definition alike fs fs' : Prop :=
  (∀ self i, frames_ok self i fs → frames_ok self i fs') ∧
  notifies <$> head fs = notifies <$> head fs' ∧ pushes <$> head fs = pushes <$> head fs'.

Lemma cancel_alike j k fs : alike fs (alter (λ f, cancel_in f j) k fs).
Proof.
  split; [|destruct fs as [|f rest], k; [done..| |done]; destruct (cancel_in_same f j) as (_ & _ & _ & _ & En & Ep & _); split; cbn; congruence].
  intros self i [Hs Hf]. split; [apply Forall_alter; [done|]; intros f _; apply (cancel_in_same f j)|].
  destruct fs as [|f rest]; [done|]. destruct Hf as (Hl & Hk & Hr). destruct (cancel_in_same f j) as (_ & _ & _ & El & _ & _ & _ & Hknow).
  destruct k as [|k]; cbn [alter list_alter]; [by rewrite El; auto|]. split; [done|]. split; [done|]. apply Forall_alter; [done|]. intros g _. apply (cancel_in_same g j).
Qed.

Lemma alike_system s s' bound : system_ok s bound → limiter s' = limiter s → Forall2 alike (threads s) (threads s') →
  total_of (total_of carried) (threads s') = total_of (total_of carried) (threads s) →
  total_of (total_of asked) (threads s') = total_of (total_of asked) (threads s) → system_ok s' bound.
Proof.
  intros H El Hall Ec Ea. split; [|unfold load|unfold demand, load| | |]; rewrite ?El, ?Ec, ?Ea; try apply H.
  - intros i fs' Hi. destruct (Forall2_lookup_r _ _ _ _ _ Hall Hi) as (fs & Hfs & Ha). apply Ha, H, Hfs.
  - intros i Hi%(so_locked _ _ H). by rewrite <-(Forall2_length _ _ _ Hall).
  - intros Hneedy Hle. destruct (so_notify _ _ H) as (i & f & [rest Hi] & Hn); [|done|].
    + destruct Hneedy as [Hx|(i & f & [rest Hi] & Hp)]; [by left|right]. destruct (Forall2_lookup_r _ _ _ _ _ Hall Hi) as (fs & Hfs & _ & _ & Ep).
      destruct fs as [|g fs]; [done|]. cbn in Ep. exists i, g. split; [by exists fs|congruence].
    + destruct (Forall2_lookup_l _ _ _ _ _ Hall Hi) as (fs & Hfs & _ & En & _). destruct fs as [|g fs]; [done|]. cbn in En.
      exists i, g. split; [by exists fs|congruence].
Qed.

Lemma cancel_served_ok s bound i k j : system_ok s bound →
  system_ok (mk_system (limiter s) (alter (alter (λ f, cancel_in f j) k) i (threads s))) bound.
Proof.
  intros H. eapply alike_system; [exact H|done|..]; cbn [threads].
  - apply Forall2_same_length_lookup_2; [by rewrite length_alter|]. intros m fs fs' Hm Hm'. destruct (decide (i = m)) as [->|Hne].
    + rewrite list_lookup_alter_eq, Hm in Hm'. injection Hm' as <-. apply cancel_alike.
    + rewrite list_lookup_alter_ne, Hm in Hm' by done. injection Hm' as <-. split; [auto|done].
  - apply total_alter. intros fs. apply total_alter. intros f. apply (cancel_in_same f j).
  - apply total_alter. intros fs. apply total_alter. intros f. apply (cancel_in_same f j).
Qed.

Lemma cancel_ok s bound j : system_ok s bound →
  system_ok (mk_system (set_controller (limiter s) (alter Waiter.cancel j (controller (limiter s)))) (threads s)) bound.
Proof.
  intros H. destruct (cancel_controller (limiter s) j) as (Hnil & Ea & Hl & Hf). cbn zeta in *. split; cbn [limiter threads].
  - apply Hl, H.
  - apply H.
  - pose proof (so_demand _ _ H) as Hd. unfold demand, load in *. cbn [limiter threads]. rewrite Ea. apply Hd.
  - intros i fs Hi. apply Hf. by apply (so_frames _ _ H).
  - apply H.
  - intros Hneedy Hle. apply (so_notify _ _ H); [|done]. destruct Hneedy as [Hx|Hp]; [left|by right]. contradict Hx. by apply Hnil.
Qed.

Lemma happens_ok s bound e s' : system_ok s bound → (0 ≤ request e)%Z → (bound + request e < 2 ^ 64)%Z → happens false s e = Some s' →
  system_ok s' (bound + request e).
Proof.
  intros H Hnn Hb He. pose proof (so_limiter _ _ H) as Hl. destruct e as [a|a|a|i target|i|i|j|i k j|]; cbn [happens request] in *.
  - injection He as <-. apply (spawn_ok s bound (TryLoad ForTry a) (limiter s)); try done; cbn; lia.
  - injection He as <-. apply (spawn_ok s bound (TryLoad ForMust a) (limiter s)); try done; cbn; lia.
  - injection He as <-. apply (spawn_ok s bound (RequireLock a) (limiter s)); try done; cbn; lia.
  - destruct (take_tracker s i) as [[old s1]|] eqn:Ht; [|done]. cbn [mbind option_bind] in He. destruct (take_ok _ _ _ _ _ H Ht) as (-> & Hold & Hl1 & Hh).
    unfold MemoryTracker.try_increase_memory in He. destruct (Z.leb_spec target old); injection He as <-; [eapply system_ok_weaken; [exact H|lia]|].
    eapply system_ok_weaken; [eapply (spawn_ok s bound (TryLoad (ForIncrease old) (target - old)) _ H); try done; cbn; lia|cbn; lia].
  - destruct (take_tracker s i) as [[old s1]|] eqn:Ht; [|done]. cbn [mbind option_bind] in He. destruct (take_ok _ _ _ _ _ H Ht) as (-> & Hold & Hl1 & Hh).
    injection He as <-. eapply (spawn_ok s bound (Release old) _ H); try done; cbn; lia.
  - destruct (threads s !! i) as [[|f rest]|] eqn:Hi; [done| |done]. cbn [mbind option_bind] in He.
    destruct (exec false (limiter s) i f rest) as [[l fs]|] eqn:Ex; [|done]. injection He as <-. rewrite Z.add_0_r. eapply exec_ok; [exact H|lia|exact Hi|exact Ex].
  - injection He as <-. rewrite Z.add_0_r. by apply cancel_ok.
  - injection He as <-. rewrite Z.add_0_r. by apply cancel_served_ok.
  - injection He as <-. rewrite Z.add_0_r. unfold drain. rewrite (lo_buffer _ Hl). by destruct s.
Qed.

Lemma run_ok es s bound s' : system_ok s bound → Forall (λ e, 0 ≤ request e)%Z es → (bound + requested es < 2 ^ 64)%Z → run false s es = Some s' →
  system_ok s' (bound + requested es).
Proof.
  revert s bound. induction es as [|e es IH]; intros s bound H Hnn Hb He; [injection He as <-; rewrite total_nil, Z.add_0_r; exact H|].
  inversion Hnn as [|? ? He0 Hes]; subst. rewrite total_cons in *. pose proof (total_ge0 request es Hes). cbn [run] in He.
  destruct (happens false s e) as [s1|] eqn:E; [|done]. rewrite Z.add_assoc in *. eapply IH; [|done|lia|exact He]. eapply happens_ok; [done|done|lia|done].
Qed.

Lemma start_ok q : system_ok (start q) 0.
Proof. split; try done. intros [Hx|(i & f & [rest Hi] & _)]; [by contradict Hx|]. by destruct i. Qed.

(** ** Progress *)

(** Whoever holds the mutex can go on, and without a holder everybody can. *)
Definition idle s : Prop := Forall (λ fs, fs = []) (threads s).

Lemma exec_enabled weak self i f rest : knows self f → (locked_by self = Some i ↔ locked f = true) → (locked_by self = None ∨ locked_by self = Some i) →
  is_Some (exec weak self i f rest).
Proof.
  intros Hk Hlk Hfree. destruct f; cbn [exec]; unfold require_lock, notify_lock; try done; try (by eexists); destruct Hfree as [-> |Hx]; try (by eexists); by apply Hlk in Hx.
Qed.

Lemma system_steps s bound weak : system_ok s bound → ¬ idle s → ∃ i s', happens weak s (Step i) = Some s'.
Proof.
  intros H Hidle. assert (∃ i f rest, threads s !! i = Some (f :: rest) ∧ (locked_by (limiter s) = None ∨ locked_by (limiter s) = Some i)) as (i & f & rest & Hi & Hfree).
  { destruct (locked_by (limiter s)) as [i|] eqn:El.
    - destruct (lookup_lt_is_Some_2 _ _ (so_locked _ _ H i El)) as [fs Hi]. destruct (so_frames _ _ H i fs Hi) as [_ Hf]. destruct fs as [|f rest]; [done|]. exists i, f, rest. auto.
    - apply not_Forall_Exists in Hidle; [|solve_decision]. apply Exists_exists in Hidle as (fs & Hin & Hne). apply list_elem_of_lookup in Hin as [i Hi]. destruct fs as [|f rest]; [by destruct Hne|].
      exists i, f, rest. auto. }
  destruct (so_frames _ _ H _ _ Hi) as (_ & Hlk & Hk & _). destruct (exec_enabled weak (limiter s) i f rest Hk Hlk Hfree) as [[l fs] E].
  exists i, (mk_system l (<[i := fs]> (threads s))). cbn [happens]. rewrite Hi. cbn [mbind option_bind]. by rewrite E.
Qed.

Lemma idle_threads s w : idle s → total_of (total_of w) (threads s) = 0%Z.
Proof. unfold idle. induction 1 as [|fs l -> _ IH]; [done|]. rewrite total_cons, IH. done. Qed.

Lemma idle_frame s i f : idle s → ¬ at_frame s i f.
Proof. intros Hi [rest E]. by eapply Forall_lookup_1 in E; [|exact Hi]. Qed.

(** ** How much more than the quota *)

(** What [must_require_memory] has still to get, and requests of at most [m] bytes otherwise. *)
Definition pending f : Z := match f with TryLoad ForMust a | TryExchange ForMust a _ | MustAdd a => a | _ => 0 end.
Definition modest (m : Z) f : Prop :=
  match f with
  | TryLoad ForMust _ | TryExchange ForMust _ _ => True
  | TryLoad _ a | TryExchange _ a _ | RequireLock a | RequireSet a _ | RequirePush a => (a ≤ m)%Z
  | _ => True
  end.
Definition forced e : Z := match e with Must a => a | _ => 0 end.
Definition modest_event (m : Z) e : Prop := match e with Must _ => True | _ => (request e ≤ m)%Z end.
Abbreviation waiters_modest m self := (Forall (λ w, Waiter.amount w ≤ m)%Z (controller self)).
Abbreviation pendings := (total_of pending).
#[local] Arguments total_of : simpl never.

Record bounded s (q m n : Z) : Prop := {
  bd_quota : quota (limiter s) = q;
  bd_frames : Forall (Forall (modest m)) (threads s);
  bd_waiters : waiters_modest m (limiter s);
  bd_pending : (total_of pendings (threads s) ≤ n)%Z;
  bd_total : (total_size (limiter s) + total_of pendings (threads s) ≤ q + m + n)%Z
}.

(** A step leaves that bound. *)
Definition bounds m self fs self' fs' : Prop :=
  quota self' = quota self ∧ Forall (modest m) fs' ∧ waiters_modest m self' ∧ (pendings fs' ≤ pendings fs)%Z ∧
  (total_size self' + pendings fs' ≤ total_size self + pendings fs ∨ total_size self' + pendings fs' ≤ quota self + m + pendings fs)%Z.

Lemma wrap_le z : (0 ≤ z)%Z → (wrap 64 z ≤ z)%Z.
Proof. intros Hz. unfold wrap. by apply Z.mod_le. Qed.

Lemma drain_waiters self : quota (drain self) = quota self ∧ controller (drain self) = controller self ∧ total_size (drain self) = total_size self.
Proof. unfold drain. by destruct (store_buffer self). Qed.

Lemma refused_bounds m self p a rest f : modest m f → Forall (modest m) rest → waiters_modest m self → (0 ≤ pending f)%Z → f = TryLoad p a →
  bounds m self (f :: rest) (refused self p a rest).1 (refused self p a rest).2.
Proof.
  intros Hf Hr Hw Hp ->. destruct p; cbn [refused fst snd]; (split; [done|]); (split; [try done; by constructor|]); (split; [done|]); rewrite ?total_cons; cbn in *; lia.
Qed.

Ltac bounds := unfold bounds; cbn in *; rewrite ?total_cons; cbn; split_and!; try done; try lia.

Lemma granted_bounds m self p a rest cur : (0 ≤ m)%Z → (0 ≤ a)%Z → (0 ≤ cur ≤ quota self)%Z → modest m (TryLoad p a) → knows self (TryLoad p a) →
  Forall (modest m) rest → waiters_modest m self →
  let r := granted (set_total self (wrap 64 (cur + a))) p a rest in bounds m self (TryLoad p a :: rest) r.1 r.2.
Proof.
  intros Hm Ha Hc Hf Hk Hr Hw. pose proof (wrap_le (cur + a) ltac:(lia)) as Hle. set (n := wrap 64 (cur + a)) in *. cbn zeta.
  destruct p as [| |[]|ws|old]; cbn [granted].
  - bounds.
  - bounds.
  - bounds. by constructor.
  - destruct (drain_waiters (set_total self n)) as (Eq & Ec & Et). unfold unlock. bounds; rewrite ?Eq, ?Ec, ?Et; cbn; try done; lia.
  - destruct Hk as (w & ws' & E & Ew). cbn [controller set_total]. rewrite E in *. inversion Hw; subst. bounds. by constructor.
  - bounds.
Qed.

Lemma try_loop_bounds m self p a rest : (0 ≤ a)%Z → modest m (TryLoad p a) → Forall (modest m) rest → waiters_modest m self →
  let r := try_loop self p a (total_size self) rest in bounds m self (TryLoad p a :: rest) r.1 r.2.
Proof.
  intros Ha Hf Hr Hw. cbn zeta. unfold try_loop. destruct (permit_quota _ _ _).
  - cbn [fst snd]. bounds; [constructor; [by destruct p|done]|destruct p; lia..].
  - apply refused_bounds; try done. by destruct p; cbn in *; lia.
Qed.

(** A step of a thread, when the limiter has at least what the thread has. *)
Lemma exec_bounds m self i f rest l fs : (0 ≤ m)%Z → exec false self i f rest = Some (l, fs) → Forall (modest m) (f :: rest) → waiters_modest m self →
  sane f → knows self f → (carried f ≤ total_size self)%Z → bounds m self (f :: rest) l fs.
Proof.
  intros Hm He Hfs Hw Hs Hk Hle. inversion Hfs as [|? ? Hf Hr]; subst. assert (0 ≤ total_size self)%Z as Hpos by (destruct (sane_carried f Hs); lia).
  destruct f as [p a|p a cur|a|a|a first_req|a|a|a| | |ws|ws|ws|]; cbn [exec] in He; unfold require_lock, notify_lock in He.
  - injection He as E. pose proof (try_loop_bounds m self p a rest (proj2 Hs) Hf Hr Hw) as Hb. unfold try_load in E. by rewrite E in Hb.
  - injection He as E. assert (cur ≤ quota self)%Z as Hc by (destruct p; cbn in Hk; naive_solver). assert (modest m (TryLoad p a)) as Hf' by (by destruct p).
    assert (knows self (TryLoad p a)) as Hk' by (destruct p; cbn in *; naive_solver).
    assert (∀ l fs, bounds m self (TryLoad p a :: rest) l fs → bounds m self (TryExchange p a cur :: rest) l fs) as Hsame by (intros ? ?; unfold bounds; rewrite !total_cons; by destruct p).
    apply Hsame. unfold try_exchange in E. destruct (Z.eqb_spec (total_size self) cur) as [Ecur|_].
    + pose proof (granted_bounds m self p a rest cur Hm (proj2 Hs) ltac:(lia) Hf' Hk' Hr Hw) as Hb. cbn zeta in Hb. by rewrite E in Hb.
    + pose proof (try_loop_bounds m self p a rest (proj2 Hs) Hf' Hr Hw) as Hb. cbn zeta in Hb. by rewrite E in Hb.
  - injection He as <- <-. cbn in Hs. pose proof (wrap_le (total_size self + a) ltac:(lia)). bounds.
  - destruct (locked_by self); [done|]. injection He as <- <-. bounds. by constructor.
  - unfold require_set in He. destruct first_req; injection He as <- <-; bounds; by constructor.
  - injection He as <- <-. bounds.
  - injection He as <- <-. destruct (drain_waiters (set_controller self (controller self ++ [Waiter.mk true a]))) as (Eq & Ec & Et). unfold unlock.
    bounds; rewrite ?Eq, ?Ec, ?Et; cbn; try done; try lia. apply Forall_app. split; [done|]. by constructor.
  - injection He as <- <-. cbn in Hs, Hle. pose proof (wrap_le (total_size self - a) ltac:(lia)). bounds. by constructor.
  - unfold notify_check in He. destruct (has_waiter self); injection He as <- <-; bounds; by constructor.
  - destruct (locked_by self); [done|]. injection He as <- <-. bounds. by constructor.
  - unfold notify_front in He. destruct (controller self) as [|w ws'] eqn:E; injection He as <- <-; bounds; rewrite ?E; try done; constructor; try done. by inversion Hw.
  - set (self1 := match controller self with [] => store_has_waiter self false | _ => self end).
    assert (quota self1 = quota self ∧ controller self1 = controller self ∧ total_size self1 = total_size self) as (Eq1 & Ec1 & Et1) by (unfold self1; by destruct (controller self) eqn:?).
    injection He as <- <-. fold self1. destruct (drain_waiters self1) as (Eq & Ec & Et). unfold unlock.
    bounds; rewrite ?Eq, ?Ec, ?Et, ?Eq1, ?Ec1, ?Et1; cbn; try done; try lia; by constructor.
  - unfold notify_send in He. destruct ws as [|w ws]; [injection He as <- <-; bounds|]. destruct (Waiter.alive w); injection He as <- <-; bounds; by repeat constructor.
  - done.
Qed.

Lemma cancel_in_modest m f j : (modest m f → modest m (cancel_in f j)) ∧ pending (cancel_in f j) = pending f.
Proof. by destruct f as [[]|[]| | | | | | | | | | | |]. Qed.

Lemma spawn_bounded s q m n l f : bounded s q m n → modest m f → quota l = q → waiters_modest m l → total_size l = total_size (limiter s) →
  bounded (mk_system l (threads s ++ [[f]])) q m (n + pending f).
Proof.
  intros [] Hf Eq Hw Et. split; cbn [limiter threads]; rewrite ?total_of_app, ?total_cons, ?total_nil, ?Et; try done; try lia.
  apply Forall_app. split; [done|]. by repeat constructor.
Qed.

Lemma step_bounded s bound q m n i f rest l fs : system_ok s bound → (0 ≤ m)%Z → bounded s q m n → threads s !! i = Some (f :: rest) →
  exec false (limiter s) i f rest = Some (l, fs) → bounded (mk_system l (<[i := fs]> (threads s))) q m n.
Proof.
  intros H Hm B Hi Ex. destruct (so_frames _ _ H _ _ Hi) as (Hs & _ & Hk & _). inversion Hs as [|? ? Hsf _]; subst.
  destruct (exec_bounds m _ _ _ _ _ _ Hm Ex) as (Eq & Hfs & Hw & Hp & Ht);
    [by apply (Forall_lookup_1 _ _ _ _ (bd_frames _ _ _ _ B) Hi)|apply B|done|done|by apply (system_room _ _ _ _ _ H Hi)|].
  destruct B as [Bq Bf _ Bp Bt]. split; cbn [limiter threads]; rewrite ?(total_insert _ _ _ _ _ Hi); [congruence|by apply Forall_insert|done|lia|lia].
Qed.

Lemma happens_bounded s bound q m n e s' : system_ok s bound → (0 ≤ m)%Z → bounded s q m n → (0 ≤ request e)%Z → modest_event m e →
  happens false s e = Some s' → bounded s' q m (n + forced e).
Proof.
  intros H Hm B Hnn Hme He. destruct e as [a|a|a|i target|i|i|j|i k j|]; cbn [happens forced] in *.
  - injection He as <-. by apply (spawn_bounded s q m n (limiter s) (TryLoad ForTry a) B); try apply B.
  - injection He as <-. by apply (spawn_bounded s q m n (limiter s) (TryLoad ForMust a) B); try apply B.
  - injection He as <-. by apply (spawn_bounded s q m n (limiter s) (RequireLock a) B); try apply B.
  - destruct (take_tracker s i) as [[old s1]|] eqn:Ht; [|done]. cbn [mbind option_bind] in He. destruct (take_ok _ _ _ _ _ H Ht) as (-> & Hold & _).
    unfold MemoryTracker.try_increase_memory in He. destruct (Z.leb_spec target old); injection He as <-; [by rewrite Z.add_0_r|].
    apply (spawn_bounded s q m n _ (TryLoad (ForIncrease old) (target - old)) B); try apply B; [|done]. cbn in *. lia.
  - destruct (take_tracker s i) as [[old s1]|] eqn:Ht; [|done]. cbn [mbind option_bind] in He. destruct (take_ok _ _ _ _ _ H Ht) as (-> & _).
    injection He as <-. by apply (spawn_bounded s q m n _ (Release old) B); try apply B.
  - destruct (threads s !! i) as [[|f rest]|] eqn:Hi; [done| |done]. cbn [mbind option_bind] in He.
    destruct (exec false (limiter s) i f rest) as [[l fs]|] eqn:Ex; [|done]. injection He as <-. rewrite Z.add_0_r. by eapply step_bounded.
  - injection He as <-. rewrite Z.add_0_r. destruct B. split; try done. cbn. by apply Forall_alter.
  - injection He as <-. rewrite Z.add_0_r. destruct B as [? Bf ? ? ?]. split; cbn [limiter threads]; try done;
      try (rewrite total_alter; [done|]; intros fs; apply total_alter; intros f; apply (cancel_in_modest m f j)).
    apply Forall_alter; [done|]. intros fs _ Hfs. apply Forall_alter; [done|]. intros f _. apply (cancel_in_modest m f j).
  - injection He as <-. rewrite Z.add_0_r. unfold drain. rewrite (lo_buffer _ (so_limiter _ _ H)). by destruct s.
Qed.

Lemma run_bounded es s bound q m n s' : system_ok s bound → (0 ≤ m)%Z → bounded s q m n → Forall (λ e, 0 ≤ request e)%Z es → (bound + requested es < 2 ^ 64)%Z →
  Forall (modest_event m) es → run false s es = Some s' → bounded s' q m (n + total_of forced es).
Proof.
  revert s bound n. induction es as [|e es IH]; intros s bound n H Hm B Hnn Hb Hme He; [injection He as <-; by rewrite total_nil, Z.add_0_r|].
  inversion Hnn as [|? ? He0 Hes]; subst. inversion Hme as [|? ? Hm0 Hms]; subst. rewrite total_cons in *. pose proof (total_ge0 request es Hes). cbn [run] in He.
  destruct (happens false s e) as [s1|] eqn:E; [|done]. rewrite Z.add_assoc in *.
  eapply (IH s1 (bound + request e)%Z); [eapply happens_ok; [done|done|lia|done]|done|by eapply happens_bounded|done|lia|done|exact He].
Qed.

Lemma start_bounded q m : (0 ≤ q)%Z → (0 ≤ m)%Z → bounded (start q) q m 0.
Proof. intros. split; cbn; try done. rewrite total_nil. lia. Qed.

(** ** The theorems *)

(** C26: Whatever the threads do in whatever order, [total_size] is the memory of the trackers that
    exist (of the clients, or on their way to one), and it exceeds the quota by at most the largest
    request and what was taken with [must_require_memory]. *)
Theorem memory_limiter_accounts q m es s : (0 ≤ q)%Z → (0 ≤ m)%Z → Forall (λ e, 0 ≤ request e)%Z es → (requested es < 2 ^ 64)%Z → Forall (modest_event m) es →
  run false (start q) es = Some s →
  total_size (limiter s) = load s ∧ (total_size (limiter s) ≤ q + m + total_of forced es)%Z ∧ (idle s → total_size (limiter s) = total_of id (held (limiter s))).
Proof.
  intros Hq Hm Hnn Hb Hme He. pose proof (run_ok _ _ _ _ (start_ok q) Hnn Hb He) as H.
  pose proof (run_bounded _ _ _ _ _ _ _ (start_ok q) Hm (start_bounded q m Hq Hm) Hnn Hb Hme He) as B. pose proof (so_total _ _ H) as Et. split; [done|]. split.
  - destruct B as [_ _ _ _ Bt]. enough (0 ≤ total_of pendings (threads s))%Z by lia. apply total_ge0, Forall_lookup. intros i fs Hi. apply total_ge0.
    destruct (so_frames _ _ H i fs Hi) as [Hs _]. eapply Forall_impl; [exact Hs|]. intros f Hf. destruct f as [[]|[]| | | | | | | | | | | |]; cbn in *; lia.
  - intros Hi. rewrite Et. unfold load. rewrite (idle_threads _ _ Hi). lia.
Qed.


(** A writer that waits for another to drop its tracker, and is served then. *)
Definition waiting : list event :=
  [Try 10; Step 0; Step 0; Require 4; Step 1; Step 1; Step 1; Must 3; Step 2; Step 2; Drop 0; Step 1] ++ replicate 7 (Step 3).
Definition served : list event := waiting ++ Drop 0 :: replicate 10 (Step 4) ++ Drop 0 :: replicate 2 (Step 5).
Definition after_events (es : list event) : system := default (start 5) (run false (start 5) es).

Lemma memory_limiter_accounts_witness :
  total_size (limiter (after_events waiting)) = 10%Z ∧ total_size (limiter (after_events waiting)) = load (after_events waiting) ∧
  (total_size (limiter (after_events waiting)) ≤ 5 + 10 + 3)%Z.
Proof.
  assert (Forall (λ e, 0 ≤ request e)%Z waiting) as Hnn by (apply (bool_decide_unpack _); vm_compute; exact I).
  assert (Forall (modest_event 10) waiting) as Hm by (unfold waiting; cbn [app replicate]; repeat (apply Forall_cons; split; [cbn; first [exact I|lia]|]); apply Forall_nil_2).
  destruct (memory_limiter_accounts 5 10 waiting (after_events waiting) ltac:(lia) ltac:(lia) Hnn) as (H1 & H2 & _); [vm_compute; reflexivity|exact Hm|vm_compute; reflexivity|].
  split; [vm_compute; reflexivity|]. split; [exact H1|exact H2].
Defined.


(** The order that [memory_limiter_wakes_waiters] takes for granted is not what the source asks for:
    [require_memory] stores [has_waiter] with [Release] before it loads [total_size] with [Acquire],
    so another thread may see the store after the load.  It gives back the last memory, sees no
    waiter, and the waiter stays in the queue of an empty limiter. *)
Theorem release_store_loses_wakeup : ∃ es s, run true (start 5) es = Some s ∧ idle s ∧
  held (limiter s) = [] ∧ total_size (limiter s) = 0%Z ∧ has_waiter (limiter s) = true ∧ controller (limiter s) = [Waiter.mk true 4].
Proof.
  exists [Try 10; Step 0; Step 0; Require 4; Step 1; Step 1; Step 1; Drop 0; Step 2; Step 2; Step 1]. eexists. split; [vm_compute; reflexivity|].
  split_and!; [by repeat constructor|done..].
Qed.
