(* ===== verification/Exchange.v ===== *)
(** * Exchange channels with permits

    Models [stream/src/executor/exchange/permit.rs], the back-pressure of the exchange between
    actors, and the two ends that use it: [LocalInput], and the remote exchange of
    [stream/src/executor/exchange/input.rs] ([RemoteInput], which gives record permits back in
    batches) with [get_stream_impl] of [compute/src/rpc/service/exchange_service.rs].

    The semaphore and the queues are [tokio]'s and [gRPC]'s: they are the classes [Semaphore]
    and [Fifo], with what their documentation promises.  An [async] function is its next poll;
    a pending poll changes nothing, and there is one sender, so no other waiter competes.  The
    sender and the receiver share the queue and the permits: both are the state
    [ExchangeChannel.t].  The protobuf form of the messages is not modelled. *)

From Stdlib Require Import ZArith Lia.
From stdpp Require Import base list.
From S2P Require Import Prelude Bytes Bits Bitmap.

#[local] Open Scope Z_scope.

(** ** What is used of [tokio] and [gRPC] *)

Inductive poll (A : Type) := Ready (a : A) | Pending.
Arguments Ready {A} a.
Arguments Pending {A}.

(** [tokio::sync::Semaphore] for one waiter.  [acquire_many] followed by [forget] takes the
    permits; [None] is [AcquireError]. *)
Class Semaphore := {
  semaphore : Type;
  MAX_PERMITS : Z;
  sem_new : Z → outcome semaphore;
  sem_add_permits : semaphore → Z → outcome semaphore;
  sem_acquire_many : semaphore → Z → poll (option semaphore);
  sem_close : semaphore → semaphore;
  available_permits : semaphore → Z;
  is_closed : semaphore → bool;
  sem_new_spec n : 0 ≤ n ≤ MAX_PERMITS → ∃ s, sem_new n = Ret s ∧ available_permits s = n ∧ is_closed s = false;
  sem_add_spec s n : 0 ≤ n → available_permits s + n ≤ MAX_PERMITS →
    ∃ s', sem_add_permits s n = Ret s' ∧ available_permits s' = available_permits s + n ∧ is_closed s' = is_closed s;
  sem_acquire_closed s n : is_closed s = true → sem_acquire_many s n = Ready None;
  sem_acquire_ready s n : is_closed s = false → 0 ≤ n ≤ available_permits s →
    ∃ s', sem_acquire_many s n = Ready (Some s') ∧ available_permits s' = available_permits s - n ∧ is_closed s' = false;
  sem_acquire_pending s n : is_closed s = false → available_permits s < n → sem_acquire_many s n = Pending;
  sem_close_spec s : is_closed (sem_close s) = true
}.

(** A channel that keeps the order: [tokio::sync::mpsc::unbounded_channel] and the two
    directions of a [gRPC] stream.  [fifo_drop] drops the receiving half; sending fails then. *)
Class Fifo := {
  fifo : Type → Type;
  fifo_new : ∀ {A}, fifo A;
  fifo_send : ∀ {A}, fifo A → A → option (fifo A);
  fifo_recv : ∀ {A}, fifo A → poll (A * fifo A);
  fifo_drop : ∀ {A}, fifo A → fifo A;
  contents : ∀ {A}, fifo A → list A;
  connected : ∀ {A}, fifo A → bool;
  fifo_new_spec {A} : contents (fifo_new : fifo A) = [] ∧ connected (fifo_new : fifo A) = true;
  fifo_send_spec {A} (q : fifo A) x : connected q = true →
    ∃ q', fifo_send q x = Some q' ∧ contents q' = contents q ++ [x] ∧ connected q' = true;
  fifo_send_dropped {A} (q : fifo A) x : connected q = false → fifo_send q x = None;
  fifo_recv_spec {A} (q : fifo A) x l : contents q = x :: l →
    ∃ q', fifo_recv q = Ready (x, q') ∧ contents q' = l ∧ connected q' = connected q;
  fifo_recv_empty {A} (q : fifo A) : contents q = [] → fifo_recv q = Pending;
  fifo_drop_spec {A} (q : fifo A) : connected (fifo_drop q) = false
}.

(** ** Messages *)

(** The columns, operations, barriers and watermarks are only passed on. *)
Class Payload := { columns : Type; ops : Type; barrier_inner : Type; watermark : Type }.

Module DataChunk.

Record t `{Payload} := mk { chunk_columns : columns; visibility : Bitmap.t }.

Definition cardinality `{Payload} (self : t) : nat := Bitmap.count_ones (visibility self).

End DataChunk.

Module StreamChunk.

Record t `{Payload} := mk { chunk_ops : ops; data : DataChunk.t }.

End StreamChunk.

(** [MessageInner<()>], the [DispatcherMessage] *)
Module Message.

Inductive t `{Payload} :=
  | Chunk (chunk : StreamChunk.t)
  | Barrier (barrier : barrier_inner)
  | Watermark (watermark : watermark).

End Message.

(** [permits::Value] *)
Module Value.

Inductive t := Record (p : Z) | Barrier (p : Z).

End Value.

Module MessageWithPermits.

Record t `{Payload} := mk { message : Message.t; permits : option Value.t }.

End MessageWithPermits.

(** ** Permits *)
Module Permits.

Section permits.
Context {sem : Semaphore}.

Record t := mk { records : semaphore; barriers : semaphore }.

Definition add_permits (self : t) (permits : Value.t) : outcome t :=
  match permits with
  | Value.Record p => s ← sem_add_permits (records self) p; Ret (mk s (barriers self))
  | Value.Barrier p => s ← sem_add_permits (barriers self) p; Ret (mk (records self) s)
  end.

Definition acquire_permits (self : t) (permits : Value.t) : poll (option t) :=
  match permits with
  | Value.Record p =>
      match sem_acquire_many (records self) p with
      | Ready r => Ready (s ← r; Some (mk s (barriers self)))
      | Pending => Pending
      end
  | Value.Barrier p =>
      match sem_acquire_many (barriers self) p with
      | Ready r => Ready (s ← r; Some (mk (records self) s))
      | Pending => Pending
      end
  end.

Definition close (self : t) : t := mk (sem_close (records self)) (sem_close (barriers self)).

End permits.

End Permits.

(** ** The channel *)
Module ExchangeChannel.

Section channel.
Context {sem : Semaphore} {chan : Fifo} {payload : Payload}.

Record t := mk {
  tx : fifo MessageWithPermits.t;
  permits : Permits.t;
  max_chunk_permits : Z
}.

Definition with_permits (self : t) (rest : Permits.t) : t := mk (tx self) rest (max_chunk_permits self).
Definition with_tx (self : t) (q : fifo MessageWithPermits.t) : t := mk q (permits self) (max_chunk_permits self).

Definition channel (initial_permits batched_permits concurrent_barriers : Z) : outcome t :=
  records ← sem_new initial_permits;
  barriers ← sem_new concurrent_barriers;
  Ret (mk fifo_new (Permits.mk records barriers) (wrap 64 (initial_permits - batched_permits))).

(** [Ord::clamp], which asserts [min <= max] *)
Definition clamp (x min max : Z) : outcome Z :=
  rassert (min <=? max);; Ret (if x <? min then min else if max <? x then max else x).

(** The permits a message needs. *)
Definition required (self : t) (message : Message.t) : outcome (option Value.t) :=
  match message with
  | Message.Chunk c =>
      card ← clamp (Z.of_nat (DataChunk.cardinality (StreamChunk.data c))) 1 (max_chunk_permits self);
      Ret (Some (Value.Record (wrap 32 card)))
  | Message.Barrier _ => Ret (Some (Value.Barrier 1))
  | Message.Watermark _ => Ret None
  end.

(** [Sender::send]: [None] is [Ok], [Some message] is [Err(SendError(message))]. *)
Definition send (self : t) (message : Message.t) : outcome (poll (t * option Message.t)) :=
  needed ← required self message;
  let acquired := match needed with
                  | Some p => Permits.acquire_permits (permits self) p
                  | None => Ready (Some (permits self))
                  end in
  Ret (match acquired with
       | Pending => Pending
       | Ready None => Ready (self, Some message)
       | Ready (Some rest) =>
           let self := with_permits self rest in
           match fifo_send (tx self) (MessageWithPermits.mk _ message needed) with
           | Some q => Ready (with_tx self q, None)
           | None => Ready (self, Some message)
           end
       end).

Definition give_back (self : t) (acquired : option Value.t) : outcome t :=
  match acquired with
  | Some p => rest ← Permits.add_permits (permits self) p; Ret (with_permits self rest)
  | None => Ret self
  end.

(** [Receiver::recv_raw], while the sender lives. *)
Definition recv_raw (self : t) : poll (MessageWithPermits.t * t) :=
  match fifo_recv (tx self) with
  | Ready (m, q) => Ready (m, with_tx self q)
  | Pending => Pending
  end.

Definition recv (self : t) : outcome (poll (Message.t * t)) :=
  match recv_raw self with
  | Ready (m, self) => self ← give_back self (MessageWithPermits.permits m); Ret (Ready (MessageWithPermits.message m, self))
  | Pending => Ret Pending
  end.

(** [Receiver::try_recv]: [None] is [Err(Empty)]. *)
Definition try_recv (self : t) : outcome (option (Message.t * t)) :=
  match fifo_recv (tx self) with
  | Ready (m, q) =>
      self ← give_back (with_tx self q) (MessageWithPermits.permits m); Ret (Some (MessageWithPermits.message m, self))
  | Pending => Ret None
  end.

(** [Drop for Receiver], then the receiving half goes. *)
Definition drop_receiver (self : t) : t :=
  with_tx (with_permits self (Permits.close (permits self))) (fifo_drop (tx self)).

End channel.

End ExchangeChannel.

(** ** The remote exchange *)
Module RemoteExchange.

Section remote.
Context {sem : Semaphore} {chan : Fifo} {payload : Payload}.

(** The upstream channel, the [gRPC] stream of responses, [batched_permits_accumulated], the
    stream of permits back, and what [RemoteInput] has yielded. *)
Record t := mk {
  upstream : ExchangeChannel.t;
  responses : fifo MessageWithPermits.t;
  accumulated : Z;
  back : fifo Value.t;
  yielded : list Message.t
}.

Definition new (upstream : ExchangeChannel.t) : t := mk upstream fifo_new 0 fifo_new [].

(** The permits [RemoteInput] returns for a response: the new accumulator and what to send. *)
Definition add_back_permits (batched_permits_limit accumulated : Z) (permits : option Value.t) : Z * option Value.t :=
  match permits with
  | Some (Value.Record p) =>
      let accumulated := wrap 32 (accumulated + p) in
      if wrap 32 batched_permits_limit <=? accumulated then (0, Some (Value.Record accumulated)) else (accumulated, None)
  | Some (Value.Barrier p) => (accumulated, Some (Value.Barrier p))
  | None => (accumulated, None)
  end.

(** The loop of [RemoteInput]; [None] if nothing has arrived or the way back is closed. *)
Definition receive (batched_permits_limit : Z) (self : t) : option t :=
  match fifo_recv (responses self) with
  | Ready (m, q) =>
      let '(acc, send_back) := add_back_permits batched_permits_limit (accumulated self) (MessageWithPermits.permits m) in
      b ← match send_back with Some p => fifo_send (back self) p | None => Some (back self) end;
      Some (mk (upstream self) q acc b (yielded self ++ [MessageWithPermits.message m]))
  | Pending => None
  end.

(** The two arms of [get_stream_impl]: permits from the downstream, a message from the
    upstream. *)
Definition serve_permits (self : t) : outcome (option t) :=
  match fifo_recv (back self) with
  | Ready (permits_to_add, q) =>
      rest ← Permits.add_permits (ExchangeChannel.permits (upstream self)) permits_to_add;
      Ret (Some (mk (ExchangeChannel.with_permits (upstream self) rest) (responses self) (accumulated self) q (yielded self)))
  | Pending => Ret None
  end.

Definition serve_message (self : t) : option t :=
  match ExchangeChannel.recv_raw (upstream self) with
  | Ready (m, up) => q ← fifo_send (responses self) m; Some (mk up q (accumulated self) (back self) (yielded self))
  | Pending => None
  end.

(** The sender puts a message into the upstream channel. *)
Definition send (self : t) (message : Message.t) : outcome (poll (t * option Message.t)) :=
  r ← ExchangeChannel.send (upstream self) message;
  Ret (match r with
       | Ready (up, e) => Ready (mk up (responses self) (accumulated self) (back self) (yielded self), e)
       | Pending => Pending
       end).

End remote.

End RemoteExchange.
