(* ===== verification/ExchangeSpec.v ===== *)
(** * Exchange channels never lose permits and never deadlock

    For the channel of [Exchange.v] with the permits of the remote exchange: permits are
    conserved, messages arrive in order, nothing panics, and once the receiving side has done
    what it can, every message can be sent.  [batched_permits] is kept back from the permits of
    a chunk exactly for that. *)

From Stdlib Require Import ZArith Lia.
From stdpp Require Import base list relations.
From S2P Require Import Prelude Bytes Bits Bitmap Exchange.

Import RemoteExchange.
#[local] Open Scope Z_scope.

(** ** Counting permits *)

Definition record_permits (v : Value.t) : Z := match v with Value.Record p => p | Value.Barrier _ => 0 end.
Definition barrier_permits (v : Value.t) : Z := match v with Value.Record _ => 0 | Value.Barrier p => p end.

Definition value_ok (v : Value.t) : Prop := match v with Value.Record p => 0 ≤ p | Value.Barrier p => 0 ≤ p end.

Definition total (count : Value.t → Z) (l : list Value.t) : Z := foldr (λ v n, count v + n) 0 l.

Lemma total_app count l1 l2 : total count (l1 ++ l2) = total count l1 + total count l2.
Proof. unfold total. induction l1; simpl; lia. Qed.

Lemma total_perm count l1 l2 : l1 ≡ₚ l2 → total count l1 = total count l2.
Proof. unfold total. induction 1; simpl; lia. Qed.

Lemma total_nonneg count l : Forall (λ v, 0 ≤ count v) l → 0 ≤ total count l.
Proof. unfold total. induction 1; simpl; lia. Qed.

Section spec.
Context {sem : Semaphore} {chan : Fifo} {payload : Payload}.
Implicit Types (st : RemoteExchange.t) (ch : ExchangeChannel.t) (m : Message.t) (msgs : list MessageWithPermits.t).

(** The permits messages carry. *)
Definition carried msgs : list Value.t := omap MessageWithPermits.permits msgs.

Lemma carried_app msgs1 msgs2 : carried (msgs1 ++ msgs2) = carried msgs1 ++ carried msgs2.
Proof. apply omap_app. Qed.

Definition queue st : list MessageWithPermits.t := contents (ExchangeChannel.tx (upstream st)).

Definition in_flight st : list Value.t := carried (queue st ++ contents (responses st)) ++ contents (back st).

Definition free (p : Permits.t) : Z * Z := (available_permits (Permits.records p), available_permits (Permits.barriers p)).

(** Open semaphores that owe nothing. *)
Definition permits_ok (p : Permits.t) : Prop :=
  is_closed (Permits.records p) = false ∧ is_closed (Permits.barriers p) = false ∧ 0 ≤ (free p).1 ∧ 0 ≤ (free p).2.

Abbreviation permits_of st := (ExchangeChannel.permits (upstream st)).

(** Taking and giving back permits. *)
Definition taken (p : Permits.t) (v : list Value.t) (rest : Permits.t) : Prop :=
  permits_ok rest ∧ (free rest).1 = (free p).1 - total record_permits v ∧ (free rest).2 = (free p).2 - total barrier_permits v.

Lemma acquire_taken p v rest : permits_ok p → value_ok v → Permits.acquire_permits p v = Ready (Some rest) → taken p [v] rest.
Proof.
  intros (Hr & Hb & Fr & Fb) Hv Hrun. unfold taken, permits_ok, free in *. destruct v as [n|n]; cbn in *.
  - destruct (Z.le_gt_cases n (available_permits (Permits.records p))) as [Hle|Hlt]; [|by rewrite sem_acquire_pending in Hrun].
    destruct (sem_acquire_ready _ _ Hr (conj Hv Hle)) as (s & Hs & As & Cs). rewrite Hs in Hrun. injection Hrun as <-. cbn. split_and!; try done; lia.
  - destruct (Z.le_gt_cases n (available_permits (Permits.barriers p))) as [Hle|Hlt]; [|by rewrite sem_acquire_pending in Hrun].
    destruct (sem_acquire_ready _ _ Hb (conj Hv Hle)) as (s & Hs & As & Cs). rewrite Hs in Hrun. injection Hrun as <-. cbn. split_and!; try done; lia.
Qed.

Lemma acquire_enough p v : permits_ok p → value_ok v → record_permits v ≤ (free p).1 → barrier_permits v ≤ (free p).2 →
  ∃ rest, Permits.acquire_permits p v = Ready (Some rest).
Proof.
  intros (Hr & Hb & _) Hv H1 H2. destruct v as [n|n]; cbn in *.
  - destruct (sem_acquire_ready _ n Hr (conj Hv H1)) as (s & -> & _). by eexists.
  - destruct (sem_acquire_ready _ n Hb (conj Hv H2)) as (s & -> & _). by eexists.
Qed.

Lemma add_permits_ok p v :
  permits_ok p → 0 ≤ record_permits v → 0 ≤ barrier_permits v →
  (free p).1 + record_permits v ≤ MAX_PERMITS → (free p).2 + barrier_permits v ≤ MAX_PERMITS →
  ∃ p', Permits.add_permits p v = Ret p' ∧ permits_ok p' ∧
    (free p').1 = (free p).1 + record_permits v ∧ (free p').2 = (free p).2 + barrier_permits v.
Proof.
  intros (Hr & Hb & Fr & Fb) N1 N2 M1 M2. unfold permits_ok, free in *. destruct v as [n|n]; cbn in *.
  - destruct (sem_add_spec _ _ N1 M1) as (s & -> & As & Cs). eexists. split; [done|]. cbn. split_and!; try congruence; lia.
  - destruct (sem_add_spec _ _ N2 M2) as (s & -> & As & Cs). eexists. split; [done|]. cbn. split_and!; try congruence; lia.
Qed.

(** ** What a message needs *)

(** What a message needs is positive and within reach of the channel. *)
Lemma required_ok ch m :
  1 ≤ ExchangeChannel.max_chunk_permits ch < 2 ^ 32 →
  ∃ needed, ExchangeChannel.required ch m = Ret needed ∧
    match needed with
    | Some (Value.Record p) => 1 ≤ p ≤ ExchangeChannel.max_chunk_permits ch
    | Some (Value.Barrier p) => p = 1
    | None => True
    end ∧ Forall value_ok (option_list needed).
Proof.
  intros Hmax. destruct m as [c|b|w]; cbn; [|by eexists; repeat constructor..]. unfold ExchangeChannel.clamp.
  rewrite (proj2 (Z.leb_le 1 _)) by lia. cbn. eexists. split; [done|]. cbn. set (card := if _ <? 1 then _ else _).
  assert (1 ≤ card ≤ ExchangeChannel.max_chunk_permits ch) as Hcard by (unfold card; repeat case_match; lia).
  rewrite wrap_small by (unfold is_uint; lia). split; [done|]. repeat constructor. cbn. lia.
Qed.

(** ** Runs *)

Variables initial batched concurrent : Z.

(** What the receiving side does: [get_stream_impl] and [RemoteInput]. *)
Inductive receiver_step : RemoteExchange.t → RemoteExchange.t → Prop :=
  | step_message st st' : serve_message st = Some st' → receiver_step st st'
  | step_receive st st' : receive batched st = Some st' → receiver_step st st'
  | step_permits st st' : serve_permits st = Ret (Some st') → receiver_step st st'.

(** States after sending [sent], with the receiving side interleaved in any way. *)
Inductive reachable : list Message.t → RemoteExchange.t → Prop :=
  | reachable_new ch : ExchangeChannel.channel initial batched concurrent = Ret ch → reachable [] (new ch)
  | reachable_send sent st m st' : reachable sent st → send st m = Ret (Ready (st', None)) → reachable (sent ++ [m]) st'
  | reachable_receiver sent st st' : reachable sent st → receiver_step st st' → reachable sent st'.

(** The configuration: a chunk can take at least one permit, and permits fit their types. *)
Definition config_ok : Prop :=
  0 ≤ batched < initial ∧ initial < 2 ^ 32 ∧ initial ≤ MAX_PERMITS ∧ 1 ≤ concurrent ≤ MAX_PERMITS.

(** ** The invariant *)

Record inv (sent : list Message.t) st : Prop := {
  inv_max : ExchangeChannel.max_chunk_permits (upstream st) = initial - batched;
  inv_connected : connected (ExchangeChannel.tx (upstream st)) = true ∧ connected (responses st) = true ∧ connected (back st) = true;
  inv_permits : permits_ok (permits_of st);
  inv_values : Forall value_ok (in_flight st);
  inv_records : (free (permits_of st)).1 + total record_permits (in_flight st) + accumulated st = initial;
  inv_barriers : (free (permits_of st)).2 + total barrier_permits (in_flight st) = concurrent;
  inv_accumulated : 0 ≤ accumulated st ∧ (accumulated st = 0 ∨ accumulated st < batched);
  inv_order : sent = yielded st ++ (MessageWithPermits.message <$> contents (responses st)) ++ (MessageWithPermits.message <$> queue st)
}.

Hypothesis Hconfig : config_ok.

Lemma values_nonneg st : Forall value_ok (in_flight st) →
  0 ≤ total record_permits (in_flight st) ∧ 0 ≤ total barrier_permits (in_flight st).
Proof.
  intros Hv. split; apply total_nonneg; (eapply Forall_impl; [exact Hv|]); intros [p|p]; cbn; lia.
Qed.

Lemma inv_required sent st m : inv sent st →
  ∃ needed, ExchangeChannel.required (upstream st) m = Ret needed ∧
    match needed with Some (Value.Record p) => 1 ≤ p ≤ initial - batched | Some (Value.Barrier p) => p = 1 | None => True end ∧
    Forall value_ok (option_list needed).
Proof.
  intros I. destruct Hconfig as (Hb & Hi & _). rewrite <-(inv_max _ _ I). apply required_ok. rewrite (inv_max _ _ I). lia.
Qed.

Lemma inv_new ch : ExchangeChannel.channel initial batched concurrent = Ret ch → inv [] (new ch).
Proof.
  intros Hrun. destruct Hconfig as (Hb & Hi & Hm & Hc).
  destruct (sem_new_spec initial) as (r & Hr & Ar & Cr); [lia|]. destruct (sem_new_spec concurrent) as (b & Hbr & Ab & Cb); [lia|].
  unfold ExchangeChannel.channel in Hrun. rewrite Hr, Hbr in Hrun. injection Hrun as <-.
  assert (∀ A, contents (fifo_new : fifo A) = [] ∧ connected (fifo_new : fifo A) = true) as Hnew by (intros; apply fifo_new_spec).
  split; unfold in_flight, queue, permits_ok, free, new; cbn; rewrite ?(proj1 (Hnew _)); cbn; try lia.
  - rewrite wrap_small; [done|]. unfold is_uint. lia.
  - by rewrite !(proj2 (Hnew _)).
  - split_and!; [done..|lia|lia].
  - constructor.
  - done.
Qed.


(** ** Every step keeps it *)

Lemma inv_send sent st m st' : inv sent st → send st m = Ret (Ready (st', None)) → inv (sent ++ [m]) st'.
Proof.
  intros I Hrun. destruct (inv_required _ _ m I) as (needed & Hreq & _ & Hneed).
  unfold send, ExchangeChannel.send in Hrun. rewrite Hreq in Hrun. cbn [mbind outcome_bind] in Hrun.
  destruct I as [Imax (Ic & Icr & Icb) Ip Iv Ir Ib Ia Io].
  destruct (match needed with Some p => _ | None => _ end) as [[rest|]|] eqn:Eacq; [|done..].
  assert (taken (permits_of st) (option_list needed) rest) as (Hrest & F1 & F2).
  { destruct needed as [v|]; [apply acquire_taken; [done|exact (Forall_inv Hneed)|done]|]. injection Eacq as <-. split; [done|]. cbn. lia. }
  destruct (fifo_send_spec _ (MessageWithPermits.mk _ m needed) Ic) as (q & Hq & Cq & Nq). cbn in Hrun. rewrite Hq in Hrun. injection Hrun as <-.
  assert (∀ st', upstream st' = ExchangeChannel.with_tx (ExchangeChannel.with_permits (upstream st) rest) q → responses st' = responses st →
    back st' = back st → in_flight st' ≡ₚ option_list needed ++ in_flight st) as Hfl.
  { intros st' E1 E2 E3. unfold in_flight, queue. rewrite E1, E2, E3. cbn. rewrite Cq, !carried_app. cbn. destruct needed; cbn; solve_Permutation. }
  specialize (Hfl (mk (ExchangeChannel.with_tx (ExchangeChannel.with_permits (upstream st) rest) q) (responses st) (accumulated st) (back st) (yielded st)) eq_refl eq_refl eq_refl).
  split; try done; cbn in *.
  - rewrite Hfl. by apply Forall_app_2.
  - rewrite (total_perm _ _ _ Hfl), total_app. lia.
  - rewrite (total_perm _ _ _ Hfl), total_app. lia.
  - unfold queue. cbn. rewrite Io, Cq, fmap_app. by rewrite !app_assoc.
Qed.

Lemma message_step sent st :
  inv sent st → queue st ≠ [] → ∃ st', serve_message st = Some st'.
Proof.
  intros I Hne. destruct (inv_connected _ _ I) as (_ & Icr & _). destruct (queue st) as [|m l] eqn:E; [done|].
  destruct (fifo_recv_spec _ _ _ E) as (q & Hq & _). destruct (fifo_send_spec _ m Icr) as (r & Hr & _).
  unfold serve_message, ExchangeChannel.recv_raw. rewrite Hq. cbn. rewrite Hr. by eexists.
Qed.

Lemma inv_message sent st st' :
  inv sent st → serve_message st = Some st' →
  inv sent st' ∧ length (queue st) = S (length (queue st')) ∧ length (contents (responses st')) = S (length (contents (responses st))) ∧
  back st' = back st.
Proof.
  intros I Hrun. destruct I as [Imax (Ic & Icr & Icb) Ip Iv Ir Ib Ia Io]. unfold serve_message, ExchangeChannel.recv_raw in Hrun.
  destruct (queue st) as [|m l] eqn:E; [by rewrite fifo_recv_empty in Hrun|].
  destruct (fifo_recv_spec _ _ _ E) as (q & Hq & Cq & Nq). destruct (fifo_send_spec _ m Icr) as (r & Hr & Cr & Nr).
  rewrite Hq in Hrun. cbn in Hrun. rewrite Hr in Hrun. injection Hrun as <-.
  assert (∀ st', ExchangeChannel.tx (upstream st') = q → responses st' = r → back st' = back st → in_flight st' ≡ₚ in_flight st) as Hfl.
  { intros st' E1 E2 E3. unfold in_flight. rewrite E. unfold queue. rewrite E1, E2, E3, Cq, Cr, !carried_app. cbn.
    destruct (MessageWithPermits.permits m); cbn; solve_Permutation. }
  specialize (Hfl (mk (ExchangeChannel.with_tx (upstream st) q) r (accumulated st) (back st) (yielded st)) eq_refl eq_refl eq_refl).
  split; [split; try done; cbn in *|].
  - by rewrite Nq.
  - by rewrite Hfl.
  - by rewrite (total_perm _ _ _ Hfl).
  - by rewrite (total_perm _ _ _ Hfl).
  - unfold queue. cbn. rewrite Io, Cq, Cr, fmap_app, <-app_assoc. by csimpl.
  - unfold queue. cbn. rewrite Cq, Cr, length_app. cbn. split_and!; [done|lia|done].
Qed.

(** [RemoteInput] keeps less than a batch back. *)
Lemma add_back_ok acc v acc' out :
  0 ≤ acc ∧ (acc = 0 ∨ acc < batched) → Forall value_ok (option_list v) → acc + total record_permits (option_list v) ≤ initial →
  add_back_permits batched acc v = (acc', out) →
  (0 ≤ acc' ∧ (acc' = 0 ∨ acc' < batched)) ∧ Forall value_ok (option_list out) ∧
  acc' + total record_permits (option_list out) = acc + total record_permits (option_list v) ∧
  total barrier_permits (option_list out) = total barrier_permits (option_list v).
Proof.
  intros [Ha Hb] Hv Hle Hrun. destruct Hconfig as (Hbi & Hi & _). destruct v as [[n|n]|]; cbn in *.
  - rewrite Forall_singleton in Hv. cbn in Hv. rewrite !wrap_small in Hrun by (unfold is_uint; lia).
    destruct (Z.leb_spec batched (acc + n)); injection Hrun as <- <-; cbn; split_and!; try lia; try done.
    apply Forall_singleton. cbn. lia.
  - injection Hrun as <- <-. done.
  - injection Hrun as <- <-. done.
Qed.

Lemma receive_step sent st : inv sent st → contents (responses st) ≠ [] → ∃ st', receive batched st = Some st'.
Proof.
  intros I Hne. destruct (inv_connected _ _ I) as (_ & _ & Icb). destruct (contents (responses st)) as [|m l] eqn:E; [done|].
  destruct (fifo_recv_spec _ _ _ E) as (q & Hq & _). unfold receive. rewrite Hq. destruct (add_back_permits _ _ _) as [acc [v|]]; [|by eexists].
  destruct (fifo_send_spec _ v Icb) as (r & Hr & _). rewrite Hr. by eexists.
Qed.

Lemma inv_receive sent st st' :
  inv sent st → receive batched st = Some st' →
  inv sent st' ∧ length (contents (responses st)) = S (length (contents (responses st'))) ∧ queue st' = queue st ∧
  (length (contents (back st')) ≤ S (length (contents (back st))))%nat.
Proof.
  intros I Hrun. destruct I as [Imax (Ic & Icr & Icb) Ip Iv Ir Ib Ia Io]. unfold receive in Hrun.
  destruct (contents (responses st)) as [|m l] eqn:E; [by rewrite fifo_recv_empty in Hrun|].
  destruct (fifo_recv_spec _ _ _ E) as (q & Hq & Cq & Nq). rewrite Hq in Hrun.
  destruct (add_back_permits batched (accumulated st) (MessageWithPermits.permits m)) as [acc out] eqn:Eb.
  assert (in_flight st ≡ₚ option_list (MessageWithPermits.permits m) ++ carried (queue st ++ l) ++ contents (back st)) as Hfl.
  { unfold in_flight. rewrite E, !carried_app. cbn. destruct (MessageWithPermits.permits m); cbn; solve_Permutation. }
  rewrite Hfl in Iv. rewrite (total_perm _ _ _ Hfl), total_app in Ir. rewrite (total_perm _ _ _ Hfl), total_app in Ib. apply Forall_app in Iv as [Ivm Ivr].
  assert (0 ≤ total record_permits (carried (queue st ++ l) ++ contents (back st))) as Hnn.
  { apply total_nonneg. eapply Forall_impl; [exact Ivr|]. intros [p|p]; cbn; lia. }
  destruct Ip as (Cr & Cb & F1 & F2).
  destruct (add_back_ok _ _ _ _ Ia Ivm ltac:(lia) Eb) as (Ha & Ho & Tr & Tb).
  assert (∃ b, (match out with Some p => fifo_send (back st) p | None => Some (back st) end) = Some b ∧
    contents b = contents (back st) ++ option_list out ∧ connected b = true) as (b & Hb & Cbk & Nb).
  { destruct out as [v|]; [exact (fifo_send_spec _ v Icb)|]. exists (back st). by rewrite app_nil_r. }
  rewrite Hb in Hrun. cbn in Hrun. injection Hrun as <-.
  assert (∀ st', upstream st' = upstream st → responses st' = q → back st' = b →
    in_flight st' ≡ₚ option_list out ++ carried (queue st ++ l) ++ contents (back st)) as Hfl'.
  { intros st' E1 E2 E3. unfold in_flight, queue. rewrite E1, E2, E3, Cq, Cbk. solve_Permutation. }
  specialize (Hfl' (mk (upstream st) q acc b (yielded st ++ [MessageWithPermits.message m])) eq_refl eq_refl eq_refl).
  split; [split; try done; cbn in *|].
  - by rewrite Nq.
  - rewrite Hfl'. by apply Forall_app_2.
  - rewrite (total_perm _ _ _ Hfl'), total_app. lia.
  - rewrite (total_perm _ _ _ Hfl'), total_app. lia.
  - unfold queue in *. cbn. rewrite Io, Cq. csimpl. by rewrite <-app_assoc.
  - unfold queue. cbn. rewrite Cq, Cbk, length_app. split_and!; [done..|]. destruct out; cbn; lia.
Qed.

Lemma permits_step sent st :
  inv sent st → contents (back st) ≠ [] →
  ∃ st', serve_permits st = Ret (Some st') ∧ inv sent st' ∧ length (contents (back st)) = S (length (contents (back st'))) ∧
    queue st' = queue st ∧ responses st' = responses st.
Proof.
  intros I Hne. destruct I as [Imax (Ic & Icr & Icb) Ip Iv Ir Ib Ia Io]. destruct Hconfig as (_ & _ & Hmi & Hmc).
  destruct (contents (back st)) as [|v l] eqn:E; [done|]. destruct (fifo_recv_spec _ _ _ E) as (q & Hq & Cq & Nq).
  assert (in_flight st ≡ₚ v :: carried (queue st ++ contents (responses st)) ++ l) as Hfl by (unfold in_flight; rewrite E; solve_Permutation).
  rewrite Hfl in Iv. rewrite (total_perm _ _ _ Hfl) in Ir. rewrite (total_perm _ _ _ Hfl) in Ib. cbn [total foldr] in Ir, Ib. apply Forall_cons in Iv as [Ivv Ivr].
  assert (∀ count, (∀ v, value_ok v → 0 ≤ count v) → 0 ≤ total count (carried (queue st ++ contents (responses st)) ++ l)) as Hnn.
  { intros count Hc. apply total_nonneg. eapply Forall_impl; [exact Ivr|]. apply Hc. }
  pose proof (Hnn record_permits ltac:(intros [p|p]; cbn; lia)). pose proof (Hnn barrier_permits ltac:(intros [p|p]; cbn; lia)).
  fold (total record_permits (carried (queue st ++ contents (responses st)) ++ l)) in Ir.
  fold (total barrier_permits (carried (queue st ++ contents (responses st)) ++ l)) in Ib.
  pose proof Ip as (_ & _ & F1 & F2).
  destruct (add_permits_ok (permits_of st) v Ip) as (p' & Hp & Hok & P1 & P2); [destruct v; cbn in *; lia..|lia|lia|].
  eexists. unfold serve_permits. rewrite Hq, Hp. split; [done|]. split; [split; try done; cbn in *|].
  - by rewrite Nq.
  - unfold in_flight, queue in *. cbn. by rewrite Cq.
  - unfold in_flight, queue in *. cbn. rewrite Cq. lia.
  - unfold in_flight, queue in *. cbn. rewrite Cq. lia.
  - cbn. by rewrite Cq.
Qed.

Lemma inv_permits_step sent st st' :
  inv sent st → serve_permits st = Ret (Some st') →
  inv sent st' ∧ length (contents (back st)) = S (length (contents (back st'))) ∧ queue st' = queue st ∧ responses st' = responses st.
Proof.
  intros I Hrun. destruct (decide (contents (back st) = [])) as [E|Hne].
  - unfold serve_permits in Hrun. by rewrite fifo_recv_empty in Hrun.
  - destruct (permits_step _ _ I Hne) as (st2 & Hs & ?). rewrite Hs in Hrun. by injection Hrun as <-.
Qed.

(** Work left for the receiving side. *)
Definition measure st : nat := 3 * length (queue st) + 2 * length (contents (responses st)) + length (contents (back st)).

Lemma inv_receiver_step sent st st' : inv sent st → receiver_step st st' → inv sent st' ∧ (measure st' < measure st)%nat.
Proof.
  intros I Hs. unfold measure. destruct Hs as [st st' Hs|st st' Hs|st st' Hs].
  - destruct (inv_message _ _ _ I Hs) as (? & E1 & E2 & ->). split; [done|]. lia.
  - destruct (inv_receive _ _ _ I Hs) as (? & E1 & -> & E2). split; [done|]. lia.
  - destruct (inv_permits_step _ _ _ I Hs) as (? & E1 & -> & ->). split; [done|]. lia.
Qed.

Lemma exchange_inv sent st : reachable sent st → inv sent st.
Proof.
  induction 1 as [ch Hch|sent st m st' _ IH Hs|sent st st' _ IH Hs]; [by apply inv_new|by eapply inv_send|by eapply inv_receiver_step].
Qed.

(** Sending is pending or succeeds, and succeeds with enough permits. *)
Lemma send_cases sent st m : inv sent st → send st m = Ret Pending ∨ ∃ st', send st m = Ret (Ready (st', None)).
Proof.
  intros I. destruct (inv_required _ _ m I) as (needed & Hreq & _ & Hneed).
  destruct (inv_connected _ _ I) as (Ic & _). destruct (inv_permits _ _ I) as (Cr & Cb & _). unfold send, ExchangeChannel.send. rewrite Hreq. cbn [mbind outcome_bind].
  destruct (match needed with Some p => _ | None => _ end) as [[rest|]|] eqn:E; [| |by left].
  - right. destruct (fifo_send_spec _ (MessageWithPermits.mk _ m needed) Ic) as (q & Hq & _). cbn. rewrite Hq. by eexists.
  - exfalso. destruct needed as [[n|n]|]; [| |done]; cbn in E.
    + destruct (Z.le_gt_cases n (available_permits (Permits.records (permits_of st)))) as [Hle|Hlt]; [|by rewrite sem_acquire_pending in E].
      destruct (sem_acquire_ready _ _ Cr (conj (Forall_inv Hneed) Hle)) as (s & Hs & _). by rewrite Hs in E.
    + destruct (Z.le_gt_cases n (available_permits (Permits.barriers (permits_of st)))) as [Hle|Hlt]; [|by rewrite sem_acquire_pending in E].
      destruct (sem_acquire_ready _ _ Cb (conj (Forall_inv Hneed) Hle)) as (s & Hs & _). by rewrite Hs in E.
Qed.

Lemma send_enough sent st m :
  inv sent st → initial - batched ≤ (free (permits_of st)).1 → 1 ≤ (free (permits_of st)).2 → ∃ st', send st m = Ret (Ready (st', None)).
Proof.
  intros I F1 F2. destruct (inv_required _ _ m I) as (needed & Hreq & Hneed & Hv).
  destruct (inv_connected _ _ I) as (Ic & _). unfold send, ExchangeChannel.send. rewrite Hreq. cbn [mbind outcome_bind].
  assert (∃ rest, match needed with Some p => Permits.acquire_permits (permits_of st) p | None => Ready (Some (permits_of st)) end =
    Ready (Some rest)) as (rest & ->).
  { destruct needed as [v|]; [|by eexists]. destruct Hconfig as (Hb & _).
    apply acquire_enough; [apply (inv_permits _ _ I)|exact (Forall_inv Hv)|..]; destruct v; cbn in Hneed; cbn [record_permits barrier_permits]; lia. }
  destruct (fifo_send_spec _ (MessageWithPermits.mk _ m needed) Ic) as (q & Hq & _). cbn. rewrite Hq. by eexists.
Qed.

(** When the receiving side can do nothing, everything has arrived. *)
Lemma receiver_idle sent st :
  inv sent st → ¬ (∃ st', receiver_step st st') → queue st = [] ∧ contents (responses st) = [] ∧ contents (back st) = [].
Proof.
  intros I Hstuck. split_and!.
  - destruct (decide (queue st = [])) as [|Hne]; [done|]. destruct (message_step _ _ I Hne) as [st' Hs]. destruct Hstuck. exists st'. by constructor 1.
  - destruct (decide (contents (responses st) = [])) as [|Hne]; [done|]. destruct (receive_step _ _ I Hne) as [st' Hs]. destruct Hstuck. exists st'. by constructor 2.
  - destruct (decide (contents (back st) = [])) as [|Hne]; [done|]. destruct (permits_step _ _ I Hne) as (st' & Hs & _). destruct Hstuck. exists st'. by constructor 3.
Qed.

(** C25: permits of the remote exchange are conserved and messages arrive in order.  However
    sending, serving and receiving interleave: the messages sent are those yielded followed by
    those under way; the free permits, those of the messages and batches under way and those
    [RemoteInput] has accumulated add up to the initial permits, so that no more rows and
    barriers than permits are ever under way; sending never panics or fails, it only waits; and
    permits given back never overflow the semaphores. *)
Theorem exchange_conserves_permits sent st :
  reachable sent st →
  sent = yielded st ++ (MessageWithPermits.message <$> contents (responses st)) ++ (MessageWithPermits.message <$> queue st) ∧
  (free (permits_of st)).1 + total record_permits (in_flight st) + accumulated st = initial ∧
  (free (permits_of st)).2 + total barrier_permits (in_flight st) = concurrent ∧
  0 ≤ total record_permits (in_flight st) ≤ initial ∧ 0 ≤ total barrier_permits (in_flight st) ≤ concurrent ∧
  (∀ m, send st m = Ret Pending ∨ ∃ st', send st m = Ret (Ready (st', None))) ∧
  serve_permits st ≠ Panic.
Proof.
  intros I%exchange_inv. destruct (values_nonneg _ (inv_values _ _ I)) as [N1 N2]. pose proof (inv_records _ _ I) as Ir.
  pose proof (inv_barriers _ _ I) as Ib. destruct (inv_permits _ _ I) as (_ & _ & F1 & F2). destruct (inv_accumulated _ _ I) as [Ha _].
  split; [apply (inv_order _ _ I)|]. split; [done|]. split; [done|]. split; [lia|]. split; [lia|]. split; [intros m; by eapply send_cases|].
  destruct (decide (contents (back st) = [])) as [E|Hne]; [unfold serve_permits; by rewrite fifo_recv_empty|].
  destruct (permits_step _ _ I Hne) as (st' & Hs & _). by rewrite Hs.
Qed.

(** C7: the exchange never deadlocks.  From every state, whatever the receiving side does next,
    it runs out of work after a bounded number of steps; and when it has none left, every
    message has been yielded in order and any message can be sent at once, even a chunk with
    more rows than there are permits and with permits held back for the next batch. *)
Theorem exchange_never_deadlocks sent st n st' :
  reachable sent st → nsteps receiver_step n st st' →
  (n ≤ measure st)%nat ∧
  (¬ (∃ st'', receiver_step st' st'') →
   yielded st' = sent ∧ ∀ m, ∃ st'', send st' m = Ret (Ready (st'', None))).
Proof.
  intros I%exchange_inv Hn. assert (inv sent st' ∧ (n + measure st' ≤ measure st)%nat) as [I' Hle].
  { induction Hn as [st|n st st1 st2 Hs _ IH]; [split; [done|lia]|]. destruct (inv_receiver_step _ _ _ I Hs) as [I1 Hm].
    destruct (IH I1). split; [done|lia]. }
  split; [lia|]. intros Hidle. destruct (receiver_idle _ _ I' Hidle) as (Eq & Er & Eb). pose proof (inv_order _ _ I') as Ho.
  rewrite Er, Eq in Ho. csimpl in Ho. rewrite app_nil_r in Ho. split; [done|]. intros m.
  pose proof (inv_records _ _ I') as Ir. pose proof (inv_barriers _ _ I') as Ib.
  assert (in_flight st' = []) as Hfl by (unfold in_flight; by rewrite Eq, Er, Eb). rewrite Hfl in Ir, Ib.
  cbn [total foldr] in Ir, Ib. destruct (inv_accumulated _ _ I'). destruct Hconfig as (Hb & _ & _ & Hc).
  eapply send_enough; [exact I'|lia|lia].
Qed.

(** A channel whose receiver is gone never blocks the sender.  After the receiver is
    dropped, sending any message returns at once with the error that carries the message; and
    in the local exchange receiving gives back exactly the permits of the message, so that
    sending and receiving restores the free permits. *)
Theorem exchange_closed_and_local ch m :
  1 ≤ ExchangeChannel.max_chunk_permits ch →
  (∃ ch', ExchangeChannel.send (ExchangeChannel.drop_receiver ch) m = Ret (Ready (ch', Some m))) ∧
  ∀ ch1, ExchangeChannel.max_chunk_permits ch < 2 ^ 32 → permits_ok (ExchangeChannel.permits ch) →
    (free (ExchangeChannel.permits ch)).1 ≤ MAX_PERMITS → (free (ExchangeChannel.permits ch)).2 ≤ MAX_PERMITS →
    contents (ExchangeChannel.tx ch) = [] → connected (ExchangeChannel.tx ch) = true →
    ExchangeChannel.send ch m = Ret (Ready (ch1, None)) →
    ∃ ch2, ExchangeChannel.recv ch1 = Ret (Ready (m, ch2)) ∧ ExchangeChannel.try_recv ch1 = Ret (Some (m, ch2)) ∧
      free (ExchangeChannel.permits ch2) = free (ExchangeChannel.permits ch) ∧
      contents (ExchangeChannel.tx ch2) = [] ∧ ExchangeChannel.recv ch2 = Ret Pending.
Proof.
  intros Hmax. split.
  - set (dead := ExchangeChannel.drop_receiver ch). assert (ExchangeChannel.max_chunk_permits dead = ExchangeChannel.max_chunk_permits ch) as Em by done.
    assert (∃ needed, ExchangeChannel.required dead m = Ret needed) as (needed & Hreq).
    { destruct m as [c|b|w]; cbn; [|by eexists..]. unfold ExchangeChannel.clamp. rewrite (proj2 (Z.leb_le 1 _)) by lia. by eexists. }
    unfold ExchangeChannel.send. rewrite Hreq. cbn [mbind outcome_bind]. destruct needed as [[n|n]|]; cbn;
      rewrite ?sem_acquire_closed, ?fifo_send_dropped by (apply sem_close_spec || apply fifo_drop_spec); by eexists.
  - intros ch1 Hlt Hok M1 M2 Hq Hc Hrun. destruct (required_ok ch m) as (needed & Hreq & _ & Hv); [lia|].
    unfold ExchangeChannel.send in Hrun. rewrite Hreq in Hrun. cbn [mbind outcome_bind] in Hrun.
    destruct (match needed with Some p => _ | None => _ end) as [[rest|]|] eqn:Eacq; [|done..].
    assert (taken (ExchangeChannel.permits ch) (option_list needed) rest) as (Hrest & F1 & F2).
    { destruct needed as [v|]; [apply acquire_taken; [done|exact (Forall_inv Hv)|done]|]. injection Eacq as <-. split; [done|]. cbn. lia. }
    destruct (fifo_send_spec _ (MessageWithPermits.mk _ m needed) Hc) as (q & Hs & Cq & Nq). cbn in Hrun. rewrite Hs in Hrun. injection Hrun as <-.
    rewrite Hq in Cq. destruct (fifo_recv_spec _ _ _ Cq) as (q' & Hr & Cq' & Nq').
    assert (∃ p, ExchangeChannel.give_back (ExchangeChannel.with_tx (ExchangeChannel.with_tx (ExchangeChannel.with_permits ch rest) q) q') needed =
      Ret (ExchangeChannel.mk q' p (ExchangeChannel.max_chunk_permits ch)) ∧ free p = free (ExchangeChannel.permits ch)) as (p & Hg & Hp).
    { assert (∀ a b : Z * Z, a.1 = b.1 → a.2 = b.2 → a = b) as Heq by (intros [] []; cbn; congruence).
      assert (∀ count, total count (option_list needed) = from_option count 0 needed) as Ht by (intros; destruct needed; cbn; lia).
      rewrite Ht in F1. rewrite Ht in F2. destruct needed as [v|]; cbn [from_option] in *; [|exists rest; split; [done|apply Heq; lia]].
      assert (value_ok v) as Hvv by exact (proj1 (Forall_singleton value_ok v) Hv). destruct (add_permits_ok rest v Hrest) as (p & Hadd & _ & G1 & G2); [destruct v; cbn in *; lia..|lia|lia|].
      exists p. cbn. rewrite Hadd. split; [done|]. apply Heq; lia. }
    exists (ExchangeChannel.mk q' p (ExchangeChannel.max_chunk_permits ch)).
    unfold ExchangeChannel.recv, ExchangeChannel.try_recv, ExchangeChannel.recv_raw. cbn [ExchangeChannel.tx ExchangeChannel.with_tx]. rewrite Hr.
    cbn [MessageWithPermits.permits MessageWithPermits.message]. rewrite Hg. cbn [mbind outcome_bind]. split_and!; [done..|].
    cbn [ExchangeChannel.tx]. by rewrite fifo_recv_empty.
Qed.

End spec.

(** ** An implementation of the classes, and a run *)

Record counter := { count : Z; closed : bool }.

#[local] Program Instance counter_semaphore : Semaphore := {|
  semaphore := counter; MAX_PERMITS := 2 ^ 61 - 1;
  sem_new n := Ret {| count := n; closed := false |};
  sem_add_permits s n := Ret {| count := count s + n; closed := closed s |};
  sem_acquire_many s n :=
    if closed s then Ready None
    else if n <=? count s then Ready (Some {| count := count s - n; closed := false |}) else Pending;
  sem_close s := {| count := count s; closed := true |};
  available_permits := count; is_closed := closed |}.
Next Obligation. intros n _. by eexists. Qed.
Next Obligation. intros s n _ _. by eexists. Qed.
Next Obligation. intros s n Hs. cbn. by rewrite Hs. Qed.
Next Obligation. intros s n Hs Hn. cbn in *. rewrite Hs, (proj2 (Z.leb_le _ _)) by lia. by eexists. Qed.
Next Obligation. intros s n Hs Hn. cbn in *. by rewrite Hs, (proj2 (Z.leb_gt _ _)) by lia. Qed.
Next Obligation. done. Qed.

#[local] Program Instance list_fifo : Fifo := {|
  fifo A := (list A * bool)%type;
  fifo_new A := ([], true);
  fifo_send A q x := if q.2 : bool then Some (q.1 ++ [x], true) else None;
  fifo_recv A q := match q.1 with x :: l => Ready (x, (l, q.2)) | [] => Pending end;
  fifo_drop A q := (q.1, false);
  contents A q := q.1; connected A q := q.2 |}.
Next Obligation. done. Qed.
Next Obligation. intros A [l b] x Hb. cbn in *. rewrite Hb. by eexists. Qed.
Next Obligation. intros A [l b] x Hb. cbn in *. by rewrite Hb. Qed.
Next Obligation. intros A [l b] x l' Hl. cbn in *. rewrite Hl. by eexists. Qed.
Next Obligation. intros A [l b] Hl. cbn in *. by rewrite Hl. Qed.
Next Obligation. done. Qed.

#[local] Instance unit_payload : Payload := {| columns := unit; ops := unit; barrier_inner := unit; watermark := unit |}.

(** A chunk with more rows than it may take permits, and a barrier; then the chunk arrives. *)
Definition big_chunk : Message.t := Message.Chunk (StreamChunk.mk _ tt (DataChunk.mk _ tt (Bitmap.ones 10))).
Definition a_barrier : Message.t := Message.Barrier tt.

Definition channel_8 : ExchangeChannel.t :=
  ExchangeChannel.mk ([], true) (Permits.mk {| count := 8; closed := false |} {| count := 1; closed := false |}) 6.

Definition after (st : RemoteExchange.t) (r : outcome (poll (RemoteExchange.t * option Message.t))) : RemoteExchange.t :=
  match r with Ret (Ready (st', _)) => st' | _ => st end.

Definition sent_both : RemoteExchange.t :=
  let st := after (new channel_8) (send (new channel_8) big_chunk) in after st (send st a_barrier).

Lemma config_8_ok : config_ok 8 2 1.
Proof. unfold config_ok. cbn. lia. Qed.

Lemma sent_both_reachable : reachable 8 2 1 [big_chunk; a_barrier] sent_both.
Proof.
  change [big_chunk; a_barrier] with (([] ++ [big_chunk]) ++ [a_barrier]).
  eapply reachable_send; [eapply reachable_send; [by apply reachable_new|]|]; by vm_compute.
Qed.

Lemma exchange_conserves_permits_witness : (free (ExchangeChannel.permits (upstream sent_both))).1 + 6 = 8.
Proof.
  destruct (exchange_conserves_permits 8 2 1 config_8_ok _ _ sent_both_reachable) as (_ & Hr & _).
  etransitivity; [|exact Hr]. by vm_compute.
Defined.

Definition served (st : RemoteExchange.t) : RemoteExchange.t := default st (serve_message st).
Definition received (st : RemoteExchange.t) : RemoteExchange.t := default st (receive 2 st).
Definition returned (st : RemoteExchange.t) : RemoteExchange.t := match serve_permits st with Ret (Some st') => st' | _ => st end.

Definition drained : RemoteExchange.t := returned (returned (received (received (served (served sent_both))))).

Lemma exchange_never_deadlocks_witness :
  (6 ≤ measure sent_both)%nat ∧ yielded drained = [big_chunk; a_barrier] ∧ ∃ st, send drained big_chunk = Ret (Ready (st, None)).
Proof.
  destruct (exchange_never_deadlocks 8 2 1 config_8_ok _ _ 6 drained sent_both_reachable) as [Hn Hidle].
  - do 6 (eapply nsteps_l; [first [by apply step_message; vm_compute | by apply step_receive; vm_compute | by apply step_permits; vm_compute]|]).
    by vm_compute; constructor.
  - split; [exact Hn|]. destruct Hidle as [Hy Hs]; [|split; [exact Hy|apply Hs]].
    intros (st & Hst). revert Hst. unfold drained. vm_compute. intros Hst. inversion Hst; subst; discriminate.
Defined.

Lemma exchange_closed_and_local_witness :
  ∃ ch, ExchangeChannel.send (ExchangeChannel.drop_receiver channel_8) a_barrier = Ret (Ready (ch, Some a_barrier)).
Proof. apply (exchange_closed_and_local channel_8 a_barrier). cbn. lia. Defined.
